(* ===== verification/_CoqProject ===== *)
-Q . S2P
Prelude.v
JsMap.v
Keys.v
Journal.v
Org.v
OwnedName.v
Work.v
Prog.v
Faults.v
Closure.v
Claim.v
Alone.v
Locks.v
Json.v
Hash.v
Format.v
Shard.v
Taint.v
RunIdentity.v
Cost.v
ToolTypes.v
Limits.v
Outcome.v
DurableModel.v
RunCost.v
Budget.v
BudgetUsage.v
BudgetRaces.v
ThreadOwner.v
Retention.v
RetentionFacts.v
RetentionCascade.v
RetentionSweep.v
RetentionSweepFacts.v
RetentionThreads.v
RetentionThreadFacts.v
ToolStore.v
ToolGuards.v
DurableTool.v
ToolSafety.v
ToolAlone.v
Compensation.v
Queue.v
QueueJobs.v
QueueWork.v
Events.v
EventsSafety.v
EventsPoll.v
Cron.v
Scheduler.v
SchedulerSafety.v
SchedulerFire.v
ModelReplay.v
ModelSteps.v
ModelStreams.v
Approvals.v
MemoryAppend.v
Workflow.v
WorkflowFrame.v
WorkflowEffects.v
WorkflowRuns.v
WorkflowAgree.v
WorkflowRetry.v
WorkflowFork.v
Access.v
Http.v
Gate.v
GateRecord.v
Jwt.v
JwtFacts.v
RoleAuth.v
RoleAuthFacts.v
Exposure.v
Users.v
