(* ===== verification/Prelude.v ===== *)
(** * GNL durable execution engine: verification library

    The repository is a TypeScript framework for AI agents whose runs survive crashes.
    Its core is [packages/durable]: every model step and every tool call of a run is a
    record in a journal (a key-value store with a few atomic operations), a resumed run
    replays the recorded steps, and side effects are guarded by claims, so that a payment
    is not made twice.  This library models that core and the packages that stand directly
    on it, and proves what they promise.

    ** How programs are modelled

    A JavaScript [Map] is an association list in insertion order ([JsMap]); the in-memory
    journal is a record of such maps with pure operations ([Journal]).  An [async] function
    is a tree of requests ([Prog]): one node per [await] on the journal, a clock, a timer or
    a host callback.  [run] executes one program alone; [pool_step] interleaves any number
    of them on one journal, lets every request fail before or after taking effect, lets the
    clocks move, and lets programs crash (they are never scheduled again).  The concurrency
    theorems quantify over all reachable states of such pools; most go through the
    rely/guarantee judgement [safe] and [pool_safe].  Values of the journal are abstract
    where the component does not look into them ([JsValue], with typed views [Embed]), and
    the inductive type [entry] ([ToolTypes]) where it does.

    ** Parts, files and sources (under src/packages)

    - [Prelude], [JsMap], [Prog]: notation, tactics, strings, decimal numerals, lists;
      JavaScript maps; programs and pools.  No source of their own.
    - [Faults]: pools whose answers are restricted (no storage failure is a suspension, clocks within a window), how
      a request ends, and programs that make only some requests.  No source of its own.
    - [Closure]: programs with a state that survives their errors (the variables of a JavaScript closure), and
      the clients that call one of its functions again and again, after errors too.  No source of its own.
    - [Keys]: the key builders [runKeys] and the key parsers of durable/src/journal.ts and
      format.ts.  Keys are injective and parse back; dedup keys never read as run records.
    - [Journal]: [InMemoryJournal] and the run reader (journal.ts).  Atomic batches,
      counters, prefix deletion, pagination, run reading and run status.
    - [Org]: organizations on one journal (organization.ts, org-storage.ts): [withOrg] as a
      wrapper of the journal port, shown to be a private journal per organization
      whatever the others do; the paged run list; two defects of the storage wrapper.
    - [Claim]: [claim], [frozenGet], [ctxGet], [loadReplayCache] (journal.ts).  Exclusive
      claims and agreement on frozen decisions under every interleaving.
    - [Alone]: what a write of a program that runs alone leaves.  No source of its own.
    - [Locks]: run-lock.ts and lease.ts.  Mutual exclusion, untouchable live locks.
    - [Json], [Hash]: [stableStringify] and the derived run ids (hash.ts).  Equal values have
      equal texts, tags cannot be forged, run identities are injective encodings.
    - [Format]: versioned records and their upgrade (format.ts).
    - [Shard]: counters spread over shards (counter-shard.ts).
    - [Taint]: taint marks, provenance and incidents (taint.ts, incidents.ts).
    - [RunIdentity]: callers, owners, access and admission (run-identity.ts).  Whoever is
      admitted acts for the owner that the record names.
    - [Cost]: usage and prices (cost.ts, pricing.ts, sdk-compat.ts).
    - [ToolTypes]: the records of the tool engine and the preset policies (types of
      journal.ts and limits.ts, policy-matrix.ts).
    - [Limits]: counters, repeat chain, step limits and tool gate (limits.ts).
    - [Outcome] (outcome.ts, cancel.ts): the verdict of a run and its cancellation.  In every interleaving a
      verdict only moves forward; what a cancel leaves, exactly.
    - [DurableModel] (durable-model.ts): the steps of the model: records, claims, replay, and the write-ahead
      copy of a streamed step.  What calls them (the AI SDK) is any client: it asks for steps with any
      parameters, after an error again or not, and its next question may depend on all answers.
      [ModelReplay]: over any attempts of any clients, crashed anywhere, all that end were given the
      same answers, a crash costs one call of the model and a call after an error one more, and the last attempt
      replays and then goes on.
      [ModelSteps]: one step on every branch, with any options and limits.  [ModelStreams]: a tool call that was handed on survives a crash in the
      middle of a stream; a cancelled run calls no model.
    - [Approvals] (run.ts, [resolveApprovals] and [hasRunProbe]): the answers of humans.  A decision whose call was
      carried out is not rewritten by any answers, interleaved in any way; one round of answers exactly; an
      execution in which a denial is written after the call succeeded.
    - [MemoryAppend] (run.ts, [writeAheadIncoming] to [recordAppendedTaintProvenance]): what a run writes into its
      conversation.  Within the time of a claim, any attempts store the question and the answer once;
      one turn on every branch, on memories with and without batches of their own; an execution past that
      time that stores the answer twice.
    - [ToolStore], [ToolGuards], [DurableTool]: one durable tool call (durable-tool.ts), from
      its keys through replay, approvals, duplicate and taint ladders, gate, claim loop and
      take-over to execution.  [ToolSafety]: a side effect is executed at most once whatever
      the interleaving; a race of the approved take-over.  [ToolAlone]: what successive calls
      do, and that retries are bounded, every call after them being refused.
    - [Compensation]: undoing an abandoned run (compensation.ts).  One pass exactly; over any
      number of passes an executed call is undone once and its hook not called again; condemnation before any hook, the provider key of the probe.
    - [OwnedName]: names within an owner (owned-name.ts): stored names parse back to their owner
      and name, and an owner's prefix covers exactly that owner's names.
    - [Work]: the work store of storage.ts and in-memory-storage.ts: logs read page by page, and
      a key-value side store.
    - [Queue], [QueueJobs], [QueueWork] (queue/src/index.ts): jobs, their owners and depth limit, the worker
      with its heartbeat, dead letters, moving and erasing.  [QueueJobs]: enqueueing, retrying, the inheritance of
      owners, exact erasure.  [QueueWork]: one turn of a worker exactly, draining finishes; and
      two executions in which a job is never run.
    - [Events], [EventsSafety], [EventsPoll] (events/src/index.ts): publishing, consumers with retries and
      quarantine, dead letters.  [EventsSafety]: no interleaving lets a persisted cursor pass an event
      that is owed.  [EventsPoll]: one poll is a walk over the log; an execution in which an event is lost.
    - [Cron] (scheduler/src/cron.ts): fields are unions of walks, and the next time is the first
      matching minute.
    - [Scheduler], [SchedulerSafety], [SchedulerFire] (scheduler/src/index.ts, root-journal.ts): triggers.
      [SchedulerSafety]: an abstract machine for a trigger's state, refined by every interleaving of polls,
      schedules, listings and moves.  [SchedulerFire]: one fire exactly, slots without drift,
      repairs that never reuse a run id, exact erasure; and an execution in which a refused schedule stops the
      triggers behind it.

    - [Workflow] (workflow/src/workflow.ts): steps and their records, the claim protocol of side effects, every
      combinator, runs, resumes, waits, cancellation, retries, forks and the status registry.
      [WorkflowFrame]: what each operation leaves alone.  [WorkflowEffects]: a side effect fires at most once in every
      interleaving.  [WorkflowAgree]: all the runs that complete agree, and a canceled run executes
      nothing.  [WorkflowRuns]: resumes over any partial set of records, limits, the round trip of a wait;
      a side effect without an output that blocks its run.  [WorkflowRetry]: attempts exactly, and
      those that a crash leaves uncounted.  [WorkflowFork]: a fork replays the prefix and executes the rest.

    - [Access] (auth/src/scope.ts, types.ts): principals, what a caller is, the ceiling on the privileges it may
      grant, and the engine's caller it is.  [Http]: requests and string operations; no source of its own.
    - [Gate], [GateRecord] (auth/src/decision.ts, same-site.ts, adapter.ts, gate.ts, door.ts): the gate of the
      hosts, the doors, and the record of a request.  [GateRecord]: the record says what happened, whatever was noted
      and asked, the host's own refusals included; which callers a door lets through; cross-site writes are refused, and not recorded.
    - [Jwt], [JwtFacts] (auth/src/jwt.ts, safe-equal.ts, token-endpoint.ts): the verifier exactly, under a
      secret, an Ed25519 or an RSA key, and tokens that live exactly as long as they were signed for.
    - [RoleAuth], [RoleAuthFacts] (auth/src/role-auth.ts): what each credential opens through the gate, where
      privileges come from, and the way from a session of the application to a user of the engine.
    - [Exposure] (auth/src/exposure.ts): which surfaces may be served, and to whom.
    - [RunCost] (cost.ts, pricing.ts): what a run cost, as a sum and as a trace, and the price document.
      The ledger of a run, its trace and the budget of its model agree on what each record costs.
    - [Budget], [BudgetUsage], [BudgetRaces] (budget.ts, and [uncountUsage] of retention.ts): the usage counter
      and the gate.  [BudgetUsage]: what the readings answer, and that the gate admits
      exactly below the limits.  [BudgetRaces]: no interleaving records a run twice; over any history of reads,
      races of completions and other writes the counter is a sum of charges of distinct runs; executions in
      which the counter forgets the history, or counts a run twice through the backfill or through an increment
      whose answer is lost.
    - [ThreadOwner] (thread-owner.ts): whose thread it is.  All the end users admitted to a thread are one
      user, in every interleaving and whichever requests fail.
    - [Retention], [RetentionFacts], [RetentionCascade] (retention.ts): the purge of a run.  It ends whatever cycles
      the calls form, erases the run and the runs its calls started, and leaves runs alone whose id
      extends theirs.
    - [RetentionSweep], [RetentionSweepFacts] (retention.ts): sweeps of runs and of logs, and tombstones: exactly
      what is due goes, and what a swept run leaves.
    - [RetentionThreads], [RetentionThreadFacts] (retention.ts): erasing threads, persons and
      organizations; the purge and the sweep of threads exactly.  Four executions in which an erasure takes what is not
      its own ([RetentionCascade], [RetentionSweepFacts], [RetentionThreadFacts]).

    - [Users] (the user routes of studio/src/server.ts, but for [DELETE /users/:id]): what the routes ask of the user
      store stays within the ceiling, over any sequence of requests and any store; and a promotion that escapes it.

    ** Bounds and fuel

    Loops of the source that are not structural take a [fuel] argument, and a theorem says
    which fuel is enough: one step per registered version for [upgradeFormat], one page per run for
    the page walks, one step per recorded model step for [computeModelStepsDelta], and the
    depth of the nesting for [sumSubRuns].  The claim loop of a tool call waits for other executors as long as it has
    fuel (the code waits without a bound); safety holds for every fuel, and the theorems on
    calls that run alone say that one turn is enough.  Walks over a log take one page of fuel per fifty
    records; a walk over runs takes one page per list of runs, and the cascade of a purge
    one unit of fuel per run the journal shows, and one more; a turn over a job or a fire of a trigger takes one unit of fuel per tick of its
    heartbeat, and one more.  The loop of a verdict's compare-and-set makes the three attempts of the code.

    ** Assumptions and parameters

    SHA-256, HMAC and public keys, NFC, [JSON.parse], the parsing of an Origin and of dates, the answers of the host's memory and vector store, the texts of errors and of messages to the model, and the
    answers of models, tools and hooks are parameters.  Strings are sequences of 8-bit units.  Token counts and costs are
    exact integers (the code computes costs in floating point).  A journal is the in-memory one: the
    database adapters promise the same operations but their SQL is not modelled.

    ** Not modelled

    The order in which the run engine applies its gates (durable/src/run.ts) and the ladder of its turns, and the loop
    over steps, which is the AI SDK's (any client of the steps), the agent registry, the workflow waker, semantic duplicate detection (it asks a model), the erasure across several stores
    (erase.ts) and the subject view, time travel and rollover, the database adapters (SQL and drivers), the memory, vector and cache
    ports, retrieval, HTTP servers and transports, telemetry, the command line and the
    studio (input and output).  Inside the modelled parts: tools with a semantic identity, the
    in-memory replay log, console warnings, and the timers around polls.  What the plan has left, in
    order: run engine, time travel, agent memory. *)

From Stdlib Require Import DecimalString DecimalN DecimalFacts.
From Stdlib Require Export Ascii.
From stdpp Require Export base strings option gmap sets numbers tactics.
From stdpp Require Export list.

#[export] Set Warnings "-clear-no-such-hyp".

(** ** Notation scope of the development *)

Declare Scope gnl_scope.
Delimit Scope gnl_scope with gnl.

(** The lemmas that rewrite string and map operations of this library. *)
Create HintDb gnl discriminated.
Create Rewrite HintDb gnl.

(** ** Outcomes of fallible code: a value, or a thrown error *)

Inductive outcome (E A : Type) : Type :=
| Ok (a : A)
| Err (e : E).
Arguments Ok {E A} a.
Arguments Err {E A} e.

Definition is_ok {E A} (o : outcome E A) : bool :=
  match o with Ok _ => true | Err _ => false end.

(** ** Tactics *)

(** Splits every hypothesis that is a conjunction or an existential. *)
Ltac split_hyps :=
  repeat match goal with
  | H : _ ∧ _ |- _ => destruct H
  | H : ∃ _, _ |- _ => destruct H
  end.

(** Case analysis on the outermost [match]/[if] scrutinee of the goal, with its
    equation. *)
Ltac case_goal :=
  match goal with
  | |- context [match ?x with _ => _ end] => destruct x eqn:?
  end.

(** Turns boolean tests in the hypotheses and the goal into propositions. *)
Ltac bool_to_prop :=
  repeat match goal with
  | H : (_ && _) = true |- _ => apply andb_true_iff in H; destruct H
  | H : (_ || _) = false |- _ => apply orb_false_iff in H; destruct H
  | H : negb _ = true |- _ => apply negb_true_iff in H
  | H : negb _ = false |- _ => apply negb_false_iff in H
  | H : bool_decide _ = true |- _ => apply bool_decide_eq_true in H
  | H : bool_decide _ = false |- _ => apply bool_decide_eq_false in H
  | H : String.eqb _ _ = true |- _ => apply String.eqb_eq in H
  | H : String.eqb _ _ = false |- _ => apply String.eqb_neq in H
  | H : (_ <? _)%Z = true |- _ => apply Z.ltb_lt in H
  | H : (_ <? _)%Z = false |- _ => apply Z.ltb_ge in H
  | H : (_ <=? _)%Z = true |- _ => apply Z.leb_le in H
  | H : (_ <=? _)%Z = false |- _ => apply Z.leb_gt in H
  end.

(** ** Strings *)

#[global] Arguments String.append !_ _ / : simpl nomatch.
#[global] Arguments Ascii.eqb : simpl never.
#[global] Arguments String.eqb : simpl never.

(** [s.startsWith(p)], returning what follows the prefix. *)
Fixpoint strip_prefix (p s : string) : option string :=
  match p, s with
  | EmptyString, _ => Some s
  | String c p', String d s' => if Ascii.eqb c d then strip_prefix p' s' else None
  | String _ _, EmptyString => None
  end.

Definition starts_with (p s : string) : bool := bool_decide (is_Some (strip_prefix p s)).

(** [s.endsWith(x)], returning what precedes the suffix. *)
Fixpoint strip_suffix (x s : string) : option string :=
  if String.eqb s x then Some EmptyString
  else match s with
       | EmptyString => None
       | String c s' => String c <$> strip_suffix x s'
       end.

Definition ends_with (x s : string) : bool := bool_decide (is_Some (strip_suffix x s)).

(** Does some character of [s] satisfy [f]? *)
Fixpoint str_exists (f : Ascii.ascii → bool) (s : string) : bool :=
  match s with
  | EmptyString => false
  | String c s' => f c || str_exists f s'
  end.

Definition has_char (c : Ascii.ascii) (s : string) : bool := str_exists (Ascii.eqb c) s.

Lemma str_app_assoc (a b c : string) : (a +:+ b) +:+ c = a +:+ (b +:+ c).
Proof. induction a as [|x a IH]; [done|]. simpl. by rewrite IH. Qed.

Lemma str_app_nil_r (a : string) : a +:+ "" = a.
Proof. induction a as [|x a IH]; [done|]. simpl. by rewrite IH. Qed.

Lemma str_length_app (a b : string) :
  String.length (a +:+ b) = String.length a + String.length b.
Proof. induction a as [|x a IH]; [done|]. simpl. by rewrite IH. Qed.

Lemma str_app_inj_r (a b s : string) : a +:+ s = b +:+ s → a = b.
Proof.
  revert b. induction a as [|x a IH]; intros [|y b]; simpl; intros Heq; try done.
  - apply (f_equal String.length) in Heq. simpl in Heq.
    rewrite str_length_app in Heq. lia.
  - apply (f_equal String.length) in Heq. simpl in Heq.
    rewrite str_length_app in Heq. lia.
  - injection Heq as -> Heq. f_equal. by apply IH.
Qed.

Lemma str_app_inj_l (s a b : string) : s +:+ a = s +:+ b → a = b.
Proof. induction s as [|x s IH]; simpl; [done|]. intros [= H]. auto. Qed.

Lemma str_app_char_inj a b c d : a +:+ String c "" = b +:+ String d "" → a = b ∧ c = d.
Proof.
  revert b. induction a as [|x a IH]; intros [|y b]; simpl.
  - by intros [= ->].
  - intros [= _ Hb]. by destruct b.
  - intros [= _ Ha]. by destruct a.
  - intros [= -> Hab]. by destruct (IH b Hab) as [-> ->].
Qed.

Lemma strip_prefix_Some p s r : strip_prefix p s = Some r ↔ s = p +:+ r.
Proof.
  revert s. induction p as [|c p IH]; intros s; simpl.
  - split; [by intros [= ->]|by intros ->].
  - destruct s as [|d s]; [split; [done|discriminate]|].
    destruct (Ascii.eqb_spec c d) as [->|Hne].
    + rewrite IH. split; [by intros ->|by intros [= ->]].
    + split; [done|]. intros [= -> _]. done.
Qed.

Lemma strip_prefix_app p s : strip_prefix p (p +:+ s) = Some s.
Proof. by apply strip_prefix_Some. Qed.

Lemma starts_with_spec p s : starts_with p s = true ↔ ∃ r, s = p +:+ r.
Proof.
  unfold starts_with. rewrite bool_decide_eq_true. unfold is_Some.
  by setoid_rewrite strip_prefix_Some.
Qed.

Lemma starts_with_app p s : starts_with p (p +:+ s) = true.
Proof. apply starts_with_spec. by exists s. Qed.

Lemma starts_with_app_app p q s : starts_with (p +:+ q) (p +:+ s) = starts_with q s.
Proof.
  apply eq_true_iff_eq. rewrite !starts_with_spec. split; intros [r Hr]; exists r.
  - rewrite str_app_assoc in Hr. by apply str_app_inj_l in Hr.
  - by rewrite Hr, str_app_assoc.
Qed.

Lemma starts_with_strip p s : starts_with p s = match strip_prefix p s with Some _ => true | None => false end.
Proof. unfold starts_with. by destruct (strip_prefix p s). Qed.

Lemma strip_suffix_unfold x s :
  strip_suffix x s =
    if String.eqb s x then Some EmptyString
    else match s with
         | EmptyString => None
         | String c s' => String c <$> strip_suffix x s'
         end.
Proof. by destruct s. Qed.

Lemma strip_suffix_app p x : strip_suffix x (p +:+ x) = Some p.
Proof.
  induction p as [|c p IH].
  - by rewrite strip_suffix_unfold, String.eqb_refl.
  - rewrite strip_suffix_unfold.
    destruct (String.eqb_spec (String c p +:+ x) x) as [Heq|_].
    + apply (f_equal String.length) in Heq. simpl in Heq.
      rewrite str_length_app in Heq. lia.
    + simpl. by rewrite IH.
Qed.

Lemma strip_suffix_sound x s p : strip_suffix x s = Some p → s = p +:+ x.
Proof.
  revert p. induction s as [|c s IH]; intros p; rewrite strip_suffix_unfold.
  - destruct (String.eqb_spec EmptyString x) as [<-|]; [by intros [= <-]|done].
  - destruct (String.eqb_spec (String c s) x) as [<-|]; [by intros [= <-]|].
    destruct (strip_suffix x s) as [q|] eqn:Hq; simpl; [|done].
    intros [= <-]. simpl. by rewrite (IH q).
Qed.

Lemma strip_suffix_Some x s p : strip_suffix x s = Some p ↔ s = p +:+ x.
Proof.
  split; [apply strip_suffix_sound|]. intros ->. apply strip_suffix_app.
Qed.

Lemma ends_with_spec x s : ends_with x s = true ↔ ∃ p, s = p +:+ x.
Proof.
  unfold ends_with. rewrite bool_decide_eq_true. unfold is_Some.
  by setoid_rewrite strip_suffix_Some.
Qed.

Lemma str_exists_app f a b : str_exists f (a +:+ b) = str_exists f a || str_exists f b.
Proof. induction a as [|c a IH]; simpl; [done|]. by rewrite IH, orb_assoc. Qed.

(** A string cut at the first occurrence of a character is cut in one way only. *)
Lemma cut_at_char_inj c a a' b b' :
  has_char c a = false → has_char c a' = false →
  a +:+ String c b = a' +:+ String c b' → a = a' ∧ b = b'.
Proof.
  unfold has_char. revert a'. induction a as [|x a IH]; intros [|y a']; simpl; intros Ha Ha' Heq.
  - by injection Heq as ->.
  - injection Heq as -> _. by rewrite Ascii.eqb_refl in Ha'.
  - injection Heq as -> _. by rewrite Ascii.eqb_refl in Ha.
  - injection Heq as -> Heq. apply orb_false_iff in Ha as [_ Ha].
    apply orb_false_iff in Ha' as [_ Ha']. by destruct (IH a' Ha Ha' Heq) as [-> ->].
Qed.

#[export] Hint Rewrite str_app_assoc str_app_nil_r str_length_app str_exists_app : gnl.

(** ** Decimal numerals: [String(n)] and [Number(s)] on natural numbers *)

Definition dec (n : N) : string := NilEmpty.string_of_uint (N.to_uint n).

Definition undec (s : string) : option N :=
  N.of_uint <$> NilEmpty.uint_of_string s.

Lemma undec_dec n : undec (dec n) = Some n.
Proof. unfold undec, dec. by rewrite NilEmpty.usu; simpl; rewrite DecimalN.Unsigned.of_to. Qed.

Lemma dec_inj n m : dec n = dec m → n = m.
Proof. intros H. apply (f_equal undec) in H. rewrite !undec_dec in H. by injection H. Qed.

Definition is_digit (c : Ascii.ascii) : bool :=
  let n := Ascii.nat_of_ascii c in (48 <=? n) && (n <=? 57).

Lemma dec_digits n : str_exists (λ c, negb (is_digit c)) (dec n) = false.
Proof. unfold dec. induction (N.to_uint n) as [|u IH|u IH|u IH|u IH|u IH|u IH|u IH|u IH|u IH|u IH]; simpl; auto. Qed.

Lemma dec_no_char c n : is_digit c = false → has_char c (dec n) = false.
Proof.
  intros Hc. unfold has_char. pose proof (dec_digits n) as H.
  induction (dec n) as [|d s IH]; simpl in *; [done|].
  apply orb_false_iff in H as [Hd H]. rewrite IH by done.
  destruct (Ascii.eqb_spec c d) as [->|]; [|done].
  apply negb_false_iff in Hd. congruence.
Qed.

(** ** Lists *)

Lemma Forall2_lookup_l_insert {A B} (P : A → B → Prop) l k i x y :
  Forall2 P l k → P x y → Forall2 P (<[i:=x]> l) (<[i:=y]> k).
Proof.
  intros H Hxy. revert i. induction H as [|a b l k Hab H IH]; intros [|i]; simpl;
    constructor; auto.
Qed.

Lemma elem_of_insert {A} (l : list A) i x y : y ∈ <[i:=x]> l → y = x ∨ y ∈ l.
Proof.
  intros [j Hj]%list_elem_of_lookup. apply list_lookup_insert_Some in Hj as [(-> & -> & _)|[_ Hj]].
  - by left.
  - right. by eapply list_elem_of_lookup_2.
Qed.

(** Number of elements of a list that satisfy a boolean test. *)
Definition count_if {A} (f : A → bool) (l : list A) : nat := length (filter (λ x, f x = true) l).

Lemma count_if_cons {A} (f : A → bool) x l :
  count_if f (x :: l) = (if f x then 1 else 0) + count_if f l.
Proof.
  unfold count_if. rewrite filter_cons.
  destruct (decide (f x = true)) as [Hf|Hf]; [by rewrite Hf|].
  by apply not_true_iff_false in Hf; rewrite Hf.
Qed.

Lemma count_if_app {A} (f : A → bool) l k :
  count_if f (l ++ k) = count_if f l + count_if f k.
Proof. unfold count_if. by rewrite filter_app, length_app. Qed.

Lemma count_if_insert {A} (f : A → bool) l i x y :
  l !! i = Some x →
  count_if f (<[i:=y]> l) + (if f x then 1 else 0) = count_if f l + (if f y then 1 else 0).
Proof.
  revert i. induction l as [|z l IH]; intros [|i] Hi; simplify_eq/=.
  - rewrite !count_if_cons. lia.
  - rewrite !count_if_cons. specialize (IH i Hi). lia.
Qed.

Lemma count_if_0 {A} (f : A → bool) l : count_if f l = 0 ↔ ∀ x, x ∈ l → f x = false.
Proof.
  induction l as [|z l IH].
  - split; [intros _ x Hx; inversion Hx|done].
  - rewrite count_if_cons. split.
    + intros H x Hx. apply list_elem_of_In in Hx as [->|Hx%list_elem_of_In].
      * destruct (f x); [lia|done].
      * apply IH; [lia|done].
    + intros H. rewrite (H z) by (left; done).
      apply IH. intros x Hx. apply H. by right.
Qed.

Lemma count_if_mono {A} (f g : A → bool) l :
  (∀ x, f x = true → g x = true) → count_if f l ≤ count_if g l.
Proof.
  intros Hfg. induction l as [|x l IH]; [done|]. rewrite !count_if_cons.
  specialize (Hfg x). destruct (f x), (g x); [lia| |lia|lia]. by specialize (Hfg eq_refl).
Qed.

Lemma count_if_lt {A} (f g : A → bool) l x :
  (∀ x, f x = true → g x = true) → x ∈ l → f x = false → g x = true → count_if f l < count_if g l.
Proof.
  intros Hfg Hx Hf Hg. induction Hx as [x l|x y l Hx IH]; rewrite !count_if_cons.
  - pose proof (count_if_mono f g l Hfg). rewrite Hf, Hg. lia.
  - specialize (IH Hf Hg). specialize (Hfg y). destruct (f y), (g y); [lia| |lia|lia]. by specialize (Hfg eq_refl).
Qed.

(** ** Typed views of an untyped value

    The journal stores untyped JavaScript values; a component writes records of its
    own type and reads them back through a cast.  [prj] is [None] on a value that is
    not such a record. *)
Class Embed (T V : Type) := {
  inj : T → V;
  prj : V → option T;
  prj_inj t : prj (inj t) = Some t;
}.

#[export] Hint Rewrite @prj_inj : gnl.
