(* ===== verification/JsMap.v ===== *)
(** * JsMap: JavaScript's [Map] with string keys

    The journal keeps its records in JavaScript [Map]s, whose iteration order is
    the order of first insertion: [readRun], [listRuns] and [keys] all depend on
    it.  A map is therefore an association list with distinct keys; [mset]
    replaces a value in place, or appends a new entry. *)

From S2P Require Import Prelude.

Abbreviation jsmap V := (list (string * V)) (only parsing).

Section JsMap.
Context {V : Type}.

Fixpoint mget (k : string) (m : jsmap V) : option V :=
  match m with
  | [] => None
  | (k', v) :: m' => if String.eqb k k' then Some v else mget k m'
  end.

Definition mhas (k : string) (m : jsmap V) : bool :=
  match mget k m with Some _ => true | None => false end.

Fixpoint mset (k : string) (v : V) (m : jsmap V) : jsmap V :=
  match m with
  | [] => [(k, v)]
  | (k', v') :: m' => if String.eqb k k' then (k', v) :: m' else (k', v') :: mset k v m'
  end.

Fixpoint mdel (k : string) (m : jsmap V) : jsmap V :=
  match m with
  | [] => []
  | (k', v') :: m' => if String.eqb k k' then m' else (k', v') :: mdel k m'
  end.

Definition mkeys (m : jsmap V) : list string := map fst m.

(** The representation invariant: no key twice. *)
Definition map_wf (m : jsmap V) : Prop := NoDup (mkeys m).

Lemma mget_mset k v m : mget k (mset k v m) = Some v.
Proof.
  induction m as [|[k' v'] m IH]; simpl; [by rewrite String.eqb_refl|].
  destruct (String.eqb_spec k k') as [->|Hne]; simpl.
  - by rewrite String.eqb_refl.
  - destruct (String.eqb_spec k k'); [done|]. apply IH.
Qed.

Lemma mget_mset_ne k k' v m : k ≠ k' → mget k (mset k' v m) = mget k m.
Proof.
  intros Hne. induction m as [|[k2 v2] m IH]; simpl.
  - destruct (String.eqb_spec k k'); [done|]. done.
  - destruct (String.eqb_spec k' k2) as [->|]; simpl.
    + destruct (String.eqb_spec k k2); [done|]. done.
    + destruct (String.eqb_spec k k2); [done|]. apply IH.
Qed.

Lemma mget_mset_cases k k' v m :
  mget k (mset k' v m) = if String.eqb k k' then Some v else mget k m.
Proof.
  destruct (String.eqb_spec k k') as [->|Hne]; [apply mget_mset|by apply mget_mset_ne].
Qed.

Lemma mkeys_mset k v m :
  mkeys (mset k v m) = if mhas k m then mkeys m else mkeys m ++ [k].
Proof.
  unfold mhas. induction m as [|[k' v'] m IH]; simpl; [done|].
  destruct (String.eqb_spec k k') as [->|Hne]; simpl; [done|].
  rewrite IH. by destruct (mget k m).
Qed.

Lemma elem_of_mkeys k m : k ∈ mkeys m ↔ is_Some (mget k m).
Proof.
  induction m as [|[k' v'] m IH]; simpl.
  - split; [intros H; inversion H|intros [? ?]; done].
  - rewrite elem_of_cons, IH. destruct (String.eqb_spec k k') as [->|Hne].
    + split; [by eauto|by left].
    + split; [intros [|]; done|by right].
Qed.

Lemma mhas_true k m : mhas k m = true ↔ is_Some (mget k m).
Proof. unfold mhas. destruct (mget k m); split; intros H; eauto; try done; by destruct H. Qed.

Lemma mhas_false k m : mhas k m = false ↔ mget k m = None.
Proof. unfold mhas. by destruct (mget k m). Qed.

Lemma mhas_mget k m v : mget k m = Some v → mhas k m = true.
Proof. unfold mhas. by intros ->. Qed.

Lemma map_wf_mset k v m : map_wf m → map_wf (mset k v m).
Proof.
  unfold map_wf. rewrite mkeys_mset. intros Hm.
  destruct (mhas k m) eqn:Hk; [done|].
  apply NoDup_app. split_and!; [done| |apply NoDup_singleton].
  intros x Hx ->%list_elem_of_singleton.
  apply elem_of_mkeys in Hx. apply mhas_false in Hk. rewrite Hk in Hx.
  by destruct Hx.
Qed.

Lemma mget_In k v m : map_wf m → (k, v) ∈ m → mget k m = Some v.
Proof.
  unfold map_wf. induction m as [|[k' v'] m IH]; simpl; intros Hm Hin; [inversion Hin|].
  apply NoDup_cons in Hm as [Hk' Hm].
  apply elem_of_cons in Hin as [[= -> ->]|Hin]; [by rewrite String.eqb_refl|].
  destruct (String.eqb_spec k k') as [->|]; [|by apply IH].
  exfalso. apply Hk'. apply list_elem_of_fmap. by exists (k', v).
Qed.

Lemma In_mget k v m : mget k m = Some v → (k, v) ∈ m.
Proof.
  induction m as [|[k' v'] m IH]; simpl; [done|].
  destruct (String.eqb_spec k k') as [->|]; [intros [= ->]; by left|right; auto].
Qed.

Lemma mget_mdel k m : map_wf m → mget k (mdel k m) = None.
Proof.
  unfold map_wf. induction m as [|[k' v'] m IH]; simpl; [done|].
  intros [Hk' Hm]%NoDup_cons. destruct (String.eqb_spec k k') as [->|Hne]; simpl.
  - destruct (mget k' m) eqn:Hg; [|done].
    exfalso. apply Hk'. apply elem_of_mkeys. by eauto.
  - destruct (String.eqb_spec k k'); [done|auto].
Qed.

Lemma mdel_absent k m : mget k m = None → mdel k m = m.
Proof.
  induction m as [|[k' v'] m IH]; [done|]. simpl. destruct (String.eqb k k'); [done|]. intros Hk. by rewrite IH.
Qed.

Lemma mget_mdel_ne k k' m : k ≠ k' → mget k (mdel k' m) = mget k m.
Proof.
  intros Hne. induction m as [|[k2 v2] m IH]; simpl; [done|].
  destruct (String.eqb_spec k' k2) as [->|]; simpl.
  - destruct (String.eqb_spec k k2); [done|]. done.
  - destruct (String.eqb_spec k k2); [done|]. apply IH.
Qed.

Lemma mset_id k v m : mget k m = Some v → mset k v m = m.
Proof.
  induction m as [|[k' v'] m IH]; simpl; [done|].
  destruct (String.eqb_spec k k') as [->|]; [by intros [= ->]|].
  intros H. by rewrite IH.
Qed.

Lemma mset_mset k v w m : mset k v (mset k w m) = mset k v m.
Proof.
  induction m as [|[k' v'] m IH]; simpl; [by rewrite String.eqb_refl|].
  destruct (String.eqb_spec k k') as [->|Hne]; simpl; [by rewrite String.eqb_refl|].
  destruct (String.eqb_spec k k'); [done|]. by rewrite IH.
Qed.
End JsMap.

#[export] Hint Rewrite @mget_mset @mhas_true @mhas_false : gnl.
#[export] Hint Resolve map_wf_mset : gnl.

(** Decides the string tests that [mget]/[mset] leave in the goal. *)
Ltac map_simpl :=
  repeat first
    [ rewrite mget_mset
    | rewrite mget_mset_ne by congruence
    | rewrite mget_mset_cases
    | match goal with
      | |- context [String.eqb ?a ?b] => destruct (String.eqb_spec a b); subst; try congruence
      end ].
