(* ===== verification/Keys.v ===== *)
(** * Keys: the journal's key schema

    Models the key builders [runKeys], [nestedAgentRunId] and the readers
    [parseJournalKey], [assertThreadId], [runIdOfKey] of
    [packages/durable/src/journal.ts], and [isVersionedKey] of [format.ts].
    Strings are sequences of 8-bit code units; the regular expressions are
    translated to the recursive functions that match the same strings ([.] does
    not match a line terminator, and a greedy prefix is the longest one). *)

From S2P Require Import Prelude.

(** What a key builder throws. *)
Inductive key_error :=
| ToolNameHasColon (toolName : string)
| ThreadIdCollides (threadId : string).

Definition colon : Ascii.ascii := ":"%char.
Definition dash : Ascii.ascii := "-"%char.

(** ** Segments of a key *)

(** [s.split(':')]. *)
Fixpoint segments (s : string) : list string :=
  match s with
  | EmptyString => [EmptyString]
  | String c s' =>
      if Ascii.eqb c colon then EmptyString :: segments s'
      else match segments s' with
           | [] => [String c EmptyString]
           | x :: xs => String c x :: xs
           end
  end.

(** ** Builders *)

Definition assertNoColonInToolName (toolName : string) : outcome key_error unit :=
  if has_char colon toolName then Err (ToolNameHasColon toolName) else Ok tt.

(** Some ['model'] or ['tool'] segment: [/(^|:)(model|tool)(:|$)/]. *)
Definition has_kind_segment (s : string) : bool :=
  existsb (λ x, String.eqb x "model" || String.eqb x "tool") (segments s).

Definition assertThreadId (threadId : string) : outcome key_error unit :=
  if has_kind_segment threadId then Err (ThreadIdCollides threadId) else Ok tt.

Definition nestedAgentRunId (parentRunId : option string) (toolCallId prefix : string) : string :=
  match parentRunId with
  | Some p => if String.eqb p "" then prefix +:+ ":" +:+ toolCallId
              else prefix +:+ ":" +:+ p +:+ ":" +:+ toolCallId
  | None => prefix +:+ ":" +:+ toolCallId
  end.

Definition rk_input (runId : string) : string := runId +:+ ":input".
Definition rk_model (runId step : string) : string := runId +:+ ":model:" +:+ step.
Definition rk_tool (runId toolCallId : string) : string := runId +:+ ":tool:" +:+ toolCallId.
Definition args_id (toolName hash : string) : string := "args-" +:+ toolName +:+ "-" +:+ hash.

Definition rk_toolByArgs (runId toolName hash : string) : outcome key_error string :=
  match assertNoColonInToolName toolName with
  | Err e => Err e
  | Ok _ => Ok (runId +:+ ":tool:" +:+ args_id toolName hash)
  end.

Definition rk_toolCrossRun (toolName hash : string) : outcome key_error string :=
  match assertNoColonInToolName toolName with
  | Err e => Err e
  | Ok _ => Ok ("xrun:" +:+ args_id toolName hash)
  end.

Definition rk_toolCrossRunOwner (toolName hash : string) : outcome key_error string :=
  match assertNoColonInToolName toolName with
  | Err e => Err e
  | Ok _ => Ok ("xrun:owner-" +:+ toolName +:+ "-" +:+ hash)
  end.

Definition rk_toolThread (threadId toolName hash : string) : outcome key_error string :=
  match assertThreadId threadId with
  | Err e => Err e
  | Ok _ =>
      match assertNoColonInToolName toolName with
      | Err e => Err e
      | Ok _ => Ok ("xthr:" +:+ threadId +:+ ":" +:+ args_id toolName hash)
      end
  end.

Definition rk_proc (runId name : string) : string := runId +:+ ":proc:" +:+ name.
Definition rk_memAppended (runId : string) : string := "mem-appended:" +:+ runId.
Definition rk_memUserAppended (runId : string) : string := "mem-user-appended:" +:+ runId.
Definition rk_memoryContext (runId : string) : string := runId +:+ ":memctx".
Definition rk_cfgModel (runId : string) : string := runId +:+ ":cfg:model".
Definition rk_cfgLimits (runId : string) : string := runId +:+ ":cfg:limits".
Definition rk_approval (runId toolCallId : string) : string := runId +:+ ":approval:" +:+ toolCallId.
Definition rk_outcome (runId : string) : string := runId +:+ ":outcome".

(** ** Readers *)

Inductive entry_kind := KModel | KTool.

#[global] Instance entry_kind_eq_dec : EqDecision entry_kind.
Proof. solve_decision. Defined.

Definition kind_name (k : entry_kind) : string :=
  match k with KModel => "model" | KTool => "tool" end.

(** The kind segment at the head of [s], if [s] is [:model:x] or [:tool:x] with a
    non-empty [x]. *)
Definition kind_here (s : string) : option entry_kind :=
  match strip_prefix ":model:" s with
  | Some (String _ _) => Some KModel
  | _ => match strip_prefix ":tool:" s with
         | Some (String _ _) => Some KTool
         | _ => None
         end
  end.

Fixpoint last_kind (s : string) : option (string * entry_kind) :=
  match s with
  | EmptyString => None
  | String c s' =>
      match last_kind s' with
      | Some (p, k) => Some (String c p, k)
      | None => match kind_here s with
                | Some k => Some (EmptyString, k)
                | None => None
                end
      end
  end.

(** The characters [.] does not match (of the 8-bit code units). *)
Definition is_line_terminator (c : Ascii.ascii) : bool :=
  Ascii.eqb c "010"%char || Ascii.eqb c "013"%char.

Definition one_line (s : string) : bool := negb (str_exists is_line_terminator s).

(** The greedy regular expression of [parseJournalKey]: the longest run id. *)
Definition parseJournalKey (key : string) : option (string * entry_kind) :=
  if one_line key then last_kind key else None.

(** [value._v] is present: the record was stamped by the journal. *)
Definition runIdOfKey (key : string) (versioned : bool) : option string :=
  match parseJournalKey key with
  | Some (runId, _) => Some runId
  | None =>
      match strip_suffix ":input" key with
      | Some runId => if one_line runId && versioned then Some runId else None
      | None => None
      end
  end.

(** The key cut at its last colon. *)
Fixpoint last_colon (s : string) : option (string * string) :=
  match s with
  | EmptyString => None
  | String c s' =>
      match last_colon s' with
      | Some (a, b) => Some (String c a, b)
      | None => if Ascii.eqb c colon then Some (EmptyString, s') else None
      end
  end.

Definition all_digits (s : string) : bool := negb (str_exists (λ c, negb (is_digit c)) s).

(** [key.endsWith(':input') || /:model:\d+$/.test(key) || /:tool:[^:]*$/.test(key)]. *)
Definition isVersionedKey (key : string) : bool :=
  ends_with ":input" key ||
  match last_colon key with
  | Some (a, b) =>
      (ends_with ":model" a && all_digits b && negb (String.eqb b "")) || ends_with ":tool" a
  | None => false
  end.

(** ** Lemmas on segments *)

Lemma segments_nonempty s : segments s ≠ [].
Proof.
  destruct s as [|c s]; simpl; [done|].
  destruct (Ascii.eqb c colon); [done|]. by destruct (segments s).
Qed.

Lemma segments_no_colon s : has_char colon s = false → segments s = [s].
Proof.
  unfold has_char. induction s as [|c s IH]; simpl; [done|].
  intros [Hc Hs]%orb_false_iff. rewrite Ascii.eqb_sym, Hc, IH by done. done.
Qed.

Lemma segments_app a b : segments (a +:+ String colon b) = segments a ++ segments b.
Proof.
  induction a as [|c a IH]; simpl; [done|].
  destruct (Ascii.eqb c colon); [by rewrite IH|].
  rewrite IH. destruct (segments a) eqn:Ha; [by destruct (segments_nonempty a)|done].
Qed.

Lemma kind_here_Some s k :
  kind_here s = Some k ↔ ∃ c t, s = ":" +:+ kind_name k +:+ ":" +:+ String c t.
Proof.
  unfold kind_here. split.
  - destruct (strip_prefix ":model:" s) as [[|c t]|] eqn:Hm.
    + destruct (strip_prefix ":tool:" s) as [[|c t]|] eqn:Ht; [done| |done].
      intros [= <-]. apply strip_prefix_Some in Ht as ->. by exists c, t.
    + intros [= <-]. apply strip_prefix_Some in Hm as ->. by exists c, t.
    + destruct (strip_prefix ":tool:" s) as [[|c t]|] eqn:Ht; [done| |done].
      intros [= <-]. apply strip_prefix_Some in Ht as ->. by exists c, t.
  - intros (c & t & ->). destruct k; reflexivity.
Qed.

Lemma last_kind_sound s r k :
  last_kind s = Some (r, k) → ∃ c t, s = r +:+ ":" +:+ kind_name k +:+ ":" +:+ String c t.
Proof.
  revert r. induction s as [|d s IH]; intros r; [done|]. cbn [last_kind].
  destruct (last_kind s) as [[p k']|] eqn:Hs.
  - intros [= <- <-]. destruct (IH p) as (c & t & ->); [done|]. by exists c, t.
  - destruct (kind_here (String d s)) as [k'|] eqn:Hh; [|done].
    intros [= <- <-]. apply kind_here_Some in Hh as (c & t & Heq). rewrite Heq. by exists c, t.
Qed.

(** A key that is read as a run record has a ['model'] or ['tool'] segment that is
    neither the first nor the last one. *)
Lemma last_kind_segments s r k :
  last_kind s = Some (r, k) →
  ∃ pre post, segments s = pre ++ kind_name k :: post ∧ pre ≠ [] ∧ post ≠ [].
Proof.
  intros (c & t & ->)%last_kind_sound.
  exists (segments r), (segments (String c t)).
  split_and!; [|apply segments_nonempty..].
  change (r +:+ ":" +:+ kind_name k +:+ ":" +:+ String c t)
    with (r +:+ String colon (kind_name k +:+ String colon (String c t))).
  rewrite !segments_app. f_equal. by destruct k.
Qed.

Lemma last_kind_no_kind_segment s : has_kind_segment s = false → last_kind s = None.
Proof.
  intros Hs. destruct (last_kind s) as [[r k]|] eqn:Hk; [exfalso|done].
  apply last_kind_segments in Hk as (pre & post & Hseg & _ & _).
  unfold has_kind_segment in Hs. rewrite Hseg, existsb_app in Hs. simpl in Hs.
  destruct k; simpl in Hs; by rewrite orb_true_r in Hs.
Qed.

Lemma has_kind_segment_app a b :
  has_kind_segment (a +:+ String colon b) = has_kind_segment a || has_kind_segment b.
Proof. unfold has_kind_segment. by rewrite segments_app, existsb_app. Qed.

Lemma has_kind_segment_no_colon s :
  has_char colon s = false →
  has_kind_segment s = String.eqb s "model" || String.eqb s "tool".
Proof. intros Hs. unfold has_kind_segment. rewrite segments_no_colon by done. simpl. by rewrite orb_false_r. Qed.

(** The greedy prefix: a tail with no kind segment is never cut. *)
Lemma last_kind_app r k c t :
  has_kind_segment (String c t) = false →
  last_kind (r +:+ String colon (kind_name k +:+ String colon (String c t))) = Some (r, k).
Proof.
  intros Ht. induction r as [|d r IH].
  - assert (Hin : last_kind (kind_name k +:+ String colon (String c t)) = None).
    { destruct (last_kind _) as [[r' k']|] eqn:Hk; [exfalso|done].
      apply last_kind_segments in Hk as (pre & post & Hseg & Hpre & Hpost).
      rewrite segments_app, segments_no_colon in Hseg by (by destruct k).
      destruct pre as [|x pre]; [done|]. cbn [app] in Hseg.
      apply (f_equal tail) in Hseg. cbn [tail] in Hseg.
      unfold has_kind_segment in Ht. rewrite Hseg, existsb_app in Ht. simpl in Ht.
      destruct k'; simpl in Ht; by rewrite orb_true_r in Ht. }
    simpl. simpl in Hin.
    change (String colon (kind_name k +:+ String colon (String c t)))
      with (":" +:+ kind_name k +:+ ":" +:+ String c t).
    rewrite Hin. assert (Hh : kind_here (":" +:+ kind_name k +:+ ":" +:+ String c t) = Some k).
    { apply kind_here_Some. by exists c, t. }
    by rewrite Hh.
  - simpl. by rewrite IH.
Qed.

(** ** Hashes inside keys: lower-case hexadecimal *)

Definition is_hex_char (c : Ascii.ascii) : bool :=
  let n := Ascii.nat_of_ascii c in is_digit c || ((97 <=? n) && (n <=? 102)).

Definition is_hex (s : string) : bool := negb (str_exists (λ c, negb (is_hex_char c)) s).

Lemma is_hex_no_char c s : is_hex_char c = false → is_hex s = true → has_char c s = false.
Proof.
  unfold is_hex, has_char. intros Hc Hs. apply negb_true_iff in Hs.
  induction s as [|d s IH]; simpl in *; [done|].
  apply orb_false_iff in Hs as [Hd Hs]. rewrite IH by done.
  destruct (Ascii.eqb_spec c d) as [->|]; [|done].
  apply negb_false_iff in Hd. congruence.
Qed.

(** A string cut at the last occurrence of a character is cut in one way only. *)
Lemma cut_at_last_char_inj c a a' b b' :
  has_char c b = false → has_char c b' = false →
  a +:+ String c b = a' +:+ String c b' → a = a' ∧ b = b'.
Proof.
  unfold has_char. intros Hb Hb'. revert a'.
  induction a as [|x a IH]; intros [|y a']; simpl; intros Heq.
  - by injection Heq as ->.
  - injection Heq as <- ->. rewrite str_exists_app in Hb. simpl in Hb.
    by rewrite Ascii.eqb_refl, orb_true_r in Hb.
  - injection Heq as -> <-. rewrite str_exists_app in Hb'. simpl in Hb'.
    by rewrite Ascii.eqb_refl, orb_true_r in Hb'.
  - injection Heq as -> Heq. by destruct (IH a' Heq) as [-> ->].
Qed.

Lemma has_char_app c a b : has_char c (a +:+ b) = has_char c a || has_char c b.
Proof. apply str_exists_app. Qed.

Lemma args_id_no_colon n h :
  has_char colon n = false → is_hex h = true → has_char colon (args_id n h) = false.
Proof.
  intros Hn Hh. unfold args_id. rewrite !has_char_app, Hn.
  by rewrite (is_hex_no_char colon h).
Qed.

Lemma args_id_inj n h n' h' :
  is_hex h = true → is_hex h' = true → args_id n h = args_id n' h' → n = n' ∧ h = h'.
Proof.
  intros Hh Hh' Heq. unfold args_id in Heq. apply str_app_inj_l in Heq.
  apply cut_at_last_char_inj in Heq; [done|by apply is_hex_no_char..].
Qed.

Lemma assertNoColon_Ok n : assertNoColonInToolName n = Ok tt ↔ has_char colon n = false.
Proof. unfold assertNoColonInToolName. by destruct (has_char colon n). Qed.

Lemma rk_toolByArgs_Ok r n h k :
  rk_toolByArgs r n h = Ok k ↔ has_char colon n = false ∧ k = rk_tool r (args_id n h).
Proof.
  unfold rk_toolByArgs, assertNoColonInToolName, rk_tool.
  destruct (has_char colon n); split; try (by intros [? ?]); try done; [by intros [= <-]|].
  by intros [_ ->].
Qed.

Lemma rk_toolCrossRun_Ok n h k :
  rk_toolCrossRun n h = Ok k ↔ has_char colon n = false ∧ k = "xrun:" +:+ args_id n h.
Proof.
  unfold rk_toolCrossRun, assertNoColonInToolName.
  destruct (has_char colon n); split; try (by intros [? ?]); try done; [by intros [= <-]|].
  by intros [_ ->].
Qed.

Lemma rk_toolThread_Ok t n h k :
  rk_toolThread t n h = Ok k ↔
  has_kind_segment t = false ∧ has_char colon n = false ∧
  k = "xthr:" +:+ t +:+ ":" +:+ args_id n h.
Proof.
  unfold rk_toolThread, assertThreadId, assertNoColonInToolName.
  destruct (has_kind_segment t), (has_char colon n); split;
    try (by intros (? & ? & ?)); try done; [by intros [= <-]|]. by intros (_ & _ & ->).
Qed.

(** ** Properties *)

Lemma one_line_app a b : one_line (a +:+ b) = one_line a && one_line b.
Proof. unfold one_line. by rewrite str_exists_app, negb_orb. Qed.

(** Building a run-scoped record key and parsing it back gives the run id and
    the kind, whatever colons the run id holds, as long as the last part has no
    ['model'] or ['tool'] segment and no part holds a line terminator. *)
Theorem parse_run_record_key (r id : string) (k : entry_kind) :
  id ≠ "" → has_kind_segment id = false → one_line r = true → one_line id = true →
  parseJournalKey (r +:+ ":" +:+ kind_name k +:+ ":" +:+ id) = Some (r, k).
Proof.
  intros Hne Hid Hr Hl. unfold parseJournalKey.
  rewrite !one_line_app, Hr, Hl. destruct id as [|c t]; [done|].
  pose proof (last_kind_app r k c t Hid) as H. destruct k; simpl in *; exact H.
Qed.

(** The records of the cross-run and the thread dedup windows are invisible to
    the run reader: whatever the tool name, the hash and the (accepted) thread id,
    [parseJournalKey] claims their keys for no run. *)
Theorem window_keys_invisible (t n h k : string) :
  is_hex h = true →
  rk_toolCrossRun n h = Ok k ∨ rk_toolThread t n h = Ok k →
  parseJournalKey k = None.
Proof.
  intros Hh Hk. unfold parseJournalKey. destruct (one_line k); [|done].
  apply last_kind_no_kind_segment.
  assert (Hargs : has_char colon n = false → has_kind_segment (args_id n h) = false).
  { intros Hn. rewrite has_kind_segment_no_colon by (by apply args_id_no_colon). done. }
  destruct Hk as [(Hn & ->)%rk_toolCrossRun_Ok|(Ht & Hn & ->)%rk_toolThread_Ok].
  - change ("xrun:" +:+ args_id n h) with ("xrun" +:+ String colon (args_id n h)).
    rewrite has_kind_segment_app, Hargs by done. done.
  - change ("xthr:" +:+ t +:+ ":" +:+ args_id n h)
      with ("xthr" +:+ String colon (t +:+ String colon (args_id n h))).
    rewrite !has_kind_segment_app, Ht, Hargs by done. done.
Qed.

(** The args-mode dedup keys are collision free: two calls share a key only
    when they agree on the run, the tool and the hash (run window), on the tool and
    the hash (cross-run window), or on the thread, the tool and the hash (thread
    window). *)
Theorem dedup_keys_injective (r n h r' n' h' k : string) :
  is_hex h = true → is_hex h' = true →
  (rk_toolByArgs r n h = Ok k → rk_toolByArgs r' n' h' = Ok k → r = r' ∧ n = n' ∧ h = h') ∧
  (rk_toolCrossRun n h = Ok k → rk_toolCrossRun n' h' = Ok k → n = n' ∧ h = h') ∧
  (rk_toolThread r n h = Ok k → rk_toolThread r' n' h' = Ok k → r = r' ∧ n = n' ∧ h = h').
Proof.
  intros Hh Hh'. split_and!.
  - intros (Hn & ->)%rk_toolByArgs_Ok (Hn' & Heq)%rk_toolByArgs_Ok.
    unfold rk_tool in Heq.
    change (r +:+ ":tool:" +:+ args_id n h)
      with (r +:+ (":tool" +:+ String colon (args_id n h))) in Heq.
    change (r' +:+ ":tool:" +:+ args_id n' h')
      with (r' +:+ (":tool" +:+ String colon (args_id n' h'))) in Heq.
    rewrite <- !str_app_assoc in Heq.
    apply cut_at_last_char_inj in Heq as [Hr Ha]; [|by apply args_id_no_colon..].
    apply str_app_inj_r in Hr as ->. apply args_id_inj in Ha as [-> ->]; auto.
  - intros (Hn & ->)%rk_toolCrossRun_Ok (Hn' & Heq)%rk_toolCrossRun_Ok.
    apply str_app_inj_l in Heq. by apply args_id_inj.
  - intros (_ & Hn & ->)%rk_toolThread_Ok (_ & Hn' & Heq)%rk_toolThread_Ok.
    apply str_app_inj_l in Heq.
    change (r +:+ ":" +:+ args_id n h) with (r +:+ String colon (args_id n h)) in Heq.
    change (r' +:+ ":" +:+ args_id n' h') with (r' +:+ String colon (args_id n' h')) in Heq.
    apply cut_at_last_char_inj in Heq as [-> Ha]; [|by apply args_id_no_colon..].
    apply args_id_inj in Ha as [-> ->]; auto.
Qed.

(** Without the restriction on the last part the reader is wrong about the run. *)
Example parse_ambiguous_id :
  parseJournalKey (rk_tool "r" "tool:x") = Some ("r:tool", KTool).
Proof. reflexivity. Qed.

Lemma parse_run_record_key_witness :
  parseJournalKey ("org:a:run" +:+ ":" +:+ kind_name KTool +:+ ":" +:+ "call_1")
  = Some ("org:a:run", KTool).
Proof. apply (parse_run_record_key "org:a:run" "call_1" KTool); [discriminate|reflexivity..]. Defined.

Lemma window_keys_invisible_witness : parseJournalKey "xthr:t1:args-charge-00ff" = None.
Proof.
  apply (window_keys_invisible "t1" "charge" "00ff"); [reflexivity|right; reflexivity].
Defined.

Lemma dedup_keys_injective_witness : "r" = "r" ∧ "charge" = "charge" ∧ "0a" = "0a".
Proof.
  apply (proj1 (dedup_keys_injective "r" "charge" "0a" "r" "charge" "0a"
                  "r:tool:args-charge-0a" eq_refl eq_refl)); reflexivity.
Defined.
