(* ===== verification/Journal.v ===== *)
(** * Journal: the in-memory journal and the run reader

    Models [InMemoryJournal] of [packages/durable/src/journal.ts] (its four maps
    and every operation) and the pure helpers around it: [deriveRunStatus],
    [summarizeRun], [outcomeStatusOf], [pageFromArray].  [structuredClone] on every
    read and write makes the values immutable, so they are plain values here.
    Values are abstract: [JsValue] says what the journal reads of them, and equality
    stands for equality of the [stableStringify] texts. *)

From S2P Require Import Prelude JsMap Keys.

(** What the journal observes of a stored value. *)
Class JsValue (V : Type) := {
  js_eq_dec :: EqDecision V;
  (** [value?.[field]] when it is a string *)
  str_field : V → string → option string;
  (** ['_v' in value] *)
  is_versioned : V → bool;
  (** [stableStringify(value).length] *)
  ser_length : V → nat;
}.

(** Plain text values, for examples. *)
Definition text_value : JsValue string := {|
  js_eq_dec := String.eq_dec;
  str_field v f := if String.eqb f "status" then Some v else None;
  is_versioned _ := false;
  ser_length := String.length;
|}.

(** ** Run status *)

Inductive run_status := RCompleted | RSuspended | RFailed | RRunning | RCanceled.

#[global] Instance run_status_eq_dec : EqDecision run_status.
Proof. solve_decision. Defined.

Definition status_name (s : run_status) : string :=
  match s with
  | RCompleted => "completed" | RSuspended => "suspended" | RFailed => "failed"
  | RRunning => "running" | RCanceled => "canceled"
  end.

(** [outcome] is the [status] string of the run's outcome record, if there is one. *)
Definition deriveRunStatus (suspended : bool) (outcome : option string) : run_status :=
  if bool_decide (outcome = Some "canceled") then RCanceled
  else if suspended then RSuspended
  else if bool_decide (outcome = Some "failed") then RFailed
  else if bool_decide (outcome = Some "running") then RRunning
  else RCompleted.

(** A journal entry as the reader returns it. *)
Record journal_entry (V : Type) := JournalEntry {
  je_key : string;
  je_runId : string;
  je_kind : entry_kind;
  je_value : V;
  je_seq : nat;
  je_ts : option Z;
}.
Arguments JournalEntry {V}.
Arguments je_key {V}. Arguments je_runId {V}. Arguments je_kind {V}.
Arguments je_value {V}. Arguments je_seq {V}. Arguments je_ts {V}.

Record run_summary := RunSummary {
  rs_runId : string;
  rs_status : run_status;
  rs_modelSteps : nat;
  rs_toolCalls : nat;
  rs_threadId : option string;
  rs_agent : option string;
  rs_resourceId : option string;
  rs_workKey : option string;
}.

(** [x ? { f: x } : {}]: an empty string is dropped like an absent one. *)
Definition truthy (o : option string) : option string :=
  match o with
  | Some s => if String.eqb s "" then None else Some s
  | None => None
  end.

Lemma truthy_Some o s : truthy o = Some s ↔ o = Some s ∧ s ≠ "".
Proof.
  unfold truthy. destruct o as [x|]; [|naive_solver].
  destruct (String.eqb_spec x ""); naive_solver.
Qed.

Record run_query := RunQuery {
  q_limit : option nat;
  q_cursor : option string;
  q_status : option run_status;
  q_agent : option string;
  q_resourceId : option string;
  q_workKey : option string;
}.

Definition no_query : run_query := RunQuery None None None None None None.

(** [q?.f ? r.f === q.f : true]. *)
Definition str_filter (q r : option string) : bool :=
  match truthy q with
  | Some x => bool_decide (r = Some x)
  | None => true
  end.

Definition query_matches (q : run_query) (r : run_summary) : bool :=
  match q_status q with Some s => bool_decide (rs_status r = s) | None => true end
  && str_filter (q_agent q) (rs_agent r)
  && str_filter (q_resourceId q) (rs_resourceId r)
  && str_filter (q_workKey q) (rs_workKey r).

(** [Number(cursor) || 0] on the decimal cursors the pages hand out; any other
    cursor reads as 0. *)
Definition cursor_offset (c : option string) : nat :=
  match truthy c with
  | Some s => match undec s with Some n => N.to_nat n | None => 0 end
  | None => 0
  end.

(** Filter, then slice: the page and the cursor of the next one. *)
Definition pageFromArray (l : list run_summary) (q : run_query) : list run_summary * option string :=
  let filtered := filter (λ r, query_matches q r = true) l in
  let start := cursor_offset (q_cursor q) in
  let lim := default 50 (q_limit q) in
  let next := start + lim in
  (take lim (drop start filtered),
   if next <? length filtered then Some (dec (N.of_nat next)) else None).

Section Journal.
Context {V : Type} `{!JsValue V}.

(** ** State *)

Record mem_journal := MemJournal {
  store : jsmap V;
  times : jsmap Z;               (** key → first write time *)
  counters : jsmap (jsmap Z);
}.

Definition empty_journal : mem_journal := MemJournal [] [] [].

Definition journal_wf (j : mem_journal) : Prop :=
  map_wf (store j) ∧ map_wf (times j) ∧ map_wf (counters j).

(** ** Point operations *)

Definition mj_get (k : string) (j : mem_journal) : option V := mget k (store j).

Definition mj_put (now : Z) (k : string) (v : V) (j : mem_journal) : mem_journal :=
  let t := if mhas k (times j) then times j else mset k now (times j) in
  MemJournal (mset k v (store j)) t (counters j).

Definition mj_putIfAbsent (now : Z) (k : string) (v : V) (j : mem_journal) : bool * mem_journal :=
  if mhas k (store j) then (false, j)
  else (true, MemJournal (mset k v (store j)) (mset k now (times j)) (counters j)).

Definition mj_putIfMatch (k : string) (expected v : V) (j : mem_journal) : bool * mem_journal :=
  match mget k (store j) with
  | None => (false, j)
  | Some cur =>
      if bool_decide (cur = expected)
      then (true, MemJournal (mset k v (store j)) (times j) (counters j))
      else (false, j)
  end.

(** [for ([f, d] of Object.entries(fields)) cur[f] = (cur[f] ?? 0) + d]. *)
Definition add_fields (fields : list (string * Z)) (cur : jsmap Z) : jsmap Z :=
  fold_left (λ c '(f, d), mset f (default 0 (mget f c) + d)%Z c) fields cur.

Definition mj_incrBy (k : string) (fields : list (string * Z)) (j : mem_journal) : mem_journal :=
  MemJournal (store j) (times j)
    (mset k (add_fields fields (default [] (mget k (counters j)))) (counters j)).

Definition mj_getCounters (k : string) (j : mem_journal) : option (jsmap Z) := mget k (counters j).

(** ** The atomic batch *)

Record journal_batch := JournalBatch {
  b_claim : option (string * V);
  b_incrs : list (string * list (string * Z));
  b_puts : list (string * V);
}.

Definition mj_applyBatch (now : Z) (b : journal_batch) (j : mem_journal) : bool * mem_journal :=
  let go j0 :=
    let j1 := fold_left (λ s '(k, fs), mj_incrBy k fs s) (b_incrs b) j0 in
    fold_left (λ s '(k, v), mj_put now k v s) (b_puts b) j1 in
  match b_claim b with
  | None => (true, go j)
  | Some (k, v) =>
      match mj_putIfAbsent now k v j with
      | (false, _) => (false, j)
      | (true, j') => (true, go j')
      end
  end.

Definition mj_getMany (ks : list string) (j : mem_journal) : list (option V) :=
  map (λ k, mj_get k j) ks.

(** ** Key enumeration and deletion *)

(** [[...new Set([...store.keys(), ...counters.keys()])]]. *)
Definition mj_keys (j : mem_journal) : list string :=
  mkeys (store j) ++ filter (λ k, mhas k (store j) = false) (mkeys (counters j)).

Definition mj_listKeys (prefix : string) (j : mem_journal) : list string :=
  filter (λ k, starts_with prefix k = true) (mj_keys j).

(** The bounded probe: at most [limit] keys. *)
Definition mj_listKeys_limit (prefix : string) (limit : nat) (j : mem_journal) : list string :=
  take limit (mj_listKeys prefix j).

Definition drop_prefix {W} (prefix : string) (m : jsmap W) : jsmap W :=
  filter (λ '(k, _), starts_with prefix k = false) m.

Definition count_prefix {W} (prefix : string) (m : jsmap W) : nat :=
  count_if (starts_with prefix) (mkeys m).

(** The times of the counter-only keys stay, as in the code. *)
Definition mj_deletePrefix (prefix : string) (j : mem_journal) : nat * mem_journal :=
  (count_prefix prefix (store j) + count_prefix prefix (counters j),
   MemJournal (drop_prefix prefix (store j))
     (filter (λ '(k, _), (starts_with prefix k && mhas k (store j)) = false) (times j))
     (drop_prefix prefix (counters j))).

Definition move_key {W} (from to : string) (m : jsmap W) : jsmap W :=
  match mget from m with
  | Some w => mdel from (mset to w m)
  | None => m
  end.

(** [rekey]: every key the renaming moves, in the order of [keys()]. *)
Definition rekey_step (rename : string → option string) (acc : nat * mem_journal) (k : string)
  : nat * mem_journal :=
  let '(n, s) := acc in
  match rename k with
  | None => (n, s)
  | Some to =>
      if String.eqb to k then (n, s)
      else (S n, MemJournal (move_key k to (store s)) (move_key k to (times s))
                   (move_key k to (counters s)))
  end.

Definition mj_rekey (rename : string → option string) (j : mem_journal) : nat * mem_journal :=
  fold_left (rekey_step rename) (mj_keys j) (0, j).

(** ** The run reader *)

Definition is_suspended (v : V) : bool := bool_decide (str_field v "status" = Some "suspended").

Definition summarizeRun (runId : string) (entries : list (entry_kind * V)) (outcome : option string)
  : run_status * nat * nat :=
  let models := count_if (λ '(k, _), bool_decide (k = KModel)) entries in
  let tools := count_if (λ '(k, _), bool_decide (k = KTool)) entries in
  let susp := existsb (λ '(k, v), bool_decide (k = KTool) && is_suspended v) entries in
  (deriveRunStatus susp outcome, models, tools).

Definition outcomeStatusOf (key : string) (v : V) : option string :=
  if ends_with ":outcome" key then
    match str_field v "status" with
    | Some s => if existsb (String.eqb s) ["failed"; "completed"; "running"; "canceled"]
                then Some s else None
    | None => None
    end
  else None.

(** [readRun]: the model and tool records of a run, in store order. *)
Fixpoint number_entries (n : nat) (l : list (string * entry_kind * V)) (runId : string) (t : jsmap Z)
  : list (journal_entry V) :=
  match l with
  | [] => []
  | (k, kd, v) :: l' => JournalEntry k runId kd v n (mget k t) :: number_entries (S n) l' runId t
  end.

Definition run_records (runId : string) (m : jsmap V) : list (string * entry_kind * V) :=
  omap (λ '(k, v),
    match parseJournalKey k with
    | Some (r, kd) => if String.eqb r runId then Some (k, kd, v) else None
    | None => None
    end) m.

Definition mj_readRun (runId : string) (j : mem_journal) : list (journal_entry V) :=
  number_entries 0 (run_records runId (store j)) runId (times j).

Definition mj_readRunStats (runId : string) (j : mem_journal) : nat * nat :=
  let rs := run_records runId (store j) in
  (length rs, sum_list (map (λ '(_, _, v), ser_length v) rs)).

(** The run a key belongs to, as [listRuns] collects it: a record key under its run
    with the record, an [:input] or [:outcome] key as a run without entries. *)
Definition add_entry (runId : string) (es : list (entry_kind * V)) (m : jsmap (list (entry_kind * V)))
  : jsmap (list (entry_kind * V)) :=
  mset runId (default [] (mget runId m) ++ es) m.

Definition touch_run (runId : string) (m : jsmap (list (entry_kind * V))) : jsmap (list (entry_kind * V)) :=
  if mhas runId m then m else mset runId [] m.

Definition collect_key (m : jsmap (list (entry_kind * V))) (kv : string * V) : jsmap (list (entry_kind * V)) :=
  let '(k, v) := kv in
  match parseJournalKey k with
  | Some (r, kd) => add_entry r [(kd, v)] m
  | None =>
      let m1 := match truthy (runIdOfKey k (is_versioned v)) with
                | Some owner => touch_run owner m
                | None => m
                end in
      match outcomeStatusOf k v, strip_suffix ":outcome" k with
      | Some _, Some r => touch_run r m1
      | _, _ => m1
      end
  end.

Definition input_field (runId f : string) (j : mem_journal) : option string :=
  v ← mj_get (rk_input runId) j; truthy (str_field v f).

Definition summary_of (j : mem_journal) (runId : string) (entries : list (entry_kind * V)) : run_summary :=
  let out := v ← mj_get (rk_outcome runId) j; str_field v "status" in
  let '(st, models, tools) := summarizeRun runId entries out in
  RunSummary runId st models tools
    (input_field runId "threadId" j) (input_field runId "agent" j)
    (input_field runId "resourceId" j) (input_field runId "workKey" j).

Definition mj_listRuns (j : mem_journal) : list run_summary :=
  map (λ '(r, es), summary_of j r es) (fold_left collect_key (store j) []).

Definition mj_listRunsPaged (q : run_query) (j : mem_journal) : list run_summary * option string :=
  pageFromArray (mj_listRuns j) q.

Definition mj_countRunsByStatus (j : mem_journal) : jsmap Z :=
  fold_left (λ c r, mset (status_name (rs_status r)) (default 0 (mget (status_name (rs_status r)) c) + 1)%Z c)
    (mj_listRuns j) [].

(** [listStaleRuns]: the age of a run is the age of its newest key. *)
Definition stale_step (t : jsmap Z) (last : jsmap (Z * bool)) (kv : string * V) : jsmap (Z * bool) :=
  let '(k, v) := kv in
  let p := parseJournalKey k in
  let owner := match p with Some (r, _) => Some r | None => runIdOfKey k (is_versioned v) end in
  match truthy owner with
  | None => last
  | Some r =>
      let ts := default 0%Z (mget k t) in
      let cur := default (0%Z, false) (mget r last) in
      let susp := match p with Some (_, KTool) => is_suspended v | _ => false end in
      mset r (Z.max (cur.1) ts, cur.2 || susp) last
  end.

Definition mj_listStaleRuns (cutoff : Z) (includeSuspended : bool) (j : mem_journal) : list string :=
  map fst (filter (λ '(_, (ts, susp)), (ts <? cutoff)%Z && (includeSuspended || negb susp) = true)
             (fold_left (stale_step (times j)) (store j) [])).
End Journal.

Arguments mem_journal : clear implicits.
Arguments journal_batch : clear implicits.

(** ** Walking the pages: [listRunsArray] *)

(** The loop of [listRunsArray]: follows [nextCursor], stopping at a cursor already
    seen.  [None] when the fuel runs out before the walk ends. *)
Fixpoint walk_pages {A} (fuel : nat) (page : option string → list A * option string)
    (seen : list string) (cursor : option string) : option (list A) :=
  match truthy cursor with
  | None => Some []
  | Some c =>
      if bool_decide (c ∈ seen) then Some []
      else match fuel with
           | 0 => None
           | S fuel' =>
               let '(items, nx) := page (Some c) in
               app items <$> walk_pages fuel' page (c :: seen) nx
           end
  end.

Definition listRunsArray {A} (fuel : nat) (page : option string → list A * option string)
    : option (list A) :=
  let '(items, cursor) := page None in app items <$> walk_pages fuel page [] cursor.

(** ** Lemmas: point operations *)

Section JournalLemmas.
Context {V : Type} `{!JsValue V}.
Implicit Types (j : mem_journal V) (k : string) (v : V).

Lemma mj_get_put now k v j : mj_get k (mj_put now k v j) = Some v.
Proof. unfold mj_get, mj_put; simpl. apply mget_mset. Qed.

Lemma mj_get_put_ne now k k' v j : k ≠ k' → mj_get k (mj_put now k' v j) = mj_get k j.
Proof. intros. unfold mj_get, mj_put; simpl. by apply mget_mset_ne. Qed.

Lemma mj_get_incrBy k k' fs j : mj_get k (mj_incrBy k' fs j) = mj_get k j.
Proof. done. Qed.

Lemma mj_putIfAbsent_spec now k v j :
  mj_putIfAbsent now k v j =
    match mj_get k j with
    | Some _ => (false, j)
    | None => (true, MemJournal (mset k v (store j)) (mset k now (times j)) (counters j))
    end.
Proof. unfold mj_putIfAbsent, mj_get, mhas. by destruct (mget k (store j)). Qed.

Lemma mj_putIfMatch_spec k e v j :
  mj_putIfMatch k e v j =
    if bool_decide (mj_get k j = Some e)
    then (true, MemJournal (mset k v (store j)) (times j) (counters j))
    else (false, j).
Proof.
  unfold mj_putIfMatch, mj_get. destruct (mget k (store j)) as [c|]; [|done].
  destruct (bool_decide_reflect (c = e)) as [->|Hne].
  - by rewrite bool_decide_eq_true_2.
  - rewrite bool_decide_eq_false_2; [done|congruence].
Qed.

Lemma journal_wf_put now k v j : journal_wf j → journal_wf (mj_put now k v j).
Proof.
  intros (Hs & Ht & Hc). unfold mj_put. split_and!; simpl; auto using map_wf_mset.
  destruct (mhas k (times j)); auto using map_wf_mset.
Qed.

Lemma journal_wf_incrBy k fs j : journal_wf j → journal_wf (mj_incrBy k fs j).
Proof. intros (Hs & Ht & Hc). split_and!; simpl; auto using map_wf_mset. Qed.

Lemma journal_wf_putIfAbsent now k v j b j' :
  mj_putIfAbsent now k v j = (b, j') → journal_wf j → journal_wf j'.
Proof.
  unfold mj_putIfAbsent. destruct (mhas k (store j)); intros [= <- <-]; [done|].
  intros (Hs & Ht & Hc). split_and!; simpl; auto using map_wf_mset.
Qed.

Lemma journal_wf_putIfMatch k e v j b j' :
  mj_putIfMatch k e v j = (b, j') → journal_wf j → journal_wf j'.
Proof.
  rewrite mj_putIfMatch_spec. case_bool_decide; intros [= <- <-]; [|done].
  intros (Hs & Ht & Hc). split_and!; simpl; auto using map_wf_mset.
Qed.

Lemma journal_wf_fold {B} (f : mem_journal V → B → mem_journal V) (l : list B) j :
  (∀ s b, journal_wf s → journal_wf (f s b)) → journal_wf j → journal_wf (fold_left f l j).
Proof. intros Hf. revert j. induction l; simpl; auto. Qed.

Lemma map_wf_filter {W} (P : string * W → Prop) `{!∀ x, Decision (P x)} (m : jsmap W) :
  map_wf m → map_wf (filter P m).
Proof.
  unfold map_wf, mkeys. induction m as [|[k w] m IH]; simpl; [done|].
  intros [Hk Hm]%NoDup_cons. rewrite filter_cons. case_decide; [|auto].
  simpl. apply NoDup_cons. split; [|auto].
  intros Hin. apply Hk. apply list_elem_of_fmap in Hin as ([k' w'] & -> & Hin).
  apply list_elem_of_fmap. exists (k', w'). split; [done|].
  by apply list_elem_of_filter in Hin as [_ Hin].
Qed.

(** The counters a journal shows for a field. *)
Definition counter_value (k f : string) (j : mem_journal V) : Z :=
  default 0%Z (m ← mj_getCounters k j; mget f m).

Definition field_sum (f : string) (fields : list (string * Z)) : Z :=
  fold_right (λ '(g, d) acc, if String.eqb f g then (d + acc)%Z else acc) 0%Z fields.

Lemma add_fields_get f fields cur :
  default 0%Z (mget f (add_fields fields cur)) = (default 0%Z (mget f cur) + field_sum f fields)%Z.
Proof.
  unfold add_fields, field_sum. revert cur.
  induction fields as [|[g d] fields IH]; intros cur; simpl; [lia|].
  rewrite IH. map_simpl; simpl; lia.
Qed.

Lemma counter_value_incrBy k k' f fs j :
  counter_value k f (mj_incrBy k' fs j) =
    (counter_value k f j + if String.eqb k k' then field_sum f fs else 0)%Z.
Proof.
  unfold counter_value, mj_getCounters, mj_incrBy; simpl.
  rewrite mget_mset_cases. destruct (String.eqb_spec k k') as [->|_]; simpl; [|lia].
  rewrite add_fields_get. by destruct (mget k' (counters j)) eqn:?; simpl.
Qed.

Lemma counter_value_put now k k' f v j : counter_value k f (mj_put now k' v j) = counter_value k f j.
Proof. done. Qed.

(** The value the last of [puts] leaves at [k], if one of them writes it. *)
Definition last_put (k : string) (puts : list (string * V)) : option V :=
  fold_left (λ acc '(k', v), if String.eqb k k' then Some v else acc) puts None.

Lemma mj_get_fold_put now puts k j :
  mj_get k (fold_left (λ s '(k', v), mj_put now k' v s) puts j) =
    match last_put k puts with Some v => Some v | None => mj_get k j end.
Proof.
  unfold last_put. induction puts as [|[k' v] puts IH] using rev_ind; [done|].
  rewrite !fold_left_app; simpl.
  destruct (String.eqb_spec k k') as [->|Hne]; [apply mj_get_put|].
  by rewrite mj_get_put_ne.
Qed.

Lemma fold_put_counters now puts j :
  counters (fold_left (λ s '(k', v), mj_put now k' v s) puts j) = counters j.
Proof. revert j. induction puts as [|[k v] puts IH]; intros j; simpl; [done|]. by rewrite IH. Qed.

Lemma fold_incr_store incrs j :
  store (fold_left (λ s '(k, fs), mj_incrBy k fs s) incrs j) = store j.
Proof. revert j. induction incrs as [|[k v] puts IH]; intros j; simpl; [done|]. by rewrite IH. Qed.

Lemma fold_incr_counter incrs k f j :
  counter_value k f (fold_left (λ s '(k, fs), mj_incrBy k fs s) incrs j) =
    (counter_value k f j +
     fold_right Z.add 0 (map (λ '(k', fs), if String.eqb k k' then field_sum f fs else 0) incrs))%Z.
Proof.
  revert j. induction incrs as [|[k' fs] incrs IH]; intros j; simpl; [lia|].
  rewrite IH, counter_value_incrBy. lia.
Qed.
End JournalLemmas.

#[export] Hint Resolve journal_wf_put journal_wf_incrBy journal_wf_putIfAbsent journal_wf_putIfMatch
  journal_wf_fold map_wf_filter : gnl.

(** ** Properties of the journal *)

(** One call of a mutating operation. *)
Inductive journal_op (V : Type) :=
| OpPut (now : Z) (k : string) (v : V)
| OpPutIfAbsent (now : Z) (k : string) (v : V)
| OpPutIfMatch (k : string) (expected v : V)
| OpIncrBy (k : string) (fields : list (string * Z))
| OpApplyBatch (now : Z) (b : journal_batch V)
| OpDeletePrefix (prefix : string)
| OpRekey (rename : string → option string).
Arguments OpPut {V}. Arguments OpPutIfAbsent {V}. Arguments OpPutIfMatch {V}.
Arguments OpIncrBy {V}. Arguments OpApplyBatch {V}. Arguments OpDeletePrefix {V}.
Arguments OpRekey {V}.

Section JournalProperties.
Context {V : Type} `{!JsValue V}.
Implicit Types (j : mem_journal V).

Definition apply_journal_op (o : journal_op V) (j : mem_journal V) : mem_journal V :=
  match o with
  | OpPut now k v => mj_put now k v j
  | OpPutIfAbsent now k v => (mj_putIfAbsent now k v j).2
  | OpPutIfMatch k e v => (mj_putIfMatch k e v j).2
  | OpIncrBy k fs => mj_incrBy k fs j
  | OpApplyBatch now b => (mj_applyBatch now b j).2
  | OpDeletePrefix p => (mj_deletePrefix p j).2
  | OpRekey f => (mj_rekey f j).2
  end.

Lemma map_wf_mdel {W} k (m : jsmap W) : map_wf m → map_wf (mdel k m).
Proof.
  unfold map_wf, mkeys. induction m as [|[k' w] m IH]; simpl; [done|].
  intros [Hk Hm]%NoDup_cons. destruct (String.eqb_spec k k'); [done|]. simpl.
  apply NoDup_cons. split; [|auto]. intros Hin. apply Hk. clear -Hin.
  induction m as [|[k2 w2] m IH]; simpl in *; [done|].
  destruct (String.eqb_spec k k2); simpl in *; [by right|].
  apply elem_of_cons in Hin as [->|Hin]; [by left|right; auto].
Qed.

Lemma map_wf_move_key {W} a b (m : jsmap W) : map_wf m → map_wf (move_key a b m).
Proof. unfold move_key. intros. destruct (mget a m); auto using map_wf_mset, map_wf_mdel. Qed.

Lemma journal_wf_applyBatch now b j : journal_wf j → journal_wf (mj_applyBatch now b j).2.
Proof.
  intros Hj. unfold mj_applyBatch.
  assert (Hgo : ∀ j0, journal_wf j0 →
    journal_wf (fold_left (λ s '(k, v), mj_put now k v s) (b_puts b)
      (fold_left (λ s '(k, fs), mj_incrBy k fs s) (b_incrs b) j0))).
  { intros j0 H0. apply journal_wf_fold; [intros s []; auto with gnl|].
    apply journal_wf_fold; [intros s []; auto with gnl|done]. }
  destruct (b_claim b) as [[k v]|]; simpl; [|auto].
  destruct (mj_putIfAbsent now k v j) as [[] j'] eqn:E; simpl; [|done].
  apply Hgo. eauto with gnl.
Qed.

Lemma journal_wf_rekey f ks n j :
  journal_wf j → journal_wf (fold_left (rekey_step f) ks (n, j)).2.
Proof.
  revert n j. induction ks as [|k ks IH]; intros n j Hj; simpl; [done|].
  destruct (f k) as [to|]; [|auto]. destruct (String.eqb to k); [auto|].
  apply IH. destruct Hj as (Hs & Ht & Hc). split_and!; simpl; by apply map_wf_move_key.
Qed.

(** Every operation of the journal keeps its maps free of repeated keys. *)
Theorem journal_ops_preserve_wf (o : journal_op V) (j : mem_journal V) :
  journal_wf j → journal_wf (apply_journal_op o j).
Proof.
  intros Hj. destruct o as [now k v|now k v|k e v|k fs|now b|p|f]; simpl.
  - by apply journal_wf_put.
  - destruct (mj_putIfAbsent now k v j) as [b j'] eqn:E. simpl. eauto with gnl.
  - destruct (mj_putIfMatch k e v j) as [b j'] eqn:E. simpl. eauto with gnl.
  - by apply journal_wf_incrBy.
  - by apply journal_wf_applyBatch.
  - destruct Hj as (Hs & Ht & Hc). split_and!; simpl; by apply map_wf_filter.
  - by apply journal_wf_rekey.
Qed.

(** [applyBatch] is all or nothing.  It returns [false] exactly when the claim
    key exists, and then the journal is unchanged; when it returns [true] every
    put and every increment of the batch is visible, and the claim record with
    them, and no other key or counter changed. *)
Theorem applyBatch_all_or_nothing (now : Z) (b : journal_batch V) (j j' : mem_journal V) (ok : bool) :
  mj_applyBatch now b j = (ok, j') →
  (ok = false ↔ ∃ k v, b_claim b = Some (k, v) ∧ is_Some (mj_get k j)) ∧
  (ok = false → j' = j) ∧
  (ok = true →
    (∀ k, mj_get k j' =
      match last_put k (b_puts b) with
      | Some v => Some v
      | None => match b_claim b with
                | Some (k', v) => if String.eqb k k' then Some v else mj_get k j
                | None => mj_get k j
                end
      end) ∧
    (∀ k f, counter_value k f j' =
      counter_value k f j +
      fold_right Z.add 0 (map (λ '(k', fs), if String.eqb k k' then field_sum f fs else 0)
                            (b_incrs b)))%Z).
Proof.
  unfold mj_applyBatch.
  assert (Hget : ∀ j0 k, mj_get k (fold_left (λ s '(k, v), mj_put now k v s) (b_puts b)
      (fold_left (λ s '(k, fs), mj_incrBy k fs s) (b_incrs b) j0)) =
      match last_put k (b_puts b) with Some v => Some v | None => mj_get k j0 end).
  { intros j0 k. rewrite mj_get_fold_put. unfold mj_get at 1. by rewrite fold_incr_store. }
  assert (Hcnt : ∀ j0 k f, counter_value k f (fold_left (λ s '(k, v), mj_put now k v s) (b_puts b)
      (fold_left (λ s '(k, fs), mj_incrBy k fs s) (b_incrs b) j0)) =
      counter_value k f (fold_left (λ s '(k, fs), mj_incrBy k fs s) (b_incrs b) j0)).
  { intros j0 k f. unfold counter_value, mj_getCounters. by rewrite fold_put_counters. }
  destruct (b_claim b) as [[k0 v0]|]; simpl.
  - rewrite mj_putIfAbsent_spec. destruct (mj_get k0 j) as [w|] eqn:Hk0.
    + intros [= <- <-]. split_and!; [|done..]. split; [|done]. intros _. exists k0, v0. by rewrite Hk0.
    + intros [= <- <-]. split_and!; [|done|].
      * split; [done|]. intros (k & v & [= <- <-] & Hs). rewrite Hk0 in Hs. by destruct Hs.
      * intros _. split.
        -- intros k. rewrite Hget. destruct (last_put k (b_puts b)); [done|].
           unfold mj_get; simpl. by rewrite mget_mset_cases.
        -- intros k f. rewrite Hcnt, fold_incr_counter. done.
  - intros [= <- <-]. split_and!; [|done|].
    + split; [done|]. by intros (k & v & ? & _).
    + intros _. split; [apply Hget|]. intros k f. by rewrite Hcnt, fold_incr_counter.
Qed.

(** Counter increments commute: whatever the order in which concurrent workers'
    [incrBy] calls reach the journal, every counter ends with the same value, so
    no increment is lost. *)
Theorem incrBy_order_irrelevant (l l' : list (string * list (string * Z))) (j : mem_journal V) (k f : string) :
  l ≡ₚ l' →
  counter_value k f (fold_left (λ s '(k, fs), mj_incrBy k fs s) l j) =
  counter_value k f (fold_left (λ s '(k, fs), mj_incrBy k fs s) l' j).
Proof.
  intros Hp. rewrite !fold_incr_counter. f_equal.
  induction Hp as [|[] l l' Hp IH|[] [] l|l1 l2 l3 H1 IH1 H2 IH2]; simpl; lia.
Qed.

Lemma mget_drop_prefix {W} (p k : string) (m : jsmap W) :
  mget k (drop_prefix p m) = if starts_with p k then None else mget k m.
Proof.
  unfold drop_prefix. induction m as [|[k' w] m IH]; [by case_match|].
  rewrite filter_cons. case_decide as Hk; cbn [mget]; rewrite ?IH.
  - destruct (String.eqb_spec k k') as [->|]; [by rewrite Hk|done].
  - destruct (String.eqb_spec k k') as [->|]; [|done].
    destruct (starts_with p k'); done.
Qed.

Lemma mj_get_deletePrefix k p j : mj_get k (snd (mj_deletePrefix p j)) = if starts_with p k then None else mj_get k j.
Proof. apply mget_drop_prefix. Qed.

Lemma length_drop_prefix {W} (p : string) (m : jsmap W) :
  count_prefix p m + length (drop_prefix p m) = length m.
Proof.
  unfold count_prefix, drop_prefix, mkeys. induction m as [|[k w] m IH]; [done|].
  rewrite filter_cons. simpl. rewrite count_if_cons.
  case_decide as Hk; simpl; [rewrite Hk; lia|]. destruct (starts_with p k); [lia|done].
Qed.

(** [deletePrefix] removes exactly the keys with the prefix: no store key or
    counter key with the prefix is left, every other key keeps its value and its
    counters, and the number returned is the number of removed entries. *)
Theorem deletePrefix_exact (p : string) (j j' : mem_journal V) (n : nat) :
  mj_deletePrefix p j = (n, j') →
  mj_listKeys p j' = [] ∧
  (∀ k, starts_with p k = false → mj_get k j' = mj_get k j ∧ mj_getCounters k j' = mj_getCounters k j) ∧
  n + length (store j') + length (counters j') = length (store j) + length (counters j).
Proof.
  intros [= <- <-]. split_and!.
  - apply elem_of_nil_inv. intros k [Hk Hin]%list_elem_of_filter.
    unfold mj_keys in Hin. apply elem_of_app in Hin as [Hin|[_ Hin]%list_elem_of_filter];
      apply elem_of_mkeys in Hin; simpl in Hin; rewrite mget_drop_prefix, Hk in Hin; by destruct Hin.
  - intros k Hk. unfold mj_get, mj_getCounters; simpl. by rewrite !mget_drop_prefix, Hk.
  - simpl. pose proof (length_drop_prefix p (store j)). pose proof (length_drop_prefix p (counters j)). lia.
Qed.

(** ** Pages *)

Lemma cursor_offset_dec n : cursor_offset (Some (dec (N.of_nat n))) = n.
Proof.
  unfold cursor_offset, truthy. destruct (String.eqb_spec (dec (N.of_nat n)) "") as [He|].
  - apply (f_equal undec) in He. rewrite undec_dec in He. injection He as He. lia.
  - by rewrite undec_dec, Nat2N.id.
Qed.

Lemma truthy_dec n : 0 < n → truthy (Some (dec (N.of_nat n))) = Some (dec (N.of_nat n)).
Proof.
  intros Hn. unfold truthy. destruct (String.eqb_spec (dec (N.of_nat n)) "") as [He|]; [|done].
  apply (f_equal undec) in He. rewrite undec_dec in He. injection He as He. lia.
Qed.

Lemma walk_pages_from (l : list run_summary) (o fuel : nat) (seen : list string) :
  length l - o < fuel → 0 < o →
  (∀ s, s ∈ seen → ∃ m, s = dec (N.of_nat m) ∧ m < o) →
  walk_pages fuel (λ c, pageFromArray l (RunQuery None c None None None None)) seen
    (if o <? length l then Some (dec (N.of_nat o)) else None)
  = Some (drop o l).
Proof.
  revert o seen. induction fuel as [|fuel IH]; intros o seen Hf Ho Hseen; [lia|].
  destruct (Nat.ltb_spec o (length l)) as [Hlt|Hge]; [|by rewrite drop_ge by lia; destruct fuel].
  pose proof (truthy_dec o Ho) as Ht.
  cbn [walk_pages]. rewrite Ht. rewrite bool_decide_eq_false_2.
  2:{ intros (m & Hm & Hlt')%Hseen. apply dec_inj in Hm. lia. }
  unfold pageFromArray at 1. cbn [q_limit q_cursor]. rewrite cursor_offset_dec. cbn [default].
  assert (Hfl : filter (λ r, query_matches (RunQuery None (Some (dec (N.of_nat o))) None None None None) r = true) l = l).
  { clear. induction l as [|r l IHl]; [done|]. rewrite filter_cons. case_decide as H; [by rewrite IHl|].
    by destruct H. }
  rewrite Hfl. rewrite (IH (o + 50)); [|lia..|].
  - simpl. f_equal. rewrite <- (take_drop 50 (drop o l)) at 2. by rewrite drop_drop.
  - intros s [->|(m & -> & Hm)%Hseen]%elem_of_cons; [exists o|exists m]; split; try done; lia.
Qed.

(** Walking the pages of the in-memory run list returns every run once, in
    order: [listRunsArray] terminates (with fuel for one page per run) and nothing
    is lost or repeated at a page boundary. *)
Theorem listRunsArray_complete (j : mem_journal V) (fuel : nat) :
  length (mj_listRuns j) < fuel →
  listRunsArray fuel (λ c, mj_listRunsPaged (RunQuery None c None None None None) j)
  = Some (mj_listRuns j).
Proof.
  intros Hf. unfold listRunsArray, mj_listRunsPaged. set (l := mj_listRuns j) in *.
  assert (Hfl : filter (λ r, query_matches (RunQuery None None None None None None) r = true) l = l).
  { clear. induction l as [|r l IHl]; [done|]. rewrite filter_cons. case_decide as H; [by rewrite IHl|].
    by destruct H. }
  unfold pageFromArray at 1. cbn [q_limit q_cursor]. rewrite Hfl. simpl.
  rewrite (walk_pages_from l 50); [|lia..|].
  - simpl. f_equal. apply take_drop.
  - intros s Hs. inversion Hs.
Qed.

Lemma number_entries_elem n l r t (e : journal_entry V) :
  e ∈ number_entries n l r t → (je_key e, je_kind e, je_value e) ∈ l.
Proof.
  revert n. induction l as [|[[k kd] v] l IH]; simpl; intros n He; [inversion He|].
  apply elem_of_cons in He as [->|He]; [by left|right; eauto].
Qed.

Lemma number_entries_has n l r t k kd (v : V) :
  (k, kd, v) ∈ l → ∃ e, e ∈ number_entries n l r t ∧ je_key e = k ∧ je_kind e = kd ∧ je_value e = v.
Proof.
  revert n. induction l as [|[[k' kd'] v'] l IH]; simpl; intros n He; [inversion He|].
  apply elem_of_cons in He as [[= -> -> ->]|He].
  - eexists. split; [by left|done].
  - destruct (IH (S n) He) as (e & Hin & ?). exists e. split; [by right|done].
Qed.

Lemma number_entries_seq n l r (t : jsmap Z) :
  map je_seq (number_entries n l r t : list (journal_entry V)) = seq n (length l).
Proof. revert n. induction l as [|[[k kd] v] l IH]; intros n; simpl; [done|]. by rewrite IH. Qed.

Lemma number_entries_length n l r (t : jsmap Z) :
  length (number_entries n l r t : list (journal_entry V)) = length l.
Proof. revert n. induction l as [|[[k kd] v] l IH]; intros n; simpl; [done|]. by rewrite IH. Qed.

Lemma run_records_elem r (m : jsmap V) k kd v :
  (k, kd, v) ∈ run_records r m ↔ (k, v) ∈ m ∧ parseJournalKey k = Some (r, kd).
Proof.
  unfold run_records. rewrite list_elem_of_omap. split.
  - intros ([k' v'] & Hin & Hp). destruct (parseJournalKey k') as [[r' kd']|] eqn:E; [|done].
    destruct (String.eqb_spec r' r) as [->|]; [|done]. by injection Hp as -> -> ->.
  - intros [Hin Hp]. exists (k, v). rewrite Hp, String.eqb_refl. done.
Qed.

(** The reader returns the records of the run it was asked for and no others:
    each entry's key parses to that run with the entry's kind and carries the stored
    value, every such key of the store is returned, and sequence numbers count from
    zero in store order. *)
Theorem readRun_exact (r : string) (j : mem_journal V) :
  journal_wf j →
  (∀ e, e ∈ mj_readRun r j →
    parseJournalKey (je_key e) = Some (r, je_kind e) ∧ mj_get (je_key e) j = Some (je_value e)) ∧
  (∀ k kd v, parseJournalKey k = Some (r, kd) → mj_get k j = Some v →
    ∃ e, e ∈ mj_readRun r j ∧ je_key e = k ∧ je_kind e = kd ∧ je_value e = v) ∧
  map je_seq (mj_readRun r j) = seq 0 (length (mj_readRun r j)).
Proof.
  intros (Hs & _). unfold mj_readRun. split_and!.
  - intros e He%number_entries_elem. apply run_records_elem in He as [Hin Hp].
    split; [done|]. by apply mget_In.
  - intros k kd v Hp Hg. apply number_entries_has, run_records_elem. split; [|done].
    by apply In_mget.
  - by rewrite number_entries_seq, number_entries_length.
Qed.

(** ** Status derivation *)

(** The precedence of a run's status: a recorded cancel outranks everything, a
    suspended tool record outranks every other outcome, and without either the
    recorded outcome decides, an absent one reading as completed.  The counts are
    those of the model and of the tool records. *)
Theorem summarizeRun_status (r : string) (es : list (entry_kind * V)) (out : option string) :
  let '(st, models, tools) := summarizeRun r es out in
  (st = RCanceled ↔ out = Some "canceled") ∧
  (st = RSuspended ↔ out ≠ Some "canceled" ∧ ∃ v, (KTool, v) ∈ es ∧ is_suspended v = true) ∧
  (st = RCompleted → out ≠ Some "failed" ∧ out ≠ Some "running" ∧ out ≠ Some "canceled") ∧
  models + tools = length es.
Proof.
  unfold summarizeRun, deriveRunStatus.
  assert (Hex : existsb (λ '(k, v), bool_decide (k = KTool) && is_suspended v) es = true ↔
                ∃ v, (KTool, v) ∈ es ∧ is_suspended v = true).
  { rewrite existsb_exists. split.
    - intros ([k v] & Hin & H). bool_to_prop. subst. exists v. by rewrite list_elem_of_In.
    - intros (v & Hin & H). exists (KTool, v). rewrite <- list_elem_of_In. split; [done|].
      by rewrite H. }
  assert (Hn : count_if (λ '(k, _), bool_decide (k = KModel)) es +
               count_if (λ '(k, _), bool_decide (k = KTool)) es = length es).
  { clear. induction es as [|[[] v] es IH]; [done|..]; rewrite !count_if_cons; simpl; lia. }
  destruct (bool_decide_reflect (out = Some "canceled")) as [->|Hc].
  { split_and!; try done. split; [done|]. by intros []. }
  destruct (existsb _ es) eqn:He.
  { split_and!; try done. split; [|done]. intros _. split; [done|]. by apply Hex. }
  assert (Hno : ¬ ∃ v, (KTool, v) ∈ es ∧ is_suspended v = true) by (rewrite <- Hex; congruence).
  repeat case_bool_decide; split_and!; try done; split; try done; by intros [].
Qed.
End JournalProperties.

(** ** Examples *)

Definition sample_journal : mem_journal string :=
  mj_put 1 "r:model:0" "m"
    (mj_put 2 "r:tool:a" "suspended" (mj_incrBy "r:n" [("x", 2%Z)] empty_journal)).

Section Witnesses.
#[local] Existing Instance text_value.

Lemma sample_journal_wf : journal_wf sample_journal.
Proof. split_and!; (apply (bool_decide_unpack _); vm_compute; exact I). Qed.

Lemma journal_ops_preserve_wf_witness :
  journal_wf (apply_journal_op (OpDeletePrefix "r:tool") sample_journal).
Proof. apply journal_ops_preserve_wf, sample_journal_wf. Defined.

Lemma applyBatch_all_or_nothing_witness :
  mj_get "r:tool:a" (snd (mj_applyBatch 5 (JournalBatch (Some ("r:c", "1")) [] [("r:tool:a", "done")]) sample_journal))
  = Some "done".
Proof.
  destruct (applyBatch_all_or_nothing 5 (JournalBatch (Some ("r:c", "1")) [] [("r:tool:a", "done")])
              sample_journal _ true ltac:(apply surjective_pairing)) as (_ & _ & H).
  apply (proj1 (H eq_refl)).
Defined.

Lemma incrBy_order_irrelevant_witness :
  counter_value "k" "x" (fold_left (λ s '(k, fs), mj_incrBy k fs s) [("k", [("x", 1%Z)]); ("k", [("x", 4%Z)])] sample_journal) =
  counter_value "k" "x" (fold_left (λ s '(k, fs), mj_incrBy k fs s) [("k", [("x", 4%Z)]); ("k", [("x", 1%Z)])] sample_journal).
Proof. apply incrBy_order_irrelevant. apply Permutation_swap. Defined.

Lemma deletePrefix_exact_witness : mj_listKeys "r:tool" (snd (mj_deletePrefix "r:tool" sample_journal)) = [].
Proof. apply (deletePrefix_exact "r:tool" sample_journal _ 1). vm_compute. reflexivity. Defined.

Lemma listRunsArray_complete_witness :
  listRunsArray 3 (λ c, mj_listRunsPaged (RunQuery None c None None None None) sample_journal)
  = Some (mj_listRuns sample_journal).
Proof. apply listRunsArray_complete. apply Nat.ltb_lt. vm_compute. reflexivity. Defined.

Lemma readRun_exact_witness :
  map je_seq (mj_readRun "r" sample_journal) = seq 0 (length (mj_readRun "r" sample_journal)).
Proof. apply readRun_exact, sample_journal_wf. Defined.
End Witnesses.
