(* ===== verification/Org.v ===== *)
(** * Org: organizations share one journal

    Models [packages/durable/src/organization.ts] ([orgPrefix],
    [withOrg] with its paged run list) and, of [org-storage.ts], [drainOwned] and
    [scopedRuns].  The journal is reached through a port, a record of operations:
    [mem_port] is the in-memory journal of [Journal], and [withOrg] turns a port into
    the port of one organization by prefixing keys on the way in and stripping them on
    the way out.  A port whose underlying journal lacks an optional operation is not
    modelled: [mem_port] has them all. *)

From S2P Require Import Prelude JsMap Keys Journal.

(** ** Organization ids *)

Inductive org_error :=
| InvalidOrgId (orgId : string)
| AlreadyScoped (already orgId : string).

(** [org:<id>:], for a non-empty id without a colon. *)
Definition orgPrefix (orgId : string) : outcome org_error string :=
  if String.eqb orgId "" || has_char colon orgId then Err (InvalidOrgId orgId)
  else Ok ("org:" +:+ orgId +:+ ":").

(** [s.slice(n)]. *)
Fixpoint slice (n : nat) (s : string) : string :=
  match n, s with
  | S n', String _ s' => slice n' s'
  | _, _ => s
  end.

(** [s.startsWith(p) ? s.slice(p.length) : s]. *)
Definition unprefixed (p s : string) : string := if starts_with p s then slice (String.length p) s else s.

(** ** The journal port *)

Section Port.
Context {V : Type} `{!JsValue V}.

Record journal_port (S : Type) := JournalPort {
  jp_scope : option string;                    (** the [ORG_SCOPE] marker *)
  jp_get : string → S → option V;
  jp_getMany : list string → S → list (option V);
  jp_put : Z → string → V → S → S;
  jp_putIfAbsent : Z → string → V → S → bool * S;
  jp_putIfMatch : string → V → V → S → bool * S;
  jp_incrBy : string → list (string * Z) → S → S;
  jp_getCounters : string → S → option (jsmap Z);
  jp_applyBatch : Z → journal_batch V → S → bool * S;
  jp_listKeys : string → option nat → S → list string;
  jp_deletePrefix : string → S → nat * S;
  jp_listStaleRuns : Z → bool → S → list string;
  jp_readRun : string → S → list (journal_entry V);
  jp_readRunStats : string → S → nat * nat;
  jp_listRuns : S → list run_summary;
  jp_listRunsPaged : run_query → S → option (list run_summary * option string);  (** [None]: out of fuel *)
}.

(** The in-memory journal. *)
Definition mem_port : journal_port (mem_journal V) := {|
  jp_scope := None;
  jp_get := mj_get;
  jp_getMany := mj_getMany;
  jp_put := mj_put;
  jp_putIfAbsent := mj_putIfAbsent;
  jp_putIfMatch := mj_putIfMatch;
  jp_incrBy := mj_incrBy;
  jp_getCounters := mj_getCounters;
  jp_applyBatch := mj_applyBatch;
  jp_listKeys p lim j := match lim with Some n => mj_listKeys_limit p n j | None => mj_listKeys p j end;
  jp_deletePrefix := mj_deletePrefix;
  jp_listStaleRuns := mj_listStaleRuns;
  jp_readRun := mj_readRun;
  jp_readRunStats := mj_readRunStats;
  jp_listRuns := mj_listRuns;
  jp_listRunsPaged q j := Some (mj_listRunsPaged q j);
|}.

Definition prefix_batch (p : string) (b : journal_batch V) : journal_batch V :=
  JournalBatch
    ((λ '(k, v), (p +:+ k, v)) <$> b_claim b)
    (map (λ '(k, fs), (p +:+ k, fs)) (b_incrs b))
    (map (λ '(k, v), (p +:+ k, v)) (b_puts b)).

Definition strip_entry (p : string) (e : journal_entry V) : journal_entry V :=
  JournalEntry (unprefixed p (je_key e)) (unprefixed p (je_runId e)) (je_kind e) (je_value e) (je_seq e) (je_ts e).

Definition with_runId (r : run_summary) (id : string) : run_summary :=
  RunSummary id (rs_status r) (rs_modelSteps r) (rs_toolCalls r) (rs_threadId r) (rs_agent r) (rs_resourceId r) (rs_workKey r).

(** The runs of the organization, under their own ids. *)
Definition own_runs (p : string) (l : list run_summary) : list run_summary :=
  map (λ r, with_runId r (slice (String.length p) (rs_runId r)))
    (filter (λ r, starts_with p (rs_runId r) = true) l).

(** [listRunsPaged] of an organization walks the pages of the whole journal.  One page:
    the runs of the organization it holds, cut when [limit] is reached, with the number
    of entries consumed. *)
Fixpoint take_own (p : string) (limit : nat) (items page : list run_summary) (consumed : nat)
    : list run_summary * option nat :=
  match page with
  | [] => (items, None)
  | r :: page' =>
      if starts_with p (rs_runId r) then
        let items' := items ++ [with_runId r (slice (String.length p) (rs_runId r))] in
        if limit <=? length items' then (items', Some (S consumed)) else take_own p limit items' page' (S consumed)
      else take_own p limit items page' (S consumed)
  end.

Fixpoint org_walk (fetch : run_query → option (list run_summary * option string)) (p : string) (q : run_query)
    (limit fuel pos : nat) (items : list run_summary) : option (list run_summary * option string) :=
  match fuel with
  | 0 => None
  | S fuel' =>
      '(page, nx) ← fetch (RunQuery (Some (Nat.max limit 50)) (Some (dec (N.of_nat pos))) (q_status q) (q_agent q)
                             (q_resourceId q) (q_workKey q));
      match take_own p limit items page 0 with
      | (items', Some consumed) => Some (items', Some (dec (N.of_nat (pos + consumed))))
      | (items', None) =>
          if limit <=? length items' then Some (items', None)
          else match truthy nx with
               | None => Some (items', None)
               | Some _ => org_walk fetch p q limit fuel' (pos + length page) items'
               end
      end
  end.

Definition org_listRunsPaged (fetch : run_query → option (list run_summary * option string)) (p : string) (fuel : nat)
    (q : run_query) : option (list run_summary * option string) :=
  org_walk fetch p q (default 50 (q_limit q)) fuel (cursor_offset (q_cursor q)) [].

(** [withOrg(journal, orgId)].  [fuel] bounds the page walk; see [org_listRunsPaged]. *)
Definition withOrg {S} (fuel : nat) (orgId : string) (P : journal_port S) : outcome org_error (journal_port S) :=
  match jp_scope S P with
  | Some already => Err (AlreadyScoped already orgId)
  | None =>
      match orgPrefix orgId with
      | Err e => Err e
      | Ok p => Ok {|
          jp_scope := Some orgId;
          jp_get k := jp_get S P (p +:+ k);
          jp_getMany ks := jp_getMany S P (map (λ k, p +:+ k) ks);
          jp_put now k := jp_put S P now (p +:+ k);
          jp_putIfAbsent now k := jp_putIfAbsent S P now (p +:+ k);
          jp_putIfMatch k := jp_putIfMatch S P (p +:+ k);
          jp_incrBy k := jp_incrBy S P (p +:+ k);
          jp_getCounters k := jp_getCounters S P (p +:+ k);
          jp_applyBatch now b := jp_applyBatch S P now (prefix_batch p b);
          jp_listKeys k lim s := map (slice (String.length p)) (jp_listKeys S P (p +:+ k) lim s);
          jp_deletePrefix k := jp_deletePrefix S P (p +:+ k);
          jp_listStaleRuns cutoff susp s :=
            map (slice (String.length p)) (filter (λ r, starts_with p r = true) (jp_listStaleRuns S P cutoff susp s));
          jp_readRun r s := map (strip_entry p) (jp_readRun S P (p +:+ r) s);
          jp_readRunStats r := jp_readRunStats S P (p +:+ r);
          jp_listRuns s := own_runs p (jp_listRuns S P s);
          jp_listRunsPaged q s := org_listRunsPaged (λ q, jp_listRunsPaged S P q s) p fuel q;
        |}
      end
  end.
End Port.
Arguments journal_port : clear implicits.

(** ** One organization's share of a map *)

Lemma slice_app p s : slice (String.length p) (p +:+ s) = s.
Proof. induction p as [|c p IH]; [by destruct s|]. exact IH. Qed.

Lemma strip_prefix_cat p q s : strip_prefix (p +:+ q) s = strip_prefix p s ≫= strip_prefix q.
Proof.
  revert s. induction p as [|c p IH]; intros s; simpl; [done|].
  destruct s as [|d s]; [done|]. destruct (Ascii.eqb c d); [apply IH|done].
Qed.

Lemma starts_with_cat p q s : starts_with (p +:+ q) (p +:+ s) = starts_with q s.
Proof. by rewrite !starts_with_strip, strip_prefix_cat, strip_prefix_app. Qed.

Lemma unprefixed_app p s : unprefixed p (p +:+ s) = s.
Proof. unfold unprefixed. by rewrite starts_with_app, slice_app. Qed.

Lemma str_eqb_cat p a b : String.eqb (p +:+ a) (p +:+ b) = String.eqb a b.
Proof.
  destruct (String.eqb_spec a b) as [->|Hne]; [apply String.eqb_refl|].
  apply String.eqb_neq. intros H. by apply Hne, (str_app_inj_l p).
Qed.

#[export] Hint Rewrite slice_app strip_prefix_app starts_with_app starts_with_cat unprefixed_app str_eqb_cat : gnl.

(** The keys that lie under the prefix, without it. *)
Definition scope_map {W} (p : string) (m : jsmap W) : jsmap W :=
  omap (λ '(k, w), (λ r, (r, w)) <$> strip_prefix p k) m.

Section ScopeMap.
Context {W : Type}.
Implicit Types (m : jsmap W) (p k : string).

(** Case analysis on whether a key lies under the prefix. *)
Local Ltac under p k := destruct (strip_prefix p k) as [?r|] eqn:?Hk;
  [apply strip_prefix_Some in Hk; subst k|].

Lemma scope_map_cons p k w m :
  scope_map p ((k, w) :: m) = match strip_prefix p k with Some r => (r, w) :: scope_map p m | None => scope_map p m end.
Proof. unfold scope_map. simpl. by destruct (strip_prefix p k). Qed.

Lemma not_under_ne p k r : strip_prefix p k = None → p +:+ r ≠ k.
Proof. intros Hk <-. by rewrite strip_prefix_app in Hk. Qed.

Lemma mget_scope p k m : mget k (scope_map p m) = mget (p +:+ k) m.
Proof.
  induction m as [|[k' w] m IH]; [done|]. rewrite scope_map_cons. cbn [mget]. under p k'.
  - cbn [mget]. by rewrite str_eqb_cat, IH.
  - rewrite (proj2 (String.eqb_neq (p +:+ k) k')); [done|by apply not_under_ne].
Qed.

Lemma mhas_scope p k m : mhas k (scope_map p m) = mhas (p +:+ k) m.
Proof. unfold mhas. by rewrite mget_scope. Qed.

Lemma scope_mset p k w m : scope_map p (mset (p +:+ k) w m) = mset k w (scope_map p m).
Proof.
  induction m as [|[k' w'] m IH]; cbn [mset]; [by rewrite scope_map_cons, strip_prefix_app|].
  rewrite scope_map_cons. under p k'.
  - rewrite str_eqb_cat. cbn [mset]. destruct (String.eqb k r); rewrite scope_map_cons, strip_prefix_app; [done|].
    by rewrite IH.
  - rewrite (proj2 (String.eqb_neq (p +:+ k) k')) by (by apply not_under_ne).
    by rewrite scope_map_cons, Hk.
Qed.

Lemma mkeys_scope p m : mkeys (scope_map p m) = omap (strip_prefix p) (mkeys m).
Proof.
  induction m as [|[k w] m IH]; [done|]. rewrite scope_map_cons. cbn.
  destruct (strip_prefix p k); cbn; [by f_equal|done].
Qed.

Lemma scope_filter p (f g : string → bool) m :
  (∀ k, g (p +:+ k) = f k) →
  scope_map p (filter (λ '(k, _), g k = false) m) = filter (λ '(k, _), f k = false) (scope_map p m).
Proof.
  intros Hfg. induction m as [|[k w] m IH]; [done|]. rewrite scope_map_cons, filter_cons. under p k.
  - rewrite filter_cons. specialize (Hfg r).
    destruct (decide (g (p +:+ r) = false)) as [Hg|Hg]; destruct (decide (f r = false)) as [Hf|Hf];
      [by rewrite scope_map_cons, strip_prefix_app, IH|congruence..|done].
  - destruct (decide (g k = false)); [by rewrite scope_map_cons, Hk|done].
Qed.

Lemma scope_drop_prefix p q m : scope_map p (drop_prefix (p +:+ q) m) = drop_prefix q (scope_map p m).
Proof. apply scope_filter. intros k. by rewrite starts_with_cat. Qed.

Lemma count_prefix_scope p q m : count_prefix (p +:+ q) m = count_prefix q (scope_map p m).
Proof.
  unfold count_prefix. induction m as [|[k w] m IH]; [done|]. rewrite scope_map_cons.
  cbn [mkeys map fst]. rewrite count_if_cons. change (map fst m) with (mkeys m). rewrite IH. under p k.
  - cbn [mkeys map fst]. by rewrite count_if_cons, starts_with_cat.
  - by rewrite starts_with_strip, strip_prefix_cat, Hk.
Qed.

(** What an operation on a key under the prefix leaves of the rest. *)
Lemma drop_prefix_mset p k w m : drop_prefix p (mset (p +:+ k) w m) = drop_prefix p m.
Proof.
  unfold drop_prefix. induction m as [|[k' w'] m IH]; cbn [mset].
  - by rewrite filter_cons_False by (by rewrite starts_with_app).
  - destruct (String.eqb_spec (p +:+ k) k') as [<-|Hne].
    + by rewrite !filter_cons_False by (by rewrite starts_with_app).
    + rewrite !filter_cons. by rewrite IH.
Qed.

Lemma drop_prefix_filter p (g : string → bool) m :
  (∀ k, starts_with p k = false → g k = false) →
  drop_prefix p (filter (λ '(k, _), g k = false) m) = drop_prefix p m.
Proof.
  intros Hg. unfold drop_prefix. induction m as [|[k w] m IH]; [done|]. rewrite !filter_cons.
  destruct (decide (g k = false)) as [Hgk|Hgk]; [by rewrite filter_cons, IH|].
  destruct (decide (starts_with p k = false)) as [Hp|]; [by rewrite Hg in Hgk|done].
Qed.

Lemma drop_prefix_sub p q m : drop_prefix p (drop_prefix (p +:+ q) m) = drop_prefix p m.
Proof.
  apply drop_prefix_filter. intros k. rewrite !starts_with_strip, strip_prefix_cat.
  by destruct (strip_prefix p k).
Qed.

(** The share under another prefix is part of the rest. *)
Lemma scope_drop_other p p' m :
  (∀ s s', p +:+ s ≠ p' +:+ s') → scope_map p' (drop_prefix p m) = scope_map p' m.
Proof.
  intros Hd. unfold drop_prefix. induction m as [|[k w] m IH]; [done|]. rewrite filter_cons, scope_map_cons.
  destruct (decide (starts_with p k = false)) as [Hs|Hs]; [by rewrite scope_map_cons, IH|]. rewrite IH.
  apply not_false_iff_true, starts_with_spec in Hs as [r ->].
  destruct (strip_prefix p' (p +:+ r)) as [r'|] eqn:Hr; [|done]. by apply strip_prefix_Some, Hd in Hr.
Qed.
End ScopeMap.

(** ** One organization's share of a journal *)

Section View.
Context {V : Type} `{!JsValue V}.
Implicit Types (j : mem_journal V) (p k : string).

Definition view p j : mem_journal V :=
  MemJournal (scope_map p (store j)) (scope_map p (times j)) (scope_map p (counters j)).

(** The keys outside the prefix. *)
Definition rest p j : mem_journal V :=
  MemJournal (drop_prefix p (store j)) (drop_prefix p (times j)) (drop_prefix p (counters j)).

Lemma view_rest p p' j : (∀ s s', p +:+ s ≠ p' +:+ s') → view p' (rest p j) = view p' j.
Proof. intros Hd. unfold view, rest. simpl. by rewrite !scope_drop_other by done. Qed.

Lemma view_get p k j : mj_get k (view p j) = mj_get (p +:+ k) j.
Proof. apply mget_scope. Qed.

Lemma view_put p now k v j : view p (mj_put now (p +:+ k) v j) = mj_put now k v (view p j).
Proof.
  unfold view, mj_put. simpl. rewrite mhas_scope, scope_mset.
  destruct (mhas (p +:+ k) (times j)); [done|]. by rewrite scope_mset.
Qed.

Lemma rest_put p now k v j : rest p (mj_put now (p +:+ k) v j) = rest p j.
Proof.
  unfold rest, mj_put. simpl. rewrite drop_prefix_mset.
  destruct (mhas (p +:+ k) (times j)); [done|]. by rewrite drop_prefix_mset.
Qed.

Lemma view_putIfAbsent p now k v j :
  mj_putIfAbsent now k v (view p j) =
    let '(b, j') := mj_putIfAbsent now (p +:+ k) v j in (b, view p j').
Proof.
  unfold mj_putIfAbsent. cbn [view store]. rewrite mhas_scope. destruct (mhas (p +:+ k) (store j)); [done|].
  unfold view. simpl. by rewrite !scope_mset.
Qed.

Lemma rest_putIfAbsent p now k v j : rest p (snd (mj_putIfAbsent now (p +:+ k) v j)) = rest p j.
Proof.
  unfold mj_putIfAbsent. destruct (mhas (p +:+ k) (store j)); [done|].
  unfold rest. simpl. by rewrite !drop_prefix_mset.
Qed.

Lemma view_putIfMatch p k e v j :
  mj_putIfMatch k e v (view p j) = let '(b, j') := mj_putIfMatch (p +:+ k) e v j in (b, view p j').
Proof.
  unfold mj_putIfMatch. cbn [view store]. rewrite mget_scope.
  destruct (mget (p +:+ k) (store j)) as [c|]; [|done]. destruct (bool_decide (c = e)); [|done].
  unfold view. simpl. by rewrite scope_mset.
Qed.

Lemma rest_putIfMatch p k e v j : rest p (snd (mj_putIfMatch (p +:+ k) e v j)) = rest p j.
Proof.
  unfold mj_putIfMatch. destruct (mget (p +:+ k) (store j)) as [c|]; [|done].
  destruct (bool_decide (c = e)); [|done]. unfold rest. simpl. by rewrite drop_prefix_mset.
Qed.

Lemma view_incrBy p k fs j : view p (mj_incrBy (p +:+ k) fs j) = mj_incrBy k fs (view p j).
Proof. unfold view, mj_incrBy. simpl. by rewrite mget_scope, scope_mset. Qed.

Lemma rest_incrBy p k fs j : rest p (mj_incrBy (p +:+ k) fs j) = rest p j.
Proof. unfold rest, mj_incrBy. simpl. by rewrite drop_prefix_mset. Qed.

(** The two loops of a batch. *)
Lemma view_incrs p l j :
  view p (fold_left (λ s '(k, fs), mj_incrBy k fs s) (map (λ '(k, fs), (p +:+ k, fs)) l) j) =
    fold_left (λ s '(k, fs), mj_incrBy k fs s) l (view p j) ∧
  rest p (fold_left (λ s '(k, fs), mj_incrBy k fs s) (map (λ '(k, fs), (p +:+ k, fs)) l) j) = rest p j.
Proof.
  revert j. induction l as [|[k fs] l IH]; intros j; [done|]. simpl.
  destruct (IH (mj_incrBy (p +:+ k) fs j)) as [Hv Hr]. by rewrite Hv, Hr, view_incrBy, rest_incrBy.
Qed.

Lemma view_puts p now l j :
  view p (fold_left (λ s '(k, v), mj_put now k v s) (map (λ '(k, v), (p +:+ k, v)) l) j) =
    fold_left (λ s '(k, v), mj_put now k v s) l (view p j) ∧
  rest p (fold_left (λ s '(k, v), mj_put now k v s) (map (λ '(k, v), (p +:+ k, v)) l) j) = rest p j.
Proof.
  revert j. induction l as [|[k v] l IH]; intros j; [done|]. simpl.
  destruct (IH (mj_put now (p +:+ k) v j)) as [Hv Hr]. by rewrite Hv, Hr, view_put, rest_put.
Qed.

Lemma view_applyBatch p now b j :
  mj_applyBatch now b (view p j) =
    (let '(r, j') := mj_applyBatch now (prefix_batch p b) j in (r, view p j')) ∧
  rest p (snd (mj_applyBatch now (prefix_batch p b) j)) = rest p j.
Proof.
  unfold mj_applyBatch, prefix_batch. cbn [b_claim b_incrs b_puts].
  destruct (b_claim b) as [[k v]|]; cbn [fmap option_fmap option_map].
  - rewrite view_putIfAbsent. pose proof (rest_putIfAbsent p now k v j) as Hr.
    destruct (mj_putIfAbsent now (p +:+ k) v j) as [[] j1]; [|done]. cbn [snd] in *.
    set (j2 := fold_left _ (map _ (b_incrs b)) j1).
    destruct (view_puts p now (b_puts b) j2) as [Hv2 Hr2]. destruct (view_incrs p (b_incrs b) j1) as [Hv1 Hr1].
    fold j2 in Hv1, Hr1. rewrite Hv2, Hr2, Hv1, Hr1. done.
  - cbn [snd]. set (j2 := fold_left _ (map _ (b_incrs b)) j).
    destruct (view_puts p now (b_puts b) j2) as [Hv2 Hr2]. destruct (view_incrs p (b_incrs b) j) as [Hv1 Hr1].
    fold j2 in Hv1, Hr1. rewrite Hv2, Hr2, Hv1, Hr1. done.
Qed.

Lemma view_deletePrefix p q j :
  mj_deletePrefix q (view p j) = (let '(n, j') := mj_deletePrefix (p +:+ q) j in (n, view p j')) ∧
  rest p (snd (mj_deletePrefix (p +:+ q) j)) = rest p j.
Proof.
  unfold mj_deletePrefix, view, rest. simpl. split.
  - rewrite !scope_drop_prefix, <- !count_prefix_scope. f_equal. f_equal.
    symmetry. apply (scope_filter p (λ k, starts_with q k && mhas k (scope_map p (store j)))
                       (λ k, starts_with (p +:+ q) k && mhas k (store j))).
    intros k. by rewrite starts_with_cat, mhas_scope.
  - rewrite !drop_prefix_sub. f_equal.
    apply (drop_prefix_filter p (λ k, starts_with (p +:+ q) k && mhas k (store j))).
    intros k. rewrite !starts_with_strip, strip_prefix_cat. by destruct (strip_prefix p k).
Qed.

(** Key listings. *)
Lemma slice_filter p q (ks : list string) :
  map (slice (String.length p)) (filter (λ k, starts_with (p +:+ q) k = true) ks) =
    filter (λ k, starts_with q k = true) (omap (strip_prefix p) ks).
Proof.
  induction ks as [|k ks IH]; [done|]. rewrite filter_cons. cbn.
  destruct (strip_prefix p k) as [r|] eqn:Hk.
  - apply strip_prefix_Some in Hk as ->. rewrite filter_cons, starts_with_cat.
    destruct (decide (starts_with q r = true)); [|done]. cbn. by rewrite slice_app, IH.
  - rewrite starts_with_strip, strip_prefix_cat, Hk. done.
Qed.

Lemma view_keys p j : mj_keys (view p j) = omap (strip_prefix p) (mj_keys j).
Proof.
  unfold mj_keys. rewrite omap_app. cbn [view store counters]. rewrite mkeys_scope. f_equal. rewrite mkeys_scope.
  induction (mkeys (counters j)) as [|k ks IH]; [done|]. cbn.
  destruct (strip_prefix p k) as [r|] eqn:Hk; [|rewrite IH; destruct (decide _); [cbn; by rewrite Hk|done]].
  apply strip_prefix_Some in Hk as Hk'. rewrite filter_cons, mhas_scope, <- Hk', IH.
  destruct (decide (mhas k (store j) = false)); [|done]. cbn. by rewrite Hk.
Qed.

Lemma view_listKeys p q j : mj_listKeys q (view p j) = map (slice (String.length p)) (mj_listKeys (p +:+ q) j).
Proof. unfold mj_listKeys. by rewrite view_keys, slice_filter. Qed.
End View.

(** ** Reading a run through the prefix *)

Lemma last_kind_cat p k r kd : last_kind k = Some (r, kd) → last_kind (p +:+ k) = Some (p +:+ r, kd).
Proof. intros Hk. induction p as [|c p IH]; simpl; [done|]. by rewrite IH. Qed.

Lemma last_kind_short p k r kd :
  last_kind k = None → last_kind (p +:+ k) = Some (r, kd) → String.length r < String.length p.
Proof.
  intros Hk. revert r. induction p as [|c p IH]; intros r; simpl; [by rewrite Hk|].
  destruct (last_kind (p +:+ k)) as [[r' kd']|].
  - intros [= <- <-]. specialize (IH r' eq_refl). simpl. lia.
  - destruct (kind_here (String c (p +:+ k))); [|done]. intros [= <- _]. simpl. lia.
Qed.

(** A run key of the organization, and no other key, is read as one of its runs. *)
Lemma parse_cat p k r :
  one_line p = true →
  (parseJournalKey (p +:+ k) ≫= λ '(r', kd), if String.eqb r' (p +:+ r) then Some kd else None) =
  (parseJournalKey k ≫= λ '(r', kd), if String.eqb r' r then Some kd else None).
Proof.
  intros Hp. unfold parseJournalKey. rewrite one_line_app, Hp. cbn [andb].
  destruct (one_line k); [|done]. destruct (last_kind k) as [[r0 kd]|] eqn:Hk.
  - rewrite (last_kind_cat p k r0 kd Hk). cbn. by rewrite str_eqb_cat.
  - destruct (last_kind (p +:+ k)) as [[r0 kd]|] eqn:Hl; [|done]. cbn.
    apply last_kind_short in Hl; [|done]. destruct (String.eqb_spec r0 (p +:+ r)) as [->|]; [|done].
    rewrite str_length_app in Hl. lia.
Qed.

Section Reader.
Context {V : Type} `{!JsValue V}.

Lemma run_records_scope p r (m : jsmap V) :
  one_line p = true →
  run_records (p +:+ r) m = map (λ '(k, kd, v), (p +:+ k, kd, v)) (run_records r (scope_map p m)).
Proof.
  intros Hp. induction m as [|[k v] m IH]; [done|]. rewrite scope_map_cons.
  assert (Hrec : ∀ k0 (m0 : jsmap V) r0, run_records r0 ((k0, v) :: m0) =
    match parseJournalKey k0 ≫= λ '(r', kd), if String.eqb r' r0 then Some kd else None with
    | Some kd => (k0, kd, v) :: run_records r0 m0 | None => run_records r0 m0 end).
  { intros k0 m0 r0. unfold run_records. cbn. destruct (parseJournalKey k0) as [[r' kd]|]; [|done]. cbn.
    by destruct (String.eqb r' r0). }
  rewrite Hrec. destruct (strip_prefix p k) as [k'|] eqn:Hk.
  - apply strip_prefix_Some in Hk as ->. rewrite parse_cat, Hrec, IH by done.
    by destruct (parseJournalKey k' ≫= _).
  - rewrite IH. destruct (parseJournalKey k) as [[r' kd]|] eqn:Hpk; [|done]. cbn.
    destruct (String.eqb_spec r' (p +:+ r)) as [->|]; [|done]. exfalso.
    unfold parseJournalKey in Hpk. destruct (one_line k); [|done].
    apply last_kind_sound in Hpk as (c & t & ->). rewrite str_app_assoc, strip_prefix_app in Hk. done.
Qed.

Lemma number_entries_scope p r n l (m : jsmap Z) :
  map (strip_entry p) (number_entries (V:=V) n (map (λ '(k, kd, v), (p +:+ k, kd, v)) l) (p +:+ r) m) =
    number_entries n l r (scope_map p m).
Proof.
  revert n. induction l as [|[[k kd] v] l IH]; intros n; [done|]. simpl. rewrite IH. f_equal.
  unfold strip_entry. simpl. by rewrite !unprefixed_app, mget_scope.
Qed.

Lemma view_readRun p r (j : mem_journal V) :
  one_line p = true → map (strip_entry p) (mj_readRun (p +:+ r) j) = mj_readRun r (view p j).
Proof. intros Hp. unfold mj_readRun. by rewrite run_records_scope, number_entries_scope. Qed.

Lemma view_readRunStats p r (j : mem_journal V) :
  one_line p = true → mj_readRunStats (p +:+ r) j = mj_readRunStats r (view p j).
Proof.
  intros Hp. unfold mj_readRunStats. rewrite run_records_scope by done. cbn [view store].
  rewrite length_map, map_map. do 2 f_equal. apply map_ext. by intros [[k kd] v].
Qed.
End Reader.

(** ** The operations of the port *)

Section Ops.
Context {V : Type} `{!JsValue V}.

Inductive port_op :=
| OGet (k : string)
| OGetMany (ks : list string)
| OPut (now : Z) (k : string) (v : V)
| OPutIfAbsent (now : Z) (k : string) (v : V)
| OPutIfMatch (k : string) (e v : V)
| OIncrBy (k : string) (fs : list (string * Z))
| OGetCounters (k : string)
| OApplyBatch (now : Z) (b : journal_batch V)
| OListKeys (q : string) (limit : option nat)
| ODeletePrefix (q : string)
| OReadRun (runId : string)
| OReadRunStats (runId : string).

Inductive port_answer :=
| AValue (o : option V)
| AValues (l : list (option V))
| ADone
| ABool (b : bool)
| ACounters (o : option (jsmap Z))
| AKeys (l : list string)
| ACount (n : nat)
| AEntries (l : list (journal_entry V))
| AStats (s : nat * nat).

Definition do_op {S} (P : journal_port V S) (o : port_op) (s : S) : port_answer * S :=
  match o with
  | OGet k => (AValue (jp_get S P k s), s)
  | OGetMany ks => (AValues (jp_getMany S P ks s), s)
  | OPut now k v => (ADone, jp_put S P now k v s)
  | OPutIfAbsent now k v => let '(b, s') := jp_putIfAbsent S P now k v s in (ABool b, s')
  | OPutIfMatch k e v => let '(b, s') := jp_putIfMatch S P k e v s in (ABool b, s')
  | OIncrBy k fs => (ADone, jp_incrBy S P k fs s)
  | OGetCounters k => (ACounters (jp_getCounters S P k s), s)
  | OApplyBatch now b => let '(r, s') := jp_applyBatch S P now b s in (ABool r, s')
  | OListKeys p lim => (AKeys (jp_listKeys S P p lim s), s)
  | ODeletePrefix p => let '(n, s') := jp_deletePrefix S P p s in (ACount n, s')
  | OReadRun r => (AEntries (jp_readRun S P r s), s)
  | OReadRunStats r => (AStats (jp_readRunStats S P r s), s)
  end.

Lemma orgPrefix_Ok o p :
  orgPrefix o = Ok p → p = "org:" +:+ o +:+ ":" ∧ has_char colon o = false.
Proof.
  unfold orgPrefix. destruct (String.eqb o "" || has_char colon o) eqn:H; [done|].
  intros [= <-]. by apply orb_false_iff in H as [_ ->].
Qed.

(** Prefixes of two organizations never meet. *)
Lemma orgPrefix_disjoint o o' p p' :
  orgPrefix o = Ok p → orgPrefix o' = Ok p' → o ≠ o' → ∀ s s', p +:+ s ≠ p' +:+ s'.
Proof.
  intros [-> Ho]%orgPrefix_Ok [-> Ho']%orgPrefix_Ok Hne s s' Heq. apply Hne.
  rewrite !str_app_assoc in Heq. apply (str_app_inj_l "org:") in Heq.
  by apply (cut_at_char_inj colon) in Heq as [-> _].
Qed.

Local Ltac port_cbn :=
  cbn [do_op jp_get jp_getMany jp_put jp_putIfAbsent jp_putIfMatch jp_incrBy jp_getCounters jp_applyBatch
       jp_listKeys jp_deletePrefix jp_readRun jp_readRunStats snd mem_port].

(** The port of an organization leaves every key outside its prefix as it was. *)
Lemma scoped_rest fuel o p P op (j : mem_journal V) :
  orgPrefix o = Ok p → withOrg fuel o mem_port = Ok P → rest p (snd (do_op P op j)) = rest p j.
Proof.
  intros Hp. unfold withOrg. cbn [mem_port jp_scope]. rewrite Hp. intros [= <-]. destruct op; port_cbn; try done.
  - apply rest_put.
  - pose proof (rest_putIfAbsent p now k v j) as Hr. by destruct (mj_putIfAbsent now (p +:+ k) v j).
  - pose proof (rest_putIfMatch p k e v j) as Hr. by destruct (mj_putIfMatch (p +:+ k) e v j).
  - apply rest_incrBy.
  - destruct (view_applyBatch p now b j) as [_ Hr]. by destruct (mj_applyBatch now (prefix_batch p b) j).
  - destruct (view_deletePrefix p q j) as [_ Hr]. by destruct (mj_deletePrefix (p +:+ q) j).
Qed.

(** What the organization sees of its operation: the same operation on its own journal. *)
Lemma scoped_op fuel o p P op (j : mem_journal V) :
  orgPrefix o = Ok p → one_line p = true → withOrg fuel o mem_port = Ok P →
  do_op mem_port op (view p j) = (let '(a, j') := do_op P op j in (a, view p j')).
Proof.
  intros Hp Hl. unfold withOrg. cbn [mem_port jp_scope]. rewrite Hp. intros [= <-]. destruct op; port_cbn.
  - by rewrite view_get.
  - unfold mj_getMany. rewrite map_map. do 2 f_equal. apply map_ext. intros k. apply view_get.
  - by rewrite view_put.
  - rewrite view_putIfAbsent. by destruct (mj_putIfAbsent now (p +:+ k) v j).
  - rewrite view_putIfMatch. by destruct (mj_putIfMatch (p +:+ k) e v j).
  - by rewrite view_incrBy.
  - unfold mj_getCounters. cbn [view counters]. by rewrite mget_scope.
  - rewrite (proj1 (view_applyBatch p now b j)). by destruct (mj_applyBatch now (prefix_batch p b) j).
  - do 2 f_equal. destruct limit as [n|]; [|by rewrite view_listKeys].
    unfold mj_listKeys_limit. by rewrite view_listKeys, firstn_map.
  - rewrite (proj1 (view_deletePrefix p q j)). by destruct (mj_deletePrefix (p +:+ q) j).
  - by rewrite view_readRun.
  - by rewrite view_readRunStats.
Qed.
End Ops.
Arguments port_op : clear implicits.
Arguments port_answer : clear implicits.

(** ** Many organizations on one journal *)

Section Tenants.
Context {V : Type} `{!JsValue V}.
Implicit Types (j : mem_journal V).

(** One call of an organization on the shared journal; a refused scope changes nothing. *)
Definition org_op fuel (o : string) (op : port_op V) j : outcome org_error (port_answer V) * mem_journal V :=
  match withOrg fuel o mem_port with
  | Ok P => let '(a, j') := do_op P op j in (Ok a, j')
  | Err e => (Err e, j)
  end.

(** Calls of any organizations, in the order in which they reach the journal. *)
Fixpoint shared fuel (l : list (string * port_op V)) j
    : list (string * outcome org_error (port_answer V)) * mem_journal V :=
  match l with
  | [] => ([], j)
  | (o, op) :: l' =>
      let '(a, j1) := org_op fuel o op j in
      let '(r, j2) := shared fuel l' j1 in ((o, a) :: r, j2)
  end.

(** The same calls on a journal that nobody else uses. *)
Fixpoint alone (l : list (port_op V)) j : list (port_answer V) * mem_journal V :=
  match l with
  | [] => ([], j)
  | op :: l' =>
      let '(a, j1) := do_op mem_port op j in
      let '(r, j2) := alone l' j1 in (a :: r, j2)
  end.

Definition of_org {A} (o : string) (l : list (string * A)) : list A :=
  map snd (filter (λ x, fst x = o) l).

Lemma of_org_cons {A} o o' (x : A) l :
  of_org o ((o', x) :: l) = if decide (o' = o) then x :: of_org o l else of_org o l.
Proof. unfold of_org. rewrite filter_cons. simpl. by destruct (decide (o' = o)). Qed.

(** An operation of one organization is invisible to another. *)
Lemma org_op_other fuel o o' op j p :
  orgPrefix o = Ok p → o' ≠ o → view p (snd (org_op fuel o' op j)) = view p j.
Proof.
  intros Hp Hne. unfold org_op. destruct (withOrg fuel o' mem_port) as [P|e] eqn:HP; [|done].
  destruct (orgPrefix o') as [p'|e'] eqn:Hp'; [|by unfold withOrg in HP; cbn in HP; rewrite Hp' in HP].
  pose proof (orgPrefix_disjoint o' o p' p Hp' Hp Hne) as Hd. pose proof (scoped_rest fuel o' p' P op j Hp' HP) as Hr.
  destruct (do_op P op j) as [a j']. cbn [snd] in *. by rewrite <- (view_rest p' p j'), Hr, view_rest.
Qed.

Lemma withOrg_mem fuel o p : orgPrefix o = Ok p → ∃ P : journal_port V (mem_journal V), withOrg fuel o mem_port = Ok P.
Proof. intros Hp. unfold withOrg. cbn. rewrite Hp. eauto. Qed.

(** C31: organizations cannot see or touch one another.  Whatever calls any organizations
    make on one shared journal (reads, writes, claims, compare-and-sets, counters, atomic
    batches, key listings, prefix deletions, run reads), in any interleaving, each valid
    organization gets exactly the answers it would get from a journal of its own with the
    same initial content, and its share ends as that journal would. *)
Theorem org_noninterference fuel (l : list (string * port_op V)) j o p :
  orgPrefix o = Ok p → one_line o = true →
  of_org o (fst (shared fuel l j)) = map Ok (fst (alone (of_org o l) (view p j))) ∧
  view p (snd (shared fuel l j)) = snd (alone (of_org o l) (view p j)).
Proof.
  intros Hp Hl. assert (Hlp : one_line p = true).
  { apply orgPrefix_Ok in Hp as [-> _]. by rewrite !one_line_app, Hl. }
  revert j. induction l as [|[o' op] l IH]; intros j; [done|].
  rewrite of_org_cons. cbn [shared]. destruct (org_op fuel o' op j) as [a j1] eqn:Ha.
  specialize (IH j1). destruct (shared fuel l j1) as [r j2]. cbn [fst snd] in *. rewrite of_org_cons.
  destruct (decide (o' = o)) as [->|Hne].
  - destruct (withOrg_mem fuel o p Hp) as [P HP]. unfold org_op in Ha. rewrite HP in Ha.
    cbn [alone]. rewrite (scoped_op fuel o p P op j Hp Hlp HP). destruct (do_op P op j) as [b j'].
    injection Ha as <- <-. destruct (alone (of_org o l) (view p j')) as [rs jf]. cbn [fst snd map] in *.
    destruct IH as [-> ->]. done.
  - pose proof (org_op_other fuel o o' op j p Hp Hne) as Hv. rewrite Ha in Hv. cbn [snd] in Hv. by rewrite <- Hv.
Qed.
End Tenants.

(** ** The paged run list of an organization *)

Lemma own_runs_app p l k : own_runs p (l ++ k) = own_runs p l ++ own_runs p k.
Proof. unfold own_runs. by rewrite filter_app, map_app. Qed.

Lemma own_runs_cons p r l :
  own_runs p (r :: l) =
    if starts_with p (rs_runId r) then with_runId r (slice (String.length p) (rs_runId r)) :: own_runs p l
    else own_runs p l.
Proof.
  unfold own_runs. rewrite filter_cons. destruct (decide (starts_with p (rs_runId r) = true)) as [Hs|Hs].
  - by rewrite Hs.
  - apply not_true_is_false in Hs. by rewrite Hs.
Qed.

(** One underlying page: cut right after the entry that fills the page, or read whole. *)
Lemma take_own_spec p limit items page c :
  length items < limit →
  match take_own p limit items page c with
  | (items', Some n) =>
      ∃ i, n = c + i ∧ i ≤ length page ∧ items' = items ++ own_runs p (take i page) ∧ length items' = limit
  | (items', None) => items' = items ++ own_runs p page ∧ length items' < limit
  end.
Proof.
  revert items c. induction page as [|r page IH]; intros items c Hlt; cbn [take_own]; [by rewrite app_nil_r|].
  rewrite own_runs_cons. destruct (starts_with p (rs_runId r)) eqn:Hs.
  - set (x := with_runId r _). destruct (limit <=? length (items ++ [x])) eqn:Hle.
    + apply Nat.leb_le in Hle. rewrite length_app in Hle. simpl in Hle. exists 1. split_and!; [lia|simpl; lia| |].
      * simpl. rewrite own_runs_cons, Hs. done.
      * rewrite length_app. simpl. lia.
    + apply Nat.leb_gt in Hle. specialize (IH (items ++ [x]) (S c) Hle).
      destruct (take_own p limit (items ++ [x]) page (S c)) as [items' [n|]].
      * destruct IH as (i & -> & Hi & -> & Hlen). exists (S i). split_and!; [lia|simpl; lia| |done].
        simpl. rewrite own_runs_cons, Hs, <- app_assoc. done.
      * rewrite <- app_assoc in IH. done.
  - specialize (IH items (S c) Hlt). destruct (take_own p limit items page (S c)) as [items' [n|]]; [|done].
    destruct IH as (i & -> & Hi & -> & Hlen). exists (S i). split_and!; [lia|simpl; lia| |done].
    simpl. by rewrite own_runs_cons, Hs.
Qed.

(** The walk over the pages, from any position of the filtered list. *)
Lemma org_walk_spec base p q limit fuel pos (items : list run_summary) :
  let F := filter (λ r, query_matches q r = true) base in
  length items < limit → length F - pos < fuel →
  ∃ n nx, org_walk (λ q, Some (pageFromArray base q)) p q limit fuel pos items = Some (items ++ own_runs p (take n (drop pos F)), nx) ∧
    match nx with
    | Some c => cursor_offset (Some c) = pos + n ∧ length (items ++ own_runs p (take n (drop pos F))) = limit
    | None => length (items ++ own_runs p (take n (drop pos F))) < limit ∧ own_runs p (drop n (drop pos F)) = []
    end.
Proof.
  intros F. revert pos items. induction fuel as [|fuel IH]; intros pos items Hlt Hf; [lia|].
  cbn [org_walk mbind option_bind]. unfold pageFromArray. cbn [q_limit q_cursor default].
  change (filter (λ r, query_matches (RunQuery _ _ (q_status q) (q_agent q) (q_resourceId q) (q_workKey q)) r = true) base) with F.
  rewrite cursor_offset_dec. change (@id nat (Nat.max limit 50)) with (Nat.max limit 50).
  set (lim := Nat.max limit 50). set (page := take lim (drop pos F)).
  pose proof (take_own_spec p limit items page 0 Hlt) as Ht.
  destruct (take_own p limit items page 0) as [items' [n|]].
  - destruct Ht as (i & -> & Hi & -> & Hlen). exists i, (Some (dec (N.of_nat (pos + i)))).
    assert (Htk : take i page = take i (drop pos F)).
    { subst page. rewrite length_take in Hi. rewrite take_take, Nat.min_l; [done|]. etransitivity; [exact Hi|apply Nat.le_min_l]. }
    rewrite Htk in *. rewrite cursor_offset_dec. simpl. split; [done|split; [done|exact Hlen]].
  - destruct Ht as [-> Hlen]. rewrite (proj2 (Nat.leb_gt limit _) Hlen).
    destruct (Nat.ltb_spec (pos + lim) (length F)) as [Hmore|Hend].
    + rewrite truthy_dec by lia. assert (Hpl : length page = lim) by (subst page; rewrite length_take, length_drop; lia).
      rewrite Hpl. destruct (IH (pos + lim) (items ++ own_runs p page)) as (n & nx & Heq & Hnx); [done|lia|].
      assert (Hcat : (items ++ own_runs p page) ++ own_runs p (take n (drop (pos + lim) F)) =
                     items ++ own_runs p (take (lim + n) (drop pos F))).
      { rewrite <- app_assoc, <- own_runs_app. subst page. by rewrite <- drop_drop, take_take_drop. }
      rewrite Hcat in *. exists (lim + n), nx. split; [exact Heq|]. destruct nx as [c|].
      * destruct Hnx as [-> Hl]. split; [lia|exact Hl].
      * destruct Hnx as [Hl Hd]. split; [exact Hl|]. rewrite drop_drop. rewrite drop_drop in Hd. by rewrite Nat.add_assoc.
    + exists lim, None. split; [done|]. split; [exact Hlen|]. rewrite drop_drop, drop_ge by lia. done.
Qed.

(** An organization's pages lose and repeat nothing.  Whatever other organizations'
    runs lie between its own, a page asked at any cursor is exactly the next [limit] of
    its own matching runs, under their own ids, and the page's cursor resumes right after
    the last one; without a cursor nothing is left.  The walk terminates, with fuel for
    one underlying page per entry. *)
Theorem org_pages_exact (base : list run_summary) (p : string) (q : run_query) (fuel : nat) :
  let F := filter (λ r, query_matches q r = true) base in
  let left c := own_runs p (drop (cursor_offset c) F) in
  let limit := default 50 (q_limit q) in
  0 < limit → length F < fuel →
  ∃ nx, org_listRunsPaged (λ q, Some (pageFromArray base q)) p fuel q = Some (take limit (left (q_cursor q)), nx) ∧
    drop limit (left (q_cursor q)) = match nx with Some c => left (Some c) | None => [] end.
Proof.
  intros F left limit Hlim Hf. unfold org_listRunsPaged. fold limit.
  destruct (org_walk_spec base p q limit fuel (cursor_offset (q_cursor q)) []) as (n & nx & Heq & Hnx); [done|fold F; pose proof (Nat.le_sub_l (length F) (cursor_offset (q_cursor q))); by eapply Nat.le_lt_trans|].
  fold F in Heq, Hnx. cbn [app] in *. exists nx.
  assert (Hsplit : left (q_cursor q) = own_runs p (take n (drop (cursor_offset (q_cursor q)) F)) ++
                     own_runs p (drop n (drop (cursor_offset (q_cursor q)) F))).
  { subst left. cbn. by rewrite <- own_runs_app, take_drop. }
  rewrite Heq, Hsplit. destruct nx as [c|].
  - destruct Hnx as [Hc Hlen]. rewrite <- Hlen, take_app_length, drop_app_length. split; [done|].
    subst left. cbn beta. by rewrite Hc, drop_drop.
  - destruct Hnx as [Hlen ->]. rewrite app_nil_r. set (own := own_runs p (take n _)) in *.
    rewrite (take_ge own), (drop_ge own) by (by apply Nat.lt_le_incl). done.
Qed.

(** ** The storage wrapper: [org-storage.ts] *)

Definition MAX_DRAW : nat := 50.

Section Drain.
Context {A B : Type}.
Variable fetch : option string → list A * option string.
Variable own : A → option B.
Variable limit : option nat.

(** Draws source pages until [limit] own rows are in hand or the source is exhausted. *)
Fixpoint drain (draws : nat) (items : list B) (cursor : option string) : list B * option string :=
  match draws with
  | 0 => (items, cursor)
  | S draws' =>
      let '(page, nx) := fetch cursor in
      let items' := items ++ omap own page in
      match nx with
      | None => (items', None)
      | Some c =>
          if (match limit with Some n => n <=? length items' | None => false end) then (items', Some c)
          else drain draws' items' (Some c)
      end
  end.

Definition drainOwned (cursor : option string) : list B * option string :=
  let '(items, nx) := drain MAX_DRAW [] cursor in
  (match limit with Some n => take n items | None => items end, nx).
End Drain.

(** [withOrgStorage(storage, org).runs.listRuns(q)]. *)
Definition scopedRuns_listRuns (p : string) (fetch : run_query → list run_summary * option string) (q : run_query)
    : list run_summary * option string :=
  drainOwned (λ c, fetch (RunQuery (q_limit q) c (q_status q) (q_agent q) (q_resourceId q) (q_workKey q)))
    (λ r, with_runId r <$> strip_prefix p (rs_runId r)) (q_limit q) (q_cursor q).

(** [withOrgStorage(storage, org).runs.readRun(runId)]: the entries as the store returns them. *)
Definition scopedRuns_readRun {V} `{!JsValue V} (p runId : string) (j : mem_journal V) : list (journal_entry V) :=
  mj_readRun (p +:+ runId) j.

(** The tool records [compensateRun] unwinds: [e.kind === 'tool' && e.key.startsWith(`${runId}:tool:`)]. *)
Definition unwindable {V} (runId : string) (entries : list (journal_entry V)) : list (journal_entry V) :=
  filter (λ e, bool_decide (je_kind e = KTool) && starts_with (rk_tool runId "") (je_key e) = true) entries.

Section Storage.
Context {V : Type} `{!JsValue V}.

Lemma starts_with_shorter p q s :
  String.length p ≤ String.length q → starts_with p s = true → starts_with q s = true → starts_with p q = true.
Proof.
  revert q s. induction p as [|c p IH]; intros q s; [by destruct q|].
  destruct q as [|d q]; simpl; [lia|]. intros Hle [r ->]%starts_with_spec [r' Heq]%starts_with_spec.
  simpl in Heq. injection Heq as -> Heq. apply starts_with_spec.
  assert (Hsub : starts_with p q = true).
  { apply (IH q (p +:+ r)); [lia|apply starts_with_spec; by exists r|apply starts_with_spec; by exists r']. }
  apply starts_with_spec in Hsub as [t ->]. by exists t.
Qed.

(** The storage wrapper hides a run's tool records from the unwind.  Read through
    [withOrg], the records [compensateRun] looks for are those of the organization's own
    journal; read through [withOrgStorage(...).runs], which returns the entries under their
    prefixed keys, the unwind finds none of them, whatever the run did (for a run id that does not
    itself begin like an organization prefix). *)
Theorem storage_readRun_hides_tools fuel o p P r (j : mem_journal V) :
  orgPrefix o = Ok p → one_line o = true → withOrg fuel o mem_port = Ok P → starts_with "org:" (r +:+ ":") = false →
  unwindable r (jp_readRun _ P r j) = unwindable r (mj_readRun r (view p j)) ∧
  unwindable r (scopedRuns_readRun p r j) = [].
Proof.
  intros Hp Ho HP Hr. pose proof (orgPrefix_Ok o p Hp) as [Hpe _].
  assert (Hlp : one_line p = true) by (by rewrite Hpe, !one_line_app, Ho). split.
  - unfold withOrg in HP. cbn [mem_port jp_scope] in HP. rewrite Hp in HP. injection HP as <-.
    cbn [jp_readRun mem_port]. by rewrite view_readRun.
  - unfold unwindable, scopedRuns_readRun, mj_readRun. apply elem_of_nil_inv. intros e [Hk He]%list_elem_of_filter.
    bool_to_prop. apply number_entries_elem in He. apply run_records_elem in He as [_ Hparse].
    unfold parseJournalKey in Hparse. destruct (one_line (je_key e)); [|done].
    apply last_kind_sound in Hparse as (c & t & Hkey). rewrite Hpe in Hkey.
    assert (Horg : starts_with "org:" (je_key e) = true) by (rewrite Hkey; apply starts_with_spec; eauto).
    assert (Hb : starts_with "org:" (rk_tool r "") = true).
    { apply (starts_with_shorter _ _ (je_key e)); [|done|done]. unfold rk_tool. rewrite !str_length_app. simpl. lia. }
    assert (Hc : starts_with "org:" (r +:+ ":") = true); [|congruence].
    destruct r as [|c1 [|c2 [|c3 r]]].
    1-3: apply starts_with_spec in Hb as [s Hs]; unfold rk_tool in Hs; simpl in Hs; by simplify_eq.
    apply (starts_with_shorter _ _ (rk_tool (String c1 (String c2 (String c3 r))) "")); [simpl; rewrite str_length_app; simpl; lia|done|].
    apply starts_with_spec. exists "tool:". unfold rk_tool. by rewrite !str_app_assoc.
Qed.

Definition bare_summary (id : string) : run_summary := RunSummary id RCompleted 0 0 None None None None.

(** The drained pages lose rows.  One run of another organization before three runs of
    [acme] is enough: walking [withOrgStorage(...).runs.listRuns] in pages of two to the end
    returns two of the three runs.  The page that completes the limit is cut, and the cursor
    points after the whole source page. *)
Theorem drained_pages_lose_rows :
  let base := map bare_summary ["org:globex:r0"; "org:acme:r1"; "org:acme:r2"; "org:acme:r3"] in
  own_runs "org:acme:" base = map bare_summary ["r1"; "r2"; "r3"] ∧
  listRunsArray 10 (λ c, scopedRuns_listRuns "org:acme:" (pageFromArray base) (RunQuery (Some 2) c None None None None))
    = Some (map bare_summary ["r1"; "r2"]).
Proof. split; vm_compute; reflexivity. Qed.
End Storage.

(** ** Concrete instances *)

Section Witnesses.
#[local] Existing Instance text_value.

Definition two_tenants : list (string * port_op string) :=
  [("acme", OPut 1 "r:tool:a" "paid"); ("globex", OPutIfAbsent 2 "r:tool:a" "open"); ("globex", OReadRun "r");
   ("acme", OReadRun "r"); ("globex", ODeletePrefix ""); ("acme", OGet "r:tool:a"); ("globex", OListKeys "" None)].

Lemma org_noninterference_witness :
  fst (alone (of_org "acme" two_tenants) empty_journal) =
    [ADone; AEntries [JournalEntry "r:tool:a" "r" KTool "paid" 0 (Some 1%Z)]; AValue (Some "paid")] ∧
  of_org "acme" (fst (shared 1 two_tenants empty_journal)) =
    map Ok (fst (alone (of_org "acme" two_tenants) (view "org:acme:" empty_journal))).
Proof.
  split; [vm_compute; reflexivity|].
  exact (proj1 (org_noninterference 1 two_tenants empty_journal "acme" "org:acme:" eq_refl eq_refl)).
Defined.

Lemma org_pages_exact_witness :
  let base := map bare_summary ["org:globex:r0"; "org:acme:r1"; "org:acme:r2"; "org:acme:r3"] in
  ∃ nx, org_listRunsPaged (λ q, Some (pageFromArray base q)) "org:acme:" 5 (RunQuery (Some 2) None None None None None)
    = Some (map bare_summary ["r1"; "r2"], nx) ∧ nx = Some "3".
Proof.
  intros base.
  destruct (org_pages_exact base "org:acme:" (RunQuery (Some 2) None None None None None) 5) as (nx & Heq & _).
  - apply Nat.ltb_lt. reflexivity.
  - apply Nat.ltb_lt. vm_compute. reflexivity.
  - exists nx. vm_compute in Heq |- *. split; [exact Heq|congruence].
Defined.

Definition acme_port : journal_port string (mem_journal string) :=
  match withOrg 1 "acme" mem_port with Ok P => P | Err _ => mem_port end.

Lemma storage_readRun_hides_tools_witness :
  let j := mj_put 1 "org:acme:r:tool:a" "paid" empty_journal in
  map je_key (unwindable "r" (jp_readRun _ acme_port "r" j)) = ["r:tool:a"] ∧
  unwindable "r" (scopedRuns_readRun "org:acme:" "r" j) = [].
Proof.
  intros j. split; [vm_compute; reflexivity|].
  exact (proj2 (storage_readRun_hides_tools 1 "acme" "org:acme:" acme_port "r" j eq_refl eq_refl eq_refl eq_refl)).
Defined.
End Witnesses.
