(* ===== verification/OwnedName.v ===== *)
(** * OwnedName: a caller's name within its owner

    Models [packages/durable/src/owned-name.ts]: the stored form [~o~<org>:<user>:<name>] of
    a name chosen by a caller, the rule for owner ids, and the owner read back from a stored
    name.  Strings are sequences of 8-bit units: they hold no surrogates, so the escape of a lone surrogate has
    nothing to do, and of the [%uXXXX] sequences [unesc] decodes those below 256. *)

From S2P Require Import Prelude Keys.

Definition OWNED : string := "~o~".

(** ** Escapes *)

Definition esc_char (c : Ascii.ascii) : string :=
  if Ascii.eqb c "%" then "%25" else if Ascii.eqb c ":" then "%3A" else if Ascii.eqb c "~" then "%7E"
  else String c EmptyString.

Fixpoint esc (v : string) : string :=
  match v with
  | EmptyString => EmptyString
  | String c v' => esc_char c +:+ esc v'
  end.

Definition hex_value (c : Ascii.ascii) : option nat :=
  let n := Ascii.nat_of_ascii c in
  if (48 <=? n) && (n <=? 57) then Some (n - 48)
  else if (65 <=? n) && (n <=? 70) then Some (n - 55) else None.

(** [unesc]: the sequences [%25], [%3A], [%7E] and [%u00XX], from the left. *)
Fixpoint unesc (v : string) : string :=
  match v with
  | EmptyString => EmptyString
  | String c v' =>
      let keep := String c (unesc v') in
      if Ascii.eqb c "%" then
        match v' with
        | String "2" (String "5" r) => String "%" (unesc r)
        | String "3" (String "A" r) => String ":" (unesc r)
        | String "7" (String "E" r) => String "~" (unesc r)
        | String "u" (String "0" (String "0" (String x (String y r)))) =>
            match hex_value x, hex_value y with
            | Some a, Some b => String (Ascii.ascii_of_nat (16 * a + b)) (unesc r)
            | _, _ => keep
            end
        | _ => keep
        end
      else keep
  end.

(** ** Owner ids *)

Definition RESERVED_OWNER_PREFIXES : list string := ["operator:"; "application:"; "role:"; "token:"].
Definition MAX_OWNER_ID : nat := 200.

Inductive owner_problem := PLength | PControl | PReserved.

(** C0, DEL and C1. *)
Definition is_control (c : Ascii.ascii) : bool :=
  let n := Ascii.nat_of_ascii c in (n <? 32) || ((127 <=? n) && (n <=? 159)).

Definition ownerIdProblem (id : string) : option owner_problem :=
  if (String.length id =? 0) || (MAX_OWNER_ID <? String.length id) then Some PLength
  else if str_exists is_control id then Some PControl
  else if existsb (λ p, starts_with p id) RESERVED_OWNER_PREFIXES then Some PReserved
  else None.

Inductive name_error :=
| OwnerIdError (problem : owner_problem) (where_ : string)
| ReservedMarker (name : string).

Definition assertOwnerId (id where_ : string) : outcome name_error unit :=
  match ownerIdProblem id with Some p => Err (OwnerIdError p where_) | None => Ok tt end.

Record owner := Owner { ow_orgId : option string; ow_resourceId : option string }.

#[global] Instance owner_eq_dec : EqDecision owner.
Proof. solve_decision. Defined.

(** ** Stored names *)

Definition esc_part (o : option string) : string := match o with Some v => esc v | None => "" end.

Definition ownerPart (o : owner) : outcome name_error string :=
  if bool_decide (ow_orgId o = Some "") then Err (OwnerIdError PLength "orgId")
  else
    match (match ow_resourceId o with Some r => assertOwnerId r "resourceId" | None => Ok tt end) with
    | Err e => Err e
    | Ok _ => Ok (OWNED +:+ esc_part (ow_orgId o) +:+ ":" +:+ esc_part (ow_resourceId o) +:+ ":")
    end.

Definition assertSystemName (name : string) : outcome name_error unit :=
  if starts_with OWNED name then Err (ReservedMarker name) else Ok tt.

Definition ownedName (name : string) (o : owner) : outcome name_error string :=
  match ow_orgId o, ow_resourceId o with
  | None, None => match assertSystemName name with Err e => Err e | Ok _ => Ok name end
  | _, _ => match ownerPart o with Err e => Err e | Ok p => Ok (p +:+ name) end
  end.

Definition ownedPrefix (o : owner) : outcome name_error string := ownerPart o.

(** [rest.indexOf(':')]: what precedes the first colon, and what follows it. *)
Fixpoint cut_colon (s : string) : option (string * string) :=
  match s with
  | EmptyString => None
  | String c s' =>
      if Ascii.eqb c ":" then Some ("", s')
      else match cut_colon s' with Some (a, b) => Some (String c a, b) | None => None end
  end.

Definition part_of (s : string) : option string := if String.eqb s "" then None else Some (unesc s).

Definition ownerOfName (stored : string) : owner * string :=
  match strip_prefix OWNED stored with
  | None => (Owner None None, stored)
  | Some rest =>
      match cut_colon rest with
      | None => (Owner None None, stored)
      | Some (org, rest1) =>
          match cut_colon rest1 with
          | None => (Owner None None, stored)
          | Some (res, name) => (Owner (part_of org) (part_of res), name)
          end
      end
  end.

(** ** Escapes are invertible and leave no separator *)

Lemma unesc_esc_char c s : unesc (esc_char c +:+ s) = String c (unesc s).
Proof.
  unfold esc_char. destruct (Ascii.eqb_spec c "%") as [->|H1]; [done|].
  destruct (Ascii.eqb_spec c ":") as [->|H2]; [done|]. destruct (Ascii.eqb_spec c "~") as [->|H3]; [done|].
  cbn [String.append unesc]. by rewrite (proj2 (Ascii.eqb_neq c "%") H1).
Qed.

Lemma unesc_esc v : unesc (esc v) = v.
Proof. induction v as [|c v IH]; [done|]. cbn [esc]. by rewrite unesc_esc_char, IH. Qed.

Lemma esc_nonempty v : v ≠ "" → esc v ≠ "".
Proof.
  destruct v as [|c v]; [done|]. intros _. cbn [esc]. unfold esc_char.
  by repeat destruct (Ascii.eqb c _).
Qed.

Lemma esc_no_colon v : has_char ":" (esc v) = false.
Proof.
  induction v as [|c v IH]; [done|]. cbn [esc]. unfold has_char in *. rewrite str_exists_app, IH, orb_false_r.
  unfold esc_char. destruct (Ascii.eqb c "%"); [done|]. destruct (Ascii.eqb_spec c ":") as [->|H]; [done|].
  destruct (Ascii.eqb c "~"); [done|]. cbn. rewrite orb_false_r. apply Ascii.eqb_neq. congruence.
Qed.

Lemma cut_colon_app a b : has_char ":" a = false → cut_colon (a +:+ String ":" b) = Some (a, b).
Proof.
  unfold has_char. induction a as [|c a IH]; [done|]. cbn. intros [Hc Ha]%orb_false_iff.
  rewrite Ascii.eqb_sym, Hc, IH by done. done.
Qed.

Lemma ownerPart_Ok o p :
  ownerPart o = Ok p →
  p = OWNED +:+ esc_part (ow_orgId o) +:+ ":" +:+ esc_part (ow_resourceId o) +:+ ":" ∧
  ow_orgId o ≠ Some "" ∧ ow_resourceId o ≠ Some "".
Proof.
  unfold ownerPart. destruct (bool_decide_reflect (ow_orgId o = Some "")) as [|Hne]; [done|].
  destruct (ow_resourceId o) as [r|]; [|by intros [= <-]].
  unfold assertOwnerId, ownerIdProblem. destruct ((String.length r =? 0) || _) eqn:Hl; [done|].
  destruct (str_exists is_control r); [done|]. destruct (existsb _ _); [done|]. intros [= <-].
  split_and!; [done..|]. intros [= ->]. done.
Qed.

Lemma part_of_esc o : o ≠ Some "" → part_of (esc_part o) = o.
Proof.
  unfold part_of. destruct o as [v|]; [|done]. intros Hv. cbn [esc_part].
  destruct (String.eqb_spec (esc v) "") as [He|_]; [|by rewrite unesc_esc].
  exfalso. by apply (esc_nonempty v); [intros ->|].
Qed.

Lemma ownerOfName_owned o p name :
  ownerPart o = Ok p → ownerOfName (p +:+ name) = (o, name).
Proof.
  intros (-> & Ho & Hr)%ownerPart_Ok. unfold ownerOfName.
  rewrite (proj2 (strip_prefix_Some OWNED _ (esc_part (ow_orgId o) +:+ String ":" (esc_part (ow_resourceId o) +:+ String ":" name))))
    by (by rewrite !str_app_assoc).
  assert (Hc : ∀ x, has_char ":" (esc_part x) = false) by (intros [v|]; [apply esc_no_colon|done]).
  rewrite !cut_colon_app by apply Hc. rewrite !part_of_esc by done. by destruct o.
Qed.

Lemma ownerOfName_stored name o stored : ownedName name o = Ok stored → ownerOfName stored = (o, name).
Proof.
  unfold ownedName. destruct o as [[org|] [res|]]; cbn [ow_orgId ow_resourceId].
  1-3: destruct (ownerPart _) as [p|e] eqn:Hp; [|done]; intros [= <-]; by apply ownerOfName_owned.
  unfold assertSystemName, ownerOfName. rewrite starts_with_strip.
  destruct (strip_prefix OWNED name) eqn:Hn; [done|]. intros [= <-]. by rewrite Hn.
Qed.

(** A stored name tells whose it is.  Whatever a name is made of, storing it within an owner and
    reading it back gives that owner and that name; a name stored for nobody reads as nobody's.  So
    no caller can spell a name into another owner's, and two owners never share a stored name. *)
Theorem owned_name_roundtrip (name : string) (o : owner) (stored : string) :
  ownedName name o = Ok stored → ownerOfName stored = (o, name).
Proof. apply ownerOfName_stored. Qed.

Lemma owned_prefix_iff (o o' : owner) (name prefix stored : string) :
  ownedPrefix o = Ok prefix → ownedName name o' = Ok stored → (o ≠ Owner None None) →
  starts_with prefix stored = true ↔ o' = o.
Proof.
  intros Hp Hs Hne. pose proof (ownerOfName_stored name o' stored Hs) as Hread. split.
  - intros [n ->]%starts_with_spec. rewrite (ownerOfName_owned o prefix n Hp) in Hread. congruence.
  - intros ->. unfold ownedName, ownedPrefix in *. rewrite Hp in Hs.
    destruct o as [[org|] [res|]]; cbn [ow_orgId ow_resourceId] in Hs; [injection Hs as <-; apply starts_with_app..|done].
Qed.

(** An id the engine stored: of a user, an organization, or nobody. *)
Definition stored_id (id : string) : Prop := ∃ name o, ownedName name o = Ok id.

Definition owner_of (id : string) : owner := fst (ownerOfName id).

Lemma prefix_owner o prefix id :
  ownedPrefix o = Ok prefix → o ≠ Owner None None → stored_id id → starts_with prefix id = bool_decide (owner_of id = o).
Proof.
  intros Hp Hne (name & o' & Hs). unfold owner_of. rewrite (ownerOfName_stored _ _ _ Hs). cbn [fst].
  apply eq_bool_prop_intro. rewrite bool_decide_spec, Is_true_true. by eapply owned_prefix_iff.
Qed.

(** An owned id's prefix is decided before the name begins. *)
Lemma owned_prefix_sub o prefix id x :
  ownedPrefix o = Ok prefix → o ≠ Owner None None → stored_id id →
  starts_with prefix (id +:+ ":" +:+ x) = starts_with prefix id.
Proof.
  intros Hp Hne (name & o' & Hs). apply eq_true_iff_eq. split; [|intros [r ->]%starts_with_spec].
  2:{ rewrite str_app_assoc. apply starts_with_app. }
  intros [r Hr]%starts_with_spec. rewrite (owned_prefix_iff o o' name prefix id Hp Hs Hne).
  apply (f_equal ownerOfName) in Hr. rewrite (ownerOfName_owned o prefix r Hp) in Hr.
  unfold ownedName in Hs. destruct o' as [[g|] [u|]]; cbn [ow_orgId ow_resourceId] in Hs.
  1-3: destruct (ownerPart _) as [p'|] eqn:Hp'; [|done]; injection Hs as <-;
       rewrite str_app_assoc, (ownerOfName_owned _ p' _ Hp') in Hr; congruence.
  unfold assertSystemName in Hs. destruct (starts_with OWNED name) eqn:Hn; [done|]. injection Hs as ->.
  unfold ownerOfName in Hr.
  destruct (strip_prefix OWNED (id +:+ ":" +:+ x)) as [rest|] eqn:Hx; [exfalso|congruence].
  apply strip_prefix_Some in Hx. revert Hn Hx. unfold OWNED.
  destruct id as [|c1 [|c2 [|c3 id]]]; intros Hn [=]; subst; done.
Qed.

(** Erasing by prefix is exact.  Among stored names, those that start with an owner's prefix are
    exactly the names of that owner: nobody else's, and no system name. *)
Theorem owned_prefix_exact (o o' : owner) (name prefix stored : string) :
  ownedPrefix o = Ok prefix → ownedName name o' = Ok stored → (o ≠ Owner None None) →
  starts_with prefix stored = true ↔ o' = o.
Proof. apply owned_prefix_iff. Qed.

(** ** Concrete instances *)

Lemma owned_name_roundtrip_witness :
  ownerOfName "~o~acme%3Aeu:bob:weekly:report" = (Owner (Some "acme:eu") (Some "bob"), "weekly:report").
Proof. exact (owned_name_roundtrip "weekly:report" (Owner (Some "acme:eu") (Some "bob")) _ eq_refl). Defined.

Lemma owned_prefix_exact_witness :
  starts_with "~o~acme:bob:" "~o~acme:bo:b:x" = true ↔ Owner (Some "acme") (Some "bo") = Owner (Some "acme") (Some "bob").
Proof.
  refine (owned_prefix_exact (Owner (Some "acme") (Some "bob")) (Owner (Some "acme") (Some "bo")) "b:x" _ _ eq_refl eq_refl _).
  discriminate.
Defined.
