(* ===== verification/Work.v ===== *)
(** * Work: the work store

    Models the [WorkStore] port of [packages/durable/src/storage.ts] by
    [InMemoryWorkStore] of [in-memory-storage.ts]: append-only logs with idempotent ids,
    a flat key-value map, and pages whose cursor is a row offset.  An id the store or
    the caller generates at random is an argument of [ws_append]. *)

From S2P Require Import Prelude JsMap Keys Journal.

Record log_record (V : Type) := LogRecord { lr_id : string; lr_payload : V; lr_ts : Z }.
Arguments LogRecord {V}. Arguments lr_id {V}. Arguments lr_payload {V}. Arguments lr_ts {V}.

Definition PAGE_LIMIT : nat := 50.

(** A page, and the offset of the next one. *)
Definition paginate {A} (items : list A) (cursor : option string) (limit : option nat) : list A * option string :=
  let start := cursor_offset cursor in
  let lim := default PAGE_LIMIT limit in
  let next := start + lim in
  (take lim (drop start items), if next <? length items then Some (dec (N.of_nat next)) else None).

Section WorkStore.
Context {V : Type} `{!JsValue V}.

Record work_store := WorkStore {
  ws_logs : jsmap (list (log_record V));
  ws_kv : jsmap V;
}.

Definition empty_work : work_store := WorkStore [] [].

Definition ws_log (ns : string) (s : work_store) : list (log_record V) := default [] (mget ns (ws_logs s)).

(** [append]: a record with the same id is kept. *)
Definition ws_append (now : Z) (ns : string) (payload : V) (id : string) (s : work_store) : work_store :=
  let log := ws_log ns s in
  if existsb (λ r, String.eqb (lr_id r) id) log then s
  else WorkStore (mset ns (log ++ [LogRecord id payload now]) (ws_logs s)) (ws_kv s).

Definition ws_list (ns : string) (cursor : option string) (s : work_store) : list (log_record V) * option string :=
  paginate (ws_log ns s) cursor None.

Definition ws_get (k : string) (s : work_store) : option V := mget k (ws_kv s).
Definition ws_put (k : string) (v : V) (s : work_store) : work_store := WorkStore (ws_logs s) (mset k v (ws_kv s)).

(** [ackOnce]; [yes] is the value [true]. *)
Definition ws_ackOnce (k : string) (yes : V) (s : work_store) : bool * work_store :=
  if mhas k (ws_kv s) then (false, s) else (true, ws_put k yes s).

Definition ws_putIfMatch (k : string) (expected v : V) (s : work_store) : bool * work_store :=
  match mget k (ws_kv s) with
  | Some cur => if bool_decide (cur = expected) then (true, ws_put k v s) else (false, s)
  | None => (false, s)
  end.

Definition ws_deleteIdPrefix (idPrefix : string) (s : work_store) : nat * work_store :=
  let keep := filter (λ r : log_record V, starts_with idPrefix (lr_id r) = false) in
  (sum_list (map (λ '(_, log), length log - length (keep log)) (ws_logs s)),
   WorkStore (map (λ '(ns, log), (ns, keep log)) (ws_logs s)) (ws_kv s)).

Definition ws_deletePrefix (prefix : string) (s : work_store) : nat * work_store :=
  (sum_list (map (λ '(ns, log), if starts_with prefix ns then length log else 0) (ws_logs s)) + count_prefix prefix (ws_kv s),
   WorkStore (drop_prefix prefix (ws_logs s)) (drop_prefix prefix (ws_kv s))).

(** ** Lemmas *)

Lemma ws_get_put k v s : ws_get k (ws_put k v s) = Some v.
Proof. apply mget_mset. Qed.

Lemma ws_get_put_ne k k' v s : k ≠ k' → ws_get k (ws_put k' v s) = ws_get k s.
Proof. apply mget_mset_ne. Qed.

Lemma ws_log_put ns k v s : ws_log ns (ws_put k v s) = ws_log ns s.
Proof. done. Qed.

Lemma ws_get_append k now ns p id s : ws_get k (ws_append now ns p id s) = ws_get k s.
Proof. unfold ws_append. by destruct (existsb _ _). Qed.

Lemma ws_log_append_ne ns ns' now p id s : ns ≠ ns' → ws_log ns (ws_append now ns' p id s) = ws_log ns s.
Proof.
  intros Hne. unfold ws_append. destruct (existsb _ _); [done|]. unfold ws_log. cbn. by rewrite mget_mset_ne.
Qed.

(** Appending twice under one id is appending once. *)
Lemma ws_log_append ns now p id s :
  ws_log ns (ws_append now ns p id s) =
    if existsb (λ r, String.eqb (lr_id r) id) (ws_log ns s) then ws_log ns s
    else ws_log ns s ++ [LogRecord id p now].
Proof.
  unfold ws_append. destruct (existsb _ _) eqn:He; [done|]. unfold ws_log at 1. cbn. by rewrite mget_mset.
Qed.

Lemma ws_get_deleteIdPrefix k p s : ws_get k (snd (ws_deleteIdPrefix p s)) = ws_get k s.
Proof. done. Qed.

Lemma ws_log_deleteIdPrefix ns p s :
  ws_log ns (snd (ws_deleteIdPrefix p s)) = filter (λ r, starts_with p (lr_id r) = false) (ws_log ns s).
Proof.
  unfold ws_log. cbn [snd ws_deleteIdPrefix ws_logs]. induction (ws_logs s) as [|[ns' log] m IH]; [done|].
  simpl. by destruct (String.eqb ns ns').
Qed.

Lemma ws_get_deletePrefix k p s : ws_get k (snd (ws_deletePrefix p s)) = if starts_with p k then None else ws_get k s.
Proof. apply mget_drop_prefix. Qed.

Lemma ws_log_deletePrefix ns p s : ws_log ns (snd (ws_deletePrefix p s)) = if starts_with p ns then [] else ws_log ns s.
Proof. unfold ws_log. cbn [snd ws_deletePrefix ws_logs]. rewrite mget_drop_prefix. by case_match. Qed.

(** A log holds a record under this id. *)
Definition has_id (ns id : string) (s : work_store) : bool := existsb (λ r, String.eqb (lr_id r) id) (ws_log ns s).

Lemma ws_append_noop now ns p id s : has_id ns id s = true → ws_append now ns p id s = s.
Proof. unfold has_id, ws_append. by intros ->. Qed.

Lemma has_id_append now ns p id s : has_id ns id (ws_append now ns p id s) = true.
Proof.
  unfold has_id. rewrite ws_log_append. destruct (existsb _ (ws_log ns s)) eqn:He; [done|].
  rewrite existsb_app. simpl. by rewrite String.eqb_refl, orb_true_r.
Qed.

Lemma has_id_mono now ns ns' p id id' s : has_id ns id s = true → has_id ns id (ws_append now ns' p id' s) = true.
Proof.
  unfold has_id. intros He. destruct (decide (ns = ns')) as [<-|Hne]; [|by rewrite ws_log_append_ne].
  rewrite ws_log_append. case_match; [done|]. by rewrite existsb_app, He.
Qed.

(** ** Pages *)

(** The log from the offset of a cursor on. *)
Definition rest_log (ns : string) (c : option string) (s : work_store) : list (log_record V) :=
  drop (cursor_offset c) (ws_log ns s).

(** A page is the head of the rest, and its cursor names what is left. *)
Lemma ws_list_spec ns c s :
  let '(items, nx) := ws_list ns c s in
  items = take PAGE_LIMIT (rest_log ns c s) ∧
  match truthy nx with
  | Some c' => cursor_offset (Some c') = cursor_offset c + PAGE_LIMIT ∧
               rest_log ns (Some c') s = drop PAGE_LIMIT (rest_log ns c s) ∧
               PAGE_LIMIT < length (rest_log ns c s)
  | None => length (rest_log ns c s) ≤ PAGE_LIMIT
  end.
Proof.
  unfold ws_list, paginate, rest_log. cbn [default]. change (id PAGE_LIMIT) with PAGE_LIMIT. split; [done|].
  destruct (Nat.ltb_spec (cursor_offset c + PAGE_LIMIT) (length (ws_log ns s))) as [Hlt|Hge].
  - rewrite truthy_dec by (unfold PAGE_LIMIT; lia). rewrite cursor_offset_dec, drop_drop, length_drop.
    split_and!; [done..|lia].
  - cbn [truthy]. rewrite length_drop. lia.
Qed.

(** Walking on from a page with a cursor takes fuel for what is left. *)
Lemma rest_log_shrinks ns c c' s :
  rest_log ns (Some c') s = drop PAGE_LIMIT (rest_log ns c s) → PAGE_LIMIT < length (rest_log ns c s) →
  length (rest_log ns (Some c') s) < length (rest_log ns c s).
Proof. intros -> Hlt. rewrite length_drop. unfold PAGE_LIMIT in *. lia. Qed.
End WorkStore.

Arguments work_store : clear implicits.
