(* ===== verification/Prog.v ===== *)
(** * Prog: asynchronous programs over a journal

    Infrastructure (no source file of its own).  An [async] function of the engine is
    a tree of requests to its environment: every [await] on the journal, the clock,
    a timer or a host callback is one [Do] node, and what follows is its
    continuation.  A request either answers or fails (a storage or callback error),
    which a [try]/[catch] of the code observes.

    Two semantics: [run] executes one program alone; [pool_step] interleaves the
    requests of any number of programs (concurrent calls, workers, resumes of a
    crashed process) over one shared journal, lets requests fail before or after
    taking effect, and lets the clocks move at any moment.  A crash is a program
    that is never scheduled again.

    [safe] is a rely/guarantee judgement on trees: which requests a thread may make
    in a ghost state, and how each answer moves the ghost state.  [pool_safe] turns a
    global invariant preserved by the allowed requests into a property of every
    reachable state of every pool of safe programs. *)

From S2P Require Import Prelude JsMap Keys Journal Work.

(** Optional capabilities of a journal ([Journal]'s optional methods). *)
Record journal_caps := JournalCaps {
  has_putIfAbsent : bool;
  has_putIfMatch : bool;
  has_now : bool;
  has_incrBy : bool;
  has_readRun : bool;
  has_listKeys : bool;
}.

Definition full_caps : journal_caps := JournalCaps true true true true true true.

Section Prog.
Context {V : Type} `{!JsValue V}.
Context {Q R E : Type}.      (** host requests, their answers, thrown values *)

(** ** Requests and programs *)

Inductive req :=
| RGet (k : string)
| RPut (k : string) (v : V)
| RPutIfAbsent (k : string) (v : V)
| RPutIfMatch (k : string) (expected v : V)
| RIncrBy (k : string) (fields : list (string * Z))
| RGetCounters (k : string)
| RReadRun (runId : string)
| RListKeys (prefix : string) (limit : option nat)
| RListRuns (cursor : option string)                     (** one page of [listRuns] *)
| RNow                        (** [journal.now()] *)
| RDateNow                    (** [Date.now()] *)
| RSleep (ms : Z)
| RWAppend (ns : string) (payload : V) (id : string)     (** the work store *)
| RWList (ns : string) (cursor : option string)
| RWGet (k : string)
| RWPut (k : string) (v : V)
| RWAckOnce (k : string) (yes : V)
| RWPutIfMatch (k : string) (expected v : V)
| RExt (q : Q).

Definition ans (r : req) : Type :=
  match r with
  | RGet _ => option V
  | RPut _ _ | RIncrBy _ _ | RSleep _ => unit
  | RPutIfAbsent _ _ | RPutIfMatch _ _ _ => bool
  | RGetCounters _ => option (list (string * Z))
  | RReadRun _ => list (journal_entry V)
  | RListKeys _ _ => list string
  | RListRuns _ => list run_summary * option string
  | RNow | RDateNow => Z
  | RWAppend _ _ _ => string
  | RWList _ _ => list (log_record V) * option string
  | RWGet _ => option V
  | RWPut _ _ => unit
  | RWAckOnce _ _ | RWPutIfMatch _ _ _ => bool
  | RExt _ => R
  end.

Inductive prog (A : Type) : Type :=
| Ret (a : A)
| Throw (e : E)
| Do (r : req) (k : outcome E (ans r) → prog A).
Arguments Ret {A}. Arguments Throw {A}. Arguments Do {A}.

Fixpoint pbind {A B} (f : A → prog B) (p : prog A) : prog B :=
  match p with
  | Ret a => f a
  | Throw e => Throw e
  | Do r k => Do r (λ o, pbind f (k o))
  end.

(** [try { p } catch (e) { h(e) }]. *)
Fixpoint ptry {A} (h : E → prog A) (p : prog A) : prog A :=
  match p with
  | Ret a => Ret a
  | Throw e => h e
  | Do r k => Do r (λ o, ptry h (k o))
  end.

Definition request (r : req) : prog (ans r) :=
  Do r (λ o, match o with Ok a => Ret a | Err e => Throw e end).

(** ** The environment *)

Record world := World {
  jr : mem_journal V;
  clock : Z;                 (** the storage clock *)
  wall : Z;                  (** this process' clock *)
  trace : list Q;            (** host requests performed, most recent first *)
  work : work_store V;
}.

Definition set_jr (j : mem_journal V) (w : world) : world := World j (clock w) (wall w) (trace w) (work w).

Definition set_work (s : work_store V) (w : world) : world := World (jr w) (clock w) (wall w) (trace w) s.

(** What the host answers to a request, given the requests performed before. *)
Definition oracle : Type := list Q → Q → outcome E R.

(** A request that reaches its target. *)
Definition perform (h : oracle) (r : req) (w : world) : outcome E (ans r) * world :=
  match r return outcome E (ans r) * world with
  | RGet k => (Ok (mj_get k (jr w)), w)
  | RPut k v => (Ok tt, set_jr (mj_put (wall w) k v (jr w)) w)
  | RPutIfAbsent k v =>
      (Ok (fst (mj_putIfAbsent (wall w) k v (jr w))),
       set_jr (snd (mj_putIfAbsent (wall w) k v (jr w))) w)
  | RPutIfMatch k e v =>
      (Ok (fst (mj_putIfMatch k e v (jr w))), set_jr (snd (mj_putIfMatch k e v (jr w))) w)
  | RIncrBy k fs => (Ok tt, set_jr (mj_incrBy k fs (jr w)) w)
  | RGetCounters k => (Ok (mj_getCounters k (jr w)), w)
  | RReadRun r => (Ok (mj_readRun r (jr w)), w)
  | RListKeys p lim =>
      (Ok (match lim with
           | Some n => mj_listKeys_limit p n (jr w)
           | None => mj_listKeys p (jr w)
           end), w)
  | RListRuns c => (Ok (mj_listRunsPaged (RunQuery None c None None None None) (jr w)), w)
  | RNow => (Ok (clock w), w)
  | RDateNow => (Ok (wall w), w)
  | RSleep ms => (Ok tt, World (jr w) (clock w + ms)%Z (wall w + ms)%Z (trace w) (work w))
  | RWAppend ns v id => (Ok id, set_work (ws_append (wall w) ns v id (work w)) w)
  | RWList ns c => (Ok (ws_list ns c (work w)), w)
  | RWGet k => (Ok (ws_get k (work w)), w)
  | RWPut k v => (Ok tt, set_work (ws_put k v (work w)) w)
  | RWAckOnce k v => (Ok (fst (ws_ackOnce k v (work w))), set_work (snd (ws_ackOnce k v (work w))) w)
  | RWPutIfMatch k e v => (Ok (fst (ws_putIfMatch k e v (work w))), set_work (snd (ws_putIfMatch k e v (work w))) w)
  | RExt q => (h (trace w) q, World (jr w) (clock w) (wall w) (q :: trace w) (work w))
  end.

(** ** One program alone *)

Fixpoint run {A} (h : oracle) (p : prog A) (w : world) : outcome E A * world :=
  match p with
  | Ret a => (Ok a, w)
  | Throw e => (Err e, w)
  | Do r k => let '(o, w') := perform h r w in run h (k o) w'
  end.

Lemma run_bind {A B} (h : oracle) (f : A → prog B) (p : prog A) (w : world) :
  run h (pbind f p) w =
    match run h p w with
    | (Ok a, w') => run h (f a) w'
    | (Err e, w') => (Err e, w')
    end.
Proof.
  revert w. induction p as [a|e|r k IH]; intros w; simpl; [done..|].
  destruct (perform h r w) as [o w']. apply IH.
Qed.

Lemma run_try {A} (h : oracle) (c : E → prog A) (p : prog A) (w : world) :
  run h (ptry c p) w =
    match run h p w with
    | (Ok a, w') => (Ok a, w')
    | (Err e, w') => run h (c e) w'
    end.
Proof.
  revert w. induction p as [a|e|r k IH]; intros w; simpl; [done..|].
  destruct (perform h r w) as [o w']. apply IH.
Qed.

Lemma run_request (h : oracle) (r : req) (w : world) : run h (request r) w = perform h r w.
Proof. simpl. by destruct (perform h r w) as [[a|e] w']. Qed.

(** ** Many programs on one journal *)

Definition config (A : Type) : Type := list (prog A) * world.

Inductive pool_step {A} : config A → config A → Prop :=
| step_ok h ps w i r k :
    ps !! i = Some (Do r k) →
    pool_step (ps, w) (<[i := k (fst (perform h r w))]> ps, snd (perform h r w))
| step_fail_before e ps w i r k :
    ps !! i = Some (Do r k) →
    pool_step (ps, w) (<[i := k (Err e)]> ps, w)
| step_fail_after h e ps w i r k :
    ps !! i = Some (Do r k) →
    pool_step (ps, w) (<[i := k (Err e)]> ps, snd (perform h r w))
| step_time c x ps w :
    (clock w ≤ c)%Z →
    pool_step (ps, w) (ps, World (jr w) c x (trace w) (work w)).

Definition reachable {A} : config A → config A → Prop := rtc pool_step.

Definition finished {A} (o : outcome E A) : prog A :=
  match o with Ok a => Ret a | Err e => Throw e end.

(** One thread running alone to its end is an execution of the pool. *)
Lemma reachable_run {A} (h : oracle) (ps : list (prog A)) (w : world) i p :
  ps !! i = Some p →
  reachable (ps, w) (<[i := finished (fst (run h p w))]> ps, snd (run h p w)).
Proof.
  revert ps w. induction p as [a|e|r k IH]; intros ps w Hi; simpl.
  - rewrite list_insert_id by done. apply rtc_refl.
  - rewrite list_insert_id by done. apply rtc_refl.
  - destruct (perform h r w) as [o w1] eqn:Hp.
    eapply rtc_l; [by apply (step_ok h)|]. rewrite Hp. simpl.
    assert (Hi' : <[i := k o]> ps !! i = Some (k o)).
    { apply list_lookup_insert_eq. by eapply lookup_lt_Some. }
    pose proof (IH o (<[i := k o]> ps) w1 Hi') as IHo.
    by rewrite list_insert_insert_eq in IHo.
Qed.

(** One interleaving, given by the thread that moves at each step. *)
Definition schedule_step {A} (h : oracle) (c : config A) (i : nat) : config A :=
  match fst c !! i with
  | Some (Do r k) => (<[i := k (fst (perform h r (snd c)))]> (fst c), snd (perform h r (snd c)))
  | _ => c
  end.

Definition schedule {A} (h : oracle) (is_ : list nat) (c : config A) : config A := fold_left (schedule_step h) is_ c.

Lemma schedule_reachable {A} (h : oracle) (is_ : list nat) (c : config A) : reachable c (schedule h is_ c).
Proof.
  revert c. induction is_ as [|i is_ IH]; intros c; [apply rtc_refl|].
  change (schedule h (i :: is_) c) with (schedule h is_ (schedule_step h c i)).
  destruct c as [ps w]. unfold schedule_step. simpl. destruct (ps !! i) as [[a|e|r k]|] eqn:Hi; try apply IH.
  eapply rtc_l; [by apply (step_ok h)|apply IH].
Qed.

(** ** Rely/guarantee judgement *)

Section Safe.
Context {G : Type}.
Variable allowed : G → req → Prop.
Variable next : G → ∀ r : req, outcome E (ans r) → G.

Fixpoint safe {A} (post : G → outcome E A → Prop) (g : G) (p : prog A) : Prop :=
  match p with
  | Ret a => post g (Ok a)
  | Throw e => post g (Err e)
  | Do r k => allowed g r ∧ ∀ o, safe post (next g r o) (k o)
  end.

Lemma safe_mono {A} (post post' : G → outcome E A → Prop) g p :
  (∀ g o, post g o → post' g o) → safe post g p → safe post' g p.
Proof.
  intros Hp. revert g. induction p as [a|e|r k IH]; intros g; simpl; [auto..|].
  intros [Ha Hk]. split; [done|]. intros o. apply IH, Hk.
Qed.

Lemma safe_bind {A B} (post : G → outcome E B → Prop) (mid : G → outcome E A → Prop)
    g (p : prog A) (f : A → prog B) :
  safe mid g p →
  (∀ g a, mid g (Ok a) → safe post g (f a)) →
  (∀ g e, mid g (Err e) → post g (Err e)) →
  safe post g (pbind f p).
Proof.
  intros Hp Hf He. revert g Hp. induction p as [a|e|r k IH]; intros g; simpl; [auto..|].
  intros [Ha Hk]. split; [done|]. intros o. apply IH, Hk.
Qed.

Lemma safe_try {A} (post mid : G → outcome E A → Prop) g (p : prog A) (c : E → prog A) :
  safe mid g p →
  (∀ g a, mid g (Ok a) → post g (Ok a)) →
  (∀ g e, mid g (Err e) → safe post g (c e)) →
  safe post g (ptry c p).
Proof.
  intros Hp Hf He. revert g Hp. induction p as [a|e|r k IH]; intros g; simpl; [auto..|].
  intros [Ha Hk]. split; [done|]. intros o. apply IH, Hk.
Qed.

Lemma safe_request (post : G → ∀ r : req, outcome E (ans r) → Prop) g r :
  allowed g r → (∀ o, post (next g r o) r o) → safe (λ g, post g r) g (request r).
Proof. intros Ha Hp. split; [done|]. intros [a|e]; apply Hp. Qed.

(** The global invariant relates the world to the ghost states of the threads. *)
Variable Inv : world → list G → Prop.
Hypothesis Inv_perform : ∀ h w gs i g r,
  gs !! i = Some g → allowed g r → Inv w gs →
  Inv (snd (perform h r w)) (<[i := next g r (fst (perform h r w))]> gs).
Hypothesis Inv_fail : ∀ h w gs i g r e,
  gs !! i = Some g → allowed g r → Inv w gs →
  Inv w (<[i := next g r (Err e)]> gs) ∧
  Inv (snd (perform h r w)) (<[i := next g r (Err e)]> gs).
Hypothesis Inv_time : ∀ w gs c x, (clock w ≤ c)%Z → Inv w gs → Inv (World (jr w) c x (trace w) (work w)) gs.

(** Each thread of the pool is safe, with a postcondition of its own. *)
Definition all_safe {A} (post : nat → G → outcome E A → Prop) (gs : list G) (ps : list (prog A)) : Prop :=
  length gs = length ps ∧ ∀ i g p, gs !! i = Some g → ps !! i = Some p → safe (post i) g p.

Lemma all_safe_insert {A} (post : nat → G → outcome E A → Prop) gs ps i g p :
  all_safe post gs ps → safe (post i) g p → all_safe post (<[i := g]> gs) (<[i := p]> ps).
Proof.
  intros [Hl Hs] Hp. split; [by rewrite !length_insert|]. intros n g' p' Hg Hp'.
  destruct (decide (i = n)) as [->|Hne].
  - apply list_lookup_insert_Some in Hg as [(_ & <- & _)|[? _]]; [|done].
    apply list_lookup_insert_Some in Hp' as [(_ & <- & _)|[? _]]; [|done]. done.
  - rewrite list_lookup_insert_ne in Hg by done. rewrite list_lookup_insert_ne in Hp' by done.
    by eapply Hs.
Qed.

Lemma pool_safe_step {A} (post : nat → G → outcome E A → Prop) c c' gs :
  pool_step c c' → Inv (snd c) gs → all_safe post gs (fst c) →
  ∃ gs', Inv (snd c') gs' ∧ all_safe post gs' (fst c').
Proof using Inv_fail Inv_perform Inv_time.
  intros Hstep Hinv Hsafe.
  destruct Hstep as [h ps w i r k Hi|e ps w i r k Hi|h e ps w i r k Hi|t x ps w Ht]; simpl in *.
  1-3: assert (∃ g, gs !! i = Some g) as [g Hg]
         by (apply lookup_lt_is_Some; destruct Hsafe as [-> _]; by eapply lookup_lt_Some);
       destruct (proj2 Hsafe i g _ Hg Hi) as [Hal Hk].
  - exists (<[i := next g r (fst (perform h r w))]> gs). split; [by apply Inv_perform|].
    apply all_safe_insert; [done|apply Hk].
  - exists (<[i := next g r (Err e)]> gs). split; [by apply (Inv_fail (λ _ _, Err e))|].
    apply all_safe_insert; [done|apply Hk].
  - exists (<[i := next g r (Err e)]> gs). split; [by apply Inv_fail|]. apply all_safe_insert; [done|apply Hk].
  - exists gs. split; [by apply Inv_time|done].
Qed.

Lemma pool_safe_idx {A} (post : nat → G → outcome E A → Prop) c c' gs :
  reachable c c' → Inv (snd c) gs → all_safe post gs (fst c) →
  ∃ gs', Inv (snd c') gs' ∧ all_safe post gs' (fst c').
Proof using Inv_fail Inv_perform Inv_time.
  intros Hr. revert gs. induction Hr as [c|c1 c2 c3 Hs Hr IH]; intros gs Hinv Hsafe; [eauto|].
  destruct (pool_safe_step post c1 c2 gs Hs Hinv Hsafe) as (gs2 & ? & ?). eauto.
Qed.

(** The common case: one postcondition for all. *)
Lemma pool_safe {A} (post : G → outcome E A → Prop) c c' gs :
  reachable c c' → Inv (snd c) gs → Forall2 (safe post) gs (fst c) →
  ∃ gs', Inv (snd c') gs' ∧ Forall2 (safe post) gs' (fst c').
Proof using Inv_fail Inv_perform Inv_time.
  intros Hr Hinv Hsafe.
  destruct (pool_safe_idx (λ _, post) c c' gs Hr Hinv) as (gs' & Hinv' & Hl & Hs).
  - split; [by eapply Forall2_length|]. intros i g p Hg Hp.
    exact (Forall2_lookup_lr _ _ _ i g p Hsafe Hg Hp).
  - exists gs'. split; [done|]. by apply Forall2_same_length_lookup.
Qed.
End Safe.
End Prog.

Arguments req : clear implicits.
Arguments prog : clear implicits.
Arguments world : clear implicits.
Arguments oracle : clear implicits.
Arguments config : clear implicits.
Arguments Ret {V Q R E A}. Arguments Throw {V Q R E A}. Arguments Do {V Q R E A}.
Arguments RGet {V Q}. Arguments RPut {V Q}. Arguments RPutIfAbsent {V Q}.
Arguments RPutIfMatch {V Q}. Arguments RIncrBy {V Q}. Arguments RGetCounters {V Q}.
Arguments RReadRun {V Q}. Arguments RListKeys {V Q}. Arguments RListRuns {V Q}. Arguments RNow {V Q}. Arguments RDateNow {V Q}.
Arguments RSleep {V Q}. Arguments RExt {V Q}.
Arguments RWAppend {V Q}. Arguments RWList {V Q}. Arguments RWGet {V Q}. Arguments RWPut {V Q}.
Arguments RWAckOnce {V Q}. Arguments RWPutIfMatch {V Q}.

(** Sequencing, as the code writes it with [await]. *)
#[global] Instance prog_ret {V Q R E} : MRet (prog V Q R E) := λ A a, Ret a.
#[global] Instance prog_bind {V Q R E} : MBind (prog V Q R E) := λ A B f p, pbind f p.

(** The journal as a program sees it, with the fallbacks of a journal that lacks an
    optional method. *)
Section JournalCalls.
Context {V : Type} `{!JsValue V} {Q R E : Type}.

Definition jget (k : string) : prog V Q R E (option V) := request (RGet k).
Definition jput (k : string) (v : V) : prog V Q R E unit := request (RPut k v).
Definition jputIfAbsent (k : string) (v : V) : prog V Q R E bool := request (RPutIfAbsent k v).
Definition jputIfMatch (k : string) (e v : V) : prog V Q R E bool := request (RPutIfMatch k e v).
Definition dateNow : prog V Q R E Z := request RDateNow.

(** [journal.now ? await journal.now() : Date.now()]. *)
Definition jnow (caps : journal_caps) : prog V Q R E Z :=
  if has_now caps then request RNow else request RDateNow.
End JournalCalls.

(** ** What one request does, alone *)
Section RunRequests.
Context {V : Type} `{!JsValue V} {Q R E : Type}.
Variable h : oracle Q R E.
Variable w : world V Q.

Lemma run_ret {A} (a : A) : run h (mret a) w = (Ok a, w).
Proof. done. Qed.

Lemma run_rget k : run (A := option V) h (request (RGet k)) w = (Ok (mj_get k (jr w)), w).
Proof. done. Qed.

Lemma run_wlist ns c : run (A := list (log_record V) * option string) h (request (RWList ns c)) w = (Ok (ws_list ns c (work w)), w).
Proof. done. Qed.

Lemma run_wget k : run (A := option V) h (request (RWGet k)) w = (Ok (ws_get k (work w)), w).
Proof. done. Qed.

Lemma run_wput k v : run (A := unit) h (request (RWPut k v)) w = (Ok tt, set_work (ws_put k v (work w)) w).
Proof. done. Qed.

Lemma run_wappend ns v id :
  run (A := string) h (request (RWAppend ns v id)) w = (Ok id, set_work (ws_append (wall w) ns v id (work w)) w).
Proof. done. Qed.

Lemma run_wcas k e v :
  run (A := bool) h (request (RWPutIfMatch k e v)) w =
    (Ok (fst (ws_putIfMatch k e v (work w))), set_work (snd (ws_putIfMatch k e v (work w))) w).
Proof. done. Qed.

Lemma run_dateNow : run (A := Z) h (request RDateNow) w = (Ok (wall w), w).
Proof. done. Qed.
End RunRequests.

Create Rewrite HintDb run_db.
#[export] Hint Rewrite @run_rget @run_wlist @run_wget @run_wput @run_wappend @run_wcas @run_dateNow : run_db.

(** One [await] of a program that runs alone. *)
Ltac run_step := unfold mbind, prog_bind; rewrite run_bind; autorewrite with run_db.

(** ** [try]/[catch]/[finally] around a part of a program *)
Section Catch.
Context {V : Type} `{!JsValue V} {Q R E : Type}.

(** What the program did, as a value. *)
Definition pcatch {A} (p : prog V Q R E A) : prog V Q R E (outcome E A) :=
  ptry (λ e, Ret (Err e)) (pbind (λ a, Ret (Ok a)) p).

Definition pfinally {A} (p : prog V Q R E A) (f : prog V Q R E unit) : prog V Q R E A :=
  pbind (λ o, pbind (λ _, match o with Ok a => Ret a | Err e => Throw e end) f) (pcatch p).

Lemma run_catch {A} (h : oracle Q R E) (p : prog V Q R E A) w :
  run h (pcatch p) w = (Ok (fst (run h p w)), snd (run h p w)).
Proof. unfold pcatch. rewrite run_try, run_bind. by destruct (run h p w) as [[a|e] w']. Qed.

Lemma run_finally {A} (h : oracle Q R E) (p : prog V Q R E A) f w :
  run h (pfinally p f) w =
    let '(o, w1) := run h p w in
    match run h f w1 with
    | (Ok _, w2) => (o, w2)
    | (Err e, w2) => (Err e, w2)
    end.
Proof.
  unfold pfinally. rewrite run_bind, run_catch. destruct (run h p w) as [o w1]. cbn [fst snd].
  rewrite run_bind. destruct (run h f w1) as [[[]|e] w2]; [by destruct o|done].
Qed.
End Catch.
