(* ===== verification/Faults.v ===== *)
(** * Faults: pools whose answers are restricted

    Infrastructure (no source file of its own).  [pool_step] lets every request fail with every
    error and a host answer anything.  Some promises hold only when, say, a storage failure is
    never mistaken for a suspension: [pool_step_in P] keeps the steps whose answers satisfy [P], and
    [pool_safe_in] is the rely/guarantee rule of [Prog] for them. *)

From S2P Require Import Prelude JsMap Keys Journal Work Prog.

Section Faults.
Context {V : Type} `{!JsValue V} {Q R E : Type}.
Abbreviation prog := (prog V Q R E).
Abbreviation world := (world V Q).

(** The answers that may occur. *)
Variable P : ∀ r : req V Q, outcome E (ans (R := R) r) → Prop.

Inductive pool_step_in {A} : list (prog A) * world → list (prog A) * world → Prop :=
| in_ok (h : oracle Q R E) ps w i r k :
    ps !! i = Some (Do r k) → P r (fst (perform h r w)) →
    pool_step_in (ps, w) (<[i := k (fst (perform h r w))]> ps, snd (perform h r w))
| in_fail_before e ps w i r k :
    ps !! i = Some (Do r k) → P r (Err e) →
    pool_step_in (ps, w) (<[i := k (Err e)]> ps, w)
| in_fail_after (h : oracle Q R E) e ps w i r k :
    ps !! i = Some (Do r k) → P r (Err e) →
    pool_step_in (ps, w) (<[i := k (Err e)]> ps, snd (perform h r w))
| in_time c x ps w :
    (clock w ≤ c)%Z →
    pool_step_in (ps, w) (ps, World (jr w) c x (trace w) (work w)).

Definition reachable_in {A} : list (prog A) * world → list (prog A) * world → Prop := rtc pool_step_in.

(** It is a pool of [Prog] with some steps left out. *)
Lemma reachable_in_reachable {A} (c c' : list (prog A) * world) : reachable_in c c' → reachable c c'.
Proof.
  induction 1 as [c|c c1 c' Hs Hr IH]; [apply rtc_refl|]. eapply rtc_l; [|exact IH].
  destruct Hs; [by apply (step_ok h)|by apply step_fail_before|by apply (step_fail_after h)|by apply step_time].
Qed.

(** Do the requests of one interleaving get answers that may occur. *)
Fixpoint answered_in {A} (h : oracle Q R E) (is_ : list nat) (c : list (prog A) * world) : Prop :=
  match is_ with
  | [] => True
  | i :: is_ =>
      match fst c !! i with Some (Do r _) => P r (fst (perform h r (snd c))) | _ => True end ∧
      answered_in h is_ (schedule_step h c i)
  end.

Lemma answered_reachable_in {A} (h : oracle Q R E) (is_ : list nat) (c : list (prog A) * world) :
  answered_in h is_ c → reachable_in c (schedule h is_ c).
Proof.
  revert c. induction is_ as [|i is_ IH]; intros c; [intros _; apply rtc_refl|].
  change (schedule h (i :: is_) c) with (schedule h is_ (schedule_step h c i)). intros [Ha Hs].
  specialize (IH _ Hs). destruct c as [ps w]. unfold schedule_step in *. cbn [fst snd] in *.
  destruct (ps !! i) as [[a|e|r k]|] eqn:Hi; try exact IH. eapply rtc_l; [by apply (in_ok h)|exact IH].
Qed.

(** Every program whose answers happen to be allowed runs in such a pool. *)
Lemma schedule_reachable_in {A} (h : oracle Q R E) (is_ : list nat) (c : list (prog A) * world) :
  (∀ r w, P r (fst (perform h r w))) → reachable_in c (schedule h is_ c).
Proof.
  intros HP. apply answered_reachable_in. revert c. induction is_ as [|i is_ IH]; intros c; [done|]. split; [|apply IH].
  by destruct (fst c !! i) as [[a|e|r k]|].
Qed.

Section Safe.
Context {G : Type}.
Variable allowed : G → req V Q → Prop.
Variable next : G → ∀ r : req V Q, outcome E (ans (R := R) r) → G.

Fixpoint safe_in {A} (post : G → outcome E A → Prop) (g : G) (p : prog A) : Prop :=
  match p with
  | Ret a => post g (Ok a)
  | Throw e => post g (Err e)
  | Do r k => allowed g r ∧ ∀ o, P r o → safe_in post (next g r o) (k o)
  end.

Lemma safe_in_mono {A} (post post' : G → outcome E A → Prop) g p :
  (∀ g o, post g o → post' g o) → safe_in post g p → safe_in post' g p.
Proof.
  intros Hp. revert g. induction p as [a|e|r k IH]; intros g; simpl; [auto..|].
  intros [Ha Hk]. split; [done|]. intros o Ho. by apply IH, Hk.
Qed.

Lemma safe_in_bind {A B} (post : G → outcome E B → Prop) (mid : G → outcome E A → Prop) g (p : prog A) (f : A → prog B) :
  safe_in mid g p →
  (∀ g a, mid g (Ok a) → safe_in post g (f a)) →
  (∀ g e, mid g (Err e) → post g (Err e)) →
  safe_in post g (pbind f p).
Proof.
  intros Hp Hf He. revert g Hp. induction p as [a|e|r k IH]; intros g; simpl; [auto..|].
  intros [Ha Hk]. split; [done|]. intros o Ho. by apply IH, Hk.
Qed.

Lemma safe_in_try {A} (post mid : G → outcome E A → Prop) g (p : prog A) (c : E → prog A) :
  safe_in mid g p →
  (∀ g a, mid g (Ok a) → post g (Ok a)) →
  (∀ g e, mid g (Err e) → safe_in post g (c e)) →
  safe_in post g (ptry c p).
Proof.
  intros Hp Hf He. revert g Hp. induction p as [a|e|r k IH]; intros g; simpl; [auto..|].
  intros [Ha Hk]. split; [done|]. intros o Ho. by apply IH, Hk.
Qed.

Lemma safe_in_catch {A} (post : G → outcome E (outcome E A) → Prop) (mid : G → outcome E A → Prop) g (p : prog A) :
  safe_in mid g p → (∀ g o, mid g o → post g (Ok o)) → safe_in post g (pcatch p).
Proof.
  intros Hp Ho. unfold pcatch. eapply (safe_in_try _ (λ g o, match o with Ok x => post g (Ok x) | Err e => mid g (Err e) end)).
  - eapply safe_in_bind; [exact Hp| |done]. intros g' a Ha. by apply Ho.
  - done.
  - intros g' e He. by apply Ho.
Qed.

Variable Inv : world → list G → Prop.
Hypothesis Inv_perform : ∀ (h : oracle Q R E) w gs i g r,
  gs !! i = Some g → allowed g r → P r (fst (perform h r w)) → Inv w gs →
  Inv (snd (perform h r w)) (<[i := next g r (fst (perform h r w))]> gs).
Hypothesis Inv_fail : ∀ (h : oracle Q R E) w gs i g r e,
  gs !! i = Some g → allowed g r → P r (Err e) → Inv w gs →
  Inv w (<[i := next g r (Err e)]> gs) ∧
  Inv (snd (perform h r w)) (<[i := next g r (Err e)]> gs).
Hypothesis Inv_time : ∀ w gs c x, (clock w ≤ c)%Z → Inv w gs → Inv (World (jr w) c x (trace w) (work w)) gs.

Lemma pool_safe_in_step {A} (post : G → outcome E A → Prop) c c' gs :
  pool_step_in c c' → Inv (snd c) gs → Forall2 (safe_in post) gs (fst c) →
  ∃ gs', Inv (snd c') gs' ∧ Forall2 (safe_in post) gs' (fst c').
Proof using Inv_fail Inv_perform Inv_time.
  intros Hstep Hinv Hsafe.
  destruct Hstep as [h ps w i r k Hi HP|e ps w i r k Hi HP|h e ps w i r k Hi HP|t x ps w Ht]; cbn [fst snd] in *.
  1-3: destruct (Forall2_lookup_r _ _ _ _ _ Hsafe Hi) as (g & Hg & Hal & Hk).
  - exists (<[i := next g r (fst (perform h r w))]> gs). split; [by apply Inv_perform|].
    apply Forall2_lookup_l_insert; [done|by apply Hk].
  - exists (<[i := next g r (Err e)]> gs). split; [by apply (Inv_fail (λ _ _, Err e))|].
    apply Forall2_lookup_l_insert; [done|by apply Hk].
  - exists (<[i := next g r (Err e)]> gs). split; [by apply Inv_fail|]. apply Forall2_lookup_l_insert; [done|by apply Hk].
  - exists gs. split; [by apply Inv_time|done].
Qed.

Lemma pool_safe_in {A} (post : G → outcome E A → Prop) c c' gs :
  reachable_in c c' → Inv (snd c) gs → Forall2 (safe_in post) gs (fst c) →
  ∃ gs', Inv (snd c') gs' ∧ Forall2 (safe_in post) gs' (fst c').
Proof using Inv_fail Inv_perform Inv_time.
  intros Hr. revert gs. induction Hr as [c|c1 c2 c3 Hs Hr IH]; intros gs Hinv Hsafe; [eauto|].
  destruct (pool_safe_in_step post c1 c2 gs Hs Hinv Hsafe) as (gs2 & ? & ?). eauto.
Qed.
End Safe.
End Faults.

(** ** How a request ends *)

Section Ends.
Context {V : Type} `{!JsValue V} {Q R E : Type}.
Abbreviation prog := (prog V Q R E).
Abbreviation world := (world V Q).

(** It reached its target and answered, or failed before or after that. *)
Definition ends (h : oracle Q R E) (r : req V Q) (w : world) (o : outcome E (ans (R := R) r)) (w' : world) : Prop :=
  (w' = snd (perform h r w) ∧ o = fst (perform h r w)) ∨ ((w' = w ∨ w' = snd (perform h r w)) ∧ ∃ e, o = Err e).

Section Pool.
Context {G : Type}.
Variable allowed : G → req V Q → Prop.
Variable next : G → ∀ r : req V Q, outcome E (ans (R := R) r) → G.
Variable Inv : world → list G → Prop.
Hypothesis Inv_time : ∀ w gs c x, (clock w ≤ c)%Z → Inv w gs → Inv (World (jr w) c x (trace w) (work w)) gs.

(** The rule of [Prog] for an invariant that holds however a request ends. *)
Lemma pool_ends {A} (post : G → outcome E A → Prop) c c' gs :
  (∀ h w gs i g r o w', gs !! i = Some g → allowed g r → ends h r w o w' → Inv w gs → Inv w' (<[i := next g r o]> gs)) →
  reachable c c' → Inv (snd c) gs → Forall2 (safe allowed next post) gs (fst c) →
  ∃ gs', Inv (snd c') gs' ∧ Forall2 (safe allowed next post) gs' (fst c').
Proof using Inv_time.
  intros Hends. apply pool_safe; [| |exact Inv_time].
  - intros h w gs1 i g r Hg Hm Hw. eapply Hends; [done..| |done]. left. by split.
  - intros h w gs1 i g r e Hg Hm Hw. split; (eapply (Hends h w); [done..| |done]; right; split; [auto|by exists e]).
Qed.

Lemma pool_ends_in (P : ∀ r : req V Q, outcome E (ans (R := R) r) → Prop) {A} (post : G → outcome E A → Prop) c c' gs :
  (∀ h w gs i g r o w', gs !! i = Some g → allowed g r → P r o → ends h r w o w' → Inv w gs → Inv w' (<[i := next g r o]> gs)) →
  reachable_in P c c' → Inv (snd c) gs → Forall2 (safe_in P allowed next post) gs (fst c) →
  ∃ gs', Inv (snd c') gs' ∧ Forall2 (safe_in P allowed next post) gs' (fst c').
Proof using Inv_time.
  intros Hends. apply pool_safe_in; [| |exact Inv_time].
  - intros h w gs1 i g r Hg Hm HP Hw. eapply Hends; [done..| |done]. left. by split.
  - intros h w gs1 i g r e Hg Hm HP Hw. split; (eapply (Hends h w); [done..| |done]; right; split; [auto|by exists e]).
Qed.
End Pool.
End Ends.

(** ** Programs that make only some requests *)

Section Only.
Context {V : Type} `{!JsValue V} {Q R E : Type}.
Variable ok : req V Q → Prop.
Abbreviation prog := (prog V Q R E).

Fixpoint only {A} (p : prog A) : Prop :=
  match p with
  | Ret _ | Throw _ => True
  | Do r k => ok r ∧ ∀ o, only (k o)
  end.

Lemma only_bind {A B} (p : prog A) (f : A → prog B) : only p → (∀ a, only (f a)) → only (pbind f p).
Proof.
  intros Hp Hf. induction p as [a|e|r k IH]; simpl; [apply Hf|done|]. destruct Hp as [Hr Hk].
  split; [done|]. intros o. apply IH, Hk.
Qed.

Lemma only_try {A} (p : prog A) (c : E → prog A) : only p → (∀ e, only (c e)) → only (ptry c p).
Proof.
  intros Hp Hc. induction p as [a|e|r k IH]; simpl; [done|apply Hc|]. destruct Hp as [Hr Hk].
  split; [done|]. intros o. apply IH, Hk.
Qed.

(** What the program returns, when it does. *)
Fixpoint gives {A} (P : A → Prop) (p : prog A) : Prop :=
  match p with
  | Ret a => P a
  | Throw _ => True
  | Do r k => ∀ o, gives P (k o)
  end.

Lemma gives_bind {A B} (P : A → Prop) (S : B → Prop) (p : prog A) (f : A → prog B) :
  gives P p → (∀ a, P a → gives S (f a)) → gives S (pbind f p).
Proof. intros Hp Hf. induction p as [a|e|r k IH]; simpl; [by apply Hf|done|]. intros o. apply IH, Hp. Qed.

Lemma gives_any {A} (p : prog A) : gives (λ _, True) p.
Proof. induction p as [a|e|r k IH]; simpl; [done..|]. intros o. apply IH. Qed.

Lemma only_request r : ok r → only (request r : prog (ans r)).
Proof. intros Hr. split; [done|]. by intros [a|e]. Qed.
End Only.
