(* ===== verification/Closure.v ===== *)
(** * Closure: functions that share the variables of a closure

    Infrastructure (no source file of its own).  The functions a factory returns share its local
    variables, and an exception does not undo what was assigned before it: the state [S] of the
    closure comes back with every outcome.  [clift] runs a program that leaves the variables alone;
    [cbind] stops at an error, and keeps the state.  The lemmas carry the judgements of [Prog] and
    [Faults] over to such functions. *)

From S2P Require Import Prelude JsMap Keys Journal Work Prog Faults.

Definition closure (S V Q R E A : Type) : Type := S → prog V Q R E (outcome E A * S).

Section Closure.
Context {S V Q R E : Type} `{!JsValue V}.
Abbreviation prog := (prog V Q R E).
Abbreviation closure := (closure S V Q R E).

Definition creturn {A} (a : A) : closure A := λ s, Ret (Ok a, s).
Definition cthrow {A} (e : E) : closure A := λ s, Ret (Err e, s).

Definition cbind {A B} (f : A → closure B) (m : closure A) : closure B := λ s,
  pbind (λ p, match fst p with Ok a => f a (snd p) | Err e => Ret (Err e, snd p) end) (m s).

Definition clift {A} (p : prog A) : closure A := λ s, pbind (λ o, Ret (o, s)) (pcatch p).

(** *** Alone *)

Lemma run_cbind {A B} (h : oracle Q R E) (f : A → closure B) (m : closure A) s w :
  run h (cbind f m s) w =
    match run h (m s) w with
    | (Ok (Ok a, s1), w1) => run h (f a s1) w1
    | (Ok (Err e, s1), w1) => (Ok (Err e, s1), w1)
    | (Err e, w1) => (Err e, w1)
    end.
Proof. unfold cbind. rewrite run_bind. by destruct (run h (m s) w) as [[[[a|e] s1]|e] w1]. Qed.

Lemma run_clift {A} (h : oracle Q R E) (p : prog A) (s : S) w :
  run h (clift p s) w = (Ok (fst (run h p w), s), snd (run h p w)).
Proof. unfold clift. by rewrite run_bind, run_catch. Qed.

(** *** Pools *)

(** The outcome and the state of a function that keeps its promise; it throws nothing, its errors are outcomes. *)
Definition ends_in {G A} (post : G → outcome E A → S → Prop) (g : G) (o : outcome E (outcome E A * S)) : Prop :=
  match o with Ok (x, s) => post g x s | Err _ => True end.

Section Judgements.
Context {G : Type}.
Variable P : ∀ r : req V Q, outcome E (ans (R := R) r) → Prop.
Variable allowed : G → req V Q → Prop.
Variable next : G → ∀ r : req V Q, outcome E (ans (R := R) r) → G.

Lemma safe_in_cbind {A B} (post : G → outcome E B → S → Prop) (mid : G → outcome E A → S → Prop) g s
    (m : closure A) (f : A → closure B) :
  safe_in P allowed next (ends_in mid) g (m s) →
  (∀ g a s, mid g (Ok a) s → safe_in P allowed next (ends_in post) g (f a s)) →
  (∀ g e s, mid g (Err e) s → post g (Err e) s) →
  safe_in P allowed next (ends_in post) g (cbind f m s).
Proof.
  intros Hm Hf He. eapply safe_in_bind; [exact Hm| |by intros].
  intros g1 [[a|e] s1] H1; [by apply Hf|by apply He].
Qed.

Lemma safe_in_clift {A} (post : G → outcome E A → S → Prop) g s (p : prog A) :
  safe_in P allowed next (λ g o, post g o s) g p → safe_in P allowed next (ends_in post) g (clift p s).
Proof.
  intros Hp. eapply (safe_in_bind _ _ _ _ (λ g' o, match o with Ok x => post g' x s | Err _ => True end)); [|done|done].
  eapply safe_in_catch; [exact Hp|done].
Qed.

Lemma safe_in_kept {A} (post : G → outcome E A → Prop) g s (p : prog A) :
  safe_in P allowed next post g p → safe_in P allowed next (ends_in (λ g o s', post g o ∧ s' = s)) g (clift p s).
Proof. intros Hp. apply safe_in_clift. eapply safe_in_mono; [|exact Hp]. by intros g' o Ho. Qed.

Lemma safe_cbind {A B} (post : G → outcome E B → S → Prop) (mid : G → outcome E A → S → Prop) g s
    (m : closure A) (f : A → closure B) :
  safe allowed next (ends_in mid) g (m s) →
  (∀ g a s, mid g (Ok a) s → safe allowed next (ends_in post) g (f a s)) →
  (∀ g e s, mid g (Err e) s → post g (Err e) s) →
  safe allowed next (ends_in post) g (cbind f m s).
Proof.
  intros Hm Hf He. eapply safe_bind; [exact Hm| |by intros].
  intros g1 [[a|e] s1] H1; [by apply Hf|by apply He].
Qed.

Lemma safe_clift {A} (post : G → outcome E A → S → Prop) g s (p : prog A) :
  safe allowed next (λ g o, post g o s) g p → safe allowed next (ends_in post) g (clift p s).
Proof.
  intros Hp. unfold clift, pcatch.
  eapply (safe_bind _ _ _ (λ g' o, match o with Ok x => post g' x s | Err _ => True end)); [|done|done].
  eapply (safe_try _ _ _ (λ g' o, match o with Ok x => post g' x s | Err e => post g' (Err e) s end)); [|done|done].
  eapply safe_bind; [exact Hp|done|done].
Qed.
End Judgements.

Lemma only_cbind {A B} (ok : req V Q → Prop) s (m : closure A) (f : A → closure B) :
  only ok (m s) → (∀ a s, only ok (f a s)) → only ok (cbind f m s).
Proof. intros Hm Hf. apply only_bind; [done|]. intros [[a|e] s1]; [apply Hf|done]. Qed.

Lemma only_catch {A} (ok : req V Q → Prop) (p : prog A) : only ok p → only ok (pcatch p).
Proof. intros Hp. apply only_try; [|done]. by apply only_bind. Qed.

Lemma only_clift {A} (ok : req V Q → Prop) s (p : prog A) : only ok p → only ok (clift (A := A) p s).
Proof. intros Hp. apply only_bind; [by apply only_catch|done]. Qed.
End Closure.

#[global] Instance closure_ret {S V Q R E} : MRet (closure S V Q R E) := λ A a, creturn a.
#[global] Instance closure_bind {S V Q R E} : MBind (closure S V Q R E) := λ A B f m, cbind f m.

(** ** Callers

    Whoever holds the functions calls them in an order of its own, and goes on or stops after an
    error as after an answer. *)

Inductive client (P E A : Type) :=
| Stop
| Ask (params : P) (next : outcome E A → client P E A).
Arguments Stop {P E A}. Arguments Ask {P E A}.

Section Clients.
Context {P E A : Type}.

(** It asks at most [n] times, as long as it is answered. *)
Fixpoint asks_within (n : nat) (c : client P E A) : Prop :=
  match c with
  | Stop => True
  | Ask _ next => match n with 0 => False | S n => ∀ a, asks_within n (next (Ok a)) end
  end.

(** It asks again after an error at most [n] times. *)
Fixpoint retries_within (n : nat) (c : client P E A) : Prop :=
  match c with
  | Stop => True
  | Ask _ next =>
      (∀ a, retries_within n (next (Ok a))) ∧
      ∀ e, next (Err e) = Stop ∨ match n with 0 => False | S n => retries_within n (next (Err e)) end
  end.

(** The answers lead it to its end. *)
Fixpoint follows (c : client P E A) (answers : list A) : Prop :=
  match c, answers with
  | Stop, [] => True
  | Ask _ next, a :: answers => follows (next (Ok a)) answers
  | _, _ => False
  end.

Context {S V Q R : Type} `{!JsValue V}.

(** The answers it was given, each with the state in which it asked. *)
Fixpoint run_client (ask : P → closure S V Q R E A) (c : client P E A) : closure S V Q R E (list (S * A)) := λ s,
  match c with
  | Stop => Ret (Ok [], s)
  | Ask params next =>
      pbind (λ p, pbind (λ q, Ret (match fst p, fst q with Ok a, Ok l => Ok ((s, a) :: l) | _, o => o end, snd q))
                    (run_client ask (next (fst p)) (snd p)))
            (ask params s)
  end.

Lemma only_client (ok : req V Q → Prop) (ask : P → closure S V Q R E A) (c : client P E A) s :
  (∀ params s, only ok (ask params s)) → only ok (run_client ask c s).
Proof.
  intros Hask. revert s. induction c as [|params next IH]; intros s; [done|]. apply only_bind; [apply Hask|].
  intros [o s1]. apply only_bind; [apply IH|done].
Qed.
End Clients.
