(* ===== verification/Claim.v ===== *)
(** * Claim: compare-and-set claims and frozen decisions

    Models [claim], [frozenGet], [ctxGet] and [loadReplayCache] of
    [packages/durable/src/journal.ts].  The two concurrency theorems range over
    every interleaving of any number of callers on one journal, with requests that
    fail before or after taking effect and callers that crash. *)

From S2P Require Import Prelude JsMap Keys Journal Work Prog.

Section Claim.
Context {V : Type} `{!JsValue V} {Q R E : Type}.
Abbreviation prog := (prog V Q R E).

(** Atomic when the journal has [putIfAbsent]; otherwise get, then put. *)
Definition claim (caps : journal_caps) (key : string) (value : V) : prog bool :=
  if has_putIfAbsent caps then jputIfAbsent key value
  else
    cur ← jget key;
    match cur with
    | Some _ => mret false
    | None => _ ← jput key value; mret true
    end.

Section Frozen.
Context {T : Type} (wrap : T → V) (unwrap : V → T) (lost : string → E).

(** [wrap x] is [{ v: x }] and [unwrap] reads the field back. *)
Definition frozenGet (caps : journal_caps) (key : string) (compute : prog T) : prog T :=
  hit ← jget key;
  match hit with
  | Some h => mret (unwrap h)
  | None =>
      v ← compute;
      won ← claim caps key (wrap v);
      if won : bool then mret v
      else
        winner ← jget key;
        match winner with
        | None => Throw (lost key)
        | Some x => mret (unwrap x)
        end
  end.
End Frozen.

(** ** The replay cache: a snapshot of the run's entries, each served once *)

Section ReplayCache.
Variable upgrade : string → V → outcome E V.      (** [upgradeFormat] *)

Definition upgradeKey (key : string) (v : option V) : outcome E (option V) :=
  match v with
  | Some x =>
      if isVersionedKey key then
        match upgrade key x with Ok y => Ok (Some y) | Err e => Err e end
      else Ok (Some x)
  | None => Ok None
  end.

Definition of_outcome {A} (o : outcome E A) : prog A :=
  match o with Ok a => Ret a | Err e => Throw e end.

(** [cache.delete(key)] is an effect on the cache, which is threaded (a throw of the
    format gate ends the run, and the cache with it). *)
Definition ctxGet (cache : option (jsmap V)) (key : string)
    : prog (option V * option (jsmap V)) :=
  match cache with
  | Some m =>
      match mget key m with
      | Some v => x ← of_outcome (upgradeKey key (Some v)); mret (x, Some (mdel key m))
      | None => v ← jget key; x ← of_outcome (upgradeKey key v); mret (x, cache)
      end
  | None => v ← jget key; x ← of_outcome (upgradeKey key v); mret (x, cache)
  end.

Definition REPLAY_CACHE_MAX_BYTES : N := (32 * 1024 * 1024)%N.

(** [bytes] is the answer of [readRunStats]: absent when the adapter has none or
    it failed.  A failing [readRun] gives no cache. *)
Definition loadReplayCache (caps : journal_caps) (runId : string) (bytes : option N)
    (maxBytes : option N) : prog (option (jsmap V)) :=
  if negb (has_readRun caps) then mret None
  else
    let cap := default REPLAY_CACHE_MAX_BYTES maxBytes in
    if match bytes with Some b => (cap <? b)%N | None => false end then mret None
    else ptry (λ _, mret None)
      (entries ← request (RReadRun runId);
       match entries with
       | [] => mret None
       | _ => mret (Some (fold_left (λ m e, mset (je_key e) (je_value e) m) entries []))
       end).
End ReplayCache.
End Claim.

(** ** Which requests can change a key *)

Section Ghost.
Context {V : Type} `{!JsValue V} {Q R E : Type}.

(** A request that may replace or create the record of [key]. *)
Definition overwrites (key : string) (r : req V Q) : bool :=
  match r with
  | RPut k _ | RPutIfMatch k _ _ => String.eqb k key
  | _ => false
  end.

(** No request of the program, whatever the answers, overwrites [key]. *)
Fixpoint never_writes {A} (key : string) (p : prog V Q R E A) : Prop :=
  match p with
  | Ret _ | Throw _ => True
  | Do r k => overwrites key r = false ∧ ∀ o, never_writes key (k o)
  end.

Definition jkey (key : string) (w : world V Q) : option V := mj_get key (jr w).

Lemma perform_jkey (h : oracle Q R E) (r : req V Q) (w : world V Q) (key : string) :
  overwrites key r = false →
  jkey key (snd (perform h r w)) =
    match jkey key w, r with
    | Some v, _ => Some v
    | None, RPutIfAbsent k v => if String.eqb k key then Some v else None
    | None, _ => None
    end.
Proof.
  unfold jkey. destruct r; simpl; intros Hw;
    try (by destruct (mj_get key (jr w))).
  - apply String.eqb_neq in Hw. rewrite mj_get_put_ne by congruence. by destruct (mj_get key (jr w)).
  - rewrite mj_putIfAbsent_spec. destruct (mj_get k (jr w)) as [x|] eqn:Hk; simpl.
    + destruct (mj_get key (jr w)) eqn:Hkey; [done|].
      destruct (String.eqb_spec k key) as [->|]; [congruence|done].
    + unfold mj_get. simpl. fold (mj_get key (jr w)).
      destruct (String.eqb_spec k key) as [->|Hne].
      * rewrite mget_mset. by rewrite Hk.
      * rewrite mget_mset_ne by congruence. fold (mj_get key (jr w)). by destruct (mj_get key (jr w)).
  - apply String.eqb_neq in Hw. rewrite mj_putIfMatch_spec.
    case_bool_decide; simpl; [|by destruct (mj_get key (jr w))].
    unfold mj_get. simpl. rewrite mget_mset_ne by congruence. fold (mj_get key (jr w)).
    by destruct (mj_get key (jr w)).
  - rewrite mj_get_incrBy. by destruct (mj_get key (jr w)).
Qed.

Lemma perform_jkey_keep (h : oracle Q R E) (r : req V Q) (w : world V Q) (key : string) v :
  overwrites key r = false → jkey key w = Some v → jkey key (snd (perform h r w)) = Some v.
Proof. intros Hw Hv. rewrite perform_jkey by done. by rewrite Hv. Qed.

Lemma never_writes_bind {A B} key (p : prog V Q R E A) (f : A → prog V Q R E B) :
  never_writes key p → (∀ a, never_writes key (f a)) → never_writes key (pbind f p).
Proof.
  intros Hp Hf. induction p as [a|e|r k IH]; simpl; [done..|].
  destruct Hp as [Hr Hk]. split; [done|]. intros o. apply IH, Hk.
Qed.

(** *** What the threads know of a key that is written once

    A thread has not looked yet, knows the key is present (a failed
    [putIfAbsent]), or knows its value (it read it, or wrote it by a successful
    [putIfAbsent]).  An answer that contradicts this knowledge never comes. *)

Inductive seen :=
| Unseen
| Present
| Value (v : V)
| Impossible.

Definition learn (key : string) (g : seen) (r : req V Q) : outcome E (ans (R:=R) r) → seen :=
  match r return outcome E (ans (R:=R) r) → seen with
  | RGet k => λ o,
      match o with
      | Ok (Some v) => if String.eqb k key then Value v else g
      | Ok None =>
          if String.eqb k key then match g with Unseen => Unseen | _ => Impossible end else g
      | Err _ => g
      end
  | RPutIfAbsent k v => λ o,
      match o with
      | Ok true => if String.eqb k key then Value v else g
      | Ok false => if String.eqb k key then match g with Unseen => Present | _ => g end else g
      | Err _ => g
      end
  | _ => λ _, g
  end.

Definition knows1 (key : string) (w : world V Q) (g : seen) : Prop :=
  match g with
  | Unseen => True
  | Present => is_Some (jkey key w)
  | Value v => jkey key w = Some v
  | Impossible => False
  end.

Definition knows (key : string) (w : world V Q) (gs : list seen) : Prop := ∀ g, g ∈ gs → knows1 key w g.

Definition may (key : string) (_ : seen) (r : req V Q) : Prop := overwrites key r = false.

Lemma knows1_keep key (h : oracle Q R E) r w g :
  overwrites key r = false → knows1 key w g → knows1 key (snd (perform h r w)) g.
Proof.
  destruct g; simpl; try done.
  - intros Hr [v Hv]. exists v. by apply perform_jkey_keep.
  - apply perform_jkey_keep.
Qed.

Lemma knows1_learn key (h : oracle Q R E) r w g :
  overwrites key r = false → knows1 key w g →
  knows1 key (snd (perform h r w)) (learn key g r (fst (perform h r w))).
Proof.
  intros Hr Hg. pose proof (knows1_keep key h r w g Hr Hg) as Hsame.
  destruct r; try exact Hsame; simpl in *.
  - unfold jkey in *. destruct (mj_get k (jr w)) as [x|] eqn:Hx.
    + destruct (String.eqb_spec k key) as [->|]; [exact Hx|exact Hsame].
    + destruct (String.eqb_spec k key) as [->|]; [|exact Hsame].
      destruct g; simpl in *; unfold jkey in *; try congruence.
      rewrite Hx in Hg. by destruct Hg.
  - destruct (mj_putIfAbsent (wall w) k v (jr w)) as [[] j] eqn:Hp; simpl in *;
      (destruct (String.eqb_spec k key) as [->|]; [|exact Hsame]);
      rewrite mj_putIfAbsent_spec in Hp; destruct (mj_get key (jr w)) eqn:Hk; try done;
      injection Hp as <-.
    + unfold jkey, mj_get. simpl. apply mget_mset.
    + destruct g; try exact Hsame. simpl. unfold jkey. simpl. rewrite Hk. by eexists.
Qed.

Lemma knows_perform key (h : oracle Q R E) w gs i g r :
  gs !! i = Some g → may key g r → knows key w gs →
  knows key (snd (perform h r w)) (<[i := learn key g r (fst (perform h r w))]> gs).
Proof.
  intros Hi Hr Hk g' [->|Hg']%elem_of_insert.
  - apply knows1_learn; [done|]. apply Hk. by eapply list_elem_of_lookup_2.
  - apply knows1_keep; [done|]. by apply Hk.
Qed.

Lemma learn_err key g (r : req V Q) (e : E) : learn key g r (Err e) = g.
Proof. by destruct r. Qed.

Lemma knows_fail key (h : oracle Q R E) w gs i g r (e : E) :
  gs !! i = Some g → may key g r → knows key w gs →
  knows key w (<[i := learn key g r (Err e)]> gs) ∧
  knows key (snd (perform h r w)) (<[i := learn key g r (Err e)]> gs).
Proof.
  intros Hi Hr Hk. rewrite learn_err, list_insert_id by done. split; [done|].
  intros g' Hg'. apply knows1_keep; [done|by apply Hk].
Qed.

(** *** Who won the right to create a key *)

Definition won_next (key : string) (g : bool) (r : req V Q) : outcome E (ans (R:=R) r) → bool :=
  match r return outcome E (ans (R:=R) r) → bool with
  | RPutIfAbsent k _ => λ o,
      match o with Ok true => g || String.eqb k key | _ => g end
  | _ => λ _, g
  end.

(** At most one winner, counting the [before] creations that precede the pool. *)
Definition one_winner (key : string) (before : nat) (w : world V Q) (gs : list bool) : Prop :=
  count_if id gs + before ≤ match jkey key w with Some _ => 1 | None => 0 end.

Definition may_claim (key : string) (g : bool) (r : req V Q) : Prop := overwrites key r = false.

Lemma won_err key g (r : req V Q) (e : E) : won_next key g r (Err e) = g.
Proof. by destruct r. Qed.

Lemma one_winner_mono key n (h : oracle Q R E) r w gs :
  overwrites key r = false → one_winner key n w gs → one_winner key n (snd (perform h r w)) gs.
Proof.
  unfold one_winner. intros Hr Hw. rewrite perform_jkey by done.
  destruct (jkey key w); [done|]. lia.
Qed.

Lemma one_winner_perform key n (h : oracle Q R E) w gs i g r :
  gs !! i = Some g → may_claim key g r → one_winner key n w gs →
  one_winner key n (snd (perform h r w)) (<[i := won_next key g r (fst (perform h r w))]> gs).
Proof.
  intros Hi Hr Hw.
  assert (Hsame : one_winner key n (snd (perform h r w)) (<[i := g]> gs)).
  { rewrite list_insert_id by done. by apply one_winner_mono. }
  destruct r; try exact Hsame. simpl in *.
  destruct (mj_putIfAbsent (wall w) k v (jr w)) as [[] j] eqn:Hp; simpl in *; [|done].
  destruct (String.eqb_spec k key) as [->|]; [|by rewrite orb_false_r].
  rewrite mj_putIfAbsent_spec in Hp. unfold one_winner, jkey in *.
  destruct (mj_get key (jr w)) eqn:Hk; [done|]. injection Hp as <-.
  unfold mj_get. simpl. rewrite mget_mset.
  pose proof (count_if_insert id gs i g (g || true) Hi) as Hc. simpl in Hc.
  rewrite orb_true_r in *. simpl in *. destruct g; simpl in *; lia.
Qed.

Lemma one_winner_fail key n (h : oracle Q R E) w gs i g r (e : E) :
  gs !! i = Some g → may_claim key g r → one_winner key n w gs →
  one_winner key n w (<[i := won_next key g r (Err e)]> gs) ∧
  one_winner key n (snd (perform h r w)) (<[i := won_next key g r (Err e)]> gs).
Proof.
  intros Hi Hr Hk. rewrite won_err, list_insert_id by done. split; [done|]. by apply one_winner_mono.
Qed.
End Ghost.

(** A record that no program of the pool overwrites stays. *)
Lemma never_writes_pool {V Q R E A} `{!JsValue V} (key : string) (v : V)
    (ps ps' : list (prog V Q R E A)) (w w' : world V Q) :
  Forall (never_writes key) ps → jkey key w = Some v →
  reachable (ps, w) (ps', w') → jkey key w' = Some v.
Proof.
  intros Hn Hv Hr.
  destruct (pool_safe (R:=R) (E:=E) (λ (_ : unit) r, overwrites key r = false) (λ _ _ _, tt)
    (λ (w : world V Q) _, jkey key w = Some v)) with
    (post := λ (_ : unit) (_ : outcome E A), True) (c := (ps, w)) (c' := (ps', w')) (gs := map (λ _ : prog V Q R E A, tt) ps)
    as (gs' & H & _); [..|exact H]; [| | |done|done|].
  - intros h w1 gs i g r _ Ha H. by apply perform_jkey_keep.
  - intros h w1 gs i g r e _ Ha H. split; [done|by apply perform_jkey_keep].
  - intros w1 gs c x _ H. exact H.
  - simpl. apply Forall2_fmap_l, Forall_Forall2_diag. eapply Forall_impl; [exact Hn|].
    clear. intros p. generalize tt. induction p as [a|e|r k IH]; intros g; simpl; [done..|].
    intros [Hr Hk]. split; [done|]. intros o. by apply IH.
Qed.

(** ** Properties *)

Section ClaimProps.
Context {V : Type} `{!JsValue V} {Q R E : Type}.
Variable caps : journal_caps.
Hypothesis Hcas : has_putIfAbsent caps = true.

Abbreviation safe_k key post g p := (safe (V:=V) (Q:=Q) (R:=R) (E:=E) (may key) (learn key) post g p).
Abbreviation safe_w key post g p := (safe (V:=V) (Q:=Q) (R:=R) (E:=E) (may_claim key) (won_next key) post g p).

Lemma never_writes_safe {A} key (p : prog V Q R E A) g : never_writes key p → safe_k key (λ _ _, True) g p.
Proof.
  revert g. induction p as [a|e|r k IH]; intros g; simpl; [done..|].
  intros [Hr Hk]. split; [done|]. intros o. by apply IH.
Qed.

Lemma never_writes_safe_w {A} key (p : prog V Q R E A) g : never_writes key p → safe_w key (λ _ _, True) g p.
Proof.
  revert g. induction p as [a|e|r k IH]; intros g; simpl; [done..|].
  intros [Hr Hk]. split; [done|]. intros o. by apply IH.
Qed.

Section Frozen.
Context {T : Type} (wrap : T → V) (unwrap : V → T) (lost : string → E).
Hypothesis unwrap_wrap : ∀ t, unwrap (wrap t) = t.

(** What a caller that returned [t] knows: the record holds [t]. *)
Definition frozen_post (g : seen (V:=V)) (o : outcome E T) : Prop :=
  match o with Ok t => g = Impossible ∨ ∃ v, g = Value v ∧ unwrap v = t | Err _ => True end.

Lemma frozenGet_safe key (compute : prog V Q R E T) g :
  never_writes key compute →
  safe_k key frozen_post g (frozenGet wrap unwrap lost caps key compute).
Proof using Hcas unwrap_wrap.
  intros Hn. unfold frozenGet, claim. rewrite Hcas.
  split; [done|]. intros [[h|]|e]; simpl; [| |done].
  - rewrite String.eqb_refl. right. by exists h.
  - eapply safe_bind; [by apply never_writes_safe| |done].
    intros g' v _. split; [done|]. intros [[]|e]; simpl; [| |done].
    + rewrite String.eqb_refl. right. exists (wrap v). by rewrite unwrap_wrap.
    + split; [done|]. intros [[x|]|e]; simpl; [|done..].
      rewrite String.eqb_refl. right. by exists x.
Qed.

(** A frozen decision is agreed on.  Whatever the interleaving of any number
    of concurrent [frozenGet] callers of one key with each other and with other
    programs that do not overwrite the key, and whichever requests fail, all the
    callers that return give the same value, and the record holds it. *)
Theorem frozenGet_agreement (key : string) (computes : list (prog V Q R E T))
    (ps' : list (prog V Q R E T)) (w w' : world V Q) :
  Forall (never_writes key) computes →
  reachable (map (frozenGet wrap unwrap lost caps key) computes, w) (ps', w') →
  ∀ t, Ret t ∈ ps' →
    (∃ v, jkey key w' = Some v ∧ unwrap v = t) ∧
    (∀ t', Ret t' ∈ ps' → t' = t).
Proof using Hcas unwrap_wrap.
  intros Hn Hr.
  destruct (pool_safe (may key) (learn key) (knows key)
    (knows_perform key) (knows_fail key) (λ w gs c x _ H, H)
    frozen_post _ _ (map (λ _, Unseen) computes) Hr) as (gs' & Hk & Hs).
  { simpl. by intros g (? & -> & ?)%list_elem_of_fmap. }
  { simpl. apply Forall2_fmap, Forall_Forall2_diag. eapply Forall_impl; [exact Hn|].
    intros p Hp. by apply frozenGet_safe. }
  simpl in *.
  assert (Hret : ∀ t, Ret t ∈ ps' → ∃ v, jkey key w' = Some v ∧ unwrap v = t).
  { intros t [i Hi]%list_elem_of_lookup.
    destruct (Forall2_lookup_r _ _ _ _ _ Hs Hi) as (g & Hg & Hp).
    pose proof (Hk g (list_elem_of_lookup_2 _ _ _ Hg)) as Hkg.
    destruct Hp as [->|(v & -> & Hv)]; [done|]. by exists v. }
  intros t Ht. split; [by apply Hret|]. intros t' Ht'.
  destruct (Hret _ Ht) as (v & Hv & <-). destruct (Hret _ Ht') as (v' & Hv' & <-). congruence.
Qed.

(** A frozen decision is computed at most once by a caller, and not at all
    once it is recorded: with a record present [frozenGet] returns it, performs no
    request of [compute] and leaves the journal unchanged; with none, the value it
    returns is the computed one and is recorded. *)
Theorem frozenGet_memoizes (key : string) (compute : prog V Q R E T) (h : oracle Q R E) (w : world V Q) :
  match jkey key w with
  | Some v => run h (frozenGet wrap unwrap lost caps key compute) w = (Ok (unwrap v), w)
  | None =>
      ∀ t w1, run h compute w = (Ok t, w1) → jkey key w1 = None →
      ∃ w2, run h (frozenGet wrap unwrap lost caps key compute) w = (Ok t, w2) ∧
            jkey key w2 = Some (wrap t)
  end.
Proof using Hcas.
  unfold frozenGet, claim, jkey. rewrite Hcas. simpl.
  destruct (mj_get key (jr w)) as [v|] eqn:Hv; [done|].
  intros t w1 Hrun Hw1. unfold mbind, prog_bind. rewrite run_bind, Hrun. simpl.
  rewrite mj_putIfAbsent_spec, Hw1. simpl. eexists. split; [done|].
  unfold mj_get. simpl. apply mget_mset.
Qed.
End Frozen.

Lemma claim_safe_w key v g :
  safe_w key (λ g (o : outcome E bool), o = Ok true → g = true) g (claim caps key v).
Proof using Hcas.
  unfold claim. rewrite Hcas. split; [done|].
  intros [[]|e]; simpl; try done. by rewrite String.eqb_refl, orb_true_r.
Qed.

(** A claim is exclusive: of any number of concurrent [claim] calls on one key,
    in any interleaving and with any failures, at most one returns [true], and none
    does when the key already had a record. *)
Theorem claim_exclusive (key : string) (values : list V) (ps' : list (prog V Q R E bool))
    (w w' : world V Q) :
  reachable (map (claim caps key) values, w) (ps', w') →
  count_if (λ p, match p with Ret true => true | _ => false end) ps'
    ≤ match jkey key w with Some _ => 0 | None => 1 end.
Proof using Hcas.
  intros Hr.
  assert (Hc0 : count_if id (map (λ _ : V, false) values) = 0).
  { clear. induction values as [|v vs IH]; [done|]. simpl. by rewrite count_if_cons. }
  destruct (pool_safe (may_claim key) (won_next key)
    (one_winner key (match jkey key w with Some _ => 1 | None => 0 end))
    (one_winner_perform key _) (one_winner_fail key _) (λ w gs c x _ H, H)
    (λ g (o : outcome E bool), o = Ok true → g = true) _ _ (map (λ _, false) values) Hr)
    as (gs' & Hk & Hs).
  - unfold one_winner. rewrite Hc0. simpl. destruct (jkey key w); lia.
  - simpl. apply Forall2_fmap, Forall_Forall2_diag, Forall_true. intros v. by apply claim_safe_w.
  - simpl in *. unfold one_winner in Hk.
    assert (Hle : count_if (λ p, match p with Ret true => true | _ => false end) ps' ≤ count_if id gs').
    { clear -Hs. induction Hs as [|g p gs ps Hp Hs IH]; [done|]. rewrite !count_if_cons.
      destruct p as [[]|e|r k]; simpl in *; try lia. rewrite Hp by done. simpl. lia. }
    destruct (jkey key w), (jkey key w'); lia.
Qed.
End ClaimProps.

Section ClaimWitnesses.
#[local] Existing Instance text_value.
Let h0 : oracle unit unit string := λ _ _, Ok tt.
Let w0 : world string unit := World empty_journal 0 0 [] empty_work.
Let pool : list (prog string unit unit string string) :=
  map (frozenGet id id id full_caps "r:net:0") [Ret "a"; Ret "b"].

Lemma frozenGet_agreement_witness :
  jkey "r:net:0" (snd (run h0 (frozenGet id id id full_caps "r:net:0" (Ret "a")) w0)) = Some "a".
Proof.
  destruct (frozenGet_agreement (Q:=unit) (R:=unit) (E:=string) full_caps eq_refl id id id (λ t, eq_refl)
              "r:net:0" [Ret "a"; Ret "b"] _ w0 _
              ltac:(repeat constructor)
              (reachable_run h0 pool w0 0 _ eq_refl) "a") as [(v & Hv & Hva) _].
  - left.
  - change (v = "a") in Hva. rewrite Hva in Hv. exact Hv.
Defined.

Lemma frozenGet_memoizes_witness :
  let w1 := World (mj_put 0 "r:net:0" "a" empty_journal) 0 0 [] empty_work in
  run h0 (frozenGet id id id full_caps "r:net:0" (Ret "b")) w1 = (Ok "a", w1).
Proof.
  exact (frozenGet_memoizes (Q:=unit) (R:=unit) (E:=string) full_caps eq_refl id id id
           "r:net:0" (Ret "b") h0 (World (mj_put 0 "r:net:0" "a" empty_journal) 0 0 [] empty_work)).
Defined.

Lemma claim_exclusive_witness :
  count_if (λ p, match p with Ret true => true | _ => false end)
    (<[0 := finished (fst (run h0 (claim full_caps "k" "a") w0))]>
       (map (claim (Q:=unit) (R:=unit) (E:=string) full_caps "k") ["a"; "b"])) ≤ 1.
Proof.
  exact (claim_exclusive (Q:=unit) (R:=unit) (E:=string) full_caps eq_refl "k" ["a"; "b"] _ w0 _
           (reachable_run h0 (map (claim full_caps "k") ["a"; "b"]) w0 0 (claim full_caps "k" "a") eq_refl)).
Defined.
End ClaimWitnesses.
