(* ===== verification/Alone.v ===== *)
(** * Alone: what a write leaves

    Infrastructure (no source file of its own): the writes of a program that runs alone on a journal
    with every capability, as a change of one key. *)

From S2P Require Import Prelude JsMap Keys Journal Work Prog Claim.

Section Alone.
Context {V : Type} `{!JsValue V} {Q R E : Type}.
Variable h : oracle Q R E.
Implicit Types w : world V Q.

(** [w'] holds [v] under [key], and is [w] elsewhere. *)
Record wrote (key : string) (v : option V) w w' : Prop := Wrote {
  wr_key : jkey key w' = v;
  wr_others : ∀ k, k ≠ key → jkey k w' = jkey k w;
  wr_trace : trace w' = trace w;
  wr_clock : clock w' = clock w;
  wr_wall : wall w' = wall w;
}.

Lemma wrote_same key w : wrote key (jkey key w) w w.
Proof. by split. Qed.

Lemma wrote_store key v ts cs w : wrote key (Some v) w (set_jr (MemJournal (mset key v (store (jr w))) ts cs) w).
Proof.
  split; [| |done..]; unfold jkey, mj_get; cbn; [apply mget_mset|]. intros k Hk. by rewrite mget_mset_ne.
Qed.

Lemma wrote_trans key v v' w w' w'' : wrote key v w w' → wrote key v' w' w'' → wrote key v' w w''.
Proof.
  intros [? Ho ? ? ?] [? Ho' ? ? ?]. split; try congruence. intros k Hk. by rewrite Ho', Ho.
Qed.

Lemma run_jput_alone key v w : ∃ w', run h (jput key v) w = (Ok tt, w') ∧ wrote key (Some v) w w'.
Proof. eexists. split; [reflexivity|]. apply wrote_store. Qed.

Lemma run_jputIfAbsent key v w :
  ∃ w', run h (jputIfAbsent key v) w = (Ok (bool_decide (jkey key w = None)), w') ∧ wrote key (Some (default v (jkey key w))) w w'.
Proof.
  exists (set_jr (snd (mj_putIfAbsent (wall w) key v (jr w))) w). split.
  - etransitivity; [exact (run_request h (RPutIfAbsent key v) w)|]. cbn [perform]. rewrite mj_putIfAbsent_spec.
    unfold jkey. by destruct (mj_get key (jr w)).
  - rewrite mj_putIfAbsent_spec. fold (jkey key w). destruct (jkey key w) as [u|] eqn:Hu; [|apply wrote_store].
    change (Some (default v (Some u))) with (Some u). rewrite <- Hu. destruct w. apply wrote_same.
Qed.

Lemma run_claim_alone key v w :
  ∃ w', run h (claim full_caps key v) w = (Ok (bool_decide (jkey key w = None)), w') ∧ wrote key (Some (default v (jkey key w))) w w'.
Proof. apply run_jputIfAbsent. Qed.

Lemma run_jputIfMatch key e v w :
  ∃ w', run h (jputIfMatch key e v) w = (Ok (bool_decide (jkey key w = Some e)), w') ∧
    wrote key (if bool_decide (jkey key w = Some e) then Some v else jkey key w) w w'.
Proof.
  exists (set_jr (snd (mj_putIfMatch key e v (jr w))) w). split.
  - etransitivity; [exact (run_request h (RPutIfMatch key e v) w)|]. cbn [perform]. rewrite mj_putIfMatch_spec.
    unfold jkey. by case_bool_decide.
  - rewrite mj_putIfMatch_spec. fold (jkey key w). case_bool_decide; [apply wrote_store|]. destruct w. apply wrote_same.
Qed.
End Alone.
