(* ===== verification/Locks.v ===== *)
(** * Locks: the run lock and the lease

    Models [packages/durable/src/run-lock.ts] ([acquireRunLock], and [renew] and
    [release] of the handle) and [packages/durable/src/lease.ts] ([acquireLease],
    [releaseLease], [readLease]).  The fencing token, a random UUID, is an argument.
    The theorems range over all interleavings of any number of contenders, with
    failing requests, crashed contenders and a monotone storage clock. *)

From S2P Require Import Prelude JsMap Keys Journal Work Prog Claim.

Record lock_record := LockRecord {
  lk_owner : string;
  lk_expires : Z;
  lk_token : string;
}.

(** The handle of an acquisition: what the closures of [mkLock] capture. *)
Record run_lock := RunLock {
  rl_runId : string;
  rl_owner : string;
  rl_token : string;
}.

Record lease := Lease {
  ls_owner : string;
  ls_expiresAt : Z;
}.

Definition lockKey (runId : string) : string := runId +:+ ":lock".

Section RunLock.
Context {V : Type} `{!JsValue V, !Embed lock_record V} {Q R E : Type}.
Abbreviation prog := (prog V Q R E).

(** [cur.expires >= at]: false on a record without [expires]. *)
Definition lock_live (at_ : Z) (cur : V) : bool :=
  match prj cur with Some r => (at_ <=? lk_expires r)%Z | None => false end.

(** [cur.token === token]. *)
Definition lock_token_is (token : string) (cur : V) : bool :=
  match prj cur with Some r => String.eqb (lk_token r) token | None => false end.

Definition acquireRunLock (caps : journal_caps) (runId owner : string) (ttlMs : Z)
    (token : string) (now : option Z) : prog (option run_lock) :=
  let key := lockKey runId in
  at_ ← match now with Some n => mret n | None => jnow caps end;
  let rec := LockRecord owner (at_ + ttlMs) token in
  let lock := RunLock runId owner token in
  won ← claim caps key (inj rec);
  if won : bool then mret (Some lock)
  else
    cur ← jget key;
    match cur with
    | Some c =>
        if lock_live at_ c then mret None
        else if has_putIfMatch caps then
          ok ← jputIfMatch key c (inj rec);
          mret (if ok : bool then Some lock else None)
        else
          _ ← jput key (inj rec); mret (Some lock)
    | None =>
        again ← claim caps key (inj rec);
        mret (if again : bool then Some lock else None)
    end.

Definition lock_renew (caps : journal_caps) (l : run_lock) (ttlMs : Z) : prog bool :=
  let key := lockKey (rl_runId l) in
  cur ← jget key;
  match cur with
  | Some c =>
      if lock_token_is (rl_token l) c then
        at_ ← jnow caps;
        let next := LockRecord (rl_owner l) (at_ + ttlMs) (rl_token l) in
        if has_putIfMatch caps then jputIfMatch key c (inj next)
        else _ ← jput key (inj next); mret true
      else mret false
  | None => mret false
  end.

(** The retry loop of [release]. *)
Fixpoint release_attempts (caps : journal_caps) (l : run_lock) (n : nat) : prog unit :=
  match n with
  | 0 => mret tt
  | S n' =>
      let key := lockKey (rl_runId l) in
      cur ← jget key;
      match cur with
      | Some c =>
          if lock_token_is (rl_token l) c then
            let dead := LockRecord (rl_owner l) 0 (rl_token l) in
            if has_putIfMatch caps then
              ok ← jputIfMatch key c (inj dead);
              if ok : bool then mret tt else release_attempts caps l n'
            else jput key (inj dead)
          else mret tt
      | None => mret tt
      end
  end.

Definition lock_release (caps : journal_caps) (l : run_lock) : prog unit :=
  ptry (λ _, mret tt) (release_attempts caps l 3).
End RunLock.

Section Lease.
Context {V : Type} `{!JsValue V, !Embed lease V} {Q R E : Type}.
Abbreviation prog := (prog V Q R E).

(** [journal.get(key).catch(() => undefined)]. *)
Definition get_or_none (key : string) : prog (option V) := ptry (λ _, mret None) (jget key).

Definition acquireLease (caps : journal_caps) (key owner : string) (ttlMs now : Z) : prog bool :=
  let next := Lease owner (now + ttlMs) in
  cur ← get_or_none key;
  match cur with
  | None => claim caps key (inj next)
  | Some c =>
      match prj c with
      | None => claim caps key (inj next)
      | Some l =>
          if negb (String.eqb (ls_owner l) owner) && (now <? ls_expiresAt l)%Z then mret false
          else if has_putIfMatch caps then jputIfMatch key c (inj next)
          else _ ← jput key (inj next); mret true
      end
  end.

Definition releaseLease (caps : journal_caps) (key owner : string) : prog unit :=
  cur ← get_or_none key;
  match cur with
  | None => mret tt
  | Some c =>
      match prj c with
      | None => mret tt
      | Some l =>
          if String.eqb (ls_owner l) owner then
            if has_putIfMatch caps then _ ← jputIfMatch key c (inj (Lease owner 0)); mret tt
            else jput key (inj (Lease owner 0))
          else mret tt
      end
  end.

Definition readLease (key : string) (now : Z) : prog (option lease) :=
  cur ← get_or_none key;
  mret (match cur with
        | None => None
        | Some c => match prj c with
                    | Some l => if (ls_expiresAt l <=? now)%Z then None else Some l
                    | None => None
                    end
        end).
End Lease.

(** ** The invariant of a run lock under contention *)

Section LockInv.
Context {V : Type} `{!JsValue V, !Embed lock_record V} {Q R E : Type}.
Variable key : string.
Variables start deadline : Z.
(** A live record whose owner takes no part in the pool, if there is one. *)
Variable holder : option lock_record.

(** A contender's ghost state: its last reading of the clock, and whether it holds. *)
Abbreviation lk_ghost := (Z * bool)%type.

Definition good_record (v : V) : Prop :=
  match holder with
  | Some _ => True
  | None => ∃ r, v = inj r ∧ (deadline ≤ lk_expires r)%Z
  end.

Definition may_replace (at_ : Z) (e : V) : Prop :=
  ∀ r, e = inj r → (lk_expires r < at_)%Z ∨
    match holder with Some r0 => lk_token r ≠ lk_token r0 | None => False end.

Definition lk_allowed (g : lk_ghost) (r : req V Q) : Prop :=
  match r with
  | RPut k _ => k ≠ key
  | RSleep _ => False
  | RPutIfAbsent k v => k = key → (start ≤ fst g)%Z → good_record v
  | RPutIfMatch k e v => k = key → (start ≤ fst g)%Z → good_record v ∧ may_replace (fst g) e
  | _ => True
  end.

Definition lk_next (g : lk_ghost) (r : req V Q) : outcome E (ans (R:=R) r) → lk_ghost :=
  match r return outcome E (ans (R:=R) r) → lk_ghost with
  | RNow => λ o, match o with Ok c => (c, snd g) | Err _ => g end
  | RPutIfAbsent k _ => λ o,
      match o with Ok true => (fst g, snd g || String.eqb k key) | _ => g end
  | RPutIfMatch k _ _ => λ o,
      match o with Ok true => (fst g, snd g || String.eqb k key) | _ => g end
  | _ => λ _, g
  end.

Definition held (gs : list lk_ghost) : nat :=
  count_if snd gs + match holder with Some _ => 1 | None => 0 end.

Definition lk_protected (w : world V Q) (r : lock_record) : Prop :=
  jkey key w = Some (inj r) ∧ (deadline ≤ lk_expires r)%Z ∧
  match holder with Some r0 => r = r0 | None => True end.

Definition lk_inv (w : world V Q) (gs : list lk_ghost) : Prop :=
  (∀ g, g ∈ gs → (start ≤ fst g ≤ clock w)%Z) ∧
  ((clock w ≤ deadline)%Z → held gs ≤ 1 ∧ (held gs = 1 → ∃ r, lk_protected w r)).

Lemma perform_clock (h : oracle Q R E) r (w : world V Q) g :
  lk_allowed g r → clock (snd (perform h r w)) = clock w.
Proof. by destruct r. Qed.

(** A protected record survives every allowed request. *)
Lemma protected_kept (h : oracle Q R E) r (w : world V Q) g rec :
  lk_allowed g r → (start ≤ fst g ≤ clock w)%Z → (clock w ≤ deadline)%Z → lk_protected w rec →
  lk_protected (snd (perform h r w)) rec ∧ ∀ o, o = fst (perform h r w) → snd (lk_next g r o) = snd g.
Proof.
  intros Ha Hg Hd (Hk & He & Hh).
  assert (Hp : jkey key (snd (perform h r w)) = Some (inj rec) ∧
               ∀ o, o = fst (perform h r w) → snd (lk_next g r o) = snd g).
  { destruct r; simpl in Ha; try (split; [exact Hk|by intros o ->]).
    - split; [|by intros o ->]. by apply perform_jkey_keep; [apply String.eqb_neq|].
    - split; [by apply perform_jkey_keep|]. intros o ->. simpl. rewrite mj_putIfAbsent_spec.
      unfold jkey in Hk. destruct (mj_get k (jr w)) eqn:Hget; [done|].
      destruct (String.eqb_spec k key) as [->|]; [congruence|]. simpl. by rewrite orb_false_r.
    - destruct (String.eqb_spec k key) as [->|Hne].
      + destruct (Ha eq_refl) as [_ Hr]; [lia|]. simpl. rewrite mj_putIfMatch_spec.
        unfold jkey in Hk. rewrite Hk.
        destruct (bool_decide_reflect (Some (inj (V:=V) rec) = Some expected)) as [Heq|]; simpl.
        * injection Heq as Heq. exfalso. destruct (Hr rec (eq_sym Heq)) as [|Ht]; [lia|].
          destruct holder as [r0|]; [congruence|done].
        * split; [done|]. by intros o ->.
      + split; [apply perform_jkey_keep; [by apply String.eqb_neq|done]|].
        intros o ->. simpl. destruct (String.eqb_spec k key); [done|].
        rewrite mj_putIfMatch_spec. case_bool_decide; simpl; by rewrite ?orb_false_r. }
  destruct Hp as [Hp Ho]. split; [split_and!; done|done].
Qed.

(** A request that makes its caller a holder wrote a good record. *)
Lemma newly_held (h : oracle Q R E) r (w : world V Q) g :
  lk_allowed g r → (start ≤ fst g)%Z → snd g = false → snd (lk_next g r (fst (perform h r w))) = true →
  holder = None → ∃ rec, lk_protected (snd (perform h r w)) rec.
Proof.
  intros Ha Hs Hg Hn Hh. unfold lk_protected, good_record in *.
  destruct r; simpl in Hn; try congruence.
  - simpl in *. rewrite mj_putIfAbsent_spec in Hn |- *.
    destruct (mj_get k (jr w)); simpl in *; [congruence|].
    rewrite Hg in Hn. simpl in Hn. destruct (String.eqb_spec k key) as [->|]; [|done].
    unfold good_record in Ha. rewrite Hh in Ha |- *. destruct (Ha eq_refl Hs) as (rec & -> & Hd). exists rec.
    split_and!; [|done|done]. unfold jkey, mj_get. simpl. apply mget_mset.
  - simpl in *. rewrite mj_putIfMatch_spec in Hn |- *.
    case_bool_decide; simpl in *; [|congruence].
    rewrite Hg in Hn. simpl in Hn. destruct (String.eqb_spec k key) as [->|]; [|done].
    unfold good_record in Ha. rewrite Hh in Ha |- *. destruct (Ha eq_refl Hs) as ((rec & -> & Hd) & _). exists rec.
    split_and!; [|done|done]. unfold jkey, mj_get. simpl. apply mget_mset.
Qed.

Lemma lk_next_clock (h : oracle Q R E) r (w : world V Q) g :
  (start ≤ fst g ≤ clock w)%Z → (start ≤ fst (lk_next g r (fst (perform h r w))) ≤ clock w)%Z.
Proof. intros Hg. destruct r; simpl; repeat case_goal; simpl; lia. Qed.

Lemma lk_inv_perform (h : oracle Q R E) w gs i g r :
  gs !! i = Some g → lk_allowed g r → lk_inv w gs →
  lk_inv (snd (perform h r w)) (<[i := lk_next g r (fst (perform h r w))]> gs).
Proof.
  intros Hi Ha [Ht Hp]. assert (Hg : (start ≤ fst g ≤ clock w)%Z) by (apply Ht; by eapply list_elem_of_lookup_2).
  unfold lk_inv. rewrite (perform_clock h r w g Ha). split.
  { intros x [->|Hx]%elem_of_insert; [by apply lk_next_clock|by apply Ht]. }
  intros Hd. destruct (Hp Hd) as [H1 H2].
  pose proof (count_if_insert snd gs i g (lk_next g r (fst (perform h r w))) Hi) as Hc.
  destruct (decide (held gs = 1)) as [Hone|Hzero].
  - destruct (H2 Hone) as (rec & Hrec).
    destruct (protected_kept h r w g rec Ha Hg Hd Hrec) as [Hrec' Hsnd].
    rewrite (Hsnd _ eq_refl) in Hc. unfold held in *. split; [lia|]. by exists rec.
  - destruct (snd (lk_next g r (fst (perform h r w)))) eqn:Hn, (snd g) eqn:Hsg;
      rewrite ?Hn, ?Hsg in Hc; unfold held in *; try (split; [lia|intros; lia]).
    destruct holder eqn:Hh; [lia|].
    destruct (newly_held h r w g Ha (proj1 Hg) Hsg Hn Hh) as (rec & Hrec).
    split; [lia|]. intros _. by exists rec.
Qed.

Lemma lk_next_err g (r : req V Q) (e : E) : lk_next g r (Err e) = g.
Proof. by destruct r. Qed.

Lemma lk_inv_fail (h : oracle Q R E) w gs i g r (e : E) :
  gs !! i = Some g → lk_allowed g r → lk_inv w gs →
  lk_inv w (<[i := lk_next g r (Err e)]> gs) ∧
  lk_inv (snd (perform h r w)) (<[i := lk_next g r (Err e)]> gs).
Proof.
  intros Hi Ha Hinv. rewrite lk_next_err, list_insert_id by done. split; [done|].
  destruct Hinv as [Ht Hp]. assert (Hg : (start ≤ fst g ≤ clock w)%Z) by (apply Ht; by eapply list_elem_of_lookup_2).
  unfold lk_inv. rewrite (perform_clock h r w g Ha). split; [done|].
  intros Hd. destruct (Hp Hd) as [H1 H2]. split; [done|]. intros Hone.
  destruct (H2 Hone) as (rec & Hrec). exists rec. by apply (protected_kept h r w g).
Qed.

Lemma lk_inv_time w gs c x :
  (clock w ≤ c)%Z → lk_inv w gs → lk_inv (World (jr w) c x (trace w) (work w)) gs.
Proof.
  intros Hc [Ht Hp]. split; simpl.
  - intros g Hg. specialize (Ht g Hg). lia.
  - intros Hd. apply Hp. lia.
Qed.
End LockInv.

(** ** The clients of a run lock *)

Inductive lock_client :=
| CAcquire (owner : string) (ttlMs : Z) (token : string)
| CRenew (l : run_lock) (ttlMs : Z)
| CRelease (l : run_lock).

Definition client_token (c : lock_client) : string :=
  match c with CAcquire _ _ t => t | CRenew l _ | CRelease l => rl_token l end.

Definition client_run (c : lock_client) (runId : string) : Prop :=
  match c with CAcquire _ _ _ => True | CRenew l _ | CRelease l => rl_runId l = runId end.

(** [true]: the client came back holding the lock. *)
Definition client_prog {V Q R E} `{!JsValue V, !Embed lock_record V} (runId : string) (c : lock_client)
    : prog V Q R E bool :=
  match c with
  | CAcquire owner ttl token =>
      l ← acquireRunLock full_caps runId owner ttl token None;
      mret (match l with Some _ => true | None => false end)
  | CRenew l ttl => lock_renew full_caps l ttl
  | CRelease l => _ ← lock_release full_caps l; mret false
  end.

Section LockProps.
Context {V : Type} `{!JsValue V, !Embed lock_record V} {Q R E : Type}.
Variable runId : string.
Abbreviation key := (lockKey runId).

(** The client came back holding only if its ghost state says so. *)
Definition lk_post (g : Z * bool) (o : outcome E bool) : Prop := o = Ok true → snd g = true.

Lemma lock_live_false at_ (r : lock_record) :
  lock_live (V:=V) at_ (inj r) = false → (lk_expires r < at_)%Z.
Proof. unfold lock_live. rewrite prj_inj. intros H. bool_to_prop. lia. Qed.

Lemma acquire_safe start deadline holder owner ttl token g :
  match holder with Some _ => True | None => (deadline ≤ start + ttl)%Z end →
  safe (V:=V) (Q:=Q) (R:=R) (E:=E) (lk_allowed key start deadline holder) (lk_next key) lk_post g
    (client_prog runId (CAcquire owner ttl token)).
Proof.
  intros Hh. unfold lk_post.
  assert (Hgood : ∀ c : Z, (start ≤ c)%Z →
            good_record (V:=V) deadline holder (inj (LockRecord owner (c + ttl) token))).
  { intros c Hc. unfold good_record. destruct holder; [done|]. eexists. split; [done|]. simpl. lia. }
  split; [done|]. intros [c|e]; simpl; [|done].
  split; [auto|]. intros [[]|e]; simpl; [by rewrite String.eqb_refl, orb_true_r| |done].
  split; [done|]. intros [[x|]|e]; simpl; [| |done].
  - destruct (lock_live c x) eqn:Hl; simpl; [done|].
    split. { intros _ Hc. split; [auto|]. intros r ->. left. by apply lock_live_false. }
    intros [[]|e]; simpl; [by rewrite String.eqb_refl, orb_true_r|done..].
  - split; [auto|]. intros [[]|e]; simpl; [by rewrite String.eqb_refl, orb_true_r|done..].
Qed.

Lemma token_is_inj token (r : lock_record) :
  lock_token_is (V:=V) token (inj r) = true → lk_token r = token.
Proof. unfold lock_token_is. rewrite prj_inj. intros H. by bool_to_prop. Qed.

Lemma renew_safe start deadline r0 l ttl g :
  rl_runId l = runId → rl_token l ≠ lk_token r0 →
  safe (V:=V) (Q:=Q) (R:=R) (E:=E) (lk_allowed key start deadline (Some r0)) (lk_next key) lk_post g
    (client_prog runId (CRenew l ttl)).
Proof.
  intros Hr Ht. unfold lk_post. simpl. unfold lock_renew. rewrite Hr.
  split; [done|]. intros [[x|]|e]; simpl; [|done..].
  destruct (lock_token_is (rl_token l) x) eqn:Hx; simpl; [|done].
  split; [done|]. intros [c|e]; simpl; [|done]. split.
  - intros _ _. split; [done|]. intros r ->. apply token_is_inj in Hx. right. congruence.
  - intros [[]|e]; simpl; [by rewrite String.eqb_refl, orb_true_r|done..].
Qed.

Lemma release_safe start deadline r0 l n g :
  rl_runId l = runId → rl_token l ≠ lk_token r0 →
  safe (V:=V) (Q:=Q) (R:=R) (E:=E) (lk_allowed key start deadline (Some r0)) (lk_next key) (λ _ _, True) g
    (release_attempts full_caps l n).
Proof.
  intros Hr Ht. revert g. induction n as [|n IH]; intros g; [done|].
  cbn [release_attempts]. rewrite Hr. split; [done|]. intros [[x|]|e]; simpl; [|done..].
  destruct (lock_token_is (rl_token l) x) eqn:Hx; simpl; [|done]. split.
  - intros _ _. split; [done|]. intros r ->. apply token_is_inj in Hx. right. congruence.
  - intros [[]|e]; simpl; [done|apply IH|done].
Qed.

Lemma foreign_client_safe start deadline r0 c g :
  client_run c runId → client_token c ≠ lk_token r0 →
  safe (V:=V) (Q:=Q) (R:=R) (E:=E) (lk_allowed key start deadline (Some r0)) (lk_next key) lk_post g
    (client_prog runId c).
Proof.
  destruct c as [owner ttl token|l ttl|l]; intros Hr Ht.
  - by apply acquire_safe.
  - by apply renew_safe.
  - eapply safe_bind with (mid := λ _ _, True); [|intros g' [] _; simpl; unfold lk_post; done|done].
    eapply safe_try with (mid := λ _ _, True); [by apply (release_safe _ _ r0)|done|done].
Qed.

Lemma all_safe start deadline holder cs (w : world V Q) :
  (∀ c g, c ∈ cs → safe (V:=V) (Q:=Q) (R:=R) (E:=E) (lk_allowed key start deadline holder) (lk_next key) lk_post g (client_prog runId c)) →
  Forall2 (safe (V:=V) (Q:=Q) (R:=R) (E:=E) (lk_allowed key start deadline holder) (lk_next key) lk_post)
    (map (λ _, (start, false)) cs) (map (client_prog runId) cs).
Proof.
  intros H. apply Forall2_fmap, Forall_Forall2_diag, Forall_forall. intros c Hc. by apply H.
Qed.

Lemma none_held (cs : list lock_client) start : count_if snd (map (λ _, (start : Z, false)) cs) = 0.
Proof. induction cs; [done|]. simpl. by rewrite count_if_cons. Qed.

Lemma holders_counted start deadline holder gs ps :
  Forall2 (safe (V:=V) (Q:=Q) (R:=R) (E:=E) (lk_allowed key start deadline holder) (lk_next key) lk_post) gs ps →
  count_if (λ p, match p with Ret true => true | _ => false end) ps ≤ count_if snd gs.
Proof.
  intros Hs. induction Hs as [|g p gs ps Hp Hs IH]; [done|]. rewrite !count_if_cons.
  destruct p as [[]|e|r k]; simpl in *; try lia. unfold lk_post in Hp. rewrite Hp by done. lia.
Qed.

(** A live run lock is untouchable.  While the lock record of a run has not
    expired on the storage clock, no other client, acquiring, renewing or releasing
    under another fencing token, in any number, interleaving or failure, changes the
    record or comes back holding the lock. *)
Theorem live_lock_untouched (cs : list lock_client) (r : lock_record)
    (ps' : list (prog V Q R E bool)) (w w' : world V Q) :
  Forall (λ c, client_run c runId ∧ client_token c ≠ lk_token r) cs →
  jkey key w = Some (inj r) →
  reachable (map (client_prog runId) cs, w) (ps', w') →
  (clock w' ≤ lk_expires r)%Z →
  jkey key w' = Some (inj r) ∧ Ret true ∉ ps'.
Proof.
  intros Hcs Hr Hreach Hclock. rewrite Forall_forall in Hcs.
  destruct (pool_safe _ _ (lk_inv key (clock w) (lk_expires r) (Some r))
    (lk_inv_perform key _ _ _) (lk_inv_fail key _ _ _) (lk_inv_time key _ _ _)
    lk_post _ _ (map (λ _, (clock w, false)) cs) Hreach) as (gs' & Hinv & Hs).
  - split.
    + intros g (c & -> & _)%list_elem_of_fmap. simpl. lia.
    + intros _. unfold held. rewrite none_held. split; [lia|]. intros _.
      exists r. split_and!; [done|lia|done].
  - apply all_safe; [exact w|]. intros c g Hc. destruct (Hcs c Hc). by apply foreign_client_safe.
  - simpl in *. pose proof (holders_counted _ _ _ _ _ Hs) as Hcount.
    destruct Hinv as [_ Hp]. destruct (Hp Hclock) as [H1 H2]. unfold held in *. split.
    + destruct H2 as (r' & Hk & _ & ->); [lia|done].
    + intros Hin. apply list_elem_of_lookup in Hin as [i Hi].
      assert (Hz : count_if (λ p, match p with Ret true => true | _ => false end) ps' = 0) by lia.
      by specialize (proj1 (count_if_0 _ _) Hz (Ret true) ltac:(by eapply list_elem_of_lookup_2)).
Qed.

(** C29: mutual exclusion of a run lock.  Of any number of workers that race for a
    lock in any state (free, expired, corrupt or live), with distinct or equal owners,
    at most one comes back holding it until the shortest of their TTLs has passed on
    the storage clock: a takeover within that time would displace a live lock. *)
Theorem run_lock_mutual_exclusion (cs : list lock_client) (ttl : Z)
    (ps' : list (prog V Q R E bool)) (w w' : world V Q) :
  Forall (λ c, match c with CAcquire _ t _ => (ttl ≤ t)%Z | _ => False end) cs →
  reachable (map (client_prog runId) cs, w) (ps', w') →
  (clock w' ≤ clock w + ttl)%Z →
  count_if (λ p, match p with Ret true => true | _ => false end) ps' ≤ 1.
Proof.
  intros Hcs Hreach Hclock. rewrite Forall_forall in Hcs.
  destruct (pool_safe _ _ (lk_inv key (clock w) (clock w + ttl) None)
    (lk_inv_perform key _ _ _) (lk_inv_fail key _ _ _) (lk_inv_time key _ _ _)
    lk_post _ _ (map (λ _, (clock w, false)) cs) Hreach) as (gs' & Hinv & Hs).
  - split.
    + intros g (c & -> & _)%list_elem_of_fmap. simpl. lia.
    + intros _. unfold held. rewrite none_held. split; lia.
  - apply all_safe; [exact w|]. intros c g Hc. specialize (Hcs c Hc).
    destruct c as [owner t token| |]; [|done..]. apply acquire_safe. lia.
  - simpl in *. pose proof (holders_counted _ _ _ _ _ Hs) as Hcount.
    destruct Hinv as [_ Hp]. destruct (Hp Hclock) as [H1 _]. unfold held in *. lia.
Qed.
End LockProps.

(** ** The lock alone, and the lease *)

Section LockAlone.
Context {V : Type} `{!JsValue V, !Embed lock_record V} {Q R E : Type}.

Lemma mj_get_set (k : string) (v : V) s t c : mj_get k (MemJournal (mset k v s) t c) = Some v.
Proof. unfold mj_get. simpl. apply mget_mset. Qed.

(** What one acquisition does, alone: a live record refuses it and stays; a free
    key, an expired record or a corrupt one is taken, with the caller's owner, token and
    an expiry [ttl] after the storage clock. *)
Theorem acquireRunLock_outcome (runId owner token : string) (ttl : Z) (h : oracle Q R E) (w : world V Q) :
  let '(o, w') := run h (acquireRunLock full_caps runId owner ttl token None) w in
  let live := match jkey (lockKey runId) w with Some c => lock_live (clock w) c | None => false end in
  clock w' = clock w ∧
  if live then o = Ok None ∧ w' = w
  else o = Ok (Some (RunLock runId owner token)) ∧
       jkey (lockKey runId) w' = Some (inj (LockRecord owner (clock w + ttl) token)).
Proof.
  unfold acquireRunLock, jkey. simpl. rewrite mj_putIfAbsent_spec.
  destruct (mj_get (lockKey runId) (jr w)) as [c|] eqn:Hc; simpl.
  - rewrite Hc. destruct (lock_live (clock w) c) eqn:Hl; simpl.
    + split; [done|]. split; [done|]. by destruct w.
    + rewrite mj_putIfMatch_spec, bool_decide_eq_true_2 by done. simpl.
      split_and!; [done..|apply mj_get_set].
  - split_and!; [done..|apply mj_get_set].
Qed.

(** The owner's [release] frees the lock at once: with no contention, the next
    acquisition succeeds whatever the TTL of the released lock was. *)
Theorem release_frees (runId owner token owner' token' : string) (ttl ttl' : Z) (r : lock_record)
    (h : oracle Q R E) (w : world V Q) :
  (0 < clock w)%Z → jkey (lockKey runId) w = Some (inj r) → lk_token r = token →
  let '(o, w1) := run h (lock_release full_caps (RunLock runId owner token)) w in
  o = Ok tt ∧
  fst (run h (acquireRunLock full_caps runId owner' ttl' token' None) w1)
    = Ok (Some (RunLock runId owner' token')).
Proof.
  intros Hclk Hk Ht.
  destruct (run h (lock_release full_caps (RunLock runId owner token)) w) as [o w1] eqn:Hrun.
  assert (Hw1 : o = Ok tt ∧ clock w1 = clock w ∧ jkey (lockKey runId) w1 = Some (inj (LockRecord owner 0 token))).
  { unfold lock_release in Hrun. unfold jkey in *. simpl in Hrun. rewrite Hk in Hrun. unfold lock_token_is in Hrun.
    rewrite prj_inj, Ht, String.eqb_refl in Hrun. simpl in Hrun.
    rewrite mj_putIfMatch_spec, bool_decide_eq_true_2 in Hrun by done. simpl in Hrun.
    injection Hrun as <- <-. split_and!; [done..|apply mj_get_set]. }
  destruct Hw1 as (-> & Hc & Hk1). split; [done|].
  pose proof (acquireRunLock_outcome runId owner' token' ttl' h w1) as H.
  destruct (run h (acquireRunLock full_caps runId owner' ttl' token' None) w1) as [o2 w2]. simpl.
  destruct H as [_ H]. rewrite Hk1 in H. unfold lock_live in H. rewrite prj_inj in H. simpl in H.
  rewrite (proj2 (Z.leb_gt _ _)) in H by lia. apply H.
Qed.
End LockAlone.

Section LeaseProps.
Context {V : Type} `{!JsValue V, !Embed lease V} {Q R E : Type}.
Variable key : string.

Inductive lease_client :=
| LAcquire (owner : string) (ttlMs now : Z)
| LRelease (owner : string).

Definition lease_prog (c : lease_client) : prog V Q R E bool :=
  match c with
  | LAcquire owner ttl now => acquireLease full_caps key owner ttl now
  | LRelease owner => _ ← releaseLease full_caps key owner; mret false
  end.

(** A contender that sees [l] as another owner's live lease. *)
Definition lease_foreign (l : lease) (c : lease_client) : Prop :=
  match c with
  | LAcquire owner _ now => owner ≠ ls_owner l ∧ (now < ls_expiresAt l)%Z
  | LRelease owner => owner ≠ ls_owner l
  end.

Definition ls_allowed (l : lease) (_ : bool) (r : req V Q) : Prop :=
  match r with
  | RPut k _ => k ≠ key
  | RPutIfMatch k e _ => k = key → e ≠ inj l
  | _ => True
  end.

Definition ls_next (g : bool) (r : req V Q) : outcome E (ans (R:=R) r) → bool :=
  match r return outcome E (ans (R:=R) r) → bool with
  | RPutIfAbsent k _ | RPutIfMatch k _ _ => λ o,
      match o with Ok true => g || String.eqb k key | _ => g end
  | _ => λ _, g
  end.

Definition ls_inv (l : lease) (w : world V Q) (gs : list bool) : Prop :=
  jkey key w = Some (inj l) ∧ ∀ g, g ∈ gs → g = false.

Lemma ls_keeps (h : oracle Q R E) l r w g :
  ls_allowed l g r → jkey key w = Some (inj l) → jkey key (snd (perform h r w)) = Some (inj l).
Proof.
  intros Ha Hk. destruct r; simpl in Ha; try exact Hk.
  - apply perform_jkey_keep; [by apply String.eqb_neq|done].
  - by apply perform_jkey_keep.
  - destruct (String.eqb_spec k key) as [->|Hne].
    + simpl. rewrite mj_putIfMatch_spec. unfold jkey in Hk. rewrite bool_decide_eq_false_2; [done|].
      rewrite Hk. intros [= Heq]. by apply Ha.
    + apply perform_jkey_keep; [by apply String.eqb_neq|done].
Qed.

Lemma ls_next_keeps (h : oracle Q R E) l r w g :
  ls_allowed l g r → jkey key w = Some (inj l) → ls_next g r (fst (perform h r w)) = g.
Proof.
  unfold jkey. intros Ha Hk. destruct r; try done; simpl.
  - rewrite mj_putIfAbsent_spec. destruct (String.eqb_spec k key) as [->|].
    + by rewrite Hk.
    + rewrite orb_false_r. by destruct (fst _).
  - rewrite mj_putIfMatch_spec. destruct (String.eqb_spec k key) as [->|].
    + rewrite Hk, bool_decide_eq_false_2; [done|]. intros [= Heq]. by apply Ha.
    + rewrite orb_false_r. by destruct (fst _).
Qed.

Lemma ls_next_err g (r : req V Q) (e : E) : ls_next g r (Err e) = g.
Proof. by destruct r. Qed.

Definition ls_post (g : bool) (o : outcome E bool) : Prop := o = Ok true → g = true.

Lemma lease_safe l c :
  lease_foreign l c → safe (ls_allowed l) ls_next ls_post false (lease_prog c).
Proof.
  unfold ls_post. destruct c as [owner ttl now|owner]; simpl.
  - intros [Ho Hn]. unfold acquireLease, get_or_none. split; [done|].
    intros [[c|]|e]; simpl; [destruct (prj c) as [l'|] eqn:Hp|..].
    2-4: split; [done|]; intros [[]|e']; simpl; rewrite ?String.eqb_refl; done.
    destruct (negb (String.eqb (ls_owner l') owner) && (now <? ls_expiresAt l')%Z) eqn:Ht; simpl; [done|].
    split; [|rewrite String.eqb_refl; intros [[]|e]; simpl; done].
    intros _ ->. rewrite prj_inj in Hp. injection Hp as <-.
    apply andb_false_iff in Ht as [Ht|Ht]; bool_to_prop; [congruence|lia].
  - intros Ho. unfold releaseLease, get_or_none. split; [done|]. intros [[c|]|e]; simpl; [|done..].
    destruct (prj c) as [l'|] eqn:Hp; simpl; [|done].
    destruct (String.eqb_spec (ls_owner l') owner) as [<-|]; simpl; [|done].
    split; [|intros [[]|e]; simpl; done]. intros _ ->. rewrite prj_inj in Hp. by injection Hp as <-.
Qed.

(** A live lease is not taken from its owner: contenders of other owners that
    read it before its expiry, in any number, interleaving or failure (a failing read
    is taken for an absent lease), all come back empty-handed and leave the lease as
    it was; so does a release by another owner. *)
Theorem live_lease_not_taken (l : lease) (cs : list lease_client)
    (ps' : list (prog V Q R E bool)) (w w' : world V Q) :
  Forall (lease_foreign l) cs →
  jkey key w = Some (inj l) →
  reachable (map lease_prog cs, w) (ps', w') →
  jkey key w' = Some (inj l) ∧ Ret true ∉ ps'.
Proof.
  intros Hcs Hk Hr.
  destruct (pool_safe (ls_allowed l) ls_next (ls_inv l))
    with (post := ls_post) (c := (map lease_prog cs, w)) (c' := (ps', w')) (A := bool)
         (gs := map (λ _ : lease_client, false) cs) as (gs' & [Hk' Hg'] & Hs); [..|done| | |].
  - intros h w1 gs i g r Hi Ha [H1 H2].
    rewrite (ls_next_keeps h l r w1 g), list_insert_id by done.
    split; [by apply (ls_keeps h l r w1 g)|done].
  - intros h w1 gs i g r e Hi Ha [H1 H2]. rewrite ls_next_err, list_insert_id by done.
    split; [done|]. split; [by apply (ls_keeps h l r w1 g)|done].
  - intros w1 gs c x _ H. exact H.
  - split; [done|]. intros g (c & -> & _)%list_elem_of_fmap. done.
  - simpl. apply Forall2_fmap, Forall_Forall2_diag. eapply Forall_impl; [exact Hcs|]. apply lease_safe.
  - split; [done|]. intros [i Hi]%list_elem_of_lookup.
    destruct (Forall2_lookup_r _ _ _ _ _ Hs Hi) as (g & Hg & Hp).
    assert (g = false) as -> by (apply Hg'; by eapply list_elem_of_lookup_2). by specialize (Hp eq_refl).
Qed.
End LeaseProps.

(** ** Examples *)

Inductive lock_value := VLock (r : lock_record) | VLease (l : lease) | VOther.

#[global] Instance lock_record_eq_dec : EqDecision lock_record.
Proof. solve_decision. Defined.
#[global] Instance lease_eq_dec : EqDecision lease.
Proof. solve_decision. Defined.
Definition lock_value_eq_dec : EqDecision lock_value.
Proof. solve_decision. Defined.

Definition lock_value_js : JsValue lock_value := {|
  js_eq_dec := lock_value_eq_dec;
  str_field _ _ := None;
  is_versioned _ := false;
  ser_length _ := 0;
|}.

Definition lock_embed : Embed lock_record lock_value := {|
  inj := VLock;
  prj v := match v with VLock r => Some r | _ => None end;
  prj_inj _ := eq_refl;
|}.

Definition lease_embed : Embed lease lock_value := {|
  inj := VLease;
  prj v := match v with VLease l => Some l | _ => None end;
  prj_inj _ := eq_refl;
|}.

Section LockWitnesses.
#[local] Existing Instances lock_value_js lock_embed lease_embed.
Let h0 : oracle unit unit string := λ _ _, Ok tt.
Let held : lock_record := LockRecord "w1" 50 "t1".
Let w0 : world lock_value unit := World (mj_put 0 "r:lock" (VLock held) empty_journal) 10 10 [] empty_work.
Let w1 : world lock_value unit := World empty_journal 10 10 [] empty_work.
Let wl : world lock_value unit := World (mj_put 0 "lead" (VLease (Lease "w1" 50)) empty_journal) 10 10 [] empty_work.

Lemma live_lock_untouched_witness :
  jkey "r:lock" (snd (run h0 (client_prog "r" (CAcquire "w2" 30 "t2")) w0)) = Some (VLock held).
Proof.
  apply (live_lock_untouched (Q:=unit) (R:=unit) (E:=string) "r" [CAcquire "w2" 30 "t2"] held
           _ w0 _ ltac:(repeat constructor; done) eq_refl
           (reachable_run h0 (map (client_prog "r") [CAcquire "w2" 30 "t2"]) w0 0
              (client_prog "r" (CAcquire "w2" 30 "t2")) eq_refl)).
  vm_compute. discriminate.
Defined.

Lemma run_lock_mutual_exclusion_witness :
  count_if (λ p, match p with Ret true => true | _ => false end)
    (<[0 := finished (fst (run h0 (client_prog "r" (CAcquire "w1" 30 "t1")) w1))]>
      (map (client_prog (Q:=unit) (R:=unit) (E:=string) "r") [CAcquire "w1" 30 "t1"; CAcquire "w2" 30 "t2"])) ≤ 1.
Proof.
  apply (run_lock_mutual_exclusion (Q:=unit) (R:=unit) (E:=string) "r"
           [CAcquire "w1" 30 "t1"; CAcquire "w2" 30 "t2"] 30 _ w1 _
           ltac:(repeat constructor; lia)
           (reachable_run h0 (map (client_prog "r") [CAcquire "w1" 30 "t1"; CAcquire "w2" 30 "t2"]) w1 0
              (client_prog "r" (CAcquire "w1" 30 "t1")) eq_refl)).
  vm_compute. discriminate.
Defined.

Lemma release_frees_witness :
  fst (run h0 (acquireRunLock full_caps "r" "w2" 30 "t2" None)
         (snd (run h0 (lock_release full_caps (RunLock "r" "w1" "t1")) w0)))
    = Ok (Some (RunLock "r" "w2" "t2")).
Proof.
  exact (proj2 (release_frees (Q:=unit) (R:=unit) (E:=string) "r" "w1" "t1" "w2" "t2" 50 30 held h0 w0
           ltac:(reflexivity) eq_refl eq_refl)).
Defined.

Lemma live_lease_not_taken_witness :
  jkey "lead" (snd (run h0 (lease_prog "lead" (LAcquire "w2" 30 20)) wl)) = Some (VLease (Lease "w1" 50)).
Proof.
  apply (live_lease_not_taken (Q:=unit) (R:=unit) (E:=string) "lead" (Lease "w1" 50)
           [LAcquire "w2" 30 20] _ wl _ ltac:(repeat constructor; done) eq_refl
           (reachable_run h0 (map (lease_prog "lead") [LAcquire "w2" 30 20]) wl 0
              (lease_prog "lead" (LAcquire "w2" 30 20)) eq_refl)).
Defined.
End LockWitnesses.
