(* ===== verification/Json.v ===== *)
(** * Json: JSON texts

    [JSON.stringify] on plain JSON values, as [stableStringify] calls it
    ([packages/durable/src/hash.ts]): string escapes, the decimal text of integers,
    arrays and objects in property order.  The text is an injective encoding of the
    value, in any context a value can stand in. *)

From Stdlib Require Import DecimalString DecimalN.
From S2P Require Import Prelude.

#[warnings="-register-all"]
Inductive json :=
| JsNull
| JsBool (b : bool)
| JsNum (z : Z)
| JsStr (s : string)
| JsArr (l : list json)
| JsObj (l : list (string * json)).

(** Induction under the lists. *)
Lemma json_ind' (P : json → Prop) :
  P JsNull → (∀ b, P (JsBool b)) → (∀ z, P (JsNum z)) → (∀ s, P (JsStr s)) →
  (∀ l, Forall P l → P (JsArr l)) →
  (∀ l, Forall (λ kv, P (snd kv)) l → P (JsObj l)) →
  ∀ j, P j.
Proof.
  intros Hnull Hbool Hnum Hstr Harr Hobj.
  fix IH 1. intros [|b|z|s|l|l]; [done|apply Hbool|apply Hnum|apply Hstr|..].
  - apply Harr. induction l as [|x l IHl]; constructor; [apply IH|apply IHl].
  - apply Hobj. induction l as [|[k x] l IHl]; constructor; [apply IH|apply IHl].
Qed.

(** ** Printing *)

Definition hex_digit (n : nat) : Ascii.ascii :=
  Ascii.ascii_of_nat (if n <? 10 then 48 + n else 87 + n).

Definition backslash : Ascii.ascii := "\"%char.
Definition dquote : Ascii.ascii := "034"%char.

Definition escape_char (c : Ascii.ascii) : string :=
  let n := Ascii.nat_of_ascii c in
  if n =? 34 then String backslash (String dquote "")
  else if n =? 92 then String backslash (String backslash "")
  else if n =? 8 then String backslash "b"
  else if n =? 9 then String backslash "t"
  else if n =? 10 then String backslash "n"
  else if n =? 12 then String backslash "f"
  else if n =? 13 then String backslash "r"
  else if n <? 32 then String backslash ("u00" +:+ String (hex_digit (n / 16)) (String (hex_digit (n mod 16)) ""))
  else String c "".

Fixpoint escape (s : string) : string :=
  match s with
  | EmptyString => ""
  | String c s' => escape_char c +:+ escape s'
  end.

Definition quote (s : string) : string := String dquote (escape s +:+ String dquote "").

Definition print_Z (z : Z) : string :=
  match z with
  | Zneg p => String "-" (dec (Npos p))
  | _ => dec (Z.to_N z)
  end.

Fixpoint print (j : json) : string :=
  let fix items (l : list json) : string :=
    match l with
    | [] => "]"
    | x :: l' => "," +:+ print x +:+ items l'
    end in
  let fix fields (l : list (string * json)) : string :=
    match l with
    | [] => "}"
    | (k, x) :: l' => "," +:+ quote k +:+ ":" +:+ print x +:+ fields l'
    end in
  match j with
  | JsNull => "null"
  | JsBool b => if b then "true" else "false"
  | JsNum z => print_Z z
  | JsStr s => quote s
  | JsArr [] => "[]"
  | JsArr (x :: l) => "[" +:+ print x +:+ items l
  | JsObj [] => "{}"
  | JsObj ((k, x) :: l) => "{" +:+ quote k +:+ ":" +:+ print x +:+ fields l
  end.

Fixpoint print_items (l : list json) : string :=
  match l with
  | [] => "]"
  | x :: l' => "," +:+ print x +:+ print_items l'
  end.

Fixpoint print_fields (l : list (string * json)) : string :=
  match l with
  | [] => "}"
  | (k, x) :: l' => "," +:+ quote k +:+ ":" +:+ print x +:+ print_fields l'
  end.

Lemma print_arr_cons x l : print (JsArr (x :: l)) = "[" +:+ print x +:+ print_items l.
Proof. reflexivity. Qed.

Lemma print_obj_cons k x l :
  print (JsObj ((k, x) :: l)) = "{" +:+ quote k +:+ ":" +:+ print x +:+ print_fields l.
Proof. reflexivity. Qed.

(** ** Reading back one escaped character *)

Definition hex_val (c : Ascii.ascii) : nat :=
  let n := Ascii.nat_of_ascii c in if n <? 58 then n - 48 else n - 87.

Definition unescape1 (s : string) : option (Ascii.ascii * string) :=
  match s with
  | EmptyString => None
  | String c s' =>
      if Ascii.eqb c dquote then None
      else if Ascii.eqb c backslash then
        match s' with
        | EmptyString => None
        | String d s2 =>
            let n := Ascii.nat_of_ascii d in
            if n =? 98 then Some (Ascii.ascii_of_nat 8, s2)
            else if n =? 116 then Some (Ascii.ascii_of_nat 9, s2)
            else if n =? 110 then Some (Ascii.ascii_of_nat 10, s2)
            else if n =? 102 then Some (Ascii.ascii_of_nat 12, s2)
            else if n =? 114 then Some (Ascii.ascii_of_nat 13, s2)
            else if n =? 117 then
              match s2 with
              | String _ (String _ (String a (String b s3))) =>
                  Some (Ascii.ascii_of_nat (hex_val a * 16 + hex_val b), s3)
              | _ => None
              end
            else Some (d, s2)
        end
      else Some (c, s')
  end.

Lemma unescape1_escape c s : unescape1 (escape_char c +:+ s) = Some (c, s).
Proof. destruct c as [[] [] [] [] [] [] [] []]; reflexivity. Qed.

Lemma unescape1_quote s : unescape1 (String dquote s) = None.
Proof. done. Qed.

Lemma escape_inj a b r r' :
  escape a +:+ String dquote r = escape b +:+ String dquote r' → a = b ∧ r = r'.
Proof.
  revert b. induction a as [|c a IH]; intros [|d b]; cbn [escape]; rewrite ?str_app_assoc.
  - by intros [= ->].
  - intros H. apply (f_equal unescape1) in H.
    rewrite unescape1_escape in H. discriminate H.
  - intros H. apply (f_equal unescape1) in H.
    rewrite unescape1_escape in H. discriminate H.
  - intros H. apply (f_equal unescape1) in H. rewrite !unescape1_escape in H.
    injection H as -> H. by destruct (IH b H) as [-> ->].
Qed.

Lemma quote_app s r : quote s +:+ r = String dquote (escape s +:+ String dquote r).
Proof. unfold quote. cbn [String.append]. by rewrite str_app_assoc. Qed.

Lemma quote_inj a b r r' : quote a +:+ r = quote b +:+ r' → a = b ∧ r = r'.
Proof. rewrite !quote_app. intros [= H]. by apply escape_inj in H. Qed.

(** ** Numbers *)

(** What can follow a value: nothing, or a delimiter. *)
Definition delim (r : string) : Prop :=
  match r with EmptyString => True | String c _ => is_digit c = false end.

Lemma digits_cut (a b r r' : string) :
  str_exists (λ c, negb (is_digit c)) a = false → str_exists (λ c, negb (is_digit c)) b = false →
  delim r → delim r' → a +:+ r = b +:+ r' → a = b ∧ r = r'.
Proof.
  revert b. induction a as [|c a IH]; intros [|d b] Ha Hb Hr Hr'; simpl in *.
  - done.
  - intros ->. apply orb_false_iff in Hb as [Hd _]. apply negb_false_iff in Hd. congruence.
  - intros <-. apply orb_false_iff in Ha as [Hc _]. apply negb_false_iff in Hc. congruence.
  - intros [= -> H]. apply orb_false_iff in Ha as [_ Ha]. apply orb_false_iff in Hb as [_ Hb].
    by destruct (IH b Ha Hb Hr Hr' H) as [-> ->].
Qed.

Lemma dec_nonempty n : dec n ≠ "".
Proof.
  unfold dec. intros H. destruct (N.to_uint n) eqn:Hu; try discriminate H.
  pose proof (f_equal N.of_uint Hu) as Hn. rewrite DecimalN.Unsigned.of_to in Hn.
  subst n. discriminate Hu.
Qed.

Lemma dec_head n : ∃ c s, dec n = String c s ∧ is_digit c = true.
Proof.
  pose proof (dec_nonempty n). pose proof (dec_digits n) as Hd.
  destruct (dec n) as [|c s]; [done|]. exists c, s. split; [done|].
  simpl in Hd. apply orb_false_iff in Hd as [Hc _]. by apply negb_false_iff in Hc.
Qed.

Lemma print_Z_inj z z' r r' :
  delim r → delim r' → print_Z z +:+ r = print_Z z' +:+ r' → z = z' ∧ r = r'.
Proof.
  intros Hr Hr'.
  assert (Hpos : ∀ n n', dec n +:+ r = dec n' +:+ r' → n = n' ∧ r = r').
  { intros n n' H. apply digits_cut in H as [H ->]; auto using dec_digits. by apply dec_inj in H. }
  assert (Hneg : ∀ n p s, dec n +:+ s ≠ String "-" p).
  { intros n p s. destruct (dec_head n) as (c & t & -> & Hc). simpl. by intros [= -> _]. }
  destruct z as [|p|p], z' as [|p'|p']; cbn [print_Z Z.to_N]; intros H;
    try (by apply Hneg in H); try (symmetry in H; by apply Hneg in H);
    try (apply Hpos in H as [Hn Hrr]; split; [lia|exact Hrr]).
  injection H as H. apply Hpos in H as [Hn Hrr]. split; [lia|exact Hrr].
Qed.

(** ** The text determines the value *)

(** The first character of a value tells its constructor. *)
Definition first_class (c : Ascii.ascii) : nat :=
  if is_digit c || Ascii.eqb c "-" then 2
  else if Ascii.eqb c "n" then 0
  else if Ascii.eqb c "t" then 1
  else if Ascii.eqb c "f" then 6
  else if Ascii.eqb c dquote then 3
  else if Ascii.eqb c "[" then 4
  else 5.

Definition json_class (j : json) : nat :=
  match j with
  | JsNull => 0 | JsBool b => if b then 1 else 6 | JsNum _ => 2 | JsStr _ => 3
  | JsArr _ => 4 | JsObj _ => 5
  end.

Lemma print_head j : ∃ c s, print j = String c s ∧ first_class c = json_class j ∧ c ≠ "]"%char ∧ c ≠ ","%char.
Proof.
  destruct j as [|[]|z|s|[|x l]|[|[k x] l]]; try (by eexists _, _; split; [reflexivity|done]).
  destruct z as [|p|p].
  - by eexists _, _; split; [reflexivity|done].
  - destruct (dec_head (Npos p)) as (c & s & Hd & Hc). exists c, s. split; [exact Hd|].
    unfold first_class. rewrite Hc. split; [done|]. by split; intros ->.
  - by eexists _, _; split; [reflexivity|done].
Qed.

Lemma print_class j j' r r' : print j +:+ r = print j' +:+ r' → json_class j = json_class j'.
Proof.
  destruct (print_head j) as (c & s & -> & <- & _), (print_head j') as (c' & s' & -> & <- & _).
  by intros [= -> _].
Qed.

Lemma delim_items l r : delim (print_items l +:+ r).
Proof. by destruct l. Qed.

Lemma delim_fields l r : delim (print_fields l +:+ r).
Proof. by destruct l as [|[]]. Qed.

(** What the induction says of each element. *)
Definition print_unique (j : json) : Prop :=
  ∀ j' r r', delim r → delim r' → print j +:+ r = print j' +:+ r' → j = j' ∧ r = r'.

Lemma print_items_inj l : Forall print_unique l →
  ∀ l' r r', print_items l +:+ r = print_items l' +:+ r' → l = l' ∧ r = r'.
Proof.
  induction 1 as [|x l Hx Hl IH]; intros [|y l'] r r' H; cbn [print_items] in H; rewrite ?str_app_assoc in H.
  - by injection H as ->.
  - done.
  - done.
  - apply str_app_inj_l in H. apply Hx in H as [-> H]; [|apply delim_items..].
    by apply IH in H as [-> ->].
Qed.

Lemma print_fields_inj l : Forall (λ kv, print_unique (snd kv)) l →
  ∀ l' r r', print_fields l +:+ r = print_fields l' +:+ r' → l = l' ∧ r = r'.
Proof.
  induction 1 as [|[k x] l Hx Hl IH]; intros [|[k' y] l'] r r' H; cbn [print_fields] in H;
    rewrite ?str_app_assoc in H.
  - by injection H as ->.
  - done.
  - done.
  - apply str_app_inj_l in H. apply quote_inj in H as [-> H]. apply str_app_inj_l in H.
    cbn [snd] in Hx. apply Hx in H as [-> H]; [|apply delim_fields..]. by apply IH in H as [-> ->].
Qed.

Lemma print_inj_gen j : print_unique j.
Proof.
  induction j as [|b|z|s|l IH|l IH] using json_ind';
    intros j' r r' Hr Hr' H; pose proof (print_class _ _ _ _ H) as Hc;
    destruct j' as [|b'|z'|s'|l'|l']; simpl in Hc; try discriminate Hc;
    try (by destruct b); try (by destruct b').
  - by injection H as ->.
  - destruct b, b'; try discriminate Hc; by injection H as ->.
  - by apply print_Z_inj in H as [-> ->].
  - by apply quote_inj in H as [-> ->].
  - destruct IH as [|x l Hx Hl], l' as [|y l']; rewrite ?print_arr_cons, ?str_app_assoc in H.
    + by injection H as ->.
    + exfalso. injection H as H. destruct (print_head y) as (c & s & Hy & _ & Hb & _).
      rewrite Hy in H. simpl in H. congruence.
    + exfalso. injection H as H. destruct (print_head x) as (c & s & Hy & _ & Hb & _).
      rewrite Hy in H. simpl in H. congruence.
    + apply str_app_inj_l in H. apply Hx in H as [-> H]; [|apply delim_items..].
      by apply (print_items_inj l Hl) in H as [-> ->].
  - destruct IH as [|[k x] l Hx Hl], l' as [|[k' y] l']; rewrite ?print_obj_cons, ?str_app_assoc in H.
    + by injection H as ->.
    + done.
    + done.
    + apply str_app_inj_l in H. apply quote_inj in H as [-> H]. apply str_app_inj_l in H.
      cbn [snd] in Hx. apply Hx in H as [-> H]; [|apply delim_fields..].
      by apply (print_fields_inj l Hl) in H as [-> ->].
Qed.

Lemma print_inj j j' : print j = print j' → j = j'.
Proof.
  intros H. apply (print_inj_gen j j' "" ""); [done..|]. by rewrite !str_app_nil_r.
Qed.

#[global] Instance json_eq_dec : EqDecision json.
Proof.
  intros a b. destruct (decide (print a = print b)) as [H|H].
  - left. by apply print_inj.
  - right. congruence.
Defined.
