(* ===== verification/Hash.v ===== *)
(** * Hash: deterministic serialization and run identities

    Models [packages/durable/src/hash.ts]: [stableStringify] with its tags, key
    escapes and sorting, [serializeForHash]/[argsHash], and the derived run ids
    ([workDigest], [derivedRunId], [executionRunId], [forkRunId],
    [parseDerivedRunId]).  SHA-256 and Unicode NFC are parameters.

    A JavaScript value is a tree: the cycle guard and the error path of [sortKeys]
    are not modelled, nor are non-integer numbers.  [sortKeys] is fused with what
    [JSON.stringify] does to its result: [None] is a value without JSON form
    ([undefined], a function or a symbol), dropped from objects and [null] in
    arrays. *)

From Stdlib Require Import DecimalString DecimalN.
From stdpp Require Import sorting.
From S2P Require Import Prelude JsMap Json.

(** ** Values *)

#[warnings="-register-all"]
Inductive js :=
| JUndef
| JOpaque (typeof : string)                (** a function or a symbol *)
| JNull
| JBool (b : bool)
| JNum (z : Z)
| JNonFinite (text : string)               (** ["NaN"], ["Infinity"], ["-Infinity"] *)
| JBigInt (z : Z)
| JStr (s : string)
| JDate (iso : option string)              (** [None]: an invalid date *)
| JRegExp (source flags : string)
| JURL (href : string)
| JSearchParams (l : list (string * string))
| JMap (l : list (js * js))
| JSet (l : list js)
| JToJSON (result : js)                    (** an object whose [toJSON] returns [result] *)
| JArr (l : list js)
| JObj (l : list (string * js)).

Definition NUL : Ascii.ascii := "000"%char.
Definition TAG : string := String NUL "gnl:".

Definition tagged (type : string) (payload : json) : option json := Some (JsObj [(TAG +:+ type, payload)]).

Definition escapeKey (key : string) : string :=
  match key with
  | String c _ => if Ascii.eqb c NUL then String NUL key else key
  | EmptyString => key
  end.

(** [String(JSON.stringify(value))]. *)
Definition sortToken (v : option json) : string :=
  match v with Some j => print j | None => "undefined" end.

Definition or_null (v : option json) : json := default JsNull v.

(** Member order: by token, and for the pairs of a [Map] by the second token when
    the first ones agree. *)
Definition token_le (a b : option json) : Prop := String.le (sortToken a) (sortToken b).

Definition entry_le (a b : option json * option json) : Prop :=
  if String.eqb (sortToken (fst a)) (sortToken (fst b))
  then token_le (snd a) (snd b) else token_le (fst a) (fst b).

Definition key_le {A} (a b : string * A) : Prop := String.le (fst a) (fst b).

#[global] Instance token_le_dec : RelDecision token_le.
Proof. intros a b. unfold token_le. apply _. Defined.
#[global] Instance entry_le_dec : RelDecision entry_le.
Proof. intros a b. unfold entry_le. destruct (String.eqb _ _); apply _. Defined.
#[global] Instance key_le_dec {A} : RelDecision (@key_le A).
Proof. intros a b. unfold key_le. apply _. Defined.

(** Property order of a JavaScript object: array indices in increasing order, then
    the other keys in order of creation. *)
Definition is_index (k : string) : bool :=
  match undec k with
  | Some n => String.eqb (dec n) k && (n <? 4294967295)%N
  | None => false
  end.

Definition index_le {A} (a b : string * A) : Prop :=
  (default 0 (undec (fst a)) ≤ default 0 (undec (fst b)))%N.
#[global] Instance index_le_dec {A} : RelDecision (@index_le A).
Proof. intros a b. unfold index_le. apply _. Defined.

Definition own_order {A} (l : list (string * A)) : list (string * A) :=
  merge_sort index_le (filter (λ kv, is_index (fst kv) = true) l)
  ++ filter (λ kv, is_index (fst kv) = false) l.

(** The [reduce] that rebuilds an object: a later duplicate key wins. *)
Definition rebuild (l : list (string * option json)) : list (string * json) :=
  omap (λ '(k, v), pair k <$> v)
    (own_order (fold_left (λ acc '(k, v), mset k v acc) (merge_sort key_le l) [])).

Section Hash.
Variable nfc : string → string.          (** [s.normalize('NFC')] *)

Fixpoint sortKeys (v : js) : option json :=
  match v with
  | JUndef | JOpaque _ => None
  | JNull => Some JsNull
  | JBool b => Some (JsBool b)
  | JNum z => Some (JsNum z)
  | JNonFinite t => tagged "Number" (JsStr t)
  | JBigInt z => tagged "BigInt" (JsStr (print_Z z))
  | JStr s => Some (JsStr (nfc s))
  | JDate o => tagged "Date" (JsStr (default "Invalid Date" o))
  | JRegExp s f => tagged "RegExp" (JsArr [JsStr s; JsStr f])
  | JURL h => tagged "URL" (JsStr h)
  | JSearchParams l =>
      tagged "URLSearchParams" (JsArr (map (λ '(k, x), JsArr [JsStr k; JsStr x]) l))
  | JMap l =>
      let entries := map (λ '(k, x), (sortKeys k, sortKeys x)) l in
      tagged "Map"
        (JsArr (map (λ '(k, x), JsArr [or_null k; or_null x]) (merge_sort entry_le entries)))
  | JSet l => tagged "Set" (JsArr (map or_null (merge_sort token_le (map sortKeys l))))
  | JToJSON r => sortKeys r
  | JArr l => Some (JsArr (map (λ x, or_null (sortKeys x)) l))
  | JObj l => Some (JsObj (rebuild (map (λ '(k, x), (escapeKey (nfc k), sortKeys x)) l)))
  end.

Definition stableStringify (v : js) : option string := print <$> sortKeys v.

(** What [createHash] is fed, or a [TypeError]. *)
Definition serializeForHash (v : js) : outcome string string :=
  match stableStringify v with
  | Some s => Ok s
  | None =>
      match v with
      | JUndef => Ok (TAG +:+ "undefined")
      | JOpaque ty => Err ty
      | _ => Err "object"
      end
  end.

Variable sha256 : string → string.       (** the hex digest *)

Definition argsHash (v : js) : outcome string string :=
  match serializeForHash v with
  | Ok s => Ok (String.substring 0 16 (sha256 s))
  | Err e => Err e
  end.

Definition opt_js (o : option js) : js := default JUndef o.

Definition rawInputFingerprint (prompt messages system : option js) : outcome string string :=
  argsHash (JObj [("prompt", opt_js prompt); ("messages", opt_js messages); ("system", opt_js system)]).

(** ** Identities of work *)

Inductive work_scope_kind := ScopeResource | ScopeOrg.

Definition scope_kind_name (k : work_scope_kind) : string :=
  match k with ScopeResource => "resource" | ScopeOrg => "org" end.

Definition WORKKEY_DST : string := "gnl.run.v1".
Definition MAX_WORK_KEY_LENGTH : nat := 2048.
Definition DERIVED_RUN_ID_PREFIX : string := "run1_".

Inductive id_error :=
| EmptyField (field : string)
| WorkKeyTooLong
| BaseHasAxis
| NotDerived
| BadNumber (n : N).

Definition workKeyHash (workKey : string) : string := String.substring 0 16 (sha256 workKey).

Definition rejectEmpty (field value : string) : outcome id_error unit :=
  if String.eqb value "" then Err (EmptyField field) else Ok tt.

Definition work_tuple (agentName : string) (k : work_scope_kind) (scopeValue workKey : string) : js :=
  JArr [JStr WORKKEY_DST; JStr agentName; JStr (scope_kind_name k); JStr scopeValue; JStr workKey].

Definition workDigest (agentName : string) (k : work_scope_kind) (scopeValue workKey : string)
    : outcome id_error string :=
  match rejectEmpty "agentName" agentName with
  | Err e => Err e
  | Ok _ =>
  match rejectEmpty "scopeValue" scopeValue with
  | Err e => Err e
  | Ok _ =>
  match rejectEmpty "workKey" workKey with
  | Err e => Err e
  | Ok _ =>
      if MAX_WORK_KEY_LENGTH <? String.length workKey then Err WorkKeyTooLong
      else Ok (String.substring 0 32
                 (sha256 (default "" (stableStringify (work_tuple agentName k scopeValue workKey)))))
  end end end.

Definition derivedRunId (agentName : string) (k : work_scope_kind) (scopeValue workKey : string)
    : outcome id_error string :=
  match workDigest agentName k scopeValue workKey with
  | Ok d => Ok (DERIVED_RUN_ID_PREFIX +:+ d)
  | Err e => Err e
  end.
End Hash.

(** ** The spelling of derived run ids *)

Definition all_dec (s : string) : bool := negb (str_exists (λ c, negb (is_digit c)) s).

Definition digit_from (lo : nat) (c : Ascii.ascii) : bool :=
  let n := Ascii.nat_of_ascii c in (48 + lo <=? n) && (n <=? 57).

(** [[1-9]\d*]. *)
Definition pos_spelling (s : string) : bool :=
  match s with String c t => digit_from 1 c && all_dec t | EmptyString => false end.

(** [[2-9]\d*|[1-9]\d+]. *)
Definition exec_spelling (s : string) : bool :=
  match s with
  | String c t => (digit_from 2 c && all_dec t) || (digit_from 1 c && all_dec t && negb (String.eqb t ""))
  | EmptyString => false
  end.

(** [0|[1-9]\d*]. *)
Definition replay_spelling (s : string) : bool := String.eqb s "0" || pos_spelling s.

Record derived_parts := DerivedParts {
  dp_digest : string;
  dp_execution : option N;
  dp_replaySeq : option N;
  dp_fork : option N;
}.

Definition is_lhex (c : Ascii.ascii) : bool :=
  let n := Ascii.nat_of_ascii c in is_digit c || ((97 <=? n) && (n <=? 102)).

(** [[0-9a-f]{n}], and what follows. *)
Fixpoint take_hex (n : nat) (s : string) : option (string * string) :=
  match n, s with
  | 0, _ => Some ("", s)
  | S n', String c s' =>
      if is_lhex c then
        match take_hex n' s' with Some (a, b) => Some (String c a, b) | None => None end
      else None
  | S _, EmptyString => None
  end.

Definition parseDerivedRunId (runId : string) : option derived_parts :=
  match strip_prefix DERIVED_RUN_ID_PREFIX runId with
  | None => None
  | Some r =>
      match take_hex 32 r with
      | None => None
      | Some (d, rest) =>
          if String.eqb rest "" then Some (DerivedParts d None None None)
          else match strip_prefix "#replay-" rest with
          | Some q => if replay_spelling q then Some (DerivedParts d None (undec q) None) else None
          | None =>
              match strip_prefix "#fork-" rest with
              | Some q => if pos_spelling q then Some (DerivedParts d None None (undec q)) else None
              | None =>
                  match strip_prefix "#" rest with
                  | Some q => if exec_spelling q then Some (DerivedParts d (undec q) None None) else None
                  | None => None
                  end
              end
          end
      end
  end.

Definition isDerivedRunId (runId : string) : bool :=
  match parseDerivedRunId runId with Some _ => true | None => false end.

Definition has_axis (s : string) : bool := has_char "#"%char s.

(** Numbers are the exact integers of JavaScript (below 2^53). *)
Definition executionRunId (base : string) (n : N) : outcome id_error string :=
  if has_axis base then Err BaseHasAxis
  else if negb (isDerivedRunId base) then Err NotDerived
  else if (n <? 2)%N then Err (BadNumber n)
  else Ok (base +:+ "#" +:+ dec n).

Definition forkRunId (base : string) (n : N) : outcome id_error string :=
  if has_axis base then Err BaseHasAxis
  else if negb (isDerivedRunId base) then Err NotDerived
  else if (n <? 1)%N then Err (BadNumber n)
  else Ok (base +:+ "#fork-" +:+ dec n).

Definition derivedRunIdBase (runId : string) : option string :=
  p ← parseDerivedRunId runId; Some (DERIVED_RUN_ID_PREFIX +:+ dp_digest p).

(** ** Lemmas: sorting *)

Lemma sortToken_inj a b : sortToken a = sortToken b → a = b.
Proof.
  assert (Hu : ∀ j, print j ≠ "undefined").
  { intros j H. destruct j as [|[]|[|p|p]|s|[|x l]|[|[k x] l]]; try discriminate H.
    simpl in H. destruct (dec_head (Npos p)) as (c & t & Hd & Hc). rewrite Hd in H.
    injection H as -> _. discriminate Hc. }
  destruct a as [j|], b as [j'|]; simpl; intros H; [|by destruct (Hu j)|by destruct (Hu j')|done].
  by apply print_inj in H as ->.
Qed.

#[global] Instance token_le_trans : Transitive token_le.
Proof. intros a b c. unfold token_le. apply transitivity. Qed.
#[global] Instance token_le_total : Total token_le.
Proof. intros a b. unfold token_le. apply (total String.le). Qed.
#[global] Instance token_le_antisym : AntiSymm (=) token_le.
Proof. intros a b H1 H2. apply sortToken_inj. by apply (anti_symm String.le). Qed.

#[global] Instance key_le_trans {A} : Transitive (@key_le A).
Proof. intros a b c. unfold key_le. apply transitivity. Qed.
#[global] Instance key_le_total {A} : Total (@key_le A).
Proof. intros a b. unfold key_le. apply (total String.le). Qed.

Lemma entry_le_alt a b :
  entry_le a b ↔ (fst a = fst b ∧ token_le (snd a) (snd b)) ∨ (fst a ≠ fst b ∧ token_le (fst a) (fst b)).
Proof.
  unfold entry_le. destruct (String.eqb_spec (sortToken (fst a)) (sortToken (fst b))) as [Heq|Hne].
  - apply sortToken_inj in Heq. split; [by left|by intros [[_ ?]|[? _]]].
  - assert (fst a ≠ fst b) by congruence. split; [by right|by intros [[? _]|[_ ?]]].
Qed.

#[global] Instance entry_le_trans : Transitive entry_le.
Proof.
  intros a b c. rewrite !entry_le_alt. intros [[H1 H1']|[H1 H1']] [[H2 H2']|[H2 H2']].
  - left. split; [congruence|by etrans].
  - right. rewrite H1. done.
  - right. rewrite <- H2. done.
  - right. split; [|by etrans]. intros Heq. apply H1. rewrite Heq in H1' |- *. by apply (anti_symm token_le).
Qed.
#[global] Instance entry_le_total : Total entry_le.
Proof.
  intros a b. rewrite !entry_le_alt. destruct (decide (fst a = fst b)) as [Heq|Hne].
  - destruct (total token_le (snd a) (snd b)); eauto.
  - destruct (total token_le (fst a) (fst b)); [eauto|]. right. right. split; [congruence|done].
Qed.
#[global] Instance entry_le_antisym : AntiSymm (=) entry_le.
Proof.
  intros [a1 a2] [b1 b2]. rewrite !entry_le_alt. simpl.
  intros [[H1 H1']|[H1 H1']] [[H2 H2']|[H2 H2']]; try congruence.
  - subst. f_equal. by apply (anti_symm token_le).
  - exfalso. apply H1. by apply (anti_symm token_le).
Qed.

Lemma merge_sort_perm_eq {A} (Rel : relation A) `{!RelDecision Rel, !Transitive Rel, !Total Rel} (l l' : list A) :
  l ≡ₚ l' → (∀ x y, x ∈ l → y ∈ l → Rel x y → Rel y x → x = y) →
  merge_sort Rel l = merge_sort Rel l'.
Proof.
  intros Hp Ha. apply (Sorted_unique_strong Rel); [|apply (Sorted_merge_sort Rel)|apply (Sorted_merge_sort Rel)|].
  - intros x y Hx Hy. rewrite merge_sort_Permutation in Hx, Hy. rewrite <- Hp in Hy. by apply Ha.
  - by rewrite !merge_sort_Permutation.
Qed.

Lemma merge_sort_perm_total {A} (Rel : relation A)
    `{!RelDecision Rel, !Transitive Rel, !Total Rel, !AntiSymm (=) Rel} (l l' : list A) :
  l ≡ₚ l' → merge_sort Rel l = merge_sort Rel l'.
Proof. intros Hp. apply (merge_sort_perm_eq Rel); [done|]. intros x y _ _. apply (anti_symm Rel). Qed.

Lemma rebuild_perm (l l' : list (string * option json)) :
  NoDup (map fst l) → l ≡ₚ l' → rebuild l = rebuild l'.
Proof.
  intros Hn Hp. unfold rebuild. do 3 f_equal. apply (merge_sort_perm_eq key_le); [done|].
  intros [k v] [k' v'] Hx Hy Hle Hle'.
  assert (k = k') as <- by (by apply (anti_symm String.le)).
  pose proof (mget_In k v l Hn Hx) as E1. pose proof (mget_In k v' l Hn Hy) as E2. congruence.
Qed.

Lemma escapeKey_inj a b : escapeKey a = escapeKey b → a = b.
Proof.
  unfold escapeKey. destruct a as [|c a], b as [|d b]; try done.
  - by destruct (Ascii.eqb d NUL).
  - by destruct (Ascii.eqb c NUL).
  - destruct (Ascii.eqb_spec c NUL) as [->|Hc], (Ascii.eqb_spec d NUL) as [->|Hd]; try congruence.
Qed.

Lemma rebuild_keys k j l : (k, j) ∈ rebuild l → k ∈ map fst l.
Proof.
  unfold rebuild. intros ([k' v] & Hin & Hv)%list_elem_of_omap.
  destruct v as [j'|]; [|done]. injection Hv as -> <-.
  assert (Hin' : (k, Some j') ∈ fold_left (λ acc '(k, v), mset k v acc) (merge_sort key_le l) []).
  { unfold own_order in Hin. apply elem_of_app in Hin as [Hin|Hin].
    - rewrite merge_sort_Permutation in Hin. by apply list_elem_of_filter in Hin as [_ ?].
    - by apply list_elem_of_filter in Hin as [_ ?]. }
  assert (Hk : ∀ (es acc : list (string * option json)) e,
    e ∈ fold_left (λ acc '(k, v), mset k v acc) es acc → fst e ∈ mkeys acc ∨ fst e ∈ map fst es).
  { clear. induction es as [|[k v] es IH]; intros acc e He; simpl in *.
    - left. apply list_elem_of_fmap. eauto.
    - apply IH in He as [He|He]; [|right; by right].
      rewrite mkeys_mset in He. destruct (mhas k acc); [by left|].
      apply elem_of_app in He as [He|He%list_elem_of_singleton]; [by left|].
      right. rewrite He. left. }
  apply Hk in Hin' as [Hin'|Hin']; [inversion Hin'|]. simpl in Hin'.
  apply list_elem_of_fmap in Hin' as (e & He & Hin'). rewrite merge_sort_Permutation in Hin'.
  apply list_elem_of_fmap. eauto.
Qed.

(** ** Properties of the serialization *)

(** One rewriting, anywhere in a value, that keeps it the same work: the order of an
    object's keys, of a [Map]'s entries or of a [Set]'s members, and the spelling of a
    text up to NFC. *)
Inductive js_step (nfc : string → string) : js → js → Prop :=
| step_str s s' : nfc s = nfc s' → js_step nfc (JStr s) (JStr s')
| step_obj_perm l l' : NoDup (map (λ kv, nfc (fst kv)) l) → l ≡ₚ l' → js_step nfc (JObj l) (JObj l')
| step_map_perm l l' : l ≡ₚ l' → js_step nfc (JMap l) (JMap l')
| step_set_perm l l' : l ≡ₚ l' → js_step nfc (JSet l) (JSet l')
| step_key k k' x l1 l2 : nfc k = nfc k' → js_step nfc (JObj (l1 ++ (k, x) :: l2)) (JObj (l1 ++ (k', x) :: l2))
| step_field k x y l1 l2 : js_step nfc x y → js_step nfc (JObj (l1 ++ (k, x) :: l2)) (JObj (l1 ++ (k, y) :: l2))
| step_item x y l1 l2 : js_step nfc x y → js_step nfc (JArr (l1 ++ x :: l2)) (JArr (l1 ++ y :: l2))
| step_member x y l1 l2 : js_step nfc x y → js_step nfc (JSet (l1 ++ x :: l2)) (JSet (l1 ++ y :: l2))
| step_map_key x y v l1 l2 : js_step nfc x y → js_step nfc (JMap (l1 ++ (x, v) :: l2)) (JMap (l1 ++ (y, v) :: l2))
| step_map_val k x y l1 l2 : js_step nfc x y → js_step nfc (JMap (l1 ++ (k, x) :: l2)) (JMap (l1 ++ (k, y) :: l2))
| step_toJSON x y : js_step nfc x y → js_step nfc (JToJSON x) (JToJSON y).

(** The built-in whose tag a value carries, through [toJSON]. *)
Fixpoint builtin_tag (v : js) : option string :=
  match v with
  | JNonFinite _ => Some "Number"
  | JBigInt _ => Some "BigInt"
  | JDate _ => Some "Date"
  | JRegExp _ _ => Some "RegExp"
  | JURL _ => Some "URL"
  | JSearchParams _ => Some "URLSearchParams"
  | JMap _ => Some "Map"
  | JSet _ => Some "Set"
  | JToJSON r => builtin_tag r
  | _ => None
  end.

Section HashProps.
Variable nfc : string → string.

Lemma sortKeys_step v v' : js_step nfc v v' → sortKeys nfc v = sortKeys nfc v'.
Proof.
  induction 1 as [s s' H|l l' Hn Hp|l l' Hp|l l' Hp|k k' x l1 l2 H|k x y l1 l2 _ IH|x y l1 l2 _ IH
                 |x y l1 l2 _ IH|x y v l1 l2 _ IH|k x y l1 l2 _ IH|x y _ IH]; cbn [sortKeys].
  - by rewrite H.
  - do 2 f_equal. apply rebuild_perm; [|by apply Permutation_map].
    rewrite map_map.
    assert (E : map (λ x : string * js, fst (let '(k, v) := x in (escapeKey (nfc k), sortKeys nfc v))) l
              = map escapeKey (map (λ kv, nfc (fst kv)) l)).
    { rewrite map_map. apply map_ext. by intros []. }
    rewrite E. apply NoDup_fmap_2; [|done]. intros a b. apply escapeKey_inj.
  - unfold tagged. do 6 f_equal. apply (merge_sort_perm_total entry_le). by apply Permutation_map.
  - unfold tagged. do 6 f_equal. apply (merge_sort_perm_total token_le). by apply Permutation_map.
  - by rewrite !map_app, !map_cons, H.
  - by rewrite !map_app, !map_cons, IH.
  - by rewrite !map_app, !map_cons, IH.
  - by rewrite !map_app, !map_cons, IH.
  - by rewrite !map_app, !map_cons, IH.
  - by rewrite !map_app, !map_cons, IH.
  - done.
Qed.

(** The hash of a value does not depend on how the same value is written: at any
    depth, permuting object keys, [Map] entries or [Set] members, or replacing a text
    or a key by a canonically equivalent one, leaves the serialization unchanged. *)
Theorem stableStringify_stable (v v' : js) :
  rtc (js_step nfc) v v' → stableStringify nfc v = stableStringify nfc v'.
Proof.
  unfold stableStringify. induction 1 as [v|v1 v2 v3 H _ IH]; [done|].
  by rewrite (sortKeys_step _ _ H).
Qed.

Lemma stableStringify_inj v v' :
  stableStringify nfc v = stableStringify nfc v' → sortKeys nfc v = sortKeys nfc v'.
Proof.
  unfold stableStringify. destruct (sortKeys nfc v), (sortKeys nfc v'); simpl; try done.
  intros [= H]. by apply print_inj in H as ->.
Qed.

Lemma builtin_shape v t :
  builtin_tag v = Some t → ∃ p, sortKeys nfc v = tagged t p.
Proof. induction v; intros H; simplify_eq/=; eauto. Qed.

Lemma escapeKey_not_tag k t : escapeKey k ≠ TAG +:+ t.
Proof.
  unfold escapeKey. destruct k as [|c k]; [done|].
  destruct (Ascii.eqb_spec c NUL) as [->|Hc]; unfold TAG; simpl; intros H; [discriminate H|].
  by injection H as -> _.
Qed.

(** The type tags cannot be forged: the built-in type of a value ([Date],
    [Map], [BigInt], a non-finite number...) is determined by its serialization, so no
    plain value, and no object with a key that spells a tag, hashes like a built-in,
    and no two types hash alike. *)
Theorem tags_disjoint (v v' : js) (t : string) :
  builtin_tag v = Some t → stableStringify nfc v = stableStringify nfc v' → builtin_tag v' = Some t.
Proof.
  intros Ht H. apply stableStringify_inj in H.
  destruct (builtin_shape v t Ht) as (p & Hp). rewrite Hp in H. clear v Ht Hp.
  unfold tagged in H. revert H. induction v'; cbn [sortKeys builtin_tag]; intros H; try done;
    try (unfold tagged in H; injection H as H; try apply str_app_inj_l in H; congruence).
  - auto.
  - exfalso. injection H as H.
    assert (Hin : (TAG +:+ t, p) ∈ rebuild (map (λ '(k, x), (escapeKey (nfc k), sortKeys nfc x)) l))
      by (rewrite <- H; left).
    apply rebuild_keys in Hin. rewrite map_map in Hin.
    apply list_elem_of_fmap in Hin as ([k x] & Hk & _). simpl in Hk.
    by apply (escapeKey_not_tag (nfc k) t).
Qed.

(** The preimage of a run identity is an injective encoding of the tuple (agent,
    scope kind, scope, workKey) up to Unicode normalization: no shifted boundary and no
    exchanged field gives two different addresses one identity. *)
Theorem work_tuple_injective (a s w a' s' w' : string) (k k' : work_scope_kind) :
  stableStringify nfc (work_tuple a k s w) = stableStringify nfc (work_tuple a' k' s' w') →
  nfc (scope_kind_name k) = nfc (scope_kind_name k') ∧ nfc a = nfc a' ∧ nfc s = nfc s' ∧ nfc w = nfc w'.
Proof. intros H. apply stableStringify_inj in H. by injection H as -> -> -> ->. Qed.
End HashProps.

(** ** Properties of the derived run ids *)

#[local] Arguments dec : simpl never.
#[local] Arguments undec : simpl never.

Lemma undec_nonzero_canonical c t :
  digit_from 1 c = true → all_dec t = true → ∃ n, undec (String c t) = Some n ∧ dec n = String c t ∧ (1 ≤ n)%N.
Proof.
  intros Hc Ht.
  assert (Hu : ∀ s, all_dec s = true → ∃ u, NilEmpty.uint_of_string s = Some u).
  { clear. intros s. unfold all_dec. rewrite negb_true_iff. induction s as [|c s IH]; simpl; [by eauto|].
    intros [Hc Hs]%orb_false_iff. apply negb_false_iff in Hc. destruct (IH Hs) as (u & Hu). rewrite Hu.
    destruct c as [[] [] [] [] [] [] [] []]; try discriminate Hc; by eauto. }
  assert (Hall : all_dec (String c t) = true).
  { unfold all_dec in *. simpl. rewrite negb_true_iff in *. rewrite Ht, orb_false_r.
    unfold digit_from, is_digit in *. apply negb_false_iff. apply andb_true_iff in Hc as [H1 H2].
    rewrite H2. apply andb_true_iff. split; [|done]. apply Nat.leb_le in H1. apply Nat.leb_le. lia. }
  destruct (Hu _ Hall) as (u & Hu').
  pose proof (NilEmpty.sus _ _ Hu') as Hs.
  exists (N.of_uint u). unfold undec, dec. rewrite Hu'. simpl.
  assert (Hnz : Decimal.unorm u = u).
  { clear -Hs Hc. destruct u; try done. simpl in Hs. injection Hs as <- _. discriminate Hc. }
  split; [done|]. rewrite DecimalN.Unsigned.to_of, Hnz, Hs. split; [done|].
  destruct (N.of_uint u) eqn:E; [|lia]. exfalso.
  assert (Hz : N.to_uint (N.of_uint u) = N.to_uint 0) by (by rewrite E).
  rewrite DecimalN.Unsigned.to_of, Hnz in Hz. rewrite Hz in Hs. simpl in Hs.
  injection Hs as <- _. discriminate Hc.
Qed.

Lemma dec_pos_head n : (1 ≤ n)%N → ∃ c t, dec n = String c t ∧ digit_from 1 c = true ∧ all_dec t = true.
Proof.
  intros Hn. pose proof (dec_digits n) as Hd. unfold all_dec.
  assert (Hu : Decimal.unorm (N.to_uint n) = N.to_uint n).
  { by rewrite <- DecimalN.Unsigned.to_of, DecimalN.Unsigned.of_to. }
  assert (Hz : N.to_uint n ≠ Decimal.D0 Decimal.Nil).
  { intros Hz. apply (f_equal N.of_uint) in Hz. rewrite DecimalN.Unsigned.of_to in Hz. simpl in Hz. lia. }
  unfold dec in *. destruct (N.to_uint n) as [|u|u|u|u|u|u|u|u|u|u] eqn:E; [discriminate Hu| |..].
  2-10: apply orb_false_iff in Hd as [_ Hd]; eexists _, _; split_and!;
          [reflexivity|reflexivity|apply negb_true_iff; exact Hd].
  exfalso. apply Hz. rewrite <- Hu.
  assert (Hlen : ∀ v, Decimal.unorm v = Decimal.D0 u → u = Decimal.Nil).
  { induction v; simpl; intros H; try discriminate H; [by injection H as <-|auto]. }
  rewrite (Hlen _ Hu). done.
Qed.

Lemma exec_spelling_dec n : (2 ≤ n)%N → exec_spelling (dec n) = true.
Proof.
  intros Hn. destruct (dec_pos_head n) as (c & t & Hd & Hc & Ht); [lia|]. rewrite Hd. simpl.
  rewrite Hc, Ht. destruct (String.eqb_spec t "") as [->|]; [|by rewrite orb_true_r].
  destruct (digit_from 2 c) eqn:H2; [done|]. exfalso.
  assert (c = "1"%char) as ->.
  { clear -Hc H2. by destruct c as [[] [] [] [] [] [] [] []]. }
  assert (n = 1%N) by (apply dec_inj; by rewrite Hd). lia.
Qed.

Lemma exec_spelling_sound q : exec_spelling q = true → ∃ n, undec q = Some n ∧ dec n = q ∧ (2 ≤ n)%N.
Proof.
  destruct q as [|c t]; [done|]. simpl. intros H.
  assert (Hct : digit_from 1 c = true ∧ all_dec t = true).
  { apply orb_true_iff in H as [[Hc Ht]%andb_true_iff|H]; bool_to_prop; [|done].
    split; [|done]. by destruct c as [[] [] [] [] [] [] [] []]. }
  destruct Hct as [Hc Ht]. destruct (undec_nonzero_canonical c t Hc Ht) as (n & Hn & Hd & H1).
  exists n. split_and!; [done..|]. destruct (decide (n = 1%N)) as [->|]; [|lia].
  assert (E : String c t = "1") by (by rewrite <- Hd). injection E as -> ->. discriminate H.
Qed.

Lemma pos_spelling_dec n : (1 ≤ n)%N → pos_spelling (dec n) = true.
Proof. intros Hn. destruct (dec_pos_head n Hn) as (c & t & Hd & Hc & Ht). rewrite Hd. simpl. by rewrite Hc, Ht. Qed.

Lemma pos_spelling_sound q : pos_spelling q = true → ∃ n, undec q = Some n ∧ dec n = q ∧ (1 ≤ n)%N.
Proof.
  destruct q as [|c t]; [done|]. simpl. intros [Hc Ht]%andb_true_iff. by apply undec_nonzero_canonical.
Qed.

Lemma replay_spelling_dec n : replay_spelling (dec n) = true.
Proof.
  unfold replay_spelling. destruct (decide (n = 0%N)) as [->|]; [done|].
  rewrite pos_spelling_dec by lia. by rewrite orb_true_r.
Qed.

Lemma replay_spelling_sound q : replay_spelling q = true → ∃ n, undec q = Some n ∧ dec n = q.
Proof.
  unfold replay_spelling. intros [H|H]%orb_true_iff; bool_to_prop; [subst; by exists 0%N|].
  destruct (pos_spelling_sound q H) as (n & ? & ? & _). eauto.
Qed.

(** The one spelling of a parsed id, and when there is one. *)
Definition axis_text (p : derived_parts) : string :=
  match dp_execution p, dp_replaySeq p, dp_fork p with
  | Some n, _, _ => "#" +:+ dec n
  | None, Some n, _ => "#replay-" +:+ dec n
  | None, None, Some n => "#fork-" +:+ dec n
  | None, None, None => ""
  end.

Definition spelling (p : derived_parts) : string := DERIVED_RUN_ID_PREFIX +:+ dp_digest p +:+ axis_text p.

Definition digest_ok (d : string) : Prop := take_hex 32 d = Some (d, "").

Definition parts_ok (p : derived_parts) : Prop :=
  digest_ok (dp_digest p) ∧
  match dp_execution p, dp_replaySeq p, dp_fork p with
  | Some n, None, None => (2 ≤ n)%N
  | None, Some _, None => True
  | None, None, Some n => (1 ≤ n)%N
  | None, None, None => True
  | _, _, _ => False
  end.

Lemma take_hex_app n d s : take_hex n d = Some (d, "") → take_hex n (d +:+ s) = Some (d, s).
Proof.
  revert d. induction n as [|n IH]; intros d; simpl.
  - intros [= <-]. done.
  - destruct d as [|c d]; [done|]. simpl. destruct (is_lhex c); [|done].
    destruct (take_hex n d) as [[a b]|] eqn:H; [|done]. intros [= -> ->]. by rewrite (IH d H).
Qed.

Lemma take_hex_sound n s a b : take_hex n s = Some (a, b) → s = a +:+ b ∧ take_hex n a = Some (a, "").
Proof.
  revert s a b. induction n as [|n IH]; intros s a b; simpl; [by intros [= <- <-]|].
  destruct s as [|c s]; [done|]. destruct (is_lhex c) eqn:Hc; [|done].
  destruct (take_hex n s) as [[x y]|] eqn:H; [|done]. intros [= <- <-].
  destruct (IH _ _ _ H) as [-> Hx]. simpl. by rewrite Hc, Hx.
Qed.

Lemma strip_hash_digit p n : ∃ c t, dec n = String c t ∧ ∀ d, d ≠ c → strip_prefix (String "#" (String d p)) ("#" +:+ dec n) = None.
Proof.
  destruct (dec_head n) as (c & t & -> & Hc). exists c, t. split; [done|].
  intros d Hd. cbn [strip_prefix String.append].
  change (Ascii.eqb "#" "#") with true. by rewrite (proj2 (Ascii.eqb_neq d c) Hd).
Qed.

Lemma parse_spelling p : parts_ok p → parseDerivedRunId (spelling p) = Some p.
Proof.
  destruct p as [d e r f]. unfold parts_ok, spelling, parseDerivedRunId. cbn [dp_digest dp_execution dp_replaySeq dp_fork].
  intros [Hd Hx]. rewrite strip_prefix_app, (take_hex_app _ _ _ Hd).
  unfold axis_text. cbn [dp_execution dp_replaySeq dp_fork].
  destruct e as [n|], r as [n'|], f as [n''|]; try done.
  - assert (Hh : ∀ q c, is_digit c = false → strip_prefix (String "#" (String c q)) ("#" +:+ dec n) = None).
    { intros q c Hq. destruct (strip_hash_digit q n) as (c' & t & Hn & Hs). apply Hs. intros ->.
      destruct (dec_head n) as (x & y & Hdn & Hxd). congruence. }
    rewrite !Hh by done. change (strip_prefix "#" ("#" +:+ dec n)) with (Some (dec n)).
    cbn [String.eqb String.append]. by rewrite exec_spelling_dec, undec_dec.
  - rewrite strip_prefix_app, replay_spelling_dec, undec_dec. done.
  - change (strip_prefix "#replay-" ("#fork-" +:+ dec n'')) with (@None string).
    rewrite strip_prefix_app, pos_spelling_dec, undec_dec by done. done.
Qed.

Lemma parse_sound a p : parseDerivedRunId a = Some p → parts_ok p ∧ a = spelling p.
Proof.
  unfold parseDerivedRunId, parts_ok, spelling, axis_text, digest_ok.
  destruct (strip_prefix DERIVED_RUN_ID_PREFIX a) as [r|] eqn:Hr; [|done].
  apply strip_prefix_Some in Hr as ->.
  destruct (take_hex 32 r) as [[d rest]|] eqn:Hd; [|done]. apply take_hex_sound in Hd as [-> Hd].
  destruct (String.eqb_spec rest "") as [->|]; [intros [= <-]; done|].
  destruct (strip_prefix "#replay-" rest) as [q|] eqn:Hq.
  { apply strip_prefix_Some in Hq as ->. destruct (replay_spelling q) eqn:Hs; [|done].
    destruct (replay_spelling_sound q Hs) as (m & Hm & <-). rewrite Hm. intros [= <-]. done. }
  destruct (strip_prefix "#fork-" rest) as [q|] eqn:Hf.
  { apply strip_prefix_Some in Hf as ->. destruct (pos_spelling q) eqn:Hs; [|done].
    destruct (pos_spelling_sound q Hs) as (m & Hm & <- & ?). rewrite Hm. intros [= <-]. done. }
  destruct (strip_prefix "#" rest) as [q|] eqn:He; [|done].
  apply strip_prefix_Some in He as ->. destruct (exec_spelling q) eqn:Hs; [|done].
  destruct (exec_spelling_sound q Hs) as (m & Hm & <- & ?). rewrite Hm. intros [= <-]. done.
Qed.

(** Derived run ids have one spelling: an id parses to given parts exactly when
    it is the canonical spelling of well-formed parts, so no two ids of the namespace name
    one execution, replay or fork. *)
Theorem derived_id_canonical (a : string) (p : derived_parts) :
  parseDerivedRunId a = Some p ↔ parts_ok p ∧ a = spelling p.
Proof.
  split; [apply parse_sound|]. intros [H ->]. by apply parse_spelling.
Qed.

(** The counted siblings of a derived run parse back to their number and to
    their base, and are never confused with one another: an execution number is at least
    2, a fork number at least 1, and a base that already carries an axis is refused. *)
Theorem sibling_ids_roundtrip (base a : string) (n : N) :
  (executionRunId base n = Ok a →
    derivedRunIdBase a = Some base ∧ (2 ≤ n)%N ∧ parseDerivedRunId base = Some (DerivedParts (dp_digest (default (DerivedParts "" None None None) (parseDerivedRunId a))) None None None) ∧
    (dp_execution <$> parseDerivedRunId a) = Some (Some n)) ∧
  (forkRunId base n = Ok a →
    derivedRunIdBase a = Some base ∧ (1 ≤ n)%N ∧ (dp_fork <$> parseDerivedRunId a) = Some (Some n)) ∧
  (has_axis base = true → executionRunId base n = Err BaseHasAxis ∧ forkRunId base n = Err BaseHasAxis).
Proof.
  assert (Hbase : has_axis base = false → isDerivedRunId base = true →
            ∃ d, digest_ok d ∧ base = DERIVED_RUN_ID_PREFIX +:+ d).
  { unfold isDerivedRunId, has_axis. intros Hax Hd.
    destruct (parseDerivedRunId base) as [[d e r f]|] eqn:Hp; [|done].
    apply parse_sound in Hp as [[Hok Hx] ->]. exists d. split; [done|].
    unfold spelling, axis_text in *. cbn [dp_execution dp_replaySeq dp_fork dp_digest] in *.
    unfold has_char in Hax. rewrite !str_exists_app, !orb_false_iff in Hax. destruct Hax as (_ & _ & Hax).
    destruct e, r, f; try discriminate Hax; by rewrite str_app_nil_r. }
  unfold executionRunId, forkRunId. split_and!.
  - destruct (has_axis base) eqn:Hax; [done|]. destruct (isDerivedRunId base) eqn:Hd; [|done]. cbn [negb].
    destruct (N.ltb_spec n 2) as [|Hn]; [done|]. intros Ha.
    destruct (Hbase eq_refl eq_refl) as (d & Hok & ->).
    assert (Hp : parseDerivedRunId a = Some (DerivedParts d (Some n) None None)).
    { apply (f_equal (λ o, match o with Ok x => x | Err _ => "" end)) in Ha. cbn beta iota in Ha.
      rewrite <- Ha, str_app_assoc. by apply (parse_spelling (DerivedParts d (Some n) None None)). }
    unfold derivedRunIdBase. rewrite Hp. simpl. split_and!; [done..| |done].
    pose proof (parse_spelling (DerivedParts d None None None)) as H. unfold spelling, axis_text in H. simpl in H.
    rewrite str_app_nil_r in H. by apply H.
  - destruct (has_axis base) eqn:Hax; [done|]. destruct (isDerivedRunId base) eqn:Hd; [|done]. cbn [negb].
    destruct (N.ltb_spec n 1) as [|Hn]; [done|]. intros Ha.
    destruct (Hbase eq_refl eq_refl) as (d & Hok & ->).
    assert (Hp : parseDerivedRunId a = Some (DerivedParts d None None (Some n))).
    { apply (f_equal (λ o, match o with Ok x => x | Err _ => "" end)) in Ha. cbn beta iota in Ha.
      rewrite <- Ha, str_app_assoc. by apply (parse_spelling (DerivedParts d None None (Some n))). }
    unfold derivedRunIdBase. rewrite Hp. done.
  - by intros ->.
Qed.

(** ** Examples *)

Lemma stableStringify_stable_witness :
  stableStringify id (JObj [("a", JNum 1); ("b", JMap [(JStr "x", JNull); (JStr "y", JNull)])])
  = stableStringify id (JObj [("b", JMap [(JStr "y", JNull); (JStr "x", JNull)]); ("a", JNum 1)]).
Proof.
  apply stableStringify_stable.
  eapply rtc_l with (y := JObj [("b", JMap [(JStr "x", JNull); (JStr "y", JNull)]); ("a", JNum 1)]).
  - apply step_obj_perm; [|apply Permutation_swap].
    apply (bool_decide_unpack _). vm_compute. exact I.
  - eapply rtc_l; [|apply rtc_refl].
    apply (step_field id "b" _ _ [] [("a", JNum 1)]). apply step_map_perm, Permutation_swap.
Defined.

Lemma tags_disjoint_witness :
  builtin_tag (JToJSON (JDate (Some "2020-01-01T00:00:00.000Z"))) = Some "Date".
Proof.
  apply (tags_disjoint id (JDate (Some "2020-01-01T00:00:00.000Z")) _ "Date"); reflexivity.
Defined.

Lemma work_tuple_injective_witness : id "b:c" = id "b:c".
Proof.
  apply (work_tuple_injective id "bot" "u1" "b:c" "bot" "u1" "b:c" ScopeOrg ScopeOrg). reflexivity.
Defined.

Example hash_key_order :
  stableStringify id (JObj [("b", JNum 1); ("10", JNull); ("9", JUndef); ("2", JBool true)])
  = Some (print (JsObj [("2", JsBool true); ("10", JsNull); ("b", JsNum 1)])).
Proof. vm_compute. reflexivity. Qed.

Definition sample_derived : string := "run1_0123456789abcdef0123456789abcdef".

Lemma sibling_ids_roundtrip_witness :
  derivedRunIdBase (sample_derived +:+ "#12") = Some sample_derived.
Proof.
  apply (proj1 (sibling_ids_roundtrip sample_derived (sample_derived +:+ "#12") 12)). vm_compute. reflexivity.
Defined.
