(* ===== verification/Format.v ===== *)
(** * Format: versioned journal records

    Models [packages/durable/src/format.ts]: the version stamp of written records,
    the upgrader of version 1 (AI SDK v5 shapes) to version 2, and [upgradeFormat],
    which every read of a versioned record goes through.  Records are values of
    [Hash.js]; the registry of upgraders is a finite map from versions. *)

From S2P Require Import Prelude JsMap Json Hash.

(** ** Reading a property *)

Abbreviation fields := (list (string * js)) (only parsing).

Definition prop (v : js) (name : string) : js :=
  match v with JObj l => default JUndef (mget name l) | _ => JUndef end.

(** [typeof v === 'object']. *)
Definition is_object (v : js) : bool :=
  match v with
  | JUndef | JOpaque _ | JBool _ | JNum _ | JNonFinite _ | JBigInt _ | JStr _ => false
  | _ => true
  end.

Definition js_truthy (v : js) : bool :=
  match v with
  | JUndef | JNull => false
  | JBool b => b
  | JNum z | JBigInt z => negb (Z.eqb z 0)
  | JNonFinite t => negb (String.eqb t "NaN")
  | JStr s => negb (String.eqb s "")
  | _ => true
  end.

(** [v ?? undefined]. *)
Definition nullish (v : js) : js := match v with JNull => JUndef | _ => v end.

Inductive format_error :=
| WrittenByNewer (ver : js)
| NoUpgrader (ver : js).

Definition JOURNAL_FORMAT_VERSION : Z := 2.

Definition upgrader : Type := fields → outcome format_error fields.

Definition stampFormat (value : fields) : fields := mset "_v" (JNum JOURNAL_FORMAT_VERSION) value.

(** [typeof rec._v === 'number' ? rec._v : d]. *)
Definition version_of (rec : fields) (d : js) : js :=
  match mget "_v" rec with
  | Some (JNum z) => JNum z
  | Some (JNonFinite t) => JNonFinite t
  | _ => d
  end.

Definition ver_gt (v : js) (target : Z) : bool :=
  match v with
  | JNum z => (target <? z)%Z
  | JNonFinite t => String.eqb t "Infinity"
  | _ => false
  end.

Definition ver_lt (v : js) (target : Z) : bool :=
  match v with
  | JNum z => (z <? target)%Z
  | JNonFinite t => String.eqb t "-Infinity"
  | _ => false
  end.

Definition next_version (v : js) : js :=
  match v with JNum z => JNum (z + 1) | _ => v end.

Definition find_upgrader (ups : list (Z * upgrader)) (v : js) : option upgrader :=
  match v with
  | JNum z => snd <$> List.find (λ p, Z.eqb (fst p) z) ups
  | _ => None
  end.

(** The [while] loop, with fuel. *)
Fixpoint upgrade_loop (fuel : nat) (ups : list (Z * upgrader)) (target : Z) (rec : fields) (ver : js)
    : option (outcome format_error fields) :=
  if ver_lt ver target then
    match find_upgrader ups ver with
    | None => Some (Err (NoUpgrader ver))
    | Some up =>
        match fuel with
        | 0 => None
        | S n =>
            match up rec with
            | Err e => Some (Err e)
            | Ok rec' => upgrade_loop n ups target rec' (version_of rec' (next_version ver))
            end
        end
    end
  else Some (Ok rec).

Definition strip_version (rec : fields) : fields := if mhas "_v" rec then mdel "_v" rec else rec.

Definition upgradeFormat (fuel : nat) (ups : list (Z * upgrader)) (target : Z) (value : js)
    : option (outcome format_error js) :=
  match value with
  | JObj rec =>
      let ver := version_of rec (JNum 1) in
      if ver_gt ver target then Some (Err (WrittenByNewer ver))
      else
        match upgrade_loop fuel ups target rec ver with
        | None => None
        | Some (Err e) => Some (Err e)
        | Some (Ok rec') => Some (Ok (JObj (strip_version rec')))
        end
  | _ => Some (Ok value)
  end.

(** ** The registered upgrader of version 1 *)

Definition upgrade_usage (u : js) (out : fields) : fields :=
  if js_truthy u && negb (is_object (prop u "inputTokens")) then
    mset "usage"
      (JObj [("inputTokens", JObj [("total", nullish (prop u "inputTokens")); ("noCache", JUndef);
                                   ("cacheRead", nullish (prop u "cachedInputTokens")); ("cacheWrite", JUndef)]);
             ("outputTokens", JObj [("total", nullish (prop u "outputTokens")); ("text", JUndef);
                                    ("reasoning", JUndef)])]) out
  else out.

Definition upgrade_finish (f : js) (out : fields) : fields :=
  match f with
  | JStr s => mset "finishReason" (JObj [("unified", JStr s); ("raw", JStr s)]) out
  | _ => out
  end.

(** A part that goes through [upgradeFormat] once more: an object of type ['finish']. *)
Definition finish_part (part : js) : option fields :=
  match part with
  | JObj l => match prop part "type" with
              | JStr t => if String.eqb t "finish" then Some l else None
              | _ => None
              end
  | _ => None
  end.

(** Nested [parts] are upgraded [fuel] levels deep: enough for any value of at most
    that depth. *)
Fixpoint upgrade_v1 (fuel : nat) (rec : fields) : outcome format_error fields :=
  let out0 := mset "_v" (JNum 2) rec in
  let out1 := upgrade_usage (default JUndef (mget "usage" rec)) out0 in
  let out2 := upgrade_finish (default JUndef (mget "finishReason" rec)) out1 in
  match default JUndef (mget "parts" rec) with
  | JArr parts =>
      let part_up part :=
        match finish_part part with
        | None => Ok part
        | Some l =>
            match fuel with
            | 0 => Ok part
            | S n =>
                (* [upgradeFormat({ ...part, _v: 1 }, undefined, 2)], one turn of its loop *)
                match upgrade_v1 n (mset "_v" (JNum 1) l) with
                | Ok r => Ok (JObj (strip_version r))
                | Err e => Err e
                end
            end
        end in
      let fix go ps := match ps with
                       | [] => Ok []
                       | p :: ps' => match part_up p, go ps' with
                                     | Ok q, Ok qs => Ok (q :: qs)
                                     | Err e, _ | _, Err e => Err e
                                     end
                       end in
      match go parts with
      | Ok ps => Ok (mset "parts" (JArr ps) out2)
      | Err e => Err e
      end
  | _ => Ok out2
  end.

Definition builtin_upgraders (depth : nat) : list (Z * upgrader) := [(1%Z, upgrade_v1 depth)].

(** ** Lemmas *)

Lemma mset_mdel_fresh {A} k (v : A) l : mget k l = None → mdel k (mset k v l) = l.
Proof.
  induction l as [|[k' w] l IH]; simpl; [by rewrite String.eqb_refl|].
  destruct (String.eqb_spec k k') as [->|Hne]; [done|]. intros H. simpl.
  destruct (String.eqb_spec k k'); [done|]. by rewrite IH.
Qed.

Lemma version_of_stamp rec d : version_of (stampFormat rec) d = JNum 2.
Proof. unfold version_of, stampFormat. by rewrite mget_mset. Qed.

(** An upgrader that advances: whatever it returns reads as a higher version. *)
Definition advances (ups : list (Z * upgrader)) : Prop :=
  ∀ z up rec rec', (z, up) ∈ ups → up rec = Ok rec' →
    match version_of rec' (JNum (z + 1)) with JNum z' => (z < z')%Z | JNonFinite t => t ≠ "-Infinity" | _ => False end.

Lemma find_upgrader_in ups z up : find_upgrader ups (JNum z) = Some up → (z, up) ∈ ups.
Proof.
  unfold find_upgrader. destruct (List.find _ ups) as [[z' up']|] eqn:H; [|done]. intros [= ->].
  apply List.find_some in H as [Hin Hz]. simpl in Hz. apply Z.eqb_eq in Hz as ->. by apply list_elem_of_In.
Qed.

Lemma version_of_number rec d : (∃ z, d = JNum z) → (∃ z, version_of rec d = JNum z) ∨ ∃ t, version_of rec d = JNonFinite t.
Proof. intros [z ->]. unfold version_of. destruct (mget "_v" rec) as [[]|]; eauto. Qed.

Lemma upgrade_loop_total ups target fuel rec ver :
  advances ups →
  match ver with JNum z => (target - z ≤ Z.of_nat fuel)%Z | JNonFinite _ => True | _ => False end →
  is_Some (upgrade_loop fuel ups target rec ver).
Proof.
  intros Hadv. revert rec ver. induction fuel as [|n IH]; intros rec ver Hver; simpl;
    destruct (ver_lt ver target) eqn:Hlt; try (by eexists);
    destruct (find_upgrader ups ver) as [up|] eqn:Hup; try (by eexists).
  - destruct ver; try done; simpl in Hlt; bool_to_prop; lia.
  - destruct (up rec) as [rec'|e] eqn:Hrec; [|by eexists].
    apply IH. destruct ver as [| | | |z|t| | | | | | | | | | |]; try done.
    simpl in Hlt. bool_to_prop. simpl.
    specialize (Hadv z up rec rec' (find_upgrader_in _ _ _ Hup) Hrec).
    destruct (version_of rec' (JNum (z + 1))); try done. lia.
Qed.

(** ** Properties *)

(** Reading a versioned record terminates: as long as every registered upgrader
    raises the version it was given (or leaves the stamp out), fuel for the distance to
    the target version decides every read, whatever the record. *)
Theorem upgradeFormat_terminates (ups : list (Z * upgrader)) (target : Z) (value : js) :
  advances ups →
  ∃ fuel, is_Some (upgradeFormat fuel ups target value).
Proof.
  intros Hadv. destruct value as [ |t| |b|z|t|z|s|o|s f|h|l|l|l|r|l|rec]; try (by exists 0; eexists).
  assert (Hv : (∃ z, version_of rec (JNum 1) = JNum z) ∨ ∃ t, version_of rec (JNum 1) = JNonFinite t)
    by (apply version_of_number; eauto).
  exists (match version_of rec (JNum 1) with JNum z => Z.to_nat (target - z) | _ => 0 end).
  unfold upgradeFormat. destruct (ver_gt _ _); [by eexists|].
  destruct (upgrade_loop_total ups target
              (match version_of rec (JNum 1) with JNum z => Z.to_nat (target - z) | _ => 0 end)
              rec (version_of rec (JNum 1)) Hadv) as [o Ho].
  - destruct Hv as [[z ->]|[t ->]]; [lia|done].
  - rewrite Ho. destruct o; by eexists.
Qed.

(** What was written is what is read: a record stamped on write comes back from
    [upgradeFormat] without its stamp and otherwise unchanged, through no upgrader. *)
Theorem stamp_upgrade_roundtrip (ups : list (Z * upgrader)) (rec : fields) :
  mget "_v" rec = None →
  upgradeFormat 0 ups JOURNAL_FORMAT_VERSION (JObj (stampFormat rec)) = Some (Ok (JObj rec)).
Proof.
  intros Hrec. unfold upgradeFormat. rewrite version_of_stamp. simpl.
  unfold strip_version, mhas, stampFormat. rewrite mget_mset. by rewrite mset_mdel_fresh.
Qed.

(** What [upgradeFormat] returns for the other versions. *)
Definition upgraded_usage (u : js) : js :=
  JObj [("inputTokens", JObj [("total", nullish (prop u "inputTokens")); ("noCache", JUndef);
                              ("cacheRead", nullish (prop u "cachedInputTokens")); ("cacheWrite", JUndef)]);
        ("outputTokens", JObj [("total", nullish (prop u "outputTokens")); ("text", JUndef); ("reasoning", JUndef)])].

(** A version 1 record without nested parts reads as version 2: the flat usage
    becomes nested with the same totals, a text finish reason becomes a pair, every other
    field is unchanged and the stamp is gone; a usage that is already nested is left as
    it is.  A record of a newer version is refused, and so is a gap in the chain. *)
Theorem upgradeFormat_v1 (depth : nat) (rec : fields) :
  map_wf rec → mget "_v" rec = None → mget "parts" rec = None →
  ∃ out, upgradeFormat 1 (builtin_upgraders depth) 2 (JObj rec) = Some (Ok (JObj out)) ∧
    mget "_v" out = None ∧
    (∀ k, k ≠ "usage" → k ≠ "finishReason" → mget k out = mget k rec) ∧
    (∀ u, mget "usage" rec = Some u →
       mget "usage" out = Some (if js_truthy u && negb (is_object (prop u "inputTokens"))
                                then upgraded_usage u else u)) ∧
    (∀ s, mget "finishReason" rec = Some (JStr s) →
       mget "finishReason" out = Some (JObj [("unified", JStr s); ("raw", JStr s)])) ∧
    (∀ v, (2 < v)%Z → upgradeFormat 1 (builtin_upgraders depth) 2 (JObj (mset "_v" (JNum v) rec))
                      = Some (Err (WrittenByNewer (JNum v)))) ∧
    (∀ v, (v < 2)%Z → v ≠ 1%Z → upgradeFormat 1 (builtin_upgraders depth) 2 (JObj (mset "_v" (JNum v) rec))
                      = Some (Err (NoUpgrader (JNum v)))).
Proof.
  intros Hwf Hv Hp.
  set (out2 := upgrade_finish (default JUndef (mget "finishReason" rec))
                 (upgrade_usage (default JUndef (mget "usage" rec)) (mset "_v" (JNum 2) rec))).
  assert (Hup : upgrade_v1 depth rec = Ok out2).
  { destruct depth; cbn [upgrade_v1]; rewrite Hp; done. }
  assert (Hget : ∀ k, k ≠ "usage" → k ≠ "finishReason" → mget k out2 = mget k (mset "_v" (JNum 2) rec)).
  { intros k H1 H2. unfold out2, upgrade_finish, upgrade_usage.
    destruct (default JUndef (mget "finishReason" rec)); repeat case_goal; by map_simpl. }
  assert (Hv2 : mget "_v" out2 = Some (JNum 2)) by (rewrite Hget by done; apply mget_mset).
  assert (Hne : ∀ k, k ≠ "_v" → mget k (mdel "_v" out2) = mget k out2) by (intros; by apply mget_mdel_ne).
  exists (mdel "_v" out2). split_and!.
  - unfold upgradeFormat, version_of. rewrite Hv. cbn -[upgrade_v1 mset mdel mget]. rewrite Hup.
    unfold version_of. rewrite Hv2. cbn -[upgrade_v1 mset mdel mget].
    unfold strip_version. by rewrite (mhas_mget _ _ _ Hv2).
  - apply mget_mdel. unfold out2, upgrade_finish, upgrade_usage.
    destruct (default JUndef (mget "finishReason" rec)); repeat case_goal; auto using map_wf_mset.
  - intros k H1 H2. destruct (decide (k = "_v")) as [->|Hk].
    + rewrite Hv. apply mget_mdel. unfold out2, upgrade_finish, upgrade_usage.
      destruct (default JUndef (mget "finishReason" rec)); repeat case_goal; auto using map_wf_mset.
    + rewrite Hne, Hget by done. by map_simpl.
  - intros u Hu. rewrite Hne by done. unfold out2, upgrade_finish. rewrite Hu. simpl.
    unfold upgrade_usage.
    destruct (default JUndef (mget "finishReason" rec)); destruct (js_truthy u && negb (is_object (prop u "inputTokens")));
      by map_simpl.
  - intros s Hs. rewrite Hne by done. unfold out2, upgrade_finish. rewrite Hs. simpl. by map_simpl.
  - intros v Hlt. unfold upgradeFormat, version_of. rewrite mget_mset. simpl.
    by rewrite (proj2 (Z.ltb_lt 2 v)).
  - intros v Hlt Hne1. unfold upgradeFormat, version_of. rewrite mget_mset. cbn -[Z.eqb Z.ltb upgrade_v1].
    rewrite (proj2 (Z.ltb_ge 2 v)) by lia. rewrite (proj2 (Z.ltb_lt v 2)) by lia.
    by rewrite (proj2 (Z.eqb_neq 1 v)) by congruence.
Qed.

(** ** Examples *)

Definition v1_record : fields :=
  [("text", JStr "hi"); ("usage", JObj [("inputTokens", JNum 12); ("outputTokens", JNum 3)]); ("finishReason", JStr "stop")].

Lemma upgradeFormat_terminates_witness :
  ∃ fuel, is_Some (upgradeFormat fuel [(0%Z, λ r, Ok (mset "_v" (JNum 1) r))] 2 (JObj [("_v", JNum 0)])).
Proof.
  apply upgradeFormat_terminates. intros z up rec rec' Hin H.
  apply list_elem_of_singleton in Hin. injection Hin as -> ->.
  apply (f_equal (λ o, match o with Ok x => x | Err _ => [] end)) in H. cbn beta iota in H.
  rewrite <- H. unfold version_of. rewrite mget_mset. reflexivity.
Defined.

Lemma stamp_upgrade_roundtrip_witness :
  upgradeFormat 0 (builtin_upgraders 2) JOURNAL_FORMAT_VERSION (JObj (stampFormat v1_record)) = Some (Ok (JObj v1_record)).
Proof. apply stamp_upgrade_roundtrip. reflexivity. Defined.

Lemma upgradeFormat_v1_witness :
  ∃ out, upgradeFormat 1 (builtin_upgraders 2) 2 (JObj v1_record) = Some (Ok (JObj out)) ∧
    mget "text" out = Some (JStr "hi").
Proof.
  destruct (upgradeFormat_v1 2 v1_record) as (out & H & _ & Hk & _).
  - apply (bool_decide_unpack _). vm_compute. exact I.
  - reflexivity.
  - reflexivity.
  - exists out. split; [exact H|]. rewrite Hk; [reflexivity|discriminate..].
Defined.
