(* ===== verification/Shard.v ===== *)
(** * Shard: counters spread over several keys

    Models [packages/durable/src/counter-shard.ts]: the shard of an id (FNV-1a on
    JavaScript's 32-bit integers) and [sumShards], which reads a logical counter back
    from all its shards and the bare key. *)

From S2P Require Import Prelude JsMap Keys Journal.

(** ** 32-bit integers, as JavaScript's bit operators see them *)

Definition to_int32 (z : Z) : Z := ((z + 2147483648) mod 4294967296 - 2147483648)%Z.

(** [a ^ b], [Math.imul(a, b)] and [a >>> 0]. *)
Definition js_xor (a b : Z) : Z := to_int32 (Z.lxor (to_int32 a) (to_int32 b)).
Definition imul (a b : Z) : Z := to_int32 (a * b).
Definition to_uint32 (z : Z) : Z := (z mod 4294967296)%Z.

Definition char_code (c : Ascii.ascii) : Z := Z.of_nat (Ascii.nat_of_ascii c).

Fixpoint fnv1a (h : Z) (id : string) : Z :=
  match id with
  | EmptyString => h
  | String c id' => fnv1a (imul (js_xor h (char_code c)) 16777619) id'
  end.

Definition shard_of (id : string) (shards : Z) : Z :=
  (to_uint32 (fnv1a 2166136261 id) mod shards)%Z.

Definition shardSuffix (id : string) (shards : Z) : string :=
  if (shards <=? 1)%Z then "" else "#" +:+ dec (Z.to_N (shard_of id shards)).

(** ** Reading a logical counter *)

Definition shard_keys (key : string) (shards : Z) : list string :=
  key :: map (λ i, key +:+ "#" +:+ dec (N.of_nat i))
             (seq 0 (if (shards <=? 1)%Z then 0 else Z.to_nat shards)).

Definition add_part (out p : jsmap Z) : jsmap Z :=
  fold_left (λ acc '(f, v), mset f (default 0 (mget f acc) + v)%Z acc) p out.

Definition sumShards (get : string → option (jsmap Z)) (key : string) (shards : Z) : option (jsmap Z) :=
  let present := omap id (map get (shard_keys key shards)) in
  match present with
  | [] => None
  | _ => Some (fold_left add_part present [])
  end.

(** ** Lemmas *)

Lemma shard_of_bounds id shards : (1 < shards)%Z → (0 ≤ shard_of id shards < shards)%Z.
Proof. intros H. unfold shard_of. apply Z.mod_pos_bound. lia. Qed.

Lemma to_int32_range z : (- 2147483648 ≤ to_int32 z < 2147483648)%Z.
Proof. unfold to_int32. pose proof (Z.mod_pos_bound (z + 2147483648) 4294967296). lia. Qed.

Definition field_of (f : string) (m : jsmap Z) : Z := default 0%Z (mget f m).

Definition entries_sum (f : string) (m : jsmap Z) : Z :=
  foldr Z.add 0%Z (map (λ '(g, v), if String.eqb f g then v else 0%Z) m).

Lemma field_add_part f p out : field_of f (add_part out p) = (field_of f out + entries_sum f p)%Z.
Proof.
  unfold add_part, entries_sum. revert out. induction p as [|[g v] p IH]; intros out; cbn [fold_left map foldr]; [lia|].
  rewrite IH. unfold field_of. rewrite mget_mset_cases.
  destruct (String.eqb_spec f g) as [->|]; simpl; lia.
Qed.

Lemma field_add_fields f fs m : field_of f (add_fields fs m) = (field_of f m + entries_sum f fs)%Z.
Proof. apply field_add_part. Qed.

Lemma entries_sum_field f m : map_wf m → entries_sum f m = field_of f m.
Proof.
  unfold map_wf, entries_sum, field_of. induction m as [|[g v] m IH]; [done|].
  intros [Hg Hm]%NoDup_cons. cbn [map foldr mget]. rewrite IH by done.
  destruct (String.eqb_spec f g) as [->|]; [|lia].
  destruct (mget g m) eqn:E; simpl; [|lia].
  exfalso. apply Hg. apply elem_of_mkeys. by eexists.
Qed.

Lemma field_fold f ps out :
  field_of f (fold_left add_part ps out) = (field_of f out + foldr Z.add 0 (map (entries_sum f) ps))%Z.
Proof.
  revert out. induction ps as [|p ps IH]; intros out; cbn [fold_left map foldr]; [lia|].
  rewrite IH, field_add_part. lia.
Qed.

Definition counter_at (f : string) (get : string → option (jsmap Z)) (k : string) : Z :=
  match get k with Some m => field_of f m | None => 0 end.

Lemma sumShards_field f get key shards :
  (∀ k m, get k = Some m → map_wf m) →
  match sumShards get key shards with Some m => field_of f m | None => 0%Z end
  = foldr Z.add 0%Z (map (counter_at f get) (shard_keys key shards)).
Proof.
  intros Hwf. unfold sumShards.
  assert (Hs : ∀ ks, foldr Z.add 0%Z (map (entries_sum f) (omap id (map get ks)))
                   = foldr Z.add 0%Z (map (counter_at f get) ks)).
  { induction ks as [|k ks IH]; [done|]. cbn [map foldr]. unfold counter_at at 1.
    destruct (get k) as [m|] eqn:E; cbn [omap list_omap id]; rewrite <- IH; [|done].
    cbn [map foldr]. by rewrite entries_sum_field by eauto. }
  rewrite <- Hs. destruct (omap id (map get (shard_keys key shards))) as [|p ps]; [done|].
  rewrite field_fold. done.
Qed.

Lemma shard_keys_NoDup key shards : NoDup (shard_keys key shards).
Proof.
  unfold shard_keys. apply NoDup_cons. split.
  - intros (i & Heq & _)%list_elem_of_fmap. apply (f_equal String.length) in Heq.
    rewrite str_length_app in Heq. simpl in Heq. lia.
  - apply NoDup_fmap_2_strong; [|apply NoDup_seq].
    intros i j _ _ Heq. apply str_app_inj_l in Heq. apply (str_app_inj_l "#") in Heq.
    apply dec_inj in Heq. lia.
Qed.

Lemma shard_key_in key id shards : key +:+ shardSuffix id shards ∈ shard_keys key shards.
Proof.
  unfold shardSuffix, shard_keys. destruct (Z.leb_spec shards 1) as [H|H].
  - rewrite str_app_nil_r. left.
  - right. apply list_elem_of_fmap. exists (Z.to_nat (shard_of id shards)).
    pose proof (shard_of_bounds id shards H). split.
    + do 2 f_equal. f_equal. lia.
    + apply elem_of_seq. lia.
Qed.

Lemma sum_one_key (ks : list string) (k : string) (d : Z) (g : string → Z) :
  NoDup ks → k ∈ ks →
  foldr Z.add 0%Z (map (λ x, (g x + (if String.eqb x k then d else 0))%Z) ks)
  = (foldr Z.add 0%Z (map g ks) + d)%Z.
Proof.
  intros Hn. induction Hn as [|x ks Hx Hn IH]; intros Hk; [inversion Hk|]. cbn [map foldr].
  destruct (String.eqb_spec x k) as [->|Hne].
  - assert (E : map (λ x, (g x + (if String.eqb x k then d else 0))%Z) ks = map g ks).
    { apply map_ext_in. intros y Hy. destruct (String.eqb_spec y k) as [->|]; [|lia].
      exfalso. apply Hx. by apply list_elem_of_In. }
    rewrite E. lia.
  - apply elem_of_cons in Hk as [->|Hk]; [done|]. rewrite IH by done. lia.
Qed.

(** ** Sharded increments *)

Section Sharded.
Context {V : Type} `{!JsValue V}.
Variables (key : string) (shards : Z).

(** One run's increment of the logical counter. *)
Definition sharded_incr (j : mem_journal V) (c : string * list (string * Z)) : mem_journal V :=
  mj_incrBy (key +:+ shardSuffix (fst c) shards) (snd c) j.

Definition logical_value (f : string) (j : mem_journal V) : Z :=
  match sumShards (λ k, mj_getCounters k j) key shards with
  | Some m => field_of f m
  | None => 0%Z
  end.

Definition counters_wf (j : mem_journal V) : Prop := ∀ k m, mj_getCounters k j = Some m → map_wf m.

Lemma add_fields_wf fs (m : jsmap Z) : map_wf m → map_wf (add_fields fs m).
Proof.
  unfold add_fields. revert m. induction fs as [|[f d] fs IH]; intros m Hm; [done|]. simpl.
  apply IH. by apply map_wf_mset.
Qed.

Lemma counters_wf_incr j c : counters_wf j → counters_wf (sharded_incr j c).
Proof.
  intros Hj k m. unfold sharded_incr, mj_getCounters, mj_incrBy. simpl. rewrite mget_mset_cases.
  destruct (String.eqb_spec k (key +:+ shardSuffix (fst c) shards)) as [->|]; [|apply Hj].
  intros [= <-]. apply add_fields_wf.
  destruct (mget (key +:+ shardSuffix (fst c) shards) (counters j)) eqn:E; [by eapply Hj|constructor].
Qed.

Lemma counter_at_incr f j c k :
  counter_at f (λ k, mj_getCounters k (sharded_incr j c)) k =
  (counter_at f (λ k, mj_getCounters k j) k
   + (if String.eqb k (key +:+ shardSuffix (fst c) shards) then entries_sum f (snd c) else 0))%Z.
Proof.
  unfold counter_at, sharded_incr, mj_getCounters, mj_incrBy. simpl. rewrite mget_mset_cases.
  destruct (String.eqb_spec k (key +:+ shardSuffix (fst c) shards)) as [->|]; [|lia].
  rewrite field_add_fields.
  destruct (mget (key +:+ shardSuffix (fst c) shards) (counters j)); done.
Qed.

Lemma logical_value_incr f j c :
  counters_wf j → logical_value f (sharded_incr j c) = (logical_value f j + entries_sum f (snd c))%Z.
Proof.
  intros Hj. unfold logical_value. rewrite !sumShards_field by (try apply counters_wf_incr; done).
  rewrite (map_ext _ _ (counter_at_incr f j c)).
  apply sum_one_key; [apply shard_keys_NoDup|apply shard_key_in].
Qed.

(** Sharding does not change a counter: whatever runs increment it, each through
    its own shard, reading the logical counter back gives its value before (counts from
    before sharding included) plus the sum of all the increments. *)
Theorem sharded_counter_exact (f : string) (j : mem_journal V) (l : list (string * list (string * Z))) :
  counters_wf j →
  logical_value f (fold_left sharded_incr l j)
  = (logical_value f j + foldr Z.add 0 (map (λ c, entries_sum f (snd c)) l))%Z.
Proof.
  revert j. induction l as [|c l IH]; intros j Hj; cbn [fold_left map foldr]; [lia|].
  rewrite IH by (by apply counters_wf_incr). rewrite logical_value_incr by done. lia.
Qed.
End Sharded.

(** A run always increments one of the shards the reader sums: the shard number is
    a residue of the shard count, for every id and every count above one, and one shard
    means the bare key. *)
Theorem shardSuffix_in_range (key id : string) (shards : Z) :
  ((shards ≤ 1)%Z ∧ shardSuffix id shards = "") ∨
  ∃ i, (0 ≤ i < shards)%Z ∧ shardSuffix id shards = "#" +:+ dec (Z.to_N i) ∧
       key +:+ shardSuffix id shards ∈ shard_keys key shards.
Proof.
  destruct (Z.leb_spec shards 1) as [H|H].
  - left. unfold shardSuffix. by rewrite (proj2 (Z.leb_le shards 1) H).
  - right. exists (shard_of id shards). split_and!; [by apply shard_of_bounds..| |apply shard_key_in].
    unfold shardSuffix. by rewrite (proj2 (Z.leb_gt shards 1) H).
Qed.

(** ** Examples *)

(** The published FNV-1a test vectors. *)
Example fnv1a_empty : to_uint32 (fnv1a 2166136261 "") = 2166136261%Z.
Proof. reflexivity. Qed.

Example fnv1a_foobar : to_uint32 (fnv1a 2166136261 "foobar") = 3214735720%Z.
Proof. vm_compute. reflexivity. Qed.

Section ShardWitness.
#[local] Existing Instance text_value.

Lemma sharded_counter_exact_witness :
  logical_value "__metrics__" 16 "runs"
    (fold_left (sharded_incr "__metrics__" 16) [("r1", [("runs", 1%Z)]); ("r2", [("runs", 1%Z)])] (empty_journal (V:=string)))
  = 2%Z.
Proof.
  rewrite (sharded_counter_exact "__metrics__" 16 "runs" empty_journal); [reflexivity|].
  intros k m H. discriminate H.
Defined.
End ShardWitness.
