(* ===== verification/Taint.v ===== *)
(** * Taint: the prompt-injection marks and guard incidents

    Models [packages/durable/src/taint.ts]: the first-wins run and thread marks, the
    content provenance of a thread and its expiry check; and the incident record of
    [packages/durable/src/incidents.ts].  [argsHash] of a message is a parameter: a
    message is its role and its content hash. *)

From S2P Require Import Prelude JsMap Keys Journal Work Prog Claim.

Inductive taint_source := SrcTool | SrcProcessor | SrcInherited.

#[global] Instance taint_source_eq_dec : EqDecision taint_source.
Proof. solve_decision. Defined.

Record run_taint := RunTaint {
  rt_at : Z;
  rt_toolCallId : string;
  rt_toolName : string;
  rt_source : taint_source;
  rt_reason : option string;
}.

#[global] Instance run_taint_eq_dec : EqDecision run_taint.
Proof. solve_decision. Defined.

(** [RunTaint] without its time. *)
Record taint_mark := TaintMark {
  tm_toolCallId : string;
  tm_toolName : string;
  tm_source : taint_source;
  tm_reason : option string;
}.

Definition stamp_taint (at_ : Z) (t : taint_mark) : run_taint :=
  RunTaint at_ (tm_toolCallId t) (tm_toolName t) (tm_source t) (tm_reason t).

Record taint_provenance := TaintProvenance {
  tp_hashes : list string;
  tp_overflow : bool;
}.

#[global] Instance taint_provenance_eq_dec : EqDecision taint_provenance.
Proof. solve_decision. Defined.

Definition taintKey (runId : string) : string := runId +:+ ":proc:__gnl_taint".
Definition threadTaintKey (threadId : string) : string := "thread:" +:+ threadId +:+ ":taint".
Definition threadTaintProvenanceKey (threadId : string) : string := "thread:" +:+ threadId +:+ ":taintProv".
Definition directTaintKey (runId : string) : string := runId +:+ ":proc:__gnl_taint_direct".

Definition TAINT_PROVENANCE_MAX_HASHES : nat := 512.

(** [[...new Set(l)]]. *)
Fixpoint js_set_aux (seen l : list string) : list string :=
  match l with
  | [] => []
  | x :: l' => if bool_decide (x ∈ seen) then js_set_aux seen l' else x :: js_set_aux (x :: seen) l'
  end.

Definition js_set (l : list string) : list string := js_set_aux [] l.

Record incident := Incident {
  in_at : Z;
  in_source : string;
  in_action : string;
  in_toolName : string;
  in_toolCallId : string;
}.

#[global] Instance incident_eq_dec : EqDecision incident.
Proof. solve_decision. Defined.

Definition incidentKey (runId : string) (i : incident) : string :=
  runId +:+ ":incident:" +:+ in_toolCallId i +:+ ":" +:+ in_source i +:+ ":" +:+ in_action i.

Section Taint.
Context {V : Type} `{!JsValue V, !Embed run_taint V, !Embed taint_provenance V, !Embed incident V} {Q R E : Type}.
Variable caps : journal_caps.
Abbreviation prog := (prog V Q R E).

(** Up to [n] attempts; [false]: none persisted, which the code reports. *)
Fixpoint claimTaint_attempts (n : nat) (key : string) (rec : run_taint) : prog bool :=
  match n with
  | 0 => mret false
  | S n' =>
      done ← ptry (λ _, mret false) (_ ← claim caps key (inj rec); mret true);
      if done : bool then mret true else claimTaint_attempts n' key rec
  end.

Definition claimTaint (key : string) (rec : run_taint) : prog bool := claimTaint_attempts 3 key rec.

Definition markRunTainted (runId : string) (taint : taint_mark) (threadId : option string) : prog unit :=
  at_ ← dateNow;
  let rec := stamp_taint at_ taint in
  _ ← claimTaint (taintKey runId) rec;
  match threadId with
  | None => mret tt
  | Some t =>
      _ ← claimTaint (threadTaintKey t) rec;
      if bool_decide (tm_source taint = SrcInherited) then mret tt
      else _ ← claimTaint (directTaintKey runId) rec; mret tt
  end.

Definition read_taint (key : string) : prog (option run_taint) :=
  v ← jget key; mret (v ≫= prj).

Definition readRunTaint (runId : string) : prog (option run_taint) := read_taint (taintKey runId).
Definition readThreadTaint (threadId : string) : prog (option run_taint) := read_taint (threadTaintKey threadId).
Definition readDirectRunTaint (runId : string) : prog (option run_taint) := read_taint (directTaintKey runId).

Definition readTaintProvenance (threadId : string) : prog (option taint_provenance) :=
  v ← jget (threadTaintProvenanceKey threadId); mret (v ≫= prj).

Definition prov_of (cur : option V) : taint_provenance :=
  default (TaintProvenance [] false) (cur ≫= prj).

Definition next_provenance (cur : option V) (incoming : list string) : taint_provenance :=
  let p := prov_of cur in
  let merged := js_set (tp_hashes p ++ incoming) in
  if tp_overflow p || (TAINT_PROVENANCE_MAX_HASHES <? length merged)
  then TaintProvenance (take TAINT_PROVENANCE_MAX_HASHES merged) true
  else TaintProvenance merged false.

(** One attempt of the loop: written, or lost a race. *)
Definition record_attempt (key : string) (incoming : list string) : prog bool :=
  cur ← jget key;
  let next := inj (next_provenance cur incoming) in
  match cur with
  | Some c =>
      if has_putIfMatch caps then jputIfMatch key c next
      else _ ← jput key next; mret true
  | None =>
      if has_putIfAbsent caps then jputIfAbsent key next
      else _ ← jput key next; mret true
  end.

Fixpoint record_attempts (n : nat) (key : string) (incoming : list string) : prog bool :=
  match n with
  | 0 => mret false
  | S n' =>
      done ← ptry (λ _, mret false) (record_attempt key incoming);
      if done : bool then mret true else record_attempts n' key incoming
  end.

(** [false]: the failure the code reports on the console. *)
Definition recordTaintProvenance (threadId : string) (incoming : list string) : prog bool :=
  match incoming with
  | [] => mret true
  | _ => record_attempts 3 (threadTaintProvenanceKey threadId) incoming
  end.

(** A visible message: is it a system message, and its content hash. *)
Definition message : Type := bool * string.

Definition isThreadTaintExpired (threadId : string) (visible : list message)
    (getWorkingMemory : option (prog (option string))) : prog bool :=
  prov ← readTaintProvenance threadId;
  match prov with
  | None => mret false
  | Some p =>
      if bool_decide (tp_hashes p = []) || tp_overflow p then mret false
      else if existsb fst visible then mret false
      else if existsb (λ m, bool_decide (snd m ∈ tp_hashes p)) visible then mret false
      else
        match getWorkingMemory with
        | None => mret true
        | Some wm =>
            text ← wm;
            mret (match truthy text with Some _ => false | None => true end)
        end
  end.

Definition recordIncident (runId : string) (i : incident) : prog unit :=
  ptry (λ _, mret tt) (jput (incidentKey runId i) (inj i)).
End Taint.

(** ** Lemmas *)

Lemma elem_of_js_set_aux x l seen : x ∈ js_set_aux seen l ↔ x ∈ l ∧ x ∉ seen.
Proof.
  revert seen. induction l as [|y l IH]; intros seen; simpl; [set_solver|].
  case_bool_decide; [rewrite IH; set_solver|]. rewrite elem_of_cons, IH.
  destruct (decide (x = y)) as [->|]; set_solver.
Qed.

Lemma elem_of_js_set x l : x ∈ js_set l ↔ x ∈ l.
Proof. unfold js_set. rewrite elem_of_js_set_aux. set_solver. Qed.

Section TaintProps.
Context {V : Type} `{!JsValue V, !Embed run_taint V, !Embed taint_provenance V, !Embed incident V} {Q R E : Type}.

(** A provenance record that accounts for the given hashes. *)
Definition covers (v : V) (hs : list string) : Prop :=
  ∃ p, prj v = Some p ∧ (tp_overflow p = true ∨ ∀ h, h ∈ hs → h ∈ tp_hashes p).

Lemma next_covers (cur : option V) incoming hs :
  (∀ h, h ∈ hs → h ∈ incoming) ∨ (∃ c, cur = Some c ∧ covers c hs) →
  covers (inj (next_provenance cur incoming)) hs.
Proof.
  intros H. eexists. split; [apply prj_inj|]. unfold next_provenance.
  destruct (tp_overflow (prov_of cur)) eqn:Ho; simpl; [by left|].
  destruct (TAINT_PROVENANCE_MAX_HASHES <? _); simpl; [by left|]. right. intros h Hh.
  apply elem_of_js_set, elem_of_app. destruct H as [H|(c & -> & p & Hp & Hc)]; [right; auto|].
  unfold prov_of in *. simpl in *. rewrite Hp in *. simpl in *. left.
  destruct Hc as [Hc|Hc]; [congruence|auto].
Qed.

Variable key : string.

(** A recorder's ghost state: its hashes, and whether it has recorded them. *)
Abbreviation rghost := (list string * bool)%type.

Definition rec_allowed (g : rghost) (r : req V Q) : Prop :=
  match r with
  | RPut k _ => k ≠ key
  | RPutIfAbsent k v => k = key → covers v (fst g)
  | RPutIfMatch k e v => k = key → covers v (fst g) ∧ ∀ hs, covers e hs → covers v hs
  | _ => True
  end.

Definition rec_next (g : rghost) (r : req V Q) : outcome E (ans (R:=R) r) → rghost :=
  match r return outcome E (ans (R:=R) r) → rghost with
  | RPutIfAbsent k _ | RPutIfMatch k _ _ => λ o,
      match o with Ok true => (fst g, snd g || String.eqb k key) | _ => g end
  | _ => λ _, g
  end.

Definition covered (w : world V Q) (hs : list string) : Prop := ∃ v, jkey key w = Some v ∧ covers v hs.

Definition rec_inv (w : world V Q) (gs : list rghost) : Prop :=
  ∀ g, g ∈ gs → snd g = true → covered w (fst g).

Lemma covered_kept (h : oracle Q R E) g r w hs :
  rec_allowed g r → covered w hs → covered (snd (perform h r w)) hs.
Proof.
  intros Ha (v & Hv & Hc). destruct (overwrites key r) eqn:Ho.
  - destruct r; try done; simpl in Ho; apply String.eqb_eq in Ho; subst k; simpl in Ha; [done|].
    destruct (Ha eq_refl) as [_ Hmono]. unfold covered. simpl. rewrite mj_putIfMatch_spec.
    case_bool_decide as Heq; simpl; [|by exists v].
    unfold jkey in *. rewrite Hv in Heq. injection Heq as <-.
    eexists. split; [unfold mj_get; simpl; apply mget_mset|auto].
  - exists v. split; [by apply perform_jkey_keep|done].
Qed.

Lemma rec_next_covers (h : oracle Q R E) g r w :
  rec_allowed g r → snd g = false → snd (rec_next g r (fst (perform h r w))) = true →
  covered (snd (perform h r w)) (fst g).
Proof.
  intros Ha Hg Hn. destruct r; simpl in Hn; try congruence; simpl in *.
  - rewrite mj_putIfAbsent_spec in *. destruct (mj_get k (jr w)); simpl in *; [congruence|].
    rewrite Hg in Hn. simpl in Hn. apply String.eqb_eq in Hn as ->.
    eexists. split; [unfold jkey, mj_get; simpl; apply mget_mset|auto].
  - rewrite mj_putIfMatch_spec in *. case_bool_decide; simpl in *; [|congruence].
    rewrite Hg in Hn. simpl in Hn. apply String.eqb_eq in Hn as ->.
    eexists. split; [unfold jkey, mj_get; simpl; apply mget_mset|]. by destruct (Ha eq_refl).
Qed.

Lemma rec_next_fst g r (o : outcome E (ans (R:=R) r)) : fst (rec_next g r o) = fst g.
Proof. destruct r; try done; destruct o as [[]|]; done. Qed.

Lemma rec_next_err g r (e : E) : rec_next g r (Err e) = g.
Proof. by destruct r. Qed.

Lemma rec_inv_perform (h : oracle Q R E) w gs i g r :
  gs !! i = Some g → rec_allowed g r → rec_inv w gs →
  rec_inv (snd (perform h r w)) (<[i := rec_next g r (fst (perform h r w))]> gs).
Proof.
  intros Hi Ha Hinv g' [->|Hg']%elem_of_insert Hs.
  - rewrite rec_next_fst. destruct (snd g) eqn:Hsg.
    + apply (covered_kept h g); [done|]. apply Hinv; [by eapply list_elem_of_lookup_2|done].
    + by apply rec_next_covers.
  - apply (covered_kept h g); [done|]. by apply Hinv.
Qed.

Lemma rec_inv_fail (h : oracle Q R E) w gs i g r (e : E) :
  gs !! i = Some g → rec_allowed g r → rec_inv w gs →
  rec_inv w (<[i := rec_next g r (Err e)]> gs) ∧
  rec_inv (snd (perform h r w)) (<[i := rec_next g r (Err e)]> gs).
Proof.
  intros Hi Ha Hinv. rewrite rec_next_err, list_insert_id by done. split; [done|].
  intros g' Hg' Hs. apply (covered_kept h g); [done|]. by apply Hinv.
Qed.

(** A recorder that says it recorded has its ghost flag set. *)
Definition rec_post (g : rghost) (o : outcome E bool) : Prop := o = Ok true → snd g = true.

Lemma record_attempt_safe g incoming :
  fst g = incoming → safe rec_allowed rec_next (λ g' o, fst g' = incoming ∧ rec_post g' o) g
                       (record_attempt full_caps key incoming).
Proof.
  intros Hg. unfold rec_post. split; [done|]. intros [[c|]|e]; simpl; [| |done].
  - split.
    + intros _. rewrite Hg. split; [apply next_covers; by left|]. intros hs Hc. apply next_covers. eauto.
    + intros [[]|e]; simpl; rewrite ?String.eqb_refl, ?orb_true_r; done.
  - split.
    + intros _. rewrite Hg. apply next_covers. by left.
    + intros [[]|e]; simpl; rewrite ?String.eqb_refl, ?orb_true_r; done.
Qed.

Lemma record_attempts_safe n g incoming :
  fst g = incoming → safe rec_allowed rec_next rec_post g (record_attempts full_caps n key incoming).
Proof.
  revert g. induction n as [|n IH]; intros g Hg; [done|]. cbn [record_attempts].
  eapply safe_bind with (mid := λ g' o, fst g' = incoming ∧ rec_post g' o).
  - eapply safe_try; [by apply record_attempt_safe|done|]. intros g' e [Hg' _]. by split.
  - intros g' [] [Hg' Hp]; simpl; [done|by apply IH].
  - intros g' e [_ Hp]. done.
Qed.
End TaintProps.

Section TaintTheorems.
Context {V : Type} `{!JsValue V, !Embed run_taint V, !Embed taint_provenance V, !Embed incident V} {Q R E : Type}.

(** No provenance is lost, and poison on screen keeps its gate.  Of any number of
    tainted runs that record the hashes of their messages on one thread at once, in any
    interleaving and with failing requests, each that reports success has its hashes in the
    record (or the record is marked as overflowed); so as long as a message with one of
    these hashes is visible, the expiry check does not return [true]. *)
Theorem provenance_keeps_gating (threadId : string) (recorders : list (list string))
    (ps' : list (prog V Q R E bool)) (w w' : world V Q) (i : nat) (hs : list string)
    (visible : list message) (wm : option (prog V Q R E (option string))) (h : oracle Q R E) :
  reachable (map (recordTaintProvenance full_caps threadId) recorders, w) (ps', w') →
  recorders !! i = Some hs → ps' !! i = Some (Ret true) →
  (∃ m, m ∈ visible ∧ snd m ∈ hs) →
  fst (run h (isThreadTaintExpired threadId visible wm) w') = Ok false.
Proof.
  intros Hr Hi Hret (m & Hm & Hmh). set (key := threadTaintProvenanceKey threadId).
  destruct (pool_safe (R:=R) (E:=E) (rec_allowed key) (rec_next key)
    (λ (w : world V Q) gs, rec_inv key w gs ∧ map fst gs = recorders)) with
    (post := λ g (o : outcome E bool), fst g ≠ [] → rec_post g o)
    (c := (map (recordTaintProvenance (Q:=Q) (R:=R) (E:=E) full_caps threadId) recorders, w)) (c' := (ps', w'))
    (gs := map (λ hs : list string, (hs, false)) recorders) (A := bool)
    as (gs' & [Hinv Hfst] & Hs); [..|exact Hr| | |].
  - intros h1 w1 gs j g r Hj Ha [Hg <-]. split; [by apply rec_inv_perform|].
    rewrite list_fmap_insert, rec_next_fst. apply list_insert_id. by rewrite list_lookup_fmap, Hj.
  - intros h1 w1 gs j g r e Hj Ha [Hg <-]. rewrite rec_next_err, list_insert_id by done.
    pose proof (rec_inv_fail key h1 w1 gs j g r e Hj Ha Hg) as H.
    rewrite rec_next_err, list_insert_id in H by done. naive_solver.
  - intros w1 gs c x _ H. exact H.
  - split; [by intros g (x & -> & _)%list_elem_of_fmap|]. simpl. rewrite map_map. apply map_id.
  - simpl. apply Forall2_fmap, Forall_Forall2_diag, Forall_true. intros [|x l]; [by intros Hf; destruct Hf|].
    eapply safe_mono; [|by apply (record_attempts_safe key)]. done.
  - simpl in *. destruct (Forall2_lookup_r _ _ _ _ _ Hs Hret) as (g & Hg & Hp).
    assert (Hgf : fst g = hs).
    { apply (f_equal (λ l, l !! i)) in Hfst. rewrite list_lookup_fmap, Hg, Hi in Hfst. by injection Hfst. }
    assert (Hne : fst g ≠ []) by (rewrite Hgf; intros ->; inversion Hmh).
    destruct (Hinv g (list_elem_of_lookup_2 _ _ _ Hg) (Hp Hne eq_refl)) as (v & Hv & p & Hpv & Hc).
    rewrite Hgf in Hc. unfold isThreadTaintExpired, readTaintProvenance. simpl.
    unfold jkey in Hv. fold key. rewrite Hv. simpl. rewrite Hpv. simpl.
    destruct (bool_decide (tp_hashes p = []) || tp_overflow p) eqn:Ho; [done|].
    destruct (existsb fst visible); [done|].
    assert (Hex : existsb (λ m, bool_decide (snd m ∈ tp_hashes p)) visible = true).
    { apply existsb_exists. exists m. split; [by apply list_elem_of_In|]. apply bool_decide_eq_true.
      apply orb_false_iff in Ho as [_ Ho]. destruct Hc as [Hc|Hc]; [congruence|auto]. }
    by rewrite Hex.
Qed.

(** The run's taint is first-wins: once a run is marked, no later mark, by any
    number of concurrent callers with whatever sources and failures, replaces the record
    of where the untrusted content first came from. *)
Theorem taint_first_wins (runId : string) (marks : list (taint_mark * option string))
    (ps' : list (prog V Q R E unit)) (w w' : world V Q) (v : V) :
  reachable (map (λ '(t, tid), markRunTainted full_caps runId t tid) marks, w) (ps', w') →
  jkey (taintKey runId) w = Some v →
  jkey (taintKey runId) w' = Some v.
Proof.
  intros Hr Hv.
  assert (Hattempts : ∀ key k rec n, never_writes (V:=V) (Q:=Q) (R:=R) (E:=E) key (claimTaint_attempts full_caps n k rec)).
  { intros key k rec n. induction n as [|n IH]; [done|]. cbn [claimTaint_attempts].
    apply never_writes_bind; [|by intros []]. split; [done|]. by intros [|]. }
  eapply (never_writes_pool (taintKey runId) v _ _ w w'); [|done|exact Hr].
  apply Forall_map, Forall_true. intros [t tid].
  unfold markRunTainted. apply never_writes_bind; [by split; [|intros []]|]. intros at_.
  apply never_writes_bind; [apply Hattempts|]. intros _. destruct tid as [tid|]; [|done].
  apply never_writes_bind; [apply Hattempts|]. intros _.
  case_bool_decide; [done|]. apply never_writes_bind; [apply Hattempts|done].
Qed.
End TaintTheorems.

(** ** Examples *)

Inductive taint_value := TVTaint (t : run_taint) | TVProv (p : taint_provenance) | TVIncident (i : incident).

Definition taint_value_eq_dec : EqDecision taint_value.
Proof. solve_decision. Defined.

Definition taint_value_js : JsValue taint_value := {|
  js_eq_dec := taint_value_eq_dec;
  str_field _ _ := None;
  is_versioned _ := false;
  ser_length _ := 0;
|}.

Definition taint_embed : Embed run_taint taint_value :=
  {| inj := TVTaint; prj v := match v with TVTaint t => Some t | _ => None end; prj_inj _ := eq_refl |}.
Definition prov_embed : Embed taint_provenance taint_value :=
  {| inj := TVProv; prj v := match v with TVProv t => Some t | _ => None end; prj_inj _ := eq_refl |}.
Definition incident_embed : Embed incident taint_value :=
  {| inj := TVIncident; prj v := match v with TVIncident t => Some t | _ => None end; prj_inj _ := eq_refl |}.

Section TaintWitnesses.
#[local] Existing Instances taint_value_js taint_embed prov_embed incident_embed.
Let h0 : oracle unit unit string := λ _ _, Ok tt.
Let w0 : world taint_value unit := World empty_journal 0 0 [] empty_work.
Let t1 : run_taint := RunTaint 0 "c1" "fetch" SrcTool None.
Let w1 : world taint_value unit := World (mj_put 0 (taintKey "r") (TVTaint t1) empty_journal) 0 0 [] empty_work.
Let pool : list (prog taint_value unit unit string bool) :=
  map (recordTaintProvenance full_caps "t") [["h1"]; ["h2"]].

Lemma provenance_keeps_gating_witness :
  fst (run h0 (isThreadTaintExpired "t" [(false, "h1")] None)
         (snd (run h0 (recordTaintProvenance full_caps "t" ["h1"]) w0))) = Ok false.
Proof.
  apply (provenance_keeps_gating (Q:=unit) (R:=unit) (E:=string) "t" [["h1"]; ["h2"]]
           _ w0 _ 0 ["h1"] [(false, "h1")] None h0
           (reachable_run h0 pool w0 0 _ eq_refl)); [reflexivity|reflexivity|].
  exists (false, "h1"). split; left.
Defined.

Lemma taint_first_wins_witness :
  jkey (taintKey "r") (snd (run h0 (markRunTainted full_caps "r" (TaintMark "c2" "web" SrcTool None) None) w1))
  = Some (TVTaint t1).
Proof.
  apply (taint_first_wins (Q:=unit) (R:=unit) (E:=string) "r" [(TaintMark "c2" "web" SrcTool None, None)]
           _ w1 _ _
           (reachable_run h0 [markRunTainted full_caps "r" (TaintMark "c2" "web" SrcTool None) None] w1 0 _ eq_refl)).
  reflexivity.
Defined.
End TaintWitnesses.
