(* ===== verification/RunIdentity.v ===== *)
(** * RunIdentity: who a run belongs to, and who may act on it

    Models [packages/durable/src/run-identity.ts]: callers, the seal of a request,
    the owner read from a run's [:input] record or inferred from its rows, the access
    rule, and the admission of a call to a run ([admitRun], with the birth of a new
    run through [claimRunOwner]).  The brand that refuses a subject view
    ([assertRaw]) is a static type here: every program runs on the raw journal. *)

From S2P Require Import Prelude JsMap Keys Journal Work Prog Claim.

(** ** Callers *)

Inductive caller :=
| User (id : string) (orgId : option string)
| Staff (orgId : option string)
| Unknown.

#[global] Instance caller_eq_dec : EqDecision caller.
Proof. solve_decision. Defined.

Definition STAFF : caller := Staff None.
Definition UNKNOWN : caller := Unknown.

Inductive identity_error :=
| EmptyUserId
| TwoCallers                         (** a caller and a different resourceId *)
| SealMismatch (sealed named : caller)
| OwnerMismatch (owner requested : string).

Definition user (id : string) (orgId : option string) : outcome identity_error caller :=
  if String.eqb id "" then Err EmptyUserId else Ok (User id orgId).

Definition staff (orgId : option string) : caller := Staff orgId.

Definition callerFromResourceId (resourceId orgId : option string) : outcome identity_error caller :=
  match truthy resourceId with Some r => user r orgId | None => Ok UNKNOWN end.

Definition callerOf (c : caller) : outcome identity_error caller :=
  match c with
  | User id org => user id org
  | Staff org => Ok (staff org)
  | Unknown => Ok UNKNOWN
  end.

Definition userIdOf (c : caller) : option string :=
  match c with User id _ => Some id | _ => None end.

Record seal_fields := SealFields {
  sf_resourceId : option string;
  sf_orgId : option string;
  sf_staff : bool;
}.

Definition sealFieldsOf (c : caller) (orgId : option string) : seal_fields :=
  SealFields (userIdOf c) orgId (match c with Staff _ => true | _ => false end).

Definition org_of (c : caller) : option string :=
  match c with User _ o | Staff o => o | Unknown => None end.

Definition kind_agrees (a b : caller) : bool :=
  match a, b with
  | User i _, User j _ => String.eqb i j
  | Staff _, Staff _ | Unknown, Unknown => true
  | _, _ => false
  end.

Definition sameParty (a b : caller) : bool :=
  kind_agrees a b &&
  match org_of a, org_of b with
  | Some x, Some y => String.eqb x y
  | _, _ => true
  end.

(** [declared]: the [resourceId] shorthand and the explicit caller of the call. *)
Definition resolveCaller (seal : seal_fields) (declaredId : option string) (declared : option caller)
    : outcome identity_error caller :=
  let named :=
    match declared with
    | None => Ok None
    | Some c =>
        match callerOf c with
        | Err e => Err e
        | Ok n =>
            match declaredId with
            | Some r => if bool_decide (userIdOf n = Some r) then Ok (Some n) else Err TwoCallers
            | None => Ok (Some n)
            end
        end
    end in
  match named with
  | Err e => Err e
  | Ok named =>
      let sealed :=
        match sf_resourceId seal with
        | Some r => match user r (sf_orgId seal) with Ok c => Ok (Some c) | Err e => Err e end
        | None => if sf_staff seal then Ok (Some (staff (sf_orgId seal))) else Ok None
        end in
      match sealed with
      | Err e => Err e
      | Ok None =>
          match named with
          | Some n => Ok n
          | None => callerFromResourceId declaredId (sf_orgId seal)
          end
      | Ok (Some s) =>
          match named with
          | Some n => if sameParty s n then Ok s else Err (SealMismatch s n)
          | None => Ok s
          end
      end
  end.

Record run_identity := RunIdentity {
  ri_caller : caller;
  ri_runId : string;
  ri_threadId : option string;
  ri_parentRunId : option string;
}.

Definition runIdentity (c : caller) (runId : string) (threadId parentRunId : option string)
    : outcome identity_error run_identity :=
  match callerOf c with
  | Ok c' => Ok (RunIdentity c' runId (truthy threadId) (truthy parentRunId))
  | Err e => Err e
  end.

Definition childIdentity (parent : run_identity) (childRunId : string) (threadId : option string)
    : outcome identity_error run_identity :=
  let thread := match threadId with Some t => Some t | None => ri_threadId parent end in
  runIdentity (ri_caller parent) childRunId thread (Some (ri_runId parent)).

(** ** Owner records *)

Inductive owner_kind := OwnerStaff | OwnerUnknown.

#[global] Instance owner_kind_eq_dec : EqDecision owner_kind.
Proof. solve_decision. Defined.

(** The fields of an [:input] record that ownership reads; [or_versioned] is the
    presence of the stamp [_v]. *)
Record owner_record := OwnerRecord {
  or_versioned : bool;
  or_resourceId : option string;
  or_orgId : option string;
  or_ownerKind : option owner_kind;
  or_workflow : option string;
  or_network : option string;
  or_batch : option string;
  or_prompt : bool;                      (** a prompt or messages are present *)
}.

#[global] Instance owner_record_eq_dec : EqDecision owner_record.
Proof. solve_decision. Defined.

Inductive run_kind := KAgent | KWorkflow | KNetwork | KBatch | KOther.

Definition recordOwner (rec : option owner_record) : option caller :=
  r ← rec;
  if negb (or_versioned r) then Some STAFF
  else match truthy (or_resourceId r) with
       | Some id => Some (User id (or_orgId r))
       | None => if bool_decide (or_ownerKind r = Some OwnerUnknown) then Some UNKNOWN
                 else Some (staff (or_orgId r))
       end.

Definition kindOf (r : owner_record) : run_kind :=
  match or_workflow r, or_network r, or_batch r with
  | Some _, _, _ => KWorkflow
  | None, Some _, _ => KNetwork
  | None, None, Some _ => KBatch
  | None, None, None => if or_prompt r then KAgent else KOther
  end.

Inductive run_owner (E : Type) :=
| OwnerMissing
| Owned (owner : caller) (kind : run_kind) (recorded : bool)
| OwnerUnreadable (error : E).
Arguments OwnerMissing {E}. Arguments Owned {E}. Arguments OwnerUnreadable {E}.

Inductive run_decision := Allow | Deny | Missing.

Definition decideRunAccess {E} (owner : run_owner E) (c : caller) : run_decision :=
  match owner with
  | OwnerUnreadable _ => Deny
  | OwnerMissing => Missing
  | Owned o _ _ =>
      match c with
      | Staff _ => Allow
      | Unknown => match o with Unknown => Allow | _ => Deny end
      | User id _ => match o with User id' _ => if String.eqb id' id then Allow else Deny | _ => Deny end
      end
  end.

(** [undefined] is [Ok None]. *)
Definition actingCaller {E} (owner : run_owner E) (c : caller) : outcome identity_error (option caller) :=
  match decideRunAccess owner c with
  | Missing => match callerOf c with Ok c' => Ok (Some c') | Err e => Err e end
  | Deny => Ok None
  | Allow => match owner with Owned o _ _ => Ok (Some o) | _ => Ok None end
  end.

(** [{ ...fields, ...ownerFields(caller) }], stamped. *)
Definition ownerFields (c : caller) (fields : owner_record) : owner_record :=
  let org o := match o with Some x => Some x | None => or_orgId fields end in
  match c with
  | User id o => OwnerRecord true (Some id) (org o) (or_ownerKind fields) (or_workflow fields) (or_network fields) (or_batch fields) (or_prompt fields)
  | Staff o => OwnerRecord true (or_resourceId fields) (org o) (Some OwnerStaff) (or_workflow fields) (or_network fields) (or_batch fields) (or_prompt fields)
  | Unknown => OwnerRecord true (or_resourceId fields) (or_orgId fields) (Some OwnerUnknown) (or_workflow fields) (or_network fields) (or_batch fields) (or_prompt fields)
  end.

Definition no_fields : owner_record := OwnerRecord true None None None None None None false.

Definition fieldsOwner (rec : option owner_record) : caller :=
  let r := default no_fields rec in
  match truthy (or_resourceId r) with
  | Some id => User id None
  | None => if bool_decide (or_ownerKind r = Some OwnerStaff) then STAFF else UNKNOWN
  end.

Definition ownerLabel (c : caller) : string :=
  match c with User id _ => id | Staff _ => "(staff)" | Unknown => "(unknown)" end.

(** ** The run's rows *)

Definition isBookkeeping (rest : string) : bool :=
  String.eqb rest "lock" || ends_with ":lock" rest || String.eqb rest "swept" ||
  starts_with "cfg:" rest || starts_with "proc:__gnl_taint" rest.

Definition PROBE_LIMIT : nat := 16.

Definition PROBE_KEYS (runId : string) : list string :=
  [rk_model runId "0"; runId +:+ ":outcome"; runId +:+ ":wf:_input"; runId +:+ ":net:route:0"].

Section Ownership.
Context {V : Type} `{!JsValue V, !Embed owner_record V} {Q R E : Type}.
Variable caps : journal_caps.
Variable fail : identity_error → E.
Abbreviation prog := (prog V Q R E).

Definition lift {A} (o : outcome identity_error A) : prog A :=
  match o with Ok a => Ret a | Err e => Throw (fail e) end.

Fixpoint any_present (keys : list string) : prog bool :=
  match keys with
  | [] => mret false
  | k :: ks =>
      v ← jget k;
      match v with Some _ => mret true | None => any_present ks end
  end.

Definition rest_of (prefix k : string) : string := default "" (strip_prefix prefix k).

Definition rowsPresent (runId : string) : prog bool :=
  wf ← jget ("wfrun:" +:+ runId);
  match wf with
  | Some _ => mret true
  | None =>
      if has_listKeys caps then
        let prefix := runId +:+ ":" in
        keys ← request (RListKeys prefix (Some PROBE_LIMIT));
        mret (existsb (λ k, negb (isBookkeeping (rest_of prefix k))) keys)
      else any_present (PROBE_KEYS runId)
  end.

Definition read_owner (runId : string) : prog (option owner_record) :=
  v ← jget (rk_input runId); mret (v ≫= prj).

Definition owned_by (rec : option owner_record) : option (run_owner E) :=
  o ← recordOwner rec; r ← rec; Some (Owned o (kindOf r) (or_versioned r)).

Definition runOwnerOf (runId : string) : prog (run_owner E) :=
  ptry (λ e, mret (OwnerUnreadable e))
    (rec ← read_owner runId;
     match owned_by rec with
     | Some o => mret o
     | None =>
         present ← rowsPresent runId;
         if present : bool then
           again ← read_owner runId;
           match owned_by again with
           | Some o => mret o
           | None => mret (Owned STAFF KOther false)
           end
         else mret OwnerMissing
     end).

Definition decideRun (runId : string) (c : caller) : prog run_decision :=
  o ← runOwnerOf runId; mret (decideRunAccess o c).

Definition claimRunOwner (runId : string) (c : caller) (fields : owner_record) : prog caller :=
  let key := rk_input runId in
  _ ← claim caps key (inj (ownerFields c fields));
  rec ← read_owner runId;
  match recordOwner rec with
  | Some o => mret o
  | None => lift (callerOf c)
  end.

Definition admitRun (runId : string) (c : caller) (birth : option owner_record)
    : prog (caller * run_owner E) :=
  owner ← runOwnerOf runId;
  match owner with
  | OwnerUnreadable e => Throw e
  | _ =>
      let refuse recorded := Throw (fail (OwnerMismatch (ownerLabel recorded) (ownerLabel c))) in
      acting ← lift (actingCaller owner c);
      match acting with
      | None => refuse (match owner with Owned o _ _ => o | _ => UNKNOWN end)
      | Some acting =>
          match owner, birth with
          | OwnerMissing, Some fields =>
              recorded ← claimRunOwner runId acting fields;
              let born := Owned recorded KOther true in
              again ← lift (actingCaller born c);
              match again with
              | None => refuse recorded
              | Some a => mret (a, born)
              end
          | _, _ => mret (acting, owner)
          end
      end
  end.

Definition inheritRunOwner (missing : string → E) (srcRunId dstRunId : string) (fields : owner_record) : prog caller :=
  src ← runOwnerOf srcRunId;
  match src with
  | OwnerUnreadable e => Throw e
  | OwnerMissing => Throw (missing srcRunId)
  | Owned o _ _ => claimRunOwner dstRunId o fields
  end.
End Ownership.

(** ** Properties of the pure rules *)

(** Birth fields that name no owner of their own. *)
Definition ownerless (f : owner_record) : Prop :=
  or_resourceId f = None ∧ or_orgId f = None ∧ or_ownerKind f = None.

(** What a birth writes is what every later read finds: the owner of a record
    written for a caller is that caller, for the access rule ([recordOwner]) and, up to
    the organization, for the records outside a run ([fieldsOwner]). *)
Theorem ownerFields_roundtrip (c : caller) (f : owner_record) :
  ownerless f → callerOf c = Ok c →
  recordOwner (Some (ownerFields c f)) = Some c ∧
  kind_agrees (fieldsOwner (Some (ownerFields c f))) c = true.
Proof.
  intros (Hr & Ho & Hk) Hc. destruct f as [ver r o k wf net b p]; simpl in *; subst.
  destruct c as [id [org|]|[org|]|]; simpl in *; try done; unfold user in Hc;
    destruct (String.eqb_spec id "") as [->|Hne]; try done;
    unfold recordOwner, fieldsOwner, ownerFields, truthy; simpl;
    rewrite (proj2 (String.eqb_neq id "") Hne); simpl; by rewrite String.eqb_refl.
Qed.

(** The access rule, case by case: nobody reaches a run whose owner cannot be
    read; staff reaches every existing run; a user reaches exactly the runs owned by that
    user, never an ownerless one; an unknown caller only runs born unknown; and an
    admitted call acts for the recorded owner, not for itself. *)
Theorem decideRunAccess_rule {E} (owner : run_owner E) (c : caller) :
  (decideRunAccess owner c = Allow ↔
    ∃ o k rec, owner = Owned o k rec ∧
      ((∃ org, c = Staff org) ∨ (c = Unknown ∧ o = Unknown) ∨
       (∃ id org org', c = User id org ∧ o = User id org'))) ∧
  (decideRunAccess owner c = Missing ↔ owner = OwnerMissing) ∧
  (∀ o k rec, owner = Owned o k rec → decideRunAccess owner c = Allow → actingCaller owner c = Ok (Some o)).
Proof.
  split_and!.
  - split.
    + destruct owner as [|o k rec|e]; simpl; try done. intros H. exists o, k, rec. split; [done|].
      destruct c as [id org|org|]; [|eauto|].
      * destruct o as [id' org'| |]; try done. destruct (String.eqb_spec id' id) as [->|]; [|done]. eauto 8.
      * destruct o; try done. auto.
    + intros (o & k & rec & -> & [[org ->]|[[-> ->]|(id & org & org' & -> & ->)]]); simpl; try done.
      by rewrite String.eqb_refl.
  - destruct owner as [|o k rec|e]; simpl; try done. split; [|done].
    destruct c as [id org|org|], o as [id' org'|org'|]; try done. by destruct (String.eqb id' id).
  - intros o k rec -> H. unfold actingCaller. by rewrite H.
Qed.

(** The seal decides: when the server sealed a party, [resolveCaller] returns
    that party or fails, whatever the call declares, and an explicit caller of another
    party is refused, not overruled. *)
Theorem resolveCaller_sealed (seal : seal_fields) (declaredId : option string) (declared : option caller) (c : caller) :
  resolveCaller seal declaredId declared = Ok c →
  (∀ r, sf_resourceId seal = Some r → c = User r (sf_orgId seal)) ∧
  (sf_resourceId seal = None → sf_staff seal = true → c = Staff (sf_orgId seal)) ∧
  (∀ d, declared = Some d → (is_Some (sf_resourceId seal) ∨ sf_staff seal = true) →
     ∃ n, callerOf d = Ok n ∧ sameParty c n = true).
Proof.
  unfold resolveCaller, user. intros H.
  destruct declared as [d|].
  - destruct (callerOf d) as [n|e] eqn:Hn; [|done].
    assert (Hnamed : ∃ o, (match declaredId with
                    | Some r => if bool_decide (userIdOf n = Some r) then Ok (Some n) else Err TwoCallers
                    | None => Ok (Some n) end) = o ∧ (o = Ok (Some n) ∨ o = Err TwoCallers)).
    { eexists. split; [done|]. destruct declaredId; [case_bool_decide; auto|auto]. }
    destruct Hnamed as (o & Ho & [->| ->]); rewrite Ho in H; [|done].
    destruct (sf_resourceId seal) as [r|].
    + destruct (String.eqb r ""); [done|]. destruct (sameParty (User r (sf_orgId seal)) n) eqn:Hp; [|done].
      injection H as <-. naive_solver.
    + destruct (sf_staff seal).
      * destruct (sameParty (staff (sf_orgId seal)) n) eqn:Hp; [|done]. injection H as <-. naive_solver.
      * split_and!; [done..|]. by intros d' _ [[? ?]|?].
  - destruct (sf_resourceId seal) as [r|].
    + destruct (String.eqb r ""); [done|]. injection H as <-. naive_solver.
    + destruct (sf_staff seal); [injection H as <-; naive_solver|]. split_and!; [done..|]. done.
Qed.

(** ** One run, one owner *)

Section OneOwner.
Context {V : Type} `{!JsValue V, !Embed owner_record V} {Q R E : Type}.
Variable fail : identity_error → E.
Variable runId : string.
Abbreviation key := (rk_input runId).
Abbreviation world_ := (world V Q).
Abbreviation request_ := (req V Q).
Implicit Types w : world_.

(** The rows of a run, as [rowsPresent] sees them. *)
Definition listed (keys : list string) : bool := existsb (λ k, negb (isBookkeeping (rest_of (runId +:+ ":") k))) keys.

Definition has_rows w : bool :=
  bool_decide (is_Some (jkey ("wfrun:" +:+ runId) w)) || listed (mj_listKeys_limit (runId +:+ ":") PROBE_LIMIT (jr w)).

(** What a call has seen of the run. *)
Inductive view :=
| Fresh                  (** nothing yet *)
| NoWorkflow             (** no workflow run of the name *)
| Rows                   (** rows *)
| NoRows                 (** no rows *)
| NoRecord               (** rows, and after that no record *)
| Claimed                (** a record, unread *)
| Record_ (v : V)        (** the record *)
| Contra.                (** answers that cannot come *)

Definition learn_next (g : view) (r : request_) : outcome E (ans (R := R) r) → view :=
  match r return outcome E (ans (R := R) r) → view with
  | RGet k => λ o,
      if String.eqb k key then
        match o with
        | Ok (Some v) => match recordOwner (prj v) with Some _ => Record_ v | None => Contra end
        | Ok None => match g with Rows => NoRecord | Claimed | Record_ _ => Contra | _ => g end
        | Err _ => g
        end
      else if String.eqb k ("wfrun:" +:+ runId) then
        match o with Ok (Some _) => Rows | Ok None => NoWorkflow | Err _ => g end
      else g
  | RListKeys p l => λ o,
      match o, g with
      | Ok ks, NoWorkflow => if bool_decide (p = runId +:+ ":" ∧ l = Some PROBE_LIMIT) then (if listed ks then Rows else NoRows) else g
      | _, _ => g
      end
  | RPutIfAbsent k _ => λ o, match o with Ok _ => Claimed | Err _ => g end
  | _ => λ _, g
  end.

Definition learn_view (g : view) (r : request_) (o : outcome E (ans (R := R) r)) : view :=
  match g with Contra => Contra | _ => learn_next g r o end.

(** Only a call that saw no rows claims, and what it writes names an owner. *)
Definition may_admit (g : view) (r : request_) : Prop :=
  g = Contra ∨
  match r with
  | RGet _ | RListKeys _ _ => True
  | RPutIfAbsent k v => k = key ∧ g = NoRows ∧ is_Some (recordOwner (prj v))
  | _ => False
  end.

(** The record names an owner, and a run without a record at first has one now only if it had no rows. *)
Record admission w0 w : Prop := Admission {
  am_owned : ∀ v, jkey key w = Some v → is_Some (recordOwner (prj v));
  am_claimed : store (jr w) = store (jr w0) ∧ counters (jr w) = counters (jr w0) ∨
    has_rows w0 = false ∧ jkey key w0 = None ∧ is_Some (jkey key w);
}.

Definition holds_view w0 w (g : view) : Prop :=
  match g with
  | Fresh => True
  | NoWorkflow => jkey ("wfrun:" +:+ runId) w0 = None
  | Rows => has_rows w0 = true ∨ is_Some (jkey key w)
  | NoRows => has_rows w0 = false
  | NoRecord => has_rows w0 = true ∧ jkey key w0 = None
  | Claimed => is_Some (jkey key w)
  | Record_ v => jkey key w = Some v ∧ is_Some (recordOwner (prj v))
  | Contra => False
  end.

Definition admitting w0 w (gs : list view) : Prop := admission w0 w ∧ ∀ g, g ∈ gs → holds_view w0 w g.

Lemma same_view w0 w : store (jr w) = store (jr w0) → counters (jr w) = counters (jr w0) →
  (∀ k, jkey k w = jkey k w0) ∧ has_rows w = has_rows w0.
Proof.
  intros Hs Hc. assert (Hk : ∀ k, jkey k w = jkey k w0) by (intros k; unfold jkey, mj_get; by rewrite Hs).
  split; [exact Hk|]. unfold has_rows. rewrite Hk. unfold mj_listKeys_limit, mj_listKeys, mj_keys. by rewrite Hs, Hc.
Qed.

Lemma holds_mono w0 w w1 g : (∀ v, jkey key w = Some v → jkey key w1 = Some v) → holds_view w0 w g → holds_view w0 w1 g.
Proof.
  intros Hk. destruct g; cbn; auto.
  - intros [H|[v Hv]]; [by left|right]. eauto.
  - intros [v Hv]. eauto.
  - intros [Hv Ho]. eauto.
Qed.

(** One request, whether its answer arrives or not. *)
Lemma view_request (h : oracle Q R E) w0 w g r :
  may_admit g r → admission w0 w → holds_view w0 w g →
  let w1 := snd (perform h r w) in
  admission w0 w1 ∧ (∀ v, jkey key w = Some v → jkey key w1 = Some v) ∧
  holds_view w0 w1 (learn_next g r (fst (perform h r w))) ∧ ∀ e, learn_next g r (Err e) = g.
Proof.
  intros [->|Hm] [Hown Hcl] Hg; [done|].
  destruct r as [k| |k v| | | | |p l| | | | | | | | | | |]; try done; cbn [perform fst snd learn_next].
  - split; [by split|]. split; [done|]. split; [|intros e; by repeat case_match].
    fold (jkey k w). destruct (String.eqb_spec k key) as [->|Hk].
    + case_eq (jkey key w); [intros v Hv|intros Hv]; cbn.
      * destruct (Hown v Hv) as [c Hc]. rewrite Hc. cbn. by rewrite Hc, Hv.
      * destruct g; cbn in *; try done; try (by rewrite Hv in Hg; destruct Hg); try (by destruct Hg).
        destruct Hg as [Hr|[v Hv']]; [|congruence]. split; [done|].
        destruct Hcl as [[Hs Hc]|(Hr' & _)]; [|congruence]. destruct (same_view w0 w Hs Hc) as [Hk _]. by rewrite <- Hk.
    + destruct (String.eqb_spec k ("wfrun:" +:+ runId)) as [->|]; [|exact Hg].
      case_eq (jkey ("wfrun:" +:+ runId) w); [intros v Hv|intros Hv]; cbn.
      * destruct Hcl as [[Hs Hc]|(_ & _ & Hin)]; [left|by right]. destruct (same_view w0 w Hs Hc) as [Hk' _].
        unfold has_rows. rewrite <- Hk', Hv. by rewrite bool_decide_eq_true_2.
      * change (jkey ("wfrun:" +:+ runId) w0 = None). destruct Hcl as [[Hs Hc]|(Hr & _)]; [rewrite <- (proj1 (same_view w0 w Hs Hc)); exact Hv|].
        unfold has_rows in Hr. apply orb_false_iff in Hr as [Hr _]. apply bool_decide_eq_false in Hr.
        destruct (jkey ("wfrun:" +:+ runId) w0); [|done]. exfalso. apply Hr. by eexists.
  - destruct Hm as (-> & -> & Hv). rewrite mj_putIfAbsent_spec.
    assert (Hj : (∃ u, jkey key w = Some u) ∨ jkey key w = None) by (destruct (jkey key w); eauto).
    destruct Hj as [[u Hu]|Hu]; (rewrite (Hu : mj_get key (jr w) = _)); cbn [fst snd].
    + assert (Hsame : set_jr (jr w) w = w) by by destruct w. rewrite Hsame. split; [by split|]. split; [done|]. split; [by exists u|done].
    + set (w1 := set_jr _ w). assert (H1 : jkey key w1 = Some v) by (unfold jkey, mj_get; cbn; apply mget_mset).
      split; [|split; [by rewrite Hu|split; [by exists v|done]]]. split.
      * intros v'. rewrite H1. by intros [= <-].
      * right. cbn in Hg. split; [done|]. split; [|by exists v].
        destruct Hcl as [[Hs Hc]|(_ & Hn & _)]; [|done]. destruct (same_view w0 w Hs Hc) as [Hk _]. by rewrite <- Hk.
  - split; [by split|]. split; [done|]. split; [|done]. destruct g; try exact Hg.
    case_bool_decide as Hp; [|exact Hg]. destruct Hp as [-> ->]. cbv beta iota. unfold holds_view in Hg.
    destruct (listed (mj_listKeys_limit (runId +:+ ":") PROBE_LIMIT (jr w))) eqn:Hl; unfold holds_view.
    + destruct Hcl as [[Hs Hc]|(_ & _ & Hin)]; [left|by right]. rewrite <- (proj2 (same_view w0 w Hs Hc)).
      unfold has_rows. by rewrite Hl, orb_true_r.
    + destruct Hcl as [[Hs Hc]|(Hr & _)]; [|done]. rewrite <- (proj2 (same_view w0 w Hs Hc)). unfold has_rows.
      rewrite (proj1 (same_view w0 w Hs Hc)), Hg, Hl. rewrite bool_decide_eq_false_2; [done|]. by intros [? ?].
Qed.
(** *** What a call has seen when it is admitted *)

Abbreviation safe_v post g p := (safe (V:=V) (Q:=Q) (R:=R) (E:=E) may_admit learn_view post g p).

Lemma safe_contra {A} (post : view → outcome E A → Prop) (p : prog V Q R E A) : (∀ o, post Contra o) → safe_v post Contra p.
Proof. intros Hp. induction p as [a|e|r k IH]; simpl; [apply Hp..|]. split; [by left|]. intros o. apply IH. Qed.

Lemma lift_view {A} (post : view → outcome E A → Prop) g (o : outcome identity_error A) :
  (∀ a, o = Ok a → post g (Ok a)) → (∀ e, post g (Err e)) → safe_v post g (lift fail o).
Proof. intros H1 H2. destruct o; simpl; auto. Qed.

Definition unread (g : view) : view := match g with Rows => NoRecord | Claimed | Record_ _ => Contra | _ => g end.

Lemma read_view g :
  safe_v (λ g' o, match o with
    | Ok rec => g' = Contra ∨ (∃ v c, g' = Record_ v ∧ rec = prj v ∧ recordOwner rec = Some c) ∨ (rec = None ∧ g' = unread g)
    | Err _ => True end) g (read_owner runId).
Proof.
  assert (Hc : g = Contra ∨ g ≠ Contra) by (destruct g; auto). destruct Hc as [->|Hg]; [apply safe_contra; intros []; auto|].
  split; [by right|]. intros o. assert (Hl : learn_view g (RGet key) o = learn_next g (RGet key) o) by (by destruct g).
  rewrite Hl. unfold learn_next. rewrite String.eqb_refl. destruct o as [[v|]|e]; [| |done]; cbn.
  - destruct (recordOwner (prj v)) as [c|] eqn:Hc; [|by left]. right. left. by exists v, c.
  - right. right. by destruct g.
Qed.

(** How often a character is in a string. *)
Fixpoint occurs (c : ascii) (s : string) : nat :=
  match s with EmptyString => 0 | String c' s' => (if Ascii.eqb c' c then 1 else 0) + occurs c s' end.

Lemma occurs_app c a b : occurs c (a +:+ b) = occurs c a + occurs c b.
Proof. induction a as [|c' a IH]; [done|]. change (occurs c (String c' a +:+ b)) with ((if Ascii.eqb c' c then 1 else 0) + occurs c (a +:+ b)). rewrite IH. cbn. lia. Qed.

Lemma wfrun_not_input : "wfrun:" +:+ runId ≠ key.
Proof.
  intros Hk. apply (f_equal (occurs "w")) in Hk. unfold rk_input in Hk. rewrite !occurs_app in Hk. change (occurs "w" "wfrun:") with 1 in Hk. change (occurs "w" ":input") with 0 in Hk. lia.
Qed.

Lemma rows_view :
  safe_v (λ g' o, match o with Ok true => g' = Rows | Ok false => g' = NoRows | Err _ => True end) Fresh (rowsPresent full_caps runId).
Proof.
  assert (Hne : String.eqb ("wfrun:" +:+ runId) key = false).
  { apply String.eqb_neq, wfrun_not_input. }
  split; [by right|]. intros o. unfold learn_view, learn_next. rewrite Hne, String.eqb_refl.
  destruct o as [[v|]|e]; [done| |done]. split; [by right|]. intros [ks|e]; [|done].
  cbn [learn_view learn_next]. rewrite bool_decide_eq_true_2 by done. cbn. unfold listed. by destruct (existsb _ ks).
Qed.
(** The owner that was found: of the record, or staff for rows without one. *)
Definition owner_seen (g : view) (c : caller) : Prop :=
  g = Contra ∨ (∃ v, g = Record_ v ∧ recordOwner (prj v) = Some c) ∨ (g = NoRecord ∧ c = STAFF).

Lemma owned_by_Some rec c : recordOwner rec = Some c → ∃ k b, owned_by (E := E) rec = Some (Owned c k b).
Proof. intros Hc. unfold owned_by. rewrite Hc. destruct rec as [r|]; [|done]. cbn. by eexists _, _. Qed.

Lemma owner_view :
  safe_v (λ g o, match o with
    | Ok (Owned c _ _) => owner_seen g c
    | Ok OwnerMissing => g = Contra ∨ g = NoRows
    | _ => True end) Fresh (runOwnerOf full_caps runId).
Proof.
  set (post := λ (g : view) (o : outcome E (run_owner E)), match o with
    | Ok (Owned c _ _) => owner_seen g c | Ok OwnerMissing => g = Contra ∨ g = NoRows | _ => True end).
  eapply (safe_try _ _ post post); [|done|done]. eapply safe_bind; [apply read_view| |done].
  intros g1 rec [->|[(v & c & -> & -> & Hc)|[-> ->]]].
  - apply safe_contra. intros [[| |]|]; cbn; unfold owner_seen; auto.
  - destruct (owned_by_Some _ c Hc) as (k & b & ->). right. left. by exists v.
  - cbn [owned_by recordOwner mbind option_bind]. eapply safe_bind; [apply rows_view| |done]. intros g2 [] ->; [|by right].
    eapply safe_bind; [apply read_view| |done]. intros g3 again [->|[(v & c & -> & -> & Hc)|[-> ->]]].
    + apply safe_contra. intros [[| |]|]; cbn; unfold owner_seen; auto.
    + destruct (owned_by_Some _ c Hc) as (k & b & ->). right. left. by exists v.
    + by right; right.
Qed.

Lemma ownerFields_owned c f : is_Some (recordOwner (Some (ownerFields c f))).
Proof.
  unfold recordOwner. destruct c; simpl; repeat case_goal; by eexists.
Qed.

Lemma claim_view c f :
  safe_v (λ g o, match o with Ok x => g = Contra ∨ ∃ v, g = Record_ v ∧ recordOwner (prj v) = Some x | Err _ => True end)
    NoRows (claimRunOwner full_caps fail runId c f).
Proof.
  unfold claimRunOwner. eapply (safe_bind _ _ _ (λ g o, match o with Ok _ => g = Claimed | Err _ => True end)); [| |done].
  - split; [|by intros [b|e]]. right. split_and!; [done..|]. rewrite prj_inj. apply ownerFields_owned.
  - intros g b ->. eapply safe_bind; [apply read_view| |done].
    intros g3 again [->|[(v & x & -> & -> & Hc)|[-> ->]]]; [apply safe_contra; intros []; auto| |apply safe_contra; intros []; auto].
    rewrite Hc. right. by exists v.
Qed.

(** Whom a call may act for. *)
Definition speaks_for (c a : caller) : Prop :=
  match c with User id _ => ∃ org, a = User id org | Staff _ => True | Unknown => a = Unknown end.

Lemma acting_owned (o : caller) k b c a : actingCaller (E:=E) (Owned o k b) c = Ok (Some a) → a = o ∧ speaks_for c a.
Proof.
  unfold actingCaller. destruct c as [id org|org|], o as [id' org'|org'|]; cbn; try done; try by intros [= <-].
  destruct (String.eqb_spec id' id) as [->|]; [|done]. intros [= <-]. split; [done|]. by exists org'.
Qed.

Lemma acting_staff k b c a : actingCaller (E:=E) (Owned STAFF k b) c = Ok (Some a) → ∃ org, c = Staff org.
Proof. destruct c as [id org|org|]; [done|by exists org|done]. Qed.

Definition admitted (c : caller) (g : view) (a : caller) : Prop :=
  g = Contra ∨ (∃ v, g = Record_ v ∧ recordOwner (prj v) = Some a ∧ speaks_for c a) ∨
  (g = NoRecord ∧ a = STAFF ∧ ∃ org, c = Staff org).

Lemma admit_view c f :
  safe_v (λ g o, match o with Ok (a, _) => admitted c g a | Err _ => True end) Fresh (admitRun full_caps fail runId c (Some f)).
Proof.
  assert (Hdone : ∀ (o : outcome E (caller * run_owner E)), match o with Ok (a, _) => admitted c Contra a | Err _ => True end)
    by (intros [[a o]|]; [by left|done]).
  unfold admitRun. eapply safe_bind; [apply owner_view| |done]. intros g owner Hg. destruct owner as [|o k b|e]; [| |done].
  - destruct Hg as [->| ->]; [by apply safe_contra|].
    eapply (safe_bind _ _ _ (λ g _, g = NoRows)); [by apply lift_view| |done]. intros g [acting|] ->; [|done].
    eapply safe_bind; [apply claim_view| |done]. intros g recorded [->|(v & -> & Hv)]; [by apply safe_contra|].
    eapply (safe_bind _ _ _ (λ g' (x : outcome E (option caller)), match x with
      | Ok x => g' = Record_ v ∧ actingCaller (E:=E) (Owned recorded KOther true) c = Ok x | Err _ => True end)); [by apply lift_view| |done].
    intros g' [a|] [-> Ha]; [|done]. apply acting_owned in Ha as [-> Hs]. right. left. by exists v.
  - eapply (safe_bind _ _ _ (λ g' (x : outcome E (option caller)), match x with
      | Ok x => g' = g ∧ actingCaller (E:=E) (Owned o k b) c = Ok x | Err _ => True end)); [by apply lift_view| |done].
    intros g' [a|] [-> Ha]; [|done]. destruct Hg as [->|[(v & -> & Hv)|[-> ->]]]; [by left| |].
    + apply acting_owned in Ha as [-> Hs]. right. left. by exists v.
    + pose proof (acting_staff _ _ _ _ Ha) as Hc. apply acting_owned in Ha as [-> _]. right. by right.
Qed.

Lemma admitting_start w (calls : list (caller * owner_record)) :
  (∀ v, jkey key w = Some v → is_Some (recordOwner (prj v))) → admitting w w (map (λ _, Fresh) calls).
Proof.
  intros Hw. split; [split; [done|by left]|]. by intros g (x & -> & _)%list_elem_of_fmap.
Qed.

Lemma admitting_step (h : oracle Q R E) w0 w gs i g r (o : outcome E (ans (R := R) r)) w1 :
  gs !! i = Some g → may_admit g r → (w1 = snd (perform h r w) ∧ o = fst (perform h r w) ∨ (w1 = w ∨ w1 = snd (perform h r w)) ∧ ∃ e, o = Err e) →
  admitting w0 w gs → admitting w0 w1 (<[i := learn_view g r o]> gs).
Proof.
  intros Hi Hm Ho [Ha Hg]. pose proof (Hg g (list_elem_of_lookup_2 _ _ _ Hi)) as Hv.
  assert (Hn : ∀ o, learn_view g r o = learn_next g r o) by (by destruct g).
  destruct (view_request h w0 w g r Hm Ha Hv) as (Ha1 & Hk & Hv1 & He).
  assert (Hall : ∀ x, (x = g ∨ x ∈ gs) → holds_view w0 w x ∧ holds_view w0 (snd (perform h r w)) x).
  { intros x Hx. assert (holds_view w0 w x) by (destruct Hx as [->|Hx]; auto). split; [done|]. by eapply holds_mono. }
  assert (Hins : ∀ x y, x ∈ <[i := y]> gs → x = y ∨ x ∈ gs).
  { intros x y Hx. apply list_elem_of_lookup_1 in Hx as [j Hj]. apply list_lookup_insert_Some in Hj as [(_ & <- & _)|[_ Hj]]; [by left|].
    right. by eapply list_elem_of_lookup_2. }
  destruct Ho as [[-> ->]|[Hw [e ->]]]; rewrite Hn.
  - split; [done|]. intros x Hx. apply Hins in Hx as [->|Hx]; [done|]. by apply Hall; right.
  - rewrite He. destruct Hw as [->| ->]; (split; [done|]); intros x Hx; apply Hins in Hx as [->|Hx]; apply Hall; auto.
Qed.

(** C30: one run has one owner.  Of any number of calls that race to be admitted to a run, new or existing, by
    end users, staff and callers that are nobody, in any interleaving and with any failures, each that is admitted acts for the
    owner that the run's record names in the end, an end user only for itself and nobody only for nobody; a run that
    has no record is a run that had rows without one, and admits only staff.  So two different users never both get in. *)
Theorem admitRun_one_owner (calls : list (caller * owner_record)) (ps' : list (prog V Q R E (caller * run_owner E))) w w' :
  (∀ v, jkey key w = Some v → is_Some (recordOwner (prj v))) →
  reachable (map (λ '(c, f), admitRun full_caps fail runId c (Some f)) calls, w) (ps', w') →
  (∀ i c f a (o : run_owner E), calls !! i = Some (c, f) → ps' !! i = Some (Ret (a, o)) →
    match jkey key w' with
    | Some v => recordOwner (prj v) = Some a ∧ speaks_for c a
    | None => has_rows w = true ∧ a = STAFF ∧ ∃ org, c = Staff org
    end) ∧
  (∀ i j id id' org org' f f' a a' (o o' : run_owner E),
    calls !! i = Some (User id org, f) → calls !! j = Some (User id' org', f') →
    ps' !! i = Some (Ret (a, o)) → ps' !! j = Some (Ret (a', o')) → id = id' ∧ a = a' ∧ userIdOf a = Some id).
Proof.
  intros Hw Hr.
  assert (Hone : ∀ i c f a (o : run_owner E), calls !! i = Some (c, f) → ps' !! i = Some (Ret (a, o)) →
    match jkey key w' with
    | Some v => recordOwner (prj v) = Some a ∧ speaks_for c a
    | None => has_rows w = true ∧ a = STAFF ∧ ∃ org, c = Staff org
    end).
  { intros i c f a o Hi Hp.
    destruct (pool_safe_idx (R:=R) (E:=E) may_admit learn_view (admitting w)) with
      (post := λ n g (o : outcome E (caller * run_owner E)), match calls !! n with
        | Some (c, _) => match o with Ok (a, _) => admitted c g a | Err _ => True end | None => True end)
      (c := (map (λ '(c, f), admitRun (V:=V) (Q:=Q) (R:=R) full_caps fail runId c (Some f)) calls, w)) (c' := (ps', w')) (gs := map (λ _, Fresh) calls)
      as (gs' & [Ha Hg] & Hl & Hs); [| | |exact Hr|by apply admitting_start| |].
    - intros h w1 gs n g r Hn Hal Hin. eapply (admitting_step h); [done..| |done]. by left.
    - intros h w1 gs n g r e Hn Hal Hin. split; (eapply (admitting_step h); [done..| |done]; right; split; [auto|by exists e]).
    - intros w1 gs t x _ [[? ?] Hv]. split; [by split|]. intros g Hgg. exact (Hv g Hgg).
    - simpl. split; [by rewrite !length_map|]. intros n g p Hn Hpn. rewrite list_lookup_fmap in Hn. rewrite list_lookup_fmap in Hpn.
      destruct (calls !! n) as [[c' f']|]; [|done]. injection Hn as <-. injection Hpn as <-. apply admit_view.
    - cbn [fst snd] in *. assert (∃ g, gs' !! i = Some g) as [g Hgi] by (apply lookup_lt_is_Some; rewrite Hl; by eapply lookup_lt_Some).
      specialize (Hs i g _ Hgi Hp). rewrite Hi in Hs. cbn in Hs. pose proof (Hg g (list_elem_of_lookup_2 _ _ _ Hgi)) as Hv.
      destruct Hs as [->|[(v & -> & Hrec & Hsp)|(-> & -> & Hc)]]; [done| |].
      + destruct Hv as [Hv _]. by rewrite Hv.
      + destruct Hv as [Hrows Hnone]. destruct (am_claimed _ _ Ha) as [[Hst Hct]|(Hno & _)]; [|congruence].
        by rewrite (proj1 (same_view w w' Hst Hct)), Hnone. }
  split; [exact Hone|]. intros i j id id' org org' f f' a a' o o' Hi Hj Hpi Hpj.
  pose proof (Hone i _ f a o Hi Hpi) as H1. pose proof (Hone j _ f' a' o' Hj Hpj) as H2.
  destruct (jkey key w') as [v|]; [|by destruct H1 as (_ & _ & ? & ?)].
  destruct H1 as [H1 [x ->]], H2 as [H2 [y ->]]. rewrite H1 in H2. by injection H2 as <- <-.
Qed.
End OneOwner.

(** ** Examples *)

Definition owner_js : JsValue owner_record := {|
  js_eq_dec := owner_record_eq_dec;
  str_field _ _ := None;
  is_versioned := or_versioned;
  ser_length _ := 0;
|}.

Definition owner_embed : Embed owner_record owner_record := {| inj r := r; prj r := Some r; prj_inj _ := eq_refl |}.

Lemma ownerFields_roundtrip_witness :
  recordOwner (Some (ownerFields (User "u1" (Some "acme")) no_fields)) = Some (User "u1" (Some "acme")).
Proof. apply ownerFields_roundtrip; [split_and!; reflexivity|reflexivity]. Defined.

Lemma resolveCaller_sealed_witness : User "u1" None = User "u1" None.
Proof.
  apply (proj1 (resolveCaller_sealed (SealFields (Some "u1") None false) (Some "mallory") None (User "u1" None) eq_refl) "u1" eq_refl).
Defined.

Section RunIdentityWitness.
#[local] Existing Instances owner_js owner_embed.
Let h0 : oracle unit unit identity_error := λ _ _, Ok tt.
Let w0 : world owner_record unit := World empty_journal 0 0 [] empty_work.
Let calls : list (caller * owner_record) := [(User "u1" None, no_fields); (User "u2" None, no_fields); (Staff (Some "o"), no_fields)].
Let pool : list (prog owner_record unit unit identity_error (caller * run_owner identity_error)) :=
  map (λ '(c, f), admitRun full_caps id "r" c (Some f)) calls.
Let raced := schedule h0 (concat (replicate 12 [0; 1; 2])) (pool, w0).

(** Three callers race for a new run: one user gets in, and staff acts for that user. *)
Lemma admitRun_one_owner_witness :
  jkey "r:input" (snd raced) = Some (ownerFields (User "u1" None) no_fields) ∧
  recordOwner (Some (ownerFields (User "u1" None) no_fields)) = Some (User "u1" None) ∧
  fst raced !! 1 = Some (Throw (OwnerMismatch "u1" "u2")) ∧
  fst raced !! 2 = Some (Ret (User "u1" None, Owned (User "u1" None) KOther true)).
Proof.
  assert (Hrec : jkey "r:input" (snd raced) = Some (ownerFields (User "u1" None) no_fields)) by (vm_compute; reflexivity).
  assert (Hacts : fst raced !! 2 = Some (Ret (User "u1" None, Owned (User "u1" None) KOther true))) by (vm_compute; reflexivity).
  split; [exact Hrec|]. split; [|split; [vm_compute; reflexivity|exact Hacts]].
  assert (Hr : reachable (pool, w0) (fst raced, snd raced)) by (rewrite <- surjective_pairing; apply schedule_reachable).
  pose proof (proj1 (admitRun_one_owner (V:=owner_record) (Q:=unit) (R:=unit) (E:=identity_error) id "r" calls (fst raced) w0 (snd raced)
    (λ v Hv, ltac:(discriminate Hv)) Hr) 2 (Staff (Some "o")) no_fields (User "u1" None) (Owned (User "u1" None) KOther true) eq_refl Hacts) as H.
  change (rk_input "r") with "r:input" in H. rewrite Hrec in H. exact (proj1 H).
Defined.
End RunIdentityWitness.
