(* ===== verification/Cost.v ===== *)
(** * Cost: usage and price of a model step

    Models [flattenUsage] of [packages/durable/src/sdk-compat.ts],
    [modelRecordFacts] and [usageAndCostFromModelValue] of [cost.ts], and the price
    table of [pricing.ts] ([DEFAULT_PRICING], [priceFor], [costOf]).

    Token counts are integers.  Money is exact: a price is in millionths of a dollar per
    million tokens, a cost in units of 1e-12 dollars (the code computes in floating
    point). *)

From S2P Require Import Prelude JsMap Json Hash Format.

(** ** Usage *)

(** [v ?? 0] on a count. *)
Definition count_of (v : js) : Z := match v with JNum z => z | _ => 0 end.

(** [a ?? b]. *)
Definition js_or (a b : js) : js := match a with JUndef | JNull => b | _ => a end.

Record flat_usage := FlatUsage {
  fu_inputTokens : Z;
  fu_outputTokens : Z;
  fu_cachedTokens : Z;
  fu_totalTokens : Z;
}.

Definition flattenUsage (u : js) : flat_usage :=
  let inp := prop u "inputTokens" in
  let nested := match inp with JNull => false | _ => is_object inp end in
  let i := count_of (if nested then prop inp "total" else inp) in
  let o := count_of (if nested then prop (prop u "outputTokens") "total" else prop u "outputTokens") in
  let c := count_of (if nested then prop inp "cacheRead"
                     else js_or (prop u "cachedInputTokens") (prop u "cachedTokens")) in
  let t := match prop u "totalTokens" with JUndef | JNull => (i + o)%Z | v => count_of v end in
  FlatUsage i o c t.

(** ** Facts of a model record *)

Definition items_of (v : js) : list js := match v with JArr l => l | _ => [] end.

Definition find_part (type : string) (parts : list js) : js :=
  default JUndef (List.find (λ p, match prop p "type" with JStr t => String.eqb t type | _ => false end) parts).

Record model_facts := ModelFacts {
  mf_usage : js;
  mf_modelId : js;
  mf_finishReason : js;
}.

Definition modelRecordFacts (v : js) : model_facts :=
  let parts := items_of (prop v "parts") in
  let finish := find_part "finish" parts in
  ModelFacts
    (js_or (prop v "usage") (prop finish "usage"))
    (js_or (js_or (prop (prop v "response") "modelId") (prop (prop (prop v "rest") "response") "modelId"))
           (prop (find_part "response-metadata" parts) "modelId"))
    (js_or (prop v "finishReason") (prop finish "finishReason")).

Definition finishReasonText (reason : js) : option string :=
  match reason with
  | JUndef | JNull => None
  | JStr s => Some s
  | _ => match prop reason "unified" with
         | JStr s => Some s
         | _ => match prop reason "raw" with JStr s => Some s | _ => None end
         end
  end.

(** ** Prices *)

(** [None] stands for anything that is not a finite number. *)
Record model_pricing := ModelPricing {
  inputPer1M : option Z;
  outputPer1M : option Z;
  cachedInputPer1M : option (option Z);      (** [None]: the field is absent *)
}.

Abbreviation price_table := (list (string * model_pricing)).

Definition row (i o c : Z) : model_pricing := ModelPricing (Some i) (Some o) (Some (Some c)).
Definition row2 (i o : Z) : model_pricing := ModelPricing (Some i) (Some o) None.

Definition DEFAULT_PRICING : price_table :=
  [("claude-opus-4", row 15000000 75000000 1500000);
   ("claude-opus-4-5", row 5000000 25000000 500000);
   ("claude-opus-4-6", row 5000000 25000000 500000);
   ("claude-opus-4-7", row 5000000 25000000 500000);
   ("claude-opus-4-8", row 5000000 25000000 500000);
   ("claude-opus-5", row 5000000 25000000 500000);
   ("claude-sonnet-4", row 3000000 15000000 300000);
   ("claude-sonnet-5", row 2000000 10000000 200000);
   ("claude-haiku-3-5", row 800000 4000000 80000);
   ("claude-haiku-4", row 1000000 5000000 100000);
   ("claude-fable-5", row 10000000 50000000 1000000);
   ("claude-mythos-5", row 10000000 50000000 1000000);
   ("gpt-4o", row 2500000 10000000 1250000);
   ("gpt-4o-mini", row 150000 600000 75000);
   ("gpt-4.1", row 2000000 8000000 500000);
   ("gpt-4.1-mini", row 400000 1600000 100000);
   ("gpt-4.1-nano", row 100000 400000 25000);
   ("gpt-5", row 1250000 10000000 125000);
   ("gpt-5-mini", row 250000 2000000 25000);
   ("gpt-5-nano", row 50000 400000 5000);
   ("gpt-5-pro", row2 15000000 120000000);
   ("gpt-5.1", row 1250000 10000000 125000);
   ("gpt-5.2", row 1750000 14000000 175000);
   ("gpt-5.4", row 2500000 15000000 250000);
   ("gpt-5.5", row 5000000 30000000 500000);
   ("gpt-5.6-luna", row 200000 1200000 20000);
   ("o1", row 15000000 60000000 7500000);
   ("o1-pro", row2 150000000 600000000);
   ("o3", row 2000000 8000000 500000);
   ("o3-mini", row 1100000 4400000 550000);
   ("o3-pro", row2 20000000 80000000);
   ("o4-mini", row 1100000 4400000 275000)].

Definition usable_num (v : option Z) : bool := match v with Some z => (0 <=? z)%Z | None => false end.

Definition isUsablePrice (r : model_pricing) : bool :=
  usable_num (inputPer1M r) && usable_num (outputPer1M r) &&
  match cachedInputPer1M r with None => true | Some c => usable_num c end.

(** [keys.sort((a, b) => b.length - a.length)[0]]: the first of the longest. *)
Fixpoint longest (keys : list string) : option string :=
  match keys with
  | [] => None
  | k :: ks => match longest ks with
               | Some k' => if String.length k <? String.length k' then Some k' else Some k
               | None => Some k
               end
  end.

Definition price_key (modelId : string) (table : price_table) : option string :=
  if mhas modelId table then Some modelId
  else longest (filter (λ p, starts_with p modelId = true) (mkeys table)).

Definition priceFor (modelId : string) (table : price_table) : option model_pricing :=
  k ← price_key modelId table;
  r ← mget k table;
  if isUsablePrice r then Some r else None.

Definition price_of (p : option Z) : Z := default 0%Z p.

Definition costOf (u : flat_usage) (p : model_pricing) : Z :=
  let cached := fu_cachedTokens u in
  let input := Z.max 0 (fu_inputTokens u - cached) in
  let cachedPrice := match cachedInputPer1M p with Some c => price_of c | None => price_of (inputPer1M p) end in
  (input * price_of (inputPer1M p) + cached * cachedPrice + fu_outputTokens u * price_of (outputPer1M p))%Z.

Record step_usage := StepUsage {
  su_tokens : flat_usage;
  su_costUsd : Z;
  su_modelId : string;
  su_priced : bool;
}.

Definition usageAndCostFromModelValue (value : js) (optModelId : option string) (table : price_table)
    : option step_usage :=
  let facts := modelRecordFacts value in
  if negb (js_truthy (mf_usage facts)) then None
  else
    let u := flattenUsage (mf_usage facts) in
    let modelId := match mf_modelId facts with JStr s => s | _ => default "unknown" optModelId end in
    let pricing := priceFor modelId table in
    Some (StepUsage u (match pricing with Some p => costOf u p | None => 0%Z end) modelId
            (match pricing with Some _ => true | None => false end)).

(** The custom price document of the journal, over the defaults. *)
Record pricing_doc := PricingDoc { pd_models : option price_table; pd_replace : bool }.

Definition effectivePricingTable (doc : option pricing_doc) : price_table :=
  match doc with
  | Some d => match pd_models d with
              | None => DEFAULT_PRICING
              | Some m => if pd_replace d then m else fold_left (λ t '(k, r), mset k r t) m DEFAULT_PRICING
              end
  | None => DEFAULT_PRICING
  end.

(** ** Lemmas *)

Lemma longest_spec keys k :
  longest keys = Some k → k ∈ keys ∧ ∀ k', k' ∈ keys → String.length k' ≤ String.length k.
Proof.
  revert k. induction keys as [|x keys IH]; intros k; simpl; [done|].
  destruct (longest keys) as [y|] eqn:Hl.
  - destruct (IH y eq_refl) as [Hy Hmax]. destruct (Nat.ltb_spec (String.length x) (String.length y)); intros [= <-].
    + split; [by right|]. intros k' [->|Hk']%elem_of_cons; [lia|auto].
    + split; [by left|]. intros k' [->|Hk']%elem_of_cons; [lia|]. specialize (Hmax k' Hk'). lia.
  - intros [= <-]. split; [by left|]. intros k' [->|Hk']%elem_of_cons; [lia|].
    destruct keys as [|z keys]; [inversion Hk'|]. simpl in Hl. by destruct (longest keys) as [?|]; [destruct (_ <? _)|].
Qed.

Lemma longest_None keys : longest keys = None → keys = [].
Proof. destruct keys as [|x keys]; [done|]. simpl. by destruct (longest keys) as [?|]; [destruct (_ <? _)|]. Qed.

(** ** Properties *)

(** The row a model is priced with: the exact one if the table has it, otherwise
    the longest key that is a prefix of the model id; no row when no key is a prefix.  A row
    that is not a usable price is not replaced by another one: the step is then unpriced. *)
Theorem priceFor_most_specific (modelId : string) (table : price_table) :
  map_wf table →
  match price_key modelId table with
  | Some k =>
      k ∈ mkeys table ∧ starts_with k modelId = true ∧
      (∀ k', k' ∈ mkeys table → starts_with k' modelId = true → String.length k' ≤ String.length k) ∧
      ∃ r, mget k table = Some r ∧ priceFor modelId table = if isUsablePrice r then Some r else None
  | None => (∀ k, k ∈ mkeys table → starts_with k modelId = false) ∧ priceFor modelId table = None
  end.
Proof.
  intros Hwf. unfold priceFor. destruct (price_key modelId table) as [k|] eqn:Hk; unfold price_key in Hk.
  - assert (H : k ∈ mkeys table ∧ starts_with k modelId = true ∧
      ∀ k', k' ∈ mkeys table → starts_with k' modelId = true → String.length k' ≤ String.length k).
    { destruct (mhas modelId table) eqn:Hm.
      - injection Hk as <-. split_and!.
        + by apply elem_of_mkeys, mhas_true.
        + apply starts_with_spec. exists "". by rewrite str_app_nil_r.
        + intros k' _ [r Hr]%starts_with_spec. apply (f_equal String.length) in Hr.
          rewrite str_length_app in Hr. lia.
      - apply longest_spec in Hk as [[Hs Hin]%list_elem_of_filter Hmax].
        split_and!; [done..|]. intros k' Hk' Hs'. apply Hmax, list_elem_of_filter. done. }
    destruct H as (H1 & H2 & H3). split_and!; [done..|].
    apply elem_of_mkeys in H1 as [r Hr]. exists r. split; [done|]. simpl. by rewrite Hr.
  - split; [|done]. destruct (mhas modelId table); [done|]. apply longest_None in Hk.
    intros k Hin. apply not_true_iff_false. intros Hs.
    assert (k ∈ filter (λ p, starts_with p modelId = true) (mkeys table)) as Hf by (by apply list_elem_of_filter).
    rewrite Hk in Hf. inversion Hf.
Qed.

(** A spend ceiling is fed by non-negative costs: for non-negative token counts a
    usable price gives a non-negative cost, and reading more input, more output or fewer
    cached tokens never makes the step cheaper when the cached price is the lower one. *)
Theorem costOf_bounds (u u' : flat_usage) (p : model_pricing) :
  isUsablePrice p = true →
  (0 ≤ fu_cachedTokens u)%Z → (0 ≤ fu_outputTokens u)%Z →
  (0 ≤ costOf u p)%Z ∧
  ((fu_inputTokens u ≤ fu_inputTokens u')%Z → fu_cachedTokens u = fu_cachedTokens u' →
   (fu_outputTokens u ≤ fu_outputTokens u')%Z → (costOf u p ≤ costOf u' p)%Z) ∧
  ((∀ c, cachedInputPer1M p = Some c → (price_of c ≤ price_of (inputPer1M p))%Z) →
   (fu_cachedTokens u ≤ fu_inputTokens u)%Z →
   (costOf u p ≤ fu_inputTokens u * price_of (inputPer1M p) + fu_outputTokens u * price_of (outputPer1M p))%Z).
Proof.
  unfold isUsablePrice, usable_num, costOf. intros Hp Hc Ho.
  destruct p as [[i|] [o|] c]; simpl in *; try done; bool_to_prop; [|by destruct (0 <=? i)%Z].
  assert (Hcp : (0 ≤ match c with Some c0 => price_of c0 | None => i end)%Z).
  { destruct c as [[z|]|]; simpl; try done. bool_to_prop. lia. }
  set (cp := match c with Some c0 => price_of c0 | None => i end) in *.
  split_and!; [nia|intros; nia|].
  intros Hcheap Hle. assert (cp ≤ i)%Z.
  { unfold cp. destruct c as [c0|]; [by apply Hcheap|lia]. }
  nia.
Qed.

(** Upgrading a record does not change what it cost: a flat (version 1) usage and
    the nested usage [upgradeFormat] makes of it flatten to the same counts, when the flat one
    has no total of its own. *)
Theorem flattenUsage_upgraded (u : js) :
  is_object (prop u "inputTokens") = false →
  prop u "totalTokens" = JUndef → prop u "cachedTokens" = JUndef →
  flattenUsage (upgraded_usage u) = flattenUsage u.
Proof.
  intros Hi Ht Hc.
  assert (Hn : ∀ v, count_of (nullish v) = count_of v) by (by intros []).
  transitivity (FlatUsage (count_of (nullish (prop u "inputTokens"))) (count_of (nullish (prop u "outputTokens")))
                  (count_of (nullish (prop u "cachedInputTokens")))
                  (count_of (nullish (prop u "inputTokens")) + count_of (nullish (prop u "outputTokens")))).
  { reflexivity. }
  rewrite !Hn. unfold flattenUsage. rewrite Ht, Hc, Hi.
  assert (Hcc : count_of (js_or (prop u "cachedInputTokens") JUndef) = count_of (prop u "cachedInputTokens"))
    by (by destruct (prop u "cachedInputTokens")).
  destruct (prop u "inputTokens"); try done; by rewrite Hcc.
Qed.

(** ** Examples *)

Lemma default_pricing_wf : map_wf DEFAULT_PRICING.
Proof. apply (bool_decide_unpack _). vm_compute. exact I. Qed.

Lemma priceFor_most_specific_witness :
  priceFor "gpt-4o-mini-2024-07-18" DEFAULT_PRICING = Some (row 150000 600000 75000).
Proof.
  pose proof (priceFor_most_specific "gpt-4o-mini-2024-07-18" DEFAULT_PRICING default_pricing_wf) as H.
  assert (E : price_key "gpt-4o-mini-2024-07-18" DEFAULT_PRICING = Some "gpt-4o-mini") by (vm_compute; reflexivity).
  rewrite E in H. destruct H as (_ & _ & _ & r & Hr & ->).
  vm_compute in Hr. injection Hr as <-. reflexivity.
Defined.

Lemma costOf_bounds_witness : (0 ≤ costOf (FlatUsage 1000 200 400 1200) (row 2500000 10000000 1250000))%Z.
Proof. apply (costOf_bounds _ (FlatUsage 1000 200 400 1200)); [reflexivity|discriminate..]. Defined.

Lemma flattenUsage_upgraded_witness :
  flattenUsage (upgraded_usage (JObj [("inputTokens", JNum 12); ("outputTokens", JNum 3)])) = FlatUsage 12 3 0 15.
Proof. rewrite flattenUsage_upgraded; reflexivity. Defined.
