(* ===== verification/ToolTypes.v ===== *)
(** * ToolTypes: the records the tool engine keeps in the journal

    The data of [packages/durable/src/durable-tool.ts], [limits.ts] and the
    [ToolJournalRecord], [DurableCtx] and [RunLimits] types of [journal.ts] and
    [limits.ts].  A stored value is one of the engine's records, or any JavaScript
    value; [stampFormat] on write and [upgradeFormat] on read are the identity on the
    fields of these records (see [Format]). *)

From S2P Require Import Prelude JsMap Keys Journal Json Hash Format Taint RunIdentity Cost.

(** ** Equality of JavaScript values *)

Definition js_dec : EqDecision js.
Proof.
  refine (fix go (x y : js) : {x = y} + {x ≠ y} :=
    let r : EqDecision js := go in
    match x, y with
    | JUndef, JUndef => left eq_refl
    | JNull, JNull => left eq_refl
    | JOpaque a, JOpaque b => cast_if (decide (a = b))
    | JBool a, JBool b => cast_if (decide (a = b))
    | JNum a, JNum b => cast_if (decide (a = b))
    | JNonFinite a, JNonFinite b => cast_if (decide (a = b))
    | JBigInt a, JBigInt b => cast_if (decide (a = b))
    | JStr a, JStr b => cast_if (decide (a = b))
    | JDate a, JDate b => cast_if (decide (a = b))
    | JRegExp a c, JRegExp b d => cast_if_and (decide (a = b)) (decide (c = d))
    | JURL a, JURL b => cast_if (decide (a = b))
    | JSearchParams a, JSearchParams b => cast_if (decide (a = b))
    | JMap a, JMap b => cast_if (decide (a = b))
    | JSet a, JSet b => cast_if (decide (a = b))
    | JToJSON a, JToJSON b => cast_if (decide (a = b))
    | JArr a, JArr b => cast_if (decide (a = b))
    | JObj a, JObj b => cast_if (decide (a = b))
    | _, _ => right _
    end); clear r go; abstract congruence.
Defined.
#[global] Existing Instance js_dec.

(** ** Tool records *)

Inductive tool_status :=
| Succeeded (output : js) (argsHash : option string) (input : option js)
| Denied (output : js)
| Reflected (output : js) (argsHash : option string)
| Suspended (output : js)
| Failed (error : js) (attempts : option Z) (sideEffect : option bool)
| Running (startedAt : Z) (attempts : option Z).

Record tool_record := ToolRecord {
  tr_status : tool_status;
  tr_toolName : option string;
  tr_resolvedToolCallIds : option (list string);
  tr_mirrorOf : option string;
}.

Definition plain (s : tool_status) : tool_record := ToolRecord s None None None.

#[global] Instance tool_status_eq_dec : EqDecision tool_status.
Proof. solve_decision. Defined.
#[global] Instance tool_record_eq_dec : EqDecision tool_record.
Proof. solve_decision. Defined.

Definition status_text (s : tool_status) : string :=
  match s with
  | Succeeded _ _ _ => "succeeded" | Denied _ => "denied" | Reflected _ _ => "reflected"
  | Suspended _ => "suspended" | Failed _ _ _ => "failed" | Running _ _ => "running"
  end.

(** A record that is final: its output is what every later call gets. *)
Definition is_terminal (s : tool_status) : bool :=
  match s with Succeeded _ _ _ | Denied _ | Reflected _ _ => true | _ => false end.

Definition output_of (s : tool_status) : js :=
  match s with
  | Succeeded o _ _ | Denied o | Reflected o _ | Suspended o => o
  | Failed _ _ _ | Running _ _ => JUndef
  end.

Definition status_argsHash (s : tool_status) : option string :=
  match s with Succeeded _ h _ | Reflected _ h => h | _ => None end.

(** ** The other records *)

Record dup_marker := DupMarker {
  dm_firstToolCallId : string;
  dm_at : Z;
  dm_nudged : bool;
  dm_inFlight : bool;
  dm_released : bool;
}.

#[global] Instance dup_marker_eq_dec : EqDecision dup_marker.
Proof. solve_decision. Defined.

Record limit_chain := LimitChain {
  lc_lastToolName : option string;
  lc_lastArgsHash : option string;
  lc_consecutiveRepeats : Z;
  lc_reflected : bool;
  lc_subRunIds : list string;
}.

#[global] Instance limit_chain_eq_dec : EqDecision limit_chain.
Proof. solve_decision. Defined.

(** The counters of a run's limits; costs are in the unit of [Cost]. *)
Record limit_counters := LimitCounters {
  n_modelStepsSeen : Z;
  n_totalTokens : Z;
  n_costUsd : Z;
  n_succeededToolCalls : Z;
}.

#[global] Instance limit_counters_eq_dec : EqDecision limit_counters.
Proof. solve_decision. Defined.

#[global] Instance model_pricing_eq_dec : EqDecision model_pricing.
Proof. solve_decision. Defined.

#[global] Instance pricing_doc_eq_dec : EqDecision pricing_doc.
Proof. solve_decision. Defined.

(** What [compensateRun] records of one undone tool call. *)
Inductive comp_record :=
| Compensated (output : js) (at_ : Z)
| CompFailed (error : string) (attempts : Z)
| CompRunning (startedAt : Z).

#[global] Instance comp_record_eq_dec : EqDecision comp_record.
Proof. solve_decision. Defined.

(** ** Stored values *)

Inductive entry :=
| ETool (r : tool_record)
| EDup (m : dup_marker)
| EChain (c : limit_chain)
| ECounters (c : limit_counters)
| EPricing (d : pricing_doc)
| EOwner (o : owner_record)
| ETaint (t : run_taint)
| EProv (p : taint_provenance)
| EIncident (i : incident)
| EComp (c : comp_record)
| EJs (v : js).

Definition entry_eq_dec : EqDecision entry.
Proof. solve_decision. Defined.

Definition js_str (v : js) : option string := match v with JStr s => Some s | _ => None end.

Definition entry_field (e : entry) (f : string) : option string :=
  match e with
  | ETool r => if String.eqb f "status" then Some (status_text (tr_status r))
               else if String.eqb f "toolName" then tr_toolName r
               else if String.eqb f "mirrorOf" then tr_mirrorOf r else None
  | EOwner o => if String.eqb f "resourceId" then or_resourceId o
                else if String.eqb f "workflow" then or_workflow o else None
  | EComp c => if String.eqb f "status"
               then Some (match c with
                          | Compensated _ _ => "compensated" | CompFailed _ _ => "comp-failed" | CompRunning _ => "running"
                          end)
               else None
  | EJs v => js_str (prop v f)
  | _ => None
  end.

Definition entry_versioned (e : entry) : bool :=
  match e with
  | ETool _ => true
  | EOwner o => or_versioned o
  | EJs (JObj l) => mhas "_v" l
  | _ => false
  end.

(** The length of a stored value's text is read for RAM statistics only; it is exact
    on plain values. *)
Definition entry_length (e : entry) : nat :=
  match e with
  | EJs v => match stableStringify (λ s, s) v with Some s => String.length s | None => 0 end
  | _ => 0
  end.

#[global] Instance entry_js : JsValue entry := {|
  js_eq_dec := entry_eq_dec;
  str_field := entry_field;
  is_versioned := entry_versioned;
  ser_length := entry_length;
|}.

#[global] Instance tool_embed : Embed tool_record entry :=
  {| inj := ETool; prj e := match e with ETool x => Some x | _ => None end; prj_inj _ := eq_refl |}.
#[global] Instance dup_embed : Embed dup_marker entry :=
  {| inj := EDup; prj e := match e with EDup x => Some x | _ => None end; prj_inj _ := eq_refl |}.
#[global] Instance chain_embed : Embed limit_chain entry :=
  {| inj := EChain; prj e := match e with EChain x => Some x | _ => None end; prj_inj _ := eq_refl |}.
#[global] Instance counters_embed : Embed limit_counters entry :=
  {| inj := ECounters; prj e := match e with ECounters x => Some x | _ => None end; prj_inj _ := eq_refl |}.
#[global] Instance pricing_embed : Embed pricing_doc entry :=
  {| inj := EPricing; prj e := match e with EPricing x => Some x | _ => None end; prj_inj _ := eq_refl |}.
#[global] Instance entry_owner_embed : Embed owner_record entry :=
  {| inj := EOwner; prj e := match e with EOwner x => Some x | _ => None end; prj_inj _ := eq_refl |}.
#[global] Instance entry_taint_embed : Embed run_taint entry :=
  {| inj := ETaint; prj e := match e with ETaint x => Some x | _ => None end; prj_inj _ := eq_refl |}.
#[global] Instance entry_prov_embed : Embed taint_provenance entry :=
  {| inj := EProv; prj e := match e with EProv x => Some x | _ => None end; prj_inj _ := eq_refl |}.
#[global] Instance entry_incident_embed : Embed incident entry :=
  {| inj := EIncident; prj e := match e with EIncident x => Some x | _ => None end; prj_inj _ := eq_refl |}.
#[global] Instance entry_comp_embed : Embed comp_record entry :=
  {| inj := EComp; prj e := match e with EComp x => Some x | _ => None end; prj_inj _ := eq_refl |}.
#[global] Instance entry_js_embed : Embed js entry :=
  {| inj := EJs; prj e := match e with EJs x => Some x | _ => None end; prj_inj _ := eq_refl |}.

(** The model records of a run, as plain values. *)
Definition entry_value (e : entry) : js := match e with EJs v => v | _ => JUndef end.

(** ** Errors *)

(** Errors of [limits.ts]. *)
Inductive limits_error :=
| RunLimitExceeded (kind : string) (value limit : Z)
| Unenforceable (protections : list string)
| Unpriced (models : list string)
| LimitsOutOfFuel.

Inductive tool_error :=
| KeyErr (e : key_error)
| HashErr (typeof : string)
| RunBusy (key : string)
| SideEffectRetryBlocked (key : string) (attempts : Z)
| RetryLimitExceeded (key : string) (attempts maxRetries : Z)
| CompensatedRun (runId : string)
| Divergence (key expected actual : string)
| IdempotencyOwnerMismatch (toolName : string)
| LimitsErr (e : limits_error)
| HostError (e : js)              (** thrown by the host or the store *)
| OutOfFuel.

(** [error.name]. *)
Definition error_name (e : tool_error) : string :=
  match e with
  | RunBusy _ => "RunBusyError"
  | SideEffectRetryBlocked _ _ => "SideEffectRetryBlockedError"
  | RetryLimitExceeded _ _ _ => "RetryLimitExceededError"
  | CompensatedRun _ => "CompensatedRunError"
  | Divergence _ _ _ => "DivergenceError"
  | IdempotencyOwnerMismatch _ => "IdempotencyOwnerMismatchError"
  | HashErr _ => "TypeError"
  | _ => "Error"
  end.

(** ** Limits and policies *)

Inductive dup_action := DupOff | DupWarn | DupReflect | DupBlock | DupSuspend | DupSkip.
Inductive dup_scope := DupRun | DupThread.

#[global] Instance dup_action_eq_dec : EqDecision dup_action.
Proof. solve_decision. Defined.
#[global] Instance dup_scope_eq_dec : EqDecision dup_scope.
Proof. solve_decision. Defined.

Inductive effect_class := Transactional | Notification | IdempotentWrite | DeleteClass | ExternalApi.

#[global] Instance effect_class_eq_dec : EqDecision effect_class.
Proof. solve_decision. Defined.

Record dup_spec := DupSpec { ds_action : dup_action; ds_scope : option dup_scope; ds_ttlMs : option Z }.

(** [limits.sideEffectDuplicates]: one action, one spec, or a spec per effect class. *)
Inductive dup_setting :=
| DupAction (a : dup_action)
| DupOne (s : dup_spec)
| DupByClass (byClass : list (effect_class * dup_spec)) (dflt : option dup_spec).

Inductive taint_action := TaintOff | TaintWarn | TaintReflect | TaintBlock | TaintSuspend.

#[global] Instance taint_action_eq_dec : EqDecision taint_action.
Proof. solve_decision. Defined.

Record loop_detection := LoopDetection { ld_maxRepeats : option Z; ld_reflect : bool }.

(** Costs are in the unit of [Cost]. *)
Record run_limits := RunLimits {
  l_maxCostUsd : option Z;
  l_maxTokens : option Z;
  l_maxToolCalls : option Z;
  l_loopDetection : option loop_detection;
  l_sideEffectDuplicates : option dup_setting;
  l_approvalScopeAttempt : bool;
  l_taintedSideEffects : option taint_action;
  l_taintScopeThread : bool;
  l_strict : bool;
}.

Definition no_limits : run_limits := RunLimits None None None None None false None false false.

(** ** The preset policies of [policy-matrix.ts] *)

Inductive preset := Assistant | Headless | Critical.

Definition PRESET_MATRIX (p : preset) (c : effect_class) : dup_spec :=
  let thread a := DupSpec a (Some DupThread) None in
  let bare a := DupSpec a None None in
  match p, c with
  | Assistant, Transactional => thread DupSuspend
  | Assistant, Notification => thread DupSuspend
  | Assistant, IdempotentWrite => bare DupOff
  | Assistant, DeleteClass => thread DupSkip
  | Assistant, ExternalApi => bare DupOff
  | Headless, Transactional => thread DupBlock
  | Headless, Notification => thread DupSkip
  | Headless, IdempotentWrite => bare DupOff
  | Headless, DeleteClass => thread DupSkip
  | Headless, ExternalApi => bare DupOff
  | Critical, Transactional => thread DupSuspend
  | Critical, Notification => thread DupSuspend
  | Critical, IdempotentWrite => thread DupWarn
  | Critical, DeleteClass => thread DupSuspend
  | Critical, ExternalApi => thread DupSuspend
  end.

Definition PRESET_DEFAULT (p : preset) : dup_spec :=
  match p with
  | Assistant => DupSpec DupSuspend (Some DupThread) None
  | Headless => DupSpec DupBlock (Some DupThread) None
  | Critical => DupSpec DupSuspend (Some DupThread) None
  end.

(** ** Host requests of a tool call, and the answers, which are JavaScript values *)

Inductive tool_query :=
| QExecute (toolName toolCallId idempotencyKey : string) (input : js) (approvals : option (list (string * bool)))
| QGuard (toolName toolCallId : string) (input : js) (tainted : option run_taint)
| QRecover (toolName toolCallId idempotencyKey : string) (input : js)
| QLookup (toolName toolCallId idempotencyKey : string) (input : js)
| QProcess (i : nat) (toolName toolCallId : string) (input output : js).
