(* ===== verification/Limits.v ===== *)
(** * Limits: the run limits and the tool gate

    Models [packages/durable/src/limits.ts]: the counters and the repeat chain of a run,
    their seeding from the run's history, the step limits (tokens and cost, sub-agents
    included), and the gate a tool call passes before it runs (loop detection and
    [maxToolCalls]).  Costs are exact integers (see [Cost]).

    The store has [get] and [put]; its optional methods are the [journal_caps], where
    [has_incrBy] stands for [incrBy] with [getCounters].  The set of nested runs known
    to be absent, which the code keeps per store in memory, is threaded.  Warnings on
    the console are not modelled. *)

From S2P Require Import Prelude JsMap Keys Journal Work Prog Claim Json Hash Format Taint RunIdentity Cost ToolTypes.

(** ** State *)

Definition emptyCounters : limit_counters := LimitCounters 0 0 0 0.
Definition emptyChain : limit_chain := LimitChain None None 0 false [].

Definition LIMITS_CHAIN_NAME : string := "__gnl_limits_state".
Definition LIMITS_COUNTERS_NAME : string := "__gnl_limits_counters".
Definition chainKey (runId : string) : string := rk_proc runId LIMITS_CHAIN_NAME.
Definition countersKey (runId : string) : string := rk_proc runId LIMITS_COUNTERS_NAME.
Definition PRICING_KEY : string := "__pricing__".

Definition addCounters (a b : limit_counters) : limit_counters :=
  LimitCounters (n_modelStepsSeen a + n_modelStepsSeen b) (n_totalTokens a + n_totalTokens b)
    (n_costUsd a + n_costUsd b) (n_succeededToolCalls a + n_succeededToolCalls b).

Definition counters_of (m : jsmap Z) : limit_counters :=
  LimitCounters (default 0%Z (mget "modelStepsSeen" m)) (default 0%Z (mget "totalTokens" m))
    (default 0%Z (mget "costUsd" m)) (default 0%Z (mget "succeededToolCalls" m)).

(** The fields of a delta that are not zero. *)
Definition clean_delta (d : limit_counters) : list (string * Z) :=
  filter (λ '(_, v), v ≠ 0%Z)
    [("modelStepsSeen", n_modelStepsSeen d); ("totalTokens", n_totalTokens d);
     ("costUsd", n_costUsd d); ("succeededToolCalls", n_succeededToolCalls d)].

(** What a record says of a call's outcome: its status, and whether it is a failure of
    a side-effect tool. *)
Inductive outcome_status := OSucceeded | OReflected | OFailed (sideEffect : bool) | OOther.

Definition status_of (s : tool_status) : outcome_status :=
  match s with
  | Succeeded _ _ _ => OSucceeded
  | Reflected _ _ => OReflected
  | Failed _ _ se => OFailed (default false se)
  | Denied _ | Suspended _ | Running _ _ => OOther
  end.

Definition counts_as_call (s : outcome_status) : bool :=
  match s with OSucceeded => true | OFailed se => se | _ => false end.

Definition same_call (c : limit_chain) (toolName argsHash : option string) : bool :=
  bool_decide (lc_lastToolName c = toolName) && bool_decide (lc_lastArgsHash c = argsHash).

Definition applyToolOutcomeToChain (chain : limit_chain) (toolCallId : string)
    (toolName argsHash : option string) (status : outcome_status) : limit_chain :=
  let subRunIds :=
    if bool_decide (toolCallId ∈ lc_subRunIds chain) then lc_subRunIds chain
    else lc_subRunIds chain ++ [toolCallId] in
  match status with
  | OSucceeded =>
      if same_call chain toolName argsHash then
        LimitChain (lc_lastToolName chain) (lc_lastArgsHash chain) (lc_consecutiveRepeats chain + 1)
          (lc_reflected chain) subRunIds
      else LimitChain toolName argsHash 1 false subRunIds
  | OReflected =>
      LimitChain (lc_lastToolName chain) (lc_lastArgsHash chain) (lc_consecutiveRepeats chain)
        (same_call chain toolName argsHash || lc_reflected chain) subRunIds
  | _ => LimitChain None None 0 false subRunIds
  end.

Record cost_opts := CostOpts { co_modelId : option string; co_pricing : option price_table }.

(** Adds one model step; the models without a price are collected. *)
Definition applyModelStepDelta (opts : cost_opts) (value : js) (acc : limit_counters * list string)
    : limit_counters * list string :=
  let '(d, unpriced) := acc in
  match usageAndCostFromModelValue value (co_modelId opts) (default DEFAULT_PRICING (co_pricing opts)) with
  | Some u =>
      (addCounters d (LimitCounters 1 (fu_totalTokens (su_tokens u)) (su_costUsd u) 0),
       if su_priced u || bool_decide (su_modelId u ∈ unpriced) then unpriced else unpriced ++ [su_modelId u])
  | None => (addCounters d (LimitCounters 1 0 0 0), unpriced)
  end.

Definition unenforceableProtections (l : run_limits) : list string :=
  (if l_maxCostUsd l is Some _ then ["maxCostUsd"] else []) ++
  (if l_maxTokens l is Some _ then ["maxTokens"] else []) ++
  (if l_maxToolCalls l is Some _ then ["maxToolCalls"] else []) ++
  match l_loopDetection l ≫= ld_maxRepeats with
  | Some n => if (0 <? n)%Z then ["loopDetection"] else []
  | None => []
  end.

Inductive gate_kind := GateLoop | GateMaxToolCalls | GateReflect.

#[global] Instance gate_kind_eq_dec : EqDecision gate_kind.
Proof. solve_decision. Defined.

(** A breach and the figures its message and detail carry. *)
Record gate_breach := GateBreach {
  gb_kind : gate_kind;
  gb_value : Z;                (** repeats, or tool calls *)
  gb_limit : Z;
  gb_reflected : bool;
}.

(** The usage of sub-runs, and the runs met so far. *)
Record sub_total := SubTotal { st_tokens : Z; st_cost : Z; st_calls : Z }.
Record sub_state := SubState { ss_seen : list string; ss_absent : list string }.

Definition zeroTotal : sub_total := SubTotal 0 0 0.
Definition addTotal (a b : sub_total) : sub_total :=
  SubTotal (st_tokens a + st_tokens b) (st_cost a + st_cost b) (st_calls a + st_calls b).
Definition total_of (c : limit_counters) : sub_total :=
  SubTotal (n_totalTokens c) (n_costUsd c) (n_succeededToolCalls c).

(** The runs a call can have started: the id under its parent, and the bare one. *)
Definition candidates (parentRunId : option string) (toolCallId : string) : list string :=
  js_set [nestedAgentRunId parentRunId toolCallId "agent"; "agent:" +:+ toolCallId].

Section Limits.
Context {V : Type} `{!JsValue V, !Embed limit_chain V, !Embed limit_counters V,
  !Embed pricing_doc V, !Embed tool_record V, !Embed js V} {Q R E : Type}.
Variable caps : journal_caps.
Variable fail : limits_error → E.
Abbreviation prog := (prog V Q R E).

Definition model_value (v : V) : js := default JUndef (prj v).

Definition readChain (runId : string) : prog (option limit_chain) :=
  v ← jget (chainKey runId); mret (v ≫= prj).

Definition readCounters (runId : string) : prog (option limit_counters) :=
  c ← (if has_incrBy caps then request (RGetCounters (countersKey runId)) else mret None);
  match c with
  | Some m => mret (Some (counters_of m))
  | None => v ← jget (countersKey runId); mret (v ≫= prj)
  end.

Definition incrCounters (runId : string) (delta : limit_counters) : prog unit :=
  let key := countersKey runId in
  match clean_delta delta with
  | [] => mret tt
  | clean =>
      done ← (if has_incrBy caps
              then ptry (λ _, mret false) (_ ← request (RIncrBy key clean); mret true)
              else mret false);
      if done : bool then mret tt
      else
        cur ← jget key;
        jput key (inj (addCounters (default emptyCounters (cur ≫= prj)) delta))
  end.

Definition CHAIN_CAS_ATTEMPTS : nat := 3.

(** [true]: written. *)
Fixpoint chain_attempts (n : nat) (key : string) (mutate : limit_chain → limit_chain) : prog bool :=
  match n with
  | 0 => mret false
  | S n' =>
      cur ← jget key;
      let next := inj (mutate (default emptyChain (cur ≫= prj))) in
      won ← match cur with
            | None => if has_putIfAbsent caps then jputIfAbsent key next
                      else _ ← jput key next; mret true
            | Some c => if has_putIfMatch caps then jputIfMatch key c next
                        else _ ← jput key next; mret true
            end;
      if won : bool then mret true else chain_attempts n' key mutate
  end.

Definition writeChainCas (runId : string) (mutate : limit_chain → limit_chain) : prog unit :=
  let key := chainKey runId in
  done ← chain_attempts CHAIN_CAS_ATTEMPTS key mutate;
  if done : bool then mret tt
  else
    cur ← jget key;
    jput key (inj (mutate (default emptyChain (cur ≫= prj)))).

(** One entry of the history. *)
Definition seed_entry (runId : string) (opts : cost_opts)
    (acc : (limit_counters * list string) * limit_chain) (e : journal_entry V)
    : (limit_counters * list string) * limit_chain :=
  let '(cs, chain) := acc in
  match je_kind e with
  | KModel => (applyModelStepDelta opts (model_value (je_value e)) cs, chain)
  | KTool =>
      match strip_prefix (runId +:+ ":tool:") (je_key e) with
      | None => acc
      | Some toolCallId =>
          match prj (je_value e) with
          | None => (cs, applyToolOutcomeToChain chain toolCallId None None OOther)
          | Some rec =>
              match tr_mirrorOf rec with
              | Some _ => acc
              | None =>
                  let st := status_of (tr_status rec) in
                  let counts := if counts_as_call st then LimitCounters 0 0 0 1 else emptyCounters in
                  ((addCounters (fst cs) counts, snd cs),
                   applyToolOutcomeToChain chain toolCallId (tr_toolName rec)
                     (status_argsHash (tr_status rec)) st)
              end
          end
      end
  end.

Definition seedFromHistory (runId : string) (opts : cost_opts) (unpriced : list string)
    : prog ((limit_counters * list string) * limit_chain) :=
  entries ← request (RReadRun runId);
  mret (fold_left (seed_entry runId opts) entries ((emptyCounters, unpriced), emptyChain)).

(** Whether this call seeded the state, and the models without a price. *)
Definition ensureSeeded (runId : string) (opts : cost_opts) (unpriced : list string)
    : prog (bool * list string) :=
  c ← readChain runId;
  match c with
  | Some _ => mret (false, unpriced)
  | None =>
      if negb (has_readRun caps) then mret (false, unpriced)
      else
        '((counters, unpriced'), chain) ← seedFromHistory runId opts unpriced;
        won ← claim caps (chainKey runId) (inj chain);
        if won : bool then _ ← incrCounters runId counters; mret (true, unpriced')
        else mret (false, unpriced')
  end.

(** The runs of [ids] in turn. *)
Fixpoint visit_runs (visit : string → sub_state → prog (sub_total * sub_state)) (ids : list string)
    (st : sub_state) : prog (sub_total * sub_state) :=
  match ids with
  | [] => mret (zeroTotal, st)
  | id :: ids' =>
      '(t, st1) ← visit id st;
      '(t', st2) ← visit_runs visit ids' st1;
      mret (addTotal t t', st2)
  end.

(** [fuel] bounds the depth of the nesting. *)
Fixpoint sumSubRuns (fuel : nat) (parentRunId : option string) (subRunIds : list string)
    (st : sub_state) : prog (sub_total * sub_state) :=
  match fuel with
  | 0 => Throw (fail LimitsOutOfFuel)
  | S fuel' =>
      visit_runs (λ nestedRunId st,
        if bool_decide (nestedRunId ∈ ss_seen st) || bool_decide (nestedRunId ∈ ss_absent st)
        then mret (zeroTotal, st)
        else
          let st1 := SubState (nestedRunId :: ss_seen st) (ss_absent st) in
          nested ← readCounters nestedRunId;
          match nested with
          | None => mret (zeroTotal, SubState (ss_seen st1) (nestedRunId :: ss_absent st1))
          | Some c =>
              nestedChain ← readChain nestedRunId;
              match default [] (lc_subRunIds <$> nestedChain) with
              | [] => mret (total_of c, st1)
              | ids =>
                  '(grand, st2) ← sumSubRuns fuel' (Some nestedRunId) ids st1;
                  mret (addTotal (total_of c) grand, st2)
              end
          end) (subRunIds ≫= candidates parentRunId) st
  end.

(** The model records from [modelStepsSeen] on, up to the first that is missing. *)
Fixpoint computeModelStepsDelta (fuel : nat) (runId : string) (seen : Z) (opts : cost_opts)
    (acc : limit_counters * list string) : prog (limit_counters * list string) :=
  rec ← jget (rk_model runId (dec (Z.to_N seen)));
  match rec with
  | None => mret acc
  | Some v =>
      match fuel with
      | 0 => Throw (fail LimitsOutOfFuel)
      | S fuel' =>
          computeModelStepsDelta fuel' runId (seen + 1) opts (applyModelStepDelta opts (model_value v) acc)
      end
  end.

Definition reportUnenforceableLimits (l : run_limits) : prog unit :=
  match unenforceableProtections l with
  | [] => mret tt
  | disabled => if l_strict l then Throw (fail (Unenforceable disabled)) else mret tt
  end.

Definition readPricingTable : prog price_table :=
  doc ← jget PRICING_KEY; mret (effectivePricingTable (doc ≫= prj)).

Definition over (limit : option Z) (value : Z) : option Z :=
  match limit with Some n => if (n <? value)%Z then Some n else None | None => None end.

(** Returns the absent nested runs it learnt of. *)
Definition enforceStepLimits (fuel : nat) (runId : string) (limits : option run_limits) (opts0 : cost_opts)
    (absent : list string) : prog (list string) :=
  match limits with
  | None => mret absent
  | Some l =>
  match l_maxCostUsd l, l_maxTokens l with
  | None, None => mret absent
  | _, _ =>
      if negb (has_readRun caps) then _ ← reportUnenforceableLimits l; mret absent
      else
        opts ← match co_pricing opts0 with
               | Some _ => mret opts0
               | None => t ← readPricingTable; mret (CostOpts (co_modelId opts0) (Some t))
               end;
        '(_, unpriced) ← ensureSeeded runId opts [];
        c ← readCounters runId;
        let counters0 := default emptyCounters c in
        '(delta, unpriced') ← computeModelStepsDelta fuel runId (n_modelStepsSeen counters0) opts
                                (emptyCounters, unpriced);
        counters ← (if (n_modelStepsSeen delta =? 0)%Z then mret counters0
                    else _ ← incrCounters runId delta; mret (addCounters counters0 delta));
        ch ← readChain runId;
        '(subtotal, st) ← sumSubRuns fuel (Some runId) (lc_subRunIds (default emptyChain ch))
                            (SubState [runId] absent);
        let totalTokens := (n_totalTokens counters + st_tokens subtotal)%Z in
        let costUsd := (n_costUsd counters + st_cost subtotal)%Z in
        match over (l_maxTokens l) totalTokens with
        | Some n => Throw (fail (RunLimitExceeded "maxTokens" totalTokens n))
        | None =>
            if bool_decide (is_Some (l_maxCostUsd l)) && negb (bool_decide (unpriced' = [])) && l_strict l
            then Throw (fail (Unpriced unpriced'))
            else match over (l_maxCostUsd l) costUsd with
                 | Some n => Throw (fail (RunLimitExceeded "maxCostUsd" costUsd n))
                 | None => mret (ss_absent st)
                 end
        end
  end end.

(** The breach of the repeat limit, from the chain. *)
Definition loop_breach (chain : limit_chain) (toolName hash : string) (d : option loop_detection)
    : option gate_breach :=
  match d ≫= ld_maxRepeats with
  | Some maxRepeats =>
      if (0 <? maxRepeats)%Z then
        let prior := if same_call chain (Some toolName) (Some hash) then lc_consecutiveRepeats chain else 0%Z in
        if (maxRepeats <=? prior)%Z then
          let kind := if default false (ld_reflect <$> d) && negb (lc_reflected chain)
                      then GateReflect else GateLoop in
          Some (GateBreach kind prior maxRepeats (lc_reflected chain))
        else None
      else None
  | None => None
  end.

Definition needs_state (l : run_limits) : bool :=
  match l_loopDetection l ≫= ld_maxRepeats with Some n => (0 <? n)%Z | None => false end ||
  match l_maxToolCalls l with Some _ => true | None => false end.

Definition checkToolGate (fuel : nat) (runId toolName hash : string) (limits : option run_limits)
    (absent : list string) : prog (option gate_breach) :=
  match limits with
  | None => mret None
  | Some l =>
      if negb (has_readRun caps) then _ ← reportUnenforceableLimits l; mret None
      else if negb (needs_state l) then mret None
      else
        t ← readPricingTable;
        _ ← ensureSeeded runId (CostOpts None (Some t)) [];
        ch ← readChain runId;
        let chain := default emptyChain ch in
        match loop_breach chain toolName hash (l_loopDetection l) with
        | Some b => mret (Some b)
        | None =>
            match l_maxToolCalls l with
            | None => mret None
            | Some n =>
                c ← readCounters runId;
                '(subtotal, _) ← sumSubRuns fuel (Some runId) (lc_subRunIds chain) (SubState [runId] absent);
                let calls := (n_succeededToolCalls (default emptyCounters c) + st_calls subtotal)%Z in
                if (n <=? calls)%Z then mret (Some (GateBreach GateMaxToolCalls calls n false))
                else mret None
            end
        end
  end.

Definition recordToolOutcome (runId toolCallId toolName hash : string) (status : outcome_status)
    (limits : option run_limits) : prog unit :=
  ch ← readChain runId;
  let go :=
    _ ← (if counts_as_call status then incrCounters runId (LimitCounters 0 0 0 1) else mret tt);
    writeChainCas runId (λ chain, applyToolOutcomeToChain chain toolCallId (Some toolName) (Some hash) status) in
  match ch with
  | Some _ => go
  | None =>
      if negb (has_readRun caps)
      then match limits with Some l => reportUnenforceableLimits l | None => mret tt end
      else
        t ← readPricingTable;
        '(won, _) ← ensureSeeded runId (CostOpts None (Some t)) [];
        if won : bool then mret tt else go
  end.
End Limits.

(** ** The repeat chain *)

(** An outcome of a call: its id, tool, arguments and status. *)
Record call_outcome := CallOutcome {
  oc_toolCallId : string;
  oc_toolName : option string;
  oc_argsHash : option string;
  oc_status : outcome_status;
}.

Definition apply_outcome (c : limit_chain) (o : call_outcome) : limit_chain :=
  applyToolOutcomeToChain c (oc_toolCallId o) (oc_toolName o) (oc_argsHash o) (oc_status o).

(** The specification, on the outcomes from the last to the first: how many times in
    a row the same call succeeded, nudges not counted, and whether a nudge was given
    about this very streak. *)
Fixpoint streak (name hash : option string) (last_first : list call_outcome) : Z :=
  match last_first with
  | [] => 0
  | o :: os =>
      match oc_status o with
      | OSucceeded =>
          if bool_decide (oc_toolName o = name) && bool_decide (oc_argsHash o = hash)
          then (1 + streak name hash os)%Z else 0%Z
      | OReflected => streak name hash os
      | _ => 0%Z
      end
  end.

Lemma streak_nonneg name hash os : (0 ≤ streak name hash os)%Z.
Proof.
  induction os as [|o os IH]; simpl; [lia|].
  destruct (oc_status o); try lia. destruct (_ && _); lia.
Qed.

(** What the chain counts. *)
Definition counted (c : limit_chain) (name hash : option string) : Z :=
  if same_call c name hash then lc_consecutiveRepeats c else 0%Z.

Lemma counted_streak c os name hash :
  c = fold_left apply_outcome os emptyChain → counted c name hash = streak name hash (rev os).
Proof.
  intros ->. revert name hash. induction os as [|o os IH] using rev_ind; intros name hash.
  { unfold counted, emptyChain. simpl. by destruct (same_call _ _ _). }
  rewrite fold_left_app, rev_app_distr. simpl. specialize (IH name hash).
  set (c := fold_left apply_outcome os emptyChain) in *.
  unfold apply_outcome, applyToolOutcomeToChain, counted, same_call in *.
  destruct (oc_status o); simpl.
  - destruct (bool_decide (lc_lastToolName c = oc_toolName o) && bool_decide (lc_lastArgsHash c = oc_argsHash o)) eqn:Hs; simpl.
    + apply andb_true_iff in Hs as [H1%bool_decide_eq_true H2%bool_decide_eq_true].
      rewrite <- H1, <- H2, <- IH. destruct (_ && _); lia.
    + destruct (bool_decide (oc_toolName o = name) && bool_decide (oc_argsHash o = hash)) eqn:Hn; [|done].
      apply andb_true_iff in Hn as [Hn1%bool_decide_eq_true Hn2%bool_decide_eq_true].
      rewrite Hn1, Hn2 in Hs. rewrite <- IH, Hs. lia.
  - exact IH.
  - by repeat case_bool_decide.
  - by repeat case_bool_decide.
Qed.

(** Whether a nudge was given since the streak of this call began. *)
Fixpoint nudged (name hash : option string) (last_first : list call_outcome) : bool :=
  match last_first with
  | [] => false
  | o :: os =>
      let same := bool_decide (oc_toolName o = name) && bool_decide (oc_argsHash o = hash) in
      match oc_status o with
      | OSucceeded => same && nudged name hash os
      | OReflected => (same && (0 <? streak name hash os)%Z) || nudged name hash os
      | _ => false
      end
  end.

Lemma nudged_streak name hash os : nudged name hash os = true → (0 < streak name hash os)%Z.
Proof.
  induction os as [|o os IH]; simpl; [done|]. destruct (oc_status o); try done.
  - intros [Hs Hn]%andb_true_iff. rewrite Hs. specialize (IH Hn). lia.
  - intros [[_ Hs%Z.ltb_lt]%andb_true_iff|Hn]%orb_true_iff; auto.
Qed.

Definition was_nudged (c : limit_chain) (name hash : option string) : bool :=
  same_call c name hash && lc_reflected c.

Lemma same_call_spec c name hash :
  same_call c name hash = true ↔ lc_lastToolName c = name ∧ lc_lastArgsHash c = hash.
Proof. unfold same_call. rewrite andb_true_iff, !bool_decide_eq_true. done. Qed.

(** A chain that names a tool has seen it succeed. *)
Lemma same_call_positive os name hash :
  let c := fold_left apply_outcome os emptyChain in
  same_call c (Some name) hash = true ↔ (0 < streak (Some name) hash (rev os))%Z.
Proof.
  intros c. rewrite <- (counted_streak c os (Some name) hash eq_refl). unfold counted.
  assert (Hpos : lc_lastToolName c = None ∨ (0 < lc_consecutiveRepeats c)%Z).
  { subst c. induction os as [|o os IH] using rev_ind; [by left|].
    rewrite fold_left_app. simpl. set (c := fold_left apply_outcome os emptyChain) in *.
    unfold apply_outcome, applyToolOutcomeToChain.
    destruct (oc_status o); try (by left); try destruct (same_call c _ _); simpl; try naive_solver lia. }
  destruct (same_call c (Some name) hash) eqn:Hs; [|split; [done|lia]].
  apply same_call_spec in Hs as [Hn _]. destruct Hpos; [congruence|]. done.
Qed.

Lemma chain_nudged os name hash :
  was_nudged (fold_left apply_outcome os emptyChain) (Some name) hash = nudged (Some name) hash (rev os).
Proof.
  induction os as [|o os IH] using rev_ind.
  { unfold was_nudged. done. }
  pose proof (same_call_positive os name hash) as Hpos. revert IH Hpos. unfold was_nudged.
  rewrite fold_left_app, rev_app_distr. simpl. set (c := fold_left apply_outcome os emptyChain) in *.
  intros IH Hpos. unfold apply_outcome, applyToolOutcomeToChain. rewrite <- IH.
  assert (Hstreak : (0 <? streak (Some name) hash (rev os))%Z = same_call c (Some name) hash).
  { destruct (same_call c (Some name) hash); [by apply Z.ltb_lt, Hpos|].
    apply Z.ltb_ge. destruct (Z.le_gt_cases (streak (Some name) hash (rev os)) 0) as [|H%Z.lt_gt]; [done|].
    apply Z.gt_lt, Hpos in H. done. }
  destruct (oc_status o); try done; unfold same_call in *; simpl.
  - destruct (bool_decide (lc_lastToolName c = oc_toolName o)) eqn:E1; simpl;
    [apply bool_decide_eq_true in E1; rewrite <- E1;
      destruct (bool_decide (lc_lastArgsHash c = oc_argsHash o)) eqn:E2; simpl;
      [apply bool_decide_eq_true in E2; rewrite <- E2|]|]; simpl;
      rewrite ?andb_false_r; repeat case_bool_decide; simpl; try done; congruence.
  - rewrite Hstreak. repeat case_bool_decide; simpl; try done; congruence.
Qed.

(** ** A run on its own *)

Section LimitsAlone.
Context {V : Type} `{!JsValue V, !Embed limit_chain V, !Embed limit_counters V,
  !Embed pricing_doc V, !Embed tool_record V, !Embed js V} {Q R E : Type}.
Variable fail : limits_error → E.
Variable h : oracle Q R E.
Abbreviation prog := (prog V Q R E).

(** The recorded outcomes of a run, in order. *)
Record recorded := Recorded { rd_id : string; rd_tool : string; rd_hash : string; rd_status : outcome_status }.

Definition to_outcome (o : recorded) : call_outcome :=
  CallOutcome (rd_id o) (Some (rd_tool o)) (Some (rd_hash o)) (rd_status o).

Fixpoint recordAll (runId : string) (limits : option run_limits) (os : list recorded) : prog unit :=
  match os with
  | [] => mret tt
  | o :: os' =>
      _ ← recordToolOutcome full_caps fail runId (rd_id o) (rd_tool o) (rd_hash o) (rd_status o) limits;
      recordAll runId limits os'
  end.

Definition calls_counted (os : list recorded) : Z := Z.of_nat (count_if (λ o, counts_as_call (rd_status o)) os).

Definition counter_of (runId : string) (w : world V Q) : limit_counters :=
  default emptyCounters (counters_of <$> mj_getCounters (countersKey runId) (jr w)).

Lemma run_writeChainCas runId mutate (w : world V Q) c :
  jkey (chainKey runId) w = Some (inj c) →
  run h (writeChainCas (Q:=Q) (R:=R) (E:=E) full_caps runId mutate) w =
    (Ok tt, set_jr (MemJournal (mset (chainKey runId) (inj (mutate c)) (store (jr w))) (times (jr w)) (counters (jr w))) w).
Proof.
  intros Hc. unfold jkey in Hc. unfold writeChainCas, CHAIN_CAS_ATTEMPTS. simpl. rewrite Hc. simpl.
  rewrite prj_inj, mj_putIfMatch_spec. rewrite Hc, bool_decide_eq_true_2 by done. done.
Qed.

(** *** The usage of the sub-runs *)

(** The counters [readCounters] finds, and the runs a run may have started. *)
Definition meter (w : world V Q) (runId : string) : option limit_counters :=
  match mj_getCounters (countersKey runId) (jr w) with
  | Some m => Some (counters_of m)
  | None => jkey (countersKey runId) w ≫= prj
  end.

Definition chain_at (w : world V Q) (runId : string) : option limit_chain := jkey (chainKey runId) w ≫= prj.

Definition children (w : world V Q) (runId : string) : list string :=
  match meter w runId with
  | Some _ => default [] (lc_subRunIds <$> chain_at w runId) ≫= candidates (Some runId)
  | None => []
  end.

(** The runs below [runId], in the journal. *)
Inductive descends (w : world V Q) (ids : list string) : string → Prop :=
| desc_here x : x ∈ ids → descends w ids x
| desc_below y x : descends w ids y → x ∈ children w y → descends w ids x.

Definition totals (w : world V Q) (ids : list string) : sub_total :=
  foldr (λ id t, addTotal (default zeroTotal (total_of <$> meter w id)) t) zeroTotal ids.

(** The runs with counters that were not met yet. *)
Definition unmet (w : world V Q) (seen : list string) : nat :=
  count_if (λ k, negb (bool_decide (k ∈ map countersKey seen))) (mkeys (store (jr w)) ++ mkeys (counters (jr w))).

Lemma addTotal_assoc a b c : addTotal a (addTotal b c) = addTotal (addTotal a b) c.
Proof. unfold addTotal. simpl. f_equal; lia. Qed.

Lemma addTotal_comm a b : addTotal a b = addTotal b a.
Proof. unfold addTotal. f_equal; lia. Qed.

Lemma addTotal_zero a : addTotal zeroTotal a = a.
Proof. by destruct a. Qed.

Lemma totals_app w a b : totals w (a ++ b) = addTotal (totals w b) (totals w a).
Proof.
  induction a as [|x a IH]; simpl; [by rewrite addTotal_comm, addTotal_zero|].
  rewrite IH, (addTotal_comm (totals w b)), addTotal_assoc. apply addTotal_comm.
Qed.

Lemma run_readCounters runId w :
  run h (readCounters (V:=V) (Q:=Q) (R:=R) (E:=E) full_caps runId) w = (Ok (meter w runId), w).
Proof. unfold readCounters, meter. simpl. by destruct (mj_getCounters _ _). Qed.

Lemma run_readChain runId w : run h (readChain (V:=V) (Q:=Q) (R:=R) (E:=E) runId) w = (Ok (chain_at w runId), w).
Proof. done. Qed.

Lemma unmet_mono w a b : (∀ x, x ∈ a → x ∈ b) → unmet w b ≤ unmet w a.
Proof.
  intros Hab. apply count_if_mono. intros k. rewrite !negb_true_iff, !bool_decide_eq_false.
  intros Hk (x & -> & Hx)%list_elem_of_fmap. apply Hk, list_elem_of_fmap. eauto.
Qed.

Lemma unmet_step w id seen c : meter w id = Some c → id ∉ seen → unmet w (id :: seen) < unmet w seen.
Proof.
  intros Hm Hid. apply count_if_lt with (x := countersKey id).
  - intros k. rewrite !negb_true_iff, !bool_decide_eq_false. simpl. set_solver.
  - apply elem_of_app. rewrite !elem_of_mkeys. unfold meter, jkey, mj_getCounters, mj_get in Hm.
    destruct (mget (countersKey id) (counters (jr w))); [by right; eexists|].
    destruct (mget (countersKey id) (store (jr w))); [by left; eexists|done].
  - rewrite negb_false_iff, bool_decide_eq_true. by left.
  - rewrite negb_true_iff, bool_decide_eq_false. intros (x & Hx & Hs)%list_elem_of_fmap.
    apply str_app_inj_r in Hx as ->. done.
Qed.

Section SubRuns.
Variable w : world V Q.
(** A set of runs closed under nesting; the runs met below come from it. *)
Variable D : string → Prop.
Hypothesis D_closed : ∀ y x, D y → x ∈ children w y → D x.

Definition known (st : sub_state) (x : string) : Prop := x ∈ ss_seen st ∨ x ∈ ss_absent st.

(** From [st] to [st'], the runs newly met are met once, their counters make up [t], and
    the runs below them are met too. *)
Definition walked (st : sub_state) (t : sub_total) (st' : sub_state) : Prop :=
  ∃ new, ss_seen st' = new ++ ss_seen st ∧ NoDup new ∧ (∀ x, x ∈ new → (x ∉ ss_seen st) ∧ (x ∉ ss_absent st) ∧ D x) ∧
    t = totals w new ∧ (∀ x, x ∈ ss_absent st → x ∈ ss_absent st') ∧
    (∀ x, x ∈ ss_absent st' → x ∈ ss_absent st ∨ meter w x = None) ∧
    (∀ y x, y ∈ new → x ∈ children w y → known st' x).

Lemma known_walked st t st' x : walked st t st' → known st x → known st' x.
Proof. intros (new & Hs & _ & _ & _ & Ha & _) [H|H]; [left; rewrite Hs; set_solver|right; auto]. Qed.

Lemma walked_refl st : walked st zeroTotal st.
Proof. exists []. split_and!; try done; try constructor; set_solver. Qed.

Lemma walked_trans st t st1 t' st2 :
  walked st t st1 → walked st1 t' st2 → walked st (addTotal t t') st2.
Proof.
  intros (n1 & Hs1 & Hd1 & Hn1 & -> & Ha1 & Hm1 & Hc1) H2. pose proof H2 as (n2 & Hs2 & Hd2 & Hn2 & -> & Ha2 & Hm2 & Hc2).
  exists (n2 ++ n1). split_and!.
  - by rewrite Hs2, Hs1, app_assoc.
  - apply NoDup_app. split_and!; [done| |done]. intros x Hx Hx1. apply (proj1 (Hn2 x Hx)). rewrite Hs1. set_solver.
  - intros x [Hx|Hx]%elem_of_app; [|by apply Hn1]. destruct (Hn2 x Hx) as (Ho & Hab & HD).
    split_and!; [rewrite Hs1 in Ho; set_solver|auto|done].
  - by rewrite totals_app.
  - auto.
  - intros x Hx. destruct (Hm2 x Hx) as [H|H]; [by apply Hm1|by right].
  - intros y x [Hy|Hy]%elem_of_app Hx; [by eapply Hc2|]. eapply known_walked; [exact H2|]. by eapply Hc1.
Qed.

Lemma run_visit_runs (visit : string → sub_state → prog (sub_total * sub_state)) (bound : nat) :
  (∀ id st, D id → unmet w (ss_seen st) ≤ bound →
     ∃ t st', run h (visit id st) w = (Ok (t, st'), w) ∧ walked st t st' ∧ known st' id) →
  ∀ ids st, (∀ id, id ∈ ids → D id) → unmet w (ss_seen st) ≤ bound →
  ∃ t st', run h (visit_runs visit ids st) w = (Ok (t, st'), w) ∧ walked st t st' ∧ ∀ id, id ∈ ids → known st' id.
Proof.
  intros Hv. induction ids as [|id ids IH]; intros st HD Hb.
  { exists zeroTotal, st. split_and!; [done|apply walked_refl|set_solver]. }
  destruct (Hv id st) as (t & st1 & Hr & Hw & Hk); [apply HD; by left|done|].
  destruct (IH st1) as (t' & st2 & Hr' & Hw' & Hk'); [intros; apply HD; by right| |].
  { etrans; [|exact Hb]. apply unmet_mono. destruct Hw as (new & -> & _). set_solver. }
  exists (addTotal t t'), st2. split_and!.
  - cbn [visit_runs]. unfold mbind, prog_bind. rewrite run_bind, Hr, run_bind, Hr'. done.
  - by eapply walked_trans.
  - intros x [->|Hx]%elem_of_cons; [by eapply known_walked|auto].
Qed.

Lemma sumSubRuns_walk fuel parent ids st :
  (∀ x, x ∈ ids ≫= candidates parent → D x) → unmet w (ss_seen st) < fuel →
  ∃ t st', run h (sumSubRuns full_caps fail fuel parent ids st) w = (Ok (t, st'), w) ∧
    walked st t st' ∧ ∀ x, x ∈ ids ≫= candidates parent → known st' x.
Proof.
  revert parent ids st. induction fuel as [|fuel IH]; intros parent ids st HD Hf; [lia|].
  cbn [sumSubRuns]. apply (run_visit_runs _ fuel); [|done|lia]. clear st ids Hf HD.
  intros id st HDid Hb. destruct (_ || _) eqn:Hmet.
  { exists zeroTotal, st. split_and!; [done|apply walked_refl|].
    apply orb_true_iff in Hmet as [?%bool_decide_eq_true|?%bool_decide_eq_true]; [by left|by right]. }
  apply orb_false_iff in Hmet as [Hseen%bool_decide_eq_false Habs%bool_decide_eq_false].
  unfold mbind, prog_bind. rewrite run_bind, run_readCounters.
  destruct (meter w id) as [c|] eqn:Hm.
  - rewrite run_bind, run_readChain. destruct (default [] (lc_subRunIds <$> chain_at w id)) as [|i is_] eqn:Hch.
    + exists (total_of c), (SubState (id :: ss_seen st) (ss_absent st)). split_and!; [done| |by left; left].
      exists [id]. simpl. rewrite Hm. simpl. rewrite addTotal_comm, addTotal_zero.
      split_and!; [done|apply NoDup_singleton|set_solver|done|auto|auto|].
      intros y x ->%list_elem_of_singleton Hx. unfold children in Hx. rewrite Hm, Hch in Hx. inversion Hx.
    + destruct (IH (Some id) (i :: is_) (SubState (id :: ss_seen st) (ss_absent st))) as (t & st2 & Hr & Hw & Hk).
      { intros x Hx. apply (D_closed id); [done|]. unfold children. by rewrite Hm, Hch. }
      { simpl. eapply Nat.lt_le_trans; [by eapply unmet_step|]. lia. }
      exists (addTotal (total_of c) t), st2. split_and!.
      * by rewrite run_bind, Hr.
      * destruct Hw as (new & Hs & Hd & Hn & -> & Ha & Hma & Hc). simpl in *. exists (new ++ [id]). split_and!.
        -- rewrite Hs. by rewrite <- app_assoc.
        -- apply NoDup_app. split_and!; [done| |apply NoDup_singleton]. intros x Hx ->%list_elem_of_singleton. destruct (Hn id Hx) as [Hx' _]. set_solver.
        -- intros x [Hx| ->%list_elem_of_singleton]%elem_of_app; [|done]. destruct (Hn x Hx) as (H1 & H2 & H3). set_solver.
        -- rewrite totals_app. simpl. rewrite Hm. simpl. by rewrite (addTotal_comm _ zeroTotal), addTotal_zero.
        -- auto.
        -- auto.
        -- intros y x [Hy| ->%list_elem_of_singleton]%elem_of_app Hx; [by eapply Hc|].
           apply Hk. unfold children in Hx. by rewrite Hm, Hch in Hx.
      * left. destruct Hw as (new & Hs & _). rewrite Hs. simpl. set_solver.
  - exists zeroTotal, (SubState (id :: ss_seen st) (id :: ss_absent st)). split_and!; [done| |by left; left].
    exists [id]. simpl. rewrite Hm. simpl.
    split_and!; [done|apply NoDup_singleton|set_solver|done|set_solver|set_solver|].
    intros y x ->%list_elem_of_singleton Hx. unfold children in Hx. rewrite Hm in Hx. inversion Hx.
Qed.
End SubRuns.

(** The usage of nested agents is complete and counted once.  Whatever the shape of the
    nesting (fan-out, several levels, shared or cyclic references), with fuel beyond the
    number of runs that keep counters, [sumSubRuns] answers, leaves the journal as it is,
    and its totals are the sum of the counters of a list of runs that has each run below
    this one exactly once, the run itself excluded. *)
Theorem sub_runs_counted_once (runId : string) (chain : limit_chain) (absent : list string) (fuel : nat)
    (w : world V Q) :
  chain_at w runId = Some chain →
  (∀ x, x ∈ absent → meter w x = None) →
  length (store (jr w)) + length (counters (jr w)) < fuel →
  ∃ new st, run h (sumSubRuns full_caps fail fuel (Some runId) (lc_subRunIds chain) (SubState [runId] absent)) w
              = (Ok (totals w new, st), w) ∧
    NoDup new ∧
    ∀ x c, meter w x = Some c →
      (x ∈ new ↔ x ≠ runId ∧ descends w (lc_subRunIds chain ≫= candidates (Some runId)) x).
Proof.
  intros Hch Habs Hf. set (start := lc_subRunIds chain ≫= candidates (Some runId)).
  destruct (sumSubRuns_walk w (descends w start) (λ y x Hy Hx, desc_below w start y x Hy Hx) fuel (Some runId)
    (lc_subRunIds chain) (SubState [runId] absent)) as (t & st & Hr & Hw & Hk).
  { intros x Hx. by apply desc_here. }
  { eapply Nat.le_lt_trans; [|exact Hf]. unfold unmet, count_if. etrans; [apply length_filter|].
    unfold mkeys. by rewrite length_app, !length_map. }
  destruct Hw as (new & Hs & Hd & Hn & -> & Ha & Hm & Hc). simpl in *. exists new, st. split_and!; [done..|].
  intros x c Hx. split.
  - intros Hin. destruct (Hn x Hin) as (Hne & _ & HD). set_solver.
  - intros [Hne Hdesc].
    assert (Hknown : ∀ y, descends w start y → known st y).
    { intros y Hy. induction Hy as [y Hy|y z Hy IH Hz]; [by apply Hk|].
      destruct IH as [Hin|Hab].
      - rewrite Hs in Hin. apply elem_of_app in Hin as [Hin| ->%list_elem_of_singleton]; [by eapply Hc|].
        apply Hk. unfold children in Hz. rewrite Hch in Hz. destruct (meter w runId); [exact Hz|inversion Hz].
      - assert (Hno : meter w y = None) by (destruct (Hm y Hab); auto).
        unfold children in Hz. rewrite Hno in Hz. inversion Hz. }
    destruct (Hknown x Hdesc) as [Hin|Hab].
    + rewrite Hs in Hin. apply elem_of_app in Hin as [?| ->%list_elem_of_singleton]; done.
    + destruct (Hm x Hab) as [?%Habs|?]; congruence.
Qed.

(** *** Recording outcomes *)

Lemma addCounters_0 c : addCounters c emptyCounters = c.
Proof. destruct c. unfold addCounters. simpl. f_equal; lia. Qed.

Lemma run_incr_one runId (w : world V Q) :
  run h (incrCounters (Q:=Q) (R:=R) (E:=E) full_caps runId (LimitCounters 0 0 0 1)) w =
    (Ok tt, set_jr (mj_incrBy (countersKey runId) [("succeededToolCalls", 1%Z)] (jr w)) w).
Proof. done. Qed.

Lemma counter_of_incr runId (w : world V Q) :
  counter_of runId (set_jr (mj_incrBy (countersKey runId) [("succeededToolCalls", 1%Z)] (jr w)) w) =
    addCounters (counter_of runId w) (LimitCounters 0 0 0 1).
Proof.
  unfold counter_of, mj_getCounters. simpl. rewrite mget_mset. simpl.
  destruct (mget (countersKey runId) (counters (jr w))) as [m|]; simpl; [|done].
  unfold addCounters, counters_of. simpl. rewrite !mget_mset, !mget_mset_ne by done. f_equal; lia.
Qed.

Lemma run_recordToolOutcome runId limits o (w : world V Q) c :
  jkey (chainKey runId) w = Some (inj c) →
  ∃ w', run h (recordToolOutcome (Q:=Q) (R:=R) full_caps fail runId (rd_id o) (rd_tool o) (rd_hash o) (rd_status o) limits) w
          = (Ok tt, w') ∧
    jkey (chainKey runId) w' = Some (inj (apply_outcome c (to_outcome o))) ∧
    counter_of runId w' = addCounters (counter_of runId w)
                            (LimitCounters 0 0 0 (if counts_as_call (rd_status o) then 1 else 0)) ∧
    (∀ k, k ≠ chainKey runId → jkey k w' = jkey k w).
Proof.
  intros Hc. unfold recordToolOutcome, mbind, prog_bind. rewrite run_bind, run_readChain.
  unfold chain_at. rewrite Hc. simpl mbind. cbn [option_bind]. rewrite prj_inj, run_bind.
  destruct (counts_as_call (rd_status o)) eqn:Hs.
  - rewrite run_incr_one. cbn beta match. rewrite (run_writeChainCas runId _ _ c) by (unfold jkey in *; simpl; by rewrite mj_get_incrBy).
    eexists. split; [done|]. split_and!.
    + unfold jkey, mj_get. simpl. apply mget_mset.
    + rewrite <- counter_of_incr. done.
    + intros k Hk. unfold jkey, mj_get. simpl. by rewrite mget_mset_ne.
  - cbn [mret prog_ret run]. rewrite (run_writeChainCas runId _ _ c) by done.
    eexists. split; [done|]. split_and!.
    + unfold jkey, mj_get. simpl. apply mget_mset.
    + change (counter_of runId (set_jr _ w)) with (counter_of runId w). by rewrite addCounters_0.
    + intros k Hk. unfold jkey, mj_get. simpl. by rewrite mget_mset_ne.
Qed.

Lemma addCounters_assoc a b c : addCounters (addCounters a b) c = addCounters a (addCounters b c).
Proof. unfold addCounters. simpl. f_equal; lia. Qed.

Lemma run_recordAll runId limits os (w : world V Q) c :
  jkey (chainKey runId) w = Some (inj c) →
  ∃ w', run h (recordAll runId limits os) w = (Ok tt, w') ∧
    jkey (chainKey runId) w' = Some (inj (fold_left apply_outcome (map to_outcome os) c)) ∧
    counter_of runId w' = addCounters (counter_of runId w) (LimitCounters 0 0 0 (calls_counted os)) ∧
    (∀ k, k ≠ chainKey runId → jkey k w' = jkey k w).
Proof.
  revert w c. induction os as [|o os IH]; intros w c Hc.
  { exists w. split_and!; try done. by rewrite addCounters_0. }
  destruct (run_recordToolOutcome runId limits o w c Hc) as (w1 & Hr1 & Hc1 & Hn1 & Hk1).
  destruct (IH w1 _ Hc1) as (w2 & Hr2 & Hc2 & Hn2 & Hk2).
  exists w2. cbn [recordAll]. unfold mbind, prog_bind. rewrite run_bind, Hr1. split_and!.
  - exact Hr2.
  - exact Hc2.
  - rewrite Hn2, Hn1, addCounters_assoc. f_equal. unfold calls_counted, addCounters. simpl. rewrite count_if_cons.
    f_equal. destruct (counts_as_call (rd_status o)); lia.
  - intros k Hk. by rewrite Hk2, Hk1.
Qed.

Lemma run_readPricingTable (w : world V Q) :
  run h (readPricingTable (V:=V) (Q:=Q) (R:=R) (E:=E)) w = (Ok (effectivePricingTable (jkey PRICING_KEY w ≫= prj)), w).
Proof. done. Qed.

Lemma run_ensureSeeded_done runId opts unpriced (w : world V Q) chain :
  chain_at w runId = Some chain →
  run h (ensureSeeded (Q:=Q) (R:=R) (E:=E) full_caps runId opts unpriced) w = (Ok (false, unpriced), w).
Proof. intros Hc. unfold ensureSeeded, mbind, prog_bind. by rewrite run_bind, run_readChain, Hc. Qed.

Lemma run_gate_seeded fuel runId toolName hash l absent (w : world V Q) chain :
  chain_at w runId = Some chain → needs_state l = true →
  run h (checkToolGate full_caps fail fuel runId toolName hash (Some l) absent) w =
    match loop_breach chain toolName hash (l_loopDetection l) with
    | Some b => (Ok (Some b), w)
    | None =>
        match l_maxToolCalls l with
        | None => (Ok None, w)
        | Some n =>
            match run h (sumSubRuns full_caps fail fuel (Some runId) (lc_subRunIds chain) (SubState [runId] absent)) w with
            | (Ok (t, _), w') =>
                let calls := (n_succeededToolCalls (default emptyCounters (meter w runId)) + st_calls t)%Z in
                (Ok (if (n <=? calls)%Z then Some (GateBreach GateMaxToolCalls calls n false) else None), w')
            | (Err e, w') => (Err e, w')
            end
        end
    end.
Proof.
  intros Hc Hn. unfold checkToolGate. rewrite Hn. simpl negb. cbn match.
  unfold mbind, prog_bind. rewrite run_bind, run_readPricingTable, run_bind.
  rewrite (run_ensureSeeded_done runId _ [] w chain Hc), run_bind, run_readChain, Hc. simpl default.
  destruct (loop_breach chain toolName hash (l_loopDetection l)); [done|].
  destruct (l_maxToolCalls l) as [n|]; [|done]. rewrite run_bind, run_readCounters, run_bind.
  destruct (run h (sumSubRuns _ _ _ _ _ _) w) as [[[t st]|e] w']; [|done].
  cbn beta match. by destruct (n <=? _)%Z.
Qed.

Lemma loop_prior c os name hash :
  c = fold_left apply_outcome os emptyChain →
  (if same_call c name hash then lc_consecutiveRepeats c else 0%Z) = streak name hash (rev os).
Proof. apply counted_streak. Qed.

(** The gate of the next call of [toolName] with the arguments [hash]. *)
Definition next_gate (fuel : nat) (runId toolName hash : string) (l : run_limits) (absent : list string)
    (os : list recorded) : prog (option gate_breach) :=
  _ ← recordAll runId (Some l) os;
  checkToolGate full_caps fail fuel runId toolName hash (Some l) absent.

(** Loop detection counts exactly.  After any sequence of tool outcomes recorded on a run,
    a call is stopped by the repeat limit exactly when the same call (tool and arguments)
    succeeded [maxRepeats] times in a row, nudges not breaking the streak and any other
    outcome breaking it; with [onRepeat: 'reflect'] the first such stop of a streak is a
    nudge, and every later one of the same streak is the hard stop. *)
Theorem loop_gate_exact (fuel : nat) (runId toolName hash : string) (l : run_limits) (d : loop_detection)
    (maxRepeats : Z) (absent : list string) (os : list recorded) (w : world V Q) :
  l_loopDetection l = Some d → ld_maxRepeats d = Some maxRepeats → (0 < maxRepeats)%Z → l_maxToolCalls l = None →
  jkey (chainKey runId) w = Some (inj emptyChain) →
  let past := rev (map to_outcome os) in
  let repeats := streak (Some toolName) (Some hash) past in
  let warned := nudged (Some toolName) (Some hash) past in
  fst (run h (next_gate fuel runId toolName hash l absent os) w) =
    Ok (if (maxRepeats <=? repeats)%Z
        then Some (GateBreach (if ld_reflect d && negb warned then GateReflect else GateLoop) repeats maxRepeats warned)
        else None).
Proof.
  intros Hl Hd Hmax Htc Hc past repeats warned.
  destruct (run_recordAll runId (Some l) os w emptyChain Hc) as (w1 & Hr & Hc1 & _ & _).
  unfold next_gate, mbind, prog_bind. rewrite run_bind, Hr.
  rewrite (run_gate_seeded fuel runId toolName hash l absent w1 (fold_left apply_outcome (map to_outcome os) emptyChain)).
  - unfold loop_breach. rewrite Hl. simpl. rewrite Hd, (proj2 (Z.ltb_lt _ _) Hmax).
    rewrite (loop_prior _ (map to_outcome os) (Some toolName) (Some hash) eq_refl).
    fold past repeats. rewrite Htc. destruct (Z.leb_spec maxRepeats repeats) as [Hle|]; [|done].
    assert (Hw : lc_reflected (fold_left apply_outcome (map to_outcome os) emptyChain) = warned).
    { unfold warned, past. rewrite <- chain_nudged. unfold was_nudged.
      rewrite (proj2 (same_call_positive (map to_outcome os) toolName (Some hash))) by (fold past repeats; lia). done. }
    by rewrite Hw.
  - unfold chain_at. by rewrite Hc1; simpl; rewrite prj_inj.
  - unfold needs_state. rewrite Hl. simpl. by rewrite Hd, (proj2 (Z.ltb_lt _ _) Hmax).
Qed.

(** *** The step limits *)

Definition step_delta (opts : cost_opts) (v : V) : limit_counters :=
  fst (applyModelStepDelta opts (model_value v) (emptyCounters, [])).

(** The counters of a run with these model steps. *)
Definition metered (opts : cost_opts) (steps : list V) (calls : Z) : limit_counters :=
  fold_left (λ c v, addCounters c (step_delta opts v)) steps (LimitCounters 0 0 0 calls).

Definition add_step (opts : cost_opts) (acc : limit_counters * list string) (v : V) : limit_counters * list string :=
  applyModelStepDelta opts (model_value v) acc.

Lemma add_step_fst opts acc v : fst (add_step opts acc v) = addCounters (fst acc) (step_delta opts v).
Proof.
  unfold add_step, step_delta, applyModelStepDelta. destruct acc as [c u].
  destruct (usageAndCostFromModelValue _ _ _); simpl; f_equal; unfold addCounters; simpl; f_equal; lia.
Qed.

Lemma add_steps_fst opts steps acc c0 :
  addCounters c0 (fst (fold_left (add_step opts) steps acc)) =
    fold_left (λ c v, addCounters c (step_delta opts v)) steps (addCounters c0 (fst acc)).
Proof.
  revert acc. induction steps as [|v steps IH]; intros acc; simpl; [done|].
  by rewrite IH, add_step_fst, addCounters_assoc.
Qed.

Lemma step_delta_steps opts v : n_modelStepsSeen (step_delta opts v) = 1%Z.
Proof. unfold step_delta, applyModelStepDelta. by destruct (usageAndCostFromModelValue _ _ _). Qed.

Lemma metered_steps opts steps calls : n_modelStepsSeen (metered opts steps calls) = Z.of_nat (length steps).
Proof.
  unfold metered. assert (H : ∀ c, n_modelStepsSeen (fold_left (λ c v, addCounters c (step_delta opts v)) steps c)
    = (n_modelStepsSeen c + Z.of_nat (length steps))%Z).
  { induction steps as [|v steps IH]; intros c; simpl; [lia|]. rewrite IH. simpl. rewrite step_delta_steps. lia. }
  by rewrite H.
Qed.

(** The model records of a run, in order and without a hole. *)
Definition model_steps (w : world V Q) (runId : string) (steps : list V) : Prop :=
  (∀ i v, steps !! i = Some v → jkey (rk_model runId (dec (N.of_nat i))) w = Some v) ∧
  jkey (rk_model runId (dec (N.of_nat (length steps)))) w = None.

Lemma run_computeModelStepsDelta opts runId steps (w : world V Q) :
  model_steps w runId steps → ∀ fuel k acc, k ≤ length steps → length steps - k ≤ fuel →
  run h (computeModelStepsDelta (Q:=Q) (R:=R) fail fuel runId (Z.of_nat k) opts acc) w =
    (Ok (fold_left (add_step opts) (drop k steps) acc), w).
Proof.
  intros [Hsome Hnone]. induction fuel as [|fuel IH]; intros k acc Hk Hf.
  - assert (k = length steps) as -> by lia. rewrite drop_all. simpl. unfold jkey in Hnone.
    by rewrite <- Z_nat_N, Nat2Z.id, Hnone.
  - destruct (decide (k = length steps)) as [->|Hne].
    + rewrite drop_all. simpl. unfold jkey in Hnone. by rewrite <- Z_nat_N, Nat2Z.id, Hnone.
    + destruct (lookup_lt_is_Some_2 steps k) as [v Hv]; [lia|].
      pose proof (Hsome k v Hv) as Hrec. unfold jkey in Hrec. simpl.
      rewrite <- Z_nat_N, Nat2Z.id, Hrec. simpl.
      replace (Z.of_nat k + 1)%Z with (Z.of_nat (S k)) by lia.
      rewrite IH by lia. by rewrite (drop_S _ _ _ Hv).
Qed.

Lemma counters_of_add d (m : jsmap Z) :
  counters_of (add_fields (clean_delta d) m) = addCounters (counters_of m) d.
Proof.
  unfold counters_of, addCounters. rewrite !add_fields_get. unfold clean_delta. destruct d as [a b c e]. simpl.
  repeat (rewrite filter_cons; case_decide; simpl in * ); f_equal; lia.
Qed.

Lemma run_incrCounters runId d (w : world V Q) m :
  mj_getCounters (countersKey runId) (jr w) = Some m →
  ∃ w' m', run h (incrCounters (Q:=Q) (R:=R) (E:=E) full_caps runId d) w = (Ok tt, w') ∧
    mj_getCounters (countersKey runId) (jr w') = Some m' ∧
    counters_of m' = addCounters (counters_of m) d ∧ (∀ k, jkey k w' = jkey k w).
Proof.
  intros Hm. unfold incrCounters. destruct (clean_delta d) as [|f fs] eqn:Hd.
  - exists w, m. split_and!; [done..| |done]. rewrite <- counters_of_add, Hd. done.
  - eexists _, (add_fields (f :: fs) m). split; [done|]. split_and!.
    + unfold mj_getCounters in *. simpl. by rewrite mget_mset, Hm.
    + by rewrite <- Hd, counters_of_add.
    + done.
Qed.

(** The verdict on the totals. *)
Definition verdict (l : run_limits) (tokens cost : Z) (unpriced : list string) (absent : list string)
    : outcome E (list string) :=
  match over (l_maxTokens l) tokens with
  | Some n => Err (fail (RunLimitExceeded "maxTokens" tokens n))
  | None =>
      if bool_decide (is_Some (l_maxCostUsd l)) && negb (bool_decide (unpriced = [])) && l_strict l
      then Err (fail (Unpriced unpriced))
      else match over (l_maxCostUsd l) cost with
           | Some n => Err (fail (RunLimitExceeded "maxCostUsd" cost n))
           | None => Ok absent
           end
  end.

(** The step limits see every recorded step, once.  On a run whose counters hold the
    usage of its first [k] model records and whose records go on to [n], [enforceStepLimits]
    catches the counters up with all [n] records (each added once), and its verdict is the one
    of the limits on the usage of all of them plus the sub-runs': the token limit first, then,
    in strict mode, a step without a price under a cost limit, then the cost limit. *)
Theorem enforceStepLimits_exact (fuel : nat) (runId : string) (l : run_limits) (opts : cost_opts)
    (table : price_table) (absent : list string) (steps : list V) (k : nat) (calls : Z) (m : jsmap Z)
    (chain : limit_chain) (w : world V Q) :
  (is_Some (l_maxCostUsd l) ∨ is_Some (l_maxTokens l)) → co_pricing opts = Some table →
  chain_at w runId = Some chain → model_steps w runId steps → k ≤ length steps →
  mj_getCounters (countersKey runId) (jr w) = Some m → counters_of m = metered opts (take k steps) calls →
  length steps - k ≤ fuel →
  let unpriced := snd (fold_left (add_step opts) (drop k steps) (emptyCounters, [])) in
  let usage := metered opts steps calls in
  ∃ w', meter w' runId = Some usage ∧ (∀ key, jkey key w' = jkey key w) ∧
    ∀ t st, run h (sumSubRuns full_caps fail fuel (Some runId) (lc_subRunIds chain) (SubState [runId] absent)) w'
              = (Ok (t, st), w') →
      run h (enforceStepLimits full_caps fail fuel runId (Some l) opts absent) w =
        (verdict l (n_totalTokens usage + st_tokens t) (n_costUsd usage + st_cost t) unpriced (ss_absent st), w').
Proof.
  intros Hl Hopts Hchain Hsteps Hk Hm Hmeter Hfuel unpriced usage.
  set (delta := fold_left (add_step opts) (drop k steps) (emptyCounters, [])) in *.
  assert (Hmw : meter w runId = Some (metered opts (take k steps) calls)) by (unfold meter; by rewrite Hm, Hmeter).
  assert (Husage : addCounters (metered opts (take k steps) calls) (fst delta) = usage).
  { unfold delta. rewrite add_steps_fst. simpl. rewrite addCounters_0. unfold usage, metered.
    rewrite <- (take_drop k steps) at 3. by rewrite fold_left_app. }
  assert (Hn : n_modelStepsSeen (fst delta) = Z.of_nat (length steps - k)).
  { apply (f_equal n_modelStepsSeen) in Husage. unfold usage in Husage. simpl in Husage.
    rewrite !metered_steps, length_take in Husage. lia. }
  assert (Hprice : run h (match co_pricing opts with
     | Some _ => mret opts
     | None => t ← readPricingTable; mret (CostOpts (co_modelId opts) (Some t)) end) w = (Ok opts, w)) by by rewrite Hopts.
  assert (Hcatch : ∃ w', (∀ key, jkey key w' = jkey key w) ∧ meter w' runId = Some usage ∧
    run h (if (n_modelStepsSeen (fst delta) =? 0)%Z then mret (metered opts (take k steps) calls)
           else _ ← incrCounters full_caps runId (fst delta); mret (addCounters (metered opts (take k steps) calls) (fst delta))) w
      = (Ok usage, w')).
  { rewrite Hn. destruct (Z.eqb_spec (Z.of_nat (length steps - k)) 0) as [Hz|Hz].
    - exists w. assert (Hall : metered opts (take k steps) calls = usage) by (unfold usage; by rewrite take_ge by lia).
      split_and!; [done|by rewrite Hmw, Hall|by rewrite Hall].
    - destruct (run_incrCounters runId (fst delta) w m Hm) as (w' & m' & Hr & Hm' & Hc' & Hk').
      exists w'. split_and!; [done| |].
      + unfold meter. by rewrite Hm', Hc', Hmeter, Husage.
      + unfold mbind, prog_bind. rewrite run_bind, Hr. simpl. by rewrite Husage. }
  destruct Hcatch as (w' & Hkeys & Hmeter' & Hcatch). exists w'. split_and!; [done..|]. intros t st Hsub.
  unfold enforceStepLimits.
  assert (Hgo : ∀ A (a b : A), (match l_maxCostUsd l, l_maxTokens l with None, None => a | _, _ => b end) = b).
  { intros A a b. destruct Hl as [[x ->]|[x ->]]; [done|]. by destruct (l_maxCostUsd l). }
  rewrite Hgo. simpl negb. cbn match. unfold mbind, prog_bind in Hprice, Hcatch |- *.
  rewrite run_bind, Hprice, run_bind, (run_ensureSeeded_done runId _ [] w chain Hchain), run_bind, run_readCounters, Hmw.
  cbn beta match. simpl default. rewrite metered_steps, length_take, Nat.min_l, run_bind by done.
  rewrite (run_computeModelStepsDelta opts runId steps w Hsteps) by done. fold delta.
  rewrite (surjective_pairing delta). cbn beta match. rewrite run_bind.
  rewrite Hcatch, run_bind, run_readChain.
  assert (Hchain' : chain_at w' runId = Some chain) by (unfold chain_at; by rewrite Hkeys).
  rewrite Hchain', run_bind. cbn beta match. simpl default. rewrite Hsub. cbn beta match.
  unfold verdict. fold unpriced. destruct (over (l_maxTokens l) _); [done|].
  destruct (_ && _); [done|]. by destruct (over (l_maxCostUsd l) _).
Qed.
End LimitsAlone.

(** ** Examples *)

Section LimitsWitnesses.
Let h0 : oracle unit unit limits_error := λ _ _, Ok tt.
Let nested : string := "agent:r:c1".
Let chain1 : limit_chain := LimitChain (Some "pay") (Some "h") 1 false ["c1"].
Let w1 : world entry unit :=
  World (mj_incrBy (countersKey nested) [("totalTokens", 5%Z)]
           (mj_put 0 (chainKey "r") (EChain chain1) empty_journal)) 0 0 [] empty_work.

Lemma sub_runs_counted_once_witness :
  ∃ new st, run h0 (sumSubRuns full_caps id 3 (Some "r") ["c1"] (SubState ["r"] [])) w1
              = (Ok (totals w1 new, st), w1) ∧ NoDup new ∧
    ∀ x c, meter w1 x = Some c →
      (x ∈ new ↔ x ≠ "r" ∧ descends w1 (["c1"] ≫= candidates (Some "r")) x).
Proof.
  apply (sub_runs_counted_once id h0 "r" chain1 [] 3 w1).
  - reflexivity.
  - intros x Hx. inversion Hx.
  - vm_compute. lia.
Defined.

Example sub_runs_totals :
  fst (run h0 (sumSubRuns full_caps id 3 (Some "r") ["c1"] (SubState ["r"] [])) w1)
  = Ok (SubTotal 5 0 0, SubState ["agent:c1"; nested; "r"] ["agent:c1"]).
Proof. reflexivity. Qed.

Let w0 : world entry unit := World (mj_put 0 (chainKey "r") (EChain emptyChain) empty_journal) 0 0 [] empty_work.
Let loop2 : run_limits :=
  RunLimits None None None (Some (LoopDetection (Some 2%Z) true)) None false None false false.
Let twice : list recorded := [Recorded "c1" "pay" "h" OSucceeded; Recorded "c2" "pay" "h" OSucceeded].

Lemma loop_gate_exact_witness :
  fst (run h0 (next_gate id 3 "r" "pay" "h" loop2 [] twice) w0) = Ok (Some (GateBreach GateReflect 2 2 false)).
Proof.
  exact (loop_gate_exact id h0 3 "r" "pay" "h" loop2 (LoopDetection (Some 2%Z) true) 2 [] twice w0
           eq_refl eq_refl eq_refl eq_refl eq_refl).
Defined.

(** After the nudge the same call is stopped for good; another outcome starts afresh. *)
Example loop_escalates :
  fst (run h0 (next_gate id 3 "r" "pay" "h" loop2 [] (twice ++ [Recorded "c3" "pay" "h" OReflected])) w0)
    = Ok (Some (GateBreach GateLoop 2 2 true)) ∧
  fst (run h0 (next_gate id 3 "r" "pay" "h" loop2 [] (twice ++ [Recorded "c3" "ship" "h" OSucceeded])) w0) = Ok None.
Proof. split; reflexivity. Qed.

Let usage_rec (n : Z) : entry :=
  EJs (JObj [("usage", JObj [("inputTokens", JObj [("total", JNum n)]); ("outputTokens", JObj [("total", JNum 0)])])]).
Let steps1 : list entry := [usage_rec 7; usage_rec 9].
Let w2 : world entry unit :=
  World (mj_incrBy (countersKey "r") [("modelStepsSeen", 1%Z); ("totalTokens", 7%Z)]
    (mj_put 0 (rk_model "r" "1") (usage_rec 9) (mj_put 0 (rk_model "r" "0") (usage_rec 7)
      (mj_put 0 (chainKey "r") (EChain emptyChain) empty_journal)))) 0 0 [] empty_work.
Let cap10 : run_limits := RunLimits None (Some 10%Z) None None None false None false false.
Let opts1 : cost_opts := CostOpts None (Some DEFAULT_PRICING).

Lemma enforceStepLimits_exact_witness :
  ∃ w', meter w' "r" = Some (metered opts1 steps1 0) ∧ (∀ key, jkey key w' = jkey key w2) ∧
    ∀ t st, run h0 (sumSubRuns full_caps id 5 (Some "r") [] (SubState ["r"] [])) w' = (Ok (t, st), w') →
      run h0 (enforceStepLimits full_caps id 5 "r" (Some cap10) opts1 []) w2 =
        (verdict id cap10 (16 + st_tokens t) (0 + st_cost t) ["unknown"] (ss_absent st), w').
Proof.
  destruct (enforceStepLimits_exact id h0 5 "r" cap10 opts1 DEFAULT_PRICING [] steps1 1 0
              [("modelStepsSeen", 1%Z); ("totalTokens", 7%Z)] emptyChain w2) as (w' & Hm & Hk & H);
    [right; by eexists|reflexivity|reflexivity| |simpl; lia|reflexivity|reflexivity|simpl; lia|].
  - split; [|reflexivity]. intros [|[|i]] v; [by intros [= <-]|by intros [= <-]|done].
  - exists w'. split; [exact Hm|]. split; [exact Hk|]. exact H.
Defined.

Example cap10_stops :
  fst (run h0 (enforceStepLimits full_caps id 5 "r" (Some cap10) opts1 []) w2) = Err (RunLimitExceeded "maxTokens" 16 10).
Proof. reflexivity. Qed.
End LimitsWitnesses.
