(* ===== verification/Outcome.v ===== *)
(** * Outcome: how a run ended, and its cancellation

    Models [packages/durable/src/outcome.ts] and [cancel.ts]: the outcome record of a run, which
    only a newer verdict replaces, and the durable cancel flag.  The message of an error is a
    string here; [classifyRunError] reads its name. *)

From S2P Require Import Prelude JsMap Keys Journal Work Prog Claim Json Hash Format Taint RunIdentity Cost ToolTypes.

Inductive verdict_status := VCompleted | VFailed | VRunning | VCanceled.

#[global] Instance verdict_status_eq_dec : EqDecision verdict_status.
Proof. solve_decision. Defined.

Record outcome_record := OutcomeRecord {
  ro_status : verdict_status;
  ro_at : Z;
  ro_error : option string;
}.

#[global] Instance outcome_record_eq_dec : EqDecision outcome_record.
Proof. solve_decision. Defined.

Record cancel_record := CancelRecord { cf_at : Z; cf_reason : option js }.

(** What an error is to the outcome: a [RunBusyError], thrown when the lock was not had or later, or
    any other value with its [name]. *)
Inductive run_error :=
| RunBusyError (atLockAcquisition : bool) (message : string)
| NamedError (name : option string) (message : string).

Inductive error_class := Failure | Contended | NotAFailure.

#[global] Instance error_class_eq_dec : EqDecision error_class.
Proof. solve_decision. Defined.

Definition CALLER_CONFLICT_CODES : list (string * string) :=
  [("RunThreadMismatchError", "run_thread_mismatch"); ("NotAnAgentRunError", "not_an_agent_run");
   ("RunInputMismatchError", "run_input_mismatch"); ("RunActorMismatchError", "run_actor_mismatch");
   ("RunOwnerMismatchError", "run_owner_mismatch"); ("ThreadOwnerMismatchError", "thread_owner_mismatch");
   ("RunSweptError", "run_swept"); ("BatchPlanMismatchError", "batch_plan_mismatch")].

Definition NOT_A_RUN_FAILURE : list string :=
  map fst CALLER_CONFLICT_CODES ++ ["CompensatedRunError"; "RunCanceledError"].

Definition classifyRunError (err : run_error) : error_class :=
  match err with
  | RunBusyError true _ => NotAFailure
  | RunBusyError false _ => Contended
  | NamedError name _ =>
      match truthy name with
      | Some n => if bool_decide (n ∈ NOT_A_RUN_FAILURE) then NotAFailure else Failure
      | None => Failure
      end
  end.

Definition isRunFailure (err : run_error) : bool := bool_decide (classifyRunError err = Failure).

Definition messageOf (err : run_error) : string :=
  match err with RunBusyError _ m | NamedError _ m => m end.

Definition cancelKey (runId : string) : string := rk_proc runId "__gnl_canceled".

(** The verdict that stands keeps the new one out. *)
Definition stands (fillOnly notAfterTerminal : bool) (cur : option outcome_record) (next : outcome_record) : bool :=
  let running := bool_decide (ro_status <$> cur = Some VRunning) in
  let starts := bool_decide (ro_status next = VRunning) in
  fillOnly
  || (notAfterTerminal && negb running)
  || match cur with Some c => (ro_at next <? ro_at c)%Z | None => false end
  || (bool_decide (ro_status <$> cur = Some VCanceled) && starts)
  || (match cur with Some c => (ro_at c =? ro_at next)%Z | None => false end && starts && negb running).

Section Outcome.
Context {V : Type} `{!JsValue V, !Embed outcome_record V, !Embed cancel_record V} {Q R E : Type}.
Variable caps : journal_caps.
Variable canceled : string → option js → E.       (** [RunCanceledError] *)
Abbreviation prog := (prog V Q R E).

(** At most [n] attempts at writing the verdict. *)
Fixpoint outcome_attempts (n : nat) (key : string) (fillOnly notAfterTerminal : bool) (next : outcome_record) : prog unit :=
  match n with
  | 0 => mret tt
  | S n' =>
      raw ← jget key;
      match raw with
      | Some v =>
          if stands fillOnly notAfterTerminal (prj v) next then mret tt
          else if has_putIfMatch caps then
            won ← jputIfMatch key v (inj next);
            if won : bool then mret tt else outcome_attempts n' key fillOnly notAfterTerminal next
          else jput key (inj next)
      | None =>
          if has_putIfAbsent caps then
            won ← jputIfAbsent key (inj next);
            if won : bool then mret tt else outcome_attempts n' key fillOnly notAfterTerminal next
          else jput key (inj next)
      end
  end.

Definition recordRunOutcome (runId : string) (outcome : outcome_record) (fillOnly notAfterTerminal : bool) : prog unit :=
  ptry (λ _, mret tt)
    (at_ ← (if has_now caps then request RNow else mret (ro_at outcome));
     outcome_attempts 3 (rk_outcome runId) fillOnly notAfterTerminal
       (OutcomeRecord (ro_status outcome) at_ (ro_error outcome))).

Definition runSucceeded (runId : string) (at_ : Z) : prog unit :=
  recordRunOutcome runId (OutcomeRecord VCompleted at_ None) false false.
Definition runFailed (runId : string) (err : run_error) (at_ : Z) : prog unit :=
  recordRunOutcome runId (OutcomeRecord VFailed at_ (Some (messageOf err))) false false.
Definition runFailedIfUnrecorded (runId : string) (err : run_error) (at_ : Z) : prog unit :=
  recordRunOutcome runId (OutcomeRecord VFailed at_ (Some (messageOf err))) true false.
Definition runStarted (runId : string) (at_ : Z) : prog unit :=
  recordRunOutcome runId (OutcomeRecord VRunning at_ None) false false.
Definition runCanceled (runId : string) (at_ : Z) : prog unit :=
  recordRunOutcome runId (OutcomeRecord VCanceled at_ None) false true.

Definition readRunOutcome (runId : string) : prog (option V) :=
  ptry (λ _, mret None) (jget (rk_outcome runId)).

(** ** Cancellation *)

Definition agentRunCanceled (runId : string) : prog (option V) := jget (cancelKey runId).

Definition cancelAgentRun (runId : string) (reason : option js) : prog unit :=
  now ← dateNow;
  let record := CancelRecord now reason in
  _ ← (if has_putIfAbsent caps then _ ← jputIfAbsent (cancelKey runId) (inj record); mret tt
       else
         cur ← jget (cancelKey runId);
         match cur with None => jput (cancelKey runId) (inj record) | Some _ => mret tt end);
  flag ← agentRunCanceled runId;
  runCanceled runId (cf_at (default record (flag ≫= prj))).

Definition assertNotCanceled (runId : string) : prog unit :=
  flag ← agentRunCanceled runId;
  match flag with
  | Some v => Throw (canceled runId (prj (T := cancel_record) v ≫= cf_reason))
  | None => mret tt
  end.
End Outcome.

(** ** Verdicts only move forward *)

(** The verdict [b] may replace [a]: it is not older, it ends what a start began, a start of the same
    instant does not bury an ending, nor any start a cancel; and a cancel ends only what runs. *)
Definition advances (a b : outcome_record) : Prop :=
  (ro_at a ≤ ro_at b)%Z ∧
  (ro_at a = ro_at b → ro_status b = VRunning → ro_status a = VRunning) ∧
  (ro_status a = VCanceled → ro_status b ≠ VRunning) ∧
  (ro_status b = VCanceled → ro_status a = VRunning).

Lemma stands_advances fill nat_ a next :
  (ro_status next = VCanceled → nat_ = true) → stands fill nat_ (Some a) next = false → advances a next.
Proof.
  unfold stands, advances. intros Hc Hs. cbn [fmap option_fmap option_map] in Hs.
  destruct a as [sa ta ea], next as [sn tn en]. cbn in *.
  destruct fill, nat_, sa, sn, (Z.ltb_spec tn ta), (Z.eqb_spec ta tn); cbn in Hs; try discriminate Hs;
    split_and!; intros; try done; try lia; by discriminate Hc.
Qed.

Section Monotone.
Context {V : Type} `{!JsValue V, !Embed outcome_record V, !Embed cancel_record V} {Q R E : Type}.
Variable runId : string.
Abbreviation key := (rk_outcome runId).

(** What an attempt, a failure, an ending or an operator records of a run. *)
Inductive outcome_call :=
| Start (at_ : Z)
| Succeed (at_ : Z)
| Fail (err : run_error) (at_ : Z)
| FailIfUnrecorded (err : run_error) (at_ : Z)
| Cancel (reason : option js).

Definition perform_call (c : outcome_call) : prog V Q R E unit :=
  match c with
  | Start t => runStarted full_caps runId t
  | Succeed t => runSucceeded full_caps runId t
  | Fail e t => runFailed full_caps runId e t
  | FailIfUnrecorded e t => runFailedIfUnrecorded full_caps runId e t
  | Cancel reason => cancelAgentRun full_caps runId reason
  end.

(** The stored verdict goes from [v] to [v']. *)
Definition moves (v v' : V) : Prop :=
  v' = v ∨ ∃ b, v' = inj b ∧ match prj v with Some a => advances a b | None => True end.

Definition may_record (_ : unit) (r : req V Q) : Prop :=
  match r with
  | RPut k _ => k ≠ key
  | RPutIfMatch k e v => k = key → moves e v
  | _ => True
  end.

Abbreviation safe_o := (safe (V:=V) (Q:=Q) (R:=R) (E:=E) may_record (λ _ _ _, tt) (λ _ _, True)).

Lemma outcome_attempts_safe n fill nat_ next :
  (ro_status next = VCanceled → nat_ = true) → safe_o tt (outcome_attempts full_caps n key fill nat_ next).
Proof.
  intros Hc. induction n as [|n IH]; [done|]. split; [done|]. intros [[v|]|e]; [| |done]; cbn.
  - destruct (stands fill nat_ (prj v) next) eqn:Hs; [done|]. split; [|by intros [[]|]].
    intros _. right. exists next. split; [done|]. destruct (prj v) as [a|]; [|done]. by eapply stands_advances.
  - split; [done|]. by intros [[]|].
Qed.

Lemma recordRunOutcome_safe o fill nat_ :
  (ro_status o = VCanceled → nat_ = true) → safe_o tt (recordRunOutcome full_caps runId o fill nat_).
Proof.
  intros Hc. eapply safe_try with (mid := λ _ _, True); [|done|done].
  eapply safe_bind with (mid := λ _ _, True); [split; [done|by intros [?|?]]| |done].
  intros [] t _. by apply outcome_attempts_safe.
Qed.

Lemma perform_call_safe c : safe_o tt (perform_call c).
Proof.
  destruct c; cbn [perform_call]; try (by apply recordRunOutcome_safe).
  eapply safe_bind with (mid := λ _ _, True); [split; [done|by intros [?|?]]| |done]. intros [] now _.
  eapply safe_bind with (mid := λ _ _, True); [split; [done|by intros [?|?]]| |done]. intros [] _ _.
  eapply safe_bind with (mid := λ _ _, True); [split; [done|by intros [?|?]]| |done]. intros [] v _.
  by apply recordRunOutcome_safe.
Qed.
End Monotone.

Section MonotonePool.
Context {V : Type} `{!JsValue V, !Embed outcome_record V, !Embed cancel_record V} {Q R E : Type}.
Variable runId : string.
Abbreviation key := (rk_outcome runId).

Lemma perform_moves (h : oracle Q R E) (w : world V Q) (r : req V Q) v :
  may_record runId tt r → jkey key w = Some v → ∃ v', jkey key (snd (perform h r w)) = Some v' ∧ moves v v'.
Proof.
  intros Hr Hv. destruct (overwrites key r) eqn:Ho; [|exists v; split; [by apply perform_jkey_keep|by left]].
  destruct r; try discriminate Ho; cbn in Ho; apply String.eqb_eq in Ho as ->; [by destruct Hr|].
  cbn. unfold jkey in *. rewrite mj_putIfMatch_spec, Hv. case_bool_decide as He; cbn; [|exists v; split; [done|by left]].
  injection He as ->. rewrite mget_mset. exists v0. split; [done|]. by apply Hr.
Qed.

(** C15: A recorded verdict only moves forward.  Whatever attempts, endings, failures and cancels
    record how a run went, in any interleaving and whichever requests fail, one step leaves the verdict
    as it is or replaces it by one that is not older; a start of the same instant never buries an
    ending, no start buries a cancel, and a cancel ends only a run that had not ended. *)
Theorem outcome_never_regresses (calls : list outcome_call) (w : world V Q) c c' v :
  reachable (R:=R) (E:=E) (map (perform_call runId) calls, w) c → pool_step c c' →
  jkey key (snd c) = Some v → ∃ v', jkey key (snd c') = Some v' ∧ moves v v'.
Proof.
  intros Hr Hstep Hv.
  assert (H0 : Forall2 (safe (may_record runId) (λ _ _ _, tt) (λ (_ : unit) (_ : outcome E unit), True))
    (replicate (length calls) tt) (map (perform_call (V:=V) (Q:=Q) (R:=R) (E:=E) runId) calls)).
  { clear. induction calls as [|x calls IH]; [constructor|]. cbn. constructor; [apply perform_call_safe|done]. }
  destruct (pool_safe (R:=R) (E:=E) (may_record runId) (λ _ _ _, tt) (λ (_ : world V Q) (_ : list unit), True)
    ltac:(done) ltac:(done) ltac:(done) _ _ c _ Hr I H0) as (gs & _ & Hs).
  destruct Hstep as [h ps w1 i r k Hi|e ps w1 i r k Hi|h e ps w1 i r k Hi|t x ps w1 Ht]; cbn [fst snd] in *.
  1,3: destruct (Forall2_lookup_r _ _ _ _ _ Hs Hi) as ([] & _ & Ha & _); by apply perform_moves.
  - exists v. split; [done|by left].
  - exists v. split; [done|by left].
Qed.
End MonotonePool.

(** ** One cancellation, and what it records *)

Section CancelAlone.
Context {V : Type} `{!JsValue V, !Embed outcome_record V, !Embed cancel_record V} {Q R E : Type}.
Variable h : oracle Q R E.
Variable hasNow : bool.       (** the journal has a clock of its own *)
Variable canceled : string → option js → E.
Variable runId : string.
Let caps : journal_caps := JournalCaps true true hasNow true true true.
Implicit Types w : world V Q.

(** The verdict after a cancel at [now]. *)
Definition canceled_verdict (now : Z) (cur : option V) : V :=
  let ended := inj (OutcomeRecord VCanceled now None) in
  match cur with
  | None => ended
  | Some v =>
      match prj v with
      | Some o => if bool_decide (ro_status o = VRunning) && negb (now <? ro_at o)%Z then ended else v
      | None => v
      end
  end.

Lemma outcome_cancel_ne : rk_outcome runId ≠ cancelKey runId.
Proof. unfold rk_outcome, cancelKey, rk_proc. by intros ?%str_app_inj_l. Qed.

(** A verdict written alone. *)
Lemma run_recordRunOutcome o fill nat_ w :
  let next := OutcomeRecord (ro_status o) (if hasNow then clock w else ro_at o) (ro_error o) in
  let res := run h (recordRunOutcome caps runId o fill nat_) w in
  fst res = Ok tt ∧ (∀ k, k ≠ rk_outcome runId → jkey k (snd res) = jkey k w) ∧
  jkey (rk_outcome runId) (snd res) =
    Some (match jkey (rk_outcome runId) w with
          | Some v => if stands fill nat_ (prj v) next then v else inj next
          | None => inj next
          end).
Proof.
  cbv zeta. unfold recordRunOutcome, caps. rewrite run_try. destruct hasNow; cbn; unfold jkey;
    (destruct (mj_get (rk_outcome runId) (jr w)) as [v|] eqn:Hv; cbn;
     [destruct (stands fill nat_ (prj v) _); cbn; [done|]; rewrite mj_putIfMatch_spec, Hv, bool_decide_eq_true_2 by done
     |rewrite mj_putIfAbsent_spec, Hv]); cbn; (split_and!; [done| |by rewrite mget_mset]);
    intros k Hk; unfold mj_get; cbn; by rewrite mget_mset_ne.
Qed.

(** The flag that a cancel finds or leaves. *)
Definition flag_of (reason : option js) w : V := default (inj (CancelRecord (wall w) reason)) (jkey (cancelKey runId) w).

Definition flagged (reason : option js) w : world V Q :=
  set_jr (snd (mj_putIfAbsent (wall w) (cancelKey runId) (inj (CancelRecord (wall w) reason)) (jr w))) w.

Lemma flagged_jkey reason w k :
  jkey k (flagged reason w) = if String.eqb (cancelKey runId) k then Some (flag_of reason w) else jkey k w.
Proof.
  unfold flagged, flag_of, jkey. cbn. rewrite mj_putIfAbsent_spec.
  destruct (mj_get (cancelKey runId) (jr w)) as [f|] eqn:Hf; destruct (String.eqb_spec (cancelKey runId) k) as [<-|Hne]; cbn;
    [done|done|unfold mj_get; cbn; by rewrite mget_mset|unfold mj_get; cbn; by rewrite mget_mset_ne].
Qed.

Lemma run_cancel reason w :
  run h (cancelAgentRun (E:=E) caps runId reason) w =
    run h (runCanceled caps runId (cf_at (default (CancelRecord (wall w) reason) (prj (flag_of reason w))))) (flagged reason w).
Proof.
  pose proof (flagged_jkey reason w (cancelKey runId)) as Hf. rewrite String.eqb_refl in Hf. unfold jkey in Hf.
  unfold cancelAgentRun. run_step. unfold caps at 1. cbn [has_putIfAbsent].
  rewrite run_bind. replace (run h _ w) with (Ok (E := E) tt, flagged reason w) by done. rewrite run_bind.
  replace (run h _ (flagged reason w)) with (Ok (E := E) (Some (flag_of reason w)), flagged reason w)
    by (unfold agentRunCanceled, jget; by rewrite run_rget, Hf).
  done.
Qed.

(** A cancel takes effect and is told truthfully.  The first flag wins and stays, every later
    attempt to enter the run is refused with its reason, and the run reads as canceled exactly when it
    had not ended: a verdict that stands is left alone. *)
Theorem cancel_exact (reason : option js) w :
  let res := run h (cancelAgentRun (E:=E) caps runId reason) w in
  let flag := flag_of reason w in
  let now := if hasNow then clock w else cf_at (default (CancelRecord (wall w) reason) (prj flag)) in
  fst res = Ok tt ∧ jkey (cancelKey runId) (snd res) = Some flag ∧
  jkey (rk_outcome runId) (snd res) = Some (canceled_verdict now (jkey (rk_outcome runId) w)) ∧
  run h (assertNotCanceled canceled runId) (snd res) = (Err (canceled runId (prj flag ≫= cf_reason)), snd res).
Proof.
  cbv zeta. rewrite run_cancel. unfold runCanceled. set (o := OutcomeRecord VCanceled _ None).
  destruct (run_recordRunOutcome o false true (flagged reason w)) as (Hok & Hother & Hout).
  set (w2 := snd _) in *.
  assert (Hf : jkey (cancelKey runId) w2 = Some (flag_of reason w)).
  { rewrite Hother by (intros He; by apply outcome_cancel_ne). by rewrite flagged_jkey, String.eqb_refl. }
  split_and!; [exact Hok|exact Hf| |].
  - rewrite Hout, flagged_jkey, (proj2 (String.eqb_neq _ _)) by (intros He; by apply outcome_cancel_ne). f_equal.
    unfold canceled_verdict, stands. change (clock (flagged reason w)) with (clock w). cbn [ro_status ro_error ro_at o].
    destruct (jkey (rk_outcome runId) w) as [v|]; [|done].
    destruct (prj v) as [[s t e]|]; [|done]. cbn [fmap option_fmap option_map ro_status ro_at].
    rewrite (bool_decide_eq_false_2 (VCanceled = VRunning)), andb_false_r by done. cbn [orb andb]. rewrite !orb_false_r.
    destruct s; cbn; try done. rewrite !bool_decide_eq_true_2 by done. by destruct (_ <? t)%Z, (t =? _)%Z.
  - unfold assertNotCanceled, agentRunCanceled, jget. run_step. unfold jkey in Hf. by rewrite Hf.
Qed.
End CancelAlone.

(** ** Examples *)

Inductive outcome_value := OVerdict (o : outcome_record) | OCancel (c : cancel_record).

#[global] Instance cancel_record_eq_dec : EqDecision cancel_record.
Proof. solve_decision. Defined.

Definition outcome_value_eq_dec : EqDecision outcome_value.
Proof. solve_decision. Defined.

Definition status_text_of (s : verdict_status) : string :=
  match s with VCompleted => "completed" | VFailed => "failed" | VRunning => "running" | VCanceled => "canceled" end.

#[global] Instance outcome_value_js : JsValue outcome_value := {|
  js_eq_dec := outcome_value_eq_dec;
  str_field v f := match v with OVerdict o => if String.eqb f "status" then Some (status_text_of (ro_status o)) else None | OCancel _ => None end;
  is_versioned _ := false;
  ser_length _ := 0;
|}.

#[global] Instance verdict_embed : Embed outcome_record outcome_value :=
  {| inj := OVerdict; prj v := match v with OVerdict o => Some o | OCancel _ => None end; prj_inj _ := eq_refl |}.
#[global] Instance cancel_embed : Embed cancel_record outcome_value :=
  {| inj := OCancel; prj v := match v with OCancel c => Some c | OVerdict _ => None end; prj_inj _ := eq_refl |}.

Section OutcomeWitnesses.
Let h0 : oracle unit unit unit := λ _ _, Ok tt.
Let running : outcome_value := OVerdict (OutcomeRecord VRunning 3 None).
Let w0 : world outcome_value unit := World (mj_put 3 (rk_outcome "r") running empty_journal) 10 10 [] empty_work.

(** A worker that ends the run: the step at which its compare-and-set lands. *)
Lemma outcome_never_regresses_witness :
  ∃ v', jkey (rk_outcome "r") (snd (schedule h0 [0; 0; 0] (map (perform_call (R:=unit) (E:=unit) "r") [Succeed 4], w0))) = Some v' ∧
    moves running v'.
Proof.
  set (c0 := (map (perform_call (R:=unit) (E:=unit) "r") [Succeed 4], w0)).
  refine (outcome_never_regresses "r" [Succeed 4] w0 (schedule h0 [0; 0] c0) (schedule h0 [0; 0; 0] c0) running
    (schedule_reachable h0 [0; 0] c0) _ _).
  - assert (Hi : ∃ r k, fst (schedule h0 [0; 0] c0) !! 0 = Some (Do r k)) by (eexists _, _; vm_compute; reflexivity).
    destruct Hi as (r & k & Hi). change (schedule h0 [0; 0; 0] c0) with (schedule_step h0 (schedule h0 [0; 0] c0) 0).
    destruct (schedule h0 [0; 0] c0) as [ps w]. unfold schedule_step. cbn [fst snd] in *. rewrite Hi. by apply (step_ok h0).
  - vm_compute. reflexivity.
Defined.

Example finished_run_stays :
  jkey (rk_outcome "r") (snd (run h0 (_ ← runSucceeded full_caps "r" 4; cancelAgentRun full_caps "r" None) w0))
    = Some (OVerdict (OutcomeRecord VCompleted 10 None)).
Proof. vm_compute. reflexivity. Qed.

(** A cancel whose outcome was not written, cancelled once more: the verdict carries the moment of the
    second cancel on a journal with a clock, and of the first on one without. *)
Example second_cancel_restamps :
  let flagged := World (mj_put 3 (cancelKey "r") (OCancel (CancelRecord 5 None)) (jr w0)) 100 100 [] empty_work in
  jkey (rk_outcome "r") (snd (run h0 (cancelAgentRun (R:=unit) (E:=unit) full_caps "r" None) flagged))
    = Some (OVerdict (OutcomeRecord VCanceled 100 None)) ∧
  jkey (rk_outcome "r") (snd (run h0 (cancelAgentRun (R:=unit) (E:=unit) (JournalCaps true true false true true true) "r" None) flagged))
    = Some (OVerdict (OutcomeRecord VCanceled 5 None)).
Proof. vm_compute. by split. Qed.
End OutcomeWitnesses.
