(* ===== verification/DurableModel.v ===== *)
(** * DurableModel: the model steps of a run

    Models [packages/durable/src/durable-model.ts]: [withDurableModel], which records every answer
    of the model under (run, step) and serves the record on every later attempt, for both entry
    points, with the write-ahead copy of a streamed step.

    [step] and the replay cache, which the closure of the middleware mutates, are the [model_state]
    of a [closure]: they are kept when a function throws.  The call of the model is a host request ([timeout.ts] turns a call that takes
    too long into one that fails); a streamed step hands its chunks to the SDK one host request
    ([deliver]) each.  Who calls the model, and whether it calls again after an error, is up to the
    SDK: a [client] of [Closure].  Warnings on the console are left out. *)

From S2P Require Import Prelude JsMap Keys Journal Work Prog Faults Closure Claim Json Hash Format Taint RunIdentity Cost ToolTypes Limits Outcome.

Inductive claim_status := ClaimRunning | ClaimSucceeded | ClaimFailed.

#[global] Instance claim_status_eq_dec : EqDecision claim_status.
Proof. solve_decision. Defined.

Record model_claim := ModelClaim {
  mc_status : claim_status;
  mc_startedAt : Z;
  mc_reqHash : option string;
}.

#[global] Instance model_claim_eq_dec : EqDecision model_claim.
Proof. solve_decision. Defined.

(** [opts.exclusiveStep], its [ttlMs] given or not. *)
Record model_options := ModelOptions { mo_exclusiveStep : option (option Z) }.

Inductive entry_point := Generate | Stream.

Inductive model_error :=
| StepBusy (claimKey : string) (age ttlMs : Z)         (** [RunBusyError] *)
| EntryPointMismatch (key : string) (expected : entry_point)
| RunCanceled (runId : string) (reason : option js)
| RecordFormat (e : format_error)
| UpgradeOutOfFuel.

Definition DEFAULT_EXCLUSIVE_TTL_MS : Z := 30000.
Definition CHECKPOINT_EVERY : nat := 10.

Definition modelClaimKey (runId : string) (step : N) : string := rk_proc runId ("__gnl_model_claim:" +:+ dec step).
Definition checkpointKey (runId : string) (step : N) : string := rk_proc runId ("__gnl_stream_checkpoint:" +:+ dec step).

Definition DETERMINISTIC_PARAM_KEYS : list string :=
  ["prompt"; "maxOutputTokens"; "temperature"; "stopSequences"; "topP"; "topK"; "presencePenalty";
   "frequencyPenalty"; "responseFormat"; "seed"; "tools"; "toolChoice"].

Definition picked (params : js) : list (string * js) :=
  omap (λ k, match prop params k with JUndef => None | v => Some (k, v) end) DETERMINISTIC_PARAM_KEYS.

Definition safeRequestHash (normalize sha256 : string → string) (params : js) : option string :=
  match argsHash normalize sha256 (JObj (picked params)) with Ok s => Some s | Err _ => None end.

(** ** Recorded steps *)

(** [Array.isArray(hit.parts)]. *)
Definition parts_of (hit : js) : option (list js) := match prop hit "parts" with JArr l => Some l | _ => None end.

Definition has_type (t : string) (p : js) : bool := match prop p "type" with JStr s => String.eqb s t | _ => false end.

(** The terminator of a truncated step. *)
Definition finish_of (parts : list js) : js :=
  JObj [("type", JStr "finish");
        ("finishReason", JObj [("unified", JStr (if existsb (has_type "tool-call") parts then "tool-calls" else "stop"));
                               ("raw", JStr "gnl:partial-replay")]);
        ("usage", JObj [("inputTokens", JObj [("total", JNum 0); ("noCache", JNum 0); ("cacheRead", JUndef); ("cacheWrite", JUndef)]);
                        ("outputTokens", JObj [("total", JNum 0); ("text", JNum 0); ("reasoning", JUndef)])])].

Definition completeIfTruncated (hit : js) : list js :=
  let parts := default [] (parts_of hit) in
  if negb (bool_decide (prop hit "partial" = JBool true)) then parts
  else if existsb (has_type "finish") parts then parts
  else parts ++ [finish_of parts].

Definition entryPointMatches (hit : js) (expected : entry_point) : bool :=
  match expected with Generate => negb (bool_decide (is_Some (parts_of hit))) | Stream => bool_decide (is_Some (parts_of hit)) end.

(** The record of a streamed step; the write-ahead copy says that it is [partial]. *)
Definition stream_record (parts : list js) (rest : js) (partial : bool) : fields :=
  [("parts", JArr parts); ("rest", rest)] ++ (if partial then [("partial", JBool true)] else []).

(** What the closure of the middleware holds: the step, the replay cache, and the nested runs known to
    be absent (a memo of [limits.ts]; a check that fails forgets what it learnt). *)
Record model_state (V : Type) := ModelState {
  ms_step : N;
  ms_cache : option (jsmap V);
  ms_absent : list string;
}.
Arguments ModelState {V}. Arguments ms_step {V}. Arguments ms_cache {V}. Arguments ms_absent {V}.

Definition next_step {V} (s : model_state V) : model_state V := ModelState (N.succ (ms_step s)) (ms_cache s) (ms_absent s).
Definition with_cache {V} (c : option (jsmap V)) (s : model_state V) : model_state V := ModelState (ms_step s) c (ms_absent s).

(** Requests to the host, and its answers: a stream that is open has chunks to come, further fields
    of the answer, and may break off with an error. *)
Inductive model_query :=
| QModel (e : entry_point) (step : N) (params : js)
| QDeliver (chunk : js).

Record opened_stream (E : Type) := OpenedStream {
  os_chunks : list js;
  os_rest : js;
  os_error : option E;
}.
Arguments OpenedStream {E}. Arguments os_chunks {E}. Arguments os_rest {E}. Arguments os_error {E}.

Inductive model_answer (E : Type) :=
| AGenerated (result : list (string * js))
| AOpened (s : opened_stream E)
| ADelivered.
Arguments AGenerated {E}. Arguments AOpened {E}. Arguments ADelivered {E}.

Definition generated {E} (a : model_answer E) : list (string * js) := match a with AGenerated r => r | _ => [] end.
Definition opened {E} (a : model_answer E) : opened_stream E :=
  match a with AOpened s => s | _ => OpenedStream [] (JObj []) None end.

(** What [wrapStream] returns: recorded chunks, or a stream that records as it is read. *)
Inductive stream_handle (E : Type) :=
| Replayed (chunks : list js) (rest : js)
| Live (step : N) (reqHash : option string) (s : opened_stream E).
Arguments Replayed {E}. Arguments Live {E}.

Section DurableModel.
Context {V : Type} `{!JsValue V, !Embed limit_chain V, !Embed limit_counters V, !Embed pricing_doc V, !Embed tool_record V,
  !Embed js V, !Embed model_claim V, !Embed cancel_record V} {E : Type}.
Variable caps : journal_caps.
Variable normalize : string → string.      (** NFC, for hashes *)
Variable sha256 : string → string.
Variable depth : nat.                      (** the nesting of [parts] in old records *)
Variable fail : model_error → E.
Variable limits_fail : limits_error → E.
Variable limit_fuel : nat.
Variable runId : string.
Variable limits : option run_limits.
Variable strict : bool.                    (** [ctx.replay === 'strict'] *)
Variable opts : model_options.
Abbreviation prog := (prog V model_query (model_answer E) E).

Definition upgrade_record (key : string) (v : V) : outcome E V :=
  match prj v : option js with
  | None => Ok v
  | Some x =>
      match upgradeFormat 1 [(1%Z, upgrade_v1 depth)] JOURNAL_FORMAT_VERSION x with
      | Some (Ok y) => Ok (inj y)
      | Some (Err e) => Err (fail (RecordFormat e))
      | None => Err (fail UpgradeOutOfFuel)
      end
  end.

Abbreviation model := (closure (model_state V) V model_query (model_answer E) E).

Definition the_step : model N := λ s, Ret (Ok (ms_step s), s).
Definition advance : model unit := λ s, Ret (Ok tt, next_step s).

(** [ctxGet]: what was served, or failed to be, has left the cache. *)
Definition cached_get (key : string) : model (option V) := λ s,
  pbind (λ o, Ret (match o with
                   | Ok (v, cache) => (Ok v, with_cache cache s)
                   | Err e => (Err e, with_cache (mdel key <$> ms_cache s) s)
                   end))
        (pcatch (ctxGet upgrade_record (ms_cache s) key)).

Definition step_limits : model unit := λ s,
  pbind (λ o, Ret (match o with
                   | Ok absent => (Ok tt, ModelState (ms_step s) (ms_cache s) absent)
                   | Err e => (Err e, s)
                   end))
        (pcatch (enforceStepLimits caps limits_fail limit_fuel runId limits (CostOpts None None) (ms_absent s))).

Definition acquireModelClaim (claimKey : string) (reqHash : option string) : prog unit :=
  match mo_exclusiveStep opts with
  | None => now ← dateNow; jput claimKey (inj (ModelClaim ClaimRunning now reqHash))
  | Some ttl =>
      now ← jnow caps;
      let record := inj (ModelClaim ClaimRunning now reqHash) in
      won ← claim caps claimKey record;
      if won : bool then mret tt
      else
        existing ← jget claimKey;
        let ttlMs := default DEFAULT_EXCLUSIVE_TTL_MS ttl in
        match existing ≫= prj with
        | Some c =>
            if bool_decide (mc_status c = ClaimRunning) && (now - mc_startedAt c <? ttlMs)%Z
            then Throw (fail (StepBusy claimKey (now - mc_startedAt c) ttlMs))
            else jput claimKey record
        | None => jput claimKey record
        end
  end.

(** The check reads the claim (through the cache); a divergence is a warning only. *)
Definition warnOnModelDivergence (claimKey : string) (reqHash : option string) : model unit :=
  if strict && bool_decide (is_Some reqHash) then _ ← cached_get claimKey; mret tt else mret tt.

(** The claim of a step whose call failed. *)
Definition claim_failed {A} (claimKey : string) (reqHash : option string) (e : E) : prog A :=
  now ← dateNow;
  _ ← jput claimKey (inj (ModelClaim ClaimFailed now reqHash));
  Throw e.

Definition wrapGenerate (params : js) : model js :=
  step ← the_step;
  let key := rk_model runId (dec step) in
  let claimKey := modelClaimKey runId step in
  let reqHash := safeRequestHash normalize sha256 params in
  hit ← cached_get key;
  match hit with
  | Some v =>
      if entryPointMatches (model_value v) Generate then
        _ ← warnOnModelDivergence claimKey reqHash;
        _ ← advance;
        _ ← step_limits;
        mret (model_value v)
      else cthrow (fail (EntryPointMismatch key Generate))
  | None =>
      _ ← clift (assertNotCanceled (λ r x, fail (RunCanceled r x)) runId);
      _ ← clift (acquireModelClaim claimKey reqHash);
      result ← clift (ptry (claim_failed claimKey reqHash)
        (a ← request (RExt (QModel Generate step params));
         _ ← jput key (inj (JObj (stampFormat (generated a))));
         now ← dateNow;
         _ ← jput claimKey (inj (ModelClaim ClaimSucceeded now reqHash));
         mret (generated a)));
      _ ← advance;
      _ ← step_limits;
      mret (JObj result)
  end.

Definition wrapStream (params : js) : model (stream_handle E) :=
  step ← the_step;
  let key := rk_model runId (dec step) in
  let claimKey := modelClaimKey runId step in
  let reqHash := safeRequestHash normalize sha256 params in
  hit ← cached_get key;
  match hit with
  | Some v =>
      if entryPointMatches (model_value v) Stream then
        _ ← warnOnModelDivergence claimKey reqHash;
        _ ← advance;
        _ ← step_limits;
        mret (Replayed (completeIfTruncated (model_value v)) (prop (model_value v) "rest"))
      else cthrow (fail (EntryPointMismatch key Stream))
  | None =>
      _ ← clift (assertNotCanceled (λ r x, fail (RunCanceled r x)) runId);
      _ ← clift (acquireModelClaim claimKey reqHash);
      a ← clift (ptry (claim_failed claimKey reqHash) (request (RExt (QModel Stream step params))));
      _ ← advance;
      mret (Live step reqHash (opened a))
  end.

(** *** Reading a stream *)

Definition deliver (chunk : js) : prog unit := _ ← request (RExt (QDeliver chunk)); mret tt.

Fixpoint deliver_all (chunks : list js) : prog unit :=
  match chunks with
  | [] => mret tt
  | c :: cs => _ ← deliver c; deliver_all cs
  end.

(** [transform]: a chunk that calls a tool is recorded before it is handed on. *)
Fixpoint record_chunks (step : N) (rest : js) (chunks parts : list js) : prog (list js) :=
  match chunks with
  | [] => mret parts
  | c :: cs =>
      let parts' := parts ++ [c] in
      _ ← (if has_type "tool-call" c then
             ptry (λ _, mret tt) (jput (rk_model runId (dec step)) (inj (JObj (stampFormat (stream_record parts' rest true)))))
           else if length parts' mod CHECKPOINT_EVERY =? 0 then
             ptry (λ _, mret tt) (jput (checkpointKey runId step) (inj (JObj (stream_record parts' rest true))))
           else mret tt);
      _ ← deliver c;
      record_chunks step rest cs parts'
  end.

Definition flush (step : N) (reqHash : option string) (rest : js) (parts : list js) : model unit :=
  _ ← clift (jput (rk_model runId (dec step)) (inj (JObj (stampFormat (stream_record parts rest false)))));
  now ← clift dateNow;
  _ ← clift (jput (modelClaimKey runId step) (inj (ModelClaim ClaimSucceeded now reqHash)));
  step_limits.

(** Reads a stream to its end; the chunks it had. *)
Definition pull (handle : stream_handle E) : model (list js) :=
  match handle with
  | Replayed chunks _ => _ ← clift (deliver_all chunks); mret chunks
  | Live step reqHash st =>
      parts ← clift (record_chunks step (os_rest st) (os_chunks st) []);
      match os_error st with
      | Some e => cthrow e
      | None => _ ← flush step reqHash (os_rest st) parts; mret parts
      end
  end.

(** A step of the streaming path: the call, and the reading of what it gave. *)
Definition stream_step (params : js) : model (list js) := handle ← wrapStream params; pull handle.
End DurableModel.
