(* ===== verification/RunCost.v ===== *)
(** * RunCost: what a run cost, and its trace

    Models the rest of [packages/durable/src/cost.ts] ([getRunCost], [toTraceSpans]) and
    [readPricing] / [effectivePricingTable] of [pricing.ts] as they read the journal.

    A journal is used as it is or through the view of an organization.  The view
    ([withOrg]) puts its prefix before every key it is given, so a program takes the
    prefix as its [scope]: [""] for the journal itself.  The document of prices is the
    exception: an organization that has none of its own uses the one of the journal. *)

From S2P Require Import Prelude JsMap Keys Journal Work Prog Claim Json Hash Format Taint RunIdentity Cost ToolTypes Limits.

(** ** The ledger of a run *)

Record model_total := ModelTotal { mt_calls : Z; mt_tokens : Z; mt_costUsd : Z }.

Record run_cost := RunCost {
  rc_runId : string;
  rc_inputTokens : Z;
  rc_outputTokens : Z;
  rc_cachedTokens : Z;
  rc_totalTokens : Z;
  rc_modelCalls : Z;
  rc_toolCalls : Z;
  rc_costUsd : Z;
  rc_byModel : jsmap model_total;
}.

Definition zeroCost (runId : string) : run_cost := RunCost runId 0 0 0 0 0 0 0 [].

Definition add_model_total (u : step_usage) (bm : model_total) : model_total :=
  ModelTotal (mt_calls bm + 1) (mt_tokens bm + fu_totalTokens (su_tokens u)) (mt_costUsd bm + su_costUsd u).

Definition add_step_usage (u : step_usage) (out : run_cost) : run_cost :=
  let t := su_tokens u in
  RunCost (rc_runId out) (rc_inputTokens out + fu_inputTokens t) (rc_outputTokens out + fu_outputTokens t)
    (rc_cachedTokens out + fu_cachedTokens t) (rc_totalTokens out + fu_totalTokens t)
    (rc_modelCalls out + 1) (rc_toolCalls out) (rc_costUsd out + su_costUsd u)
    (mset (su_modelId u)
       (add_model_total u (default (ModelTotal 0 0 0) (mget (su_modelId u) (rc_byModel out))))
       (rc_byModel out)).

Definition add_tool_call (out : run_cost) : run_cost :=
  RunCost (rc_runId out) (rc_inputTokens out) (rc_outputTokens out) (rc_cachedTokens out) (rc_totalTokens out)
    (rc_modelCalls out) (rc_toolCalls out + 1) (rc_costUsd out) (rc_byModel out).

Inductive span_attributes :=
| ModelAttributes (finish_reason : option string) (input_tokens output_tokens : Z) (model : js)
| ToolAttributes (status : js).

Record trace_span := TraceSpan {
  ts_name : string;
  ts_kind : entry_kind;
  ts_runId : string;
  ts_seq : nat;
  ts_attributes : span_attributes;
  ts_ts : option Z;
}.

Section RunCost.
Context {V : Type} `{!JsValue V, !Embed pricing_doc V, !Embed js V} {Q R E : Type}.
Variable scope : string.
Abbreviation prog := (prog V Q R E).

Definition readPricing : prog (option pricing_doc) :=
  own ← jget (scope +:+ PRICING_KEY);
  match own with
  | Some d => mret (prj d)
  | None => if String.eqb scope "" then mret None else d ← jget PRICING_KEY; mret (d ≫= prj)
  end.

Definition pricingTable : prog price_table := doc ← readPricing; mret (effectivePricingTable doc).

Definition add_entry_cost (modelId : option string) (table : price_table) (out : run_cost) (e : journal_entry V)
    : run_cost :=
  match je_kind e with
  | KTool => add_tool_call out
  | KModel => match usageAndCostFromModelValue (model_value (je_value e)) modelId table with
              | Some u => add_step_usage u out
              | None => out
              end
  end.

Definition getRunCost (runId : string) (modelId : option string) (pricing : option price_table) : prog run_cost :=
  table ← match pricing with Some t => mret t | None => pricingTable end;
  entries ← request (RReadRun (scope +:+ runId));
  mret (fold_left (add_entry_cost modelId table) entries (zeroCost runId)).

Definition span_of (runId : string) (e : journal_entry V) : trace_span :=
  let v := model_value (je_value e) in
  match je_kind e with
  | KModel =>
      let facts := modelRecordFacts v in
      let flat := flattenUsage (mf_usage facts) in
      TraceSpan "llm.generate" KModel runId (je_seq e)
        (ModelAttributes (finishReasonText (mf_finishReason facts)) (fu_inputTokens flat) (fu_outputTokens flat)
           (mf_modelId facts)) (je_ts e)
  | KTool => TraceSpan "tool.execute" KTool runId (je_seq e) (ToolAttributes (prop v "status")) (je_ts e)
  end.

Definition toTraceSpans (runId : string) : prog (list trace_span) :=
  entries ← request (RReadRun (scope +:+ runId)); mret (map (span_of runId) entries).
End RunCost.

(** ** Lemmas: sums over a ledger *)

Definition sum_map {A} (f : A → Z) (l : list A) : Z := foldr (λ x n, f x + n)%Z 0%Z l.

Lemma sum_map_cons {A} (f : A → Z) x l : sum_map f (x :: l) = (f x + sum_map f l)%Z.
Proof. done. Qed.

Lemma sum_map_app {A} (f : A → Z) l k : sum_map f (l ++ k) = (sum_map f l + sum_map f k)%Z.
Proof. induction l as [|x l IH]; simpl; lia. Qed.

Lemma sum_map_map {A B} (f : B → Z) (g : A → B) l : sum_map f (map g l) = sum_map (λ x, f (g x)) l.
Proof. induction l as [|x l IH]; simpl; [done|]. by rewrite IH. Qed.

Lemma sum_map_ext {A} (f g : A → Z) l : (∀ x, x ∈ l → f x = g x) → sum_map f l = sum_map g l.
Proof. intros Hf. induction l as [|x l IH]; simpl; [done|]. rewrite IH, (Hf x); [done|by left|]. intros; apply Hf; by right. Qed.

Lemma sum_map_perm {A} (f : A → Z) l k : l ≡ₚ k → sum_map f l = sum_map f k.
Proof. induction 1 as [|x l k _ IH|x y l|l k m _ IH1 _ IH2]; rewrite ?sum_map_cons; lia. Qed.

Lemma sum_map_nonneg {A} (f : A → Z) l : (∀ x, x ∈ l → 0 ≤ f x)%Z → (0 ≤ sum_map f l)%Z.
Proof.
  intros Hf. induction l as [|x l IH]; simpl; [lia|]. pose proof (Hf x ltac:(by left)).
  assert (0 ≤ sum_map f l)%Z by (apply IH; intros; apply Hf; by right). lia.
Qed.

Lemma sum_map_filter {A} (f : A → Z) (P : A → bool) l :
  sum_map f (filter (λ x, P x = true) l) = sum_map (λ x, if P x then f x else 0%Z) l.
Proof.
  induction l as [|x l IH]; [done|]. rewrite filter_cons. case_decide as H; simpl; rewrite IH.
  - by rewrite H.
  - by destruct (P x).
Qed.

(** Replacing the entry of a key moves a sum over the map by the difference. *)
Lemma sum_mset {W} (f : W → Z) (k : string) (w w0 : W) (m : jsmap W) :
  (mget k m = None → f w0 = 0%Z) →
  sum_map (λ kv, f (snd kv)) (mset k w m) = (sum_map (λ kv, f (snd kv)) m + (f w - f (default w0 (mget k m))))%Z.
Proof.
  induction m as [|[k' w'] m IH]; simpl; intros H0.
  - rewrite H0 by done. lia.
  - destruct (String.eqb k k'); simpl; [lia|]. rewrite IH by done. lia.
Qed.

Lemma count_if_map {A B} (f : B → bool) (g : A → B) l : count_if f (map g l) = count_if (λ x, f (g x)) l.
Proof. induction l as [|x l IH]; [done|]. cbn [map]. by rewrite !count_if_cons, IH. Qed.

Lemma count_if_ext {A} (f g : A → bool) l : (∀ x, f x = g x) → count_if f l = count_if g l.
Proof. intros Hf. induction l as [|x l IH]; [done|]. by rewrite !count_if_cons, IH, Hf. Qed.

Section RunCostLemmas.
Context {V : Type} `{!JsValue V, !Embed pricing_doc V, !Embed js V} {Q R E : Type}.
Implicit Types (es : list (journal_entry V)) (w : world V Q).

(** The prices and the ledger that a world shows. *)
Definition prices_in (scope : string) w : price_table :=
  effectivePricingTable
    match jkey (scope +:+ PRICING_KEY) w with
    | Some d => prj d
    | None => if String.eqb scope "" then None else jkey PRICING_KEY w ≫= prj
    end.

Definition cost_in (scope : string) w (runId : string) : run_cost :=
  fold_left (add_entry_cost None (prices_in scope w)) (mj_readRun (scope +:+ runId) (jr w)) (zeroCost runId).

Lemma run_pricingTable (h : oracle Q R E) scope w :
  run h (pricingTable (V:=V) scope) w = (Ok (prices_in scope w), w).
Proof.
  unfold pricingTable, readPricing, prices_in, jkey, jget. do 2 run_step.
  destruct (mj_get _ _); [done|]. destruct (String.eqb scope ""); [done|]. by run_step.
Qed.

Lemma run_getRunCost (h : oracle Q R E) scope runId w :
  run h (getRunCost scope runId None None) w = (Ok (cost_in scope w runId), w).
Proof. unfold getRunCost. unfold mbind, prog_bind. by rewrite run_bind, run_pricingTable. Qed.

Lemma run_getRunCost_priced (h : oracle Q R E) scope runId w t :
  t = prices_in scope w → run h (getRunCost scope runId None (Some t)) w = (Ok (cost_in scope w runId), w).
Proof. by intros ->. Qed.

(** A quantity of the ledger that each step adds to, and no tool call. *)
Lemma fold_cost modelId table (f : run_cost → Z) (g : step_usage → Z) es out :
  (∀ u o, f (add_step_usage u o) = f o + g u)%Z → (∀ o, f (add_tool_call o) = f o) →
  f (fold_left (add_entry_cost (V:=V) modelId table) es out) =
    (f out + sum_map (λ e, match je_kind e with
                           | KModel => from_option g 0 (usageAndCostFromModelValue (model_value (je_value e)) modelId table)
                           | KTool => 0
                           end) es)%Z.
Proof.
  intros Hs Ht. revert out. induction es as [|e es IH]; intros out; simpl; [lia|]. rewrite IH.
  unfold add_entry_cost at 1. destruct (je_kind e).
  - destruct (usageAndCostFromModelValue _ _ _); simpl; [rewrite Hs|]; lia.
  - rewrite Ht. lia.
Qed.

Lemma usage_of_falsy (v : js) : js_truthy v = false → flattenUsage v = FlatUsage 0 0 0 0.
Proof. by destruct v. Qed.

(** A span carries the tokens the ledger adds, priced or not. *)
Lemma span_tokens modelId table v :
  fu_inputTokens (flattenUsage (mf_usage (modelRecordFacts v))) =
    from_option (λ u, fu_inputTokens (su_tokens u)) 0%Z (usageAndCostFromModelValue v modelId table) ∧
  fu_outputTokens (flattenUsage (mf_usage (modelRecordFacts v))) =
    from_option (λ u, fu_outputTokens (su_tokens u)) 0%Z (usageAndCostFromModelValue v modelId table).
Proof.
  unfold usageAndCostFromModelValue. destruct (js_truthy _) eqn:Ht; cbn [negb]; [done|]. by rewrite usage_of_falsy.
Qed.

Lemma fold_tools modelId table es out :
  rc_toolCalls (fold_left (add_entry_cost (V:=V) modelId table) es out) =
    (rc_toolCalls out + Z.of_nat (count_if (λ e, bool_decide (je_kind e = KTool)) es))%Z.
Proof.
  revert out. induction es as [|e es IH]; intros out; cbn [fold_left]; [unfold count_if; simpl; lia|].
  rewrite IH, count_if_cons, Nat2Z.inj_add, Z.add_assoc. f_equal. unfold add_entry_cost.
  destruct (je_kind e); [|done]. rewrite bool_decide_eq_false_2 by done.
  destruct (usageAndCostFromModelValue _ _ _); simpl; lia.
Qed.

Lemma readRun_seqs runId (j : mem_journal V) : map je_seq (mj_readRun runId j) = seq 0 (length (mj_readRun runId j)).
Proof.
  unfold mj_readRun. generalize (run_records runId (store j)) (times j) 0. intros l t n. revert n.
  induction l as [|[[k kd] v] l IH]; intros n; simpl; [done|]. by rewrite IH.
Qed.

(** The sub-totals of the models add up to the totals. *)
Definition adds_up (c : run_cost) : Prop :=
  sum_map (λ kv, mt_calls (snd kv)) (rc_byModel c) = rc_modelCalls c ∧
  sum_map (λ kv, mt_tokens (snd kv)) (rc_byModel c) = rc_totalTokens c ∧
  sum_map (λ kv, mt_costUsd (snd kv)) (rc_byModel c) = rc_costUsd c ∧
  map_wf (rc_byModel c).

Lemma adds_up_step u c : adds_up c → adds_up (add_step_usage u c).
Proof.
  intros (H1 & H2 & H3 & H4). unfold adds_up, add_step_usage. cbn [rc_byModel rc_modelCalls rc_totalTokens rc_costUsd].
  split_and!; [| | |by apply map_wf_mset]; rewrite (sum_mset _ _ _ (ModelTotal 0 0 0)) by done; simpl; lia.
Qed.

Lemma adds_up_entries modelId table es c :
  adds_up c → adds_up (fold_left (add_entry_cost (V:=V) modelId table) es c).
Proof.
  revert c. induction es as [|e es IH]; intros c Hc; simpl; [done|]. apply IH.
  unfold add_entry_cost. destruct (je_kind e); [|exact Hc].
  destruct (usageAndCostFromModelValue _ _ _); [by apply adds_up_step|done].
Qed.
End RunCostLemmas.

(** ** Properties *)

Section RunCostProps.
Context {V : Type} `{!JsValue V, !Embed limit_chain V, !Embed limit_counters V,
  !Embed pricing_doc V, !Embed tool_record V, !Embed js V} {Q R E : Type}.

Lemma seed_tokens runId opts (es : list (journal_entry V)) cs up chain :
  let table := default DEFAULT_PRICING (co_pricing opts) in
  let out := fold_left (add_entry_cost (co_modelId opts) table) es (zeroCost runId) in
  let d := fst (fst (fold_left (seed_entry runId opts) es ((cs, up), chain))) in
  n_totalTokens d = (n_totalTokens cs + rc_totalTokens out)%Z ∧ n_costUsd d = (n_costUsd cs + rc_costUsd out)%Z.
Proof.
  intros table out d. subst out.
  rewrite (fold_cost _ _ rc_totalTokens (λ u, fu_totalTokens (su_tokens u))), (fold_cost _ _ rc_costUsd su_costUsd) by done.
  cbn [rc_totalTokens rc_costUsd zeroCost]. subst d. revert cs up chain.
  induction es as [|e es IH]; intros cs up chain; cbn [fold_left sum_map foldr]; [simpl; lia|].
  assert (∃ cs' up' chain', seed_entry runId opts ((cs, up), chain) e = ((cs', up'), chain') ∧
    n_totalTokens cs' = (n_totalTokens cs + match je_kind e with
      | KModel => from_option (λ u, fu_totalTokens (su_tokens u)) 0 (usageAndCostFromModelValue (model_value (je_value e)) (co_modelId opts) table)
      | KTool => 0 end)%Z ∧
    n_costUsd cs' = (n_costUsd cs + match je_kind e with
      | KModel => from_option su_costUsd 0 (usageAndCostFromModelValue (model_value (je_value e)) (co_modelId opts) table)
      | KTool => 0 end)%Z) as (cs' & up' & chain' & -> & Ht & Hc).
  { unfold seed_entry, applyModelStepDelta. fold table. destruct (je_kind e).
    - destruct (usageAndCostFromModelValue _ _ _); do 3 eexists; (split; [reflexivity|]); simpl; split; lia.
    - destruct (strip_prefix _ _); [|do 3 eexists; split; [reflexivity|]; split; lia].
      destruct (prj (je_value e)) as [rec|]; [|do 3 eexists; split; [reflexivity|]; split; lia].
      destruct (tr_mirrorOf rec); [do 3 eexists; split; [reflexivity|]; split; lia|].
      do 3 eexists. split; [reflexivity|]. destruct (counts_as_call _); simpl; split; lia. }
  destruct (IH cs' up' chain') as [-> ->]. rewrite Ht, Hc. unfold sum_map. split; lia.
Qed.

(** The three readers of a run's history agree.  In any journal, for the same run, model id
    and prices: the ledger ([getRunCost]), the trace ([toTraceSpans]) and the counters that the
    run limits are seeded with ([seedFromHistory]) all answer and change nothing; the ledger and
    the limits have the same tokens and the same cost; the spans carry the input and output
    tokens of the ledger, one span per record, in order; the ledger counts every tool record; and
    its sub-totals per model, one per model id, add up to its totals. *)
Theorem cost_readers_agree (h : oracle Q R E) (w : world V Q) (scope runId : string)
    (modelId : option string) (table : price_table) (unpriced : list string) :
  ∃ c spans cs up chain,
    run h (getRunCost scope runId modelId (Some table)) w = (Ok c, w) ∧
    run h (toTraceSpans scope runId) w = (Ok spans, w) ∧
    run h (seedFromHistory (scope +:+ runId) (CostOpts modelId (Some table)) unpriced) w = (Ok ((cs, up), chain), w) ∧
    n_totalTokens cs = rc_totalTokens c ∧ n_costUsd cs = rc_costUsd c ∧
    sum_map (λ s, match ts_attributes s with ModelAttributes _ i _ _ => i | _ => 0%Z end) spans = rc_inputTokens c ∧
    sum_map (λ s, match ts_attributes s with ModelAttributes _ _ o _ => o | _ => 0%Z end) spans = rc_outputTokens c ∧
    map ts_seq spans = seq 0 (length spans) ∧
    rc_toolCalls c = Z.of_nat (count_if (λ s, bool_decide (ts_kind s = KTool)) spans) ∧
    adds_up c.
Proof.
  set (es := mj_readRun (scope +:+ runId) (jr w)).
  pose proof (seed_tokens (scope +:+ runId) (CostOpts modelId (Some table)) es emptyCounters unpriced emptyChain) as Hseed.
  destruct (fold_left (seed_entry (scope +:+ runId) (CostOpts modelId (Some table))) es ((emptyCounters, unpriced), emptyChain))
    as [[cs up] chain] eqn:Hfold.
  exists (fold_left (add_entry_cost modelId table) es (zeroCost runId)), (map (span_of runId) es), cs, up, chain.
  cbn [fst co_pricing co_modelId default] in Hseed.
  destruct Hseed as [Ht Hc].
  split_and!; [done|done| | | | | | | |].
  - unfold seedFromHistory. simpl. fold es. by rewrite Hfold.
  - rewrite Ht. rewrite !(fold_cost _ _ rc_totalTokens (λ u, fu_totalTokens (su_tokens u))) by done. done.
  - rewrite Hc. rewrite !(fold_cost _ _ rc_costUsd su_costUsd) by done. done.
  - rewrite (fold_cost _ _ rc_inputTokens (λ u, fu_inputTokens (su_tokens u))) by done. rewrite sum_map_map.
    apply sum_map_ext. intros e _. unfold span_of. destruct (je_kind e); [|done]. apply (span_tokens modelId table).
  - rewrite (fold_cost _ _ rc_outputTokens (λ u, fu_outputTokens (su_tokens u))) by done. rewrite sum_map_map.
    apply sum_map_ext. intros e _. unfold span_of. destruct (je_kind e); [|done]. apply (span_tokens modelId table).
  - rewrite map_map, length_map. transitivity (map je_seq es); [|apply readRun_seqs]. apply map_ext. intros e.
    unfold span_of. by destruct (je_kind e).
  - rewrite fold_tools, count_if_map. cbn [zeroCost rc_toolCalls]. rewrite Z.add_0_l. f_equal. apply count_if_ext. intros e. unfold span_of.
    by destruct (je_kind e).
  - apply adds_up_entries. split_and!; [done..|]. constructor.
Qed.
End RunCostProps.
