(* ===== verification/Budget.v ===== *)
(** * Budget: the usage of an organization and the budget gate

    Models [packages/durable/src/budget.ts] in full, and the subtraction [purgeRun] makes
    ([uncountUsage] of [retention.ts]).

    The view of an organization is a [scope] (see [RunCost]); [canList] says whether the
    journal has [listRuns], [fuel] bounds the pages of its answer, and the cost cache,
    an object the host shares between calls, is threaded.  Costs are exact integers (see
    [Cost]).  Warnings on the console are not modelled. *)

From S2P Require Import Prelude JsMap Keys Journal Org Work Prog Claim Json Hash Format Taint RunIdentity Cost ToolTypes Limits RunCost.

(** ** Documents *)

Record organization_usage := OrganizationUsage { ou_runs : Z; ou_tokens : Z; ou_costUsd : Z }.
Record budget_limit := BudgetLimit { bl_usdLimit : option Z; bl_tokenLimit : option Z }.
Record budget_check := BudgetCheck {
  bc_exceeded : bool;
  bc_usage : organization_usage;
  bc_limit : option budget_limit;
}.

Inductive budget_error :=
| BudgetExceededError (check : budget_check)
| BudgetScope (e : org_error)
| BudgetOutOfFuel.

Definition zeroUsage : organization_usage := OrganizationUsage 0 0 0.

Definition BUDGET_PRE : string := "__budget__:".
Definition USAGE_KEY : string := "__usage__".
Definition usageCountedKey (runId : string) : string := runId +:+ ":usage-counted".

(** [Math.max(0, (a ?? 0) + (b ?? 0))] on each field. *)
Definition sum_clamped (a b : organization_usage) : organization_usage :=
  OrganizationUsage (Z.max 0 (ou_runs a + ou_runs b)) (Z.max 0 (ou_tokens a + ou_tokens b))
    (Z.max 0 (ou_costUsd a + ou_costUsd b)).

Definition usage_of_counters (m : jsmap Z) : organization_usage :=
  OrganizationUsage (default 0%Z (mget "runs" m)) (default 0%Z (mget "tokens" m)) (default 0%Z (mget "costUsd" m)).

Definition usage_fields (u : organization_usage) : list (string * Z) :=
  [("runs", ou_runs u); ("tokens", ou_tokens u); ("costUsd", ou_costUsd u)].

(** ** The cost cache: a [Map], or one that evicts its first entry when full *)

Record cost_cache := CostCache { cc_max : option nat; cc_entries : jsmap run_cost }.

Definition cache_get (key : string) (c : cost_cache) : option run_cost := mget key (cc_entries c).

Definition cache_set (key : string) (rc : run_cost) (c : cost_cache) : cost_cache :=
  match cc_max c with
  | None => CostCache None (mset key rc (cc_entries c))
  | Some n =>
      let full := negb (mhas key (cc_entries c)) && (n <=? length (cc_entries c)) in
      let kept := if full then match mkeys (cc_entries c) with
                               | oldest :: _ => mdel oldest (cc_entries c)
                               | [] => cc_entries c
                               end else cc_entries c in
      CostCache (Some n) (mset key rc kept)
  end.

Definition createBoundedUsageCache (maxEntries : option nat) : cost_cache :=
  CostCache (Some (default 5000 maxEntries)) [].

Definition isBudgetExceeded (usage : organization_usage) (limit : option budget_limit) : bool :=
  match limit with
  | None => false
  | Some l =>
      match bl_usdLimit l with Some n => (n <? ou_costUsd usage)%Z | None => false end ||
      match bl_tokenLimit l with Some n => (n <? ou_tokens usage)%Z | None => false end
  end.

(** A document that limits something. *)
Definition is_limit (l : budget_limit) : bool :=
  match bl_usdLimit l, bl_tokenLimit l with None, None => false | _, _ => true end.

Definition limiting (l : budget_limit) : option budget_limit := if is_limit l then Some l else None.

Definition completed (r : run_summary) : bool := bool_decide (rs_status r = RCompleted).

(** What a full scan adds up: everything, and the completed runs apart. *)
Record scan_totals := ScanTotals { sc_all : organization_usage; sc_done : organization_usage }.

Definition add_cost (rc : run_cost) (u : organization_usage) : organization_usage :=
  OrganizationUsage (ou_runs u + 1) (ou_tokens u + rc_totalTokens rc) (ou_costUsd u + rc_costUsd rc).

Definition add_scanned (r : run_summary) (rc : run_cost) (t : scan_totals) : scan_totals :=
  ScanTotals (add_cost rc (sc_all t)) (if completed r then add_cost rc (sc_done t) else sc_done t).

Section Budget.
Context {V : Type} `{!JsValue V, !Embed organization_usage V, !Embed budget_limit V,
  !Embed pricing_doc V, !Embed js V} {Q R E : Type}.
Variable caps : journal_caps.
Variable fail : budget_error → E.
Variable yes : V.                (** [true] *)
Variable canList : bool.
Variable fuel : nat.
Abbreviation prog := (prog V Q R E).

(** ** Operations on a view *)
Section View.
Variable scope : string.

Definition readUsageCounter : prog (option organization_usage) :=
  legacy ← jget (scope +:+ USAGE_KEY);
  ctr ← (if has_incrBy caps then request (RGetCounters (scope +:+ USAGE_KEY)) else mret None);
  match legacy ≫= prj, ctr with
  | None, None => mret None
  | l, c => mret (Some (sum_clamped (default zeroUsage l) (default zeroUsage (usage_of_counters <$> c))))
  end.

Definition addUsage (delta : organization_usage) : prog unit :=
  done ← (if has_incrBy caps
          then ptry (λ _, mret false) (_ ← request (RIncrBy (scope +:+ USAGE_KEY) (usage_fields delta)); mret true)
          else mret false);
  if done : bool then mret tt
  else
    cur ← jget (scope +:+ USAGE_KEY);
    jput (scope +:+ USAGE_KEY) (inj (sum_clamped (default zeroUsage (cur ≫= prj)) delta)).

Fixpoint walk_runs (n : nat) (seen : list string) (cursor : option string) : prog (list run_summary) :=
  match truthy cursor with
  | None => mret []
  | Some c =>
      if bool_decide (c ∈ seen) then mret []
      else match n with
           | 0 => Throw (fail BudgetOutOfFuel)
           | S n' =>
               '(items, nx) ← request (RListRuns (Some c));
               rest ← walk_runs n' (c :: seen) nx;
               mret (items ++ rest)
           end
  end.

(** The runs the view lists: all of the journal's, or the organization's own. *)
Definition view_runs (l : list run_summary) : list run_summary :=
  if String.eqb scope "" then l else own_runs scope l.

Definition listAllRuns : prog (list run_summary) :=
  '(items, cursor) ← request (RListRuns None);
  rest ← walk_runs fuel [] cursor;
  mret (view_runs (items ++ rest)).

(** [cachedPricing ??= await effectivePricingTable(view)]. *)
Definition sharedPricing (table : option price_table) : prog price_table :=
  match table with Some t => mret t | None => pricingTable scope end.

(** Runs that are not completed are priced as they are now. *)
Fixpoint live_cost (runs : list run_summary) (table : option price_table) (acc : organization_usage)
    : prog organization_usage :=
  match runs with
  | [] => mret acc
  | r :: runs' =>
      if completed r then live_cost runs' table acc
      else
        t ← sharedPricing table;
        rc ← getRunCost scope (rs_runId r) None (Some t);
        live_cost runs' (Some t) (add_cost rc acc)
  end.

Fixpoint scan_runs (prefix : string) (runs : list run_summary) (table : option price_table)
    (cache : option cost_cache) (acc : scan_totals) : prog (scan_totals * option cost_cache) :=
  match runs with
  | [] => mret (acc, cache)
  | r :: runs' =>
      let cacheKey := prefix +:+ ":" +:+ rs_runId r in
      match (if completed r then cache ≫= cache_get cacheKey else None) with
      | Some rc => scan_runs prefix runs' table cache (add_scanned r rc acc)
      | None =>
          t ← sharedPricing table;
          rc ← getRunCost scope (rs_runId r) None (Some t);
          let cache' := if completed r then cache_set cacheKey rc <$> cache else cache in
          scan_runs prefix runs' (Some t) cache' (add_scanned r rc acc)
      end
  end.

Fixpoint mark_counted (runs : list run_summary) : prog unit :=
  match runs with
  | [] => mret tt
  | r :: runs' =>
      if completed r then
        let marker := scope +:+ usageCountedKey (rs_runId r) in
        cur ← jget marker;
        _ ← match cur with None => jput marker yes | Some _ => mret tt end;
        mark_counted runs'
      else mark_counted runs'
  end.

Definition usage_of_view (prefix : string) (cache : option cost_cache) (strictSuspendedCost : bool)
    : prog (organization_usage * option cost_cache) :=
  if negb canList then mret (zeroUsage, cache)
  else
    counted ← readUsageCounter;
    match counted with
    | Some u =>
        if negb strictSuspendedCost then mret (u, cache)
        else
          runs ← listAllRuns;
          extra ← live_cost runs None zeroUsage;
          mret (OrganizationUsage (Z.of_nat (length runs)) (ou_tokens u + ou_tokens extra)
                  (ou_costUsd u + ou_costUsd extra), cache)
    | None =>
        runs ← listAllRuns;
        '(t, cache') ← scan_runs prefix runs None cache (ScanTotals zeroUsage zeroUsage);
        _ ← mark_counted runs;
        _ ← jput (scope +:+ USAGE_KEY) (inj (sc_done t));
        mret (OrganizationUsage (Z.of_nat (length runs)) (ou_tokens (sc_all t)) (ou_costUsd (sc_all t)), cache')
    end.

Definition recordRunUsage (runId : string) : prog unit :=
  if negb (has_readRun caps) then mret tt
  else
    won ← claim caps (scope +:+ usageCountedKey runId) yes;
    if won : bool then
      cost ← getRunCost scope runId None None;
      addUsage (OrganizationUsage 1 (rc_totalTokens cost) (rc_costUsd cost))
    else mret tt.

(** Before a run is purged. *)
Definition uncountUsage (runId : string) : prog unit :=
  if negb (has_readRun caps) then mret tt
  else
    mark ← jget (scope +:+ usageCountedKey runId);
    match mark with
    | None => mret tt
    | Some _ =>
        cur ← jget (scope +:+ USAGE_KEY);
        ctr ← (if has_incrBy caps then request (RGetCounters (scope +:+ USAGE_KEY)) else mret None);
        match cur ≫= prj, ctr with
        | None, None => mret tt
        | current, _ =>
            cost ← getRunCost scope runId None None;
            let delta := OrganizationUsage (-1) (- rc_totalTokens cost) (- rc_costUsd cost) in
            done ← (if has_incrBy caps
                    then ptry (λ _, mret false)
                           (_ ← request (RIncrBy (scope +:+ USAGE_KEY) (usage_fields delta)); mret true)
                    else mret false);
            if done : bool then mret tt
            else match current with
                 | None => mret tt
                 | Some c => jput (scope +:+ USAGE_KEY) (inj (sum_clamped c delta))
                 end
        end
    end.
End View.

(** ** Operations of the host *)

Definition getOrgUsage (orgId : option string) (cache : option cost_cache) (strictSuspendedCost : bool)
    : prog (organization_usage * option cost_cache) :=
  match truthy orgId with
  | None => usage_of_view "" (default "" orgId) cache strictSuspendedCost
  | Some id =>
      match orgPrefix id with
      | Ok p => usage_of_view p id cache strictSuspendedCost
      | Err e => Throw (fail (BudgetScope e))
      end
  end.

(** A stored document, when it limits something. *)
Definition limit_doc (v : option V) : option budget_limit :=
  match v with
  | Some x => match prj x with Some l => limiting l | None => None end
  | None => None
  end.

(** The organization's own limit, else the default one. *)
Definition readBudget (orgId : option string) : prog (option budget_limit) :=
  own ← match truthy orgId with Some id => jget (BUDGET_PRE +:+ id) | None => mret None end;
  match limit_doc own with
  | Some l => mret (Some l)
  | None => def ← jget (BUDGET_PRE +:+ "default"); mret (limit_doc def)
  end.

Definition checkBudget (orgId : option string) (fallback : option budget_limit) (cache : option cost_cache)
    (strictSuspendedCost : bool) : prog (budget_check * option cost_cache) :=
  found ← readBudget orgId;
  match (match found with Some l => Some l | None => fallback end) with
  | Some l =>
      if is_limit l then
        '(usage, cache') ← getOrgUsage orgId cache strictSuspendedCost;
        mret (BudgetCheck (isBudgetExceeded usage (Some l)) usage (Some l), cache')
      else mret (BudgetCheck false zeroUsage None, cache)
  | None => mret (BudgetCheck false zeroUsage None, cache)
  end.

Definition assertBudget (orgId : option string) (fallback : option budget_limit) (cache : option cost_cache)
    (strictSuspendedCost : bool) : prog (budget_check * option cost_cache) :=
  '(check, cache') ← checkBudget orgId fallback cache strictSuspendedCost;
  if bc_exceeded check then Throw (fail (BudgetExceededError check)) else mret (check, cache').
End Budget.

(** ** Stored values *)

Inductive budget_entry :=
| BUsage (u : organization_usage)
| BLimit (l : budget_limit)
| BEntry (e : entry).

Definition budget_entry_eq_dec : EqDecision budget_entry.
Proof.
  assert (EqDecision entry) by exact entry_eq_dec.
  assert (EqDecision organization_usage) by solve_decision.
  assert (EqDecision budget_limit) by solve_decision.
  solve_decision.
Defined.

#[global] Instance budget_entry_js : JsValue budget_entry := {|
  js_eq_dec := budget_entry_eq_dec;
  str_field b f := match b with BEntry e => str_field e f | _ => None end;
  is_versioned b := match b with BEntry e => is_versioned e | _ => false end;
  ser_length b := match b with BEntry e => ser_length e | _ => 0 end;
|}.

#[global] Instance usage_embed : Embed organization_usage budget_entry :=
  {| inj := BUsage; prj b := match b with BUsage x => Some x | _ => None end; prj_inj _ := eq_refl |}.
#[global] Instance limit_embed : Embed budget_limit budget_entry :=
  {| inj := BLimit; prj b := match b with BLimit x => Some x | _ => None end; prj_inj _ := eq_refl |}.

(** Whatever the engine stores, a budgeted journal stores too. *)
#[global] Instance engine_embed {T} `{!Embed T entry} : Embed T budget_entry.
Proof.
  refine {| inj x := BEntry (inj x); prj b := match b with BEntry e => prj e | _ => None end |}.
  intros t. apply prj_inj.
Defined.

Definition BYes : budget_entry := BEntry (EJs (JBool true)).

(** A model record of a number of input tokens, for examples. *)
Definition tokens_record (n : Z) : budget_entry :=
  BEntry (EJs (JObj [("usage", JObj [("inputTokens", JNum n); ("outputTokens", JNum 0)]); ("response", JObj [("modelId", JStr "gpt-4o")])])).
Definition outcome_record (status : string) : budget_entry := BEntry (EJs (JObj [("status", JStr status)])).
