(* ===== verification/BudgetUsage.v ===== *)
(** * BudgetUsage: the counter is the scan

    What [getOrgUsage] answers, what backfilling, recording and un-counting each do to the
    counter when they run alone, that the counter and the full scan agree as long as each
    completed run is counted once, and the budget gate on top of it.  [BudgetRaces] puts them together. *)

From S2P Require Import Prelude JsMap Keys Journal Org Work Prog Claim Json Hash Format Taint RunIdentity Cost ToolTypes Limits RunCost Budget.

(** ** Keys that the run reader does not look at *)

(** A key that is no record, input or outcome of a run. *)
Definition inert (k : string) : Prop :=
  parseJournalKey k = None ∧ strip_suffix ":input" k = None ∧ ends_with ":outcome" k = false.

#[global] Instance inert_dec k : Decision (inert k).
Proof. unfold inert. apply _. Defined.

Section Inert.
Context {V : Type} `{!JsValue V}.
Implicit Types (j : mem_journal V) (m : jsmap V).

Lemma collect_inert k v acc : inert k → collect_key (V:=V) acc (k, v) = acc.
Proof.
  intros (Hp & Hi & Ho). unfold collect_key, runIdOfKey, outcomeStatusOf. by rewrite Hp, Hi, Ho.
Qed.

Lemma collect_mset k v m acc : inert k → fold_left collect_key (mset k v m) acc = fold_left collect_key m acc.
Proof.
  intros Hk. revert acc. induction m as [|[k' v'] m IH]; intros acc; cbn [mset fold_left].
  - by apply collect_inert.
  - destruct (String.eqb_spec k k') as [<-|Hne]; cbn [fold_left]; [by rewrite !collect_inert|apply IH].
Qed.

Lemma run_records_mset r k v m : inert k → run_records r (mset k v m) = run_records r m.
Proof.
  intros (Hp & _). unfold run_records. induction m as [|[k' v'] m IH]; cbn [mset omap list_omap].
  - simpl. by rewrite Hp.
  - destruct (String.eqb_spec k k') as [<-|Hne]; cbn [omap list_omap]; [by rewrite !Hp|].
    destruct (parseJournalKey k') as [[r' kd]|]; [destruct (String.eqb r' r)|]; by rewrite <- IH.
Qed.

Lemma number_entries_times n (l : list (string * entry_kind * V)) r t t' :
  (∀ k kd v, (k, kd, v) ∈ l → mget k t' = mget k t) → number_entries n l r t' = number_entries n l r t.
Proof.
  revert n. induction l as [|[[k kd] v] l IH]; intros n Ht; simpl; [done|].
  rewrite IH, (Ht k kd v); [done|by left|]. intros k' kd' v' Hin. apply (Ht k' kd' v'). by right.
Qed.

Lemma run_records_parse r m k kd v : (k, kd, v) ∈ run_records r m → parseJournalKey k = Some (r, kd).
Proof.
  unfold run_records. intros ([k' v'] & _ & H)%list_elem_of_omap. destruct (parseJournalKey k') as [[r' kd']|] eqn:Hp; [|done].
  destruct (String.eqb_spec r' r) as [->|]; [|done]. by injection H as -> -> ->.
Qed.

(** Writing an inert key changes nothing the reader shows. *)
Lemma reads_inert j j' k v :
  inert k → store j' = mset k v (store j) → (∀ k', k' ≠ k → mget k' (times j') = mget k' (times j)) →
  mj_listRuns j' = mj_listRuns j ∧ ∀ r, mj_readRun r j' = mj_readRun r j.
Proof.
  intros Hk Hs Ht. split.
  - unfold mj_listRuns. rewrite Hs, collect_mset by done. apply map_ext. intros [r es].
    assert (Hg : ∀ x, (∃ y, strip_suffix ":input" x = Some y) ∨ ends_with ":outcome" x = true → mj_get x j' = mj_get x j).
    { intros x Hx. unfold mj_get. rewrite Hs. apply mget_mset_ne. intros ->. destruct Hk as (_ & Hi & Ho).
      destruct Hx as [[y Hy]|Hx]; congruence. }
    assert (Hin : ∀ f, input_field r f j' = input_field r f j).
    { intros f. unfold input_field. rewrite Hg; [done|]. left. exists r. apply strip_suffix_app. }
    unfold summary_of. rewrite !Hin, Hg; [done|]. right. unfold ends_with, rk_outcome. by rewrite strip_suffix_app.
  - intros r. unfold mj_readRun. rewrite Hs, run_records_mset by done. apply number_entries_times.
    intros k' kd v' Hin%run_records_parse. apply Ht. intros ->. destruct Hk as (Hp & _). congruence.
Qed.

Lemma reads_put now k v j : inert k →
  mj_listRuns (mj_put now k v j) = mj_listRuns j ∧ ∀ r, mj_readRun r (mj_put now k v j) = mj_readRun r j.
Proof.
  intros Hk. apply (reads_inert j (mj_put now k v j) k v); [done..|]. intros k' Hne. unfold mj_put. simpl.
  destruct (mhas k (times j)); [done|]. by rewrite mget_mset_ne.
Qed.

Lemma reads_putIfAbsent now k v j : inert k →
  mj_listRuns (snd (mj_putIfAbsent now k v j)) = mj_listRuns j ∧
  ∀ r, mj_readRun r (snd (mj_putIfAbsent now k v j)) = mj_readRun r j.
Proof.
  intros Hk. unfold mj_putIfAbsent. destruct (mhas k (store j)); [done|].
  apply (reads_inert _ _ k v); [done..|]. intros k' Hne. simpl. by rewrite mget_mset_ne.
Qed.
End Inert.

(** ** Sums and the cost cache *)

Lemma count_if_all {A} (l : list A) : count_if (λ _, true) l = length l.
Proof. induction l as [|x l IH]; [done|]. by rewrite count_if_cons, IH. Qed.

Section Sums.
Context (cost : run_summary → run_cost).

(** [u] and the usage of the runs of [l] that satisfy [P]. *)
Definition plus_usage (P : run_summary → bool) (l : list run_summary) (u : organization_usage) : organization_usage :=
  OrganizationUsage (ou_runs u + Z.of_nat (count_if P l))
    (ou_tokens u + sum_map (λ r, rc_totalTokens (cost r)) (filter (λ r : run_summary, P r = true) l))
    (ou_costUsd u + sum_map (λ r, rc_costUsd (cost r)) (filter (λ r : run_summary, P r = true) l)).

Lemma plus_usage_cons P r l u :
  plus_usage P (r :: l) u = plus_usage P l (if P r then add_cost (cost r) u else u).
Proof.
  unfold plus_usage. rewrite count_if_cons, filter_cons. destruct (decide (P r = true)) as [HP|HP].
  - rewrite HP, Nat2Z.inj_add, !sum_map_cons. cbn [add_cost ou_runs ou_tokens ou_costUsd]. f_equal; lia.
  - apply not_true_iff_false in HP. by rewrite HP.
Qed.

Lemma plus_usage_nil P u : plus_usage P [] u = u.
Proof. destruct u. unfold plus_usage, count_if. simpl. f_equal; lia. Qed.

Lemma fold_add_cost (P : run_summary → bool) l u : fold_left (λ a r, if P r then add_cost (cost r) a else a) l u = plus_usage P l u.
Proof.
  revert u. induction l as [|r l IH]; intros u; cbn [fold_left]; [by rewrite plus_usage_nil|].
  by rewrite plus_usage_cons, IH.
Qed.

Lemma fold_add_scanned l t :
  fold_left (λ t r, add_scanned r (cost r) t) l t =
    ScanTotals (plus_usage (λ _, true) l (sc_all t)) (plus_usage completed l (sc_done t)).
Proof.
  revert t. induction l as [|r l IH]; intros t; cbn [fold_left]; [rewrite !plus_usage_nil; by destruct t|].
  by rewrite !plus_usage_cons, IH.
Qed.
End Sums.

Lemma elem_of_mset {W} k0 (v0 : W) k v m : (k, v) ∈ mset k0 v0 m → (k, v) = (k0, v0) ∨ (k, v) ∈ m.
Proof.
  induction m as [|[k' v'] m IH]; cbn [mset]; [by intros ->%list_elem_of_singleton; left|].
  destruct (String.eqb_spec k0 k') as [<-|]; intros [He|Hin]%elem_of_cons.
  - by left.
  - by right; right.
  - right. rewrite He. by left.
  - destruct (IH Hin); [by left|by right; right].
Qed.

Lemma elem_of_mdel {W} k0 (x : string * W) m : x ∈ mdel k0 m → x ∈ m.
Proof.
  induction m as [|[k' v'] m IH]; cbn [mdel]; [done|]. destruct (String.eqb k0 k'); [by right|].
  intros [->|Hin]%elem_of_cons; [by left|right; auto].
Qed.

Lemma elem_of_cache_set k0 rc0 k rc c :
  (k, rc) ∈ cc_entries (cache_set k0 rc0 c) → (k, rc) = (k0, rc0) ∨ (k, rc) ∈ cc_entries c.
Proof.
  unfold cache_set. destruct (cc_max c) as [n|]; cbn [cc_entries]; intros [H|H]%elem_of_mset; [by left| |by left|by right].
  right. destruct (_ && _); [|done]. destruct (mkeys (cc_entries c)); [done|by eapply elem_of_mdel].
Qed.

Lemma mset_length {W} k (v : W) m : length (mset k v m) = if mhas k m then length m else S (length m).
Proof.
  unfold mhas. induction m as [|[k' v'] m IH]; cbn [mset mget]; [done|].
  destruct (String.eqb k k'); [done|]. simpl. rewrite IH. by destruct (mget k m).
Qed.

(** A bounded cache never holds more than its bound (one entry when the bound is zero), keeps
    what was just put in, and gives up at most the entry that has been there longest. *)
Theorem bounded_cache (n : nat) (key : string) (rc : run_cost) (c : cost_cache) :
  cc_max c = Some n → map_wf (cc_entries c) → length (cc_entries c) ≤ Nat.max 1 n →
  let c' := cache_set key rc c in
  length (cc_entries c') ≤ Nat.max 1 n ∧ cache_get key c' = Some rc ∧
  ∀ k, k ≠ key → head (mkeys (cc_entries c)) ≠ Some k → cache_get k c' = cache_get k c.
Proof.
  intros Hmax Hwf Hlen c'. unfold c', cache_set, cache_get. rewrite Hmax. cbn [cc_entries].
  split_and!; [|apply mget_mset|].
  - rewrite mset_length. destruct (mhas key (cc_entries c)) eqn:Hh; cbn [negb andb].
    + by rewrite Hh.
    + destruct (Nat.leb_spec n (length (cc_entries c))); [|rewrite Hh; lia].
      destruct (cc_entries c) as [|[k v] m]; cbn in *; [lia|]. rewrite String.eqb_refl. destruct (mhas key m); lia.
  - intros k Hne Hk. rewrite mget_mset_ne by done. destruct (_ && _); [|done].
    destruct (cc_entries c) as [|[k' v] m]; [done|]. cbn in *. rewrite String.eqb_refl.
    destruct (String.eqb_spec k k') as [->|]; [congruence|done].
Qed.

(** ** What a world shows of an organization *)

Section Views.
Context {V : Type} `{!JsValue V, !Embed organization_usage V, !Embed budget_limit V,
  !Embed pricing_doc V, !Embed js V} {Q R E : Type}.
Implicit Types (w : world V Q).

Definition runs_in (scope : string) w : list run_summary := view_runs scope (mj_listRuns (jr w)).

(** The counter without its clamp: the document plus the atomic counters. *)
Definition raw_counted (scope : string) w : option organization_usage :=
  match jkey (scope +:+ USAGE_KEY) w ≫= prj, mj_getCounters (scope +:+ USAGE_KEY) (jr w) with
  | None, None => None
  | l, c => let a := default zeroUsage l in let b := default zeroUsage (usage_of_counters <$> c) in
            Some (OrganizationUsage (ou_runs a + ou_runs b) (ou_tokens a + ou_tokens b) (ou_costUsd a + ou_costUsd b))
  end.

Definition clamped (u : organization_usage) : organization_usage :=
  OrganizationUsage (Z.max 0 (ou_runs u)) (Z.max 0 (ou_tokens u)) (Z.max 0 (ou_costUsd u)).

(** The usage of the runs that satisfy a test. *)
Definition usage_of (scope : string) w (P : run_summary → bool) : organization_usage :=
  let over f := sum_map (λ r, f (cost_in scope w (rs_runId r))) (filter (λ r, P r = true) (runs_in scope w)) in
  OrganizationUsage (Z.of_nat (count_if P (runs_in scope w))) (over rc_totalTokens) (over rc_costUsd).

(** What the full scan reports. *)
Definition scan_answer (scope : string) w : organization_usage := usage_of scope w (λ _, true).

(** The costs cached for the completed runs are right. *)
Definition cache_ok (prefix scope : string) w (cache : option cost_cache) : Prop :=
  ∀ c r rc, cache = Some c → r ∈ runs_in scope w → completed r = true →
    (prefix +:+ ":" +:+ rs_runId r, rc) ∈ cc_entries c → rc = cost_in scope w (rs_runId r).

Definition run_marked (scope runId : string) w : Prop := is_Some (jkey (scope +:+ usageCountedKey runId) w).

(** The keys the budget writes are no records of runs. *)
Definition quiet (scope : string) w : Prop :=
  inert (scope +:+ USAGE_KEY) ∧ ∀ r, r ∈ runs_in scope w → inert (scope +:+ usageCountedKey (rs_runId r)).

(** A scan is what satisfies a test and what does not. *)
Lemma sum_map_split {A} (f : A → Z) (P : A → bool) l :
  sum_map f (filter (λ x, true = true) l) =
    (sum_map f (filter (λ x, P x = true) l) + sum_map f (filter (λ x, negb (P x) = true) l))%Z.
Proof.
  induction l as [|x l IH]; [done|]. rewrite !filter_cons, decide_True by done.
  destruct (P x) eqn:HP; cbn [negb]; rewrite sum_map_cons, IH.
  - rewrite decide_True, decide_False by done. rewrite sum_map_cons. lia.
  - rewrite decide_False, decide_True by done. rewrite sum_map_cons. lia.
Qed.

Lemma usage_of_split scope w P :
  usage_of scope w (λ _, true) =
    OrganizationUsage (Z.of_nat (length (runs_in scope w)))
      (ou_tokens (usage_of scope w P) + ou_tokens (usage_of scope w (λ r, negb (P r))))
      (ou_costUsd (usage_of scope w P) + ou_costUsd (usage_of scope w (λ r, negb (P r)))).
Proof.
  unfold usage_of at 1. cbn [ou_tokens ou_costUsd usage_of]. by rewrite count_if_all, !(sum_map_split _ P).
Qed.

(** Two worlds with the same runs, the same records and the same prices. *)
Record same_view (scope : string) w w' : Prop := SameView {
  sv_runs : mj_listRuns (jr w) = mj_listRuns (jr w');
  sv_records : ∀ r, mj_readRun r (jr w) = mj_readRun r (jr w');
  sv_prices : jkey (scope +:+ PRICING_KEY) w = jkey (scope +:+ PRICING_KEY) w';
  sv_rootPrices : jkey PRICING_KEY w = jkey PRICING_KEY w';
}.

#[global] Instance same_view_equiv scope : Equivalence (same_view scope).
Proof.
  split.
  - by intros w.
  - by intros w w' [].
  - intros w w' w'' [H1 H2 H3 H4] [G1 G2 G3 G4]. split; [congruence| |congruence..]. intros r. by rewrite H2.
Qed.

#[global] Instance runs_in_proper scope : Proper (same_view scope ==> eq) (runs_in scope).
Proof. intros w w' Hw. unfold runs_in. by rewrite (sv_runs _ _ _ Hw). Qed.

#[global] Instance prices_in_proper scope : Proper (same_view scope ==> eq) (prices_in (V:=V) (Q:=Q) scope).
Proof. intros w w' Hw. unfold prices_in. by rewrite (sv_prices _ _ _ Hw), (sv_rootPrices _ _ _ Hw). Qed.

#[global] Instance cost_in_proper scope : Proper (same_view scope ==> eq ==> eq) (cost_in (V:=V) (Q:=Q) scope).
Proof.
  intros w w' Hw r _ <-. unfold cost_in. by rewrite (prices_in_proper _ _ _ Hw), (sv_records _ _ _ Hw).
Qed.

#[global] Instance usage_of_proper scope : Proper (same_view scope ==> eq ==> eq) (usage_of scope).
Proof.
  intros w w' Hw P _ <-. unfold usage_of. rewrite (runs_in_proper _ _ _ Hw).
  f_equal; apply sum_map_ext; intros r _; by rewrite (cost_in_proper _ _ _ Hw _ _ eq_refl).
Qed.

Lemma quiet_proper scope w w' : same_view scope w w' → quiet scope w → quiet scope w'.
Proof. intros Hw [H1 H2]. split; [done|]. intros r. rewrite <- Hw. apply H2. Qed.

Lemma not_pricing scope k x : k = scope +:+ x → ends_with PRICING_KEY x = false → ends_with x PRICING_KEY = false →
  k ≠ scope +:+ PRICING_KEY ∧ k ≠ PRICING_KEY.
Proof.
  intros -> Hx Hp. split.
  - intros ->%str_app_inj_l. by vm_compute in Hx.
  - intros Hk. unfold ends_with in Hp. apply bool_decide_eq_false in Hp. apply Hp. exists scope.
    rewrite <- Hk. apply strip_suffix_app.
Qed.

Lemma usage_not_pricing scope : scope +:+ USAGE_KEY ≠ scope +:+ PRICING_KEY ∧ scope +:+ USAGE_KEY ≠ PRICING_KEY.
Proof. by apply (not_pricing scope _ USAGE_KEY). Qed.

Lemma marker_suffix r : ends_with ":usage-counted" (usageCountedKey r) = true.
Proof. unfold usageCountedKey, ends_with. by rewrite strip_suffix_app. Qed.

Lemma marker_not_here scope r k : ends_with ":usage-counted" k = false → scope +:+ usageCountedKey r ≠ scope +:+ k.
Proof. intros Hk <-%str_app_inj_l. by rewrite marker_suffix in Hk. Qed.

Lemma marker_not scope r k : ends_with ":usage-counted" k = false → scope +:+ usageCountedKey r ≠ k.
Proof.
  intros Hk <-. unfold usageCountedKey in Hk. rewrite <- str_app_assoc in Hk. unfold ends_with in Hk.
  by rewrite strip_suffix_app in Hk.
Qed.

Lemma usageCountedKey_inj scope r r' : scope +:+ usageCountedKey r = scope +:+ usageCountedKey r' → r = r'.
Proof. intros H%str_app_inj_l. by apply str_app_inj_r in H. Qed.

(** Writing a key the budget owns is not seen in a view. *)
Lemma same_view_put scope w k v :
  inert k → k ≠ scope +:+ PRICING_KEY → k ≠ PRICING_KEY →
  same_view scope w (set_jr (mj_put (wall w) k v (jr w)) w).
Proof.
  intros Hk H1 H2. destruct (reads_put (wall w) k v (jr w) Hk) as [Hl Hr].
  split; cbn [jr set_jr]; [by rewrite Hl|intros r; by rewrite Hr| |]; unfold jkey; cbn [jr set_jr]; by rewrite mj_get_put_ne.
Qed.

Lemma same_view_claim scope w k v :
  inert k → k ≠ scope +:+ PRICING_KEY → k ≠ PRICING_KEY →
  same_view scope w (set_jr (snd (mj_putIfAbsent (wall w) k v (jr w))) w).
Proof.
  intros Hk H1 H2. destruct (reads_putIfAbsent (wall w) k v (jr w) Hk) as [Hl Hr].
  split; cbn [jr set_jr]; [by rewrite Hl|intros r; by rewrite Hr| |]; unfold jkey; cbn [jr set_jr]; rewrite mj_putIfAbsent_spec;
    (destruct (mj_get k (jr w)); [done|]); unfold mj_get; simpl; by rewrite mget_mset_ne.
Qed.

Lemma same_view_incr scope w k fs : same_view scope w (set_jr (mj_incrBy k fs (jr w)) w).
Proof. done. Qed.

Section Programs.
Variable h : oracle Q R E.
Variable fail : budget_error → E.

Lemma run_readUsageCounter scope w :
  run h (readUsageCounter (V:=V) full_caps scope) w = (Ok (clamped <$> raw_counted scope w), w).
Proof.
  unfold readUsageCounter, raw_counted, jget, jkey. run_step. simpl.
  by destruct (option_bind _ _ prj (mj_get (scope +:+ USAGE_KEY) (jr w))), (mj_getCounters (scope +:+ USAGE_KEY) (jr w)).
Qed.

Lemma run_walk_runs w n seen cursor :
  run h (walk_runs (V:=V) fail n seen cursor) w =
    (match walk_pages n (λ c, mj_listRunsPaged (RunQuery None c None None None None) (jr w)) seen cursor with
     | Some l => Ok l
     | None => Err (fail BudgetOutOfFuel)
     end, w).
Proof.
  revert seen cursor. induction n as [|n IH]; intros seen cursor; cbn [walk_runs walk_pages];
    (destruct (truthy cursor) as [c|]; [|done]); (case_bool_decide; [done|]); [done|].
  destruct (mj_listRunsPaged (RunQuery None (Some c) None None None None) (jr w)) as [items nx] eqn:Hp.
  unfold mbind, prog_bind. rewrite run_bind. cbn [run request perform]. rewrite Hp, run_bind, IH.
  destruct (walk_pages _ _ _ _); done.
Qed.

Lemma run_listAllRuns scope fuel w :
  length (mj_listRuns (jr w)) < fuel →
  run h (listAllRuns fail fuel scope) w = (Ok (runs_in scope w), w).
Proof.
  intros Hf. pose proof (listRunsArray_complete (jr w) fuel Hf) as Hl. unfold listRunsArray in Hl.
  unfold listAllRuns. unfold mbind, prog_bind. rewrite run_bind. cbn [run request perform].
  destruct (mj_listRunsPaged no_query (jr w)) as [items c] eqn:Hp. unfold no_query in Hp. rewrite Hp in *.
  rewrite run_bind, run_walk_runs. destruct (walk_pages _ _ _ _) as [rest|]; [|done].
  injection Hl as Hl. unfold runs_in. rewrite <- Hl. done.
Qed.

Lemma run_sharedPricing scope table w :
  (∀ t, table = Some t → t = prices_in scope w) →
  run h (sharedPricing (V:=V) scope table) w = (Ok (prices_in scope w), w).
Proof. intros Ht. destruct table as [t|]; simpl; [by rewrite (Ht t)|apply run_pricingTable]. Qed.

Lemma run_live_cost scope w runs table acc :
  (∀ t, table = Some t → t = prices_in scope w) →
  run h (live_cost scope runs table acc) w =
    (Ok (fold_left (λ a r, if negb (completed r) then add_cost (cost_in scope w (rs_runId r)) a else a) runs acc), w).
Proof.
  revert table acc. induction runs as [|r runs IH]; intros table acc Ht; cbn [live_cost fold_left]; [done|].
  destruct (completed r); [by apply IH|]. unfold mbind, prog_bind.
  rewrite run_bind, run_sharedPricing by done. rewrite run_bind, run_getRunCost_priced by done.
  apply IH. by intros t [= <-].
Qed.

Lemma run_scan_runs prefix scope w (D : list run_summary) runs table cache acc :
  (∀ t, table = Some t → t = prices_in scope w) →
  (∀ r, r ∈ runs → r ∈ D) →
  (∀ c r rc, cache = Some c → r ∈ D → completed r = true →
     (prefix +:+ ":" +:+ rs_runId r, rc) ∈ cc_entries c → rc = cost_in scope w (rs_runId r)) →
  ∃ cache',
    run h (scan_runs scope prefix runs table cache acc) w =
      (Ok (fold_left (λ t r, add_scanned r (cost_in scope w (rs_runId r)) t) runs acc, cache'), w) ∧
    (∀ c r rc, cache' = Some c → r ∈ D → completed r = true →
       (prefix +:+ ":" +:+ rs_runId r, rc) ∈ cc_entries c → rc = cost_in scope w (rs_runId r)).
Proof.
  revert table cache acc. induction runs as [|r runs IH]; intros table cache acc Ht HD Hc; cbn [scan_runs fold_left].
  { by exists cache. }
  destruct (if completed r then _ else None) as [rc|] eqn:Hhit.
  - destruct (completed r) eqn:Hdone; [|done]. destruct cache as [c|]; [|done]. simpl in Hhit.
    assert (rc = cost_in scope w (rs_runId r)) as ->.
    { apply (Hc c r rc); [done|apply HD; by left|done|by apply In_mget]. }
    apply IH; [done| |done]. intros; apply HD; by right.
  - destruct (IH (Some (prices_in scope w))
      (if completed r then cache_set (prefix +:+ ":" +:+ rs_runId r) (cost_in scope w (rs_runId r)) <$> cache else cache)
      (add_scanned r (cost_in scope w (rs_runId r)) acc)) as (cache' & Hrun & Hok).
    + by intros t [= <-].
    + intros; apply HD; by right.
    + intros c r' rc Hcache HrD Hdone Hin. destruct (completed r); [|by eapply Hc].
      destruct cache as [c0|]; [|done]. injection Hcache as <-.
      apply elem_of_cache_set in Hin as [[= Hk Hv]|Hin]; [|by eapply Hc].
      apply str_app_inj_l in Hk. injection Hk as Hk. by rewrite Hk.
    + exists cache'. split; [|exact Hok]. unfold mbind, prog_bind.
      rewrite run_bind, run_sharedPricing by done. rewrite run_bind, run_getRunCost_priced by done. exact Hrun.
Qed.

Lemma run_mark_counted yes scope w runs :
  (∀ r, r ∈ runs → inert (scope +:+ usageCountedKey (rs_runId r))) →
  ∃ w', run h (mark_counted yes scope runs) w = (Ok tt, w') ∧ same_view scope w w' ∧
    counters (jr w') = counters (jr w) ∧
    (∀ r, r ∈ runs → completed r = true → run_marked scope (rs_runId r) w') ∧
    (∀ id, run_marked scope id w' → run_marked scope id w ∨ ∃ r, r ∈ runs ∧ completed r = true ∧ rs_runId r = id) ∧
    (∀ k v, jkey k w = Some v → jkey k w' = Some v).
Proof.
  revert w. induction runs as [|r runs IH]; intros w Hin; cbn [mark_counted].
  { exists w. split_and!; try done; [intros r Hr; inversion Hr|by left]. }
  assert (Hin' : ∀ r', r' ∈ runs → inert (scope +:+ usageCountedKey (rs_runId r'))) by (intros; apply Hin; by right).
  destruct (completed r) eqn:Hdone.
  2:{ destruct (IH w Hin') as (w' & Hrun & Hsv & Hc & Hm & Hn & Hk). exists w'. split_and!; try done.
      - intros r' [->|Hr']%elem_of_cons Hd; [congruence|auto].
      - intros id Hid. destruct (Hn id Hid) as [?|(r' & ? & ? & ?)]; [by left|]. right. exists r'. split_and!; try done. by right. }
  set (k := scope +:+ usageCountedKey (rs_runId r)).
  assert (∃ w1, run h (cur ← jget k; match cur with None => jput k yes | Some _ => mret tt end) w = (Ok tt, w1) ∧
    same_view scope w w1 ∧ counters (jr w1) = counters (jr w) ∧ is_Some (jkey k w1) ∧
    (∀ k', k' ≠ k → jkey k' w1 = jkey k' w) ∧ (∀ v, jkey k w = Some v → jkey k w1 = Some v))
    as (w1 & Hrun1 & Hsv1 & Hc1 & Hm1 & Hk1 & Hk1').
  { unfold jget, mbind, prog_bind. rewrite run_bind, run_rget. destruct (mj_get k (jr w)) as [v|] eqn:Hv.
    - exists w. by split_and!.
    - eexists. split_and!; [done|apply same_view_put; [apply Hin; by left|by apply marker_not_here|by apply marker_not]|done| | |].
      + exists yes. unfold jkey. simpl. apply mj_get_put.
      + intros k' Hne. unfold jkey. simpl. by apply mj_get_put_ne.
      + unfold jkey. by rewrite Hv. }
  destruct (IH w1 Hin') as (w' & Hrun & Hsv & Hc & Hm & Hn & Hk). exists w'. split_and!.
  - unfold mbind, prog_bind in Hrun1 |- *. rewrite run_bind in Hrun1 |- *. unfold jget in *. rewrite run_rget in Hrun1 |- *.
    rewrite run_bind. destruct (mj_get k (jr w)); by rewrite Hrun1.
  - by transitivity w1.
  - congruence.
  - intros r' [->|Hr']%elem_of_cons Hd; [|auto]. destruct Hm1 as [v Hv]. exists v. by apply Hk.
  - intros id Hid. destruct (Hn id Hid) as [[v Hv]|(r' & ? & ? & ?)].
    + destruct (decide (scope +:+ usageCountedKey id = k)) as [He|Hne].
      * right. exists r. split_and!; [by left|done|]. symmetry. by apply (usageCountedKey_inj scope).
      * left. exists v. by rewrite <- Hk1.
    + right. exists r'. split_and!; try done. by right.
  - intros k' v Hv. apply Hk. destruct (decide (k' = k)) as [->|Hne]; [by apply Hk1'|by rewrite Hk1].
Qed.

(** *** Reading *)

Lemma run_usage_counted yes fuel scope prefix cache strict w u :
  raw_counted scope w = Some u → length (mj_listRuns (jr w)) < fuel →
  run h (usage_of_view full_caps fail yes true fuel scope prefix cache strict) w =
    (Ok (if strict
         then OrganizationUsage (Z.of_nat (length (runs_in scope w)))
                (ou_tokens (clamped u) + ou_tokens (usage_of scope w (λ r, negb (completed r))))
                (ou_costUsd (clamped u) + ou_costUsd (usage_of scope w (λ r, negb (completed r))))
         else clamped u, cache), w).
Proof.
  intros Hu Hf. unfold usage_of_view. cbn [negb]. unfold mbind, prog_bind.
  rewrite run_bind, run_readUsageCounter, Hu. cbn [fmap option_fmap option_map]. destruct strict; [|done]. cbn [negb].
  rewrite run_bind, run_listAllRuns by done. rewrite run_bind, run_live_cost by done.
  rewrite (fold_add_cost (λ r, cost_in scope w (rs_runId r)) (λ r, negb (completed r))). done.
Qed.

Lemma run_usage_backfill yes fuel scope prefix cache strict w :
  raw_counted scope w = None → length (mj_listRuns (jr w)) < fuel → quiet scope w → cache_ok prefix scope w cache →
  ∃ cache' w', run h (usage_of_view full_caps fail yes true fuel scope prefix cache strict) w = (Ok (scan_answer scope w, cache'), w') ∧
    cache_ok prefix scope w' cache' ∧ same_view scope w w' ∧ raw_counted scope w' = Some (usage_of scope w completed) ∧
    (∀ r, r ∈ runs_in scope w → completed r = true → run_marked scope (rs_runId r) w') ∧
    (∀ id, run_marked scope id w' → run_marked scope id w ∨ ∃ r, r ∈ runs_in scope w ∧ completed r = true ∧ rs_runId r = id).
Proof.
  intros Hu Hf [Hq Hqm] Hc. unfold usage_of_view. cbn [negb]. unfold mbind, prog_bind.
  rewrite run_bind, run_readUsageCounter, Hu. cbn [fmap option_fmap option_map]. rewrite run_bind, run_listAllRuns by done.
  destruct (run_scan_runs prefix scope w (runs_in scope w) (runs_in scope w) None cache (ScanTotals zeroUsage zeroUsage))
    as (cache' & Hscan & Hc'); [done|done|intros; by eapply Hc|].
  rewrite run_bind, Hscan. cbn beta match.
  destruct (run_mark_counted yes scope w (runs_in scope w) Hqm) as (w1 & Hmark & Hsv & Hctr & Hm & Hn & Hk).
  rewrite run_bind, Hmark, run_bind. cbn [jput request run perform].
  rewrite (fold_add_scanned (λ r, cost_in scope w (rs_runId r))).
  destruct (usage_not_pricing scope) as [Hp1 Hp2].
  set (w2 := set_jr _ w1).
  assert (Hsv2 : same_view scope w w2) by (transitivity w1; [done|by apply same_view_put]).
  exists cache', w2. split_and!.
  - unfold scan_answer, usage_of, plus_usage. cbn [sc_all ou_runs ou_tokens ou_costUsd zeroUsage]. rewrite !Z.add_0_l.
    by rewrite count_if_all.
  - intros c r rc Hcc. rewrite <- Hsv2. intros Hr Hd Hin. by eapply Hc'.
  - done.
  - unfold raw_counted, w2, jkey. cbn [jr set_jr]. rewrite mj_get_put. cbn [mbind option_bind]. rewrite prj_inj.
    unfold mj_getCounters, mj_put. cbn [counters]. rewrite Hctr.
    assert (mget (scope +:+ USAGE_KEY) (counters (jr w)) = None) as ->.
    { unfold raw_counted, mj_getCounters in Hu. by destruct (_ ≫= prj), (mget _ (counters (jr w))). }
    simpl. unfold usage_of. f_equal. cbn. f_equal; lia.
  - intros r Hr Hd. destruct (Hm r Hr Hd) as [v Hv]. exists v. unfold jkey, w2 in *. cbn [jr set_jr]. rewrite mj_get_put_ne; [done|].
    by apply marker_not_here.
  - intros id [v Hv]. apply Hn. exists v. revert Hv. unfold jkey, w2. cbn [jr set_jr]. rewrite mj_get_put_ne; [done|].
    by apply marker_not_here.
Qed.

(** *** Writing *)

Definition plus (u v : organization_usage) : organization_usage :=
  OrganizationUsage (ou_runs u + ou_runs v) (ou_tokens u + ou_tokens v) (ou_costUsd u + ou_costUsd v).

Definition minus (u : organization_usage) : organization_usage :=
  OrganizationUsage (- ou_runs u) (- ou_tokens u) (- ou_costUsd u).

(** What a run adds to the counter. *)
Definition share (scope : string) w (runId : string) : organization_usage :=
  OrganizationUsage 1 (rc_totalTokens (cost_in scope w runId)) (rc_costUsd (cost_in scope w runId)).

Lemma raw_counted_incr scope w d :
  raw_counted scope (set_jr (mj_incrBy (scope +:+ USAGE_KEY) (usage_fields d) (jr w)) w) =
    Some (plus (default zeroUsage (raw_counted scope w)) d).
Proof.
  unfold raw_counted, jkey. cbn [jr set_jr]. rewrite mj_get_incrBy. unfold mj_getCounters, mj_incrBy. cbn [counters].
  rewrite mget_mset. cbn [fmap option_fmap option_map default].
  assert (Hc : ∀ cur, usage_of_counters (add_fields (usage_fields d) cur) = plus (usage_of_counters cur) d).
  { intros cur. unfold usage_of_counters. rewrite !add_fields_get. unfold plus, usage_fields. simpl. f_equal; lia. }
  rewrite Hc. unfold plus.
  destruct (mj_get _ _ ≫= prj) as [l|], (mget (scope +:+ USAGE_KEY) (counters (jr w))) as [c|]; simpl; f_equal; f_equal; lia.
Qed.

Lemma raw_counted_same scope w w' :
  jkey (scope +:+ USAGE_KEY) w' = jkey (scope +:+ USAGE_KEY) w → counters (jr w') = counters (jr w) →
  raw_counted scope w' = raw_counted scope w.
Proof. intros H1 H2. unfold raw_counted, mj_getCounters. by rewrite H1, H2. Qed.

Lemma run_recordRunUsage yes scope runId w :
  inert (scope +:+ usageCountedKey runId) →
  match jkey (scope +:+ usageCountedKey runId) w with
  | Some _ => run h (recordRunUsage full_caps yes scope runId) w = (Ok tt, w)
  | None => ∃ w', run h (recordRunUsage full_caps yes scope runId) w = (Ok tt, w') ∧ same_view scope w w' ∧
       run_marked scope runId w' ∧ raw_counted scope w' = Some (plus (default zeroUsage (raw_counted scope w)) (share scope w runId)) ∧
       (∀ k, k ≠ scope +:+ usageCountedKey runId → jkey k w' = jkey k w)
  end.
Proof.
  intros Hk. set (k := scope +:+ usageCountedKey runId) in *. unfold recordRunUsage, claim, jputIfAbsent.
  cbn [has_readRun has_putIfAbsent full_caps negb]. fold k. unfold mbind, prog_bind. rewrite !run_bind.
  cbn [request run perform]. unfold run_marked. fold k.
  assert (Hp1 : k ≠ scope +:+ PRICING_KEY) by (by apply marker_not_here).
  assert (Hp2 : k ≠ PRICING_KEY) by (by apply marker_not).
  assert (Hu : k ≠ scope +:+ USAGE_KEY) by (by apply marker_not_here).
  pose proof (same_view_claim scope w k yes Hk Hp1 Hp2) as Hsv. revert Hsv.
  rewrite mj_putIfAbsent_spec. unfold jkey at 1. destruct (mj_get k (jr w)) as [v|] eqn:Hv; cbn [fst snd].
  { intros _. simpl. f_equal. by destruct w. }
  set (w1 := set_jr _ w). intros Hsv.
  rewrite run_bind, run_getRunCost. unfold addUsage, mbind, prog_bind. cbn [has_incrBy full_caps].
  rewrite run_bind, run_try. cbn [pbind request run perform]. eexists. split_and!; [done| | | |].
  - transitivity w1; [done|apply same_view_incr].
  - exists yes. unfold jkey. cbn [jr set_jr]. rewrite mj_get_incrBy. unfold mj_get, w1. cbn [jr set_jr store]. apply mget_mset.
  - rewrite raw_counted_incr. unfold share. rewrite <- (cost_in_proper _ _ _ Hsv _ _ eq_refl).
    rewrite (raw_counted_same scope w w1); [done| |done].
    unfold jkey, mj_get, w1. cbn [jr set_jr store]. by apply mget_mset_ne.
  - intros k' Hne. unfold jkey. cbn [jr set_jr]. rewrite mj_get_incrBy. unfold mj_get, w1. cbn [jr set_jr store].
    by apply mget_mset_ne.
Qed.

Lemma run_uncountUsage scope runId w :
  match jkey (scope +:+ usageCountedKey runId) w, raw_counted scope w with
  | Some _, Some u =>
      ∃ w', run h (uncountUsage full_caps scope runId) w = (Ok tt, w') ∧ same_view scope w w' ∧
        raw_counted scope w' = Some (plus u (minus (share scope w runId))) ∧ (∀ k, jkey k w' = jkey k w)
  | _, _ => run h (uncountUsage full_caps scope runId) w = (Ok tt, w)
  end.
Proof.
  unfold uncountUsage, jget. cbn [has_readRun has_incrBy full_caps negb]. unfold mbind, prog_bind.
  rewrite run_bind, run_rget. unfold jkey at 1. destruct (mj_get (scope +:+ usageCountedKey runId) (jr w)) as [v|]; [|done].
  rewrite run_bind, run_rget, run_bind. cbn [request run perform].
  pose proof (raw_counted_incr scope w (minus (share scope w runId))) as Hincr.
  destruct (raw_counted scope w) as [u|] eqn:Hu; unfold raw_counted, jkey, mbind in Hu;
    destruct (option_bind _ _ prj (mj_get (scope +:+ USAGE_KEY) (jr w))) as [l|],
      (mj_getCounters (scope +:+ USAGE_KEY) (jr w)) as [c|]; try done.
  all: rewrite run_bind, run_getRunCost, run_bind, run_try; cbn [pbind run perform].
  all: eexists; split_and!; [done|apply same_view_incr|exact Hincr|done].
Qed.
End Programs.

(** ** Histories of a journal *)

Definition spent (u : organization_usage) : Z * Z := (ou_tokens u, ou_costUsd u).

(** The counter holds what the completed runs used. *)
Definition balanced (scope : string) w : Prop :=
  spent (default zeroUsage (raw_counted scope w)) = spent (usage_of scope w completed).

(** What a read relies on: fuel for the pages, keys that are no records, records without
    negative counts. *)
Record readable (fuel : nat) (scope : string) w : Prop := Readable {
  rd_fuel : length (mj_listRuns (jr w)) < fuel;
  rd_quiet : quiet scope w;
  rd_costs : ∀ r, r ∈ runs_in scope w → completed r = true →
    (0 ≤ rc_totalTokens (cost_in scope w (rs_runId r)))%Z ∧ (0 ≤ rc_costUsd (cost_in scope w (rs_runId r)))%Z;
}.

Section Histories.
Variable h : oracle Q R E.
Variable fail : budget_error → E.
Variable yes : V.
Variable fuel : nat.
Variable scope : string.

Lemma usage_nonneg w : readable fuel scope w →
  (0 ≤ ou_tokens (usage_of scope w completed))%Z ∧ (0 ≤ ou_costUsd (usage_of scope w completed))%Z.
Proof.
  intros [_ _ Hc]. split; apply sum_map_nonneg; intros r [Hd Hr]%list_elem_of_filter; by apply Hc.
Qed.

Lemma spent_plus u u' v : spent u = spent u' → spent (plus u v) = spent (plus u' v).
Proof. unfold spent, plus. simpl. intros [= -> ->]. done. Qed.

Lemma balanced_clamped w u :
  balanced scope w → readable fuel scope w → raw_counted scope w = Some u →
  spent (clamped u) = spent (usage_of scope w completed).
Proof.
  intros Hb Hrd Hraw. destruct (usage_nonneg w Hrd) as [Ht Hc]. unfold balanced in Hb. rewrite Hraw in Hb.
  unfold spent in *. cbn [default] in Hb. injection Hb as H1 H2. cbn [clamped ou_tokens ou_costUsd].
  f_equal; [rewrite H1|rewrite H2]; apply Z.max_r; [exact Ht|exact Hc].
Qed.

Lemma read_backfills w prefix cache strict :
  raw_counted scope w = None → readable fuel scope w → cache_ok prefix scope w cache →
  ∃ cache1 w1, run h (usage_of_view full_caps fail yes true fuel scope prefix cache strict) w = (Ok (scan_answer scope w, cache1), w1) ∧
    same_view scope w w1 ∧ balanced scope w1.
Proof.
  intros Hraw Hrd Hok.
  destruct (run_usage_backfill h fail yes fuel scope prefix cache strict w Hraw (rd_fuel _ _ _ Hrd) (rd_quiet _ _ _ Hrd) Hok)
    as (cache' & w2 & Hrun & _ & Hsv & Hraw2 & _). exists cache', w2. split_and!; [done..|].
  unfold balanced. rewrite Hraw2. by rewrite (usage_of_proper _ _ _ Hsv _ _ eq_refl).
Qed.

Lemma reads_true w' prefix cache :
  balanced scope w' → readable fuel scope w' → cache_ok prefix scope w' cache →
  ∃ cache1 w1, run h (usage_of_view full_caps fail yes true fuel scope prefix cache true) w' = (Ok (scan_answer scope w', cache1), w1) ∧
    same_view scope w' w1 ∧ balanced scope w1.
Proof.
  intros Hb Hrd Hok. destruct (raw_counted scope w') as [u|] eqn:Hraw.
  - pose proof (balanced_clamped w' u Hb Hrd Hraw) as Hcl.
    rewrite (run_usage_counted h fail yes fuel scope prefix cache _ w' u Hraw (rd_fuel _ _ _ Hrd)).
    exists cache, w'. split_and!; [|done..].
    assert (ou_tokens (clamped u) = ou_tokens (usage_of scope w' completed)) as -> by exact (f_equal fst Hcl).
    assert (ou_costUsd (clamped u) = ou_costUsd (usage_of scope w' completed)) as -> by exact (f_equal snd Hcl).
    unfold scan_answer. by rewrite (usage_of_split scope w' completed).
  - by apply read_backfills.
Qed.

End Histories.

(** ** The gate *)

(** The limit in force: the organization's own document, the default one, the host's. *)
Definition limit_in (orgId : option string) (fallback : option budget_limit) w : option budget_limit :=
  match match truthy orgId with Some id => limit_doc (jkey (BUDGET_PRE +:+ id) w) | None => None end,
        limit_doc (jkey (BUDGET_PRE +:+ "default") w) with
  | Some l, _ => Some l
  | None, Some l => Some l
  | None, None => match fallback with Some l => limiting l | None => None end
  end.

(** The view of an organization, and the prefix of its cache entries. *)
Definition scope_of (orgId : option string) : option (string * string) :=
  match truthy orgId with
  | None => Some ("", default "" orgId)
  | Some id => match orgPrefix id with Ok p => Some (p, id) | Err _ => None end
  end.

Definition exceeds (u : organization_usage) (l : budget_limit) : Prop :=
  (∃ n, bl_usdLimit l = Some n ∧ (n < ou_costUsd u)%Z) ∨ (∃ n, bl_tokenLimit l = Some n ∧ (n < ou_tokens u)%Z).

Lemma isBudgetExceeded_spec u l : isBudgetExceeded u (Some l) = true ↔ exceeds u l.
Proof.
  unfold isBudgetExceeded, exceeds. rewrite orb_true_iff.
  destruct (bl_usdLimit l) as [n|], (bl_tokenLimit l) as [m|]; rewrite ?Z.ltb_lt; split; intros [H|H]; try done;
    try (destruct H as (x & [= <-] & H)); eauto.
Qed.

Lemma limiting_Some l l' : limiting l = Some l' → l' = l ∧ is_limit l = true.
Proof. unfold limiting. destruct (is_limit l) eqn:Hl; [by intros [= <-]|done]. Qed.

Lemma limit_doc_is_limit (v : option V) l : limit_doc v = Some l → is_limit l = true.
Proof. unfold limit_doc. destruct v as [x|]; [|done]. destruct (prj x) as [l'|]; [|done]. by intros [-> ?]%limiting_Some. Qed.

Section Gate.
Variable h : oracle Q R E.
Variable fail : budget_error → E.
Variable yes : V.
Variable fuel : nat.

Lemma run_readBudget orgId w :
  run h (readBudget (V:=V) orgId) w =
    (Ok match match truthy orgId with Some id => limit_doc (jkey (BUDGET_PRE +:+ id) w) | None => None end with
        | Some l => Some l
        | None => limit_doc (jkey (BUDGET_PRE +:+ "default") w)
        end, w).
Proof.
  unfold readBudget, jget, jkey. destruct (truthy orgId) as [id|]; [|done].
  run_step. destruct (limit_doc _); [done|]. by run_step.
Qed.

(** What the gate does once the limit is resolved. *)
Lemma run_checkBudget canList orgId fallback cache strict w :
  run h (checkBudget full_caps fail yes canList fuel orgId fallback cache strict) w =
    match limit_in orgId fallback w with
    | None => (Ok (BudgetCheck false zeroUsage None, cache), w)
    | Some l =>
        match run h (getOrgUsage full_caps fail yes canList fuel orgId cache strict) w with
        | (Ok (u, cache'), w') => (Ok (BudgetCheck (isBudgetExceeded u (Some l)) u (Some l), cache'), w')
        | (Err e, w') => (Err e, w')
        end
    end.
Proof.
  unfold checkBudget, mbind, prog_bind. rewrite run_bind, run_readBudget. unfold limit_in.
  destruct (match truthy orgId with Some id => limit_doc (jkey (BUDGET_PRE +:+ id) w) | None => None end) as [l|] eqn:Ho;
    [|destruct (limit_doc (jkey (BUDGET_PRE +:+ "default") w)) as [l|] eqn:Hd; [|destruct fallback as [l|]; [|done]]].
  1: assert (is_limit l = true) as -> by (destruct (truthy orgId); [by eapply limit_doc_is_limit|done]).
  2: assert (is_limit l = true) as -> by (by eapply limit_doc_is_limit).
  3: unfold limiting; destruct (is_limit l); [|done].
  all: rewrite run_bind; by destruct (run h (getOrgUsage _ _ _ _ _ _ _ _) w) as [[[u c]|e] w'].
Qed.

Lemma run_assertBudget canList orgId fallback cache strict w :
  run h (assertBudget full_caps fail yes canList fuel orgId fallback cache strict) w =
    match run h (checkBudget full_caps fail yes canList fuel orgId fallback cache strict) w with
    | (Ok (check, cache'), w') =>
        (if bc_exceeded check then Err (fail (BudgetExceededError check)) else Ok (check, cache'), w')
    | (Err e, w') => (Err e, w')
    end.
Proof.
  unfold assertBudget, mbind, prog_bind. rewrite run_bind.
  destruct (run h (checkBudget _ _ _ _ _ _ _ _ _) w) as [[[check c]|e] w']; [|done].
  by destruct (bc_exceeded check).
Qed.

(** C27: the budget gate refuses exactly the calls that are over the limit.  The limit is the
    organization's own document, else the default one, else the host's; a document that limits
    nothing does not count.  Without a limit the gate lets the call through and only reads the
    documents.  With one, on a journal whose counter is balanced: the call is refused iff the
    cost or the tokens of all runs together, suspended and running ones included, are strictly
    above it, and the error carries the usage and the limit; the gate changes nothing that a
    later check is based on.  A journal that cannot list its runs lets every call through. *)
Theorem budget_gate_exact (w : world V Q) (orgId : option string) (fallback : option budget_limit)
    (cache : option cost_cache) :
  match limit_in orgId fallback w with
  | None => ∀ canList strict,
      run h (assertBudget full_caps fail yes canList fuel orgId fallback cache strict) w
        = (Ok (BudgetCheck false zeroUsage None, cache), w)
  | Some l =>
      (∀ scope prefix,
         scope_of orgId = Some (scope, prefix) → readable fuel scope w → balanced scope w → cache_ok prefix scope w cache →
         ∃ cache' w', same_view scope w w' ∧ balanced scope w' ∧
           let u := scan_answer scope w in
           (exceeds u l → run h (assertBudget full_caps fail yes true fuel orgId fallback cache true) w
              = (Err (fail (BudgetExceededError (BudgetCheck true u (Some l)))), w')) ∧
           (¬ exceeds u l → run h (assertBudget full_caps fail yes true fuel orgId fallback cache true) w
              = (Ok (BudgetCheck false u (Some l), cache'), w'))) ∧
      (¬ exceeds zeroUsage l → is_Some (scope_of orgId) → ∀ strict,
         run h (assertBudget full_caps fail yes false fuel orgId fallback cache strict) w
           = (Ok (BudgetCheck false zeroUsage (Some l), cache), w))
  end.
Proof.
  destruct (limit_in orgId fallback w) as [l|] eqn:Hl.
  2:{ intros canList strict. by rewrite run_assertBudget, run_checkBudget, Hl. }
  assert (Hget : ∀ canList scope prefix strict, scope_of orgId = Some (scope, prefix) →
    getOrgUsage (V:=V) (Q:=Q) (R:=R) full_caps fail yes canList fuel orgId cache strict =
      usage_of_view full_caps fail yes canList fuel scope prefix cache strict).
  { intros canList scope prefix strict. unfold scope_of, getOrgUsage. destruct (truthy orgId) as [id|]; [|by intros [= <- <-]].
    destruct (orgPrefix id); [by intros [= <- <-]|done]. }
  split.
  - intros scope prefix Hs Hrd Hb Hok.
    destruct (reads_true h fail yes fuel scope w prefix cache Hb Hrd Hok) as (cache' & w' & Hrun & Hsv & Hb').
    exists cache', w'. rewrite run_assertBudget, run_checkBudget, Hl, (Hget _ _ _ _ Hs), Hrun.
    cbn zeta. split_and!; [exact Hsv|exact Hb'|..]; cbn [bc_exceeded].
    + intros He%isBudgetExceeded_spec. by rewrite He.
    + intros He. destruct (isBudgetExceeded _ _) eqn:Hx; [by apply isBudgetExceeded_spec in Hx|done].
  - intros He [[scope prefix] Hs] strict. rewrite run_assertBudget, run_checkBudget, Hl, (Hget _ _ _ _ Hs).
    assert (isBudgetExceeded zeroUsage (Some l) = false) as Hx.
    { apply not_true_iff_false. by rewrite isBudgetExceeded_spec. }
    unfold usage_of_view. cbn [negb run mret prog_ret]. by rewrite Hx.
Qed.
End Gate.
End Views.

(** ** Examples *)

Section BudgetWitnesses.
Let h0 : oracle unit unit budget_error := λ _ _, Ok tt.
Let put k v (j : mem_journal budget_entry) := mj_put 0 k v j.
Let at_ (j : mem_journal budget_entry) : world budget_entry unit := World j 0 0 [] empty_work.

(** One run that is completed and recorded, one that is suspended on an approval. *)
Let j1 : mem_journal budget_entry :=
  mj_incrBy "__usage__" (usage_fields (OrganizationUsage 1 400 1000000000))
    (put "a:usage-counted" BYes (put (rk_outcome "a") (outcome_record "completed") (put (rk_model "a" "0") (tokens_record 400)
      (put (rk_tool "b" "t") (outcome_record "suspended") (put (rk_model "b" "0") (tokens_record 70) empty_journal))))).

Example scan_of_j1 :
  scan_answer "" (at_ j1) = OrganizationUsage 2 470 1175000000 ∧ balanced "" (at_ j1) ∧
  map rs_status (runs_in "" (at_ j1)) = [RSuspended; RCompleted].
Proof. split_and!; vm_compute; reflexivity. Qed.

Lemma readable_j1 : readable 5 "" (at_ j1).
Proof.
  split.
  - vm_compute. lia.
  - split; [by apply (bool_decide_unpack _)|]. intros r Hr. assert (Hd : Forall (λ r, inert ("" +:+ usageCountedKey (rs_runId r))) (runs_in "" (at_ j1))).
    { apply (bool_decide_unpack _). vm_compute. exact I. }
    rewrite Forall_forall in Hd. by apply Hd.
  - intros r Hr. assert (Hd : Forall (λ r, 0 ≤ rc_totalTokens (cost_in "" (at_ j1) (rs_runId r)) ∧ 0 ≤ rc_costUsd (cost_in "" (at_ j1) (rs_runId r)))%Z (runs_in "" (at_ j1))).
    { apply (bool_decide_unpack _). vm_compute. exact I. }
    rewrite Forall_forall in Hd. intros _. by apply Hd.
Qed.

Lemma budget_gate_exact_witness :
  ∃ w', run h0 (assertBudget full_caps id BYes true 5 None (Some (BudgetLimit None (Some 469%Z))) None true) (at_ j1) =
    (Err (BudgetExceededError (BudgetCheck true (OrganizationUsage 2 470 1175000000) (Some (BudgetLimit None (Some 469%Z))))), w').
Proof.
  pose proof (budget_gate_exact h0 id BYes 5 (at_ j1) None (Some (BudgetLimit None (Some 469%Z))) None) as H.
  destruct H as [H _].
  destruct (H "" "" eq_refl readable_j1 (proj1 (proj2 scan_of_j1))) as (c & w' & _ & _ & [Hr _]).
  - intros c r rc Hc. discriminate.
  - exists w'. rewrite (proj1 scan_of_j1) in Hr. apply Hr. right. exists 469%Z. split; [reflexivity|]. reflexivity.
Defined.
End BudgetWitnesses.
