(* ===== verification/BudgetRaces.v ===== *)
(** * BudgetRaces: completions that race, crash and fail

    [recordRunUsage] under every interleaving of any number of completions of any runs
    (a resume, a redelivery and the original may record the same run), with requests that
    fail before or after they take effect: each run enters the atomic counter at most once,
    with its exact cost.  The second part puts races, reads and the writes of the engine one
    after the other.  The examples show what is not covered: the migration, and an increment
    that fails, which is made on the document the counter falls back to. *)

From S2P Require Import Prelude JsMap Keys Journal Org Work Prog Faults Claim Json Hash Format Taint RunIdentity Cost ToolTypes Limits RunCost Budget BudgetUsage.

Section Races.
Context {V : Type} `{!JsValue V, !Embed organization_usage V, !Embed budget_limit V,
  !Embed pricing_doc V, !Embed js V} {Q R E : Type}.
Variable yes : V.
Variable scope : string.
Variable w0 : world V Q.            (** before the race *)

Let usageKey : string := scope +:+ USAGE_KEY.
Let marker (r : string) : string := scope +:+ usageCountedKey r.

(** What a thread did and read: the run it records, whether it won the marker, whether it
    asked for the increment, and that its answers were those of the journal. *)
Record recorder := Recorder {
  rc_run : string;
  rc_won : bool;
  rc_asked : bool;
  rc_trueReads : Prop;
}.

Definition recorder_allowed (g : recorder) (r : req V Q) : Prop :=
  match r with
  | RGet _ | RReadRun _ | RGetCounters _ => True
  | RPutIfAbsent k _ => k = marker (rc_run g)
  | RIncrBy k fs => k = usageKey ∧ rc_won g = true ∧ rc_asked g = false ∧
                    (rc_trueReads g → fs = usage_fields (share scope w0 (rc_run g)))
  | RPut k _ => k = usageKey
  | _ => False
  end.

Definition true_answer (r : req V Q) : outcome E (ans (R:=R) r) → Prop :=
  match r return outcome E (ans (R:=R) r) → Prop with
  | RGet k => λ o, match o with
                   | Ok v => k = scope +:+ PRICING_KEY ∨ k = PRICING_KEY → v = jkey k w0
                   | Err _ => True
                   end
  | RReadRun id => λ o, match o with Ok es => es = mj_readRun id (jr w0) | Err _ => True end
  | _ => λ _, True
  end.

Definition won_now (r : req V Q) : outcome E (ans (R:=R) r) → bool :=
  match r return outcome E (ans (R:=R) r) → bool with
  | RPutIfAbsent _ _ => λ o, match o with Ok b => b | Err _ => false end
  | _ => λ _, false
  end.

Definition recorder_next (g : recorder) (r : req V Q) (o : outcome E (ans (R:=R) r)) : recorder :=
  Recorder (rc_run g) (rc_won g || won_now r o)
    (rc_asked g || match r with RIncrBy _ _ => true | _ => false end)
    (rc_trueReads g ∧ true_answer r o).

(** What reading leaves as it was. *)
Definition still (g g' : recorder) : Prop :=
  rc_run g' = rc_run g ∧ rc_won g' = rc_won g ∧ rc_asked g' = rc_asked g ∧ (rc_trueReads g' → rc_trueReads g).

Abbreviation rsafe post g p := (safe recorder_allowed recorder_next post g p).

Lemma still_next g g' r o : still g g' → won_now r o = false → match r with RIncrBy _ _ => False | _ => True end →
  still g (recorder_next g' r o).
Proof.
  intros (H1 & H2 & H3 & H4) Hw Hr. unfold recorder_next. split_and!; cbn; [done| | |tauto].
  - by rewrite Hw, orb_false_r.
  - rewrite H3. destruct r; try done; by rewrite orb_false_r.
Qed.

Lemma still_refl g : still g g.
Proof. by split_and!. Qed.

Lemma pricingTable_safe g :
  rsafe (λ g' o, still g g' ∧ match o with Ok t => rc_trueReads g' → t = prices_in scope w0 | Err _ => True end)
    g (pricingTable (V:=V) (Q:=Q) (R:=R) (E:=E) scope).
Proof.
  split; [exact I|]. intros [[d|]|e]; cbn -[recorder_next].
  - split; [by apply still_next; [apply still_refl|..]|]. intros [_ Hd]. unfold prices_in. rewrite <- Hd by (by left). done.
  - destruct (String.eqb scope "") eqn:Hs; cbn -[recorder_next].
    + split; [by apply still_next; [apply still_refl|..]|]. intros [_ Hd]. unfold prices_in. rewrite <- Hd by (by left).
      by rewrite Hs.
    + split; [exact I|]. intros [d|e]; cbn -[recorder_next].
      * split; [by repeat (apply still_next; [|done..]); apply still_refl|].
        intros [[_ Ho] Hd]. unfold prices_in. rewrite <- Ho by (by left). rewrite Hs, <- Hd by (by right). done.
      * split; [by repeat (apply still_next; [|done..]); apply still_refl|done].
  - split; [by apply still_next; [apply still_refl|..]|done].
Qed.

Lemma getRunCost_safe g runId :
  rsafe (λ g' o, still g g' ∧ match o with Ok c => rc_trueReads g' → c = cost_in scope w0 runId | Err _ => True end)
    g (getRunCost (V:=V) (Q:=Q) (R:=R) (E:=E) scope runId None None).
Proof.
  unfold getRunCost. eapply safe_bind; [apply pricingTable_safe| |].
  - intros g1 t [Hst Ht]. split; [exact I|]. intros [es|e]; cbn -[recorder_next].
    + split; [by apply still_next|]. intros [H1 H2]. rewrite (Ht H1), H2. done.
    + split; [by apply still_next|done].
  - intros g1 e [Hst _]. by split.
Qed.

Lemma recordRunUsage_safe runId :
  rsafe (λ _ _, True) (Recorder runId false false True)
    (recordRunUsage (Q:=Q) (R:=R) (E:=E) full_caps yes scope runId).
Proof.
  unfold recordRunUsage. cbn [has_readRun full_caps negb]. unfold claim. cbn [has_putIfAbsent full_caps].
  split; [done|]. intros [[]|e]; [|done..]. set (g1 := recorder_next _ _ _). cbn [pbind].
  change (rsafe (λ _ _, True) g1
    (pbind (λ cost, addUsage full_caps scope (OrganizationUsage 1 (rc_totalTokens cost) (rc_costUsd cost)))
       (getRunCost (V:=V) (Q:=Q) (R:=R) (E:=E) scope runId None None))).
  eapply safe_bind; [apply getRunCost_safe| |done].
  intros g2 c [(H1 & H2 & H3 & _) Hc]. split.
  - split_and!; [done|by rewrite H2|by rewrite H3|]. intros Ht. rewrite (Hc Ht), H1. done.
  - intros [[]|e]; [done|]. cbn. split; [exact I|]. intros [v|e']; [|done]. cbn. split; [done|]. by intros [[]|e''].
Qed.

(** ** The invariant of a race *)

Variable rs : list string.          (** the runs recorded, one per thread *)
Hypothesis usage_inert : inert usageKey.
Hypothesis markers_inert : ∀ r, r ∈ rs → inert (marker r).

Record race_inv (w : world V Q) (gs : list recorder) : Prop := RaceInv {
  ri_view : same_view scope w0 w;
  ri_runs : rc_run <$> gs = rs;
  ri_true : ∀ g, g ∈ gs → rc_trueReads g;
  ri_uniq : ∀ i j g g', gs !! i = Some g → gs !! j = Some g' → rc_won g = true → rc_won g' = true →
            rc_run g = rc_run g' → i = j;
  ri_mark : ∀ g, g ∈ gs → rc_won g = true → is_Some (jkey (marker (rc_run g)) w) ∧ jkey (marker (rc_run g)) w0 = None;
  ri_mono : ∀ k, is_Some (jkey k w0) → is_Some (jkey k w);
  ri_asked : ∀ g, g ∈ gs → rc_asked g = true → rc_won g = true;
  ri_counter : ∃ counted, NoDup counted ∧ (∀ r, r ∈ counted → ∃ g, g ∈ gs ∧ rc_asked g = true ∧ rc_run g = r) ∧
    ∀ f, counter_value usageKey f (jr w) =
         (counter_value usageKey f (jr w0) + sum_map (λ r, field_sum f (usage_fields (share scope w0 r))) counted)%Z;
}.

(** One thread moves, in its ghost state: it may learn, ask, and win a marker that no other
    thread has won. *)
Lemma race_move w gs i g g' :
  gs !! i = Some g → race_inv w gs → rc_run g' = rc_run g → rc_trueReads g' →
  (rc_asked g = true → rc_asked g' = true) → (rc_asked g' = true → rc_won g' = true) →
  (rc_won g' = true → rc_won g = true ∨
     ((∀ x, x ∈ gs → rc_won x = true → rc_run x ≠ rc_run g) ∧
      is_Some (jkey (marker (rc_run g)) w) ∧ jkey (marker (rc_run g)) w0 = None)) →
  race_inv w (<[i := g']> gs).
Proof.
  intros Hi [Hv Hr Ht Hu Hm Hmo Ha (counted & Hn & Hc & Hf)] Hrun Htrue Hask Hask' Hwin.
  assert (Hg : g ∈ gs) by (by eapply list_elem_of_lookup_2).
  assert (Hother : ∀ j x, i ≠ j → gs !! j = Some x → rc_won x = true → rc_won g' = true → rc_run x ≠ rc_run g').
  { intros j x Hne Hj Hwx Hw Heq. destruct (Hwin Hw) as [Hw0|[Hno _]].
    - apply Hne. apply (Hu i j g x); try done. congruence.
    - apply (Hno x); [by eapply list_elem_of_lookup_2|done|congruence]. }
  split; try done.
  - rewrite list_fmap_insert, Hrun. by rewrite list_insert_id by (by rewrite list_lookup_fmap, Hi).
  - intros x [->|Hx]%elem_of_insert; auto.
  - intros a b x y [(<- & <- & _)|[Hna Hx]]%list_lookup_insert_Some [(<- & <- & _)|[Hnb Hy]]%list_lookup_insert_Some Hwx Hwy Hxy.
    + done.
    + exfalso. by apply (Hother b y).
    + exfalso. by apply (Hother a x).
    + by apply (Hu a b x y).
  - intros x [->|Hx]%elem_of_insert Hw; [|by apply Hm]. rewrite Hrun. destruct (Hwin Hw) as [Hw0|[_ H]]; [by apply Hm|exact H].
  - intros x [->|Hx]%elem_of_insert; auto.
  - exists counted. split_and!; [done| |done]. intros r Hin. destruct (Hc r Hin) as (x & [j Hj]%list_elem_of_lookup & Hax & Hrx).
    destruct (decide (i = j)) as [<-|Hne].
    + exists g'. rewrite Hi in Hj. injection Hj as <-. split_and!; [|auto|congruence].
      apply list_elem_of_lookup_2 with i, list_lookup_insert_eq. by eapply lookup_lt_Some.
    + exists x. split_and!; [|done..]. apply list_elem_of_lookup_2 with j. by rewrite list_lookup_insert_ne.
Qed.

(** A write that the run reader does not see and that leaves the counters. *)
Lemma race_write w w' gs :
  race_inv w gs → same_view scope w w' → (∀ k, is_Some (jkey k w) → is_Some (jkey k w')) →
  counters (jr w') = counters (jr w) → race_inv w' gs.
Proof.
  intros [Hv Hr Ht Hu Hm Hmo Ha Hc] Hsv Hk Hctr. split; try done.
  - by transitivity w.
  - intros g Hg Hw. destruct (Hm g Hg Hw). split; [by apply Hk|done].
  - intros k H0. by apply Hk, Hmo.
  - unfold counter_value, mj_getCounters in *. by rewrite Hctr.
Qed.

(** The increment of a thread that asks for the first time. *)
Lemma race_incr w gs i g g' :
  gs !! i = Some g → race_inv w gs → rc_won g = true → rc_asked g = false →
  rc_run g' = rc_run g → rc_won g' = true → rc_asked g' = true → rc_trueReads g' →
  race_inv (set_jr (mj_incrBy usageKey (usage_fields (share scope w0 (rc_run g))) (jr w)) w) (<[i := g']> gs).
Proof.
  intros Hi Hinv Hwon Hask Hrun Hwon' Hask' Htrue.
  pose proof (race_move w gs i g g' Hi Hinv Hrun Htrue ltac:(congruence) ltac:(done) ltac:(by left)) as [Hv Hr Ht Hu Hm Hmo Ha _].
  destruct (ri_counter _ _ Hinv) as (counted & Hn & Hc & Hf).
  assert (Hlt : i < length gs) by (by eapply lookup_lt_Some).
  split; [by transitivity w; [|apply same_view_incr]|done..|].
  exists (rc_run g :: counted). split_and!.
  - apply NoDup_cons. split; [|done]. intros (x & [j Hj]%list_elem_of_lookup & Hax & Hrx)%Hc.
    assert (i = j) as <-.
    { apply (ri_uniq _ _ Hinv i j g x); try done. apply (ri_asked _ _ Hinv x); [by eapply list_elem_of_lookup_2|done]. }
    congruence.
  - assert (Hg' : g' ∈ <[i:=g']> gs) by (by apply list_elem_of_lookup_2 with i, list_lookup_insert_eq).
    intros r [->|Hin]%elem_of_cons; [by exists g'|].
    destruct (Hc r Hin) as (x & [j Hj]%list_elem_of_lookup & Hax & Hrx). destruct (decide (i = j)) as [<-|Hne].
    + exists g'. split_and!; [done..|congruence].
    + exists x. split_and!; [|done..]. apply list_elem_of_lookup_2 with j. by rewrite list_lookup_insert_ne.
  - intros f. cbn [jr set_jr]. rewrite counter_value_incrBy, String.eqb_refl, Hf, sum_map_cons. lia.
Qed.

Lemma race_run w gs i g : race_inv w gs → gs !! i = Some g → rc_run g ∈ rs.
Proof.
  intros Hinv Hi. rewrite <- (ri_runs _ _ Hinv). apply list_elem_of_fmap. exists g. split; [done|].
  by eapply list_elem_of_lookup_2.
Qed.

Lemma race_effect (h : oracle Q R E) w gs i g r :
  gs !! i = Some g → recorder_allowed g r → race_inv w gs → match r with RIncrBy _ _ => False | _ => True end →
  race_inv (snd (perform h r w)) gs.
Proof.
  intros Hi Hal Hinv Hr. destruct r; try done; cbn [perform snd].
  - cbn in Hal. subst k. destruct (usage_not_pricing scope). apply (race_write w); [done|by apply same_view_put| |done].
    intros k [x Hx]. unfold jkey in *. cbn [jr set_jr]. destruct (decide (k = usageKey)) as [->|Hne].
    + exists v. apply mj_get_put.
    + exists x. by rewrite mj_get_put_ne.
  - cbn in Hal. subst k. pose proof (race_run w gs i g Hinv Hi) as Hrs.
    apply (race_write w); [done| | |].
    + apply same_view_claim; [by apply markers_inert|by apply marker_not_here|by apply marker_not].
    + intros k [x Hx]. exists x. unfold jkey in *. cbn [jr set_jr]. rewrite mj_putIfAbsent_spec.
      destruct (mj_get (marker (rc_run g)) (jr w)) eqn:Hm; [done|]. unfold mj_get. cbn [snd store]. rewrite mget_mset_ne; [done|].
      intros ->. congruence.
    + cbn [jr set_jr]. rewrite mj_putIfAbsent_spec. by destruct (mj_get _ (jr w)).
Qed.

Lemma race_answer (h : oracle Q R E) w gs r : race_inv w gs → true_answer r (fst (perform h r w)).
Proof.
  intros Hinv. destruct (ri_view _ _ Hinv) as [_ Hrec Hp1 Hp2]. destruct r; try exact I; cbn.
  - by intros [-> | ->].
  - by rewrite Hrec.
Qed.

Lemma race_perform (h : oracle Q R E) w gs i g r :
  gs !! i = Some g → recorder_allowed g r → race_inv w gs →
  race_inv (snd (perform h r w)) (<[i := recorder_next g r (fst (perform h r w))]> gs).
Proof.
  intros Hi Hal Hinv. assert (Hg : g ∈ gs) by (by eapply list_elem_of_lookup_2).
  pose proof (ri_true _ _ Hinv g Hg) as Htrue. pose proof (race_answer h w gs r Hinv) as Hans.
  pose proof (ri_asked _ _ Hinv g Hg) as Hask.
  destruct (match r with RIncrBy _ _ => true | _ => false end) eqn:Hincr.
  - destruct r; try done. destruct Hal as (-> & Hwon & Hna & Hfs). rewrite (Hfs Htrue).
    apply (race_incr w gs i g); try done; cbn; [by rewrite Hwon|by rewrite orb_true_r].
  - pose proof (race_effect h w gs i g r Hi Hal Hinv ltac:(by destruct r)) as Hinv'.
    apply (race_move _ _ i g); try done; cbn.
    + by intros ->.
    + rewrite Hincr, orb_false_r. intros Ha. by rewrite (Hask Ha).
    + intros [Hw|Hw]%orb_true_iff; [by left|right]. destruct r; try done. cbn in Hal, Hw. subst k.
      rewrite mj_putIfAbsent_spec in *. destruct (mj_get (marker (rc_run g)) (jr w)) eqn:Hm; [done|].
      split_and!.
      * intros x Hx Hwx Heq. destruct (ri_mark _ _ Hinv x Hx Hwx) as [[y Hy] _]. rewrite Heq in Hy. unfold jkey in Hy. congruence.
      * exists v. unfold jkey, mj_get. cbn [perform snd jr set_jr]. rewrite mj_putIfAbsent_spec, Hm. apply mget_mset.
      * destruct (jkey (marker (rc_run g)) w0) as [y|] eqn:Hw0; [|done].
        destruct (ri_mono _ _ Hinv (marker (rc_run g))) as [z Hz]; [by eexists|]. unfold jkey in Hz. congruence.
Qed.

Lemma race_fail (h : oracle Q R E) w gs i g r e :
  gs !! i = Some g → recorder_allowed g r → race_inv w gs →
  race_inv w (<[i := recorder_next g r (Err e)]> gs) ∧
  race_inv (snd (perform h r w)) (<[i := recorder_next g r (Err e)]> gs).
Proof.
  intros Hi Hal Hinv. assert (Hg : g ∈ gs) by (by eapply list_elem_of_lookup_2).
  pose proof (ri_true _ _ Hinv g Hg) as Htrue. pose proof (ri_asked _ _ Hinv g Hg) as Hask.
  assert (Hnw : won_now r (Err e) = false) by (by destruct r).
  assert (Hta : true_answer r (Err e)) by (by destruct r).
  assert (Hmove : ∀ w', race_inv w' gs → race_inv w' (<[i := recorder_next g r (Err e)]> gs)).
  { intros w' Hinv'. apply (race_move _ _ i g); try done; cbn.
    - by intros ->.
    - rewrite Hnw, orb_false_r. intros [Ha|Ha]%orb_true_iff; [auto|]. destruct r; try done. by destruct Hal as (_ & ? & _).
    - rewrite Hnw, orb_false_r. by left. }
  split; [by apply Hmove|].
  destruct (match r with RIncrBy _ _ => true | _ => false end) eqn:Hincr.
  - destruct r; try done. destruct Hal as (-> & Hwon & Hna & Hfs). rewrite (Hfs Htrue).
    apply (race_incr w gs i g); try done; cbn; [by rewrite Hwon|by rewrite orb_true_r].
  - apply Hmove. apply (race_effect h w gs i g); try done. by destruct r.
Qed.

Lemma race_counts (ps' : list (prog V Q R E unit)) (w' : world V Q) :
  reachable (map (recordRunUsage full_caps yes scope) rs, w0) (ps', w') →
  same_view scope w0 w' ∧ (∀ k, is_Some (jkey k w0) → is_Some (jkey k w')) ∧
  ∃ counted, NoDup counted ∧
    (∀ r, r ∈ counted → r ∈ rs ∧ jkey (marker r) w0 = None ∧ is_Some (jkey (marker r) w')) ∧
    ∀ f, counter_value usageKey f (jr w') =
         (counter_value usageKey f (jr w0) + sum_map (λ r, field_sum f (usage_fields (share scope w0 r))) counted)%Z.
Proof.
  intros Hr. set (gs0 := map (λ r, Recorder r false false True) rs).
  destruct (pool_safe recorder_allowed recorder_next race_inv race_perform race_fail) with
    (post := λ (_ : recorder) (_ : outcome E unit), True) (c := (map (recordRunUsage (Q:=Q) (R:=R) (E:=E) full_caps yes scope) rs, w0))
    (c' := (ps', w')) (gs := gs0) as (gs & Hinv & _); [|exact Hr|..].
  - intros w gs t x _ [[Hv1 Hv2 Hv3 Hv4] H2 H3 H4 H5 H6 H7 H8]. split; [by split|done..].
  - assert (Hg0 : ∀ g, g ∈ gs0 → rc_won g = false ∧ rc_asked g = false ∧ rc_trueReads g).
    { by intros g (r & -> & _)%list_elem_of_fmap. }
    split; cbn [snd].
    + done.
    + unfold gs0. rewrite <- list_fmap_compose. apply list_fmap_id.
    + intros g Hg. by apply Hg0.
    + intros i j g g' Hi _ Hw. destruct (Hg0 g) as [Hf _]; [by eapply list_elem_of_lookup_2|congruence].
    + intros g Hg Hw. destruct (Hg0 g Hg). congruence.
    + done.
    + intros g Hg Ha. destruct (Hg0 g Hg) as (_ & ? & _). congruence.
    + exists []. split_and!; [constructor|intros r Hin; inversion Hin|]. intros f. simpl. lia.
  - cbn [fst]. unfold gs0. apply Forall2_fmap, Forall_Forall2_diag, Forall_forall. intros r _. apply recordRunUsage_safe.
  - split; [apply (ri_view _ _ Hinv)|]. split; [apply (ri_mono _ _ Hinv)|]. destruct (ri_counter _ _ Hinv) as (counted & Hn & Hc & Hf).
    exists counted. split_and!; [done| |done]. intros r Hin. destruct (Hc r Hin) as (g & Hg & Ha & <-).
    destruct (ri_mark _ _ Hinv g Hg) as [Hm Hm0]; [by apply (ri_asked _ _ Hinv)|]. split_and!; [|done..].
    apply list_elem_of_lookup in Hg as [i Hi]. by eapply race_run.
Qed.

(** The increments of the counter do not fail; anything else may. *)
Definition increments_answer (r : req V Q) : outcome E (ans (R := R) r) → Prop :=
  match r return outcome E (ans (R := R) r) → Prop with
  | RIncrBy _ _ => λ o, match o with Ok _ => True | Err _ => False end
  | _ => λ _, True
  end.

(** Then the document the counter falls back to is not written. *)
Definition spares_document (_ : unit) (r : req V Q) : Prop :=
  match r with RPut k _ | RPutIfAbsent k _ | RPutIfMatch k _ _ => k ≠ usageKey | _ => True end.

Lemma recordRunUsage_spares runId :
  safe_in increments_answer spares_document (λ _ _ _, tt) (λ _ _, True) tt (recordRunUsage (Q:=Q) (R:=R) (E:=E) full_caps yes scope runId).
Proof.
  assert (Hm : marker runId ≠ usageKey) by (by apply marker_not_here).
  split; [exact Hm|]. intros [[]|e] _; [|done..]. cbn [pbind].
  change (safe_in increments_answer spares_document (λ _ _ _, tt) (λ _ _, True) tt
    (pbind (λ cost, addUsage full_caps scope (OrganizationUsage 1 (rc_totalTokens cost) (rc_costUsd cost)))
       (getRunCost (V:=V) (Q:=Q) (R:=R) (E:=E) scope runId None None))).
  eapply (safe_in_bind _ _ _ _ (λ _ _, True)); [| |done].
  - unfold getRunCost. eapply (safe_in_bind _ _ _ _ (λ _ _, True)); [| |done].
    + unfold pricingTable. split; [done|]. intros [[d|]|e] _; [done| |done]. cbn. destruct (String.eqb scope ""); [done|].
      split; [done|]. by intros [d|e] _.
    + intros [] t _. split; [done|]. by intros [es|e] _.
  - intros [] c _. split; [done|]. by intros [[]|e] He.
Qed.

Lemma race_document (ps' : list (prog V Q R E unit)) (w' : world V Q) :
  reachable_in increments_answer (map (recordRunUsage full_caps yes scope) rs, w0) (ps', w') → jkey usageKey w' = jkey usageKey w0.
Proof.
  intros Hr. set (Inv := λ (w : world V Q) (_ : list unit), jkey usageKey w = jkey usageKey w0).
  destruct (pool_ends_in (R := R) (E := E) spares_document (λ _ _ _, tt) Inv) with (P := increments_answer) (post := λ (_ : unit) (_ : outcome E unit), True)
    (c := (map (recordRunUsage (Q:=Q) (R:=R) (E:=E) full_caps yes scope) rs, w0)) (c' := (ps', w')) (gs := map (λ _ : string, tt) rs)
    as (gs & Hinv & _); [done| |exact Hr|done| |exact Hinv].
  - intros h w gs i [] r o w1 _ Hal _ He Hw. unfold Inv in *. rewrite <- Hw.
    assert (Hp : jkey usageKey (snd (perform h r w)) = jkey usageKey w).
    { destruct r; try done; cbn in Hal.
      - unfold jkey. cbn [perform snd jr set_jr]. by apply mj_get_put_ne.
      - rewrite perform_jkey by done. rewrite (proj2 (String.eqb_neq _ _) Hal). by destruct (jkey usageKey w).
      - rewrite perform_jkey by (by apply String.eqb_neq). by destruct (jkey usageKey w). }
    by destruct He as [[-> _]|[[->| ->] _]].
  - cbn [fst]. apply Forall2_fmap, Forall_Forall2_diag, Forall_forall. intros r _. apply recordRunUsage_spares.
Qed.

(** C26: however completions race, each run is counted at most once and with its exact cost.
    Any number of [recordRunUsage] calls, several of them for the same run, interleave their
    requests in any order, any request may fail before or after it takes effect, and any call
    may crash: in every reachable state the atomic counters have moved by exactly the sum of
    the shares of a set of distinct runs among those recorded, none of which was marked before
    and all of which are marked now, and the runs, the records and the prices the budget reads are as
    they were.  When no increment failed, the document beside the counters, which an increment that
    fails is made on instead, is as it was too, so that this sum is what the usage the budget reads has
    moved by. *)
Theorem runs_counted_once (ps' : list (prog V Q R E unit)) (w' : world V Q) :
  reachable (map (recordRunUsage full_caps yes scope) rs, w0) (ps', w') →
  same_view scope w0 w' ∧
  (∃ counted, NoDup counted ∧
    (∀ r, r ∈ counted → r ∈ rs ∧ jkey (marker r) w0 = None ∧ is_Some (jkey (marker r) w')) ∧
    ∀ f, counter_value usageKey f (jr w') =
         (counter_value usageKey f (jr w0) + sum_map (λ r, field_sum f (usage_fields (share scope w0 r))) counted)%Z) ∧
  (reachable_in increments_answer (map (recordRunUsage full_caps yes scope) rs, w0) (ps', w') →
     jkey usageKey w' = jkey usageKey w0).
Proof.
  intros Hr. destruct (race_counts ps' w' Hr) as (Hv & _ & Hc). split_and!; [exact Hv|exact Hc|]. apply race_document.
Qed.
End Races.

(** ** The ledger: races, reads and the writes of the engine, one after the other *)

(** No run is listed twice. *)
Lemma collect_wf {V} `{!JsValue V} (l : list (string * V)) acc : map_wf acc → map_wf (fold_left collect_key l acc).
Proof.
  assert (Ht : ∀ r (m : jsmap (list (entry_kind * V))), map_wf m → map_wf (touch_run r m)).
  { intros r m Hm. unfold touch_run. destruct (mhas r m); [done|]. by apply map_wf_mset. }
  revert acc. induction l as [|[k v] l IH]; intros acc Hw; [done|]. apply IH. unfold collect_key.
  destruct (parseJournalKey k) as [[r kd]|]; [by apply map_wf_mset|].
  destruct (truthy _), (outcomeStatusOf k v), (strip_suffix ":outcome" k); auto.
Qed.

Lemma listed_once {V} `{!JsValue V} (j : mem_journal V) : NoDup (rs_runId <$> mj_listRuns j).
Proof.
  assert (Hk : rs_runId <$> mj_listRuns j = mkeys (fold_left collect_key (store j) [])).
  { unfold mj_listRuns, mkeys. rewrite <- list_fmap_compose. apply map_ext. intros [r es]. done. }
  rewrite Hk. apply collect_wf. constructor.
Qed.

Lemma own_once p l : NoDup (rs_runId <$> l) → NoDup (rs_runId <$> own_runs p l).
Proof.
  intros Hn. induction l as [|r l IH]; [constructor|]. apply NoDup_cons in Hn as [Hr Hl]. rewrite own_runs_cons.
  destruct (starts_with p (rs_runId r)) eqn:Hs; [|by apply IH]. apply NoDup_cons. split; [|by apply IH]. cbn [rs_runId with_runId].
  intros Hin. apply Hr. apply starts_with_spec in Hs as [x Hx]. apply list_elem_of_fmap in Hin as (y & Hy & Hin).
  unfold own_runs in Hin. apply list_elem_of_fmap in Hin as (z & -> & Hz). apply list_elem_of_filter in Hz as [Hz Hin].
  apply starts_with_spec in Hz as [x' Hx']. cbn [rs_runId with_runId] in Hy. rewrite Hx, Hx', !slice_app in Hy. subst x'.
  apply list_elem_of_fmap. exists z. split; [congruence|done].
Qed.

Section Ledger.
Context {V : Type} `{!JsValue V, !Embed organization_usage V, !Embed budget_limit V,
  !Embed pricing_doc V, !Embed js V} {Q R E : Type}.
Variable fail : budget_error → E.
Variable yes : V.
Variable fuel : nat.
Variable scope : string.
Abbreviation world_ := (world V Q).
Abbreviation usageKey := (scope +:+ USAGE_KEY).
Abbreviation marker r := (scope +:+ usageCountedKey r).
Abbreviation read h prefix cache strict := (run h (usage_of_view (Q:=Q) (R:=R) (E:=E) full_caps fail yes true fuel scope prefix cache strict)).
Abbreviation completed_runs w := (filter (λ r, completed r = true) (runs_in scope w)).

(** A request about keys that are not the budget's: the counter, its document, the marks. *)
Definition foreign (r : req V Q) : Prop :=
  match r with
  | RPut k _ | RPutIfAbsent k _ | RPutIfMatch k _ _ => k ≠ usageKey ∧ ∀ id, k ≠ marker id
  | RIncrBy k _ => k ≠ usageKey
  | _ => True
  end.

(** What happens to the journal: a read of the usage; completions that race, crash and fail (no increment
    fails); a request of the engine, such as a record of a step, an outcome or a price. *)
Inductive budget_step (w w' : world_) : Prop :=
| step_read h prefix cache strict o :
    readable fuel scope w → cache_ok prefix scope w cache → read h prefix cache strict w = (o, w') → budget_step w w'
| step_record rs ps' :
    inert usageKey → (∀ r, r ∈ rs → inert (marker r)) →
    reachable_in (increments_answer (R := R) (E := E)) (map (recordRunUsage full_caps yes scope) rs, w) (ps', w') → budget_step w w'
| step_engine (h : oracle Q R E) r : foreign r → w' = snd (perform h r w) → budget_step w w'.

(** The states it went through, before each step. *)
Inductive budget_history : world_ → list world_ → world_ → Prop :=
| bh_nil w : budget_history w [] w
| bh_cons w w1 ws w' : budget_step w w1 → budget_history w1 ws w' → budget_history w (w :: ws) w'.

(** The charges: who was counted, and for how much. *)
Definition total (l : list (string * organization_usage)) : organization_usage :=
  OrganizationUsage (sum_map (λ c, ou_runs (snd c)) l) (sum_map (λ c, ou_tokens (snd c)) l) (sum_map (λ c, ou_costUsd (snd c)) l).

(** The charges of the completed runs, as they cost now. *)
Definition run_charges (w : world_) : list (string * organization_usage) := map (λ r, (rs_runId r, share scope w (rs_runId r))) (completed_runs w).

Record charged (seen : list world_) (l : list (string * organization_usage)) (w : world_) : Prop := Charged {
  ch_once : NoDup (l.*1);
  ch_marked : ∀ r u, (r, u) ∈ l → is_Some (jkey (marker r) w);
  ch_cost : ∀ r u, (r, u) ∈ l → ∃ w0, w0 ∈ seen ∧ u = share scope w0 r;
  ch_total : default zeroUsage (raw_counted scope w) = total l;
}.

Lemma total_app l k : total (l ++ k) = plus (total l) (total k).
Proof. unfold total, plus. cbn. by rewrite !sum_map_app. Qed.

Lemma total_run_charges (w : world_) : total (run_charges w) = usage_of scope w completed.
Proof.
  unfold total, run_charges, usage_of. rewrite !sum_map_map. cbn [snd share ou_runs ou_tokens ou_costUsd]. f_equal.
  generalize (runs_in scope w). intros l. induction l as [|r l IH]; [done|].
  rewrite filter_cons, count_if_cons. destruct (completed r) eqn:Hr; [rewrite decide_True by done|rewrite decide_False by done]; rewrite ?sum_map_cons, IH; lia.
Qed.

Lemma run_charges_once (w : world_) : NoDup ((run_charges w).*1).
Proof.
  unfold run_charges. rewrite <- list_fmap_compose. change (NoDup (rs_runId <$> completed_runs w)).
  assert (Hn : NoDup (rs_runId <$> runs_in scope w)).
  { unfold runs_in, view_runs. destruct (String.eqb scope ""); [apply listed_once|apply own_once, listed_once]. }
  revert Hn. generalize (runs_in scope w). intros l. induction l as [|r l IH]; [done|]. intros [Hr Hl]%NoDup_cons.
  rewrite filter_cons. destruct (decide _); [|by apply IH]. apply NoDup_cons. split; [|by apply IH].
  intros (x & Hx & [_ Hin]%list_elem_of_filter)%list_elem_of_fmap. apply Hr, list_elem_of_fmap. by exists x.
Qed.

Lemma charged_mono seen seen' l w : (∀ x, x ∈ seen → x ∈ seen') → charged seen l w → charged seen' l w.
Proof. intros Hs [? ? Hc ?]. split; [done..| |done]. intros r u Hin. destruct (Hc r u Hin) as (w0 & Hw0 & ->). exists w0. auto. Qed.

(** Who was charged counts in the counter: with no counter, there is nobody. *)
Lemma charged_none seen l w : raw_counted scope w = None → charged seen l w → l = [].
Proof.
  intros Hn [_ _ Hc Ht]. rewrite Hn in Ht. apply (f_equal ou_runs) in Ht. cbn in Ht. destruct l as [|[r u] l]; [done|]. exfalso.
  assert (Hall : ∀ c, c ∈ (r, u) :: l → ou_runs (snd c) = 1%Z) by (intros [r' u'] Hin; destruct (Hc r' u' Hin) as (w0 & _ & ->); done).
  assert (Hs : ∀ k : list (string * organization_usage), (∀ c, c ∈ k → ou_runs (snd c) = 1%Z) → sum_map (λ c, ou_runs (snd c)) k = Z.of_nat (length k)).
  { intros k. induction k as [|c k IH]; intros Hk; [done|]. rewrite sum_map_cons, Hk by (by left). rewrite IH; [cbn; lia|]. intros c' Hc'. apply Hk. by right. }
  rewrite Hs in Ht by done. cbn in Ht. lia.
Qed.

(** The fields of the counter. *)
Lemma raw_fields (w : world_) :
  let d := default zeroUsage (jkey usageKey w ≫= prj) in
  default zeroUsage (raw_counted scope w) =
    plus d (OrganizationUsage (counter_value usageKey "runs" (jr w)) (counter_value usageKey "tokens" (jr w)) (counter_value usageKey "costUsd" (jr w))).
Proof.
  cbn zeta. unfold raw_counted, counter_value, plus. destruct (jkey usageKey w ≫= prj) as [d|], (mj_getCounters usageKey (jr w)) as [m|]; cbn;
    unfold usage_of_counters; cbn; f_equal; lia.
Qed.

Lemma charged_read h prefix cache strict o seen l w w' :
  readable fuel scope w → cache_ok prefix scope w cache → read h prefix cache strict w = (o, w') → charged seen l w →
  ∃ l', charged (seen ++ [w]) l' w'.
Proof.
  intros Hrd Hok Hrun Hc. destruct (raw_counted scope w) as [u|] eqn:Hraw.
  - rewrite (run_usage_counted h fail yes fuel scope prefix cache strict w u Hraw (rd_fuel _ _ _ Hrd)) in Hrun. injection Hrun as _ <-.
    exists l. eapply charged_mono; [|exact Hc]. intros x Hx. apply elem_of_app. by left.
  - destruct (run_usage_backfill h fail yes fuel scope prefix cache strict w Hraw (rd_fuel _ _ _ Hrd) (rd_quiet _ _ _ Hrd) Hok)
      as (cache' & w2 & Hrun' & _ & Hsv & Hraw' & Hm & _). rewrite Hrun' in Hrun. injection Hrun as _ <-.
    exists (run_charges w). split.
    + apply run_charges_once.
    + intros r u (x & Heq & [Hd Hx]%list_elem_of_filter)%list_elem_of_fmap. injection Heq as -> ->. by apply Hm.
    + intros r u (x & Heq & _)%list_elem_of_fmap. injection Heq as -> ->. exists w. split; [|done]. apply elem_of_app. right. by left.
    + rewrite Hraw', total_run_charges. done.
Qed.

Lemma charged_record rs ps' seen l w w' :
  inert usageKey → (∀ r, r ∈ rs → inert (marker r)) →
  reachable_in (increments_answer (R := R) (E := E)) (map (recordRunUsage full_caps yes scope) rs, w) (ps', w') → charged seen l w →
  ∃ l', charged (seen ++ [w]) l' w'.
Proof.
  intros Hu Hm Hr [Hone Hmark Hcost Ht]. pose proof (race_document yes scope w rs ps' w' Hr) as Hdoc.
  destruct (race_counts yes scope w rs Hu Hm ps' w' (reachable_in_reachable _ _ _ Hr)) as (Hv & Hmono & counted & Hn & Hc & Hf).
  set (new := map (λ r, (r, share scope w r)) counted). exists (l ++ new).
  assert (Hnew : new.*1 = counted) by (unfold new; rewrite <- list_fmap_compose; apply list_fmap_id).
  split.
  - rewrite fmap_app, Hnew. apply NoDup_app. split_and!; [done| |done]. intros r Hin Hin'.
    apply list_elem_of_fmap in Hin as ([r' u] & Heq & Hin). cbn in Heq. subst r. destruct (Hmark r' u Hin) as [v Hv'].
    destruct (Hc _ Hin') as (_ & Hnone & _). congruence.
  - intros r u [Hin|Hin]%elem_of_app; [by eapply Hmono, Hmark|]. apply list_elem_of_fmap in Hin as (x & Heq & Hin). injection Heq as -> ->. by apply Hc.
  - intros r u [Hin|Hin]%elem_of_app.
    + destruct (Hcost r u Hin) as (w0 & Hw0 & ->). exists w0. split; [|done]. apply elem_of_app. by left.
    + apply list_elem_of_fmap in Hin as (x & Heq & _). injection Heq as -> ->. exists w. split; [|done]. apply elem_of_app. right. by left.
  - assert (Hfield : ∀ f g, (∀ u, field_sum f (usage_fields u) = g u) →
      sum_map (λ r, field_sum f (usage_fields (share scope w r))) counted = sum_map (λ c, g (snd c)) new).
    { intros f g Hg. unfold new. rewrite sum_map_map. apply sum_map_ext. intros r _. apply Hg. }
    rewrite total_app, <- Ht, !raw_fields, Hdoc, !Hf.
    rewrite (Hfield "runs" ou_runs), (Hfield "tokens" ou_tokens), (Hfield "costUsd" ou_costUsd) by (intros u; unfold field_sum, usage_fields; simpl; lia).
    unfold plus, total. cbn. f_equal; lia.
Qed.

Lemma charged_engine (h : oracle Q R E) r seen l w :
  foreign r → charged seen l w → charged (seen ++ [w]) l (snd (perform h r w)).
Proof.
  intros Hr [Hone Hmark Hcost Ht].
  assert (Hk : ∀ k, (k = usageKey ∨ ∃ id, k = marker id) → jkey k (snd (perform h r w)) = jkey k w).
  { intros k Hk. assert (Hne : match r with RPut k' _ | RPutIfAbsent k' _ | RPutIfMatch k' _ _ => k' ≠ k | _ => True end).
    { destruct r; try done; destruct Hr as [Hr1 Hr2]; destruct Hk as [->|[id ->]]; auto. }
    rewrite perform_jkey by (destruct r; try done; by apply String.eqb_neq).
    destruct (jkey k w), r; try done. by rewrite (proj2 (String.eqb_neq _ _) Hne). }
  split.
  - done.
  - intros x u Hin. rewrite Hk by (right; by eexists). by eapply Hmark.
  - intros x u Hin. destruct (Hcost x u Hin) as (w0 & Hw0 & ->). exists w0. split; [|done]. apply elem_of_app. by left.
  - rewrite <- Ht, !raw_fields, (Hk usageKey) by (by left).
    assert (Hc : ∀ f, counter_value usageKey f (jr (snd (perform h r w))) = counter_value usageKey f (jr w)).
    { intros f. destruct r; try done; cbn [perform snd jr set_jr].
      - rewrite mj_putIfAbsent_spec. by destruct (mj_get _ _).
      - rewrite mj_putIfMatch_spec. by case_bool_decide.
      - rewrite counter_value_incrBy, (proj2 (String.eqb_neq usageKey _)); [lia|]. intros He. apply Hr. by symmetry. }
    by rewrite !Hc.
Qed.

Lemma history_charged w ws w' seen l :
  budget_history w ws w' → charged seen l w → ∃ l', charged (seen ++ ws) l' w'.
Proof.
  intros Hh. revert seen l. induction Hh as [w|w w1 ws w' Hs Hh IH]; intros seen l Hc; [exists l; by rewrite app_nil_r|].
  assert (H1 : ∃ l1, charged (seen ++ [w]) l1 w1).
  { destruct Hs as [h prefix cache strict o Hrd Hok Hrun|rs ps' Hu Hm Hr|h r Hr ->].
    - by eapply charged_read.
    - by eapply charged_record.
    - exists l. by apply charged_engine. }
  destruct H1 as [l1 H1]. destruct (IH _ _ H1) as [l' H']. exists l'. by rewrite <- app_assoc in H'.
Qed.

Lemma total_perm l k : l ≡ₚ k → total l = total k.
Proof. intros Hp. unfold total. by rewrite !(sum_map_perm _ _ _ Hp). Qed.

End Ledger.

(** ** Examples *)

(** The request of one thread takes effect and its answer is lost. *)
Definition lose_answer {V Q R E A} `{!JsValue V} (h : oracle Q R E) (e : E) (i : nat) (c : config V Q R E A) : config V Q R E A :=
  match fst c !! i with
  | Some (Do r k) => (<[i := k (Err e)]> (fst c), snd (perform h r (snd c)))
  | _ => c
  end.

Lemma lose_answer_reachable {V Q R E A} `{!JsValue V} (h : oracle Q R E) e i (c : config V Q R E A) :
  reachable c (lose_answer h e i c).
Proof.
  destruct c as [ps w]. unfold lose_answer. cbn [fst snd]. destruct (ps !! i) as [[a|e'|r k]|] eqn:Hi; try apply rtc_refl.
  apply rtc_once. by apply (step_fail_after h).
Qed.

Section RaceWitnesses.
Let h0 : oracle unit unit budget_error := λ _ _, Ok tt.
Let put k v (j : mem_journal budget_entry) := mj_put 0 k v j.
Let at_ (j : mem_journal budget_entry) : world budget_entry unit := World j 0 0 [] empty_work.
Let completed_run (r : string) (n : Z) (j : mem_journal budget_entry) :=
  put (rk_outcome r) (outcome_record "completed") (put (rk_model r "0") (tokens_record n) j).
Let record (scope r : string) : prog budget_entry unit unit budget_error unit := recordRunUsage full_caps BYes scope r.
Let usage (scope : string) : prog budget_entry unit unit budget_error (organization_usage * option cost_cache) :=
  usage_of_view full_caps id BYes true 9 scope "" None true.

Let w1 : world budget_entry unit := at_ (completed_run "b" 70 (completed_run "a" 400 empty_journal)).

(** Two calls for the same run and one for another, interleaved. *)
Lemma runs_counted_once_witness :
  let c := schedule h0 [0; 1; 2; 0; 1; 2; 0; 2; 0; 2; 1] (map (record "") ["a"; "a"; "b"], w1) in
  (∃ counted, NoDup counted ∧
    (∀ r, r ∈ counted → r ∈ ["a"; "a"; "b"] ∧ jkey ("" +:+ usageCountedKey r) w1 = None ∧
                        is_Some (jkey ("" +:+ usageCountedKey r) (snd c))) ∧
    ∀ f, counter_value ("" +:+ USAGE_KEY) f (jr (snd c)) =
         (counter_value ("" +:+ USAGE_KEY) f (jr w1) + sum_map (λ r, field_sum f (usage_fields (share "" w1 r))) counted)%Z) ∧
  jkey ("" +:+ USAGE_KEY) (snd c) = jkey ("" +:+ USAGE_KEY) w1.
Proof.
  intros c. destruct (runs_counted_once (R:=unit) (E:=budget_error) BYes "" w1 ["a"; "a"; "b"]) with (ps' := fst c) (w' := snd c) as (_ & Hc & Hdoc).
  - apply (bool_decide_unpack _). vm_compute. exact I.
  - intros r Hr. assert (Hd : Forall (λ r, inert ("" +:+ usageCountedKey r)) ["a"; "a"; "b"]).
    { apply (bool_decide_unpack _). vm_compute. exact I. }
    rewrite Forall_forall in Hd. by apply Hd.
  - rewrite <- surjective_pairing. apply schedule_reachable.
  - split; [exact Hc|]. apply Hdoc. rewrite <- surjective_pairing. apply answered_reachable_in. vm_compute. tauto.
Defined.

Example both_runs_counted :
  mj_getCounters "__usage__" (jr (snd (schedule h0 [0; 1; 2; 0; 1; 2; 0; 2; 0; 2; 1] (map (record "") ["a"; "a"; "b"], w1))))
  = Some (usage_fields (OrganizationUsage 2 470 1175000000)).
Proof. vm_compute. reflexivity. Qed.

(** A history: a read that backfills, a third run that is recorded step by step and completes, and three
    completions that race, two of the new run and one of a run that was charged. *)
Let v0 : world budget_entry unit := w1.
Let v1 := snd (run h0 (usage "") v0).
Let v2 := snd (perform h0 (RPut (rk_model "c" "0") (tokens_record 30)) v1).
Let v3 := snd (perform h0 (RPut (rk_outcome "c") (outcome_record "completed")) v2).
Let race := schedule h0 [0; 1; 2; 0; 1; 0; 0; 1; 2] (map (record "") ["c"; "c"; "a"], v3).
Let v4 := snd race.

Lemma readable_by_sight (w : world budget_entry unit) :
  length (mj_listRuns (jr w)) < 9 → Forall (λ r, inert ("" +:+ usageCountedKey (rs_runId r))) (runs_in "" w) →
  Forall (λ r, 0 ≤ rc_totalTokens (cost_in "" w (rs_runId r)) ∧ 0 ≤ rc_costUsd (cost_in "" w (rs_runId r)))%Z (runs_in "" w) →
  readable 9 "" w.
Proof.
  intros Hf Hi Hc. rewrite Forall_forall in Hi, Hc. split; [exact Hf| |intros r Hr _; by apply Hc].
  split; [apply (bool_decide_unpack _); vm_compute; exact I|exact Hi].
Qed.

Lemma foreign_put k v : ends_with ":usage-counted" k = false → k ≠ "" +:+ USAGE_KEY → foreign "" (RPut (Q := unit) k v : req budget_entry unit).
Proof. intros Hk Hu. split; [done|]. intros id He. symmetry in He. revert He. by apply marker_not. Qed.

Lemma sample_history : budget_history (R := unit) (E := budget_error) id BYes 9 "" v0 [v0; v1; v2; v3] v4.
Proof.
  apply (bh_cons _ _ _ _ v0 v1); [|apply (bh_cons _ _ _ _ v1 v2); [|apply (bh_cons _ _ _ _ v2 v3); [|apply (bh_cons _ _ _ _ v3 v4); [|apply bh_nil]]]].
  - apply (step_read _ _ _ _ v0 v1 h0 "" None true (fst (run h0 (usage "") v0))).
    + apply readable_by_sight; [vm_compute; lia|apply (bool_decide_unpack _); vm_compute; exact I..].
    + intros c r rc Hc. discriminate Hc.
    + unfold v1, usage. apply surjective_pairing.
  - apply (step_engine _ _ _ _ v1 v2 h0 (RPut (rk_model "c" "0") (tokens_record 30))); [|reflexivity].
    by apply foreign_put; [vm_compute|].
  - apply (step_engine _ _ _ _ v2 v3 h0 (RPut (rk_outcome "c") (outcome_record "completed"))); [|reflexivity].
    by apply foreign_put; [vm_compute|].
  - apply (step_record _ _ _ _ v3 v4 ["c"; "c"; "a"] (fst race)).
    + apply (bool_decide_unpack _). vm_compute. exact I.
    + apply Forall_forall, (bool_decide_unpack _). vm_compute. exact I.
    + unfold v4. rewrite <- surjective_pairing. apply answered_reachable_in. vm_compute. tauto.
Qed.


(** A deployment with history and no counter: the first completion creates the counter, so
    the history is never scanned again.  Run [a] used 400 tokens before the upgrade. *)
Example history_is_forgotten :
  let w2 := snd (run h0 (record "" "b") w1) in
  option_map fst (match fst (run h0 (usage "") w2) with Ok x => Some x | Err _ => None end) = Some (OrganizationUsage 2 70 175000000) ∧
  scan_answer "" w2 = OrganizationUsage 2 470 1175000000.
Proof. vm_compute. split; reflexivity. Qed.

(** A completion between the first read's look at the counter and its backfill is in the
    backfilled document and in the atomic counter: run [b] counts twice. *)
Example backfill_counts_twice :
  let reader := (x ← usage ""; mret tt) : prog budget_entry unit unit budget_error unit in
  let c := schedule h0 ([0; 0; 0] ++ [1; 1; 1; 1] ++ repeat 0 20) ([reader; record "" "b"], w1) in
  fst c = [Ret tt; Ret tt] ∧ raw_counted "" (snd c) = Some (OrganizationUsage 3 540 1350000000) ∧
  scan_answer "" (snd c) = OrganizationUsage 2 470 1175000000.
Proof. vm_compute. split_and!; reflexivity. Qed.

(** The root reads the runs of the organizations as its own, but their completions enter
    the counters of the organizations: the root's answer depends on when it first read. *)
Example root_and_organization :
  let w0 := at_ (completed_run "org:acme:a" 400 empty_journal) in
  let read w := match run h0 (usage "") w with (Ok (u, _), w') => (ou_tokens u, w') | (_, w') => (0%Z, w') end in
  let w2 := snd (run h0 (record "org:acme:" "a") w0) in
  let '(before, w3) := read w2 in
  let w4 := snd (run h0 (record "org:acme:" "b") (at_ (completed_run "org:acme:b" 70 (jr w3)))) in
  let '(after, w5) := read w4 in
  before = 400%Z ∧ after = 400%Z ∧ ou_tokens (scan_answer "" w5) = 470%Z.
Proof. vm_compute. split_and!; reflexivity. Qed.

(** An increment that took effect and then failed is made again on the document. *)
Example lost_answer_counts_twice :
  let c0 := ([record "" "a"], w1) in
  let c := schedule h0 [0; 0] (lose_answer h0 BudgetOutOfFuel 0 (schedule h0 [0; 0; 0] c0)) in
  reachable c0 c ∧ fst c = [Ret tt] ∧ raw_counted "" (snd c) = Some (OrganizationUsage 2 800 2000000000).
Proof.
  intros c0 c. split.
  - unfold c, reachable. transitivity (schedule h0 [0; 0; 0] c0); [apply schedule_reachable|].
    transitivity (lose_answer h0 BudgetOutOfFuel 0 (schedule h0 [0; 0; 0] c0)); [apply lose_answer_reachable|apply schedule_reachable].
  - vm_compute. split; reflexivity.
Qed.
End RaceWitnesses.
