(* ===== verification/ThreadOwner.v ===== *)
(** * ThreadOwner: whose thread it is

    Models [packages/durable/src/thread-owner.ts]: the owner record of a thread, the answer
    derived for threads older than the record, and the gate of every run on a thread.  What
    the host's memory is asked ([getThreadResource], [getMessages]) are host requests; runs
    are listed page by page, [pages] bounding their number. *)

From S2P Require Import Prelude JsMap Keys Journal Work Prog Claim RunIdentity.

Definition threadOwnerKey (threadId : string) : string := "thread:" +:+ threadId +:+ ":owner".

Record thread_ownership := ThreadOwnership {
  ow_exists : bool;
  ow_owner : option string;
  ow_staffClaimed : option bool;
}.

(** [to_marks]: the flags of the record that are [true]. *)
Record thread_owner_record := ThreadOwnerRecord {
  to_at : Z;
  to_resourceId : option string;
  to_ownerKind : option owner_kind;
  to_marks : list string;
  to_upgradedAt : option Z;
}.

#[global] Instance thread_owner_record_eq_dec : EqDecision thread_owner_record.
Proof. solve_decision. Defined.

Inductive thread_error :=
| ThreadOwnerMismatchError (threadId : string) (owner : option string) (requested : string)
| NeedsUserId
| ThreadOutOfPages.

(** What the engine asks of a memory: who owns a thread, when it can tell, and whether the
    thread has messages. *)
Record memory_port (Q R : Type) := MemoryPort {
  mp_getThreadResource : option (string → Q);
  mp_resource : R → option string;
  mp_getMessages : string → Q;
  mp_hasMessages : R → bool;
}.
Arguments mp_getThreadResource {Q R}. Arguments mp_resource {Q R}.
Arguments mp_getMessages {Q R}. Arguments mp_hasMessages {Q R}.

(** A record without the fields that are read. *)
Definition blank_record : thread_owner_record := ThreadOwnerRecord 0 None None [] None.

Definition is_unknown (r : thread_owner_record) : bool := bool_decide (to_ownerKind r = Some OwnerUnknown).
Definition is_staff (r : thread_owner_record) : bool := bool_decide (to_ownerKind r = Some OwnerStaff).

(** What a record says of the thread. *)
Definition recorded (r : thread_owner_record) : thread_ownership :=
  match truthy (to_resourceId r) with
  | Some owner => ThreadOwnership true (Some owner) None
  | None => ThreadOwnership true None (Some (negb (is_unknown r)))
  end.

Section ThreadOwner.
Context {V : Type} `{!JsValue V, !Embed owner_record V, !Embed thread_owner_record V} {Q R E : Type}.
Variable caps : journal_caps.
Variable fail : thread_error → E.
Variable pages : nat.
Variable memory : option (memory_port Q R).
Abbreviation prog := (prog V Q R E).

(** A stored record, read back. *)
Definition record_of (v : V) : thread_owner_record := default blank_record (prj v).

Fixpoint runs_pages (n : nat) (threadId : string) (cursor : option string) : prog (list run_summary) :=
  match n with
  | 0 => Throw (fail ThreadOutOfPages)
  | S n' =>
      '(items, next) ← request (RListRuns cursor);
      rest ← match truthy next with Some c => runs_pages n' threadId (Some c) | None => mret [] end;
      mret (filter (λ r, rs_threadId r = Some threadId) items ++ rest)
  end.

Definition runsOnThread (threadId : string) : prog (list run_summary) :=
  if has_readRun caps then runs_pages pages threadId None else mret [].

Fixpoint allBornUnknown (runs : list run_summary) : prog bool :=
  match runs with
  | [] => mret true
  | r :: runs' =>
      v ← jget (rk_input (rs_runId r));
      match recordOwner (v ≫= prj) with
      | Some Unknown => allBornUnknown runs'
      | _ => mret false
      end
  end.

Definition ask_resource (threadId : string) : prog (option string) :=
  match memory ≫= mp_getThreadResource, memory with
  | Some q, Some m => a ← request (RExt (q threadId)); mret (mp_resource m a)
  | _, _ => mret None
  end.

Definition names_owners : bool := bool_decide (is_Some (memory ≫= mp_getThreadResource)).

(** The one owner the runs agree on. *)
Definition agreed_owner (runs : list run_summary) : option (option string) :=
  match runs with
  | [] => None
  | r :: runs' => if forallb (λ x, bool_decide (rs_resourceId x = rs_resourceId r)) runs' then Some (rs_resourceId r) else None
  end.

(** Owner, existence and anonymity of a thread that has no record. *)
Definition derived_owner (threadId : string) : prog (option string * bool * bool) :=
  known ← ask_resource threadId;
  '(derived, found, anonymous) ← (if bool_decide (is_Some known) then mret (known, true, false)
     else
       runs ← runsOnThread threadId;
       match runs with
       | [] => mret (None, false, false)
       | _ =>
           match agreed_owner runs with
           | Some o =>
               match truthy o with
               | Some owner => mret (Some owner, true, false)
               | None => anon ← allBornUnknown runs; mret (None, true, anon)
               end
           | None => mret (None, true, false)
           end
       end);
  match memory with
  | Some m =>
      if negb found && negb names_owners then
        a ← request (RExt (mp_getMessages m threadId)); mret (derived, mp_hasMessages m a, anonymous)
      else mret (derived, found, anonymous)
  | None => mret (derived, found, anonymous)
  end.

Definition reread (key : string) : prog thread_ownership :=
  v ← jget key;
  mret (recorded (match v with Some x => record_of x | None => blank_record end)).

Definition threadOwnerOf (threadId : string) : prog thread_ownership :=
  let key := threadOwnerKey threadId in
  rec ← jget key;
  match rec with
  | Some v =>
      let r := record_of v in
      if bool_decide (truthy (to_resourceId r) = None) && negb (is_staff r) && names_owners then
        owner ← ask_resource threadId;
        match truthy owner with
        | Some o =>
            now ← dateNow;
            _ ← jput key (inj (T:=thread_owner_record) (ThreadOwnerRecord (to_at r) (Some o) (to_ownerKind r) (to_marks r) (Some now)));
            mret (ThreadOwnership true (Some o) None)
        | None => mret (recorded r)
        end
      else mret (recorded r)
  | None =>
      '(derived, found, anonymous) ← derived_owner threadId;
      if negb found then mret (ThreadOwnership false None None)
      else
        match truthy derived with
        | None =>
            if anonymous : bool then mret (ThreadOwnership true None (Some false))
            else
              now ← dateNow;
              _ ← claim caps key (inj (ThreadOwnerRecord now None (Some OwnerStaff) ["backfilled"; "underivable"] None));
              reread key
        | Some o =>
            now ← dateNow;
            _ ← claim caps key (inj (ThreadOwnerRecord now (Some o) None ["backfilled"] None));
            reread key
        end
  end.

Definition assignThreadOwner (threadId resourceId : string) : prog unit :=
  if String.eqb resourceId "" then Throw (fail NeedsUserId)
  else now ← dateNow; jput (threadOwnerKey threadId) (inj (ThreadOwnerRecord now (Some resourceId) None ["assigned"] None)).

Definition claimFor (threadId : string) (resourceId : option string) (kind : option owner_kind) : prog thread_ownership :=
  now ← dateNow;
  _ ← claim caps (threadOwnerKey threadId) (inj (ThreadOwnerRecord now resourceId kind [] None));
  reread (threadOwnerKey threadId).

Definition refuse (threadId : string) (o : thread_ownership) (requested : string) : prog thread_ownership :=
  Throw (fail (ThreadOwnerMismatchError threadId (ow_owner o) requested)).

Definition staff_claimed (o : thread_ownership) : bool := bool_decide (ow_staffClaimed o = Some true).

(** The answer the gate gives once it knows the owner. *)
Definition decide_caller (threadId : string) (o : thread_ownership) (c : caller) : prog thread_ownership :=
  match c with
  | Staff _ => mret o
  | Unknown => if bool_decide (is_Some (ow_owner o)) || staff_claimed o then refuse threadId o "(unknown)" else mret o
  | User id _ =>
      match ow_owner o with
      | Some owner => if String.eqb owner id then mret o else refuse threadId o id
      | None => if staff_claimed o then refuse threadId o id else mret o
      end
  end.

Definition admitThreadRun (threadId : string) (c : caller) : prog thread_ownership :=
  o ← threadOwnerOf threadId;
  if negb (ow_exists o) || (bool_decide (ow_owner o = None) && bool_decide (ow_staffClaimed o = Some false)) then
    match c with
    | User id _ => o' ← claimFor threadId (Some id) None; decide_caller threadId o' c
    | Staff _ =>
        if negb (ow_exists o) then o' ← claimFor threadId None (Some OwnerStaff); decide_caller threadId o' c
        else mret o
    | Unknown => mret o
    end
  else decide_caller threadId o c.
End ThreadOwner.

(** ** One user per thread *)

(** A record that no named user can take: it names its owner, or staff claimed it. *)
Definition closed (r : thread_owner_record) : bool :=
  bool_decide (is_Some (truthy (to_resourceId r))) || negb (is_unknown r).

Lemma closed_other r : to_ownerKind r ≠ Some OwnerUnknown → closed r = true.
Proof. intros H. unfold closed, is_unknown. by rewrite (bool_decide_eq_false_2 (_ = _)), orb_true_r. Qed.

Section OneUser.
Context {V : Type} `{!JsValue V, !Embed owner_record V, !Embed thread_owner_record V} {Q R E : Type}.
Variable fail : thread_error → E.
Variable pages : nat.
Variable memory : option (memory_port Q R).
Hypothesis no_names : memory ≫= mp_getThreadResource = None.
Variable threadId : string.
Abbreviation key := (threadOwnerKey threadId).
Abbreviation seen := (seen (V:=V)).

(** A request that leaves the record alone, or creates one that is closed. *)
Definition closes (r : req V Q) : Prop :=
  overwrites key r = false ∧
  match r with RPutIfAbsent k v => k = key → closed (record_of v) = true | _ => True end.

Definition closed_record (w : world V Q) : Prop := ∀ v, jkey key w = Some v → closed (record_of v) = true.

Lemma closed_record_perform (h : oracle Q R E) w r :
  closes r → closed_record w → closed_record (snd (perform h r w)).
Proof.
  intros [Ho Hr] Hw v. rewrite perform_jkey by done.
  destruct (jkey key w) eqn:Hk; [intros [= <-]; by apply Hw|].
  destruct r; try done. destruct (String.eqb_spec k key) as [->|]; [|done]. intros [= <-]. by apply Hr.
Qed.

Abbreviation safe_t post g p := (safe (V:=V) (Q:=Q) (R:=R) (E:=E) (λ _, closes) (learn key) post g p).

(** What is known once the record has been read: it says [o]. *)
Definition read_as (g : seen) (o : thread_ownership) : Prop :=
  g = Impossible ∨ g = Unseen ∨ g = Present ∨ ∃ v, g = Value v ∧ o = recorded (record_of v).

Definition any {A} (_ : seen) (_ : outcome E A) : Prop := True.

Lemma ask_resource_none t : ask_resource (V:=V) (E:=E) memory t = mret None.
Proof using no_names. unfold ask_resource. rewrite no_names. by destruct memory. Qed.

Lemma names_owners_none : names_owners memory = false.
Proof using no_names. unfold names_owners. by rewrite no_names. Qed.

Lemma runs_pages_safe n t c g : safe_t any g (runs_pages (V:=V) fail n t c).
Proof.
  revert c g. induction n as [|n IH]; intros c g; cbn [runs_pages]; [done|].
  split; [done|]. intros [[items nx]|]; [|done]. simpl.
  eapply safe_bind with (mid := any); [|done|done]. destruct (truthy nx); [apply IH|done].
Qed.

Lemma allBornUnknown_safe l g : safe_t any g (allBornUnknown (V:=V) l).
Proof.
  revert g. induction l as [|r l IH]; intros g; cbn [allBornUnknown]; [done|].
  split; [done|]. intros [v|]; [|done]. simpl. destruct (recordOwner _) as [[]|]; [done|done|apply IH|done].
Qed.

Lemma derived_owner_safe g : safe_t any g (derived_owner full_caps fail pages memory threadId).
Proof using no_names.
  unfold derived_owner. rewrite ask_resource_none. cbn [mret prog_ret mbind prog_bind pbind].
  rewrite bool_decide_eq_false_2 by (by intros []).
  eapply safe_bind with (mid := any); [| |done].
  - eapply safe_bind with (mid := any); [apply runs_pages_safe| |done]. intros g1 [|r l] _; [done|].
    destruct (agreed_owner (r :: l)) as [o|]; [|done]. destruct (truthy o); [done|].
    eapply safe_bind with (mid := any); [apply allBornUnknown_safe|done|done].
  - intros g1 [[d f] a] _. destruct memory as [m|]; [|done]. destruct (_ && _); [|done]. split; [done|]. by intros [].
Qed.

Lemma reread_safe g : safe_t (λ g' o, match o with Ok o => read_as g' o | Err _ => True end) g (reread key).
Proof.
  split; [done|]. intros [[v|]|e]; simpl; [| |done]; rewrite String.eqb_refl.
  - right; right; right. by exists v.
  - destruct g; unfold read_as; auto.
Qed.

(** A claim that creates a closed record, and the record then. *)
Lemma claimed_safe (r : Z → thread_owner_record) g :
  (∀ now, closed (r now) = true) →
  safe_t (λ g' o, match o with Ok o => (g' = Impossible ∨ ∃ v, g' = Value v ∧ o = recorded (record_of v)) | Err _ => True end) g
    (now ← dateNow; _ ← claim full_caps key (inj (r now)); reread key).
Proof.
  intros Hr. split; [done|]. intros [now|e]; [|done]. simpl.
  split. { split; [done|]. intros _. unfold record_of. rewrite prj_inj. apply Hr. }
  intros [b|e]; [|done]. simpl. split; [done|]. intros [[v|]|e]; simpl; [| |done]; rewrite String.eqb_refl.
  - right. by exists v.
  - left. destruct b; [done|]. by destruct g.
Qed.

Definition answers (g : seen) (o : outcome E thread_ownership) : Prop :=
  match o with
  | Ok o => g = Impossible ∨ (∃ v, g = Value v ∧ o = recorded (record_of v)) ∨
            (ow_exists o = false ∨ (ow_owner o = None ∧ ow_staffClaimed o = Some false))
  | Err _ => True
  end.

Lemma threadOwnerOf_safe g : safe_t answers g (threadOwnerOf full_caps fail pages memory threadId).
Proof using no_names.
  unfold threadOwnerOf. rewrite names_owners_none. split; [done|]. intros [[v|]|e]; [| |done]; simpl.
  - rewrite String.eqb_refl, andb_false_r. simpl. right. left. by exists v.
  - set (g1 := if String.eqb key key then _ else g). generalize g1. clear g1. intros g1.
    eapply safe_bind with (mid := any); [apply derived_owner_safe| |done]. intros g2 [[d f] a] _.
    destruct f; cbn [negb]; [|right; right; by left].
    destruct (truthy d) as [o|] eqn:Hd.
    + eapply safe_mono; [|apply claimed_safe]; [intros g' [o'|]; [intros [|]; [by left|by right; left]|done]|].
      intros now. by apply closed_other.
    + destruct a; [right; right; by right|].
      eapply safe_mono; [|apply claimed_safe]; [intros g' [o'|]; [intros [|]; [by left|by right; left]|done]|].
      intros now. by apply closed_other.
Qed.

(** What a user that is admitted knows: the record names that user, unless it is open. *)
Definition user_post (c : caller) (g : seen) (o : outcome E thread_ownership) : Prop :=
  match o, c with
  | Ok _, User id _ => g = Impossible ∨ ∃ v, g = Value v ∧ (closed (record_of v) = true → to_resourceId (record_of v) = Some id)
  | _, _ => True
  end.

Lemma decide_caller_safe c g v :
  safe_t (user_post c) (Value v) (decide_caller fail threadId (recorded (record_of v)) c) ∧
  safe_t (user_post c) Impossible (decide_caller fail threadId g c).
Proof.
  split.
  - destruct c as [id org|org|]; cbn [decide_caller]; [|done|by case_match].
    unfold recorded. destruct (truthy _) as [o|] eqn:Ho; cbn [ow_owner].
    + destruct (String.eqb_spec o id) as [->|]; [|done]. right. exists v. split; [done|]. intros _. by eapply proj1, truthy_Some.
    + unfold staff_claimed. cbn [ow_staffClaimed]. case_bool_decide as Hc; [done|]. right. exists v. split; [done|].
      unfold closed. rewrite Ho, bool_decide_eq_false_2 by (by intros []). cbn [orb]. intros Hcl. exfalso. apply Hc. by rewrite Hcl.
  - destruct c as [id org|org|]; cbn [decide_caller]; [|done|by case_match].
    destruct (ow_owner g) as [o|]; [destruct (String.eqb o id)|destruct (staff_claimed g)]; try done; by left.
Qed.

Lemma admitThreadRun_safe c g :
  userIdOf c ≠ Some "" → safe_t (user_post c) g (admitThreadRun full_caps fail pages memory threadId c).
Proof using no_names.
  intros Hc. unfold admitThreadRun. eapply safe_bind; [apply threadOwnerOf_safe| |done]. intros g1 o Ho.
  assert (Hclaim : ∀ rid kind g, (rid = None ∨ ∃ i, rid = Some i ∧ i ≠ "") → (rid = None → kind = Some OwnerStaff) →
    safe_t (user_post c) g (o' ← claimFor full_caps threadId rid kind; decide_caller fail threadId o' c)).
  { intros rid kind g2 Hrid Hkind. eapply safe_bind; [apply (claimed_safe (λ now, ThreadOwnerRecord now rid kind [] None))| |done].
    - intros now. destruct Hrid as [->|(i & -> & Hi)]; [by apply closed_other; rewrite Hkind|].
      unfold closed. cbn. apply String.eqb_neq in Hi. by rewrite Hi.
    - intros g3 o3 [->|(v & -> & ->)]; [apply (decide_caller_safe c o3 (inj blank_record))|apply (decide_caller_safe c o v)]. }
  destruct (negb (ow_exists o) || _) eqn:Hopen.
  - destruct c as [id org|org|]; [|destruct (negb (ow_exists o)); [|done]|done].
    + apply Hclaim; [|done]. right. exists id. split; [done|]. intros ->. by apply Hc.
    + by apply Hclaim; [left|].
  - destruct Ho as [->|[(v & -> & ->)|[He|[He1 He2]]]].
    + apply (decide_caller_safe c o (inj blank_record)).
    + apply (decide_caller_safe c (ThreadOwnership true None None) v).
    + by rewrite He in Hopen.
    + rewrite He1, He2 in Hopen. by rewrite orb_true_r in Hopen.
Qed.
End OneUser.

Section OneUserPool.
Context {V : Type} `{!JsValue V, !Embed owner_record V, !Embed thread_owner_record V} {Q R E : Type}.
Variable fail : thread_error → E.
Variable pages : nat.
Variable memory : option (memory_port Q R).

(** C22: A thread has one user.  Of any number of runs that race to enter a thread, new or
    existing, in any interleaving and whichever requests fail, all the end users that are let
    in are the same user, and it is the one the record names from then on: for a memory that
    does not name owners, and a thread whose record, if it has one, names its owner or staff. *)
Theorem thread_has_one_user (threadId : string) (calls : list caller)
    (ps' : list (prog V Q R E thread_ownership)) (w w' : world V Q) (i j : nat) (id id' : string)
    (org org' : option string) (o o' : thread_ownership) :
  memory ≫= mp_getThreadResource = None → closed_record threadId w → Forall (λ c, userIdOf c ≠ Some "") calls →
  reachable (map (admitThreadRun full_caps fail pages memory threadId) calls, w) (ps', w') →
  calls !! i = Some (User id org) → calls !! j = Some (User id' org') →
  ps' !! i = Some (Ret o) → ps' !! j = Some (Ret o') →
  id = id' ∧ ∃ v, jkey (threadOwnerKey threadId) w' = Some v ∧ to_resourceId (record_of v) = Some id.
Proof.
  intros Hmem Hw Hcalls Hr Hi Hj Hpi Hpj. set (key := threadOwnerKey threadId).
  destruct (pool_safe_idx (R:=R) (E:=E) (λ _, closes threadId) (learn key) (λ (w : world V Q) gs, knows key w gs ∧ closed_record threadId w))
    with (post := λ n, match calls !! n with Some c => user_post (E:=E) c | None => λ _ _, True end)
      (c := (map (admitThreadRun (V:=V) (Q:=Q) (R:=R) full_caps fail pages memory threadId) calls, w)) (c' := (ps', w'))
      (gs := map (λ _ : caller, Unseen (V:=V)) calls) as (gs' & [Hk Hcl] & Hl & Hs).
  - intros h w1 gs n g r Hg Ha [Hkn Hc]. split; [by apply knows_perform; [|apply Ha|]|by apply closed_record_perform].
  - intros h w1 gs n g r e Hg Ha [Hkn Hc]. destruct (knows_fail key h w1 gs n g r e Hg (proj1 Ha) Hkn).
    split; (split; [done|]); [done|by apply closed_record_perform].
  - intros w1 gs c x _ H. exact H.
  - exact Hr.
  - split; [|done]. by intros g (? & -> & ?)%list_elem_of_fmap.
  - split; [simpl; by rewrite !length_map|]. intros n g p _ Hp. simpl in Hp.
    rewrite list_lookup_fmap in Hp. destruct (calls !! n) as [c|] eqn:Hn; [|done].
    injection Hp as <-. apply admitThreadRun_safe; [done|]. rewrite Forall_forall in Hcalls. apply Hcalls. by eapply list_elem_of_lookup_2.
  - simpl in *.
    assert (Huser : ∀ n u og ou, calls !! n = Some (User u og) → ps' !! n = Some (Ret ou) →
              ∃ v, jkey key w' = Some v ∧ to_resourceId (record_of v) = Some u).
    { intros n u og ou Hn Hpn.
      assert (∃ g, gs' !! n = Some g) as [g Hg] by (apply lookup_lt_is_Some; rewrite Hl; by eapply lookup_lt_Some).
      specialize (Hs n g _ Hg Hpn). rewrite Hn in Hs. simpl in Hs.
      pose proof (Hk g (list_elem_of_lookup_2 _ _ _ Hg)) as Hkg.
      destruct Hs as [->|(v & -> & Hv)]; [done|]. exists v. split; [done|]. by apply Hv, Hcl. }
    destruct (Huser i id org o Hi Hpi) as (v & Hv & Hid), (Huser j id' org' o' Hj Hpj) as (v' & Hv' & Hid').
    rewrite Hv in Hv'. injection Hv' as <-. rewrite Hid in Hid'. injection Hid' as <-. split; [done|]. by exists v.
Qed.
End OneUserPool.

(** ** Examples *)

Inductive thread_value := TRun (r : owner_record) | TThread (r : thread_owner_record).

Definition thread_value_eq_dec : EqDecision thread_value.
Proof. solve_decision. Defined.

#[global] Instance thread_value_js : JsValue thread_value := {|
  js_eq_dec := thread_value_eq_dec;
  str_field v f := match v with TRun r => if String.eqb f "resourceId" then or_resourceId r else None | TThread _ => None end;
  is_versioned v := match v with TRun r => or_versioned r | TThread _ => false end;
  ser_length _ := 0;
|}.

#[global] Instance run_embed : Embed owner_record thread_value :=
  {| inj := TRun; prj v := match v with TRun r => Some r | TThread _ => None end; prj_inj _ := eq_refl |}.
#[global] Instance thread_embed : Embed thread_owner_record thread_value :=
  {| inj := TThread; prj v := match v with TThread r => Some r | TRun _ => None end; prj_inj _ := eq_refl |}.

Section ThreadWitnesses.
Let h0 : oracle unit unit thread_error := λ _ _, Ok tt.
Let none : option (memory_port unit unit) := None.
Let at_ (j : mem_journal thread_value) : world thread_value unit := World j 0 7 [] empty_work.
Let enter (c : caller) : prog thread_value unit unit thread_error thread_ownership := admitThreadRun full_caps id 3 none "th" c.

Lemma thread_has_one_user_witness :
  ∃ v, jkey (threadOwnerKey "th") (snd (run h0 (enter (User "ayse" None)) (at_ empty_journal))) = Some v ∧
    to_resourceId (record_of v) = Some "ayse".
Proof.
  set (w1 := snd (run h0 (enter (User "ayse" None)) (at_ empty_journal))).
  pose proof (reachable_run h0 [enter (User "ayse" None); enter (User "ayse" None)] (at_ empty_journal) 0 _ eq_refl) as H1.
  pose proof (reachable_run h0 [finished (fst (run h0 (enter (User "ayse" None)) (at_ empty_journal))); enter (User "ayse" None)] w1 1 _ eq_refl) as H2.
  pose proof (transitivity (R := rtc pool_step) H1 H2) as Hr.
  assert (Hend : snd (run h0 (enter (User "ayse" None)) w1) = w1) by (vm_compute; reflexivity).
  rewrite Hend in Hr.
  refine (proj2 (thread_has_one_user id 3 none "th" [User "ayse" None; User "ayse" None] _ (at_ empty_journal) w1 0 1 "ayse" "ayse" None None
    (ThreadOwnership true (Some "ayse") None) (ThreadOwnership true (Some "ayse") None) _ _ _ Hr _ _ _ _)).
  - reflexivity.
  - intros v Hv. vm_compute in Hv. discriminate.
  - by repeat constructor.
  - reflexivity.
  - reflexivity.
  - vm_compute. reflexivity.
  - vm_compute. reflexivity.
Defined.

(** A record that an anonymous caller left cannot be claimed: every user is let in, and none
    becomes the owner. *)
Example anonymous_record_is_open :
  let w := at_ (mj_put 0 (threadOwnerKey "th") (TThread (ThreadOwnerRecord 5 None (Some OwnerUnknown) [] None)) empty_journal) in
  run h0 (enter (User "ayse" None)) w = (Ok (ThreadOwnership true None (Some false)), w) ∧
  run h0 (enter (User "bob" None)) w = (Ok (ThreadOwnership true None (Some false)), w).
Proof. vm_compute. by split. Qed.
End ThreadWitnesses.
