(* ===== verification/Retention.v ===== *)
(** * Retention: erasing a run from the journal

    Models the run half of [packages/durable/src/retention.ts]: deletion of exact keys on a
    port that deletes by prefix, the keys a run owns, and the cascade of [purgeRun] over
    sub-agents, workflows and network children.

    An operation is a function from the world to an outcome and the next world; what it
    shares with the engine ([uncountUsage]) is the program of [Budget], run alone.  [caps]
    says which optional methods the journal has ([deletePrefix] is required); the views of
    organizations are left out.  The [Set] of processed runs is threaded as a list, and
    [fuel] bounds the depth of the cascade: [RetentionFacts] shows which fuel is enough. *)

From S2P Require Import Prelude JsMap Keys Journal Org Work Prog Claim Json Hash Format Taint RunIdentity ThreadOwner Cost ToolTypes Limits RunCost Budget.

Inductive retention_error :=
| PurgeOutOfFuel
| ColonInId (id : string)
| CannotDeleteDocuments
| WouldDeleteEverywhere
| RetentionThread (e : thread_error)
| RetentionNeeds (what : string).

(** ** Strings *)

(** [s.lastIndexOf(sep)]. *)
Fixpoint last_index (sep s : string) : option nat :=
  match s with
  | EmptyString => if String.eqb sep "" then Some 0 else None
  | String _ s' =>
      match last_index sep s' with
      | Some i => Some (S i)
      | None => if starts_with sep s then Some 0 else None
      end
  end.

(** The elements of a [Set] built from a list: the first occurrence of each. *)
Fixpoint as_set (l : list string) (acc : list string) : list string :=
  match l with
  | [] => acc
  | x :: l' => as_set l' (if bool_decide (x ∈ acc) then acc else acc ++ [x])
  end.

(** ** Keys *)

Definition workflowStatusKey (runId : string) : string := "wfrun:" +:+ runId.
Definition metricsRunKey (runId : string) : string := "__metrics__run:" +:+ runId.
Definition metricsDoneKey (runId : string) : string := "__metrics__done:" +:+ runId.
Definition metricsScoresDoneKey (runId : string) : string := "__metrics__scores:" +:+ runId.

Fixpoint escOwnerPart (v : string) : string :=
  match v with
  | EmptyString => EmptyString
  | String c v' =>
      (if Ascii.eqb c "%" then "%25" else if Ascii.eqb c ":" then "%3A" else String c EmptyString) +:+ escOwnerPart v'
  end.

Definition ownershipTraceKey (resourceId threadId : string) : string :=
  "resthr:" +:+ escOwnerPart resourceId +:+ ":" +:+ threadId.

(** The call id of a tool record's key. *)
Definition toolCallIdOf (key : string) : string :=
  match last_index ":tool:" key with Some i => slice (i + 6) key | None => slice 5 key end.

(** The runs a tool call may have started. *)
Definition nestedRuns (runId tcid : string) : list string :=
  as_set [nestedAgentRunId (Some runId) tcid "agent"; "agent:" +:+ tcid;
          nestedAgentRunId (Some runId) tcid "wf"; "wf:" +:+ tcid] [].

(** [k] is [n]'s or lies below it. *)
Definition under (n k : string) : bool := String.eqb k n || starts_with (n +:+ ":") k.

Definition foreign (neighbours : list string) (k : string) : bool := existsb (λ n, under n k) neighbours.

(** The network children that a list of keys shows. *)
Definition netKids (runId : string) (keys : list string) : list string :=
  let pre := "net:" +:+ runId +:+ ":" in
  as_set (omap (λ k, let rest := slice (String.length pre) k in
                     match String.index 0 ":" rest with
                     | Some (S i) => Some (pre +:+ String.substring 0 (S i) rest)
                     | _ => None
                     end) keys) [].

(** The keys of a run that end where its id ends. *)
Definition exactKeys (runId : string) : list string :=
  [rk_memAppended runId; rk_memUserAppended runId].

Definition topKeys (runId : string) : list string :=
  [workflowStatusKey runId; metricsRunKey runId; metricsDoneKey runId; metricsScoresDoneKey runId].

Section Retention.
Context {V : Type} `{!JsValue V, !Embed organization_usage V, !Embed pricing_doc V, !Embed js V} {Q R : Type}.
Variable h : oracle Q R retention_error.
Variable caps : journal_caps.

(** ** Operations on the world *)

Definition act (A : Type) : Type := world V Q → outcome retention_error A * world V Q.

#[global] Instance act_ret : MRet act := λ A a w, (Ok a, w).
#[global] Instance act_bind : MBind act := λ A B f p w,
  match p w with (Ok a, w') => f a w' | (Err e, w') => (Err e, w') end.

Definition throw {A} (e : retention_error) : act A := λ w, (Err e, w).

(** [p.catch(c)]. *)
Definition catching {A} (c : retention_error → act A) (p : act A) : act A := λ w,
  match p w with (Ok a, w') => (Ok a, w') | (Err e, w') => c e w' end.

Definition jr_get (k : string) : act (option V) := run h (jget k).
Definition jr_put (k : string) (v : V) : act unit := run h (jput k v).
Definition jr_listKeys (prefix : string) : act (list string) := run h (request (RListKeys prefix None)).
Definition jr_readRun (runId : string) : act (list (journal_entry V)) := run h (request (RReadRun runId)).
Definition jr_dateNow : act Z := run h (request RDateNow).

Definition del (prefix : string) : act nat := λ w,
  (Ok (fst (mj_deletePrefix prefix (jr w))), set_jr (snd (mj_deletePrefix prefix (jr w))) w).

(** ** One key *)

Fixpoint read_neighbors (key : string) (ks : list string) : act (list (string * option V)) :=
  match ks with
  | [] => mret []
  | k :: ks' =>
      if String.eqb k key then read_neighbors key ks'
      else v ← jr_get k; rest ← read_neighbors key ks'; mret ((k, v) :: rest)
  end.

Fixpoint put_back (neighbors : list (string * option V)) : act unit :=
  match neighbors with
  | [] => mret tt
  | (k, v) :: rest =>
      _ ← match v with Some x => jr_put k x | None => mret tt end;
      put_back rest
  end.

Definition deleteExactKey (key : string) : act nat :=
  cur ← jr_get key;
  match cur with
  | None => mret 0
  | Some _ =>
      if has_listKeys caps then
        keys ← jr_listKeys key;
        neighbors ← read_neighbors key keys;
        deleted ← del key;
        _ ← put_back neighbors;
        mret (deleted - length neighbors)
      else del key
  end.

Fixpoint deleteExactKeys (ks : list string) : act nat :=
  match ks with
  | [] => mret 0
  | k :: ks' => n ← deleteExactKey k; m ← deleteExactKeys ks'; mret (n + m)
  end.

(** ** The keys of a run *)

(** The longer run ids that own some of the keys. *)
Fixpoint find_neighbours (runId : string) (ks : list string) (acc : list string) : act (list string) :=
  match ks with
  | [] => mret acc
  | k :: ks' =>
      v ← (if ends_with ":input" k then jr_get k else mret None);
      find_neighbours runId ks'
        (match truthy (runIdOfKey k (from_option is_versioned false v)) with
         | Some owner =>
             if negb (String.eqb owner runId) && starts_with (runId +:+ ":") owner && negb (bool_decide (owner ∈ acc))
             then acc ++ [owner] else acc
         | None => acc
         end)
  end.

Definition purgeOwnNamespace (runId : string) : act nat :=
  let prefix := runId +:+ ":" in
  if has_listKeys caps then
    keys ← jr_listKeys prefix;
    neighbours ← find_neighbours runId keys [];
    match neighbours with
    | [] => del prefix
    | _ => deleteExactKeys (filter (λ k, foreign neighbours k = false) keys)
    end
  else del prefix.

Definition hasTrace (runId : string) : act bool :=
  seen ← (if has_listKeys caps then keys ← jr_listKeys (runId +:+ ":"); mret (negb (bool_decide (keys = [])))
          else if has_readRun caps then es ← jr_readRun runId; mret (match es with [] => false | _ => true end)
          else mret false);
  if seen : bool then mret true
  else v ← jr_get (workflowStatusKey runId); mret (bool_decide (is_Some v)).

(** ** The cascade *)

Section Cascade.
Variable purge : string → list string → act (nat * list string).

Fixpoint purge_nested (children : list string) (seen : list string) (total : nat) : act (nat * list string) :=
  match children with
  | [] => mret (total, seen)
  | child :: rest =>
      traced ← hasTrace child;
      if traced : bool then
        '(n, seen') ← purge child seen;
        purge_nested rest seen' (total + n)
      else purge_nested rest seen total
  end.

Fixpoint purge_tools (runId : string) (es : list (journal_entry V)) (seen : list string) (total : nat)
    : act (nat * list string) :=
  match es with
  | [] => mret (total, seen)
  | e :: es' =>
      match je_kind e with
      | KTool =>
          '(total', seen') ← purge_nested (nestedRuns runId (toolCallIdOf (je_key e))) seen total;
          purge_tools runId es' seen' total'
      | KModel => purge_tools runId es' seen total
      end
  end.

Fixpoint purge_kids (kids : list string) (seen : list string) (total : nat) : act (nat * list string) :=
  match kids with
  | [] => mret (total, seen)
  | kid :: rest => '(n, seen') ← purge kid seen; purge_kids rest seen' (total + n)
  end.
End Cascade.

(** What is left behind for the erasure of a person, before the run goes. *)
Definition leave_trace (runId : string) : act unit :=
  input ← catching (λ _, mret None) (jr_get (rk_input runId));
  let field f := input ≫= λ v, truthy (str_field v f) in
  match field "resourceId", field "threadId" with
  | Some r, Some t =>
      now ← jr_dateNow;
      catching (λ _, mret tt) (jr_put (ownershipTraceKey r t) (inj (JObj [("at", JNum now)])))
  | _, _ => mret tt
  end.

(** What is deleted once the children are gone. *)
Definition purge_own (runId : string) : act nat :=
  n1 ← purgeOwnNamespace runId;
  n2 ← deleteExactKeys (exactKeys runId);
  n3 ← del ("net:" +:+ runId +:+ ":");
  n4 ← deleteExactKeys (topKeys runId);
  mret (n1 + n2 + n3 + n4).

Fixpoint purgeRun (fuel : nat) (runId : string) (seen : list string) (ownershipTrace : bool) : act (nat * list string) :=
  if bool_decide (runId ∈ seen) then mret (0, seen)
  else match fuel with
  | 0 => throw PurgeOutOfFuel
  | S fuel' =>
      _ ← (if ownershipTrace then leave_trace runId else mret tt);
      _ ← run h (uncountUsage caps "" runId);
      '(t1, s1) ← (if has_readRun caps then
                     es ← jr_readRun runId;
                     purge_tools (λ c s, purgeRun fuel' c s false) runId es (runId :: seen) 0
                   else mret (0, runId :: seen));
      '(t2, s2) ← (if has_listKeys caps then
                     keys ← jr_listKeys ("net:" +:+ runId +:+ ":");
                     purge_kids (λ c s, purgeRun fuel' c s false) (netKids runId keys) s1 t1
                   else mret (t1, s1));
      n ← purge_own runId;
      mret (t2 + n, s2)
  end.
End Retention.
