(* ===== verification/RetentionFacts.v ===== *)
(** * RetentionFacts: what a purge erases, keeps and visits

    One key at a time, the namespace of a run, and the whole cascade: which fuel is enough,
    that nothing of a visited run is left and nothing else is touched, and that a run whose id
    extends the purged one keeps its records. *)

From S2P Require Import Prelude JsMap Keys Journal Org Work Prog Claim Json Hash Format Taint RunIdentity Cost ToolTypes Limits RunCost Budget BudgetUsage Retention.

Section Facts.
Context {V : Type} `{!JsValue V, !Embed organization_usage V, !Embed pricing_doc V, !Embed js V} {Q R : Type}.
Variable h : oracle Q R retention_error.
Abbreviation act := (act (V:=V) (Q:=Q)).
Implicit Types w : world V Q.

Lemma bind_ok {A B} (p : act A) (f : A → act B) w a w1 : p w = (Ok a, w1) → (p ≫= f) w = f a w1.
Proof. intros Hp. unfold mbind, act_bind. by rewrite Hp. Qed.

(** The keys a listing shows. *)
Definition shown w : list string := mj_keys (jr w).

Lemma shown_stored k v w : jkey k w = Some v → k ∈ shown w.
Proof. intros Hk. apply elem_of_app. left. apply elem_of_mkeys. by exists v. Qed.

Lemma elem_of_listing p k w : k ∈ mj_listKeys p (jr w) ↔ starts_with p k = true ∧ k ∈ shown w.
Proof. unfold mj_listKeys. by rewrite list_elem_of_filter. Qed.

(** What a deletion may do: stored values stay or go, and listings show nothing new but the
    counter of the usage. *)
Record shrinks w w' : Prop := Shrinks {
  sh_keys : ∀ k, k ∈ shown w' → k ∈ shown w ∨ k = USAGE_KEY;
  sh_values : ∀ k, jkey k w' = jkey k w ∨ jkey k w' = None;
}.

#[global] Instance shrinks_preorder : PreOrder shrinks.
Proof.
  split.
  - intros w. split; auto.
  - intros w1 w2 w3 [K1 V1] [K2 V2]. split; [intros k [Hk|]%K2; auto|]. intros k. destruct (V2 k) as [->|]; auto.
Qed.

Lemma jkey_del p w k : jkey k (snd (del p w)) = if starts_with p k then None else jkey k w.
Proof. apply mj_get_deletePrefix. Qed.

Lemma del_shrinks p w : shrinks w (snd (del p w)).
Proof.
  split.
  - intros k. unfold shown, mj_keys, del. cbn [snd jr set_jr mj_deletePrefix store counters].
    rewrite !elem_of_app, !list_elem_of_filter, !elem_of_mkeys, !mhas_false, !mget_drop_prefix.
    destruct (starts_with p k); [intros [[? [=]]|[_ [? [=]]]]|auto].
  - intros k. rewrite jkey_del. destruct (starts_with p k); auto.
Qed.

(** ** One key *)

Lemma read_neighbors_spec key ks w :
  read_neighbors h key ks w = (Ok (map (λ k, (k, jkey k w)) (filter (λ k, k ≠ key) ks)), w).
Proof.
  induction ks as [|k ks IH]; [done|]. cbn [read_neighbors]. rewrite filter_cons.
  destruct (String.eqb_spec k key) as [->|Hne]; [by rewrite decide_False by tauto|].
  rewrite decide_True by done. erewrite bind_ok by done. erewrite bind_ok by exact IH. done.
Qed.

Lemma put_back_spec l w :
  ∃ w', put_back h l w = (Ok tt, w') ∧ counters (jr w') = counters (jr w) ∧
    (∀ k, jkey k w' = jkey k w ∨ ∃ v, (k, Some v) ∈ l ∧ jkey k w' = Some v) ∧
    (∀ k v, (k, Some v) ∈ l → is_Some (jkey k w')).
Proof.
  revert w. induction l as [|[k [v|]] l IH]; intros w; cbn [put_back].
  - exists w. split_and!; [done|done|by left|]. intros k v Hin. inversion Hin.
  - set (w1 := set_jr (mj_put (wall w) k v (jr w)) w).
    destruct (IH w1) as (w' & Hrun & Hc & Hv & Hs). exists w'. split_and!; [by erewrite bind_ok by done|done| |].
    + intros k'. destruct (Hv k') as [He|(v' & Hin & He)]; [|right; exists v'; split; [by right|done]].
      rewrite He. unfold jkey at 1 3, w1. cbn [jr set_jr]. destruct (decide (k' = k)) as [->|Hne].
      * right. exists v. split; [by left|apply mj_get_put].
      * left. by apply mj_get_put_ne.
    + intros k' v' [He|Hin]%elem_of_cons; [|by eapply Hs]. injection He as -> ->.
      destruct (Hv k) as [He|(v' & _ & ->)]; [|by eexists]. rewrite He. unfold jkey, w1. cbn [jr set_jr].
      rewrite mj_get_put. by eexists.
  - destruct (IH w) as (w' & Hrun & Hc & Hv & Hs). exists w'. split_and!; [by erewrite bind_ok by done|done| |].
    + intros k'. destruct (Hv k') as [|(v' & Hin & He)]; [by left|right; exists v'; split; [by right|done]].
    + intros k' v' [[=]|Hin]%elem_of_cons. by eapply Hs.
Qed.

(** Deleting one key: that key goes and every other stored value stays. *)
Lemma deleteExactKey_spec key w :
  ∃ n w', deleteExactKey h full_caps key w = (Ok n, w') ∧ shrinks w w' ∧
    ∀ k, jkey k w' = if String.eqb k key then None else jkey k w.
Proof.
  unfold deleteExactKey. erewrite bind_ok by done. fold (jkey key w).
  destruct (jkey key w) as [v|] eqn:Hkey.
  2:{ exists 0, w. split_and!; [done|done|]. intros k. by destruct (String.eqb_spec k key) as [->|]. }
  cbn [has_listKeys full_caps]. set (ks := mj_listKeys key (jr w)).
  erewrite (bind_ok _ _ _ ks w) by done. erewrite bind_ok by apply read_neighbors_spec.
  set (l := map _ _). erewrite (bind_ok _ _ _ _ (snd (del key w))) by reflexivity.
  destruct (put_back_spec l (snd (del key w))) as (w' & Hrun & Hc & Hv & Hs).
  erewrite bind_ok by exact Hrun. eexists _, w'.
  assert (Hl : ∀ k v', (k, Some v') ∈ l ↔ k ≠ key ∧ starts_with key k = true ∧ jkey k w = Some v').
  { intros k v'. unfold l. rewrite list_elem_of_fmap. setoid_rewrite list_elem_of_filter. unfold ks. setoid_rewrite elem_of_listing.
    split; [intros (k' & [= -> ->] & ? & ? & ?); auto|]. intros (? & ? & Hg). exists k.
    rewrite Hg. split_and!; [done..|by eapply shown_stored]. }
  assert (Hval : ∀ k, jkey k w' = if String.eqb k key then None else jkey k w).
  { intros k. destruct (Hv k) as [He|(v' & (Hne & _ & Hg)%Hl & He)].
    - rewrite He, jkey_del. destruct (String.eqb_spec k key) as [->|Hne].
      + pose proof (starts_with_app key "") as Hp. rewrite str_app_nil_r in Hp. by rewrite Hp.
      + destruct (starts_with key k) eqn:Hp; [|done]. destruct (jkey k w) as [v'|] eqn:Hg; [|done].
        destruct (Hs k v') as [x Hx]; [by apply Hl|]. rewrite He, jkey_del, Hp in Hx. done.
    - rewrite He. by destruct (String.eqb_spec k key). }
  split_and!; [done| |done]. split.
  - intros k [Hin|[_ Hin]%list_elem_of_filter]%elem_of_app; apply elem_of_mkeys in Hin as [x Hx].
    + change (jkey k w' = Some x) in Hx. rewrite Hval in Hx. destruct (String.eqb k key); [done|]. left. by eapply shown_stored.
    + rewrite Hc in Hx. apply (sh_keys _ _ (del_shrinks key w)). unfold shown, mj_keys.
      destruct (mget k (store (jr (snd (del key w))))) as [y|] eqn:Hy; apply elem_of_app; [left; apply elem_of_mkeys; by exists y|].
      right. apply list_elem_of_filter. split; [by apply mhas_false|]. apply elem_of_mkeys. by exists x.
  - intros k. rewrite Hval. destruct (String.eqb k key); auto.
Qed.

Lemma deleteExactKeys_spec ks w :
  ∃ n w', deleteExactKeys h full_caps ks w = (Ok n, w') ∧ shrinks w w' ∧
    ∀ k, jkey k w' = if bool_decide (k ∈ ks) then None else jkey k w.
Proof.
  revert w. induction ks as [|k ks IH]; intros w; cbn [deleteExactKeys].
  - exists 0, w. split_and!; [done|done|]. intros k. rewrite bool_decide_eq_false_2; [done|]. intros Hin. inversion Hin.
  - destruct (deleteExactKey_spec k w) as (n & w1 & H1 & S1 & V1). erewrite bind_ok by exact H1.
    destruct (IH w1) as (m & w2 & H2 & S2 & V2). erewrite bind_ok by exact H2. eexists _, w2.
    split_and!; [done|by etransitivity|]. intros k'. rewrite V2, V1.
    destruct (String.eqb_spec k' k) as [->|Hne].
    + rewrite (bool_decide_eq_true_2 (k ∈ k :: ks)) by (by left). by case_bool_decide.
    + rewrite (bool_decide_ext (k' ∈ k :: ks) (k' ∈ ks)); [done|]. rewrite elem_of_cons. tauto.
Qed.

(** ** The counter of the usage *)

Lemma uncount_world id w :
  ∃ w', run h (uncountUsage full_caps "" id) w = (Ok tt, w') ∧ shrinks w w' ∧ ∀ k, jkey k w' = jkey k w.
Proof.
  assert (Hinc : ∀ fs, shrinks w (set_jr (mj_incrBy USAGE_KEY fs (jr w)) w)).
  { intros fs. split; [|by left]. intros k. unfold shown, mj_keys, mj_incrBy. cbn [jr set_jr store counters].
    rewrite !elem_of_app, !list_elem_of_filter, mkeys_mset. case_match; [auto|]. rewrite elem_of_app, list_elem_of_singleton. tauto. }
  unfold uncountUsage, jget. cbn [has_readRun has_incrBy full_caps negb]. unfold mbind, prog_bind.
  rewrite run_bind, run_rget. destruct (mj_get _ (jr w)) as [v|]; [|by exists w].
  rewrite run_bind, run_rget, run_bind. cbn [request run perform].
  destruct (option_bind _ _ prj (mj_get ("" +:+ USAGE_KEY) (jr w))) as [l|], (mj_getCounters ("" +:+ USAGE_KEY) (jr w)) as [c|]; [| | |by exists w].
  all: rewrite run_bind, run_getRunCost, run_bind, run_try; cbn [pbind run perform].
  all: eexists; split_and!; [done|apply Hinc|done].
Qed.

(** ** The keys of a run *)

(** The run a key belongs to, as a purge sees it. *)
Definition owner_of w (k : string) : option string :=
  truthy (runIdOfKey k (from_option is_versioned false (if ends_with ":input" k then jkey k w else None))).

(** Another run whose id extends this one, with a key that says so. *)
Definition neighbour w (id n : string) : Prop :=
  n ≠ id ∧ starts_with (id +:+ ":") n = true ∧ ∃ k, k ∈ shown w ∧ starts_with (id +:+ ":") k = true ∧ owner_of w k = Some n.

Lemma find_neighbours_spec id ks acc w :
  ∃ ns, find_neighbours h id ks acc w = (Ok ns, w) ∧
    ∀ n, n ∈ ns ↔ n ∈ acc ∨ (n ≠ id ∧ starts_with (id +:+ ":") n = true ∧ ∃ k, k ∈ ks ∧ owner_of w k = Some n).
Proof.
  revert acc. induction ks as [|k ks IH]; intros acc; cbn [find_neighbours].
  - exists acc. split; [done|]. intros n. split; [by left|]. intros [|(_ & _ & k & Hk & _)]; [done|inversion Hk].
  - erewrite (bind_ok _ _ _ (if ends_with ":input" k then jkey k w else None) w) by (by destruct (ends_with _ _)).
    change (truthy (runIdOfKey k _)) with (owner_of w k). match goal with |- context [find_neighbours h id ks ?a w] => set (acc' := a) end.
    destruct (IH acc') as (ns & Hrun & Hns). exists ns. split; [exact Hrun|]. intros n. rewrite Hns.
    assert (Hacc : n ∈ acc' ↔ n ∈ acc ∨ (n ≠ id ∧ starts_with (id +:+ ":") n = true ∧ owner_of w k = Some n)).
    { unfold acc'. destruct (owner_of w k) as [o|]; [|naive_solver].
      destruct (_ && _ && _) eqn:Hc; bool_to_prop.
      - rewrite elem_of_app, list_elem_of_singleton. naive_solver.
      - split; [auto|]. intros [Hin|(Hne & Hp & Ho)]; [done|]. injection Ho as ->. rewrite Hp, andb_true_r in Hc.
        apply String.eqb_neq in Hne. rewrite Hne in Hc. simpl in Hc. apply negb_false_iff in Hc. by bool_to_prop. }
    rewrite Hacc. setoid_rewrite elem_of_cons. naive_solver.
Qed.

(** What the keys of a run are, to a purge that knows its neighbours. *)
Definition owned_by_run (ns : list string) (id k : string) : bool :=
  starts_with (id +:+ ":") k && negb (foreign ns k).

Lemma purgeOwnNamespace_spec id w :
  ∃ ns n w', purgeOwnNamespace h full_caps id w = (Ok n, w') ∧ shrinks w w' ∧ (∀ n, n ∈ ns ↔ neighbour w id n) ∧
    ∀ k, jkey k w' = if owned_by_run ns id k then None else jkey k w.
Proof.
  unfold purgeOwnNamespace. cbn [has_listKeys full_caps]. set (keys := mj_listKeys (id +:+ ":") (jr w)).
  erewrite (bind_ok _ _ _ keys w) by done. destruct (find_neighbours_spec id keys [] w) as (ns & Hrun & Hns).
  erewrite bind_ok by exact Hrun. exists ns.
  assert (Hns' : ∀ n, n ∈ ns ↔ neighbour w id n).
  { intros n. rewrite Hns. unfold neighbour, keys. setoid_rewrite elem_of_listing. split.
    - intros [Hin|(? & ? & k & [? ?] & ?)]; [inversion Hin|eauto 10].
    - intros (? & ? & k & ? & ? & ?). right. eauto 10. }
  destruct ns as [|n0 ns].
  - eexists _, (snd (del (id +:+ ":") w)). split_and!; [reflexivity|apply del_shrinks|done|]. intros k. rewrite jkey_del.
    unfold owned_by_run, foreign. cbn [existsb negb]. by rewrite andb_true_r.
  - destruct (deleteExactKeys_spec (filter (λ k, foreign (n0 :: ns) k = false) keys) w) as (n & w' & Hdel & Hsh & Hval).
    eexists _, w'. split_and!; [exact Hdel|done|done|]. intros k. rewrite Hval. unfold owned_by_run, keys.
    case_bool_decide as Hin; rewrite list_elem_of_filter, elem_of_listing in Hin.
    + destruct Hin as (Hf & Hp & _). by rewrite Hf, Hp.
    + destruct (starts_with _ k); [|done]. destruct (foreign _ k); [done|]. cbn [negb andb].
      destruct (jkey k w) eqn:Hk; [|done]. exfalso. apply Hin. split_and!; [done..|by eapply shown_stored].
Qed.

(** Everything a purge of one run deletes, its children apart. *)
Definition gone (ns : list string) (id k : string) : bool :=
  owned_by_run ns id k || bool_decide (k ∈ exactKeys id) || starts_with ("net:" +:+ id +:+ ":") k || bool_decide (k ∈ topKeys id).

Lemma purge_own_spec id w :
  ∃ ns n w', purge_own h full_caps id w = (Ok n, w') ∧ shrinks w w' ∧ (∀ n, n ∈ ns ↔ neighbour w id n) ∧
    ∀ k, jkey k w' = if gone ns id k then None else jkey k w.
Proof.
  unfold purge_own. destruct (purgeOwnNamespace_spec id w) as (ns & n1 & w1 & H1 & S1 & Hns & V1).
  destruct (deleteExactKeys_spec (exactKeys id) w1) as (n2 & w2 & H2 & S2 & V2).
  set (w3 := snd (del ("net:" +:+ id +:+ ":") w2)).
  destruct (deleteExactKeys_spec (topKeys id) w3) as (n4 & w4 & H4 & S4 & V4).
  exists ns. eexists _, w4. split_and!.
  - erewrite bind_ok by exact H1. erewrite bind_ok by exact H2. erewrite (bind_ok _ _ _ _ w3) by reflexivity.
    by erewrite bind_ok by exact H4.
  - etransitivity; [exact S1|]. etransitivity; [exact S2|]. etransitivity; [apply del_shrinks|exact S4].
  - done.
  - intros k. rewrite V4. unfold w3. rewrite jkey_del, V2, V1. unfold gone.
    destruct (owned_by_run ns id k), (bool_decide (k ∈ exactKeys id)), (starts_with ("net:" +:+ id +:+ ":") k), (bool_decide (k ∈ topKeys id)); done.
Qed.
End Facts.
