(* ===== verification/RetentionCascade.v ===== *)
(** * RetentionCascade: the purge of a run and of the runs it started

    The cascade follows only runs that have left a trace, each once, so its depth is bounded
    by their number; what it visits is erased, what it does not own it leaves. *)

From S2P Require Import Prelude JsMap Keys Journal Org Work Prog Claim Json Hash Format Taint RunIdentity Cost ToolTypes Limits RunCost Budget BudgetUsage Retention RetentionFacts.

(** ** The runs that keys may be traces of *)

(** What precedes each colon. *)
Fixpoint colon_cuts (k : string) : list string :=
  match k with
  | EmptyString => []
  | String c k' => (if Ascii.eqb c colon then [""] else []) ++ map (String c) (colon_cuts k')
  end.

Lemma elem_of_colon_cuts id k : starts_with (id +:+ ":") k = true → id ∈ colon_cuts k.
Proof.
  intros [r ->]%starts_with_spec. rewrite str_app_assoc. induction id as [|c id IH]; cbn; [by left|].
  apply elem_of_app. right. apply list_elem_of_fmap. eauto.
Qed.

Lemma has_char_starts id k : starts_with (id +:+ ":") k = true → has_char colon k = true.
Proof. intros [r ->]%starts_with_spec. unfold has_char. by rewrite !str_exists_app, orb_true_r. Qed.

Definition traced_by (k : string) : list string :=
  colon_cuts k ++ match strip_prefix "wfrun:" k with Some id => [id] | None => [] end.

Section Cascade.
Context {V : Type} `{!JsValue V, !Embed organization_usage V, !Embed pricing_doc V, !Embed js V} {Q R : Type}.
Variable h : oracle Q R retention_error.
Implicit Types w : world V Q.

(** Runs that the keys of a journal show. *)
Definition traced w : list string := remove_dups (concat (map traced_by (shown w))).

(** A run with something to purge. *)
Definition has_trace w (id : string) : Prop :=
  (∃ k, k ∈ shown w ∧ starts_with (id +:+ ":") k = true) ∨ is_Some (jkey (workflowStatusKey id) w).

Lemma hasTrace_spec id w : ∃ b, hasTrace h full_caps id w = (Ok b, w) ∧ (b = true ↔ has_trace w id).
Proof.
  unfold hasTrace. cbn [has_listKeys full_caps]. set (keys := mj_listKeys (id +:+ ":") (jr w)).
  erewrite (bind_ok _ _ _ (negb (bool_decide (keys = [])))) by done.
  destruct (decide (keys = [])) as [Hk|Hk].
  - rewrite bool_decide_eq_true_2 by done. cbn [negb]. erewrite bind_ok by done. eexists. split; [done|].
    rewrite bool_decide_eq_true. unfold has_trace. split; [by right|]. intros [(k & Hin & Hp)|]; [|done].
    assert (k ∈ keys) as Hkk by by apply elem_of_listing. rewrite Hk in Hkk. inversion Hkk.
  - rewrite bool_decide_eq_false_2 by done. cbn [negb]. exists true. split; [done|]. split; [|done]. intros _. left.
    assert (∃ k, k ∈ keys) as (k & Hin) by (destruct keys as [|k ks]; [done|]; exists k; by left).
    apply elem_of_listing in Hin as [? ?]. by exists k.
Qed.

Lemma has_trace_shrinks w w' id : shrinks w w' → has_trace w' id → has_trace w id.
Proof.
  intros [Hk Hv] [(k & Hin & Hp)|[v Hs]].
  - left. exists k. destruct (Hk k Hin) as [|Hu]; [done|]. rewrite Hu in Hp. by apply has_char_starts in Hp.
  - right. destruct (Hv (workflowStatusKey id)) as [<-|]; [by exists v|congruence].
Qed.

Lemma has_trace_traced w id : has_trace w id → id ∈ traced w.
Proof.
  intros Ht. apply elem_of_remove_dups, list_elem_of_In, in_concat.
  assert (∃ k, k ∈ shown w ∧ id ∈ traced_by k) as (k & Hin & Hid).
  { destruct Ht as [(k & Hin & Hp)|[v Hs]].
    - exists k. split; [done|]. apply elem_of_app. left. by apply elem_of_colon_cuts.
    - exists (workflowStatusKey id). split; [by eapply shown_stored|]. apply elem_of_app. right.
      unfold workflowStatusKey. rewrite strip_prefix_app. by left. }
  exists (traced_by k). split; [apply list_elem_of_In, list_elem_of_fmap; by exists k|by apply list_elem_of_In].
Qed.

(** ** What a purge does *)

(** The keys a purge of a run may delete, its children apart. *)
Definition footprint (id k : string) : Prop :=
  starts_with (id +:+ ":") k = true ∨ starts_with ("net:" +:+ id +:+ ":") k = true ∨ k ∈ exactKeys id ++ topKeys id.

(** Those that belong to no other run, for the runs that the journal showed at first. *)
Definition own_key w0 (id k : string) : Prop :=
  (starts_with (id +:+ ":") k = true ∧ ¬ (∃ n, neighbour w0 id n ∧ under n k = true)) ∨
  starts_with ("net:" +:+ id +:+ ":") k = true ∨ k ∈ exactKeys id ++ topKeys id.

Definition erased w0 (id : string) w : Prop := ∀ k, own_key w0 id k → jkey k w = None.

Record visited w0 (seen seen' : list string) w w' : Prop := Visited {
  vi_seen : seen ⊆ seen';
  vi_shrinks : shrinks w w';
  vi_frame : ∀ k, jkey k w' = jkey k w ∨ (∃ id, id ∈ seen' ∧ (id ∉ seen) ∧ footprint id k);
  vi_erased : ∀ id, id ∈ seen' → id ∉ seen → erased w0 id w';
}.

Lemma visited_refl w0 seen w : visited w0 seen seen w w.
Proof. split; [done|done|by left|done]. Qed.

Lemma visited_trans w0 s1 s2 s3 w1 w2 w3 :
  visited w0 s1 s2 w1 w2 → visited w0 s2 s3 w2 w3 → visited w0 s1 s3 w1 w3.
Proof.
  intros [I1 S1 F1 E1] [I2 S2 F2 E2]. split.
  - by etransitivity.
  - by etransitivity.
  - intros k. destruct (F2 k) as [->|(id & ? & ? & ?)]; [|right; exists id; split_and!; auto].
    destruct (F1 k) as [|(id & ? & ? & ?)]; [by left|right; exists id; split_and!; auto].
  - intros id H3 H1. destruct (decide (id ∈ s2)) as [H2|H2]; [|by apply E2].
    intros k Hk. destruct (sh_values _ _ S2 k) as [->|]; [by apply (E1 id)|done].
Qed.

Lemma owner_of_shrinks w w' k n : shrinks w w' → owner_of w' k = Some n → owner_of w k = Some n.
Proof.
  intros [_ Hv]. unfold owner_of, runIdOfKey. destruct (parseJournalKey k) as [[]|]; [done|].
  destruct (ends_with ":input" k); [|done]. destruct (Hv k) as [Hg|Hg]; rewrite Hg; [done|].
  cbn [from_option]. destruct (strip_suffix ":input" k); [|done]. by rewrite andb_false_r.
Qed.

Lemma neighbour_shrinks w w' id n : shrinks w w' → neighbour w' id n → neighbour w id n.
Proof.
  intros Hsh (Hne & Hp & k & Hin & Hk & Ho). split_and!; [done..|]. exists k.
  destruct (sh_keys _ _ Hsh k Hin) as [|Hu]; [|rewrite Hu in Hk; by apply has_char_starts in Hk].
  split_and!; [done..|by eapply owner_of_shrinks].
Qed.

Lemma foreign_spec ns k : foreign ns k = true ↔ ∃ n, n ∈ ns ∧ under n k = true.
Proof. unfold foreign. rewrite existsb_exists. by setoid_rewrite list_elem_of_In. Qed.

Lemma gone_footprint ns id k : gone ns id k = true → footprint id k.
Proof.
  unfold gone, owned_by_run, footprint. rewrite elem_of_app. intros Hg. repeat apply orb_true_iff in Hg as [Hg|Hg]; bool_to_prop; auto.
Qed.

Lemma own_key_gone w0 w ns id k :
  shrinks w0 w → (∀ n, n ∈ ns ↔ neighbour w id n) → own_key w0 id k → gone ns id k = true.
Proof.
  intros Hsh Hns [[Hp Hn]|[Hp|Hk]]; unfold gone, owned_by_run.
  - rewrite Hp. destruct (foreign ns k) eqn:Hf; [|done]. exfalso. apply Hn. apply foreign_spec in Hf as (n & Hin & Hu).
    exists n. split; [|done]. eapply neighbour_shrinks; [exact Hsh|by apply Hns].
  - by rewrite Hp, !orb_true_r.
  - apply elem_of_app in Hk as [Hk|Hk]; rewrite (bool_decide_eq_true_2 _ Hk); by rewrite ?orb_true_r.
Qed.

(** The deletions of one run, after its children have been visited. *)
Lemma purge_own_visits w0 id seen seen' w w' :
  shrinks w0 w → id ∉ seen → visited w0 (id :: seen) seen' w w' →
  ∃ n w'', purge_own h full_caps id w' = (Ok n, w'') ∧ visited w0 seen seen' w w''.
Proof.
  intros Hsh Hid [Hi Hs Hf He]. destruct (purge_own_spec h id w') as (ns & n & w'' & Hrun & Hs' & Hns & Hv).
  assert (Hid' : id ∈ seen') by (apply Hi; by left). exists n, w''. split; [done|]. split.
  - set_solver.
  - by etransitivity.
  - intros k. rewrite Hv. destruct (gone ns id k) eqn:Hg.
    + right. exists id. split_and!; [done..|by eapply gone_footprint].
    + destruct (Hf k) as [|(id' & ? & ? & ?)]; [by left|]. right. exists id'. split_and!; [done|set_solver|done].
  - intros id' Hin Hnot k Hk. rewrite Hv. destruct (decide (id' = id)) as [->|Hne].
    + rewrite (own_key_gone w0 w' ns id k); [done| |done..]. by etransitivity.
    + destruct (gone ns id k); [done|]. apply (He id'); [done| |done]. set_solver.
Qed.

Section Loops.
Variable w0 : world V Q.
Variable seen0 : list string.
Variable purge : string → list string → act (V:=V) (Q:=Q) (nat * list string).
Hypothesis purge_visits : ∀ id seen w, shrinks w0 w → seen0 ⊆ seen → id ∈ traced w0 →
  ∃ n seen' w', purge id seen w = (Ok (n, seen'), w') ∧ visited w0 seen seen' w w' ∧ id ∈ seen'.

Lemma purge_nested_visits children seen total w :
  shrinks w0 w → seen0 ⊆ seen →
  ∃ n seen' w', purge_nested h full_caps purge children seen total w = (Ok (n, seen'), w') ∧ visited w0 seen seen' w w' ∧
    ∀ c, c ∈ children → c ∈ seen' ∨ ¬ has_trace w' c.
Proof using purge_visits.
  revert seen total w. induction children as [|c children IH]; intros seen total w Hsh Hseen; cbn [purge_nested].
  - exists total, seen, w. split_and!; [done|apply visited_refl|]. intros c Hc. inversion Hc.
  - destruct (hasTrace_spec c w) as (b & Hrun & Hb). erewrite bind_ok by exact Hrun. destruct b.
    + destruct (purge_visits c seen w) as (n & s1 & w1 & Hp & Hv & Hc); [done..| |].
      { apply has_trace_traced. eapply has_trace_shrinks; [exact Hsh|by apply Hb]. }
      erewrite bind_ok by exact Hp. destruct (IH s1 (total + n) w1) as (m & s2 & w2 & Hp2 & Hv2 & Hc2).
      { etransitivity; [exact Hsh|apply Hv]. } { etransitivity; [exact Hseen|apply Hv]. }
      exists m, s2, w2. split_and!; [exact Hp2|by eapply visited_trans|].
      intros c' [->|Hin]%elem_of_cons; [|by apply Hc2]. left. by apply (vi_seen _ _ _ _ _ Hv2).
    + destruct (IH seen total w Hsh Hseen) as (m & s2 & w2 & Hp2 & Hv2 & Hc2). exists m, s2, w2. split_and!; [done..|].
      intros c' [->|Hin]%elem_of_cons; [|by apply Hc2]. right. intros Ht.
      enough (false = true) by done. apply Hb. eapply has_trace_shrinks; [apply Hv2|done].
Qed.

Lemma purge_tools_visits runId es seen total w :
  shrinks w0 w → seen0 ⊆ seen →
  ∃ n seen' w', purge_tools h full_caps purge runId es seen total w = (Ok (n, seen'), w') ∧ visited w0 seen seen' w w' ∧
    ∀ e c, e ∈ es → je_kind e = KTool → c ∈ nestedRuns runId (toolCallIdOf (je_key e)) → c ∈ seen' ∨ ¬ has_trace w' c.
Proof using purge_visits.
  revert seen total w. induction es as [|e es IH]; intros seen total w Hsh Hseen; cbn [purge_tools].
  - exists total, seen, w. split_and!; [done|apply visited_refl|]. intros e c He. inversion He.
  - destruct (je_kind e) eqn:Hkind.
    + destruct (IH seen total w Hsh Hseen) as (m & s2 & w2 & Hp2 & Hv2 & Hc2). exists m, s2, w2. split_and!; [done..|].
      intros e' c [->|Hin]%elem_of_cons; [congruence|by apply Hc2].
    + destruct (purge_nested_visits (nestedRuns runId (toolCallIdOf (je_key e))) seen total w Hsh Hseen) as (n & s1 & w1 & Hp & Hv & Hc).
      erewrite bind_ok by exact Hp. destruct (IH s1 n w1) as (m & s2 & w2 & Hp2 & Hv2 & Hc2).
      { etransitivity; [exact Hsh|apply Hv]. } { etransitivity; [exact Hseen|apply Hv]. }
      exists m, s2, w2. split_and!; [exact Hp2|by eapply visited_trans|].
      intros e' c [->|Hin]%elem_of_cons Hk Hin'; [|by eapply Hc2].
      destruct (Hc c Hin') as [Hs|Ht]; [left; by apply (vi_seen _ _ _ _ _ Hv2)|right].
      intros Ht2. apply Ht. eapply has_trace_shrinks; [apply Hv2|done].
Qed.

Lemma purge_kids_visits kids seen total w :
  shrinks w0 w → seen0 ⊆ seen → (∀ c, c ∈ kids → c ∈ traced w0) →
  ∃ n seen' w', purge_kids purge kids seen total w = (Ok (n, seen'), w') ∧ visited w0 seen seen' w w' ∧
    ∀ c, c ∈ kids → c ∈ seen'.
Proof using purge_visits.
  revert seen total w. induction kids as [|c kids IH]; intros seen total w Hsh Hseen Ht; cbn [purge_kids].
  - exists total, seen, w. split_and!; [done|apply visited_refl|]. intros c Hc. inversion Hc.
  - destruct (purge_visits c seen w) as (n & s1 & w1 & Hp & Hv & Hc); [done..|apply Ht; by left|].
    erewrite bind_ok by exact Hp. destruct (IH s1 (total + n) w1) as (m & s2 & w2 & Hp2 & Hv2 & Hc2).
    { etransitivity; [exact Hsh|apply Hv]. } { etransitivity; [exact Hseen|apply Hv]. } { intros; apply Ht; by right. }
    exists m, s2, w2. split_and!; [exact Hp2|by eapply visited_trans|].
    intros c' [->|Hin]%elem_of_cons; [by apply (vi_seen _ _ _ _ _ Hv2)|by apply Hc2].
Qed.
End Loops.

Lemma as_set_spec l acc x : x ∈ as_set l acc ↔ x ∈ acc ∨ x ∈ l.
Proof.
  revert acc. induction l as [|y l IH]; intros acc; cbn [as_set]; [set_solver|].
  rewrite IH. case_bool_decide; set_solver.
Qed.

Lemma index_colon s i : String.index 0 ":" s = Some i → ∃ r, s = String.substring 0 i s +:+ ":" +:+ r.
Proof.
  revert i. induction s as [|c s IH]; intros i; cbn [String.index]; [done|].
  destruct (String.prefix ":" (String c s)) eqn:Hp.
  - intros [= <-]. cbn [String.prefix] in Hp. destruct (Ascii.ascii_dec ":" c) as [<-|]; [|done]. by exists s.
  - destruct (String.index 0 ":" s) as [j|]; [|done]. intros [= <-]. destruct (IH j eq_refl) as [r Hr].
    exists r. change (String c s = String c (String.substring 0 j s +:+ ":" +:+ r)). by f_equal.
Qed.

Lemma netKids_trace id w c : c ∈ netKids id (mj_listKeys ("net:" +:+ id +:+ ":") (jr w)) → has_trace w c.
Proof.
  unfold netKids. rewrite as_set_spec. intros [Hc|Hc]; [inversion Hc|].
  apply list_elem_of_omap in Hc as (k & [Hp Hin]%elem_of_listing & Hk). apply starts_with_spec in Hp as [s Hs].
  rewrite Hs, slice_app in Hk. destruct (String.index 0 ":" s) as [[|i]|] eqn:Hi; [done| |done]. injection Hk as <-.
  apply index_colon in Hi as [r Hr]. revert Hr. generalize (String.substring 0 (S i) s). intros kid Hr.
  left. exists k. split; [done|]. apply starts_with_spec. exists r. rewrite Hs, Hr. cbn. by rewrite !str_app_assoc.
Qed.

(** ** The whole cascade *)

Definition unseen (seen : list string) w : nat := count_if (λ x, bool_decide (x ∉ seen)) (traced w).

Lemma unseen_lt seen seen' w x : seen ⊆ seen' → x ∈ traced w → x ∉ seen → x ∈ seen' → unseen seen' w < unseen seen w.
Proof.
  intros Hs Hx Hn Hy. apply (count_if_lt _ _ _ x); [|done| |].
  - intros y. rewrite !bool_decide_eq_true. set_solver.
  - apply bool_decide_eq_false. intros Hc. by apply Hc.
  - by apply bool_decide_eq_true.
Qed.

Lemma purgeRun_visits w0 fuel id seen w :
  shrinks w0 w → id ∈ seen ∨ unseen (id :: seen) w0 < fuel →
  ∃ n seen' w', purgeRun h full_caps fuel id seen false w = (Ok (n, seen'), w') ∧ visited w0 seen seen' w w' ∧ id ∈ seen' ∧
    (id ∉ seen → ∃ m w1, visited w0 (id :: seen) seen' w w1 ∧ purge_own h full_caps id w1 = (Ok m, w') ∧
      ∀ k c, parseJournalKey k = Some (id, KTool) → is_Some (jkey k w) → c ∈ nestedRuns id (toolCallIdOf k) →
        c ∈ seen' ∨ ¬ has_trace w1 c).
Proof.
  revert id seen w. induction fuel as [|fuel IH]; intros id seen w Hsh Hfuel; cbn [purgeRun].
  { destruct Hfuel as [Hin|]; [|lia]. rewrite bool_decide_eq_true_2 by done. exists 0, seen, w.
    split_and!; [done|apply visited_refl|done|done]. }
  case_bool_decide as Hid; [exists 0, seen, w; split_and!; [done|apply visited_refl|done|done]|].
  destruct Hfuel as [|Hfuel]; [done|]. erewrite bind_ok by done.
  destruct (uncount_world h id w) as (wu & Hun & Hsu & Hju). erewrite bind_ok by exact Hun.
  cbn [has_readRun has_listKeys full_caps].
  assert (Hrec : ∀ c s w, shrinks w0 w → id :: seen ⊆ s → c ∈ traced w0 →
    ∃ n s' w', purgeRun h full_caps fuel c s false w = (Ok (n, s'), w') ∧ visited w0 s s' w w' ∧ c ∈ s').
  { intros c s w' Hs' Hss Hc. destruct (IH c s w' Hs') as (n & s' & w2 & H1 & H2 & H3 & _); [|by exists n, s', w2].
    destruct (decide (c ∈ s)) as [|Hcs]; [by left|right].
    assert (unseen (c :: s) w0 < unseen (id :: seen) w0); [|lia].
    apply (unseen_lt _ _ _ c); [set_solver|done|set_solver|by left]. }
  destruct (purge_tools_visits w0 (id :: seen) _ Hrec id (mj_readRun id (jr wu)) (id :: seen) 0 wu)
    as (t1 & s1 & w1 & Ht & Hvt & Hct); [by etransitivity|done|].
  assert (Hsh1 : shrinks w0 w1) by (etransitivity; [exact Hsh|etransitivity; [exact Hsu|apply Hvt]]).
  destruct (purge_kids_visits w0 (id :: seen) _ Hrec (netKids id (mj_listKeys ("net:" +:+ id +:+ ":") (jr w1))) s1 t1 w1)
    as (t2 & s2 & w2 & Hk & Hvk & _); [done|apply Hvt| |].
  { intros c Hc%netKids_trace. by eapply has_trace_traced, has_trace_shrinks. }
  erewrite bind_ok. 2:{ erewrite (bind_ok _ _ _ _ wu) by reflexivity. exact Ht. }
  cbv beta iota.
  erewrite bind_ok. 2:{ erewrite (bind_ok _ _ _ _ w1) by reflexivity. exact Hk. }
  cbv beta iota.
  assert (Hvu : visited w0 (id :: seen) (id :: seen) w wu).
  { split; [done|done|intros k; left; apply Hju|done]. }
  assert (Hv : visited w0 (id :: seen) s2 w w2).
  { eapply visited_trans; [exact Hvu|]. by eapply visited_trans. }
  destruct (purge_own_visits w0 id seen s2 w w2 Hsh Hid Hv) as (n & w' & Hown & Hv').
  erewrite bind_ok by exact Hown. exists (t2 + n), s2, w'. split_and!; [done|done|apply Hv; by left|].
  intros _. exists n, w2. split_and!; [done..|]. intros k c Hp [v Hg] Hc.
  assert (Hin : (k, KTool, v) ∈ run_records id (store (jr wu))).
  { apply run_records_elem. split; [|done]. apply In_mget. by rewrite <- Hg, <- Hju. }
  apply (number_entries_has 0 _ id (times (jr wu))) in Hin as (e & He & <- & Hkind & _).
  destruct (Hct e c He Hkind Hc) as [Hs|Hs]; [left; by apply (vi_seen _ _ _ _ _ Hvk)|right].
  intros Ht'. apply Hs. eapply has_trace_shrinks; [apply Hvk|done].
Qed.

(** ** A purge asked for from outside *)

(** The journal once the ownership trace has been left. *)
Definition started (trace : bool) (id : string) w : world V Q := if trace then snd (leave_trace h id w) else w.

Lemma leave_trace_ok id w : leave_trace h id w = (Ok tt, snd (leave_trace h id w)).
Proof.
  unfold leave_trace. erewrite (bind_ok _ _ _ (jkey (rk_input id) w) w) by done.
  repeat case_match; [|done..]. by erewrite !(bind_ok _ _ _ (wall w) w) by done.
Qed.

Lemma purgeRun_started fuel id trace w :
  purgeRun h full_caps (S fuel) id [] trace w = purgeRun h full_caps (S fuel) id [] false (started trace id w).
Proof.
  unfold started. destruct trace; [|done]. cbn [purgeRun]. rewrite bool_decide_eq_false_2 by set_solver.
  erewrite bind_ok by apply leave_trace_ok. by erewrite (bind_ok (mret tt)) by done.
Qed.

Lemma unseen_le seen w : unseen seen w ≤ length (traced w).
Proof. unfold unseen, count_if. apply length_filter. Qed.

Lemma purgeRun_top fuel id trace w :
  let w0 := started trace id w in length (traced w0) < fuel →
  ∃ n seen w', purgeRun h full_caps fuel id [] trace w = (Ok (n, seen), w') ∧ visited w0 [] seen w0 w' ∧ id ∈ seen ∧
    ∃ m w1, visited w0 [id] seen w0 w1 ∧ purge_own h full_caps id w1 = (Ok m, w') ∧
      ∀ k c, parseJournalKey k = Some (id, KTool) → is_Some (jkey k w0) → c ∈ nestedRuns id (toolCallIdOf k) →
        c ∈ seen ∨ ¬ has_trace w1 c.
Proof.
  intros w0 Hfuel. destruct fuel as [|fuel]; [lia|].
  destruct (purgeRun_visits w0 (S fuel) id [] w0) as (n & seen & w' & Hrun & Hv & Hid & Hmore).
  { done. } { right. pose proof (unseen_le [id] w0). lia. }
  exists n, seen, w'. rewrite purgeRun_started. split_and!; [done..|]. apply Hmore. set_solver.
Qed.

(** C21: A purge ends when its fuel exceeds the number of runs the journal shows, whatever cycles
    the calls form.  The run and every run its tool calls started are erased: no key of theirs
    is left but those of a run whose id extends the id.  Every other stored value is left as it
    was, or is a key of a run that was visited. *)
Theorem purge_erases_cascade (fuel : nat) (id : string) (trace : bool) w :
  let w0 := started trace id w in length (traced w0) < fuel →
  ∃ n seen w', purgeRun h full_caps fuel id [] trace w = (Ok (n, seen), w') ∧ id ∈ seen ∧
    (∀ x, x ∈ seen → erased w0 x w') ∧
    (∀ k c k', parseJournalKey k = Some (id, KTool) → is_Some (jkey k w0) → c ∈ nestedRuns id (toolCallIdOf k) →
       starts_with (c +:+ ":") k' = true → ¬ (∃ m, neighbour w0 c m ∧ under m k' = true) → jkey k' w' = None) ∧
    (∀ k, jkey k w' = jkey k w0 ∨ (jkey k w' = None ∧ ∃ x, x ∈ seen ∧ footprint x k)).
Proof.
  intros w0 Hfuel. destruct (purgeRun_top fuel id trace w Hfuel) as (n & seen & w' & Hrun & Hv & Hid & m & w1 & Hv1 & Hown & Hc).
  exists n, seen, w'. split_and!; [done..| | |].
  - intros x Hx. apply (vi_erased _ _ _ _ _ Hv); [done|set_solver].
  - intros k c k' Hp Hk Hch Hs Hn. destruct (Hc k c Hp Hk Hch) as [Hin|Ht].
    + apply (vi_erased _ _ _ _ _ Hv c Hin); [set_solver|by left].
    + destruct (purge_own_spec h id w1) as (ns & n' & w2 & Hown' & _ & _ & Hval). rewrite Hown' in Hown. injection Hown as _ <-.
      rewrite Hval. destruct (gone ns id k'); [done|]. destruct (jkey k' w1) as [v|] eqn:Hg; [|done].
      exfalso. apply Ht. left. exists k'. split; [by eapply shown_stored|done].
  - intros k. destruct (vi_frame _ _ _ _ _ Hv k) as [|(x & ? & _ & ?)]; [by left|].
    destruct (sh_values _ _ (vi_shrinks _ _ _ _ _ Hv) k); [by left|right]. eauto.
Qed.

(** C25: A run whose id extends the purged one keeps what it has, provided one of its records says
    that it is a run: unless another run of the cascade owns that key, or that record. *)
Theorem purge_keeps_neighbours (fuel : nat) (id m k record : string) (trace : bool) w n seen w' :
  let w0 := started trace id w in length (traced w0) < fuel →
  purgeRun h full_caps fuel id [] trace w = (Ok (n, seen), w') →
  starts_with (id +:+ ":") m = true → m ≠ id → under m k = true →
  starts_with (id +:+ ":") record = true → is_Some (jkey record w0) → owner_of w0 record = Some m →
  (∀ x, x ∈ seen → x ≠ id → ¬ footprint x k ∧ ¬ footprint x record) →
  starts_with ("net:" +:+ id +:+ ":") k = false → k ∉ exactKeys id ++ topKeys id →
  jkey k w' = jkey k w0.
Proof.
  intros w0 Hfuel Hrun Hm Hne Hu Hp Hrec Ho Hx Hnet Hex.
  destruct (purgeRun_top fuel id trace w Hfuel) as (n' & seen' & w'' & Hrun' & _ & _ & n2 & w1 & Hv1 & Hown & _).
  rewrite Hrun' in Hrun. injection Hrun as _ -> ->.
  assert (Hsame : ∀ y, (∀ x, x ∈ seen → x ≠ id → ¬ footprint x y) → jkey y w1 = jkey y w0).
  { intros y Hy. destruct (vi_frame _ _ _ _ _ Hv1 y) as [|(x & Hin & Hni & Hf)]; [done|].
    exfalso. apply (Hy x Hin); [|done]. intros ->. apply Hni. by left. }
  destruct (purge_own_spec h id w1) as (ns & n3 & w3 & Hown' & _ & Hns & Hval).
  rewrite Hown' in Hown. injection Hown as _ ->. rewrite Hval, Hsame by (intros; by apply Hx).
  enough (Hg : gone ns id k = false) by by rewrite Hg.
  unfold gone, owned_by_run. rewrite Hnet, orb_false_r. rewrite elem_of_app in Hex.
  rewrite !bool_decide_eq_false_2 by tauto. rewrite !orb_false_r.
  assert (Hf : foreign ns k = true); [|by rewrite Hf, andb_false_r]. apply foreign_spec. exists m. split; [|done].
  apply Hns. split_and!; [done..|]. destruct Hrec as [v Hv]. exists record.
  assert (Hr1 : jkey record w1 = jkey record w0) by (apply Hsame; intros; by apply Hx).
  split_and!; [eapply shown_stored; by rewrite Hr1|done|]. revert Ho. unfold owner_of. by rewrite Hr1.
Qed.
End Cascade.

(** ** The purge the rest of the library calls: with the fuel its journal calls for *)

Section Purge.
Context {V : Type} `{!JsValue V, !Embed organization_usage V, !Embed pricing_doc V, !Embed js V} {Q R : Type}.
Variable h : oracle Q R retention_error.
Variable caps : journal_caps.

Definition purge (trace : bool) (id : string) : act (V:=V) (Q:=Q) nat := λ w,
  match purgeRun h caps (S (length (traced (started h trace id w)))) id [] trace w with
  | (Ok (n, _), w') => (Ok n, w')
  | (Err e, w') => (Err e, w')
  end.
End Purge.

(** ** Examples *)

Section CascadeWitnesses.
Let h0 : oracle unit unit retention_error := λ _ _, Ok tt.
Let put k v (j : mem_journal budget_entry) := mj_put 0 k v j.
Let at_ (j : mem_journal budget_entry) : world budget_entry unit := World j 0 7 [] empty_work.
Let stamped (l : list (string * js)) : budget_entry := BEntry (EJs (JObj (("_v", JNum 1) :: l))).
Let text (s : string) : budget_entry := BEntry (EJs (JStr s)).

(** The run [conv] with a sub-agent, and the run [conv:msg1] of the chat beside it, which has a
    network child. *)
Let j1 : mem_journal budget_entry :=
  put "net:conv:msg1:0:input" (stamped [("network", JStr "planner")])
    (put "conv:msg1:model:0" (tokens_record 9) (put "conv:msg1:input" (stamped [("prompt", JStr "hello")])
    (put "agent:conv:t1:model:0" (tokens_record 5) (put "agent:conv:t1:input" (stamped [("prompt", JStr "sub")])
    (put "mem-appended:conv2" (text "2") (put "mem-appended:conv" (text "1") (put "wfrun:conv" (text "done")
    (put "conv:tool:t1" (stamped [("status", JStr "succeeded")])
    (put "conv:input" (stamped [("prompt", JStr "hi"); ("resourceId", JStr "ayse"); ("threadId", JStr "th-1")]) empty_journal))))))))).

Let after (id : string) : world budget_entry unit := snd (purgeRun h0 full_caps 20 id [] true (at_ j1)).

Lemma traced_j1 : length (traced (started h0 true "conv" (at_ j1))) < 20.
Proof. vm_compute. lia. Qed.

Example purged_conv :
  mkeys (store (jr (after "conv"))) =
    ["conv:msg1:input"; "conv:msg1:model:0"; "resthr:ayse:th-1"; "mem-appended:conv2"].
Proof. vm_compute. reflexivity. Qed.

Lemma purge_erases_cascade_witness :
  ∃ n seen w', purgeRun h0 full_caps 20 "conv" [] true (at_ j1) = (Ok (n, seen), w') ∧ "conv" ∈ seen ∧
    jkey "agent:conv:t1:model:0" w' = None.
Proof.
  destruct (purge_erases_cascade h0 20 "conv" true (at_ j1) traced_j1) as (n & seen & w' & Hrun & Hid & _ & Hch & _).
  exists n, seen, w'. split; [exact Hrun|]. split; [exact Hid|].
  apply (Hch "conv:tool:t1" "agent:conv:t1" "agent:conv:t1:model:0").
  - reflexivity.
  - vm_compute. by eexists.
  - apply (bool_decide_unpack _). vm_compute. exact I.
  - reflexivity.
  - intros (m & (Hne & Hp & k & Hk & Hs & Ho) & Hu).
    assert (Hd : Forall (λ k, starts_with "agent:conv:t1:" k = true → owner_of (started h0 true "conv" (at_ j1)) k = Some "agent:conv:t1")
                   (shown (started h0 true "conv" (at_ j1)))).
    { apply (bool_decide_unpack _). vm_compute. exact I. }
    rewrite Forall_forall in Hd. specialize (Hd k Hk Hs). congruence.
Defined.

Lemma purge_keeps_neighbours_witness : jkey "conv:msg1:model:0" (after "conv") = Some (tokens_record 9).
Proof.
  refine (purge_keeps_neighbours h0 20 "conv" "conv:msg1" "conv:msg1:model:0" "conv:msg1:input" true (at_ j1)
            (fst (from_option id (0, []) (match fst (purgeRun h0 full_caps 20 "conv" [] true (at_ j1)) with Ok x => Some x | Err _ => None end)))
            ["net:conv:msg1"; "agent:conv:t1"; "conv"] (after "conv") traced_j1 _ _ _ _ _ _ _ _ _ _).
  - vm_compute. reflexivity.
  - reflexivity.
  - discriminate.
  - reflexivity.
  - reflexivity.
  - vm_compute. by eexists.
  - vm_compute. reflexivity.
  - assert (Hd : Forall (λ x, x ≠ "conv" → ¬ (starts_with (x +:+ ":") "conv:msg1:model:0" = true ∨ starts_with ("net:" +:+ x +:+ ":") "conv:msg1:model:0" = true ∨ "conv:msg1:model:0" ∈ exactKeys x ++ topKeys x)
      ∧ ¬ (starts_with (x +:+ ":") "conv:msg1:input" = true ∨ starts_with ("net:" +:+ x +:+ ":") "conv:msg1:input" = true ∨ "conv:msg1:input" ∈ exactKeys x ++ topKeys x))
      ["net:conv:msg1"; "agent:conv:t1"; "conv"]).
    { apply (bool_decide_unpack _). vm_compute. exact I. }
    rewrite Forall_forall in Hd. exact Hd.
  - reflexivity.
  - apply (bool_decide_unpack _). vm_compute. exact I.
Defined.

(** The network children of the neighbour are taken all the same. *)
Example neighbours_network_is_taken :
  jkey "net:conv:msg1:0:input" (at_ j1) = Some (stamped [("network", JStr "planner")]) ∧
  jkey "net:conv:msg1:0:input" (after "conv") = None ∧ is_Some (jkey "conv:msg1:input" (after "conv")).
Proof. vm_compute. split_and!; [reflexivity|reflexivity|by eexists]. Qed.
End CascadeWitnesses.
