(* ===== verification/RetentionSweep.v ===== *)
(** * RetentionSweep: sweeping what is old

    Models the sweeps of [packages/durable/src/retention.ts]: runs by the age of their last
    key (the indexed query) or of their last record (the scan), tombstones, ghosts, the
    entries of a durable log, the round of the periodic sweeper, and the erasure of a batch
    and of an organization.  [identityOnlyInput] is the predicate of [run.ts] that the scan
    asks.  Times are integers; a record's [at] counts when it is a finite number.  The timer of
    the periodic sweeper is not modelled. *)

From stdpp Require Import sorting.
From S2P Require Import Prelude JsMap Keys Journal Org Work Prog Claim Json Hash Format Taint RunIdentity Cost ToolTypes Limits RunCost Budget BudgetUsage Retention RetentionFacts RetentionCascade.

Record sweep_options := SweepOptions {
  so_olderThanMs : Z;
  so_keepSuspended : option bool;
  so_suspendedTtlMs : option Z;
  so_tombstones : bool;
  so_now : option Z;
}.

Record run_tombstone := RunTombstone {
  rt_at : Z;
  rt_workKeyHash : option string;
  rt_workScope : option string;
}.

(** [skippedGhosts] is absent when empty. *)
Record sweep_result := SweepResult {
  sr_scanned : nat;
  sr_purged : list string;
  sr_keptSuspended : nat;
  sr_keptNoTs : nat;
  sr_deletedEntries : nat;
  sr_skippedGhosts : list string;
}.

Definition nothing_swept (scanned : nat) : sweep_result := SweepResult scanned [] 0 0 0 [].
Definition scanned_one (r : sweep_result) : sweep_result :=
  SweepResult (S (sr_scanned r)) (sr_purged r) (sr_keptSuspended r) (sr_keptNoTs r) (sr_deletedEntries r) (sr_skippedGhosts r).
Definition kept_suspended (r : sweep_result) : sweep_result :=
  SweepResult (sr_scanned r) (sr_purged r) (S (sr_keptSuspended r)) (sr_keptNoTs r) (sr_deletedEntries r) (sr_skippedGhosts r).
Definition kept_undated (r : sweep_result) : sweep_result :=
  SweepResult (sr_scanned r) (sr_purged r) (sr_keptSuspended r) (S (sr_keptNoTs r)) (sr_deletedEntries r) (sr_skippedGhosts r).
Definition refused_ghost (id : string) (r : sweep_result) : sweep_result :=
  SweepResult (sr_scanned r) (sr_purged r) (sr_keptSuspended r) (sr_keptNoTs r) (sr_deletedEntries r) (sr_skippedGhosts r ++ [id]).
Definition swept (id : string) (n : nat) (r : sweep_result) : sweep_result :=
  SweepResult (sr_scanned r) (sr_purged r ++ [id]) (sr_keptSuspended r) (sr_keptNoTs r) (sr_deletedEntries r + n) (sr_skippedGhosts r).

Record log_item := LogItem { li_id : js; li_key : string; li_payload : js; li_at : Z }.

Record log_sweep_options := LogSweepOptions {
  ls_olderThanMs : Z;
  ls_markerFor : option (log_item → list string);
  ls_now : option Z;
}.

Record log_sweep_result := LogSweepResult {
  lsr_scanned : nat;
  lsr_deleted : nat;
  lsr_keptNoTs : nat;
  lsr_deletedMarkers : nat;
}.

(** A record of a log as it was read: the record, when it was written, and whether it is due. *)
Record log_entry := LogEntry { le_rec : js; le_at : Z; le_expired : bool }.

Record sweep_summary := SweepSummary { ss_purgedRuns : nat; ss_deletedLog : nat }.

Definition orgPurgedKey (orgId : string) : string := "__org_purged__:" +:+ orgId.
Definition sweptKey (runId : string) : string := runId +:+ ":swept".

(** [typeof v === 'number']. *)
Definition as_number (v : js) : option Z := match v with JNum z => Some z | _ => None end.

Definition max_of (l : list Z) : option Z :=
  match l with [] => None | x :: l' => Some (fold_left Z.max l' x) end.

Definition tomb_doc (t : run_tombstone) : js :=
  JObj (("at", JNum (rt_at t)) ::
        match rt_workKeyHash t with Some x => [("workKeyHash", JStr x)] | None => [] end ++
        match rt_workScope t with Some x => [("workScope", JStr x)] | None => [] end).

(** An unexpired key that extends this one, among those that follow it in order. *)
Fixpoint blocked (expired : string → bool) (key : string) (rest : list string) : bool :=
  match rest with
  | [] => false
  | k :: rest' => if starts_with key k then negb (expired k) || blocked expired key rest' else false
  end.

Section Sweep.
Context {V : Type} `{!JsValue V, !Embed organization_usage V, !Embed pricing_doc V, !Embed js V} {Q R : Type}.
Variable h : oracle Q R retention_error.
Variable caps : journal_caps.
Variable sha256 : string → string.
Variable canStale : bool.        (** the journal has [listStaleRuns] *)
Variable canPage : bool.         (** and [listRunsPaged] *)
Variable pages : nat.            (** a bound on the pages of runs *)
Abbreviation act := (act (V:=V) (Q:=Q)).

Definition jr_listStaleRuns (cutoff : Z) (includeSuspended : bool) : act (list string) := λ w,
  (Ok (mj_listStaleRuns cutoff includeSuspended (jr w)), w).
Definition jr_listRunsPaged (limit : nat) (cursor : option string) : act (list run_summary * option string) := λ w,
  (Ok (mj_listRunsPaged (RunQuery (Some limit) cursor None None None None) (jr w)), w).

Definition js_view (v : option V) : js := default JUndef (v ≫= prj).

(** The name tag of a workflow, network or batch run. *)
Definition identityOnlyInput (frozen : option V) : option (string * option string) :=
  v ← frozen;
  kind ← List.find (λ k, bool_decide (is_Some (str_field v k))) ["workflow"; "network"; "batch"];
  if existsb (λ f, negb (bool_decide (prop (js_view frozen) f = JUndef))) ["prompt"; "messages"; "system"] then None
  else Some (kind, truthy (str_field v kind)).

Definition isRealRun (runId : string) : act bool :=
  catching (λ _, mret true)
    (v ← jr_get h (rk_input runId);
     mret (bool_decide (runIdOfKey (rk_input runId) (from_option is_versioned false v) = Some runId))).

Definition tombstoneFor (runId : string) (at_ : Z) : act run_tombstone :=
  frozen ← catching (λ _, mret None) (jr_get h (rk_input runId));
  let hash := workKeyHash sha256 <$> (frozen ≫= λ v, truthy (str_field v "workKey")) in
  let scope := match prop (prop (js_view frozen) "workScope") "kind" with
               | JStr k => if String.eqb k "resource" || String.eqb k "org" then Some k else None
               | _ => None
               end in
  mret (RunTombstone at_ hash scope).

(** A run that is due: refused when no run ever wrote it, else purged, and marked. *)
Definition sweep_run (now : Z) (tombstones : bool) (runId : string) (r : sweep_result) : act sweep_result :=
  real ← isRealRun runId;
  if real : bool then
    tomb ← (if tombstones then t ← tombstoneFor runId now; mret (Some t) else mret None);
    n ← purge h caps true runId;
    _ ← match tomb with Some t => jr_put h (sweptKey runId) (inj (tomb_doc t)) | None => mret tt end;
    mret (swept runId n r)
  else mret (refused_ghost runId r).

Fixpoint sweep_stale (now : Z) (tombstones : bool) (ids : list string) (r : sweep_result) : act sweep_result :=
  match ids with
  | [] => mret r
  | id :: ids' => r' ← sweep_run now tombstones id r; sweep_stale now tombstones ids' r'
  end.

(** *** The scan *)

Fixpoint all_run_pages (n : nat) (cursor : option string) : act (list string) :=
  match n with
  | 0 => throw PurgeOutOfFuel
  | S n' =>
      '(items, next) ← jr_listRunsPaged 500 cursor;
      rest ← match truthy next with Some c => all_run_pages n' (Some c) | None => mret [] end;
      mret (map rs_runId items ++ rest)
  end.

Definition all_runs : act (list string) :=
  if canPage then all_run_pages pages None
  else '(items, _) ← run h (request (RListRuns None)); mret (map rs_runId items).

(** When a run was last active: its newest record, or, for a name tag, when it was written. *)
Definition last_activity (runId : string) (entries : list (journal_entry V)) : act (option Z) :=
  match max_of (omap je_ts entries) with
  | Some t => mret (Some t)
  | None =>
      frozen ← jr_get h (rk_input runId);
      mret (match identityOnlyInput frozen with Some _ => as_number (prop (js_view frozen) "at") | None => None end)
  end.

Inductive verdict := KeepSuspended | KeepUndated | KeepFresh | Due.

Definition verdict_of (now : Z) (o : sweep_options) (suspended : bool) (last : option Z) : verdict :=
  let expired := match so_suspendedTtlMs o, last with Some ttl, Some t => (ttl <? now - t)%Z | _, _ => false end in
  if default true (so_keepSuspended o) && suspended && negb expired then KeepSuspended
  else match last with
       | None => KeepUndated
       | Some t => if (so_olderThanMs o <? now - t)%Z || (suspended && expired) then Due else KeepFresh
       end.

Definition scan_run (now : Z) (o : sweep_options) (runId : string) (r : sweep_result) : act sweep_result :=
  entries ← jr_readRun h runId;
  let '(status, _, _) := summarizeRun runId (map (λ e, (je_kind e, je_value e)) entries) None in
  last ← last_activity runId entries;
  match verdict_of now o (bool_decide (status = RSuspended)) last with
  | KeepSuspended => mret (kept_suspended (scanned_one r))
  | KeepUndated => mret (kept_undated (scanned_one r))
  | KeepFresh => mret (scanned_one r)
  | Due => sweep_run now (so_tombstones o) runId (scanned_one r)
  end.

Fixpoint scan_runs (now : Z) (o : sweep_options) (ids : list string) (r : sweep_result) : act sweep_result :=
  match ids with
  | [] => mret r
  | id :: ids' => r' ← scan_run now o id r; scan_runs now o ids' r'
  end.

Definition sweepRuns (o : sweep_options) : act sweep_result :=
  if negb (has_readRun caps) then throw (RetentionNeeds "listRuns/readRun")
  else
    now ← match so_now o with Some n => mret n | None => jr_dateNow h end;
    match so_suspendedTtlMs o with
    | None =>
        if canStale then
          stale ← jr_listStaleRuns (now - so_olderThanMs o) (negb (default true (so_keepSuspended o)));
          sweep_stale now (so_tombstones o) stale (nothing_swept (length stale))
        else ids ← all_runs; scan_runs now o ids (nothing_swept 0)
    | Some _ => ids ← all_runs; scan_runs now o ids (nothing_swept 0)
    end.

(** *** Logs *)

Fixpoint read_log (now olderThanMs : Z) (keys : list string) : act (list (string * log_entry) * nat) :=
  match keys with
  | [] => mret ([], 0)
  | key :: keys' =>
      rec ← jr_get h key;
      '(rest, undated) ← read_log now olderThanMs keys';
      mret (match rec with
            | None => (rest, undated)
            | Some _ => match as_number (prop (js_view rec) "at") with
                        | None => (rest, S undated)
                        | Some t => ((key, LogEntry (js_view rec) t (olderThanMs <? now - t)%Z) :: rest, undated)
                        end
            end)
  end.

Definition log_item_of (prefix key : string) (e : log_entry) : log_item :=
  LogItem (match prop (le_rec e) "id" with
           | JUndef | JNull => JStr (slice (String.length prefix) key)
           | v => v
           end) key (prop (le_rec e) "payload") (le_at e).

Fixpoint del_all (ks : list string) : act nat :=
  match ks with
  | [] => mret 0
  | k :: ks' => n ← del k; m ← del_all ks'; mret (n + m)
  end.

Definition expired_in (records : list (string * log_entry)) (key : string) : bool :=
  match mget key records with Some e => le_expired e | None => false end.

Fixpoint sweep_entries (prefix : string) (o : log_sweep_options) (records : list (string * log_entry))
    (keys : list string) (r : log_sweep_result) : act log_sweep_result :=
  match keys with
  | [] => mret r
  | key :: rest =>
      match mget key records with
      | Some e =>
          if le_expired e && negb (blocked (expired_in records) key rest) then
            n ← del key;
            m ← match ls_markerFor o with
                | Some f => if 0 <? n then del_all (f (log_item_of prefix key e)) else mret 0
                | None => mret 0
                end;
            sweep_entries prefix o records rest
              (LogSweepResult (lsr_scanned r) (lsr_deleted r + n) (lsr_keptNoTs r) (lsr_deletedMarkers r + m))
          else sweep_entries prefix o records rest r
      | None => sweep_entries prefix o records rest r
      end
  end.

Definition sorted_keys : list string → list string := merge_sort String.le.

Definition sweepLog (ns : string) (o : log_sweep_options) : act log_sweep_result :=
  if negb (has_listKeys caps) then throw (RetentionNeeds "listKeys")
  else
    now ← match ls_now o with Some n => mret n | None => jr_dateNow h end;
    let prefix := ns +:+ ":" in
    listed ← jr_listKeys h prefix;
    let keys := sorted_keys listed in
    '(records, undated) ← read_log now (ls_olderThanMs o) keys;
    sweep_entries prefix o records keys (LogSweepResult (length keys) 0 undated 0).

(** *** One round of the periodic sweeper: a part that fails does not stop the others *)

Fixpoint sweep_logs (targets : list (string * log_sweep_options)) (deletedLog : nat) : act nat :=
  match targets with
  | [] => mret deletedLog
  | (ns, o) :: rest =>
      n ← catching (λ _, mret deletedLog) (res ← sweepLog ns o; mret (deletedLog + lsr_deleted res));
      sweep_logs rest n
  end.

Definition runOnce (sweep : sweep_options) (logTargets : list (string * log_sweep_options)) : act sweep_summary :=
  purgedRuns ← catching (λ _, mret 0) (res ← sweepRuns sweep; mret (length (sr_purged res)));
  deletedLog ← sweep_logs logTargets 0;
  mret (SweepSummary purgedRuns deletedLog).

(** *** Whole namespaces *)

Definition purgeBatch (batchId : string) : act nat :=
  if has_char colon batchId then throw (ColonInId batchId) else del ("batch:" +:+ batchId +:+ ":").

Definition purgeOrganization (orgId : string) (now : option Z) : act nat :=
  if has_char colon orgId then throw (ColonInId orgId)
  else
    n ← del ("org:" +:+ orgId +:+ ":");
    at_ ← match now with Some t => mret t | None => jr_dateNow h end;
    _ ← jr_put h (orgPurgedKey orgId) (inj (JObj [("at", JNum at_)]));
    mret n.
End Sweep.
