(* ===== verification/RetentionSweepFacts.v ===== *)
(** * RetentionSweepFacts: what a sweep takes and what it leaves

    A log is swept exactly; a run is swept only when every key of it is old and nothing of it
    waits; two ways in which the sweep of runs does not do what it says. *)

From stdpp Require Import sorting.
From S2P Require Import Prelude JsMap Keys Journal Org Work Prog Claim Json Hash Format Taint RunIdentity Cost ToolTypes Limits RunCost Budget BudgetUsage Retention RetentionFacts RetentionCascade RetentionSweep.

(** ** The extensions of a key are together in a sorted list *)

Lemma leb_cons c a d b :
  String.le (String c a) (String d b) ↔
    match Ascii.compare c d with Lt => True | Eq => String.le a b | Gt => False end.
Proof.
  unfold String.le, String.leb. cbn [String.compare]. destruct (Ascii.compare c d); [done|by split|].
  split; [intros H; inversion H|done].
Qed.

Lemma starts_with_cons c e d k : starts_with (String c e) (String d k) = Ascii.eqb c d && starts_with e k.
Proof. rewrite !starts_with_strip. cbn [strip_prefix]. by destruct (Ascii.eqb c d). Qed.

Lemma starts_with_trans a b c : starts_with a b = true → starts_with b c = true → starts_with a c = true.
Proof. intros [x ->]%starts_with_spec [y ->]%starts_with_spec. rewrite str_app_assoc. apply starts_with_app. Qed.

Lemma prefix_le e k : starts_with e k = true → String.le e k.
Proof.
  revert k. induction e as [|c e IH]; intros [|d k]; [done|done|done|].
  rewrite starts_with_cons, leb_cons. intros [Hc Hs]%andb_true_iff. apply Ascii.eqb_eq in Hc as ->.
  replace (Ascii.compare d d) with Eq; [by apply IH|]. symmetry. by apply N.compare_eq_iff.
Qed.

Lemma prefix_between e x k : starts_with e k = true → String.le e x → String.le x k → starts_with e x = true.
Proof.
  revert x k. induction e as [|c e IH]; intros [|d x] [|f k]; try done.
  rewrite !starts_with_cons, !leb_cons. intros [Hc Hs]%andb_true_iff. apply Ascii.eqb_eq in Hc as ->.
  destruct (Ascii.compare f d) eqn:H1; [|intros _|done].
  - apply Ascii.compare_eq_iff in H1 as ->. rewrite Ascii.eqb_refl.
    replace (Ascii.compare d d) with Eq by (symmetry; by apply N.compare_eq_iff). intros Hx Hk. cbn [andb]. by eapply IH.
  - rewrite Ascii.compare_antisym, H1. done.
Qed.

Lemma blocked_spec (expired : string → bool) pre e rest :
  StronglySorted String.le (pre ++ e :: rest) → expired e = true →
  blocked expired e rest = false ↔ ∀ k, k ∈ pre ++ e :: rest → starts_with e k = true → expired k = true.
Proof.
  intros [Hpre [_ Hs]]%StronglySorted_app He. apply StronglySorted_cons in Hs as [Hrest Hs].
  assert (Hr : blocked expired e rest = false ↔ ∀ k, k ∈ rest → starts_with e k = true → expired k = true).
  { clear Hpre. induction Hs as [|x l Hl IH Hx]; cbn [blocked]; [split; [intros _ k Hk; inversion Hk|done]|].
    apply Forall_cons in Hrest as [Hex Hrest]. destruct (starts_with e x) eqn:Hp.
    - rewrite orb_false_iff, negb_false_iff, (IH Hrest). setoid_rewrite elem_of_cons. naive_solver.
    - split; [|done]. intros _ k [->|Hk]%elem_of_cons Hk'; [congruence|]. rewrite Forall_forall in Hx.
      pose proof (prefix_between e x k Hk' Hex (Hx k Hk)). congruence. }
  rewrite Hr. split.
  - intros Hall k [Hk|[->|Hk]%elem_of_cons]%elem_of_app Hp; [|done|by apply Hall].
    assert (k = e) as ->; [|done]. apply (anti_symm String.le); [|by apply prefix_le].
    apply Hpre; [done|by left].
  - intros Hall k Hk. apply Hall. apply elem_of_app. right. by right.
Qed.

Section Logs.
Context {V : Type} `{!JsValue V, !Embed organization_usage V, !Embed pricing_doc V, !Embed js V} {Q R : Type}.
Variable h : oracle Q R retention_error.
Implicit Types w : world V Q.

(** An entry that is too old, for the age its record states. *)
Definition overdue (now olderThanMs : Z) w (k : string) : bool :=
  match jkey k w with
  | Some v => match as_number (prop (js_view (Some v)) "at") with Some t => (olderThanMs <? now - t)%Z | None => false end
  | None => false
  end.

(** An overdue entry whose extensions are all overdue. *)
Definition removable (now olderThanMs : Z) (ns : string) w (k : string) : bool :=
  overdue now olderThanMs w k && starts_with (ns +:+ ":") k &&
  forallb (λ k', negb (starts_with k k') || overdue now olderThanMs w k') (shown w).

Lemma read_log_spec now older keys w :
  ∃ records undated, read_log h now older keys w = (Ok (records, undated), w) ∧
    (∀ k e, mget k records = Some e → le_expired e = overdue now older w k) ∧
    (∀ k, k ∈ keys → overdue now older w k = true → is_Some (mget k records)) ∧
    undated = count_if (λ k, match jkey k w with
                             | Some v => negb (bool_decide (is_Some (as_number (prop (js_view (Some v)) "at"))))
                             | None => false end) keys.
Proof.
  induction keys as [|k keys (records & undated & Hrun & He & Hd & Hu)]; cbn [read_log].
  - exists [], 0. split_and!; [done|done| |done]. intros k Hk. inversion Hk.
  - erewrite (bind_ok _ _ _ (jkey k w) w) by done. erewrite bind_ok by exact Hrun. cbv beta iota.
    rewrite count_if_cons, <- Hu. destruct (jkey k w) as [v|] eqn:Hk.
    + destruct (as_number _) as [t|] eqn:Ht; eexists _, _; (split; [done|]).
      * split_and!; [| |done].
        -- intros k' e. cbn [mget]. destruct (String.eqb_spec k' k) as [->|]; [|apply He].
           intros [= <-]. unfold overdue. by rewrite Hk, Ht.
        -- intros k' Hin Hov. cbn [mget]. destruct (String.eqb_spec k' k) as [->|]; [by eexists|]. apply Hd; [set_solver|done].
      * split_and!; [done| |done]. intros k' [->|Hin]%elem_of_cons Hov; [|by apply Hd].
        unfold overdue in Hov. by rewrite Hk, Ht in Hov.
    + eexists _, _. split; [done|]. split_and!; [done| |done]. intros k' [->|Hin]%elem_of_cons Hov; [|by apply Hd].
      unfold overdue in Hov. by rewrite Hk in Hov.
Qed.

Lemma sweep_entries_spec now older ns w0 records pre keys r w :
  StronglySorted String.le (pre ++ keys) → (∀ k, k ∈ pre ++ keys ↔ starts_with (ns +:+ ":") k = true ∧ k ∈ shown w0) →
  (∀ k e, mget k records = Some e → le_expired e = overdue now older w0 k) →
  (∀ k, k ∈ pre ++ keys → overdue now older w0 k = true → is_Some (mget k records)) →
  ∃ r' w', sweep_entries (ns +:+ ":") (LogSweepOptions older None (Some now)) records keys r w = (Ok r', w') ∧
    lsr_scanned r' = lsr_scanned r ∧ lsr_keptNoTs r' = lsr_keptNoTs r ∧
    ∀ k, jkey k w' = if existsb (λ e, removable now older ns w0 e && starts_with e k) keys then None else jkey k w.
Proof.
  intros Hsort Hkeys He Hd. revert pre r w Hsort Hkeys Hd. induction keys as [|e keys IH]; intros pre r w Hsort Hkeys Hd; cbn [sweep_entries existsb].
  { by exists r, w. }
  assert (Happ : pre ++ e :: keys = (pre ++ [e]) ++ keys) by by rewrite <- app_assoc.
  assert (Hexp : ∀ k, k ∈ pre ++ e :: keys → expired_in records k = overdue now older w0 k).
  { intros k Hk. unfold expired_in. destruct (mget k records) as [x|] eqn:Hx; [by apply He|].
    destruct (overdue now older w0 k) eqn:Ho; [|done]. destruct (Hd k Hk Ho). congruence. }
  assert (Hin : e ∈ pre ++ e :: keys) by set_solver.
  assert (Hrem : removable now older ns w0 e = expired_in records e && negb (blocked (expired_in records) e keys)).
  { unfold removable. rewrite Hexp by done. destruct (overdue now older w0 e) eqn:Ho; [|done]. cbn [andb].
    destruct (proj1 (Hkeys e) Hin) as [-> _]. cbn [andb]. apply eq_true_iff_eq. rewrite negb_true_iff.
    rewrite (blocked_spec _ pre e keys Hsort) by (by rewrite Hexp). rewrite forallb_forall. setoid_rewrite <- list_elem_of_In. split.
    - intros Hall k Hk Hp. rewrite Hexp by done. apply Hkeys in Hk as [_ Hk]. specialize (Hall k Hk). by rewrite Hp in Hall.
    - intros Hall k Hk. destruct (starts_with e k) eqn:Hp; [|done]. cbn [negb orb].
      assert (k ∈ pre ++ e :: keys).
      { apply Hkeys. split; [|done]. destruct (proj1 (Hkeys e) Hin) as [He' _]. by eapply starts_with_trans. }
      rewrite <- Hexp by done. by apply Hall. }
  rewrite Hrem. destruct (mget e records) as [x|] eqn:Hx.
  - assert (Hxe : expired_in records e = le_expired x) by (unfold expired_in; by rewrite Hx). rewrite Hxe.
    destruct (le_expired x && negb (blocked (expired_in records) e keys)).
    + erewrite (bind_ok _ _ _ _ (snd (del e w))) by reflexivity. cbn [ls_markerFor]. erewrite (bind_ok (mret 0)) by done.
      destruct (IH (pre ++ [e]) (LogSweepResult (lsr_scanned r) (lsr_deleted r + fst (mj_deletePrefix e (jr w))) (lsr_keptNoTs r) (lsr_deletedMarkers r + 0)) (snd (del e w)))
        as (r' & w' & Hrun & H1 & H2 & Hv); [by rewrite <- Happ..|].
      exists r', w'. split_and!; [exact Hrun|done|done|]. intros k. rewrite Hv, jkey_del. cbn [andb orb].
      destruct (starts_with e k), (existsb _ keys); done.
    + cbn [andb orb]. apply (IH (pre ++ [e])); by rewrite <- Happ.
  - assert (Hxe : expired_in records e = false) by (unfold expired_in; by rewrite Hx). rewrite Hxe.
    cbn [andb orb]. apply (IH (pre ++ [e])); by rewrite <- Happ.
Qed.

(** The sweep of a log deletes the entries that are overdue and whose extensions are all
    overdue, and changes nothing else: an entry that is young, that states no time, or that
    another entry extends which is to stay, is kept, and so is everything outside the log. *)
Theorem sweepLog_exact (ns : string) (older now : Z) w :
  ∃ r w', sweepLog h full_caps ns (LogSweepOptions older None (Some now)) w = (Ok r, w') ∧
    (∀ k, jkey k w' = if removable now older ns w k then None else jkey k w) ∧
    lsr_scanned r = length (mj_listKeys (ns +:+ ":") (jr w)) ∧
    lsr_keptNoTs r = count_if (λ k, match jkey k w with
                                    | Some v => negb (bool_decide (is_Some (as_number (prop (js_view (Some v)) "at"))))
                                    | None => false end) (mj_listKeys (ns +:+ ":") (jr w)).
Proof.
  unfold sweepLog. cbn [has_listKeys full_caps negb ls_now]. erewrite (bind_ok _ _ _ now w) by done.
  set (listed := mj_listKeys (ns +:+ ":") (jr w)). erewrite (bind_ok _ _ _ listed w) by done.
  assert (Hperm : sorted_keys listed ≡ₚ listed) by apply merge_sort_Permutation.
  assert (Hsort : StronglySorted String.le (sorted_keys listed)) by apply (StronglySorted_merge_sort String.le).
  destruct (read_log_spec now older (sorted_keys listed) w) as (records & undated & Hrun & He & Hd & Hu).
  erewrite bind_ok by exact Hrun. cbv beta iota. cbn [ls_olderThanMs].
  destruct (sweep_entries_spec now older ns w records [] (sorted_keys listed)
              (LogSweepResult (length (sorted_keys listed)) 0 undated 0) w) as (r & w' & Hsw & H1 & H2 & Hv); [done| |done|done|].
  { intros k. cbn [app]. rewrite Hperm. apply elem_of_listing. }
  exists r, w'. split_and!; [exact Hsw| |by rewrite H1, Hperm|rewrite H2, Hu; unfold count_if; by rewrite Hperm].
  intros k. rewrite Hv. destruct (existsb _ _) eqn:Hex.
  - apply existsb_exists in Hex as (e & Hin & [Hr Hp]%andb_true_iff). destruct (removable now older ns w k) eqn:Hk; [done|].
    destruct (jkey k w) as [v|] eqn:Hg; [|done]. exfalso. revert Hk. apply not_false_iff_true. unfold removable in *.
    apply andb_true_iff in Hr as [[Ho Hns]%andb_true_iff Hall]. rewrite forallb_forall in Hall.
    assert (Hks : k ∈ shown w) by by eapply shown_stored.
    pose proof (Hall k (proj1 (list_elem_of_In _ _) Hks)) as Hk. rewrite Hp in Hk. cbn [negb orb] in Hk. rewrite Hk. cbn [andb].
    rewrite (starts_with_trans _ e k Hns Hp). cbn [andb]. apply forallb_forall. intros x Hx. specialize (Hall x Hx).
    destruct (starts_with k x) eqn:Hkx; [|done]. by rewrite (starts_with_trans e k x Hp Hkx) in Hall.
  - destruct (removable now older ns w k) eqn:Hk; [|done]. destruct (jkey k w) as [v|] eqn:Hg; [|done].
    exfalso. revert Hex. apply not_false_iff_true. apply existsb_exists. exists k. split.
    + apply list_elem_of_In. rewrite Hperm. apply elem_of_listing. split; [|by eapply shown_stored].
      unfold removable in Hk. by apply andb_true_iff in Hk as [[_ ?]%andb_true_iff _].
    + rewrite Hk. cbn [andb]. pose proof (starts_with_app k "") as Hp. by rewrite str_app_nil_r in Hp.
Qed.
End Logs.

(** ** Runs *)

Section Runs.
Context {V : Type} `{!JsValue V, !Embed organization_usage V, !Embed pricing_doc V, !Embed js V} {Q R : Type}.
Implicit Types w : world V Q.

(** The run a stored key belongs to, and whether the key holds a call that waits. *)
Definition run_of_key (kv : string * V) : option string :=
  truthy (match parseJournalKey (fst kv) with
          | Some (r, _) => Some r
          | None => runIdOfKey (fst kv) (is_versioned (snd kv))
          end).

Definition waits (kv : string * V) : bool :=
  match parseJournalKey (fst kv) with Some (_, KTool) => is_suspended (snd kv) | _ => false end.

Definition time_of (t : jsmap Z) (kv : string * V) : Z := default 0%Z (mget (fst kv) t).

(** What the query has gathered of a run. *)
Record gathered (t : jsmap Z) (m : jsmap V) (r : string) (ts : Z) (susp : bool) : Prop := Gathered {
  ga_some : ∃ kv, kv ∈ m ∧ run_of_key kv = Some r;
  ga_time : ∀ c, (ts < c)%Z ↔ (0 < c)%Z ∧ ∀ kv, kv ∈ m → run_of_key kv = Some r → (time_of t kv < c)%Z;
  ga_susp : susp = true ↔ ∃ kv, kv ∈ m ∧ run_of_key kv = Some r ∧ waits kv = true;
}.

Lemma stale_fold t (m : jsmap V) :
  map_wf (fold_left (stale_step t) m []) ∧
  ∀ r, match mget r (fold_left (stale_step t) m []) with
       | Some (ts, susp) => gathered t m r ts susp
       | None => ∀ kv, kv ∈ m → run_of_key kv ≠ Some r
       end.
Proof using Type.
  induction m as [|[k v] m [Hwf IH]] using rev_ind.
  { split; [constructor|]. intros r kv Hkv. inversion Hkv. }
  rewrite fold_left_app. cbn [fold_left]. set (last := fold_left (stale_step t) m []) in *. unfold stale_step.
  change (truthy _) with (run_of_key (k, v)). destruct (run_of_key (k, v)) as [r0|] eqn:Hr0.
  2:{ split; [done|]. intros r. specialize (IH r). destruct (mget r last) as [[ts susp]|].
      - destruct IH as [(kv & Hin & Hr) Ht Hs]. split.
        + exists kv. set_solver.
        + intros c. rewrite Ht. setoid_rewrite elem_of_app. setoid_rewrite list_elem_of_singleton. split; intros [Hc Hall]; (split; [done|]); [|naive_solver].
          intros kv' [Hk|Hk] He; [by apply Hall|]. subst kv'. congruence.
        + rewrite Hs. setoid_rewrite elem_of_app. setoid_rewrite list_elem_of_singleton. split; [naive_solver|].
          intros (kv' & [Hk|Hk] & He & Hw); [naive_solver|]. subst kv'. congruence.
      - intros kv [Hk|Hk%list_elem_of_singleton]%elem_of_app; [by apply IH|]. subst kv. congruence. }
  split; [by apply map_wf_mset|]. intros r. rewrite mget_mset_cases. destruct (String.eqb_spec r r0) as [->|Hne].
  - change (match parseJournalKey k with Some (_, KTool) => is_suspended v | _ => false end) with (waits (k, v)).
    change (default 0%Z (mget k t)) with (time_of t (k, v)). specialize (IH r0).
    destruct (mget r0 last) as [[ts susp]|]; cbn [default fst snd].
    + destruct IH as [_ Ht Hs]. split.
      * exists (k, v). set_solver.
      * intros c. rewrite Z.max_lub_lt_iff, Ht. setoid_rewrite elem_of_app. setoid_rewrite list_elem_of_singleton. naive_solver.
      * rewrite orb_true_iff, Hs. setoid_rewrite elem_of_app. setoid_rewrite list_elem_of_singleton. naive_solver.
    + split.
      * exists (k, v). set_solver.
      * intros c. rewrite Z.max_lub_lt_iff. setoid_rewrite elem_of_app. setoid_rewrite list_elem_of_singleton. naive_solver.
      * cbn [orb]. setoid_rewrite elem_of_app. setoid_rewrite list_elem_of_singleton. naive_solver.
  - specialize (IH r). destruct (mget r last) as [[ts susp]|].
    + destruct IH as [(kv & Hin & Hr) Ht Hs]. split.
      * exists kv. set_solver.
      * intros c. rewrite Ht. setoid_rewrite elem_of_app. setoid_rewrite list_elem_of_singleton. split; intros [Hc Hall]; (split; [done|]); [|naive_solver].
        intros kv' [Hk|Hk] He; [by apply Hall|]. subst kv'. congruence.
      * rewrite Hs. setoid_rewrite elem_of_app. setoid_rewrite list_elem_of_singleton. split; [naive_solver|].
        intros (kv' & [Hk|Hk] & He & Hw); [naive_solver|]. subst kv'. congruence.
    + intros kv [Hk|Hk%list_elem_of_singleton]%elem_of_app; [by apply IH|]. subst kv. congruence.
Qed.

(** A run is stale when it has a key, all its keys are older than the cutoff, and, if those
    that wait are to be kept, no call of it waits. *)
Definition stale_run (cutoff : Z) (includeSuspended : bool) (j : mem_journal V) (r : string) : Prop :=
  (∃ kv, kv ∈ store j ∧ run_of_key kv = Some r) ∧
  (0 < cutoff)%Z ∧ (∀ kv, kv ∈ store j → run_of_key kv = Some r → (time_of (times j) kv < cutoff)%Z) ∧
  (includeSuspended = true ∨ ∀ kv, kv ∈ store j → run_of_key kv = Some r → waits kv = false).

Lemma listStaleRuns_exact cutoff incl (j : mem_journal V) r :
  r ∈ mj_listStaleRuns cutoff incl j ↔ stale_run cutoff incl j r.
Proof using Type.
  unfold mj_listStaleRuns, stale_run. destruct (stale_fold (times j) (store j)) as [Hwf Hall]. specialize (Hall r).
  rewrite list_elem_of_fmap. split.
  - intros ([r' [ts susp]] & -> & [Hc Hin]%list_elem_of_filter). cbn [fst] in *.
    apply mget_In in Hin; [|done]. rewrite Hin in Hall. destruct Hall as [Hs Ht Hw].
    apply andb_true_iff in Hc as [Hc Hi]. apply Z.ltb_lt, Ht in Hc as [Hc Hold]. split_and!; [done..|].
    apply orb_true_iff in Hi as [Hi|Hi]; [by left|right]. intros kv Hk Hr. apply negb_true_iff in Hi.
    apply not_true_iff_false. intros Hwt. apply not_true_iff_false in Hi. apply Hi, Hw. eauto.
  - intros (Hs & Hc & Hold & Hi). destruct (mget r _) as [[ts susp]|] eqn:Hg.
    + destruct Hall as [_ Ht Hw]. exists (r, (ts, susp)). split; [done|]. apply list_elem_of_filter. split; [|by apply In_mget].
      apply andb_true_iff. split; [apply Z.ltb_lt, Ht; done|]. destruct Hi as [->|Hi]; [done|].
      apply orb_true_iff. right. apply negb_true_iff, not_true_iff_false. intros Hsusp. apply Hw in Hsusp as (kv & Hk & Hr & Hwt).
      rewrite Hi in Hwt; done.
    + destruct Hs as (kv & Hk & Hr). by apply Hall in Hr.
Qed.

(** *** One run *)

Variable h : oracle Q R retention_error.
Variable sha256 : string → string.

Definition is_real w (runId : string) : bool :=
  bool_decide (runIdOfKey (rk_input runId) (from_option is_versioned false (jkey (rk_input runId) w)) = Some runId).

Lemma isRealRun_spec runId w : isRealRun h runId w = (Ok (is_real w runId), w).
Proof. done. Qed.

(** What the tombstone of a run says: when, and the hash and the kind of what it was called. *)
Definition tombstone_in w (runId : string) (now : Z) : run_tombstone :=
  RunTombstone now (workKeyHash sha256 <$> (jkey (rk_input runId) w ≫= λ v, truthy (str_field v "workKey")))
    (match prop (prop (js_view (jkey (rk_input runId) w)) "workScope") "kind" with
     | JStr k => if String.eqb k "resource" || String.eqb k "org" then Some k else None
     | _ => None
     end).

Lemma tombstoneFor_spec runId now w : tombstoneFor h sha256 runId now w = (Ok (tombstone_in w runId now), w).
Proof. done. Qed.

Lemma purge_spec id w :
  ∃ n seen w', purge h full_caps true id w = (Ok n, w') ∧ visited (started h true id w) [] seen (started h true id w) w' ∧ id ∈ seen.
Proof.
  destruct (purgeRun_top h (S (length (traced (started h true id w)))) id true w) as (n & seen & w' & Hrun & Hv & Hid & _); [lia|].
  exists n, seen, w'. split_and!; [|done..]. unfold purge. by rewrite Hrun.
Qed.

Lemma sweep_run_spec now tombs runId r w :
  if is_real w runId then
    ∃ n seen w1, visited (started h true runId w) [] seen (started h true runId w) w1 ∧ runId ∈ seen ∧
      sweep_run h full_caps sha256 now tombs runId r w =
        (Ok (swept runId n r),
         if tombs then set_jr (mj_put (wall w1) (sweptKey runId) (inj (tomb_doc (tombstone_in w runId now))) (jr w1)) w1 else w1)
  else sweep_run h full_caps sha256 now tombs runId r w = (Ok (refused_ghost runId r), w).
Proof.
  unfold sweep_run. erewrite bind_ok by apply isRealRun_spec. destruct (is_real w runId); [|done].
  destruct (purge_spec runId w) as (n & seen & w1 & Hrun & Hv & Hid). exists n, seen, w1. split_and!; [done..|].
  destruct tombs.
  - erewrite (bind_ok _ _ _ (Some (tombstone_in w runId now)) w) by done. erewrite bind_ok by exact Hrun. by erewrite (bind_ok _ _ _ tt) by done.
  - erewrite (bind_ok _ _ _ None w) by done. erewrite bind_ok by exact Hrun. by erewrite (bind_ok _ _ _ tt) by done.
Qed.

(** What a run that is swept leaves: its tombstone, which holds the hash of the name of its work
    and never the name, and of its own keys nothing else.  A run that no run ever wrote is
    refused, and nothing is touched. *)
Theorem swept_run_leaves_its_tombstone (now : Z) (runId : string) (r : sweep_result) w :
  ∃ r' w', sweep_run h full_caps sha256 now true runId r w = (Ok r', w') ∧
    if is_real w runId then
      sr_purged r' = sr_purged r ++ [runId] ∧
      jkey (sweptKey runId) w' = Some (inj (tomb_doc (tombstone_in w runId now))) ∧
      ∀ k, own_key (started h true runId w) runId k → k ≠ sweptKey runId → jkey k w' = None
    else sr_skippedGhosts r' = sr_skippedGhosts r ++ [runId] ∧ sr_purged r' = sr_purged r ∧ w' = w.
Proof.
  pose proof (sweep_run_spec now true runId r w) as Hs. destruct (is_real w runId).
  - destruct Hs as (n & seen & w1 & Hv & Hid & Hrun). eexists _, _. split; [exact Hrun|]. split_and!; [done| |].
    + unfold jkey. cbn [jr set_jr]. apply mj_get_put.
    + intros k Hk Hne. unfold jkey. cbn [jr set_jr]. rewrite mj_get_put_ne by done.
      apply (vi_erased _ _ _ _ _ Hv runId Hid); [set_solver|done].
  - eexists _, _. split; [exact Hs|]. done.
Qed.

Lemma sweep_stale_spec now tombs ids r w :
  ∃ r' w', sweep_stale h full_caps sha256 now tombs ids r w = (Ok r', w') ∧ sr_scanned r' = sr_scanned r ∧
    sr_keptSuspended r' = sr_keptSuspended r ∧ sr_keptNoTs r' = sr_keptNoTs r ∧
    ∃ purged ghosts, sr_purged r' = sr_purged r ++ purged ∧ sr_skippedGhosts r' = sr_skippedGhosts r ++ ghosts ∧ purged ++ ghosts ≡ₚ ids.
Proof.
  revert r w. induction ids as [|id ids IH]; intros r w; cbn [sweep_stale].
  { exists r, w. split_and!; [done..|]. exists [], []. by rewrite !app_nil_r. }
  pose proof (sweep_run_spec now tombs id r w) as Hs. destruct (is_real w id).
  - destruct Hs as (n & seen & w1 & _ & _ & Hrun). erewrite bind_ok by exact Hrun.
    edestruct IH as (r' & w' & Hrun' & H1 & H2 & H3 & purged & ghosts & Hp & Hg & Hperm).
    exists r', w'. split_and!; [exact Hrun'|done..|]. exists (id :: purged), ghosts.
    rewrite Hp, Hg. cbn [swept sr_purged sr_skippedGhosts]. rewrite <- app_assoc. split_and!; [done..|]. cbn [app]. by rewrite Hperm.
  - erewrite bind_ok by exact Hs. edestruct IH as (r' & w' & Hrun' & H1 & H2 & H3 & purged & ghosts & Hp & Hg & Hperm).
    exists r', w'. split_and!; [exact Hrun'|done..|]. exists purged, (id :: ghosts).
    rewrite Hp, Hg. cbn [refused_ghost sr_purged sr_skippedGhosts]. rewrite <- app_assoc. split_and!; [done..|].
    rewrite <- Permutation_middle. by rewrite Hperm.
Qed.

(** C23: The sweep of runs by the indexed query ends, and its report is exact: each run all of whose
    keys are older than the threshold, and of which no call waits unless suspended runs are to
    go too, is purged or refused as a ghost, once; and no other run is either. *)
Theorem sweepRuns_exact (o : sweep_options) (canPage : bool) (pages : nat) w :
  so_suspendedTtlMs o = None →
  let cutoff := (default (wall w) (so_now o) - so_olderThanMs o)%Z in
  let incl := negb (default true (so_keepSuspended o)) in
  ∃ r w', sweepRuns h full_caps sha256 true canPage pages o w = (Ok r, w') ∧
    NoDup (sr_purged r ++ sr_skippedGhosts r) ∧ sr_scanned r = length (sr_purged r ++ sr_skippedGhosts r) ∧
    (∀ id, id ∈ sr_purged r ++ sr_skippedGhosts r ↔ stale_run cutoff incl (jr w) id).
Proof.
  intros Httl cutoff incl. unfold sweepRuns. cbn [has_readRun full_caps negb]. rewrite Httl.
  erewrite (bind_ok _ _ _ (default (wall w) (so_now o)) w) by (by destruct (so_now o)).
  set (stale := mj_listStaleRuns cutoff incl (jr w)). erewrite (bind_ok _ _ _ stale w) by done.
  destruct (sweep_stale_spec (default (wall w) (so_now o)) (so_tombstones o) stale (nothing_swept (length stale)) w)
    as (r & w' & Hrun & H1 & _ & _ & purged & ghosts & Hp & Hg & Hperm).
  exists r, w'. cbn [nothing_swept sr_purged sr_skippedGhosts app] in Hp, Hg. rewrite Hp, Hg, H1. split_and!; [exact Hrun| |by rewrite Hperm|].
  - rewrite Hperm. unfold stale, mj_listStaleRuns. destruct (stale_fold (times (jr w)) (store (jr w))) as [Hwf _].
    by apply (map_wf_filter _ _ Hwf).
  - intros id. rewrite Hperm. apply listStaleRuns_exact.
Qed.
End Runs.

(** ** Examples *)

Section SweepWitnesses.
Let h0 : oracle unit unit retention_error := λ _ _, Ok tt.
Let put t k v (j : mem_journal budget_entry) := mj_put t k v j.
Let at_ (j : mem_journal budget_entry) : world budget_entry unit := World j 0 10000 [] empty_work.
Let stamped (l : list (string * js)) : budget_entry := BEntry (EJs (JObj (("_v", JNum 1) :: l))).
Let o (ttl : option Z) : sweep_options := SweepOptions 1000 None ttl true None.

(** An old turn of a chat, an older run under the bare conversation id, and a young run. *)
Let j1 : mem_journal budget_entry :=
  put 9500 "young:model:0" (tokens_record 1) (put 20 "conv:input" (stamped [("prompt", JStr "hi"); ("workKey", JStr "invoice-4471")])
    (put 10 "conv:msg1:model:0" (tokens_record 9) (put 10 "conv:msg1:input" (stamped [("prompt", JStr "hello")]) empty_journal))).

Lemma sweepRuns_exact_witness :
  ∃ r w', sweepRuns h0 full_caps id true true 5 (o None) (at_ j1) = (Ok r, w') ∧ ("young" ∉ sr_purged r ++ sr_skippedGhosts r) ∧
    "conv" ∈ sr_purged r ++ sr_skippedGhosts r.
Proof.
  destruct (sweepRuns_exact h0 id (o None) true 5 (at_ j1) eq_refl) as (r & w' & Hrun & _ & _ & Hall).
  assert (Hst : mj_listStaleRuns 9000 false (jr (at_ j1)) = ["conv:msg1"; "conv"]) by (vm_compute; reflexivity).
  exists r, w'. split; [exact Hrun|]. split.
  - intros Hin%Hall. apply listStaleRuns_exact in Hin.
    change (mj_listStaleRuns _ _ _) with (mj_listStaleRuns 9000 false (jr (at_ j1))) in Hin. rewrite Hst in Hin.
    apply elem_of_cons in Hin as [Hin|[Hin|Hin]%elem_of_cons]; [discriminate|discriminate|inversion Hin].
  - apply Hall, listStaleRuns_exact. change (mj_listStaleRuns _ _ _) with (mj_listStaleRuns 9000 false (jr (at_ j1))).
    rewrite Hst. by right; left.
Defined.

(** Both old runs are marked as they are swept, and the sweep of the second takes the mark of
    the first: a retry of [conv:msg1] is not refused. *)
Example tombstone_is_taken :
  match sweepRuns h0 full_caps id true true 5 (o None) (at_ j1) with
  | (Ok r, w') => sr_purged r = ["conv:msg1"; "conv"] ∧ is_Some (jkey (sweptKey "conv") w') ∧ jkey (sweptKey "conv:msg1") w' = None
  | _ => False
  end.
Proof. vm_compute. split_and!; [reflexivity|by eexists|reflexivity]. Qed.

(** A run that died before its first step is swept by the indexed query, and kept for ever by
    the scan that a time limit on suspended runs turns on. *)
Example dead_at_once :
  let w := at_ (put 20 "dead:input" (stamped [("prompt", JStr "hi")]) empty_journal) in
  (sr_purged <$> (match fst (sweepRuns h0 full_caps id true true 5 (o None) w) with Ok r => Some r | Err _ => None end)) = Some ["dead"] ∧
  ((λ r, (sr_purged r, sr_keptNoTs r)) <$> (match fst (sweepRuns h0 full_caps id true true 5 (o (Some 1000%Z)) w) with Ok r => Some r | Err _ => None end)) = Some ([], 1).
Proof. vm_compute. by split. Qed.

(** An entry that states no time, one that is young, one that is old, and one that is old but is
    extended by the young one. *)
Example log_swept :
  let w := at_ (put 0 "log:c" (stamped []) (put 0 "log:b2" (stamped [("at", JNum 9500)]) (put 0 "log:b" (stamped [("at", JNum 5)])
             (put 0 "log:a" (stamped [("at", JNum 5)]) empty_journal)))) in
  match sweepLog h0 full_caps "log" (LogSweepOptions 1000 None (Some 10000%Z)) w with
  | (Ok r, w') => r = LogSweepResult 4 1 1 0 ∧ mkeys (store (jr w')) = ["log:b"; "log:b2"; "log:c"]
  | _ => False
  end.
Proof. vm_compute. by split. Qed.

Example a_round :
  let w := at_ (put 0 "log:a" (stamped [("at", JNum 5)]) j1) in
  fst (runOnce h0 full_caps id true true 5 (o None) [("log", LogSweepOptions 1000 None None)] w) = Ok (SweepSummary 2 1).
Proof. vm_compute. reflexivity. Qed.
End SweepWitnesses.
