(* ===== verification/RetentionThreads.v ===== *)
(** * RetentionThreads: erasing threads and people

    Models the thread half of [packages/durable/src/retention.ts]: the key families of a
    thread and the thread each key belongs to, the purge of a thread beside longer ids, the
    families keyed by a person, the erasure of a person, and the sweeps and reports over
    threads.  Documents of the vector store and the answers of the memory are host requests;
    [Date.parse] is a parameter. *)

From S2P Require Import Prelude JsMap Keys Journal Org OwnedName Work Prog Claim Json Hash Format Taint RunIdentity ThreadOwner Cost ToolTypes Limits RunCost Budget BudgetUsage Retention RetentionFacts RetentionCascade RetentionSweep.

(** ** Keys and the threads they belong to *)

Definition MEM_LEAVES : list string := ["messages"; "working"].
Definition OM_LEAVES : list string := ["observedSeq"; "observeSeq"; "reflectSeq"].
Definition MEM_PREFIX : string := "mem:".
Definition XTHR_PREFIX : string := "xthr:".
Definition OM_PREFIX : string := "om:".
Definition RESTHR_PREFIX : string := "resthr:".
Definition MEM_SUFFIXES : list string := map (λ leaf, ":" +:+ leaf) MEM_LEAVES.
Definition OM_SUFFIXES : list string := map (λ leaf, ":" +:+ leaf) OM_LEAVES.
Definition XTHR_FAMILIES : list string := [":semjudge-"; ":semtomb-"; ":sem-"; ":dup-"; ":args-"].

(** What precedes the first of the suffixes that [rest] ends with, if it is not empty. *)
Fixpoint cut_suffix (suffixes : list string) (rest : string) : option string :=
  match suffixes with
  | [] => None
  | x :: xs => match truthy (strip_suffix x rest) with Some t => Some t | None => cut_suffix xs rest end
  end.

Definition threadIdOfMemKey (key : string) : option string :=
  cut_suffix MEM_SUFFIXES (slice (String.length MEM_PREFIX) key).

Definition threadIdOfOmKey (key : string) : option string :=
  let rest := slice (String.length OM_PREFIX) key in
  match cut_suffix OM_SUFFIXES rest with
  | Some t => Some t
  | None => match last_index ":proc:" rest with
            | Some (S i) => Some (String.substring 0 (S i) rest)
            | _ => None
            end
  end.

(** The last of the last positions of the families. *)
Definition last_family (rest : string) : option nat :=
  fold_left (λ cut fam, match last_index fam rest, cut with
                        | Some i, Some c => Some (Nat.max i c)
                        | Some i, None => Some i
                        | None, _ => cut
                        end) XTHR_FAMILIES None.

Definition threadIdOfXthrKey (key : string) : option string :=
  let rest := slice (String.length XTHR_PREFIX) key in
  match last_family rest with
  | Some (S i) => Some (String.substring 0 (S i) rest)
  | _ => None
  end.

(** The person, escaped, and the thread that an ownership trace names. *)
Definition trace_of (key : string) : option (string * string) := cut_colon (slice (String.length RESTHR_PREFIX) key).

(** [/^[0-9a-f]{16}$/.test(s)]. *)
Definition is_hash (s : string) : bool := (String.length s =? 16) && is_hex s.

(** [s.split(':').length - 1]. *)
Definition colons (s : string) : nat := length (segments s) - 1.

(** Whether what follows [xid:res:<person>:] has the shape of the person's own key. *)
Definition xid_own (rest : string) (tool : option string) : bool :=
  match last_colon rest, tool with
  | Some (before, after), Some t =>
      if negb (String.eqb before "") && is_hash after then String.eqb before t else colons rest <? 2
  | _, _ => colons rest <? 2
  end.

(** The vector store, as far as an erasure asks. *)
Record vector_port (Q R : Type) := VectorPort {
  vp_delete : option (string → bool → Q);      (** the owner, and whether outside organizations only *)
  vp_count : R → nat;
  vp_deleteOutsideOrganizations : bool;
}.
Arguments vp_delete {Q R}. Arguments vp_count {Q R}. Arguments vp_deleteOutsideOrganizations {Q R}.

Record thread_sweep_result := ThreadSweepResult {
  tsr_scanned : nat;
  tsr_purged : list string;
  tsr_keptNoTs : nat;
  tsr_orphanThreadState : list string;
  tsr_unrecognisedXthrKeys : list string;
}.

Record orphan_thread_state := OrphanThreadState { ot_threadIds : list string; ot_unrecognisedKeys : list string }.

(** The time a message states. *)
Definition message_field_time (dateParse : string → option Z) (v : js) : option Z :=
  match v with
  | JNum z => Some z
  | JDate iso => iso ≫= dateParse
  | JStr s => dateParse s
  | _ => None
  end.

Definition readMessageTs (dateParse : string → option Z) (msg : js) : option Z :=
  match message_field_time dateParse (prop msg "ts") with
  | Some t => Some t
  | None => match message_field_time dateParse (prop msg "at") with
            | Some t => Some t
            | None => message_field_time dateParse (prop msg "createdAt")
            end
  end.

(** The threads that [mem:] keys name, and the keys that name none. *)
Definition known_threads (keys : list string) : list string := as_set (omap threadIdOfMemKey keys) [].
Definition unread_keys (f : string → option string) (keys : list string) : list string :=
  filter (λ k, f k = None) keys.

Definition orphans_of (known : list string) (xthr : list string) : list string :=
  as_set (filter (λ t, bool_decide (t ∈ known) = false) (omap threadIdOfXthrKey xthr)) [].

Section Threads.
Context {V : Type} `{!JsValue V, !Embed organization_usage V, !Embed pricing_doc V, !Embed js V,
  !Embed owner_record V, !Embed thread_owner_record V} {Q R : Type}.
Variable h : oracle Q R retention_error.
Variable caps : journal_caps.
Variable canPage : bool.
Variable pages : nat.
Variable dateParse : string → option Z.
Abbreviation act := (act (V:=V) (Q:=Q)).

(** *** One thread *)

(** Are some of the keys another thread's?  And which are this one's? *)
Definition foreign_key (ownerOf : string → option string) (threadId scope k : string) : bool :=
  match ownerOf k with
  | Some owner => negb (String.eqb owner threadId)
  | None => has_char colon (slice (String.length scope) k)
  end.

Definition purgeThreadNamespace (prefix threadId : string) (ownerOf : string → option string) : act nat :=
  let scope := prefix +:+ threadId +:+ ":" in
  if has_listKeys caps then
    keys ← jr_listKeys h scope;
    if existsb (foreign_key ownerOf threadId scope) keys
    then deleteExactKeys h caps (filter (λ k, foreign_key ownerOf threadId scope k = false) keys)
    else del scope
  else del scope.

(** The ownership traces that point at a thread. *)
Definition traces_to (threadId : string) (keys : list string) : list string :=
  filter (λ k, from_option (λ x, String.eqb (snd x) threadId) false (trace_of k) = true) keys.

Definition purgeThread (threadId : string) : act nat :=
  n1 ← purgeThreadNamespace MEM_PREFIX threadId threadIdOfMemKey;
  n2 ← purgeThreadNamespace XTHR_PREFIX threadId threadIdOfXthrKey;
  n3 ← purgeThreadNamespace OM_PREFIX threadId threadIdOfOmKey;
  owner ← jr_get h (threadOwnerKey threadId);
  n4 ← match owner with Some _ => del (threadOwnerKey threadId) | None => mret 0 end;
  n5 ← (if has_listKeys caps then
          keys ← jr_listKeys h RESTHR_PREFIX; deleteExactKeys h caps (traces_to threadId keys)
        else mret 0);
  mret (n1 + n2 + n3 + n4 + n5).

(** *** One person *)

Definition threadIsTheirs (memory : option (memory_port Q R)) (threadId resourceId : string) : act bool :=
  o ← run h (threadOwnerOf caps RetentionThread pages memory threadId);
  match truthy (ow_owner o) with
  | Some owner => mret (String.eqb owner resourceId)
  | None =>
      if ow_exists o then mret false
      else if has_listKeys caps then
        keys ← jr_listKeys h RESTHR_PREFIX;
        mret (forallb (λ k, match trace_of k with
                            | Some (who, t) => negb (negb (String.eqb who "") && String.eqb t threadId && negb (String.eqb who (escOwnerPart resourceId)))
                            | None => true
                            end) keys)
      else mret true
  end.

(** The keys of [xid:res:<person>:], and whether a longer id's are among them. *)
Fixpoint own_xids (pre : string) (keys : list string) : act (list string * bool) :=
  match keys with
  | [] => mret ([], false)
  | k :: ks =>
      v ← jr_get h k;
      '(own, foreign) ← own_xids pre ks;
      mret (if xid_own (slice (String.length pre) k) (v ≫= λ x, str_field x "toolName")
            then (k :: own, foreign) else (own, true))
  end.

Definition short_keys (pre : string) (keys : list string) : list string :=
  filter (λ k, has_char colon (slice (String.length pre) k) = false) keys.

Fixpoint del_rows (pre : string) (ids : list string) : act nat :=
  match ids with
  | [] => mret 0
  | id :: ids' => n ← del (pre +:+ id); m ← del_rows pre ids'; mret (n + m)
  end.

Definition purgePersonFamilies (resourceId : string) : act nat :=
  let xidPre := "xid:res:" +:+ resourceId +:+ ":" in
  let lessonPre := "lesson:res:" +:+ resourceId +:+ ":" in
  let statsPre := "suggstats:lesson:res:" +:+ resourceId +:+ ":" in
  let everything := n1 ← del xidPre; n2 ← del lessonPre; n3 ← del statsPre; mret (n1 + n2 + n3) in
  if has_listKeys caps then
    xids ← jr_listKeys h xidPre;
    '(own, longer) ← own_xids xidPre xids;
    lessons ← jr_listKeys h lessonPre;
    stats ← jr_listKeys h statsPre;
    let mine := short_keys lessonPre lessons in
    let rows := short_keys statsPre stats in
    if longer || negb (length mine =? length lessons) || negb (length rows =? length stats) then
      n ← deleteExactKeys h caps (own ++ mine ++ rows);
      m ← del_rows statsPre (as_set (map (slice (String.length lessonPre)) mine) []);
      mret (n + m)
    else everything
  else everything.

Definition assertDeletesOutsideOrganizations (v : vector_port Q R) : act unit :=
  if vp_deleteOutsideOrganizations v then mret tt else throw WouldDeleteEverywhere.

(** The runs of a person, and the threads they name. *)
Fixpoint person_pages (n : nat) (resourceId : string) (outside : bool) (cursor : option string)
    (runIds threads : list string) : act (list string * list string) :=
  match n with
  | 0 => throw PurgeOutOfFuel
  | S n' =>
      '(items, next) ← catching (λ _, mret ([], None))
         (λ w, (Ok (mj_listRunsPaged (RunQuery (Some 200) cursor None None (Some resourceId) None) (jr w)), w));
      let kept := filter (λ r, (outside && starts_with "org:" (rs_runId r)) = false) items in
      let runIds' := runIds ++ map rs_runId kept in
      let threads' := as_set (omap (λ r, truthy (rs_threadId r)) kept) threads in
      match truthy next with
      | Some c => person_pages n' resourceId outside (Some c) runIds' threads'
      | None => mret (runIds', threads')
      end
  end.

Fixpoint owned_threads (memory : option (memory_port Q R)) (resourceId : string) (threads owned : list string) : act (list string) :=
  match threads with
  | [] => mret owned
  | t :: ts =>
      theirs ← threadIsTheirs memory t resourceId;
      owned_threads memory resourceId ts (if theirs : bool then as_set [t] owned else owned)
  end.

Fixpoint purge_all (f : string → act nat) (ids : list string) : act nat :=
  match ids with
  | [] => mret 0
  | id :: ids' => n ← f id; m ← purge_all f ids'; mret (n + m)
  end.

Definition purgeResource (resourceId : string) (vectors : option (vector_port Q R)) (memory : option (memory_port Q R))
    (outsideOrganizations : bool) : act nat :=
  _ ← match vectors with
      | Some v => if bool_decide (vp_delete v = None) then throw CannotDeleteDocuments
                  else if outsideOrganizations then assertDeletesOutsideOrganizations v else mret tt
      | None => mret tt
      end;
  n1 ← purgePersonFamilies resourceId;
  n2 ← match vectors with
       | Some v => match vp_delete v with
                   | Some q => a ← run h (request (RExt (q resourceId outsideOrganizations))); mret (vp_count v a)
                   | None => mret 0
                   end
       | None => mret 0
       end;
  if canPage then
    '(runIds, threads) ← person_pages pages resourceId outsideOrganizations None [] [];
    owned ← owned_threads memory resourceId threads [];
    n3 ← purge_all (purge h caps false) runIds;
    let tracePrefix := ownershipTraceKey resourceId "" in
    owned' ← (if has_listKeys caps then
                keys ← jr_listKeys h tracePrefix;
                owned_threads memory resourceId (omap (λ k, truthy (Some (slice (String.length tracePrefix) k))) keys) owned
              else mret owned);
    n4 ← purge_all purgeThread owned';
    n5 ← del tracePrefix;
    mret (n1 + n2 + n3 + n4 + n5)
  else mret (n1 + n2).

(** *** Sweeps and reports *)

Definition listOrphanThreadState : act orphan_thread_state :=
  if has_listKeys caps then
    mem ← jr_listKeys h MEM_PREFIX;
    xthr ← jr_listKeys h XTHR_PREFIX;
    mret (OrphanThreadState (orphans_of (known_threads mem) xthr)
            (unread_keys threadIdOfMemKey mem ++ unread_keys threadIdOfXthrKey xthr))
  else throw (RetentionNeeds "listKeys").

Definition messages_of (v : option V) : list js := match js_view v with JArr l => l | _ => [] end.

Fixpoint sweep_threads (now olderThanMs : Z) (threadIds : list string) (r : thread_sweep_result) : act thread_sweep_result :=
  match threadIds with
  | [] => mret r
  | t :: ts =>
      v ← jr_get h (MEM_PREFIX +:+ t +:+ ":messages");
      match max_of (omap (readMessageTs dateParse) (messages_of v)) with
      | None => sweep_threads now olderThanMs ts
                  (ThreadSweepResult (S (tsr_scanned r)) (tsr_purged r) (S (tsr_keptNoTs r)) [] [])
      | Some last =>
          if (olderThanMs <? now - last)%Z then
            _ ← purgeThread t;
            sweep_threads now olderThanMs ts (ThreadSweepResult (S (tsr_scanned r)) (tsr_purged r ++ [t]) (tsr_keptNoTs r) [] [])
          else sweep_threads now olderThanMs ts (ThreadSweepResult (S (tsr_scanned r)) (tsr_purged r) (tsr_keptNoTs r) [] [])
      end
  end.

Definition sweepThreads (olderThanMs : Z) (now : option Z) : act thread_sweep_result :=
  if has_listKeys caps then
    t ← match now with Some t => mret t | None => jr_dateNow h end;
    mem ← jr_listKeys h MEM_PREFIX;
    r ← sweep_threads t olderThanMs (known_threads mem) (ThreadSweepResult 0 [] 0 [] []);
    xthr ← jr_listKeys h XTHR_PREFIX;
    mret (ThreadSweepResult (tsr_scanned r) (tsr_purged r) (tsr_keptNoTs r)
            (orphans_of (known_threads mem) xthr) (unread_keys threadIdOfXthrKey xthr))
  else throw (RetentionNeeds "listKeys").
End Threads.
