(* ===== verification/RetentionThreadFacts.v ===== *)
(** * RetentionThreadFacts: a purged thread and its neighbours

    The purge of a thread is exact: its records, its owner record and the traces that point
    at it go, and a thread whose id extends it keeps everything; the sweep of threads takes
    those whose last message is old, and no other. *)

From S2P Require Import Prelude JsMap Keys Journal Org OwnedName Work Prog Claim Json Hash Format Taint RunIdentity ThreadOwner Cost ToolTypes Limits RunCost Budget BudgetUsage Retention RetentionFacts RetentionCascade RetentionSweep RetentionThreads.

(** ** The thread of a key *)

Lemma cut_suffix_sound xs rest t : cut_suffix xs rest = Some t → ∃ x, x ∈ xs ∧ rest = t +:+ x ∧ t ≠ "".
Proof.
  induction xs as [|x xs IH]; cbn [cut_suffix]; [done|]. destruct (truthy (strip_suffix x rest)) as [u|] eqn:Hu.
  - intros [= ->]. destruct (strip_suffix x rest) as [v|] eqn:Hs; simpl in Hu; [|done].
    destruct (String.eqb_spec v "") as [|Hne]; [done|]. injection Hu as ->. apply strip_suffix_Some in Hs. exists x. split_and!; [by left|done|done].
  - intros (y & ? & ? & ?)%IH. exists y. split_and!; [by right|done|done].
Qed.

Lemma last_index_sound sep s i : last_index sep s = Some i → ∃ r, s = String.substring 0 i s +:+ sep +:+ r.
Proof.
  revert i. induction s as [|c s IH]; intros i; cbn [last_index].
  - destruct (String.eqb_spec sep "") as [->|]; [|done]. intros [= <-]. by exists "".
  - destruct (last_index sep s) as [j|].
    + intros [= <-]. destruct (IH j eq_refl) as [r Hr]. exists r.
      change (String c s = String c (String.substring 0 j s +:+ sep +:+ r)). by f_equal.
    + destruct (starts_with sep (String c s)) eqn:Hp; [|done]. intros [= <-]. apply starts_with_spec in Hp as [r Hr]. by exists r.
Qed.

Lemma last_family_sound rest i :
  last_family rest = Some i → ∃ fam r, fam ∈ XTHR_FAMILIES ∧ rest = String.substring 0 i rest +:+ fam +:+ r.
Proof.
  unfold last_family. assert (Hgen : ∀ l cut, (∀ c, cut = Some c → ∃ fam r, fam ∈ XTHR_FAMILIES ∧ rest = String.substring 0 c rest +:+ fam +:+ r) →
    l ⊆ XTHR_FAMILIES → fold_left (λ cut fam, match last_index fam rest, cut with
                        | Some i, Some c => Some (Nat.max i c) | Some i, None => Some i | None, _ => cut end) l cut = Some i →
    ∃ fam r, fam ∈ XTHR_FAMILIES ∧ rest = String.substring 0 i rest +:+ fam +:+ r).
  { induction l as [|fam l IH]; intros cut Hcut Hl; cbn [fold_left]; [by apply Hcut|].
    apply IH; [|set_solver]. intros c. destruct (last_index fam rest) as [j|] eqn:Hj; [|by apply Hcut].
    apply last_index_sound in Hj as [r Hr]. assert (Hfam : fam ∈ XTHR_FAMILIES) by set_solver.
    destruct cut as [c'|].
    - intros [= <-]. destruct (Nat.max_dec j c') as [->| ->]; [by exists fam, r|by apply Hcut].
    - intros [= <-]. by exists fam, r. }
  apply Hgen; [done|done].
Qed.

Lemma starts_family t fam r : fam ∈ XTHR_FAMILIES → starts_with (t +:+ ":") (t +:+ fam +:+ r) = true.
Proof.
  intros Hf. rewrite starts_with_app_app. unfold XTHR_FAMILIES in Hf.
  repeat (apply elem_of_cons in Hf as [->|Hf]; [done|]). inversion Hf.
Qed.

(** A key of a thread, for a prefix and the rule that names the thread. *)
Definition names_thread (prefix : string) (ownerOf : string → option string) : Prop :=
  ∀ k t, starts_with prefix k = true → ownerOf k = Some t → starts_with (prefix +:+ t +:+ ":") k = true.

Lemma slice_prefix p k : starts_with p k = true → k = p +:+ slice (String.length p) k.
Proof. intros [r ->]%starts_with_spec. by rewrite slice_app. Qed.

Lemma mem_names : names_thread MEM_PREFIX threadIdOfMemKey.
Proof.
  intros k t Hp%slice_prefix Ho. rewrite Hp, starts_with_app_app. apply cut_suffix_sound in Ho as (x & Hx & -> & _).
  rewrite starts_with_app_app. apply list_elem_of_fmap in Hx as (leaf & -> & _). apply starts_with_app.
Qed.

Lemma om_names : names_thread OM_PREFIX threadIdOfOmKey.
Proof.
  intros k t Hp%slice_prefix. unfold threadIdOfOmKey. cbv zeta. revert Hp.
  generalize (slice (String.length OM_PREFIX) k). intros rest ->. rewrite starts_with_app_app. destruct (cut_suffix OM_SUFFIXES rest) as [u|] eqn:Hc.
  - intros [= ->]. apply cut_suffix_sound in Hc as (x & Hx & -> & _). rewrite starts_with_app_app.
    apply list_elem_of_fmap in Hx as (leaf & -> & _). apply starts_with_app.
  - destruct (last_index ":proc:" rest) as [[|i]|] eqn:Hi; [done| |done]. intros [= <-]. apply last_index_sound in Hi as [r Hr].
    rewrite Hr at 2. by rewrite starts_with_app_app.
Qed.

Lemma xthr_names : names_thread XTHR_PREFIX threadIdOfXthrKey.
Proof.
  intros k t Hp%slice_prefix. unfold threadIdOfXthrKey. cbv zeta. revert Hp.
  generalize (slice (String.length XTHR_PREFIX) k). intros rest ->. rewrite starts_with_app_app. destruct (last_family rest) as [[|i]|] eqn:Hi; [done| |done].
  intros [= <-]. apply last_family_sound in Hi as (fam & r & Hf & Hr). rewrite Hr at 2. by apply starts_family.
Qed.

Lemma filter_ext_in {A} (P P' : A → Prop) `{!∀ x, Decision (P x)} `{!∀ x, Decision (P' x)} (l : list A) :
  (∀ x, x ∈ l → P x ↔ P' x) → filter P l = filter P' l.
Proof.
  induction l as [|x l IH]; intros Hl; [done|]. rewrite !filter_cons, IH by set_solver.
  pose proof (Hl x ltac:(by left)). repeat case_decide; tauto || done.
Qed.

Section ThreadFacts.
Context {V : Type} `{!JsValue V, !Embed organization_usage V, !Embed pricing_doc V, !Embed js V,
  !Embed owner_record V, !Embed thread_owner_record V} {Q R : Type}.
Variable h : oracle Q R retention_error.
Implicit Types w : world V Q.

(** What a purge of a thread takes below a prefix. *)
Definition thread_part (prefix t : string) (ownerOf : string → option string) (k : string) : bool :=
  starts_with (prefix +:+ t +:+ ":") k && negb (foreign_key ownerOf t (prefix +:+ t +:+ ":") k).

Lemma purgeThreadNamespace_spec prefix t ownerOf w :
  ∃ n w', purgeThreadNamespace h full_caps prefix t ownerOf w = (Ok n, w') ∧ shrinks w w' ∧
    ∀ k, jkey k w' = if thread_part prefix t ownerOf k then None else jkey k w.
Proof.
  unfold purgeThreadNamespace, thread_part. cbn [has_listKeys full_caps]. set (scope := prefix +:+ t +:+ ":").
  set (keys := mj_listKeys scope (jr w)). set (f := foreign_key ownerOf t scope).
  erewrite (bind_ok _ _ _ keys w) by done. destruct (existsb f keys) eqn:Hf.
  - destruct (deleteExactKeys_spec h (filter (λ k, f k = false) keys) w) as (n & w' & Hrun & Hsh & Hv).
    exists n, w'. split_and!; [done..|]. intros k. rewrite Hv. unfold keys.
    case_bool_decide as Hin; rewrite list_elem_of_filter, elem_of_listing in Hin.
    + destruct Hin as (Hk & -> & _). by rewrite Hk.
    + destruct (starts_with scope k); [|done]. destruct (f k); [done|]. cbn [negb andb].
      destruct (jkey k w) eqn:Hk; [|done]. exfalso. apply Hin. split_and!; [done..|by eapply shown_stored].
  - eexists _, (snd (del scope w)). split_and!; [reflexivity|apply del_shrinks|]. intros k. rewrite jkey_del.
    destruct (starts_with scope k) eqn:Hp; [|done]. destruct (f k) eqn:Hfk; [|done]. cbn [negb andb].
    destruct (jkey k w) as [v|] eqn:Hk; [|done]. exfalso. apply not_true_iff_false in Hf. apply Hf, existsb_exists. exists k.
    split; [|done]. apply list_elem_of_In, elem_of_listing. split; [done|by eapply shown_stored].
Qed.

(** The records of a thread, and the traces that point at it. *)
Definition thread_key (t k : string) : bool :=
  thread_part MEM_PREFIX t threadIdOfMemKey k || thread_part XTHR_PREFIX t threadIdOfXthrKey k ||
  thread_part OM_PREFIX t threadIdOfOmKey k ||
  (starts_with RESTHR_PREFIX k && from_option (λ x, String.eqb (snd x) t) false (trace_of k)).

(** Everything a purge of the thread takes: what its owner record's key is a prefix of, too. *)
Definition purged_key w (t k : string) : bool :=
  thread_key t k || (bool_decide (is_Some (jkey (threadOwnerKey t) w)) && starts_with (threadOwnerKey t) k).

Lemma owner_key_no_thread_key t u : thread_key t (threadOwnerKey u) = false.
Proof. reflexivity. Qed.

Lemma purgeThread_spec t w :
  ∃ n w', purgeThread h full_caps t w = (Ok n, w') ∧ shrinks w w' ∧ ∀ k, jkey k w' = if purged_key w t k then None else jkey k w.
Proof.
  unfold purgeThread. cbn [has_listKeys full_caps].
  destruct (purgeThreadNamespace_spec MEM_PREFIX t threadIdOfMemKey w) as (n1 & w1 & H1 & S1 & V1). erewrite bind_ok by exact H1.
  destruct (purgeThreadNamespace_spec XTHR_PREFIX t threadIdOfXthrKey w1) as (n2 & w2 & H2 & S2 & V2). erewrite bind_ok by exact H2.
  destruct (purgeThreadNamespace_spec OM_PREFIX t threadIdOfOmKey w2) as (n3 & w3 & H3 & S3 & V3). erewrite bind_ok by exact H3.
  erewrite (bind_ok _ _ _ (jkey (threadOwnerKey t) w3) w3) by done.
  assert (Ho : jkey (threadOwnerKey t) w3 = jkey (threadOwnerKey t) w) by (rewrite V3, V2, V1; reflexivity). rewrite Ho.
  assert (∃ n4 w4, (match jkey (threadOwnerKey t) w with Some _ => del (threadOwnerKey t) | None => mret 0 end) w3 = (Ok n4, w4) ∧
    shrinks w3 w4 ∧ ∀ k, jkey k w4 = if bool_decide (is_Some (jkey (threadOwnerKey t) w)) && starts_with (threadOwnerKey t) k then None else jkey k w3)
    as (n4 & w4 & H4 & S4 & V4).
  { destruct (jkey (threadOwnerKey t) w).
    - eexists _, (snd (del (threadOwnerKey t) w3)). split_and!; [reflexivity|apply del_shrinks|]. intros k. by rewrite jkey_del.
    - eexists _, w3. split_and!; done. }
  erewrite bind_ok by exact H4. set (keys := mj_listKeys RESTHR_PREFIX (jr w4)).
  destruct (deleteExactKeys_spec h (traces_to t keys) w4) as (n5 & w5 & H5 & S5 & V5).
  erewrite bind_ok. 2:{ erewrite (bind_ok _ _ _ keys w4) by done. exact H5. }
  eexists _, w5. split_and!; [done|by repeat (etransitivity; [eassumption|])|]. intros k.
  assert (Ht : (if bool_decide (k ∈ traces_to t keys) then None else jkey k w4) =
               if starts_with RESTHR_PREFIX k && from_option (λ x, String.eqb (snd x) t) false (trace_of k) then None else jkey k w4).
  { unfold traces_to, keys. destruct (bool_decide_reflect (k ∈ filter (λ k0, from_option (λ x, String.eqb (snd x) t) false (trace_of k0) = true) (mj_listKeys RESTHR_PREFIX (jr w4)))) as [Hin|Hin]; rewrite list_elem_of_filter, elem_of_listing in Hin.
    - destruct Hin as (-> & -> & _). done.
    - destruct (starts_with RESTHR_PREFIX k); [|done]. destruct (from_option _ false (trace_of k)); [|done]. cbn [andb].
      destruct (jkey k w4) eqn:Hk; [|done]. exfalso. apply Hin. split_and!; [done..|by eapply shown_stored]. }
  rewrite V5, Ht, V4, V3, V2, V1. unfold purged_key, thread_key.
  destruct (thread_part MEM_PREFIX _ _ _), (thread_part XTHR_PREFIX _ _ _), (thread_part OM_PREFIX _ _ _),
    (starts_with RESTHR_PREFIX k && _), (bool_decide _ && starts_with (threadOwnerKey t) k); done.
Qed.

Lemma thread_part_own prefix t ownerOf k :
  names_thread prefix ownerOf → starts_with prefix k = true → ownerOf k = Some t → thread_part prefix t ownerOf k = true.
Proof.
  intros Hn Hp Ho. unfold thread_part, foreign_key. rewrite (Hn k t Hp Ho), Ho, String.eqb_refl. done.
Qed.

Lemma thread_part_other prefix t u ownerOf k : ownerOf k = Some u → u ≠ t → thread_part prefix t ownerOf k = false.
Proof.
  intros Ho Hne. unfold thread_part, foreign_key. rewrite Ho. apply String.eqb_neq in Hne. by rewrite Hne, andb_false_r.
Qed.

(** The families a thread's records are in, and the rule that names the thread. *)
Definition family (prefix : string) (ownerOf : string → option string) : Prop :=
  (prefix = MEM_PREFIX ∧ ownerOf = threadIdOfMemKey) ∨ (prefix = XTHR_PREFIX ∧ ownerOf = threadIdOfXthrKey) ∨
  (prefix = OM_PREFIX ∧ ownerOf = threadIdOfOmKey).

Lemma family_key prefix ownerOf t u k :
  family prefix ownerOf → starts_with prefix k = true → ownerOf k = Some u → thread_key t k = String.eqb u t.
Proof.
  intros Hf Hp Ho.
  assert (Hthis : thread_part prefix t ownerOf k = String.eqb u t).
  { destruct (String.eqb_spec u t) as [->|Hne]; [|by eapply thread_part_other].
    apply thread_part_own; [|done..]. destruct Hf as [[-> ->]|[[-> ->]|[-> ->]]]; [apply mem_names|apply xthr_names|apply om_names]. }
  unfold thread_key. pose proof (starts_with_spec prefix k) as [Hk _]. destruct (Hk Hp) as [s ->].
  destruct Hf as [[-> ->]|[[-> ->]|[-> ->]]]; rewrite Hthis; unfold thread_part; cbn; by rewrite ?orb_false_r.
Qed.

Lemma purgeThread_family t w prefix ownerOf k u w' :
  (∀ k, jkey k w' = if purged_key w t k then None else jkey k w) →
  family prefix ownerOf → starts_with prefix k = true → ownerOf k = Some u →
  jkey k w' = if String.eqb u t then None else jkey k w.
Proof.
  intros Hv Hf Hp Ho. rewrite Hv. unfold purged_key. rewrite (family_key prefix ownerOf t u k Hf Hp Ho).
  assert (Hn : starts_with (threadOwnerKey t) k = false); [|by rewrite Hn, andb_false_r, orb_false_r].
  pose proof (starts_with_spec prefix k) as [Hk _]. destruct (Hk Hp) as [s ->]. by destruct Hf as [[-> _]|[[-> _]|[-> _]]].
Qed.

(** C24: The purge of a thread is exact.  It takes the records of the thread in its three families,
    the traces that point at it, and, when it has an owner record, the keys that record's key
    is a prefix of; whatever belongs to another thread in those families stays. *)
Theorem purgeThread_exact (t : string) w :
  ∃ n w', purgeThread h full_caps t w = (Ok n, w') ∧
    (∀ k, jkey k w' = if purged_key w t k then None else jkey k w) ∧
    (∀ prefix ownerOf k u, family prefix ownerOf → starts_with prefix k = true → ownerOf k = Some u →
       jkey k w' = if String.eqb u t then None else jkey k w) ∧
    (∀ who, jkey (ownershipTraceKey who t) w' = None) ∧ jkey (threadOwnerKey t) w' = None.
Proof.
  destruct (purgeThread_spec t w) as (n & w' & Hrun & _ & Hv). exists n, w'. split_and!; [done..| | |].
  - intros prefix ownerOf k u. by apply purgeThread_family.
  - intros who. rewrite Hv. unfold purged_key, thread_key.
    assert (Ht : trace_of (ownershipTraceKey who t) = Some (escOwnerPart who, t)).
    { unfold trace_of, ownershipTraceKey. change (slice _ _) with (escOwnerPart who +:+ ":" +:+ t).
      induction who as [|c who IH]; [done|]. cbn [escOwnerPart].
      destruct (Ascii.eqb c "%") eqn:H1; [cbn in *; by rewrite IH|]. destruct (Ascii.eqb c ":") eqn:H2; cbn in *; [by rewrite IH|].
      rewrite H2. by rewrite IH. }
    rewrite Ht. cbn [from_option snd]. rewrite String.eqb_refl, andb_true_r.
    change (starts_with RESTHR_PREFIX (ownershipTraceKey who t)) with true. by rewrite !orb_true_r.
  - rewrite Hv. unfold purged_key. rewrite owner_key_no_thread_key. cbn [orb].
    pose proof (starts_with_app (threadOwnerKey t) "") as Hp. rewrite str_app_nil_r in Hp. rewrite Hp, andb_true_r.
    case_bool_decide as Hs; [done|]. destruct (jkey (threadOwnerKey t) w); [|done]. exfalso. apply Hs. by eexists.
Qed.

(** ** The sweep of threads *)

Variable dateParse : string → option Z.

(** When the last message of a thread was written, as far as its messages say. *)
Definition last_message w (t : string) : option Z :=
  max_of (omap (readMessageTs dateParse) (messages_of (jkey (MEM_PREFIX +:+ t +:+ ":messages") w))).

Definition old_thread (now older : Z) w (t : string) : bool :=
  match last_message w t with Some last => (older <? now - last)%Z | None => false end.

Definition undated_thread w (t : string) : bool := bool_decide (last_message w t = None).

Lemma as_set_NoDup l acc : NoDup acc → NoDup (as_set l acc).
Proof using Type.
  revert acc. induction l as [|x l IH]; intros acc Hacc; cbn [as_set]; [done|]. apply IH.
  case_bool_decide; [done|]. apply NoDup_app. split_and!; [done| |apply NoDup_singleton]. intros y Hy ->%list_elem_of_singleton. done.
Qed.

Lemma known_threads_nonempty keys t : t ∈ known_threads keys → t ≠ "".
Proof using Type.
  unfold known_threads. rewrite as_set_spec. intros [Hin|(k & _ & Hk)%list_elem_of_omap]; [inversion Hin|].
  by apply cut_suffix_sound in Hk as (x & _ & _ & Hne).
Qed.

Lemma messages_key_thread t : t ≠ "" → threadIdOfMemKey (MEM_PREFIX +:+ t +:+ ":messages") = Some t.
Proof using Type.
  intros Hne. unfold threadIdOfMemKey. rewrite slice_app. change MEM_SUFFIXES with [":messages"; ":working"]. cbn [cut_suffix].
  rewrite strip_suffix_app. simpl. apply String.eqb_neq in Hne. by rewrite Hne.
Qed.

Lemma sweep_threads_spec now older ts r w :
  NoDup ts → (∀ t, t ∈ ts → t ≠ "") → tsr_orphanThreadState r = [] → tsr_unrecognisedXthrKeys r = [] →
  ∃ w', sweep_threads h full_caps dateParse now older ts r w =
      (Ok (ThreadSweepResult (tsr_scanned r + length ts) (tsr_purged r ++ filter (λ t, old_thread now older w t = true) ts)
             (tsr_keptNoTs r + count_if (undated_thread w) ts) [] []), w') ∧
    ∀ prefix ownerOf k u, family prefix ownerOf → starts_with prefix k = true → ownerOf k = Some u →
      jkey k w' = if bool_decide (u ∈ filter (λ t, old_thread now older w t = true) ts) then None else jkey k w.
Proof using Type.
  revert r w. induction ts as [|t ts IH]; intros r w Hnd Hne Ho Hu; cbn [sweep_threads].
  { exists w. rewrite filter_nil, app_nil_r, !Nat.add_0_r. split; [destruct r; cbn in *; by subst|].
    intros prefix ownerOf k u _ _ _. rewrite bool_decide_eq_false_2; [done|]. intros Hin. inversion Hin. }
  apply NoDup_cons in Hnd as [Ht Hnd]. erewrite (bind_ok _ _ _ (jkey (MEM_PREFIX +:+ t +:+ ":messages") w) w) by done.
  fold (last_message w t). rewrite filter_cons, count_if_cons. cbn [length].
  assert (Hstep : ∀ r w1, tsr_orphanThreadState r = [] → tsr_unrecognisedXthrKeys r = [] →
     (∀ u, u ∈ ts → last_message w1 u = last_message w u) →
     ∃ w', sweep_threads h full_caps dateParse now older ts r w1 =
      (Ok (ThreadSweepResult (tsr_scanned r + length ts) (tsr_purged r ++ filter (λ t, old_thread now older w t = true) ts)
             (tsr_keptNoTs r + count_if (undated_thread w) ts) [] []), w') ∧
       ∀ prefix ownerOf k u, family prefix ownerOf → starts_with prefix k = true → ownerOf k = Some u →
         jkey k w' = if bool_decide (u ∈ filter (λ t, old_thread now older w t = true) ts) then None else jkey k w1).
  { intros r1 w1 H1 H2 Hsame. destruct (IH r1 w1 Hnd) as (w' & Hrun & Hv); [set_solver|done..|].
    assert (Hf : filter (λ t, old_thread now older w1 t = true) ts = filter (λ t, old_thread now older w t = true) ts).
    { apply filter_ext_in. intros u Hin. unfold old_thread. by rewrite Hsame. }
    assert (Hc : count_if (undated_thread w1) ts = count_if (undated_thread w) ts).
    { unfold count_if. f_equal. apply filter_ext_in. intros u Hin. unfold undated_thread. by rewrite Hsame. }
    exists w'. rewrite Hrun, Hf, Hc. split; [done|]. intros prefix ownerOf k u Hfam Hp Hk. rewrite <- Hf. by apply (Hv prefix ownerOf). }
  assert (Hot : old_thread now older w t = match last_message w t with Some last => (older <? now - last)%Z | None => false end) by done.
  assert (Hut : undated_thread w t = match last_message w t with Some _ => false | None => true end).
  { unfold undated_thread. by destruct (last_message w t). }
  rewrite Hut. destruct (last_message w t) as [last|].
  - destruct (older <? now - last)%Z.
    + rewrite decide_True by done. destruct (purgeThread_spec t w) as (n & w1 & H1 & _ & V1). erewrite bind_ok by exact H1.
      destruct (Hstep (ThreadSweepResult (S (tsr_scanned r)) (tsr_purged r ++ [t]) (tsr_keptNoTs r) [] []) w1) as (w' & Hrun & Hv); [done..| |].
      { intros u Hin. unfold last_message. rewrite (purgeThread_family t w MEM_PREFIX threadIdOfMemKey _ u w1 V1); [|by left|apply starts_with_app|apply messages_key_thread; apply Hne; by right].
        destruct (String.eqb_spec u t) as [->|]; done. }
      exists w'. rewrite Hrun. split; [cbn; by rewrite <- app_assoc, Nat.add_succ_r|].
      intros prefix ownerOf k u Hfam Hp Hk. rewrite (Hv prefix ownerOf k u Hfam Hp Hk), (purgeThread_family t w prefix ownerOf k u w1 V1 Hfam Hp Hk).
      destruct (String.eqb_spec u t) as [->|Hne']; [rewrite (bool_decide_eq_true_2 (t ∈ t :: _)) by (by left); by case_bool_decide|].
      rewrite (bool_decide_ext (u ∈ t :: _) (u ∈ filter (λ t, old_thread now older w t = true) ts)); [done|]. rewrite elem_of_cons. naive_solver.
    + rewrite decide_False by congruence. destruct (Hstep (ThreadSweepResult (S (tsr_scanned r)) (tsr_purged r) (tsr_keptNoTs r) [] []) w) as (w' & Hrun & Hv); [done..|].
      exists w'. rewrite Hrun. split; [cbn; by rewrite Nat.add_succ_r|done].
  - rewrite decide_False by congruence. destruct (Hstep (ThreadSweepResult (S (tsr_scanned r)) (tsr_purged r) (S (tsr_keptNoTs r)) [] []) w) as (w' & Hrun & Hv); [done..|].
    exists w'. rewrite Hrun. split; [cbn; by rewrite !Nat.add_succ_r|done].
Qed.

(** The sweep of threads purges exactly the threads of the journal's memory whose last dated
    message is older than the threshold; a thread without a dated message is kept and counted,
    and no record of a thread that is not purged is touched. *)
Theorem sweepThreads_exact (older now : Z) w :
  let known := known_threads (mj_listKeys MEM_PREFIX (jr w)) in
  ∃ r w', sweepThreads h full_caps dateParse older (Some now) w = (Ok r, w') ∧
    tsr_scanned r = length known ∧ tsr_purged r = filter (λ t, old_thread now older w t = true) known ∧
    tsr_keptNoTs r = count_if (undated_thread w) known ∧
    ∀ prefix ownerOf k u, family prefix ownerOf → starts_with prefix k = true → ownerOf k = Some u →
      jkey k w' = if bool_decide (u ∈ tsr_purged r) then None else jkey k w.
Proof using Type.
  intros known. unfold sweepThreads. cbn [has_listKeys full_caps]. erewrite (bind_ok _ _ _ now w) by done.
  erewrite (bind_ok _ _ _ (mj_listKeys MEM_PREFIX (jr w)) w) by done. fold known.
  destruct (sweep_threads_spec now older known (ThreadSweepResult 0 [] 0 [] []) w) as (w' & Hrun & Hv);
    [apply as_set_NoDup, NoDup_nil_2|apply known_threads_nonempty|done..|].
  erewrite bind_ok by exact Hrun. erewrite (bind_ok _ _ _ (mj_listKeys XTHR_PREFIX (jr w')) w') by done.
  eexists _, w'. split_and!; [done..|]. exact Hv.
Qed.
End ThreadFacts.

(** ** Examples *)

Inductive retention_entry := RBudget (b : budget_entry) | RThread (r : thread_owner_record).

Definition retention_entry_eq_dec : EqDecision retention_entry.
Proof.
  assert (EqDecision budget_entry) by exact budget_entry_eq_dec. solve_decision.
Defined.

#[global] Instance retention_entry_js : JsValue retention_entry := {|
  js_eq_dec := retention_entry_eq_dec;
  str_field v f := match v with RBudget b => str_field b f | RThread r => if String.eqb f "resourceId" then to_resourceId r else None end;
  is_versioned v := match v with RBudget b => is_versioned b | RThread _ => false end;
  ser_length v := match v with RBudget b => ser_length b | RThread _ => 0 end;
|}.

#[global] Instance thread_record_embed : Embed thread_owner_record retention_entry :=
  {| inj := RThread; prj v := match v with RThread r => Some r | RBudget _ => None end; prj_inj _ := eq_refl |}.
#[global] Instance rest_embed {T} `{!Embed T budget_entry} : Embed T retention_entry.
Proof.
  refine {| inj x := RBudget (inj x); prj b := match b with RBudget e => prj e | RThread _ => None end |}.
  intros t. apply prj_inj.
Defined.

Section ThreadExamples.
Let h0 : oracle unit unit retention_error := λ _ _, Ok tt.
Let put k v (j : mem_journal retention_entry) := mj_put 0 k v j.
Let at_ (j : mem_journal retention_entry) : world retention_entry unit := World j 0 10000 [] empty_work.
Let plain (l : list (string * js)) : retention_entry := RBudget (BEntry (EJs (JObj l))).
Let owned (who : string) : retention_entry := RThread (ThreadOwnerRecord 5 (Some who) None [] None).
Let said (t : Z) : retention_entry := RBudget (BEntry (EJs (JArr [JObj [("at", JNum t)]]))).

(** A thread, a thread whose id extends it, and the traces that point at them. *)
Let j1 : mem_journal retention_entry :=
  put "resthr:bob:tenant:7:chat" (plain []) (put "resthr:ayse:tenant:7" (plain [])
    (put "xthr:tenant:7:chat:dup-1" (plain []) (put "xthr:tenant:7:dup-1" (plain []) (put "mem:tenant:7:summary" (plain [])
    (put "mem:tenant:7:chat:messages" (said 9900) (put "mem:tenant:7:messages" (said 5) empty_journal)))))).

Example purged_thread :
  mkeys (store (jr (snd (purgeThread h0 full_caps "tenant:7" (at_ j1))))) =
    ["mem:tenant:7:chat:messages"; "xthr:tenant:7:chat:dup-1"; "resthr:bob:tenant:7:chat"].
Proof. vm_compute. reflexivity. Qed.

Example swept_threads :
  fst (sweepThreads h0 full_caps (λ _, None) 1000 None (at_ j1)) = Ok (ThreadSweepResult 2 ["tenant:7"] 0 [] []).
Proof. vm_compute. reflexivity. Qed.

(** The owner record of the thread [t:owner2], and its taint records, go with the thread [t]:
    the next run on [t:owner2] may be anybody's. *)
Example neighbours_owner_is_taken :
  let w := at_ (put "mem:t:owner2:messages" (said 5) (put (threadOwnerKey "t:owner2") (owned "bob") (put (threadOwnerKey "t") (owned "ayse") empty_journal))) in
  let w' := snd (purgeThread h0 full_caps "t" w) in
  jkey (threadOwnerKey "t:owner2") w = Some (owned "bob") ∧ jkey (threadOwnerKey "t:owner2") w' = None ∧
  is_Some (jkey "mem:t:owner2:messages" w').
Proof. vm_compute. split_and!; [reflexivity|reflexivity|by eexists]. Qed.

(** The erasure of a person: her run, her thread and its trace go; his run on her thread keeps
    the thread, which has an owner record, from going with him. *)
Let j2 : mem_journal retention_entry :=
  put "mem:th:messages" (said 5) (put (threadOwnerKey "th") (owned "ayse") (put "resthr:ayse:th" (plain [])
    (put "lesson:res:ayse:u1" (plain []) (put "r2:input" (plain [("_v", JNum 1); ("resourceId", JStr "bob"); ("threadId", JStr "th")])
    (put "r1:input" (plain [("_v", JNum 1); ("resourceId", JStr "ayse"); ("threadId", JStr "th")]) empty_journal))))).

Example erased_people :
  mkeys (store (jr (snd (purgeResource h0 full_caps true 5 "ayse" None None false (at_ j2))))) = ["r2:input"] ∧
  mkeys (store (jr (snd (purgeResource h0 full_caps true 5 "bob" None None false (at_ j2))))) =
    ["r1:input"; "lesson:res:ayse:u1"; "resthr:ayse:th"; "thread:th:owner"; "mem:th:messages"].
Proof. vm_compute. by split. Qed.
End ThreadExamples.
