(* ===== verification/ToolStore.v ===== *)
(** * ToolStore: how a tool call writes and reads its record

    Models the helpers of [packages/durable/src/durable-tool.ts]: the terminal write with
    its mirror and duplicate marker, the reuse of an existing record, the duplicate marker
    itself, and the answer to a blocked call.

    Left out of the model of this file, here and in the files that build on it: tools with
    a [semanticIdentity] and the semantic part of [sideEffectDuplicates] (the arguments
    [semPlan] and [xidPlan] are then absent), the replay log (in memory only) and console
    warnings.  Texts meant for a human or the model are the parameter [text], applied to a
    tag and the values interpolated. *)

From S2P Require Import Prelude JsMap Keys Journal Work Prog Claim Json Hash Format Taint RunIdentity Cost ToolTypes Limits.

(** ** The context of a run, and a tool's declaration *)

Record durable_ctx := DurableCtx {
  c_runId : string;
  c_threadId : option string;
  c_noApprovals : bool;
  c_identity : caller;
  c_channel : option string;
  c_guard : bool;                                 (** a guard is configured *)
  c_approvals : option (list (string * bool));
  c_strictReplay : bool;
  c_replayCache : option (jsmap entry);
  c_limits : option run_limits;
  c_blockedAsSentinel : bool;
  c_toolTimeoutMs : option Z;
  c_claimTtlMs : option Z;
  c_processors : nat;                             (** tool-result processors *)
  c_orgScope : option string;
  c_absent : list string;                         (** nested runs known absent, see [Limits] *)
}.

Inductive idempotency_window := WRun | WCrossRun | WThread.

#[global] Instance idempotency_window_eq_dec : EqDecision idempotency_window.
Proof. solve_decision. Defined.

(** [ts_confirm]: [Some None] is [true] or an object without [reason]. *)
Record tool_spec := ToolSpec {
  ts_name : string;
  ts_window : idempotency_window;
  ts_argsMode : bool;                             (** [idempotency: 'args'] *)
  ts_idempotencyKey : option (js → js);
  ts_sideEffect : option bool;
  ts_idempotent : option bool;
  ts_effectClass : option effect_class;
  ts_untrusted : bool;
  ts_confirm : option (option (js → option string));
  ts_recover : bool;
  ts_lookup : bool;
  ts_compensate : bool;
  ts_timeoutMs : option Z;
  ts_claimTtlMs : option Z;
  ts_maxRetries : option Z;
}.

(** [tool.sideEffect ?? tool.idempotent !== true]. *)
Definition side_effect (t : tool_spec) : bool :=
  match ts_sideEffect t with Some b => b | None => negb (default false (ts_idempotent t)) end.

(** A step either answers the call, or goes on with a value. *)
Inductive flow (A : Type) : Type :=
| Answer (output : js)
| Next (a : A).
Arguments Answer {A}. Arguments Next {A}.

Definition obj_with (k : string) (v o : js) : js :=
  match o with JObj l => JObj (mset k v l) | _ => JObj [(k, v)] end.

(** ** Policies for duplicates *)

Record dup_config := DupConfig { dc_action : dup_action; dc_scope : dup_scope; dc_ttlMs : option Z }.

Definition config_of (s : dup_spec) : dup_config :=
  DupConfig (ds_action s) (default DupRun (ds_scope s)) (ds_ttlMs s).

Definition class_spec (byClass : list (effect_class * dup_spec)) (c : effect_class) : option dup_spec :=
  snd <$> List.find (λ p, bool_decide (fst p = c)) byClass.

Definition dupConfigOf (raw : option dup_setting) (c : option effect_class) : dup_config :=
  match raw with
  | Some (DupByClass byClass dflt) =>
      match c ≫= class_spec byClass, dflt with
      | Some s, _ | None, Some s => config_of s
      | None, None => DupConfig DupWarn DupRun None
      end
  | Some (DupOne s) => config_of s
  | Some (DupAction a) => DupConfig a DupRun None
  | None => DupConfig DupWarn DupRun None
  end.

Definition dupMarkerKey (runId toolName hash : string) : string :=
  rk_proc runId ("dup-" +:+ toolName +:+ "-" +:+ hash).

Definition threadDupMarkerKey (threadId toolName hash : string) : outcome key_error string :=
  match assertThreadId threadId with
  | Err e => Err e
  | Ok _ => Ok ("xthr:" +:+ threadId +:+ ":dup-" +:+ toolName +:+ "-" +:+ hash)
  end.

(** Is a marker left by another call free to be taken? *)
Definition dup_takeable (cur : dup_marker) (now staleTtlMs : Z) (windowTtlMs : option Z) : bool :=
  let windowExpired := match windowTtlMs with
                       | Some w => negb (dm_inFlight cur) && (w <? now - dm_at cur)%Z
                       | None => false
                       end in
  dm_released cur || windowExpired || (dm_inFlight cur && (staleTtlMs <? now - dm_at cur)%Z).

(** ** Suspended records *)

(** [output.__gnl_suspend] and its fields. *)
Definition suspend_of (output : js) : js := prop output "__gnl_suspend".
Definition suspend_kind (output : js) : option string := js_str (prop (suspend_of output) "kind").
Definition is_nested (output : js) : bool := bool_decide (suspend_kind output = Some "nested").

(** The tool calls of a nested agent that wait for an answer. *)
Definition nested_calls (output : js) : list string :=
  omap (λ i, js_str (prop i "toolCallId")) (items_of (prop (prop (suspend_of output) "nested") "interrupts")).

Definition approval_of (approvals : option (list (string * bool))) (toolCallId : string) : option bool :=
  approvals ≫= mget toolCallId.

(** [nestedApprovalsFor]. *)
Definition nestedApprovalsFor (record : option tool_record) (approvals : option (list (string * bool)))
    : option (list (string * bool)) :=
  match approvals with
  | None => None
  | Some l =>
      match tr_status <$> record with
      | Some (Suspended output) =>
          if is_nested output then
            Some (fold_left (λ acc c, match mget c l with Some b => mset c b acc | None => acc end)
                    (nested_calls output) [])
          else Some []
      | _ => Some []
      end
  end.

Section ToolStore.
Variable caps : journal_caps.
Variable text : string → list string → string.
Variable ctx : durable_ctx.
Abbreviation prog := (prog entry tool_query js tool_error).

Definition put_record (key : string) (r : tool_record) : prog unit := jput key (inj r).
Definition get_record (key : string) : prog (option tool_record) := v ← jget key; mret (v ≫= prj).

Definition incident_at (source action toolName toolCallId : string) : prog unit :=
  at_ ← dateNow; recordIncident (c_runId ctx) (Incident at_ source action toolName toolCallId).

(** A blocked call ends the run, or answers with a value in a run of several agents. *)
Definition blockedOrThrow {A} (toolCallId toolName : string) (e : tool_error) : prog (flow A) :=
  if c_blockedAsSentinel ctx then
    mret (Answer (JObj [("__gnl_blocked",
      JObj [("toolCallId", JStr toolCallId); ("toolName", JStr toolName); ("code", JStr (error_name e))])]))
  else Throw e.

Definition claimDupMarker (dupKey : string) (next : dup_marker) (staleTtlMs : Z) (windowTtlMs : option Z)
    : prog bool :=
  raw ← jget dupKey;
  match raw with
  | None => claim caps dupKey (inj next)
  | Some v =>
      now ← jnow caps;
      let takeable := match prj v with
                      | Some cur => dup_takeable cur now staleTtlMs windowTtlMs
                      | None => false
                      end in
      if negb takeable then mret false
      else if has_putIfMatch caps then jputIfMatch dupKey v (inj next)
      else _ ← jput dupKey (inj next); mret true
  end.

Definition run_scoped (key : string) : bool := starts_with (c_runId ctx +:+ ":") key.

Definition mirrorUnderRun (key : string) (record : tool_record) (toolCallId : string) : prog unit :=
  if run_scoped key || c_noApprovals ctx then mret tt
  else ptry (λ _, mret tt)
         (put_record (rk_tool (c_runId ctx) toolCallId)
            (ToolRecord (tr_status record) (tr_toolName record) (tr_resolvedToolCallIds record) (Some key))).

(** Finishes the duplicate marker of a success. *)
Definition finish_marker (dupKey toolCallId : string) : prog unit :=
  at_ ← jnow caps;
  let success := DupMarker toolCallId at_ false false false in
  won ← claim caps dupKey (inj success);
  if won : bool then mret tt
  else
    raw ← jget dupKey;
    match raw with
    | None => mret tt
    | Some v =>
        match prj v with
        | Some cur =>
            if dm_released cur || (dm_inFlight cur && String.eqb (dm_firstToolCallId cur) toolCallId) then
              if has_putIfMatch caps then _ ← jputIfMatch dupKey v (inj success); mret tt
              else jput dupKey (inj success)
            else mret tt
        | None => mret tt
        end
    end.

Definition writeToolTerminal (key : string) (s : tool_status) (toolName0 : option string)
    (toolCallId toolName hash : string) (dupKey : option string) : prog unit :=
  let named := ToolRecord s (Some (default toolName (truthy toolName0))) None None in
  let stamped := if is_terminal s then ToolRecord s (tr_toolName named) (Some [toolCallId]) None else named in
  _ ← put_record key stamped;
  _ ← mirrorUnderRun key stamped toolCallId;
  _ ← match dupKey, s with
      | Some k, Succeeded _ _ _ => finish_marker k toolCallId
      | _, _ => mret tt
      end;
  match c_limits ctx with
  | None => mret tt
  | Some l => recordToolOutcome caps LimitsErr (c_runId ctx) toolCallId toolName hash (status_of s) (Some l)
  end.

Definition trackResolvedToolCallId (key : string) (record : tool_record) (toolCallId : string)
    : prog tool_record :=
  if negb (is_terminal (tr_status record)) then mret record
  else
    let ids := default [] (tr_resolvedToolCallIds record) in
    if bool_decide (toolCallId ∈ ids) then mret record
    else
      let updated := ToolRecord (tr_status record) (tr_toolName record) (Some (ids ++ [toolCallId])) (tr_mirrorOf record) in
      _ ← put_record key updated; mret updated.

(** The output of a suspended record, its question addressed to this call. *)
Definition readdressed (output : js) (toolCallId : string) : js :=
  let sus := suspend_of output in
  if js_truthy sus && negb (bool_decide (js_str (prop sus "toolCallId") = Some toolCallId))
  then obj_with "__gnl_suspend" (obj_with "toolCallId" (JStr toolCallId) sus) output
  else output.

Definition with_output (s : tool_status) (o : js) : tool_status :=
  match s with Suspended _ => Suspended o | _ => s end.

Definition consumeExistingRecord (key : string) (record : tool_record) (toolCallId : string) : prog js :=
  latest ← trackResolvedToolCallId key record toolCallId;
  match tr_status latest with
  | Suspended o =>
      let output := readdressed o toolCallId in
      _ ← mirrorUnderRun key (ToolRecord (Suspended output) (tr_toolName latest) (tr_resolvedToolCallIds latest) None)
            toolCallId;
      mret output
  | s => _ ← mirrorUnderRun key latest toolCallId; mret (output_of s)
  end.
End ToolStore.
