(* ===== verification/ToolGuards.v ===== *)
(** * ToolGuards: what a tool call passes before it may run

    Models the first half of [durableTool]'s [execute] in
    [packages/durable/src/durable-tool.ts], in the code's order: the identities of the call,
    the reuse of a final record, the approval gates (suspended record, [confirm], guard), the
    duplicate ladder, the compensated run, the taint ladder and the tool gate.  Each phase
    answers the call, or lets it go on. *)

From S2P Require Import Prelude JsMap Keys Journal Work Prog Claim Json Hash Format Taint RunIdentity Cost ToolTypes Limits ToolStore.

(** [s.includes(sub)]. *)
Fixpoint str_includes (sub s : string) : bool :=
  starts_with sub s || match s with String _ s' => str_includes sub s' | EmptyString => false end.

Definition tombstoneKey (runId : string) : string := rk_proc runId "__gnl_compensated".

Definition semTombKey (threadId toolName priorHash newHash : string) : outcome key_error string :=
  match assertThreadId threadId with
  | Err e => Err e
  | Ok _ => Ok ("xthr:" +:+ threadId +:+ ":semtomb-" +:+ toolName +:+ "-" +:+ priorHash +:+ "-" +:+ newHash)
  end.

(** ** The identities of a call *)

Record call_ids := CallIds {
  ci_toolCallId : string;
  ci_hash : string;
  ci_args : bool;                       (** mode ['args'] *)
  ci_window : idempotency_window;       (** the effective window *)
  ci_key : string;                      (** where the record lives *)
  ci_idempotencyKey : string;           (** what the provider gets *)
  ci_ownerKey : option string;
}.

Definition args_mode (t : tool_spec) : bool :=
  negb (bool_decide (ts_window t = WRun)) || ts_argsMode t ||
  match ts_idempotencyKey t with Some _ => true | None => false end.

Definition effective_window (t : tool_spec) (ctx : durable_ctx) : idempotency_window :=
  match ts_window t, truthy (c_threadId ctx) with
  | WThread, None => WRun
  | w, _ => w
  end.

Definition lift_key {A} (o : outcome key_error A) : outcome tool_error A :=
  match o with Ok a => Ok a | Err e => Err (KeyErr e) end.

Definition omap_ok {E A B} (f : A → outcome E B) (o : outcome E A) : outcome E B :=
  match o with Ok a => f a | Err e => Err e end.

Definition record_key (t : tool_spec) (ctx : durable_ctx) (toolCallId hash : string) : outcome tool_error string :=
  if negb (args_mode t) then Ok (rk_tool (c_runId ctx) toolCallId)
  else match effective_window t ctx with
       | WCrossRun => lift_key (rk_toolCrossRun (ts_name t) hash)
       | WThread => lift_key (rk_toolThread (default "" (c_threadId ctx)) (ts_name t) hash)
       | WRun => lift_key (rk_toolByArgs (c_runId ctx) (ts_name t) hash)
       end.

Definition idempotency_key (t : tool_spec) (ctx : durable_ctx) (toolCallId hash : string) : string :=
  let org := match truthy (c_orgScope ctx) with Some o => "org:" +:+ o +:+ ":" | None => "" end in
  if negb (args_mode t) then org +:+ c_runId ctx +:+ ":" +:+ toolCallId
  else match effective_window t ctx with
       | WCrossRun => org +:+ ts_name t +:+ ":" +:+ hash
       | WThread => org +:+ "thr:" +:+ default "" (c_threadId ctx) +:+ ":" +:+ ts_name t +:+ ":" +:+ hash
       | WRun => org +:+ c_runId ctx +:+ ":" +:+ ts_name t +:+ ":" +:+ hash
       end.

Definition call_ids_of (argsHash : js → outcome string string) (t : tool_spec) (ctx : durable_ctx)
    (toolCallId : string) (input : js) : outcome tool_error call_ids :=
  let hashed := match ts_idempotencyKey t with Some f => argsHash (f input) | None => argsHash input end in
  match hashed with
  | Err ty => Err (HashErr ty)
  | Ok hash =>
      omap_ok (λ key,
        let ids ownerKey := CallIds toolCallId hash (args_mode t) (effective_window t ctx) key
                              (idempotency_key t ctx toolCallId hash) ownerKey in
        if args_mode t && bool_decide (effective_window t ctx = WCrossRun)
        then omap_ok (λ ok, Ok (ids (Some ok))) (lift_key (rk_toolCrossRunOwner (ts_name t) hash))
        else Ok (ids None)) (record_key t ctx toolCallId hash)
  end.

Section ToolGuards.
Variable caps : journal_caps.
Variable text : string → list string → string.
Variable ctx : durable_ctx.
Variable t : tool_spec.
Variable ids : call_ids.
Variable input : js.
Abbreviation prog := (prog entry tool_query js tool_error).

Let runId := c_runId ctx.
Let toolName := ts_name t.
Let toolCallId := ci_toolCallId ids.
Let hash := ci_hash ids.
Let key := ci_key ids.

Definition terminal (s : tool_status) (toolName0 : option string) : prog unit :=
  writeToolTerminal caps ctx key s toolName0 toolCallId toolName hash None.

Definition note (source action : string) : prog unit := incident_at ctx source action toolName toolCallId.

(** [{ __gnl_suspend: { toolCallId, toolName, args, reason, kind } }]. *)
Definition suspend_sentinel (reason : js) (kind : string) (more : list (string * js)) : js :=
  JObj [("__gnl_suspend",
    JObj ([("toolCallId", JStr toolCallId); ("toolName", JStr toolName); ("args", input);
           ("reason", reason); ("kind", JStr kind)] ++ more))].

Definition denied_output (reason : js) : js := JObj [("__denied", JBool true); ("reason", reason)].

Definition limit_exceeded (kind message : string) : js :=
  JObj [("__gnl_limit_exceeded",
    JObj [("toolCallId", JStr toolCallId); ("toolName", JStr toolName); ("kind", JStr kind); ("message", JStr message)])].

(** Ends the call with a record of this status and its output. *)
Definition finish_with (s : tool_status) {A} : prog (flow A) :=
  _ ← terminal s None; mret (Answer (output_of s)).

(** ** Ownership and final records *)

Definition assertCrossRunOwner : prog unit :=
  match ci_ownerKey ids with
  | None => mret tt
  | Some ownerKey =>
      v ← jget ownerKey;
      let owner := fieldsOwner (v ≫= prj) in
      match decideRunAccess (Owned (E:=tool_error) owner KOther true) (c_identity ctx) with
      | Allow => mret tt
      | _ => Throw (IdempotencyOwnerMismatch toolName)
      end
  end.

(** The record, if the call goes on. *)
Definition phase_replay : prog (flow (option tool_record)) :=
  '(v, _) ← ctxGet (λ _ v, Ok v) (c_replayCache ctx) key;
  match v ≫= prj with
  | None => mret (Next None)
  | Some record =>
      _ ← assertCrossRunOwner;
      if is_terminal (tr_status record) then
        let diverged := match tr_status record with
                        | Succeeded _ (Some h) _ => if String.eqb hash h then None else Some h
                        | _ => None
                        end in
        match diverged with
        | Some h => if c_strictReplay ctx then Throw (Divergence key h hash)
                    else o ← consumeExistingRecord ctx key record toolCallId; mret (Answer o)
        | None => o ← consumeExistingRecord ctx key record toolCallId; mret (Answer o)
        end
      else mret (Next (Some record))
  end.

Definition thread_taint : option string :=
  match c_limits ctx with
  | Some l => if l_taintScopeThread l then c_threadId ctx else None
  | None => None
  end.

Definition mark_untrusted : prog unit :=
  if ts_untrusted t then markRunTainted caps runId (TaintMark toolCallId toolName SrcTool None) thread_taint
  else mret tt.

(** ** Approvals *)

(** What the human answered for this call; an answer to a nested agent is none. *)
Definition approved_of (record : option tool_record) : option bool :=
  match tr_status <$> record with
  | Some (Suspended o) => if is_nested o then None else approval_of (c_approvals ctx) toolCallId
  | _ => approval_of (c_approvals ctx) toolCallId
  end.

Definition nested_answered (output : js) : bool :=
  is_nested output &&
  existsb (λ c, match approval_of (c_approvals ctx) c with Some _ => true | None => false end) (nested_calls output).

(** The kind of question a human overrode. *)
Definition override_kind (output : js) : string :=
  let sus := suspend_of output in
  match truthy (js_str (prop sus "kind")) with
  | Some k => k
  | None =>
      let r0 := default "" (js_str (prop sus "reason")) in
      if starts_with "Duplicate side effect" r0 then "duplicate"
      else if starts_with "Semantically similar" r0 then "semantic"
      else if str_includes "explicit confirmation" r0 then "confirm" else "other"
  end.

(** The traces of an override; their loss is ignored. *)
Definition write_override (output : js) : prog unit :=
  _ ← ptry (λ _, mret tt)
        (at_ ← jnow caps;
         jput (rk_proc runId ("override-" +:+ toolCallId))
           (inj (JObj ([("at", JNum at_); ("toolCallId", JStr toolCallId); ("toolName", JStr toolName);
                        ("reason", prop (suspend_of output) "reason"); ("kind", JStr (override_kind output))] ++
                       match truthy (c_channel ctx) with Some c => [("channel", JStr c)] | None => [] end))));
  match js_str (prop (prop (suspend_of output) "semPair") "priorHash"), truthy (c_threadId ctx) with
  | Some prior, Some threadId =>
      if String.eqb prior "" then mret tt
      else ptry (λ _, mret tt)
             (k ← of_outcome (lift_key (semTombKey threadId toolName prior hash));
              at_ ← jnow caps; jput k (inj (JObj [("at", JNum at_); ("by", JStr toolCallId)])))
  | _, _ => mret tt
  end.

Definition phase_suspended (record : tool_record) (output : js) : prog (flow unit) :=
  let approved := approved_of (Some record) in
  match approved with
  | Some false =>
      let r := prop (suspend_of output) "reason" in
      let reason := match js_str r with
                    | Some s => if String.eqb s "" then "Approval denied." else text "refused" [s]
                    | None => "Approval denied."
                    end in
      finish_with (Denied (denied_output (JStr reason)))
  | _ =>
      if negb (bool_decide (approved = Some true)) && negb (nested_answered output)
      then o ← consumeExistingRecord ctx key record toolCallId; mret (Answer o)
      else
        _ ← (if is_nested output then mret tt else write_override output);
        mret (Next tt)
  end.

(** Whether identical work was completed in the conversation, for the [confirm] question. *)
Definition confirm_prior : prog (option string) :=
  match truthy (c_threadId ctx) with
  | None => mret None
  | Some threadId =>
      ptry (λ _, mret None)
        (k ← of_outcome (lift_key (threadDupMarkerKey threadId toolName hash));
         v ← jget k;
         match v ≫= prj with
         | Some m => if dm_inFlight m || dm_released m then mret None else mret (Some (dm_firstToolCallId m))
         | None => mret None
         end)
  end.

Definition phase_confirm (confirm : option (js → option string)) : prog (flow unit) :=
  match approval_of (c_approvals ctx) toolCallId with
  | Some true => mret (Next tt)
  | Some false => finish_with (Denied (denied_output (JStr "Confirmation denied.")))
  | None =>
      let reason0 := default (text "confirm" [toolName]) (confirm ≫= λ f, f input) in
      prior ← confirm_prior;
      let reason := match prior with Some first => reason0 +:+ text "confirm-repeat" [first] | None => reason0 end in
      _ ← match prior with Some _ => note "duplicate-guard" "suspend" | None => mret tt end;
      finish_with (Suspended (suspend_sentinel (JStr reason) "confirm" []))
  end.

(** [decision.reason ?? d]. *)
Definition reason_or (decision : js) (d : string) : js :=
  match nullish (prop decision "reason") with JUndef => JStr d | r => r end.

Definition phase_guard (approved : option bool) : prog (flow unit) :=
  if negb (c_guard ctx) then mret (Next tt)
  else
    tainted ← readRunTaint runId;
    decision ← request (RExt (QGuard toolName toolCallId input tainted));
    match js_str (prop decision "action") with
    | Some action =>
        if String.eqb action "deny" then finish_with (Denied (denied_output (reason_or decision "Denied by policy.")))
        else if String.eqb action "require-approval" then
          match approved with
          | Some false => finish_with (Denied (denied_output (reason_or decision "Approval denied.")))
          | Some true => mret (Next tt)
          | None => finish_with (Suspended (suspend_sentinel (prop decision "reason") "guard" []))
          end
        else mret (Next tt)
    | None => mret (Next tt)
    end.

(** The chain of the three gates. *)
Definition phase_approval (record : option tool_record) : prog (flow unit) :=
  let approved := approved_of record in
  match record, ts_confirm t with
  | Some r, _ =>
      match tr_status r with
      | Suspended output => phase_suspended r output
      | _ => phase_guard approved
      end
  | None, Some confirm =>
      if bool_decide (approved = Some true) then phase_guard approved else phase_confirm confirm
  | None, None => phase_guard approved
  end.

(** ** Duplicate side effects *)

Definition dup_cfg : dup_config := dupConfigOf (c_limits ctx ≫= l_sideEffectDuplicates) (ts_effectClass t).

(** The marker's key, when the call is watched. *)
Definition dup_key : outcome tool_error (option string) :=
  if negb (ci_args ids) && side_effect t && negb (bool_decide (dc_action dup_cfg = DupOff)) then
    match dc_scope dup_cfg, truthy (c_threadId ctx) with
    | DupThread, Some threadId => omap_ok (λ k, Ok (Some k)) (lift_key (threadDupMarkerKey threadId toolName hash))
    | _, _ => Ok (Some (dupMarkerKey runId toolName hash))
    end
  else Ok None.

(** A completed marker, inside the configured window. *)
Definition read_marker (dupKey : string) : prog (option dup_marker) :=
  v ← jget dupKey;
  match v ≫= prj, dc_ttlMs dup_cfg with
  | Some m, Some ttl => now ← jnow caps; mret (if (ttl <? now - dm_at m)%Z then None else Some m)
  | m, _ => mret m
  end.

Definition nudge_key (what : string) : string := rk_proc runId (what +:+ "-" +:+ toolName +:+ "-" +:+ hash).

Definition nudge_record (at_ : Z) : entry := inj (JObj [("at", JNum at_); ("toolCallId", JStr toolCallId)]).

(** The one-time nudge: won by one caller, and noted on the marker. *)
Definition claim_dup_nudge (dupKey : string) (m : dup_marker) : prog bool :=
  if bool_decide (dc_action dup_cfg = DupReflect) && negb (dm_nudged m) then
    at_ ← dateNow;
    won ← claim caps (nudge_key "dupnudge") (nudge_record at_);
    _ ← jput dupKey (inj (DupMarker (dm_firstToolCallId m) (dm_at m) true (dm_inFlight m) (dm_released m)));
    mret won
  else mret false.

Definition dup_text (what : string) (m : dup_marker) : string := text what [toolName; dm_firstToolCallId m].

(** What the policy does with an identical call that already succeeded. *)
Definition on_duplicate (dupKey : string) (m : dup_marker) : prog (flow unit) :=
  won ← claim_dup_nudge dupKey m;
  match dc_action dup_cfg with
  | DupSkip =>
      _ ← note "duplicate-guard" "skip";
      finish_with (Denied (JObj [("__gnl_skipped", JBool true); ("notice", JStr (dup_text "skipped" m))]))
  | DupSuspend =>
      now ← jnow caps;
      _ ← note "duplicate-guard" "suspend";
      finish_with (Suspended (suspend_sentinel (JStr (dup_text "duplicate-suspend" m)) "duplicate"
        [("prior", JObj [("toolCallId", JStr (dm_firstToolCallId m)); ("at", JNum (dm_at m));
                         ("ageMs", JNum (Z.max 0 (now - dm_at m)))])]))
  | DupBlock =>
      _ ← note "duplicate-guard" "block";
      mret (Answer (limit_exceeded "duplicateSideEffect" (dup_text "duplicate-blocked" m)))
  | DupReflect =>
      if dm_nudged m || negb won then
        _ ← note "duplicate-guard" "block";
        mret (Answer (limit_exceeded "duplicateSideEffect" (dup_text "duplicate-blocked" m)))
      else
        _ ← note "duplicate-guard" "reflect";
        finish_with (Reflected (JObj [("__gnl_reflected", JBool true); ("warning", JStr (dup_text "duplicate" m))]) (Some hash))
  | DupWarn | DupOff => _ ← note "duplicate-guard" "warn"; mret (Next tt)
  end.

Definition phase_duplicates (approved : option bool) (dupKey : option string) : prog (flow unit) :=
  match dupKey with
  | Some k =>
      if bool_decide (approved = Some true) then mret (Next tt)
      else
        m ← read_marker k;
        match m with
        | Some m => if dm_released m || dm_inFlight m then mret (Next tt) else on_duplicate k m
        | None => mret (Next tt)
        end
  | None => mret (Next tt)
  end.

(** ** Compensated runs *)

Definition runCompensated : prog bool := v ← jget (tombstoneKey runId); mret (match v with Some _ => true | None => false end).

Definition phase_compensated : prog (flow unit) :=
  if side_effect t then
    c ← runCompensated;
    if c : bool then blockedOrThrow ctx toolCallId toolName (CompensatedRun runId) else mret (Next tt)
  else mret (Next tt).

(** ** Taint *)

Definition on_tainted (action : taint_action) (taint : run_taint) : prog (flow unit) :=
  let say what := text what [toolName; rt_toolName taint; rt_toolCallId taint] in
  match action with
  | TaintBlock =>
      _ ← note "taint-guard" "block";
      mret (Answer (limit_exceeded "taintedSideEffect" (say "taint-block")))
  | TaintSuspend =>
      _ ← note "taint-guard" "suspend";
      finish_with (Suspended (suspend_sentinel (JStr (say "taint-suspend")) "taint" []))
  | TaintReflect =>
      at_ ← dateNow;
      won ← claim caps (nudge_key "taintnudge") (nudge_record at_);
      if won : bool then
        _ ← note "taint-guard" "reflect";
        finish_with (Reflected (JObj [("__gnl_reflected", JBool true); ("warning", JStr (say "taint-reflect"))]) (Some hash))
      else _ ← note "taint-guard" "warn"; mret (Next tt)
  | TaintWarn | TaintOff => _ ← note "taint-guard" "warn"; mret (Next tt)
  end.

Definition phase_taint (approved : option bool) : prog (flow unit) :=
  let action := default TaintWarn (c_limits ctx ≫= l_taintedSideEffects) in
  if side_effect t && negb (bool_decide (approved = Some true)) && negb (bool_decide (action = TaintOff)) then
    taint ← readRunTaint runId;
    match taint with Some x => on_tainted action x | None => mret (Next tt) end
  else mret (Next tt).

(** ** The tool gate *)

Definition phase_gate (fuel : nat) : prog (flow unit) :=
  match c_limits ctx with
  | None => mret (Next tt)
  | Some l =>
      gate ← checkToolGate caps LimitsErr fuel runId toolName hash (Some l) (c_absent ctx);
      match gate with
      | None => mret (Next tt)
      | Some b =>
          match gb_kind b with
          | GateReflect =>
              _ ← note "loop-detection" "reflect";
              finish_with (Reflected (JObj [("__gnl_reflected", JBool true); ("warning", JStr (text "loop" [toolName]))]) (Some hash))
          | GateLoop =>
              _ ← note "loop-detection" "block";
              mret (Answer (limit_exceeded "loop" (text "loop" [toolName])))
          | GateMaxToolCalls =>
              _ ← note "max-tool-calls" "block";
              mret (Answer (limit_exceeded "maxToolCalls" (text "maxToolCalls" [runId])))
          end
      end
  end.
End ToolGuards.
