(* ===== verification/DurableTool.v ===== *)
(** * DurableTool: one durable tool call

    Models the second half of [durableTool]'s [execute] in
    [packages/durable/src/durable-tool.ts] (the claim of the record, the retry ladder, the
    take-over, the execution and its record), the whole call, and [durableTools].

    The claim loop waits for another executor as long as it has [fuel] turns; the code
    waits without a bound, in steps of at most [POLL_MAX_MS]. *)

From S2P Require Import Prelude JsMap Keys Journal Work Prog Claim Json Hash Format Taint RunIdentity Cost ToolTypes Limits ToolStore ToolGuards.

Definition CLAIM_TTL_MS : Z := 30000.
Definition DEFAULT_MAX_RETRIES : Z := 3.
Definition POLL_MIN_MS : Z := 15.
Definition POLL_MAX_MS : Z := 200.

(** The owner of a cross-run claim; such a record carries no format stamp. *)
Definition bare_owner (c : caller) : owner_record :=
  let r := ownerFields c no_fields in
  OwnerRecord false (or_resourceId r) (or_orgId r) (or_ownerKind r) None None None false.

(** A record whose output answers another call. *)
Definition consumable (s : tool_status) : bool :=
  is_terminal s || match s with Suspended _ => true | _ => false end.

(** [record.attempts ?? 1] of an attempt that did not finish. *)
Definition unfinished_attempts (s : tool_status) : option Z :=
  match s with
  | Failed _ attempts _ | Running _ attempts => Some (default 1%Z attempts)
  | _ => None
  end.

(** [tool.claimTtlMs ?? ctx.claimTtlMs ?? Math.max(CLAIM_TTL_MS, declared work)]. *)
Definition claim_ttl (t : tool_spec) (ctx : durable_ctx) : Z :=
  match ts_claimTtlMs t, c_claimTtlMs ctx with
  | Some x, _ | None, Some x => x
  | None, None =>
      Z.max CLAIM_TTL_MS (match ts_timeoutMs t, c_toolTimeoutMs ctx with
                          | Some x, _ | None, Some x => x
                          | None, None => 0%Z
                          end)
  end.

Section DurableTool.
Variable caps : journal_caps.
Variable text : string → list string → string.
Variable error_text : tool_error → string.         (** [String(error?.message ?? error)] *)
Variable ctx : durable_ctx.
Variable t : tool_spec.
Abbreviation prog := (prog entry tool_query js tool_error).

(** Sequencing of phases: an answer ends the call. *)
Definition fbind {A B} (p : prog (flow A)) (k : A → prog (flow B)) : prog (flow B) :=
  f ← p;
  match f with Answer o => mret (Answer o) | Next a => k a end.

Section Call.
Variable ids : call_ids.
Variable input : js.

Let toolName := ts_name t.
Let toolCallId := ci_toolCallId ids.
Let hash := ci_hash ids.
Let key := ci_key ids.
Let sideEffect := side_effect t.

Definition busy {A} : prog (flow A) := blockedOrThrow ctx toolCallId toolName (RunBusy key).

Definition answer_with {A} (record : tool_record) : prog (flow A) :=
  o ← consumeExistingRecord ctx key record toolCallId; mret (Answer o).

Definition succeeded (output : js) : tool_status :=
  Succeeded output (Some hash) (if ts_compensate t then Some input else None).

Definition write_success (output : js) (dupKey : option string) : prog unit :=
  writeToolTerminal caps ctx key (succeeded output) (Some toolName) toolCallId toolName hash dupKey.

(** ** The recovery probe *)

(** [{done: true, output}] or [{done: false}]; anything else is a [TypeError]. *)
Definition probe_done (probe : js) : option bool :=
  match prop probe "done" with JBool b => Some b | _ => None end.

(** The recovered output, or whether the probe gave no answer. *)
Definition recover_probe (dupKey : option string) : prog (option js * bool) :=
  ptry (λ _, mret (None, true))
    (probe ← request (RExt (QRecover toolName toolCallId (ci_idempotencyKey ids) input));
     match probe_done probe with
     | None => Throw (HostError (JStr (text "recover" [toolName])))
     | Some false => mret (None, false)
     | Some true =>
         let output := prop probe "output" in
         _ ← write_success output dupKey;
         _ ← mark_untrusted caps ctx t ids;
         mret (Some output, false)
     end).

(** ** The retry ladder *)

(** Whether an unfinished attempt may be repeated. *)
Definition retry_verdict (approved : option bool) (recovered : bool) (s : tool_status) : option tool_error :=
  match unfinished_attempts s with
  | None => None
  | Some attempts =>
      let maxRetries := default DEFAULT_MAX_RETRIES (ts_maxRetries t) in
      if sideEffect && negb (bool_decide (approved = Some true)) && negb recovered
      then Some (SideEffectRetryBlocked key attempts)
      else if (maxRetries <=? attempts)%Z then Some (RetryLimitExceeded key attempts maxRetries)
      else None
  end.

(** The take-over of a record by compare-and-set: the record judged last, or a loss. *)
Definition take_over (record : tool_record) : prog (flow (option tool_record)) :=
  rawBefore ← jget key;
  let before := rawBefore ≫= prj in
  if default false (is_terminal ∘ tr_status <$> before) then answer_with (default record before)
  else
    let attempts := before ≫= λ b, unfinished_attempts (tr_status b) in
    let record' := match attempts with Some _ => default record before | None => record end in
    now ← jnow caps;
    let takeover := inj (plain (Running now (Some (default 0 attempts + 1)%Z))) in
    took ← (if has_putIfMatch caps
            then match rawBefore with Some v => jputIfMatch key v takeover | None => mret false end
            else _ ← jput key takeover; mret true);
    mret (Next (if took : bool then Some record' else None)).

(** ** The claim loop *)

(** How long to wait for another executor. *)
Definition wait_ms (poll remaining : Z) : Z := Z.max 5 (Z.min poll remaining).

Definition fresh_claim (nowTs : Z) : prog bool :=
  won ← claim caps key (inj (plain (Running nowTs (Some 1%Z))));
  if won : bool then
    match ci_ownerKey ids with
    | Some k => _ ← claim caps k (inj (bare_owner (c_identity ctx))); mret true
    | None => mret true
    end
  else mret false.

(** The record the execution starts from ([None]: a first attempt). *)
Fixpoint claim_loop (fuel : nat) (approved : option bool) (dupKey : option string)
    (record : option tool_record) (recoverUnavailable : bool) (poll : Z) : prog (flow (option tool_record)) :=
  match fuel with
  | 0 => Throw OutOfFuel
  | S fuel' =>
      nowTs ← jnow caps;
      match record with
      | None =>
          won ← fresh_claim nowTs;
          if won : bool then mret (Next None)
          else
            again ← get_record key;
            _ ← match again with Some _ => assertCrossRunOwner ctx t ids | None => mret tt end;
            match again with
            | Some r =>
                if consumable (tr_status r) then answer_with r
                else if negb (ci_args ids) then busy
                else claim_loop fuel' approved dupKey again recoverUnavailable poll
            | None =>
                if negb (ci_args ids) then busy
                else claim_loop fuel' approved dupKey None recoverUnavailable poll
            end
      | Some r =>
          let remaining := match tr_status r with
                           | Running startedAt _ => if (nowTs - startedAt <=? claim_ttl t ctx)%Z
                                                    then Some (claim_ttl t ctx - (nowTs - startedAt))%Z else None
                           | _ => None
                           end in
          match remaining with
          | Some rem =>
              if negb (ci_args ids) then busy
              else
                _ ← request (RSleep (wait_ms poll rem));
                again ← get_record key;
                let poll' := Z.min (poll * 2) POLL_MAX_MS in
                match again with
                | Some r' => if consumable (tr_status r') then answer_with r'
                             else claim_loop fuel' approved dupKey again recoverUnavailable poll'
                | None => claim_loop fuel' approved dupKey None recoverUnavailable poll'
                end
          | None =>
              let uncertain := match unfinished_attempts (tr_status r) with Some _ => true | None => false end in
              probe ← (if sideEffect && uncertain && negb (bool_decide (approved = Some true)) &&
                          negb recoverUnavailable && ts_recover t
                       then recover_probe dupKey else mret (None, recoverUnavailable));
              match probe with
              | (Some output, _) => mret (Answer output)
              | (None, unavailable) =>
                  match retry_verdict approved (negb unavailable && ts_recover t) (tr_status r) with
                  | Some e => blockedOrThrow ctx toolCallId toolName e
                  | None =>
                      fbind (take_over r) (λ took,
                        match took with
                        | Some r' => mret (Next (Some r'))
                        | None =>
                            again ← get_record key;
                            match again with
                            | Some r' =>
                                if consumable (tr_status r') then answer_with r'
                                else if negb (ci_args ids) then busy
                                else claim_loop fuel' approved dupKey again unavailable poll
                            | None =>
                                if negb (ci_args ids) then busy
                                else claim_loop fuel' approved dupKey None unavailable poll
                            end
                        end)
                  end
              end
          end
      end
  end.

(** ** The execution *)

(** Whether this call holds the duplicate marker. *)
Definition claim_in_flight (approved : option bool) (dupKey : option string) : prog (flow bool) :=
  match dupKey with
  | Some k =>
      if bool_decide (approved = Some true) then mret (Next false)
      else
        at_ ← jnow caps;
        claimed ← claimDupMarker caps k (DupMarker toolCallId at_ false true false) (claim_ttl t ctx)
                    (dc_ttlMs (dup_cfg ctx t));
        if negb claimed && negb (bool_decide (dc_action (dup_cfg ctx t) = DupWarn)) then
          _ ← note ctx t ids "duplicate-guard" "block";
          mret (Answer (limit_exceeded t ids "duplicateSideEffect" (text "duplicate-in-flight" [toolName])))
        else mret (Next claimed)
  | None => mret (Next false)
  end.

(** An approval that holds for one attempt is spent. *)
Definition spend_approval (approved : option bool) : prog unit :=
  if default false (l_approvalScopeAttempt <$> c_limits ctx) && bool_decide (approved = Some true) && sideEffect then
    at_ ← dateNow;
    jput (rk_approval (c_runId ctx) toolCallId)
      (inj (JObj [("__gnl_approval_spent", JBool true); ("at", JNum at_)]))
  else mret tt.

(** [{exists: true, output}] or [{exists: false}]. *)
Definition lookup_found (found : js) : option (option js) :=
  match found, prop found "exists" with
  | JObj l, JBool true => if mhas "output" l then Some (Some (prop found "output")) else None
  | JObj _, JBool false => Some None
  | _, _ => None
  end.

Definition phase_lookup (record : option tool_record) (dupKey : option string) : prog (flow unit) :=
  let first := match tr_status <$> record with None | Some (Suspended _) => true | _ => false end in
  if ts_lookup t && sideEffect && first then
    ptry (λ _, mret (Next tt))
      (found ← request (RExt (QLookup toolName toolCallId (ci_idempotencyKey ids) input));
       match lookup_found found with
       | None => Throw (HostError (JStr (text "lookup" [toolName])))
       | Some None => mret (Next tt)
       | Some (Some output) => _ ← write_success output dupKey; mret (Answer output)
       end)
  else mret (Next tt).

Fixpoint run_processors (i n : nat) (output : js) : prog js :=
  match n with
  | 0 => mret output
  | S n' =>
      res ← request (RExt (QProcess i toolName toolCallId input output));
      run_processors (S i) n' (prop res "output")
  end.

(** What happens inside the [try]. *)
Definition execute_body (record : option tool_record) (dupKey : option string) : prog js :=
  raw ← request (RExt (QExecute toolName toolCallId (ci_idempotencyKey ids) input
                         (nestedApprovalsFor record (c_approvals ctx))));
  output ← run_processors 0 (c_processors ctx) raw;
  if js_truthy (suspend_of output) then
    _ ← terminal caps ctx t ids (Suspended output) None; mret output
  else _ ← write_success output dupKey; mret output.

(** The [catch]: the failure is recorded, the marker given back, the error thrown again. *)
Definition on_failure (record : option tool_record) (dupKey : option string) (claimedDup : bool) (e : tool_error)
    : prog js :=
  let prevAttempts := default 0%Z (record ≫= λ r, unfinished_attempts (tr_status r)) in
  _ ← terminal caps ctx t ids (Failed (JStr (error_text e)) (Some (prevAttempts + 1)%Z) (Some sideEffect)) None;
  _ ← match dupKey with
      | Some k =>
          if claimedDup then at_ ← jnow caps; jput k (inj (DupMarker toolCallId at_ false false true))
          else mret tt
      | None => mret tt
      end;
  Throw e.

Definition phase_execute (record : option tool_record) (dupKey : option string) (claimedDup : bool) : prog (flow unit) :=
  o ← ptry (on_failure record dupKey claimedDup) (execute_body record dupKey);
  mret (Answer o).

(** ** The call *)

Definition call_body (fuel : nat) : prog (flow unit) :=
  fbind (phase_replay ctx t ids) (λ record,
  _ ← mark_untrusted caps ctx t ids;
  let approved := approved_of ctx ids record in
  fbind (phase_approval caps text ctx t ids input record) (λ _,
  dupKey ← of_outcome (dup_key ctx t ids);
  fbind (phase_duplicates caps text ctx t ids input approved dupKey) (λ _,
  fbind (phase_compensated ctx t ids) (λ _,
  fbind (phase_taint caps text ctx t ids input approved) (λ _,
  fbind (phase_gate caps text ctx t ids fuel) (λ _,
  fbind (claim_loop fuel approved dupKey record false POLL_MIN_MS) (λ record,
  fbind (claim_in_flight approved dupKey) (λ claimedDup,
  _ ← spend_approval approved;
  fbind (phase_lookup record dupKey) (λ _,
  phase_execute record dupKey claimedDup))))))))).
End Call.

(** [tool.execute(input, { toolCallId })]. *)
Definition durableTool (argsHash : js → outcome string string) (fuel : nat) (toolCallId : string) (input : js)
    : prog js :=
  ids ← of_outcome (call_ids_of argsHash t ctx toolCallId input);
  f ← call_body ids input fuel;
  match f with Answer o => mret o | Next _ => mret JUndef end.
End DurableTool.

(** ** The policies of [durableTools] *)

Inductive tool_policy := PolicyNone | PolicyStrict | PolicyStrictCritical.

Inductive policy_error :=
| UndeclaredIntent (tools : list string)
| NoCrashAnswer (tools : list string).

(** A tool that does not say whether it has side effects. *)
Definition undeclared (t : tool_spec) : bool :=
  match ts_idempotent t, ts_sideEffect t with None, None => negb (ts_recover t) | _, _ => false end.

(** A side-effect tool that leaves a crash without an answer. *)
Definition unanswered (t : tool_spec) : bool :=
  (bool_decide (ts_sideEffect t = Some true) || bool_decide (ts_idempotent t = Some false)) &&
  negb (ts_recover t) && match ts_idempotencyKey t with Some _ => false | None => true end.

Definition durableTools (policy : tool_policy) (tools : list tool_spec) : outcome policy_error (list tool_spec) :=
  let bad f := map ts_name (filter (λ t, f t = true) tools) in
  match policy, bad undeclared, bad unanswered with
  | PolicyNone, _, _ => Ok tools
  | _, n :: ns, _ => Err (UndeclaredIntent (n :: ns))
  | PolicyStrict, [], _ => Ok tools
  | PolicyStrictCritical, [], n :: ns => Err (NoCrashAnswer (n :: ns))
  | PolicyStrictCritical, [], [] => Ok tools
  end.
