(* ===== verification/ToolSafety.v ===== *)
(** * ToolSafety: what a durable tool call guarantees

    The theorems on [DurableTool]: at most one execution of a side effect under every
    interleaving of its callers, the reuse of a final record, the retry ladder and its
    bound, and a race of the take-over. *)

From S2P Require Import Prelude JsMap Keys Journal Work Prog Claim Json Hash Format Taint RunIdentity Cost ToolTypes Limits.
From S2P Require Import ToolStore ToolGuards DurableTool.

Abbreviation tprog := (prog entry tool_query js tool_error).
Abbreviation tworld := (world entry tool_query).
Abbreviation treq := (req entry tool_query).

Definition is_execute (q : tool_query) : bool := match q with QExecute _ _ _ _ _ => true | _ => false end.

(** The executions performed so far. *)
Definition execs (w : tworld) : nat := count_if is_execute (trace w).

(** ** Programs that execute nothing *)

Definition quiet_req (r : treq) : Prop := match r with RExt q => is_execute q = false | _ => True end.

Fixpoint quiet {A} (p : tprog A) : Prop :=
  match p with
  | Ret _ | Throw _ => True
  | Do r k => quiet_req r ∧ ∀ o, quiet (k o)
  end.

Lemma quiet_bind {A B} (p : tprog A) (f : A → tprog B) : quiet p → (∀ a, quiet (f a)) → quiet (p ≫= f).
Proof.
  intros Hp Hf. unfold mbind, prog_bind. induction p as [a|e|r k IH]; simpl; [done..|].
  destruct Hp as [Hr Hk]. split; [done|]. intros o. apply IH, Hk.
Qed.

Lemma quiet_try {A} (h : tool_error → tprog A) (p : tprog A) : quiet p → (∀ e, quiet (h e)) → quiet (ptry h p).
Proof.
  intros Hp Hf. induction p as [a|e|r k IH]; simpl; [done|done|].
  destruct Hp as [Hr Hk]. split; [done|]. intros o. apply IH, Hk.
Qed.

Lemma quiet_request (r : treq) : quiet_req r → quiet (request r).
Proof. intros Hr. split; [done|]. by intros []. Qed.

Lemma quiet_ret {A} (a : A) : quiet (mret a).
Proof. done. Qed.

Lemma quiet_throw {A} (e : tool_error) : quiet (Throw (A:=A) e).
Proof. done. Qed.

Lemma quiet_fbind {A B} (p : tprog (flow A)) (k : A → tprog (flow B)) : quiet p → (∀ a, quiet (k a)) → quiet (fbind p k).
Proof. intros Hp Hk. apply quiet_bind; [done|]. by intros []. Qed.

Create HintDb quiet discriminated.
#[export] Hint Resolve quiet_ret quiet_throw : quiet.
#[export] Hint Extern 1 (quiet (request _)) => apply quiet_request; first [exact I | reflexivity] : quiet.

(** Follows the structure of the program. *)
Ltac quiet_step :=
  match goal with
  | |- quiet (pbind _ _) => apply quiet_bind
  | |- quiet (mbind _ _) => apply quiet_bind
  | |- quiet (fbind _ _) => apply quiet_fbind
  | |- quiet (ptry _ _) => apply quiet_try
  | |- ∀ _, _ => intros ?
  | |- quiet (match ?x with _ => _ end) => destruct x
  | |- quiet (let _ := _ in _) => cbv zeta
  | |- _ => solve [auto with quiet]
  end.

Section Quiet.
Variable caps : journal_caps.
Variable text : string → list string → string.
Variable error_text : tool_error → string.
Variable ctx : durable_ctx.
Variable t : tool_spec.
Variable ids : call_ids.
Variable input : js.

Lemma quiet_get k : quiet (jget k).
Proof. by apply quiet_request. Qed.
Lemma quiet_put k v : quiet (jput k v).
Proof. by apply quiet_request. Qed.
Lemma quiet_absent k v : quiet (jputIfAbsent k v).
Proof. by apply quiet_request. Qed.
Lemma quiet_match k e v : quiet (jputIfMatch k e v).
Proof. by apply quiet_request. Qed.
Lemma quiet_dateNow : quiet dateNow.
Proof. by apply quiet_request. Qed.
Lemma quiet_jnow : quiet (jnow caps).
Proof. unfold jnow. destruct (has_now caps); by apply quiet_request. Qed.
#[local] Hint Resolve quiet_get quiet_put quiet_absent quiet_match quiet_dateNow quiet_jnow : quiet.

Lemma quiet_claim k v : quiet (claim caps k v).
Proof. unfold claim. repeat quiet_step. Qed.
#[local] Hint Resolve quiet_claim : quiet.

Lemma quiet_of_outcome {A} (o : outcome tool_error A) : quiet (of_outcome o).
Proof. by destruct o. Qed.
#[local] Hint Resolve quiet_of_outcome : quiet.

Lemma quiet_recordIncident runId i : quiet (recordIncident runId i).
Proof. unfold recordIncident. repeat quiet_step. Qed.
#[local] Hint Resolve quiet_recordIncident : quiet.

Lemma quiet_note source action : quiet (note ctx t ids source action).
Proof. unfold note, incident_at. repeat quiet_step. Qed.
#[local] Hint Resolve quiet_note : quiet.

(** *** The limits *)

Lemma quiet_readChain runId : quiet (readChain runId).
Proof. unfold readChain. repeat quiet_step. Qed.
Lemma quiet_readCounters runId : quiet (readCounters caps runId).
Proof. unfold readCounters. repeat quiet_step. Qed.
#[local] Hint Resolve quiet_readChain quiet_readCounters : quiet.

Lemma quiet_incrCounters runId d : quiet (incrCounters caps runId d).
Proof. unfold incrCounters. repeat quiet_step. Qed.
#[local] Hint Resolve quiet_incrCounters : quiet.

Lemma quiet_chain_attempts n k f : quiet (chain_attempts caps n k f).
Proof. induction n as [|n IH]; cbn [chain_attempts]; repeat quiet_step. Qed.
#[local] Hint Resolve quiet_chain_attempts : quiet.

Lemma quiet_writeChainCas runId f : quiet (writeChainCas caps runId f).
Proof. unfold writeChainCas. repeat quiet_step. Qed.

Lemma quiet_ensureSeeded runId opts u : quiet (ensureSeeded caps runId opts u).
Proof. unfold ensureSeeded, seedFromHistory. repeat quiet_step. Qed.

Lemma quiet_report l : quiet (reportUnenforceableLimits LimitsErr l).
Proof. unfold reportUnenforceableLimits. repeat quiet_step. Qed.

Lemma quiet_pricing : quiet readPricingTable.
Proof. unfold readPricingTable. repeat quiet_step. Qed.
#[local] Hint Resolve quiet_writeChainCas quiet_ensureSeeded quiet_report quiet_pricing : quiet.

Lemma quiet_recordToolOutcome runId c n hs s l : quiet (recordToolOutcome caps LimitsErr runId c n hs s l).
Proof. unfold recordToolOutcome. repeat quiet_step. Qed.

Lemma quiet_visit_runs v l st : (∀ i st, quiet (v i st)) → quiet (visit_runs v l st).
Proof. intros Hv. revert st. induction l as [|i l IH]; intros st; cbn [visit_runs]; repeat quiet_step. Qed.

Lemma quiet_sumSubRuns fuel p l st : quiet (sumSubRuns caps LimitsErr fuel p l st).
Proof.
  revert p l st. induction fuel as [|fuel IH]; intros p l st; [done|]. cbn [sumSubRuns]. apply quiet_visit_runs.
  intros i st'. repeat quiet_step.
Qed.
#[local] Hint Resolve quiet_recordToolOutcome quiet_sumSubRuns : quiet.

Lemma quiet_checkToolGate fuel runId n hs l a : quiet (checkToolGate caps LimitsErr fuel runId n hs l a).
Proof. unfold checkToolGate. repeat quiet_step. Qed.
#[local] Hint Resolve quiet_checkToolGate : quiet.

(** *** Records *)

Lemma quiet_put_record k r : quiet (put_record k r).
Proof. apply quiet_put. Qed.
Lemma quiet_get_record k : quiet (get_record k).
Proof. unfold get_record. repeat quiet_step. Qed.
#[local] Hint Resolve quiet_put_record quiet_get_record : quiet.

Lemma quiet_mirror k r c : quiet (mirrorUnderRun ctx k r c).
Proof. unfold mirrorUnderRun. repeat quiet_step. Qed.
Lemma quiet_finish_marker k c : quiet (finish_marker caps k c).
Proof. unfold finish_marker. repeat quiet_step. Qed.
#[local] Hint Resolve quiet_mirror quiet_finish_marker : quiet.

Lemma quiet_writeToolTerminal k s n c n' hs d : quiet (writeToolTerminal caps ctx k s n c n' hs d).
Proof. unfold writeToolTerminal. repeat quiet_step. Qed.
#[local] Hint Resolve quiet_writeToolTerminal : quiet.

Lemma quiet_terminal s n : quiet (terminal caps ctx t ids s n).
Proof. apply quiet_writeToolTerminal. Qed.
#[local] Hint Resolve quiet_terminal : quiet.

Lemma quiet_finish_with {A} s : quiet (finish_with caps ctx t ids s (A:=A)).
Proof. unfold finish_with. repeat quiet_step. Qed.
Lemma quiet_track k r c : quiet (trackResolvedToolCallId k r c).
Proof. unfold trackResolvedToolCallId. repeat quiet_step. Qed.
#[local] Hint Resolve quiet_finish_with quiet_track : quiet.

Lemma quiet_consume k r c : quiet (consumeExistingRecord ctx k r c).
Proof. unfold consumeExistingRecord. repeat quiet_step. Qed.
Lemma quiet_owner : quiet (assertCrossRunOwner ctx t ids).
Proof. unfold assertCrossRunOwner. repeat quiet_step. Qed.
Lemma quiet_blocked {A} c n e : quiet (blockedOrThrow ctx c n e (A:=A)).
Proof. unfold blockedOrThrow. repeat quiet_step. Qed.
Lemma quiet_claimDupMarker k m a b : quiet (claimDupMarker caps k m a b).
Proof. unfold claimDupMarker. repeat quiet_step. Qed.
#[local] Hint Resolve quiet_consume quiet_owner quiet_blocked quiet_claimDupMarker : quiet.

(** *** Phases *)

Lemma quiet_ctxGet u c k : quiet (ctxGet u c k).
Proof. unfold ctxGet. repeat quiet_step. Qed.
#[local] Hint Resolve quiet_ctxGet : quiet.

Lemma quiet_phase_replay : quiet (phase_replay ctx t ids).
Proof. unfold phase_replay. repeat quiet_step. Qed.

Lemma quiet_claimTaint_attempts n k r : quiet (claimTaint_attempts caps n k r).
Proof. induction n as [|n IH]; cbn [claimTaint_attempts]; repeat quiet_step. Qed.
#[local] Hint Resolve quiet_claimTaint_attempts : quiet.

Lemma quiet_mark_untrusted : quiet (mark_untrusted caps ctx t ids).
Proof. unfold mark_untrusted, markRunTainted, claimTaint. repeat quiet_step. Qed.
#[local] Hint Resolve quiet_mark_untrusted : quiet.

Lemma quiet_phase_suspended r o : quiet (phase_suspended caps text ctx t ids r o).
Proof. unfold phase_suspended, write_override. repeat quiet_step. Qed.
Lemma quiet_phase_confirm c : quiet (phase_confirm caps text ctx t ids input c).
Proof. unfold phase_confirm, confirm_prior. repeat quiet_step. Qed.
Lemma quiet_phase_guard a : quiet (phase_guard caps ctx t ids input a).
Proof. unfold phase_guard, readRunTaint, read_taint. repeat quiet_step. Qed.
#[local] Hint Resolve quiet_phase_suspended quiet_phase_confirm quiet_phase_guard : quiet.

Lemma quiet_phase_approval r : quiet (phase_approval caps text ctx t ids input r).
Proof. unfold phase_approval. repeat quiet_step. Qed.

Lemma quiet_claim_dup_nudge k m : quiet (claim_dup_nudge caps ctx t ids k m).
Proof. unfold claim_dup_nudge. repeat quiet_step. Qed.
#[local] Hint Resolve quiet_claim_dup_nudge : quiet.

Lemma quiet_on_duplicate k m : quiet (on_duplicate caps text ctx t ids input k m).
Proof. unfold on_duplicate. repeat quiet_step. Qed.
#[local] Hint Resolve quiet_on_duplicate : quiet.

Lemma quiet_phase_duplicates a d : quiet (phase_duplicates caps text ctx t ids input a d).
Proof. unfold phase_duplicates, read_marker. repeat quiet_step. Qed.
Lemma quiet_phase_compensated : quiet (phase_compensated ctx t ids).
Proof. unfold phase_compensated, runCompensated. repeat quiet_step. Qed.
Lemma quiet_phase_taint a : quiet (phase_taint caps text ctx t ids input a).
Proof. unfold phase_taint, on_tainted, readRunTaint, read_taint. repeat quiet_step. Qed.
Lemma quiet_phase_gate fuel : quiet (phase_gate caps text ctx t ids fuel).
Proof. unfold phase_gate. repeat quiet_step. Qed.
Lemma quiet_claim_in_flight a d : quiet (claim_in_flight caps text ctx t ids a d).
Proof. unfold claim_in_flight. repeat quiet_step. Qed.
Lemma quiet_spend a : quiet (spend_approval ctx t ids a).
Proof. unfold spend_approval. repeat quiet_step. Qed.
Lemma quiet_write_success o d : quiet (write_success caps ctx t ids input o d).
Proof. apply quiet_writeToolTerminal. Qed.
#[local] Hint Resolve quiet_write_success : quiet.
Lemma quiet_phase_lookup r d : quiet (phase_lookup caps text ctx t ids input r d).
Proof. unfold phase_lookup. repeat quiet_step. Qed.
Lemma quiet_processors i n o : quiet (run_processors t ids input i n o).
Proof. revert i o. induction n as [|n IH]; intros i o; cbn [run_processors]; repeat quiet_step. Qed.
#[local] Hint Resolve quiet_processors : quiet.
Lemma quiet_on_failure r d b e : quiet (on_failure caps error_text ctx t ids r d b e).
Proof. unfold on_failure. repeat quiet_step. Qed.
Lemma quiet_answer_with {A} r : quiet (answer_with ctx ids r (A:=A)).
Proof. unfold answer_with. repeat quiet_step. Qed.
End Quiet.

#[export] Hint Resolve quiet_get quiet_put quiet_absent quiet_match quiet_dateNow quiet_jnow quiet_claim
  quiet_of_outcome quiet_note quiet_get_record quiet_terminal quiet_consume quiet_owner quiet_blocked
  quiet_phase_replay quiet_mark_untrusted quiet_phase_approval quiet_phase_duplicates quiet_phase_compensated
  quiet_phase_taint quiet_phase_gate quiet_claim_in_flight quiet_spend quiet_write_success quiet_phase_lookup
  quiet_processors quiet_on_failure quiet_answer_with : quiet.

(** ** The right to execute

    A thread gets it by creating the record, and spends it by executing. *)

Inductive right := NoRight | HasRight | Spent.

Definition has_right (g : right) : bool := match g with HasRight => true | _ => false end.

Section Rights.
Variable K : string.

Definition rt_allowed (g : right) (r : treq) : Prop :=
  match r with RExt q => is_execute q = true → g = HasRight | _ => True end.

Definition rt_next (g : right) (r : treq) : outcome tool_error (ans (R:=js) r) → right :=
  match r return outcome tool_error (ans (R:=js) r) → right with
  | RPutIfAbsent k _ => λ o,
      match o with
      | Ok true => if String.eqb k K then match g with Spent => Spent | _ => HasRight end else g
      | _ => g
      end
  | RExt q => λ _, if is_execute q then Spent else g
  | _ => λ _, g
  end.

Definition absent_slack (w : tworld) : nat := if mhas K (store (jr w)) then 0 else 1.

Definition rt_inv (n : nat) (w : tworld) (gs : list right) : Prop :=
  execs w + count_if has_right gs + absent_slack w ≤ n.

Lemma mhas_mset k v (m : jsmap entry) : mhas K (mset k v m) = String.eqb K k || mhas K m.
Proof. unfold mhas. rewrite mget_mset_cases. destruct (String.eqb K k); [done|]. by destruct (mget K m). Qed.

(** Only an absent record is created by [putIfAbsent]; no request removes one. *)
Lemma slack_perform (h : oracle tool_query js tool_error) (r : treq) (w : tworld) :
  absent_slack (snd (perform h r w)) ≤ absent_slack w.
Proof.
  unfold absent_slack. destruct r; simpl; try lia.
  - rewrite mhas_mset. destruct (String.eqb K k), (mhas K (store (jr w))); simpl; lia.
  - unfold mj_putIfAbsent. destruct (mhas k (store (jr w))); simpl; [lia|]. rewrite mhas_mset.
    destruct (String.eqb K k), (mhas K (store (jr w))); simpl; lia.
  - rewrite mj_putIfMatch_spec. case_bool_decide; simpl; [|lia]. rewrite mhas_mset.
    destruct (String.eqb K k), (mhas K (store (jr w))); simpl; lia.
Qed.

Lemma execs_perform (h : oracle tool_query js tool_error) (r : treq) (w : tworld) :
  execs (snd (perform h r w)) = match r with RExt q => (if is_execute q then 1 else 0) | _ => 0 end + execs w.
Proof.
  unfold execs. destruct r; simpl; try done. by rewrite count_if_cons.
Qed.

Lemma rt_next_err g r (e : tool_error) :
  rt_next g r (Err e) = match r with RExt q => if is_execute q then Spent else g | _ => g end.
Proof. by destruct r. Qed.

(** The bound after one thread has moved to [g']. *)
Lemma rt_inv_move n w w' gs i g g' :
  gs !! i = Some g → rt_inv n w gs →
  execs w' + (if has_right g' then 1 else 0) + absent_slack w' ≤ execs w + (if has_right g then 1 else 0) + absent_slack w →
  rt_inv n w' (<[i := g']> gs).
Proof. unfold rt_inv. intros Hi Hinv Hle. pose proof (count_if_insert has_right gs i g g' Hi). lia. Qed.

Lemma rt_inv_perform (h : oracle tool_query js tool_error) n w gs i g r :
  gs !! i = Some g → rt_allowed g r → rt_inv n w gs →
  rt_inv n (snd (perform h r w)) (<[i := rt_next g r (fst (perform h r w))]> gs).
Proof.
  intros Hi Ha Hinv. apply (rt_inv_move n w _ gs i g); [done..|].
  pose proof (slack_perform h r w) as Hs. rewrite (execs_perform h r w).
  destruct r; try (simpl in *; lia); cbn [rt_next perform fst snd] in *.
  - unfold mj_putIfAbsent, absent_slack in *. destruct (mhas k (store (jr w))) eqn:Hk; simpl in *; [lia|].
    rewrite mhas_mset in *. destruct (String.eqb_spec k K) as [->|]; [|lia]. rewrite String.eqb_refl in *. simpl in *.
    rewrite Hk. destruct g; simpl; lia.
  - simpl in Ha. destruct (is_execute q); [|simpl in *; lia]. rewrite Ha by done. simpl in *. lia.
Qed.

Lemma rt_inv_fail (h : oracle tool_query js tool_error) n w gs i g r e :
  gs !! i = Some g → rt_allowed g r → rt_inv n w gs →
  rt_inv n w (<[i := rt_next g r (Err e)]> gs) ∧ rt_inv n (snd (perform h r w)) (<[i := rt_next g r (Err e)]> gs).
Proof.
  intros Hi Ha Hinv. pose proof (slack_perform h r w) as Hs. pose proof (execs_perform h r w) as He.
  rewrite rt_next_err. split; apply (rt_inv_move n w _ gs i g); try done.
  - destruct r; try lia. simpl in Ha. destruct (is_execute q); [rewrite Ha by done; simpl; lia|lia].
  - destruct r; try (simpl in *; lia). simpl in Ha. destruct (is_execute q); [rewrite Ha by done; simpl in *; lia|simpl in *; lia].
Qed.

(** A quiet program keeps the right it has, or gets one. *)
Definition unspent (g : right) : Prop := g ≠ Spent.

Lemma quiet_safe {A} (p : tprog A) g :
  quiet p → unspent g → safe rt_allowed rt_next (λ g' _, unspent g') g p.
Proof.
  revert g. induction p as [a|e|r k IH]; intros g; simpl; [done..|]. intros [Hr Hk] Hg. split.
  - destruct r; try done. simpl in *. by rewrite Hr.
  - intros o. apply IH; [apply Hk|]. unfold unspent in *. destruct r; try done; simpl in *.
    + destruct o as [[]|]; try done. destruct (String.eqb k0 K); [|done]. by destruct g.
    + by rewrite Hr.
Qed.

(** Once the right is spent (or not), a quiet program does not matter. *)
Lemma quiet_safe_any {A} (p : tprog A) g : quiet p → safe rt_allowed rt_next (λ _ _, True) g p.
Proof.
  revert g. induction p as [a|e|r k IH]; intros g; simpl; [done..|]. intros [Hr Hk]. split.
  - destruct r; try done. simpl in *. by rewrite Hr.
  - intros o. apply IH, Hk.
Qed.
End Rights.

(** What every value a program can return satisfies. *)
Fixpoint yields {A} (P : A → Prop) (p : tprog A) : Prop :=
  match p with
  | Ret a => P a
  | Throw _ => True
  | Do r k => ∀ o, yields P (k o)
  end.

Lemma yields_bind {A B} (P : B → Prop) (p : tprog A) (f : A → tprog B) :
  (∀ a, yields P (f a)) → yields P (p ≫= f).
Proof. intros Hf. unfold mbind, prog_bind. induction p as [a|e|r k IH]; simpl; auto. Qed.

Section AtMostOnce.
Variable K : string.
Variable caps : journal_caps.
Variable text : string → list string → string.
Variable error_text : tool_error → string.
Hypothesis Hcaps : has_putIfAbsent caps = true.

Abbreviation tsafe := (safe (R:=js) (E:=tool_error) rt_allowed (rt_next K)).

Lemma quiet_yields_safe {A} (P : A → Prop) (p : tprog A) g :
  quiet p → yields P p → unspent g → tsafe (λ g' o, unspent g' ∧ ∀ a, o = Ok a → P a) g p.
Proof.
  revert g. induction p as [a|e|r k IH]; intros g; simpl.
  - intros _ Ha Hg. split; [done|]. by intros b [= <-].
  - intros _ _ Hg. by split.
  - intros [Hr Hk] Hy Hg. split; [destruct r; try done; simpl in *; by rewrite Hr|].
    intros o. apply IH; [apply Hk|apply Hy|]. unfold unspent in *. destruct r; try done; simpl in *.
    + destruct o as [[]|]; try done. destruct (String.eqb k0 K); [|done]. by destruct g.
    + by rewrite Hr.
Qed.

Lemma quiet_keeps_right {A} (p : tprog A) : quiet p → tsafe (λ g' _, g' = HasRight) HasRight p.
Proof.
  induction p as [a|e|r k IH]; simpl; [done..|]. intros [Hr Hk]. split; [by destruct r|].
  intros o. specialize (IH o (Hk o)). destruct r; try exact IH; simpl in *.
  - destruct o as [[]|]; try exact IH. by destruct (String.eqb k0 K).
  - by rewrite Hr.
Qed.

Lemma safe_quiet_bind {A B} (post : right → outcome tool_error B → Prop) (p : tprog A) (f : A → tprog B) g :
  quiet p → unspent g → (∀ g a, unspent g → tsafe post g (f a)) → (∀ g e, unspent g → post g (Err e)) →
  tsafe post g (p ≫= f).
Proof.
  intros Hp Hg Hf He. apply (safe_bind _ _ post (λ g' _, unspent g')); [by apply quiet_safe|auto..].
Qed.

Lemma safe_quiet_fbind {A B} (post : right → outcome tool_error (flow B) → Prop) (P : A → Prop)
    (p : tprog (flow A)) (k : A → tprog (flow B)) g :
  quiet p → yields (λ f, match f with Next a => P a | Answer _ => True end) p → unspent g →
  (∀ g a, unspent g → P a → tsafe post g (k a)) →
  (∀ g e, unspent g → post g (Err e)) → (∀ g o, unspent g → post g (Ok (Answer o))) →
  tsafe post g (fbind p k).
Proof.
  intros Hp Hy Hg Hk He Ho. unfold fbind. eapply safe_bind; [by apply (quiet_yields_safe _ p g Hp Hy)| |].
  - intros g' [o|a] [Hg' HP]; [by apply Ho|]. apply Hk; [done|]. by apply (HP (Next a)).
  - intros g' e [Hg' _]. auto.
Qed.

Lemma yields_any {A} (p : tprog (flow A)) : yields (λ f, match f with Next _ => True | Answer _ => True end) p.
Proof. induction p as [[|]|e|r k IH]; simpl; auto. Qed.

(** One call, by a caller nobody has given an answer to. *)
Section OneCall.
Variable ctx : durable_ctx.
Variable t : tool_spec.
Variable ids : call_ids.
Variable input : js.
Hypothesis Heffect : side_effect t = true.
Hypothesis Hrecover : ts_recover t = false.
Hypothesis Happ : c_approvals ctx = None.
Hypothesis Hkey : ci_key ids = K.

(** The claim loop goes on only with the right to execute. *)
Definition claim_post (g : right) (o : outcome tool_error (flow (option tool_record))) : Prop :=
  match o with Ok (Next _) => g = HasRight | _ => unspent g end.

Lemma blocked_safe c n e g : unspent g → tsafe claim_post g (blockedOrThrow ctx c n e).
Proof. intros Hg. unfold blockedOrThrow. by destruct (c_blockedAsSentinel ctx). Qed.

Lemma answer_safe r g : unspent g → tsafe claim_post g (answer_with ctx ids r).
Proof. intros Hg. apply safe_quiet_bind; auto with quiet. Qed.

Lemma fresh_claim_safe now g :
  unspent g → tsafe (λ g' o, match o with Ok true => g' = HasRight | _ => unspent g' end) g (fresh_claim caps ctx ids now).
Proof.
  intros Hg. unfold fresh_claim. eapply safe_bind with (mid := λ g' o, match o with Ok true => g' = HasRight | _ => unspent g' end).
  - unfold claim. rewrite Hcaps, Hkey. split; [done|]. intros [[]|]; simpl; [|done..].
    rewrite String.eqb_refl. by destruct g.
  - intros g' [] Hg'; simpl; [|done]. destruct (ci_ownerKey ids); [|done]. subst g'.
    eapply safe_bind with (mid := λ g' _, g' = HasRight); [by apply quiet_keeps_right; auto with quiet|done|].
    by intros g' e ->.
  - done.
Qed.

Lemma claim_loop_safe fuel dupKey record unavailable poll g :
  unspent g → (∀ r, record = Some r → is_Some (unfinished_attempts (tr_status r))) →
  tsafe claim_post g (claim_loop caps text ctx t ids input fuel None dupKey record unavailable poll).
Proof.
  revert record unavailable poll g. induction fuel as [|fuel IH]; intros record unavailable poll g Hg Hr; [done|].
  cbn [claim_loop].
  assert (Hagain : ∀ again poll' g, unspent g →
    tsafe claim_post g (match again with
      | Some r => if consumable (tr_status r) then answer_with ctx ids r
                  else claim_loop caps text ctx t ids input fuel None dupKey again unavailable poll'
      | None => claim_loop caps text ctx t ids input fuel None dupKey None unavailable poll'
      end)).
  { intros [r|] poll' g' Hg'; [|by apply IH]. destruct (consumable (tr_status r)) eqn:Hc; [by apply answer_safe|].
    apply IH; [done|]. intros r' [= <-]. destruct (tr_status r); try done; by eexists. }
  apply safe_quiet_bind; auto with quiet. intros g1 nowTs Hg1. destruct record as [r|].
  - destruct (match tr_status r with Running startedAt _ => _ | _ => _ end) as [rem|].
    + destruct (ci_args ids); [|by apply blocked_safe]. simpl negb. cbn match.
      apply safe_quiet_bind; auto with quiet. intros g2 _ Hg2.
      apply safe_quiet_bind; auto with quiet.
    + rewrite Hrecover, !andb_false_r. cbn [mret prog_ret mbind prog_bind pbind]. unfold retry_verdict.
      destruct (Hr r eq_refl) as [n ->]. rewrite Heffect, andb_false_r. by apply blocked_safe.
  - eapply safe_bind; [by apply fresh_claim_safe| |done]. intros g2 [] Hg2; [by simpl|].
    apply safe_quiet_bind; auto with quiet. intros g3 again Hg3.
    apply safe_quiet_bind; [destruct again; auto with quiet|done| |done]. intros g4 _ Hg4.
    specialize (Hagain again poll g4 Hg4).
    destruct again as [r|]; [destruct (consumable (tr_status r)); [done|]|];
      (destruct (ci_args ids); [exact Hagain|by apply blocked_safe]).
Qed.

Lemma execute_safe record dupKey claimed :
  tsafe (λ _ _, True) HasRight (phase_execute caps error_text ctx t ids input record dupKey claimed).
Proof.
  unfold phase_execute. eapply safe_bind with (mid := λ _ _, True); [|done..].
  eapply safe_try with (mid := λ _ _, True); [|done|intros g e _; apply quiet_safe_any; auto with quiet].
  unfold execute_body. eapply safe_bind with (mid := λ _ _, True); [by split; [|intros []]| |done].
  intros g raw _. apply quiet_safe_any. repeat quiet_step.
Qed.

Lemma existsb_never {A} (f : A → bool) l : (∀ x, f x = false) → existsb f l = false.
Proof. intros Hf. induction l as [|x l IH]; [done|]. simpl. by rewrite Hf. Qed.

(** A suspended record answers a caller who was given no answer. *)
Lemma approval_stops_suspended r output :
  tr_status r = Suspended output →
  yields (λ f, match f with Next _ => False | Answer _ => True end) (phase_approval caps text ctx t ids input (Some r)).
Proof.
  intros Hs. unfold phase_approval. rewrite Hs. unfold phase_suspended, approved_of, nested_answered, approval_of.
  rewrite Happ. cbn [fmap option_fmap option_map mbind option_bind]. rewrite Hs.
  rewrite (existsb_never (λ c, _)) by done. rewrite andb_false_r.
  destruct (is_nested output); by apply yields_bind.
Qed.

Lemma replay_yields :
  yields (λ f, match f with
               | Next (Some r) => is_terminal (tr_status r) = false
               | _ => True
               end) (phase_replay ctx t ids).
Proof.
  unfold phase_replay. apply yields_bind. intros [v c]. destruct (v ≫= prj) as [r|]; [|done].
  apply yields_bind. intros []. destruct (is_terminal (tr_status r)) eqn:Ht; [|done].
  destruct (match tr_status r with Succeeded _ _ _ => _ | _ => _ end); [destruct (c_strictReplay ctx); [done|]|];
    by apply yields_bind.
Qed.

Lemma call_body_safe fuel g :
  unspent g → tsafe (λ _ _, True) g (call_body caps text error_text ctx t ids input fuel).
Proof.
  intros Hg. unfold call_body.
  apply (safe_quiet_fbind _ (λ o, match o with Some r => is_terminal (tr_status r) = false | None => True end));
    auto with quiet.
  { pose proof replay_yields as H. revert H. generalize (phase_replay ctx t ids). intros p.
    induction p as [[o|[r|]]|e|r k IH]; simpl; auto. }
  intros g1 record Hg1 Hrec. apply safe_quiet_bind; auto with quiet. intros g2 _ Hg2.
  apply (safe_quiet_fbind _ (λ _, ∀ r, record = Some r → is_Some (unfinished_attempts (tr_status r)))); auto with quiet.
  { destruct record as [r|].
    - destruct (tr_status r) eqn:Hs; try done.
      + eapply (λ p, p) in Hs. pose proof (approval_stops_suspended r output Hs) as H. revert H.
        generalize (phase_approval caps text ctx t ids input (Some r)). intros p.
        induction p as [[o|a]|e|r' k IH]; simpl; auto; done.
      + generalize (phase_approval caps text ctx t ids input (Some r)). intros p.
        induction p as [[o|a]|e|r' k IH]; simpl; auto. intros r0 [= <-]. rewrite Hs. by eexists.
      + generalize (phase_approval caps text ctx t ids input (Some r)). intros p.
        induction p as [[o|a]|e|r' k IH]; simpl; auto. intros r0 [= <-]. rewrite Hs. by eexists.
    - generalize (phase_approval caps text ctx t ids input None). intros p.
      induction p as [[o|a]|e|r' k IH]; simpl; auto. by intros r0 [=]. }
  intros g3 _ Hg3 Hun. assert (Hap : approved_of ctx ids record = None).
  { unfold approved_of, approval_of. rewrite Happ. destruct (tr_status <$> record) as [[]|]; try done. by destruct (is_nested output). }
  rewrite Hap. apply safe_quiet_bind; auto with quiet. intros g4 dupKey Hg4.
  apply (safe_quiet_fbind _ (λ _, True)); auto using yields_any with quiet. intros g5 _ Hg5 _.
  apply (safe_quiet_fbind _ (λ _, True)); auto using yields_any with quiet. intros g6 _ Hg6 _.
  apply (safe_quiet_fbind _ (λ _, True)); auto using yields_any with quiet. intros g7 _ Hg7 _.
  apply (safe_quiet_fbind _ (λ _, True)); auto using yields_any with quiet. intros g8 _ Hg8 _.
  unfold fbind at 1. eapply safe_bind; [by apply claim_loop_safe| |done].
  intros g9 [o|rec] Hg9; [done|]. simpl in Hg9. subst g9.
  unfold fbind at 1. eapply safe_bind with (mid := λ g _, g = HasRight); [apply quiet_keeps_right; auto with quiet| |done].
  intros g10 [o|claimed] ->; [done|].
  eapply safe_bind with (mid := λ g _, g = HasRight); [apply quiet_keeps_right; auto with quiet| |done].
  intros g11 _ ->. unfold fbind.
  eapply safe_bind with (mid := λ g _, g = HasRight); [apply quiet_keeps_right; auto with quiet| |done].
  intros g12 [o|[]] ->; [done|]. apply execute_safe.
Qed.
End OneCall.
End AtMostOnce.

(** ** At most one execution *)

Section Concurrent.
Variable caps : journal_caps.
Variable text : string → list string → string.
Variable error_text : tool_error → string.
Variable argsHash : js → outcome string string.

Record tool_call := ToolCall {
  tc_ctx : durable_ctx;
  tc_tool : tool_spec;
  tc_toolCallId : string;
  tc_input : js;
  tc_fuel : nat;
}.

Definition call_prog (c : tool_call) : tprog js :=
  durableTool caps text error_text (tc_ctx c) (tc_tool c) argsHash (tc_fuel c) (tc_toolCallId c) (tc_input c).

(** A side effect without [recover], called without any human answer, recorded under [key]. *)
Definition unassisted (key : string) (c : tool_call) : Prop :=
  side_effect (tc_tool c) = true ∧ ts_recover (tc_tool c) = false ∧ c_approvals (tc_ctx c) = None ∧
  ∀ ids, call_ids_of argsHash (tc_tool c) (tc_ctx c) (tc_toolCallId c) (tc_input c) = Ok ids → ci_key ids = key.

Lemma call_prog_safe key c :
  has_putIfAbsent caps = true → unassisted key c →
  safe (R:=js) (E:=tool_error) rt_allowed (rt_next key) (λ _ _, True) NoRight (call_prog c).
Proof.
  intros Hcaps (He & Hr & Ha & Hk). unfold call_prog, durableTool.
  destruct (call_ids_of _ _ _ _ _) as [ids|e] eqn:Hids; [|done]. simpl of_outcome.
  change (mbind (λ ids, ?f ids) (Ret ids)) with (f ids). cbn [mbind prog_bind pbind].
  eapply safe_bind; [apply (call_body_safe key caps text error_text Hcaps); auto; done| |done]. by intros g [].
Qed.

(** C1: a side effect runs at most once.  Any number of calls of a side-effect tool that share
    one record (the same call resumed by several workers, or, with an idempotency window, the
    same work asked for in several runs), without a recovery hook and without a human answer,
    in any interleaving, with requests that fail before or after taking effect, clocks that
    move at will and callers that crash, execute it at most once in all; and never when the
    record exists at the start, whatever it says. *)
Theorem side_effect_at_most_once (key : string) (calls : list tool_call) (ps' : list (tprog js)) (w w' : tworld) :
  has_putIfAbsent caps = true → Forall (unassisted key) calls →
  reachable (map call_prog calls, w) (ps', w') →
  execs w' ≤ execs w + (if jkey key w is Some _ then 0 else 1).
Proof.
  intros Hcaps Hcalls Hreach.
  destruct (pool_safe (R:=js) (E:=tool_error) rt_allowed (rt_next key)
    (rt_inv key (execs w + (if jkey key w is Some _ then 0 else 1)))) with
    (post := λ (_ : right) (_ : outcome tool_error js), True)
    (c := (map call_prog calls, w)) (c' := (ps', w')) (gs := map (λ _, NoRight) calls) as (gs' & Hinv & _).
  - intros h v gs i g r. apply rt_inv_perform.
  - intros h v gs i g r e. apply rt_inv_fail.
  - intros v gs c x _ H. exact H.
  - exact Hreach.
  - unfold rt_inv. simpl. replace (count_if has_right (map (λ _, NoRight) calls)) with 0.
    + unfold absent_slack, mhas, jkey, mj_get. destruct (mget key (store (jr w))); lia.
    + symmetry. apply count_if_0. by intros x (y & -> & _)%list_elem_of_fmap.
  - simpl. clear Hreach. induction Hcalls as [|c calls Hc Hcalls IH]; simpl; constructor; [|exact IH].
    by apply call_prog_safe.
  - simpl in Hinv. unfold rt_inv in Hinv. lia.
Qed.
End Concurrent.

(** ** Examples *)

Definition sample_ctx (approvals : option (list (string * bool))) : durable_ctx :=
  DurableCtx "r" None false STAFF None false approvals false None None false None None 0 None [].

(** A payment tool that declares nothing: it has side effects. *)
Definition sample_tool : tool_spec :=
  ToolSpec "pay" WRun false None None None None false None false false false None None None.

Definition sample_hash (v : js) : outcome string string := Ok "h".
Definition sample_text (tag : string) (values : list string) : string := tag.
Definition sample_error (e : tool_error) : string := error_name e.

Definition sample_host : oracle tool_query js tool_error :=
  λ _ q, match q with QExecute _ _ _ _ _ => Ok (JStr "paid") | _ => Ok JUndef end.

Definition sample_call (approvals : option (list (string * bool))) : tool_call :=
  ToolCall (sample_ctx approvals) sample_tool "c1" (JObj []) 5.

Definition sample_prog (approvals : option (list (string * bool))) : tprog js :=
  call_prog full_caps sample_text sample_error sample_hash (sample_call approvals).

Definition sample_world : tworld := World empty_journal 0 0 [] empty_work.

(** Two workers resume the same fresh call. *)
Lemma side_effect_at_most_once_witness :
  execs (snd (run sample_host (sample_prog None) sample_world)) ≤ 1.
Proof.
  refine (side_effect_at_most_once full_caps sample_text sample_error sample_hash "r:tool:c1"
            [sample_call None; sample_call None] _ sample_world _ eq_refl _
            (reachable_run sample_host [sample_prog None; sample_prog None] sample_world 0 _ eq_refl)).
  repeat constructor; intros ids [= <-]; reflexivity.
Defined.

(** The execution does take place. *)
Example sample_executes : execs (snd (run sample_host (sample_prog None) sample_world)) = 1.
Proof. vm_compute. reflexivity. Qed.

(** A claim whose executor crashed long ago. *)
Definition stale_world : tworld :=
  World (mj_put 0 "r:tool:c1" (ETool (plain (Running 0 (Some 1%Z)))) empty_journal) 100000 0 [] empty_work.

(** With an approval, the take-over does not keep two workers apart.  Both judge the stale
    claim; the second one re-reads the record after the first has taken it over and is
    executing, and its compare-and-set, which expects the record just re-read and not the one
    it judged, replaces the first one's live claim: the tool is executed twice. *)
Theorem approved_takeover_race :
  ∃ ps' w', reachable ([sample_prog (Some [("c1", true)]); sample_prog (Some [("c1", true)])], stale_world) (ps', w') ∧
    execs w' = 2.
Proof.
  set (c := ([sample_prog (Some [("c1", true)]); sample_prog (Some [("c1", true)])], stale_world)).
  set (moves := [0; 0; 0] ++ [1; 1; 1; 1; 1; 1; 1] ++ [0; 0; 0; 0]).
  exists (fst (schedule sample_host moves c)), (snd (schedule sample_host moves c)). split.
  - rewrite <- surjective_pairing. apply schedule_reachable.
  - vm_compute. reflexivity.
Qed.
