(* ===== verification/ToolAlone.v ===== *)
(** * ToolAlone: what one durable tool call does

    The functional behaviour of [DurableTool] when the calls of a record come one after
    the other: a first call executes and records, a second one returns the recorded output,
    and a call that keeps failing is tried [maxRetries] times. *)

From S2P Require Import Prelude JsMap Keys Journal Work Prog Claim Json Hash Format Taint RunIdentity Cost ToolTypes Limits.
From S2P Require Import ToolStore ToolGuards DurableTool ToolSafety.

(** ** Requests, one at a time *)

Section Steps.
Variable h : oracle tool_query js tool_error.

(** [w'] is [w] with [k] holding [v]. *)
Definition sets (k : string) (v : entry) (w w' : tworld) : Prop :=
  (∀ k', jkey k' w' = if String.eqb k' k then Some v else jkey k' w) ∧
  trace w' = trace w ∧ clock w' = clock w.

Lemma sets_same k v w w' : sets k v w w' → jkey k w' = Some v.
Proof. intros [Hk _]. by rewrite Hk, String.eqb_refl. Qed.

Lemma sets_other k v w w' k' : sets k v w w' → k' ≠ k → jkey k' w' = jkey k' w.
Proof. intros [Hk _] Hne. rewrite Hk. by destruct (String.eqb_spec k' k). Qed.

Lemma sets_execs k v w w' : sets k v w w' → execs w' = execs w.
Proof. intros (_ & Ht & _). unfold execs. by rewrite Ht. Qed.

Lemma run_jget k (w : tworld) : run h (jget k) w = (Ok (jkey k w), w).
Proof. done. Qed.

Lemma run_jnow (w : tworld) : run h (jnow full_caps) w = (Ok (clock w), w).
Proof. done. Qed.

Lemma run_get_record k (w : tworld) : run h (get_record k) w = (Ok (jkey k w ≫= prj), w).
Proof. done. Qed.

Lemma run_jput k v (w : tworld) : ∃ w', run h (jput k v) w = (Ok tt, w') ∧ sets k v w w'.
Proof.
  eexists. split; [done|]. split_and!; [|done..]. intros k'. unfold jkey, mj_get. simpl. apply mget_mset_cases.
Qed.

Lemma run_claim_absent k v (w : tworld) :
  jkey k w = None → ∃ w', run h (claim full_caps k v) w = (Ok true, w') ∧ sets k v w w'.
Proof.
  intros Hk. unfold jkey in Hk. unfold claim. simpl. rewrite mj_putIfAbsent_spec, Hk. eexists. split; [done|].
  split_and!; [|done..]. intros k'. unfold jkey, mj_get. simpl. apply mget_mset_cases.
Qed.

Lemma run_claim_present k v v' (w : tworld) :
  jkey k w = Some v' → run h (claim full_caps k v) w = (Ok false, w).
Proof.
  intros Hk. unfold jkey in Hk. unfold claim. simpl. rewrite mj_putIfAbsent_spec, Hk. simpl. by destruct w.
Qed.

Lemma run_cas k v v' (w : tworld) :
  jkey k w = Some v → ∃ w', run h (jputIfMatch k v v') w = (Ok true, w') ∧ sets k v' w w'.
Proof.
  intros Hk. unfold jkey in Hk. simpl. rewrite mj_putIfMatch_spec, bool_decide_eq_true_2 by done. eexists. split; [done|].
  split_and!; [|done..]. intros k'. unfold jkey, mj_get. simpl. apply mget_mset_cases.
Qed.
End Steps.

(** Runs the first request of a sequence. *)
Ltac run_seq := unfold mbind, prog_bind; rewrite run_bind; fold (@mbind (prog entry tool_query js tool_error) _).

Section Ladder.
Variable text : string → list string → string.
Variable ctx : durable_ctx.
Variable t : tool_spec.
Variable ids : call_ids.
Variable input : js.
Variable h : oracle tool_query js tool_error.

(** A claim another executor still holds. *)
Definition fresh (s : tool_status) (now : Z) : bool :=
  match s with Running startedAt _ => (now - startedAt <=? claim_ttl t ctx)%Z | _ => false end.

(** The retry ladder.  A call that finds an attempt that failed, or whose executor
    crashed (its claim is older than the claim's time to live), and that has no recovery hook,
    decides alone on the record: without an approval a side effect is never repeated; otherwise
    it is repeated as long as the recorded attempts are below [maxRetries], and the record then
    shows a running attempt with the count raised by one. *)
Theorem retry_ladder_exact (fuel : nat) (approved : option bool) (dupKey : option string) (r : tool_record)
    (attempts poll : Z) (w : tworld) :
  jkey (ci_key ids) w = Some (inj r) → unfinished_attempts (tr_status r) = Some attempts →
  fresh (tr_status r) (clock w) = false → ts_recover t = false →
  let '(o, w') := run h (claim_loop full_caps text ctx t ids input (S fuel) approved dupKey (Some r) false poll) w in
  if side_effect t && negb (bool_decide (approved = Some true)) then
    (o, w') = run h (blockedOrThrow ctx (ci_toolCallId ids) (ts_name t) (SideEffectRetryBlocked (ci_key ids) attempts)) w
  else if (default DEFAULT_MAX_RETRIES (ts_maxRetries t) <=? attempts)%Z then
    (o, w') = run h (blockedOrThrow ctx (ci_toolCallId ids) (ts_name t)
                       (RetryLimitExceeded (ci_key ids) attempts (default DEFAULT_MAX_RETRIES (ts_maxRetries t)))) w
  else o = Ok (Next (Some r)) ∧
       sets (ci_key ids) (inj (plain (Running (clock w) (Some (attempts + 1)%Z)))) w w'.
Proof.
  intros Hk Hu Hf Hrec. destruct (run h _ w) as [o w'] eqn:Hrun. cbn [claim_loop] in Hrun.
  revert Hrun. unfold mbind at 1, prog_bind at 1. rewrite run_bind, run_jnow.
  assert (Hrem : match tr_status r with
                 | Running startedAt _ => if (clock w - startedAt <=? claim_ttl t ctx)%Z
                                          then Some (claim_ttl t ctx - (clock w - startedAt))%Z else None
                 | _ => None
                 end = None).
  { unfold fresh in Hf. destruct (tr_status r); try done. by rewrite Hf. }
  rewrite Hrem, Hrec, !andb_false_r. unfold retry_verdict. rewrite Hu.
  unfold mbind at 1, prog_bind at 1. cbn [pbind mret prog_ret]. rewrite andb_false_r.
  change (negb false) with true. rewrite andb_true_r.
  destruct (side_effect t && negb (bool_decide (approved = Some true))); [by intros ->|].
  destruct (_ <=? attempts)%Z; [by intros ->|].
  unfold fbind, take_over, mbind, prog_bind. rewrite !run_bind, run_jget, Hk.
  assert (Ht : is_terminal (tr_status r) = false) by (by destruct (tr_status r)).
  cbn [mbind option_bind]. rewrite prj_inj. simpl fmap. rewrite Ht. simpl default. rewrite Hu. cbn match.
  rewrite run_bind, run_jnow. rewrite run_bind.
  destruct (run_cas h (ci_key ids) (inj r) (inj (plain (Running (clock w) (Some (attempts + 1)%Z)))) w Hk) as (w2 & Hr2 & Hs2).
  simpl has_putIfMatch. cbn match. change (default 0 (Some attempts))%Z with attempts. rewrite Hr2.
  cbn [option_bind]. rewrite Hu. simpl. intros [= <- <-]. done.
Qed.
End Ladder.

(** ** Whole calls, in the default mode *)

(** A run without limits, guard, approvals or processors, and a tool that declares neither a
    hook that could answer in its place nor an idempotency window. *)
Definition plain_ctx (ctx : durable_ctx) : Prop :=
  c_limits ctx = None ∧ c_guard ctx = false ∧ c_replayCache ctx = None ∧ c_processors ctx = 0 ∧ c_approvals ctx = None.

Definition plain_tool (t : tool_spec) : Prop :=
  ts_untrusted t = false ∧ ts_confirm t = None ∧ ts_lookup t = false ∧ ts_recover t = false ∧ args_mode t = false.

Section Whole.
Variable text : string → list string → string.
Variable error_text : tool_error → string.
Variable argsHash : js → outcome string string.
Variable ctx : durable_ctx.
Variable t : tool_spec.
Variable toolCallId : string.
Variable input : js.
Variable h : oracle tool_query js tool_error.
Hypothesis Hctx : plain_ctx ctx.
Hypothesis Htool : plain_tool t.
Variable hash : string.
Hypothesis Hhash : match ts_idempotencyKey t with Some f => argsHash (f input) | None => argsHash input end = Ok hash.

Definition the_ids : call_ids :=
  CallIds toolCallId hash false (effective_window t ctx) (rk_tool (c_runId ctx) toolCallId)
    (idempotency_key t ctx toolCallId hash) None.

(** Where the record lives. *)
Definition the_key : string := rk_tool (c_runId ctx) toolCallId.

Lemma the_ids_ok : call_ids_of argsHash t ctx toolCallId input = Ok the_ids.
Proof.
  destruct Htool as (_ & _ & _ & _ & Ham). unfold call_ids_of. rewrite Hhash. unfold record_key. rewrite Ham. done.
Qed.

Lemma key_scoped : run_scoped ctx the_key = true.
Proof.
  unfold run_scoped. apply starts_with_spec. exists ("tool:" +:+ toolCallId). unfold the_key, rk_tool.
  by rewrite str_app_assoc.
Qed.

Lemma run_call fuel (w : tworld) :
  run h (durableTool full_caps text error_text ctx t argsHash fuel toolCallId input) w =
    match run h (call_body full_caps text error_text ctx t the_ids input fuel) w with
    | (Ok (Answer o), w') => (Ok o, w')
    | (Ok (Next _), w') => (Ok JUndef, w')
    | (Err e, w') => (Err e, w')
    end.
Proof.
  unfold durableTool. rewrite the_ids_ok. unfold mbind, prog_bind. rewrite run_bind. simpl of_outcome.
  cbn [run]. rewrite run_bind. by destruct (run h (call_body _ _ _ _ _ _ _ _) w) as [[[]|] w'].
Qed.

(** *** The gates stay out of the way *)

Definition dup_marker_key : option string :=
  if side_effect t then Some (dupMarkerKey (c_runId ctx) (ts_name t) hash) else None.

Definition nothing_noted (w : tworld) : Prop :=
  side_effect t = true →
  jkey (dupMarkerKey (c_runId ctx) (ts_name t) hash) w = None ∧ jkey (tombstoneKey (c_runId ctx)) w = None ∧
  jkey (taintKey (c_runId ctx)) w = None.

Lemma the_dup_key : dup_key ctx t the_ids = Ok dup_marker_key.
Proof.
  destruct Hctx as (Hl & _). unfold dup_key, dup_cfg, dup_marker_key. rewrite Hl. simpl. by destruct (side_effect t).
Qed.

Definition after_gates (fuel : nat) (record : option tool_record) : tprog (flow unit) :=
  fbind (claim_loop full_caps text ctx t the_ids input fuel None dup_marker_key record false POLL_MIN_MS) (λ record,
  fbind (claim_in_flight full_caps text ctx t the_ids None dup_marker_key) (λ claimedDup,
  phase_execute full_caps error_text ctx t the_ids input record dup_marker_key claimedDup)).

Lemma run_fbind {A B} (p : tprog (flow A)) (k : A → tprog (flow B)) (w : tworld) :
  run h (fbind p k) w =
    match run h p w with
    | (Ok (Answer o), w') => (Ok (Answer o), w')
    | (Ok (Next a), w') => run h (k a) w'
    | (Err e, w') => (Err e, w')
    end.
Proof. unfold fbind, mbind, prog_bind. rewrite run_bind. by destruct (run h p w) as [[[]|] w']. Qed.

Lemma run_ctxGet k (w : tworld) :
  run h (ctxGet (λ _ v, Ok v) None k) w = (Ok (jkey k w, None), w).
Proof. unfold ctxGet, mbind, prog_bind. rewrite run_bind, run_jget. unfold upgradeKey. destruct (jkey k w), (isVersionedKey k); done. Qed.

Lemma run_gates fuel (w : tworld) (record : option tool_record) :
  jkey the_key w = inj <$> record →
  (∀ r, record = Some r → is_Some (unfinished_attempts (tr_status r))) → nothing_noted w →
  run h (call_body full_caps text error_text ctx t the_ids input fuel) w = run h (after_gates fuel record) w.
Proof.
  intros Hk Hun Hno. destruct Hctx as (Hl & Hg & Hc & Hp & Ha). destruct Htool as (Hu & Hcf & Hlk & Hr & Ham).
  assert (Hrep : run h (phase_replay ctx t the_ids) w = (Ok (Next record), w)).
  { unfold phase_replay, mbind, prog_bind. rewrite Hc, run_bind, run_ctxGet.
    change (ci_key the_ids) with the_key. rewrite Hk. destruct record as [r|]; [|done]. simpl.
    destruct (Hun r eq_refl) as [n Hn]. by destruct (tr_status r). }
  unfold call_body. rewrite run_fbind, Hrep. unfold mbind at 1, prog_bind at 1. rewrite run_bind.
  unfold mark_untrusted. rewrite Hu. cbn [run mret prog_ret].
  assert (Hap : approved_of ctx the_ids record = None).
  { unfold approved_of, approval_of. rewrite Ha. destruct (tr_status <$> record) as [[]|]; try done. by destruct (is_nested _). }
  assert (Hgate : run h (phase_approval full_caps text ctx t the_ids input record) w = (Ok (Next tt), w)).
  { unfold phase_approval, phase_guard. rewrite Hap, Hcf, Hg. destruct record as [r|]; [|done].
    destruct (Hun r eq_refl) as [n Hn]. by destruct (tr_status r). }
  rewrite run_fbind, Hgate, the_dup_key, Hap. unfold mbind at 1, prog_bind at 1. rewrite run_bind. cbn [of_outcome run].
  assert (Hdup : run h (phase_duplicates full_caps text ctx t the_ids input None dup_marker_key) w = (Ok (Next tt), w)).
  { unfold phase_duplicates, dup_marker_key, nothing_noted in *. destruct (side_effect t); [|done]. simpl bool_decide.
    destruct (Hno eq_refl) as (Hm & _). cbn match. unfold read_marker, mbind, prog_bind.
    rewrite run_bind, run_bind, run_jget, Hm. done. }
  assert (Hcomp : run h (phase_compensated ctx t the_ids) w = (Ok (Next tt), w)).
  { unfold phase_compensated, nothing_noted in *. destruct (side_effect t); [|done].
    destruct (Hno eq_refl) as (_ & Ht & _). unfold runCompensated, mbind, prog_bind.
    by rewrite run_bind, run_bind, run_jget, Ht. }
  assert (Htaint : run h (phase_taint full_caps text ctx t the_ids input None) w = (Ok (Next tt), w)).
  { unfold phase_taint, nothing_noted in *. destruct (side_effect t); [|done].
    destruct (Hno eq_refl) as (_ & _ & Ht). rewrite Hl. simpl andb. cbn match.
    unfold readRunTaint, read_taint, mbind, prog_bind. by rewrite run_bind, run_bind, run_jget, Ht. }
  rewrite run_fbind, Hdup, run_fbind, Hcomp, run_fbind, Htaint, run_fbind. unfold phase_gate. rewrite Hl.
  cbn [run mret prog_ret]. unfold after_gates. rewrite !run_fbind.
  destruct (run h (claim_loop _ _ _ _ _ _ _ _ _ _ _ _) w) as [[[o|rec]|e] w1]; try done.
  rewrite !run_fbind. destruct (run h (claim_in_flight _ _ _ _ _ _ _) w1) as [[[o|claimed]|e] w2]; try done.
  unfold mbind, prog_bind. rewrite run_bind. unfold spend_approval. rewrite Hl. cbn.
  rewrite run_fbind. unfold phase_lookup. by rewrite Hlk.
Qed.

(** *** Records written at the end *)

Definition final_record (s : tool_status) : tool_record :=
  ToolRecord s (Some (ts_name t)) (if is_terminal s then Some [toolCallId] else None) None.

Lemma run_terminal_write s name0 dupKey (w : tworld) :
  truthy name0 = None ∨ name0 = Some (ts_name t) →
  ∃ w1, sets the_key (inj (final_record s)) w w1 ∧
    run h (writeToolTerminal full_caps ctx the_key s name0 toolCallId (ts_name t) hash dupKey) w =
    run h (match dupKey, s with Some k, Succeeded _ _ _ => finish_marker full_caps k toolCallId | _, _ => mret tt end) w1.
Proof.
  intros Hn. destruct Hctx as (Hl & _). destruct (run_jput h the_key (inj (final_record s)) w) as (w1 & Hr & Hs).
  exists w1. split; [done|]. unfold writeToolTerminal, mbind, prog_bind.
  assert (Hname : Some (default (ts_name t) (truthy name0)) = Some (ts_name t)).
  { destruct Hn as [->| ->]; [done|]. unfold truthy. by destruct (String.eqb (ts_name t) ""). }
  rewrite Hname. cbn [tr_toolName].
  assert (Hrec : (if is_terminal s then ToolRecord s (Some (ts_name t)) (Some [toolCallId]) None
                  else ToolRecord s (Some (ts_name t)) None None) = final_record s) by (by destruct s).
  rewrite Hrec, run_bind. unfold put_record. rewrite Hr, run_bind.
  unfold mirrorUnderRun. rewrite key_scoped. cbn [orb run mret prog_ret]. rewrite run_bind, Hl.
  destruct (run h (match dupKey, s with Some k, Succeeded _ _ _ => _ | _, _ => _ end) w1) as [[[]|e] w2]; done.
Qed.

Lemma run_finish_marker k at_ (w : tworld) :
  jkey k w = Some (inj (DupMarker toolCallId at_ false true false)) →
  ∃ w', run h (finish_marker full_caps k toolCallId) w = (Ok tt, w') ∧
    sets k (inj (DupMarker toolCallId (clock w) false false false)) w w'.
Proof.
  intros Hk. unfold finish_marker, mbind, prog_bind. rewrite run_bind, run_jnow, run_bind.
  rewrite (run_claim_present h k _ _ w Hk). rewrite run_bind, run_jget, Hk. cbn beta match. rewrite prj_inj.
  cbn [dm_released dm_inFlight dm_firstToolCallId orb andb]. rewrite String.eqb_refl. simpl has_putIfMatch. cbn match.
  destruct (run_cas h k _ (inj (DupMarker toolCallId (clock w) false false false)) w Hk) as (w' & Hr & Hs).
  exists w'. rewrite run_bind, Hr. done.
Qed.

(** The marker this call holds while it executes. *)
Definition marker_held (w : tworld) : Prop :=
  ∀ k, dup_marker_key = Some k → ∃ at_, jkey k w = Some (inj (DupMarker toolCallId at_ false true false)).

Lemma dup_key_ne k : dup_marker_key = Some k → k ≠ the_key.
Proof.
  unfold dup_marker_key. destruct (side_effect t); [|done]. intros [= <-].
  unfold the_key, dupMarkerKey, rk_proc, rk_tool. intros H. by apply str_app_inj_l in H.
Qed.

Lemma run_success o (w : tworld) :
  marker_held w →
  ∃ w', run h (write_success full_caps ctx t the_ids input o dup_marker_key) w = (Ok tt, w') ∧
    jkey the_key w' = Some (inj (final_record (succeeded t the_ids input o))) ∧ trace w' = trace w.
Proof.
  intros Hm. unfold write_success.
  destruct (run_terminal_write (succeeded t the_ids input o) (Some (ts_name t)) dup_marker_key w) as (w1 & Hs & Hr); [by right|].
  change (ci_key the_ids) with the_key. change (ci_toolCallId the_ids) with toolCallId. change (ci_hash the_ids) with hash.
  rewrite Hr. unfold succeeded at 1. pose proof (sets_same _ _ _ _ Hs) as Hk. destruct Hs as (Hj & Ht & Hc).
  destruct dup_marker_key as [k|] eqn:Hd; [|by exists w1].
  destruct (Hm k Hd) as [at_ Hat].
  destruct (run_finish_marker k at_ w1) as (w2 & Hr2 & Hs2).
  { rewrite Hj. destruct (String.eqb_spec k the_key) as [->|]; [by destruct (dup_key_ne the_key)|done]. }
  exists w2. rewrite Hr2. split_and!; [done| |by destruct Hs2 as (_ & -> & _)].
  rewrite (sets_other _ _ _ _ _ Hs2); [done|]. intros Heq. by apply (dup_key_ne k Hd).
Qed.

(** *** The attempt *)

(** The record an attempt may start from. *)
Definition may_attempt (record : option tool_record) (w : tworld) : Prop :=
  match record with
  | None => True
  | Some r => side_effect t = false ∧ fresh ctx t (tr_status r) (clock w) = false ∧
      ∃ n, unfinished_attempts (tr_status r) = Some n ∧ (n < default DEFAULT_MAX_RETRIES (ts_maxRetries t))%Z
  end.

Lemma run_claim_attempt fuel record (w : tworld) :
  jkey the_key w = inj <$> record → may_attempt record w →
  ∃ w' v, run h (claim_loop full_caps text ctx t the_ids input (S fuel) None dup_marker_key record false POLL_MIN_MS) w
    = (Ok (Next record), w') ∧ sets the_key v w w'.
Proof.
  intros Hk Hmay. destruct Htool as (_ & _ & _ & Hrec & _). destruct record as [r|].
  - destruct Hmay as (He & Hf & n & Hu & Hn).
    pose proof (retry_ladder_exact text ctx t the_ids input h fuel None dup_marker_key r n POLL_MIN_MS w Hk Hu Hf Hrec) as H.
    destruct (run h _ w) as [o w']. rewrite He in H. simpl andb in H. cbn match in H.
    rewrite (proj2 (Z.leb_gt _ _) Hn) in H. destruct H as [-> Hs]. eauto.
  - destruct (run_claim_absent h the_key (inj (plain (Running (clock w) (Some 1%Z)))) w Hk) as (w' & Hr & Hs).
    exists w'. eexists. split; [|exact Hs]. cbn [claim_loop]. unfold mbind, prog_bind. rewrite run_bind, run_jnow, run_bind.
    unfold fresh_claim, mbind, prog_bind. rewrite run_bind. change (ci_key the_ids) with the_key. by rewrite Hr.
Qed.

Lemma run_hold_marker (w : tworld) :
  (∀ k, dup_marker_key = Some k → jkey k w = None) →
  ∃ w' b, run h (claim_in_flight full_caps text ctx t the_ids None dup_marker_key) w = (Ok (Next b), w') ∧
    marker_held w' ∧ trace w' = trace w ∧ clock w' = clock w ∧ jkey the_key w' = jkey the_key w.
Proof.
  intros Hd. unfold claim_in_flight, marker_held. destruct dup_marker_key as [k|] eqn:Hdk; [|by exists w, false].
  destruct (run_claim_absent h k (inj (DupMarker toolCallId (clock w) false true false)) w (Hd k eq_refl)) as (w' & Hr & Hs).
  exists w', true. simpl bool_decide. cbn match. unfold mbind, prog_bind. rewrite run_bind, run_jnow, run_bind.
  unfold claimDupMarker, mbind, prog_bind. rewrite run_bind, run_jget, (Hd k eq_refl). change (ci_toolCallId the_ids) with toolCallId.
  rewrite Hr. split_and!; [done| | | |].
  - intros k' [= <-]. eexists. by apply (sets_same _ _ _ _ Hs).
  - by destruct Hs as (_ & ? & _).
  - by destruct Hs as (_ & _ & ?).
  - apply (sets_other _ _ _ _ _ Hs). intros Heq. by apply (dup_key_ne k Hdk).
Qed.

(** *** The execution *)

Definition exec_query : tool_query :=
  QExecute (ts_name t) toolCallId (idempotency_key t ctx toolCallId hash) input None.

Definition asked (w : tworld) : tworld := World (jr w) (clock w) (wall w) (exec_query :: trace w) (work w).

Lemma run_query record (w : tworld) :
  run (A:=js) h (request (RExt (QExecute (ts_name t) (ci_toolCallId the_ids) (ci_idempotencyKey the_ids) input
                                  (nestedApprovalsFor record (c_approvals ctx))))) w = (h (trace w) exec_query, asked w).
Proof. destruct Hctx as (_ & _ & _ & _ & Ha). rewrite Ha. exact (run_request h (RExt _) w). Qed.

Lemma execute_ok record claimed o (w : tworld) :
  h (trace w) exec_query = Ok o → js_truthy (suspend_of o) = false → marker_held w →
  ∃ w', run h (phase_execute full_caps error_text ctx t the_ids input record dup_marker_key claimed) w = (Ok (Answer o), w') ∧
    jkey the_key w' = Some (inj (final_record (succeeded t the_ids input o))) ∧ trace w' = exec_query :: trace w.
Proof.
  intros Ho Hs Hm. destruct (run_success o (asked w) Hm) as (w' & Hr & Hk & Ht). exists w'. split_and!; [|done|done].
  unfold phase_execute, mbind at 1, prog_bind at 1. rewrite run_bind, run_try. unfold execute_body, mbind, prog_bind.
  rewrite run_bind, run_query, Ho.
  destruct Hctx as (_ & _ & _ & Hp & _). rewrite Hp. cbn [run_processors]. rewrite run_bind. cbn [run mret prog_ret].
  rewrite Hs, run_bind, Hr. done.
Qed.

Lemma execute_err record claimed e (w : tworld) :
  h (trace w) exec_query = Err e → side_effect t = false →
  ∃ w', run h (phase_execute full_caps error_text ctx t the_ids input record dup_marker_key claimed) w = (Err e, w') ∧
    jkey the_key w' = Some (inj (final_record (Failed (JStr (error_text e))
      (Some (default 0 (record ≫= λ r, unfinished_attempts (tr_status r)) + 1)%Z) (Some false)))) ∧
    trace w' = exec_query :: trace w.
Proof.
  intros He Hse.
  destruct (run_terminal_write (Failed (JStr (error_text e))
    (Some (default 0 (record ≫= λ r, unfinished_attempts (tr_status r)) + 1)%Z) (Some false)) None None (asked w)) as (w' & Hs & Hr);
    [by left|].
  exists w'. split_and!; [|by apply (sets_same _ _ _ _ Hs)|by destruct Hs as (_ & ? & _)].
  unfold phase_execute, mbind at 1, prog_bind at 1. rewrite run_bind, run_try. unfold execute_body, mbind at 1, prog_bind at 1.
  rewrite run_bind, run_query, He.
  unfold on_failure. rewrite Hse. unfold terminal, mbind at 1, prog_bind at 1. rewrite run_bind.
  change (ci_toolCallId the_ids) with toolCallId. change (ci_key the_ids) with the_key. change (ci_hash the_ids) with hash.
  rewrite Hr. unfold dup_marker_key. by rewrite Hse.
Qed.

(** An attempt, when the gates let it through. *)
Lemma run_attempt fuel record (w : tworld) :
  jkey the_key w = inj <$> record → may_attempt record w → nothing_noted w →
  ∃ w1 claimed, marker_held w1 ∧ trace w1 = trace w ∧
    run h (call_body full_caps text error_text ctx t the_ids input (S fuel)) w =
    run h (phase_execute full_caps error_text ctx t the_ids input record dup_marker_key claimed) w1.
Proof.
  intros Hk Hmay Hno. rewrite (run_gates (S fuel) w record Hk); [| |done].
  - destruct (run_claim_attempt fuel record w Hk Hmay) as (w1 & v & Hr & Hs).
    destruct (run_hold_marker w1) as (w2 & b & Hr2 & Hm & Ht & _ & _).
    { intros k Hd. rewrite (sets_other _ _ _ _ _ Hs) by by apply dup_key_ne.
      unfold dup_marker_key, nothing_noted in *. destruct (side_effect t); [|done]. injection Hd as <-. by apply Hno. }
    exists w2, b. split_and!; [done| |].
    + rewrite Ht. by destruct Hs as (_ & ? & _).
    + unfold after_gates. by rewrite run_fbind, Hr, run_fbind, Hr2.
  - intros r ->. destruct Hmay as (_ & _ & n & Hu & _). by eexists.
Qed.

Definition the_call (fuel : nat) : tprog js :=
  durableTool full_caps text error_text ctx t argsHash (S fuel) toolCallId input.

(** C32: a call runs once and is then replayed.  In the default mode, a first call asks the
    host to execute once, with the run's idempotency key, records the output and returns it;
    the same call made again, after a crash or a resume, changes nothing, executes nothing and
    returns the recorded output, whatever the host would answer now. *)
Theorem first_call_then_replay (fuel fuel' : nat) (o : js) (h' : oracle tool_query js tool_error) (w : tworld) :
  jkey the_key w = None → nothing_noted w → h (trace w) exec_query = Ok o → js_truthy (suspend_of o) = false →
  ∃ w1, run h (the_call fuel) w = (Ok o, w1) ∧ trace w1 = exec_query :: trace w ∧
    jkey the_key w1 = Some (inj (ToolRecord (succeeded t the_ids input o) (Some (ts_name t)) (Some [toolCallId]) None)) ∧
    run h' (the_call fuel') w1 = (Ok o, w1).
Proof.
  intros Hk Hno Ho Hs.
  destruct (run_attempt fuel None w Hk I Hno) as (w1 & claimed & Hm & Ht & Hr).
  destruct (execute_ok None claimed o w1) as (w2 & Hr2 & Hk2 & Ht2); [by rewrite Ht|done|done|].
  exists w2. split_and!; [|by rewrite Ht2, Ht|exact Hk2|].
  - unfold the_call. rewrite run_call, Hr, Hr2. done.
  - unfold the_call, durableTool. rewrite the_ids_ok. unfold mbind at 1, prog_bind at 1. rewrite run_bind. cbn [of_outcome run].
    unfold mbind at 1, prog_bind at 1. rewrite run_bind.
    assert (Hrep : run h' (phase_replay ctx t the_ids) w2 = (Ok (Answer o), w2)).
    { destruct Hctx as (_ & _ & Hc & _). unfold phase_replay, mbind at 1, prog_bind at 1. rewrite Hc, run_bind.
      unfold ctxGet, mbind at 1, prog_bind at 1. rewrite run_bind, run_jget. change (ci_key the_ids) with the_key.
      rewrite Hk2. unfold upgradeKey.
      destruct (isVersionedKey the_key); cbn; rewrite String.eqb_refl; cbn; rewrite bool_decide_eq_true_2 by (by left); cbn;
      unfold mirrorUnderRun; rewrite key_scoped; done. }
    unfold call_body, fbind at 1, mbind at 1, prog_bind at 1. rewrite run_bind, Hrep. done.
Qed.

(** *** A call that keeps failing *)

(** [n] calls, one after the other, and how each ended. *)
Fixpoint repeat_call (fuel n : nat) : tprog (list (outcome tool_error js)) :=
  match n with
  | 0 => mret []
  | S n' => o ← pcatch (the_call fuel); os ← repeat_call fuel n'; mret (o :: os)
  end.

Definition max_retries : Z := default DEFAULT_MAX_RETRIES (ts_maxRetries t).

(** How a blocked call ends. *)
Definition refused (e : tool_error) : outcome tool_error js :=
  if c_blockedAsSentinel ctx
  then Ok (JObj [("__gnl_blocked", JObj [("toolCallId", JStr toolCallId); ("toolName", JStr (ts_name t)); ("code", JStr (error_name e))])])
  else Err e.

(** The attempts a tool is given. *)
Definition attempts_allowed : Z := Z.max 1 max_retries.

(** After some failures: the record counts them. *)
Definition failed_times (n : Z) (w : tworld) : Prop :=
  ∃ e, jkey the_key w = Some (inj (final_record (Failed (JStr e) (Some n) (Some false)))).

Lemma blocked_call fuel n (w : tworld) :
  side_effect t = false → failed_times n w → (max_retries ≤ n)%Z →
  run h (the_call fuel) w = (refused (RetryLimitExceeded the_key n max_retries), w).
Proof.
  intros Hse [e Hk] Hn. unfold the_call. rewrite run_call.
  rewrite (run_gates (S fuel) w (Some (final_record (Failed (JStr e) (Some n) (Some false)))) Hk);
    [|by intros r [= <-]; eexists|unfold nothing_noted; congruence].
  unfold after_gates. rewrite run_fbind. destruct Htool as (_ & _ & _ & Hrec & _).
  pose proof (retry_ladder_exact text ctx t the_ids input h fuel None dup_marker_key
    (final_record (Failed (JStr e) (Some n) (Some false))) n POLL_MIN_MS w Hk eq_refl eq_refl Hrec) as H.
  destruct (run h (claim_loop _ _ _ _ _ _ _ _ _ _ _ _) w) as [o w'].
  rewrite Hse in H. cbn [andb] in H. fold max_retries in H. rewrite (proj2 (Z.leb_le _ _) Hn) in H.
  unfold blockedOrThrow in H. unfold refused. change (ci_toolCallId the_ids) with toolCallId in H. change (ci_key the_ids) with the_key in H.
  destruct (c_blockedAsSentinel ctx); by injection H as -> ->.
Qed.

Lemma failing_call fuel record (w : tworld) e :
  (∀ tr, h tr exec_query = Err e) → side_effect t = false →
  jkey the_key w = inj <$> record → may_attempt record w →
  ∃ w', run h (the_call fuel) w = (Err e, w') ∧ execs w' = S (execs w) ∧
    failed_times (default 0 (record ≫= λ r, unfinished_attempts (tr_status r)) + 1)%Z w'.
Proof.
  intros He Hse Hk Hmay.
  destruct (run_attempt fuel record w Hk Hmay) as (w1 & claimed & Hm & Ht & Hr); [unfold nothing_noted; congruence|].
  destruct (execute_err record claimed e w1 (He _) Hse) as (w2 & Hr2 & Hk2 & Ht2).
  exists w2. unfold the_call. rewrite run_call, Hr, Hr2. split_and!; [done| |by eexists].
  unfold execs. by rewrite Ht2, Ht, count_if_cons.
Qed.

Lemma run_repeat fuel n (w : tworld) :
  run h (repeat_call fuel (S n)) w =
    match run h (the_call fuel) w with
    | (o, w1) => match run h (repeat_call fuel n) w1 with (Ok os, w2) => (Ok (o :: os), w2) | (Err e, w2) => (Err e, w2) end
    end.
Proof.
  cbn [repeat_call]. unfold mbind, prog_bind. rewrite run_bind, run_catch. destruct (run h (the_call fuel) w) as [o w1]. cbn [fst snd].
  rewrite run_bind. by destruct (run h (repeat_call fuel n) w1) as [[os|e] w2].
Qed.

Lemma repeat_failing fuel e n (w : tworld) k :
  (∀ tr, h tr exec_query = Err e) → side_effect t = false → failed_times k w → (1 ≤ k ≤ attempts_allowed)%Z →
  let more := Nat.min n (Z.to_nat (attempts_allowed - k)) in
  ∃ w', run h (repeat_call fuel n) w =
          (Ok (replicate more (Err e) ++ replicate (n - more) (refused (RetryLimitExceeded the_key attempts_allowed max_retries))), w') ∧
    execs w' = execs w + more.
Proof.
  intros He Hse. revert w k. induction n as [|n IH]; intros w k Hf Hk1; cbn zeta.
  { exists w. cbn. split; [done|lia]. }
  rewrite run_repeat. destruct (decide (max_retries ≤ k)%Z) as [Hle|Hgt].
  - assert (k = attempts_allowed) as -> by (unfold attempts_allowed in *; lia).
    rewrite (blocked_call fuel _ w Hse Hf Hle). destruct (IH w _ Hf Hk1) as (w' & Hr & Hx). exists w'. rewrite Hr.
    rewrite Z.sub_diag, Nat.min_0_r in *. rewrite !Nat.sub_0_r in *. by split.
  - pose proof Hf as [e' Hk].
    destruct (failing_call fuel (Some (final_record (Failed (JStr e') (Some k) (Some false)))) w e He Hse Hk) as (w1 & Hr & Hx & Hf').
    { split_and!; [done|done|]. exists k. split; [done|]. unfold max_retries in Hgt. lia. }
    rewrite Hr. simpl in Hf'. destruct (IH w1 (k + 1)%Z Hf') as (w' & Hr' & Hx'); [unfold attempts_allowed in *; lia|].
    exists w'. rewrite Hr'. set (m := Nat.min n (Z.to_nat (attempts_allowed - (k + 1)))) in *.
    assert (Nat.min (S n) (Z.to_nat (attempts_allowed - k)) = S m) as -> by (unfold m, attempts_allowed in *; lia).
    cbn [replicate app]. split; [by rewrite Nat.sub_succ|lia].
Qed.

(** C39: a failing tool is tried a bounded number of times.  A tool without side effects whose
    execution fails every time, called [n] times on one record: the first [maxRetries] calls (at
    least one) execute it, once each, and end with its error; every later call is refused, because the
    attempts are exhausted, and does not execute it. *)
Theorem failing_tool_bounded (fuel n : nat) (e : tool_error) (w : tworld) :
  side_effect t = false → (∀ tr, h tr exec_query = Err e) → jkey the_key w = None →
  let tried := Nat.min n (Z.to_nat attempts_allowed) in
  ∃ w', run h (repeat_call fuel n) w =
          (Ok (replicate tried (Err e) ++ replicate (n - tried) (refused (RetryLimitExceeded the_key attempts_allowed max_retries))), w') ∧
    execs w' = execs w + tried.
Proof.
  intros Hse He Hk. destruct n as [|n]; [exists w; cbn; split; [done|lia]|]. cbn zeta. rewrite run_repeat.
  destruct (failing_call fuel None w e He Hse Hk I) as (w1 & Hr & Hx & Hf). rewrite Hr.
  destruct (repeat_failing fuel e n w1 1 He Hse Hf) as (w' & Hr' & Hx'); [unfold attempts_allowed; lia|].
  exists w'. rewrite Hr'. set (m := Nat.min n (Z.to_nat (attempts_allowed - 1))) in *.
  assert (Nat.min (S n) (Z.to_nat attempts_allowed) = S m) as -> by (unfold m, attempts_allowed in *; lia).
  cbn [replicate app]. split; [by rewrite Nat.sub_succ|lia].
Qed.
End Whole.

(** ** Examples *)

Section Samples.
Let failing : oracle tool_query js tool_error := λ _ _, Err (HostError (JStr "down")).
Let safe_tool : tool_spec :=
  ToolSpec "read" WRun false None None (Some true) None false None false false false None None None.

Lemma retry_ladder_exact_witness :
  fst (run sample_host (claim_loop full_caps sample_text (sample_ctx None) sample_tool
        (the_ids (sample_ctx None) sample_tool "c1" "h") (JObj []) 3 None None
        (Some (plain (Running 0 (Some 1%Z)))) false 15) stale_world)
  = Err (SideEffectRetryBlocked "r:tool:c1" 1).
Proof.
  pose proof (retry_ladder_exact sample_text (sample_ctx None) sample_tool
    (the_ids (sample_ctx None) sample_tool "c1" "h") (JObj []) sample_host 2 None None
    (plain (Running 0 (Some 1%Z))) 1 15 stale_world eq_refl eq_refl eq_refl eq_refl) as H.
  vm_compute in H. exact (f_equal fst H).
Defined.

Lemma sample_plain : plain_ctx (sample_ctx None) ∧ plain_tool sample_tool.
Proof. repeat split. Qed.

Lemma first_call_then_replay_witness :
  ∃ w1, run sample_host (the_call sample_text sample_error sample_hash (sample_ctx None) sample_tool "c1" (JObj []) 4) sample_world
          = (Ok (JStr "paid"), w1) ∧
    run failing (the_call sample_text sample_error sample_hash (sample_ctx None) sample_tool "c1" (JObj []) 9) w1
          = (Ok (JStr "paid"), w1).
Proof.
  destruct (first_call_then_replay sample_text sample_error sample_hash (sample_ctx None) sample_tool "c1" (JObj [])
    sample_host (proj1 sample_plain) (proj2 sample_plain) "h" eq_refl 4 9 (JStr "paid") failing sample_world)
    as (w1 & Hr & _ & _ & Hr'); [reflexivity| |reflexivity|reflexivity|].
  - intros _. repeat split.
  - exists w1. split; [exact Hr|exact Hr'].
Defined.

Lemma failing_tool_bounded_witness :
  ∃ w', run failing (repeat_call sample_text sample_error sample_hash (sample_ctx None) safe_tool "c1" (JObj []) 4 5) sample_world =
    (Ok [Err (HostError (JStr "down")); Err (HostError (JStr "down")); Err (HostError (JStr "down"));
         Err (RetryLimitExceeded "r:tool:c1" 3 3); Err (RetryLimitExceeded "r:tool:c1" 3 3)], w') ∧ execs w' = 3.
Proof.
  refine (failing_tool_bounded sample_text sample_error sample_hash (sample_ctx None) safe_tool "c1" (JObj []) failing
           (proj1 sample_plain) _ "h" eq_refl 4 5 (HostError (JStr "down")) sample_world eq_refl (λ _, eq_refl) eq_refl).
  repeat split.
Defined.
End Samples.
