(* ===== verification/Compensation.v ===== *)
(** * Compensation: undoing the side effects of an abandoned run

    Models [packages/durable/src/compensation.ts]: [compensateRun] condemns the run, then
    undoes its executed tool calls in reverse order, each through claim, hook and terminal
    record.  The hooks of the tools are host requests.  [json_parse] is [JSON.parse] and
    [message] the text of an error; [org] is the organization the journal is scoped to. *)

From S2P Require Import Prelude JsMap Keys Journal Work Prog Claim Json Hash Format Taint RunIdentity Cost ToolTypes Limits.
From S2P Require Import ToolStore ToolGuards.

Definition COMP_CLAIM_TTL_MS : Z := 30000.

Definition compKey (runId suffix : string) : string := runId +:+ ":comp:" +:+ suffix.

(** The [org:<id>:] part of a key that leaves the process. *)
Definition orgPart (org : option string) : string :=
  match truthy org with Some o => "org:" +:+ o +:+ ":" | None => "" end.

(** [s.match(/^args-(.+)-([0-9a-f]{16})$/)]: the name, and the hash of 16 characters. *)
Definition args_suffix (s : string) : option (string * string) :=
  match strip_prefix "args-" s with
  | Some rest =>
      let n := String.length rest - 17 in
      let name := String.substring 0 n rest in
      let hash := String.substring (S n) 16 rest in
      if (0 <? n) && one_line name && is_hex hash && String.eqb rest (name +:+ "-" +:+ hash) then Some (name, hash) else None
  | None => None
  end.

(** The key the original execution carried. *)
Definition originalIdempotencyKey (org : option string) (runId suffix : string) : string :=
  orgPart org +:+
  match args_suffix suffix with
  | Some (name, hash) => runId +:+ ":" +:+ name +:+ ":" +:+ hash
  | None => runId +:+ ":" +:+ suffix
  end.

(** ** The report *)

Inductive comp_status :=
| SCompensated | SAlready | SWould | SNoHook | SNotExecuted | SUncertain | SBusy | SFailed | SNotAttempted.

#[global] Instance comp_status_eq_dec : EqDecision comp_status.
Proof. solve_decision. Defined.

Record comp_entry := CompEntry {
  ce_suffix : string;
  ce_toolCallId : string;
  ce_toolName : option string;
  ce_status : comp_status;
  ce_error : option string;
}.

Record comp_report := CompReport {
  cr_runId : string;
  cr_dryRun : bool;
  cr_condemned : bool;
  cr_entries : list comp_entry;
}.

(** ** Host requests and errors *)

Record tool_hooks := ToolHooks { th_recover : bool; th_compensate : bool }.

Inductive comp_query :=
| CRecover (toolName toolCallId idempotencyKey : string) (args : js)
| CCompensate (toolName toolCallId idempotencyKey runId : string) (args output : js).

Inductive comp_error :=
| NoReadRun (runId : string)
| TypeErr (what : string)
| CompHost (e : js).

(** ** What the model steps know of the calls *)

(** [[...v]], for the values a model record holds: a string spreads to characters and a [Map] to
    pairs, none of which is a tool call. *)
Definition spread (v : js) : option (list js) :=
  match v with
  | JArr l | JSet l => Some l
  | JUndef | JNull | JStr _ | JMap _ | JSearchParams _ => Some []
  | _ => None
  end.

Record call_info := CallInfo { cl_input : js; cl_toolName : option string }.

Section Compensation.
Variable caps : journal_caps.
Variable json_parse : string → option js.
Variable message : comp_error → string.
Variable org : option string.
Abbreviation prog := (prog entry comp_query js comp_error).

Definition call_of_part (part : js) : option (string * call_info) :=
  match prop part "type", prop part "toolCallId" with
  | JStr ty, JStr id =>
      if String.eqb ty "tool-call" && negb (String.eqb id "") then
        let input := match prop part "input" with
                     | JStr s => default (JStr s) (json_parse s)
                     | v => v
                     end in
        Some (id, CallInfo input (js_str (prop part "toolName")))
      else None
  | _, _ => None
  end.

Fixpoint callsFromModelSteps (entries : list (journal_entry entry)) (m : jsmap call_info) : outcome comp_error (jsmap call_info) :=
  match entries with
  | [] => Ok m
  | e :: es =>
      match je_kind e with
      | KTool => callsFromModelSteps es m
      | KModel =>
          let v := entry_value (je_value e) in
          match spread (prop v "content"), spread (prop v "parts") with
          | Some a, Some b =>
              callsFromModelSteps es (fold_left (λ m '(id, c), mset id c m) (omap call_of_part (a ++ b)) m)
          | _, _ => Err (TypeErr "spread")
          end
      end
  end.

(** ** The worklist *)

(** An executed or uncertain record of the run itself, with the suffix of its key. *)
Definition work_item (runId : string) (e : journal_entry entry) : option (string * tool_record) :=
  match je_kind e, strip_prefix (rk_tool runId "") (je_key e), prj (je_value e) : option tool_record with
  | KTool, Some suffix, Some r =>
      match tr_mirrorOf r, tr_status r with
      | None, (Succeeded _ _ _ | Failed _ _ _ | Running _ _) => Some (suffix, r)
      | _, _ => None
      end
  | _, _, _ => None
  end.

Definition worklist (runId : string) (entries : list (journal_entry entry)) : list (string * tool_record) :=
  rev (omap (work_item runId) entries).

(** ** One entry *)

Definition entry_call (suffix : string) (r : tool_record) : string :=
  match tr_status r, tr_resolvedToolCallIds r with
  | Succeeded _ _ _, Some (id :: _) => id
  | _, _ => suffix
  end.

Definition entry_tool (calls : jsmap call_info) (suffix : string) (r : tool_record) : option string :=
  match tr_toolName r with
  | Some n => Some n
  | None =>
      match mget (entry_call suffix r) calls ≫= cl_toolName with
      | Some n => Some n
      | None => fst <$> args_suffix suffix
      end
  end.

(** [record.input ?? calls.get(id)?.input]. *)
Definition entry_args (calls : jsmap call_info) (suffix : string) (r : tool_record) : js :=
  let stored := match tr_status r with Succeeded _ _ (Some i) => nullish i | _ => JUndef end in
  match stored with
  | JUndef => default JUndef (cl_input <$> mget (entry_call suffix r) calls)
  | v => v
  end.

(** What happened to an uncertain call: [Some output], or the entry's status and error. *)
Definition resolve (tool : option tool_hooks) (toolName runId suffix : string) (calls : jsmap call_info) (r : tool_record)
    : prog (js + (comp_status * option string)) :=
  match tr_status r with
  | Succeeded output _ _ => mret (inl output)
  | _ =>
      if default false (th_recover <$> tool) then
        ptry (λ e, mret (inr (SUncertain, Some (message e))))
          (probe ← request (RExt (CRecover toolName (entry_call suffix r) (originalIdempotencyKey org runId suffix)
                                    (entry_args calls suffix r)));
           match probe with
           | JUndef | JNull => Throw (TypeErr "probe.done")
           | _ => if js_truthy (prop probe "done") then mret (inl (prop probe "output"))
                  else mret (inr (SNotExecuted, None))
           end)
      else mret (inr (SUncertain, None))
  end.

(** The hook and its terminal record. *)
Definition run_hook (toolName runId suffix : string) (calls : jsmap call_info) (r : tool_record) (output : js)
    (existing : option comp_record) : prog (comp_status * option string) :=
  let ck := compKey runId suffix in
  ptry (λ e,
      let attempts := match existing with Some (CompFailed _ n) => (n + 1)%Z | _ => 1%Z end in
      _ ← jput ck (inj (CompFailed (message e) attempts));
      mret (SFailed, Some (message e)))
    (result ← request (RExt (CCompensate toolName (entry_call suffix r) (orgPart org +:+ ck) runId
                               (entry_args calls suffix r) output));
     at_ ← dateNow;
     _ ← jput ck (inj (Compensated result at_));
     mret (SCompensated, None)).

(** The entry's claim: a first attempt races for it, a retry overwrites. *)
Definition claim_undo (ck : string) (raw : option entry) : prog bool :=
  at_ ← dateNow;
  match raw with
  | None => claim caps ck (inj (CompRunning at_))
  | Some _ => _ ← jput ck (inj (CompRunning at_)); mret true
  end.

(** Does another compensator hold the entry? *)
Definition undo_live (existing : option comp_record) : prog bool :=
  match existing with
  | Some (CompRunning startedAt) => now ← dateNow; mret (now - startedAt <=? COMP_CLAIM_TTL_MS)%Z
  | _ => mret false
  end.

(** Terminal check, claim, hook. *)
Definition undo (dryRun : bool) (toolName runId suffix : string) (calls : jsmap call_info) (r : tool_record) (output : js)
    : prog (comp_status * option string) :=
  let ck := compKey runId suffix in
  raw ← jget ck;
  let existing := raw ≫= prj in
  match existing with
  | Some (Compensated _ _) => mret (SAlready, None)
  | _ =>
      if dryRun then mret (SWould, None)
      else
        live ← undo_live existing;
        if live : bool then mret (SBusy, None)
        else
          won ← claim_undo ck raw;
          if won : bool then run_hook toolName runId suffix calls r output existing
          else mret (SBusy, None)
  end.

Definition unwind_one (tools : jsmap tool_hooks) (dryRun : bool) (runId : string) (calls : jsmap call_info)
    (w : string * tool_record) : prog comp_entry :=
  let '(suffix, r) := w in
  let name := entry_tool calls suffix r in
  let tool := truthy name ≫= λ n, mget n tools in
  let toolName := default "" name in
  let entry s := CompEntry suffix (entry_call suffix r) name (fst s) (snd s) in
  res ← resolve tool toolName runId suffix calls r;
  match res with
  | inr s => mret (entry s)
  | inl output =>
      if default false (th_compensate <$> tool) then
        s ← undo dryRun toolName runId suffix calls r output; mret (entry s)
      else mret (entry (SNoHook, None))
  end.

(** A busy or failed entry stops the unwind. *)
Definition stops (s : comp_status) : bool := match s with SBusy | SFailed => true | _ => false end.

Fixpoint unwind (tools : jsmap tool_hooks) (dryRun : bool) (runId : string) (calls : jsmap call_info) (stopped : bool)
    (work : list (string * tool_record)) : prog (list comp_entry) :=
  match work with
  | [] => mret []
  | (suffix, r) :: work' =>
      if stopped then
        rest ← unwind tools dryRun runId calls true work';
        mret (CompEntry suffix (entry_call suffix r) (entry_tool calls suffix r) SNotAttempted None :: rest)
      else
        e ← unwind_one tools dryRun runId calls (suffix, r);
        rest ← unwind tools dryRun runId calls (stops (ce_status e)) work';
        mret (e :: rest)
  end.

(** From here on the run refuses to resume; a dry run condemns nothing. *)
Definition condemn (runId : string) (dryRun : bool) : prog bool :=
  if dryRun then mret true
  else at_ ← dateNow; claim caps (tombstoneKey runId) (inj (JObj [("at", JNum at_)])).

Definition compensateRun (runId : string) (tools : jsmap tool_hooks) (dryRun : bool) : prog comp_report :=
  if negb (has_readRun caps) then Throw (NoReadRun runId)
  else
    entries ← request (RReadRun runId);
    calls ← match callsFromModelSteps entries [] with Ok m => mret m | Err e => Throw e end;
    let work := worklist runId entries in
    _ ← condemn runId dryRun;
    es ← unwind tools dryRun runId calls false work;
    mret (CompReport runId dryRun (negb dryRun) es).
End Compensation.

(** ** The key of the probe is the key of the execution *)

Lemma substring_exact_l a b : String.substring 0 (String.length a) (a +:+ b) = a.
Proof. induction a as [|c a IH]; [by destruct b|]. simpl. by rewrite IH. Qed.

Lemma substring_full a : String.substring 0 (String.length a) a = a.
Proof. rewrite <- (str_app_nil_r a) at 2. apply substring_exact_l. Qed.

Lemma substring_skip a b n : String.substring (String.length a) n (a +:+ b) = String.substring 0 n b.
Proof. induction a as [|c a IH]; [done|]. exact IH. Qed.

Lemma args_suffix_args name hash :
  name ≠ "" → one_line name = true → is_hex hash = true → String.length hash = 16 →
  args_suffix (args_id name hash) = Some (name, hash).
Proof.
  intros Hne Hl Hx Hlen. unfold args_suffix, args_id. rewrite (proj2 (strip_prefix_Some "args-" _ (name +:+ "-" +:+ hash))) by done.
  assert (Hn : String.length (name +:+ "-" +:+ hash) - 17 = String.length name) by (rewrite !str_length_app; simpl; lia).
  rewrite Hn, substring_exact_l.
  assert (Hs : String.substring (S (String.length name)) 16 (name +:+ "-" +:+ hash) = hash).
  { replace (S (String.length name)) with (String.length (name +:+ "-")) by (rewrite str_length_app; simpl; lia).
    rewrite <- str_app_assoc, substring_skip, <- Hlen. apply substring_full. }
  rewrite Hs, Hl, Hx, String.eqb_refl. destruct name; [done|]. done.
Qed.

(** The undo probes the provider with the key the execution carried.  For a record kept under
    its run (a call keyed by its id, or by its arguments in the run's own window), the key
    [compensateRun] rebuilds from the record's key is the idempotency key [durableTool] gave to the
    execution, organization part included. *)
Theorem recover_key_agrees (t : tool_spec) (ctx : durable_ctx) (toolCallId hash suffix : string) :
  record_key t ctx toolCallId hash = Ok (rk_tool (c_runId ctx) suffix) →
  effective_window t ctx = WRun →
  ts_name t ≠ "" → one_line (ts_name t) = true → is_hex hash = true → String.length hash = 16 →
  args_suffix toolCallId = None →
  originalIdempotencyKey (c_orgScope ctx) (c_runId ctx) suffix = idempotency_key t ctx toolCallId hash.
Proof.
  intros Hk Hw Hne Hl Hx Hlen Hid. unfold record_key, idempotency_key in *. unfold originalIdempotencyKey, orgPart.
  destruct (args_mode t); cbn [negb] in *.
  - rewrite Hw in *. unfold rk_toolByArgs in Hk. destruct (assertNoColonInToolName (ts_name t)); [|done].
    cbn [lift_key] in Hk. injection Hk as Hk. unfold rk_tool in Hk.
    apply str_app_inj_l, (str_app_inj_l ":tool:") in Hk. rewrite <- Hk, args_suffix_args by done.
    by destruct (truthy (c_orgScope ctx)); rewrite ?str_app_assoc.
  - injection Hk as Hk. unfold rk_tool in Hk. apply str_app_inj_l, (str_app_inj_l ":tool:") in Hk. subst suffix.
    rewrite Hid. by destruct (truthy (c_orgScope ctx)); rewrite ?str_app_assoc.
Qed.

(** ** One pass, alone *)

Section Pass.
Variable json_parse : string → option js.
Variable message : comp_error → string.
Variable org : option string.
Variable tools : jsmap tool_hooks.
Variable runId : string.
Abbreviation oracle := (oracle comp_query js comp_error).
Abbreviation world := (world entry comp_query).
Implicit Types (h : oracle) (w : world) (s : string).

(** The keys of the hooks called so far, most recent first. *)
Definition hook_key (q : comp_query) : option string :=
  match q with CCompensate _ _ k _ _ _ => Some k | CRecover _ _ _ _ => None end.
Definition hooks_called (w : world) : list string := omap hook_key (trace w).

Definition comp_state s (w : world) : option comp_record := mj_get (compKey runId s) (jr w) ≫= prj.
Definition undone s w : Prop := ∃ o at_, comp_state s w = Some (Compensated o at_).

(** The hook of the entry was called in this pass. *)
Definition called (st : comp_status) : bool := match st with SCompensated | SFailed => true | _ => false end.

(** What one entry of a pass does. *)
Definition entry_spec (dryRun : bool) s (st : comp_status) w w' : Prop :=
  (∀ k, k ≠ compKey runId s → mj_get k (jr w') = mj_get k (jr w)) ∧
  hooks_called w' = (if called st then [orgPart org +:+ compKey runId s] else []) ++ hooks_called w ∧
  (undone s w → undone s w' ∧ called st = false) ∧
  (st = SCompensated ∨ st = SAlready → undone s w') ∧
  (dryRun = true → jr w' = jr w ∧ called st = false).

Lemma compKey_inj s s' : compKey runId s = compKey runId s' → s = s'.
Proof. unfold compKey. by intros H%str_app_inj_l%(str_app_inj_l ":comp:"). Qed.

Local Ltac step := cbn -[mj_put mj_get mj_putIfAbsent compKey originalIdempotencyKey orgPart entry_args entry_call String.append].

Lemma resolve_alone h tool toolName suffix calls r w :
  ∃ res w', run h (resolve message org tool toolName runId suffix calls r) w = (Ok res, w') ∧
    jr w' = jr w ∧ hooks_called w' = hooks_called w ∧
    match res with inr (st, _) => called st = false ∧ st ≠ SAlready | inl _ => True end.
Proof.
  unfold resolve. destruct (tr_status r); [by step; eauto 10| | | | |].
  all: destruct (default false (th_recover <$> tool)); [|by step; eexists (inr _), _; split_and!].
  all: step; destruct (h (trace w) _) as [probe|e]; [|by step; eexists (inr _), _; split_and!].
  all: destruct probe; step; try (by eexists (inr _), _; split_and!).
  all: destruct (js_truthy _); step; [by eexists (inl _), _; split_and!|by eexists (inr _), _; split_and!].
Qed.

Lemma run_hook_alone h toolName suffix calls r output existing w :
  ∃ st err w', run h (run_hook message org toolName runId suffix calls r output existing) w = (Ok (st, err), w') ∧
    (∀ k, k ≠ compKey runId suffix → mj_get k (jr w') = mj_get k (jr w)) ∧
    hooks_called w' = (orgPart org +:+ compKey runId suffix) :: hooks_called w ∧
    called st = true ∧ (st = SCompensated → undone suffix w').
Proof.
  unfold run_hook. step. destruct (h (trace w) _) as [result|e]; step; do 3 eexists; (split; [reflexivity|]);
    (split; [|split; [done|split; [done|]]]).
  - intros k Hk. by apply mj_get_put_ne.
  - intros _. unfold undone, comp_state. cbn [jr set_jr]. rewrite mj_get_put. cbn. eauto.
  - intros k Hk. by apply mj_get_put_ne.
  - done.
Qed.

Lemma claim_undo_alone h suffix w :
  ∃ w', run h (claim_undo full_caps (compKey runId suffix) (mj_get (compKey runId suffix) (jr w))) w = (Ok true, w') ∧
    (∀ k, k ≠ compKey runId suffix → mj_get k (jr w') = mj_get k (jr w)) ∧ hooks_called w' = hooks_called w.
Proof.
  unfold claim_undo. destruct (mj_get (compKey runId suffix) (jr w)) eqn:Hg; step.
  - eexists. split; [reflexivity|]. split; [|done]. intros k Hk. by apply mj_get_put_ne.
  - rewrite mj_putIfAbsent_spec, Hg. eexists. split; [reflexivity|]. split; [|done].
    intros k Hk. cbn. unfold mj_get. cbn. by apply mget_mset_ne.
Qed.

Lemma undo_live_alone h existing w : ∃ b, run h (undo_live existing) w = (Ok b, w).
Proof. destruct existing as [[]|]; step; eauto. Qed.

Lemma undo_alone h dryRun toolName suffix calls r output w :
  ∃ st err w', run h (undo full_caps message org dryRun toolName runId suffix calls r output) w = (Ok (st, err), w') ∧
    entry_spec dryRun suffix st w w'.
Proof.
  assert (Hsame : ∀ st, called st = false → (st = SAlready → undone suffix w) → entry_spec dryRun suffix st w w).
  { intros st Hc Hu. unfold entry_spec. rewrite Hc. split_and!; try done. intros [->|Hs]; [done|auto]. }
  unfold undo, mbind, prog_bind. rewrite run_bind.
  change (run h (jget ?k) w) with (Ok (E:=comp_error) (mj_get k (jr w)), w). cbn beta match.
  set (existing := option_bind _ _ _ _ : option comp_record).
  assert (Hun : undone suffix w ↔ ∃ o a, existing = Some (Compensated o a)) by done.
  clearbody existing.
  assert (Hgo : ¬ undone suffix w → ∃ st err w',
    run h (if dryRun then mret (SWould, None) else
           pbind (λ live : bool, if live then mret (SBusy, None) else
             pbind (λ won : bool, if won then run_hook message org toolName runId suffix calls r output existing
                                  else mret (SBusy, None))
               (claim_undo full_caps (compKey runId suffix) (mj_get (compKey runId suffix) (jr w)))) (undo_live existing)) w
      = (Ok (st, err), w') ∧ entry_spec dryRun suffix st w w').
  { intros Hnot. destruct dryRun; [do 3 eexists; split; [reflexivity|by apply Hsame]|].
    rewrite run_bind. destruct (undo_live_alone h existing w) as [[] ->]; [do 3 eexists; split; [reflexivity|by apply Hsame]|].
    rewrite run_bind. destruct (claim_undo_alone h suffix w) as (w1 & -> & Hk1 & Hh1).
    destruct (run_hook_alone h toolName suffix calls r output existing w1) as (st & err & w' & Hr & Hk & Hh & Hc & Hu).
    exists st, err, w'. split; [exact Hr|]. unfold entry_spec. rewrite Hc, Hh, Hh1. split_and!; try done.
    - intros k Hne. by rewrite Hk, Hk1.
    - intros [->| ->]; [auto|done]. }
  destruct existing as [[o a|e n|startedAt]|]; [|apply Hgo; rewrite Hun; by intros (? & ? & ?)..].
  do 3 eexists. split; [reflexivity|]. apply Hsame; [done|]. intros _. apply Hun. eauto.
Qed.

Lemma entry_spec_quiet dryRun s st w w' :
  called st = false → st ≠ SAlready → jr w' = jr w → hooks_called w' = hooks_called w → entry_spec dryRun s st w w'.
Proof.
  intros Hc Hna Hj Hh. unfold entry_spec, undone, comp_state. rewrite Hc, Hj, Hh. split_and!; try done.
  all: intros [->|]; done.
Qed.

Lemma unwind_one_alone h dryRun calls item w :
  ∃ e w', run h (unwind_one full_caps message org tools dryRun runId calls item) w = (Ok e, w') ∧
    ce_suffix e = fst item ∧ entry_spec dryRun (fst item) (ce_status e) w w'.
Proof.
  destruct item as [suffix r]. unfold unwind_one, mbind, prog_bind. rewrite run_bind.
  set (tool := option_bind _ _ _ _).
  destruct (resolve_alone h tool (default "" (entry_tool calls suffix r)) suffix calls r w)
    as (res & w1 & -> & Hj & Hh & Hq). cbn beta match.
  destruct res as [output|[st err]].
  - destruct (default false (th_compensate <$> tool)).
    + rewrite run_bind. destruct (undo_alone h dryRun (default "" (entry_tool calls suffix r)) suffix calls r output w1)
        as (st & err & w' & -> & Hs). do 2 eexists. split; [reflexivity|]. split; [done|]. cbn [fst ce_status].
      unfold entry_spec, undone, comp_state in *. by rewrite Hj, Hh in Hs.
    + do 2 eexists. split; [reflexivity|]. split; [done|]. by apply entry_spec_quiet.
  - do 2 eexists. split; [reflexivity|]. split; [done|]. by apply entry_spec_quiet; try apply Hq.
Qed.

(** Once an entry is busy or failed, the remaining (earlier) ones are not attempted. *)
Fixpoint stop_law (stopped : bool) (es : list comp_entry) : Prop :=
  match es with
  | [] => True
  | e :: es' =>
      if stopped then ce_status e = SNotAttempted ∧ stop_law true es' else stop_law (stops (ce_status e)) es'
  end.

(** The hooks an unwind called, in order. *)
Definition hooks_of (es : list comp_entry) : list string :=
  map (λ e, orgPart org +:+ compKey runId (ce_suffix e)) (filter (λ e, called (ce_status e) = true) es).

Lemma hooks_of_cons e es :
  hooks_of (e :: es) = (if called (ce_status e) then [orgPart org +:+ compKey runId (ce_suffix e)] else []) ++ hooks_of es.
Proof. unfold hooks_of. rewrite filter_cons. destruct (called (ce_status e)) eqn:Hc; by destruct (decide _). Qed.

(** How often the entry of a suffix was reported as undone. *)
Definition refunds (s : string) (es : list comp_entry) : nat :=
  count_if (λ e, String.eqb (ce_suffix e) s && bool_decide (ce_status e = SCompensated)) es.

Lemma refunds_0 s es : (∀ e, e ∈ es → ce_suffix e = s → called (ce_status e) = false) → refunds s es = 0.
Proof.
  intros He. apply count_if_0. intros e Hin. destruct (String.eqb_spec (ce_suffix e) s) as [Hs|]; [|done].
  specialize (He e Hin Hs). by destruct (ce_status e).
Qed.

Definition unwind_spec (dryRun stopped : bool) (work : list string) (es : list comp_entry) w w' : Prop :=
  map ce_suffix es = work ∧ stop_law stopped es ∧
  (∀ k, (∀ s, s ∈ work → k ≠ compKey runId s) → mj_get k (jr w') = mj_get k (jr w)) ∧
  hooks_called w' = rev (hooks_of es) ++ hooks_called w ∧
  (∀ s, undone s w → undone s w' ∧ ∀ e, e ∈ es → ce_suffix e = s → called (ce_status e) = false) ∧
  (∀ e, e ∈ es → ce_status e = SCompensated ∨ ce_status e = SAlready → undone (ce_suffix e) w') ∧
  (dryRun = true → jr w' = jr w ∧ hooks_of es = []) ∧
  (∀ s, refunds s es ≤ 1).

Lemma unwind_spec_nil dryRun stopped w : unwind_spec dryRun stopped [] [] w w.
Proof.
  unfold unwind_spec. split_and!; try done.
  - intros s Hs. split; [done|]. intros e He. by apply elem_of_nil in He.
  - intros e He. by apply elem_of_nil in He.
  - intros s. cbn. lia.
Qed.

(** One more entry in front. *)
Lemma unwind_spec_cons dryRun s work e es w w1 w' :
  ce_suffix e = s → entry_spec dryRun s (ce_status e) w w1 →
  unwind_spec dryRun (stops (ce_status e)) work es w1 w' →
  unwind_spec dryRun false (s :: work) (e :: es) w w'.
Proof.
  intros <- (Hk & Hh & Hu & Hd & Hdry) (Hm & Hst & Hk' & Hh' & Hu' & Hd' & Hdry' & Hone).
  assert (Hpres : ∀ s, undone s w → undone s w1).
  { intros s Hs. destruct (decide (s = ce_suffix e)) as [->|Hne]; [by apply Hu|].
    unfold undone, comp_state in *. rewrite Hk; [done|]. by intros ?%compKey_inj. }
  unfold unwind_spec. split_and!.
  - simpl. by f_equal.
  - exact Hst.
  - intros k Hne. rewrite Hk'; [apply Hk, Hne; by left|]. intros s Hs. apply Hne. by right.
  - rewrite hooks_of_cons, rev_app_distr, Hh', Hh, <- app_assoc. by destruct (called (ce_status e)).
  - intros s Hs. split; [by apply Hu', Hpres|]. intros e' [->|He]%elem_of_cons Hes.
    + subst s. by apply Hu.
    + by apply (Hu' s (Hpres s Hs)).
  - intros e' [->|He]%elem_of_cons Hst'; [by apply Hu', Hd|by apply Hd'].
  - intros Ht. destruct (Hdry Ht) as [Hj Hc]. destruct (Hdry' Ht) as [Hj' Ho]. split; [congruence|].
    by rewrite hooks_of_cons, Hc, Ho.
  - intros s. unfold refunds. rewrite count_if_cons. specialize (Hone s). unfold refunds in Hone.
    destruct (String.eqb_spec (ce_suffix e) s) as [<-|]; [|simpl; lia].
    destruct (bool_decide_reflect (ce_status e = SCompensated)) as [Hc|]; [|simpl; lia]. simpl.
    fold (refunds (ce_suffix e) es). rewrite refunds_0; [lia|]. apply Hu', Hd. by left.
Qed.

Lemma unwind_spec_skip dryRun s work e es w w' :
  ce_suffix e = s → ce_status e = SNotAttempted →
  unwind_spec dryRun true work es w w' → unwind_spec dryRun true (s :: work) (e :: es) w w'.
Proof.
  intros Hs Hst Hspec.
  assert (He : entry_spec dryRun s (ce_status e) w w) by (rewrite Hst; by apply entry_spec_quiet).
  assert (Hspec' : unwind_spec dryRun (stops (ce_status e)) work es w w').
  { destruct Hspec as (? & Hl & ?). split; [done|]. split; [|done]. rewrite Hst. clear -Hl.
    destruct es as [|e' es]; [done|]. destruct Hl as [Hn Hl]. cbn. rewrite Hn. cbn. clear -Hl.
    induction es as [|e es IH]; [done|]. destruct Hl as [Hn Hl]. cbn. rewrite Hn. by apply IH. }
  destruct (unwind_spec_cons dryRun s work e es w w w' Hs He Hspec') as (H1 & _ & H2).
  split; [done|]. split; [|done]. split; [done|]. apply Hspec.
Qed.

Lemma unwind_alone h dryRun calls work stopped w :
  ∃ es w', run h (unwind full_caps message org tools dryRun runId calls stopped work) w = (Ok es, w') ∧
    unwind_spec dryRun stopped (map fst work) es w w'.
Proof.
  revert stopped w. induction work as [|[s r] work IH]; intros stopped w; [do 2 eexists; split; [reflexivity|apply unwind_spec_nil]|].
  cbn [unwind]. unfold mbind, prog_bind. destruct stopped; rewrite run_bind.
  - destruct (IH true w) as (es & w' & -> & Hs). do 2 eexists. split; [reflexivity|]. by apply unwind_spec_skip.
  - destruct (unwind_one_alone h dryRun calls (s, r) w) as (e & w1 & -> & Hse & He). rewrite run_bind.
    destruct (IH (stops (ce_status e)) w1) as (es & w' & -> & Hs). do 2 eexists. split; [reflexivity|].
    by eapply unwind_spec_cons.
Qed.

(** ** Whole passes *)

Lemma tomb_not_comp s : tombstoneKey runId ≠ compKey runId s.
Proof. unfold tombstoneKey, rk_proc, compKey. intros H%str_app_inj_l. discriminate. Qed.

(** The claim on the tombstone. *)
Lemma condemn_alone h (dryRun : bool) w :
  ∃ (b : bool) w1, run h (condemn full_caps runId dryRun) w = (Ok b, w1) ∧
    (∀ k, k ≠ tombstoneKey runId → mj_get k (jr w1) = mj_get k (jr w)) ∧ hooks_called w1 = hooks_called w ∧
    (if dryRun then w1 = w else is_Some (mj_get (tombstoneKey runId) (jr w1))).
Proof.
  unfold condemn. destruct dryRun; [by exists true, w|]. step. rewrite mj_putIfAbsent_spec.
  destruct (mj_get (tombstoneKey runId) (jr w)) eqn:Hg; do 2 eexists; (split; [reflexivity|]); split_and!; try done; cbn.
  - intros k Hk. unfold mj_get. cbn. by apply mget_mset_ne.
  - unfold mj_get. cbn. rewrite mget_mset. eauto.
Qed.

Definition model_calls w : outcome comp_error (jsmap call_info) := callsFromModelSteps json_parse (mj_readRun runId (jr w)) [].

Lemma pass_alone h (dryRun : bool) w calls :
  model_calls w = Ok calls →
  ∃ es w1 w', run h (compensateRun full_caps json_parse message org runId tools dryRun) w = (Ok (CompReport runId dryRun (negb dryRun) es), w') ∧
    (∀ k, k ≠ tombstoneKey runId → mj_get k (jr w1) = mj_get k (jr w)) ∧ hooks_called w1 = hooks_called w ∧
    (if dryRun then w1 = w else is_Some (mj_get (tombstoneKey runId) (jr w1))) ∧
    unwind_spec dryRun false (map fst (worklist runId (mj_readRun runId (jr w)))) es w1 w'.
Proof.
  intros Hc. unfold compensateRun. cbn [full_caps has_readRun negb]. unfold mbind, prog_bind.
  rewrite run_bind. change (run h (request (RReadRun runId)) w) with (Ok (E:=comp_error) (mj_readRun runId (jr w)), w).
  cbn beta match. unfold model_calls in Hc. rewrite Hc, run_bind. cbn [run mret prog_ret].
  rewrite run_bind. destruct (condemn_alone h dryRun w) as (b & w1 & Hr & Hk & Hh & Ht).
  rewrite Hr. cbn beta match. rewrite run_bind.
  destruct (unwind_alone h dryRun calls (worklist runId (mj_readRun runId (jr w))) false w1) as (es & w' & -> & Hs).
  exists es, w1, w'. split; [reflexivity|]. done.
Qed.

(** One unwind, exactly.  A pass alone on the journal always ends with a report.  Its entries are
    the run's executed or uncertain tool records, each once, in reverse order; after an entry that
    is busy or failed none is attempted.  The hooks it called are exactly those of the entries it reports as
    compensated or failed, in that order, each under the entry's own key; an entry reported as (already)
    compensated has its terminal record; the run is condemned before; no other key changes; and a dry run
    changes nothing and calls no hook. *)
Theorem unwind_exact h (dryRun : bool) w calls :
  model_calls w = Ok calls →
  ∃ es w', run h (compensateRun full_caps json_parse message org runId tools dryRun) w = (Ok (CompReport runId dryRun (negb dryRun) es), w') ∧
    map ce_suffix es = map fst (worklist runId (mj_readRun runId (jr w))) ∧ stop_law false es ∧
    hooks_called w' = rev (hooks_of es) ++ hooks_called w ∧
    (∀ e, e ∈ es → ce_status e = SCompensated ∨ ce_status e = SAlready → undone (ce_suffix e) w') ∧
    (∀ k, k ≠ tombstoneKey runId → (∀ e, e ∈ es → k ≠ compKey runId (ce_suffix e)) → mj_get k (jr w') = mj_get k (jr w)) ∧
    (if dryRun then jr w' = jr w ∧ hooks_of es = [] else is_Some (mj_get (tombstoneKey runId) (jr w'))).
Proof.
  intros Hc. destruct (pass_alone h dryRun w calls Hc) as (es & w1 & w' & Hr & Hk1 & Hh1 & Ht & Hm & Hst & Hk & Hh & _ & Hd & Hdry & _).
  exists es, w'. split_and!; try done.
  - by rewrite Hh, Hh1.
  - intros k Htk Hck. rewrite Hk; [by apply Hk1|]. rewrite <- Hm. by intros s (e & -> & He)%list_elem_of_fmap; apply Hck.
  - destruct dryRun; [subst w1; by apply Hdry|]. rewrite Hk; [done|]. intros s _. apply tomb_not_comp.
Qed.

(** Every pass that ends: finished entries stay finished and their hooks are not called. *)
Lemma pass_keeps h (dryRun : bool) rep w w' :
  run h (compensateRun full_caps json_parse message org runId tools dryRun) w = (Ok rep, w') →
  (∀ s, undone s w → undone s w' ∧ ∀ e, e ∈ cr_entries rep → ce_suffix e = s → called (ce_status e) = false) ∧
  (∀ e, e ∈ cr_entries rep → ce_status e = SCompensated → undone (ce_suffix e) w') ∧
  (∀ s, refunds s (cr_entries rep) ≤ 1).
Proof.
  intros Hr. destruct (model_calls w) as [calls|e] eqn:Hc.
  - destruct (pass_alone h dryRun w calls Hc) as (es & w1 & w2 & Hr' & Hk1 & _ & Ht & _ & _ & _ & _ & Hu & Hd & _ & Hone).
    rewrite Hr in Hr'. injection Hr' as -> ->. cbn [cr_entries]. split_and!; [|intros e He Hs; apply Hd; auto|done].
    intros s' Hs'. apply Hu. unfold undone, comp_state in *. rewrite Hk1; [done|]. intros Heq. by apply (tomb_not_comp s').
  - exfalso. unfold compensateRun in Hr. cbn [full_caps has_readRun negb] in Hr. unfold mbind, prog_bind in Hr.
    rewrite run_bind in Hr. change (run h (request (RReadRun runId)) w) with (Ok (E:=comp_error) (mj_readRun runId (jr w)), w) in Hr.
    cbn beta match in Hr. unfold model_calls in Hc. rewrite Hc, run_bind in Hr. done.
Qed.

(** How often the hook of an entry was called. *)
Definition hook_calls (s : string) w : nat := count_if (String.eqb (orgPart org +:+ compKey runId s)) (hooks_called w).

Lemma hooks_of_quiet s es :
  (∀ e, e ∈ es → ce_suffix e = s → called (ce_status e) = false) →
  count_if (String.eqb (orgPart org +:+ compKey runId s)) (rev (hooks_of es)) = 0.
Proof.
  intros Hq. apply count_if_0. intros k Hk. apply list_elem_of_In, in_rev, list_elem_of_In in Hk. unfold hooks_of in Hk.
  apply list_elem_of_fmap in Hk as (e & -> & [Hc He]%list_elem_of_filter). apply String.eqb_neq. intros Heq.
  apply str_app_inj_l, compKey_inj in Heq. by rewrite (Hq e He) in Hc.
Qed.

(** Every pass, ended or not: the hooks of finished entries are not called. *)
Lemma pass_spares h (dryRun : bool) s w :
  undone s w → hook_calls s (snd (run h (compensateRun full_caps json_parse message org runId tools dryRun) w)) = hook_calls s w.
Proof.
  intros Hs. destruct (model_calls w) as [calls|e] eqn:Hc.
  - destruct (pass_alone h dryRun w calls Hc) as (es & w1 & w2 & -> & Hk1 & Hh1 & Ht & _ & _ & _ & Hh & Hu & _).
    unfold hook_calls. cbn [snd]. rewrite Hh, Hh1, count_if_app, hooks_of_quiet; [done|]. apply Hu.
    unfold undone, comp_state in *. rewrite Hk1; [done|]. intros Heq. by apply (tomb_not_comp s).
  - unfold compensateRun. cbn [full_caps has_readRun negb]. unfold mbind, prog_bind. rewrite run_bind.
    change (run h (request (RReadRun runId)) w) with (Ok (E:=comp_error) (mj_readRun runId (jr w)), w).
    cbn beta match. unfold model_calls in Hc. by rewrite Hc, run_bind.
Qed.

Lemma refunds_pos s es : refunds s es ≠ 0 → ∃ e, e ∈ es ∧ ce_suffix e = s ∧ ce_status e = SCompensated.
Proof.
  induction es as [|e es IH]; [done|]. unfold refunds. rewrite count_if_cons. fold (refunds s es). intros Hp.
  destruct (String.eqb_spec (ce_suffix e) s) as [He|]; [destruct (bool_decide_reflect (ce_status e = SCompensated)) as [Hs|]|].
  - exists e. split; [by left|done].
  - destruct IH as (e' & Hin & ?); [done|]. exists e'. split; [by right|done].
  - destruct IH as (e' & Hin & ?); [done|]. exists e'. split; [by right|done].
Qed.
End Pass.

(** ** Any number of passes *)

Section Passes.
Variable json_parse : string → option js.
Variable message : comp_error → string.
Variable org : option string.
Variable runId : string.
Implicit Types (w : world entry comp_query) (s : string).

(** The reports of passes that follow one another, most recent first, with anything in between that
    leaves finished undo records alone. *)
Inductive passes : list (list comp_entry) → world entry comp_query → Prop :=
| passes_nil w : passes [] w
| passes_cons log w w1 h tools dryRun rep w' :
    passes log w → (∀ s, undone runId s w → undone runId s w1) →
    run h (compensateRun full_caps json_parse message org runId tools dryRun) w1 = (Ok rep, w') →
    passes (cr_entries rep :: log) w'.

Lemma passes_refunds log w s :
  passes log w → sum_list (map (refunds s) log) ≤ 1 ∧ (sum_list (map (refunds s) log) = 1 → undone runId s w).
Proof.
  intros Hp. induction Hp as [w|log w w1 h tools dryRun rep w' Hp [Hle Hund] Henv Hr]; [by simpl; split; [lia|]|].
  destruct (pass_keeps json_parse message org tools runId h dryRun rep w1 w' Hr) as (Hu & Hd & Hone).
  simpl. specialize (Hone s). destruct (decide (sum_list (map (refunds s) log) = 1)) as [H1|H0].
  - destruct (Hu s (Henv s (Hund H1))) as [Hw' Hno]. rewrite (refunds_0 s (cr_entries rep)) by done. split; [lia|done].
  - split; [lia|]. intros Hs. destruct (refunds_pos s (cr_entries rep)) as (e & He & <- & Hst); [lia|]. by apply Hd.
Qed.

(** C28: an undo is done once.  However often a run is unwound (again after failed hooks, after crashes
    between passes, or for good measure, with whatever hooks), each executed call is reported as compensated
    by one pass at most; and once it was, no pass, whether it ends with a report or with an error, calls its
    hook again: the calls the host was sent under the entry's key stay as many as they were. *)
Theorem undone_once log w s h tools dryRun :
  passes log w →
  (∀ rep w', run h (compensateRun full_caps json_parse message org runId tools dryRun) w = (Ok rep, w') →
    sum_list (map (refunds s) (cr_entries rep :: log)) ≤ 1) ∧
  (sum_list (map (refunds s) log) = 1 →
    hook_calls org runId s (snd (run h (compensateRun full_caps json_parse message org runId tools dryRun) w)) = hook_calls org runId s w).
Proof.
  intros Hp. split; [intros rep w' Hr; by eapply passes_refunds; econstructor|]. intros H1.
  apply pass_spares, (proj2 (passes_refunds log w s Hp) H1).
Qed.
End Passes.

(** ** Concurrent passes *)

Section Condemned.
Variable json_parse : string → option js.
Variable message : comp_error → string.
Variable org : option string.
Variable runId : string.
Abbreviation prog := (prog entry comp_query js comp_error).
Abbreviation req := (req entry comp_query).
Implicit Types (w : world entry comp_query).

(** A hook of the run. *)
Definition is_hook (q : comp_query) : bool :=
  match q with CCompensate _ _ _ r _ _ => String.eqb r runId | CRecover _ _ _ _ => false end.
Definition run_hooks w : nat := count_if is_hook (trace w).

Definition condemned w : bool := mhas (tombstoneKey runId) (store (jr w)).

(** The ghost state of a pass: has its claim on the tombstone been answered? *)
Definition tomb_allowed (g : bool) (r : req) : Prop :=
  match r with RExt q => is_hook q = true → g = true | _ => True end.

Definition tomb_next (g : bool) (r : req) : outcome comp_error (ans (R:=js) r) → bool :=
  match r return outcome comp_error (ans (R:=js) r) → bool with
  | RPutIfAbsent k _ => λ o, g || (is_ok o && String.eqb k (tombstoneKey runId))
  | _ => λ _, g
  end.

Definition tomb_inv (n : nat) w (gs : list bool) : Prop :=
  (true ∈ gs → condemned w = true) ∧ (run_hooks w ≠ n → condemned w = true).

(** No request removes a key. *)
Lemma condemned_mono h (r : req) w : condemned w = true → condemned (snd (perform (E:=comp_error) (R:=js) h r w)) = true.
Proof.
  unfold condemned. rewrite !mhas_true. intros Hc.
  assert (Hset : ∀ k v, is_Some (mget (tombstoneKey runId) (mset k v (store (jr w))))).
  { intros k v. rewrite mget_mset_cases. destruct (String.eqb _ _); eauto. }
  destruct r; cbn; auto.
  - unfold mj_putIfAbsent. destruct (mhas k (store (jr w))); cbn; auto.
  - unfold mj_putIfMatch. destruct (mget k (store (jr w))); [destruct (bool_decide _)|]; cbn; auto.
Qed.

(** Performing a request, with any answer the pass may see afterwards. *)
Lemma tomb_inv_step n h w gs i g r (o : outcome comp_error (ans (R:=js) r)) :
  gs !! i = Some g → tomb_allowed g r → tomb_inv n w gs →
  tomb_inv n (snd (perform (E:=comp_error) (R:=js) h r w)) (<[i := tomb_next g r o]> gs).
Proof.
  intros Hg Hal [Hgs Hh]. pose proof (condemned_mono h r w) as Hmono.
  assert (Hthis : g = true → condemned w = true) by (intros ->; apply Hgs; by eapply list_elem_of_lookup_2).
  assert (Hnext : tomb_next g r o = true → condemned (snd (perform (E:=comp_error) (R:=js) h r w)) = true).
  { destruct r; try (intros Hx; by apply Hmono, Hthis). cbn [tomb_next].
    intros [Hx|[Hok Hk]%andb_true_iff]%orb_true_iff; [by apply Hmono, Hthis|].
    apply String.eqb_eq in Hk as ->. cbn. unfold condemned, mj_putIfAbsent.
    destruct (mhas (tombstoneKey runId) (store (jr w))) eqn:Hm; cbn; [done|]. unfold mhas. by rewrite mget_mset. }
  split.
  - intros [Hx|Hx]%elem_of_insert; [by apply Hnext|by apply Hmono, Hgs].
  - intros Hn. destruct (decide (run_hooks w = n)) as [Heq|Hne]; [|by apply Hmono, Hh].
    destruct r as [| | | | | | | | | | | | | | | | | |q]; try done.
    apply Hmono, Hthis, Hal. destruct (is_hook q) eqn:Hq; [done|]. exfalso. apply Hn. rewrite <- Heq.
    unfold run_hooks. cbn [perform snd trace]. by rewrite count_if_cons, Hq.
Qed.

Lemma tomb_inv_fail n w gs i g r e :
  gs !! i = Some g → tomb_inv n w gs → tomb_inv n w (<[i := tomb_next g r (Err e)]> gs).
Proof.
  intros Hg [Hgs Hh]. split; [|done]. intros [Hx|Hx]%elem_of_insert; [|by apply Hgs].
  apply Hgs. destruct r; cbn in Hx; rewrite ?orb_false_r in Hx; subst g; by eapply list_elem_of_lookup_2.
Qed.

Abbreviation tsafe := (safe tomb_allowed tomb_next (λ _ _, True)).

(** Once the tombstone is claimed, everything is allowed. *)
Lemma tsafe_condemned {A} (p : prog A) : tsafe true p.
Proof.
  induction p as [a|e|r k IH]; [done..|]. split; [by destruct r|]. intros o.
  replace (tomb_next true r o) with true by (by destruct r). apply IH.
Qed.

Lemma tsafe_bind {A B} g (p : prog A) (f : A → prog B) : tsafe g p → (∀ g a, tsafe g (f a)) → tsafe g (pbind f p).
Proof. intros Hp Hf. by apply (safe_bind tomb_allowed tomb_next (λ _ _, True) (λ _ _, True)). Qed.

Lemma tsafe_undo dryRun toolName runId' suffix calls r output g :
  dryRun = true ∨ runId' ≠ runId → tsafe g (undo full_caps message org dryRun toolName runId' suffix calls r output).
Proof.
  intros Hd. unfold undo, mbind, prog_bind. split; [done|]. intros [raw|e]; [|done]. cbn [pbind].
  assert (Hgo : ∀ existing g', tsafe g' (if dryRun then mret (SWould, None) else
           pbind (λ live : bool, if live then mret (SBusy, None) else
             pbind (λ won : bool, if won then run_hook message org toolName runId' suffix calls r output existing
                                  else mret (SBusy, None))
               (claim_undo full_caps (compKey runId' suffix) raw)) (undo_live existing))).
  { intros existing g'. destruct dryRun; [done|]. destruct Hd as [|Hne]; [done|].
    apply tsafe_bind; [by destruct existing as [[]|]; cbn; repeat split; intros []|]. intros g1 [|]; [done|].
    apply tsafe_bind; [by unfold claim_undo; destruct raw; cbn; repeat (split; [done|]; intros []); cbn|].
    intros g2 [|]; [|done]. unfold run_hook. split; [by intros ?%String.eqb_eq|].
    intros [result|e]; cbn; repeat (split; [done|]; intros []; cbn); done. }
  set (existing := option_bind _ _ _ _). destruct existing as [[]|]; [done|apply Hgo..].
Qed.

(** A dry run, and the pass of another run, call no hook of this run. *)
Lemma tsafe_unwind tools calls runId' (dryRun stopped : bool) work g :
  dryRun = true ∨ runId' ≠ runId → tsafe g (unwind full_caps message org tools dryRun runId' calls stopped work).
Proof.
  intros Hd. revert stopped g. induction work as [|[s r] work IH]; intros stopped g; [done|]. cbn [unwind]. unfold mbind, prog_bind.
  destruct stopped; [by apply tsafe_bind; [apply IH|]|].
  apply tsafe_bind; [|intros g' e; by apply tsafe_bind; [apply IH|]].
  unfold unwind_one, mbind, prog_bind. apply tsafe_bind.
  - unfold resolve. destruct (tr_status r); [done| | | | |].
    all: destruct (default false (th_recover <$> _)); [|done]; split; [done|]; intros [probe|e]; [|done].
    all: by destruct probe; cbn; repeat case_match.
  - intros g' [output|[st err]]; [|done]. destruct (default false (th_compensate <$> _)); [|done].
    apply tsafe_bind; [|done]. by apply tsafe_undo.
Qed.

Lemma compensateRun_tsafe tools runId' dryRun :
  tsafe false (compensateRun full_caps json_parse message org runId' tools dryRun).
Proof.
  unfold compensateRun. cbn [full_caps has_readRun negb]. unfold mbind, prog_bind.
  split; [done|]. intros [entries|e]; [|done]. cbn [tomb_next pbind].
  destruct (callsFromModelSteps json_parse entries []) as [calls|e]; [|done]. cbn [mret prog_ret pbind].
  destruct dryRun; cbn [condemn mret prog_ret pbind]; [apply tsafe_bind; [apply tsafe_unwind; by left|done]|].
  split; [done|]. intros [t|e]; [|done]. cbn. split; [done|]. intros [b|e]; [|done]. cbn.
  destruct (String.eqb_spec (tombstoneKey runId') (tombstoneKey runId)) as [Heq|Hne]; cbn; [apply tsafe_condemned|].
  apply tsafe_bind; [|done]. apply tsafe_unwind. right. by intros ->.
Qed.

(** One pass of the pool: its run, its hooks and whether it is a dry run. *)
Definition pass_prog (c : string * jsmap tool_hooks * bool) : prog comp_report :=
  let '(r, tools, dryRun) := c in compensateRun full_caps json_parse message org r tools dryRun.

(** A run is condemned before it is undone.  Of any number of passes, over any runs, in any
    interleaving, with requests that fail before or after taking effect and passes that crash: whenever
    some hook of a run has been called, the run's tombstone is in the journal, so no later resume
    continues a half-undone run. *)
Theorem condemned_before_hooks (cs : list (string * jsmap tool_hooks * bool)) (ps' : list (prog comp_report)) w w' :
  reachable (map pass_prog cs, w) (ps', w') → run_hooks w' ≠ run_hooks w →
  mj_get (tombstoneKey runId) (jr w') ≠ None.
Proof.
  intros Hreach Hne.
  destruct (pool_safe (R:=js) (E:=comp_error) tomb_allowed tomb_next (tomb_inv (run_hooks w))) with
    (post := λ (_ : bool) (_ : outcome comp_error comp_report), True)
    (c := (map pass_prog cs, w)) (c' := (ps', w')) (gs := map (λ _, false) cs) as (gs' & [_ Hinv] & _).
  - intros h v gs i g r Hg Hal Hi. by apply tomb_inv_step.
  - intros h v gs i g r e Hg Hal Hi. split; [by apply tomb_inv_fail|by apply tomb_inv_step].
  - intros v gs c x _ H. exact H.
  - exact Hreach.
  - split; [|done]. intros (y & Hy & _)%list_elem_of_fmap. done.
  - cbn [fst]. clear. induction cs as [|[[r tools] d] cs IH]; simpl; constructor; [apply compensateRun_tsafe|exact IH].
  - intros Hnone. specialize (Hinv Hne). unfold condemned, mhas in Hinv. unfold mj_get in Hnone.
    cbn [snd] in Hinv. by rewrite Hnone in Hinv.
Qed.
End Condemned.

(** ** Examples *)

Section Examples.
Let msg (e : comp_error) : string := match e with CompHost _ => "down" | TypeErr s | NoReadRun s => s end.
Let no_parse (s : string) : option js := None.

(** A run that charged and then reserved. *)
Definition paid (name : string) : entry := ETool (ToolRecord (Succeeded (JStr name) None (Some (JStr "in"))) (Some name) None None).
Definition two_steps : world entry comp_query :=
  World (mj_put 2 "r:tool:c2" (paid "reserve") (mj_put 1 "r:tool:c1" (paid "charge") empty_journal)) 0 0 [] empty_work.
Definition both_hooks : jsmap tool_hooks := [("charge", ToolHooks false true); ("reserve", ToolHooks false true)].
Definition good_host : oracle comp_query js comp_error := λ _ _, Ok JNull.

Definition pass (dryRun : bool) : prog entry comp_query js comp_error comp_report :=
  compensateRun full_caps no_parse msg None "r" both_hooks dryRun.

Lemma unwind_exact_witness :
  ∃ es w', run good_host (pass false) two_steps = (Ok (CompReport "r" false true es), w') ∧
    map ce_suffix es = ["c2"; "c1"] ∧ hooks_called w' = ["r:comp:c1"; "r:comp:c2"].
Proof.
  destruct (unwind_exact no_parse msg None both_hooks "r" good_host false two_steps [] eq_refl)
    as (es & w' & Hr & Hs & _ & _ & _ & _ & _).
  exists es, w'. split; [exact Hr|]. split; [exact Hs|]. vm_compute in Hr. injection Hr as _ <-. reflexivity.
Defined.

Lemma undone_once_witness :
  let '(o, w1) := run good_host (pass false) two_steps in
  match o with
  | Ok a => hook_calls None "r" "c1" w1 = 1 ∧ hook_calls None "r" "c1" (snd (run good_host (pass false) w1)) = hook_calls None "r" "c1" w1
  | _ => False
  end.
Proof.
  destruct (run good_host (pass false) two_steps) as [o w1] eqn:H1.
  pose proof H1 as E1. vm_compute in E1. injection E1 as <- <-. split; [vm_compute; reflexivity|].
  refine (proj2 (undone_once no_parse msg None "r" [_] _ "c1" good_host both_hooks false _) _).
  - exact (passes_cons no_parse msg None "r" [] two_steps two_steps good_host both_hooks false _ _
           (passes_nil _ _ _ _ _) (λ s Hs, Hs) H1).
  - vm_compute. reflexivity.
Defined.

Lemma condemned_before_hooks_witness :
  mj_get (tombstoneKey "r") (jr (snd (run good_host (pass false) two_steps))) ≠ None.
Proof.
  refine (condemned_before_hooks no_parse msg None "r" [("r", both_hooks, false); ("r", both_hooks, false)] _ two_steps _
            (reachable_run good_host [pass false; pass false] two_steps 0 _ eq_refl) _).
  vm_compute. discriminate.
Defined.

Lemma recover_key_agrees_witness :
  originalIdempotencyKey (Some "acme") "r" "c1" = "org:acme:r:c1".
Proof.
  refine (recover_key_agrees
            (ToolSpec "pay" WRun false None None None None false None false false false None None None)
            (DurableCtx "r" None false STAFF None false None false None None false None None 0 (Some "acme") [])
            "c1" "0123456789abcdef" "c1" eq_refl eq_refl _ eq_refl eq_refl eq_refl eq_refl).
  discriminate.
Defined.

(** The write of the terminal record of the first undo is lost. *)
Definition lost_write : config entry comp_query js comp_error comp_report :=
  schedule good_host (repeat 1 20)
    (match schedule good_host (repeat 0 8) ([pass false; pass false], two_steps) with
     | (ps, w) => match ps !! 0 with
                  | Some (Do r k) => schedule good_host (repeat 0 5) (<[0 := k (Err (CompHost JNull))]> ps, w)
                  | _ => (ps, w)
                  end
     end).

(** An undo can run twice.  The hook of a step succeeds, the write of its terminal record fails once, and
    the failure is recorded as a failure of the hook: the next pass calls the same hook again. *)
Theorem undo_twice_after_lost_write :
  reachable ([pass false; pass false], two_steps) lost_write ∧
  count_if (String.eqb "r:comp:c2") (hooks_called (snd lost_write)) = 2.
Proof.
  split; [|vm_compute; reflexivity]. unfold lost_write.
  pose proof (schedule_reachable good_host (repeat 0 8) ([pass false; pass false], two_steps)) as Hs.
  destruct (schedule good_host (repeat 0 8) ([pass false; pass false], two_steps)) as [ps w].
  etransitivity; [exact Hs|]. etransitivity; [|apply schedule_reachable].
  destruct (ps !! 0) as [[a|e|r k]|] eqn:Hi; [apply rtc_refl..| |apply rtc_refl].
  eapply rtc_l; [by apply (step_fail_before (CompHost JNull))|apply schedule_reachable].
Qed.
End Examples.
