(* ===== verification/Queue.v ===== *)
(** * Queue: durable background jobs

    Models [packages/queue/src/index.ts]: [enqueue] and the depth index, [listJobs],
    [retryJob], [moveJob], the worker ([runOnce], [drain]) and [jobEraser].  Jobs and
    markers live in the work store, locks and owners in the journal.

    A handler is a host request [QStart]: it answers when the handler is done, or when the
    heartbeat's interval fires first ([HTick]), after which the worker waits on with
    [QWait]; a failed answer is a handler that throws.  A renewal ends before the next event is
    seen.  Random ids and tokens are arguments.  [createPollLoop], a timer, is not modelled, nor is what a
    handler does through its context ([run], [enqueue], [storage]) apart from [followUp]. *)

From S2P Require Import Prelude JsMap Keys Journal Work Org OwnedName Prog Claim Locks Json Hash Format RunIdentity ToolTypes.

(** ** Jobs and markers *)

Record job_record := JobRecord {
  jb_type : string;
  jb_payload : js;
  jb_resourceId : option string;
  jb_orgId : option string;
  jb_staff : bool;                          (** [ownerKind: 'staff'] *)
}.

#[global] Instance job_record_eq_dec : EqDecision job_record.
Proof. solve_decision. Defined.

Inductive job_value :=
| VJob (j : job_record)
| VDepth (type : string)
| VDone (at_ : Z) (movedTo : option string)
| VFail (error : string) (attempts : option Z)
| VAtt (n : Z)
| VToken (token : string)
| VCursor (cursor : string)
| VLockRec (l : lock_record)
| VOwnerRec (o : owner_record)
| VAny (v : js).

#[global] Instance job_value_eq_dec : EqDecision job_value.
Proof. solve_decision. Defined.

#[global] Instance job_value_js : JsValue job_value := {|
  js_eq_dec := job_value_eq_dec;
  str_field v f := match v with
                   | VOwnerRec o => if String.eqb f "resourceId" then or_resourceId o
                                    else if String.eqb f "workflow" then or_workflow o else None
                   | VAny x => js_str (prop x f)
                   | _ => None
                   end;
  is_versioned v := match v with VOwnerRec o => or_versioned o | _ => false end;
  ser_length _ := 0;
|}.

#[global] Instance job_lock_embed : Embed lock_record job_value :=
  {| inj := VLockRec; prj v := match v with VLockRec l => Some l | _ => None end; prj_inj _ := eq_refl |}.
#[global] Instance job_owner_embed : Embed owner_record job_value :=
  {| inj := VOwnerRec; prj v := match v with VOwnerRec o => Some o | _ => None end; prj_inj _ := eq_refl |}.

(** A marker is tested for truth. *)
Definition value_truthy (v : job_value) : bool :=
  match v with
  | VAtt n => negb (Z.eqb n 0)
  | VToken s | VCursor s => negb (String.eqb s "")
  | VAny x => js_truthy x
  | _ => true
  end.

Definition marked (o : option job_value) : bool := match o with Some v => value_truthy v | None => false end.

Definition as_job (v : job_value) : option job_record := match v with VJob j => Some j | _ => None end.

(** The payload of a log entry read as a job: the type of anything else is [undefined]. *)
Definition job_of (r : log_record job_value) : job_record :=
  default (JobRecord "undefined" JUndef None None false) (as_job (lr_payload r)).

Definition as_attempts (v : option job_value) : Z := match v with Some (VAtt n) => n | _ => 0%Z end.
Definition as_cursor (v : option job_value) : option string := match v with Some (VCursor s) => Some s | _ => None end.

Definition done_key (id : string) : string := "qdone:" +:+ id.
Definition fail_key (id : string) : string := "qfail:" +:+ id.
Definition att_key (id : string) : string := "qatt:" +:+ id.
Definition own_key (id : string) : string := "qown:" +:+ id.
Definition QCURSOR : string := "qcursor".

(** ** Owners of jobs *)

Record enqueue_options := EnqueueOptions {
  eo_id : option string;
  eo_maxDepth : option nat;
  eo_caller : option caller;
  eo_resourceId : option string;
  eo_orgId : option string;
}.

Definition no_options : enqueue_options := EnqueueOptions None None None None None.

Inductive queue_error :=
| OneOwner
| ScopedStore (orgId : string)
| InvalidResourceId
| QueueDepthExceeded (type : string) (depth maxDepth : nat)
| QOrg (e : org_error)
| QName (e : name_error)
| QIdentity (e : identity_error)
| QMove (id : string)
| QHost (e : js)
| QFuel.

(** [callerOfJob]. *)
Definition callerOfJob (rec : job_record) : outcome identity_error caller :=
  match truthy (jb_resourceId rec) with
  | Some r => user r (jb_orgId rec)
  | None => Ok (if jb_staff rec then staff (jb_orgId rec) else UNKNOWN)
  end.

(** [ownerOptionsOf]. *)
Definition ownerOptionsOf (rec : job_record) : enqueue_options :=
  EnqueueOptions None None (if jb_staff rec then Some (staff (jb_orgId rec)) else None) (jb_resourceId rec) (jb_orgId rec).

(** [jobOwnerOf]: the resource, the organization and whether staff. *)
Definition jobOwnerOf (o : enqueue_options) : outcome queue_error (option string * option string * bool) :=
  let cOrg := eo_caller o ≫= org_of in
  let cRes := eo_caller o ≫= userIdOf in
  let differs a b := negb (bool_decide (a = b)) in
  let clash := match eo_caller o with
               | None => false
               | Some _ =>
                   (bool_decide (is_Some (eo_resourceId o)) && differs (eo_resourceId o) cRes) ||
                   (bool_decide (is_Some (eo_orgId o)) && bool_decide (is_Some cOrg) && differs (eo_orgId o) cOrg)
               end in
  if clash then Err OneOwner
  else Ok (match cRes with Some r => Some r | None => eo_resourceId o end,
           match cOrg with Some g => Some g | None => eo_orgId o end,
           match eo_caller o with Some (Staff _) => true | _ => false end).

(** The options a follow-up job of a handler is enqueued with. *)
Definition followUp (rec : job_record) (o : enqueue_options) : enqueue_options :=
  match eo_caller o with
  | Some _ => o
  | None =>
      let base := ownerOptionsOf rec in
      let c := match eo_resourceId o, eo_orgId o, eo_caller base with
               | Some _, _, _ => None
               | None, Some g, Some _ => Some (staff (Some g))
               | None, _, c => c
               end in
      EnqueueOptions (eo_id o) (eo_maxDepth o) c
        (match eo_resourceId o with Some r => Some r | None => eo_resourceId base end)
        (match eo_orgId o with Some g => Some g | None => eo_orgId base end)
  end.

Definition depthNs (orgId : option string) : string :=
  match orgId with Some o => "org:" +:+ o +:+ ":qdepth" | None => "qdepth" end.

(** ** Host requests *)

Inductive job_query :=
| QStart (jobId runId : string) (who : caller) (job : job_record)
| QWait (jobId : string).

Inductive handler_event := HDone | HTick.

Section Queue.
Variable caps : journal_caps.
Variable work_cas : bool.                    (** the work store has [putIfMatch] *)
Variable text : queue_error → string.
Abbreviation prog := (prog job_value job_query handler_event queue_error).

Definition wget (k : string) : prog (option job_value) := request (RWGet k).
Definition wput (k : string) (v : job_value) : prog unit := request (RWPut k v).

Definition lift_err {E A} (f : E → queue_error) (o : outcome E A) : prog A :=
  match o with Ok a => mret a | Err e => Throw (f e) end.

(** ** Reading the logs, page by page *)

Fixpoint countUpTo (fuel : nat) (ns : string) (limit count : nat) (cursor : option string) : prog nat :=
  match fuel with
  | 0 => Throw QFuel
  | S fuel' =>
      '(items, nx) ← request (RWList ns cursor);
      let count' := count + length items in
      match truthy nx with
      | Some c => if limit <=? count' then mret count' else countUpTo fuel' ns limit count' (Some c)
      | None => mret count'
      end
  end.

Fixpoint listAll (fuel : nat) (ns : string) (acc : list (log_record job_value)) (cursor : option string)
    : prog (list (log_record job_value)) :=
  match fuel with
  | 0 => Throw QFuel
  | S fuel' =>
      '(items, nx) ← request (RWList ns cursor);
      match truthy nx with
      | Some c => listAll fuel' ns (acc ++ items) (Some c)
      | None => mret (acc ++ items)
      end
  end.

Fixpoint findJob (fuel : nat) (id : string) (cursor : option string) : prog (option job_record) :=
  match fuel with
  | 0 => Throw QFuel
  | S fuel' =>
      '(items, nx) ← request (RWList "qjob" cursor);
      match List.find (λ j, String.eqb (lr_id j) id) items with
      | Some j => mret (Some (job_of j))
      | None => match truthy nx with Some c => findJob fuel' id (Some c) | None => mret None end
      end
  end.

(** ** Enqueueing *)

(** The depth of the organization's own index, read up to the limit. *)
Definition check_depth (fuel : nat) (type : string) (org : option string) (limit : option nat) : prog unit :=
  match limit with
  | Some maxDepth =>
      depth ← countUpTo fuel (depthNs org) maxDepth 0 None;
      if maxDepth <=? depth then Throw (QueueDepthExceeded type depth maxDepth) else mret tt
  | None => mret tt
  end.

(** The door: one organization's store, a bad organization or an empty user are refused. *)
Definition check_owner (scope org res : option string) : outcome queue_error unit :=
  match scope with
  | Some s => Err (ScopedStore s)
  | None =>
      match (match org with Some g => orgPrefix g | None => Ok "" end) with
      | Err e => Err (QOrg e)
      | Ok _ => if bool_decide (res = Some "") then Err InvalidResourceId else Ok tt
      end
  end.

(** The stored id; [fresh] is the one the store or [randomUUID] generates. *)
Definition job_id (name : option string) (fresh : string) (org res : option string) : outcome queue_error string :=
  let owned := bool_decide (is_Some res) || bool_decide (is_Some org) in
  match (match name with Some n => Some n | None => if owned then Some fresh else None end) with
  | Some n => match ownedName n (Owner org res) with Ok i => Ok i | Err e => Err (QName e) end
  | None => Ok fresh
  end.

(** [scope] is the organization the given work store is scoped to. *)
Definition enqueue (fuel : nat) (scope : option string) (type : string) (payload : js) (o : enqueue_options) (fresh : string)
    : prog string :=
  '(res, org, isStaff) ← lift_err id (jobOwnerOf o);
  _ ← lift_err id (check_owner scope org res);
  _ ← check_depth fuel type org (eo_maxDepth o);
  name ← lift_err id (job_id (eo_id o) fresh org res);
  stored ← request (RWAppend "qjob" (VJob (JobRecord type payload res org isStaff)) name);
  _ ← request (RWAppend (depthNs org) (VDepth type) stored);
  mret stored.

(** ** Management *)

Inductive job_state := Pending | Done | FailedJob.

Record job_status := JobStatus {
  js_id : string;
  js_type : string;
  js_state : job_state;
  js_attempts : Z;
}.

Fixpoint statuses (jobs : list (log_record job_value)) : prog (list job_status) :=
  match jobs with
  | [] => mret []
  | j :: js =>
      d ← wget (done_key (lr_id j));
      f ← wget (fail_key (lr_id j));
      a ← wget (att_key (lr_id j));
      rest ← statuses js;
      mret (JobStatus (lr_id j) (jb_type (job_of j))
              (if marked d then Done else if marked f then FailedJob else Pending) (as_attempts a) :: rest)
  end.

Definition listJobs (fuel : nat) : prog (list job_status) := jobs ← listAll fuel "qjob" [] None; statuses jobs.

Definition retryJob (fuel : nat) (scope : option string) (id : string) (maxDepth : option nat) (fresh : string)
    : prog (option string) :=
  rec ← findJob fuel id None;
  match rec with
  | None => mret None
  | Some j =>
      f ← wget (fail_key id);
      if negb (marked f) then mret None
      else
        let o := ownerOptionsOf j in
        n ← enqueue fuel scope (jb_type j) (jb_payload j)
              (EnqueueOptions None maxDepth (eo_caller o) (eo_resourceId o) (eo_orgId o)) fresh;
        mret (Some n)
  end.

(** ** The worker *)

Record worker_options := WorkerOptions {
  wo_owner : string;
  wo_ttlMs : Z;
  wo_maxAttempts : Z;
  wo_heartbeat : bool;
  wo_maxRenewFailures : nat;
  wo_handlers : list string;                 (** the types with a handler *)
}.

Variable opts : worker_options.

(** One tick of the heartbeat: the lock is lost when [renew] answers [false], or has thrown
    [maxRenewFailures] times in a row. *)
Definition beat (l : run_lock) (st : bool * nat) : prog (bool * nat) :=
  let '(lost, failures) := st in
  o ← pcatch (lock_renew caps l (wo_ttlMs opts));
  mret (match o with
        | Ok true => (lost, 0)
        | Ok false => (true, failures)
        | Err _ => (lost || (wo_maxRenewFailures opts <=? S failures), S failures)
        end).

(** The handler, with the heartbeat beside it: how it ended, and whether the lock was lost. *)
Fixpoint run_handler (fuel : nat) (q : job_query) (jobId : string) (l : run_lock) (st : bool * nat)
    : prog (outcome queue_error unit * bool) :=
  match fuel with
  | 0 => Throw QFuel
  | S fuel' =>
      o ← pcatch (request (RExt q));
      match o with
      | Err e => mret (Err e, fst st)
      | Ok HDone => mret (Ok tt, fst st)
      | Ok HTick =>
          st' ← (if wo_heartbeat opts then beat l st else mret st);
          run_handler fuel' (QWait jobId) jobId l st'
      end
  end.

(** The gate of every terminal write. *)
Definition stillOwns (jobId : string) (l : run_lock) (lost : bool) : prog bool :=
  if lost then mret false
  else if negb work_cas then mret true
  else request (RWPutIfMatch (own_key jobId) (VToken (rl_token l)) (VToken (rl_token l))).

(** The [catch]: one more attempt, and the dead letter at [maxAttempts]. *)
Definition on_error (jobId : string) (l : run_lock) (lost : bool) (e : queue_error) : prog unit :=
  owns ← stillOwns jobId l lost;
  if owns : bool then
    a ← wget (att_key jobId);
    let n := (as_attempts a + 1)%Z in
    _ ← wput (att_key jobId) (VAtt n);
    if (wo_maxAttempts opts <=? n)%Z then wput (fail_key jobId) (VFail (text e) (Some n)) else mret tt
  else mret tt.

Definition scoped_run (rec : job_record) (runId : string) : prog string :=
  match jb_orgId rec with
  | Some g => p ← lift_err QOrg (orgPrefix g); mret (p +:+ runId)
  | None => mret runId
  end.

(** What the worker does before the handler: the owner of the run is recorded. *)
Definition before_handler (rec : job_record) (runId : string) : prog caller :=
  scoped ← scoped_run rec runId;
  c ← lift_err QIdentity (callerOfJob rec);
  _ ← claimRunOwner caps QIdentity scoped c no_fields;
  mret c.

Definition finish (jobId : string) (l : run_lock) (lost : bool) : prog unit :=
  owns ← stillOwns jobId l lost;
  if owns : bool then at_ ← dateNow; wput (done_key jobId) (VDone at_ None) else mret tt.

(** One claimed job: the [try] and its [catch]. *)
Definition attempt (fuel : nat) (jobId runId : string) (rec : job_record) (l : run_lock) : prog unit :=
  if negb (bool_decide (jb_type rec ∈ wo_handlers opts)) then
    o ← pcatch (owns ← stillOwns jobId l false;
                if owns : bool then wput (fail_key jobId) (VFail ("no handler: " +:+ jb_type rec) None) else mret tt);
    match o with Ok _ => mret tt | Err e => on_error jobId l false e end
  else
    o ← pcatch (before_handler rec runId);
    match o with
    | Err e => on_error jobId l false e
    | Ok c =>
        '(r, lost) ← run_handler fuel (QStart jobId runId c rec) jobId l (false, 0);
        match r with
        | Err e => on_error jobId l lost e
        | Ok _ =>
            o2 ← pcatch (finish jobId l lost);
            match o2 with Ok _ => mret tt | Err e => on_error jobId l lost e end
        end
    end.

Definition process (fuel : nat) (job : log_record job_value) (l : run_lock) : prog unit :=
  let runId := "job:" +:+ lr_id job in
  _ ← (if work_cas then wput (own_key (lr_id job)) (VToken (rl_token l)) else mret tt);
  pfinally (attempt fuel (lr_id job) runId (job_of job) l) (lock_release caps l).

(** The jobs of one page: [inl] a job was processed, [inr] whether all of them are terminal. *)
Fixpoint scan_items (fuel : nat) (token : string) (items : list (log_record job_value)) (allTerminal : bool)
    : prog (unit + bool) :=
  match items with
  | [] => mret (inr allTerminal)
  | job :: items' =>
      d ← wget (done_key (lr_id job));
      if marked d then scan_items fuel token items' allTerminal
      else
        f ← wget (fail_key (lr_id job));
        if marked f then scan_items fuel token items' allTerminal
        else
          lock ← acquireRunLock caps ("job:" +:+ lr_id job +:+ ":lease") (wo_owner opts) (wo_ttlMs opts) token None;
          match lock with
          | None => scan_items fuel token items' false
          | Some l => _ ← process fuel job l; mret (inl tt)
          end
  end.

Fixpoint scan_pages (fuel hfuel : nat) (token : string) (cursor : option string) : prog bool :=
  match fuel with
  | 0 => Throw QFuel
  | S fuel' =>
      '(items, nx) ← request (RWList "qjob" cursor);
      r ← scan_items hfuel token items true;
      match r with
      | inl _ => mret true
      | inr allTerminal =>
          match truthy nx with
          | None => mret false
          | Some c =>
              _ ← (if allTerminal : bool then wput QCURSOR (VCursor c) else mret tt);
              scan_pages fuel' hfuel token (Some c)
          end
      end
  end.

(** [runOnce]: [true] when a job was processed. *)
Definition runOnce (fuel hfuel : nat) (token : string) : prog bool :=
  c ← wget QCURSOR; scan_pages fuel hfuel token (as_cursor c).

(** [drain]: the cap is [total * (maxAttempts + 1) + 1] turns. *)
Fixpoint drain_turns (turns fuel hfuel : nat) (token : nat → string) (n : nat) : prog nat :=
  match turns with
  | 0 => mret n
  | S turns' =>
      b ← runOnce fuel hfuel (token turns);
      if b : bool then drain_turns turns' fuel hfuel token (S n) else mret n
  end.

Definition drain (fuel hfuel : nat) (token : nat → string) : prog nat :=
  jobs ← listAll fuel "qjob" [] None;
  drain_turns (Z.to_nat (Z.of_nat (length jobs) * (wo_maxAttempts opts + 1) + 1)) fuel hfuel token 0.

(** ** Upgrades *)

Definition unowned (o : owner) : bool :=
  negb (bool_decide (is_Some (ow_resourceId o))) && negb (bool_decide (is_Some (ow_orgId o))).

(** One marker of the old job, given to the new one unless it has its own. *)
Definition move_marker (key : string → string) (fromId toId : string) : prog unit :=
  v ← wget (key fromId);
  match v with
  | Some x =>
      cur ← wget (key toId);
      match cur with Some _ => mret tt | None => wput (key toId) x end
  | None => mret tt
  end.

(** The old job is marked moved, unless it is terminal. *)
Definition close_moved (fromId toId : string) : prog unit :=
  d ← wget (done_key fromId);
  match d with
  | Some _ => mret tt
  | None =>
      f ← wget (fail_key fromId);
      match f with
      | Some _ => mret tt
      | None => at_ ← dateNow; wput (done_key fromId) (VDone at_ (Some toId))
      end
  end.

Definition moveJob (fuel : nat) (scope : option string) (fromId : string) (to : enqueue_options) (fresh : string)
    : prog (option string) :=
  _ ← (if unowned (fst (ownerOfName fromId)) then mret tt else Throw (QMove fromId));
  '(res, org, _) ← lift_err id (jobOwnerOf to);
  _ ← (if unowned (Owner org res) then Throw (QMove fromId) else mret tt);
  old ← findJob fuel fromId None;
  match old with
  | None => mret None
  | Some j =>
      toId ← lift_err QName (ownedName fromId (Owner org res));
      _ ← move_marker done_key fromId toId;
      _ ← move_marker fail_key fromId toId;
      _ ← move_marker att_key fromId toId;
      _ ← enqueue fuel scope (jb_type j) (jb_payload j)
            (EnqueueOptions (Some fromId) (eo_maxDepth to) (eo_caller to) (eo_resourceId to) (eo_orgId to)) fresh;
      _ ← close_moved fromId toId;
      mret (Some toId)
  end.
End Queue.

(** ** Erasure *)

Inductive erase_error :=
| EraseScoped (orgId : string)
| EraseWork
| EraseRuns
| EraseName (e : name_error)
| EraseOrg (e : org_error).

Definition marker_families : list string := ["qdone:"; "qfail:"; "qatt:"; "qown:"].

Definition erase_markers (prefix : string) (s : work_store job_value) : nat * work_store job_value :=
  fold_left (λ '(n, s) m, let '(k, s') := ws_deletePrefix (m +:+ prefix) s in (n + k, s')) marker_families (0, s).

(** [jobEraser(storage).erase(owner)]; [work_deletes] and [runs_delete] are the stores' optional deletes. *)
Definition erase_jobs (scope : option string) (work_deletes runs_delete : bool) (o : owner)
    (s : work_store job_value) (j : mem_journal job_value)
    : outcome erase_error (nat * work_store job_value * mem_journal job_value) :=
  match scope with
  | Some g => Err (EraseScoped g)
  | None =>
      if negb work_deletes then Err EraseWork
      else
        match (match ow_orgId o with Some g => orgPrefix g | None => Ok "" end) with
        | Err e => Err (EraseOrg e)
        | Ok orgp =>
            if negb runs_delete then Err EraseRuns
            else
              match ownedPrefix o with
              | Err e => Err (EraseName e)
              | Ok prefix =>
                  let '(n, s1) := ws_deleteIdPrefix prefix s in
                  let '(m, s2) := erase_markers prefix s1 in
                  let '(k, j1) := mj_deletePrefix ("job:" +:+ prefix) j in
                  let '(k', j2) := match ow_orgId o with
                                   | Some _ => mj_deletePrefix (orgp +:+ "job:" +:+ prefix) j1
                                   | None => (0, j1)
                                   end in
                  Ok (n + m + k + k', s2, j2)
              end
        end
  end.
