(* ===== verification/QueueJobs.v ===== *)
(** * QueueJobs: what enqueueing, retrying, moving and erasing jobs guarantee

    Theorems about the operations of [Queue] outside the worker: [enqueue] writes one job under
    its owner or nothing at all, the depth limit, a retry keeps the owner, and erasure by
    owner prefix. *)

From S2P Require Import Prelude JsMap Keys Journal Work Org OwnedName Prog Claim Locks Json Hash Format RunIdentity ToolTypes Queue.

Section Jobs.
Variable h : oracle job_query handler_event queue_error.
Abbreviation world := (world job_value job_query).

(** ** Reading the logs *)

Lemma listAll_alone fuel ns acc c (w : world) :
  length (rest_log ns c (work w)) < fuel → run h (listAll fuel ns acc c) w = (Ok (acc ++ rest_log ns c (work w)), w).
Proof.
  revert acc c. induction fuel as [|fuel IH]; intros acc c Hf; [lia|].
  cbn [listAll]. run_step.
  pose proof (ws_list_spec ns c (work w)) as Hp. destruct (ws_list ns c (work w)) as [items nx]. destruct Hp as [-> Hnx].
  destruct (truthy nx) as [c'|].
  - destruct Hnx as (_ & Hr & Hl). pose proof (rest_log_shrinks ns c c' _ Hr Hl).
    rewrite IH by lia. by rewrite Hr, <- app_assoc, take_drop.
  - cbn. by rewrite take_ge.
Qed.

Lemma find_app {A} (f : A → bool) l k :
  List.find f (l ++ k) = match List.find f l with Some x => Some x | None => List.find f k end.
Proof. induction l as [|x l IH]; [done|]. simpl. by destruct (f x). Qed.

Lemma findJob_alone fuel id c (w : world) :
  length (rest_log "qjob" c (work w)) < fuel →
  run h (findJob fuel id c) w = (Ok (job_of <$> List.find (λ j, String.eqb (lr_id j) id) (rest_log "qjob" c (work w))), w).
Proof.
  revert c. induction fuel as [|fuel IH]; intros c Hf; [lia|].
  cbn [findJob]. run_step.
  pose proof (ws_list_spec "qjob" c (work w)) as Hp. destruct (ws_list "qjob" c (work w)) as [items nx]. destruct Hp as [-> Hnx].
  rewrite <- (take_drop PAGE_LIMIT (rest_log "qjob" c (work w))) at 2. rewrite find_app.
  destruct (List.find _ (take _ _)) as [j|]; [done|].
  destruct (truthy nx) as [c'|].
  - destruct Hnx as (_ & Hr & Hl). pose proof (rest_log_shrinks _ c c' _ Hr Hl).
    rewrite IH by lia. by rewrite Hr.
  - cbn. by rewrite drop_ge.
Qed.

Lemma countUpTo_alone fuel ns limit n c (w : world) :
  length (rest_log ns c (work w)) < fuel →
  ∃ d, run h (countUpTo fuel ns limit n c) w = (Ok d, w) ∧
       (limit ≤ d ↔ limit ≤ n + length (rest_log ns c (work w))).
Proof.
  revert n c. induction fuel as [|fuel IH]; intros n c Hf; [lia|].
  cbn [countUpTo]. run_step.
  pose proof (ws_list_spec ns c (work w)) as Hp. destruct (ws_list ns c (work w)) as [items nx]. destruct Hp as [-> Hnx].
  destruct (truthy nx) as [c'|].
  - destruct Hnx as (_ & Hr & Hl). pose proof (rest_log_shrinks ns c c' _ Hr Hl).
    destruct (Nat.leb_spec limit (n + length (take PAGE_LIMIT (rest_log ns c (work w))))) as [Hle|Hgt].
    + eexists. split; [reflexivity|]. rewrite length_take in *. lia.
    + destruct (IH (n + length (take PAGE_LIMIT (rest_log ns c (work w)))) (Some c')) as (d & -> & Hd); [lia|].
      exists d. split; [done|]. rewrite Hd, Hr, length_take, length_drop. lia.
  - eexists. split; [reflexivity|]. by rewrite take_ge.
Qed.

(** ** Enqueueing *)

Definition enqueued (w : world) (type : string) (rec : job_record) (id : string) : world :=
  set_work (ws_append (wall w) (depthNs (jb_orgId rec)) (VDepth type) id
              (ws_append (wall w) "qjob" (VJob rec) id (work w))) w.

(** The owner a job is stored under is the owner of its id. *)
Definition id_of_owner (o : enqueue_options) (fresh id : string) (org res : option string) : Prop :=
  match res, org, eo_id o with
  | None, None, None => id = fresh
  | _, _, _ => ownerOfName id = (Owner org res, default fresh (eo_id o))
  end.

Definition depth (w : world) (org : option string) : nat := length (ws_log (depthNs org) (work w)).

Lemma run_lift {X A B} (f : X → queue_error) (o : outcome X A) (k : A → prog job_value job_query handler_event queue_error B) (w : world) :
  run h (lift_err f o ≫= k) w = match o with Ok a => run h (k a) w | Err e => (Err (f e), w) end.
Proof. by destruct o. Qed.

Lemma job_id_owner (o : enqueue_options) (fresh : string) (res org : option string) id :
  job_id (eo_id o) fresh org res = Ok id → id_of_owner o fresh id org res.
Proof.
  unfold job_id, id_of_owner. destruct (eo_id o) as [n|], res as [r|], org as [g|]; simpl;
    repeat match goal with |- context [ownedName ?n ?o] => destruct (ownedName n o) eqn:Hn end;
    intros [= <-]; try done; by apply ownerOfName_stored.
Qed.

Lemma job_id_error name fresh org res e : job_id name fresh org res = Err e → ∃ x, e = QName x.
Proof.
  unfold job_id. destruct (match name with Some _ => _ | None => _ end) as [n|]; [|done].
  destruct (ownedName n (Owner org res)) as [i|x]; [done|]. intros [= <-]. by exists x.
Qed.

Lemma check_owner_Ok org res : check_owner None org res = Ok tt → res ≠ Some "".
Proof.
  unfold check_owner. destruct (match org with Some _ => _ | None => _ end); [|done].
  by destruct (bool_decide_reflect (res = Some "")).
Qed.

Lemma jobOwnerOf_error o e : jobOwnerOf o = Err e → e = OneOwner.
Proof. unfold jobOwnerOf. case_match; [by intros [= <-]|done]. Qed.

Lemma check_owner_error org res e : check_owner None org res = Err e → e = InvalidResourceId ∨ ∃ x, e = QOrg x.
Proof.
  unfold check_owner. destruct (match org with Some _ => _ | None => _ end); [|intros [= <-]; eauto].
  destruct (bool_decide (res = Some "")); [intros [= <-]; eauto|done].
Qed.

Lemma check_depth_alone fuel type org limit (w : world) :
  depth w org < fuel →
  let '(r, w') := run h (check_depth fuel type org limit) w in
  w' = w ∧ match r with
           | Ok _ => ∀ m, limit = Some m → depth w org < m
           | Err e => ∃ d m, e = QueueDepthExceeded type d m ∧ m ≤ depth w org ∧ limit = Some m
           end.
Proof.
  intros Hf. unfold check_depth. destruct limit as [m|]; [|by split].
  run_step. destruct (countUpTo_alone fuel (depthNs org) m 0 None w) as (d & -> & Hd); [exact Hf|].
  unfold rest_log in Hd. cbn in Hd. fold (depth w org) in Hd. rewrite drop_0 in Hd. fold (depth w org) in Hd.
  destruct (Nat.leb_spec m d) as [Hle|Hgt]; (split; [done|]).
  - exists d, m. split_and!; [done|lia|done].
  - intros m' [= <-]. lia.
Qed.

(** The outcome of an enqueue: refused with nothing written, or one job stored. *)
Definition enqueue_outcome (type : string) (payload : js) (o : enqueue_options) (fresh : string) (w : world)
    (out : outcome queue_error string * world) : Prop :=
  match out with
  | (Err e, w') => w' = w ∧ e ≠ QFuel ∧
      (∀ t d m, e = QueueDepthExceeded t d m → ∃ res org st, jobOwnerOf o = Ok (res, org, st) ∧ m ≤ depth w org ∧ eo_maxDepth o = Some m)
  | (Ok id, w') => ∃ res org st, jobOwnerOf o = Ok (res, org, st) ∧ res ≠ Some "" ∧
      (∀ m, eo_maxDepth o = Some m → depth w org < m) ∧
      id_of_owner o fresh id org res ∧
      w' = enqueued w type (JobRecord type payload res org st) id ∧
      enqueued w' type (JobRecord type payload res org st) id = w'
  end.

Lemma enqueue_alone (fuel : nat) (type : string) (payload : js) (o : enqueue_options) (fresh : string) (w : world) :
  (∀ org, depth w org < fuel) →
  enqueue_outcome type payload o fresh w (run h (enqueue fuel None type payload o fresh) w).
Proof.
  intros Hf. unfold enqueue. rewrite run_lift. destruct (jobOwnerOf o) as [[[res org] st]|e] eqn:Ho.
  2:{ apply jobOwnerOf_error in Ho as ->. split_and!; [done..|]. intros ??? [=]. }
  rewrite run_lift. destruct (check_owner None org res) as [[]|e] eqn:Hc.
  2:{ apply check_owner_error in Hc as [->|[x ->]]; (split_and!; [done..|]); intros ??? [=]. }
  run_step. pose proof (check_depth_alone fuel type org (eo_maxDepth o) w (Hf org)) as Hd.
  destruct (run h (check_depth _ _ _ _) w) as [[[]|e] w1]; destruct Hd as [-> Hd].
  2:{ destruct Hd as (d & m & -> & Hm & Hl). split_and!; [done..|]. intros t d' m' [= <- <- <-]. by exists res, org, st. }
  change (pbind ?k (lift_err id ?o)) with (lift_err id o ≫= k).
  rewrite run_lift. destruct (job_id (eo_id o) fresh org res) as [i|e] eqn:Hi.
  2:{ apply job_id_error in Hi as [x ->]. split_and!; [done..|]. intros ??? [=]. }
  run_step. run_step. exists res, org, st.
  split_and!; [done|by eapply check_owner_Ok|done|by apply job_id_owner|done|].
  unfold enqueued. cbn [wall work jb_orgId set_work].
  rewrite (ws_append_noop _ "qjob") by (apply has_id_mono, has_id_append).
  rewrite ws_append_noop by apply has_id_append. done.
Qed.

(** Enqueueing writes one job, or nothing.  A refusal (two owners, an
    organization's own store, a bad organization, an empty user, a full queue, a reserved name)
    leaves the store as it was, and a full queue is the only reason for [QueueDepthExceeded]; otherwise
    the organization's depth was below the limit, the record carries the owner of the options beside the payload, the
    id names that owner, and the log and the depth index hold it once: the same call again is a
    no-op with the same id. *)
Theorem enqueue_once (fuel : nat) (type : string) (payload : js) (o : enqueue_options) (fresh : string) (w : world) :
  (∀ org, depth w org < fuel) →
  enqueue_outcome type payload o fresh w (run h (enqueue fuel None type payload o fresh) w).
Proof. apply enqueue_alone. Qed.

(** ** Owners *)

(** The owner a record carries. *)
Definition recorded_owner (rec : job_record) : option string * option string * bool :=
  (jb_resourceId rec, jb_orgId rec, jb_staff rec).

Lemma jobOwnerOf_shape o res org st :
  jobOwnerOf o = Ok (res, org, st) → (st = true → res = None) ∧ (st = true → ∃ g, eo_caller o = Some (Staff g)).
Proof.
  unfold jobOwnerOf. destruct o as [n m c r g']. cbn [eo_caller eo_resourceId eo_orgId].
  destruct (match c with None => false | Some _ => _ end) eqn:Hclash; [done|].
  destruct c as [[i g|g|]|]; intros [= <- <- <-]; split; try done; intros _; [|by exists g].
  by destruct r.
Qed.

Lemma ownerOptionsOf_owner type payload res org st :
  (st = true → res = None) →
  jobOwnerOf (ownerOptionsOf (JobRecord type payload res org st)) = Ok (res, org, st).
Proof.
  intros Hst. unfold jobOwnerOf, ownerOptionsOf. destruct st; [rewrite Hst by done|];
    destruct org as [g|]; try (by destruct res); cbn; by rewrite ?bool_decide_eq_true_2.
Qed.

Lemma followUp_default rec : followUp rec no_options = ownerOptionsOf rec.
Proof. unfold followUp, ownerOptionsOf. cbn. by destruct (jb_staff rec), (jb_resourceId rec), (jb_orgId rec). Qed.

(** A job's owner is inherited, never widened.  From the record alone, a retry and a
    follow-up enqueued with no options have the job's owner again; a follow-up is staff's only if the job was and the
    handler named no other user; and a job is staff's only when the caller who enqueued it
    was: never by leaving the owner out. *)
Theorem job_owner_inherited (o : enqueue_options) (rec : job_record) :
  jobOwnerOf o = Ok (recorded_owner rec) →
  jobOwnerOf (ownerOptionsOf rec) = jobOwnerOf o ∧
  jobOwnerOf (followUp rec no_options) = jobOwnerOf o ∧
  (∀ o' res' org', eo_caller o' = None → jobOwnerOf (followUp rec o') = Ok (res', org', true) →
    jb_staff rec = true ∧ eo_resourceId o' = None) ∧
  (∀ g, callerOfJob rec = Ok (Staff g) → ∃ g', eo_caller o = Some (Staff g')).
Proof.
  destruct rec as [type payload res org st]. unfold recorded_owner. cbn [jb_resourceId jb_orgId jb_staff]. intros Ho.
  destruct (jobOwnerOf_shape o res org st Ho) as [Hst Hc]. rewrite Ho. split_and!.
  - by apply ownerOptionsOf_owner.
  - rewrite followUp_default. by apply ownerOptionsOf_owner.
  - intros [n m [c|] r g] res' org' [=]. unfold followUp, ownerOptionsOf. cbn -[jobOwnerOf].
    intros [_ Hs]%jobOwnerOf_shape. destruct (Hs eq_refl) as [g' Hg']. destruct r, st; cbn in Hg'; try done; by destruct g.
  - unfold callerOfJob. cbn [jb_resourceId jb_orgId jb_staff]. intros g. destruct (truthy res) as [r|].
    + unfold user. by destruct (String.eqb r "").
    + destruct st; [|done]. intros _. by apply Hc.
Qed.

(** ** Retries *)

Definition job_in_log (id : string) (w : world) : option job_record :=
  job_of <$> List.find (λ j, String.eqb (lr_id j) id) (ws_log "qjob" (work w)).

(** Only dead letters are retried, for the same owner.  [retryJob] of an unknown job or of
    one that is pending or done writes nothing and answers null; of a dead letter it enqueues one copy with the same type, payload and owner,
    and no marker of any job changes; a refused copy (the depth limit) writes nothing. *)
Theorem retry_only_dead_letters (fuel : nat) (id fresh : string) (maxDepth : option nat) (w : world) :
  length (ws_log "qjob" (work w)) < fuel → (∀ org, depth w org < fuel) →
  (∀ j, job_in_log id w = Some j → jobOwnerOf (ownerOptionsOf j) = Ok (recorded_owner j)) →
  let '(r, w') := run h (retryJob fuel None id maxDepth fresh) w in
  let dead := marked (ws_get (fail_key id) (work w)) in
  match r with
  | Err _ => w' = w ∧ dead = true
  | Ok None => w' = w ∧ (job_in_log id w = None ∨ dead = false)
  | Ok (Some n) => ∃ j, job_in_log id w = Some j ∧ dead = true ∧
      w' = enqueued w (jb_type j) j n ∧ ∀ k, ws_get k (work w') = ws_get k (work w)
  end.
Proof.
  intros Hf Hd Hown. unfold retryJob. run_step. rewrite findJob_alone by (unfold rest_log; cbn; by rewrite drop_0).
  unfold rest_log. change (cursor_offset None) with 0. rewrite drop_0. fold (job_in_log id w).
  destruct (job_in_log id w) as [j|] eqn:Hj; [|by split; [|left]].
  unfold wget. run_step. destruct (marked (ws_get (fail_key id) (work w))) eqn:Hm; cbn [negb]; [|by split; [|right]].
  run_step. set (o := EnqueueOptions _ _ _ _ _).
  pose proof (enqueue_alone fuel (jb_type j) (jb_payload j) o fresh w Hd) as He. unfold enqueue_outcome in He.
  destruct (run h (enqueue _ _ _ _ _ _) w) as [[n|e] w']; [|by destruct He as (-> & _)].
  destruct He as (res & org & st & Ho & _ & _ & _ & -> & _). exists j.
  assert (Hjo : jobOwnerOf o = jobOwnerOf (ownerOptionsOf j)) by done.
  rewrite Hjo, (Hown j eq_refl) in Ho. injection Ho as <- <- <-.
  split_and!; [done..| |]; destruct j; [done|]. intros k. unfold enqueued. cbn [work set_work]. by rewrite !ws_get_append.
Qed.
End Jobs.

(** ** Erasure *)

Lemma ws_get_erase_markers k prefix (s : work_store job_value) :
  ws_get k (snd (erase_markers prefix s)) =
    if existsb (λ m, starts_with (m +:+ prefix) k) marker_families then None else ws_get k s.
Proof.
  unfold erase_markers. generalize 0. revert s. induction marker_families as [|m ms IH]; intros s n; [done|].
  cbn [fold_left existsb]. pose proof (ws_get_deletePrefix k (m +:+ prefix) s) as Hd.
  destruct (ws_deletePrefix (m +:+ prefix) s) as [x s1]. cbn [snd] in Hd.
  change (ws_get k (snd (fold_left (λ '(n0, s0) m0, let '(k0, s') := ws_deletePrefix (m0 +:+ prefix) s0 in (n0 + k0, s')) ms (n + x, s1)))
          = if starts_with (m +:+ prefix) k || existsb (λ m0, starts_with (m0 +:+ prefix) k) ms then None else ws_get k s).
  rewrite IH, Hd. by destruct (starts_with _ k), (existsb _ ms).
Qed.

Lemma ws_log_erase_markers ns prefix (s : work_store job_value) :
  existsb (λ m, starts_with (m +:+ prefix) ns) marker_families = false →
  ws_log ns (snd (erase_markers prefix s)) = ws_log ns s.
Proof.
  unfold erase_markers. generalize 0. revert s. induction marker_families as [|m ms IH]; intros s n; [done|].
  cbn [fold_left existsb]. intros [Hm Hms]%orb_false_iff. pose proof (ws_log_deletePrefix ns (m +:+ prefix) s) as Hd.
  destruct (ws_deletePrefix (m +:+ prefix) s) as [x s1]. cbn [snd] in Hd. rewrite Hm in Hd. rewrite <- Hd. by apply IH.
Qed.

(** The journal after an erasure. *)
Definition journal_erased (o : owner) (prefix : string) (j : mem_journal job_value) : mem_journal job_value :=
  let j1 := snd (mj_deletePrefix ("job:" +:+ prefix) j) in
  match ow_orgId o with
  | Some g => snd (mj_deletePrefix (("org:" +:+ g +:+ ":") +:+ "job:" +:+ prefix) j1)
  | None => j1
  end.

Lemma erase_jobs_inv o s j n s' j' :
  erase_jobs None true true o s j = Ok (n, s', j') →
  ∃ prefix, ownedPrefix o = Ok prefix ∧
    s' = snd (erase_markers prefix (snd (ws_deleteIdPrefix prefix s))) ∧ j' = journal_erased o prefix j.
Proof.
  unfold erase_jobs, journal_erased, orgPrefix. cbn [negb].
  destruct (match ow_orgId o with Some _ => _ | None => _ end) as [orgp|] eqn:Hg; [|done].
  destruct (ownedPrefix o) as [prefix|]; [|done].
  destruct (ws_deleteIdPrefix prefix s) as [a s1] eqn:Hd. destruct (erase_markers prefix s1) as [b s2] eqn:Hm.
  destruct (mj_deletePrefix ("job:" +:+ prefix) j) as [c j1] eqn:Hj1.
  destruct (ow_orgId o) as [g|].
  - destruct (String.eqb g "" || has_char colon g); [done|]. injection Hg as <-.
    destruct (mj_deletePrefix (_ +:+ "job:" +:+ prefix) j1) as [d j2] eqn:Hj2.
    intros [= _ <- <-]. exists prefix. rewrite Hd. cbn [snd]. rewrite Hm, Hj1. split_and!; [done..|]. exact (eq_sym (f_equal snd Hj2)).
  - intros [= _ <- <-]. exists prefix. rewrite Hd. cbn [snd]. by rewrite Hm, Hj1.
Qed.

Lemma mj_get_org_delete k o prefix (j : mem_journal job_value) :
  mj_get ("job:" +:+ k) (journal_erased o prefix j) =
    if starts_with ("job:" +:+ prefix) ("job:" +:+ k) then None else mj_get ("job:" +:+ k) j.
Proof. unfold journal_erased. destruct (ow_orgId o) as [g|]; rewrite !mj_get_deletePrefix; done. Qed.

(** A marker's key is under an owner's prefix when its id is, whatever the family. *)
Lemma marker_prefixes key prefix id :
  key ∈ [done_key; fail_key; att_key; own_key] →
  existsb (λ m, starts_with (m +:+ prefix) (key id)) marker_families = starts_with prefix id.
Proof.
  unfold marker_families. cbn [existsb]. intros Hk.
  repeat (apply elem_of_cons in Hk as [->|Hk]); [..|by apply elem_of_nil in Hk].
  all: unfold done_key, fail_key, att_key, own_key.
  1: rewrite (starts_with_app_app "qdone:"). 2: rewrite (starts_with_app_app "qfail:").
  3: rewrite (starts_with_app_app "qatt:"). 4: rewrite (starts_with_app_app "qown:").
  all: by destruct (starts_with prefix id).
Qed.

(** Erasing a person's jobs is exact.  When [jobEraser] answers, the log holds exactly the other
    owners' jobs, in order; of every stored id, the four markers, the lease and the rows of the run in the root
    journal are gone if it was the person's, and unchanged otherwise; the rows of the run in the
    person's organization are gone. *)
Theorem job_erasure_exact (o : owner) (s s' : work_store job_value) (j j' : mem_journal job_value) (n : nat) :
  o ≠ Owner None None →
  Forall (λ r, stored_id (lr_id r)) (ws_log "qjob" s) →
  erase_jobs None true true o s j = Ok (n, s', j') →
  ws_log "qjob" s' = filter (λ r, owner_of (lr_id r) ≠ o) (ws_log "qjob" s) ∧
  ∀ id, stored_id id →
    (∀ key, key ∈ [done_key; fail_key; att_key; own_key] →
      ws_get (key id) s' = if decide (owner_of id = o) then None else ws_get (key id) s) ∧
    (∀ sub, mj_get ("job:" +:+ id +:+ ":" +:+ sub) j' =
      if decide (owner_of id = o) then None else mj_get ("job:" +:+ id +:+ ":" +:+ sub) j) ∧
    (∀ sub g, ow_orgId o = Some g → owner_of id = o → mj_get ("org:" +:+ g +:+ ":job:" +:+ id +:+ ":" +:+ sub) j' = None).
Proof.
  intros Hne Hst Her. destruct (erase_jobs_inv _ _ _ _ _ _ Her) as (prefix & Hp & -> & Hj). split.
  { rewrite ws_log_erase_markers, ws_log_deleteIdPrefix by done.
    revert Hst. induction (ws_log "qjob" s) as [|r l IH]; intros Hst; [done|]. apply Forall_cons in Hst as [Hr Hl].
    rewrite !filter_cons, IH by done. rewrite (prefix_owner o prefix) by done.
    destruct (bool_decide_reflect (owner_of (lr_id r) = o)); repeat case_decide; done. }
  intros id Hid. assert (Hsub : ∀ x, starts_with prefix (id +:+ ":" +:+ x) = bool_decide (owner_of id = o)).
  { intros x. rewrite <- (prefix_owner o prefix id) by done. by eapply owned_prefix_sub. }
  split_and!.
  - intros key Hk. rewrite ws_get_erase_markers, ws_get_deleteIdPrefix. rewrite (marker_prefixes key prefix id Hk).
    rewrite (prefix_owner o prefix id) by done. by rewrite bool_decide_decide; case_decide.
  - intros sub. rewrite Hj, mj_get_org_delete by done. rewrite starts_with_app_app, Hsub. rewrite bool_decide_decide; by case_decide.
  - intros sub g Hg Ho. rewrite Hj. unfold journal_erased. rewrite Hg, mj_get_deletePrefix.
    rewrite !str_app_assoc. rewrite (starts_with_app_app "org:"), (starts_with_app_app g).
    change (":job:" +:+ id +:+ ":" +:+ sub) with ((":" +:+ "job:") +:+ id +:+ ":" +:+ sub).
    change (":" +:+ "job:" +:+ prefix) with ((":" +:+ "job:") +:+ prefix).
    by rewrite starts_with_app_app, Hsub, bool_decide_eq_true_2.
Qed.

(** ** Concrete instances *)

Definition quiet_host : oracle job_query handler_event queue_error := λ _ _, Ok HDone.

Definition dead_letter : world job_value job_query :=
  World empty_journal 1 1 []
    (WorkStore [("qjob", [LogRecord "~o~acme:bob:mail" (VJob (JobRecord "mail" JNull (Some "bob") (Some "acme") false)) 0])]
       [("qfail:~o~acme:bob:mail", VFail "smtp down" (Some 5%Z))]).

Lemma enqueue_once_witness :
  enqueue_outcome "mail" JNull (EnqueueOptions (Some "m") (Some 1) (Some (Staff None)) None (Some "acme")) "u" dead_letter
    (run quiet_host (enqueue 2 None "mail" JNull (EnqueueOptions (Some "m") (Some 1) (Some (Staff None)) None (Some "acme")) "u") dead_letter).
Proof. apply (enqueue_once quiet_host 2). intros org. unfold depth, depthNs. destruct org as [g|]; vm_compute; lia. Defined.

Lemma job_owner_inherited_witness :
  jobOwnerOf (ownerOptionsOf (JobRecord "mail" JNull None (Some "acme") true)) =
  jobOwnerOf (EnqueueOptions None None (Some (Staff (Some "acme"))) None None).
Proof.
  apply (job_owner_inherited (EnqueueOptions None None (Some (Staff (Some "acme"))) None None)). reflexivity.
Defined.

Lemma retry_only_dead_letters_witness :
  ∃ n w', run quiet_host (retryJob 2 None "~o~acme:bob:mail" None "u") dead_letter = (Ok (Some n), w') ∧
    ∃ j, w' = enqueued dead_letter "mail" j n ∧ jb_resourceId j = Some "bob".
Proof.
  pose proof (retry_only_dead_letters quiet_host 2 "~o~acme:bob:mail" "u" None dead_letter) as H.
  destruct (run quiet_host (retryJob 2 None "~o~acme:bob:mail" None "u") dead_letter) as [r w'] eqn:Hr.
  assert (Hv : r = Ok (Some "~o~acme:bob:u")) by (apply (f_equal fst) in Hr; vm_compute in Hr; symmetry; exact Hr).
  subst r. destruct H as (j & Hj & _ & Hw & _).
  - vm_compute. lia.
  - intros org. unfold depth, depthNs. destruct org as [g|]; vm_compute; lia.
  - intros j Hj. vm_compute in Hj. injection Hj as <-. reflexivity.
  - vm_compute in Hj. injection Hj as <-. eexists _, w'. split; [reflexivity|]. eexists. split; [exact Hw|reflexivity].
Defined.

Lemma job_erasure_exact_witness :
  ∃ n s' j', erase_jobs None true true (Owner (Some "acme") (Some "bob")) (work dead_letter) (jr dead_letter) = Ok (n, s', j') ∧
    ws_get (fail_key "~o~acme:bob:mail") s' = None.
Proof.
  destruct (erase_jobs None true true (Owner (Some "acme") (Some "bob")) (work dead_letter) (jr dead_letter)) as [[[n s'] j']|e] eqn:He;
    [|vm_compute in He; discriminate].
  assert (Hid : stored_id "~o~acme:bob:mail") by (exists "mail", (Owner (Some "acme") (Some "bob")); reflexivity).
  destruct (job_erasure_exact (Owner (Some "acme") (Some "bob")) (work dead_letter) s' (jr dead_letter) j' n) as [_ H].
  - discriminate.
  - vm_compute. constructor; [exact Hid|constructor].
  - exact He.
  - exists n, s', j'. split; [reflexivity|]. destruct (H _ Hid) as [Hk _].
    rewrite (Hk fail_key) by (right; left). vm_compute. reflexivity.
Defined.
