(* ===== verification/QueueWork.v ===== *)
(** * QueueWork: what one worker does to the queue

    Theorems about [runOnce] and [drain] of [Queue] for a worker that runs alone, on a quiet
    queue (no live lease): the first unfinished job is taken, its markers move as its
    handler ended, and draining finishes every job.  Two executions show what the persisted
    cursor costs: a job locked by another worker, and a job queued after an erasure, are never reached. *)

From S2P Require Import Prelude JsMap Keys Journal Work Org OwnedName Prog Claim Locks Json Hash Format RunIdentity ToolTypes Queue QueueJobs.

Section Worker.
Variable h : oracle job_query handler_event queue_error.
Variable text : queue_error → string.
Variable opts : worker_options.
Abbreviation world := (world job_value job_query).

(** ** Frames: what a part of the worker leaves alone *)

Record frame (K : string → Prop) (w w' : world) : Prop := Frame {
  fr_clock : clock w' = clock w;
  fr_wall : wall w' = wall w;
  fr_work : work w' = work w;
  fr_keys : ∀ k, ¬ K k → jkey k w' = jkey k w;
}.

Lemma frame_refl K w : frame K w w.
Proof. by split. Qed.

Lemma frame_trans K w1 w2 w3 : frame K w1 w2 → frame K w2 w3 → frame K w1 w3.
Proof.
  intros [Hc1 Hl1 Hw1 Hk1] [Hc2 Hl2 Hw2 Hk2]. split; [congruence..|].
  intros k Hk. by rewrite Hk2, Hk1.
Qed.

Lemma frame_mono (K K' : string → Prop) w w' : (∀ k, K k → K' k) → frame K w w' → frame K' w w'.
Proof. intros HK [? ? ? Hk]. split; [done..|]. intros k Hn. apply Hk. eauto. Qed.

Lemma frame_set_jr (K : string → Prop) j (w : world) :
  (∀ k, ¬ K k → mj_get k j = mj_get k (jr w)) → frame K w (set_jr j w).
Proof. by split. Qed.

Lemma frame_putIfMatch (key : string) e v (w : world) :
  frame (λ k, k = key) w (set_jr (snd (mj_putIfMatch key e v (jr w))) w).
Proof.
  apply frame_set_jr. intros k Hk. rewrite mj_putIfMatch_spec. case_match; [|done].
  unfold mj_get. cbn. by apply mget_mset_ne.
Qed.

Lemma frame_putIfAbsent (key : string) v (w : world) :
  frame (λ k, k = key) w (set_jr (snd (mj_putIfAbsent (wall w) key v (jr w))) w).
Proof.
  apply frame_set_jr. intros k Hk. rewrite mj_putIfAbsent_spec. case_match; [done|].
  unfold mj_get. cbn. by apply mget_mset_ne.
Qed.

(** ** The lease of a job *)

Definition lease_name (id : string) : string := "job:" +:+ id +:+ ":lease".
Definition lease_key (id : string) : string := lockKey (lease_name id).

(** No other worker holds the job. *)
Definition free (w : world) (id : string) : bool :=
  match jkey (lease_key id) w with Some c => negb (lock_live (clock w) c) | None => true end.

Definition holds (w : world) (l : run_lock) : Prop :=
  ∃ r : lock_record, jkey (lockKey (rl_runId l)) w = Some (inj r) ∧ lk_token r = rl_token l.

Lemma acquire_free name owner ttl token (w : world) :
  match jkey (lockKey name) w with Some c => negb (lock_live (clock w) c) | None => true end = true →
  ∃ w', run h (acquireRunLock full_caps name owner ttl token None) w = (Ok (Some (RunLock name owner token)), w') ∧
        frame (λ k, k = lockKey name) w w' ∧ trace w' = trace w ∧ holds w' (RunLock name owner token).
Proof.
  destruct w as [j t0 x0 tr wk]. intros Hfree. unfold acquireRunLock, jkey in *. simpl in *. rewrite mj_putIfAbsent_spec.
  destruct (mj_get (lockKey name) j) as [c|] eqn:Hc; simpl.
  - rewrite Hc. apply negb_true_iff in Hfree. rewrite Hfree. simpl.
    eexists. split; [by rewrite mj_putIfMatch_spec, bool_decide_eq_true_2 by done|].
    split_and!.
    + split; [done..|]. intros k Hk. unfold jkey. unfold mj_get. cbn. by rewrite mget_mset_ne.
    + done.
    + eexists. split; [apply mj_get_set|done].
  - eexists. split; [reflexivity|]. split_and!.
    + split; [done..|]. intros k Hk. unfold jkey. unfold mj_get. cbn. by rewrite mget_mset_ne.
    + done.
    + eexists. split; [apply mj_get_set|done].
Qed.

Lemma token_refl (r : lock_record) : lock_token_is (V := job_value) (lk_token r) (inj r) = true.
Proof. unfold lock_token_is. rewrite prj_inj. apply String.eqb_refl. Qed.

Lemma renew_held l ttl (w : world) :
  holds w l →
  ∃ w', run h (lock_renew full_caps l ttl) w = (Ok true, w') ∧
        frame (λ k, k = lockKey (rl_runId l)) w w' ∧ trace w' = trace w ∧ holds w' l.
Proof.
  intros (r & Hr & Ht). unfold lock_renew. unfold jkey in Hr. simpl. rewrite Hr, <- Ht, token_refl. simpl.
  rewrite mj_putIfMatch_spec, bool_decide_eq_true_2 by done. simpl.
  eexists. split; [reflexivity|]. split_and!.
  - apply frame_set_jr. intros k Hk. unfold mj_get. cbn. by rewrite mget_mset_ne.
  - done.
  - eexists. split; [apply mj_get_set|done].
Qed.

Lemma release_held l (w : world) :
  holds w l → (0 < clock w)%Z →
  ∃ w', run h (lock_release full_caps l) w = (Ok tt, w') ∧
        frame (λ k, k = lockKey (rl_runId l)) w w' ∧ trace w' = trace w ∧
        ∃ c, jkey (lockKey (rl_runId l)) w' = Some c ∧ lock_live (clock w) c = false.
Proof.
  intros (r & Hr & Ht) Hclk. unfold lock_release. unfold jkey in Hr. simpl. rewrite Hr, <- Ht, token_refl. simpl.
  rewrite mj_putIfMatch_spec, bool_decide_eq_true_2 by done. simpl.
  eexists. split; [reflexivity|]. split_and!.
  - apply frame_set_jr. intros k Hk. unfold mj_get. cbn. by rewrite mget_mset_ne.
  - done.
  - eexists. split; [apply mj_get_set|]. cbn. apply Z.leb_gt. lia.
Qed.

(** ** The handler *)

(** How the handler ends when the host answers its events, and the host requests it made. *)
Fixpoint ending (fuel : nat) (tr : list job_query) (q : job_query) (jobId : string)
    : option (outcome queue_error unit * list job_query) :=
  match fuel with
  | 0 => None
  | S fuel' =>
      match h tr q with
      | Err e => Some (Err e, q :: tr)
      | Ok HDone => Some (Ok tt, q :: tr)
      | Ok HTick => ending fuel' (q :: tr) (QWait jobId) jobId
      end
  end.

Lemma beat_held l (w : world) n :
  holds w l →
  ∃ w', run h (beat full_caps opts l (false, n)) w = (Ok (false, 0), w') ∧
        frame (λ k, k = lockKey (rl_runId l)) w w' ∧ trace w' = trace w ∧ holds w' l.
Proof.
  intros Hh. destruct (renew_held l (wo_ttlMs opts) w Hh) as (w' & Hr & Hf). exists w'. split; [|done].
  unfold beat. run_step. by rewrite run_catch, Hr.
Qed.

Lemma run_handler_alone fuel q jobId l n (w : world) r tr :
  holds w l → ending fuel (trace w) q jobId = Some (r, tr) →
  ∃ w', run h (run_handler full_caps opts fuel q jobId l (false, n)) w = (Ok (r, false), w') ∧
        frame (λ k, k = lockKey (rl_runId l)) w w' ∧ trace w' = tr ∧ holds w' l.
Proof.
  revert q n w. induction fuel as [|fuel IH]; intros q n w Hh He; [done|]. cbn [ending] in He.
  set (w1 := World (jr w) (clock w) (wall w) (q :: trace w) (work w) : world).
  assert (Hf1 : frame (λ k, k = lockKey (rl_runId l)) w w1) by done.
  assert (Hh1 : holds w1 l) by exact Hh.
  cbn [run_handler]. run_step. rewrite run_catch. change (run h (request (RExt q)) w) with (run (A := handler_event) h (request (RExt q)) w).
  rewrite (run_request h (RExt q) w). cbn [perform fst snd]. fold w1.
  destruct (h (trace w) q) as [[|]|e].
  - injection He as <- <-. by exists w1.
  - change (q :: trace w) with (trace w1) in He.
    assert (Hb : ∃ w2 m, run h (if wo_heartbeat opts then beat full_caps opts l (false, n) else mret (false, n)) w1 = (Ok (false, m), w2) ∧
               frame (λ k, k = lockKey (rl_runId l)) w1 w2 ∧ trace w2 = trace w1 ∧ holds w2 l).
    { destruct (wo_heartbeat opts); [destruct (beat_held l w1 n Hh1) as (w2 & ?); by exists w2, 0|by exists w1, n]. }
    destruct Hb as (w2 & m & Hb & Hf2 & Ht2 & Hh2). rewrite <- Ht2 in He.
    destruct (IH _ m w2 Hh2 He) as (w3 & Hr & Hf3 & Ht3 & Hh3). exists w3.
    run_step. rewrite Hb, Hr. split_and!; [done| |done..]. eauto using frame_trans.
  - injection He as <- <-. by exists w1.
Qed.

(** ** One job *)

Variable work_cas : bool.

(** The worker still owns the job, for the gate of its terminal writes. *)
Definition owned (id : string) (l : run_lock) (w : world) : Prop :=
  work_cas = true → ws_get (own_key id) (work w) = Some (VToken (rl_token l)).

Lemma set_work_id (w : world) : set_work (work w) w = w.
Proof. by destruct w. Qed.

Lemma ws_put_id (k : string) (v : job_value) s : ws_get k s = Some v → ws_put k v s = s.
Proof. intros Hk. unfold ws_put. rewrite mset_id by done. by destruct s. Qed.

Lemma stillOwns_alone id l (w : world) : owned id l w → run h (stillOwns work_cas id l false) w = (Ok true, w).
Proof.
  intros Ho. unfold stillOwns, owned in *. destruct work_cas; [|done]. cbn [negb].
  rewrite (run_request h (RWPutIfMatch _ _ _)). cbn [perform]. unfold ws_putIfMatch.
  unfold ws_get in Ho. rewrite Ho, bool_decide_eq_true_2 by done. cbn [fst snd].
  by rewrite ws_put_id, set_work_id by (by apply Ho).
Qed.

(** What a failed attempt leaves: one attempt more, and the dead letter at the limit. *)
Definition bump (id : string) (e : queue_error) (s : work_store job_value) : work_store job_value :=
  let n := (as_attempts (ws_get (att_key id) s) + 1)%Z in
  let s1 := ws_put (att_key id) (VAtt n) s in
  if (wo_maxAttempts opts <=? n)%Z then ws_put (fail_key id) (VFail (text e) (Some n)) s1 else s1.

Lemma on_error_alone id l e (w : world) :
  owned id l w → run h (on_error work_cas text opts id l false e) w = (Ok tt, set_work (bump id e (work w)) w).
Proof.
  intros Ho. unfold on_error, wget, wput, bump. run_step. rewrite stillOwns_alone by done.
  run_step. run_step. by destruct (Z.leb _ _).
Qed.

Lemma finish_alone id l (w : world) :
  owned id l w → run h (finish work_cas id l false) w = (Ok tt, set_work (ws_put (done_key id) (VDone (wall w) None) (work w)) w).
Proof. intros Ho. unfold finish, wput, dateNow. run_step. rewrite stillOwns_alone by done. by run_step. Qed.

Definition is_input (k : string) : Prop := ∃ r, k = rk_input r.

Lemma claimRunOwner_frame r c f (w : world) :
  ∃ o w', run h (claimRunOwner full_caps QIdentity r c f) w = (o, w') ∧ frame is_input w w' ∧ trace w' = trace w.
Proof.
  unfold claimRunOwner, claim. cbn [has_putIfAbsent full_caps]. run_step.
  unfold jputIfAbsent. rewrite (run_request h (RPutIfAbsent _ _)). cbn [perform].
  set (w1 := set_jr _ w). unfold read_owner. run_step. unfold jget. run_step. cbn [run mret prog_ret].
  assert (Hf : frame is_input w w1).
  { eapply frame_mono; [|apply frame_putIfAbsent]. intros k ->. by exists r. }
  destruct (recordOwner _); [by eexists _, w1|]. unfold lift. destruct (callerOf c); by eexists _, w1.
Qed.

Lemma before_handler_frame rec runId (w : world) :
  ∃ o w', run h (before_handler full_caps rec runId) w = (o, w') ∧ frame is_input w w' ∧ trace w' = trace w.
Proof.
  unfold before_handler, scoped_run. run_step.
  destruct (run h (match jb_orgId rec with Some _ => _ | None => _ end) w) as [[scoped|e] w0] eqn:Hs.
  all: assert (w0 = w) as -> by (destruct (jb_orgId rec) as [g|]; [destruct (orgPrefix g)|]; by injection Hs as _ <-).
  2:{ eexists _, w. split; [done|]. split; [apply frame_refl|done]. }
  run_step. destruct (callerOfJob rec) as [c|e]; cbn [lift_err run mret prog_ret].
  2:{ eexists _, w. split; [done|]. split; [apply frame_refl|done]. }
  run_step. destruct (claimRunOwner_frame scoped c no_fields w) as (o & w' & -> & Hf & Ht).
  destruct o; eexists _, w'; done.
Qed.

Variable hfuel : nat.

(** How an attempt of a job changes the work store. *)
Inductive settled (job : log_record job_value) (now : Z) (s s' : work_store job_value) : Prop :=
| settled_missing :
    jb_type (job_of job) ∉ wo_handlers opts →
    s' = ws_put (fail_key (lr_id job)) (VFail ("no handler: " +:+ jb_type (job_of job)) None) s →
    settled job now s s'
| settled_done c tr tr' :
    jb_type (job_of job) ∈ wo_handlers opts →
    ending hfuel tr (QStart (lr_id job) ("job:" +:+ lr_id job) c (job_of job)) (lr_id job) = Some (Ok tt, tr') →
    s' = ws_put (done_key (lr_id job)) (VDone now None) s →
    settled job now s s'
| settled_failed e c tr tr' :
    jb_type (job_of job) ∈ wo_handlers opts →
    ending hfuel tr (QStart (lr_id job) ("job:" +:+ lr_id job) c (job_of job)) (lr_id job) = Some (Err e, tr') →
    s' = bump (lr_id job) e s →
    settled job now s s'
| settled_refused e w :
    jb_type (job_of job) ∈ wo_handlers opts →
    fst (run h (before_handler full_caps (job_of job) ("job:" +:+ lr_id job)) w) = Err e →
    s' = bump (lr_id job) e s →
    settled job now s s'.

(** Every handler comes to an end within the fuel, whatever was asked of the host before. *)
Definition handlers_end : Prop := ∀ tr q id, is_Some (ending hfuel tr q id).

Definition touched (id : string) (k : string) : Prop := k = lease_key id ∨ is_input k.

(** The worker's part of the world, and the work store. *)
Record moved (id : string) (w w' : world) : Prop := Moved {
  mv_clock : clock w' = clock w;
  mv_wall : wall w' = wall w;
  mv_keys : ∀ k, ¬ touched id k → jkey k w' = jkey k w;
}.

Lemma moved_frame id (K : string → Prop) w w' : (∀ k, K k → touched id k) → frame K w w' → moved id w w'.
Proof. intros HK [Hc Hl _ Hk]. split; [done..|]. intros k Hn. apply Hk. eauto. Qed.

Lemma moved_trans id w1 w2 w3 : moved id w1 w2 → moved id w2 w3 → moved id w1 w3.
Proof. intros [Hc1 Hl1 Hk1] [Hc2 Hl2 Hk2]. split; [congruence..|]. intros k Hk. by rewrite Hk2, Hk1. Qed.

Lemma moved_set_work id s (w : world) : moved id w (set_work s w).
Proof. by split. Qed.

Lemma moved_refl id (w : world) : moved id w w.
Proof. by split. Qed.

Lemma lease_not_input id : ¬ is_input (lease_key id).
Proof.
  intros [r Hr]. unfold lease_key, lockKey, rk_input in Hr.
  assert (He : ends_with ":input" (lease_name id +:+ ":lock") = true) by (apply ends_with_spec; by exists r).
  apply ends_with_spec in He as [p Hp].
  change (":lock") with (":loc" +:+ "k") in Hp. change (":input") with (":inpu" +:+ "t") in Hp.
  rewrite <- !str_app_assoc in Hp. apply str_app_char_inj in Hp as [_ Hp]. done.
Qed.

Lemma holds_input w w' id owner token :
  frame is_input w w' → holds w (RunLock (lease_name id) owner token) → holds w' (RunLock (lease_name id) owner token).
Proof.
  intros Hf (r & Hr & Ht). exists r. split; [|done]. cbn [rl_runId] in *.
  rewrite (fr_keys _ _ _ Hf); [done|apply lease_not_input].
Qed.

Lemma attempt_alone job owner token (w : world) :
  handlers_end →
  let l := RunLock (lease_name (lr_id job)) owner token in
  holds w l → owned (lr_id job) l w →
  ∃ w', run h (attempt full_caps work_cas text opts hfuel (lr_id job) ("job:" +:+ lr_id job) (job_of job) l) w = (Ok tt, w') ∧
        moved (lr_id job) w w' ∧ holds w' l ∧ settled job (wall w) (work w) (work w').
Proof.
  intros Hend l Hh Ho. unfold attempt.
  destruct (bool_decide_reflect (jb_type (job_of job) ∈ wo_handlers opts)) as [Hin|Hni]; cbn [negb].
  2:{ run_step. rewrite run_catch. unfold wput. rewrite run_bind, stillOwns_alone by done. cbn [fst snd].
      rewrite run_wput. eexists. split; [reflexivity|]. split_and!; [apply moved_set_work|exact Hh|by eapply settled_missing]. }
  run_step. rewrite run_catch. destruct (before_handler_frame (job_of job) ("job:" +:+ lr_id job) w) as (o & w1 & Hb & Hf1 & Ht1).
  rewrite Hb. cbn [fst snd]. pose proof (holds_input _ _ _ _ _ Hf1 Hh) as Hh1. fold l in Hh1.
  assert (Ho1 : owned (lr_id job) l w1) by (unfold owned; by rewrite (fr_work _ _ _ Hf1)).
  assert (Hm1 : moved (lr_id job) w w1) by (eapply moved_frame; [|exact Hf1]; intros k Hk; by right).
  destruct o as [c|e].
  2:{ rewrite on_error_alone by done. eexists. split; [reflexivity|]. rewrite (fr_work _ _ _ Hf1).
      split_and!; [by eapply moved_trans, moved_set_work|exact Hh1|]. eapply (settled_refused _ _ _ _ e w); [done|by rewrite Hb|done]. }
  destruct (Hend (trace w1) (QStart (lr_id job) ("job:" +:+ lr_id job) c (job_of job)) (lr_id job)) as [[r tr] He].
  destruct (run_handler_alone hfuel _ (lr_id job) l 0 w1 r tr Hh1 He) as (w2 & Hr & Hf2 & Ht2 & Hh2).
  assert (Hm2 : moved (lr_id job) w w2).
  { eapply moved_trans; [exact Hm1|]. eapply moved_frame; [|exact Hf2]. intros k ->. by left. }
  assert (Hw2 : work w2 = work w) by (rewrite (fr_work _ _ _ Hf2); apply (fr_work _ _ _ Hf1)).
  assert (Ho2 : owned (lr_id job) l w2) by (unfold owned; by rewrite Hw2).
  run_step. rewrite Hr. destruct r as [[]|e].
  - run_step. rewrite run_catch, finish_alone by done. cbn [fst snd]. eexists. split; [reflexivity|].
    split_and!; [by eapply moved_trans, moved_set_work|exact Hh2|].
    eapply settled_done; [done..|]. cbn [work set_work]. by rewrite Hw2, (mv_wall _ _ _ Hm2).
  - rewrite on_error_alone by done. eexists. split; [reflexivity|].
    split_and!; [by eapply moved_trans, moved_set_work|exact Hh2|].
    eapply settled_failed; [done..|]. cbn [work set_work]. by rewrite Hw2.
Qed.

(** ** One turn *)

Definition claimed (id token : string) (s : work_store job_value) : work_store job_value :=
  if work_cas then ws_put (own_key id) (VToken token) s else s.

(** The turn of one job: it was attempted, and nobody holds it afterwards. *)
Record turn (job : log_record job_value) (w w' : world) : Prop := Turn {
  tn_moved : moved (lr_id job) w w';
  tn_free : free w' (lr_id job) = true;
  tn_settled : ∃ token, settled job (wall w) (claimed (lr_id job) token (work w)) (work w');
}.

Lemma process_alone job owner token (w : world) :
  handlers_end → (0 < clock w)%Z → holds w (RunLock (lease_name (lr_id job)) owner token) →
  ∃ w', run h (process full_caps work_cas text opts hfuel job (RunLock (lease_name (lr_id job)) owner token)) w = (Ok tt, w') ∧ turn job w w'.
Proof.
  intros Hend Hclk Hh. set (l := RunLock _ owner token) in *. unfold process. run_step.
  assert (Hc : run h (if work_cas then wput (own_key (lr_id job)) (VToken (rl_token l)) else mret tt) w
               = (Ok tt, set_work (claimed (lr_id job) token (work w)) w)).
  { unfold claimed, wput. destruct work_cas; [apply run_wput|]. by rewrite set_work_id. }
  rewrite Hc. set (w1 := set_work _ w).
  assert (Ho : owned (lr_id job) l w1).
  { intros Hcas. unfold w1, claimed. cbn [work set_work]. rewrite Hcas. apply ws_get_put. }
  destruct (attempt_alone job owner token w1 Hend Hh Ho) as (w2 & Ha & Hm & Hh2 & Hs). fold l in Ha, Hh2.
  rewrite run_finally, Ha. destruct (release_held l w2 Hh2) as (w3 & Hr & Hf & _ & c & Hk & Hl).
  { by rewrite (mv_clock _ _ _ Hm). }
  rewrite Hr. exists w3. split; [done|]. split.
  - eapply moved_trans; [by eapply moved_trans; [apply moved_set_work|exact Hm]|].
    eapply moved_frame; [|exact Hf]. intros k ->. by left.
  - unfold free, lease_key. change (lockKey (lease_name (lr_id job))) with (lockKey (rl_runId l)).
    by rewrite Hk, (fr_clock _ _ _ Hf), Hl.
  - exists token. by rewrite (fr_work _ _ _ Hf).
Qed.

(** A job is terminal once it is done or a dead letter. *)
Definition terminal (s : work_store job_value) (id : string) : bool :=
  marked (ws_get (done_key id) s) || marked (ws_get (fail_key id) s).

Definition pending (s : work_store job_value) (r : log_record job_value) : bool := negb (terminal s (lr_id r)).

Lemma turn_locked job w w1 w' : frame (λ k, k = lease_key (lr_id job)) w w1 → turn job w1 w' → turn job w w'.
Proof.
  intros Hf [Hm Hfr [token Hs]]. split; [|done|].
  - eapply moved_trans; [|exact Hm]. eapply moved_frame; [|exact Hf]. intros k ->. by left.
  - exists token. by rewrite <- (fr_wall _ _ _ Hf), <- (fr_work _ _ _ Hf).
Qed.

Lemma scan_items_alone token items (w : world) (b : bool) :
  handlers_end → (0 < clock w)%Z → (∀ r, r ∈ items → free w (lr_id r) = true) →
  match List.find (pending (work w)) items with
  | None => run h (scan_items full_caps work_cas text opts hfuel token items b) w = (Ok (inr b), w)
  | Some job => ∃ w', run h (scan_items full_caps work_cas text opts hfuel token items b) w = (Ok (inl tt), w') ∧ turn job w w'
  end.
Proof.
  intros Hend Hclk. induction items as [|job items IH]; intros Hfree; [done|].
  assert (IH' := IH (λ r Hr, Hfree r (list_elem_of_further r job items Hr))). clear IH.
  cbn [scan_items List.find]. unfold pending at 1, terminal, wget. run_step.
  destruct (marked (ws_get (done_key (lr_id job)) (work w))); [exact IH'|].
  run_step. destruct (marked (ws_get (fail_key (lr_id job)) (work w))); [exact IH'|]. cbn [orb negb].
  run_step. destruct (acquire_free (lease_name (lr_id job)) (wo_owner opts) (wo_ttlMs opts) token w) as (w1 & Ha & Hf & _ & Hh).
  { apply Hfree. by left. }
  unfold lease_name in Ha at 1. rewrite Ha.
  destruct (process_alone job (wo_owner opts) token w1 Hend) as (w2 & Hp & Ht); [by rewrite (fr_clock _ _ _ Hf)|done|].
  run_step. fold (lease_name (lr_id job)). rewrite Hp. exists w2. split; [done|]. by eapply turn_locked.
Qed.

Definition qlog (s : work_store job_value) : list (log_record job_value) := ws_log "qjob" s.

Definition prefix_done (n : nat) (s : work_store job_value) : Prop := Forall (λ r, pending s r = false) (take n (qlog s)).

Definition cursor_of (s : work_store job_value) : option string := as_cursor (ws_get QCURSOR s).

(** The cursor passes terminal jobs only. *)
Definition cursor_ok (s : work_store job_value) : Prop := prefix_done (cursor_offset (cursor_of s)) s.

(** Nothing but the cursor differs. *)
Record only_cursor (w w' : world) : Prop := OnlyCursor {
  oc_world : w' = set_work (work w') w;
  oc_logs : ws_logs (work w') = ws_logs (work w);
  oc_keys : ∀ k, k ≠ QCURSOR → ws_get k (work w') = ws_get k (work w);
}.

Lemma only_cursor_refl w : only_cursor w w.
Proof. split; [by rewrite set_work_id|done..]. Qed.

Lemma only_cursor_put c w w' : only_cursor w w' → only_cursor w (set_work (ws_put QCURSOR c (work w')) w').
Proof.
  intros [Hw Hl Hk]. split; [by rewrite Hw|done|]. intros k Hne. cbn [work set_work]. rewrite ws_get_put_ne by done. auto.
Qed.

Lemma pending_only_cursor w w' r : only_cursor w w' → pending (work w') r = pending (work w) r.
Proof. intros [_ _ Hk]. unfold pending, terminal. by rewrite !Hk. Qed.

Lemma prefix_done_only_cursor n w w' : only_cursor w w' → prefix_done n (work w) → prefix_done n (work w').
Proof.
  intros Hoc. unfold prefix_done, qlog, ws_log. rewrite (oc_logs _ _ Hoc). intros Hd. apply (Forall_impl _ _ _ Hd).
  intros r. by rewrite (pending_only_cursor w w').
Qed.

Lemma find_none_pending s l : List.find (pending s) l = None → Forall (λ r, pending s r = false) l.
Proof. induction l as [|r l IH]; simpl; [by constructor|]. destruct (pending s r) eqn:Hp; [done|]. constructor; auto. Qed.

Lemma find_app_l {A} (f : A → bool) l k x : List.find f l = Some x → List.find f (l ++ k) = Some x.
Proof. induction l as [|y l IH]; simpl; [done|]. by destruct (f y). Qed.

Lemma find_app_r {A} (f : A → bool) l k : Forall (λ x, f x = false) l → List.find f (l ++ k) = List.find f k.
Proof. induction 1 as [|y l Hy _ IH]; simpl; [done|]. by rewrite Hy. Qed.

Lemma find_ext {A} (f g : A → bool) l : (∀ x, f x = g x) → List.find f l = List.find g l.
Proof. intros Hfg. induction l as [|x l IH]; [done|]. simpl. by rewrite Hfg, IH. Qed.

(** What a scan of the pages comes to, from a position before which every job is terminal. *)
Definition scan_outcome (w : world) (out : outcome queue_error bool * world) : Prop :=
  match List.find (pending (work w)) (qlog (work w)) with
  | None => ∃ w1, out = (Ok false, w1) ∧ only_cursor w w1 ∧ cursor_ok (work w1)
  | Some job => ∃ w1 w', out = (Ok true, w') ∧ only_cursor w w1 ∧ cursor_ok (work w1) ∧ turn job w1 w'
  end.

Definition quiet (w : world) : Prop := ∀ r, r ∈ qlog (work w) → free w (lr_id r) = true.

Lemma scan_pages_alone fuel token c (w w0 : world) :
  handlers_end → (0 < clock w0)%Z → quiet w0 → only_cursor w0 w → cursor_ok (work w) →
  prefix_done (cursor_offset c) (work w) → length (rest_log "qjob" c (work w)) < fuel →
  scan_outcome w0 (run h (scan_pages full_caps work_cas text opts fuel hfuel token c) w).
Proof.
  intros Hend Hclk Hq. revert c w. induction fuel as [|fuel IH]; intros c w Hoc Hcur Hpre Hf; [lia|].
  assert (Hlog : qlog (work w) = qlog (work w0)) by (unfold qlog, ws_log; by rewrite (oc_logs _ _ Hoc)).
  assert (Hsplit : qlog (work w) = take (cursor_offset c) (qlog (work w)) ++ rest_log "qjob" c (work w)) by (symmetry; apply take_drop).
  cbn [scan_pages]. run_step. pose proof (ws_list_spec "qjob" c (work w)) as Hp.
  destruct (ws_list "qjob" c (work w)) as [items nx]. destruct Hp as [-> Hnx].
  set (page := take PAGE_LIMIT (rest_log "qjob" c (work w))) in *.
  assert (Hin : ∀ r, r ∈ page → r ∈ qlog (work w)).
  { intros r Hr. rewrite Hsplit. apply elem_of_app. right. unfold page in Hr. by apply subseteq_take in Hr. }
  pose proof (scan_items_alone token page w true Hend) as Hscan.
  assert (Hclk' : (0 < clock w)%Z) by (by rewrite (oc_world _ _ Hoc)). specialize (Hscan Hclk').
  assert (Hfree : ∀ r, r ∈ page → free w (lr_id r) = true).
  { intros r Hr%Hin. rewrite Hlog in Hr. specialize (Hq r Hr). unfold free in *. by rewrite (oc_world _ _ Hoc). }
  specialize (Hscan Hfree). unfold scan_outcome. run_step.
  assert (Hfind : List.find (pending (work w0)) (qlog (work w0)) = List.find (pending (work w)) (rest_log "qjob" c (work w))).
  { rewrite <- Hlog, Hsplit. rewrite <- (find_app_r (pending (work w)) _ (rest_log "qjob" c (work w)) Hpre).
    apply find_ext. intros r. symmetry. by apply pending_only_cursor. }
  rewrite Hfind. rewrite <- (take_drop PAGE_LIMIT (rest_log "qjob" c (work w))). fold page.
  destruct (List.find (pending (work w)) page) as [job|] eqn:Hpage.
  { rewrite (find_app_l _ _ _ _ Hpage). destruct Hscan as (w' & -> & Ht). by exists w, w'. }
  rewrite find_app_r by (by apply find_none_pending). rewrite Hscan.
  destruct (truthy nx) as [c'|].
  - destruct Hnx as (Hoff & Hrest & Hlen). unfold wput. run_step.
    pose proof (rest_log_shrinks _ c c' _ Hrest Hlen) as Hshr.
    set (w1 := set_work (ws_put QCURSOR (VCursor c') (work w)) w).
    assert (Hpre' : prefix_done (cursor_offset (Some c')) (work w)).
    { unfold prefix_done in *. rewrite Hoff, <- take_take_drop. apply Forall_app. split; [done|by apply find_none_pending]. }
    assert (Hoc1 : only_cursor w w1) by (apply only_cursor_put, only_cursor_refl).
    assert (Hout : scan_outcome w0 (run h (scan_pages full_caps work_cas text opts fuel hfuel token (Some c')) w1)).
    { apply IH; [by apply only_cursor_put| |by eapply prefix_done_only_cursor|].
      - unfold cursor_ok, cursor_of, w1. cbn [work set_work]. rewrite ws_get_put. cbn [as_cursor].
        by apply (prefix_done_only_cursor _ w w1).
      - change (rest_log "qjob" (Some c') (work w1)) with (rest_log "qjob" (Some c') (work w)). lia. }
    unfold scan_outcome in Hout. by rewrite Hfind, <- (take_drop PAGE_LIMIT (rest_log "qjob" c (work w))), find_app_r in Hout by (by apply find_none_pending).
  - rewrite drop_ge by (rewrite <- Hnx; done). by exists w.
Qed.

(** ** Draining *)

(** The attempts a job has left. *)
Definition left_of (s : work_store job_value) (id : string) : nat :=
  if terminal s id then 0 else Nat.max 1 (Z.to_nat (wo_maxAttempts opts - as_attempts (ws_get (att_key id) s))).

Definition total_left (s : work_store job_value) : nat := sum_list (map (λ r, left_of s (lr_id r)) (qlog s)).

(** The keys an attempt of a job may write. *)
Definition job_keys (id : string) : list string := [done_key id; fail_key id; att_key id; own_key id].

Lemma bump_keeps id e s k : k ∉ job_keys id → ws_get k (bump id e s) = ws_get k s.
Proof.
  unfold job_keys, bump. rewrite !not_elem_of_cons. intros (_ & Hf & Ha & _).
  destruct (Z.leb _ _); by rewrite ?(ws_get_put_ne _ (fail_key id)), ws_get_put_ne.
Qed.

Lemma settled_keeps job now s s' k : settled job now s s' → k ∉ job_keys (lr_id job) → ws_get k s' = ws_get k s.
Proof.
  intros Hs Hk. destruct Hs as [_ ->|c tr tr' _ _ ->|e c tr tr' _ _ ->|e w _ _ ->]; [..|by apply bump_keeps|by apply bump_keeps].
  all: unfold job_keys in Hk; rewrite !not_elem_of_cons in Hk; apply ws_get_put_ne; tauto.
Qed.

Lemma settled_logs job now s s' : settled job now s s' → ws_logs s' = ws_logs s.
Proof. intros [_ ->|c tr tr' _ _ ->|e c tr tr' _ _ ->|e w _ _ ->]; try done; unfold bump; by destruct (Z.leb _ _). Qed.

Lemma bump_left id e s : terminal s id = false → (0 ≤ as_attempts (ws_get (att_key id) s))%Z → left_of (bump id e s) id < left_of s id.
Proof.
  intros Ht Ha. unfold left_of. rewrite Ht. unfold bump.
  set (a := as_attempts (ws_get (att_key id) s)) in *. destruct (Z.leb_spec (wo_maxAttempts opts) (a + 1)) as [Hle|Hgt].
  - unfold terminal. rewrite ws_get_put, orb_true_r. lia.
  - assert (Hte : terminal (ws_put (att_key id) (VAtt (a + 1)) s) id = false).
    { unfold terminal in *. by rewrite !ws_get_put_ne. }
    rewrite Hte, ws_get_put. cbn [as_attempts]. lia.
Qed.

Lemma settled_left job now s s' :
  settled job now s s' → terminal s (lr_id job) = false → (0 ≤ as_attempts (ws_get (att_key (lr_id job)) s))%Z →
  left_of s' (lr_id job) < left_of s (lr_id job).
Proof.
  intros Hs Ht Ha. destruct Hs as [_ ->|c tr tr' _ _ ->|e c tr tr' _ _ ->|e w _ _ ->]; [..|by apply bump_left|by apply bump_left].
  all: unfold left_of at 2; rewrite Ht; unfold left_of, terminal; rewrite ws_get_put, ?orb_true_r; cbn; lia.
Qed.

Definition attempts_ok (s : work_store job_value) : Prop := ∀ id, (0 ≤ as_attempts (ws_get (att_key id) s))%Z.

Lemma settled_attempts job now s s' : settled job now s s' → attempts_ok s → attempts_ok s'.
Proof.
  intros Hs Ha id. destruct (decide (id = lr_id job)) as [->|Hne].
  - specialize (Ha (lr_id job)). destruct Hs as [_ ->|c tr tr' _ _ ->|e c tr tr' _ _ ->|e w _ _ ->].
    1-2: by rewrite ws_get_put_ne.
    all: unfold bump; destruct (Z.leb _ _); rewrite ?(ws_get_put_ne _ (fail_key _)), ws_get_put by done; cbn [as_attempts]; lia.
  - rewrite (settled_keeps _ _ _ _ _ Hs); [done|]. unfold job_keys, done_key, fail_key, att_key, own_key.
    rewrite !not_elem_of_cons. split_and!; [done..| |done|by apply not_elem_of_nil]. by intros ->%str_app_inj_l.
Qed.

Lemma sum_list_lt {A} (f g : A → nat) l :
  (∀ x, x ∈ l → f x ≤ g x) → (∃ x, x ∈ l ∧ f x < g x) → sum_list (map f l) < sum_list (map g l).
Proof.
  induction l as [|y l IH]; intros Hle (x & Hx & Hlt); [by apply elem_of_nil in Hx|].
  assert (Hy : f y ≤ g y) by (apply Hle; by left).
  assert (Hl : ∀ x, x ∈ l → f x ≤ g x) by (intros z Hz; apply Hle; by right).
  assert (Hsum : sum_list (map f l) ≤ sum_list (map g l)).
  { clear -Hl. induction l as [|z l IHl]; [done|]. simpl.
    assert (f z ≤ g z) by (apply Hl; by left). assert (∀ x, x ∈ l → f x ≤ g x) by (intros u Hu; apply Hl; by right). specialize (IHl ltac:(done)). lia. }
  simpl. apply elem_of_cons in Hx as [->|Hx]; [lia|]. specialize (IH Hl (ex_intro _ x (conj Hx Hlt))). lia.
Qed.

(** The markers of one job are not another's. *)
Lemma foreign_key id id' k : id ≠ id' → k ∈ job_keys id → k ∉ job_keys id'.
Proof.
  intros Hne. unfold job_keys, done_key, fail_key, att_key, own_key. rewrite !elem_of_cons, elem_of_nil.
  intros [->|[->|[->|[->|[]]]]]; intros [Hk|[Hk|[Hk|[Hk|[]]]]]; first [discriminate|by apply str_app_inj_l in Hk].
Qed.

Lemma claimed_get id token s k : k ≠ own_key id → ws_get k (claimed id token s) = ws_get k s.
Proof. intros Hk. unfold claimed. destruct work_cas; [by apply ws_get_put_ne|done]. Qed.

Lemma claimed_logs id token s : ws_logs (claimed id token s) = ws_logs s.
Proof. unfold claimed. by destruct work_cas. Qed.

Lemma turn_keeps job w w' k : turn job w w' → k ∉ job_keys (lr_id job) → ws_get k (work w') = ws_get k (work w).
Proof.
  intros [_ _ [token Hs]] Hk. rewrite (settled_keeps _ _ _ _ _ Hs Hk), claimed_get; [done|].
  unfold job_keys in Hk. rewrite !not_elem_of_cons in Hk. tauto.
Qed.

Lemma turn_logs job w w' : turn job w w' → ws_logs (work w') = ws_logs (work w).
Proof. intros [_ _ [token Hs]]. by rewrite (settled_logs _ _ _ _ Hs), claimed_logs. Qed.

Lemma left_of_ext s s' id : (∀ k, k ∈ job_keys id → k ≠ own_key id → ws_get k s' = ws_get k s) → left_of s' id = left_of s id.
Proof.
  intros Hk. unfold left_of, terminal. rewrite !Hk; [done|..]; unfold job_keys; try discriminate;
    repeat first [by left|right].
Qed.

Lemma turn_left job w w' id :
  turn job w w' → attempts_ok (work w) → terminal (work w) (lr_id job) = false →
  left_of (work w') id ≤ left_of (work w) id ∧ (id = lr_id job → left_of (work w') id < left_of (work w) id).
Proof.
  intros Ht Ha Hp. destruct (decide (id = lr_id job)) as [->|Hne].
  - assert (left_of (work w') (lr_id job) < left_of (work w) (lr_id job)); [|lia].
    destruct Ht as [_ _ [token Hs]]. rewrite <- (left_of_ext (work w) (claimed (lr_id job) token (work w))).
    2:{ intros k _ Hk. by apply claimed_get. }
    eapply settled_left; [exact Hs| |].
    + unfold terminal in *. by rewrite !claimed_get.
    + by rewrite claimed_get.
  - split; [|done]. erewrite (left_of_ext (work w) (work w')); [done|].
    intros k Hk _. eapply turn_keeps; [exact Ht|]. by eapply foreign_key.
Qed.

Lemma turn_attempts job w w' : turn job w w' → attempts_ok (work w) → attempts_ok (work w').
Proof.
  intros [_ _ [token Hs]] Ha. eapply settled_attempts; [exact Hs|]. intros id. by rewrite claimed_get.
Qed.

Lemma terminal_left s id : terminal s id = true ↔ left_of s id = 0.
Proof. unfold left_of. destruct (terminal s id); split; try done. lia. Qed.

Lemma lease_key_inj id id' : lease_key id = lease_key id' → id = id'.
Proof.
  unfold lease_key, lockKey, lease_name. intros H%str_app_inj_r.
  apply str_app_inj_l in H. by apply str_app_inj_r in H.
Qed.

(** The queue a worker starts on: no live lease, and a cursor and counts that earlier turns left. *)
Record ready (w : world) : Prop := Ready {
  rd_clock : (0 < clock w)%Z;
  rd_quiet : quiet w;
  rd_cursor : cursor_ok (work w);
  rd_attempts : attempts_ok (work w);
}.

Lemma ready_only_cursor w w1 : ready w → only_cursor w w1 → cursor_ok (work w1) → ready w1.
Proof.
  intros [Hc Hq _ Ha] Hoc Hcur. assert (Hlog : qlog (work w1) = qlog (work w)) by (unfold qlog, ws_log; by rewrite (oc_logs _ _ Hoc)).
  split; [by rewrite (oc_world _ _ Hoc)| |done|].
  - intros r. rewrite Hlog. intros Hr%Hq. unfold free in *. by rewrite (oc_world _ _ Hoc).
  - intros id. by rewrite (oc_keys _ _ Hoc).
Qed.

Lemma turn_ready job w w' : ready w → turn job w w' → terminal (work w) (lr_id job) = false → ready w'.
Proof.
  intros [Hc Hq Hcur Ha] Ht Hp. pose proof (turn_logs _ _ _ Ht) as Hlogs.
  assert (Hlog : qlog (work w') = qlog (work w)) by (unfold qlog, ws_log; by rewrite Hlogs).
  pose proof (tn_moved _ _ _ Ht) as Hm. split.
  - by rewrite (mv_clock _ _ _ Hm).
  - intros r. rewrite Hlog. intros Hr%Hq. destruct (decide (lr_id r = lr_id job)) as [->|Hne]; [by apply Ht|].
    unfold free in *. rewrite (mv_clock _ _ _ Hm), (mv_keys _ _ _ Hm); [done|].
    intros [H|H]; [by apply lease_key_inj in H|by apply lease_not_input in H].
  - unfold cursor_ok, cursor_of in *. rewrite (turn_keeps _ _ _ _ Ht) by (unfold job_keys; rewrite !elem_of_cons, elem_of_nil; intros [H|[H|[H|[H|[]]]]]; done).
    unfold prefix_done in *. rewrite Hlog. apply (Forall_impl _ _ _ Hcur). intros r. unfold pending. rewrite !negb_false_iff, !terminal_left.
    intros Hz. pose proof (turn_left _ _ _ (lr_id r) Ht Ha Hp). lia.
  - by eapply turn_attempts.
Qed.

Lemma find_pending s l job : List.find (pending s) l = Some job → job ∈ l ∧ terminal s (lr_id job) = false.
Proof. intros [Hin Hp]%find_some. split; [by apply list_elem_of_In|]. by apply negb_true_iff. Qed.

(** One turn brings the queue forward, or finds it finished. *)
Lemma scan_progress w b w' :
  ready w → scan_outcome w (Ok b, w') →
  ready w' ∧ qlog (work w') = qlog (work w) ∧
  if b then total_left (work w') < total_left (work w) else Forall (λ r, terminal (work w') (lr_id r) = true) (qlog (work w')).
Proof.
  intros Hrd. unfold scan_outcome. destruct (List.find _ _) as [job|] eqn:Hf.
  - intros (w1 & w2 & [= -> <-] & Hoc & Hcur & Ht). apply find_pending in Hf as [Hin Hp].
    pose proof (ready_only_cursor _ _ Hrd Hoc Hcur) as Hrd1.
    assert (Hlog1 : qlog (work w1) = qlog (work w)) by (unfold qlog, ws_log; by rewrite (oc_logs _ _ Hoc)).
    assert (Hlog : qlog (work w') = qlog (work w)) by (rewrite <- Hlog1; unfold qlog, ws_log; by rewrite (turn_logs _ _ _ Ht)).
    assert (Hp1 : terminal (work w1) (lr_id job) = false) by (unfold terminal in *; by rewrite !(oc_keys _ _ Hoc)).
    split; [by eapply turn_ready|]. split; [done|]. unfold total_left. rewrite Hlog.
    assert (Hleft : ∀ id, left_of (work w1) id = left_of (work w) id).
    { intros id. apply left_of_ext. intros k Hk _. apply (oc_keys _ _ Hoc). intros ->.
      unfold job_keys in Hk. rewrite !elem_of_cons, elem_of_nil in Hk. by destruct Hk as [H|[H|[H|[H|[]]]]]. }
    apply sum_list_lt.
    + intros r _. rewrite <- Hleft. by apply (turn_left _ _ _ (lr_id r) Ht (rd_attempts _ Hrd1) Hp1).
    + exists job. split; [done|]. rewrite <- Hleft. by apply (turn_left _ _ _ (lr_id job) Ht (rd_attempts _ Hrd1) Hp1).
  - intros (w1 & [= -> <-] & Hoc & Hcur).
    assert (Hlog1 : qlog (work w') = qlog (work w)) by (unfold qlog, ws_log; by rewrite (oc_logs _ _ Hoc)).
    split; [by eapply ready_only_cursor|]. split; [done|]. rewrite Hlog1. apply find_none_pending in Hf.
    apply (Forall_impl _ _ _ Hf). intros r. unfold pending. rewrite negb_false_iff. unfold terminal. by rewrite !(oc_keys _ _ Hoc).
Qed.

Lemma runOnce_alone fuel token (w : world) :
  handlers_end → ready w → length (qlog (work w)) < fuel →
  scan_outcome w (run h (runOnce full_caps work_cas text opts fuel hfuel token) w).
Proof.
  intros Hend [Hclk Hq Hcur _] Hf. unfold runOnce, wget. run_step.
  apply scan_pages_alone; [done..|apply only_cursor_refl|done|exact Hcur|].
  unfold rest_log. rewrite length_drop. unfold qlog in Hf. lia.
Qed.

(** One turn takes the first unfinished job and settles it as its handler ended. *)
Theorem runOnce_exact fuel token (w : world) :
  handlers_end → ready w → length (qlog (work w)) < fuel →
  scan_outcome w (run h (runOnce full_caps work_cas text opts fuel hfuel token) w) ∧
  ∀ b w', run h (runOnce full_caps work_cas text opts fuel hfuel token) w = (Ok b, w') → ready w' ∧ qlog (work w') = qlog (work w).
Proof.
  intros Hend Hrd Hf. pose proof (runOnce_alone fuel token w Hend Hrd Hf) as Hout. split; [done|].
  intros b w' Hr. rewrite Hr in Hout. destruct (scan_progress _ _ _ Hrd Hout) as (? & ? & _). done.
Qed.

Lemma drain_turns_alone turns fuel token n (w : world) :
  handlers_end → ready w → length (qlog (work w)) < fuel → total_left (work w) < turns →
  ∃ m w', run h (drain_turns full_caps work_cas text opts turns fuel hfuel token n) w = (Ok (n + m), w') ∧
    m ≤ total_left (work w) ∧ ready w' ∧ qlog (work w') = qlog (work w) ∧
    Forall (λ r, terminal (work w') (lr_id r) = true) (qlog (work w')).
Proof.
  intros Hend. revert n w. induction turns as [|turns IH]; intros n w Hrd Hf Ht; [lia|].
  cbn [drain_turns]. run_step. pose proof (runOnce_alone fuel (token (S turns)) w Hend Hrd Hf) as Hout.
  assert (Hok : ∃ b w', run h (runOnce full_caps work_cas text opts fuel hfuel (token (S turns))) w = (Ok b, w')).
  { unfold scan_outcome in Hout. destruct (List.find _ _); [destruct Hout as (? & w' & -> & _)|destruct Hout as (w' & -> & _)]; by eexists _, w'. }
  destruct Hok as (b & w' & Hr). rewrite Hr in Hout |- *. destruct (scan_progress _ _ _ Hrd Hout) as (Hrd' & Hlog & Hb).
  destruct b.
  - destruct (IH (S n) w') as (m & w2 & Hr2 & Hm & Hrd2 & Hlog2 & Hall); [done|by rewrite Hlog|lia|].
    exists (S m), w2. rewrite Hr2. split_and!; [do 2 f_equal; lia|lia|done|congruence|done].
  - exists 0, w'. split_and!; [by rewrite Nat.add_0_r|lia|done..].
Qed.

Lemma total_left_bound s : attempts_ok s → (1 ≤ wo_maxAttempts opts)%Z → total_left s ≤ length (qlog s) * Z.to_nat (wo_maxAttempts opts).
Proof.
  intros Ha Hm. unfold total_left. induction (qlog s) as [|r l IH]; [done|]. simpl.
  assert (left_of s (lr_id r) ≤ Z.to_nat (wo_maxAttempts opts)); [|lia].
  unfold left_of. specialize (Ha (lr_id r)). destruct (terminal s (lr_id r)); lia.
Qed.

(** C19: draining finishes every job.  On a queue with no live lease and a cursor behind which every job is terminal, and with
    handlers that come to an end, [drain] returns; every job of the log is then done or a dead letter, after at
    most [maxAttempts] turns per job, no job was added or lost, and the queue is ready
    for the next worker.  The cap of the source is never what stops it. *)
Theorem drain_completes fuel token (w : world) :
  handlers_end → ready w → (1 ≤ wo_maxAttempts opts)%Z → length (qlog (work w)) < fuel →
  ∃ n w', run h (drain full_caps work_cas text opts fuel hfuel token) w = (Ok n, w') ∧
    n ≤ length (qlog (work w)) * Z.to_nat (wo_maxAttempts opts) ∧
    ready w' ∧ qlog (work w') = qlog (work w) ∧
    Forall (λ r, terminal (work w') (lr_id r) = true) (qlog (work w')).
Proof.
  intros Hend Hrd Hm Hf. pose proof (total_left_bound (work w) (rd_attempts _ Hrd) Hm) as Hb.
  unfold drain. run_step. assert (Hrest : rest_log "qjob" None (work w) = qlog (work w)) by apply drop_0.
  rewrite listAll_alone by (by rewrite Hrest). rewrite Hrest. cbn [app].
  destruct (drain_turns_alone (Z.to_nat (Z.of_nat (length (qlog (work w))) * (wo_maxAttempts opts + 1) + 1)) fuel token 0 w)
    as (n & w' & Hr & Hn & Hrest'); [done..|lia|].
  exists n, w'. rewrite Hr. split; [done|]. split; [lia|exact Hrest'].
Qed.
End Worker.

(** ** Two executions in which a job is never reached *)

Definition ok_host : oracle job_query handler_event queue_error := λ _ _, Ok HDone.
Definition any_text (e : queue_error) : string := "error".
Definition mail_worker : worker_options := WorkerOptions "a" 30000 5 true 3 ["mail"].

Definition at_time (t : Z) (w : world job_value job_query) : world job_value job_query := World (jr w) t t (trace w) (work w).

Definition new_world : world job_value job_query := World empty_journal 1 1 [] empty_work.

Definition add_job (o : owner) (w : world job_value job_query) (name : string) : world job_value job_query :=
  snd (run ok_host (enqueue 10 None "mail" JNull (EnqueueOptions (Some name) None None (ow_resourceId o) (ow_orgId o)) "") w).

Definition numbered (p : string) (n : nat) : list string := map (λ i, p +:+ dec (N.of_nat i)) (seq 0 n).

Definition drain_now (w : world job_value job_query) : outcome queue_error nat * world job_value job_query :=
  run ok_host (drain full_caps true any_text mail_worker 10 10 (λ n, dec (N.of_nat n))) w.

Definition erase_now (o : owner) (w : world job_value job_query) : world job_value job_query :=
  match erase_jobs None true true o (work w) (jr w) with
  | Ok (_, s, j) => World j (clock w) (wall w) (trace w) s
  | Err _ => w
  end.

(** Bob's second job, queued after Alice's fifty were erased. *)
Definition alice : owner := Owner None (Some "alice").
Definition bob : owner := Owner None (Some "bob").
Definition before_erasure : world job_value job_query :=
  snd (drain_now (add_job bob (fold_left (add_job alice) (numbered "a" 50) new_world) "first")).
Definition after_erasure : world job_value job_query := add_job bob (erase_now alice before_erasure) "second".

Definition hundred : world job_value job_query := fold_left (add_job (Owner None None)) (numbered "j" 101) new_world.
Definition crashed_holder : world job_value job_query :=
  snd (run ok_host (acquireRunLock (E := queue_error) (R := handler_event) full_caps (lease_name "j0") "b" 30000 "tb" None) hundred).
Definition drained_beside : outcome queue_error nat * world job_value job_query := drain_now crashed_holder.
Definition drained_later : outcome queue_error nat * world job_value job_query := drain_now (at_time 1000000 (snd drained_beside)).

(** A job queued after an erasure is never run.  Alice's fifty jobs and Bob's first are done
    and the cursor stands at 50; erasing Alice shortens the log to one entry and leaves the cursor;
    Bob's second job, enqueued next, lies before the cursor: draining runs nothing and says 0, and the
    job cannot be retried either, being no dead letter. *)
Theorem erasure_strands_new_jobs :
  map lr_id (qlog (work after_erasure)) = ["~o~:bob:first"; "~o~:bob:second"] ∧
  cursor_of (work after_erasure) = Some "50" ∧
  fst (drain_now after_erasure) = Ok 0 ∧
  terminal (work (snd (drain_now after_erasure))) "~o~:bob:second" = false ∧
  fst (run ok_host (retryJob 10 None "~o~:bob:second" None "x") (snd (drain_now after_erasure))) = Ok None.
Proof. vm_compute. done. Qed.

(** A job another worker holds is skipped for good.  While a worker that has crashed still holds the lease
    of the first of 101 jobs, another drains the rest: the second page is all terminal, so the cursor is persisted past
    the first page, and with it past the held job.  Long after the lease has expired, draining
    finds nothing to do and the first job is still pending. *)
Theorem held_job_is_skipped :
  fst drained_beside = Ok 100 ∧
  cursor_of (work (snd drained_beside)) = Some "100" ∧
  terminal (work (snd drained_beside)) "j0" = false ∧
  free (at_time 1000000 (snd drained_beside)) "j0" = true ∧
  fst drained_later = Ok 0 ∧
  terminal (work (snd drained_later)) "j0" = false.
Proof. vm_compute. done. Qed.

(** ** Concrete instances *)

Definition two_jobs : world job_value job_query := fold_left (add_job alice) ["a"; "b"] new_world.

Lemma ok_host_ends : handlers_end ok_host 1.
Proof. intros tr q id. by eexists. Qed.

Lemma two_jobs_ready : ready two_jobs.
Proof.
  split; [done| | |].
  - intros r Hr. vm_compute in Hr. repeat (apply elem_of_cons in Hr as [->|Hr]; [vm_compute; done|]). by apply elem_of_nil in Hr.
  - vm_compute. constructor.
  - intros id. vm_compute. done.
Qed.

Lemma runOnce_exact_witness :
  ∃ job w1 w', run ok_host (runOnce full_caps true any_text mail_worker 3 1 "t") two_jobs = (Ok true, w') ∧
    turn ok_host any_text mail_worker true 1 job w1 w'.
Proof.
  destruct (proj1 (runOnce_exact ok_host any_text mail_worker true 1 3 "t" two_jobs ok_host_ends two_jobs_ready ltac:(vm_compute; lia)))
    as (w1 & w' & Hr & _ & _ & Ht).
  eexists _, w1, w'. split; [exact Hr|exact Ht].
Defined.

Lemma drain_completes_witness :
  ∃ n w', run ok_host (drain full_caps true any_text mail_worker 3 1 (λ n, dec (N.of_nat n))) two_jobs = (Ok n, w') ∧
    Forall (λ r, terminal (work w') (lr_id r) = true) (qlog (work w')).
Proof.
  destruct (drain_completes ok_host any_text mail_worker true 1 3 (λ n, dec (N.of_nat n)) two_jobs ok_host_ends two_jobs_ready)
    as (n & w' & Hr & _ & _ & _ & Hall).
  - cbn. lia.
  - vm_compute. lia.
  - exists n, w'. split; [exact Hr|exact Hall].
Defined.
