(* ===== verification/Events.v ===== *)
(** * Events: the durable event bus

    Models [packages/events/src/index.ts]: [emit] and the depth index, the marker keys, a
    consumer's [poll] with its retry schedule, quarantine and persisted cursor,
    [listDeadEvents], [retryDeadEvent] and [eventEraser].  Everything lives in the work store.

    A handler is a host request: a failed answer is a handler that throws.  The schedule
    [retryDelayMs] is a function that answers [None] when it throws or returns no finite
    number.  The stamp [releases@releasedAt] is kept as a pair.  The poll loop, a timer, is not modelled. *)

From S2P Require Import Prelude JsMap Keys Journal Work Org OwnedName Prog Claim Json Hash Format ToolTypes.

(** ** Records *)

Definition stamp : Type := Z * Z.

Record stored_attempts := StoredAttempts {
  sa_n : Z;
  sa_firstAt : Z;
  sa_nextAt : Z;
  sa_gen : option stamp;
}.

Record stored_dead := StoredDead {
  sd_error : string;
  sd_attempts : Z;
  sd_at : Z;
  sd_releasedAt : option Z;
  sd_releases : option Z;
}.

#[global] Instance stored_attempts_eq_dec : EqDecision stored_attempts.
Proof. solve_decision. Defined.
#[global] Instance stored_dead_eq_dec : EqDecision stored_dead.
Proof. solve_decision. Defined.

Inductive event_value :=
| EPayload (v : js)
| EDepth
| EBool (b : bool)
| ECursor (s : string)
| ECount (n : Z)                         (** the attempts of an older build: a bare number *)
| EAttempts (a : stored_attempts)
| EDead (d : stored_dead).

#[global] Instance event_value_eq_dec : EqDecision event_value.
Proof. solve_decision. Defined.

#[global] Instance event_value_js : JsValue event_value := {|
  js_eq_dec := event_value_eq_dec;
  str_field v f := match v with EPayload x => js_str (prop x f) | _ => None end;
  is_versioned _ := false;
  ser_length _ := 0;
|}.

(** ** Keys *)

Definition enc_char (c : Ascii.ascii) : string :=
  if Ascii.eqb c "%" then "%25" else if Ascii.eqb c ":" then "%3A" else String c EmptyString.

Fixpoint enc (part : string) : string :=
  match part with
  | EmptyString => EmptyString
  | String c s => enc_char c +:+ enc s
  end.

Definition logNsOf (topic : string) : string := "evt:" +:+ enc topic.

Definition isOwnedId (id : string) : bool :=
  let o := fst (ownerOfName id) in
  bool_decide (is_Some (ow_orgId o)) || bool_decide (is_Some (ow_resourceId o)).

Definition markerKey (fam topic consumer id : string) : string :=
  if isOwnedId id then fam +:+ ":" +:+ enc id +:+ ":" +:+ enc topic +:+ ":" +:+ enc consumer
  else fam +:+ ":" +:+ enc topic +:+ ":" +:+ enc consumer +:+ ":" +:+ enc id.

Definition ackKey := markerKey "evtack".
Definition attKey := markerKey "evtatt".
Definition deadKey := markerKey "evtdead".

Definition depthNsOf (topic : string) (orgId : option string) : string :=
  match orgId with
  | None => "evtdepth:" +:+ enc topic
  | Some o => "org:" +:+ o +:+ ":evtdepth:" +:+ enc topic
  end.

Definition cursorKeyOf (topic consumer : string) : string := "evtcursor:" +:+ enc topic +:+ ":" +:+ enc consumer.
Definition rescanKeyOf (topic consumer : string) : string := "evtrescan:" +:+ enc topic +:+ ":" +:+ enc consumer.

Inductive event_error :=
| EmptyTopic
| EName (e : name_error)
| EScopedStore (orgId : string)
| EOrg (e : org_error)
| EResourceId
| EventDepthExceeded (topic : string) (depth maxDepth : nat)
| EHost (e : js)
| EFuel.

Definition assertTopic (topic : string) : outcome event_error unit :=
  if String.eqb topic "" then Err EmptyTopic
  else match assertSystemName topic with Ok _ => Ok tt | Err e => Err (EName e) end.

(** ** Values read back *)

Definition readAttempts (raw : option event_value) : option stored_attempts :=
  match raw with
  | Some (ECount n) => Some (StoredAttempts n 0 0 None)
  | Some (EAttempts a) => Some a
  | Some _ => Some (StoredAttempts 0 0 0 None)
  | None => None
  end.

Definition as_dead (v : option event_value) : option stored_dead := match v with Some (EDead d) => Some d | _ => None end.

(** [rec.releasedAt] as a condition. *)
Definition released (d : stored_dead) : bool := match sd_releasedAt d with Some t => negb (Z.eqb t 0) | None => false end.

Definition releaseStamp (rec : option stored_dead) : stamp :=
  (default 0%Z (rec ≫= sd_releases), default 0%Z (rec ≫= sd_releasedAt)).

Definition defaultRetryDelay (attempt : Z) : Z := Z.min (60000 * 2 ^ (attempt - 1)) 3600000.

(** ** Host requests *)

Inductive event_query := EDeliver (id : string) (payload : option event_value) (o : owner).

Section Events.
Abbreviation prog := (prog event_value event_query unit event_error).

Definition evget (k : string) : prog (option event_value) := request (RWGet k).
Definition evput (k : string) (v : event_value) : prog unit := request (RWPut k v).
Definition check {A} (o : outcome event_error A) : prog A := match o with Ok a => mret a | Err e => Throw e end.

(** ** Publishing *)

Record emit_options := EmitOptions {
  em_id : option string;
  em_maxDepth : option nat;
  em_resourceId : option string;
  em_orgId : option string;
}.

Fixpoint count_events (fuel : nat) (ns : string) (limit count : nat) (cursor : option string) : prog nat :=
  match fuel with
  | 0 => Throw EFuel
  | S fuel' =>
      '(items, nx) ← request (RWList ns cursor);
      let count' := count + length items in
      match truthy nx with
      | Some c => if limit <=? count' then mret count' else count_events fuel' ns limit count' (Some c)
      | None => mret count'
      end
  end.

(** The checks at the door. *)
Definition check_emit (scope : option string) (topic : string) (o : emit_options) : outcome event_error unit :=
  match scope with
  | Some s => Err (EScopedStore s)
  | None =>
      match assertTopic topic with
      | Err e => Err e
      | Ok _ =>
          match (match em_orgId o with Some g => orgPrefix g | None => Ok "" end) with
          | Err e => Err (EOrg e)
          | Ok _ => if bool_decide (em_resourceId o = Some "") then Err EResourceId else Ok tt
          end
      end
  end.

Definition check_topic_depth (fuel : nat) (topic : string) (o : emit_options) : prog unit :=
  match em_maxDepth o with
  | Some maxDepth =>
      depth ← count_events fuel (depthNsOf topic (em_orgId o)) maxDepth 0 None;
      if maxDepth <=? depth then Throw (EventDepthExceeded topic depth maxDepth) else mret tt
  | None => mret tt
  end.

(** The stored id; [fresh] is the one the store or [randomUUID] generates. *)
Definition event_id (o : emit_options) (fresh : string) : outcome event_error string :=
  let owned := bool_decide (is_Some (em_resourceId o)) || bool_decide (is_Some (em_orgId o)) in
  match (match em_id o with Some n => Some n | None => if owned then Some fresh else None end) with
  | Some n => match ownedName n (Owner (em_orgId o) (em_resourceId o)) with Ok i => Ok i | Err e => Err (EName e) end
  | None => Ok fresh
  end.

Definition emit (fuel : nat) (scope : option string) (topic : string) (payload : js) (o : emit_options) (fresh : string) : prog string :=
  _ ← check (check_emit scope topic o);
  _ ← check_topic_depth fuel topic o;
  name ← check (event_id o fresh);
  id ← request (RWAppend (logNsOf topic) (EPayload payload) name);
  _ ← request (RWAppend (depthNsOf topic (em_orgId o)) EDepth id);
  mret id.

(** ** Consuming *)

Variable has_cas : bool.                       (** the work store has [putIfMatch] *)
Variable text : event_error → string.
Variables (topic consumer : string).
Variable maxAttempts : option Z.               (** [None]: [Infinity] *)
Variable retryDelay : Z → option Z.

Definition delayFor (attempt : Z) : Z :=
  match retryDelay attempt with
  | Some ms => Z.max 0 ms
  | None => defaultRetryDelay attempt
  end.

Definition last_attempt (n : Z) : bool := match maxAttempts with Some m => (m <=? n)%Z | None => false end.

(** A compare-and-swap, or a plain put where there is nothing to compare with. *)
Definition put_if (k : string) (expected : option event_value) (v : event_value) : prog bool :=
  match expected with
  | Some e => if has_cas then request (RWPutIfMatch k e v) else _ ← evput k v; mret true
  | None => _ ← evput k v; mret true
  end.

(** The handler threw: whether the cursor is frozen by it. *)
Definition on_failure (id : string) (dead : option stored_dead) (attRaw : option event_value) (err : event_error) : prog bool :=
  let att := readAttempts attRaw in
  freshRaw ← evget (deadKey topic consumer id);
  let fresh := as_dead freshRaw in
  if negb (bool_decide (releaseStamp fresh = releaseStamp dead)) then mret true
  else
    now ← request RDateNow;
    let n := (default 0 (sa_n <$> att) + 1)%Z in
    acked ← (if last_attempt n then evget (ackKey topic consumer id) else mret None);
    match acked with
    | Some _ => mret false
    | None =>
        let first := match att with Some a => if Z.eqb (sa_firstAt a) 0 then now else sa_firstAt a | None => now end in
        let next := StoredAttempts n first (now + delayFor n) (att ≫= sa_gen) in
        wrote ← put_if (attKey topic consumer id) attRaw (EAttempts next);
        if negb wrote then mret true
        else if last_attempt n then
          let rec := StoredDead (text err) n now None (fresh ≫= sd_releases) in
          wroteDead ← put_if (deadKey topic consumer id) freshRaw (EDead rec);
          mret (negb wroteDead)
        else mret true
    end.

(** One event of a page: what it adds to [delivered], and whether it freezes the cursor. *)
Definition poll_event (e : log_record event_value) : prog (nat * bool) :=
  let id := lr_id e in
  acked ← evget (ackKey topic consumer id);
  match acked with
  | Some _ => mret (0, false)
  | None =>
      deadRaw ← evget (deadKey topic consumer id);
      let dead := as_dead deadRaw in
      if match dead with Some d => negb (released d) | None => false end then mret (0, false)
      else
        attRaw ← evget (attKey topic consumer id);
        now ← (match readAttempts attRaw with Some _ => request RDateNow | None => mret 0%Z end);
        if match readAttempts attRaw with Some a => (now <? sa_nextAt a)%Z | None => false end then mret (0, true)
        else
          r ← pcatch (request (RExt (EDeliver id (Some (lr_payload e)) (fst (ownerOfName id)))));
          match r with
          | Err err => f ← on_failure id dead attRaw err; mret (0, f)
          | Ok _ =>
              won ← request (RWAckOnce (ackKey topic consumer id) (EBool true));
              mret (if won : bool then 1 else 0, false)
          end
  end.

Fixpoint poll_items (items : list (log_record event_value)) (delivered : nat) (frozen : bool) : prog (nat * bool) :=
  match items with
  | [] => mret (delivered, frozen)
  | e :: items' =>
      '(d, f) ← poll_event e;
      poll_items items' (delivered + d) (frozen || f)
  end.

Fixpoint poll_pages (fuel : nat) (rescan : bool) (cursor : option string) (delivered : nat) (frozen : bool) : prog nat :=
  match fuel with
  | 0 => Throw EFuel
  | S fuel' =>
      '(items, nx) ← request (RWList (logNsOf topic) cursor);
      '(delivered', frozen') ← poll_items items delivered frozen;
      match truthy nx with
      | None => _ ← (if rescan then evput (rescanKeyOf topic consumer) (EBool false) else mret tt); mret delivered'
      | Some c =>
          _ ← (if frozen' : bool then mret tt else evput (cursorKeyOf topic consumer) (ECursor c));
          poll_pages fuel' rescan (Some c) delivered' frozen'
      end
  end.

Definition is_true (v : option event_value) : bool := match v with Some (EBool b) => b | _ => false end.
Definition as_position (v : option event_value) : option string := match v with Some (ECursor s) => truthy (Some s) | _ => None end.

Definition poll (fuel : nat) : prog nat :=
  flag ← evget (rescanKeyOf topic consumer);
  let rescan := is_true flag in
  _ ← (if rescan then evput (cursorKeyOf topic consumer) (ECursor "") else mret tt);
  cursor ← (if rescan then mret None else v ← evget (cursorKeyOf topic consumer); mret (as_position v));
  poll_pages fuel rescan cursor 0 false.

(** ** Dead letters *)

Inductive dead_status := DQuarantined | DReleased | DDelivered.

Record dead_event := DeadEvent {
  de_id : string;
  de_owner : owner;
  de_payload : event_value;
  de_record : stored_dead;
  de_status : dead_status;
}.

Fixpoint dead_items (items : list (log_record event_value)) : prog (list dead_event) :=
  match items with
  | [] => mret []
  | e :: items' =>
      raw ← evget (deadKey topic consumer (lr_id e));
      match as_dead raw with
      | None => dead_items items'
      | Some rec =>
          acked ← evget (ackKey topic consumer (lr_id e));
          rest ← dead_items items';
          mret (DeadEvent (lr_id e) (fst (ownerOfName (lr_id e))) (lr_payload e) rec
                  (match acked with Some _ => DDelivered | None => if released rec then DReleased else DQuarantined end) :: rest)
      end
  end.

Fixpoint listDeadEvents (fuel : nat) (cursor : option string) : prog (list dead_event) :=
  match fuel with
  | 0 => Throw EFuel
  | S fuel' =>
      '(items, nx) ← request (RWList (logNsOf topic) cursor);
      out ← dead_items items;
      match truthy nx with
      | None => mret out
      | Some c => rest ← listDeadEvents fuel' (Some c); mret (out ++ rest)
      end
  end.

Definition RELEASE_CAS_TRIES : nat := 5.

Definition release_of (rec : stored_dead) (now : Z) : stored_dead :=
  StoredDead (sd_error rec) (sd_attempts rec) (sd_at rec) (Some now) (Some (default 0 (sd_releases rec) + 1)%Z).

Fixpoint release_tries (tries : nat) (eventId : string) : prog bool :=
  match tries with
  | 0 => mret false
  | S tries' =>
      raw ← evget (deadKey topic consumer eventId);
      match as_dead raw with
      | None => mret false
      | Some rec =>
          acked ← evget (ackKey topic consumer eventId);
          match acked with
          | Some _ => mret false
          | None =>
              now ← request RDateNow;
              let rel := release_of rec now in
              _ ← evput (attKey topic consumer eventId) (EAttempts (StoredAttempts 0 0 0 (Some (releaseStamp (Some rel)))));
              wrote ← put_if (deadKey topic consumer eventId) raw (EDead rel);
              if wrote : bool then _ ← evput (rescanKeyOf topic consumer) (EBool true); mret true
              else release_tries tries' eventId
          end
      end
  end.

Definition retryDeadEvent (eventId : string) : prog bool := release_tries RELEASE_CAS_TRIES eventId.
End Events.

(** ** Erasure *)

Inductive event_erase_error := EvScoped (orgId : string) | EvNoDelete | EvName (e : name_error).

Definition event_families : list string := ["evtack"; "evtatt"; "evtdead"].

Definition erase_event_markers (prefix : string) (s : work_store event_value) : nat * work_store event_value :=
  fold_left (λ '(n, s) fam, let '(k, s') := ws_deletePrefix (fam +:+ ":" +:+ enc prefix) s in (n + k, s')) event_families (0, s).

Definition erase_events (scope : option string) (deletes : bool) (o : owner) (s : work_store event_value)
    : outcome event_erase_error (nat * work_store event_value) :=
  match scope with
  | Some g => Err (EvScoped g)
  | None =>
      if negb deletes then Err EvNoDelete
      else
        match ownedPrefix o with
        | Err e => Err (EvName e)
        | Ok prefix =>
            let '(n, s1) := ws_deleteIdPrefix prefix s in
            let '(m, s2) := erase_event_markers prefix s1 in
            Ok (n + m, s2)
        end
  end.
