(* ===== verification/EventsSafety.v ===== *)
(** * EventsSafety: no event is passed over

    For the bus of [Events]: the marker keys of different consumers, topics and events never
    collide, and, in every interleaving of any number of consumers and publishers with failing
    requests, a persisted cursor never passes an event its consumer may still be owed. *)

From S2P Require Import Prelude JsMap Keys Journal Work Org OwnedName Prog Claim Json Hash Format ToolTypes Events.

(** ** Keys *)

Lemma unesc_enc_char c s : unesc (enc_char c +:+ s) = String c (unesc s).
Proof.
  unfold enc_char. destruct (Ascii.eqb_spec c "%") as [->|Hp]; [done|]. destruct (Ascii.eqb_spec c ":") as [->|Hc]; [done|].
  cbn. by rewrite (proj2 (Ascii.eqb_neq _ _) Hp).
Qed.

Lemma unesc_enc v : unesc (enc v) = v.
Proof. induction v as [|c v IH]; [done|]. cbn [enc]. by rewrite unesc_enc_char, IH. Qed.

Lemma enc_inj a b : enc a = enc b → a = b.
Proof. intros H. by rewrite <- (unesc_enc a), H, unesc_enc. Qed.

Lemma enc_no_colon v : has_char ":" (enc v) = false.
Proof.
  induction v as [|c v IH]; [done|]. cbn [enc]. rewrite has_char_app, IH, orb_false_r. unfold enc_char.
  destruct (Ascii.eqb_spec c "%") as [->|_]; [done|]. destruct (Ascii.eqb_spec c ":") as [->|Hc]; [done|].
  unfold has_char. cbn. rewrite orb_false_r. apply Ascii.eqb_neq. congruence.
Qed.

(** Components separated by a colon are recovered. *)
Lemma colon_cut a b a' b' :
  has_char ":" a = false → has_char ":" a' = false → a +:+ ":" +:+ b = a' +:+ ":" +:+ b' → a = a' ∧ b = b'.
Proof.
  intros Ha Ha' H. pose proof (cut_colon_app a b Ha) as H1. pose proof (cut_colon_app a' b' Ha') as H2.
  change (a +:+ String ":" b) with (a +:+ ":" +:+ b) in H1. change (a' +:+ String ":" b') with (a' +:+ ":" +:+ b') in H2.
  rewrite H, H2 in H1. by injection H1 as -> ->.
Qed.

Lemma cursorKeyOf_inj t c t' c' : cursorKeyOf t c = cursorKeyOf t' c' → t = t' ∧ c = c'.
Proof.
  unfold cursorKeyOf. intros H%str_app_inj_l. apply colon_cut in H as [Ht Hc]; [|apply enc_no_colon..].
  split; by apply enc_inj.
Qed.

(** The families of keys are disjoint. *)
Lemma cursor_not_marker t c fam t' c' id :
  fam ∈ ["evtack"; "evtatt"; "evtdead"] → cursorKeyOf t c ≠ markerKey fam t' c' id.
Proof.
  unfold cursorKeyOf, markerKey. rewrite !elem_of_cons, elem_of_nil.
  intros [->|[->|[->|[]]]]; by destruct (isOwnedId id).
Qed.

Lemma dead_not_ack t c id t' c' id' : deadKey t c id ≠ ackKey t' c' id'.
Proof. unfold deadKey, ackKey, markerKey. by destruct (isOwnedId id), (isOwnedId id'). Qed.

Lemma dead_not_att t c id t' c' id' : deadKey t c id ≠ attKey t' c' id'.
Proof. unfold deadKey, attKey, markerKey. by destruct (isOwnedId id), (isOwnedId id'). Qed.

Lemma dead_not_rescan t c id t' c' : deadKey t c id ≠ rescanKeyOf t' c'.
Proof. unfold deadKey, rescanKeyOf, markerKey. by destruct (isOwnedId id). Qed.

Lemma isOwnedId_marker id : isOwnedId id = true → starts_with OWNED id = true.
Proof.
  unfold isOwnedId, ownerOfName. rewrite starts_with_strip. by destruct (strip_prefix OWNED id).
Qed.

Lemma enc_owned id : starts_with OWNED id = true → starts_with OWNED (enc id) = true.
Proof.
  intros [r ->]%starts_with_spec. apply starts_with_spec. by exists (enc r).
Qed.

Lemma assertTopic_Ok t : assertTopic t = Ok tt → starts_with OWNED t = false.
Proof.
  unfold assertTopic, assertSystemName. destruct (String.eqb t ""); [done|]. by destruct (starts_with OWNED t).
Qed.

Lemma markerKey_inj (fam t c id t' c' id' : string) :
  assertTopic t = Ok tt → assertTopic t' = Ok tt →
  markerKey fam t c id = markerKey fam t' c' id' → t = t' ∧ c = c' ∧ id = id'.
Proof.
  intros Ht Ht'. unfold markerKey.
  assert (Hcross : ∀ i u, isOwnedId i = true → assertTopic u = Ok tt → enc i ≠ enc u).
  { intros i u Hi%isOwnedId_marker Hu%assertTopic_Ok He%enc_inj. congruence. }
  destruct (isOwnedId id) eqn:Hi, (isOwnedId id') eqn:Hi'; intros H%str_app_inj_l; apply (str_app_inj_l ":") in H;
    apply colon_cut in H as [H1 H2]; try apply enc_no_colon; [| | |].
  all: try (by exfalso; eapply Hcross; [..|exact H1]).
  all: try (by exfalso; eapply Hcross; [..|symmetry; exact H1]).
  all: apply colon_cut in H2 as [H2 H3]; try apply enc_no_colon; apply enc_inj in H1; apply enc_inj in H2; apply enc_inj in H3; done.
Qed.

(** One marker, one delivery.  Whatever characters topics, consumers and event ids are made of, two
    different triples never share a marker key, so a consumer's acknowledgement, retry count or
    quarantine of an event is never read as another's; and the keys of cursors are as distinct. *)
Theorem marker_keys_injective (fam t c id t' c' id' : string) :
  assertTopic t = Ok tt → assertTopic t' = Ok tt →
  markerKey fam t c id = markerKey fam t' c' id' → t = t' ∧ c = c' ∧ id = id'.
Proof. apply markerKey_inj. Qed.

(** ** What a consumer may pass over *)

Definition quarantined (s : work_store event_value) (k : string) : Prop :=
  ∃ d, ws_get k s = Some (EDead d) ∧ released d = false.

(** Delivered, or quarantined: nothing is owed. *)
Definition settled_event (s : work_store event_value) (t c id : string) : Prop :=
  is_Some (ws_get (ackKey t c id) s) ∨ quarantined s (deadKey t c id).

Definition topic_log (t : string) (s : work_store event_value) : list (log_record event_value) := ws_log (logNsOf t) s.

Definition prefix_settled (t c : string) (n : nat) (s : work_store event_value) : Prop :=
  n ≤ length (topic_log t s) ∧ Forall (λ e, settled_event s t c (lr_id e)) (take n (topic_log t s)).

Definition position_of (t c : string) (s : work_store event_value) : nat :=
  cursor_offset (as_position (ws_get (cursorKeyOf t c) s)).

(** Every persisted cursor of every consumer stands behind all that is owed. *)
Definition cursors_ok (s : work_store event_value) : Prop := ∀ t c, prefix_settled t c (position_of t c s) s.

(** The store only grows: logs, keys, and records that stay quarantined. *)
Record ext (s s' : work_store event_value) : Prop := Ext {
  ext_logs : ∀ ns, ∃ more, ws_log ns s' = ws_log ns s ++ more;
  ext_keys : ∀ k, is_Some (ws_get k s) → is_Some (ws_get k s');
  ext_dead : ∀ t c id, quarantined s (deadKey t c id) → quarantined s' (deadKey t c id);
}.

Lemma ext_refl s : ext s s.
Proof. split; [|done..]. intros ns. exists []. by rewrite app_nil_r. Qed.

Lemma settled_ext s s' t c id : ext s s' → settled_event s t c id → settled_event s' t c id.
Proof. intros He [H|H]; [left; by apply (ext_keys _ _ He)|right; by apply (ext_dead _ _ He)]. Qed.

Lemma prefix_ext s s' t c n : ext s s' → prefix_settled t c n s → prefix_settled t c n s'.
Proof.
  intros He [Hn Hp]. unfold prefix_settled, topic_log in *. destruct (ext_logs _ _ He (logNsOf t)) as [more ->].
  rewrite length_app, take_app_le by done. split; [lia|].
  apply (Forall_impl _ _ _ Hp). intros e. by apply settled_ext.
Qed.

(** ** What a program has learned from its answers *)

Inductive fact :=
| FKey (k : string)                                        (** the key is present *)
| FQuar (k : string)                                       (** the record is quarantined *)
| FCursor (k : string) (v : option event_value)            (** a cursor was read *)
| FPage (ns : string) (cursor : option string) (items : list (log_record event_value)) (nx : option string).

Definition holds (s : work_store event_value) (f : fact) : Prop :=
  match f with
  | FKey k => is_Some (ws_get k s)
  | FQuar k => ∀ t c id, k = deadKey t c id → quarantined s k
  | FCursor k v => ∀ t c, k = cursorKeyOf t c → prefix_settled t c (cursor_offset (as_position v)) s
  | FPage ns cursor items nx =>
      take (length items) (drop (cursor_offset cursor) (ws_log ns s)) = items ∧
      ∀ c, truthy nx = Some c → cursor_offset (Some c) = cursor_offset cursor + length items ∧
                                cursor_offset (Some c) ≤ length (ws_log ns s)
  end.

Lemma holds_ext s s' f : ext s s' → holds s f → holds s' f.
Proof.
  intros He. destruct f as [k|k|k v|ns cur items nx]; cbn [holds].
  - apply (ext_keys _ _ He).
  - intros H t c id ->. by apply (ext_dead _ _ He), (H t c id).
  - intros H t c ->. eapply prefix_ext; [exact He|by apply H].
  - intros [Hi Hn]. destruct (ext_logs _ _ He ns) as [more ->]. split.
    + destruct (decide (cursor_offset cur ≤ length (ws_log ns s))) as [Hle|Hgt].
      * rewrite drop_app_le by done. rewrite take_app_le; [done|].
        rewrite <- Hi at 1. rewrite length_take. lia.
      * rewrite drop_ge in Hi by lia. rewrite take_nil in Hi. by rewrite <- Hi.
    + intros c Hc. destruct (Hn c Hc). rewrite length_app. split; [done|lia].
Qed.

Definition dead_of (v : event_value) : bool := match v with EDead d => negb (released d) | _ => false end.

Definition learned (r : req event_value event_query) : outcome event_error (ans (R := unit) r) → list fact :=
  match r return outcome event_error (ans (R := unit) r) → list fact with
  | RWGet k => λ o, match o with
                    | Ok (Some v) => FKey k :: FCursor k (Some v) :: (if dead_of v then [FQuar k] else [])
                    | Ok None => [FCursor k None]
                    | Err _ => []
                    end
  | RWPut k v => λ o, match o with Ok _ => FKey k :: (if dead_of v then [FQuar k] else []) | Err _ => [] end
  | RWPutIfMatch k _ v => λ o, match o with Ok true => if dead_of v then [FQuar k] else [] | _ => [] end
  | RWAckOnce k _ => λ o, match o with Ok _ => [FKey k] | Err _ => [] end
  | RWList ns c => λ o, match o with Ok (items, nx) => [FPage ns c items nx] | Err _ => [] end
  | _ => λ _, []
  end.

Definition entails (g : list fact) (P : work_store event_value → Prop) : Prop := ∀ s, Forall (holds s) g → P s.

(** A write that keeps every quarantine. *)
Definition keeps_dead (k : string) (v : event_value) : Prop := ∀ t c id, k = deadKey t c id → dead_of v = true.
Definition no_cursor (k : string) : Prop := ∀ t c, k ≠ cursorKeyOf t c.

(** The requests of the bus: a cursor is written only where everything before it is known to be settled. *)
Definition bus_allowed (g : list fact) (r : req event_value event_query) : Prop :=
  match r with
  | RWPut k v => keeps_dead k v ∧
      ∀ t c, k = cursorKeyOf t c → entails g (prefix_settled t c (cursor_offset (as_position (Some v))))
  | RWPutIfMatch k _ v => keeps_dead k v ∧ no_cursor k
  | RWAckOnce k v => keeps_dead k v ∧ no_cursor k
  | _ => True
  end.

Definition bus_next (g : list fact) (r : req event_value event_query) (o : outcome event_error (ans (R := unit) r)) : list fact :=
  g ++ learned r o.

Definition bus_inv (w : world event_value event_query) (gs : list (list fact)) : Prop :=
  cursors_ok (work w) ∧ Forall (Forall (holds (work w))) gs.

Lemma quarantined_put s k v t c id :
  keeps_dead k v → quarantined s (deadKey t c id) → quarantined (ws_put k v s) (deadKey t c id).
Proof.
  intros Hk (d & Hd & Hr). destruct (decide (deadKey t c id = k)) as [He|Hne].
  - specialize (Hk t c id (eq_sym He)). destruct v as [| | | | | |d']; try done. exists d'. subst k.
    rewrite ws_get_put. split; [done|]. by apply negb_true_iff.
  - exists d. by rewrite ws_get_put_ne.
Qed.

Lemma ext_put s k v : keeps_dead k v → ext s (ws_put k v s).
Proof.
  intros Hk. split.
  - intros ns. exists []. by rewrite app_nil_r.
  - intros k' Hs. destruct (decide (k' = k)) as [->|Hne]; [by rewrite ws_get_put|by rewrite ws_get_put_ne].
  - intros t c id. by apply quarantined_put.
Qed.

Lemma ext_append now ns p id (s : work_store event_value) : ext s (ws_append now ns p id s).
Proof.
  split.
  - intros ns'. destruct (decide (ns' = ns)) as [->|Hne].
    + rewrite ws_log_append. case_match; [exists []; by rewrite app_nil_r|by eexists].
    + exists []. by rewrite ws_log_append_ne, app_nil_r.
  - intros k. by rewrite ws_get_append.
  - intros t c id' (d & Hd & Hr). exists d. by rewrite ws_get_append.
Qed.

(** The work store after an allowed request. *)
Lemma bus_ext g r h (w : world event_value event_query) :
  bus_allowed g r → ext (work w) (work (snd (perform (E := event_error) (R := unit) h r w))).
Proof.
  destruct r; cbn [perform snd work set_jr set_work bus_allowed]; try (intros _; apply ext_refl).
  - intros _. apply ext_append.
  - intros [Hk _]. by apply ext_put.
  - intros [Hk _]. unfold ws_ackOnce. destruct (mhas k _); cbn [snd]; [apply ext_refl|by apply ext_put].
  - intros [Hk _]. unfold ws_putIfMatch. destruct (mget k _); [|apply ext_refl].
    case_bool_decide; cbn [snd]; [by apply ext_put|apply ext_refl].
Qed.

(** A cursor moves only by a put on its key. *)
Lemma cursor_kept g r h (w : world event_value event_query) t c :
  bus_allowed g r → (∀ v, r ≠ RWPut (cursorKeyOf t c) v) →
  ws_get (cursorKeyOf t c) (work (snd (perform (E := event_error) (R := unit) h r w))) = ws_get (cursorKeyOf t c) (work w).
Proof.
  destruct r; cbn [perform snd work set_jr set_work bus_allowed]; try done; intros Hal Hne.
  - apply ws_get_append.
  - apply ws_get_put_ne. intros <-. by apply (Hne v).
  - unfold ws_ackOnce. destruct (mhas k _); cbn [snd]; [done|]. apply ws_get_put_ne. intros He. by apply (proj2 Hal t c).
  - unfold ws_putIfMatch. destruct (mget k _); [|done]. case_bool_decide; [|done]. apply ws_get_put_ne.
    intros He. by apply (proj2 Hal t c).
Qed.

Lemma bus_cursors g r h (w : world event_value event_query) :
  bus_allowed g r → Forall (holds (work w)) g → cursors_ok (work w) →
  cursors_ok (work (snd (perform (E := event_error) (R := unit) h r w))).
Proof.
  intros Hal Hg Hc t c. pose proof (bus_ext g r h w Hal) as He.
  assert (Hcase : (∃ v, r = RWPut (cursorKeyOf t c) v) ∨ (∀ v, r ≠ RWPut (cursorKeyOf t c) v)).
  { destruct r; try (by right). destruct (decide (k = cursorKeyOf t c)) as [->|Hne]; [left; by eexists|right; congruence]. }
  destruct Hcase as [[v ->]|Hne].
  - eapply prefix_ext; [exact He|]. unfold position_of. cbn [perform snd work set_work]. rewrite ws_get_put.
    by apply (proj2 Hal t c).
  - eapply prefix_ext; [exact He|]. unfold position_of.
    rewrite (cursor_kept g r h w t c Hal Hne). apply Hc.
Qed.

Lemma dead_quarantined s k v : dead_of v = true → ws_get k s = Some v → quarantined s k.
Proof. destruct v as [| | | | | |d]; try done. intros Hr Hk. exists d. split; [done|]. by apply negb_true_iff. Qed.

Lemma dead_fact s k v : ws_get k s = Some v → Forall (holds s) (if dead_of v then [FQuar k] else []).
Proof.
  intros Hk. destruct (dead_of v) eqn:Hd; [|by constructor].
  constructor; [|by constructor]. intros t c id _. by eapply dead_quarantined.
Qed.

Lemma take_length_take {A} n (l : list A) : take (length (take n l)) l = take n l.
Proof. rewrite length_take. destruct (decide (n ≤ length l)); [by rewrite Nat.min_l|rewrite Nat.min_r, !take_ge by lia; done]. Qed.

Lemma page_fact s ns cur : Forall (holds s) (let '(items, nx) := ws_list ns cur s in [FPage ns cur items nx]).
Proof.
  pose proof (ws_list_spec ns cur s) as Hp. destruct (ws_list ns cur s) as [items nx]. destruct Hp as [-> Hnx].
  constructor; [|by constructor]. cbn [holds]. unfold rest_log in *. split; [apply take_length_take|].
  intros c Hc. rewrite Hc in Hnx. destruct Hnx as (Ho & _ & Hl). rewrite length_drop in Hl.
  rewrite Ho, length_take, length_drop. split; lia.
Qed.

Lemma learned_holds g r h (w : world event_value event_query) :
  bus_allowed g r → cursors_ok (work w) →
  let '(o, w') := perform (E := event_error) (R := unit) h r w in Forall (holds (work w')) (learned r o).
Proof.
  intros Hal Hc. destruct r; cbn [perform learned]; try by constructor.
  - cbn [work]. pose proof (page_fact (work w) ns cursor) as H. by destruct (ws_list ns cursor (work w)).
  - destruct (ws_get k (work w)) as [v|] eqn:Hk.
    + constructor; [by eexists|]. constructor; [|by apply dead_fact]. intros t c ->. specialize (Hc t c). unfold position_of in Hc. by rewrite Hk in Hc.
    + constructor; [|by constructor]. intros t c ->. specialize (Hc t c). unfold position_of in Hc. by rewrite Hk in Hc.
  - cbn [work set_work]. constructor; [cbn [holds]; by rewrite ws_get_put|]. apply dead_fact, ws_get_put.
  - cbn [work set_work]. constructor; [|by constructor]. cbn [holds]. unfold ws_ackOnce. destruct (mhas k (ws_kv (work w))) eqn:Hh; cbn [snd].
    + by apply mhas_true in Hh.
    + by rewrite ws_get_put.
  - cbn [work set_work]. unfold ws_putIfMatch. destruct (mget k _); cbn [fst snd]; [|by constructor].
    case_bool_decide; cbn [fst snd]; [|by constructor]. apply dead_fact, ws_get_put.
Qed.

Lemma Forall_insert_facts (s : work_store event_value) gs i g : Forall (Forall (holds s)) gs → Forall (holds s) g → Forall (Forall (holds s)) (<[i := g]> gs).
Proof. intros Hgs Hg. by apply Forall_insert. Qed.

Lemma facts_ext s s' gs : ext s s' → Forall (Forall (holds s)) gs → Forall (Forall (holds s')) gs.
Proof. intros He Hgs. apply (Forall_impl _ _ _ Hgs). intros g Hg. apply (Forall_impl _ _ _ Hg). intros f. by apply holds_ext. Qed.

Lemma learned_err r (e : event_error) : learned r (Err e) = [].
Proof. by destruct r. Qed.

Lemma bus_inv_perform h w gs i g r :
  gs !! i = Some g → bus_allowed g r → bus_inv w gs →
  bus_inv (snd (perform (E := event_error) (R := unit) h r w)) (<[i := bus_next g r (fst (perform h r w))]> gs).
Proof.
  intros Hi Hal [Hc Hgs]. assert (Hg : Forall (holds (work w)) g) by (by eapply Forall_lookup_1 in Hgs).
  pose proof (bus_ext g r h w Hal) as He. split; [by eapply bus_cursors|].
  apply Forall_insert_facts; [by eapply facts_ext|]. apply Forall_app. split.
  - apply (Forall_impl _ _ _ Hg). intros f. by apply holds_ext.
  - pose proof (learned_holds g r h w Hal Hc) as Hl. by destruct (perform h r w).
Qed.

Lemma bus_inv_fail (h : oracle event_query unit event_error) w gs i g r (e : event_error) :
  gs !! i = Some g → bus_allowed g r → bus_inv w gs →
  bus_inv w (<[i := bus_next g r (Err e)]> gs) ∧
  bus_inv (snd (perform (E := event_error) (R := unit) h r w)) (<[i := bus_next g r (Err e)]> gs).
Proof.
  intros Hi Hal [Hc Hgs]. assert (Hg : Forall (holds (work w)) g) by (by eapply Forall_lookup_1 in Hgs).
  pose proof (bus_ext g r h w Hal) as He. unfold bus_next. rewrite learned_err, app_nil_r. split; split.
  - done.
  - by apply Forall_insert_facts.
  - by eapply bus_cursors.
  - apply Forall_insert_facts; [by eapply facts_ext|]. apply (Forall_impl _ _ _ Hg). intros f. by apply holds_ext.
Qed.

Lemma bus_inv_time w gs c x : (clock w ≤ c)%Z → bus_inv w gs → bus_inv (World (jr w) c x (trace w) (work w)) gs.
Proof. by intros _. Qed.

(** ** The programs are allowed *)

Section Programs.
Variable has_cas : bool.
Variable text : event_error → string.
Variables (topic consumer : string).
Variable maxAttempts : option Z.
Variable retryDelay : Z → option Z.
Abbreviation prog := (prog event_value event_query unit event_error).

Definition grows (g g' : list fact) : Prop := ∃ l, g' = g ++ l.

Lemma grows_refl g : grows g g.
Proof. exists []. by rewrite app_nil_r. Qed.

Lemma grows_next g g' r o : grows g g' → grows g (bus_next g' r o).
Proof. intros [l ->]. exists (l ++ learned r o). unfold bus_next. by rewrite app_assoc. Qed.

Lemma grows_trans g1 g2 g3 : grows g1 g2 → grows g2 g3 → grows g1 g3.
Proof. intros [l1 ->] [l2 ->]. exists (l1 ++ l2). by rewrite app_assoc. Qed.

Lemma entails_grows g g' P : grows g g' → entails g P → entails g' P.
Proof. intros [l ->] HP s [Hs _]%Forall_app. by apply HP. Qed.

Lemma entails_fact g f (P : work_store event_value → Prop) : f ∈ g → (∀ s, holds s f → P s) → entails g P.
Proof. intros Hin HP s Hs. rewrite Forall_forall in Hs. by apply HP, Hs. Qed.

Definition bsafe {A} (post : list fact → outcome event_error A → Prop) (g : list fact) (p : prog A) : Prop :=
  safe bus_allowed bus_next post g p.

(** Settled as far as the facts tell. *)
Definition knows_settled (g : list fact) (id : string) : Prop := entails g (λ s, settled_event s topic consumer id).

Definition item_post (g : list fact) (id : string) {A} (frozen : A → bool) (g' : list fact) (o : outcome event_error A) : Prop :=
  grows g g' ∧ match o with Ok a => frozen a = false → knows_settled g' id | Err _ => True end.

Lemma knows_ack g id : FKey (ackKey topic consumer id) ∈ g → knows_settled g id.
Proof. intros Hin. eapply entails_fact; [exact Hin|]. intros s Hs. by left. Qed.

Lemma knows_dead g id : FQuar (deadKey topic consumer id) ∈ g → knows_settled g id.
Proof. intros Hin. eapply entails_fact; [exact Hin|]. intros s Hs. right. by eapply Hs. Qed.

Lemma att_allowed t c id v g r : r = RWPut (attKey t c id) v ∨ (∃ e, r = RWPutIfMatch (attKey t c id) e v) → bus_allowed g r.
Proof.
  assert (Hd : keeps_dead (attKey t c id) v) by (intros t' c' id' He; by apply eq_sym, dead_not_att in He).
  assert (Hc : no_cursor (attKey t c id)).
  { intros t' c' He. eapply (cursor_not_marker t' c' "evtatt"); [|by symmetry]. right. left. }
  intros [->|[e ->]]; cbn [bus_allowed]; split; try done. intros t' c' He. by apply Hc in He.
Qed.

Lemma dead_allowed t c id v g r : dead_of v = true → r = RWPut (deadKey t c id) v ∨ (∃ e, r = RWPutIfMatch (deadKey t c id) e v) → bus_allowed g r.
Proof.
  intros Hv. assert (Hd : keeps_dead (deadKey t c id) v) by (by intros t' c' id' _).
  assert (Hc : no_cursor (deadKey t c id)).
  { intros t' c' He. eapply (cursor_not_marker t' c' "evtdead"); [|by symmetry]. right. right. left. }
  intros [->|[e ->]]; cbn [bus_allowed]; split; try done. intros t' c' He. by apply Hc in He.
Qed.

Lemma ack_allowed t c id v g : bus_allowed g (RWAckOnce (ackKey t c id) v).
Proof.
  split.
  - intros t' c' id' He. by apply eq_sym, dead_not_ack in He.
  - intros t' c' He. eapply (cursor_not_marker t' c' "evtack"); [|by symmetry]. left.
Qed.

Lemma put_if_safe k expected v g :
  (∀ r, r = RWPut k v ∨ (∃ e, r = RWPutIfMatch k e v) → bus_allowed g r) →
  bsafe (λ g' o, grows g g' ∧ match o with Ok true => dead_of v = true → FQuar k ∈ g' | _ => True end) g (put_if has_cas k expected v).
Proof.
  intros Hal. unfold put_if, bsafe.
  assert (Hput : safe bus_allowed bus_next (λ g' (o : outcome event_error bool), grows g g' ∧ match o with Ok true => dead_of v = true → FQuar k ∈ g' | _ => True end) g
    (_ ← evput k v; mret true)).
  { split; [apply Hal; by left|]. intros [[]|e]; cbn -[dead_of]; (split; [apply grows_next, grows_refl|]); [|done].
    intros Hd. unfold bus_next. cbn [learned]. rewrite Hd. apply elem_of_app. right. right. left. }
  destruct expected as [e|]; [|exact Hput]. destruct has_cas; [|exact Hput].
  split; [apply Hal; right; by eexists|]. intros [[]|x]; cbn -[dead_of]; (split; [apply grows_next, grows_refl|]); try done.
  intros Hd. unfold bus_next. cbn [learned]. rewrite Hd. apply elem_of_app. right. left.
Qed.

Lemma req_safe r g : bus_allowed g r → bsafe (λ g' o, g' = bus_next g r o) g (request r : prog (ans (R := unit) r)).
Proof. intros Hal. split; [done|]. by intros [a|e]. Qed.

Lemma bsafe_bind {A B} post mid g (p : prog A) (f : A → prog B) :
  bsafe mid g p → (∀ g' a, mid g' (Ok a) → bsafe post g' (f a)) → (∀ g' e, mid g' (Err e) → post g' (Err e)) →
  bsafe post g (pbind f p).
Proof. apply safe_bind. Qed.

Lemma bsafe_mono {A} (post post' : list fact → outcome event_error A → Prop) g p :
  (∀ g o, post g o → post' g o) → bsafe post g p → bsafe post' g p.
Proof. apply safe_mono. Qed.

Abbreviation fpost g id := (item_post g id (λ b : bool, b)).

Lemma item_post_err {A} g id (frozen : A → bool) g' e : grows g g' → item_post g id frozen g' (Err e).
Proof. by split. Qed.

Lemma get_known g k v : FKey k ∈ bus_next g (RWGet k) (Ok (Some v)).
Proof. unfold bus_next. cbn [learned]. apply elem_of_app. right. left. Qed.

Lemma write_failure_safe g0 g id attRaw freshRaw n next rec :
  grows g0 g → dead_of (EDead rec) = true →
  bsafe (fpost g0 id) g
    (wrote ← put_if has_cas (attKey topic consumer id) attRaw (EAttempts next);
     if negb wrote then mret true
     else if last_attempt maxAttempts n then
       wroteDead ← put_if has_cas (deadKey topic consumer id) freshRaw (EDead rec);
       mret (negb wroteDead)
     else mret true).
Proof.
  intros Hg Hdead. unfold mbind, prog_bind. eapply bsafe_bind.
  - apply put_if_safe. intros r. apply att_allowed.
  - intros g1 wrote [Hg1 _]. destruct wrote; cbn [negb]; [|by split; [eapply grows_trans|]].
    destruct (last_attempt maxAttempts n); [|by split; [eapply grows_trans|]].
    eapply bsafe_bind.
    + apply put_if_safe. intros r. by apply dead_allowed.
    + intros g2 wd [Hg2 Hq]. assert (Hg02 : grows g0 g2) by eauto using grows_trans.
      split; [done|]. destruct wd; [|done]. intros _. by apply knows_dead, Hq.
    + intros g2 e [Hg2 _]. apply item_post_err. eauto using grows_trans.
  - intros g1 e [Hg1 _]. apply item_post_err. eauto using grows_trans.
Qed.

Lemma on_failure_safe g id dead attRaw err :
  bsafe (fpost g id) g (on_failure has_cas text topic consumer maxAttempts retryDelay id dead attRaw err).
Proof.
  unfold on_failure, mbind, prog_bind. eapply bsafe_bind; [by apply req_safe| |intros g' e ->; apply item_post_err, grows_next, grows_refl].
  intros g1 freshRaw ->. assert (Hg1 : grows g (bus_next g (RWGet (deadKey topic consumer id)) (Ok freshRaw))) by apply grows_next, grows_refl.
  destruct (negb _); [by split|].
  eapply bsafe_bind; [by apply req_safe| |intros g' e ->; by apply item_post_err, grows_next].
  intros g2 now ->. set (g2 := bus_next _ RDateNow _). assert (Hg2 : grows g g2) by by apply grows_next.
  set (n := (default 0 _ + 1)%Z). eapply (bsafe_bind _ (λ g' o, grows g2 g' ∧ match o with Ok (Some _) => knows_settled g' id | _ => True end)).
  - destruct (last_attempt maxAttempts n); [|by split; [apply grows_refl|]].
    eapply bsafe_mono; [|by apply req_safe]. cbn beta. intros g' [[v|]|e] ->; (split; [apply grows_next, grows_refl|]); [|done..].
    apply knows_ack, get_known.
  - intros g3 [v|] [Hg3 Hk].
    + split; [by eapply grows_trans|]. by intros _.
    + apply write_failure_safe; [by eapply grows_trans|done].
  - intros g3 e [Hg3 _]. apply item_post_err. by eapply grows_trans.
Qed.

Lemma get_dead_known g k v : dead_of v = true → FQuar k ∈ bus_next g (RWGet k) (Ok (Some v)).
Proof. intros Hv. unfold bus_next. cbn [learned]. rewrite Hv. apply elem_of_app. right. right. right. left. Qed.

Lemma as_dead_of raw d : as_dead raw = Some d → released d = false → ∃ v, raw = Some v ∧ dead_of v = true.
Proof. destruct raw as [[| | | | | |d']|]; try done. intros [= ->] Hr. eexists. split; [done|]. cbn. by rewrite Hr. Qed.

Abbreviation ipost g id := (item_post g id (λ r : nat * bool, snd r)).

Lemma deliver_safe g0 g id payload dead attRaw :
  grows g0 g →
  bsafe (ipost g0 id) g
    (r ← pcatch (request (RExt (EDeliver id payload (fst (ownerOfName id)))));
     match r with
     | Err err => f ← on_failure has_cas text topic consumer maxAttempts retryDelay id dead attRaw err; mret (0, f)
     | Ok _ =>
         won ← request (RWAckOnce (ackKey topic consumer id) (EBool true));
         mret (if won : bool then 1 else 0, false)
     end).
Proof.
  intros Hg. unfold mbind, prog_bind.
  eapply (bsafe_bind _ (λ g' o, g' = g ∧ ∃ a, o = Ok a)); [|intros g1 r [-> _]|by intros g' e [_ [a [=]]]].
  - split; [done|]. intros [a|e]; cbn; (split; [unfold bus_next; by rewrite app_nil_r|by eexists]).
  - destruct r as [[]|err].
    + eapply bsafe_bind; [apply req_safe, ack_allowed| |intros g' e ->; by apply item_post_err, grows_next].
      intros g1 won ->. split; [by apply grows_next|]. intros _. apply knows_ack.
      unfold bus_next. cbn [learned]. apply elem_of_app. right. left.
    + eapply bsafe_bind; [apply on_failure_safe| |intros g' e [Hg' _]; apply item_post_err; by eapply grows_trans].
      intros g1 f [Hg1 Hf]. split; [by eapply grows_trans|done].
Qed.

Lemma poll_event_safe g e :
  bsafe (ipost g (lr_id e)) g (poll_event has_cas text topic consumer maxAttempts retryDelay e).
Proof.
  unfold poll_event. set (id := lr_id e). unfold mbind, prog_bind.
  eapply bsafe_bind; [by apply req_safe| |intros g' x ->; apply item_post_err, grows_next, grows_refl].
  intros g1 acked ->. destruct acked as [v|].
  { split; [apply grows_next, grows_refl|]. intros _. apply knows_ack, get_known. }
  set (g1 := bus_next _ _ _). assert (Hg1 : grows g g1) by apply grows_next, grows_refl.
  eapply bsafe_bind; [by apply req_safe| |intros g' x ->; by apply item_post_err, grows_next].
  intros g2 deadRaw ->. set (g2 := bus_next g1 _ _). assert (Hg2 : grows g g2) by by apply grows_next.
  destruct (match as_dead deadRaw with Some d => negb (released d) | None => false end) eqn:Hq.
  { split; [done|]. intros _. destruct (as_dead deadRaw) as [d|] eqn:Hd; [|done]. apply negb_true_iff in Hq.
    destruct (as_dead_of _ _ Hd Hq) as (v & -> & Hv). by apply knows_dead, get_dead_known. }
  eapply bsafe_bind; [by apply req_safe| |intros g' x ->; by apply item_post_err, grows_next].
  intros g3 attRaw ->. set (g3 := bus_next g2 _ _). assert (Hg3 : grows g g3) by by apply grows_next.
  eapply (bsafe_bind _ (λ g' o, grows g3 g')).
  - destruct (readAttempts attRaw); [|apply grows_refl].
    eapply bsafe_mono; [|by apply req_safe]. intros g' o ->. apply grows_next, grows_refl.
  - intros g4 now Hg4. assert (Hg04 : grows g g4) by by eapply grows_trans.
    destruct (match readAttempts attRaw with Some a => _ | None => false end); [by split|].
    by apply deliver_safe.
  - intros g4 x Hg4. apply item_post_err. by eapply grows_trans.
Qed.

Lemma poll_items_safe g items n frozen :
  bsafe (λ g' o, grows g g' ∧ match o with Ok (_, false) => frozen = false ∧ ∀ e, e ∈ items → knows_settled g' (lr_id e) | _ => True end) g
    (poll_items has_cas text topic consumer maxAttempts retryDelay items n frozen).
Proof.
  revert g n frozen. induction items as [|e items IH]; intros g n frozen.
  { split; [apply grows_refl|]. destruct frozen; [done|]. split; [done|]. by intros e He%elem_of_nil. }
  cbn [poll_items]. unfold mbind, prog_bind. eapply bsafe_bind; [apply poll_event_safe| |by intros g' x [Hg' _]].
  intros g1 [d f] [Hg1 Hf]. cbn [snd] in Hf. eapply bsafe_mono; [|apply IH]. intros g2 [[m fr]|x] [Hg2 Ho]; (split; [by eapply grows_trans|]); [|done].
  destruct fr; [done|]. destruct Ho as [[-> ->]%orb_false_iff Hall]. split; [done|].
  intros e' [->|He']%elem_of_cons; [|by apply Hall]. eapply entails_grows; [exact Hg2|by apply Hf].
Qed.

Definition any_post {A} (_ : list fact) (_ : outcome event_error A) : Prop := True.

Lemma truthy_same c x : truthy (Some c) = Some x → x = c.
Proof. unfold truthy. destruct (String.eqb c ""); [done|]. by intros [= ->]. Qed.

Lemma prefix_zero t c s : prefix_settled t c (cursor_offset None) s.
Proof. split; [cbn; lia|constructor]. Qed.

(** A page of settled events behind a settled position settles the position after it. *)
Lemma page_settled g c items nx c' :
  FPage (logNsOf topic) c items nx ∈ g → truthy nx = Some c' →
  entails g (prefix_settled topic consumer (cursor_offset c)) →
  (∀ e, e ∈ items → knows_settled g (lr_id e)) →
  entails g (prefix_settled topic consumer (cursor_offset (Some c'))).
Proof.
  intros Hin Hnx Hpre Hall s Hs. destruct (Hpre s Hs) as [_ Hp]. assert (Hf := Hs). rewrite Forall_forall in Hf.
  destruct (Hf _ Hin) as [Hitems Hn]. destruct (Hn c' Hnx) as [Ho Hle]. split; [done|].
  rewrite Ho, <- take_take_drop. apply Forall_app. split; [done|]. unfold topic_log. rewrite Hitems.
  apply Forall_forall. intros e He. by apply (Hall e He).
Qed.

Lemma cursor_allowed g v :
  dead_of v = false → entails g (prefix_settled topic consumer (cursor_offset (as_position (Some v)))) →
  bus_allowed g (RWPut (cursorKeyOf topic consumer) v).
Proof.
  intros Hv He. split.
  - intros t c id Hk. exfalso. eapply (cursor_not_marker topic consumer "evtdead" t c id); [|exact Hk]. right. right. left.
  - intros t c [<- <-]%cursorKeyOf_inj. exact He.
Qed.

Lemma rescan_allowed g v : bus_allowed g (RWPut (rescanKeyOf topic consumer) v).
Proof.
  split.
  - intros t c id Hk. by apply eq_sym, dead_not_rescan in Hk.
  - intros t c Hk. done.
Qed.

Lemma poll_pages_safe fuel rescan c n (frozen : bool) g :
  (frozen = false → entails g (prefix_settled topic consumer (cursor_offset c))) →
  bsafe any_post g (poll_pages has_cas text topic consumer maxAttempts retryDelay fuel rescan c n frozen).
Proof.
  revert c n frozen g. induction fuel as [|fuel IH]; intros c n frozen g Hpre; [done|].
  cbn [poll_pages]. unfold mbind, prog_bind. eapply bsafe_bind; [by apply req_safe| |done].
  intros g1 [items nx] ->. set (g1 := bus_next g _ _).
  assert (Hpage : FPage (logNsOf topic) c items nx ∈ g1) by (apply elem_of_app; right; left).
  assert (Hg1 : grows g g1) by apply grows_next, grows_refl.
  eapply bsafe_bind; [apply poll_items_safe| |done].
  intros g2 [n' frozen'] [[l Hg2] Hfr].
  assert (Hpre' : ∀ c', truthy nx = Some c' → frozen' = false → entails g2 (prefix_settled topic consumer (cursor_offset (Some c')))).
  { intros c' Hnx ->. destruct Hfr as [-> Hall]. eapply page_settled; [|exact Hnx| |exact Hall].
    - rewrite Hg2. apply elem_of_app. by left.
    - eapply entails_grows; [|by apply Hpre]. eapply grows_trans; [exact Hg1|]. by exists l. }
  destruct (truthy nx) as [c'|].
  - specialize (Hpre' c' eq_refl). eapply (bsafe_bind _ (λ g' _, grows g2 g')); [|intros g3 _ Hg3|done].
    + destruct frozen'; [apply grows_refl|]. eapply bsafe_mono; [|apply req_safe, cursor_allowed; [done|]].
      * intros g' o ->. apply grows_next, grows_refl.
      * specialize (Hpre' eq_refl). intros s Hs. specialize (Hpre' s Hs). cbn [as_position].
        by destruct (truthy (Some c')) as [x|] eqn:Hx; [rewrite (truthy_same c' x Hx)|apply prefix_zero].
    + apply IH. intros Hf. eapply entails_grows; [exact Hg3|by apply Hpre'].
  - destruct rescan; [|done]. eapply bsafe_bind; [apply req_safe, rescan_allowed|done|done].
Qed.
End Programs.

Section Programs2.
Abbreviation prog := (prog event_value event_query unit event_error).

Lemma poll_safe has_cas text topic consumer maxAttempts retryDelay fuel g :
  bsafe any_post g (poll has_cas text topic consumer maxAttempts retryDelay fuel).
Proof.
  unfold poll, mbind, prog_bind. eapply bsafe_bind; [by apply req_safe| |done].
  intros g1 flag _. destruct (is_true flag).
  - eapply bsafe_bind; [apply req_safe, cursor_allowed; [done|]| |done].
    { intros s _. apply prefix_zero. }
    intros g2 _ _. cbn [pbind mret prog_ret]. apply poll_pages_safe. intros _ s _. apply prefix_zero.
  - cbn [pbind mret prog_ret]. eapply (bsafe_bind _ (λ g' o, match o with Ok c => entails g' (prefix_settled topic consumer (cursor_offset c)) | Err _ => True end)).
    + eapply bsafe_bind; [by apply req_safe| |done]. intros g2 v ->.
      cbn. intros s [_ Hs]%Forall_app. cbn [learned] in Hs.
      destruct v as [v|]; [rewrite !Forall_cons in Hs; by apply (proj1 (proj2 Hs))|rewrite Forall_cons in Hs; by apply (proj1 Hs)].
    + intros g2 c Hc. by apply poll_pages_safe.
    + done.
Qed.

Lemma count_events_safe fuel ns limit n c g : bsafe any_post g (count_events fuel ns limit n c).
Proof.
  revert n c g. induction fuel as [|fuel IH]; intros n c g; [done|].
  cbn [count_events]. unfold mbind, prog_bind. eapply bsafe_bind; [by apply req_safe| |done].
  intros g1 [items nx] _. destruct (truthy nx); [|done]. destruct (_ <=? _); [done|apply IH].
Qed.

Lemma emit_safe fuel scope topic payload o fresh g : bsafe any_post g (emit fuel scope topic payload o fresh).
Proof.
  unfold emit, mbind, prog_bind, check. eapply (bsafe_bind _ any_post); [by destruct (check_emit _ _ _)| |done]. intros g1 _ _.
  eapply (bsafe_bind _ any_post).
  - unfold check_topic_depth. destruct (em_maxDepth o); [|done]. unfold mbind, prog_bind.
    eapply bsafe_bind; [apply count_events_safe| |done]. intros g2 d _. by destruct (_ <=? _).
  - intros g2 _ _. eapply (bsafe_bind _ any_post); [by destruct (event_id _ _)| |done]. intros g3 name _.
    eapply bsafe_bind; [by apply req_safe| |done]. intros g4 id _. eapply bsafe_bind; [by apply req_safe|done|done].
  - done.
Qed.

(** ** The bus *)

Inductive bus_client :=
| BPoll (has_cas : bool) (text : event_error → string) (topic consumer : string) (maxAttempts : option Z) (retryDelay : Z → option Z) (fuel : nat)
| BEmit (fuel : nat) (scope : option string) (topic : string) (payload : js) (o : emit_options) (fresh : string).

Definition bus_prog (c : bus_client) : prog unit :=
  match c with
  | BPoll cas text topic consumer m d fuel => _ ← poll cas text topic consumer m d fuel; mret tt
  | BEmit fuel scope topic payload o fresh => _ ← emit fuel scope topic payload o fresh; mret tt
  end.

(** C2: a persisted cursor passes no event that is still owed.  In every interleaving of any number
    of polls (any topics, any consumers, several processes under one consumer name, any retry
    schedule, with or without compare-and-swap) and publishers, with requests that fail before or after taking effect and polls that die halfway, every
    event before a consumer's persisted cursor has been acknowledged by that consumer or is
    quarantined for it, where [listDeadEvents] shows it: an event that failed and may be retried, that waits for its next attempt, or that was never
    tried is always at or after the cursor. *)
Theorem cursor_passes_nothing_owed (cs : list bus_client) (ps' : list (prog unit)) (w w' : world event_value event_query) :
  reachable (map bus_prog cs, w) (ps', w') → cursors_ok (work w) → cursors_ok (work w').
Proof.
  intros Hr Hc.
  destruct (pool_safe bus_allowed bus_next bus_inv bus_inv_perform bus_inv_fail bus_inv_time any_post _ _ (map (λ _, []) cs) Hr) as (gs' & [Hc' _] & _).
  - split; [done|]. clear. cbn [snd]. induction cs as [|c cs IH]; constructor; [constructor|exact IH].
  - clear. cbn [fst]. induction cs as [|c cs IH]; [constructor|]. cbn [map]. constructor; [|exact IH].
    destruct c; cbn [bus_prog]; unfold mbind, prog_bind; (eapply safe_bind; [|by intros|by intros]).
    + apply poll_safe.
    + apply emit_safe.
  - done.
Qed.
End Programs2.

(** ** Concrete instances *)

Lemma marker_keys_injective_witness : markerKey "evtack" "a" "b:c" "order-42" ≠ markerKey "evtack" "a:b" "c" "order-42".
Proof.
  intros H. destruct (marker_keys_injective "evtack" "a" "b:c" "order-42" "a:b" "c" "order-42" eq_refl eq_refl H) as [Ht _].
  discriminate.
Defined.

Definition bus_sample : list bus_client :=
  [BPoll true (λ _, "error") "mail" "sender" (Some 8%Z) (λ n, Some (defaultRetryDelay n)) 3;
   BEmit 3 None "mail" JNull (EmitOptions (Some "m") None (Some "alice") None) "u";
   BPoll true (λ _, "error") "mail" "sender" (Some 8%Z) (λ n, Some (defaultRetryDelay n)) 3].

Definition bus_run : config event_value event_query unit event_error unit :=
  schedule (λ _ _, Ok tt) [0; 1; 1; 0; 0; 0; 2; 2; 2; 0; 0; 2; 2; 0; 2; 0; 2]
    (map bus_prog bus_sample, World empty_journal 1 1 [] empty_work).

Lemma cursor_passes_nothing_owed_witness : cursors_ok (work (snd bus_run)) ∧ length (trace (snd bus_run)) = 2.
Proof.
  split; [|vm_compute; reflexivity].
  apply (cursor_passes_nothing_owed bus_sample (fst bus_run) (World empty_journal 1 1 [] empty_work)).
  - rewrite <- surjective_pairing. apply schedule_reachable.
  - intros t c. split; [apply Nat.le_0_l|constructor].
Defined.
