(* ===== verification/EventsPoll.v ===== *)
(** * EventsPoll: what one poll does

    For the consumer of [Events] polling alone: a poll over the pages is one walk over the
    log from the consumer's position ([walk], the reference), every due event is handed to the handler once, in
    order, whatever the events before it did; a failing event is counted and quarantined at the limit.  An execution shows what an erasure does to a persisted cursor. *)

From S2P Require Import Prelude JsMap Keys Journal Work Org OwnedName Prog Claim Json Hash Format ToolTypes Events EventsSafety.

Section Alone.
Variable h : oracle event_query unit event_error.
Variable has_cas : bool.
Variable text : event_error → string.
Variables (topic consumer : string).
Variable maxAttempts : option Z.
Variable retryDelay : Z → option Z.
Abbreviation world := (world event_value event_query).
Abbreviation ack := (ackKey topic consumer).
Abbreviation dk := (deadKey topic consumer).
Abbreviation ak := (attKey topic consumer).

(** ** The reference: one event, and a walk over events *)

Definition query_of (e : log_record event_value) : event_query :=
  EDeliver (lr_id e) (Some (lr_payload e)) (fst (ownerOfName (lr_id e))).

Inductive verdict := Passed | Waiting | Due.

#[global] Instance verdict_eq_dec : EqDecision verdict.
Proof. solve_decision. Defined.

Definition verdict_of (now : Z) (s : work_store event_value) (id : string) : verdict :=
  match ws_get (ack id) s with
  | Some _ => Passed
  | None =>
      if match as_dead (ws_get (dk id) s) with Some d => negb (released d) | None => false end then Passed
      else match readAttempts (ws_get (ak id) s) with
           | Some a => if (now <? sa_nextAt a)%Z then Waiting else Due
           | None => Due
           end
  end.

(** The retry record and, at the last attempt, the dead letter. *)
Definition failed_store (now : Z) (id : string) (err : event_error) (s : work_store event_value) : work_store event_value :=
  let att := readAttempts (ws_get (ak id) s) in
  let n := (default 0 (sa_n <$> att) + 1)%Z in
  let first := match att with Some a => if Z.eqb (sa_firstAt a) 0 then now else sa_firstAt a | None => now end in
  let s1 := ws_put (ak id) (EAttempts (StoredAttempts n first (now + delayFor retryDelay n) (att ≫= sa_gen))) s in
  if last_attempt maxAttempts n then
    ws_put (dk id) (EDead (StoredDead (text err) n now None (as_dead (ws_get (dk id) s) ≫= sd_releases))) s1
  else s1.

Definition attempts_of (s : work_store event_value) (id : string) : Z := default 0%Z (sa_n <$> readAttempts (ws_get (ak id) s)).

Record walk_state := WalkState {
  wk_store : work_store event_value;
  wk_trace : list event_query;
  wk_delivered : nat;
  wk_frozen : bool;
}.

Definition walk_step (now : Z) (st : walk_state) (e : log_record event_value) : walk_state :=
  match verdict_of now (wk_store st) (lr_id e) with
  | Passed => st
  | Waiting => WalkState (wk_store st) (wk_trace st) (wk_delivered st) true
  | Due =>
      match h (wk_trace st) (query_of e) with
      | Ok _ => WalkState (ws_put (ack (lr_id e)) (EBool true) (wk_store st)) (query_of e :: wk_trace st) (S (wk_delivered st)) (wk_frozen st)
      | Err err =>
          WalkState (failed_store now (lr_id e) err (wk_store st)) (query_of e :: wk_trace st) (wk_delivered st)
            (wk_frozen st || negb (last_attempt maxAttempts (attempts_of (wk_store st) (lr_id e) + 1)))
      end
  end.

Definition walk (now : Z) (es : list (log_record event_value)) (st : walk_state) : walk_state := fold_left (walk_step now) es st.

(** The world of a walk. *)
Definition world_of (w : world) (s : work_store event_value) (tr : list event_query) : world := World (jr w) (clock w) (wall w) tr s.

Lemma put_if_alone k cur v (w : world) :
  cur = ws_get k (work w) → run h (put_if has_cas k cur v) w = (Ok true, set_work (ws_put k v (work w)) w).
Proof.
  intros ->. unfold put_if. destruct (ws_get k (work w)) as [cur|] eqn:Hk; [destruct has_cas|].
  - rewrite (run_request h (RWPutIfMatch _ _ _)). cbn [perform]. unfold ws_putIfMatch. unfold ws_get in Hk.
    by rewrite Hk, bool_decide_eq_true_2.
  - unfold evput. by run_step.
  - unfold evput. by run_step.
Qed.

Lemma on_failure_alone id err (w : world) :
  ws_get (ack id) (work w) = None →
  run h (on_failure has_cas text topic consumer maxAttempts retryDelay id (as_dead (ws_get (dk id) (work w))) (ws_get (ak id) (work w)) err) w =
    (Ok (negb (last_attempt maxAttempts (attempts_of (work w) id + 1))), set_work (failed_store (wall w) id err (work w)) w).
Proof.
  intros Hack. unfold on_failure, evget, attempts_of, failed_store. run_step.
  rewrite bool_decide_eq_true_2 by done. cbn [negb]. run_step.
  set (n := (_ + 1)%Z). set (first := match readAttempts _ with Some _ => _ | None => _ end).
  rewrite run_bind. replace (run h (if last_attempt maxAttempts n then request (RWGet (ack id)) else mret None) w) with (Ok (E := event_error) (None : option event_value), w).
  2:{ destruct (last_attempt maxAttempts n); [|done]. unfold request; cbn [run perform]; by rewrite Hack. }
  rewrite run_bind, put_if_alone by done. cbn [negb]. destruct (last_attempt maxAttempts n); [|done].
  set (w1 := set_work _ w). rewrite run_bind.
  assert (Hd : ws_get (dk id) (work w) = ws_get (dk id) (work w1)) by (symmetry; apply ws_get_put_ne, dead_not_att).
  rewrite put_if_alone by exact Hd. done.
Qed.

(** Handing one due event to the handler. *)
Lemma deliver_alone e (w : world) d fr :
  ws_get (ack (lr_id e)) (work w) = None →
  let st := match h (trace w) (query_of e) with
            | Ok _ => WalkState (ws_put (ack (lr_id e)) (EBool true) (work w)) (query_of e :: trace w) (S d) fr
            | Err err => WalkState (failed_store (wall w) (lr_id e) err (work w)) (query_of e :: trace w) d
                           (fr || negb (last_attempt maxAttempts (attempts_of (work w) (lr_id e) + 1)))
            end in
  ∃ d' f, run h (r ← pcatch (request (RExt (query_of e)));
                 match r with
                 | Err err => f ← on_failure has_cas text topic consumer maxAttempts retryDelay (lr_id e)
                                    (as_dead (ws_get (dk (lr_id e)) (work w))) (ws_get (ak (lr_id e)) (work w)) err; mret (0, f)
                 | Ok _ => won ← request (RWAckOnce (ack (lr_id e)) (EBool true)); mret (if won : bool then 1 else 0, false)
                 end) w = (Ok (d', f), world_of w (wk_store st) (wk_trace st)) ∧
    wk_delivered st = d + d' ∧ wk_frozen st = fr || f.
Proof.
  destruct w as [j t x tr s]. cbn [wall work trace]. intros Hack. set (id := lr_id e) in *. unfold mbind, prog_bind.
  rewrite run_bind, run_catch. rewrite (run_request h (RExt (query_of e))). cbn [perform fst snd trace jr clock wall work].
  set (w1 := World j t x (query_of e :: tr) s : world). destruct (h tr (query_of e)) as [[]|err].
  - rewrite run_bind. rewrite (run_request h (RWAckOnce _ _)). cbn [perform]. unfold ws_ackOnce.
    assert (Hh : mhas (ack id) (ws_kv (work w1)) = false) by (by apply mhas_false). rewrite Hh. cbn [fst snd].
    exists 1, false. split; [done|]. cbn [wk_delivered wk_frozen]. by rewrite Nat.add_1_r, orb_false_r.
  - rewrite run_bind. change s with (work w1). rewrite on_failure_alone by done. cbn [wk_delivered wk_frozen].
    eexists 0, _. split; [reflexivity|]. by rewrite Nat.add_0_r.
Qed.

Lemma poll_event_alone e (w : world) d fr :
  let st := walk_step (wall w) (WalkState (work w) (trace w) d fr) e in
  ∃ d' f, run h (poll_event has_cas text topic consumer maxAttempts retryDelay e) w = (Ok (d', f), world_of w (wk_store st) (wk_trace st)) ∧
    wk_delivered st = d + d' ∧ wk_frozen st = fr || f.
Proof.
  assert (Hsame : world_of w (work w) (trace w) = w) by (by destruct w).
  unfold walk_step, verdict_of, poll_event, evget. cbn [wk_store wk_trace wk_delivered wk_frozen].
  run_step. destruct (ws_get (ack (lr_id e)) (work w)) as [v|] eqn:Hack.
  { exists 0, false. cbn [wk_store wk_trace wk_delivered wk_frozen]. rewrite Hsame. split; [done|]. by rewrite Nat.add_0_r, orb_false_r. }
  run_step. destruct (match as_dead (ws_get (dk (lr_id e)) (work w)) with Some d0 => negb (released d0) | None => false end).
  { exists 0, false. cbn [wk_store wk_trace wk_delivered wk_frozen]. rewrite Hsame. split; [done|]. by rewrite Nat.add_0_r, orb_false_r. }
  run_step. pose proof (deliver_alone e w d fr Hack) as Hdel.
  destruct (readAttempts (ws_get (ak (lr_id e)) (work w))) as [a|]; [|exact Hdel].
  rewrite run_bind, run_dateNow. destruct (wall w <? sa_nextAt a)%Z; [|exact Hdel].
  exists 0, true. cbn [wk_store wk_trace wk_delivered wk_frozen]. rewrite Hsame. split; [done|]. by rewrite Nat.add_0_r, orb_true_r.
Qed.

(** ** A poll over the pages is a walk *)

(** Equal up to the consumer's own position and rescan flag. *)
Record same_bus (s s' : work_store event_value) : Prop := SameBus {
  sb_logs : ws_logs s' = ws_logs s;
  sb_keys : ∀ k, k ≠ cursorKeyOf topic consumer → k ≠ rescanKeyOf topic consumer → ws_get k s' = ws_get k s;
}.

Lemma same_bus_refl s : same_bus s s.
Proof. by split. Qed.

Lemma same_bus_trans s1 s2 s3 : same_bus s1 s2 → same_bus s2 s3 → same_bus s1 s3.
Proof. intros [Hl1 Hk1] [Hl2 Hk2]. split; [congruence|]. intros k Hc Hr. by rewrite Hk2, Hk1. Qed.

Lemma same_bus_put s s' k v : same_bus s s' → same_bus (ws_put k v s) (ws_put k v s').
Proof.
  intros [Hl Hk]. split; [done|]. intros k' Hc Hr. destruct (decide (k' = k)) as [->|Hne]; [by rewrite !ws_get_put|].
  rewrite !ws_get_put_ne by done. by apply Hk.
Qed.

Lemma same_bus_cursor s k v : k = cursorKeyOf topic consumer ∨ k = rescanKeyOf topic consumer → same_bus s (ws_put k v s).
Proof. intros Hk. split; [done|]. intros k' Hc Hr. apply ws_get_put_ne. destruct Hk; congruence. Qed.

Lemma marker_not_position fam id :
  fam ∈ ["evtack"; "evtatt"; "evtdead"] →
  markerKey fam topic consumer id ≠ cursorKeyOf topic consumer ∧ markerKey fam topic consumer id ≠ rescanKeyOf topic consumer.
Proof.
  intros Hf. split; [intros He; by eapply cursor_not_marker|]. revert Hf. unfold markerKey, rescanKeyOf.
  rewrite !elem_of_cons, elem_of_nil. intros [->|[->|[->|[]]]]; by destruct (isOwnedId id).
Qed.

Lemma same_bus_marker s s' id : same_bus s s' →
  ws_get (ack id) s' = ws_get (ack id) s ∧ ws_get (ak id) s' = ws_get (ak id) s ∧ ws_get (dk id) s' = ws_get (dk id) s.
Proof.
  intros [_ Hk]. split_and!; apply Hk; eapply marker_not_position; repeat first [left; done|right].
Qed.

Lemma walk_step_same now st st' e :
  same_bus (wk_store st) (wk_store st') → wk_trace st' = wk_trace st → wk_delivered st' = wk_delivered st → wk_frozen st' = wk_frozen st →
  let a := walk_step now st e in let b := walk_step now st' e in
  same_bus (wk_store a) (wk_store b) ∧ wk_trace b = wk_trace a ∧ wk_delivered b = wk_delivered a ∧ wk_frozen b = wk_frozen a.
Proof.
  intros Hs Ht Hd Hf. destruct (same_bus_marker _ _ (lr_id e) Hs) as (Ha & Hk & Hdk).
  unfold walk_step, verdict_of, attempts_of. rewrite Ha, Hk, Hdk, Ht.
  destruct (ws_get (ack (lr_id e)) (wk_store st)); [done|]. destruct (match as_dead _ with Some _ => _ | None => _ end); [done|].
  destruct (readAttempts _) as [a|] eqn:Hr; [destruct (now <? sa_nextAt a)%Z; [done|]|].
  all: destruct (h (wk_trace st) (query_of e)) as [[]|err]; cbn [wk_store wk_trace wk_delivered wk_frozen]; rewrite ?Hd, ?Hf; split_and!; try done.
  all: try by apply same_bus_put.
  all: unfold failed_store; rewrite Hk, Hdk, Hr; cbv zeta; destruct (last_attempt maxAttempts _); repeat apply same_bus_put; done.
Qed.

Lemma walk_same now es st st' :
  same_bus (wk_store st) (wk_store st') → wk_trace st' = wk_trace st → wk_delivered st' = wk_delivered st → wk_frozen st' = wk_frozen st →
  let a := walk now es st in let b := walk now es st' in
  same_bus (wk_store a) (wk_store b) ∧ wk_trace b = wk_trace a ∧ wk_delivered b = wk_delivered a ∧ wk_frozen b = wk_frozen a.
Proof.
  revert st st'. induction es as [|e es IH]; intros st st' Hs Ht Hd Hf; [done|]. cbn [walk fold_left].
  destruct (walk_step_same now st st' e Hs Ht Hd Hf) as (? & ? & ? & ?). by apply IH.
Qed.

Lemma poll_items_alone items (w : world) n fr :
  let st := walk (wall w) items (WalkState (work w) (trace w) n fr) in
  run h (poll_items has_cas text topic consumer maxAttempts retryDelay items n fr) w =
    (Ok (wk_delivered st, wk_frozen st), world_of w (wk_store st) (wk_trace st)).
Proof.
  revert w n fr. induction items as [|e items IH]; intros w n fr; [by destruct w|].
  cbn [poll_items walk fold_left]. unfold mbind, prog_bind.
  destruct (poll_event_alone e w n fr) as (d & f & Hr & Hd & Hf). rewrite run_bind, Hr.
  set (st := walk_step (wall w) (WalkState (work w) (trace w) n fr) e) in *.
  rewrite IH. cbn [world_of wall work trace]. rewrite <- Hd, <- Hf. by destruct st.
Qed.

Lemma walk_step_logs now st e : ws_logs (wk_store (walk_step now st e)) = ws_logs (wk_store st).
Proof.
  unfold walk_step. destruct (verdict_of _ _ _); [done..|]. destruct (h _ _); [done|]. cbn [wk_store]. unfold failed_store.
  by destruct (last_attempt _ _).
Qed.

Lemma walk_logs now es st : ws_logs (wk_store (walk now es st)) = ws_logs (wk_store st).
Proof. revert st. induction es as [|e es IH]; intros st; [done|]. cbn [walk fold_left]. unfold walk in IH. by rewrite IH, walk_step_logs. Qed.

Lemma walk_app now a b st : walk now (a ++ b) st = walk now b (walk now a st).
Proof. apply fold_left_app. Qed.

(** What a poll leaves, against the walk: the count, the requests, and the store up to the position. *)
Definition poll_matches (st : walk_state) (out : outcome event_error nat * world) : Prop :=
  fst out = Ok (wk_delivered st) ∧ trace (snd out) = wk_trace st ∧ same_bus (wk_store st) (work (snd out)).

Lemma rest_log_logs ns c (s s' : work_store event_value) : ws_logs s' = ws_logs s → rest_log ns c s' = rest_log ns c s.
Proof. unfold rest_log, ws_log. by intros ->. Qed.

Lemma poll_pages_alone fuel rescan c n fr (w : world) :
  length (rest_log (logNsOf topic) c (work w)) < fuel →
  poll_matches (walk (wall w) (rest_log (logNsOf topic) c (work w)) (WalkState (work w) (trace w) n fr))
    (run h (poll_pages has_cas text topic consumer maxAttempts retryDelay fuel rescan c n fr) w).
Proof.
  revert c n fr w. induction fuel as [|fuel IH]; intros c n fr w Hf; [lia|].
  cbn [poll_pages]. run_step. pose proof (ws_list_spec (logNsOf topic) c (work w)) as Hp.
  destruct (ws_list (logNsOf topic) c (work w)) as [items nx]. destruct Hp as [Hitems Hnx].
  rewrite run_bind, poll_items_alone. set (st0 := WalkState (work w) (trace w) n fr).
  set (st := walk (wall w) items st0). set (w1 := world_of w (wk_store st) (wk_trace st)).
  assert (Hlogs : ws_logs (work w1) = ws_logs (work w)) by apply (walk_logs (wall w) items st0).
  rewrite <- (take_drop PAGE_LIMIT (rest_log (logNsOf topic) c (work w))), <- Hitems, walk_app. fold st.
  destruct (truthy nx) as [c'|].
  - destruct Hnx as (_ & Hrest & Hlen). pose proof (rest_log_shrinks _ c c' _ Hrest Hlen) as Hshr.
    set (frz := wk_frozen st). rewrite run_bind.
    assert (Hput : ∃ w2, run h (if frz then mret tt else evput (cursorKeyOf topic consumer) (ECursor c')) w1 = (Ok tt, w2) ∧
      same_bus (work w1) (work w2) ∧ trace w2 = trace w1 ∧ wall w2 = wall w1).
    { destruct frz; [exists w1; split; [done|split; [apply same_bus_refl|done]]|].
      eexists. split; [apply run_wput|]. split; [apply same_bus_cursor; by left|done]. }
    destruct Hput as (w2 & -> & Hsb & Ht2 & Hw2).
    assert (Hrl : rest_log (logNsOf topic) (Some c') (work w2) = drop PAGE_LIMIT (rest_log (logNsOf topic) c (work w))).
    { rewrite <- Hrest. apply rest_log_logs. rewrite (sb_logs _ _ Hsb). exact Hlogs. }
    specialize (IH (Some c') (wk_delivered st) frz w2). rewrite Hrl in IH.
    assert (Hlt : length (drop PAGE_LIMIT (rest_log (logNsOf topic) c (work w))) < fuel) by (rewrite <- Hrest; lia).
    specialize (IH Hlt). rewrite Hw2 in IH. change (wall w1) with (wall w) in IH.
    destruct (walk_same (wall w) (drop PAGE_LIMIT (rest_log (logNsOf topic) c (work w))) st (WalkState (work w2) (trace w2) (wk_delivered st) frz))
      as (Hs & Ht & Hd & _); [exact Hsb|exact Ht2|done..|].
    destruct IH as (H1 & H2 & H3). split_and!; [by rewrite H1, Hd|by rewrite H2, Ht|by eapply same_bus_trans].
  - rewrite drop_ge by lia. cbn [walk fold_left]. destruct rescan.
    + unfold evput. rewrite run_bind, run_wput. split_and!; [done..|]. apply same_bus_cursor. by right.
    + split_and!; [done..|apply same_bus_refl].
Qed.

(** The events a poll walks over: the whole log after a release, what is left from the position otherwise. *)
Definition poll_rest (s : work_store event_value) : list (log_record event_value) :=
  if is_true (ws_get (rescanKeyOf topic consumer) s) then topic_log topic s
  else drop (position_of topic consumer s) (topic_log topic s).

Lemma poll_alone fuel (w : world) :
  length (topic_log topic (work w)) < fuel →
  poll_matches (walk (wall w) (poll_rest (work w)) (WalkState (work w) (trace w) 0 false))
    (run h (poll has_cas text topic consumer maxAttempts retryDelay fuel) w).
Proof.
  intros Hf. unfold poll, evget, poll_rest. run_step. destruct (is_true _).
  - unfold evput. run_step. set (w1 := set_work _ w). change (pbind ?f (mret None)) with (f None). cbv beta.
    pose proof (poll_pages_alone fuel true None 0 false w1) as Hp. unfold rest_log in Hp. change (cursor_offset None) with 0 in Hp.
    rewrite !drop_0 in Hp. specialize (Hp Hf). change (ws_log (logNsOf topic) (work w1)) with (topic_log topic (work w)) in Hp.
    change (wall w1) with (wall w) in Hp. change (trace w1) with (trace w) in Hp.
    destruct (walk_same (wall w) (topic_log topic (work w)) (WalkState (work w) (trace w) 0 false) (WalkState (work w1) (trace w) 0 false))
      as (Hs & Ht & Hd & _); [apply same_bus_cursor; by left|done..|].
    destruct Hp as (H1 & H2 & H3). split_and!; [by rewrite H1, Hd|by rewrite H2, Ht|by eapply same_bus_trans].
  - change (pbind ?f (mret tt)) with (f tt). cbv beta. run_step. run_step. cbn [run].
    pose proof (poll_pages_alone fuel false (as_position (ws_get (cursorKeyOf topic consumer) (work w))) 0 false w) as Hp.
    apply Hp. unfold rest_log. rewrite length_drop. unfold topic_log in Hf. lia.
Qed.

(** ** Event by event *)

Hypothesis topic_ok : assertTopic topic = Ok tt.

Definition same_markers (s s' : work_store event_value) (id : string) : Prop :=
  ws_get (ack id) s' = ws_get (ack id) s ∧ ws_get (ak id) s' = ws_get (ak id) s ∧ ws_get (dk id) s' = ws_get (dk id) s.

Lemma markers_put fam id id' v s :
  fam ∈ ["evtack"; "evtatt"; "evtdead"] → id ≠ id' → same_markers s (ws_put (markerKey fam topic consumer id') v s) id.
Proof.
  intros Hfam Hne. assert (Hk : ∀ f, f ∈ ["evtack"; "evtatt"; "evtdead"] → markerKey f topic consumer id ≠ markerKey fam topic consumer id').
  { intros f Hf He. destruct (decide (f = fam)) as [->|Hff]; [by destruct (markerKey_inj _ _ _ _ _ _ _ topic_ok topic_ok He) as (_ & _ & ?)|].
    revert Hff He. unfold markerKey. rewrite !elem_of_cons, elem_of_nil in Hf. rewrite !elem_of_cons, elem_of_nil in Hfam.
    destruct Hf as [->|[->|[->|[]]]], Hfam as [->|[->|[->|[]]]]; try done; by destruct (isOwnedId id), (isOwnedId id'). }
  split_and!; apply ws_get_put_ne, Hk; repeat first [left; done|right].
Qed.

Lemma same_markers_refl s id : same_markers s s id.
Proof. done. Qed.

Lemma same_markers_trans s1 s2 s3 id : same_markers s1 s2 id → same_markers s2 s3 id → same_markers s1 s3 id.
Proof. intros (H1 & H2 & H3) (H4 & H5 & H6). unfold same_markers. split_and!; congruence. Qed.

Lemma failed_markers now id id' err s : id ≠ id' → same_markers s (failed_store now id' err s) id.
Proof.
  intros Hne. unfold failed_store. cbv zeta. set (s1 := ws_put (ak id') _ s).
  assert (H1 : same_markers s s1 id) by (apply (markers_put "evtatt"); [right; left|done]).
  destruct (last_attempt _ _); [|done]. eapply same_markers_trans; [exact H1|]. apply (markers_put "evtdead"); [right; right; left|done].
Qed.

Lemma step_markers now st e id : id ≠ lr_id e → same_markers (wk_store st) (wk_store (walk_step now st e)) id.
Proof.
  intros Hne. unfold walk_step. destruct (verdict_of _ _ _); [done..|]. destruct (h _ _); cbn [wk_store].
  - apply (markers_put "evtack"); [left|done].
  - by apply failed_markers.
Qed.

Lemma walk_markers now es st id : id ∉ map lr_id es → same_markers (wk_store st) (wk_store (walk now es st)) id.
Proof.
  revert st. induction es as [|e es IH]; intros st Hid; [done|]. cbn [map] in Hid. apply not_elem_of_cons in Hid as [Hne Hid].
  eapply same_markers_trans; [by apply step_markers|by apply (IH (walk_step now st e))].
Qed.

Lemma verdict_same now s s' id : same_markers s s' id → verdict_of now s' id = verdict_of now s id.
Proof. unfold verdict_of. by intros (-> & -> & ->). Qed.

(** How an event that is due is left. *)
Definition outcome_of (r : outcome event_error unit) (s s' : work_store event_value) (id : string) : Prop :=
  match r with
  | Ok _ => is_Some (ws_get (ack id) s')
  | Err _ => ws_get (ack id) s' = None ∧ attempts_of s' id = (attempts_of s id + 1)%Z ∧
             (quarantined s' (dk id) ↔ last_attempt maxAttempts (attempts_of s id + 1) = true)
  end.

Lemma due_outcome now st e :
  verdict_of now (wk_store st) (lr_id e) = Due →
  outcome_of (h (wk_trace st) (query_of e)) (wk_store st) (wk_store (walk_step now st e)) (lr_id e).
Proof.
  intros Hv. unfold walk_step. rewrite Hv. unfold verdict_of in Hv.
  destruct (ws_get (ack (lr_id e)) (wk_store st)) eqn:Hack; [done|].
  destruct (match as_dead _ with Some _ => _ | None => _ end) eqn:Hq; [done|].
  destruct (h (wk_trace st) (query_of e)) as [[]|err]; cbn [wk_store outcome_of].
  { by rewrite ws_get_put. }
  set (id := lr_id e) in *. set (s := wk_store st) in *. unfold failed_store. cbv zeta.
  assert (Hka : ack id ≠ ak id) by (unfold ackKey, attKey, markerKey; by destruct (isOwnedId id)).
  assert (Hkd : dk id ≠ ak id) by apply dead_not_att. assert (Had : ack id ≠ dk id) by (intros He; by apply eq_sym, dead_not_ack in He).
  fold (attempts_of s id). destruct (last_attempt maxAttempts (attempts_of s id + 1)) eqn:Hl.
  - split_and!.
    + by rewrite !ws_get_put_ne.
    + unfold attempts_of at 1. by rewrite ws_get_put_ne, ws_get_put by done.
    + split; [done|]. intros _. eexists. by rewrite ws_get_put.
  - split_and!.
    + by rewrite ws_get_put_ne.
    + unfold attempts_of at 1. by rewrite ws_get_put.
    + split; [|done]. intros (d & Hd & Hr). rewrite ws_get_put_ne in Hd by done. rewrite Hd in Hq. cbn in Hq. by rewrite Hr in Hq.
Qed.

(** The events of a walk that are due, judged before it starts. *)
Definition due_of (now : Z) (s : work_store event_value) (es : list (log_record event_value)) : list (log_record event_value) :=
  filter (λ e, verdict_of now s (lr_id e) = Due) es.

(** The requests made before the event at a place of the due list. *)
Definition asked (tr : list event_query) (es : list (log_record event_value)) : list event_query := rev (map query_of es) ++ tr.

Definition acked_in (s : work_store event_value) (e : log_record event_value) : bool := bool_decide (is_Some (ws_get (ack (lr_id e)) s)).

Record walk_exact (now : Z) (es : list (log_record event_value)) (st st' : walk_state) : Prop := WalkExact {
  we_trace : wk_trace st' = asked (wk_trace st) (due_of now (wk_store st) es);
  we_delivered : wk_delivered st' = wk_delivered st + count_if (acked_in (wk_store st')) (due_of now (wk_store st) es);
  we_due : ∀ pre e post, due_of now (wk_store st) es = pre ++ e :: post →
    outcome_of (h (asked (wk_trace st) pre) (query_of e)) (wk_store st) (wk_store st') (lr_id e);
  we_others : ∀ e, e ∈ es → verdict_of now (wk_store st) (lr_id e) ≠ Due → same_markers (wk_store st) (wk_store st') (lr_id e);
}.

Lemma outcome_same r s s1 s' id : outcome_of r s s1 id → same_markers s1 s' id → outcome_of r s s' id.
Proof.
  unfold outcome_of, attempts_of, quarantined. intros Ho (Ha & Hk & Hd). destruct r; [by rewrite Ha|]. by rewrite Ha, Hk, Hd.
Qed.

Lemma outcome_before r s0 s s' id : outcome_of r s s' id → same_markers s0 s id → outcome_of r s0 s' id.
Proof. unfold outcome_of, attempts_of. intros Ho (Ha & Hk & Hd). destruct r; [done|]. by rewrite Hk in Ho. Qed.

Lemma due_of_ext now s s' es : (∀ e, e ∈ es → same_markers s s' (lr_id e)) → due_of now s' es = due_of now s es.
Proof.
  unfold due_of. induction es as [|e es IH]; intros Hs; [done|]. rewrite !filter_cons, (verdict_same now s s') by (apply Hs; left).
  rewrite IH by (intros e' He'; apply Hs; by right). done.
Qed.

Lemma walk_is_exact now es st : NoDup (map lr_id es) → walk_exact now es st (walk now es st).
Proof.
  revert st. induction es as [|e es IH]; intros st Hnd.
  { split; [done|by rewrite Nat.add_0_r|by intros [] ? ? [=]|by intros e He%elem_of_nil]. }
  cbn [map] in Hnd. apply NoDup_cons in Hnd as [Hni Hnd]. set (st1 := walk_step now st e).
  change (walk now (e :: es) st) with (walk now es st1). destruct (IH st1 Hnd) as [Ht Hd Hdue Hoth].
  assert (Hsame : ∀ e', e' ∈ es → same_markers (wk_store st) (wk_store st1) (lr_id e')).
  { intros e' He'. apply step_markers. intros Heq. apply Hni. rewrite <- Heq. by apply list_elem_of_fmap_2. }
  assert (He1 : same_markers (wk_store st1) (wk_store (walk now es st1)) (lr_id e)) by by apply walk_markers.
  rewrite (due_of_ext now (wk_store st) (wk_store st1) es Hsame) in Ht, Hd, Hdue.
  assert (Hcons : due_of now (wk_store st) (e :: es) = if decide (verdict_of now (wk_store st) (lr_id e) = Due) then e :: due_of now (wk_store st) es else due_of now (wk_store st) es) by (unfold due_of; by rewrite filter_cons).
  assert (Hoth' : ∀ e', e' ∈ es → verdict_of now (wk_store st) (lr_id e') ≠ Due → same_markers (wk_store st) (wk_store (walk now es st1)) (lr_id e')).
  { intros e' He' Hv. eapply same_markers_trans; [by apply Hsame|]. apply Hoth; [done|]. by rewrite (verdict_same now (wk_store st)) by by apply Hsame. }
  destruct (decide (verdict_of now (wk_store st) (lr_id e) = Due)) as [Hv|Hv].
  - pose proof (due_outcome now st e Hv) as Hout. fold st1 in Hout.
    assert (Htr : wk_trace st1 = query_of e :: wk_trace st) by (unfold st1, walk_step; rewrite Hv; by destruct (h _ _)).
    assert (Hask : ∀ pre, asked (wk_trace st1) pre = asked (wk_trace st) (e :: pre)).
    { intros pre. unfold asked. rewrite Htr. cbn [map rev]. by rewrite <- app_assoc. }
    split.
    + rewrite Hcons, <- Hask. exact Ht.
    + rewrite Hd, Hcons, count_if_cons, Nat.add_assoc. f_equal.
      assert (Hack : acked_in (wk_store (walk now es st1)) e = match h (wk_trace st) (query_of e) with Ok _ => true | Err _ => false end).
      { unfold acked_in. rewrite (proj1 He1). destruct (h _ _); cbn [outcome_of] in Hout; [by rewrite bool_decide_eq_true_2|].
        rewrite (proj1 Hout). done. }
      rewrite Hack. unfold st1, walk_step. rewrite Hv. by destruct (h _ _); cbn [wk_delivered]; lia.
    + rewrite Hcons. intros [|e0 pre] e' post [= <- Hrest].
      * eapply outcome_same; [exact Hout|exact He1].
      * rewrite <- Hask. eapply outcome_before; [by eapply Hdue|]. apply Hsame.
        assert (Hin : e' ∈ due_of now (wk_store st) es) by (rewrite Hrest; apply elem_of_app; right; left). by apply list_elem_of_filter in Hin as [_ ?].
    + intros e' [->|He']%elem_of_cons Hv'; [done|by apply Hoth'].
  - assert (Hst : wk_store st1 = wk_store st ∧ wk_trace st1 = wk_trace st ∧ wk_delivered st1 = wk_delivered st) by (unfold st1, walk_step; by destruct (verdict_of _ _ _)).
    destruct Hst as (Hs1 & Ht1 & Hd1). rewrite Ht1 in Ht, Hdue. rewrite Hd1 in Hd. rewrite Hs1 in Hdue. split; [by rewrite Hcons|by rewrite Hcons|by rewrite Hcons|].
    intros e' [->|He']%elem_of_cons Hv'; [by rewrite <- Hs1|by apply Hoth'].
Qed.

Lemma walk_exact_same now es st st' s f :
  walk_exact now es st st' → same_bus (wk_store st') s → walk_exact now es st (WalkState s (wk_trace st') (wk_delivered st') f).
Proof.
  intros [Ht Hd Hdue Hoth] Hsb. assert (Hm : ∀ id, same_markers (wk_store st') s id) by (intros id; by apply same_bus_marker).
  split; cbn [wk_trace wk_delivered wk_store].
  - done.
  - rewrite Hd. f_equal. unfold count_if. f_equal. apply list_filter_iff. intros e. unfold acked_in. by rewrite (proj1 (Hm (lr_id e))).
  - intros pre e post Hp. eapply outcome_same; [by eapply Hdue|done].
  - intros e He Hv. eapply same_markers_trans; [by apply Hoth|done].
Qed.

(** C38: one failing event holds back no other.  A consumer polling alone hands every due event from its position on (from
    the start after a release) to the handler exactly once and in order, and no other: an event whose handler answers is
    acknowledged; one whose handler throws keeps no acknowledgement, counts one attempt more, and is
    quarantined exactly when that was its last; the markers of events that were delivered, quarantined or waiting do not
    change; and the answer counts the deliveries. *)
Theorem poll_exact fuel (w : world) :
  NoDup (map lr_id (poll_rest (work w))) → length (topic_log topic (work w)) < fuel →
  ∃ n w' fr, run h (poll has_cas text topic consumer maxAttempts retryDelay fuel) w = (Ok n, w') ∧
    walk_exact (wall w) (poll_rest (work w)) (WalkState (work w) (trace w) 0 false) (WalkState (work w') (trace w') n fr).
Proof.
  intros Hnd Hf. pose proof (poll_alone fuel w Hf) as (H1 & H2 & H3).
  pose proof (walk_is_exact (wall w) (poll_rest (work w)) (WalkState (work w) (trace w) 0 false) Hnd) as Hex.
  set (st := walk _ _ _) in *. destruct (run h (poll _ _ _ _ _ _ _) w) as [o w']. cbn [fst snd] in *. subst o.
  exists (wk_delivered st), w', false. split; [done|]. rewrite H2. by apply walk_exact_same.
Qed.
End Alone.

(** ** An execution in which an event is never delivered *)

Definition ok_handler : oracle event_query unit event_error := λ _ _, Ok tt.
Definition any_error (e : event_error) : string := "error".

Definition new_bus : world event_value event_query := World empty_journal 1 1 [] empty_work.

Definition publish (user : string) (w : world event_value event_query) (name : string) : world event_value event_query :=
  snd (run (R := unit) ok_handler (emit 10 None "mail" JNull (EmitOptions (Some name) None (Some user) None) "") w).

Definition poll_now (w : world event_value event_query) : outcome event_error nat * world event_value event_query :=
  run ok_handler (poll true any_error "mail" "sender" (Some 8%Z) (λ n, Some (defaultRetryDelay n)) 10) w.

Definition erase_user (user : string) (w : world event_value event_query) : world event_value event_query :=
  match erase_events None true (Owner None (Some user)) (work w) with
  | Ok (_, s) => World (jr w) (clock w) (wall w) (trace w) s
  | Err _ => w
  end.

Definition polled : world event_value event_query :=
  snd (poll_now (publish "bob" (fold_left (publish "alice") (map (λ i, dec (N.of_nat i)) (seq 0 50)) new_bus) "first")).
Definition after_erase : world event_value event_query := publish "bob" (erase_user "alice" polled) "second".

(** An event published after an erasure is never delivered.  Alice's fifty events and Bob's first are
    delivered and the consumer's cursor stands at 50; erasing Alice shortens the log to one entry and leaves
    the cursor; Bob's next event lies before the cursor: polling delivers nothing, it is no dead letter, and it
    cannot be released. *)
Theorem erasure_strands_new_events :
  map lr_id (topic_log "mail" (work after_erase)) = ["~o~:bob:first"; "~o~:bob:second"] ∧
  position_of "mail" "sender" (work after_erase) = 50 ∧
  fst (poll_now after_erase) = Ok 0 ∧
  ws_get (ackKey "mail" "sender" "~o~:bob:second") (work (snd (poll_now after_erase))) = None ∧
  fst (run ok_handler (listDeadEvents "mail" "sender" 10 None) (snd (poll_now after_erase))) = Ok [] ∧
  fst (run ok_handler (retryDeadEvent true "mail" "sender" "~o~:bob:second") (snd (poll_now after_erase))) = Ok false.
Proof. vm_compute. done. Qed.

(** ** Concrete instances *)

Definition three_events : world event_value event_query := fold_left (publish "alice") ["a"; "b"; "c"] new_bus.

(** The handler throws on the first event. *)
Definition one_fails : oracle event_query unit event_error :=
  λ _ q, match q with EDeliver id _ _ => if String.eqb id "~o~:alice:a" then Err (EHost JNull) else Ok tt end.

Lemma poll_exact_witness :
  ∃ n w', run one_fails (poll true any_error "mail" "sender" (Some 8%Z) (λ n, Some (defaultRetryDelay n)) 4) three_events = (Ok n, w') ∧
    attempts_of "mail" "sender" (work w') "~o~:alice:a" = 1%Z ∧ is_Some (ws_get (ackKey "mail" "sender" "~o~:alice:b") (work w')).
Proof.
  destruct (poll_exact one_fails true any_error "mail" "sender" (Some 8%Z) (λ n, Some (defaultRetryDelay n)) eq_refl 4 three_events)
    as (n & w' & fr & Hr & Hex).
  - apply (bool_decide_unpack _). vm_compute. exact I.
  - vm_compute. lia.
  - exists n, w'. split; [exact Hr|]. destruct Hex as [_ _ Hdue _].
    pose (ev := λ i, LogRecord ("~o~:alice:" +:+ i) (EPayload JNull) 1%Z).
    pose proof (Hdue [] (ev "a") [ev "b"; ev "c"]) as Ha. pose proof (Hdue [ev "a"] (ev "b") [ev "c"]) as Hb.
    split; [apply Ha|apply Hb]; vm_compute; reflexivity.
Defined.
