(* ===== verification/Cron.v ===== *)
(** * Cron: the five-field schedules

    Models [packages/scheduler/src/cron.ts]: [parseField] and [nextCronTime].  Times are
    integral epoch milliseconds in UTC; the fields of a [Date] are those of the proleptic
    Gregorian calendar.  Sets of allowed values are lists, tested by membership. *)

From S2P Require Import Prelude.

Local Open Scope Z_scope.

(** ** Strings and numbers of the language *)

Definition is_space (c : Ascii.ascii) : bool := let n := Ascii.nat_of_ascii c in (n =? 32)%nat || ((9 <=? n)%nat && (n <=? 13)%nat) || (n =? 160)%nat.

(** [s.split(c)], never empty. *)
Fixpoint split_on (c : Ascii.ascii) (s : string) : list string :=
  match s with
  | EmptyString => [EmptyString]
  | String d s' =>
      if Ascii.eqb c d then EmptyString :: split_on c s'
      else match split_on c s' with
           | part :: parts => String d part :: parts
           | [] => [String d EmptyString]
           end
  end.

(** The words of [s.trim().split(/\s+/)], for an [s] with a character that is no space. *)
Fixpoint words_of (s : string) : list string :=
  match s with
  | EmptyString => []
  | String c s' =>
      if is_space c then words_of s'
      else match s' with
           | EmptyString => [String c EmptyString]
           | String d _ => if is_space d then String c EmptyString :: words_of s'
                           else match words_of s' with w :: ws => String c w :: ws | [] => [String c EmptyString] end
           end
  end.

Definition digit_value (c : Ascii.ascii) : Z := Z.of_nat (Ascii.nat_of_ascii c) - 48.

(** The leading digits of a text, if any. *)
Fixpoint digits (acc : option Z) (s : string) : option Z :=
  match s with
  | String c s' => if is_digit c then digits (Some (default 0 acc * 10 + digit_value c)) s' else acc
  | EmptyString => acc
  end.

Fixpoint skip_spaces (s : string) : string :=
  match s with
  | String c s' => if is_space c then skip_spaces s' else s
  | EmptyString => EmptyString
  end.

(** The least magnitude that rounds to [Infinity]. *)
Definition OVERFLOW : Z := 2 ^ 1024 - 2 ^ 970.

(** [parseInt(s, 10)] when the result is finite; [None] is [NaN] or an infinity. *)
Definition parseInt (s : string) : option Z :=
  let n := match skip_spaces s with
           | String "-" s' => Z.opp <$> digits None s'
           | String "+" s' => digits None s'
           | s' => digits None s'
           end in
  match n with
  | Some v => if Z.abs v <? OVERFLOW then Some v else None
  | None => None
  end.

(** ** Calendar *)

Definition minutes_of (t : Z) : Z := (t / 60000) mod 60.
Definition hours_of (t : Z) : Z := (t / 3600000) mod 24.
Definition days_of (t : Z) : Z := t / 86400000.

(** Day 0 is Thursday, 1 January 1970. *)
Definition weekday_of (t : Z) : Z := (days_of t + 4) mod 7.

(** Years begin on 1 March for the count, so that a leap day ends its year. *)
Definition month_and_day (days : Z) : Z * Z :=
  let z := days + 719468 in
  let doe := z mod 146097 in
  let yoe := (doe - doe / 1460 + doe / 36524 - doe / 146096) / 365 in
  let doy := doe - (365 * yoe + yoe / 4 - yoe / 100) in
  let mp := (5 * doy + 2) / 153 in
  (if mp <? 10 then mp + 3 else mp - 9, doy - (153 * mp + 2) / 5 + 1).

Definition month_of (t : Z) : Z := fst (month_and_day (days_of t)).
Definition date_of (t : Z) : Z := snd (month_and_day (days_of t)).

(** ** Fields *)

Inductive cron_error :=
| InvalidStep (part : string)
| InvalidRange (part : string) (lo hi : Z)
| FiveFields (expr : string)
| NoMatch (expr : string).

(** [for (let v = lo; v <= hi; v += step)]: at most [hi - lo + 1] values, as [step] is positive. *)
Fixpoint steps_from (fuel : nat) (v hi step : Z) : list Z :=
  match fuel with
  | O => []
  | S fuel' => if v <=? hi then v :: steps_from fuel' (v + step) hi step else []
  end.

Definition values (lo hi step : Z) : list Z := steps_from (Z.to_nat (hi - lo + 1)) lo hi step.

Definition has_dash (s : string) : bool := has_char "-" s.

(** The bounds of a range; [None] is [NaN]. *)
Definition range_of (raw : string) (min max : Z) : option Z * option Z :=
  if String.eqb raw "*" || String.eqb raw "" then (Some min, Some max)
  else if has_dash raw then
    match split_on "-" raw with
    | a :: b :: _ => (parseInt a, parseInt b)
    | _ => (None, None)
    end
  else (parseInt raw, parseInt raw).

Definition range_raw (part : string) : string := default "" (head (split_on "/" part)).

Definition step_of (part : string) : option Z :=
  match split_on "/" part with _ :: stepRaw :: _ => parseInt stepRaw | _ => Some 1 end.

Definition parse_part (part : string) (min max : Z) : outcome cron_error (list Z) :=
  match step_of part with
  | Some step =>
      if step <? 1 then Err (InvalidStep part)
      else
        match range_of (range_raw part) min max with
        | (Some lo, Some hi) =>
            if (lo <? min) || (max <? hi) || (hi <? lo) then Err (InvalidRange part min max) else Ok (values lo hi step)
        | _ => Err (InvalidRange part min max)
        end
  | None => Err (InvalidStep part)
  end.

Fixpoint parse_parts (parts : list string) (min max : Z) : outcome cron_error (list Z) :=
  match parts with
  | [] => Ok []
  | part :: parts' =>
      match parse_part part min max with
      | Err e => Err e
      | Ok vs => match parse_parts parts' min max with Ok ws => Ok (vs ++ ws) | Err e => Err e end
      end
  end.

Definition parseField (field : string) (min max : Z) : outcome cron_error (list Z) := parse_parts (split_on "," field) min max.

(** ** The next match *)

Record cron := Cron {
  cr_min : list Z;
  cr_hour : list Z;
  cr_dom : list Z;
  cr_mon : list Z;
  cr_dow : list Z;
  cr_domRestricted : bool;
  cr_dowRestricted : bool;
}.

Definition has (vs : list Z) (v : Z) : bool := existsb (Z.eqb v) vs.

(** Both day fields restricted: either; otherwise both. *)
Definition day_ok (c : cron) (t : Z) : bool :=
  let domOk := has (cr_dom c) (date_of t) in
  let dowOk := has (cr_dow c) (weekday_of t) in
  if cr_domRestricted c && cr_dowRestricted c then domOk || dowOk else domOk && dowOk.

Definition matches (c : cron) (t : Z) : bool :=
  if negb (has (cr_min c) (minutes_of t)) then false
  else if negb (has (cr_hour c) (hours_of t)) then false
  else if negb (has (cr_mon c) (month_of t)) then false
  else day_ok c t.

Definition parse_cron (expr : string) : outcome cron_error cron :=
  match words_of expr with
  | [f0; f1; f2; f3; f4] =>
      match parseField f0 0 59, parseField f1 0 23, parseField f2 1 31, parseField f3 1 12, parseField f4 0 6 with
      | Ok a, Ok b, Ok c, Ok d, Ok e => Ok (Cron a b c d e (negb (String.eqb f2 "*")) (negb (String.eqb f4 "*")))
      | Err e, _, _, _, _ | Ok _, Err e, _, _, _ | Ok _, Ok _, Err e, _, _ | Ok _, Ok _, Ok _, Err e, _ | Ok _, Ok _, Ok _, Ok _, Err e => Err e
      end
  | _ => Err (FiveFields expr)
  end.

Definition MINUTE : Z := 60000.
Definition LIMIT : nat := Z.to_nat (366 * 24 * 60).

Fixpoint scan (fuel : nat) (c : cron) (t : Z) : option Z :=
  match fuel with
  | O => None
  | S fuel' => if matches c t then Some t else scan fuel' c (t + MINUTE)
  end.

(** [Math.ceil((after + 1) / 60000) * 60000]. *)
Definition next_minute (after : Z) : Z := (after / MINUTE + 1) * MINUTE.

Definition nextCronTime (expr : string) (after : Z) : outcome cron_error Z :=
  match parse_cron expr with
  | Err e => Err e
  | Ok c => match scan LIMIT c (next_minute after) with Some t => Ok t | None => Err (NoMatch expr) end
  end.

(** ** Fields denote the sets they describe *)

Lemma steps_from_in fuel v hi step x :
  1 <= step → Z.of_nat fuel >= hi - v + 1 →
  x ∈ steps_from fuel v hi step ↔ v <= x <= hi ∧ (x - v) mod step = 0.
Proof.
  intros Hstep; revert v; induction fuel as [|fuel IH]; intros v Hfuel; cbn [steps_from].
  - split; [by intros ?%not_elem_of_nil|intros [? _]; lia].
  - destruct (Z.leb_spec v hi) as [Hle|Hgt]; [|split; [by intros ?%not_elem_of_nil|intros [? _]; lia]].
    rewrite elem_of_cons, IH by lia.
    replace (x - (v + step)) with (x - v + (-1) * step) by lia. rewrite Z_mod_plus_full.
    split.
    + intros [->|[? ?]]; [rewrite Z.sub_diag, Zmod_0_l|]; lia.
    + intros [Hx Hmod]. destruct (decide (x = v)) as [|Hne]; [by left|right].
      split; [|done]. apply Z_div_exact_full_2 in Hmod; [|lia]. assert (0 < (x - v) / step) by nia. nia.
Qed.

Lemma values_in lo hi step x : 1 <= step → x ∈ values lo hi step ↔ lo <= x <= hi ∧ (x - lo) mod step = 0.
Proof. intros Hs. unfold values. apply steps_from_in; lia. Qed.

(** A part stands for the walk [lo], [lo + step], ... up to [hi], inside the bounds. *)
Definition part_denotes (part : string) (min max lo hi step : Z) : Prop :=
  range_of (range_raw part) min max = (Some lo, Some hi) ∧ step_of part = Some step ∧
  1 <= step ∧ min <= lo ∧ lo <= hi ∧ hi <= max.

Lemma parse_part_spec part min max :
  match parse_part part min max with
  | Ok vs => ∃ lo hi step, part_denotes part min max lo hi step ∧ ∀ x, x ∈ vs ↔ lo <= x <= hi ∧ (x - lo) mod step = 0
  | Err e => (e = InvalidStep part ∨ e = InvalidRange part min max) ∧ ∀ lo hi step, ¬ part_denotes part min max lo hi step
  end.
Proof.
  unfold parse_part, part_denotes. destruct (step_of part) as [step|]; [|by split; [left|intros ???(? & ? & ?)]].
  destruct (Z.ltb_spec step 1); [split; [by left|intros ???(_ & [= <-] & ?); lia]|].
  destruct (range_of (range_raw part) min max) as [[lo|] [hi|]];
    try (split; [by right|by intros ???(? & _)]).
  destruct (Z.ltb_spec lo min), (Z.ltb_spec max hi), (Z.ltb_spec hi lo); cbn [orb];
    try (split; [by right|intros ???([= <- <-] & _ & ?); lia]).
  exists lo, hi, step. split; [split_and!; [done|done|lia..]|]. intros x. apply values_in; lia.
Qed.

(** A field is the union of its parts, or the error of its first bad one. *)
Lemma parse_parts_spec parts min max :
  match parse_parts parts min max with
  | Ok vs => (∀ p, p ∈ parts → ∃ lo hi step, part_denotes p min max lo hi step) ∧
             ∀ x, x ∈ vs ↔ ∃ p lo hi step, p ∈ parts ∧ part_denotes p min max lo hi step ∧ lo <= x <= hi ∧ (x - lo) mod step = 0
  | Err e => ∃ p, p ∈ parts ∧ (e = InvalidStep p ∨ e = InvalidRange p min max) ∧ ∀ lo hi step, ¬ part_denotes p min max lo hi step
  end.
Proof.
  induction parts as [|p parts IH]; cbn [parse_parts].
  - split; [by intros p ?%not_elem_of_nil|]. intros x. split; [by intros ?%not_elem_of_nil|].
    by intros (p & ? & ? & ? & ?%not_elem_of_nil & _).
  - pose proof (parse_part_spec p min max) as Hp. destruct (parse_part p min max) as [vs|e].
    + destruct Hp as (lo & hi & step & Hden & Hvs). destruct (parse_parts parts min max) as [ws|e].
      * destruct IH as [Hall Hws]. split.
        { intros q [->|Hq]%elem_of_cons; eauto. }
        intros x. rewrite elem_of_app, Hvs, Hws. split.
        -- intros [Hx|(q & lo' & hi' & step' & Hq & Hd & Hx)].
           ++ exists p, lo, hi, step. split; [left|done].
           ++ exists q, lo', hi', step'. split; [by right|done].
        -- intros (q & lo' & hi' & step' & [->|Hq]%elem_of_cons & Hd & Hx); [left|right; by exists q, lo', hi', step'].
           destruct Hd as (Hr & Hs & _), Hden as (Hr' & Hs' & _). congruence.
      * destruct IH as (q & Hq & He). exists q. split; [by right|done].
    + exists p. split; [left|done].
Qed.

(** ** The scan *)

Lemma scan_spec fuel c t :
  match scan fuel c t with
  | Some u => ∃ k, (k < fuel)%nat ∧ u = t + Z.of_nat k * MINUTE ∧ matches c u = true ∧
                ∀ i, (i < k)%nat → matches c (t + Z.of_nat i * MINUTE) = false
  | None => ∀ i, (i < fuel)%nat → matches c (t + Z.of_nat i * MINUTE) = false
  end.
Proof.
  revert t. induction fuel as [|fuel IH]; intros t; cbn [scan]; [lia|].
  destruct (matches c t) eqn:Hm.
  - exists 0%nat. split_and!; [lia|lia|done|lia].
  - specialize (IH (t + MINUTE)). destruct (scan fuel c (t + MINUTE)) as [u|].
    + destruct IH as (k & Hk & -> & Hmk & Hno). exists (S k). split_and!; [lia|lia|done|].
      intros [|i] Hi; [by replace (t + Z.of_nat 0 * MINUTE) with t by lia|].
      replace (t + Z.of_nat (S i) * MINUTE) with (t + MINUTE + Z.of_nat i * MINUTE) by lia. apply Hno. lia.
    + intros [|i] Hi; [by replace (t + Z.of_nat 0 * MINUTE) with t by lia|].
      replace (t + Z.of_nat (S i) * MINUTE) with (t + MINUTE + Z.of_nat i * MINUTE) by lia. apply IH. lia.
Qed.

(** The minutes after [after]. *)
Lemma minute_after after u :
  after < u → u mod MINUTE = 0 → ∃ i, u = next_minute after + Z.of_nat i * MINUTE.
Proof.
  intros Hlt Hmod. exists (Z.to_nat ((u - next_minute after) / MINUTE)).
  unfold next_minute, MINUTE in *. pose proof (Z.div_mod after 60000). pose proof (Z.mod_pos_bound after 60000).
  apply Z_div_exact_full_2 in Hmod; [|lia].
  assert (after / 60000 < u / 60000) by (apply Z.div_lt_upper_bound; lia).
  replace (u - (after / 60000 + 1) * 60000) with ((u / 60000 - after / 60000 - 1) * 60000) by lia.
  rewrite Z.div_mul, Z2Nat.id by lia. lia.
Qed.

Lemma next_minute_bounds after : after < next_minute after <= after + MINUTE ∧ next_minute after mod MINUTE = 0.
Proof.
  unfold next_minute, MINUTE. pose proof (Z.div_mod after 60000). pose proof (Z.mod_pos_bound after 60000).
  split; [lia|]. apply Z_mod_mult.
Qed.

(** The last minute of the scan. *)
Definition horizon (after : Z) : Z := next_minute after + (Z.of_nat LIMIT - 1) * MINUTE.

Lemma nextCronTime_cases expr after c :
  parse_cron expr = Ok c →
  match nextCronTime expr after with
  | Ok t => after < t <= horizon after ∧ t mod MINUTE = 0 ∧ matches c t = true ∧
            ∀ u, after < u < t → u mod MINUTE = 0 → matches c u = false
  | Err e => e = NoMatch expr ∧ ∀ u, after < u <= horizon after → u mod MINUTE = 0 → matches c u = false
  end.
Proof.
  intros Hp. unfold nextCronTime, horizon. rewrite Hp. pose proof (scan_spec LIMIT c (next_minute after)) as Hs.
  pose proof (next_minute_bounds after) as [[Hb1 Hb2] Hal].
  destruct (scan LIMIT c (next_minute after)) as [t|].
  - destruct Hs as (k & Hk & -> & Hm & Hno). split_and!; [unfold MINUTE; lia|unfold MINUTE; lia| |done|].
    + by rewrite Z_mod_plus_full.
    + intros u [Hu1 Hu2] Hmod. destruct (minute_after after u Hu1 Hmod) as [i ->]. apply Hno. unfold MINUTE in *. lia.
  - split; [done|]. intros u [Hu1 Hu2] Hmod. destruct (minute_after after u Hu1 Hmod) as [i ->]. apply Hs. unfold MINUTE in *. lia.
Qed.

(** [nextCronTime] returns the first minute after the given time that the five fields
    match, within the 366 days it looks at, and fails exactly when there is none; an expression
    that does not parse fails with its own error, whatever the time. *)
Theorem nextCronTime_first (expr : string) (after : Z) :
  match parse_cron expr with
  | Ok c =>
      match nextCronTime expr after with
      | Ok t => after < t <= horizon after ∧ t mod MINUTE = 0 ∧ matches c t = true ∧
                ∀ u, after < u < t → u mod MINUTE = 0 → matches c u = false
      | Err e => e = NoMatch expr ∧ ∀ u, after < u <= horizon after → u mod MINUTE = 0 → matches c u = false
      end
  | Err e => nextCronTime expr after = Err e
  end.
Proof.
  destruct (parse_cron expr) as [c|e] eqn:Hp; [by apply nextCronTime_cases|]. unfold nextCronTime. by rewrite Hp.
Qed.

(** A field of a schedule is the union of its comma-separated parts: a value is allowed
    exactly when some part [a-b/n] walks over it; a field with a part whose step is not positive
    or whose range leaves the bounds is refused with that part's error. *)
Theorem parseField_union (field : string) (min max : Z) :
  match parseField field min max with
  | Ok vs => (∀ x, has vs x = true ↔ ∃ p lo hi step, p ∈ split_on "," field ∧ part_denotes p min max lo hi step ∧
                                       lo <= x <= hi ∧ (x - lo) mod step = 0)
             ∧ ∀ x, has vs x = true → min <= x <= max
  | Err e => ∃ p, p ∈ split_on "," field ∧ (e = InvalidStep p ∨ e = InvalidRange p min max) ∧
                  ∀ lo hi step, ¬ part_denotes p min max lo hi step
  end.
Proof.
  unfold parseField. pose proof (parse_parts_spec (split_on "," field) min max) as Hs.
  destruct (parse_parts (split_on "," field) min max) as [vs|e]; [|done]. destruct Hs as [_ Hs].
  assert (Hh : ∀ x, has vs x = true ↔ x ∈ vs).
  { intros x. unfold has. rewrite existsb_exists. setoid_rewrite Z.eqb_eq. split.
    - intros (y & Hy & ->). by apply list_elem_of_In.
    - intros Hx. exists x. by rewrite <- list_elem_of_In. }
  split; intros x; rewrite Hh, Hs; [done|].
  intros (p & lo & hi & step & _ & (_ & _ & _ & ? & ? & ?) & ? & _). lia.
Qed.

(** Every five minutes on working hours of weekdays, from Friday 27 February 2026, 17:56. *)
Example weekday_slot : nextCronTime "*/5 9-17 * * 1-5" 1772214960000 = Ok 1772442000000.
Proof. vm_compute. reflexivity. Qed.

Example bad_step : parseField "0/0" 0 59 = Err (InvalidStep "0/0").
Proof. reflexivity. Qed.

Example leap_day : (month_and_day 19782, month_and_day 19783, month_and_day (-1)) = ((2, 29), (3, 1), (12, 31)).
Proof. reflexivity. Qed.
