(* ===== verification/Scheduler.v ===== *)
(** * Scheduler: durable triggers

    Models [packages/scheduler/src/index.ts] and [root-journal.ts]: [scheduleWorkflow] and the
    repair of a lost state, [pollScheduler], [listTriggers], [moveTrigger] and [triggerEraser].
    A trigger is an immutable definition and a state, both in the root journal.

    Times and intervals are integers; a time may also be [NaN] ([None]), which an interval of 0
    produces.  The workflow runner and the budget guard are host requests; while one is pending the
    heartbeat's interval may fire ([STick]), and the renewal ends before the next event is seen.
    [createScheduler], a timer around [pollScheduler], and console warnings are not modelled. *)

From S2P Require Import Prelude JsMap Keys Journal Work Org OwnedName Prog Claim Locks Json Hash Format RunIdentity ToolTypes Cron.

(** ** Triggers *)

Inductive misfire_policy := Skip | Catchup.

(** [kind] and [value]; a cron trigger without an expression has the value [undefined]. *)
Inductive trigger_kind :=
| TAt (at_ : Z)
| TEvery (interval : Z)
| TCron (expr : option string).

Record trigger_def := TriggerDef {
  td_name : string;
  td_input : js;
  td_kind : trigger_kind;
  td_maxAttempts : Z;
  td_misfire : misfire_policy;
  td_resourceId : option string;
  td_orgId : option string;
  td_staff : bool;                            (** [ownerKind: 'staff'] *)
}.

Inductive trigger_status := TPending | TDone | TFailed.

Record trigger_state := TriggerState {
  ts_nextRunAt : option Z;                    (** [None] is [NaN] *)
  ts_attempts : Z;
  ts_fireCount : N;
  ts_status : trigger_status;
  ts_movedTo : option string;
}.

#[global] Instance misfire_eq_dec : EqDecision misfire_policy.
Proof. solve_decision. Defined.

#[global] Instance trigger_kind_eq_dec : EqDecision trigger_kind.
Proof. solve_decision. Defined.

#[global] Instance trigger_status_eq_dec : EqDecision trigger_status.
Proof. solve_decision. Defined.

#[global] Instance trigger_def_eq_dec : EqDecision trigger_def.
Proof. solve_decision. Defined.

#[global] Instance trigger_state_eq_dec : EqDecision trigger_state.
Proof. solve_decision. Defined.

(** What the root journal holds: the scheduler's records, locks, and the records of runs. *)
Inductive sched_value :=
| VDef (d : trigger_def)
| VState (s : trigger_state)
| VNote (error : string) (at_ : Z)
| VBusy (error : string) (at_ : Z) (runId : string) (deferrals : Z)
| VSLock (l : lock_record)
| VRun (v : js).

#[global] Instance sched_value_eq_dec : EqDecision sched_value.
Proof. solve_decision. Defined.

#[global] Instance sched_value_js : JsValue sched_value := {|
  js_eq_dec := sched_value_eq_dec;
  str_field v f := match v with VRun x => js_str (prop x f) | _ => None end;
  is_versioned v := match v with VRun (JObj l) => mhas "_v" l | _ => false end;
  ser_length _ := 0;
|}.

#[global] Instance sched_lock_embed : Embed lock_record sched_value :=
  {| inj := VSLock; prj v := match v with VSLock l => Some l | _ => None end; prj_inj _ := eq_refl |}.

Definition as_def (v : option sched_value) : option trigger_def := match v with Some (VDef d) => Some d | _ => None end.
Definition as_state (v : option sched_value) : option trigger_state := match v with Some (VState s) => Some s | _ => None end.

Definition DEF (id : string) : string := "sched:def:" +:+ id.
Definition STATE (id : string) : string := "sched:state:" +:+ id.
Definition FAIL (id : string) : string := "sched:fail:" +:+ id.
Definition BUDGET_SKIP (id : string) : string := "sched:budget-skip:" +:+ id.
Definition BUSY_SKIP (id : string) : string := "sched:busy-skip:" +:+ id.
Definition run_of (id : string) (n : N) : string := "sched:" +:+ id +:+ ":" +:+ dec n.
Definition FIRE_LOCK (runId : string) : string := runId +:+ ":fire".

(** ** Specifications and errors *)

Record schedule_spec := ScheduleSpec {
  ss_id : option string;
  ss_name : string;
  ss_input : js;
  ss_at : option Z;
  ss_every : option Z;
  ss_cron : option string;
  ss_maxAttempts : option Z;
  ss_resourceId : option string;
  ss_caller : option caller;
  ss_orgId : option string;
  ss_misfire : option misfire_policy;
}.

Inductive sched_error :=
| SNotRoot (fn org : string)
| SSubjectView (fn : string)
| STwoOwners
| SInvalidResource
| SNoSchedule
| SNoListKeys
| SNoRunner (id : string) (org : string)
| STypeError
| SCron (e : cron_error)
| SOrg (e : org_error)
| SName (e : name_error)
| SIdentity (e : identity_error)
| SMoveOwned (id : string)
| SMoveNoOwner
| SMoveRaced (id : string)
| SNoDelete
| SHost (e : js)                              (** thrown by the runner or the guard *)
| SFuel.

(** [isRunBusyAtAcquisition]. *)
Definition isRunBusyAtAcquisition (e : sched_error) : bool :=
  match e with
  | SHost v => bool_decide (prop v "name" = JStr "RunBusyError") && bool_decide (prop v "atLockAcquisition" = JBool true)
  | _ => false
  end.

(** [callerOfTrigger]. *)
Definition callerOfTrigger (d : trigger_def) : outcome identity_error caller :=
  match truthy (td_resourceId d) with
  | Some r => user r (td_orgId d)
  | None => Ok (if td_staff d then staff (td_orgId d) else UNKNOWN)
  end.

(** [triggerOwnerOf]: the resource, the organization and whether staff. *)
Definition triggerOwnerOf (c : option caller) (resourceId orgId : option string)
    : outcome sched_error (option string * option string * bool) :=
  let cOrg := c ≫= org_of in
  let cRes := c ≫= userIdOf in
  let differs a b := bool_decide (is_Some a) && negb (bool_decide (a = b)) in
  if bool_decide (is_Some c) && (differs resourceId cRes || (bool_decide (is_Some cOrg) && differs orgId cOrg))
  then Err STwoOwners
  else Ok (match cRes with Some r => Some r | None => resourceId end,
           match cOrg with Some g => Some g | None => orgId end,
           match c with Some (Staff _) => true | _ => false end).

(** [assertRootJournal]: the organization the journal is scoped to, and whether it is a subject's view. *)
Record journal_scope := JournalScope { jsc_org : option string; jsc_subjectView : bool }.

Definition root_journal : journal_scope := JournalScope None false.

Definition assertRootJournal (j : journal_scope) (fn : string) : outcome sched_error unit :=
  match jsc_org j with
  | Some org => Err (SNotRoot fn org)
  | None => if jsc_subjectView j then Err (SSubjectView fn) else Ok tt
  end.

(** ** Times *)

Definition firstRunAt (spec : schedule_spec) (now : Z) : outcome sched_error (option Z) :=
  match ss_at spec, ss_every spec, ss_cron spec with
  | Some a, _, _ => Ok (Some a)
  | None, Some i, _ => Ok (Some (now + i)%Z)
  | None, None, Some c => match nextCronTime c now with Ok t => Ok (Some t) | Err e => Err (SCron e) end
  | None, None, None => Err SNoSchedule
  end.

(** [nextCronTime(expr, from)] on a time that may be [NaN], which no minute follows. *)
Definition cron_after (expr : string) (from : option Z) : outcome sched_error (option Z) :=
  match from with
  | Some t => match nextCronTime expr t with Ok u => Ok (Some u) | Err e => Err (SCron e) end
  | None => match parse_cron expr with Ok _ => Err (SCron (NoMatch expr)) | Err e => Err (SCron e) end
  end.

Definition computeNext (d : trigger_def) (prevSlot : option Z) (now : Z) : outcome sched_error (option Z) :=
  match td_kind d with
  | TEvery interval =>
      match prevSlot with
      | None => Ok None
      | Some p =>
          match td_misfire d with
          | Catchup => Ok (Some (p + interval)%Z)
          | Skip => if (interval =? 0)%Z then Ok None
                    else let missed := ((now - p) / interval)%Z in Ok (Some (p + interval * (missed + 1))%Z)
          end
      end
  | TCron (Some expr) => cron_after expr (match td_misfire d with Catchup => prevSlot | Skip => Some now end)
  | TCron None | TAt _ => Err STypeError
  end.

Definition backoff (attempts : Z) : Z := Z.min (1000 * 2 ^ (attempts - 1)) 60000.

(** [status === 'pending' && !(now < nextRunAt)]. *)
Definition pending (s : trigger_state) : bool := match ts_status s with TPending => true | _ => false end.
Definition due (now : Z) (s : trigger_state) : bool :=
  pending s && match ts_nextRunAt s with Some t => (t <=? now)%Z | None => true end.

(** [/^(\d+)(?::|$)/] on what follows the trigger's prefix. *)
Fixpoint split_digits (s : string) : string * string :=
  match s with
  | String c s' => if is_digit c then let '(a, b) := split_digits s' in (String c a, b) else (EmptyString, s)
  | EmptyString => (EmptyString, EmptyString)
  end.

Definition fire_number (rest : string) : option N :=
  let '(ds, after) := split_digits rest in
  if String.eqb ds "" then None
  else if String.eqb after "" || starts_with ":" after then undec ds else None.

(** The first number above all those seen under the prefix. *)
Definition highest_fire (prefix : string) (keys : list string) : N :=
  fold_left (λ m k, match strip_prefix prefix k ≫= fire_number with Some n => N.max m (n + 1) | None => m end) keys 0%N.

(** ** Host requests *)

Inductive sched_query :=
| SBudget (triggerId workflowName : string) (input : js) (now : Z) (orgId resourceId : option string)
| SRun (target : option string) (name : string) (input : js) (runId : string) (who : caller)
| SMore.

Inductive sched_event :=
| SAllowed
| SEnded (suspended : bool)
| STick.

Section Scheduler.
Variable caps : journal_caps.
Variable scope : journal_scope.
Variable text : sched_error → string.
Abbreviation prog := (prog sched_value sched_query sched_event sched_error).

Definition lift_outcome {E A} (f : E → sched_error) (o : outcome E A) : prog A :=
  match o with Ok a => mret a | Err e => Throw (f e) end.

Definition checked {A} (o : outcome sched_error A) : prog A := lift_outcome (λ e, e) o.

Definition listKeys (prefix : string) : prog (list string) := request (RListKeys prefix None).

(** ** Scheduling *)

Definition fireCountAfterLoss (id : string) : prog N :=
  if has_listKeys caps then
    let prefix := "sched:" +:+ id +:+ ":" in
    o ← pcatch (listKeys prefix);
    mret (match o with Ok keys => highest_fire prefix keys | Err _ => 0%N end)
  else mret 0%N.

Definition check_spec (org res : option string) : outcome sched_error unit :=
  match (match org with Some g => orgPrefix g | None => Ok "" end) with
  | Err e => Err (SOrg e)
  | Ok _ => if bool_decide (res = Some "") then Err SInvalidResource else Ok tt
  end.

Definition def_of (spec : schedule_spec) (res org : option string) (isStaff : bool) : trigger_def :=
  let kind := match ss_at spec, ss_every spec with
              | Some a, _ => TAt a
              | None, Some i => TEvery i
              | None, None => TCron (ss_cron spec)
              end in
  TriggerDef (ss_name spec) (ss_input spec) kind (default 5%Z (ss_maxAttempts spec)) (default Skip (ss_misfire spec)) res org isStaff.

Definition scheduleWorkflow (spec : schedule_spec) (now : Z) : prog string :=
  _ ← checked (assertRootJournal scope "scheduleWorkflow");
  '(res, org, isStaff) ← checked (triggerOwnerOf (ss_caller spec) (ss_resourceId spec) (ss_orgId spec));
  _ ← checked (check_spec org res);
  tid ← lift_outcome SName (ownedName (default (ss_name spec) (ss_id spec)) (Owner org res));
  d ← jget (DEF tid);
  match d with
  | Some _ =>
      s ← jget (STATE tid);
      match s with
      | Some _ => mret tid
      | None =>
          first ← checked (firstRunAt spec now);
          n ← fireCountAfterLoss tid;
          _ ← jput (STATE tid) (VState (TriggerState first 0 n TPending None));
          mret tid
      end
  | None =>
      _ ← jput (DEF tid) (VDef (def_of spec res org isStaff));
      first ← checked (firstRunAt spec now);
      _ ← jput (STATE tid) (VState (TriggerState first 0 0 TPending None));
      mret tid
  end.

(** ** Polling *)

Record poll_result := PollResult { pr_fired : nat; pr_rescheduled : nat; pr_failed : nat; pr_skipped : nat }.

Inductive verdict := Fired | Rescheduled | GaveUp | Skipped | Discarded.

Definition tally (v : verdict) (out : poll_result) : poll_result :=
  let 'PollResult a b c d := out in
  match v with
  | Fired => PollResult (S a) b c d
  | Rescheduled => PollResult a (S b) c d
  | GaveUp => PollResult a b (S c) d
  | Skipped => PollResult a b c (S d)
  | Discarded => out
  end.

Record poll_options := PollOptions {
  po_owner : string;
  po_retryMs : Z;
  po_budgetGuard : bool;                       (** a guard is given *)
  po_lockTtlMs : Z;
  po_runnerForOrg : string → outcome sched_error bool;   (** is there a runner for the organization? *)
}.

Variable opts : poll_options.

(** A host request, with the heartbeat beside it. *)
Fixpoint with_heartbeat (fuel : nat) (q : sched_query) (l : run_lock) : prog sched_event :=
  match fuel with
  | 0 => Throw SFuel
  | S fuel' =>
      a ← request (RExt q);
      match a with
      | STick => _ ← pcatch (lock_renew caps l (po_lockTtlMs opts)); with_heartbeat fuel' SMore l
      | _ => mret a
      end
  end.

(** [commit]: every write of a state is a compare-and-set against the state read at the start. *)
Definition commit (id : string) (state next : trigger_state) : prog bool :=
  if has_putIfMatch caps then jputIfMatch (STATE id) (VState state) (VState next)
  else _ ← jput (STATE id) (VState next); mret true.

Definition later (state : trigger_state) (t : Z) : trigger_state :=
  TriggerState (Some t) (ts_attempts state) (ts_fireCount state) (ts_status state) (ts_movedTo state).

Definition on_budget (id : string) (state : trigger_state) (now : Z) (e : sched_error) : prog verdict :=
  ok ← commit id state (later state (now + po_retryMs opts));
  if ok : bool then _ ← jput (BUDGET_SKIP id) (VNote (text e) now); mret Skipped else mret Discarded.

(** The [catch] around the run. *)
Definition on_fire_error (id runId : string) (d : trigger_def) (state : trigger_state) (now : Z) (e : sched_error) : prog verdict :=
  if isRunBusyAtAcquisition e then
    ok ← commit id state (later state (now + po_retryMs opts));
    if ok : bool then
      prev ← jget (BUSY_SKIP id);
      let n := match prev with Some (VBusy _ _ _ n) => n | _ => 0%Z end in
      _ ← jput (BUSY_SKIP id) (VBusy (text e) now runId (n + 1)); mret Skipped
    else mret Discarded
  else
    let attempts := (ts_attempts state + 1)%Z in
    if (td_maxAttempts d <=? attempts)%Z then
      ok ← commit id state (TriggerState (ts_nextRunAt state) attempts (ts_fireCount state) TFailed (ts_movedTo state));
      if ok : bool then _ ← jput (FAIL id) (VNote (text e) now); mret GaveUp else mret Discarded
    else
      ok ← commit id state (TriggerState (Some (now + backoff attempts)%Z) attempts (ts_fireCount state) (ts_status state) (ts_movedTo state));
      mret (if ok : bool then Rescheduled else Discarded).

(** What follows a run that did not throw. *)
Definition on_result (id : string) (d : trigger_def) (state : trigger_state) (now : Z) (suspended : bool) : prog verdict :=
  if suspended then
    ok ← commit id state (later state (now + po_retryMs opts));
    mret (if ok : bool then Rescheduled else Discarded)
  else
    match td_kind d with
    | TAt _ =>
        ok ← commit id state (TriggerState (ts_nextRunAt state) (ts_attempts state) (ts_fireCount state) TDone (ts_movedTo state));
        mret (if ok : bool then Fired else Discarded)
    | _ =>
        next ← checked (computeNext d (ts_nextRunAt state) now);
        ok ← commit id state (TriggerState next 0 (ts_fireCount state + 1) TPending None);
        mret (if ok : bool then Fired else Discarded)
    end.

(** The runner is chosen, and the caller decided, inside the [try]. *)
Definition run_target (fuel : nat) (id runId : string) (d : trigger_def) (l : run_lock) : prog bool :=
  target ← match td_orgId d with
           | None => mret true
           | Some g => checked (po_runnerForOrg opts g)
           end;
  if target : bool then
    c ← lift_outcome SIdentity (callerOfTrigger d);
    a ← with_heartbeat fuel (SRun (td_orgId d) (td_name d) (td_input d) runId c) l;
    mret (match a with SEnded b => b | _ => false end)
  else Throw (SNoRunner id (default "" (td_orgId d))).

Definition fire (fuel : nat) (id : string) (d : trigger_def) (state : trigger_state) (now : Z) (l : run_lock) : prog verdict :=
  let runId := run_of id (ts_fireCount state) in
  g ← (if po_budgetGuard opts
       then pcatch (with_heartbeat fuel (SBudget id (td_name d) (td_input d) now (td_orgId d) (td_resourceId d)) l)
       else mret (Ok SAllowed));
  match g with
  | Err e => on_budget id state now e
  | Ok _ =>
      r ← pcatch (run_target fuel id runId d l);
      match r with
      | Err e => on_fire_error id runId d state now e
      | Ok suspended => on_result id d state now suspended
      end
  end.

(** One trigger of the loop. *)
Definition poll_trigger (fuel : nat) (token id : string) (now : Z) : prog verdict :=
  dv ← jget (DEF id);
  sv ← jget (STATE id);
  match as_def dv, as_state sv with
  | Some d, Some state =>
      if due now state then
        lock ← acquireRunLock caps (FIRE_LOCK (run_of id (ts_fireCount state))) (po_owner opts) (po_lockTtlMs opts) token (Some now);
        match lock with
        | None => mret Skipped
        | Some l => pfinally (fire fuel id d state now l) (lock_release caps l)
        end
      else mret Discarded
  | _, _ => mret Discarded
  end.

Fixpoint poll_all (fuel : nat) (token : string → string) (keys : list string) (now : Z) (out : poll_result) : prog poll_result :=
  match keys with
  | [] => mret out
  | k :: keys' =>
      let id := default k (strip_prefix "sched:def:" k) in
      v ← poll_trigger fuel (token id) id now;
      poll_all fuel token keys' now (tally v out)
  end.

Definition pollScheduler (fuel : nat) (token : string → string) (now : Z) : prog poll_result :=
  _ ← checked (assertRootJournal scope "pollScheduler");
  if has_listKeys caps then
    keys ← listKeys "sched:def:";
    poll_all fuel token keys now (PollResult 0 0 0 0)
  else Throw SNoListKeys.

(** ** Listing *)

Record trigger_info := TriggerInfo {
  ti_id : string;
  ti_def : trigger_def;
  ti_state : trigger_state;
  ti_lastError : option (string * Z);
  ti_deferrals : option (Z * Z);                (** the total, and the time of the last *)
}.

Definition trigger_info_of (id : string) : prog (option trigger_info) :=
  dv ← jget (DEF id);
  sv ← jget (STATE id);
  match as_def dv, as_state sv with
  | Some d, Some state =>
      fail ← match ts_status state with
             | TFailed => f ← jget (FAIL id); mret (match f with Some (VNote e t) => Some (e, t) | _ => None end)
             | _ => mret None
             end;
      busy ← jget (BUSY_SKIP id);
      mret (Some (TriggerInfo id d state fail
                    (match busy with Some (VBusy _ t _ n) => if (n =? 0)%Z then None else Some (n, t) | _ => None end)))
  | _, _ => mret None
  end.

Fixpoint trigger_infos (keys : list string) : prog (list trigger_info) :=
  match keys with
  | [] => mret []
  | k :: keys' =>
      i ← trigger_info_of (default k (strip_prefix "sched:def:" k));
      rest ← trigger_infos keys';
      mret (match i with Some x => x :: rest | None => rest end)
  end.

(** [a.id.localeCompare(b.id) <= 0], the order of the platform's locale. *)
Variable locale_le : string → string → bool.

Fixpoint insert_info (x : trigger_info) (l : list trigger_info) : list trigger_info :=
  match l with
  | [] => [x]
  | y :: l' => if locale_le (ti_id x) (ti_id y) then x :: l else y :: insert_info x l'
  end.

Definition sort_infos (l : list trigger_info) : list trigger_info := foldr insert_info [] l.

Definition listTriggers : prog (list trigger_info) :=
  _ ← checked (assertRootJournal scope "listTriggers");
  if has_listKeys caps then
    keys ← listKeys "sched:def:";
    out ← trigger_infos keys;
    mret (sort_infos out)
  else Throw SNoListKeys.

(** ** Upgrades *)

Definition no_owner (res org : option string) : bool := negb (bool_decide (is_Some res)) && negb (bool_decide (is_Some org)).

Definition moveTrigger (fromId : string) (c : option caller) (resourceId orgId : option string) : prog (option string) :=
  _ ← checked (assertRootJournal scope "moveTrigger");
  let from := fst (ownerOfName fromId) in
  _ ← (if no_owner (ow_resourceId from) (ow_orgId from) then mret tt else Throw (SMoveOwned fromId));
  '(res, org, isStaff) ← checked (triggerOwnerOf c resourceId orgId);
  _ ← (if no_owner res org then Throw SMoveNoOwner else mret tt);
  _ ← lift_outcome SOrg (match org with Some g => orgPrefix g | None => Ok "" end);
  dv ← jget (DEF fromId);
  sv ← jget (STATE fromId);
  match as_def dv, as_state sv with
  | Some d, Some state =>
      toId ← lift_outcome SName (ownedName fromId (Owner org res));
      cur ← jget (DEF toId);
      _ ← match cur with
          | Some _ => mret tt
          | None =>
              _ ← jput (DEF toId) (VDef (TriggerDef (td_name d) (td_input d) (td_kind d) (td_maxAttempts d) (td_misfire d) res org isStaff));
              jput (STATE toId) (VState (TriggerState (ts_nextRunAt state) (ts_attempts state) (ts_fireCount state) (ts_status state) None))
          end;
      _ ← (if pending state then
             let retired := TriggerState (ts_nextRunAt state) (ts_attempts state) (ts_fireCount state) TDone (Some toId) in
             if has_putIfMatch caps then
               ok ← jputIfMatch (STATE fromId) (VState state) (VState retired);
               if ok : bool then mret tt else Throw (SMoveRaced fromId)
             else jput (STATE fromId) (VState retired)
           else mret tt);
      mret (Some toId)
  | _, _ => mret None
  end.
End Scheduler.

(** ** Erasure *)

Definition trigger_families : list string :=
  ["sched:def:"; "sched:state:"; "sched:fail:"; "sched:budget-skip:"; "sched:busy-skip:"; "sched:"].

Definition erase_family (prefix : string) (acc : nat * mem_journal sched_value) (fam : string) : nat * mem_journal sched_value :=
  let '(n, j) := acc in
  let '(k, j') := mj_deletePrefix (fam +:+ prefix) j in (n + k, j').

(** [triggerEraser(journal).erase(owner)]; [deletes] is the journal's optional [deletePrefix]. *)
Definition erase_triggers (scope : journal_scope) (deletes : bool) (o : owner) (j : mem_journal sched_value)
    : outcome sched_error (nat * mem_journal sched_value) :=
  match assertRootJournal scope "triggerEraser" with
  | Err e => Err e
  | Ok _ =>
      if negb deletes then Err SNoDelete
      else match ownedPrefix o with
           | Err e => Err (SName e)
           | Ok prefix => Ok (fold_left (erase_family prefix) trigger_families (0, j))
           end
  end.
