(* ===== verification/SchedulerSafety.v ===== *)
(** * SchedulerSafety: the lifecycle of a trigger

    The abstract machine of a trigger's state ([trigger_step]), and the proof that every
    interleaving of polls, schedules, listings and moves, with failing requests and crashes,
    takes the recorded state only along its steps. *)

From S2P Require Import Prelude JsMap Keys Journal Work Org OwnedName Prog Claim Locks Json Hash Format RunIdentity ToolTypes Cron Scheduler.

(** ** The abstract machine *)

(** From a pending, due state: put off, counted as a failure and tried later, given up at the
    limit, done when it runs once, or moved to its next slot; or moved to an owner. *)
Inductive trigger_step (d : trigger_def) : trigger_state → trigger_state → Prop :=
| step_later s now t : due now s = true → trigger_step d s (later s t)
| step_retry s now : due now s = true → (ts_attempts s + 1 < td_maxAttempts d)%Z →
    trigger_step d s (TriggerState (Some (now + backoff (ts_attempts s + 1))%Z) (ts_attempts s + 1) (ts_fireCount s) TPending (ts_movedTo s))
| step_give_up s now : due now s = true → (td_maxAttempts d ≤ ts_attempts s + 1)%Z →
    trigger_step d s (TriggerState (ts_nextRunAt s) (ts_attempts s + 1) (ts_fireCount s) TFailed (ts_movedTo s))
| step_done s now at_ : due now s = true → td_kind d = TAt at_ →
    trigger_step d s (TriggerState (ts_nextRunAt s) (ts_attempts s) (ts_fireCount s) TDone (ts_movedTo s))
| step_next s now t : due now s = true → computeNext d (ts_nextRunAt s) now = Ok t →
    trigger_step d s (TriggerState t 0 (ts_fireCount s + 1) TPending None)
| step_move s toId : pending s = true →
    trigger_step d s (TriggerState (ts_nextRunAt s) (ts_attempts s) (ts_fireCount s) TDone (Some toId)).

Lemma due_pending now s : due now s = true → ts_status s = TPending.
Proof. unfold due, pending. by destruct (ts_status s). Qed.

Lemma step_pending d s s' : trigger_step d s s' → ts_status s = TPending.
Proof. destruct 1 as [| | | | |s to Hp]; try by eapply due_pending. unfold pending in Hp. by destruct (ts_status s). Qed.

Lemma step_fires d s s' : trigger_step d s s' → (ts_fireCount s ≤ ts_fireCount s' ≤ ts_fireCount s + 1)%N.
Proof. destruct 1; cbn; lia. Qed.

(** A trigger that is done or given up stays so. *)
Lemma steps_terminal d s s' : rtc (trigger_step d) s s' → ts_status s ≠ TPending → s' = s.
Proof. intros Hs. induction Hs as [|s s1 s' Hst]; [done|]. intros Ht. by apply step_pending in Hst. Qed.

Lemma steps_fires d s s' : rtc (trigger_step d) s s' → (ts_fireCount s ≤ ts_fireCount s')%N.
Proof. intros Hs. induction Hs as [|s s1 s' Hst Hs IH]; [lia|]. apply step_fires in Hst. lia. Qed.

(** ** Keys of triggers *)

Lemma ends_with_cons x c s : ends_with x (String c s) = String.eqb (String c s) x || ends_with x s.
Proof.
  unfold ends_with. rewrite (strip_suffix_unfold x (String c s)). destruct (String.eqb (String c s) x); [done|]. cbn [orb].
  apply bool_decide_ext. by rewrite fmap_is_Some.
Qed.

Lemma ends_DEF id : ends_with "fire:lock" (DEF id) = ends_with "fire:lock" id.
Proof. unfold DEF. cbn [String.append]. rewrite !ends_with_cons. reflexivity. Qed.

Lemma ends_STATE id : ends_with "fire:lock" (STATE id) = ends_with "fire:lock" id.
Proof. unfold STATE. cbn [String.append]. rewrite !ends_with_cons. reflexivity. Qed.

Lemma ends_lock runId : ends_with "fire:lock" (lockKey (FIRE_LOCK runId)) = true.
Proof. apply ends_with_spec. exists (runId +:+ ":"). unfold lockKey, FIRE_LOCK. by rewrite !str_app_assoc. Qed.

Section Lifecycle.
Variable tid : string.
Variable d : trigger_def.
Variable s0 : trigger_state.
Hypothesis Htid : ends_with "fire:lock" tid = false.

Abbreviation prog := (prog sched_value sched_query sched_event sched_error).
Abbreviation req := (req sched_value sched_query).
Abbreviation answer r := (outcome sched_error (ans (R := sched_event) r)).

(** A key of the trigger under study. *)
Definition trigger_key (k : string) : Prop := k = DEF tid ∨ k = STATE tid.

Lemma lock_not_own runId : ¬ trigger_key (lockKey (FIRE_LOCK runId)).
Proof using Htid.
  pose proof (ends_lock runId) as Hl. intros [H|H]; rewrite H in Hl; [rewrite ends_DEF in Hl|rewrite ends_STATE in Hl]; congruence.
Qed.

Lemma DEF_inj a b : DEF a = DEF b → a = b.
Proof. apply str_app_inj_l. Qed.

Lemma STATE_inj a b : STATE a = STATE b → a = b.
Proof. apply str_app_inj_l. Qed.

(** ** What a program has read *)

Definition reading : Type := string * option sched_value.

Definition true_reading (r : reading) : Prop :=
  (fst r = DEF tid → snd r = Some (VDef d)) ∧ (fst r = STATE tid → ∃ s, snd r = Some (VState s)).

Definition entails (g : list reading) (P : Prop) : Prop := Forall true_reading g → P.

Definition life_allowed (g : list reading) (r : req) : Prop :=
  match r with
  | RPut k _ => entails g (¬ trigger_key k)
  | RPutIfMatch k e v =>
      entails g (k ≠ DEF tid ∧ (k = STATE tid → ∃ s s', e = VState s ∧ v = VState s' ∧ trigger_step d s s'))
  | RIncrBy _ _ => False
  | _ => True
  end.

Definition life_next (g : list reading) (r : req) : answer r → list reading :=
  match r return answer r → list reading with
  | RGet k => λ o, match o with Ok v => (k, v) :: g | Err _ => g end
  | _ => λ _, g
  end.

Definition state_ok (j : mem_journal sched_value) : Prop :=
  mj_get (DEF tid) j = Some (VDef d) ∧ ∃ s, mj_get (STATE tid) j = Some (VState s) ∧ rtc (trigger_step d) s0 s.

Definition life_inv (w : world sched_value sched_query) (gs : list (list reading)) : Prop :=
  state_ok (jr w) ∧ Forall (Forall true_reading) gs.

Lemma state_ok_get j k : state_ok j → true_reading (k, mj_get k j).
Proof. intros (Hd & s & Hs & _). split; cbn; intros ->; [done|by exists s]. Qed.

Lemma DEF_not_STATE : DEF tid ≠ STATE tid.
Proof. done. Qed.

Lemma state_ok_perform (h : oracle sched_query sched_event sched_error) w g r :
  state_ok (jr w) → Forall true_reading g → life_allowed g r → state_ok (jr (snd (perform h r w))).
Proof.
  intros Hok Hg Hal. destruct Hok as (Hd & s & Hs & Hr). destruct r; cbn [perform snd jr set_jr set_work]; try (split; eauto; fail).
  - apply Hal in Hg. split.
    + rewrite mj_get_put_ne; [done|]. intros <-. apply Hg. by left.
    + exists s. rewrite mj_get_put_ne; [done|]. intros <-. apply Hg. by right.
  - rewrite mj_putIfAbsent_spec. destruct (mj_get k (jr w)) eqn:Hk; cbn [snd]; [split; eauto|].
    assert (k ≠ DEF tid ∧ k ≠ STATE tid) as [] by (split; intros ->; congruence). split; [|exists s; split; [|done]].
    all: unfold mj_get in *; cbn [store]; by rewrite mget_mset_ne by congruence.
  - apply Hal in Hg as [Hk1 Hk2]. rewrite mj_putIfMatch_spec.
    destruct (bool_decide (mj_get k (jr w) = Some expected)) eqn:Hb; cbn [snd]; [|split; eauto].
    apply bool_decide_eq_true in Hb. split; [unfold mj_get in *; cbn [store]; by rewrite mget_mset_ne by congruence|].
    destruct (decide (k = STATE tid)) as [->|Hne].
    + destruct (Hk2 eq_refl) as (s1 & s' & -> & -> & Hst). exists s'. split; [unfold mj_get; cbn [store]; by rewrite mget_mset|].
      rewrite Hs in Hb. injection Hb as ->. by eapply rtc_r.
    + exists s. split; [|done]. unfold mj_get in *. cbn [store]. by rewrite mget_mset_ne by congruence.
Qed.

Lemma life_next_err g r (e : sched_error) : life_next g r (Err e) = g.
Proof. by destruct r. Qed.

Lemma life_inv_perform h w gs i g r :
  gs !! i = Some g → life_allowed g r → life_inv w gs →
  life_inv (snd (perform h r w)) (<[i := life_next g r (fst (perform h r w))]> gs).
Proof.
  intros Hi Hal [Hok Hgs]. assert (Hg : Forall true_reading g) by (by eapply Forall_lookup_1 in Hgs).
  split; [by eapply state_ok_perform|]. apply Forall_insert; [done|]. destruct r; try exact Hg.
  constructor; [by apply state_ok_get|done].
Qed.

Lemma life_inv_fail (h : oracle sched_query sched_event sched_error) w gs i g r (e : sched_error) :
  gs !! i = Some g → life_allowed g r → life_inv w gs →
  life_inv w (<[i := life_next g r (Err e)]> gs) ∧ life_inv (snd (perform h r w)) (<[i := life_next g r (Err e)]> gs).
Proof.
  intros Hi Hal [Hok Hgs]. assert (Hg : Forall true_reading g) by (by eapply Forall_lookup_1 in Hgs).
  rewrite life_next_err. split; (split; [|by apply Forall_insert]); [done|by eapply state_ok_perform].
Qed.

Lemma life_inv_time w gs c x : (clock w ≤ c)%Z → life_inv w gs → life_inv (World (jr w) c x (trace w) (work w)) gs.
Proof. by intros _. Qed.

(** ** Programs whose readings only accumulate *)

Definition knows (g g' : list reading) : Prop := g ⊆ g'.

Lemma knows_refl g : knows g g.
Proof. by intros x. Qed.
#[local] Hint Resolve knows_refl : core.

Lemma knows_next g r (o : answer r) : knows g (life_next g r o).
Proof. destruct r; try apply knows_refl. destruct o; [by apply list_subseteq_cons|apply knows_refl]. Qed.

Lemma entails_knows g g' P : knows g g' → entails g P → entails g' P.
Proof. intros Hk HP Hg. apply HP. rewrite Forall_forall in *. auto. Qed.

Definition Safe {A} (g : list reading) (p : prog A) : Prop := safe life_allowed life_next (λ g' _, knows g g') g p.

Lemma Safe_ret {A} g (a : A) : Safe g (Ret a).
Proof. apply knows_refl. Qed.

Lemma Safe_throw {A} g e : Safe g (Throw (A := A) e).
Proof. apply knows_refl. Qed.

Lemma Safe_weaken {A} g g' (p : prog A) : knows g g' → Safe g' p → safe life_allowed life_next (λ g' _, knows g g') g' p.
Proof. intros Hk. apply safe_mono. intros g1 _ H1. by transitivity g'. Qed.

Lemma Safe_bind {A B} g (p : prog A) (f : A → prog B) :
  Safe g p → (∀ g' a, knows g g' → Safe g' (f a)) → Safe g (pbind f p).
Proof.
  intros Hp Hf. eapply safe_bind; [exact Hp| |by intros].
  intros g' a Hk. by apply Safe_weaken, Hf.
Qed.

Lemma Safe_try {A} g (p : prog A) (c : sched_error → prog A) :
  Safe g p → (∀ g' e, knows g g' → Safe g' (c e)) → Safe g (ptry c p).
Proof.
  intros Hp Hc. eapply safe_try; [exact Hp|by intros|]. intros g' e Hk. by apply Safe_weaken, Hc.
Qed.

Lemma Safe_catch {A} g (p : prog A) : Safe g p → Safe g (pcatch p).
Proof.
  intros Hp. apply Safe_try; [|by intros; apply Safe_ret]. apply Safe_bind; [done|]. by intros; apply Safe_ret.
Qed.

Lemma Safe_finally {A} g (p : prog A) (f : prog unit) :
  Safe g p → (∀ g', knows g g' → Safe g' f) → Safe g (pfinally p f).
Proof.
  intros Hp Hf. apply Safe_bind; [by apply Safe_catch|]. intros g' o Hk. apply Safe_bind; [by apply Hf|].
  intros g2 [] _. destruct o; [apply Safe_ret|apply Safe_throw].
Qed.

Lemma Safe_request g r : life_allowed g r → Safe g (request r).
Proof. intros Ha. split; [done|]. intros [a|e]; apply knows_next. Qed.

(** A read, whose answer is remembered. *)
Lemma Safe_get {A} g k (f : option sched_value → prog A) :
  (∀ g' v, knows g g' → (k, v) ∈ g' → Safe g' (f v)) → Safe g (pbind f (jget k)).
Proof.
  intros Hf. split; [done|]. intros [v|e]; [|apply knows_next].
  apply Safe_weaken; [apply knows_next|]. apply Hf; [apply knows_next|left].
Qed.

Lemma Safe_put g k v : (entails g (¬ trigger_key k)) → Safe g (jput k v).
Proof. exact (Safe_request g (RPut k v)). Qed.

Lemma Safe_put_other g k v : ¬ trigger_key k → Safe g (jput k v).
Proof. intros Hk. apply Safe_put. by intros _. Qed.

Lemma Safe_cas_other g k e v : ¬ trigger_key k → Safe g (jputIfMatch k e v).
Proof.
  intros Hk. apply (Safe_request g (RPutIfMatch k e v)). intros _.
  split; [intros ->|intros ->; exfalso]; apply Hk; unfold trigger_key; auto.
Qed.

(** The steps of a program that writes no key of the trigger. *)
Ltac life :=
  unfold mbind, prog_bind, mret, prog_ret;
  repeat first
    [ apply Safe_ret | apply Safe_throw
    | apply Safe_get; intros ? ? ? ?
    | apply Safe_put_other; by auto | apply Safe_cas_other; by auto
    | apply Safe_catch
    | apply Safe_bind; [|intros ? ? ?]
    | apply (Safe_request _ (RPutIfAbsent _ _)); exact I
    | apply (Safe_request _ RNow); exact I
    | apply (Safe_request _ RDateNow); exact I
    | apply (Safe_request _ (RExt _)); exact I
    | apply (Safe_request _ (RListKeys _ _)); exact I
    | case_match ].

Lemma claim_safe caps g k v : ¬ trigger_key k → Safe g (claim caps k v).
Proof. intros Hk. unfold claim. life. Qed.

(** The same, with what the returned value satisfies. *)
Definition SafeV {A} (P : A → Prop) (g : list reading) (p : prog A) : Prop :=
  safe life_allowed life_next (λ g' o, knows g g' ∧ match o with Ok a => P a | Err _ => True end) g p.

Lemma SafeV_ret {A} (P : A → Prop) g a : P a → SafeV P g (Ret a).
Proof. by split. Qed.

Lemma SafeV_bind {A B} (P : B → Prop) g (p : prog A) (f : A → prog B) :
  Safe g p → (∀ g' a, knows g g' → SafeV P g' (f a)) → SafeV P g (pbind f p).
Proof.
  intros Hp Hf. eapply safe_bind; [exact Hp| |by intros]. intros g' a Hk. eapply safe_mono; [|by apply Hf].
  intros g2 o [H2 Ho]. split; [by transitivity g'|done].
Qed.

Lemma SafeV_use {A B} (P : A → Prop) g (p : prog A) (f : A → prog B) :
  SafeV P g p → (∀ g' a, knows g g' → P a → Safe g' (f a)) → Safe g (pbind f p).
Proof.
  intros Hp Hf. eapply safe_bind; [exact Hp| |by intros ?? []]. intros g' a [Hk Ha]. by apply Safe_weaken, Hf.
Qed.

Lemma get_safe g k : Safe g (jget k).
Proof. apply (Safe_request g (RGet k)). exact I. Qed.

Lemma life_acquire_safe caps g run owner ttl token now :
  SafeV (λ o, ∀ l, o = Some l → l = RunLock (FIRE_LOCK run) owner token) g
    (acquireRunLock caps (FIRE_LOCK run) owner ttl token (Some now)).
Proof using Htid.
  pose proof (lock_not_own run) as Hk. unfold acquireRunLock. unfold mbind, prog_bind, mret, prog_ret. cbn [pbind].
  assert (Hret : ∀ (b : bool) g', SafeV (λ o, ∀ l, o = Some l → l = RunLock (FIRE_LOCK run) owner token) g'
    (Ret (if b then Some (RunLock (FIRE_LOCK run) owner token) else None))).
  { intros b g'. apply SafeV_ret. destruct b; [by intros l [= <-]|done]. }
  apply SafeV_bind; [by apply claim_safe|]. intros g1 [] _; [apply (Hret true)|].
  apply SafeV_bind; [apply get_safe|]. intros g2 [c|] _.
  - case_match; [apply (Hret false)|]. case_match; (apply SafeV_bind; [life|]); intros; [apply Hret|apply (Hret true)].
  - apply SafeV_bind; [by apply claim_safe|]. intros; apply Hret.
Qed.

Lemma life_renew_safe caps g run owner token ttl : Safe g (lock_renew caps (RunLock (FIRE_LOCK run) owner token) ttl).
Proof using Htid. pose proof (lock_not_own run) as Hk. unfold lock_renew. cbn [rl_runId]. unfold jnow. life. Qed.

Lemma release_attempts_safe caps g run owner token n : Safe g (release_attempts caps (RunLock (FIRE_LOCK run) owner token) n).
Proof using Htid.
  pose proof (lock_not_own run) as Hk. revert g. induction n as [|n IH]; intros g; [apply Safe_ret|].
  cbn [release_attempts rl_runId]. life. apply IH.
Qed.

Lemma life_release_safe caps g run owner token : Safe g (lock_release caps (RunLock (FIRE_LOCK run) owner token)).
Proof using Htid. apply Safe_try; [apply release_attempts_safe|]. intros. apply Safe_ret. Qed.

(** ** The programs of the scheduler *)

Section Programs.
Variable caps : journal_caps.
Variable scope : journal_scope.
Variable text : sched_error → string.
Variable opts : poll_options.
Hypothesis Hcas : has_putIfMatch caps = true.

Lemma life_lift_safe {E A} (f : E → sched_error) g (o : outcome E A) : Safe g (lift_outcome f o).
Proof. destruct o; [apply Safe_ret|apply Safe_throw]. Qed.

Lemma checked_safe {A} g (o : outcome sched_error A) : Safe g (checked o).
Proof. apply life_lift_safe. Qed.

Lemma heartbeat_safe fuel g q run owner token : Safe g (with_heartbeat caps opts fuel q (RunLock (FIRE_LOCK run) owner token)).
Proof using Htid.
  revert g q. induction fuel as [|fuel IH]; intros g q; [apply Safe_throw|]. cbn [with_heartbeat].
  apply Safe_bind; [by apply Safe_request|]. intros g1 a _. destruct a; try apply Safe_ret.
  apply Safe_bind; [apply Safe_catch, life_renew_safe|]. intros; apply IH.
Qed.

(** A reading of the trigger's definition is the definition. *)
Lemma read_def g id v d' : (DEF id, v) ∈ g → as_def v = Some d' → entails g (id = tid → d' = d).
Proof.
  intros Hin Hd Hg ->. rewrite Forall_forall in Hg. destruct (Hg _ Hin) as [Ht _]. cbn in Ht. rewrite (Ht eq_refl) in Hd. by injection Hd.
Qed.

(** The state is committed along a step of the machine. *)
Lemma commit_safe g id s s' :
  entails g (id = tid → trigger_step d s s') → Safe g (commit caps id s s').
Proof using Hcas.
  intros He. unfold commit. rewrite Hcas. apply (Safe_request g (RPutIfMatch _ _ _)). intros Hg. split; [done|].
  intros Hid%STATE_inj. exists s, s'. split_and!; [done..|]. by apply He.
Qed.

Lemma note_not_own fam id : fam ∈ ["sched:fail:"; "sched:budget-skip:"; "sched:busy-skip:"] → ¬ trigger_key (fam +:+ id).
Proof. rewrite !elem_of_cons, elem_of_nil. by intros [->|[->|[->|[]]]] [?|?]. Qed.

Lemma note_safe g fam id v : fam ∈ ["sched:fail:"; "sched:budget-skip:"; "sched:busy-skip:"] → Safe g (jput (fam +:+ id) v).
Proof. intros Hf. apply Safe_put_other. by apply note_not_own. Qed.

Section Fire.
Variables (id : string) (d' : trigger_def) (s : trigger_state) (now : Z).
Hypothesis Hdue : due now s = true.

Lemma later_step t : trigger_step d' s (later s t).
Proof using Hdue. by apply (step_later d' s now t). Qed.

Lemma on_budget_safe g e : entails g (id = tid → d' = d) → Safe g (on_budget caps text opts id s now e).
Proof using Hdue Hcas.
  intros Hd. unfold on_budget. apply Safe_bind.
  - apply commit_safe. intros Hg Hid. rewrite <- (Hd Hg Hid). apply later_step.
  - intros g1 [] _; [|apply Safe_ret]. apply Safe_bind; [apply note_safe; right; left|]. intros; apply Safe_ret.
Qed.

Lemma on_fire_error_safe g runId e : entails g (id = tid → d' = d) → Safe g (on_fire_error caps text opts id runId d' s now e).
Proof using Hdue Hcas.
  intros Hd. pose proof (due_pending _ _ Hdue) as Hp. unfold on_fire_error. case_match.
  - apply Safe_bind; [apply commit_safe; intros Hg Hid; rewrite <- (Hd Hg Hid); apply later_step|].
    intros g1 [] _; [|apply Safe_ret]. apply Safe_get. intros g2 v _ _. apply Safe_bind; [apply note_safe; right; right; left|].
    intros; apply Safe_ret.
  - case_match eqn:Hmax.
    + apply Safe_bind.
      * apply commit_safe. intros Hg Hid. rewrite <- (Hd Hg Hid). apply (step_give_up d' s now); [done|by apply Z.leb_le].
      * intros g1 [] _; [|apply Safe_ret]. apply Safe_bind; [apply note_safe; left|]. intros; apply Safe_ret.
    + apply Safe_bind; [|intros; apply Safe_ret]. apply commit_safe. intros Hg Hid. rewrite <- (Hd Hg Hid), Hp.
      apply (step_retry d' s now); [done|by apply Z.leb_gt].
Qed.

Lemma on_result_safe g suspended : entails g (id = tid → d' = d) → Safe g (on_result caps opts id d' s now suspended).
Proof using Hdue Hcas.
  intros Hd. unfold on_result. destruct suspended.
  - apply Safe_bind; [|intros; apply Safe_ret]. apply commit_safe. intros Hg Hid. rewrite <- (Hd Hg Hid). apply later_step.
  - assert (Hnext : Safe g (next ← checked (computeNext d' (ts_nextRunAt s) now);
        ok ← commit caps id s (TriggerState next 0 (ts_fireCount s + 1) TPending None); mret (if ok : bool then Fired else Discarded))).
    { destruct (computeNext d' (ts_nextRunAt s) now) as [t|e] eqn:Hc; [|apply Safe_throw].
      apply (Safe_bind g (commit caps id s _)); [|intros; apply Safe_ret]. apply commit_safe. intros Hg Hid. rewrite <- (Hd Hg Hid).
      by apply (step_next d' s now). }
    destruct (td_kind d') as [a|i|c] eqn:Hk; [|exact Hnext..].
    apply Safe_bind; [|intros; apply Safe_ret]. apply commit_safe. intros Hg Hid. rewrite <- (Hd Hg Hid). by apply (step_done d' s now a).
Qed.

Lemma run_target_safe g fuel run owner token : Safe g (run_target caps opts fuel id run d' (RunLock (FIRE_LOCK run) owner token)).
Proof using Htid.
  unfold run_target. apply Safe_bind; [case_match; [apply checked_safe|apply Safe_ret]|]. intros g1 [] _; [|apply Safe_throw].
  apply Safe_bind; [apply life_lift_safe|]. intros g2 c _. apply Safe_bind; [apply heartbeat_safe|]. intros; apply Safe_ret.
Qed.

Lemma fire_safe g fuel owner token :
  entails g (id = tid → d' = d) → Safe g (fire caps text opts fuel id d' s now (RunLock (FIRE_LOCK (run_of id (ts_fireCount s))) owner token)).
Proof using Hdue Hcas Htid.
  intros Hd. unfold fire. apply Safe_bind; [case_match; [apply Safe_catch, heartbeat_safe|apply Safe_ret]|].
  intros g1 [a|e] H1; [|by eapply on_budget_safe, entails_knows]. apply Safe_bind; [apply Safe_catch, run_target_safe|].
  intros g2 [b|e] H2; [eapply on_result_safe|eapply on_fire_error_safe]; (eapply entails_knows; [|exact Hd]); by transitivity g1.
Qed.
End Fire.

Lemma poll_trigger_safe g fuel token id now : Safe g (poll_trigger caps text opts fuel token id now).
Proof using Hcas Htid.
  unfold poll_trigger. apply Safe_get. intros g1 dv _ Hdv. apply Safe_get. intros g2 sv H2 _.
  destruct (as_def dv) as [d'|] eqn:Hd; [|apply Safe_ret]. destruct (as_state sv) as [s|]; [|apply Safe_ret].
  destruct (due now s) eqn:Hdue; [|apply Safe_ret]. eapply SafeV_use; [apply life_acquire_safe|].
  intros g3 lock H3 Hl. destruct lock as [l|]; [|apply Safe_ret]. rewrite (Hl l eq_refl).
  apply Safe_finally; [|intros; apply life_release_safe]. apply fire_safe; [done|].
  eapply entails_knows; [exact H3|]. apply (read_def g2 id dv); [by apply H2|done].
Qed.

Lemma poll_all_safe g fuel token keys now out : Safe g (poll_all caps text opts fuel token keys now out).
Proof using Hcas Htid.
  revert g out. induction keys as [|k keys IH]; intros g out; [apply Safe_ret|]. cbn [poll_all].
  apply Safe_bind; [apply poll_trigger_safe|]. intros; apply IH.
Qed.

Lemma life_poll_safe g fuel token now : Safe g (pollScheduler caps scope text opts fuel token now).
Proof using Hcas Htid.
  unfold pollScheduler. apply Safe_bind; [apply checked_safe|]. intros g1 _ _. case_match; [|apply Safe_throw].
  apply Safe_bind; [by apply Safe_request|]. intros; apply poll_all_safe.
Qed.

(** A trigger read as absent is another one. *)
Lemma absent_def g id : (DEF id, None) ∈ g → entails g (id ≠ tid).
Proof. intros Hin Hg ->. rewrite Forall_forall in Hg. destruct (Hg _ Hin) as [Ht _]. by specialize (Ht eq_refl). Qed.

Lemma absent_state g id : (STATE id, None) ∈ g → entails g (id ≠ tid).
Proof. intros Hin Hg ->. rewrite Forall_forall in Hg. destruct (Hg _ Hin) as [_ Ht]. by destruct (Ht eq_refl). Qed.

Lemma put_trigger_safe g id k v : k = DEF id ∨ k = STATE id → entails g (id ≠ tid) → Safe g (jput k v).
Proof. intros Hk He. apply Safe_put. intros Hg. specialize (He Hg). destruct Hk as [-> | ->]; intros [H|H]; try done; [by apply DEF_inj in H|by apply STATE_inj in H]. Qed.

Lemma fire_count_safe g id : Safe g (fireCountAfterLoss caps id).
Proof.
  unfold fireCountAfterLoss. case_match; [|apply Safe_ret]. apply Safe_bind; [by apply Safe_catch, Safe_request|].
  intros; apply Safe_ret.
Qed.

Lemma schedule_safe g spec now : Safe g (scheduleWorkflow caps scope spec now).
Proof.
  unfold scheduleWorkflow. apply Safe_bind; [apply checked_safe|]. intros g1 _ _.
  apply Safe_bind; [apply checked_safe|]. intros g2 [[res org] st] _. apply Safe_bind; [apply checked_safe|]. intros g3 _ _.
  apply Safe_bind; [apply life_lift_safe|]. intros g4 id _. apply Safe_get. intros g5 [v|] _ Hdv.
  - apply Safe_get. intros g6 [v'|] _ Hsv; [apply Safe_ret|]. apply Safe_bind; [apply checked_safe|]. intros g7 t H7.
    apply Safe_bind; [apply fire_count_safe|]. intros g8 n H8. apply Safe_bind; [|intros; apply Safe_ret].
    apply (put_trigger_safe _ id); [by right|]. apply absent_state. by apply H8, H7.
  - apply Safe_bind; [apply (put_trigger_safe _ id); [by left|by apply absent_def]|]. intros g6 _ H6.
    apply Safe_bind; [apply checked_safe|]. intros g7 t H7. apply Safe_bind; [|intros; apply Safe_ret].
    apply (put_trigger_safe _ id); [by right|]. apply absent_def. by apply H7, H6.
Qed.

Lemma infos_safe g keys : Safe g (trigger_infos keys).
Proof.
  revert g. induction keys as [|k keys IH]; intros g; [apply Safe_ret|]. cbn [trigger_infos]. apply Safe_bind.
  - unfold trigger_info_of. life.
  - intros g1 i _. apply Safe_bind; [apply IH|]. intros; apply Safe_ret.
Qed.

Lemma list_safe g le : Safe g (listTriggers caps scope le).
Proof.
  unfold listTriggers. apply Safe_bind; [apply checked_safe|]. intros g1 _ _. case_match; [|apply Safe_throw].
  apply Safe_bind; [by apply Safe_request|]. intros g2 keys _. apply Safe_bind; [apply infos_safe|]. intros; apply Safe_ret.
Qed.

Lemma move_safe g fromId c res org : Safe g (moveTrigger caps scope fromId c res org).
Proof using Hcas.
  unfold moveTrigger. apply Safe_bind; [apply checked_safe|]. intros g1 _ _.
  apply Safe_bind; [destruct (no_owner _ _); [apply Safe_ret|apply Safe_throw]|]. intros g2 _ _.
  apply Safe_bind; [apply checked_safe|]. intros g3 [[r o] st] _.
  apply Safe_bind; [destruct (no_owner _ _); [apply Safe_throw|apply Safe_ret]|]. intros g4 _ _. apply Safe_bind; [apply life_lift_safe|]. intros g5 _ _.
  apply Safe_get. intros g6 dv _ _. apply Safe_get. intros g7 sv _ _.
  destruct (as_def dv) as [d'|]; [|apply Safe_ret]. destruct (as_state sv) as [s|]; [|apply Safe_ret].
  apply Safe_bind; [apply life_lift_safe|]. intros g8 toId _. apply Safe_get. intros g9 cur _ Hcur. apply Safe_bind.
  - destruct cur as [v|]; [apply Safe_ret|]. apply Safe_bind.
    + apply (put_trigger_safe _ toId); [by left|by apply absent_def].
    + intros g10 _ H10. apply (put_trigger_safe _ toId); [by right|]. apply absent_def. by apply H10.
  - intros g10 _ _. apply Safe_bind; [|intros; apply Safe_ret]. destruct (pending s) eqn:Hp; [|apply Safe_ret]. rewrite Hcas.
    apply Safe_bind; [|intros g11 [] _; [apply Safe_ret|apply Safe_throw]]. apply (Safe_request _ (RPutIfMatch _ _ _)). intros _.
    split; [done|]. intros Hid%STATE_inj. exists s. eexists. split_and!; [done..|]. by apply step_move.
Qed.
End Programs.
End Lifecycle.

(** ** Every call of the scheduler *)

Inductive sched_call :=
| CallPoll (opts : poll_options) (fuel : nat) (token : string → string) (now : Z)
| CallSchedule (spec : schedule_spec) (now : Z)
| CallList
| CallMove (fromId : string) (c : option caller) (resourceId orgId : option string).

Definition call_prog (caps : journal_caps) (text : sched_error → string) (le : string → string → bool) (c : sched_call)
    : prog sched_value sched_query sched_event sched_error unit :=
  match c with
  | CallPoll opts fuel token now => _ ← pollScheduler caps root_journal text opts fuel token now; mret tt
  | CallSchedule spec now => _ ← scheduleWorkflow caps root_journal spec now; mret tt
  | CallList => _ ← listTriggers caps root_journal le; mret tt
  | CallMove fromId c res org => _ ← moveTrigger caps root_journal fromId c res org; mret tt
  end.

Lemma call_safe tid d g caps text le c :
  ends_with "fire:lock" tid = false → has_putIfMatch caps = true → Safe tid d g (call_prog caps text le c).
Proof.
  intros Htid Hcas. destruct c; (apply Safe_bind; [|intros; apply Safe_ret]).
  - by apply life_poll_safe.
  - apply schedule_safe.
  - apply list_safe.
  - by apply move_safe.
Qed.

(** C6: The lifecycle of a trigger.  However polls, schedules, listings and moves by any number of processes
    interleave, with storage failures and crashes at any request, the recorded state of a trigger
    only ever moves along the steps of the abstract machine: its fire count never goes back (a
    late poller cannot roll it back), a trigger that is done or given up stays so, and its definition is never rewritten. *)
Theorem trigger_lifecycle (caps : journal_caps) (text : sched_error → string) (le : string → string → bool)
    (calls : list sched_call) (tid : string) (d : trigger_def) (s : trigger_state) w ps' w' :
  has_putIfMatch caps = true → ends_with "fire:lock" tid = false →
  mj_get (DEF tid) (jr w) = Some (VDef d) → mj_get (STATE tid) (jr w) = Some (VState s) →
  reachable (map (call_prog caps text le) calls, w) (ps', w') →
  mj_get (DEF tid) (jr w') = Some (VDef d) ∧
  ∃ s', mj_get (STATE tid) (jr w') = Some (VState s') ∧ rtc (trigger_step d) s s' ∧
        (ts_fireCount s ≤ ts_fireCount s')%N ∧ (ts_status s ≠ TPending → s' = s).
Proof.
  intros Hcas Htid Hd Hs Hr.
  destruct (pool_safe (life_allowed tid d) life_next (life_inv tid d s)) with
    (post := λ (g' : list reading) (_ : outcome sched_error unit), knows [] g')
    (c := (map (call_prog caps text le) calls, w)) (c' := (ps', w')) (gs := map (λ _ : sched_call, [] : list reading) calls)
    as (gs' & [Hok _] & _).
  - intros. by eapply life_inv_perform.
  - intros. by eapply life_inv_fail.
  - intros. by apply life_inv_time.
  - exact Hr.
  - split; [split; [done|exists s; split; [done|apply rtc_refl]]|]. apply Forall_forall. intros g Hg.
    apply list_elem_of_fmap in Hg as (? & -> & _). by constructor.
  - cbn [fst]. clear Hr. induction calls as [|c calls IH]; [constructor|]. constructor; [by apply call_safe|exact IH].
  - destruct Hok as (Hd' & s' & Hs' & Hst). split; [done|]. exists s'. split_and!; [done..| |].
    + by eapply steps_fires.
    + intros Ht. by eapply steps_terminal.
Qed.

(** One poller, one scheduler and a due trigger that runs every minute. *)
Definition minute_def : trigger_def := TriggerDef "w" JNull (TEvery 60000) 5 Skip None None false.
Definition minute_state : trigger_state := TriggerState (Some 0%Z) 0 0 TPending None.
Definition minute_spec : schedule_spec := ScheduleSpec None "w" JNull None (Some 60000%Z) None None None None None None.
Definition minute_world : world sched_value sched_query :=
  World (mj_put 0 (STATE "w") (VState minute_state) (mj_put 0 (DEF "w") (VDef minute_def) empty_journal)) 0 0 [] empty_work.
Definition plain_options : poll_options := PollOptions "p" 30000 false 60000 (λ _, Ok false).
Definition done_runner : oracle sched_query sched_event sched_error := λ _ _, Ok (SEnded false).

Lemma trigger_lifecycle_witness :
  ∃ s', mj_get (STATE "w") (jr (snd (schedule done_runner (repeat 0 30 ++ repeat 1 30)
      (map (call_prog full_caps (λ _, "") (λ _ _, true)) [CallPoll plain_options 1 (λ _, "t") 1000; CallSchedule minute_spec 5], minute_world)))) =
      Some (VState s') ∧ (0 ≤ ts_fireCount s')%N.
Proof.
  destruct (trigger_lifecycle full_caps (λ _, "") (λ _ _, true) [CallPoll plain_options 1 (λ _, "t") 1000; CallSchedule minute_spec 5]
    "w" minute_def minute_state minute_world
    (fst (schedule done_runner (repeat 0 30 ++ repeat 1 30) (map (call_prog full_caps (λ _, "") (λ _ _, true)) [CallPoll plain_options 1 (λ _, "t") 1000; CallSchedule minute_spec 5], minute_world)))
    (snd (schedule done_runner (repeat 0 30 ++ repeat 1 30) (map (call_prog full_caps (λ _, "") (λ _ _, true)) [CallPoll plain_options 1 (λ _, "t") 1000; CallSchedule minute_spec 5], minute_world))))
    as (_ & s' & Hs & _ & Hn & _).
  - reflexivity.
  - reflexivity.
  - reflexivity.
  - reflexivity.
  - rewrite <- surjective_pairing. apply schedule_reachable.
  - exists s'. split; [exact Hs|exact Hn].
Defined.
