(* ===== verification/SchedulerFire.v ===== *)
(** * SchedulerFire: slots, fires and repairs

    What one poller does to one trigger, as a function of what the guard and the run answer; the
    slots of a repeating trigger; the fire count of a repaired trigger; and an execution in
    which a schedule that cannot be parsed stops every trigger behind it. *)

From S2P Require Import Prelude JsMap Keys Journal Work Org OwnedName Prog Claim Locks Json Hash Format RunIdentity ToolTypes Cron Scheduler SchedulerSafety.

(** ** Slots *)

(** The next slot of a repeating trigger stays on its grid.  After the slot [p] fired at [now], an interval
    trigger is next due at [p] plus a whole number of intervals: under [skip] the first such
    instant after [now], under [catchup] the very next one, so polling late never shifts the
    grid.  A cron trigger is next due at a minute its fields match, after [now] or after [p], with no match
    between.  Only a cron expression can have no next slot. *)
Theorem next_slot_on_grid (d : trigger_def) (p now : Z) :
  (p <= now)%Z →
  match td_kind d with
  | TEvery i => (0 < i)%Z →
      ∃ t k, computeNext d (Some p) now = Ok (Some t) ∧ (1 <= k ∧ t = p + k * i)%Z ∧
        match td_misfire d with Skip => (now < t <= now + i)%Z | Catchup => k = 1%Z end
  | TCron (Some expr) =>
      ∀ t, computeNext d (Some p) now = Ok t →
        ∃ c u, parse_cron expr = Ok c ∧ t = Some u ∧ matches c u = true ∧ (u mod MINUTE = 0)%Z ∧
          let from := match td_misfire d with Skip => now | Catchup => p end in
          (from < u)%Z ∧ ∀ v, (from < v < u)%Z → (v mod MINUTE = 0)%Z → matches c v = false
  | _ => computeNext d (Some p) now = Err STypeError
  end.
Proof.
  intros Hp. unfold computeNext. destruct (td_kind d) as [a|i|[expr|]]; [done| | |done].
  - intros Hi. destruct (td_misfire d).
    + rewrite (proj2 (Z.eqb_neq i 0)) by lia. eexists _, ((now - p) / i + 1)%Z. split; [done|].
      pose proof (Z.div_mod (now - p) i). pose proof (Z.mod_pos_bound (now - p) i). pose proof (Z.div_pos (now - p) i).
      split; nia.
    + eexists _, 1%Z. split; [done|]. split; [lia|done].
  - intros t. set (from := match td_misfire d with Catchup => p | Skip => now end).
    replace (match td_misfire d with Catchup => Some p | Skip => Some now end) with (Some from) by (subst from; by destruct (td_misfire d)).
    replace (match td_misfire d with Skip => now | Catchup => p end) with from by (subst from; by destruct (td_misfire d)).
    cbn [cron_after]. destruct (nextCronTime expr from) as [u|e] eqn:Hn; [|done]. intros [= <-].
    destruct (parse_cron expr) as [c|e] eqn:Hc; [|by unfold nextCronTime in Hn; rewrite Hc in Hn].
    pose proof (nextCronTime_cases expr from c Hc) as Hcase. rewrite Hn in Hcase. destruct Hcase as (Hb & Hm & Ha & Hno).
    exists c, u. split_and!; [done..|lia|done].
Qed.

(** ** Repairs *)

Lemma split_digits_dec n rest :
  rest = "" ∨ starts_with ":" rest = true → split_digits (dec n +:+ rest) = (dec n, rest).
Proof.
  intros Hrest. pose proof (dec_digits n) as Hd. induction (dec n) as [|c s IH].
  - cbn. destruct Hrest as [->|[r ->]%starts_with_spec]; done.
  - cbn [str_exists] in Hd. apply orb_false_iff in Hd as [Hc Hs]. apply negb_false_iff in Hc. cbn. rewrite Hc. by rewrite IH.
Qed.

Lemma fire_number_dec n rest : rest = "" ∨ starts_with ":" rest = true → fire_number (dec n +:+ rest) = Some n.
Proof.
  intros Hrest. unfold fire_number. rewrite split_digits_dec by done.
  assert (Hne : dec n ≠ "").
  { intros He. pose proof (undec_dec n) as Hu. rewrite He in Hu. destruct n as [|q]; [done|]. discriminate Hu. }
  rewrite (proj2 (String.eqb_neq _ _) Hne), undec_dec. destruct Hrest as [->|Hr]; [done|]. by rewrite Hr, orb_true_r.
Qed.

(** No key under the prefix belongs to a fire at or above the result. *)
Lemma highest_fire_above prefix keys n rest :
  prefix +:+ dec n +:+ rest ∈ keys → rest = "" ∨ starts_with ":" rest = true → (n < highest_fire prefix keys)%N.
Proof.
  intros Hin Hrest. unfold highest_fire.
  assert (Hmono : ∀ ks m, (m <= fold_left (λ m k, match strip_prefix prefix k ≫= fire_number with Some n => N.max m (n + 1) | None => m end) ks m)%N).
  { induction ks as [|k ks IH]; intros m; cbn; [lia|]. case_match; [|apply IH]. etransitivity; [|apply IH]. lia. }
  generalize 0%N. induction keys as [|k ks IH]; intros m; [by apply not_elem_of_nil in Hin|]. cbn [fold_left].
  apply elem_of_cons in Hin as [<-|Hin]; [|by apply IH].
  rewrite strip_prefix_app. cbn [option_bind mbind]. unfold mbind, option_bind. rewrite fire_number_dec by done.
  eapply N.lt_le_trans; [|apply Hmono]. lia.
Qed.

Lemma run_checked {A} (h : oracle sched_query sched_event sched_error) (o : outcome sched_error A) w :
  run h (checked o) w = (o, w).
Proof. by destruct o. Qed.

Lemma run_lift_outcome {E A} (h : oracle sched_query sched_event sched_error) (f : E → sched_error) (o : outcome E A) w :
  run h (lift_outcome f o) w = (match o with Ok a => Ok a | Err e => Err (f e) end, w).
Proof. by destruct o. Qed.

(** The id a specification is stored under. *)
Definition stored_trigger (spec : schedule_spec) : outcome sched_error string :=
  match triggerOwnerOf (ss_caller spec) (ss_resourceId spec) (ss_orgId spec) with
  | Err e => Err e
  | Ok (res, org, _) =>
      match check_spec org res with
      | Err e => Err e
      | Ok _ => match ownedName (default (ss_name spec) (ss_id spec)) (Owner org res) with Ok i => Ok i | Err e => Err (SName e) end
      end
  end.

(** A repaired trigger starts on a run id that was never used.  When a definition has lost its
    state, [scheduleWorkflow] writes a fresh pending one, and no key of the journal is the run id of its
    next fire, or of any later one, or lies under it (so no fire replays a finished run); when
    both records are there, it changes nothing. *)
Theorem repaired_fires_fresh (h : oracle sched_query sched_event sched_error) (spec : schedule_spec) (now : Z)
    (id : string) (dv : sched_value) (t : option Z) w :
  stored_trigger spec = Ok id → firstRunAt spec now = Ok t → mj_get (DEF id) (jr w) = Some dv →
  let '(o, w') := run h (scheduleWorkflow full_caps root_journal spec now) w in
  o = Ok id ∧
  match mj_get (STATE id) (jr w) with
  | Some _ => w' = w
  | None =>
      ∃ n, mj_get (STATE id) (jr w') = Some (VState (TriggerState t 0 n TPending None)) ∧
           ∀ m rest, (n <= m)%N → rest = "" ∨ starts_with ":" rest = true → run_of id m +:+ rest ∉ mj_keys (jr w)
  end.
Proof.
  unfold stored_trigger. intros Hid Hfirst Hdef.
  destruct (triggerOwnerOf _ _ _) as [[[res org] st]|e] eqn:Hown; [|done]. destruct (check_spec org res) as [u|e] eqn:Hspec; [|done].
  destruct (ownedName _ _) as [i|e] eqn:Hname; [|done]. injection Hid as ->.
  unfold scheduleWorkflow. run_step. rewrite run_checked. cbn [assertRootJournal root_journal jsc_org jsc_subjectView].
  run_step. rewrite run_checked, Hown. run_step. rewrite run_checked, Hspec. run_step. rewrite run_lift_outcome, Hname.
  unfold jget. run_step. rewrite Hdef. run_step. destruct (mj_get (STATE id) (jr w)) as [sv|]; [done|].
  run_step. rewrite run_checked, Hfirst. run_step. unfold fireCountAfterLoss. cbn [has_listKeys full_caps].
  run_step. rewrite run_catch. cbn [listKeys]. unfold listKeys. rewrite (run_request h (RListKeys _ None)). cbn [perform fst snd].
  rewrite run_ret. run_step. unfold jput. rewrite (run_request h (RPut _ _)). cbn [perform]. rewrite run_ret. split; [done|].
  eexists. split; [apply mj_get_put|]. intros m rest Hm Hrest Hin.
  set (prefix := "sched:" +:+ id +:+ ":") in *.
  assert (Hk : run_of id m +:+ rest = prefix +:+ dec m +:+ rest) by (unfold run_of, prefix; by rewrite !str_app_assoc).
  rewrite Hk in Hin. pose proof (highest_fire_above prefix (mj_listKeys prefix (jr w)) m rest) as Hlt.
  assert (Hl : prefix +:+ dec m +:+ rest ∈ mj_listKeys prefix (jr w)).
  { unfold mj_listKeys. apply list_elem_of_filter. split; [apply starts_with_app|done]. }
  specialize (Hlt Hl Hrest). lia.
Qed.

(** ** One fire *)

Lemma run_keeps {V Q R E A} `{!JsValue V} (h : oracle Q R E) key v (p : prog V Q R E A) (w : world V Q) :
  never_writes key p → mj_get key (jr w) = Some v → mj_get key (jr (snd (run h p w))) = Some v.
Proof.
  revert w. induction p as [a|e|r k IH]; intros w; [done..|]. intros [Hr Hk] Hv. cbn [run].
  pose proof (perform_jkey_keep h r w key v Hr Hv) as Hw. destruct (perform h r w) as [o w1]. by apply IH.
Qed.

Lemma never_writes_try {V Q R E A} `{!JsValue V} key (p : prog V Q R E A) (c : E → prog V Q R E A) :
  never_writes key p → (∀ e, never_writes key (c e)) → never_writes key (ptry c p).
Proof.
  intros Hp Hc. induction p as [a|e|r k IH]; [done|apply Hc|]. destruct Hp as [Hr Hk]. split; [done|]. intros o. apply IH, Hk.
Qed.

Lemma never_writes_catch {V Q R E A} `{!JsValue V} key (p : prog V Q R E A) : never_writes key p → never_writes key (pcatch p).
Proof. intros Hp. apply never_writes_try; [|done]. by apply never_writes_bind. Qed.

Lemma never_writes_request {V Q R E} `{!JsValue V} key (r : req V Q) : overwrites key r = false → never_writes (R := R) (E := E) key (request r).
Proof. intros Hr. split; [done|]. by intros [a|e]. Qed.

Lemma fire_key_other id run : ends_with "fire:lock" id = false → String.eqb (lockKey (FIRE_LOCK run)) (STATE id) = false.
Proof. intros Hid. apply String.eqb_neq. intros H. pose proof (ends_lock run) as Hl. rewrite H, ends_STATE in Hl. congruence. Qed.

Section Fire.
Variables (h : oracle sched_query sched_event sched_error) (text : sched_error → string) (opts : poll_options).
Variables (id token : string) (d : trigger_def) (s : trigger_state) (now : Z) (fuel : nat).
Hypothesis Hid : ends_with "fire:lock" id = false.
Abbreviation prog := (prog sched_value sched_query sched_event sched_error).
Abbreviation runId := (run_of id (ts_fireCount s)).
Abbreviation lock := (RunLock (FIRE_LOCK runId) (po_owner opts) token).
Abbreviation quiet p := (never_writes (V := sched_value) (Q := sched_query) (R := sched_event) (E := sched_error) (STATE id) p).

Ltac quiet_step := unfold mbind, prog_bind, mret, prog_ret; repeat first
  [ exact I | apply never_writes_bind; [|intros ?] | apply never_writes_catch | case_match
  | apply (never_writes_request (STATE id) (RGet _)); reflexivity
  | apply never_writes_request; first [reflexivity|by apply fire_key_other] ].

Lemma renew_quiet : quiet (lock_renew full_caps lock (po_lockTtlMs opts)).
Proof using Hid. unfold lock_renew, jget, jnow, jputIfMatch. cbn [rl_runId has_putIfMatch has_now full_caps]. quiet_step. Qed.

Lemma release_quiet : quiet (lock_release full_caps lock).
Proof using Hid.
  apply never_writes_try; [|by intros]. generalize 3. intros n. induction n as [|n IH]; [exact I|].
  cbn [release_attempts rl_runId has_putIfMatch full_caps]. unfold jget, jputIfMatch. quiet_step. exact IH.
Qed.

Lemma acquire_quiet : quiet (acquireRunLock full_caps (FIRE_LOCK runId) (po_owner opts) (po_lockTtlMs opts) token (Some now)).
Proof using Hid.
  unfold acquireRunLock, claim, jget, jputIfMatch, jputIfAbsent. cbn [has_putIfMatch has_putIfAbsent full_caps]. quiet_step.
Qed.

Lemma heartbeat_quiet q : quiet (with_heartbeat full_caps opts fuel q lock).
Proof using Hid.
  revert q. induction fuel as [|n IH]; intros q; [exact I|]. cbn [with_heartbeat]. apply never_writes_bind; [by apply (never_writes_request (STATE id) (RExt q))|].
  intros a. destruct a; try exact I. apply never_writes_bind; [apply never_writes_catch, renew_quiet|]. intros; apply IH.
Qed.

Lemma run_target_quiet : quiet (run_target full_caps opts fuel id runId d lock).
Proof using Hid.
  unfold run_target. apply never_writes_bind; [destruct (td_orgId d) as [g|]; [unfold checked, lift_outcome; by destruct (po_runnerForOrg opts g)|exact I]|].
  intros []; [|exact I]. apply never_writes_bind; [unfold lift_outcome; by destruct (callerOfTrigger d)|]. intros c.
  apply never_writes_bind; [apply heartbeat_quiet|]. by intros.
Qed.

Definition guard_prog : prog (outcome sched_error sched_event) :=
  if po_budgetGuard opts
  then pcatch (with_heartbeat full_caps opts fuel (SBudget id (td_name d) (td_input d) now (td_orgId d) (td_resourceId d)) lock)
  else mret (Ok SAllowed).

Lemma guard_quiet : quiet guard_prog.
Proof using Hid. unfold guard_prog. destruct (po_budgetGuard opts); [|exact I]. apply never_writes_catch, heartbeat_quiet. Qed.

(** The reference: the verdict and the next state, from what the guard and the run answered. *)
Definition fired (allowed : outcome sched_error sched_event) (ended : outcome sched_error bool)
    : outcome sched_error (Scheduler.verdict * trigger_state) :=
  match allowed with
  | Err _ => Ok (Skipped, later s (now + po_retryMs opts))
  | Ok _ =>
      match ended with
      | Err e =>
          if isRunBusyAtAcquisition e then Ok (Skipped, later s (now + po_retryMs opts))
          else if (td_maxAttempts d <=? ts_attempts s + 1)%Z
               then Ok (GaveUp, TriggerState (ts_nextRunAt s) (ts_attempts s + 1) (ts_fireCount s) TFailed (ts_movedTo s))
               else Ok (Rescheduled, TriggerState (Some (now + backoff (ts_attempts s + 1))%Z) (ts_attempts s + 1) (ts_fireCount s) TPending (ts_movedTo s))
      | Ok true => Ok (Rescheduled, later s (now + po_retryMs opts))
      | Ok false =>
          match td_kind d with
          | TAt _ => Ok (Fired, TriggerState (ts_nextRunAt s) (ts_attempts s) (ts_fireCount s) TDone (ts_movedTo s))
          | _ => match computeNext d (ts_nextRunAt s) now with
                 | Ok t => Ok (Fired, TriggerState t 0 (ts_fireCount s + 1) TPending None)
                 | Err e => Err e
                 end
          end
      end
  end.

Definition fired_post (res : outcome sched_error (Scheduler.verdict * trigger_state))
    (x : outcome sched_error Scheduler.verdict * world sched_value sched_query) : Prop :=
  match res with
  | Ok (v, s') => fst x = Ok v ∧ mj_get (STATE id) (jr (snd x)) = Some (VState s')
  | Err e => fst x = Err e ∧ mj_get (STATE id) (jr (snd x)) = Some (VState s)
  end.

Lemma run_commit s' w : mj_get (STATE id) (jr w) = Some (VState s) →
  ∃ w', run h (commit full_caps id s s') w = (Ok true, w') ∧ mj_get (STATE id) (jr w') = Some (VState s').
Proof.
  intros Hs. unfold commit, jputIfMatch. cbn [has_putIfMatch full_caps]. rewrite (run_request h (RPutIfMatch _ _ _)). cbn [perform].
  rewrite mj_putIfMatch_spec, bool_decide_eq_true_2 by done. cbn [fst snd]. eexists. split; [done|].
  cbn [jr set_jr]. unfold mj_get. cbn [store]. apply mget_mset.
Qed.

(** A note beside the state. *)
Lemma run_note {A} fam v (a : A) w : fam ∈ ["sched:fail:"; "sched:budget-skip:"; "sched:busy-skip:"] →
  ∃ w', run h (_ ← jput (fam +:+ id) v; mret a) w = (Ok a, w') ∧ mj_get (STATE id) (jr w') = mj_get (STATE id) (jr w).
Proof.
  intros Hf. eexists. split; [done|]. cbn [jr set_jr]. apply mj_get_put_ne. intros H.
  apply (note_not_own id fam id Hf). right. by symmetry.
Qed.

(** A committed state, with what follows the commit. *)
Lemma commit_then (f : bool → prog Scheduler.verdict) s' v w :
  (∀ w1, mj_get (STATE id) (jr w1) = Some (VState s') → ∃ w2, run h (f true) w1 = (Ok v, w2) ∧ mj_get (STATE id) (jr w2) = Some (VState s')) →
  mj_get (STATE id) (jr w) = Some (VState s) →
  fired_post (Ok (v, s')) (run h (pbind f (commit full_caps id s s')) w).
Proof.
  intros Hf Hs. destruct (run_commit s' w Hs) as (w1 & Hr & Hs1). rewrite run_bind, Hr.
  destruct (Hf w1 Hs1) as (w2 & -> & Hs2). done.
Qed.

Lemma on_budget_exact e w : mj_get (STATE id) (jr w) = Some (VState s) →
  fired_post (Ok (Skipped, later s (now + po_retryMs opts))) (run h (on_budget full_caps text opts id s now e) w).
Proof.
  apply commit_then. intros w1 Hs1. destruct (run_note "sched:budget-skip:" (VNote (text e) now) Skipped w1) as (w2 & Hr & Hs2);
    [right; left|]. exists w2. by rewrite Hs2.
Qed.

Lemma on_fire_error_exact e w : due now s = true → mj_get (STATE id) (jr w) = Some (VState s) →
  fired_post (fired (Ok SAllowed) (Err e)) (run h (on_fire_error full_caps text opts id runId d s now e) w).
Proof.
  intros Hdue Hs. unfold on_fire_error, fired. rewrite (due_pending _ _ Hdue). destruct (isRunBusyAtAcquisition e).
  - apply commit_then; [|done]. intros w1 Hs1. unfold jget. run_step.
    set (n := match mj_get (BUSY_SKIP id) (jr w1) with Some (VBusy _ _ _ n) => n | _ => 0%Z end).
    destruct (run_note "sched:busy-skip:" (VBusy (text e) now runId (n + 1)) Skipped w1) as (w2 & Hr & Hs2);
      [right; right; left|]. exists w2. split; [exact Hr|by rewrite Hs2].
  - destruct (_ <=? _)%Z.
    + apply commit_then; [|done]. intros w1 Hs1. destruct (run_note "sched:fail:" (VNote (text e) now) GaveUp w1) as (w2 & Hr & Hs2);
        [left|]. exists w2. by rewrite Hs2.
    + apply commit_then; [|done]. intros w1 Hs1. by exists w1.
Qed.

Lemma on_result_exact b w : mj_get (STATE id) (jr w) = Some (VState s) →
  fired_post (fired (Ok SAllowed) (Ok b)) (run h (on_result full_caps opts id d s now b) w).
Proof.
  intros Hs. unfold on_result, fired. destruct b; [apply commit_then; [intros w1 Hs1; by exists w1|done]|].
  assert (Hnext : fired_post (match computeNext d (ts_nextRunAt s) now with
                              | Ok t => Ok (Fired, TriggerState t 0 (ts_fireCount s + 1) TPending None) | Err e => Err e end)
    (run h (next ← checked (computeNext d (ts_nextRunAt s) now);
            ok ← commit full_caps id s (TriggerState next 0 (ts_fireCount s + 1) TPending None); mret (if ok : bool then Fired else Discarded)) w)).
  { run_step. rewrite run_checked. destruct (computeNext d (ts_nextRunAt s) now); [|done].
    apply (commit_then (λ ok, mret (if ok : bool then Fired else Discarded))); [intros w1 Hs1; by exists w1|done]. }
  destruct (td_kind d); [|exact Hnext..]. apply commit_then; [intros w1 Hs1; by exists w1|done].
Qed.

(** After a release no record of this acquisition is live. *)
Definition released_lock (j : mem_journal sched_value) : Prop :=
  ∀ r, mj_get (lockKey (FIRE_LOCK runId)) j = Some (VSLock r) → lk_token r = token → lk_expires r = 0%Z.

Lemma run_release w : ∃ w', run h (lock_release full_caps lock) w = (Ok tt, w') ∧ released_lock (jr w').
Proof.
  unfold lock_release. rewrite run_try. cbn [release_attempts rl_runId rl_owner rl_token has_putIfMatch full_caps].
  unfold jget, jputIfMatch. run_step. destruct (mj_get (lockKey (FIRE_LOCK runId)) (jr w)) as [c|] eqn:Hc.
  - destruct (lock_token_is token c) eqn:Ht.
    + run_step. rewrite (run_request h (RPutIfMatch _ _ _)). cbn [perform]. rewrite mj_putIfMatch_spec, bool_decide_eq_true_2 by done.
      cbn [fst snd]. rewrite run_ret. eexists. split; [done|]. intros r. cbn [jr set_jr]. unfold mj_get. cbn [store].
      rewrite mget_mset. by intros [= <-].
    + eexists. split; [done|]. intros r Hr Htok. rewrite Hc in Hr. injection Hr as ->. unfold lock_token_is in Ht. cbn in Ht.
      by rewrite Htok, String.eqb_refl in Ht.
  - eexists. split; [done|]. intros r Hr. congruence.
Qed.

Lemma fire_run w : due now s = true → mj_get (STATE id) (jr w) = Some (VState s) →
  let g := run h guard_prog w in
  let r := run h (run_target full_caps opts fuel id runId d lock) (snd g) in
  fired_post (fired (match fst g with Ok a => a | Err e => Err e end) (fst r)) (run h (fire full_caps text opts fuel id d s now lock) w).
Proof using Hid.
  intros Hdue Hs g r. pose proof (run_keeps h (STATE id) (VState s) guard_prog w guard_quiet Hs) as Hs1.
  pose proof (run_keeps h (STATE id) (VState s) _ (snd g) run_target_quiet Hs1) as Hs2. subst g r.
  change (fire full_caps text opts fuel id d s now lock) with (g ← guard_prog;
    match g with
    | Err e => on_budget full_caps text opts id s now e
    | Ok _ => r ← pcatch (run_target full_caps opts fuel id runId d lock);
              match r with
              | Err e => on_fire_error full_caps text opts id runId d s now e
              | Ok suspended => on_result full_caps opts id d s now suspended
              end
    end).
  run_step. assert (Hok : ∃ a, fst (run h guard_prog w) = Ok a).
  { unfold guard_prog. destruct (po_budgetGuard opts); [rewrite run_catch; by eexists|by eexists]. }
  destruct Hok as [a Ha]. destruct (run h guard_prog w) as [o w1]. cbn [fst snd] in *. subst o.
  destruct a as [a|e]; [|by apply on_budget_exact]. run_step. rewrite run_catch.
  destruct (run h (run_target _ _ _ _ _ _ _) w1) as [[b|e] w2]; cbn [fst snd] in *; [by apply (on_result_exact b)|by apply on_fire_error_exact].
Qed.

(** What one fire does.  A poller that finds the trigger due and takes the fire lock moves the
    state exactly as the reference [fired] says from what the budget guard and the run answered:
    put off without costing an attempt (guard refused, run busy elsewhere, run suspended), retried after the back-off or
    given up at the limit (run failed), done or moved to its next slot with the fire count advanced (run
    ended); if the next slot cannot be computed it throws and the state stays.  In every case the fire
    lock is released. *)
Theorem poll_trigger_exact w w1 :
  mj_get (DEF id) (jr w) = Some (VDef d) → mj_get (STATE id) (jr w) = Some (VState s) → due now s = true →
  run h (acquireRunLock full_caps (FIRE_LOCK runId) (po_owner opts) (po_lockTtlMs opts) token (Some now)) w = (Ok (Some lock), w1) →
  let g := run h guard_prog w1 in
  let r := run h (run_target full_caps opts fuel id runId d lock) (snd g) in
  let x := run h (poll_trigger full_caps text opts fuel token id now) w in
  fired_post (fired (match fst g with Ok a => a | Err e => Err e end) (fst r)) x ∧ released_lock (jr (snd x)).
Proof using Hid.
  intros Hd Hs Hdue Hacq g r x. pose proof (run_keeps h (STATE id) (VState s) _ w acquire_quiet Hs) as Hs1.
  rewrite Hacq in Hs1. pose proof (fire_run w1 Hdue Hs1) as Hf. fold g r in Hf. subst x. unfold poll_trigger, jget.
  run_step. rewrite Hd. run_step. rewrite Hs. cbn [as_def as_state]. rewrite Hdue. run_step. rewrite Hacq.
  rewrite run_finally. destruct (run h (fire _ _ _ _ _ _ _ _ _) w1) as [o w2].
  pose proof (λ v Hv, run_keeps h (STATE id) v _ w2 release_quiet Hv) as Hk.
  destruct (run_release w2) as (w3 & Hrel & Hfree). rewrite Hrel in Hk |- *. cbn [fst snd] in *. split; [|done].
  destruct (fired _ _) as [[v s']|e]; destruct Hf as [Hx Hf]; cbn [fst snd] in *; subst o; (split; [done|by apply Hk]).
Qed.
End Fire.

(** ** Erasure *)

Lemma mj_get_erase_families k prefix fams acc :
  mj_get k (snd (fold_left (erase_family prefix) fams acc)) =
    if existsb (λ fam, starts_with (fam +:+ prefix) k) fams then None else mj_get k (snd acc).
Proof.
  revert acc. induction fams as [|fam fams IH]; intros [n j]; [done|]. cbn [fold_left existsb]. rewrite IH.
  cbn [erase_family]. pose proof (mj_get_deletePrefix k (fam +:+ prefix) j) as Hd.
  destruct (mj_deletePrefix (fam +:+ prefix) j) as [m j1]. cbn [snd] in *. rewrite Hd.
  by destruct (starts_with (fam +:+ prefix) k), (existsb _ fams).
Qed.

(** A record's key is under an owner's prefix when its id is, whatever the family. *)
Lemma trigger_prefixes key prefix id :
  starts_with OWNED prefix = true → key ∈ [DEF; STATE; FAIL; BUDGET_SKIP; BUSY_SKIP] →
  existsb (λ fam, starts_with (fam +:+ prefix) (key id)) trigger_families = starts_with prefix id.
Proof.
  intros [r ->]%starts_with_spec Hk. unfold trigger_families. cbn [existsb].
  repeat (apply elem_of_cons in Hk as [->|Hk]); [..|by apply elem_of_nil in Hk].
  all: unfold DEF, STATE, FAIL, BUDGET_SKIP, BUSY_SKIP.
  1: rewrite (starts_with_app_app "sched:def:"). 2: rewrite (starts_with_app_app "sched:state:").
  3: rewrite (starts_with_app_app "sched:fail:"). 4: rewrite (starts_with_app_app "sched:budget-skip:").
  5: rewrite (starts_with_app_app "sched:busy-skip:").
  all: by destruct (starts_with (OWNED +:+ r) id).
Qed.

(** Erasing a person's triggers is exact.  When [triggerEraser] answers, the definition, the state, and the failure and skip
    records of every stored id are gone if the id is the person's and unchanged otherwise, and
    everything under the run ids of the person's triggers (their fire locks too) is gone from the root journal. *)
Theorem trigger_erasure_exact (o : owner) (j j' : mem_journal sched_value) (n : nat) :
  o ≠ Owner None None → erase_triggers root_journal true o j = Ok (n, j') →
  ∀ id, stored_id id →
    (∀ key, key ∈ [DEF; STATE; FAIL; BUDGET_SKIP; BUSY_SKIP] →
      mj_get (key id) j' = if decide (owner_of id = o) then None else mj_get (key id) j) ∧
    (∀ m rest, owner_of id = o → mj_get (run_of id m +:+ rest) j' = None).
Proof.
  intros Hne Her id Hid. unfold erase_triggers in Her. cbn [assertRootJournal root_journal jsc_org jsc_subjectView negb] in Her.
  destruct (ownedPrefix o) as [prefix|] eqn:Hp; [|done].
  assert (Hj : fold_left (erase_family prefix) trigger_families (0, j) = (n, j')) by congruence. clear Her.
  apply (f_equal snd) in Hj. change (snd (n, j')) with j' in Hj. subst j'.
  assert (Hown : starts_with OWNED prefix = true) by (unfold ownedPrefix in Hp; apply ownerPart_Ok in Hp as (-> & _); apply starts_with_app).
  split.
  - intros key Hk. rewrite mj_get_erase_families, trigger_prefixes, (prefix_owner o prefix id) by done.
    rewrite bool_decide_decide. by case_decide.
  - intros m rest Ho. rewrite mj_get_erase_families. unfold run_of. rewrite !str_app_assoc.
    assert (Hs : starts_with ("sched:" +:+ prefix) ("sched:" +:+ id +:+ ":" +:+ dec m +:+ rest) = true).
    { rewrite starts_with_app_app, (owned_prefix_sub o prefix id) by done. rewrite (prefix_owner o prefix id) by done.
      by apply bool_decide_eq_true. }
    unfold trigger_families. cbn [existsb]. rewrite Hs. by rewrite !orb_true_r.
Qed.

(** ** A schedule that cannot be parsed *)

Abbreviation sworld := (world sched_value sched_query).

Definition spec_cron (name expr : string) : schedule_spec := ScheduleSpec None name JNull None None (Some expr) None None None None None.
Definition spec_every (name : string) (ms : Z) : schedule_spec := ScheduleSpec None name JNull None (Some ms) None None None None None None.

Definition plan (spec : schedule_spec) (w : sworld) : outcome sched_error string * sworld :=
  run done_runner (scheduleWorkflow full_caps root_journal spec 0) w.

Definition poll_at (now : Z) (w : sworld) : outcome sched_error poll_result * sworld :=
  run done_runner (pollScheduler full_caps root_journal (λ _, "") plain_options 2 (λ _, "token") now) w.

Definition no_triggers : sworld := World empty_journal 0 0 [] empty_work.

(** A typing error in the expression, refused; the corrected call, accepted; and another trigger. *)
Definition after_typo : sworld := snd (plan (spec_cron "report" "61 * * * *") no_triggers).
Definition after_fix : sworld := snd (plan (spec_cron "report" "0 * * * *") after_typo).
Definition two_triggers : sworld := snd (plan (spec_every "sync" 60000) after_fix).

(** The two polls after both triggers have come due. *)
Definition first_poll : outcome sched_error poll_result * sworld := poll_at 3600000 two_triggers.
Definition second_poll : outcome sched_error poll_result * sworld := poll_at 7200000 (snd first_poll).

(** A refused schedule poisons the poller.  [scheduleWorkflow] writes the definition before it
    computes the first time, so a cron expression that does not parse throws but leaves its
    definition behind; the corrected call then finds a definition without a state and repairs it, keeping the bad
    expression.  From its first fire on, every poll throws, the trigger never advances, and a due
    trigger listed behind it is never fired. *)
Theorem refused_cron_starves_others :
  fst (plan (spec_cron "report" "61 * * * *") no_triggers) = Err (SCron (InvalidRange "61" 0 59)) ∧
  fst (plan (spec_cron "report" "0 * * * *") after_typo) = Ok "report" ∧
  fst (plan (spec_every "sync" 60000) after_fix) = Ok "sync" ∧
  mj_get (STATE "sync") (jr two_triggers) = Some (VState (TriggerState (Some 60000%Z) 0 0 TPending None)) ∧
  fst first_poll = Err (SCron (InvalidRange "61" 0 59)) ∧ fst second_poll = Err (SCron (InvalidRange "61" 0 59)) ∧
  mj_get (STATE "report") (jr (snd second_poll)) = mj_get (STATE "report") (jr two_triggers) ∧
  mj_get (STATE "sync") (jr (snd second_poll)) = mj_get (STATE "sync") (jr two_triggers).
Proof. split_and!; vm_compute; reflexivity. Qed.

(** ** Concrete instances *)

Lemma next_slot_on_grid_witness :
  ∃ t k, computeNext minute_def (Some 0%Z) 130000 = Ok (Some t) ∧ (1 <= k ∧ t = 0 + k * 60000)%Z ∧ (130000 < t <= 130000 + 60000)%Z.
Proof. exact (next_slot_on_grid minute_def 0 130000 ltac:(lia) ltac:(lia)). Defined.

(** The state of a trigger that fired twice was swept away. *)
Definition swept : sworld :=
  World (mj_put 0 "sched:w:1:fire:lock" (VSLock (LockRecord "p" 0 "t")) (mj_put 0 (DEF "w") (VDef minute_def) empty_journal)) 0 0 [] empty_work.

Lemma repaired_fires_fresh_witness :
  let '(o, w') := run done_runner (scheduleWorkflow full_caps root_journal minute_spec 5) swept in
  o = Ok "w" ∧ ∃ n, mj_get (STATE "w") (jr w') = Some (VState (TriggerState (Some 60005%Z) 0 n TPending None)) ∧
    ∀ m rest, (n <= m)%N → rest = "" ∨ starts_with ":" rest = true → run_of "w" m +:+ rest ∉ mj_keys (jr swept).
Proof. exact (repaired_fires_fresh done_runner minute_spec 5 "w" (VDef minute_def) (Some 60005%Z) swept eq_refl eq_refl eq_refl). Defined.

(** The run throws: one attempt more, and a later try. *)
Definition failing_runner : oracle sched_query sched_event sched_error := λ _ _, Err (SHost JNull).

Lemma poll_trigger_exact_witness :
  fst (run failing_runner (poll_trigger full_caps (λ _, "") plain_options 2 "t" "w" 1000) minute_world) = Ok Rescheduled ∧
  mj_get (STATE "w") (jr (snd (run failing_runner (poll_trigger full_caps (λ _, "") plain_options 2 "t" "w" 1000) minute_world)))
    = Some (VState (TriggerState (Some 2000%Z) 1 0 TPending None)).
Proof.
  destruct (poll_trigger_exact failing_runner (λ _, "") plain_options "w" "t" minute_def minute_state 1000 2 eq_refl minute_world
    (snd (run failing_runner (acquireRunLock full_caps (FIRE_LOCK (run_of "w" 0)) "p" 60000 "t" (Some 1000%Z)) minute_world))) as [Hf _].
  - reflexivity.
  - reflexivity.
  - reflexivity.
  - vm_compute. reflexivity.
  - exact Hf.
Defined.

Definition bob_triggers : mem_journal sched_value :=
  mj_put 0 (DEF "~o~acme:bob:w") (VDef minute_def) (mj_put 0 (DEF "w") (VDef minute_def) empty_journal).

Lemma trigger_erasure_exact_witness :
  ∃ n j', erase_triggers root_journal true (Owner (Some "acme") (Some "bob")) bob_triggers = Ok (n, j') ∧
    mj_get (DEF "~o~acme:bob:w") j' = None ∧ mj_get (DEF "w") j' = Some (VDef minute_def).
Proof.
  destruct (erase_triggers root_journal true (Owner (Some "acme") (Some "bob")) bob_triggers) as [[n j']|] eqn:He;
    [|exfalso; vm_compute in He; discriminate].
  exists n, j'. split; [done|].
  assert (Hne : Owner (Some "acme") (Some "bob") ≠ Owner None None) by done.
  pose proof (trigger_erasure_exact _ bob_triggers j' n Hne He) as H. split.
  - destruct (H "~o~acme:bob:w") as [Hk _]; [by exists "w", (Owner (Some "acme") (Some "bob"))|]. rewrite (Hk DEF); [reflexivity|left].
  - destruct (H "w") as [Hk _]; [by exists "w", (Owner None None)|]. rewrite (Hk DEF); [reflexivity|left].
Defined.
