(* ===== verification/ModelReplay.v ===== *)
(** * ModelReplay: attempts that crash, and what they agree on

    A run is resumed until it ends; each attempt reads the records of the attempts before it and
    may crash at any request.  What an attempt knows of the recorded steps is a ghost state of
    the judgement [safe_in] of [Faults]: a key it has read or written, or found absent. *)

From S2P Require Import Prelude JsMap Keys Journal Work Prog Faults Closure Claim Json Hash Format Taint RunIdentity Cost ToolTypes Limits Outcome DurableModel.

(** ** The records of a run's steps *)

Section Records.
Variable runId : string.

Definition model_key (i : N) : string := rk_model runId (dec i).

(** The step whose record a key holds. *)
Definition record_step (key : string) : option N :=
  match strip_prefix (runId +:+ ":model:") key ≫= undec with
  | Some i => if String.eqb key (model_key i) then Some i else None
  | None => None
  end.

Lemma step_of_key i : record_step (model_key i) = Some i.
Proof.
  unfold record_step. change (model_key i) with (runId +:+ (":model:" +:+ dec i)) at 1.
  rewrite <- str_app_assoc, strip_prefix_app. cbn. by rewrite undec_dec, String.eqb_refl.
Qed.

Lemma step_of_Some key i : record_step key = Some i ↔ key = model_key i.
Proof.
  split; [|intros ->; apply step_of_key]. unfold record_step. destruct (_ ≫= undec) as [j|]; [|done].
  destruct (String.eqb_spec key (model_key j)); [|done]. by intros [= <-].
Qed.

Lemma model_key_inj i j : model_key i = model_key j → i = j.
Proof. intros Hk. apply (f_equal record_step) in Hk. rewrite !step_of_key in Hk. by injection Hk. Qed.

Lemma step_of_proc name : record_step (rk_proc runId name) = None.
Proof.
  destruct (record_step _) as [i|] eqn:Hs; [|done]. apply step_of_Some in Hs. unfold rk_proc, model_key, rk_model in Hs.
  apply str_app_inj_l in Hs. discriminate Hs.
Qed.

Lemma last_colon_app a b : has_char colon b = false → last_colon (a +:+ ":" +:+ b) = Some (a, b).
Proof.
  intros Hb. assert (Hn : last_colon b = None).
  { clear a. induction b as [|c b IH]; [done|]. unfold has_char in Hb. simpl in Hb. apply orb_false_iff in Hb as [Hc Hb].
    simpl. rewrite IH by done. destruct (Ascii.eqb_spec c colon) as [->|]; [by rewrite Ascii.eqb_refl in Hc|done]. }
  induction a as [|c a IH]; simpl; [by rewrite Hn|]. simpl in IH. by rewrite IH.
Qed.

Lemma model_key_versioned i : isVersionedKey (model_key i) = true.
Proof.
  unfold isVersionedKey, model_key, rk_model.
  replace (runId +:+ ":model:" +:+ dec i) with ((runId +:+ ":model") +:+ ":" +:+ dec i) by (by rewrite str_app_assoc).
  rewrite last_colon_app by (by apply dec_no_char).
  assert (He : ends_with ":model" (runId +:+ ":model") = true) by (apply ends_with_spec; by exists runId).
  assert (Hd : all_digits (dec i) = true) by (unfold all_digits; by rewrite dec_digits).
  assert (Hne : String.eqb (dec i) "" = false).
  { apply String.eqb_neq. intros H. pose proof (f_equal undec H) as Hu. rewrite undec_dec in Hu. injection Hu as ->. discriminate H. }
  rewrite He, Hd, Hne. by rewrite orb_true_r.
Qed.
End Records.

#[local] Arguments record_step : simpl never.
#[local] Arguments model_key : simpl never.

(** ** Modest programs: they write no record of a step and call no model *)

Section Modest.
Context {V : Type} `{!JsValue V, !Embed limit_chain V, !Embed limit_counters V, !Embed pricing_doc V, !Embed tool_record V,
  !Embed js V, !Embed model_claim V, !Embed cancel_record V} {E : Type}.
Variable runId : string.
Variable fail : model_error → E.
Variable limits_fail : limits_error → E.
Abbreviation query := model_query.
Abbreviation answer := (model_answer E).

Definition modest (r : req V query) : Prop :=
  match r with
  | RPut k _ | RPutIfAbsent k _ | RPutIfMatch k _ _ => record_step runId k = None ∧ k ≠ cancelKey runId
  | RExt _ => False
  | _ => True
  end.

Lemma proc_modest name : name ≠ "__gnl_canceled" → record_step runId (rk_proc runId name) = None ∧ rk_proc runId name ≠ cancelKey runId.
Proof. intros Hn. split; [apply step_of_proc|]. intros Hk. apply Hn. unfold cancelKey, rk_proc in Hk. by do 2 apply str_app_inj_l in Hk. Qed.

Local Ltac ask := split; [first [done|by apply proc_modest]|by intros [?|?]].
Abbreviation modestly := (only (R := answer) (E := E) modest).

Lemma modest_claim name v : name ≠ "__gnl_canceled" → modestly (claim full_caps (rk_proc runId name) v).
Proof. intros Hn. ask. Qed.

Lemma modest_counters d : modestly (incrCounters full_caps runId d).
Proof.
  unfold incrCounters. destruct (clean_delta d) as [|x l]; [done|]. cbn [has_incrBy full_caps].
  apply only_bind. { apply only_try; [|done]. apply only_bind; [ask|done]. }
  intros []; [done|]. apply only_bind; [ask|]. intros cur. ask.
Qed.

Lemma modest_readChain id : modestly (readChain id).
Proof. apply only_bind; [ask|done]. Qed.

Lemma modest_readCounters id : modestly (readCounters full_caps id).
Proof.
  apply only_bind; [ask|]. intros [m|]; [done|]. apply only_bind; [ask|done].
Qed.

Lemma modest_seeded opts u : modestly (ensureSeeded full_caps runId opts u).
Proof.
  apply only_bind; [apply modest_readChain|]. intros [c|]; [done|]. cbn [has_readRun full_caps negb].
  apply only_bind. { apply only_bind; [ask|done]. }
  intros [[cs u'] chain]. apply only_bind; [by apply modest_claim|]. intros []; [|done].
  apply only_bind; [apply modest_counters|done].
Qed.

Lemma modest_delta opts fuel seen acc : modestly (computeModelStepsDelta limits_fail fuel runId seen opts acc).
Proof.
  revert seen acc. induction fuel as [|fuel IH]; intros seen acc; cbn [computeModelStepsDelta];
    (apply only_bind; [ask|]); intros [v|]; try done; apply IH.
Qed.

Lemma modest_visit (visit : string → sub_state → prog V query answer E (sub_total * sub_state)) ids st :
  (∀ id st, modestly (visit id st)) → modestly (visit_runs visit ids st).
Proof.
  intros Hv. revert st. induction ids as [|id ids IH]; intros st; [done|]. cbn [visit_runs].
  apply only_bind; [apply Hv|]. intros [t st1]. apply only_bind; [apply IH|]. by intros [t' st2].
Qed.

Lemma modest_subRuns fuel parent ids st : modestly (sumSubRuns full_caps limits_fail fuel parent ids st).
Proof.
  revert parent ids st. induction fuel as [|fuel IH]; intros parent ids st; [done|]. cbn [sumSubRuns].
  apply modest_visit. intros id st1. destruct (_ || _); [done|].
  apply only_bind; [apply modest_readCounters|]. intros [c|]; [|done].
  apply only_bind; [apply modest_readChain|]. intros ch. destruct (default [] _); [done|].
  apply only_bind; [apply IH|]. by intros [grand st2].
Qed.

Lemma modest_limits fuel limits opts absent : modestly (enforceStepLimits full_caps limits_fail fuel runId limits opts absent).
Proof.
  unfold enforceStepLimits. destruct limits as [l|]; [|done].
  assert (Hgo : ∀ (P : Prop) (p q : prog V query answer E (list string)), modestly p → modestly q →
    modestly (match l_maxCostUsd l, l_maxTokens l with None, None => p | _, _ => q end)).
  { intros _ p q Hp Hq. by destruct (l_maxCostUsd l), (l_maxTokens l). }
  apply (Hgo True); [done|]. cbn [has_readRun full_caps negb].
  apply only_bind. { destruct (co_pricing opts); [done|]. apply only_bind; [|done]. apply only_bind; [ask|done]. }
  intros o. apply only_bind; [apply modest_seeded|]. intros [b u]. apply only_bind; [apply modest_readCounters|]. intros c.
  apply only_bind; [apply modest_delta|]. intros [d u']. apply only_bind.
  { destruct (_ =? 0)%Z; [done|]. apply only_bind; [apply modest_counters|done]. }
  intros cs. apply only_bind; [apply modest_readChain|]. intros ch. apply only_bind; [apply modest_subRuns|]. intros [t st].
  destruct (over _ _); [done|]. destruct (_ && _); [done|]. by destruct (over _ _).
Qed.

Lemma modest_step_limits fuel limits s : modestly (step_limits full_caps limits_fail fuel runId limits s).
Proof. apply only_bind; [by apply only_catch, modest_limits|done]. Qed.

Lemma modest_acquire opts step hash : modestly (acquireModelClaim full_caps fail opts (modelClaimKey runId step) hash).
Proof.
  unfold acquireModelClaim. destruct (mo_exclusiveStep opts) as [ttl|].
  - apply only_bind; [ask|]. intros now. apply only_bind; [by apply modest_claim|]. intros []; [done|].
    apply only_bind; [ask|]. intros v. destruct (v ≫= prj) as [c|]; [|ask].
    destruct (_ && _); [done|ask].
  - apply only_bind; [ask|]. intros now. ask.
Qed.

Lemma modest_claim_failed {A} step hash e : modestly (claim_failed (A := A) (modelClaimKey runId step) hash e).
Proof.
  apply only_bind; [ask|]. intros now. apply only_bind; [ask|done].
Qed.

Lemma modest_of_outcome {A} (o : outcome E A) : modestly (of_outcome o).
Proof. by destruct o. Qed.

Lemma modest_ctxGet up cache key : modestly (ctxGet up cache key).
Proof.
  unfold ctxGet. destruct cache as [m|]; [destruct (mget key m)|];
    repeat (apply only_bind; [first [ask|apply modest_of_outcome]|intros ?]); try done.
Qed.

Lemma modest_cached depth key s : modestly (cached_get depth fail key s).
Proof. apply only_bind; [by apply only_catch, modest_ctxGet|done]. Qed.

Lemma modest_divergence depth strict step hash s :
  modestly (warnOnModelDivergence depth fail strict (modelClaimKey runId step) hash s).
Proof. unfold warnOnModelDivergence. destruct (_ && _); [|done]. by apply only_cbind; [apply modest_cached|]. Qed.
End Modest.

(** ** What an attempt knows of the recorded steps *)

Section Knowledge.
Context {V : Type} `{!JsValue V, !Embed js V} {E : Type}.
Variable runId : string.
Variable depth : nat.
Variable fail : model_error → E.
Abbreviation answer := (model_answer E).
Abbreviation mkey := (model_key runId).
Abbreviation request_ := (req V model_query).

Inductive fact :=
| Unknown
| Absent
| Known (v : V).

Definition known : Type := N → fact.

Definition set_fact (i : N) (x : fact) (f : known) : known := λ j, if decide (j = i) then x else f j.

(** The facts, the calls of the model, and the records written; [None]: answers that cannot come. *)
Record ghost := Ghost { g_facts : known; g_calls : nat; g_writes : nat }.

Definition learn_read (i : N) (o : option V) (g : ghost) : option ghost :=
  match o, g_facts g i with
  | Some v, Unknown => Some (Ghost (set_fact i (Known v) (g_facts g)) (g_calls g) (g_writes g))
  | Some v, Known v' => if decide (v = v') then Some g else None
  | Some _, Absent => None
  | None, Unknown => Some (Ghost (set_fact i Absent (g_facts g)) (g_calls g) (g_writes g))
  | None, Absent => Some g
  | None, Known _ => None
  end.

Definition learn_ghost (g : option ghost) (r : request_) : outcome E (ans (R := answer) r) → option ghost :=
  match r return outcome E (ans (R := answer) r) → option ghost with
  | RGet k => λ o, match g, record_step runId k, o with
                   | Some x, Some i, Ok v => learn_read i v x
                   | _, _, _ => g
                   end
  | RPut k v => λ o, match g, record_step runId k, o with
                     | Some x, Some i, Ok _ => Some (Ghost (set_fact i (Known v) (g_facts x)) (g_calls x) (S (g_writes x)))
                     | Some x, Some i, Err _ => Some (Ghost (set_fact i Unknown (g_facts x)) (g_calls x) (g_writes x))
                     | _, _, _ => g
                     end
  | RExt (QModel _ _ _) => λ _, (λ x, Ghost (g_facts x) (S (g_calls x)) (g_writes x)) <$> g
  | _ => λ _, g
  end.

(** How many calls may have left no record before another is made; [None]: any number. *)
Variable budget : option nat.

Definition within (n : nat) : Prop := match budget with Some m => n ≤ m | None => True end.

(** Every call is preceded by a look at the record. *)
Definition may_step (g : option ghost) (r : request_) : Prop :=
  match g with
  | None => True
  | Some x =>
      match r with
      | RPut k _ => ∀ i, record_step runId k = Some i → g_facts x i = Absent
      | RPutIfAbsent k _ | RPutIfMatch k _ _ => record_step runId k = None
      | RExt (QModel _ _ _) => ∃ n, within n ∧ g_calls x ≤ g_writes x + n
      | _ => True
      end
  end.

(** The provider's answers carry no version stamp of their own. *)
Definition plain_answers (r : request_) : outcome E (ans (R := answer) r) → Prop :=
  match r return outcome E (ans (R := answer) r) → Prop with
  | RExt (QModel _ _ _) => λ o, match o with Ok a => mget "_v" (generated a) = None | Err _ => True end
  | _ => λ _, True
  end.

Abbreviation safe_m := (safe_in (V := V) (Q := model_query) (R := answer) (E := E) plain_answers may_step learn_ghost).

Lemma safe_None {A} (post : option ghost → outcome E A → Prop) (p : prog V model_query answer E A) :
  (∀ o, post None o) → safe_m post None p.
Proof.
  intros Hp. induction p as [a|e|r k IH]; simpl; [apply Hp..|]. split; [done|]. intros o _.
  replace (learn_ghost None r o) with (None (A := ghost)); [apply IH|]. destruct r as [| | | | | | | | | | | | | | | | | |[]]; try done; by destruct o.
Qed.

(** What modest requests leave of the knowledge. *)
Definition extends (x : ghost) (g : option ghost) : Prop :=
  match g with
  | None => True
  | Some y => g_calls y = g_calls x ∧ g_writes y = g_writes x ∧ ∀ i, g_facts x i ≠ Unknown → g_facts y i = g_facts x i
  end.

Lemma extends_trans x y g : extends x (Some y) → extends y g → extends x g.
Proof.
  destruct g as [z|]; [|done]. intros (Hc & Hw & Hf) (Hc' & Hw' & Hf'). split_and!; [congruence..|].
  intros i Hi. rewrite Hf' by (by rewrite Hf). by apply Hf.
Qed.

Lemma extends_read i o x : extends x (learn_read i o x).
Proof.
  unfold learn_read. destruct o as [v|], (g_facts x i) as [| |v'] eqn:Hi; try done.
  - split_and!; [done..|]. intros j Hj. cbn. unfold set_fact. destruct (decide (j = i)) as [->|]; [done|done].
  - by destruct (decide (v = v')).
  - split_and!; [done..|]. intros j Hj. cbn. unfold set_fact. destruct (decide (j = i)) as [->|]; [done|done].
Qed.

Lemma modest_safe {A} (P : A → Prop) (p : prog V model_query answer E A) (post : option ghost → outcome E A → Prop) x :
  only (modest runId) p → gives P p →
  (∀ g o, extends x g → match o with Ok a => P a | Err _ => True end → post g o) → safe_m post (Some x) p.
Proof.
  intros Hp HP Hpost.
  assert (Hnone : ∀ o, match o with Ok a => P a | Err _ => True end → post None o) by (intros o Ho; apply Hpost; [exact I|exact Ho]).
  enough (H : ∀ g, extends x g → safe_m post g p) by (apply H; by split_and!).
  induction p as [a|e|r k IH]; intros g Hg; simpl; [by apply Hpost..|].
  destruct Hp as [Hr Hk]. split. { destruct g as [y|]; [|done]. destruct r as [| | | | | | | | | | | | | | | | | |[]]; try done; cbn in *; by destruct Hr as [-> _]. }
  intros o _. apply IH; [apply Hk|apply HP|]. destruct g as [y|].
  - destruct r as [k0|k0 v0| | | | | | | | | | | | | | | | |[]]; try done; cbn in *.
    + destruct (record_step runId k0) as [i|]; [|done]. destruct o as [v|e]; [|done].
      eapply extends_trans; [done|apply extends_read].
    + by rewrite (proj1 Hr).
  - destruct r as [| | | | | | | | | | | | | | | | | |[]]; try done; by destruct o.
Qed.
End Knowledge.

(** ** One step *)

Section Step.
Context {V : Type} `{!JsValue V, !Embed limit_chain V, !Embed limit_counters V, !Embed pricing_doc V, !Embed tool_record V,
  !Embed js V, !Embed model_claim V, !Embed cancel_record V} {E : Type}.
Variable normalize sha256 : string → string.
Variable depth : nat.
Variable fail : model_error → E.
Variable limits_fail : limits_error → E.
Variable limit_fuel : nat.
Variable runId : string.
Variable limits : option run_limits.
Variable strict : bool.
Variable opts : model_options.
Variable budget : option nat.
Abbreviation answer := (model_answer E).
Abbreviation mkey := (model_key runId).
Abbreviation safe_m := (safe_in (V := V) (Q := model_query) (R := answer) (E := E) plain_answers (may_step runId budget) (learn_ghost runId)).

(** What the caller is shown of a record. *)
Definition shown (i : N) (v : V) : js :=
  match upgradeKey (upgrade_record depth fail) (mkey i) (Some v) with
  | Ok (Some y) => model_value y
  | _ => JUndef
  end.

Lemma upgrade_stamped i (r : list (string * js)) :
  mget "_v" r = None → upgradeKey (upgrade_record depth fail) (mkey i) (Some (inj (JObj (stampFormat r)))) = Ok (Some (inj (JObj r))).
Proof.
  intros Hr. unfold upgradeKey. rewrite model_key_versioned. unfold upgrade_record. rewrite prj_inj.
  cbn [upgradeFormat]. rewrite version_of_stamp. cbn. unfold strip_version, mhas, stampFormat. rewrite mget_mset.
  cbn. by rewrite mset_mdel_fresh.
Qed.

Lemma shown_stamped i (r : list (string * js)) : mget "_v" r = None → shown i (inj (JObj (stampFormat r))) = JObj r.
Proof. intros Hr. unfold shown. rewrite upgrade_stamped by done. unfold model_value. by rewrite prj_inj. Qed.

(** The cache serves only what is known. *)
Definition cache_wf (c : option (jsmap V)) : Prop := match c with Some m => map_wf m | None => True end.

Definition cached (c : option (jsmap V)) (x : ghost) : Prop :=
  cache_wf c ∧ ∀ i v, c ≫= mget (mkey i) = Some v → g_facts x i = Known v.

Definition cache_part (c' c : option (jsmap V)) : Prop :=
  cache_wf c → cache_wf c' ∧ ∀ k v, c' ≫= mget k = Some v → c ≫= mget k = Some v.

Lemma cached_part c c' x : cache_part c' c → cached c x → cached c' x.
Proof. intros Hp [Hw Hc]. destruct (Hp Hw) as [Hw' Hp']. split; [done|]. intros i v Hv. by apply Hc, Hp'. Qed.

Lemma cached_extends c x y : extends x (Some y) → cached c x → cached c y.
Proof.
  intros (_ & _ & Hf) [Hw Hc]. split; [done|]. intros i v Hv. specialize (Hc i v Hv). by rewrite Hf by (by rewrite Hc).
Qed.

Lemma part_mdel k m : cache_part (Some (mdel k m)) (Some m).
Proof.
  intros Hw. split; [by apply map_wf_mdel|]. intros k' v. cbn.
  destruct (decide (k' = k)) as [->|]; [by rewrite mget_mdel|by rewrite mget_mdel_ne].
Qed.

Lemma gives_of_outcome {A} (P : A → Prop) (o : outcome E A) :
  (∀ a, o = Ok a → P a) → gives (V := V) (Q := model_query) (R := answer) P (of_outcome o).
Proof. destruct o; simpl; auto. Qed.

Lemma gives_ctxGet up c key :
  gives (V := V) (Q := model_query) (R := answer) (E := E) (λ p, cache_part (snd p) c) (ctxGet up c key).
Proof.
  unfold ctxGet. destruct c as [m|]; [destruct (mget key m)|];
    repeat (eapply gives_bind; [apply gives_any|intros ? _]); cbn; try done. apply part_mdel.
Qed.

(** The look at a step's record. *)
Definition looked (i : N) (x : ghost) (g : option ghost) (o : outcome E (option V * option (jsmap V))) : Prop :=
  match g with
  | None => True
  | Some y =>
      extends x (Some y) ∧
      match o with
      | Ok (Some u, c) => cached c y ∧ ∃ v, g_facts y i = Known v ∧ upgradeKey (upgrade_record depth fail) (mkey i) (Some v) = Ok (Some u)
      | Ok (None, c) => cached c y ∧ g_facts y i = Absent
      | Err _ => True
      end
  end.

Lemma upgraded_None up (key : string) (v : option V) : upgradeKey (E := E) up key v = Ok None → v = None.
Proof. unfold upgradeKey. destruct v as [v|]; [|done]. destruct (isVersionedKey key); [|done]. by destruct (up key v). Qed.

Lemma look_safe i c x : cached c x → safe_m (looked i x) (Some x) (ctxGet (upgrade_record depth fail) c (mkey i)).
Proof.
  intros Hc.
  assert (Hread : safe_m (looked i x) (Some x) (v ← jget (mkey i); u ← of_outcome (upgradeKey (upgrade_record depth fail) (mkey i) v); mret (u, c))).
  { split; [done|]. intros o _. cbn. rewrite step_of_key. destruct o as [v|e]; [|by split_and!]. cbn.
    assert (Hy : ∀ y, learn_read i v x = Some y → extends x (Some y) ∧ cached c y) by
      (intros y Hy; pose proof (extends_read i v x) as He; rewrite Hy in He; split; [done|by eapply cached_extends]).
    destruct (learn_read i v x) as [y|] eqn:Hl; [|by apply safe_None].
    destruct (Hy y eq_refl) as [He Hcy]. destruct (upgradeKey _ _ v) as [[u|]|e] eqn:Hu; cbn; [| |by split].
    - refine (conj He (conj Hcy _)). destruct v as [v|]; [|done]. exists v. split; [|done]. unfold learn_read in Hl.
      destruct (g_facts x i) as [| |v'] eqn:Hi; [injection Hl as <-; cbn; unfold set_fact; by case_decide|done|].
      destruct (decide (v = v')) as [<-|]; [|done]. by injection Hl as <-.
    - refine (conj He (conj Hcy _)). apply upgraded_None in Hu as ->. unfold learn_read in Hl.
      destruct (g_facts x i) eqn:Hi; [injection Hl as <-; cbn; unfold set_fact; by case_decide|by injection Hl as <-|done]. }
  unfold ctxGet. destruct c as [m|]; [|exact Hread]. destruct (mget (mkey i) m) as [v|] eqn:Hm; [|exact Hread].
  destruct (upgradeKey _ _ (Some v)) as [[u|]|e] eqn:Hu; cbn; [| |by split_and!].
  - refine (conj _ (conj _ _)); [by split_and!|by eapply cached_part; [apply part_mdel|]|]. exists v. split; [|done]. by apply Hc.
  - by apply upgraded_None in Hu.
Qed.

Lemma part_forget key (c : option (jsmap V)) : cache_part (mdel key <$> c) c.
Proof. destruct c as [m|]; [apply part_mdel|by intros Hw]. Qed.

(** The same look, by a function of the closure. *)
Definition found (i : N) (s : model_state V) (x : ghost) (g : option ghost) (o : outcome E (option V)) (s' : model_state V) : Prop :=
  match g with
  | None => True
  | Some y =>
      extends x (Some y) ∧ cached (ms_cache s') y ∧ ms_step s' = ms_step s ∧
      match o with
      | Ok (Some u) => ∃ v, g_facts y i = Known v ∧ upgradeKey (upgrade_record depth fail) (mkey i) (Some v) = Ok (Some u)
      | Ok None => g_facts y i = Absent
      | Err _ => True
      end
  end.

Lemma cached_get_safe i s x :
  cached (ms_cache s) x → safe_m (ends_in (found i s x)) (Some x) (cached_get depth fail (mkey i) s).
Proof.
  intros Hc. unfold cached_get. eapply (safe_in_bind _ _ _ _ (λ g o, match o with Ok p => looked i x g p | Err _ => False end)); [|intros g o Ho|done].
  - eapply safe_in_catch; [by apply look_safe|done].
  - destruct g as [y|]; [|by destruct o as [[]|]]. destruct Ho as [He Ho]. cbn. destruct o as [[[u|] c]|e].
    + by destruct Ho.
    + by destruct Ho.
    + refine (conj He (conj _ (conj eq_refl I))). eapply cached_part; [apply part_forget|]. by eapply cached_extends.
Qed.

(** A step, after [x], when [n] calls may have left no record. *)
Definition stepped (n : nat) (s : model_state V) (x : ghost) (g : option ghost) (o : outcome E js) (s' : model_state V) : Prop :=
  match g with
  | None => True
  | Some y =>
      (∀ i v, g_facts x i = Known v → g_facts y i = Known v) ∧ cached (ms_cache s') y ∧
      match o with
      | Ok r => g_calls y ≤ g_writes y + n ∧ ms_step s' = N.succ (ms_step s) ∧
          ∃ v, g_facts y (ms_step s) = Known v ∧ shown (ms_step s) v = r
      | Err _ => g_calls y ≤ S (g_writes y + n)
      end
  end.

(** What a part of a step that neither calls the model nor records may do. *)
Definition aside (s : model_state V) (x : ghost (V := V)) (g : option ghost) (_ : outcome E unit) (s' : model_state V) : Prop :=
  extends x g ∧ ms_step s' = ms_step s ∧ cache_part (ms_cache s') (ms_cache s).

Lemma limits_aside s x : safe_m (ends_in (aside s x)) (Some x) (step_limits full_caps limits_fail limit_fuel runId limits s).
Proof.
  unfold step_limits. eapply (safe_in_bind _ _ _ _ (λ g o, match o with Ok _ => extends x g | Err _ => False end)); [|intros g o Ho|done].
  - eapply (safe_in_catch _ _ _ _ (λ g _, extends x g)); [|done]. eapply (modest_safe _ _ (λ _, True)); [apply modest_limits|apply gives_any|]. by intros g [a|e] Hg _.
  - by destruct o.
Qed.

Lemma divergence_aside step hash s x :
  safe_m (ends_in (aside s x)) (Some x) (warnOnModelDivergence depth fail strict (modelClaimKey runId step) hash s).
Proof.
  unfold warnOnModelDivergence. destruct (_ && _); [|by split_and!].
  eapply (safe_in_cbind _ _ _ _ (λ g _ s', aside s x g (Ok tt) s')); [|done|done]. unfold cached_get.
  eapply (safe_in_bind _ _ _ _ (λ g o, match o with Ok (Ok p) => extends x g ∧ cache_part (snd p) (ms_cache s) | Ok (Err _) => extends x g | Err _ => False end)); [|intros g o Ho|done].
  - eapply (safe_in_catch _ _ _ _ (λ g o, match o with Ok p => extends x g ∧ cache_part (snd p) (ms_cache s) | Err _ => extends x g end)); [|by intros g [p|e]].
    eapply modest_safe; [apply modest_ctxGet|apply gives_ctxGet|]. by intros g [p|e] Hg Hp.
  - destruct o as [[v c]|e]; [destruct Ho; by split_and!|]. split_and!; [done..|apply part_forget].
Qed.

(** The rest of a step whose answer is recorded. *)
Lemma ending_safe n s s1 x y r :
  cached (ms_cache s1) y → ms_step s1 = ms_step s → g_calls y ≤ g_writes y + n →
  (∀ i v, g_facts x i = Known v → g_facts y i = Known v) → (∃ v, g_facts y (ms_step s) = Known v ∧ shown (ms_step s) v = r) →
  safe_m (ends_in (stepped n s x)) (Some y)
    (cbind (λ _, cbind (λ _, creturn r) (step_limits full_caps limits_fail limit_fuel runId limits)) advance s1).
Proof.
  intros Hc Hs Hle Hk (v & Hv & Hr). change (safe_m (ends_in (stepped n s x)) (Some y)
    (cbind (λ _, creturn r) (step_limits full_caps limits_fail limit_fuel runId limits) (next_step s1))).
  assert (Hend : ∀ g o s2, aside (next_step s1) y g o s2 → ∀ o' : outcome E js, (o' = Ok r ∨ ∃ e, o' = Err e) → stepped n s x g o' s2).
  { intros [z|] o s2 (He & Hst & Hca) o' Ho'; [|done]. pose proof He as (Hcalls & Hwrites & Hf). cbn. split_and!.
    - intros i u Hu. by rewrite Hf; rewrite (Hk i u Hu).
    - eapply cached_part; [exact Hca|]. by eapply cached_extends.
    - destruct Ho' as [->|[e ->]]; [|lia]. split_and!; [lia|by rewrite Hst, <- Hs|]. exists v. split; [|done]. by rewrite Hf; rewrite Hv. }
  eapply safe_in_cbind; [apply limits_aside| |]; cbn; intros; eapply Hend; eauto.
Qed.

Lemma claim_failed_safe {A} (post : option ghost → outcome E A → Prop) step hash e x :
  (∀ g' e', extends x g' → post g' (Err e')) → safe_m post (Some x) (claim_failed (modelClaimKey runId step) hash e).
Proof.
  intros Hp. eapply (modest_safe _ _ (λ _ : A, False)); [apply modest_claim_failed| |].
  - unfold claim_failed. eapply gives_bind; [apply gives_any|intros now _]. by eapply gives_bind; [apply gives_any|intros _ _].
  - intros g [a|e'] Hg Ho; [done|by apply Hp].
Qed.

(** The call of the model and the record of its answer. *)
Definition called (n : nat) (i : N) (x : ghost) (g : option ghost) (o : outcome E (list (string * js))) : Prop :=
  match g with
  | None => True
  | Some y =>
      (∀ j v, g_facts x j = Known v → g_facts y j = Known v) ∧
      match o with
      | Ok r => g_calls y ≤ g_writes y + n ∧ ∃ v, g_facts y i = Known v ∧ shown i v = JObj r
      | Err _ => g_calls y ≤ S (g_writes y + n)
      end
  end.

Lemma called_extends n i x y e g : called n i x (Some y) (Err e) → extends y g → ∀ e', called n i x g (Err e').
Proof.
  destruct g as [z|]; [|done]. intros [Hk Hc] (Hcalls & Hwrites & Hf) e'. split; [|lia]. intros j v Hj. by rewrite Hf; rewrite (Hk j v Hj).
Qed.

Lemma model_call_safe n i hash params x :
  within budget n → g_calls x ≤ g_writes x + n → g_facts x i = Absent →
  safe_m (called n i x) (Some x)
    (ptry (claim_failed (modelClaimKey runId i) hash)
      (a ← request (RExt (QModel Generate i params));
       _ ← jput (mkey i) (inj (JObj (stampFormat (generated a))));
       now ← dateNow;
       _ ← jput (modelClaimKey runId i) (inj (ModelClaim ClaimSucceeded now hash));
       mret (generated a))).
Proof.
  intros Hn Hle Habs. eapply (safe_in_try _ _ _ _ (called n i x)); [|done|].
  2: { intros [y|] e Hy; [|by apply safe_None]. apply claim_failed_safe. intros g' e' He. by eapply called_extends. }
  split; [by exists n|]. intros [a|e] Ha; [|split; [done|cbn; lia]]. cbn in Ha |- *.
  split. { intros j Hj. rewrite step_of_key in Hj. by injection Hj as <-. }
  assert (Hset : ∀ f j v, g_facts x j = Known v → set_fact (V := V) i f (g_facts x) j = Known v).
  { intros f j v Hj. unfold set_fact. destruct (decide (j = i)) as [->|]; [by rewrite Habs in Hj|done]. }
  intros o _. cbn. rewrite step_of_key. destruct o as [[]|e]; [|split; [by intros j v Hj; apply Hset|cbn; lia]].
  assert (Hrec : ∃ v, set_fact i (Known (inj (JObj (stampFormat (generated a))) : V)) (g_facts x) i = Known v ∧ shown i v = JObj (generated a)).
  { eexists. split; [unfold set_fact; by rewrite decide_True|by apply shown_stamped]. }
  split; [done|]. intros [now|e] _; cbn; [|split; [by intros j v Hj; apply Hset|cbn; lia]].
  split; [intros j; unfold modelClaimKey; by rewrite step_of_proc|].
  intros o _. cbn. unfold modelClaimKey. rewrite step_of_proc.
  destruct o as [[]|e]; (split; [by intros j v Hj; apply Hset|cbn]); [split; [lia|exact Hrec]|lia].
Qed.

(** A modest part of a step, before the call. *)
Lemma modest_aside {A} (p : prog V model_query answer E A) s x :
  only (modest runId) p → safe_m (ends_in (λ g _ (s' : model_state V), extends x g ∧ s' = s)) (Some x) (clift p s).
Proof.
  intros Hp. apply safe_in_clift. eapply (modest_safe _ _ (λ _, True)); [exact Hp|apply gives_any|]. by intros g o Hg _.
Qed.

Lemma stepped_err n s x y g s' e :
  (∀ i v, g_facts x i = Known v → g_facts y i = Known v) → cached (ms_cache s') y → g_calls y ≤ g_writes y + n →
  extends y g → stepped n s x g (Err e) s'.
Proof.
  intros Hk Hc Hle Hg. destruct g as [z|]; [|done]. pose proof Hg as (Hcalls & Hwrites & Hf). split_and!.
  - intros i v Hi. by rewrite Hf; rewrite (Hk i v Hi).
  - by eapply cached_extends.
  - lia.
Qed.

Lemma wrapGenerate_safe n params s x :
  within budget n → cached (ms_cache s) x → g_calls x ≤ g_writes x + n →
  safe_m (ends_in (stepped n s x)) (Some x)
    (wrapGenerate full_caps normalize sha256 depth fail limits_fail limit_fuel runId limits strict opts params s).
Proof.
  intros Hn Hc Hle. unfold wrapGenerate, mbind, closure_bind, mret, closure_ret. unfold cbind at 1. cbn [pbind the_step fst snd].
  assert (Hkeep : ∀ y i v, extends x (Some y) → g_facts x i = Known v → g_facts y i = Known v).
  { intros y i v (_ & _ & Hf) Hi. by rewrite Hf; rewrite Hi. }
  eapply safe_in_cbind; [by apply cached_get_safe| |].
  2: { intros [y|] e s' Hy; [|done]. destruct Hy as (He & Hcy & Hst & _). pose proof He as (Hcalls & Hwrites & _).
       eapply (stepped_err n s x y); [by intros; eapply Hkeep|done|lia|by split_and!]. }
  intros [y|] hit s1 Hl; [|by apply safe_None; intros [[]|]]. destruct Hl as (He & Hcy & Hst & Hhit).
  pose proof He as (Hcalls & Hwrites & Hf).
  assert (Hky : ∀ i v, g_facts x i = Known v → g_facts y i = Known v) by (intros i v; by apply Hkeep).
  destruct hit as [u|].
  - destruct Hhit as (v & Hv & Hu). destruct (entryPointMatches _ _); [|by eapply (stepped_err n s x y); [..|split_and!]; [| |lia|..]].
    eapply safe_in_cbind; [apply divergence_aside| |].
    + intros [z|] [] s2 (Hz & Hst2 & Hpart); [|by apply safe_None; intros [[]|]]. pose proof Hz as (Hzc & Hzw & Hzf). apply ending_safe; [| |lia| |].
      * eapply cached_part; [exact Hpart|]. by eapply cached_extends.
      * congruence.
      * intros i u' Hi. by rewrite Hzf; rewrite (Hky i u' Hi).
      * exists v. split; [by rewrite Hzf; rewrite Hv|]. unfold shown. by rewrite Hu.
    + intros g e s2 (Hz & _ & Hpart). eapply (stepped_err n s x y); [done| |lia|done]. by eapply cached_part.
  - eapply safe_in_cbind; [apply modest_aside; apply only_bind; [split; [done|by intros [?|?]]|by intros [v|]]| |].
    2: { intros g e s2 [Hz ->]. by eapply (stepped_err n s x y); [..|lia|]. }
    intros [z|] [] s2 [Hz ->]; [|by apply safe_None; intros [[]|]].
    eapply safe_in_cbind; [apply modest_aside, modest_acquire| |].
    2: { intros g e s2 [Hz' ->]. eapply (stepped_err n s x y); [done..|lia|by eapply extends_trans]. }
    intros [z'|] [] s2 [Hz' ->]; [|by apply safe_None; intros [[]|]].
    assert (Hyz : extends y (Some z')) by (by eapply extends_trans). pose proof Hyz as (Hzc & Hzw & Hzf).
    assert (Habs : g_facts z' (ms_step s) = Absent) by (by rewrite Hzf; rewrite Hhit).
    assert (Hcz : ∀ w, (∀ j v, g_facts z' j = Known v → g_facts w j = Known v) → cached (ms_cache s1) w).
    { intros w Hw. destruct (cached_extends _ _ _ Hyz Hcy) as [Hwf Hcc]. split; [done|]. intros j v Hj. by apply Hw, Hcc. }
    assert (Hkz : ∀ i v, g_facts x i = Known v → g_facts z' i = Known v) by (intros i v Hi; by rewrite Hzf; rewrite (Hky i v Hi)).
    eapply safe_in_cbind; [apply safe_in_kept, (model_call_safe n); [done|lia|exact Habs]| |].
    + intros [w|] r s2 [Hw ->]; [|by apply safe_None; intros [[]|]]. destruct Hw as (Hwk & Hwle & Hwr).
      apply ending_safe; [by apply Hcz|congruence|done| |done].
      intros i v Hi. by apply Hwk, Hkz.
    + intros [w|] e s2 [Hw ->]; [|done]. destruct Hw as (Hwk & Hwle). split_and!; [intros i v Hi; by apply Hwk, Hkz|by apply Hcz|done].
Qed.
End Step.

(** ** One attempt, crashed or not *)

Section Attempt.
Context {V : Type} `{!JsValue V, !Embed limit_chain V, !Embed limit_counters V, !Embed pricing_doc V, !Embed tool_record V,
  !Embed js V, !Embed model_claim V, !Embed cancel_record V} {E : Type}.
Variable normalize sha256 : string → string.
Variable depth : nat.
Variable fail : model_error → E.
Variable limits_fail : limits_error → E.
Variable limit_fuel : nat.
Variable runId : string.
Variable limits : option run_limits.
Variable strict : bool.
Variable opts : model_options.
Variable budget : option nat.
Abbreviation answer := (model_answer E).
Abbreviation world_ := (world V model_query).
Abbreviation mkey := (model_key runId).
Abbreviation safe_m := (safe_in (V := V) (Q := model_query) (R := answer) (E := E) plain_answers (may_step runId budget) (learn_ghost runId)).

(** An attempt: what calls the model, and the replay cache it starts with. *)
Record model_attempt := Attempt { at_client : client js E js; at_cache : option (jsmap V) }.

Abbreviation generate := (wrapGenerate full_caps normalize sha256 depth fail limits_fail limit_fuel runId limits strict opts).

Definition attempt_prog (a : model_attempt) : prog V model_query answer E (outcome E (list (model_state V * js)) * model_state V) :=
  run_client generate (at_client a) (ModelState 0 (at_cache a) []).

(** The answers are those of the records. *)
Definition told (x : ghost (V := V)) (l : list (model_state V * js)) : Prop :=
  ∀ s a, (s, a) ∈ l → ∃ v, g_facts x (ms_step s) = Known v ∧ shown depth fail runId (ms_step s) v = a.

Definition attempt_post (x : ghost (V := V)) (g : option (ghost (V := V))) (o : outcome E (list (model_state V * js))) (_ : model_state V) : Prop :=
  match g with
  | None => True
  | Some y => (∀ i v, g_facts x i = Known v → g_facts y i = Known v) ∧ match o with Ok l => told y l | Err _ => True end
  end.

(** After [n] errors, the client may be told of as many more as the budget has left. *)
Definition patient (n : nat) (c : client js E js) : Prop :=
  match budget with Some m => ∃ r, n + r ≤ m ∧ retries_within r c | None => True end.

Lemma patient_within n c : patient n c → within budget n.
Proof. unfold patient, within. destruct budget; [|done]. intros (r & Hr & _). lia. Qed.

Lemma patient_ok n params (next : outcome E js → client js E js) a : patient n (Ask params next) → patient n (next (Ok a)).
Proof. unfold patient. destruct budget; [|done]. intros (r & Hr & Ha & _). exists r. by split; [|apply Ha]. Qed.

Lemma patient_err n params (next : outcome E js → client js E js) e :
  patient n (Ask params next) → next (Err e) = Stop ∨ patient (S n) (next (Err e)).
Proof.
  unfold patient. destruct budget; [|by right]. intros (r & Hr & _ & He). destruct (He e) as [Hs|Hs]; [by left|right].
  destruct r as [|r]; [done|]. exists r. split; [lia|done].
Qed.

Lemma client_safe c n s x :
  patient n c → cached runId (ms_cache s) x → g_calls x ≤ g_writes x + n → safe_m (ends_in (attempt_post x)) (Some x) (run_client generate c s).
Proof.
  revert n s x. induction c as [|params next IH]; intros n s x Hp Hc Hle; [by split; [|intros t a []%elem_of_nil]|].
  cbn [run_client]. eapply safe_in_bind; [apply (wrapGenerate_safe _ _ _ _ _ _ _ _ _ _ _ n); [by eapply patient_within|done..]| |by intros].
  intros [y|] [o s1] Hy; [|by apply safe_None; intros [[]|]]. destruct Hy as (Hk & Hcy & Ho). cbn [fst snd].
  assert (Hrest : safe_m (ends_in (attempt_post y)) (Some y) (run_client generate (next o) s1)).
  { destruct o as [r|e]; [apply (IH _ n); [by eapply patient_ok|done|apply Ho]|].
    destruct (patient_err n params next e Hp) as [->|Hp']; [by split; [|intros t a []%elem_of_nil]|]. apply (IH _ (S n)); [done..|lia]. }
  eapply safe_in_bind; [exact Hrest| |by intros]. intros [z|] [q s2] Hz; [|done]. destruct Hz as (Hkz & Hq). cbn [fst snd].
  split; [intros i v Hi; by apply Hkz, Hk|]. destruct o as [r|e]; [|done]. destruct q as [l|e]; [|done].
  intros t a [Heq|Hin]%elem_of_cons; [|by apply Hq]. injection Heq as -> ->. destruct Ho as (_ & _ & v & Hv & Hr). exists v. split; [by apply Hkz|done].
Qed.

(** *** The journal, the calls and the ghost state *)

Definition is_call (q : model_query) : bool := match q with QModel _ _ _ => true | QDeliver _ => false end.
Definition model_calls (w : world_) : nat := count_if is_call (trace w).
Definition is_record (k : string) : bool := bool_decide (is_Some (record_step runId k)).
Definition records (w : world_) : nat := count_if is_record (mkeys (store (jr w))).

Definition holds (f : known (V := V)) (w : world_) : Prop :=
  ∀ i, match f i with Unknown => True | Absent => jkey (mkey i) w = None | Known v => jkey (mkey i) w = Some v end.

(** What was recorded in [w0] is recorded in [w]. *)
Definition kept (w0 w : world_) : Prop := ∀ i v, jkey (mkey i) w0 = Some v → jkey (mkey i) w = Some v.

(** One call more than the records and the errors the client was told of, at most. *)
Definition one_ahead (x : ghost (V := V)) : Prop := ∃ n, within budget n ∧ g_calls x ≤ S (g_writes x + n).

Lemma one_ahead_le x y : g_calls y ≤ g_calls x → g_writes x ≤ g_writes y → one_ahead x → one_ahead y.
Proof. intros Hc Hw (n & Hn & Hle). exists n. split; [done|lia]. Qed.

Record accounted (w0 : world_) (w : world_) (gs : list (option (ghost (V := V)))) : Prop := Accounted {
  ac_one : length gs = 1;
  ac_facts : ∀ g, g ∈ gs → ∃ x, g = Some x ∧ holds (g_facts x) w ∧ model_calls w ≤ model_calls w0 + g_calls x ∧
    records w0 + g_writes x ≤ records w ∧ one_ahead x;
  ac_kept : kept w0 w;
}.

Lemma jkey_other (h : oracle model_query answer E) (r : req V model_query) w i :
  match r with RPut k _ | RPutIfAbsent k _ | RPutIfMatch k _ _ => k ≠ mkey i | _ => True end →
  jkey (mkey i) (snd (perform h r w)) = jkey (mkey i) w.
Proof.
  intros Hr. rewrite perform_jkey.
  - destruct (jkey (mkey i) w), r; try done. by rewrite (proj2 (String.eqb_neq _ _)).
  - destruct r; try done; by apply String.eqb_neq.
Qed.

Lemma records_mset j j' k v : store j' = mset k v (store j) →
  count_if is_record (mkeys (store j)) ≤ count_if is_record (mkeys (store j')) ∧
  (is_record k = true → mget k (store j) = None → S (count_if is_record (mkeys (store j))) ≤ count_if is_record (mkeys (store (V := V) j'))).
Proof.
  intros ->. rewrite mkeys_mset. destruct (mhas k (store j)) eqn:Hk.
  - split; [done|]. intros _ Hn. apply mhas_false in Hn. congruence.
  - rewrite count_if_app, count_if_cons. cbn. split; [lia|]. intros -> _. lia.
Qed.

Lemma records_mono (h : oracle model_query answer E) (r : req V model_query) w : records w ≤ records (snd (perform h r w)).
Proof.
  unfold records. destruct r; try done; cbn [perform snd jr set_jr].
  - by eapply records_mset.
  - rewrite mj_putIfAbsent_spec. destruct (mj_get k (jr w)); [done|]. by eapply records_mset.
  - rewrite mj_putIfMatch_spec. case_bool_decide; [|done]. by eapply records_mset.
Qed.

Lemma calls_perform (h : oracle model_query answer E) (r : req V model_query) w :
  model_calls (snd (perform h r w)) = (match r with RExt (QModel _ _ _) => 1 | _ => 0 end) + model_calls w.
Proof.
  unfold model_calls. destruct r as [| | | | | | | | | | | | | | | | | |q]; try done.
  cbn [perform snd trace]. rewrite count_if_cons. by destruct q.
Qed.

(** The ghost state and the journal stay in step. *)
Definition in_step (w0 : world_) (x : ghost (V := V)) (w : world_) : Prop :=
  holds (g_facts x) w ∧ model_calls w ≤ model_calls w0 + g_calls x ∧
  records w0 + g_writes x ≤ records w ∧ one_ahead x.

Lemma holds_same f w w' : (∀ i, jkey (mkey i) w' = jkey (mkey i) w) → holds f w → holds f w'.
Proof. intros He Hf i. specialize (Hf i). by rewrite He. Qed.

Lemma holds_set i a f w w' :
  (∀ j, j ≠ i → jkey (mkey j) w' = jkey (mkey j) w) → holds f w →
  match a with Unknown => True | Absent => jkey (mkey i) w' = None | Known v => jkey (mkey i) w' = Some v end →
  holds (set_fact i a f) w'.
Proof.
  intros He Hf Ha j. unfold set_fact. destruct (decide (j = i)) as [->|Hne]; [done|]. rewrite He by done. apply Hf.
Qed.

Lemma in_step_read w0 (h : oracle model_query answer E) k w o w' x :
  ends h (RGet k) w o w' → in_step w0 x w →
  ∃ y, learn_ghost runId (Some x) (RGet k) o = Some y ∧ in_step w0 y w' ∧ kept w w'.
Proof.
  intros He (Hf & Hrest). assert (w' = w) as -> by (destruct He as [[-> _]|[[->| ->] _]]; done).
  assert (Hkept : kept w w) by (by intros i v Hv). cbn. destruct (record_step runId k) as [i|] eqn:Hk; [|by exists x].
  apply step_of_Some in Hk as ->. destruct He as [[_ ->]|[_ [e ->]]]; [|by exists x].
  cbn. specialize (Hf i) as Hi. unfold jkey in Hi. unfold learn_read.
  destruct (mj_get (mkey i) (jr w)) as [v|] eqn:Hv, (g_facts x i) as [| |u] eqn:Hx; try done.
  - eexists. split; [done|]. split; [|done]. split; [|exact Hrest]. by apply (holds_set i (Known v) _ w).
  - injection Hi as <-. rewrite decide_True by done. by exists x.
  - eexists. split; [done|]. split; [|done]. split; [|exact Hrest]. by apply (holds_set i Absent _ w).
  - by exists x.
Qed.

Lemma in_step_put w0 (h : oracle model_query answer E) k v w o w' x :
  may_step runId budget (Some x) (RPut k v) → ends h (RPut k v) w o w' → in_step w0 x w →
  ∃ y, learn_ghost runId (Some x) (RPut k v) o = Some y ∧ in_step w0 y w' ∧ kept w w'.
Proof.
  intros Hm He (Hf & Hc & Hr & Hle). cbn in Hm |- *.
  assert (Hcalls : model_calls w' = model_calls w) by (destruct He as [[-> _]|[[->| ->] _]]; [by rewrite (calls_perform h)|done|by rewrite (calls_perform h)]).
  assert (Hrec : records w ≤ records w') by (destruct He as [[-> _]|[[->| ->] _]]; [apply records_mono|done|apply records_mono]).
  destruct (record_step runId k) as [i|] eqn:Hk.
  - apply step_of_Some in Hk as ->. specialize (Hm i eq_refl). specialize (Hf i) as Hi. rewrite Hm in Hi.
    assert (Hne : ∀ j, j ≠ i → jkey (mkey j) w' = jkey (mkey j) w).
    { intros j Hj. destruct He as [[-> _]|[[->| ->] _]]; [|done|]; apply jkey_other; intros Hk; apply Hj; symmetry; by eapply model_key_inj. }
    assert (Hkept : kept w w').
    { intros j u Hu. destruct (decide (j = i)) as [->|Hj]; [congruence|]. by rewrite Hne. }
    destruct He as [[Hw' ->]|[_ [e ->]]]; eexists; (split; [done|]); split; try exact Hkept.
    + assert (Hv : jkey (mkey i) w' = Some v) by (rewrite Hw'; unfold jkey; cbn; unfold mj_get; cbn; apply mget_mset).
      split_and!; cbn; [by apply (holds_set i (Known v) _ w)|lia| |eapply one_ahead_le; [| |exact Hle]; cbn; lia].
      enough (S (records w) ≤ records w') by lia. rewrite Hw'. unfold records. eapply records_mset; [done| |exact Hi].
      apply bool_decide_eq_true. rewrite step_of_key. by eexists.
    + split_and!; cbn; [by apply (holds_set i Unknown _ w)|lia|lia|eapply one_ahead_le; [| |exact Hle]; cbn; lia].
  - assert (Hsame : ∀ j, jkey (mkey j) w' = jkey (mkey j) w).
    { intros j. destruct He as [[-> _]|[[->| ->] _]]; [|done|]; apply jkey_other; intros ->; by rewrite step_of_key in Hk. }
    exists x. split; [by destruct o|]. split; [|by intros j u Hu; rewrite Hsame].
    split_and!; [by eapply holds_same|lia|lia|done].
Qed.

Lemma in_step_ext w0 (h : oracle model_query answer E) q w o w' x :
  may_step runId budget (Some x) (RExt q) → ends h (RExt q) w o w' → in_step w0 x w →
  ∃ y, learn_ghost runId (Some x) (RExt q) o = Some y ∧ in_step w0 y w' ∧ kept w w'.
Proof.
  intros Hm He (Hf & Hc & Hr & Hle).
  assert (Hcalls : model_calls w' ≤ (if is_call q then 1 else 0) + model_calls w).
  { destruct He as [[-> _]|[[->| ->] _]]; [rewrite (calls_perform h)|lia|rewrite (calls_perform h)]; by destruct q. }
  assert (Hj : ∀ i, jkey (mkey i) w' = jkey (mkey i) w) by (intros i; by destruct He as [[-> _]|[[->| ->] _]]).
  assert (Hrec : records w' = records w) by (by destruct He as [[-> _]|[[->| ->] _]]).
  assert (Hkept : kept w w') by (intros i u Hu; by rewrite Hj).
  destruct q as [e n p|c]; cbn in *.
  - eexists. split; [done|]. split; [|exact Hkept]. split_and!; cbn; [by eapply holds_same|lia|lia|]. destruct Hm as (n' & Hn & Hm). exists n'. split; [done|cbn; lia].
  - exists x. split; [done|]. split; [|exact Hkept]. split_and!; [by eapply holds_same|lia|lia|done].
Qed.

Lemma in_step_any w0 (h : oracle model_query answer E) r w o w' x :
  may_step runId budget (Some x) r → ends h r w o w' → in_step w0 x w →
  ∃ y, learn_ghost runId (Some x) r o = Some y ∧ in_step w0 y w' ∧ kept w w'.
Proof.
  destruct r as [k|k v|k v|k e v| | | | | | | | | | | | | | |q]; intros Hm He Hx;
    [by eapply in_step_read|by eapply in_step_put| ..|by eapply in_step_ext];
    (exists x; split; [done|]); destruct Hx as (Hf & Hc & Hr & Hle).
  all: assert (Hj : ∀ i, jkey (mkey i) w' = jkey (mkey i) w)
    by (intros i; destruct He as [[-> _]|[[->| ->] _]]; [apply jkey_other|done|apply jkey_other];
        try done; intros ->; cbn in Hm; by rewrite step_of_key in Hm).
  all: assert (Hrec : records w ≤ records w') by (destruct He as [[-> _]|[[->| ->] _]]; [apply records_mono|done|apply records_mono]).
  all: assert (Hcalls : model_calls w' = model_calls w)
    by (destruct He as [[-> _]|[[->| ->] _]]; [by rewrite (calls_perform h)|done|by rewrite (calls_perform h)]).
  all: (split; [split_and!; [by eapply holds_same|lia|lia|done]|intros i u Hu; by rewrite Hj]).
Qed.

(** A replay cache is a part of the journal it was loaded from. *)
Definition snapshot (a : model_attempt) (w : world_) : Prop :=
  cache_wf (at_cache a) ∧ ∀ k v, at_cache a ≫= mget k = Some v → jkey k w = Some v.

Definition first_ghost (a : model_attempt) : ghost (V := V) :=
  Ghost (λ i, match at_cache a ≫= mget (mkey i) with Some v => Known v | None => Unknown end) 0 0.

Lemma accounted_ends w0 (h : oracle model_query answer E) r w o w' i g gs :
  gs !! i = Some g → may_step runId budget g r → ends h r w o w' → accounted w0 w gs →
  accounted w0 w' (<[i := learn_ghost runId g r o]> gs).
Proof.
  intros Hi Hm He [Hone Hfacts Hkept]. destruct gs as [|g0 [|]]; try done. destruct i; [|done]. injection Hi as ->.
  destruct (Hfacts g) as (x & -> & Hx); [by left|].
  destruct (in_step_any w0 h r w o w' x Hm He Hx) as (y & Hy & Hin & Hk). rewrite Hy. split; [done| |].
  - intros g' [->|[]%elem_of_nil]%elem_of_cons. by exists y.
  - intros j v Hv. by apply Hk, Hkept.
Qed.

Lemma attempt_spec a w ps' w' :
  patient 0 (at_client a) → snapshot a w → reachable_in (plain_answers (E := E)) ([attempt_prog a], w) (ps', w') →
  ∃ p x, ps' = [p] ∧ in_step w x w' ∧ kept w w' ∧ safe_m (ends_in (attempt_post (first_ghost a))) (Some x) p.
Proof.
  intros Hpat [Hwf Hsnap] Hr.
  assert (Hstart : accounted w w [Some (first_ghost a)]).
  { split; [done| |by intros i v]. intros g [->|[]%elem_of_nil]%elem_of_cons. exists (first_ghost a). split; [done|].
    split_and!; cbn; [|lia|lia|exists 0; split; [by eapply patient_within|cbn; lia]]. intros i. cbn.
    destruct (at_cache a ≫= mget (mkey i)) as [v|] eqn:Hv; [|done]. by apply Hsnap. }
  destruct (pool_ends_in (R := answer) (E := E) (may_step runId budget) (learn_ghost runId) (accounted w)) with (P := plain_answers (V := V) (E := E))
    (post := ends_in (attempt_post (first_ghost a)))
    (c := ([attempt_prog a], w)) (c' := (ps', w')) (gs := [Some (first_ghost a)]) as (gs & Hacc & Hs); [| |exact Hr|exact Hstart| |].
  - intros w1 gs c x Hc [Hone Hf Hk]. by split.
  - intros h w1 gs i g r o w2 Hg Hm _ He Hw1. by eapply accounted_ends.
  - constructor; [|constructor]. apply (client_safe _ 0); [done| |done].
    split; [done|]. intros i v Hv. cbn in *. by rewrite Hv.
  - destruct Hacc as [Hone Hfacts Hkept]. cbn [fst snd] in *. destruct gs as [|g [|]]; try done.
    apply Forall2_cons_inv_l in Hs as (p & ps & Hp & Hnil & ->). apply Forall2_nil_inv_l in Hnil as ->.
    destruct (Hfacts g) as (x & -> & Hx); [by left|]. by exists p, x.
Qed.
End Attempt.

(** ** Histories: one attempt after the other *)

Section History.
Context {V : Type} `{!JsValue V, !Embed limit_chain V, !Embed limit_counters V, !Embed pricing_doc V, !Embed tool_record V,
  !Embed js V, !Embed model_claim V, !Embed cancel_record V} {E : Type}.
Variable normalize sha256 : string → string.
Variable depth : nat.
Variable fail : model_error → E.
Variable limits_fail : limits_error → E.
Variable limit_fuel : nat.
Variable runId : string.
Variable limits : option run_limits.
Variable strict : bool.
Variable opts : model_options.
Abbreviation answer := (model_answer E).
Abbreviation world_ := (world V model_query).
Abbreviation mkey := (model_key runId).
Abbreviation attempt := (model_attempt (V := V) (E := E)).
Abbreviation attempt_ := (attempt_prog normalize sha256 depth fail limits_fail limit_fuel runId limits strict opts).
Abbreviation spec := (attempt_spec normalize sha256 depth fail limits_fail limit_fuel runId limits strict opts).

(** The steps that an attempt which ended was answered, and the answers. *)
Definition result (p : prog V model_query answer E (outcome E (list (model_state V * js)) * model_state V)) : option (list (N * js)) :=
  match p with Ret (Ok l, _) => Some (map (λ q, (ms_step (fst q), snd q)) l) | _ => None end.

Inductive history : world_ → list (attempt * option (list (N * js))) → world_ → Prop :=
| history_nil w : history w [] w
| history_cons a w p w1 hs w2 :
    snapshot a w → reachable_in (plain_answers (E := E)) ([attempt_ a], w) ([p], w1) →
    history w1 hs w2 → history w ((a, result p) :: hs) w2.

Lemma history_kept w hs w' : history w hs w' → kept runId w w'.
Proof.
  induction 1 as [w|a w p w1 hs w2 Hs Hr Hh IH]; [by intros i v|].
  destruct (spec None a w _ _ I Hs Hr) as (p' & x & _ & _ & Hk & _). intros i v Hv. by apply IH, Hk.
Qed.

Lemma history_told w hs w' a l k r :
  history w hs w' → (a, Some l) ∈ hs → (k, r) ∈ l → ∃ v, jkey (mkey k) w' = Some v ∧ shown depth fail runId k v = r.
Proof.
  induction 1 as [w|b w p w1 hs w2 Hs Hr Hh IH]; [by intros []%elem_of_nil|].
  intros [Heq|Hin]%elem_of_cons Hl; [|by apply IH]. injection Heq as <- Hp.
  destruct (spec None a w _ _ I Hs Hr) as (p' & x & [= <-] & (Hf & _) & _ & Hsafe).
  destruct p as [[[l'|e] s']|e|r' k']; try discriminate Hp. injection Hp as ->.
  apply list_elem_of_fmap in Hl as ([s a'] & Heq & Hin). injection Heq as -> ->.
  destruct (proj2 Hsafe s a' Hin) as (v & Hv & Hsh). exists v. split; [|done]. apply (history_kept _ _ _ Hh).
  specialize (Hf (ms_step s)). by rewrite Hv in Hf.
Qed.

(** C3: A resumed run makes the same decisions.  Attempts at a run follow each other, whatever calls the
    model in each: it may ask different questions, call again after an error or give up.  Each attempt may be
    cut off at any request, with requests failing before or after they took effect.  Any two attempts
    that ended were given the same answer to each step they both were answered, and it is the answer the
    journal holds. *)
Theorem resumes_agree w hs w' a b la lb k x y :
  history w hs w' → (a, Some la) ∈ hs → (b, Some lb) ∈ hs → (k, x) ∈ la → (k, y) ∈ lb →
  x = y ∧ ∃ v, jkey (rk_model runId (dec k)) w' = Some v ∧ shown depth fail runId k v = x.
Proof.
  intros Hh Ha Hb Hx Hy. destruct (history_told _ _ _ _ _ _ _ Hh Ha Hx) as (v & Hv & <-).
  destruct (history_told _ _ _ _ _ _ _ Hh Hb Hy) as (v' & Hv' & <-). rewrite Hv in Hv'. injection Hv' as <-.
  split; [done|]. by exists v.
Qed.

(** C5: A crash costs at most one call of the model.  Over any attempts at a run, cut off anywhere and with
    any requests failing, the calls of the model are at most the steps that were newly recorded, one for each
    attempt, and one for each time the attempt may call again after an error: [ms] bounds how often each does. *)
Theorem crash_costs_one_call w hs w' (ms : list nat) :
  history w hs w' → Forall2 (λ m h, retries_within m (at_client (fst h))) ms hs →
  model_calls w' + records runId w ≤ model_calls w + records runId w' + length hs + sum_list ms.
Proof.
  intros Hh. revert ms. induction Hh as [w|a w p w1 hs w2 Hs Hr Hh IH]; intros ms Hms.
  { apply Forall2_nil_inv_r in Hms as ->. cbn. lia. }
  apply Forall2_cons_inv_r in Hms as (m & ms' & Hm & Hms & ->). specialize (IH ms' Hms). cbn [fst] in Hm.
  destruct (spec (Some m) a w _ _ (ex_intro _ m (conj (le_n _) Hm)) Hs Hr) as (p' & x & _ & (_ & Hc & Hrec & n & Hn & Hle) & _).
  cbn in Hn |- *. lia.
Qed.
End History.

(** ** A step alone *)

Ltac run_closure := unfold mbind, closure_bind, mret, closure_ret; rewrite run_cbind.

Section Look.
Context {V : Type} `{!JsValue V, !Embed js V} {E : Type}.
Variable depth : nat.
Variable fail : model_error → E.
Variable h : oracle model_query (model_answer E) E.

(** What a look at a key finds, and the closure after it. *)
Definition seen (key : string) (s : model_state V) (w : world V model_query) : option V :=
  match ms_cache s ≫= mget key with Some v => Some v | None => jkey key w end.
Definition forget (key : string) (s : model_state V) : model_state V := with_cache (mdel key <$> ms_cache s) s.

Lemma run_cached_get key s (w : world V model_query) :
  run h (cached_get depth fail key s) w = (Ok (upgradeKey (upgrade_record depth fail) key (seen key s w), forget key s), w).
Proof.
  unfold cached_get, seen, forget. rewrite run_bind, run_catch. unfold ctxGet, mbind, prog_bind, jget.
  assert (Hread : ∀ c : option (jsmap V), run h (pbind (λ v, pbind (λ u, Ret (u, c)) (of_outcome (upgradeKey (upgrade_record depth fail) key v))) (request (RGet key))) w =
    (match upgradeKey (upgrade_record depth fail) key (jkey key w) with Ok u => Ok (u, c) | Err e => Err e end, w)).
  { intros c. rewrite run_bind, run_rget. fold (jkey key w). rewrite run_bind. by destruct (upgradeKey _ key (jkey key w)). }
  destruct (ms_cache s) as [m|] eqn:Hm; cbn [fmap option_fmap option_map option_bind].
  - destruct (mget key m) as [v|] eqn:Hv.
    + rewrite run_bind. by destruct (upgradeKey _ key (Some v)).
    + rewrite mdel_absent by done. unfold mret, prog_ret. rewrite Hread. by destruct (upgradeKey _ key (jkey key w)).
  - unfold mret, prog_ret. rewrite Hread. by destruct (upgradeKey _ key (jkey key w)).
Qed.
End Look.

(** ** The last attempt: replay, then the model *)

Section Alone.
Context {V : Type} `{!JsValue V, !Embed limit_chain V, !Embed limit_counters V, !Embed pricing_doc V, !Embed tool_record V,
  !Embed js V, !Embed model_claim V, !Embed cancel_record V} {E : Type}.
Variable normalize sha256 : string → string.
Variable depth : nat.
Variable fail : model_error → E.
Variable limits_fail : limits_error → E.
Variable limit_fuel : nat.
Variable runId : string.
Variable h : oracle model_query (model_answer E) E.
Hypothesis answers : ∀ t e i p, ∃ r, h t (QModel e i p) = Ok (AGenerated r) ∧ mget "_v" r = None.
Abbreviation mkey := (model_key runId).
Abbreviation world_ := (world V model_query).
Abbreviation step_prog := (wrapGenerate full_caps normalize sha256 depth fail limits_fail limit_fuel runId None false (ModelOptions None)).
Abbreviation shown_ := (shown depth fail runId).

(** The record of a step, if there is one, reads back, and as an answer that was not streamed. *)
Definition readable (i : N) (w : world_) : Prop :=
  ∀ v, jkey (mkey i) w = Some v → ∃ u, upgradeKey (upgrade_record depth fail) (mkey i) (Some v) = Ok (Some u) ∧
    entryPointMatches (model_value u) Generate = true.

Definition uncanceled (w : world_) : Prop := jkey (cancelKey runId) w = None.

Lemma run_hit params i v w :
  jkey (mkey i) w = Some v → readable i w →
  run h (step_prog params (ModelState i None [])) w = (Ok (Ok (shown_ i v), ModelState (N.succ i) None []), w).
Proof.
  intros Hv Hr. destruct (Hr v Hv) as (u & Hu & He). unfold wrapGenerate. run_closure. cbn [the_step run ms_step].
  rewrite run_cbind, run_cached_get. unfold seen. cbn [ms_cache mbind option_bind]. change (rk_model runId (dec i)) with (mkey i).
  rewrite Hv, Hu, He. unfold shown. rewrite Hu. reflexivity.
Qed.

(** What a step that asks the model leaves. *)
Record asked (i : N) (r : list (string * js)) (w w1 : world_) : Prop := Asked {
  as_calls : model_calls w1 = S (model_calls w);
  as_record : jkey (mkey i) w1 = Some (inj (JObj (stampFormat r)));
  as_others : ∀ j, j ≠ i → jkey (mkey j) w1 = jkey (mkey j) w;
  as_flag : jkey (cancelKey runId) w1 = jkey (cancelKey runId) w;
}.

Lemma run_miss params i w :
  jkey (mkey i) w = None → uncanceled w →
  ∃ r w1, run h (step_prog params (ModelState i None [])) w = (Ok (Ok (JObj r), ModelState (N.succ i) None []), w1) ∧
    asked i r w w1 ∧ mget "_v" r = None.
Proof.
  intros Hv Hc. destruct (answers (trace w) Generate i params) as (r & Hr & Hplain).
  assert (Hne : ∀ k, k ≠ modelClaimKey runId i → k ≠ mkey i → ∀ w0 a b c,
    mj_get k (mj_put a (modelClaimKey runId i) b (mj_put a (mkey i) (inj (JObj (stampFormat r))) (mj_put a (modelClaimKey runId i) c w0))) = mj_get k w0).
  { intros k H1 H2 w0 a b c. by rewrite !mj_get_put_ne. }
  assert (Hpm : ∀ j, mkey j ≠ modelClaimKey runId i).
  { intros j Hj. pose proof (step_of_key runId j) as Hs. rewrite Hj in Hs. unfold modelClaimKey in Hs. by rewrite step_of_proc in Hs. }
  unfold wrapGenerate. generalize (safeRequestHash normalize sha256 params). intros hash.
  eexists r, _. split.
  - run_closure. cbn [the_step run ms_step]. rewrite run_cbind, run_cached_get. unfold seen. cbn [ms_cache mbind option_bind].
    change (rk_model runId (dec i)) with (mkey i). rewrite Hv. cbn -[mj_put jkey mget enforceStepLimits].
    unfold uncanceled, jkey in Hc. rewrite Hc. cbn -[mj_put]. rewrite Hr. cbn -[mj_put]. reflexivity.
  - split; [|done]. split.
    + done.
    + unfold jkey. cbn -[mj_put]. rewrite mj_get_put_ne by done. by rewrite mj_get_put.
    + intros j Hj. unfold jkey. cbn -[mj_put]. apply Hne; [done|]. intros Hk. apply Hj. by eapply model_key_inj.
    + unfold jkey. cbn -[mj_put]. apply Hne.
      * unfold cancelKey, modelClaimKey, rk_proc. intros Hk. apply str_app_inj_l in Hk. discriminate Hk.
      * intros Hk. pose proof (step_of_key runId i) as Hs. rewrite <- Hk in Hs. unfold cancelKey in Hs. by rewrite step_of_proc in Hs.
Qed.

(** The steps whose record is missing. *)
Definition missing (w : world_) (ks : list nat) : nat := count_if (λ k, bool_decide (jkey (mkey (N.of_nat k)) w = None)) ks.

(** The answers from step [i] on, as an attempt reports them, and as the journal holds them. *)
Fixpoint numbered (i : nat) (xs : list js) : list (model_state V * js) :=
  match xs with
  | [] => []
  | x :: xs => (ModelState (N.of_nat i) None [], x) :: numbered (S i) xs
  end.

Definition told_by (i : nat) (xs : list js) (w : world_) : Prop :=
  ∀ k a, xs !! k = Some a → ∃ v, jkey (mkey (N.of_nat (i + k))) w = Some v ∧ shown_ (N.of_nat (i + k)) v = a.

Lemma told_by_kept i xs w w1 : kept runId w w1 → told_by i xs w → told_by i xs w1.
Proof. intros Hk Ht k a Ha. destruct (Ht k a Ha) as (v & Hv & Hs). exists v. split; [by apply Hk|done]. Qed.

(** One step more, recorded or not. *)
Lemma run_next_step params i w :
  uncanceled w → readable i w →
  ∃ x w1, run h (step_prog params (ModelState i None [])) w = (Ok (Ok x, ModelState (N.succ i) None []), w1) ∧
    uncanceled w1 ∧ (∀ j, j ≠ i → jkey (mkey j) w1 = jkey (mkey j) w) ∧ kept runId w w1 ∧
    (∃ v, jkey (mkey i) w1 = Some v ∧ shown_ i v = x) ∧ (∀ v, jkey (mkey i) w = Some v → x = shown_ i v) ∧
    model_calls w1 = model_calls w + (if bool_decide (jkey (mkey i) w = None) then 1 else 0).
Proof.
  intros Hc Hr. destruct (jkey (mkey i) w) as [v|] eqn:Hv.
  - exists (shown_ i v), w. split_and!; [by apply run_hit|done|done|by intros j u Hu|by exists v|by intros v' [= <-]|cbn; lia].
  - destruct (run_miss params i w Hv Hc) as (r & w1 & Hrun & [Hcalls Hrec Hothers Hflag] & Hplain).
    exists (JObj r), w1. split_and!; try done.
    + unfold uncanceled. by rewrite Hflag.
    + intros j u Hu. destruct (decide (j = i)) as [->|Hj]; [congruence|]. by rewrite Hothers.
    + eexists. split; [done|]. by apply shown_stamped.
    + rewrite Hcalls. cbn. lia.
Qed.

Lemma missing_same w w1 ks :
  (∀ k, k ∈ ks → jkey (mkey (N.of_nat k)) w1 = jkey (mkey (N.of_nat k)) w) → missing w1 ks = missing w ks.
Proof.
  unfold missing. induction ks as [|k ks IH]; intros Hk; [done|]. rewrite !count_if_cons, Hk by (by left). rewrite IH; [done|].
  intros k' Hin. apply Hk. by right.
Qed.

Lemma run_steps n c i w :
  uncanceled w → asks_within n c → (∀ k, i ≤ k < i + n → readable (N.of_nat k) w) →
  ∃ xs w', run h (run_client step_prog c (ModelState (N.of_nat i) None [])) w
      = (Ok (Ok (numbered i xs), ModelState (N.of_nat (i + length xs)) None []), w') ∧
    follows c xs ∧ kept runId w w' ∧ told_by i xs w' ∧
    (∀ k v, k < length xs → jkey (mkey (N.of_nat (i + k))) w = Some v → xs !! k = Some (shown_ (N.of_nat (i + k)) v)) ∧
    model_calls w' = model_calls w + missing w (seq i (length xs)).
Proof.
  revert n i w. induction c as [|params next IH]; intros n i w Hc Hn Hr.
  { exists [], w. rewrite Nat.add_0_r. split_and!; [done|done|by intros j v|by intros k a|by cbn; intros; lia|unfold missing; cbn; lia]. }
  destruct n as [|n]; [done|]. destruct (run_next_step params (N.of_nat i) w Hc) as (x & w1 & Hrun & Hc1 & Ho & Hk & Hx & Hxr & Hcalls); [apply Hr; lia|].
  destruct (IH (Ok x) n (S i) w1 Hc1 (Hn x)) as (xs & w' & Hrun' & Hf & Hk' & Ht & Hrec & Hcalls').
  { intros k Hki. unfold readable. rewrite Ho by lia. apply Hr. lia. }
  exists (x :: xs), w'. cbn [run_client]. rewrite run_bind, Hrun. cbn [fst snd]. rewrite run_bind.
  replace (N.succ (N.of_nat i)) with (N.of_nat (S i)) by lia. rewrite Hrun'. cbn [fst snd length numbered run follows].
  replace (S i + length xs) with (i + S (length xs)) by lia. split_and!; [done|exact Hf| | | |].
  - intros j v Hv. by apply Hk', Hk.
  - intros [|k] a Ha; rewrite ?Nat.add_0_r.
    + injection Ha as <-. destruct Hx as (v & Hv & Hs). exists v. split; [by apply Hk'|done].
    + replace (i + S k) with (S i + k) by lia. by apply Ht.
  - intros [|k] v Hlt Hv; rewrite ?Nat.add_0_r in *.
    + cbn. by rewrite (Hxr v Hv).
    + replace (i + S k) with (S i + k) in * by lia. cbn. apply Hrec; [lia|]. rewrite Ho; [done|lia].
  - rewrite Hcalls', Hcalls. unfold missing at 2. cbn [seq]. rewrite count_if_cons. fold (missing w (seq (S i) (length xs))).
    rewrite (missing_same w w1); [lia|]. intros k Hin%elem_of_seq. apply Ho. lia.
Qed.

End Alone.

(** ** Examples *)

Inductive model_entry := MEntry (e : entry) | MClaim (c : model_claim) | MCancel (c : cancel_record).

Definition model_entry_eq_dec : EqDecision model_entry.
Proof.
  assert (EqDecision entry) by exact entry_eq_dec. solve_decision.
Defined.

#[global] Instance model_entry_js : JsValue model_entry := {|
  js_eq_dec := model_entry_eq_dec;
  str_field v f := match v with MEntry e => str_field e f | _ => None end;
  is_versioned v := match v with MEntry e => is_versioned e | _ => false end;
  ser_length v := match v with MEntry e => ser_length e | _ => 0 end;
|}.

#[global] Instance model_claim_embed : Embed model_claim model_entry :=
  {| inj := MClaim; prj v := match v with MClaim c => Some c | _ => None end; prj_inj _ := eq_refl |}.
#[global] Instance model_cancel_embed : Embed cancel_record model_entry :=
  {| inj := MCancel; prj v := match v with MCancel c => Some c | _ => None end; prj_inj _ := eq_refl |}.
(** Whatever the engine stores. *)
#[global] Instance model_rest_embed {T} `{!Embed T entry} : Embed T model_entry.
Proof.
  refine {| inj x := MEntry (inj x); prj v := match v with MEntry e => prj e | _ => None end |}.
  intros t. apply prj_inj.
Defined.

Section ReplayExamples.
Let text (s : string) : string := s.
Let fail (e : model_error) : string := match e with RunCanceled _ _ => "canceled" | _ => "refused" end.
Let limits_fail (e : limits_error) : string := "limit".
Abbreviation attempt_ := (model_attempt (V := model_entry) (E := string)).
Abbreviation sample_attempt := (attempt_prog text text 3 fail limits_fail 3 "r" None false (ModelOptions None)).
Abbreviation sample_history := (history text text 3 fail limits_fail 3 "r" None false (ModelOptions None)).
Abbreviation mworld := (world model_entry model_query).
Abbreviation mprog := (prog model_entry model_query (model_answer string) string).

(** The model numbers its answers; the flaky one fails its second call. *)
Definition numbering : oracle model_query (model_answer string) string :=
  λ t _, Ok (AGenerated [("text", JNum (Z.of_nat (length t)))]).
Definition flaky : oracle model_query (model_answer string) string :=
  λ t q, if length t =? 1 then Err "overloaded" else numbering t q.

(** Asks for two steps; the second again after one error. *)
Let again (params : js) (next : outcome string js → client js string js) : client js string js :=
  Ask params (λ o, match o with Ok _ => next o | Err _ => Ask params next end).
Let ask (q : string) : attempt_ :=
  Attempt (Ask (JObj [("prompt", JStr q)]) (λ o, match o with Ok x => again (JObj [("prompt", JArr [JStr q; x])]) (λ _, Stop) | Err _ => Stop end)) None.

Let w0 : mworld := World empty_journal 0 0 [] empty_work.

(** An attempt that is cut off after [n] requests. *)
Definition cut (n : nat) (a : attempt_) (w : mworld) : list (mprog (outcome string (list (model_state model_entry * js)) * model_state model_entry)) * mworld :=
  schedule flaky (replicate n 0) ([sample_attempt a], w).

Definition the_prog {A} (ps : list (mprog A)) : mprog A := default (Throw "") (head ps).

Lemma schedule_one {A} h n (p : mprog A) (w : mworld) :
  fst (schedule h (replicate n 0) ([p], w)) = [the_prog (fst (schedule h (replicate n 0) ([p], w)))].
Proof.
  revert p w. induction n as [|n IH]; intros p w; [done|].
  change (replicate (S n) 0) with (0 :: replicate n 0).
  change (schedule h (0 :: replicate n 0) ([p], w)) with (schedule h (replicate n 0) (schedule_step h ([p], w) 0)).
  unfold schedule_step. cbn [fst lookup list_lookup]. destruct p; apply IH.
Qed.

Lemma history_cut n a o w hs w2 :
  at_cache a = None → result (the_prog (fst (cut n a w))) = o → sample_history (snd (cut n a w)) hs w2 →
  sample_history w ((a, o) :: hs) w2.
Proof.
  intros Ha <- Hh. eapply history_cons; [|unfold cut; rewrite <- schedule_one, <- surjective_pairing|exact Hh].
  - unfold snapshot. rewrite Ha. split; [done|]. by intros k v.
  - apply schedule_reachable_in. intros r w'. destruct r as [| | | | | | | | | | | | | | | | | |[]]; try done.
    cbn. unfold flaky. by destruct (length (trace w') =? 1).
Qed.

(** The first attempt calls again after an error and is lost while the answer is on the way; two more end. *)
Let w1 : mworld := snd (cut 20 (ask "a") w0).
Let w2 : mworld := snd (cut 40 (ask "b") w1).
Let w3 : mworld := snd (cut 40 (ask "c") w2).
Let told_b : list (N * js) := [(0%N, JObj [("text", JNum 0)]); (1%N, JObj [("text", JNum 3)])].

Lemma sample_attempts :
  sample_history w0 [(ask "a", None); (ask "b", Some told_b); (ask "c", Some told_b)] w3.
Proof.
  apply (history_cut 20); [done|vm_compute; reflexivity|]. do 2 (apply (history_cut 40); [done|vm_compute; reflexivity|]).
  apply history_nil.
Qed.

Lemma resumes_agree_witness :
  JObj [("text", JNum 3)] = JObj [("text", JNum 3)] ∧
  ∃ v, jkey (rk_model "r" (dec 1)) w3 = Some v ∧ shown 3 fail "r" 1 v = JObj [("text", JNum 3)].
Proof.
  refine (resumes_agree text text 3 fail limits_fail 3 "r" None false (ModelOptions None) w0 _ w3
    (ask "b") (ask "c") told_b told_b 1 _ _ sample_attempts _ _ _ _).
  - right. by left.
  - right. right. by left.
  - right. by left.
  - right. by left.
Defined.

(** Four calls, for two steps: one failed, and one was lost with its attempt. *)
Lemma crash_costs_one_call_witness : model_calls w3 = 4 ∧ records "r" w3 = 2 ∧ 4 + 0 ≤ 0 + 2 + 3 + 3.
Proof.
  split; [vm_compute; reflexivity|]. split; [vm_compute; reflexivity|].
  refine (crash_costs_one_call text text 3 fail limits_fail 3 "r" None false (ModelOptions None) w0 _ w3 [1; 1; 1] sample_attempts _).
  assert (Ha : ∀ q, retries_within 1 (at_client (ask q))).
  { intros q. split; [|by left]. intros x. split; [done|]. intros e. right. split; [done|]. by left. }
  repeat constructor; apply Ha.
Defined.

End ReplayExamples.
