(* ===== verification/ModelSteps.v ===== *)
(** * ModelSteps: one step of the model, case by case

    What [wrapGenerate] of [DurableModel] does alone, on a journal that answers: every way a step
    ends, the refusals and the limits included, with what is left of the journal and of the closure. *)

From S2P Require Import Prelude JsMap Keys Journal Work Prog Faults Closure Claim Json Hash Format Taint RunIdentity Cost ToolTypes Limits Outcome DurableModel ModelReplay.

#[local] Arguments record_step : simpl never.
#[local] Arguments model_key : simpl never.

Section Cases.
Context {V : Type} `{!JsValue V, !Embed limit_chain V, !Embed limit_counters V, !Embed pricing_doc V, !Embed tool_record V,
  !Embed js V, !Embed model_claim V, !Embed cancel_record V} {E : Type}.
Variable normalize sha256 : string → string.
Variable depth : nat.
Variable fail : model_error → E.
Variable limits_fail : limits_error → E.
Variable limit_fuel : nat.
Variable runId : string.
Variable limits : option run_limits.
Variable strict : bool.
Variable opts : model_options.
Variable h : oracle model_query (model_answer E) E.
Variable params : js.
Variable s : model_state V.
Abbreviation i := (ms_step s).
Abbreviation mkey := (model_key runId).
Abbreviation claimKey := (modelClaimKey runId i).
Abbreviation world_ := (world V model_query).
Abbreviation step_prog := (wrapGenerate full_caps normalize sha256 depth fail limits_fail limit_fuel runId limits strict opts params s).
Abbreviation hash := (safeRequestHash normalize sha256 params).

(** The claim of another worker that holds the step: running, and younger than the time it is given. *)
Definition held (w : world_) : option (Z * Z) :=
  match mo_exclusiveStep opts, jkey claimKey w ≫= prj with
  | Some ttl, Some c =>
      let age := (clock w - mc_startedAt c)%Z in
      let ttlMs := default DEFAULT_EXCLUSIVE_TTL_MS ttl in
      if bool_decide (mc_status c = ClaimRunning) && (age <? ttlMs)%Z then Some (age, ttlMs) else None
  | _, _ => None
  end.

(** A step that asked: the call, its claim, its record if there is one, and nothing else. *)
Record asks (status : claim_status) (record : option V) (w w' : world_) : Prop := Asks {
  ak_trace : trace w' = QModel Generate i params :: trace w;
  ak_claim : jkey claimKey w' = Some (inj (ModelClaim status (wall w) hash));
  ak_record : jkey (mkey i) w' = record;
  ak_others : ∀ k, k ≠ claimKey → k ≠ mkey i → jkey k w' = jkey k w;
}.

(** The rest of a step that succeeded with [x]: it has advanced, and the limits of the run decide. *)
Definition after_step (x : js) (s1 : model_state V) (w1 : world_) : outcome E js * model_state V * world_ :=
  match run h (enforceStepLimits full_caps limits_fail limit_fuel runId limits (CostOpts None None) (ms_absent s1)) w1 with
  | (Ok absent, w2) => (Ok x, ModelState (N.succ (ms_step s1)) (ms_cache s1) absent, w2)
  | (Err e, w2) => (Err e, next_step s1, w2)
  end.

(** The closure after a replay: the record has left the cache and, when requests are compared, the claim. *)
Definition replayed_state : model_state V :=
  if strict && bool_decide (is_Some hash) then forget claimKey (forget (mkey i) s) else forget (mkey i) s.

Inductive step_case (w : world_) : outcome E js → model_state V → world_ → Prop :=
| case_replayed v u o s' w' :
    seen (mkey i) s w = Some v → upgradeKey (upgrade_record depth fail) (mkey i) (Some v) = Ok (Some u) →
    entryPointMatches (model_value u) Generate = true →
    after_step (model_value u) replayed_state w = (o, s', w') →
    step_case w o s' w'
| case_mismatch v u :
    seen (mkey i) s w = Some v → upgradeKey (upgrade_record depth fail) (mkey i) (Some v) = Ok (Some u) →
    entryPointMatches (model_value u) Generate = false →
    step_case w (Err (fail (EntryPointMismatch (mkey i) Generate))) (forget (mkey i) s) w
| case_unreadable v e :
    seen (mkey i) s w = Some v → upgradeKey (upgrade_record depth fail) (mkey i) (Some v) = Err e →
    step_case w (Err e) (forget (mkey i) s) w
| case_canceled f :
    seen (mkey i) s w = None → jkey (cancelKey runId) w = Some f →
    step_case w (Err (fail (RunCanceled runId (prj f ≫= cf_reason)))) s w
| case_busy age ttlMs :
    seen (mkey i) s w = None → jkey (cancelKey runId) w = None → held w = Some (age, ttlMs) →
    step_case w (Err (fail (StepBusy claimKey age ttlMs))) s w
| case_failed e w' :
    seen (mkey i) s w = None → jkey (cancelKey runId) w = None → held w = None →
    h (trace w) (QModel Generate i params) = Err e → asks ClaimFailed None w w' →
    step_case w (Err e) s w'
| case_answered a w1 o s' w' :
    seen (mkey i) s w = None → jkey (cancelKey runId) w = None → held w = None →
    h (trace w) (QModel Generate i params) = Ok a →
    asks ClaimSucceeded (Some (inj (JObj (stampFormat (generated a))))) w w1 →
    after_step (JObj (generated a)) s w1 = (o, s', w') →
    step_case w o s' w'.

(** The claim of a step that is free. *)
Definition claimed (v : V) (w w1 : world_) : Prop :=
  jkey claimKey w1 = Some v ∧ (∀ k, k ≠ claimKey → jkey k w1 = jkey k w) ∧
  trace w1 = trace w ∧ wall w1 = wall w ∧ clock w1 = clock w.

Lemma put_jkey k (v : V) c (w : world_) : jkey k (set_jr (mj_put c k v (jr w)) w) = Some v.
Proof. unfold jkey. cbn -[mj_put]. apply mj_get_put. Qed.

Lemma put_jkey_ne k k' (v : V) c (w : world_) : k' ≠ k → jkey k' (set_jr (mj_put c k v (jr w)) w) = jkey k' w.
Proof. intros Hk. unfold jkey. cbn -[mj_put]. by rewrite mj_get_put_ne by done. Qed.

Lemma put_claimed v c w : claimed v w (set_jr (mj_put c claimKey v (jr w)) w).
Proof. split_and!; [apply put_jkey| |done..]. intros k Hk. by apply put_jkey_ne. Qed.

Lemma run_claim v w :
  match jkey claimKey w with
  | Some _ => run h (claim full_caps claimKey v) w = (Ok false, w)
  | None => ∃ w1, run h (claim full_caps claimKey v) w = (Ok true, w1) ∧ claimed v w w1
  end.
Proof.
  assert (He : run h (claim full_caps claimKey v) w = perform h (RPutIfAbsent claimKey v) w) by exact (run_request h (RPutIfAbsent claimKey v) w).
  rewrite He. cbn [perform]. rewrite mj_putIfAbsent_spec.
  unfold jkey. destruct (mj_get claimKey (jr w)) as [u|] eqn:Hu; [by destruct w|].
  eexists. split; [reflexivity|]. exact (put_claimed v (wall w) w).
Qed.

Lemma run_put_claim v w : ∃ w1, run h (jput claimKey v) w = (Ok tt, w1) ∧ claimed v w w1.
Proof. eexists. split; [reflexivity|]. exact (put_claimed v (clock w) w). Qed.

Lemma run_acquire w :
  match held w with
  | Some (age, ttlMs) => run h (acquireModelClaim full_caps fail opts claimKey hash) w = (Err (fail (StepBusy claimKey age ttlMs)), w)
  | None => ∃ v w1, run h (acquireModelClaim full_caps fail opts claimKey hash) w = (Ok tt, w1) ∧ claimed v w w1
  end.
Proof.
  unfold held, acquireModelClaim. destruct (mo_exclusiveStep opts) as [ttl|].
  2: { run_step. destruct (run_put_claim (inj (ModelClaim ClaimRunning (wall w) hash)) w) as (w1 & Hw & Hc). by eexists _, w1. }
  unfold jnow. cbn [has_now full_caps]. run_step.
  assert (Hn : run (A := Z) h (request RNow) w = (Ok (clock w), w)) by done. rewrite Hn. run_step.
  set (v := inj (ModelClaim ClaimRunning (clock w) hash)). pose proof (run_claim v w) as Hclaim.
  destruct (run_put_claim v w) as (w1 & Hput & Hw1).
  destruct (jkey claimKey w) as [u|] eqn:Hu; cbn [mbind option_bind].
  - rewrite Hclaim. unfold jget. run_step. fold (jkey claimKey w). rewrite Hu. cbn [mbind option_bind].
    destruct (prj u) as [c|]; [|by exists v, w1]. destruct (_ && _); [done|by exists v, w1].
  - destruct Hclaim as (w2 & -> & Hw2). by exists v, w2.
Qed.

(** What the call leaves, before its claim is settled. *)
Definition called (record : option V) (w w1 : world_) : Prop :=
  trace w1 = QModel Generate i params :: trace w ∧ wall w1 = wall w ∧ jkey (mkey i) w1 = record ∧
  ∀ k, k ≠ claimKey → k ≠ mkey i → jkey k w1 = jkey k w.

Lemma mkey_not_claim : mkey i ≠ claimKey.
Proof. intros Hk. pose proof (step_of_key runId i) as Hs. rewrite Hk in Hs. unfold modelClaimKey in Hs. by rewrite step_of_proc in Hs. Qed.

Lemma run_settled {A} status record (p : prog V model_query (model_answer E) E A) w w1 :
  called record w w1 →
  ∃ w', run h (now ← dateNow; _ ← jput claimKey (inj (ModelClaim status now hash)); p) w1 = run h p w' ∧ asks status record w w'.
Proof.
  intros (Ht & Hw & Hr & Ho). run_step. rewrite Hw. set (v := inj _). destruct (run_put_claim v w1) as (w' & Hput & Hc & Hk & Ht' & _).
  exists w'. run_step. rewrite Hput. split; [done|]. split; [by rewrite Ht'|done| |].
  - rewrite Hk by apply mkey_not_claim. done.
  - intros k H1 H2. rewrite Hk by done. by apply Ho.
Qed.

Definition call_prog : prog V model_query (model_answer E) E (list (string * js)) :=
  ptry (claim_failed claimKey hash)
    (a ← request (RExt (QModel Generate i params));
     _ ← jput (mkey i) (inj (JObj (stampFormat (generated a))));
     now ← dateNow;
     _ ← jput claimKey (inj (ModelClaim ClaimSucceeded now hash));
     mret (generated a)).

(** Past the refusals: the call. *)
Lemma run_model_call v w w1 :
  claimed v w w1 → jkey (mkey i) w = None →
  ∃ w', match h (trace w) (QModel Generate i params) with
        | Err e => run h call_prog w1 = (Err e, w') ∧ asks ClaimFailed None w w'
        | Ok a => run h call_prog w1 = (Ok (generated a), w') ∧ asks ClaimSucceeded (Some (inj (JObj (stampFormat (generated a))))) w w'
        end.
Proof.
  intros (_ & Ho & Ht & Hwall & _) Hnone.
  set (w2 := World (jr w1) (clock w1) (wall w1) (QModel Generate i params :: trace w1) (work w1)).
  assert (Hq : run (A := model_answer E) h (request (RExt (QModel Generate i params))) w1 = (h (trace w) (QModel Generate i params), w2)).
  { rewrite <- Ht. exact (run_request h (RExt (QModel Generate i params)) w1). }
  assert (H2 : ∀ k, jkey k w2 = jkey k w1) by done.
  unfold call_prog. rewrite run_try. unfold claim_failed, mbind, prog_bind. rewrite run_bind, Hq. destruct (h (trace w) _) as [a|e].
  - set (w3 := set_jr (mj_put (wall w2) (mkey i) (inj (JObj (stampFormat (generated a)))) (jr w2)) w2).
    assert (H3 : called (Some (inj (JObj (stampFormat (generated a))))) w w3).
    { split_and!; [cbn; by rewrite Ht|exact Hwall|apply put_jkey|].
      intros k Hk1 Hk2. unfold w3. rewrite put_jkey_ne by done. rewrite H2. by apply Ho. }
    destruct (run_settled ClaimSucceeded _ (mret (generated a)) w w3 H3) as (w' & Hrun & Has).
    exists w'. split; [|done]. rewrite run_bind. unfold mbind, prog_bind in Hrun.
    assert (Hput : run h (jput (mkey i) (inj (JObj (stampFormat (generated a))))) w2 = (Ok tt, w3)) by exact (run_request h (RPut (mkey i) _) w2).
    rewrite Hput, Hrun. done.
  - assert (H3 : called None w w2).
    { split_and!; [cbn; by rewrite Ht|exact Hwall| |]; [rewrite H2, Ho by apply mkey_not_claim; done|].
      intros k Hk1 Hk2. rewrite H2. by apply Ho. }
    destruct (run_settled ClaimFailed _ (Throw e : prog V model_query (model_answer E) E (list (string * js))) w w2 H3) as (w' & Hrun & Has).
    exists w'. split; [|done]. exact Hrun.
Qed.

(** The claim of a step is no record that is upgraded. *)
Lemma claim_not_versioned : isVersionedKey claimKey = false.
Proof.
  assert (Hd : has_char colon (dec i) = false) by (by apply dec_no_char).
  unfold isVersionedKey, modelClaimKey, rk_proc.
  replace (runId +:+ ":proc:" +:+ "__gnl_model_claim:" +:+ dec i) with ((runId +:+ ":proc:__gnl_model_claim") +:+ ":" +:+ dec i)
    by (by rewrite str_app_assoc).
  rewrite (last_colon_app _ _ Hd).
  assert (Hno : ∀ a b, has_char colon b = false → ∀ t, has_char colon t = false → b ≠ t → ends_with (":" +:+ t) (a +:+ ":" +:+ b) = false).
  { intros a b Hb t Ht Hne. apply not_true_iff_false. intros He. apply ends_with_spec in He as [p Hp].
    apply (f_equal last_colon) in Hp. rewrite !last_colon_app in Hp by done. injection Hp as _ Hbt. done. }
  assert (Hi : ends_with ":input" ((runId +:+ ":proc:__gnl_model_claim") +:+ ":" +:+ dec i) = false).
  { apply (Hno _ (dec i) Hd "input"); [done|]. intros H. pose proof (f_equal undec H) as Hu. by rewrite undec_dec in Hu. }
  assert (Hm : ∀ t, has_char colon t = false → "__gnl_model_claim" ≠ t → ends_with (":" +:+ t) (runId +:+ ":proc:__gnl_model_claim") = false).
  { intros t Ht Hne. replace (runId +:+ ":proc:__gnl_model_claim") with ((runId +:+ ":proc") +:+ ":" +:+ "__gnl_model_claim") by (by rewrite str_app_assoc).
    by apply Hno. }
  rewrite Hi. change ":model" with (":" +:+ "model"). change ":tool" with (":" +:+ "tool"). by rewrite !Hm.
Qed.

Lemma forget_unseen key w : seen key s w = None → forget key s = s.
Proof.
  unfold seen, forget. destruct s as [n [c|] l]; [|done]. cbn. intros Hk. rewrite mdel_absent; [done|]. by destruct (mget key c).
Qed.

Lemma run_divergence w :
  run h (warnOnModelDivergence depth fail strict claimKey hash (forget (mkey i) s)) w = (Ok (Ok tt, replayed_state), w).
Proof.
  unfold warnOnModelDivergence, replayed_state. destruct (_ && _); [|done]. run_closure. rewrite run_cached_get.
  unfold upgradeKey. rewrite claim_not_versioned. by destruct (seen claimKey _ w).
Qed.

(** The end of a step that succeeded. *)
Lemma run_after x s1 w1 :
  run h (cbind (λ _, cbind (λ _, creturn x) (step_limits full_caps limits_fail limit_fuel runId limits)) advance s1) w1 =
    let '(o, s', w') := after_step x s1 w1 in (Ok (o, s'), w').
Proof.
  rewrite run_cbind. cbn [advance run]. rewrite run_cbind. unfold step_limits, after_step. rewrite run_bind, run_catch.
  cbn [ms_absent next_step]. by destruct (run h (enforceStepLimits _ _ _ _ _ _ _) w1) as [[absent|e] w2].
Qed.

(** C16: One step of the model, on every branch.  Alone, on a journal that answers, with any options and
    limits and in any state of the closure: a record that reads back is the answer; one of the streaming
    path or of another format is refused; without a record, a cancelled run and a step another worker holds
    are refused.  None of the refusals changes the journal, asks the model or advances the step.  Otherwise
    the model is asked exactly once, and what is left is the claim, failed or succeeded, and the record of
    an answer, and a failed call does not advance the step.  A step that was answered, from its record or by
    the model, advances; the limits of the run are checked after that, and an error of theirs takes the place
    of the answer. *)
Theorem wrapGenerate_exact w : ∃ o s' w', run h step_prog w = (Ok (o, s'), w') ∧ step_case w o s' w'.
Proof.
  unfold wrapGenerate. run_closure. cbn [the_step run]. rewrite run_cbind. change (rk_model runId (dec i)) with (mkey i).
  rewrite run_cached_get. destruct (seen (mkey i) s w) as [v|] eqn:Hv.
  - destruct (upgradeKey (upgrade_record depth fail) (mkey i) (Some v)) as [[u|]|e] eqn:Hu.
    + destruct (entryPointMatches (model_value u) Generate) eqn:He.
      * rewrite run_cbind, run_divergence, run_after. destruct (after_step (model_value u) replayed_state w) as [[o s'] w'] eqn:Ha.
        eexists _, _, _. split; [reflexivity|]. by eapply case_replayed.
      * eexists _, _, _. split; [reflexivity|]. by eapply case_mismatch.
    + by apply upgraded_None in Hu.
    + eexists _, _, _. split; [reflexivity|]. by eapply case_unreadable.
  - change (upgradeKey (upgrade_record depth fail) (mkey i) None) with (Ok (E := E) (None (A := V))).
    rewrite (forget_unseen _ w Hv), run_cbind, run_clift.
    assert (Hnone : jkey (mkey i) w = None) by (unfold seen in Hv; by destruct (_ ≫= _)).
    destruct (jkey (cancelKey runId) w) as [f|] eqn:Hf.
    { eexists _, _, _. split; [|by apply case_canceled]. unfold assertNotCanceled, agentRunCanceled, jget. run_step.
      fold (jkey (cancelKey runId) w). by rewrite Hf. }
    assert (Ha : run h (assertNotCanceled (λ r x, fail (RunCanceled r x)) runId) w = (Ok tt, w)).
    { unfold assertNotCanceled, agentRunCanceled, jget. run_step. fold (jkey (cancelKey runId) w). by rewrite Hf. }
    rewrite Ha. cbn [fst snd]. rewrite run_cbind, run_clift. pose proof (run_acquire w) as Hacq.
    destruct (held w) as [[age ttlMs]|] eqn:Hheld.
    { rewrite Hacq. eexists _, _, _. split; [reflexivity|]. by apply case_busy. }
    destruct Hacq as (v & w1 & -> & Hc). destruct (run_model_call v w w1 Hc Hnone) as (w' & Hcall). cbn [fst snd].
    rewrite run_cbind, run_clift. fold call_prog. change (ptry _ _) with call_prog.
    destruct (h (trace w) (QModel Generate i params)) as [a|e] eqn:Ha'; destruct Hcall as [Hrun Has]; rewrite Hrun; cbn [fst snd].
    + rewrite run_after. destruct (after_step (JObj (generated a)) s w') as [[o s'] w2] eqn:Hend.
      eexists _, _, _. split; [reflexivity|]. by eapply case_answered.
    + eexists _, _, _. split; [reflexivity|]. by eapply case_failed.
Qed.
End Cases.
