(* ===== verification/ModelStreams.v ===== *)
(** * ModelStreams: a streamed step that crashes

    The tools of a streamed step run while it is still being read, so a step that is cut off must
    come back with the tool calls it had handed on.  The ghost state of the judgement [safe_in] is
    the record of the step, once it landed, and the chunks that may have been delivered.  The second
    part is about a run that was cancelled. *)

From S2P Require Import Prelude JsMap Keys Journal Work Prog Faults Closure Claim Json Hash Format Taint RunIdentity Cost ToolTypes Limits Outcome DurableModel ModelReplay.

#[local] Arguments record_step : simpl never.
#[local] Arguments model_key : simpl never.

Section Survive.
Context {V : Type} `{!JsValue V, !Embed limit_chain V, !Embed limit_counters V, !Embed pricing_doc V, !Embed tool_record V,
  !Embed js V, !Embed model_claim V, !Embed cancel_record V} {E : Type}.
Variable normalize sha256 : string → string.
Variable depth : nat.
Variable fail : model_error → E.
Variable limits_fail : limits_error → E.
Variable limit_fuel : nat.
Variable runId : string.
Variable limits : option run_limits.
Variable step : N.
Variable hash : option string.
Variable st : opened_stream E.
Abbreviation answer := (model_answer E).
Abbreviation world_ := (world V model_query).
Abbreviation request_ := (req V model_query).
Abbreviation mkey := (model_key runId step).
Abbreviation chunks := (os_chunks st).

(** The journal is up: a write of the step's record takes effect and says so.  Anything else may fail. *)
Definition records_land (r : request_) : outcome E (ans (R := answer) r) → Prop :=
  match r return outcome E (ans (R := answer) r) → Prop with
  | RPut k _ => λ o, k = mkey → ∃ u, o = Ok u
  | _ => λ _, True
  end.

Record tape := Tape { tp_record : option V; tp_delivered : list js }.

(** A record of the step: what was read of it, and all of it unless it is partial. *)
Definition records_parts (v : V) (parts : list js) : Prop :=
  ∃ partial : bool, v = inj (JObj (stampFormat (stream_record parts (os_rest st) partial))) ∧
    parts `prefix_of` chunks ∧ (partial = false → parts = chunks).

Definition survives (x : tape) : Prop :=
  ∀ c, c ∈ tp_delivered x → has_type "tool-call" c = true → ∃ v parts, tp_record x = Some v ∧ records_parts v parts ∧ c ∈ parts.

Definition play (x : tape) (r : request_) : outcome E (ans (R := answer) r) → tape :=
  match r return outcome E (ans (R := answer) r) → tape with
  | RPut k v => λ o, if String.eqb k mkey then match o with Ok _ => Tape (Some v) (tp_delivered x) | Err _ => x end else x
  | RExt (QDeliver c) => λ _, Tape (tp_record x) (tp_delivered x ++ [c])
  | _ => λ _, x
  end.

Definition may_play (x : tape) (r : request_) : Prop :=
  match r with
  | RPut k v => k = mkey → survives (Tape (Some v) (tp_delivered x))
  | RPutIfAbsent k _ | RPutIfMatch k _ _ => k ≠ mkey
  | RExt (QDeliver c) => survives (Tape (tp_record x) (tp_delivered x ++ [c]))
  | _ => True
  end.

Abbreviation safe_t := (safe_in (V := V) (Q := model_query) (R := answer) (E := E) records_land may_play play).

Lemma modest_plays {A} (p : prog V model_query answer E A) (post : tape → outcome E A → Prop) x :
  only (modest runId) p → (∀ o, post x o) → safe_t post x p.
Proof.
  intros Hp Hpost. induction p as [a|e|r k IH]; simpl; [apply Hpost..|]. destruct Hp as [Hr Hk].
  assert (Hne : ∀ key, record_step runId key = None ∧ key ≠ cancelKey runId → key ≠ mkey) by (intros key [Hkey _] ->; by rewrite step_of_key in Hkey).
  split. { destruct r; try done; [intros Hkey; by apply Hne in Hr|by apply Hne|by apply Hne]. }
  intros o _. replace (play x r o) with x; [apply IH, Hk|]. destruct r; try done.
  cbn. by rewrite (proj2 (String.eqb_neq _ _) (Hne _ Hr)).
Qed.

(** What was read so far. *)
Definition reading (parts : list js) (x : tape) : Prop := survives x ∧ ∀ c, c ∈ tp_delivered x → c ∈ parts.

Lemma deliver_reading parts c x :
  reading parts x → c ∈ parts → (has_type "tool-call" c = true → ∃ v ps, tp_record x = Some v ∧ records_parts v ps ∧ c ∈ ps) →
  safe_t (λ x' o, match o with Ok _ => reading parts x' | Err _ => survives x' end) x (deliver c).
Proof.
  intros [Hs Hd] Hin Hc.
  assert (Hs' : survives (Tape (tp_record x) (tp_delivered x ++ [c]))).
  { intros c' [Hc'|Hc']%elem_of_app Ht; [by apply Hs|]. apply list_elem_of_singleton in Hc' as ->. by apply Hc. }
  split; [exact Hs'|]. intros [a|e] _; [|exact Hs']. split; [exact Hs'|]. intros c' [Hc'|Hc']%elem_of_app; [by apply Hd|].
  by apply list_elem_of_singleton in Hc' as ->.
Qed.

Lemma record_chunks_safe cs parts x :
  chunks = parts ++ cs → reading parts x →
  safe_t (λ x' o, match o with Ok ps => ps = chunks ∧ reading chunks x' | Err _ => survives x' end) x
    (record_chunks runId step (os_rest st) cs parts).
Proof.
  revert parts x. induction cs as [|c cs IH]; intros parts x Hcs Hx.
  { rewrite app_nil_r in Hcs. subst parts. by split. }
  cbn [record_chunks]. set (parts' := parts ++ [c]).
  assert (Hcs' : chunks = parts' ++ cs) by (unfold parts'; by rewrite <- app_assoc).
  assert (Hin : c ∈ parts') by (apply elem_of_app; right; by left).
  assert (Hmore : ∀ c', c' ∈ parts → c' ∈ parts') by (intros c' Hc'; apply elem_of_app; by left).
  destruct Hx as [Hs Hd].
  eapply (safe_in_bind _ _ _ _ (λ y o, match o with
    | Ok _ => reading parts' y ∧ (has_type "tool-call" c = true → ∃ v ps, tp_record y = Some v ∧ records_parts v ps ∧ c ∈ ps)
    | Err _ => survives y end)).
  - destruct (has_type "tool-call" c) eqn:Ht.
    + assert (Hrec : records_parts (inj (JObj (stampFormat (stream_record parts' (os_rest st) true)))) parts').
      { exists true. split; [done|]. split; [|done]. by exists cs. }
      assert (Hs' : survives (Tape (Some (inj (JObj (stampFormat (stream_record parts' (os_rest st) true))))) (tp_delivered x))).
      { intros c' Hc' Ht'. eexists _, parts'. split; [done|]. split; [exact Hrec|]. by apply Hmore, Hd. }
      split; [by intros _|]. intros o Ho. cbn in Ho |- *. change (rk_model runId (dec step)) with mkey in *.
      destruct (Ho eq_refl) as [u ->]. rewrite String.eqb_refl. split; [split; [exact Hs'|]|].
      * intros c' Hc'. by apply Hmore, Hd.
      * intros _. by eexists _, parts'.
    + assert (Hx : reading parts' x) by (split; [done|]; intros c' Hc'; by apply Hmore, Hd).
      destruct (_ =? 0); [|by split].
      apply modest_plays; [|intros [u|e]; [|exact Hs]; by split].
      apply only_try; [|done]. split; [by apply proc_modest|]. by intros [u|e].
  - intros y [] [Hy Hc]. eapply safe_in_bind; [by apply (deliver_reading parts')| |done].
    intros z u Hz. by apply IH.
  - done.
Qed.

Lemma flush_safe s x :
  reading chunks x → safe_t (ends_in (λ x' _ _, survives x')) x (flush full_caps limits_fail limit_fuel runId limits step hash (os_rest st) chunks s).
Proof.
  intros [Hs Hd].
  assert (Hs' : survives (Tape (Some (inj (JObj (stampFormat (stream_record chunks (os_rest st) false))))) (tp_delivered x))).
  { intros c Hc Ht. eexists _, chunks. split; [done|]. split; [|by apply Hd]. exists false. by split_and!. }
  split; [by intros _|]. intros o Ho. cbn in Ho |- *. change (rk_model runId (dec step)) with mkey in *.
  destruct (Ho eq_refl) as [u ->]. rewrite String.eqb_refl. split; [done|]. intros [now|e] _; [|exact Hs'].
  apply (modest_plays (A := outcome E unit * model_state V)); [|by intros [[o' s']|e]].
  split; [by apply proc_modest|]. intros [u'|e]; [apply modest_step_limits|done].
Qed.

Lemma pull_safe s :
  safe_t (ends_in (λ x' _ _, survives x')) (Tape None []) (pull full_caps limits_fail limit_fuel runId limits (Live step hash st) s).
Proof.
  assert (H0 : reading [] (Tape None [])) by (by split; [intros c []%elem_of_nil|intros c []%elem_of_nil]).
  cbn [pull]. eapply safe_in_cbind; [by apply safe_in_kept, record_chunks_safe| |by intros g e s' [Hg _]].
  intros x ps s' [[-> Hx] _]. destruct (os_error st); [by destruct Hx|].
  by eapply safe_in_cbind; [apply flush_safe| |].
Qed.

(** What is kept of the journal and the trace. *)
Definition taped (w : world_) (x : tape) : Prop := ∀ v, tp_record x = Some v → jkey mkey w = Some v.
Definition heard (w0 w : world_) (x : tape) : Prop :=
  ∃ t, trace w = t ++ trace w0 ∧ ∀ c, QDeliver c ∈ t → c ∈ tp_delivered x.

Definition on_tape (w0 w : world_) (gs : list tape) : Prop :=
  ∃ x, gs = [x] ∧ survives x ∧ taped w x ∧ heard w0 w x.

Lemma play_survives x r o : may_play x r → records_land r o → survives x → survives (play x r o).
Proof.
  intros Hm HP Hs. destruct r as [| k v| | | | | | | | | | | | | | | | |[]]; try done.
  cbn. destruct (String.eqb_spec k mkey) as [->|]; [|done]. destruct (HP eq_refl) as [u ->]. by apply Hm.
Qed.

Lemma play_taped h r w o w' x : may_play x r → records_land r o → ends h r w o w' → taped w x → taped w' (play x r o).
Proof.
  intros Hm HP He Ht.
  assert (Hother : match r with RPut k _ | RPutIfAbsent k _ | RPutIfMatch k _ _ => k ≠ mkey | _ => True end → jkey mkey w' = jkey mkey w).
  { intros Hr. destruct He as [[-> _]|[[->| ->] _]]; [by apply jkey_other|done|by apply jkey_other]. }
  destruct r as [| k v| | | | | | | | | | | | | | | | |[]]; try (unfold taped in *; cbn; by rewrite Hother).
  cbn. destruct (String.eqb_spec k mkey) as [->|]; [|unfold taped in *; by rewrite Hother].
  destruct (HP eq_refl) as [u ->]. intros v' [= <-]. destruct He as [[-> _]|[_ [e He]]]; [|done].
  unfold jkey. cbn. unfold mj_get. cbn. apply mget_mset.
Qed.

Lemma play_heard h r w0 w o w' x : ends h r w o w' → heard w0 w x → heard w0 w' (play x r o).
Proof.
  intros He (t & Ht & Hd).
  destruct r as [| k v| | | | | | | | | | | | | | | | |q].
  19: { assert (Hw : trace w' = trace w ∨ trace w' = q :: trace w) by (destruct He as [[-> _]|[[->| ->] _]]; auto).
    assert (Hd' : ∀ c, QDeliver c ∈ t → c ∈ tp_delivered (play x (RExt q) o)).
    { intros c Hc. destruct q; [by apply Hd|]. apply elem_of_app. left. by apply Hd. }
    destruct Hw as [Hw|Hw]; unfold heard; rewrite Hw, Ht; [by exists t|]. exists (q :: t). split; [done|].
    intros c [Hc|Hc]%elem_of_cons; [|by apply Hd']. subst q. apply elem_of_app. right. by left. }
  all: exists t; split; [destruct He as [[-> _]|[[->| ->] _]]; done|]; try done.
  cbn. destruct (String.eqb k mkey); [by destruct o|done].
Qed.

Lemma on_tape_ends w0 h r w o w' i x gs :
  gs !! i = Some x → may_play x r → records_land r o → ends h r w o w' → on_tape w0 w gs →
  on_tape w0 w' (<[i := play x r o]> gs).
Proof.
  intros Hi Hm HP He (y & -> & Hs & Ht & Hh). destruct i; [|done]. injection Hi as ->.
  exists (play x r o). split_and!; [done|by apply play_survives|by eapply play_taped|by eapply play_heard].
Qed.

Lemma pull_on_tape s w ps' w' :
  reachable_in records_land ([pull full_caps limits_fail limit_fuel runId limits (Live step hash st) s], w) (ps', w') →
  ∃ x, survives x ∧ taped w' x ∧ heard w w' x.
Proof.
  intros Hr.
  destruct (pool_ends_in may_play play (on_tape w)) with (P := records_land) (post := ends_in (λ (x : tape) (_ : outcome E (list js)) (_ : model_state V), survives x))
    (c := ([pull full_caps limits_fail limit_fuel runId limits (Live step hash st) s], w)) (c' := (ps', w')) (gs := [Tape None []])
    as (gs & (x & _ & Hx) & _); [| |exact Hr| | |by exists x].
  - intros w1 gs c x _ (y & -> & Hy). by exists y.
  - intros h w1 gs i g r o w2 Hg Hm HP He Hw1. by eapply on_tape_ends.
  - exists (Tape None []). split_and!; [done|by intros c []%elem_of_nil|done|]. exists []. split; [done|]. by intros c []%elem_of_nil.
  - constructor; [apply pull_safe|constructor].
Qed.

(** *** The resume *)

Abbreviation resumed_step := (wrapStream full_caps normalize sha256 depth fail limits_fail limit_fuel runId None false (ModelOptions None)).

Lemma run_stream_hit h params v parts w :
  jkey mkey w = Some v → records_parts v parts →
  ∃ shown_chunks, run h (resumed_step params (ModelState step None [])) w
      = (Ok (Ok (Replayed shown_chunks (os_rest st)), ModelState (N.succ step) None []), w) ∧
    parts `prefix_of` shown_chunks ∧
    (shown_chunks = chunks ∨ (shown_chunks = parts ∨ shown_chunks = parts ++ [finish_of parts]) ∧ existsb (has_type "finish") shown_chunks = true).
Proof.
  intros Hv (partial & -> & Hpre & Hall).
  exists (completeIfTruncated (JObj (stream_record parts (os_rest st) partial))). split.
  - pose proof (upgrade_stamped (E := E) depth fail runId step (stream_record parts (os_rest st) partial)) as Hu.
    assert (Hm : model_value (V := V) (inj (JObj (stream_record parts (os_rest st) partial))) = JObj (stream_record parts (os_rest st) partial))
      by (unfold model_value; by rewrite prj_inj).
    remember (inj (JObj (stream_record parts (os_rest st) partial))) as u eqn:Heq.
    assert (He : entryPointMatches (model_value u) Stream = true) by (rewrite Hm; by destruct partial).
    unfold wrapStream. run_closure. cbn [the_step run ms_step]. rewrite run_cbind, run_cached_get. unfold seen. cbn [ms_cache mbind option_bind].
    change (rk_model runId (dec step)) with mkey. rewrite Hv, Hu by (by destruct partial). rewrite He, Hm. by destruct partial.
  - unfold completeIfTruncated. destruct partial.
    + change (default [] (parts_of (JObj (stream_record parts (os_rest st) true)))) with parts.
      rewrite bool_decide_eq_true_2 by done. cbn [negb]. destruct (existsb (has_type "finish") parts) eqn:Hf.
      * split; [done|]. right. split; [by left|done].
      * split; [by exists [finish_of parts]|]. right. split; [by right|]. rewrite existsb_app. cbn. by rewrite orb_true_r.
    + rewrite (Hall eq_refl) in *. split; [done|]. by left.
Qed.

(** C4: A tool call that was handed on survives the crash.  The tools of a streamed step start while it
    is still being read; the reading may be cut off anywhere and anything may fail, as long as a write of the
    step's record takes effect.  A resume that asks for the step is answered from the journal, without the model,
    with a stream that has every tool call that was handed on: all of the chunks, or a prefix of them
    that is closed by a [finish] part. *)
Theorem tool_calls_survive_crash h params s w p w' t c :
  reachable_in records_land ([pull full_caps limits_fail limit_fuel runId limits (Live step hash st) s], w) ([p], w') →
  trace w' = t ++ trace w → QDeliver c ∈ t → has_type "tool-call" c = true →
  ∃ shown_chunks parts, run h (resumed_step params (ModelState step None [])) w'
      = (Ok (Ok (Replayed shown_chunks (os_rest st)), ModelState (N.succ step) None []), w') ∧
    c ∈ shown_chunks ∧ parts `prefix_of` chunks ∧
    (shown_chunks = chunks ∨
     (shown_chunks = parts ∨ shown_chunks = parts ++ [finish_of parts]) ∧ existsb (has_type "finish") shown_chunks = true).
Proof.
  intros Hr Ht Hc Htool. destruct (pull_on_tape _ _ _ _ Hr) as (x & Hs & Htaped & t' & Ht' & Hd).
  rewrite Ht in Ht'. apply app_inv_tail in Ht' as <-. destruct (Hs c (Hd c Hc) Htool) as (v & parts & Hv & Hrec & Hin).
  destruct (run_stream_hit h params v parts w' (Htaped v Hv) Hrec) as (l & Hrun & Hpre & Hl).
  exists l, parts. split_and!; [done| |by destruct Hrec as (? & _ & ? & _)|done].
  destruct Hpre as [l' ->]. apply elem_of_app. by left.
Qed.
End Survive.

(** ** A run that was cancelled *)

Section Canceled.
Context {V : Type} `{!JsValue V, !Embed limit_chain V, !Embed limit_counters V, !Embed pricing_doc V, !Embed tool_record V,
  !Embed js V, !Embed model_claim V, !Embed cancel_record V} {E : Type}.
Variable normalize sha256 : string → string.
Variable depth : nat.
Variable fail : model_error → E.
Variable limits_fail : limits_error → E.
Variable limit_fuel : nat.
Variable runId : string.
Variable limits : option run_limits.
Variable strict : bool.
Variable opts : model_options.
Abbreviation answer := (model_answer E).
Abbreviation world_ := (world V model_query).
Abbreviation request_ := (req V model_query).

(** Attempts of either entry point, whatever calls the model in them. *)
Inductive any_attempt :=
| GenerateAttempt (c : client js E js) (cache : option (jsmap V))
| StreamAttempt (c : client js E (list js)) (cache : option (jsmap V)).

Definition any_prog (a : any_attempt) : prog V model_query answer E unit :=
  match a with
  | GenerateAttempt c cache =>
      _ ← run_client (wrapGenerate full_caps normalize sha256 depth fail limits_fail limit_fuel runId limits strict opts) c (ModelState 0 cache []);
      mret tt
  | StreamAttempt c cache =>
      _ ← run_client (stream_step full_caps normalize sha256 depth fail limits_fail limit_fuel runId limits strict opts) c (ModelState 0 cache []);
      mret tt
  end.

(** [false]: the flag was found missing, which it is not. *)
Definition flag_seen (g : bool) (r : request_) : outcome E (ans (R := answer) r) → bool :=
  match r return outcome E (ans (R := answer) r) → bool with
  | RGet k => λ o, if String.eqb k (cancelKey runId) then match o with Ok None => false | _ => g end else g
  | _ => λ _, g
  end.

Definition harmless (g : bool) (r : request_) : Prop := g = true → modest runId r ∨ ∃ c, r = RExt (QDeliver c).

Abbreviation safe_c := (safe (V := V) (Q := model_query) (R := answer) (E := E) harmless flag_seen).

Lemma safe_false {A} (post : bool → outcome E A → Prop) p : (∀ o, post false o) → safe_c post false p.
Proof.
  intros Hp. induction p as [a|e|r k IH]; simpl; [apply Hp..|]. split; [done|]. intros o.
  replace (flag_seen false r o) with false; [apply IH|]. destruct r; try done. cbn. destruct (String.eqb _ _); [|done]. by destruct o as [[]|].
Qed.

Lemma safe_modest {A} (post : bool → outcome E A → Prop) g p : only (modest runId) p → (∀ g' o, post g' o) → safe_c post g p.
Proof.
  intros Hp Hpost. revert g. induction p as [a|e|r k IH]; intros g; simpl; [apply Hpost..|]. destruct Hp as [Hr Hk].
  split; [by left|]. intros o. apply IH, Hk.
Qed.

Abbreviation safely m s g := (safe_c (ends_in (λ _ _ (_ : model_state V), True)) g (m s)).

Lemma safe_modest_bind {A B} (post : bool → outcome E B → model_state V → Prop) g s (m : closure (model_state V) V model_query answer E A) f :
  only (modest runId) (m s) → (∀ g' a s', safe_c (ends_in post) g' (f a s')) → (∀ g' e s', post g' (Err e) s') →
  safe_c (ends_in post) g (cbind (B := B) f m s).
Proof.
  intros Hm Hf He. eapply (safe_cbind _ _ _ (λ _ _ _, True)); [apply safe_modest; [done|by intros g' [[]|]]|by intros g' a s' _|by intros g' e s' _].
Qed.

(** Past the check, the flag was missing. *)
Lemma assert_safe {A} (post : bool → outcome E A → model_state V → Prop) g s (f : unit → closure (model_state V) V model_query answer E A) :
  (∀ o s', post false o s') → (∀ g' e s', post g' (Err e) s') →
  safe_c (ends_in post) g (cbind f (clift (assertNotCanceled (λ r x, fail (RunCanceled r x)) runId)) s).
Proof.
  intros Hf He. split; [intros _; by left|]. intros [[v|]|e]; cbn; [apply He| |apply He].
  rewrite String.eqb_refl. apply safe_false. intros [[o' s']|e']; [apply Hf|exact I].
Qed.

Lemma limits_safe_c {A} (post : bool → outcome E A → model_state V → Prop) x g s :
  (∀ g o s', post g o s') → safe_c (ends_in post) g (cbind (λ _, cbind (λ _, creturn x) (step_limits full_caps limits_fail limit_fuel runId limits)) advance s).
Proof.
  intros Hp. apply safe_modest_bind; [done| |done]. intros g' [] s'. apply safe_modest_bind; [apply modest_step_limits| |done].
  intros g2 [] s2. apply Hp.
Qed.

Lemma generate_safe_c params g s :
  safely (wrapGenerate full_caps normalize sha256 depth fail limits_fail limit_fuel runId limits strict opts params) s g.
Proof.
  unfold wrapGenerate, mbind, closure_bind, mret, closure_ret. unfold cbind at 1. cbn [pbind the_step fst snd].
  apply safe_modest_bind; [apply modest_cached| |done]. intros g' [v|] s'; [|by apply assert_safe].
  destruct (entryPointMatches _ _); [|done]. apply safe_modest_bind; [apply modest_divergence| |done].
  intros g2 [] s2. by apply limits_safe_c.
Qed.

(** A stream is opened only without the flag. *)
Definition replays (g : bool) (o : outcome E (stream_handle E)) (_ : model_state V) : Prop :=
  g = true → match o with Ok (Live _ _ _) => False | _ => True end.

Lemma stream_safe_c params g s : safe_c (ends_in replays) g
  (wrapStream full_caps normalize sha256 depth fail limits_fail limit_fuel runId limits strict opts params s).
Proof.
  unfold wrapStream, mbind, closure_bind, mret, closure_ret. unfold cbind at 1. cbn [pbind the_step fst snd].
  apply safe_modest_bind; [apply modest_cached| |done]. intros g' [v|] s'; [|by apply assert_safe].
  destruct (entryPointMatches _ _); [|done]. apply safe_modest_bind; [apply modest_divergence| |done]. intros g2 [] s2.
  apply safe_modest_bind; [done| |done]. intros g3 [] s3. by apply safe_modest_bind; [apply modest_step_limits| |].
Qed.

Lemma deliver_safe_c cs g : safe_c (λ _ _, True) g (deliver_all cs).
Proof.
  revert g. induction cs as [|c cs IH]; intros g; [done|]. split; [intros _; right; by exists c|].
  intros [a|e]; [|done]. apply IH.
Qed.

Lemma stream_step_safe_c params g s :
  safely (stream_step full_caps normalize sha256 depth fail limits_fail limit_fuel runId limits strict opts params) s g.
Proof.
  unfold stream_step. eapply safe_cbind; [apply stream_safe_c| |done]. intros g' hd s' Hhd.
  destruct g'; [|by apply safe_false; intros [[]|]].
  destruct hd as [cs rest|]; [|by destruct (Hhd eq_refl)].
  eapply safe_cbind; [apply (safe_clift _ _ (λ _ _ _, True)), deliver_safe_c|done|done].
Qed.

Lemma client_safe_c {A} (ask : js → closure (model_state V) V model_query answer E A) (c : client js E A) g s :
  (∀ params g s, safely (ask params) s g) → safely (run_client ask c) s g.
Proof.
  intros Hask. revert g s. induction c as [|params next IH]; intros g s; [done|]. cbn [run_client].
  eapply safe_bind; [apply Hask| |done]. intros g' [o s'] _. by eapply safe_bind; [apply IH| |].
Qed.

Lemma attempt_safe_c a : safe_c (λ _ _, True) true (any_prog a).
Proof.
  destruct a as [c cache|c cache]; cbn [any_prog]; (eapply safe_bind; [apply client_safe_c|done|done]).
  - intros params g s. apply generate_safe_c.
  - intros params g s. apply stream_step_safe_c.
Qed.

Definition unmoved (w0 w : world_) (gs : list bool) : Prop :=
  (∀ g, g ∈ gs → g = true) ∧ is_Some (jkey (cancelKey runId) w) ∧ model_calls w = model_calls w0 ∧
  ∀ i, jkey (model_key runId i) w = jkey (model_key runId i) w0.

Lemma unmoved_ends w0 h r w o w' i g gs :
  gs !! i = Some g → harmless g r → ends h r w o w' → unmoved w0 w gs → unmoved w0 w' (<[i := flag_seen g r o]> gs).
Proof.
  intros Hi Hm He (Hg & [v Hv] & Hc & Hk).
  assert (g = true) as -> by (apply Hg; by eapply list_elem_of_lookup_2). specialize (Hm eq_refl).
  assert (Hseen : flag_seen true r o = true).
  { destruct r; try done. cbn. destruct (String.eqb_spec k (cancelKey runId)) as [->|]; [|done].
    destruct o as [[u|]|e]; try done. destruct He as [[_ Ho]|[_ [e Ho]]]; [|done].
    unfold jkey in Hv. cbn in Ho. by rewrite Hv in Ho. }
  rewrite Hseen. split_and!.
  - intros g' [j Hj]%list_elem_of_lookup_1. apply list_lookup_insert_Some in Hj as [(_ & <- & _)|[_ Hj]]; [done|].
    apply Hg. by eapply list_elem_of_lookup_2.
  - exists v. assert (Ho : overwrites (cancelKey runId) r = false).
    { destruct Hm as [Hq|[c ->]]; [|done]. destruct r; try done; apply String.eqb_neq; by destruct Hq. }
    destruct He as [[-> _]|[[->| ->] _]]; [by apply perform_jkey_keep|done|by apply perform_jkey_keep].
  - rewrite <- Hc. assert (Hn : model_calls (snd (perform h r w)) = model_calls w).
    { rewrite calls_perform. destruct Hm as [Hq|[c ->]]; [|done]. by destruct r. }
    by destruct He as [[-> _]|[[->| ->] _]].
  - intros j. rewrite <- (Hk j). assert (Hn : jkey (model_key runId j) (snd (perform h r w)) = jkey (model_key runId j) w).
    { apply jkey_other. destruct Hm as [Hq|[c ->]]; [|done]. destruct r; try done; intros ->; destruct Hq as [Hq _]; by rewrite step_of_key in Hq. }
    by destruct He as [[-> _]|[[->| ->] _]].
Qed.

(** C13: A cancelled run asks the model nothing more.  Once the flag is in the journal, any number of
    attempts at the run, of either entry point and whatever calls the model in them, interleaved in any order and with any failures, make no
    call of the model and leave the recorded steps as they are. *)
Theorem canceled_run_calls_no_model (attempts : list any_attempt) w ps' w' :
  is_Some (jkey (cancelKey runId) w) → reachable (map any_prog attempts, w) (ps', w') →
  model_calls w' = model_calls w ∧ ∀ i, jkey (rk_model runId (dec i)) w' = jkey (rk_model runId (dec i)) w.
Proof.
  intros Hflag Hr.
  destruct (pool_ends harmless flag_seen (unmoved w)) with (post := λ (_ : bool) (_ : outcome E unit), True)
    (c := (map any_prog attempts, w)) (c' := (ps', w')) (gs := map (λ _, true) attempts) as (gs & (_ & _ & Hgs) & _);
    [| |exact Hr| | |exact Hgs].
  - intros w1 gs c x _ Hw1. exact Hw1.
  - intros h w1 gs i g r o w2 Hg Hm He Hw1. by eapply unmoved_ends.
  - split_and!; try done. intros g (a & -> & _)%list_elem_of_fmap. done.
  - cbn. clear Hr. induction attempts as [|a l IH]; [constructor|]. constructor; [apply attempt_safe_c|exact IH].
Qed.
End Canceled.

(** ** Examples *)

Section StreamExamples.
Let text (s : string) : string := s.
Let fail (e : model_error) : string := match e with RunCanceled _ _ => "canceled" | _ => "refused" end.
Let limits_fail (e : limits_error) : string := "limit".
Let hears : oracle model_query (model_answer string) string := λ _ _, Ok ADelivered.
Let says (s : string) : js := JObj [("type", JStr "text-delta"); ("delta", JStr s)].
Let calls (id : string) : js := JObj [("type", JStr "tool-call"); ("toolCallId", JStr id)].
Let three : opened_stream string := OpenedStream [says "paying"; calls "t1"; says "done"] JUndef None.
Let w0 : world model_entry model_query := World empty_journal 0 0 [] empty_work.
Let read_three : prog model_entry model_query (model_answer string) string (outcome string (list js) * model_state model_entry) :=
  pull full_caps limits_fail 3 "r" None (Live 0 None three) (ModelState 1 None []).

(** The reading is cut off once the tool call was handed on. *)
Let broken := schedule hears (replicate 3 0) ([read_three], w0).

Lemma tool_calls_survive_crash_witness :
  trace (snd broken) = [QDeliver (calls "t1"); QDeliver (says "paying")] ∧
  ∃ shown_chunks, run hears (wrapStream full_caps text text 3 fail limits_fail 3 "r" None false (ModelOptions None) JNull (ModelState 0 None [])) (snd broken)
      = (Ok (Ok (Replayed shown_chunks JUndef), ModelState 1 None []), snd broken) ∧
    calls "t1" ∈ shown_chunks.
Proof.
  split; [vm_compute; reflexivity|].
  destruct (tool_calls_survive_crash text text 3 fail limits_fail 3 "r" None 0 None three hears JNull (ModelState 1 None [])
    w0 (the_prog (fst broken)) (snd broken) [QDeliver (calls "t1"); QDeliver (says "paying")] (calls "t1")) as (l & parts & Hrun & Hin & _).
  - unfold broken. rewrite <- schedule_one, <- surjective_pairing. apply schedule_reachable_in.
    intros r w. destruct r as [|k v| | | | | | | | | | | | | | | | |]; try done. intros _. by exists tt.
  - vm_compute. reflexivity.
  - by left.
  - reflexivity.
  - exists l. split; [exact Hrun|exact Hin].
Defined.

Example broken_stream_is_closed :
  fst (run hears (wrapStream full_caps text text 3 fail limits_fail 3 "r" None false (ModelOptions None) JNull (ModelState 0 None [])) (snd broken))
    = Ok (Ok (Replayed [says "paying"; calls "t1"; finish_of [calls "t1"]] JUndef), ModelState 1 None []).
Proof. vm_compute. reflexivity. Qed.

(** Two attempts at a cancelled run, one of either entry point. *)
Let both : list (any_attempt (V := model_entry) (E := string)) :=
  [GenerateAttempt (Ask JNull (λ _, Ask JNull (λ _, Stop))) None; StreamAttempt (Ask JNull (λ _, Ask JNull (λ _, Stop))) None].
Let flagged : world model_entry model_query := World (mj_put 0 (cancelKey "r") (MCancel (CancelRecord 5 None)) empty_journal) 0 0 [] empty_work.
Let pool := map (any_prog text text 3 fail limits_fail 3 "r" None false (ModelOptions None)) both.
Let ended := schedule hears [0; 1; 1; 0; 0; 1; 0; 1] (pool, flagged).

Lemma canceled_run_calls_no_model_witness : model_calls (snd ended) = 0.
Proof.
  refine (proj1 (canceled_run_calls_no_model text text 3 fail limits_fail 3 "r" None false (ModelOptions None) both flagged (fst ended) (snd ended) _ _)).
  - exists (MCancel (CancelRecord 5 None)). reflexivity.
  - rewrite <- surjective_pairing. apply schedule_reachable.
Defined.

Example canceled_attempts_are_refused :
  fst (run hears (wrapGenerate full_caps text text 3 fail limits_fail 3 "r" None false (ModelOptions None) JNull (ModelState 0 None [])) flagged)
    = Ok (Err "canceled", ModelState 0 None []).
Proof. vm_compute. reflexivity. Qed.
End StreamExamples.
