(* ===== verification/Approvals.v ===== *)
(** * Approvals: the answers of humans

    Models [resolveApprovals], [decisionOf], [isSpent] and [hasRunProbe] of
    [packages/durable/src/run.ts].  A row is the answer to one tool call of a run; a differing
    answer may replace it only while the call has not run.  Warnings are left out. *)

From S2P Require Import Prelude JsMap Keys Journal Work Prog Org Claim Alone Faults Json Hash Format Taint RunIdentity Cost ToolTypes ToolStore ToolGuards DurableTool.

(** [typeof raw === 'object' && raw !== null]. *)
Definition is_object (raw : js) : bool := match raw with JObj _ | JArr _ => true | _ => false end.

Definition isSpent (raw : js) : bool := is_object raw && bool_decide (prop raw "__gnl_approval_spent" = JBool true).

Definition decisionOf (raw : js) : option bool :=
  match raw with
  | JBool b => Some b
  | _ => if is_object raw && bool_decide (prop raw "v" = JNum 1)
         then match prop raw "decision" with JBool d => Some d | _ => None end
         else None
  end.

Definition approval_record (decision : bool) (at_ : Z) (actor : option string) : js :=
  JObj ([("v", JNum 1); ("decision", JBool decision); ("at", JNum at_)] ++
        match actor with Some a => [("actor", JStr a)] | None => [] end).

Section Approvals.
Context {V : Type} `{!JsValue V, !Embed js V, !Embed tool_record V} {Q R E : Type}.
Variable caps : journal_caps.
Variable runId : string.
Abbreviation prog := (prog V Q R E).

(** A row as JavaScript sees it. *)
Definition row_of (v : V) : js := default JUndef (prj v).

Definition hasRunProbe (claimTtlMs : option Z) (toolCallId : string) : prog bool :=
  rec ← jget (rk_tool runId toolCallId);
  match tr_status <$> (rec ≫= prj) with
  | Some (Succeeded _ _ _) | Some (Denied _) | Some (Reflected _ _) => mret true
  | Some (Running startedAt _) =>
      nowTs ← jnow caps;
      mret (nowTs - startedAt <=? default CLAIM_TTL_MS claimTtlMs)%Z
  | _ => mret false
  end.

Section Resolve.
Variable actor : option string.
Variable hasRun : option (string → prog bool).

(** [putIfMatch] where the journal has it. *)
Definition replace_row (key : string) (raw : V) (record : js) : prog unit :=
  if has_putIfMatch caps then _ ← jputIfMatch key raw (inj record); mret tt else jput key (inj record).

Definition resolve_one (toolCallId : string) (decision : bool) : prog unit :=
  let key := rk_approval runId toolCallId in
  at_ ← dateNow;
  let record := approval_record decision at_ actor in
  won ← claim caps key (inj record);
  if won : bool then mret tt
  else
    raw ← jget key;
    match raw with
    | None => mret tt
    | Some v =>
        if isSpent (row_of v) then replace_row key v record
        else
          match decisionOf (row_of v) with
          | None => mret tt
          | Some previous =>
              if Bool.eqb previous decision then mret tt
              else
                ran ← match hasRun with
                      | Some f => ptry (λ _, mret true) (f toolCallId)
                      | None => mret true
                      end;
                if ran : bool then mret tt else replace_row key v record
          end
    end.

Fixpoint resolve_all (approvals : list (string * bool)) : prog unit :=
  match approvals with
  | [] => mret tt
  | (toolCallId, decision) :: rest => _ ← resolve_one toolCallId decision; resolve_all rest
  end.

(** [merged], key by key. *)
Fixpoint merge_rows (prefix : string) (keys : list string) (merged : list (string * bool)) : prog (list (string * bool)) :=
  match keys with
  | [] => mret merged
  | key :: rest =>
      v ← jget key;
      match decisionOf (from_option row_of JUndef v) with
      | None => merge_rows prefix rest merged
      | Some d => merge_rows prefix rest (mset (slice (String.length prefix) key) d merged)
      end
  end.

Definition resolveApprovals (approvals : option (list (string * bool))) : prog (option (list (string * bool))) :=
  _ ← resolve_all (default [] approvals);
  if negb (has_listKeys caps) then mret approvals
  else
    let prefix := rk_approval runId "" in
    keys ← request (RListKeys prefix None);
    match keys with
    | [] => mret approvals
    | _ => merged ← merge_rows prefix keys (default [] approvals); mret (Some merged)
    end.
End Resolve.
End Approvals.

(** ** Alone *)

Section Alone.
Context {V : Type} `{!JsValue V, !Embed js V, !Embed tool_record V} {Q R E : Type}.
Variable h : oracle Q R E.
Variable runId : string.
Variable actor : option string.
Variable ttl : option Z.
Abbreviation akey := (rk_approval runId).
Abbreviation world_ := (world V Q).
Abbreviation probe := (hasRunProbe (Q := Q) (R := R) (E := E) full_caps runId ttl).
Implicit Types w : world_.

(** The call is over, or in the hands of a live executor. *)
Definition has_run w (tc : string) : bool :=
  match tr_status <$> (jkey (rk_tool runId tc) w ≫= prj) with
  | Some (Succeeded _ _ _) | Some (Denied _) | Some (Reflected _ _) => true
  | Some (Running startedAt _) => (clock w - startedAt <=? default CLAIM_TTL_MS ttl)%Z
  | _ => false
  end.

Definition decided w (tc : string) : option bool := jkey (akey tc) w ≫= λ v, decisionOf (row_of v).

(** The row of a call after an answer. *)
Definition answered w (tc : string) (decision : bool) : option V :=
  let new := Some (inj (approval_record decision (wall w) actor)) in
  match jkey (akey tc) w with
  | None => new
  | Some v =>
      if isSpent (row_of v) then new
      else match decisionOf (row_of v) with
           | None => Some v
           | Some previous => if Bool.eqb previous decision || has_run w tc then Some v else new
           end
  end.

Lemma run_probe tc w : run h (probe tc) w = (Ok (has_run w tc), w).
Proof.
  unfold hasRunProbe, has_run, jget. run_step. fold (jkey (rk_tool runId tc) w).
  destruct (jkey (rk_tool runId tc) w) as [v|]; [|done]. cbn. destruct (prj v) as [[[] ? ? ?]|]; done.
Qed.

Lemma run_replace_row tc v record w :
  jkey (akey tc) w = Some v →
  ∃ w', run h (replace_row (Q := Q) (R := R) (E := E) full_caps (akey tc) v record) w = (Ok tt, w') ∧ wrote (akey tc) (Some (inj record)) w w'.
Proof.
  intros Hv. unfold replace_row. cbn [has_putIfMatch full_caps]. run_step.
  destruct (run_jputIfMatch h (akey tc) v (inj record) w) as (w' & Hrun & Hw'). rewrite Hrun. exists w'. split; [done|].
  by rewrite bool_decide_eq_true_2 in Hw'.
Qed.

Lemma run_resolve_one tc d w :
  ∃ w', run h (resolve_one full_caps runId actor (Some probe) tc d) w = (Ok tt, w') ∧ wrote (akey tc) (answered w tc d) w w'.
Proof.
  unfold resolve_one, answered. run_step. set (record := approval_record d (wall w) actor).
  destruct (run_claim_alone (R := R) (E := E) h (akey tc) (inj record) w) as (w1 & Hclaim & Hw1).
  rewrite run_bind, Hclaim. destruct (jkey (akey tc) w) as [v|] eqn:Hv.
  2: { exists w1. split; [done|exact Hw1]. }
  rewrite bool_decide_eq_false_2 by done. change (Some (default (inj record) (Some v))) with (Some v) in Hw1.
  assert (Hv1 : jkey (akey tc) w1 = Some v) by apply Hw1. unfold jget. run_step. fold (jkey (akey tc) w1). rewrite Hv1.
  assert (Hstay : ∃ w', (Ok (E := E) tt, w1) = (Ok tt, w') ∧ wrote (akey tc) (Some v) w w') by by exists w1.
  destruct (isSpent (row_of v)).
  { destruct (run_replace_row tc v record w1 Hv1) as (w2 & Hrun & Hw2). exists w2. split; [done|by eapply wrote_trans]. }
  destruct (decisionOf (row_of v)) as [previous|]; [|exact Hstay].
  destruct (Bool.eqb previous d); [exact Hstay|]. cbn [orb].
  assert (Hran : has_run w1 tc = has_run w tc).
  { unfold has_run. rewrite (wr_others _ _ _ _ Hw1), (wr_clock _ _ _ _ Hw1); [done|]. unfold rk_tool, rk_approval. by intros ?%str_app_inj_l. }
  rewrite run_bind, run_try, run_probe, Hran. destruct (has_run w tc); [exact Hstay|].
  destruct (run_replace_row tc v record w1 Hv1) as (w2 & Hrun & Hw2). exists w2. split; [done|by eapply wrote_trans].
Qed.

Lemma akey_inj a b : akey a = akey b → a = b.
Proof. unfold rk_approval. by intros ?%str_app_inj_l%str_app_inj_l. Qed.

Lemma akey_tool a b : akey a ≠ rk_tool runId b.
Proof. unfold rk_approval, rk_tool. by intros ?%str_app_inj_l. Qed.

(** Rows after a list of answers. *)
Record rows_answered (l : list (string * bool)) w w' : Prop := RowsAnswered {
  ra_rows : ∀ tc, jkey (akey tc) w' = match mget tc l with Some d => answered w tc d | None => jkey (akey tc) w end;
  ra_others : ∀ k, (∀ tc, k ≠ akey tc) → jkey k w' = jkey k w;
  ra_wall : wall w' = wall w;
  ra_clock : clock w' = clock w;
}.

Lemma run_resolve_all l w :
  map_wf l → ∃ w', run h (resolve_all full_caps runId actor (Some probe) l) w = (Ok tt, w') ∧ rows_answered l w w'.
Proof.
  revert w. induction l as [|[tc d] l IH]; intros w Hwf; [by exists w|].
  unfold map_wf in Hwf. cbn in Hwf. apply NoDup_cons in Hwf as [Hnew Hwf].
  destruct (run_resolve_one tc d w) as (w1 & Hrun & [Hkey Ho _ Hclock Hwall]).
  destruct (IH w1 Hwf) as (w' & Hrun' & [Hrows Hothers Hwall' Hclock']).
  exists w'. cbn [resolve_all]. run_step. rewrite Hrun. split; [exact Hrun'|].
  assert (Htool : ∀ t, jkey (rk_tool runId t) w1 = jkey (rk_tool runId t) w) by (intros t; apply Ho; intros Hk; by apply (akey_tool tc t)).
  assert (Hsame : ∀ t b, t ≠ tc → answered w1 t b = answered w t b).
  { intros t b Hne. unfold answered, has_run. rewrite Htool, Hwall, Hclock, Ho; [done|]. intros Hk. by apply Hne, akey_inj. }
  split; [| |congruence..].
  - intros t. rewrite Hrows. cbn [mget]. destruct (String.eqb_spec t tc) as [->|Hne].
    + destruct (mget tc l) as [b|] eqn:Hb; [|exact Hkey]. destruct Hnew. apply elem_of_mkeys. by exists b.
    + destruct (mget t l) as [b|]; [by apply Hsame|]. apply Ho. intros Hk. by apply Hne, akey_inj.
  - intros k Hk. rewrite Hothers by done. by apply Ho.
Qed.

Lemma slice_akey tc : slice (String.length (akey "")) (akey tc) = tc.
Proof.
  replace (akey tc) with (akey "" +:+ tc); [apply slice_app|]. unfold rk_approval. by rewrite !str_app_assoc.
Qed.

Lemma run_merge_rows keys merged w :
  (∀ k, k ∈ keys → ∃ tc, k = akey tc) →
  ∃ m, run h (merge_rows (akey "") keys merged) w = (Ok m, w) ∧
    ∀ tc, mget tc m = match decided w tc with
                      | Some d => if decide (akey tc ∈ keys) then Some d else mget tc merged
                      | None => mget tc merged
                      end.
Proof.
  revert merged. induction keys as [|k keys IH]; intros merged Hkeys.
  { exists merged. split; [done|]. intros tc. destruct (decided w tc); [|done]. by rewrite decide_False by (by intros ?%elem_of_nil). }
  destruct (Hkeys k) as [tc0 ->]; [by left|]. cbn [merge_rows]. unfold jget. run_step. fold (jkey (akey tc0) w).
  assert (Hd : decisionOf (from_option row_of JUndef (jkey (akey tc0) w)) = decided w tc0).
  { unfold decided. by destruct (jkey (akey tc0) w). }
  rewrite Hd, slice_akey.
  assert (Hkeys' : ∀ k, k ∈ keys → ∃ tc, k = akey tc) by (intros k Hk; apply Hkeys; by right).
  destruct (decided w tc0) as [d0|] eqn:Hd0.
  - destruct (IH (mset tc0 d0 merged) Hkeys') as (m & Hrun & Hm). exists m. split; [exact Hrun|]. intros tc. rewrite Hm.
    destruct (decide (tc = tc0)) as [->|Hne].
    + rewrite Hd0, mget_mset. rewrite (decide_True (P := akey tc0 ∈ akey tc0 :: keys)) by (by left). by case_decide.
    + rewrite mget_mset_ne by done. destruct (decided w tc); [|done].
      rewrite (decide_ext (akey tc ∈ akey tc0 :: keys) (akey tc ∈ keys)); [done|]. rewrite elem_of_cons. split; [intros [Hk|]; [|done]|by right]. by apply akey_inj in Hk.
  - destruct (IH merged Hkeys') as (m & Hrun & Hm). exists m. split; [exact Hrun|]. intros tc. rewrite Hm.
    destruct (decided w tc) as [d|] eqn:Hdt; [|done].
    rewrite (decide_ext (akey tc ∈ akey tc0 :: keys) (akey tc ∈ keys)); [done|]. rewrite elem_of_cons. split; [intros [Hk|]; [|done]|by right].
    apply akey_inj in Hk. congruence.
Qed.

(** C18: What a run is told is what the journal says.  Alone: the row of a call that is answered for the
    first time, or whose answer was spent, takes the new answer; a row that holds another decision
    takes it only while the call has neither run nor is running; any other row stays, unreadable ones
    included, and nothing else is written.  The answer is, call by call, the decision of the journal,
    and what was asked where the journal has none. *)
Theorem resolveApprovals_exact (approvals : option (list (string * bool))) w :
  map_wf (default [] approvals) →
  ∃ r w', run h (resolveApprovals full_caps runId actor (Some probe) approvals) w = (Ok r, w') ∧
    rows_answered (default [] approvals) w w' ∧
    ∀ tc, r ≫= mget tc = match decided w' tc with Some d => Some d | None => approvals ≫= mget tc end.
Proof.
  intros Hwf. destruct (run_resolve_all _ w Hwf) as (w' & Hrun & Hrows).
  set (keys := mj_listKeys (akey "") (jr w')).
  assert (Hkeys : ∀ k, k ∈ keys → ∃ tc, k = akey tc).
  { intros k Hk. unfold keys, mj_listKeys in Hk. apply list_elem_of_filter in Hk as [Hk _]. apply starts_with_spec in Hk as [tc ->].
    exists tc. unfold rk_approval. by rewrite !str_app_assoc. }
  assert (Hin : ∀ tc d, decided w' tc = Some d → akey tc ∈ keys).
  { intros tc d Hd. unfold keys, mj_listKeys. apply list_elem_of_filter. split.
    - apply starts_with_spec. exists tc. unfold rk_approval. by rewrite !str_app_assoc.
    - unfold decided in Hd. destruct (jkey (akey tc) w') as [v|] eqn:Hv; [|done]. apply elem_of_app. left. apply elem_of_mkeys. by exists v. }
  destruct (run_merge_rows keys (default [] approvals) w' Hkeys) as (m & Hmerge & Hm).
  exists (match keys with [] => approvals | _ => Some m end), w'. split; [|split; [exact Hrows|]].
  - unfold resolveApprovals. run_step. rewrite Hrun. cbn [has_listKeys full_caps negb]. rewrite run_bind.
    rewrite (run_request h (RListKeys (akey "") None)). cbn [perform]. fold keys.
    destruct keys as [|k keys']; [done|]. by rewrite run_bind, Hmerge.
  - intros tc. assert (Hopt : mget tc (default [] approvals) = approvals ≫= mget tc) by (by destruct approvals).
    destruct keys as [|k keys'] eqn:Hk.
    + destruct (decided w' tc) as [d|] eqn:Hd; [|done]. apply Hin in Hd. by apply elem_of_nil in Hd.
    + cbn [mbind option_bind]. rewrite Hm, Hopt. destruct (decided w' tc) as [d|] eqn:Hd; [|done].
      by rewrite decide_True by (by apply (Hin tc d)).
Qed.
End Alone.

(** ** Interleaved *)

Section Settled.
Context {V : Type} `{!JsValue V, !Embed js V, !Embed tool_record V} {Q R E : Type}.
Variable runId tc : string.
Variable v : V.             (** the row of the call *)
Variable d : bool.
Variable r : V.             (** its tool record *)
Variable final : tool_record.
Hypothesis v_decides : decisionOf (row_of v) = Some d.
Hypothesis v_unspent : isSpent (row_of v) = false.
Hypothesis r_final : prj r = Some final.
Hypothesis r_terminal : is_terminal (tr_status final) = true.
Abbreviation akey := (rk_approval runId).
Abbreviation tkey := (rk_tool runId tc).
Abbreviation world_ := (world V Q).

(** Answers that arrive, in the run or at one of its surfaces. *)
Record answer_call := AnswerCall { an_actor : option string; an_ttl : option Z; an_approvals : option (list (string * bool)) }.

Definition answer_prog (c : answer_call) : prog V Q R E (option (list (string * bool))) :=
  resolveApprovals full_caps runId (an_actor c) (Some (hasRunProbe full_caps runId (an_ttl c))) (an_approvals c).

(** [false]: a read that the two records rule out. *)
Definition consistent (g : bool) (q : req V Q) : outcome E (ans (R := R) q) → bool :=
  match q return outcome E (ans (R := R) q) → bool with
  | RGet k => λ o, match o with
                   | Ok x => g && (negb (String.eqb k (akey tc)) || bool_decide (x = Some v)) && (negb (String.eqb k tkey) || bool_decide (x = Some r))
                   | Err _ => g
                   end
  | _ => λ _, g
  end.

Definition spares (g : bool) (q : req V Q) : Prop := g = true → overwrites (akey tc) q = false ∧ overwrites tkey q = false.

Abbreviation safe_s := (safe (V := V) (Q := Q) (R := R) (E := E) spares consistent).

Lemma safe_ruled_out {A} (post : bool → outcome E A → Prop) p : (∀ o, post false o) → safe_s post false p.
Proof.
  intros Hp. induction p as [a|e|q k IH]; simpl; [apply Hp..|]. split; [done|]. intros o.
  replace (consistent false q o) with false; [apply IH|]. destruct q; try done. by destruct o.
Qed.

Lemma replace_spares tc' u record g : tc' ≠ tc → safe_s (λ _ _, True) g (replace_row full_caps (akey tc') u record).
Proof.
  intros Hne. split; [|by intros [x|e]]. intros _. split; apply String.eqb_neq.
  - intros Hk. by apply Hne, (akey_inj runId).
  - apply akey_tool.
Qed.

Lemma spares_absent k x g : spares g (RPutIfAbsent k x).
Proof. by intros _. Qed.

(** The probe of the call answers that it ran, or fails. *)
Lemma probe_spares ttl g :
  safe_s (λ g' o, g' = true → o = Ok true) g (ptry (λ _, mret true) (hasRunProbe full_caps runId ttl tc)).
Proof.
  destruct g; [|by apply safe_ruled_out]. split; [done|]. intros [x|e]; [|done]. cbn.
  rewrite (proj2 (String.eqb_neq tkey (akey tc))) by (intros Hk; by apply (akey_tool runId tc tc)).
  rewrite String.eqb_refl. cbn. case_bool_decide as Hx; [|by apply safe_ruled_out]. subst x. cbn. rewrite r_final. cbn.
  by destruct (tr_status final).
Qed.

Lemma any_probe_spares ttl tc' g : safe_s (λ _ _, True) g (ptry (λ _, mret true) (hasRunProbe full_caps runId ttl tc')).
Proof.
  split; [done|]. intros [x|e]; [|done]. cbn. destruct (tr_status <$> (x ≫= prj)) as [[]|]; try done.
  split; [done|]. by intros [now|e].
Qed.

Lemma resolve_one_spares actor ttl tc' b g :
  safe_s (λ _ _, True) g (resolve_one full_caps runId actor (Some (hasRunProbe full_caps runId ttl)) tc' b).
Proof.
  destruct g; [|by apply safe_ruled_out].
  unfold resolve_one. split; [done|]. intros [now|e]; [|done]. cbn -[replace_row hasRunProbe]. split; [done|].
  intros [[]|e]; cbn -[replace_row hasRunProbe]; [done| |done]. split; [done|]. intros [x|e]; [|done]. cbn -[replace_row hasRunProbe].
  destruct (decide (tc' = tc)) as [->|Hne].
  - rewrite String.eqb_refl. rewrite (proj2 (String.eqb_neq (akey tc) tkey)) by apply akey_tool. cbn -[replace_row hasRunProbe].
    case_bool_decide as Hx; [|by apply safe_ruled_out]. subst x. rewrite v_unspent, v_decides. destruct (Bool.eqb d b); [done|].
    eapply safe_bind; [apply probe_spares| |done]. intros [] ran Hran; [|by apply safe_ruled_out].
    by injection (Hran eq_refl) as ->.
  - destruct x as [u|]; [|done]. destruct (isSpent (row_of u)); [by apply replace_spares|].
    destruct (decisionOf (row_of u)) as [p|]; [|done]. destruct (Bool.eqb p b); [done|].
    eapply (safe_bind _ _ _ (λ _ _, True)); [apply any_probe_spares| |done].
    intros g' [] _; [done|by apply replace_spares].
Qed.

Lemma merge_spares prefix keys m g : safe_s (λ _ _, True) g (merge_rows prefix keys m).
Proof.
  revert m g. induction keys as [|k keys IH]; intros m g; [done|]. split; [done|]. intros [x|e]; [|done]. cbn -[decisionOf].
  destruct (decisionOf (from_option row_of JUndef x)); apply IH.
Qed.

Lemma answer_spares c g : safe_s (λ _ _, True) g (answer_prog c).
Proof.
  unfold answer_prog, resolveApprovals. eapply (safe_bind _ _ _ (λ _ _, True)); [| |done].
  - generalize (default [] (an_approvals c)). intros l. revert g. induction l as [|[tc' b] l IH]; intros g; [done|].
    eapply (safe_bind _ _ _ (λ _ _, True)); [apply resolve_one_spares| |done]. intros g' [] _. apply IH.
  - intros g' [] _. cbn [has_listKeys full_caps negb]. split; [done|]. intros [keys|e]; [|done]. cbn.
    destruct keys as [|k keys]; [done|]. eapply (safe_bind _ _ _ (λ _ _, True)); [apply merge_spares|done|done].
Qed.

Definition both_there (w : world_) (gs : list bool) : Prop :=
  (∀ g, g ∈ gs → g = true) ∧ jkey (akey tc) w = Some v ∧ jkey tkey w = Some r.

Lemma both_there_ends (h : oracle Q R E) w i g gs q o w' :
  gs !! i = Some g → spares g q →
  ends h q w o w' →
  both_there w gs → both_there w' (<[i := consistent g q o]> gs).
Proof.
  intros Hi Hm He (Hg & Hv & Hr).
  assert (g = true) as -> by (apply Hg; by eapply list_elem_of_lookup_2). destruct (Hm eq_refl) as [Ha Ht].
  assert (Hc : consistent true q o = true).
  { destruct q; try done. cbn. destruct o as [x|e]; [|done]. destruct He as [[_ Ho]|[_ [e Ho]]]; [|done]. cbn in Ho. injection Ho as ->.
    unfold jkey in Hv, Hr. apply andb_true_iff. split; apply orb_true_iff.
    - destruct (String.eqb_spec k (akey tc)) as [->|]; [right; by apply bool_decide_eq_true_2|by left].
    - destruct (String.eqb_spec k tkey) as [->|]; [right; by apply bool_decide_eq_true_2|by left]. }
  rewrite Hc. split_and!.
  - intros g' [j Hj]%list_elem_of_lookup_1. apply list_lookup_insert_Some in Hj as [(_ & <- & _)|[_ Hj]]; [done|].
    apply Hg. by eapply list_elem_of_lookup_2.
  - destruct He as [[-> _]|[[->| ->] _]]; [by apply perform_jkey_keep|done|by apply perform_jkey_keep].
  - destruct He as [[-> _]|[[->| ->] _]]; [by apply perform_jkey_keep|done|by apply perform_jkey_keep].
Qed.

(** C12: A decision that was carried out is not rewritten.  When a call holds a decision and its tool record
    is final, any number of later answers, by any callers, with any decisions and interleaved in any order
    with any failures, leave the row as it is. *)
Theorem settled_decision_stands (calls : list answer_call) w ps' w' :
  jkey (rk_approval runId tc) w = Some v → jkey (rk_tool runId tc) w = Some r →
  reachable (map answer_prog calls, w) (ps', w') → jkey (rk_approval runId tc) w' = Some v.
Proof using v_unspent v_decides r_terminal r_final.
  intros Hv Hr Hreach.
  destruct (pool_ends spares consistent both_there) with (post := λ (_ : bool) (_ : outcome E (option (list (string * bool)))), True)
    (c := (map answer_prog calls, w)) (c' := (ps', w')) (gs := map (λ _, true) calls) as (gs & (_ & Hfin & _) & _);
    [| |exact Hreach| | |exact Hfin].
  - intros w1 gs c x _ Hw1. exact Hw1.
  - intros h w1 gs i g q o w2 Hg Hm He Hw1. by eapply both_there_ends.
  - split_and!; try done. by intros g (a & -> & _)%list_elem_of_fmap.
  - cbn. clear Hreach. induction calls as [|a l IH]; [constructor|]. constructor; [apply answer_spares|exact IH].
Qed.
End Settled.

(** ** Examples *)

Section ApprovalExamples.
Let h0 : oracle unit unit unit := λ _ _, Ok tt.
Let row (d : bool) : entry := EJs (approval_record d 1 (Some "op")).
Let ran : tool_record := plain (Succeeded (JStr "paid") None None).
Let w0 : world entry unit := World (mj_put 1 (rk_tool "r" "c1") (ETool ran) (mj_put 1 (rk_approval "r" "c1") (row true) empty_journal)) 10 10 [] empty_work.
Let deny : answer_call := AnswerCall (Some "op") None (Some [("c1", false)]).

Let twice := schedule h0 [0; 1; 0; 1; 0; 1; 0; 1; 0; 1] (map (answer_prog "r") [deny; deny], w0).

Lemma settled_decision_stands_witness : jkey (rk_approval "r" "c1") (snd twice) = Some (row true).
Proof.
  refine (settled_decision_stands "r" "c1" (row true) true (ETool ran) ran eq_refl eq_refl eq_refl eq_refl [deny; deny] w0
    (fst twice) (snd twice) eq_refl eq_refl _).
  rewrite <- surjective_pairing. apply schedule_reachable.
Defined.

Lemma resolveApprovals_exact_witness :
  ∃ r w', run h0 (answer_prog "r" (AnswerCall None None (Some [("c1", false); ("c2", true)]))) w0 = (Ok r, w') ∧
    r ≫= mget "c1" = Some true ∧ r ≫= mget "c2" = Some true.
Proof.
  destruct (resolveApprovals_exact (V := entry) h0 "r" None None (Some [("c1", false); ("c2", true)]) w0) as (r & w' & Hrun & Hrows & Hr).
  - apply (bool_decide_unpack _). vm_compute. exact I.
  - exists r, w'. split; [exact Hrun|]. rewrite !Hr. unfold decided. rewrite !(ra_rows _ _ _ _ _ _ Hrows). split; vm_compute; reflexivity.
Defined.

(** An answer that was looked at before the call ran is written after it: the journal says that the call was
    denied, and that it succeeded. *)
Let pay : prog entry unit unit unit (option (list (string * bool))) :=
  _ ← jput (rk_tool "r" "c1") (ETool ran); mret None.
Let waiting : world entry unit :=
  World (mj_put 1 (rk_tool "r" "c1") (ETool (plain (Suspended JNull))) (mj_put 1 (rk_approval "r" "c1") (row true) empty_journal)) 10 10 [] empty_work.

Example late_denial :
  let w := snd (schedule h0 [0; 0; 0; 0; 1; 0] ([answer_prog "r" deny; pay], waiting)) in
  jkey (rk_tool "r" "c1") w = Some (ETool ran) ∧
  jkey (rk_approval "r" "c1") w = Some (EJs (approval_record false 10 (Some "op"))).
Proof. vm_compute. by split. Qed.
End ApprovalExamples.
