(* ===== verification/MemoryAppend.v ===== *)
(** * MemoryAppend: what a run writes into its conversation

    Models the memory half of [packages/durable/src/run.ts]: the two-phase markers
    ([claimMemoryAppend], [markMemoryAppendDone]), the write-ahead of the question
    ([writeAheadIncoming]) and the append of the answer ([appendCompletion], [appendBatchOnce]).  The
    host's memory answers the appends. *)

From S2P Require Import Prelude JsMap Keys Journal Work Prog Faults Org Claim Alone Json Hash Format Taint RunIdentity Cost ToolTypes ToolStore Approvals.

Definition MEM_APPEND_TTL_MS : Z := 60000.

(** The pending half of a marker; the other is [true]. *)
Definition mem_pending (startedAt : Z) : js := JObj [("status", JStr "pending"); ("startedAt", JNum startedAt)].

(** [Date.now() - cur.startedAt < MEM_APPEND_TTL_MS]; a marker without a number is never fresh. *)
Definition is_fresh (now : Z) (cur : js) : bool :=
  match prop cur "startedAt" with JNum t => (now - t <? MEM_APPEND_TTL_MS)%Z | _ => false end.

Inductive mem_query :=
| QAppend (threadId : string) (messages : list js)
| QAppendOnce (threadId : string) (messages : list js) (batch : string).

Section MemoryAppend.
Context {V : Type} `{!JsValue V, !Embed js V, !Embed run_taint V, !Embed taint_provenance V} {E : Type}.
Variable caps : journal_caps.
Variable appendOnce : bool.                 (** the memory has it *)
Variable contentWindow : bool.              (** thread scope and [taintLifetime: 'content-window'] *)
Variable contentHash : js → string.
Variable type_error : E.                    (** reading a field of [null] *)
Variable runId threadId : string.
Abbreviation prog := (prog V mem_query bool E).

Definition claimMemoryAppend (marker : string) : prog (option js) :=
  startedAt ← dateNow;
  let mine := mem_pending startedAt in
  won ← claim caps marker (inj mine);
  if won : bool then mret (Some mine)
  else
    cur ← jget marker;
    match cur with
    | None => mret None
    | Some v =>
        if bool_decide (row_of v = JBool true) then mret None
        else if bool_decide (row_of v = JNull) then Throw type_error
        else
          now ← dateNow;
          if is_fresh now (row_of v) then mret None
          else
            t ← dateNow;
            let takeover := mem_pending t in
            if has_putIfMatch caps then
              taken ← jputIfMatch marker v (inj takeover);
              mret (if taken : bool then Some takeover else None)
            else _ ← jput marker (inj takeover); mret (Some takeover)
    end.

Definition markMemoryAppendDone (marker : string) (pending : js) : prog unit :=
  if has_putIfMatch caps then _ ← jputIfMatch marker (inj pending) (inj (JBool true)); mret tt
  else jput marker (inj (JBool true)).

Definition append (messages : list js) : prog unit := _ ← request (RExt (QAppend threadId messages)); mret tt.

Definition appendBatchOnce (marker : string) (messages : list js) : prog bool :=
  match messages with
  | [] => mret false
  | _ =>
      if appendOnce then
        done ← jget marker;
        if bool_decide (row_of <$> done = Some (JBool true)) then mret false
        else request (RExt (QAppendOnce threadId messages marker))
      else
        pending ← claimMemoryAppend marker;
        match pending with
        | None => mret false
        | Some p => _ ← append messages; _ ← markMemoryAppendDone marker p; mret true
        end
  end.

Definition recordAppendedTaintProvenance (appended : list js) : prog unit :=
  if contentWindow then
    taint ← readDirectRunTaint runId;
    match taint with
    | None => mret tt
    | Some _ => _ ← recordTaintProvenance caps threadId (map contentHash appended); mret tt
    end
  else mret tt.

Definition writeAheadIncoming (incoming : list js) (alreadyStored : bool) : prog unit :=
  if alreadyStored || bool_decide (incoming = []) then mret tt
  else
    wrote ← appendBatchOnce (rk_memUserAppended runId) incoming;
    if wrote : bool then recordAppendedTaintProvenance incoming else mret tt.

Definition appendCompletion (incoming : list js) (incomingStored : bool) (produced : list js) : prog unit :=
  let marker := rk_memAppended runId in
  let needIncoming := negb incomingStored && negb (bool_decide (incoming = [])) in
  if appendOnce then
    _ ← (if needIncoming then
           w ← appendBatchOnce (rk_memUserAppended runId) incoming;
           if w : bool then recordAppendedTaintProvenance incoming else mret tt
         else mret tt);
    wrote ← appendBatchOnce marker produced;
    if wrote : bool then recordAppendedTaintProvenance produced else mret tt
  else
    pending ← claimMemoryAppend marker;
    match pending with
    | None => mret tt
    | Some p =>
        userPending ← (if needIncoming then claimMemoryAppend (rk_memUserAppended runId) else mret None);
        let appended := match userPending with Some _ => incoming ++ produced | None => produced end in
        _ ← append appended;
        _ ← recordAppendedTaintProvenance appended;
        _ ← (match userPending with Some u => markMemoryAppendDone (rk_memUserAppended runId) u | None => mret tt end);
        markMemoryAppendDone marker p
    end.

(** The memory half of one attempt, which may find its question stored at either moment. *)
Definition memory_turn (incoming : list js) (early late : bool) (produced : list js) : prog unit :=
  _ ← writeAheadIncoming incoming early;
  appendCompletion incoming late produced.
End MemoryAppend.

(** ** Within the time of a claim *)

#[local] Arguments rk_memUserAppended : simpl never.
#[local] Arguments rk_memAppended : simpl never.
#[local] Arguments String.eqb : simpl never.
#[local] Arguments mem_pending : simpl never.

Section Window.
Context {V : Type} `{!JsValue V, !Embed js V, !Embed run_taint V, !Embed taint_provenance V} {E : Type}.
Variable contentWindow : bool.
Variable contentHash : js → string.
Variable type_error : E.
Variable runId threadId : string.
Variable t0 : Z.                            (** the clocks read from here on, for one time of a claim *)
Variable incoming produced : list js.
Abbreviation world_ := (world V mem_query).
Abbreviation request_ := (req V mem_query).
Abbreviation oracle_ := (oracle mem_query bool E).
Abbreviation user := (rk_memUserAppended runId).
Abbreviation main := (rk_memAppended runId).
Implicit Types w : world_.

Definition in_window (r : request_) : outcome E (ans (R := bool) r) → Prop :=
  match r return outcome E (ans (R := bool) r) → Prop with
  | RDateNow => λ o, match o with Ok t => (t0 ≤ t < t0 + MEM_APPEND_TTL_MS)%Z | Err _ => True end
  | _ => λ _, True
  end.

(** A marker that no claim of the window may take over. *)
Definition standing (v : V) : bool :=
  bool_decide (row_of v = JBool true) || match prop (row_of v) "startedAt" with JNum t => (t0 <=? t)%Z | _ => false end.

(** What a call holds of a marker: nothing, a claim, a claim it has used. *)
Inductive hold := Free | Won | Used.

#[local] Instance hold_eq_dec : EqDecision hold.
Proof. solve_decision. Defined.

Record holds := Holds { ho_user : hold; ho_main : hold }.

Definition use (x : hold) : hold := match x with Won => Used | _ => x end.

(** [None]: a read that cannot come. *)
Definition learn_marker (g : option holds) (r : request_) : outcome E (ans (R := bool) r) → option holds :=
  match r return outcome E (ans (R := bool) r) → option holds with
  | RGet k => λ o, match o with
                   | Ok (Some v) => if (String.eqb k user || String.eqb k main) && negb (standing v) then None else g
                   | _ => g
                   end
  | RPutIfAbsent k _ => λ o, match o, g with
                             | Ok true, Some x =>
                                 if String.eqb k user then (if decide (ho_user x = Free) then Some (Holds Won (ho_main x)) else None)
                                 else if String.eqb k main then (if decide (ho_main x = Free) then Some (Holds (ho_user x) Won) else None) else g
                             | _, _ => g
                             end
  | RExt (QAppend _ _) => λ _, (λ x, Holds (use (ho_user x)) (use (ho_main x))) <$> g
  | _ => λ _, g
  end.

(** What a call owes to the conversation for the claims it holds. *)
Definition owed (x : holds) : list js :=
  (if decide (ho_user x = Won) then incoming else []) ++ (if decide (ho_main x = Won) then produced else []).

Definition may_mark (g : option holds) (r : request_) : Prop :=
  match g with
  | None => True
  | Some x =>
      match r with
      | RPut k _ => k ≠ user ∧ k ≠ main
      | RPutIfAbsent k v | RPutIfMatch k _ v => (k = user ∨ k = main) → standing v = true
      | RExt (QAppend _ messages) => messages = owed x
      | RExt (QAppendOnce _ _ _) => False
      | _ => True
      end
  end.

Abbreviation safe_a := (safe_in (V := V) (Q := mem_query) (R := bool) (E := E) in_window may_mark learn_marker).
Abbreviation prog_ := (prog V mem_query bool E).

Lemma safe_never {A} (post : option holds → outcome E A → Prop) (p : prog_ A) : (∀ o, post None o) → safe_a post None p.
Proof.
  intros Hp. induction p as [a|e|r k IH]; simpl; [apply Hp..|]. split; [done|]. intros o _.
  replace (learn_marker None r o) with (None (A := holds)); [apply IH|].
  destruct r as [|k0 v0|k0 v0|k0 e0 v0| | | | | | | | | | | | | | |[]]; try done; cbn; destruct o as [x|e]; try done; destruct x; try done; by case_match.
Qed.

Lemma user_main : user ≠ main.
Proof. unfold rk_memUserAppended, rk_memAppended. done. Qed.

(** A claim that is made in the window. *)
Definition claimed_as (marker : string) (x : holds) (g : option holds) (o : outcome E (option js)) : Prop :=
  match g, o with
  | Some y, Ok (Some p) => ∃ t, p = mem_pending t ∧ y = (if String.eqb marker user then Holds Won (ho_main x) else Holds (ho_user x) Won)
  | Some y, Ok None => y = x
  | _, _ => True
  end.

Lemma standing_pending t : (t0 ≤ t)%Z → standing (inj (mem_pending t)) = true.
Proof. intros Ht. unfold standing, row_of. rewrite prj_inj. cbn. by apply Z.leb_le. Qed.

Lemma claim_window marker x :
  marker = user ∨ marker = main →
  safe_a (claimed_as marker x) (Some x) (claimMemoryAppend full_caps type_error marker).
Proof.
  intros Hm. assert (Hk : String.eqb marker user || String.eqb marker main = true).
  { destruct Hm as [->| ->]; by rewrite String.eqb_refl, ?orb_true_r. }
  unfold claimMemoryAppend. split; [done|]. intros [t|e] Ht; [|done]. cbn in Ht. cbn -[standing].
  split; [intros _; apply standing_pending; lia|]. intros [[]|e] _; cbn -[standing]; [|split; [done|]|done].
  - assert (Hmu : String.eqb main user = false) by (apply String.eqb_neq; intros He; symmetry in He; by apply user_main in He).
    unfold claimed_as. destruct Hm as [->| ->]; rewrite ?Hmu, !String.eqb_refl; case_decide; by try exists t.
  - intros [[v|]|e] _; cbn -[standing row_of]; [|done|done]. rewrite Hk. cbn [andb].
    destruct (standing v) eqn:Hv; cbn [negb]; [|by apply safe_never; intros []].
    case_bool_decide as Hdone; [done|]. case_bool_decide; [done|].
    split; [done|]. intros [now|e] Hnow; [|done]. cbn in Hnow. cbn -[is_fresh row_of].
    assert (Hf : is_fresh now (row_of v) = true).
    { unfold standing in Hv. rewrite bool_decide_eq_false_2 in Hv by done. unfold is_fresh. destruct (prop _ _); try discriminate Hv.
      apply Z.leb_le in Hv. apply Z.ltb_lt. lia. }
    by rewrite Hf.
Qed.

(** Requests that leave the markers and the conversation alone. *)
Definition apart (r : request_) : Prop :=
  match r with
  | RPut k _ | RPutIfAbsent k _ | RPutIfMatch k _ _ => k ≠ user ∧ k ≠ main
  | RExt _ => False
  | _ => True
  end.

Lemma apart_safe {A} (post : option holds → outcome E A → Prop) (p : prog_ A) x :
  only apart p → (∀ o, post (Some x) o) → (∀ o, post None o) → safe_a post (Some x) p.
Proof.
  intros Hp Hx Hnone. induction p as [a|e|r k IH]; simpl; [apply Hx..|]. destruct Hp as [Hr Hk].
  split. { destruct r; try done; cbn in *; destruct Hr as [Hu Hm]; first [by split|by intros [?|?]]. }
  intros o _. assert (Hl : learn_marker (Some x) r o = Some x ∨ learn_marker (Some x) r o = None).
  { destruct r; try (by left); cbn.
    - destruct o as [[v|]|]; try (by left). destruct (_ && _); [by right|by left].
    - destruct Hr as [Hu Hm]. rewrite (proj2 (String.eqb_neq _ _) Hu), (proj2 (String.eqb_neq _ _) Hm). by destruct o as [[]|]; left. }
  destruct Hl as [->| ->]; [apply IH, Hk|by apply safe_never].
Qed.

Lemma prov_apart : threadTaintProvenanceKey threadId ≠ user ∧ threadTaintProvenanceKey threadId ≠ main.
Proof. done. Qed.

Lemma stamp_apart messages : only apart (recordAppendedTaintProvenance (E := E) full_caps contentWindow contentHash runId threadId messages).
Proof.
  unfold recordAppendedTaintProvenance. destruct contentWindow; [|done].
  apply only_bind. { split; [done|]. by intros [x|e]. }
  intros [t|]; [|done]. apply only_bind; [|done]. unfold recordTaintProvenance. destruct (map contentHash messages) as [|c cs]; [done|].
  generalize 3. intros n. induction n as [|n IH]; [done|]. cbn [record_attempts].
  apply only_bind; [|by intros []]. apply only_try; [|done]. split; [done|]. intros [[v|]|e]; [| |done]; (split; [apply prov_apart|by intros [?|?]]).
Qed.

Lemma mark_safe marker p x (post : option holds → outcome E unit → Prop) :
  (∀ o, post (Some x) o) → safe_a post (Some x) (markMemoryAppendDone full_caps marker p).
Proof.
  intros Hp. split; [|by intros [b|e] _; apply Hp]. intros _. unfold standing, row_of. by rewrite prj_inj.
Qed.

Lemma append_safe messages x (post : option holds → outcome E unit → Prop) :
  messages = owed x → (∀ o, post (Some (Holds (use (ho_user x)) (use (ho_main x)))) o) → safe_a post (Some x) (append threadId messages).
Proof. intros -> Hp. split; [done|]. intros [b|e] _; apply Hp. Qed.

(** The write-ahead: the question, for a claim of its own. *)
Lemma write_ahead_safe early :
  safe_a (λ g o, match g, o with Some x, Ok _ => ho_main x = Free ∧ ho_user x ≠ Won | _, _ => True end) (Some (Holds Free Free))
    (writeAheadIncoming full_caps false contentWindow contentHash type_error runId threadId incoming early).
Proof.
  unfold writeAheadIncoming. destruct (early || bool_decide (incoming = [])) eqn:Hskip; [done|]. apply orb_false_iff in Hskip as [_ Hne].
  apply bool_decide_eq_false in Hne.
  eapply (safe_in_bind _ _ _ _ (λ g (o : outcome E bool), match g, o with Some x, Ok _ => ho_main x = Free ∧ ho_user x ≠ Won | _, _ => True end)).
  - assert (Hb : ∀ (p q : prog_ bool), match incoming with [] => p | _ => q end = q) by (by destruct incoming).
    unfold appendBatchOnce. rewrite Hb. cbn [negb]. eapply safe_in_bind; [apply claim_window; by left| |by intros [x|] e _].
    intros [x|] [p|] Hx; [|by cbn in Hx; subst x|by apply safe_never; intros []..]. destruct Hx as (t & -> & ->). rewrite String.eqb_refl.
    eapply (safe_in_bind _ _ _ _ (λ g o, match g, o with Some y, Ok _ => y = Holds Used Free | _, _ => True end)).
    + apply append_safe; [|by intros []]. unfold owed. cbn [ho_user ho_main]. rewrite decide_True, decide_False by done. by rewrite app_nil_r.
    + intros [y|] [] Hy; [subst y|by apply safe_never; intros []].
      eapply (safe_in_bind _ _ _ _ (λ g _, g = Some (Holds Used Free))); [by apply mark_safe| |by intros g e ->].
      by intros g [] ->.
    + by intros [y|] e _.
  - intros [x|] [] Hx; [|done|by apply safe_never; intros []..].
    apply apart_safe; [apply stamp_apart|by intros []|by intros []].
  - by intros [x|] e _.
Qed.

(** The completion: the answer, and the question if it is still to be stored, for their claims. *)
Lemma completion_safe late x :
  ho_main x = Free → ho_user x ≠ Won →
  safe_a (λ _ _, True) (Some x)
    (appendCompletion full_caps false contentWindow contentHash type_error runId threadId incoming late produced).
Proof.
  intros Hmain Huser. unfold appendCompletion. eapply safe_in_bind; [apply claim_window; by right| |done].
  assert (Hmu : String.eqb main user = false) by (apply String.eqb_neq; intros He; symmetry in He; by apply user_main in He).
  intros [y|] [p|] Hy; [|done|by apply safe_never..]. destruct Hy as (t & -> & ->). rewrite Hmu. set (y := Holds (ho_user x) Won).
  eapply (safe_in_bind _ _ _ _ (λ g o, match g, o with
      | Some z, Ok (Some _) => z = Holds Won Won
      | Some z, Ok None => z = y
      | _, _ => True end)).
  { destruct (negb late && _); [|done]. eapply safe_in_mono; [|apply claim_window; by left].
    intros [z|] [[q|]|e] Hz; try done. destruct Hz as (t' & _ & ->). by rewrite String.eqb_refl. }
  2: { done. }
  intros [z|] q Hz; [|by apply safe_never].
  assert (Hrest : ∀ z' (u : option js), safe_a (λ _ _, True) (Some z')
    (_ ← recordAppendedTaintProvenance full_caps contentWindow contentHash runId threadId (match q with Some _ => incoming ++ produced | None => produced end);
     _ ← (match u with Some u => markMemoryAppendDone full_caps user u | None => mret tt end);
     markMemoryAppendDone full_caps main (mem_pending t))).
  { intros z' u. eapply (safe_in_bind _ _ _ _ (λ g _, True)); [by apply apart_safe; [apply stamp_apart|..]| |done].
    intros [z2|] [] _; [|by apply safe_never].
    eapply (safe_in_bind _ _ _ _ (λ g _, True)); [by destruct u; [apply mark_safe|]| |done].
    intros [z3|] [] _; [by apply mark_safe|by apply safe_never]. }
  eapply (safe_in_bind _ _ _ _ (λ g _, True)); [| |done].
  - apply append_safe; [|done]. unfold owed. destruct q as [q|]; subst z; cbn [ho_user ho_main y]; [by rewrite !decide_True|by rewrite decide_False, decide_True].
  - intros [z'|] [] _; [apply Hrest|by apply safe_never].
Qed.

Lemma turn_safe early late :
  safe_a (λ _ _, True) (Some (Holds Free Free))
    (memory_turn full_caps false contentWindow contentHash type_error runId threadId incoming early late produced).
Proof.
  eapply safe_in_bind; [apply write_ahead_safe| |done]. intros [x|] [] Hx; [|by apply safe_never].
  destruct Hx. by apply completion_safe.
Qed.

(** *** The markers, the conversation and the claims *)

(** How often a message is in what was appended. *)
Definition copies (c : js) (l : list js) : nat := count_if (λ x, bool_decide (x = c)) l.
Definition appended (q : mem_query) : list js := match q with QAppend _ l | QAppendOnce _ l _ => l end.
Definition stored (c : js) w : nat := copies c (concat (map appended (trace w))).

Definition taken (f : holds → hold) (gs : list (option holds)) : nat :=
  count_if (λ g, match g with Some x => bool_decide (f x ≠ Free) | None => false end) gs.
Definition used (f : holds → hold) (gs : list (option holds)) : nat :=
  count_if (λ g, match g with Some x => bool_decide (f x = Used) | None => false end) gs.

(** One claim of a marker at most, and none of one that stood before. *)
Definition one_claim (marker : string) (f : holds → hold) w0 w (gs : list (option holds)) : Prop :=
  match jkey marker w with
  | None => taken f gs = 0 ∧ jkey marker w0 = None
  | Some v => standing v = true ∧ taken f gs + (if decide (jkey marker w0 = None) then 0 else 1) ≤ 1
  end.

Record once w0 w (gs : list (option holds)) : Prop := Once {
  on_some : ∀ g, g ∈ gs → is_Some g;
  on_user : one_claim user ho_user w0 w gs;
  on_main : one_claim main ho_main w0 w gs;
  on_stored : ∀ c, stored c w ≤ stored c w0 + used ho_user gs * copies c incoming + used ho_main gs * copies c produced;
}.

Lemma used_taken f gs : used f gs ≤ taken f gs.
Proof. apply count_if_mono. intros [x|]; [|done]. intros Hx. apply bool_decide_eq_true in Hx. apply bool_decide_eq_true. by rewrite Hx. Qed.

Lemma copies_app c l k : copies c (l ++ k) = copies c l + copies c k.
Proof. apply count_if_app. Qed.

(** Where a request leaves a marker: as it was, or standing. *)
Lemma marker_ends (h : oracle_) marker x r w o w' :
  marker = user ∨ marker = main → may_mark (Some x) r → ends h r w o w' →
  jkey marker w' = jkey marker w ∨ ∃ v, standing v = true ∧ jkey marker w' = Some v.
Proof.
  intros Hk Hm He. assert (Hp : jkey marker (snd (perform h r w)) = jkey marker w ∨ ∃ v, standing v = true ∧ jkey marker (snd (perform h r w)) = Some v).
  { destruct r as [|k v|k v|k e v| | | | | | | | | | | | | | |[]]; try (by left); cbn in Hm |- *.
    - left. apply mget_mset_ne. intros <-. destruct Hm, Hk; congruence.
    - unfold jkey. rewrite mj_putIfAbsent_spec. destruct (mj_get k (jr w)) eqn:Hj; [by left|]. cbn. destruct (decide (marker = k)) as [->|Hne].
      + right. exists v. split; [by apply Hm|apply mget_mset].
      + left. by apply mget_mset_ne.
    - unfold jkey. rewrite mj_putIfMatch_spec. case_bool_decide; [|by left]. cbn. destruct (decide (marker = k)) as [->|Hne].
      + right. exists v. split; [by apply Hm|apply mget_mset].
      + left. by apply mget_mset_ne. }
  destruct He as [[-> _]|[[->| ->] _]]; auto.
Qed.

(** A claim that is won. *)
Definition wins (marker : string) (r : request_) : outcome E (ans (R := bool) r) → Prop :=
  match r return outcome E (ans (R := bool) r) → Prop with
  | RPutIfAbsent k _ => λ o, k = marker ∧ o = Ok true
  | _ => λ _, False
  end.

Lemma wins_ends (h : oracle_) marker r w o w' :
  ends h r w o w' → wins marker r o → jkey marker w = None ∧ is_Some (jkey marker w').
Proof.
  intros He Hw. destruct r as [| |k v| | | | | | | | | | | | | | | |]; try done. destruct Hw as [-> ->].
  destruct He as [[-> Ho]|[_ [e He]]]; [|done]. unfold jkey. cbn in *. rewrite mj_putIfAbsent_spec in Ho |- *.
  destruct (mj_get marker (jr w)) eqn:Hj; [done|]. split; [done|]. exists v. apply mget_mset.
Qed.

Definition its (marker : string) (f : holds → hold) : Prop := (marker = user ∧ f = ho_user) ∨ (marker = main ∧ f = ho_main).

Lemma its_use marker f x : its marker f → f (Holds (use (ho_user x)) (use (ho_main x))) = use (f x).
Proof. by intros [[_ ->]|[_ ->]]. Qed.

Definition bit (b : bool) : nat := if b then 1 else 0.

(** How a request changes what a call holds of a marker. *)
Lemma held_ends marker f x y r o :
  its marker f → may_mark (Some x) r → learn_marker (Some x) r o = Some y →
  match r with RExt _ => f y = use (f x) | _ => f y = f x ∨ (wins marker r o ∧ f x = Free ∧ f y = Won) end.
Proof.
  intros Hf Hm Hl. destruct r as [k|k v|k v|k e v| | | | | | | | | | | | | | |[]]; try (by simplify_eq/=; left); cbn in Hl.
  - left. destruct o as [[u|]|]; [destruct (_ && _); by simplify_eq|by simplify_eq..].
  - destruct o as [[]|]; [|by left; simplify_eq..]. destruct (String.eqb_spec k user) as [->|Hu].
    + case_decide; [|done]. simplify_eq. destruct Hf as [[-> ->]|[-> ->]]; [by right|by left].
    + destruct (String.eqb_spec k main) as [->|Hn]; [|by left; simplify_eq]. case_decide; [|done]. simplify_eq.
      destruct Hf as [[-> ->]|[-> ->]]; [by left|by right].
  - simplify_eq. by eapply its_use.
  - done.
Qed.

Lemma one_claim_ends (h : oracle_) marker f w0 w gs i x y r o w' :
  its marker f → gs !! i = Some (Some x) → may_mark (Some x) r → learn_marker (Some x) r o = Some y → ends h r w o w' →
  one_claim marker f w0 w gs → one_claim marker f w0 w' (<[i := Some y]> gs).
Proof.
  intros Hf Hi Hm Hl He Hone.
  assert (Hk : marker = user ∨ marker = main) by (destruct Hf as [[? _]|[? _]]; auto).
  pose proof (held_ends marker f x y r o Hf Hm Hl) as Hh. pose proof (marker_ends h marker x r w o w' Hk Hm He) as Hj.
  pose proof (count_if_insert (λ g, match g with Some x => bool_decide (f x ≠ Free) | None => false end) gs i (Some x) (Some y) Hi) as Ht.
  fold (taken f gs) in Ht. fold (taken f (<[i := Some y]> gs)) in Ht. unfold one_claim in *.
  assert (Hb : bool_decide (f y ≠ Free) = bool_decide (f x ≠ Free) ∨ (wins marker r o ∧ f x = Free ∧ f y = Won)).
  { destruct r; try (destruct Hh as [->|Hh]; [by left|by right]). left. rewrite Hh. by destruct (f x). }
  destruct Hb as [Hb|(Hw & Hx & Hy)].
  - cbn beta iota in Ht. rewrite Hb in Ht. assert (taken f (<[i := Some y]> gs) = taken f gs) as -> by lia. clear Ht.
    destruct Hj as [->|(v & Hv & ->)]; [done|]. split; [done|]. destruct (jkey marker w); [lia|].
    destruct Hone as [-> Hn]. rewrite decide_True by done. lia.
  - destruct (wins_ends h marker r w o w' He Hw) as [Hn [v Hv]]. rewrite Hn in Hj, Hone. rewrite Hv in Hj |- *. destruct Hone as [Hz Hw0].
    cbn beta iota in Ht. rewrite Hx, Hy, bool_decide_eq_false_2, bool_decide_eq_true_2 in Ht by (done || tauto). rewrite decide_True by done.
    destruct Hj as [|(u & Hu & ?)]; simplify_eq. split; [done|]. lia.
Qed.

(** An attempt whose claims are in order keeps reading markers that stand. *)
Lemma learn_some (h : oracle_) w0 w gs i x r o w' :
  gs !! i = Some (Some x) → ends h r w o w' → once w0 w gs → ∃ y, learn_marker (Some x) r o = Some y.
Proof.
  intros Hi He Hw.
  assert (Hfree : ∀ marker f, its marker f → wins marker r o → f x = Free).
  { intros marker f Hf Hr. assert (Hone : one_claim marker f w0 w gs) by (destruct Hf as [[-> ->]|[-> ->]]; apply Hw).
    destruct (wins_ends h marker r w o w' He Hr) as [Hn _]. unfold one_claim in Hone. rewrite Hn in Hone. destruct Hone as [Hz _].
    unfold taken in Hz. pose proof (proj1 (count_if_0 _ _) Hz _ (list_elem_of_lookup_2 _ _ _ Hi)) as Hx. by apply bool_decide_eq_false, dec_stable in Hx. }
  destruct r as [k|k v|k v|k e v| | | | | | | | | | | | | | |[]]; try (by exists x); cbn.
  - destruct o as [[v|]|]; [|by exists x..]. destruct ((_ || _) && _) eqn:Hb; [|by exists x]. exfalso.
    apply andb_true_iff in Hb as [Hk Hs]. apply negb_true_iff in Hs. destruct He as [[-> Ho]|[_ [e He]]]; [|done].
    cbn in Ho. apply orb_true_iff in Hk as [->%String.eqb_eq| ->%String.eqb_eq].
    + pose proof (on_user _ _ _ Hw) as Hone. unfold one_claim, jkey in Hone. injection Ho as Ho. rewrite <- Ho in Hone. destruct Hone; congruence.
    + pose proof (on_main _ _ _ Hw) as Hone. unfold one_claim, jkey in Hone. injection Ho as Ho. rewrite <- Ho in Hone. destruct Hone; congruence.
  - destruct o as [[]|]; [|by exists x..]. destruct (String.eqb_spec k user) as [->|Hu].
    + rewrite decide_True; [by eexists|]. apply (Hfree user); [by left|done].
    + destruct (String.eqb_spec k main) as [->|Hn]; [|by exists x]. rewrite decide_True; [by eexists|]. apply (Hfree main); [by right|done].
  - by eexists.
Qed.

Lemma used_insert f gs i x y :
  gs !! i = Some (Some x) → used f (<[i := Some y]> gs) + bit (bool_decide (f x = Used)) = used f gs + bit (bool_decide (f y = Used)).
Proof. intros Hi. exact (count_if_insert (λ g, match g with Some x => bool_decide (f x = Used) | None => false end) gs i (Some x) (Some y) Hi). Qed.

Lemma owed_copies c x :
  copies c (owed x) = bit (bool_decide (ho_user x = Won)) * copies c incoming + bit (bool_decide (ho_main x = Won)) * copies c produced.
Proof. unfold owed. rewrite copies_app, !bool_decide_decide. do 2 case_decide; cbn; lia. Qed.

Lemma use_bits hx : bit (bool_decide (use hx = Used)) = bit (bool_decide (hx = Used)) + bit (bool_decide (hx = Won)).
Proof. by destruct hx. Qed.

Lemma used_ends f marker gs i x y r o :
  its marker f → gs !! i = Some (Some x) → may_mark (Some x) r → learn_marker (Some x) r o = Some y →
  used f (<[i := Some y]> gs) = used f gs + match r with RExt _ => bit (bool_decide (f x = Won)) | _ => 0 end.
Proof.
  intros Hf Hi Hm Hl. pose proof (held_ends marker f x y r o Hf Hm Hl) as Hh. pose proof (used_insert f gs i x y Hi) as Hu.
  destruct r; try (destruct Hh as [Hh|(_ & Hx & Hy)]; [rewrite Hh in Hu; lia|rewrite Hx, Hy, !bool_decide_eq_false_2 in Hu by done; lia]).
  rewrite Hh, use_bits in Hu. lia.
Qed.

Lemma stored_ends (h : oracle_) w x r o w' c :
  may_mark (Some x) r → ends h r w o w' → stored c w' ≤ stored c w + match r with RExt _ => copies c (owed x) | _ => 0 end.
Proof.
  intros Hm He. assert (Hp : stored c (snd (perform h r w)) ≤ stored c w + match r with RExt _ => copies c (owed x) | _ => 0 end).
  { destruct r as [| | | | | | | | | | | | | | | | | |[]]; try (by cbn in Hm); try (rewrite Nat.add_0_r; apply Nat.le_refl).
    cbn in Hm. subst. unfold stored. cbn -[copies]. rewrite copies_app. lia. }
  destruct He as [[-> _]|[[->| ->] _]]; [done|lia|done].
Qed.

Lemma once_ends (h : oracle_) w0 w gs i g r o w' :
  gs !! i = Some g → may_mark g r → ends h r w o w' → once w0 w gs → once w0 w' (<[i := learn_marker g r o]> gs).
Proof.
  intros Hi Hm He Hw. destruct (on_some _ _ _ Hw g) as [x ->]; [by eapply list_elem_of_lookup_2|].
  destruct (learn_some h w0 w gs i x r o w' Hi He Hw) as [y Hy]. rewrite Hy. destruct Hw as [Hs Hu Hn Hc]. split.
  - intros g' Hg. apply list_elem_of_lookup_1 in Hg as [j Hg]. apply list_lookup_insert_Some in Hg as [(_ & <- & _)|[_ Hg]]; [by eexists|]. eapply Hs, list_elem_of_lookup_2, Hg.
  - eapply one_claim_ends; [by left|done..].
  - eapply one_claim_ends; [by right|done..].
  - intros c. rewrite (used_ends ho_user user gs i x y r o), (used_ends ho_main main gs i x y r o) by (done || by (left + right)).
    pose proof (stored_ends h w x r o w' c Hm He) as Hst. specialize (Hc c). pose proof (owed_copies c x). destruct r; lia.
Qed.
Lemma one_claim_used marker f w0 w gs :
  one_claim marker f w0 w gs → used f gs ≤ if decide (jkey marker w0 = None) then 1 else 0.
Proof.
  intros Hone. pose proof (used_taken f gs). unfold one_claim in Hone. destruct (jkey marker w).
  - destruct Hone as [_ Hone]. case_decide; lia.
  - lia.
Qed.

Lemma once_start w n :
  (∀ v, jkey user w = Some v → standing v = true) → (∀ v, jkey main w = Some v → standing v = true) →
  once w w (replicate n (Some (Holds Free Free))).
Proof.
  intros Hu Hm. assert (Hz : ∀ f, its user f ∨ its main f → taken f (replicate n (Some (Holds Free Free))) = 0).
  { intros f Hf. apply count_if_0. intros g Hg. apply elem_of_replicate in Hg as [-> _].
    apply bool_decide_eq_false. intros Hn. apply Hn. by destruct Hf as [[[_ ->]|[_ ->]]|[[_ ->]|[_ ->]]]. }
  split.
  - intros g Hg. apply elem_of_replicate in Hg as [-> _]. by eexists.
  - unfold one_claim. rewrite Hz by (left; by left). destruct (jkey user w) eqn:Hk; [|done]. split; [by apply Hu|]. case_decide; lia.
  - unfold one_claim. rewrite Hz by (right; by right). destruct (jkey main w) eqn:Hk; [|done]. split; [by apply Hm|]. case_decide; lia.
  - intros c. lia.
Qed.

(** C11: A turn is written into its conversation at most once.  Of any number of attempts of a run
    on a memory without batches of its own (concurrent retries, resumes), interleaved in any way,
    with requests that fail before or after they land, all within the time a claim is given: what the
    conversation gains of any message is at most the question once and the answer once, and the half
    whose marker was there at the start (done, or claimed within that time) is not written at all. *)
Theorem turns_store_once (attempts : list (bool * bool)) w ps' w' c :
  (∀ v, jkey user w = Some v → standing v = true) → (∀ v, jkey main w = Some v → standing v = true) →
  reachable_in in_window
    (map (λ a, memory_turn full_caps false contentWindow contentHash type_error runId threadId incoming (fst a) (snd a) produced) attempts, w) (ps', w') →
  stored c w' ≤ stored c w + (if decide (jkey user w = None) then copies c incoming else 0)
                           + (if decide (jkey main w = None) then copies c produced else 0).
Proof.
  intros Hu Hm Hr.
  destruct (pool_ends_in may_mark learn_marker (once w)) with (P := in_window) (post := λ (_ : option holds) (_ : outcome E unit), True)
    (c := (map (λ a : bool * bool, memory_turn (V := V) full_caps false contentWindow contentHash type_error runId threadId incoming (fst a) (snd a) produced) attempts, w))
    (c' := (ps', w')) (gs := replicate (length attempts) (Some (Holds Free Free))) as (gs & Hw & _); [| |exact Hr|by apply once_start| |].
  - intros w1 gs x y Hx [? ? ? Hc]. by split.
  - intros h w1 gs j g r o w2 Hg Hal _ He Hw1. by eapply once_ends.
  - cbn. clear Hr. induction attempts as [|a attempts IH]; [constructor|]. constructor; [apply turn_safe|exact IH].
  - destruct Hw as [_ Hou Hom Hc]. apply one_claim_used in Hou, Hom. specialize (Hc c).
    apply (Nat.mul_le_mono_r _ _ (copies c incoming)) in Hou. apply (Nat.mul_le_mono_r _ _ (copies c produced)) in Hom.
    cbn [snd] in Hc. revert Hou Hom. do 2 case_decide; lia.
Qed.
End Window.

(** ** A turn alone *)

Section Turn.
Context {V : Type} `{!JsValue V, !Embed js V, !Embed run_taint V, !Embed taint_provenance V} {E : Type}.
Variable h : oracle mem_query bool E.
Hypothesis memory_answers : ∀ tr q, ∃ b, h tr q = Ok b.
Variable contentWindow : bool.
Variable contentHash : js → string.
Variable type_error : E.
Variable runId threadId : string.
Variable incoming produced : list js.
Abbreviation world_ := (world V mem_query).
Abbreviation user := (rk_memUserAppended runId).
Abbreviation main := (rk_memAppended runId).
Abbreviation prov := (threadTaintProvenanceKey threadId).
Implicit Types w : world_.

(** Is a marker to be had: none, or a claim that has run out. *)
Definition takes (now : Z) (cur : option V) : bool :=
  match cur with None => true | Some v => negb (bool_decide (row_of v = JBool true)) && negb (is_fresh now (row_of v)) end.

(** What is in the conversation, in order. *)
Definition conversation w : list js := concat (map appended (rev (trace w))).

(** [w'] is [w] with other markers, more in the conversation, and the hashes of the thread. *)
Record left (ku km : option V) (add : list js) w w' : Prop := Left {
  lf_user : jkey user w' = ku;
  lf_main : jkey main w' = km;
  lf_others : ∀ k, k ≠ user → k ≠ main → k ≠ prov → jkey k w' = jkey k w;
  lf_conversation : conversation w' = conversation w ++ add;
  lf_wall : wall w' = wall w;
}.

Lemma left_trans ku km ku' km' add add' w w1 w2 : left ku km add w w1 → left ku' km' add' w1 w2 → left ku' km' (add ++ add') w w2.
Proof.
  intros [? ? Ho Hc ?] [? ? Ho' Hc' ?]. split; try congruence.
  - intros k ? ? ?. by rewrite Ho', Ho.
  - by rewrite Hc', Hc, app_assoc.
Qed.

Lemma left_same w : left (jkey user w) (jkey main w) [] w w.
Proof. split; [done..|by rewrite app_nil_r|done]. Qed.

Lemma left_user v w w' : wrote user v w w' → left v (jkey main w) [] w w'.
Proof.
  intros [Hk Ho Ht _ ?]. split; [done|by apply Ho|by intros k ? _ _; apply Ho| |done]. unfold conversation. by rewrite Ht, app_nil_r.
Qed.

Lemma left_main v w w' : wrote main v w w' → left (jkey user w) v [] w w'.
Proof.
  intros [Hk Ho Ht _ ?]. split; [by apply Ho|done|by intros k _ ? _; apply Ho| |done]. unfold conversation. by rewrite Ht, app_nil_r.
Qed.

Lemma run_get_key k w : run h (jget k) w = (Ok (jkey k w), w).
Proof. done. Qed.

Lemma run_claimMemory marker w :
  (∀ v, jkey marker w = Some v → row_of v ≠ JNull) →
  ∃ w', run h (claimMemoryAppend full_caps type_error marker) w =
          (Ok (if takes (wall w) (jkey marker w) then Some (mem_pending (wall w)) else None), w') ∧
    wrote marker (if takes (wall w) (jkey marker w) then Some (inj (mem_pending (wall w))) else jkey marker w) w w'.
Proof.
  intros Hnull. unfold claimMemoryAppend. run_step.
  destruct (run_claim_alone h marker (inj (mem_pending (wall w))) w) as (w1 & H1 & W1). run_step. rewrite H1. clear H1.
  destruct (jkey marker w) as [v|] eqn:Hv; cbn [takes default] in *.
  2: { rewrite bool_decide_eq_true_2 by done. exists w1. by split. }
  change (id v) with v in W1. rewrite bool_decide_eq_false_2 by done. pose proof (wr_key _ _ _ _ W1) as Hk. run_step. rewrite run_get_key, Hk.
  case_bool_decide as Hd; cbn [negb andb]; [by exists w1|]. rewrite bool_decide_eq_false_2 by by apply Hnull.
  run_step. rewrite (wr_wall _ _ _ _ W1). destruct (is_fresh (wall w) (row_of v)); cbn [negb]; [by exists w1|].
  run_step. rewrite (wr_wall _ _ _ _ W1). cbn [has_putIfMatch full_caps].
  destruct (run_jputIfMatch h marker v (inj (mem_pending (wall w))) w1) as (w2 & H2 & W2). run_step. rewrite H2. rewrite Hk, bool_decide_eq_true_2 in * by done.
  exists w2. split; [done|]. by eapply wrote_trans.
Qed.

Lemma run_mark marker p w :
  jkey marker w = Some (inj p) →
  ∃ w', run h (markMemoryAppendDone full_caps marker p) w = (Ok tt, w') ∧ wrote marker (Some (inj (JBool true))) w w'.
Proof.
  intros Hk. destruct (run_jputIfMatch h marker (inj p) (inj (JBool true)) w) as (w1 & H1 & W1). exists w1.
  unfold markMemoryAppendDone. cbn [has_putIfMatch full_caps]. run_step. rewrite H1. rewrite bool_decide_eq_true_2 in W1 by done. by split.
Qed.

Lemma run_append messages w :
  ∃ w', run h (append threadId messages) w = (Ok tt, w') ∧ left (jkey user w) (jkey main w) messages w w'.
Proof using memory_answers.
  destruct (memory_answers (trace w) (QAppend threadId messages)) as [b Hb]. eexists. split.
  { unfold append. run_step. rewrite run_request. cbn [perform]. by rewrite Hb. }
  split; [done..| |done]. unfold conversation. cbn [trace rev]. rewrite map_app, concat_app. cbn. by rewrite app_nil_r.
Qed.

(** Stamping writes the hashes of the thread, if anything. *)
Lemma run_stamp_writes messages w :
  ∃ w', run h (recordAppendedTaintProvenance full_caps contentWindow contentHash runId threadId messages) w = (Ok tt, w') ∧
    (w' = w ∨ ∃ v, wrote prov v w w').
Proof.
  unfold recordAppendedTaintProvenance. destruct contentWindow; [|by exists w; split; [|left]].
  unfold readDirectRunTaint, read_taint. run_step. run_step. cbn [run].
  rewrite run_get_key. cbn [mret prog_ret run]. destruct (option_bind V run_taint prj _) as [t|]; [|by exists w; split; [|left]].
  unfold recordTaintProvenance. destruct (map contentHash messages) as [|c cs]; [by exists w; split; [|left]|].
  cbn [record_attempts]. run_step. run_step. rewrite run_try. unfold record_attempt. run_step. rewrite run_get_key. cbn [has_putIfMatch has_putIfAbsent full_caps].
  destruct (jkey prov w) as [v|] eqn:Hv.
  - destruct (run_jputIfMatch h prov v (inj (next_provenance (Some v) (c :: cs))) w) as (w1 & H1 & W1). rewrite H1, Hv, bool_decide_eq_true_2 by done.
    exists w1. split; [done|]. right. by eexists.
  - destruct (run_jputIfAbsent h prov (inj (next_provenance None (c :: cs))) w) as (w1 & H1 & W1). rewrite H1, Hv, bool_decide_eq_true_2 by done.
    exists w1. split; [done|]. right. by eexists.
Qed.

Lemma run_stamp messages w :
  ∃ w', run h (recordAppendedTaintProvenance full_caps contentWindow contentHash runId threadId messages) w = (Ok tt, w') ∧
    left (jkey user w) (jkey main w) [] w w'.
Proof.
  destruct (run_stamp_writes messages w) as (w' & Hrun & [->|[v [Hk Ho Ht _ ?]]]); eexists; (split; [exact Hrun|]); [apply left_same|].
  split; [by apply Ho..|by intros k _ _ ?; apply Ho| |done]. unfold conversation. by rewrite Ht, app_nil_r.
Qed.
Definition readable (cur : option V) : Prop := ∀ v, cur = Some v → row_of v ≠ JNull.

Definition done_marker : option V := Some (inj (JBool true)).
Definition claim_marker w : option V := Some (inj (mem_pending (wall w))).

Lemma run_claim_user w :
  readable (jkey user w) →
  ∃ w', run h (claimMemoryAppend full_caps type_error user) w = (Ok (if takes (wall w) (jkey user w) then Some (mem_pending (wall w)) else None), w') ∧
    left (if takes (wall w) (jkey user w) then claim_marker w else jkey user w) (jkey main w) [] w w'.
Proof. intros Hr. destruct (run_claimMemory user w Hr) as (w' & Hrun & Hw). exists w'. split; [done|]. by apply left_user. Qed.

Lemma run_claim_main w :
  readable (jkey main w) →
  ∃ w', run h (claimMemoryAppend full_caps type_error main) w = (Ok (if takes (wall w) (jkey main w) then Some (mem_pending (wall w)) else None), w') ∧
    left (jkey user w) (if takes (wall w) (jkey main w) then claim_marker w else jkey main w) [] w w'.
Proof. intros Hr. destruct (run_claimMemory main w Hr) as (w' & Hrun & Hw). exists w'. split; [done|]. by apply left_main. Qed.

Lemma run_mark_user p w :
  jkey user w = Some (inj p) → ∃ w', run h (markMemoryAppendDone full_caps user p) w = (Ok tt, w') ∧ left done_marker (jkey main w) [] w w'.
Proof. intros Hk. destruct (run_mark user p w Hk) as (w' & Hrun & Hw). exists w'. split; [done|]. by apply left_user. Qed.

Lemma run_mark_main p w :
  jkey main w = Some (inj p) → ∃ w', run h (markMemoryAppendDone full_caps main p) w = (Ok tt, w') ∧ left (jkey user w) done_marker [] w w'.
Proof. intros Hk. destruct (run_mark main p w Hk) as (w' & Hrun & Hw). exists w'. split; [done|]. by apply left_main. Qed.

Lemma takes_done now : takes now done_marker = false.
Proof. unfold takes, done_marker, row_of. rewrite prj_inj. cbn [default]. by rewrite bool_decide_eq_true_2. Qed.

(** Does the write-ahead store the question. *)
Definition ahead (early : bool) w : bool := negb early && negb (bool_decide (incoming = [])) && takes (wall w) (jkey user w).

Lemma run_write_ahead early w :
  readable (jkey user w) →
  ∃ w', run h (writeAheadIncoming full_caps false contentWindow contentHash type_error runId threadId incoming early) w = (Ok tt, w') ∧
    left (if ahead early w then done_marker else jkey user w) (jkey main w) (if ahead early w then incoming else []) w w'.
Proof using memory_answers.
  intros Hr. unfold writeAheadIncoming, ahead. destruct early; cbn [orb negb andb]; [exists w; split; [done|apply left_same]|].
  case_bool_decide as Hne; cbn [negb andb]; [exists w; split; [done|apply left_same]|].
  run_step. unfold appendBatchOnce. destruct incoming as [|m ms]; [done|]. run_step.
  destruct (run_claim_user w Hr) as (w1 & H1 & L1). rewrite H1. clear H1. destruct (takes _ _); [|by exists w1].
  run_step. destruct (run_append (m :: ms) w1) as (w2 & H2 & L2). rewrite H2. rewrite (lf_user _ _ _ _ _ L1), (lf_main _ _ _ _ _ L1) in L2.
  run_step. destruct (run_mark_user (mem_pending (wall w)) w2) as (w3 & H3 & L3); [apply L2|]. rewrite H3.
  destruct (run_stamp (m :: ms) w3) as (w4 & H4 & L4). exists w4. split; [exact H4|].
  pose proof (left_trans _ _ _ _ _ _ _ _ _ (left_trans _ _ _ _ _ _ _ _ _ (left_trans _ _ _ _ _ _ _ _ _ L1 L2) L3) L4) as L.
  cbn [app] in L. rewrite !app_nil_r in L. by rewrite (lf_user _ _ _ _ _ L3), (lf_main _ _ _ _ _ L3), (lf_main _ _ _ _ _ L2) in L.
Qed.
(** Does the question ride along with the answer. *)
Definition along (late : bool) w : bool := negb late && negb (bool_decide (incoming = [])) && takes (wall w) (jkey user w).

Lemma run_question late w :
  readable (jkey user w) →
  ∃ w', run h (if negb late && negb (bool_decide (incoming = [])) then claimMemoryAppend full_caps type_error user else mret None) w =
          (Ok (if along late w then Some (mem_pending (wall w)) else None), w') ∧
    left (if along late w then claim_marker w else jkey user w) (jkey main w) [] w w'.
Proof.
  intros Hr. unfold along. destruct (negb late && _); cbn [andb]; [by apply run_claim_user|]. exists w. split; [done|apply left_same].
Qed.

Lemma run_answered (b : bool) u w :
  (if b then jkey user w = Some (inj u) else True) →
  ∃ w', run h (match (if b then Some u else None) with Some u => markMemoryAppendDone full_caps user u | None => mret tt end) w = (Ok tt, w') ∧
    left (if b then done_marker else jkey user w) (jkey main w) [] w w'.
Proof. destruct b; [by apply run_mark_user|]. intros _. exists w. split; [done|apply left_same]. Qed.

Lemma run_completion late w :
  readable (jkey user w) → readable (jkey main w) →
  ∃ w', run h (appendCompletion full_caps false contentWindow contentHash type_error runId threadId incoming late produced) w = (Ok tt, w') ∧
    left (if takes (wall w) (jkey main w) && along late w then done_marker else jkey user w)
         (if takes (wall w) (jkey main w) then done_marker else jkey main w)
         (if takes (wall w) (jkey main w) then (if along late w then incoming else []) ++ produced else []) w w'.
Proof using memory_answers.
  intros Hu Hm. unfold appendCompletion. run_step. destruct (run_claim_main w Hm) as (w1 & H1 & L1). rewrite H1. clear H1.
  destruct (takes (wall w) (jkey main w)); cbn [andb]; [|by exists w1].
  pose proof (lf_user _ _ _ _ _ L1) as U1. pose proof (lf_wall _ _ _ _ _ L1) as T1.
  assert (Ha : along late w1 = along late w) by (unfold along; by rewrite U1, T1).
  run_step. destruct (run_question late w1) as (w2 & H2 & L2); [by rewrite U1|]. rewrite H2. clear H2. rewrite Ha in *.
  rewrite U1, (lf_main _ _ _ _ _ L1) in L2. unfold claim_marker in L2. rewrite T1 in *.
  set (add := match (if along late w then Some (mem_pending (wall w)) else None) with Some _ => incoming ++ produced | None => produced end).
  assert (Hadd : add = (if along late w then incoming else []) ++ produced) by (unfold add; by destruct (along late w)).
  run_step. destruct (run_append add w2) as (w3 & H3 & L3). rewrite H3. clear H3. rewrite (lf_user _ _ _ _ _ L2), (lf_main _ _ _ _ _ L2) in L3.
  run_step. destruct (run_stamp add w3) as (w4 & H4 & L4). rewrite H4. clear H4. rewrite (lf_user _ _ _ _ _ L3), (lf_main _ _ _ _ _ L3) in L4.
  run_step. destruct (run_answered (along late w) (mem_pending (wall w)) w4) as (w5 & H5 & L5).
  { rewrite (lf_user _ _ _ _ _ L4). by destruct (along late w). }
  rewrite H5. clear H5. rewrite (lf_user _ _ _ _ _ L4), (lf_main _ _ _ _ _ L4) in L5.
  destruct (run_mark_main (mem_pending (wall w)) w5) as (w6 & H6 & L6); [apply L5|]. exists w6. split; [exact H6|].
  pose proof (left_trans _ _ _ _ _ _ _ _ _ (left_trans _ _ _ _ _ _ _ _ _ L1 L2) (left_trans _ _ _ _ _ _ _ _ _ L3 (left_trans _ _ _ _ _ _ _ _ _ L4 (left_trans _ _ _ _ _ _ _ _ _ L5 L6)))) as L.
  cbn [app] in L. rewrite app_nil_r, Hadd, (lf_user _ _ _ _ _ L5) in L. by destruct (along late w).
Qed.

Lemma claimed_turn early late w :
  readable (jkey user w) → readable (jkey main w) →
  let answers := takes (wall w) (jkey main w) in
  let asks := negb (bool_decide (incoming = [])) && takes (wall w) (jkey user w) && (negb early || (negb late && answers)) in
  ∃ w', run h (memory_turn full_caps false contentWindow contentHash type_error runId threadId incoming early late produced) w = (Ok tt, w') ∧
    left (if asks then done_marker else jkey user w) (if answers then done_marker else jkey main w)
         ((if asks then incoming else []) ++ (if answers then produced else [])) w w'.
Proof using memory_answers.
  intros Hu Hm answers asks. unfold memory_turn. run_step. destruct (run_write_ahead early w Hu) as (w1 & H1 & L1). rewrite H1. clear H1.
  pose proof (lf_user _ _ _ _ _ L1) as U1. pose proof (lf_main _ _ _ _ _ L1) as M1. pose proof (lf_wall _ _ _ _ _ L1) as T1.
  destruct (run_completion late w1) as (w2 & H2 & L2).
  { rewrite U1. destruct (ahead early w); [|done]. intros v [= <-]. unfold row_of. by rewrite prj_inj. }
  { by rewrite M1. }
  exists w2. split; [exact H2|]. pose proof (left_trans _ _ _ _ _ _ _ _ _ L1 L2) as L. unfold along in L. rewrite U1, M1, T1 in L.
  subst answers asks. unfold ahead in L. destruct (bool_decide (incoming = [])) eqn:Hne; [apply bool_decide_eq_true in Hne; rewrite Hne in *|];
    cbn [negb andb] in *; rewrite ?andb_false_r in *; cbn [andb] in *.
  - rewrite ?andb_false_r in L. by destruct (takes (wall w) (jkey main w)).
  - rewrite ?andb_true_r in L. destruct early, (takes (wall w) (jkey user w)) eqn:Hk; cbn [negb andb orb] in *;
      rewrite ?Hk, ?takes_done, ?andb_false_r, ?andb_true_r in *; cbn [andb app] in *;
      destruct late, (takes (wall w) (jkey main w)); cbn in *; by rewrite ?app_nil_r in *.
Qed.

(** *** On a memory with batches of its own *)

(** What was asked of the memory, and nothing of the journal but the hashes of the thread. *)
Record asked (qs : list mem_query) w w' : Prop := Asked {
  as_trace : trace w' = rev qs ++ trace w;
  as_others : ∀ k, k ≠ prov → jkey k w' = jkey k w;
}.

Lemma asked_trans qs qs' w w1 w2 : asked qs w w1 → asked qs' w1 w2 → asked (qs ++ qs') w w2.
Proof. intros [Ht Ho] [Ht' Ho']. split; [by rewrite Ht', Ht, rev_app_distr, app_assoc|]. intros k Hk. by rewrite Ho', Ho. Qed.

Lemma asked_nothing w : asked [] w w.
Proof. by split. Qed.

Lemma run_stamp_asked messages w :
  ∃ w', run h (recordAppendedTaintProvenance full_caps contentWindow contentHash runId threadId messages) w = (Ok tt, w') ∧ asked [] w w'.
Proof.
  destruct (run_stamp_writes messages w) as (w' & Hrun & [->|[v [Hk Ho Ht _ _]]]); eexists; (split; [exact Hrun|]); [apply asked_nothing|].
  split; [done|]. intros k Hk'. by apply Ho.
Qed.

(** A batch is asked for unless it is empty or its marker says that it was stored before there were batches. *)
Definition batch_due (marker : string) (messages : list js) w : bool :=
  negb (bool_decide (messages = [])) && negb (bool_decide (row_of <$> jkey marker w = Some (JBool true))).
Definition batch_asks (marker : string) (messages : list js) w : list mem_query :=
  if batch_due marker messages w then [QAppendOnce threadId messages marker] else [].

Lemma run_batch marker messages w :
  ∃ w', run h (w ← appendBatchOnce full_caps true type_error threadId marker messages;
               if w : bool then recordAppendedTaintProvenance full_caps contentWindow contentHash runId threadId messages else mret tt) w = (Ok tt, w') ∧
    asked (batch_asks marker messages w) w w'.
Proof using memory_answers.
  unfold batch_asks, batch_due, appendBatchOnce. run_step. destruct messages as [|m ms]; [exists w; split; [done|apply asked_nothing]|].
  rewrite (bool_decide_eq_false_2 (m :: ms = [])) by done. cbn [negb andb]. run_step. rewrite run_get_key.
  case_bool_decide; cbn [negb]; [exists w; split; [done|apply asked_nothing]|].
  destruct (memory_answers (trace w) (QAppendOnce threadId (m :: ms) marker)) as [b Hb].
  set (w1 := World (jr w) (clock w) (wall w) (QAppendOnce threadId (m :: ms) marker :: trace w) (work w)).
  assert (Hq : run (A := bool) h (request (RExt (QAppendOnce threadId (m :: ms) marker))) w = (Ok b, w1)).
  { etransitivity; [apply (run_request h (RExt (QAppendOnce threadId (m :: ms) marker)) w)|]. cbn [perform]. by rewrite Hb. }
  rewrite Hq. assert (H1 : asked [QAppendOnce threadId (m :: ms) marker] w w1) by done.
  destruct b; [|by exists w1]. destruct (run_stamp_asked (m :: ms) w1) as (w2 & H2 & A2). exists w2. split; [exact H2|].
  exact (asked_trans _ _ _ _ _ H1 A2).
Qed.

Lemma batch_asks_same marker messages qs w w1 :
  marker = user ∨ marker = main → asked qs w w1 → batch_asks marker messages w1 = batch_asks marker messages w.
Proof. intros Hm [_ Ho]. unfold batch_asks, batch_due. by rewrite Ho by (by destruct Hm as [->| ->]). Qed.

(** The question, unless it is known to be stored. *)
Definition question_asks (known : bool) w : list mem_query := if known then [] else batch_asks user incoming w.

Lemma batched_turn early late w :
  ∃ w', run h (memory_turn full_caps true contentWindow contentHash type_error runId threadId incoming early late produced) w = (Ok tt, w') ∧
    asked (question_asks early w ++ question_asks late w ++ batch_asks main produced w) w w'.
Proof using memory_answers.
  assert (Hempty : ∀ w0, bool_decide (incoming = []) = true → batch_asks user incoming w0 = []).
  { intros w0 He. unfold batch_asks, batch_due. by rewrite He. }
  unfold memory_turn. run_step.
  assert (H1 : ∃ w1, run h (writeAheadIncoming full_caps true contentWindow contentHash type_error runId threadId incoming early) w = (Ok tt, w1) ∧
    asked (question_asks early w) w w1).
  { unfold writeAheadIncoming, question_asks. destruct early; [exists w; split; [done|apply asked_nothing]|]. cbn [orb].
    destruct (bool_decide (incoming = [])) eqn:He; [|apply run_batch]. rewrite Hempty by done. exists w. split; [done|apply asked_nothing]. }
  destruct H1 as (w1 & -> & A1). unfold appendCompletion. run_step.
  assert (H2 : ∃ w2, run h (if negb late && negb (bool_decide (incoming = [])) then
      (w ← appendBatchOnce full_caps true type_error threadId user incoming;
       if w : bool then recordAppendedTaintProvenance full_caps contentWindow contentHash runId threadId incoming else mret tt) else mret tt) w1 = (Ok tt, w2) ∧
    asked (question_asks late w) w1 w2).
  { unfold question_asks. rewrite <- (batch_asks_same user incoming _ w w1 (or_introl eq_refl) A1).
    destruct late; cbn [negb andb]; [exists w1; split; [done|apply asked_nothing]|].
    destruct (bool_decide (incoming = [])) eqn:He; cbn [negb]; [|apply run_batch]. rewrite Hempty by done. exists w1. split; [done|apply asked_nothing]. }
  destruct H2 as (w2 & H2 & A2). unfold mbind, prog_bind in H2. rewrite H2.
  pose proof (asked_trans _ _ _ _ _ A1 A2) as A12.
  destruct (run_batch main produced w2) as (w3 & H3 & A3). exists w3. split; [exact H3|].
  rewrite (batch_asks_same main produced _ w w2 (or_intror eq_refl) A12) in A3.
  rewrite app_assoc. exact (asked_trans _ _ _ _ _ A12 A3).
Qed.

(** C17: What a turn leaves, on every branch.  A turn that runs alone, on a memory that answers.  On a
    memory without batches of its own, the answer is stored when its marker is to be had (none, or a claim
    that has run out), the question when its own is and either moment finds it missing, together with
    the answer at the second; what is stored is marked done, and what is not keeps its marker.  On a memory with
    batches of its own no marker is claimed or changed: the memory is asked to store the question at each
    moment that finds it missing, and then the answer, each under the name of its marker, unless there is
    nothing to store or that marker is done.  Nothing else of the journal but the hashes of the thread is touched. *)
Theorem memory_turn_exact (appendOnce early late : bool) w :
  readable (jkey user w) → readable (jkey main w) →
  let answers := takes (wall w) (jkey main w) in
  let asks := negb (bool_decide (incoming = [])) && takes (wall w) (jkey user w) && (negb early || (negb late && answers)) in
  ∃ w', run h (memory_turn full_caps appendOnce contentWindow contentHash type_error runId threadId incoming early late produced) w = (Ok tt, w') ∧
    if appendOnce then asked (question_asks early w ++ question_asks late w ++ batch_asks main produced w) w w'
    else left (if asks then done_marker else jkey user w) (if answers then done_marker else jkey main w)
           ((if asks then incoming else []) ++ (if answers then produced else [])) w w'.
Proof using memory_answers.
  intros Hu Hm answers asks. destruct appendOnce; [apply batched_turn|]. by apply claimed_turn.
Qed.
End Turn.

(** ** A memory with batches of its own *)

Section Batches.
Context {V : Type} `{!JsValue V, !Embed js V, !Embed run_taint V, !Embed taint_provenance V} {E : Type}.
Variable contentWindow : bool.
Variable contentHash : js → string.
Variable type_error : E.
Variable runId threadId : string.
Variable incoming produced : list js.

(** Each half goes by the name of its marker, and no claim is made. *)
Definition batched (r : req V mem_query) : Prop :=
  match r with
  | RExt (QAppend _ _) => False
  | RExt (QAppendOnce th ms batch) =>
      th = threadId ∧ ((batch = rk_memUserAppended runId ∧ ms = incoming) ∨ (batch = rk_memAppended runId ∧ ms = produced)) ∧ ms ≠ []
  | RPut k _ | RPutIfAbsent k _ | RPutIfMatch k _ _ => k = threadTaintProvenanceKey threadId
  | _ => True
  end.

Lemma stamp_batched messages :
  only batched (recordAppendedTaintProvenance (E := E) full_caps contentWindow contentHash runId threadId messages).
Proof.
  unfold recordAppendedTaintProvenance. destruct contentWindow; [|done].
  apply only_bind. { split; [done|]. by intros [x|e]. }
  intros [t|]; [|done]. apply only_bind; [|done]. unfold recordTaintProvenance. destruct (map contentHash messages) as [|c cs]; [done|].
  generalize 3. intros n. induction n as [|n IH]; [done|]. cbn [record_attempts].
  apply only_bind; [|by intros []]. apply only_try; [|done]. split; [done|]. intros [[v|]|e]; [| |done]; (split; [done|by intros [?|?]]).
Qed.

Lemma batch_batched marker messages :
  (marker = rk_memUserAppended runId ∧ messages = incoming) ∨ (marker = rk_memAppended runId ∧ messages = produced) →
  only batched (appendBatchOnce (E := E) full_caps true type_error threadId marker messages).
Proof.
  intros Hm. unfold appendBatchOnce. destruct messages as [|m ms]; [done|]. split; [done|]. intros [v|e]; [|done].
  cbn -[batched]. case_bool_decide; [done|]. split; [by split_and!|]. by intros [b|e].
Qed.

Lemma turn_batched early late :
  only batched (memory_turn (E := E) full_caps true contentWindow contentHash type_error runId threadId incoming early late produced).
Proof.
  assert (Hq : only batched (w ← appendBatchOnce (E := E) full_caps true type_error threadId (rk_memUserAppended runId) incoming;
      if w : bool then recordAppendedTaintProvenance full_caps contentWindow contentHash runId threadId incoming else mret tt)).
  { apply only_bind; [by apply batch_batched; left|]. intros []; [apply stamp_batched|done]. }
  unfold memory_turn. apply only_bind; [unfold writeAheadIncoming; destruct (early || _); [done|exact Hq]|]. intros [].
  unfold appendCompletion. apply only_bind; [destruct (negb late && _); [exact Hq|done]|]. intros [].
  apply only_bind; [by apply batch_batched; right|]. intros []; [apply stamp_batched|done].
Qed.
End Batches.

(** ** Examples *)

Section MemoryExamples.
Let h0 : oracle mem_query bool unit := λ _ _, Ok true.
Let question : js := JStr "q".
Let answer : js := JStr "a".
Let turn : prog entry mem_query bool unit unit :=
  memory_turn full_caps false true (λ _, "h") tt "r" "t" [question] false false [answer].
Let w0 : world entry mem_query := World empty_journal 5 5 [] empty_work.
Let both := schedule h0 (concat (replicate 20 [0; 1])) ([turn; turn], w0).

Lemma turns_store_once_witness : stored question (snd both) ≤ 1 ∧ stored answer (snd both) ≤ 1.
Proof.
  assert (Hr : reachable_in (in_window 0) ([turn; turn], w0) (fst both, snd both)).
  { rewrite <- surjective_pairing. apply answered_reachable_in. vm_compute. repeat split; intros [=]. }
  split.
  - exact (turns_store_once true (λ _, "h") tt "r" "t" 0 [question] [answer] [(false, false); (false, false)] w0 _ _ question
      (λ v Hv, ltac:(discriminate Hv)) (λ v Hv, ltac:(discriminate Hv)) Hr).
  - exact (turns_store_once true (λ _, "h") tt "r" "t" 0 [question] [answer] [(false, false); (false, false)] w0 _ _ answer
      (λ v Hv, ltac:(discriminate Hv)) (λ v Hv, ltac:(discriminate Hv)) Hr).
Defined.

Example both_stored : map (λ c, stored c (snd both)) [question; answer] = [1; 1].
Proof. vm_compute. reflexivity. Qed.

Lemma memory_turn_exact_witness :
  ∃ w', run h0 turn w0 = (Ok tt, w') ∧ conversation w' = [question; answer].
Proof.
  destruct (memory_turn_exact h0 (λ _ _, ex_intro _ true eq_refl) true (λ _, "h") tt "r" "t" [question] [answer] false false false w0) as (w' & Hrun & Hl).
  - intros v Hv. discriminate Hv.
  - intros v Hv. discriminate Hv.
  - exists w'. split; [exact Hrun|]. rewrite (lf_conversation _ _ _ _ _ _ _ Hl). vm_compute. reflexivity.
Defined.

(** With batches: the question is asked for at both moments, under one name. *)
Example batches_asked :
  trace (snd (run h0 (memory_turn full_caps true true (λ _, "h") tt "r" "t" [question] false false [answer]) w0)) =
    rev [QAppendOnce "t" [question] (rk_memUserAppended "r"); QAppendOnce "t" [question] (rk_memUserAppended "r");
         QAppendOnce "t" [answer] (rk_memAppended "r")].
Proof. vm_compute. reflexivity. Qed.

(** An attempt dies after its answer is stored and before its marker is done; the time of its claim
    passes, and the next attempt stores the answer again. *)
Let dead := snd (schedule h0 (replicate 12 0) ([turn], w0)).
Example stored_twice :
  conversation dead = [question; answer] ∧
  conversation (snd (run h0 turn (World (jr dead) (60005) (60005) (trace dead) (work dead)))) = [question; answer; answer].
Proof. vm_compute. by split. Qed.
End MemoryExamples.
