(* ===== verification/Workflow.v ===== *)
(** * Workflow: durable deterministic workflows

    Models [packages/workflow/src/workflow.ts]: steps and their records, the claim protocol of
    side-effecting steps, the combinators of [Workflow], [run] and [runResumable], suspension,
    cancellation, the status registry, [forkWorkflowRun], [retry] and [asStep].

    The journal holds JavaScript values; a key that holds [undefined] reads as one that is absent
    ([wget]).  What a step, a recovery or a check does is a program over host requests that stay
    abstract.  The legs of [parallel] interleave by an explicit schedule; when one
    fails, the others run to their end before the failure is seen (in the code they go on
    beside what follows).  A retry counter that is no number is read as [NaN]. *)

From S2P Require Import Prelude JsMap Keys Journal Work Prog Json Hash Format RunIdentity ToolTypes.

#[global] Instance js_value : JsValue js := {|
  js_eq_dec := js_dec;
  str_field v f := js_str (prop v f);
  is_versioned v := match v with JObj l => mhas "_v" l | _ => false end;
  ser_length _ := 0;
|}.

Definition is_undefined (v : js) : bool := match v with JUndef => true | _ => false end.

Definition js_num (v : js) : option Z := match v with JNum z => Some z | _ => None end.

(** ** Errors *)

(** [WorkflowSuspended], [StepRetryBlockedError], [RetryExhaustedError] and the plain errors. *)
Inductive wf_error :=
| ESuspended (waitId : string) (reason : js)
| EBlocked (stepId key : string) (inFlight : bool) (age : option Z)
| EStrict (stepId : string)
| EBadRecover (stepId : string) (got : js)
| EExhausted (stepId : string) (attempts : Z)
| EExhaustedBy (stepId : string) (attempts : Z) (cause : wf_error)
| ERetryPolicy (stepId : string)
| EForkUnknownStep (stepId : string)
| EForkTaken (runId : string)
| ENoListKeys
| EHost (e : js).

Definition is_suspension (e : wf_error) : bool := match e with ESuspended _ _ => true | _ => false end.

(** ** Contexts and keys *)

Record step_ctx := StepCtx {
  sc_runId : string;
  sc_identity : run_identity;
  sc_keyPrefix : option string;
  sc_resumeData : bool;                        (** [resumeData] was injected *)
  sc_idempotencyKey : option string;
  sc_strict : bool;                            (** [strictSideEffects] *)
}.

Record entry_ctx := EntryCtx {
  en_runId : string;
  en_identity : option run_identity;
  en_keyPrefix : option string;
  en_resumeData : bool;
  en_idempotencyKey : option string;
  en_strict : bool;
}.

Definition withIdentity (e : entry_ctx) : step_ctx :=
  StepCtx (en_runId e) (default (RunIdentity Unknown (en_runId e) None None) (en_identity e))
    (en_keyPrefix e) (en_resumeData e) (en_idempotencyKey e) (en_strict e).

Definition plain_entry (runId : string) : entry_ctx := EntryCtx runId None None false None false.

Definition prefix_of (ctx : step_ctx) : string := default "" (sc_keyPrefix ctx).
Definition step_key (ctx : step_ctx) (id : string) : string := sc_runId ctx +:+ ":wf:" +:+ prefix_of ctx +:+ id.
Definition claim_key (key : string) : string := key +:+ ":_claim".
Definition resumeKey (runId waitId : string) : string := runId +:+ ":wf:_resume:" +:+ waitId.
Definition canceledKey (runId : string) : string := runId +:+ ":wf:_canceled".
Definition suspendKey (runId : string) : string := runId +:+ ":wf:_suspend".
Definition statusKey (runId : string) : string := "wfrun:" +:+ runId.
Definition fallbackMarkerKey (ctx : step_ctx) (id : string) : string := step_key ctx id +:+ ":_fallback".
Definition attempts_key (ctx : step_ctx) (id : string) : string := step_key ctx id +:+ ":attempts".

Definition DEFAULT_CLAIM_TTL_MS : Z := 60000.

(** ** Claim records *)

Definition claim_record (startedAt : Z) : js := JObj [("startedAt", JNum startedAt)].
Definition stamped (startedAt : Z) (mark : string) : js := JObj [("startedAt", JNum startedAt); (mark, JBool true)].

(** [at - cur.startedAt]; [None] is [NaN]. *)
Definition age_of (at_ : Z) (cur : js) : option Z := t ← js_num (prop cur "startedAt"); Some (at_ - t)%Z.

(** What a recovery answered: [Some output] when the effect landed. *)
Definition recovered (stepId : string) (r : js) : outcome wf_error (option js) :=
  match prop r "done" with
  | JBool true => match r with
                  | JObj l => if mhas "output" l then Ok (Some (prop r "output")) else Err (EBadRecover stepId r)
                  | _ => Err (EBadRecover stepId r)
                  end
  | JBool false => Ok None
  | _ => Err (EBadRecover stepId r)
  end.

Section Workflow.
Context {Q R : Type}.
Variable caps : journal_caps.
Variable has_counters : bool.                  (** [incrBy] and [getCounters] *)
Abbreviation prog := (prog js Q R wf_error).

Definition wget (k : string) : prog js := v ← jget k; mret (default JUndef v).

Definition lift {A} (o : outcome wf_error A) : prog A := match o with Ok a => mret a | Err e => Throw e end.

(** ** Steps *)

Record durability := Durability {
  du_sideEffect : bool;
  du_recover : option (js → string → prog js);
  du_claimTtlMs : option Z;
}.

Record step := Step {
  st_id : string;
  st_run : js → step_ctx → prog js;
  st_durability : option durability;
}.

Definition wf_claim (key : string) (value : js) : prog bool :=
  if has_putIfAbsent caps then jputIfAbsent key value
  else
    v ← wget key;
    if is_undefined v then _ ← jput key value; mret true else mret false.

Definition clockOf : prog Z := jnow caps.

(** The output is recorded; who loses the race returns the winner's record. *)
Definition settle (key : string) (out : js) : prog js :=
  won ← wf_claim key out;
  if won : bool then mret out
  else
    winner ← wget key;
    mret (if is_undefined winner then out else winner).

Definition adoptClaim (claimKey : string) (cur next : js) (blocked : wf_error) : prog unit :=
  if has_putIfMatch caps then
    ok ← jputIfMatch claimKey cur next;
    if ok : bool then mret tt else Throw blocked
  else jput claimKey next.

(** How a caller comes to run the body: [inl] a recorded output, [inr] the time of its own claim. *)
Definition take_claim (s : step) (d : durability) (input : js) (key : string) : prog (js + Z) :=
  let claimKey := claim_key key in
  let ttl := default DEFAULT_CLAIM_TTL_MS (du_claimTtlMs d) in
  at0 ← clockOf;
  won ← wf_claim claimKey (claim_record at0);
  if won : bool then mret (inr at0)
  else
    done ← wget key;
    if negb (is_undefined done) then mret (inl done)
    else
      cur ← wget claimKey;
      at_ ← clockOf;
      let age := age_of at_ cur in
      let adopt_and_read :=
        _ ← adoptClaim claimKey cur (claim_record at_) (EBlocked (st_id s) key true age);
        landed ← wget key;
        mret (if is_undefined landed then inr at_ else inl landed) in
      if negb (js_truthy cur) then
        again ← wf_claim claimKey (claim_record at_);
        if again : bool then mret (inr at_) else Throw (EBlocked (st_id s) key true None)
      else if js_truthy (prop cur "released") then adopt_and_read
      else if negb (js_truthy (prop cur "failed")) && match age with Some a => (a <? ttl)%Z | None => false end then
        Throw (EBlocked (st_id s) key true age)
      else
        match du_recover d with
        | None => Throw (EBlocked (st_id s) key false age)
        | Some recover =>
            r ← recover input key;
            v ← lift (recovered (st_id s) r);
            match v with
            | Some output => out ← settle key output; mret (inl out)
            | None => adopt_and_read
            end
        end.

(** The [catch]: the claim is stamped with what is known, if it is still this caller's. *)
Definition stamp_claim (claimKey : string) (mine : Z) (e : wf_error) : prog unit :=
  let stamp := stamped mine (if is_suspension e then "released" else "failed") in
  if has_putIfMatch caps then _ ← jputIfMatch claimKey (claim_record mine) stamp; mret tt
  else
    cur ← wget claimKey;
    if js_truthy cur && bool_decide (prop cur "startedAt" = JNum mine) &&
       negb (js_truthy (prop cur "released")) && negb (js_truthy (prop cur "failed"))
    then jput claimKey stamp else mret tt.

Definition runSideEffectStep (s : step) (d : durability) (input : js) (ctx : step_ctx) (key : string) : prog js :=
  if sc_strict ctx && negb (bool_decide (is_Some (du_recover d))) then Throw (EStrict (st_id s))
  else
    t ← take_claim s d input key;
    match t with
    | inl out => mret out
    | inr mine =>
        o ← pcatch (out ← st_run s input ctx; settle key out);
        match o with
        | Ok out => mret out
        | Err e => _ ← pcatch (stamp_claim (claim_key key) mine e); Throw e
        end
    end.

Definition with_key (ctx : step_ctx) (key : string) : step_ctx :=
  StepCtx (sc_runId ctx) (sc_identity ctx) (sc_keyPrefix ctx) (sc_resumeData ctx) (Some key) (sc_strict ctx).

Definition is_side_effect (s : step) : option durability :=
  match st_durability s with Some d => if du_sideEffect d then Some d else None | None => None end.

Definition runStep (s : step) (input : js) (ctx : step_ctx) : prog js :=
  let key := step_key ctx (st_id s) in
  cached ← wget key;
  if negb (is_undefined cached) then mret cached
  else
    let ctx2 := with_key ctx key in
    match is_side_effect s with
    | Some d => runSideEffectStep s d input ctx2 key
    | None => out ← st_run s input ctx2; settle key out
    end.

(** ** Combinators: each adds one step *)

Definition workflow := list step.

Definition then_ (w : workflow) (s : step) : workflow := w ++ [s].

Definition numbered (kind : string) (w : workflow) : string := kind +:+ "#" +:+ dec (N.of_nat (length w)).

Definition map_ (w : workflow) (fn : js → prog js) (id : option string) : workflow :=
  w ++ [Step (default (numbered "map" w) id) (λ input _, fn input) None].

(** The legs advance by the schedule, then one after the other; the first failure in time is kept. *)
Definition failure_of (p : prog js) (first : option wf_error) : option wf_error :=
  match first, p with None, Throw e => Some e | _, _ => first end.

Fixpoint finish_legs (legs : list (prog js)) (first : option wf_error) : prog (list js) :=
  match legs with
  | [] => match first with Some e => Throw e | None => mret [] end
  | p :: legs' =>
      o ← pcatch p;
      match o with
      | Ok v => vs ← finish_legs legs' first; mret (v :: vs)
      | Err e => finish_legs legs' (match first with Some e0 => Some e0 | None => Some e end)
      end
  end.

Fixpoint run_legs (sched : list nat) (legs : list (prog js)) (first : option wf_error) : prog (list js) :=
  match sched with
  | [] => finish_legs legs first
  | i :: sched' =>
      match legs !! i with
      | Some (Do r k) => Do r (λ o, run_legs sched' (<[i := k o]> legs) (failure_of (k o) first))
      | _ => run_legs sched' legs first
      end
  end.

Fixpoint join_ids (ids : list string) : string :=
  match ids with [] => "" | [x] => x | x :: xs => x +:+ "+" +:+ join_ids xs end.

(** A step of the caller, journaled under the composite. *)
Definition under (pid : string) (s : step) : step := Step (pid +:+ "/" +:+ st_id s) (st_run s) (st_durability s).

Definition parallel (sched : list nat) (w : workflow) (steps : list step) (id : option string) : workflow :=
  let pid := default (numbered "parallel" w +:+ "(" +:+ join_ids (map st_id steps) +:+ ")") id in
  w ++ [Step pid (λ input ctx,
    outs ← run_legs sched (map (λ s, runStep (under pid s) input ctx) steps) None;
    mret (JObj (fold_left (λ m '(k, v), mset k v m) (zip (map st_id steps) outs) []))) None].

Definition branch (w : workflow) (cond : js → outcome wf_error bool) (ifStep elseStep : step) (id : option string) : workflow :=
  let bid := default (numbered "branch" w +:+ "(" +:+ st_id ifStep +:+ "|" +:+ st_id elseStep +:+ ")") id in
  w ++ [Step bid (λ input ctx,
    b ← lift (cond input);
    runStep (under bid (if b : bool then ifStep else elseStep)) input ctx) None].

Fixpoint foreach_from (fid : string) (run : js → nat → step_ctx → prog js) (i : nat) (items : list js) (ctx : step_ctx) : prog (list js) :=
  match items with
  | [] => mret []
  | x :: items' =>
      v ← runStep (Step (fid +:+ "[" +:+ dec (N.of_nat i) +:+ "]") (λ it c, run it i c) None) x ctx;
      vs ← foreach_from fid run (S i) items' ctx;
      mret (v :: vs)
  end.

Definition foreach (w : workflow) (itemsOf : js → outcome wf_error (list js)) (run : js → nat → step_ctx → prog js)
    (id : option string) : workflow :=
  let fid := default (numbered "foreach" w) id in
  w ++ [Step fid (λ input ctx, items ← lift (itemsOf input); vs ← foreach_from fid run 0 items ctx; mret (JArr vs)) None].

(** [left] rounds at most, from round [iter] on. *)
Fixpoint loop_from (id : string) (run : js → nat → step_ctx → prog js) (cond : js → nat → outcome wf_error bool)
    (left iter : nat) (cur : js) (ctx : step_ctx) : prog js :=
  match left with
  | 0 => mret cur
  | S left' =>
      v ← runStep (Step (id +:+ "#" +:+ dec (N.of_nat iter)) (λ inp c, run inp iter c) None) cur ctx;
      b ← lift (cond v iter);
      if b : bool then loop_from id run cond left' (S iter) v ctx else mret v
  end.

Definition loop_ (w : workflow) (run : js → nat → step_ctx → prog js) (cond : js → nat → outcome wf_error bool)
    (id : option string) (maxIters : option nat) : workflow :=
  let lid := default (numbered "loop" w) id in
  w ++ [Step lid (λ input ctx, loop_from lid run cond (default 100 maxIters) 0 input ctx) None].

Definition dowhile (w : workflow) (run : js → nat → step_ctx → prog js) (cond : js → nat → outcome wf_error bool)
    (id : option string) (maxIters : option nat) : workflow :=
  loop_ w run cond (Some (default (numbered "dowhile" w) id)) maxIters.

Definition negated (cond : js → nat → outcome wf_error bool) (v : js) (i : nat) : outcome wf_error bool :=
  match cond v i with Ok b => Ok (negb b) | Err e => Err e end.

Definition dountil (w : workflow) (run : js → nat → step_ctx → prog js) (cond : js → nat → outcome wf_error bool)
    (id : option string) (maxIters : option nat) : workflow :=
  loop_ w run (negated cond) (Some (default (numbered "dountil" w) id)) maxIters.

(** ** Running *)

Fixpoint run_steps (steps : workflow) (cur : js) (ctx : step_ctx) : prog js :=
  match steps with
  | [] => mret cur
  | s :: steps' => v ← runStep s cur ctx; run_steps steps' v ctx
  end.

Definition run_workflow (w : workflow) (input : js) (entry : entry_ctx) : prog js := run_steps w input (withIdentity entry).

Inductive wf_result :=
| Completed (output : js)
| Waiting (stepId waitId : string) (reason : js)
| Paused (stepId : string) (partial : js)
| Canceled (stepId : string) (reason : js).

Record resume_options := ResumeOptions {
  ro_maxSteps : option nat;
  ro_resume : list (string * js);
  ro_signal : option (prog bool);              (** [signal.aborted] *)
  ro_workflowName : option string;
}.

(** The registry's record of a run; [fields] come before the run's id. *)
Definition status_record (runId : string) (fields : list (string * js)) (name : option string) (at_ : Z) : js :=
  JObj (fields ++ [("runId", JStr runId)] ++ match name with Some n => [("workflowName", JStr n)] | None => [] end ++
        [("updatedAt", JNum at_)]).

(** [putStatus], best effort. *)
Definition putStatus (runId : string) (fields : list (string * js)) (name : option string) : prog unit :=
  _ ← pcatch (at_ ← dateNow; jput (statusKey runId) (status_record runId fields name at_));
  mret tt.

Fixpoint deliver (runId : string) (payloads : list (string * js)) : prog unit :=
  match payloads with
  | [] => mret tt
  | (waitId, v) :: ps => _ ← jput (resumeKey runId waitId) v; deliver runId ps
  end.

(** The cancellation test of a step boundary: the reason, when the run is canceled. *)
Definition check_cancel (ctx : step_ctx) (stepId : string) (opts : resume_options) : prog (option js) :=
  flag ← wget (canceledKey (sc_runId ctx));
  aborted ← (if is_undefined flag then match ro_signal opts with Some p => p | None => mret false end else mret true);
  if aborted : bool then
    _ ← (if is_undefined flag then
           at_ ← dateNow; jput (canceledKey (sc_runId ctx)) (JObj [("at", JNum at_); ("reason", JStr "signal")])
         else mret tt);
    let reason := match nullish (prop flag "reason") with JUndef => JStr "signal" | r => r end in
    _ ← putStatus (sc_runId ctx) [("status", JStr "canceled"); ("stepId", JStr stepId); ("reason", reason)] (ro_workflowName opts);
    mret (Some reason)
  else mret None.

Definition suspend_run (ctx : step_ctx) (stepId waitId : string) (reason : js) (opts : resume_options) : prog wf_result :=
  _ ← jput (suspendKey (sc_runId ctx)) (JObj [("stepId", JStr stepId); ("waitId", JStr waitId); ("reason", reason)]);
  _ ← putStatus (sc_runId ctx) [("status", JStr "suspended"); ("stepId", JStr stepId); ("waitId", JStr waitId); ("reason", reason)]
        (ro_workflowName opts);
  mret (Waiting stepId waitId reason).

Fixpoint resume_from (opts : resume_options) (i : nat) (steps : workflow) (cur : js) (ctx : step_ctx) : prog wf_result :=
  match steps with
  | [] => _ ← putStatus (sc_runId ctx) [("status", JStr "completed")] (ro_workflowName opts); mret (Completed cur)
  | s :: steps' =>
      c ← check_cancel ctx (st_id s) opts;
      match c with
      | Some reason => mret (Canceled (st_id s) reason)
      | None =>
          if match ro_maxSteps opts with Some n => n <=? i | None => false end then mret (Paused (st_id s) cur)
          else
            o ← pcatch (runStep s cur ctx);
            match o with
            | Ok v => resume_from opts (S i) steps' v ctx
            | Err (ESuspended waitId reason) => suspend_run ctx (st_id s) waitId reason opts
            | Err e => Throw e
            end
      end
  end.

(** The context of the steps of a resumable run: [resumeData] is injected. *)
Definition resuming (ctx : step_ctx) : step_ctx :=
  StepCtx (sc_runId ctx) (sc_identity ctx) (sc_keyPrefix ctx) true (sc_idempotencyKey ctx) (sc_strict ctx).

Definition runResumable (w : workflow) (input : js) (entry : entry_ctx) (opts : resume_options) : prog wf_result :=
  let ctx := withIdentity entry in
  _ ← deliver (sc_runId ctx) (ro_resume opts);
  resume_from opts 0 w input (resuming ctx).

(** ** Waiting steps *)

Definition suspendWorkflow {A} (waitId : string) (reason : js) : prog A := Throw (ESuspended waitId reason).

Definition sleep (id : string) (untilMs : Z) : step :=
  Step id (λ _ _,
    now ← dateNow;
    if (now <? untilMs)%Z then suspendWorkflow id (JObj [("kind", JStr "time"); ("untilMs", JNum untilMs)])
    else mret (JObj [("sleptUntil", JNum untilMs)])) None.

Definition resumeData (ctx : step_ctx) (waitId : string) : prog js :=
  if sc_resumeData ctx then wget (resumeKey (sc_runId ctx) waitId) else mret JUndef.

Definition or_else (v other : js) : js := match nullish v with JUndef => other | _ => v end.

Definition waitForResume (id : string) (validate : option (js → outcome wf_error js)) (reason : js) : step :=
  Step id (λ _ ctx,
    v ← resumeData ctx id;
    if is_undefined v then suspendWorkflow id (or_else reason (JObj [("kind", JStr "resume")]))
    else match validate with Some f => lift (f v) | None => mret v end) None.

Definition waitFor (id : string) (check : js → step_ctx → prog js) : step :=
  Step id (λ input ctx,
    v ← check input ctx;
    if is_undefined (nullish v) then suspendWorkflow id (JObj [("kind", JStr "event")]) else mret v) None.

(** ** Nesting and retrying *)

Definition entry_of (ctx : step_ctx) : entry_ctx :=
  EntryCtx (sc_runId ctx) (Some (sc_identity ctx)) (sc_keyPrefix ctx) (sc_resumeData ctx) (sc_idempotencyKey ctx) (sc_strict ctx).

Definition nested (ctx : step_ctx) (id : string) : entry_ctx :=
  let e := entry_of ctx in
  EntryCtx (en_runId e) (en_identity e) (Some (prefix_of ctx +:+ id +:+ ":")) (en_resumeData e) (en_idempotencyKey e) (en_strict e).

Definition asStep (id : string) (w : workflow) : step := Step id (λ input ctx, run_workflow w input (nested ctx id)) None.

Record retry_policy := RetryPolicy {
  rp_attempts : Z;
  rp_backoffMs : option (Z → Z);
  rp_fallback : option step;
}.

(** [journal.get(key) ?? 0] as a number; [None] is [NaN]. *)
Definition counter_of (v : js) : option Z :=
  match v with JUndef | JNull => Some 0%Z | JNum n => Some n | JBool b => Some (if b then 1%Z else 0%Z) | _ => None end.

Definition readAttempts (key : string) : prog (option Z) :=
  v ← wget key;
  let legacy := counter_of v in
  if has_counters then
    c ← request (RGetCounters key);
    mret (l ← legacy; Some (Z.max (default 0%Z (c ≫= mget "n")) l))
  else mret legacy.

Definition bumpAttempts (key : string) (used : Z) : prog unit :=
  if has_counters then
    c ← request (RGetCounters key);
    request (RIncrBy key [("n", match c ≫= mget "n" with Some _ => 1%Z | None => used end)])
  else jput key (JNum used).

Definition wait_between (p : retry_policy) (used : Z) : prog unit :=
  match rp_backoffMs p with
  | Some f => if (used <? rp_attempts p)%Z && (0 <? f used)%Z then request (RSleep (f used)) else mret tt
  | None => mret tt
  end.

(** After a failed attempt of a side-effecting step: [Some] output when the recovery says it landed. *)
Definition recover_between (s : step) (input : js) (ctx : step_ctx) (e : wf_error) : prog (option js) :=
  match is_side_effect s with
  | None => mret None
  | Some d =>
      match du_recover d with
      | None => Throw e
      | Some recover => r ← recover input (default (step_key ctx (st_id s)) (sc_idempotencyKey ctx)); lift (recovered (st_id s) r)
      end
  end.

(** [left] attempts are left; [inr] the last error when they are used up. *)
Fixpoint retry_from (s : step) (p : retry_policy) (input : js) (ctx : step_ctx) (left : nat) (used : Z) (last : option wf_error)
    : prog (js + (Z * option wf_error)) :=
  match left with
  | 0 => mret (inr (used, last))
  | S left' =>
      o ← pcatch (st_run s input ctx);
      match o with
      | Ok v => mret (inl v)
      | Err e =>
          if is_suspension e then Throw e
          else
            let used' := (used + 1)%Z in
            _ ← bumpAttempts (attempts_key ctx (st_id s)) used';
            r ← recover_between s input ctx e;
            match r with
            | Some out => mret (inl out)
            | None => _ ← wait_between p used'; retry_from s p input ctx left' used' (Some e)
            end
      end
  end.

Definition after_attempts (s : step) (p : retry_policy) (input : js) (ctx : step_ctx) (used : option Z) (last : option wf_error) : prog js :=
  match rp_fallback p with
  | Some f =>
      out ← runStep f input ctx;
      _ ← jput (fallbackMarkerKey ctx (st_id s))
            (JObj [("__gnlFallback", JBool true); ("attempts", match used with Some n => JNum n | None => JNonFinite "NaN" end); ("stepId", JStr (st_id f))]);
      mret out
  | None => Throw (match last with Some e => EExhaustedBy (st_id s) (rp_attempts p) e | None => EExhausted (st_id s) (rp_attempts p) end)
  end.

Definition retry_run (s : step) (p : retry_policy) (input : js) (ctx : step_ctx) : prog js :=
  used ← readAttempts (attempts_key ctx (st_id s));
  match used with
  | None => after_attempts s p input ctx None None
  | Some n =>
      r ← retry_from s p input ctx (Z.to_nat (rp_attempts p - n)) n None;
      match r with
      | inl v => mret v
      | inr (n', last) => after_attempts s p input ctx (Some n') last
      end
  end.

Definition retry (s : step) (p : retry_policy) : outcome wf_error step :=
  if (rp_attempts p <? 1)%Z then Err (ERetryPolicy (st_id s))
  else Ok (Step (st_id s) (retry_run s p) (st_durability s)).

(** ** Forks, cancellation, registry *)

Definition flat_key (runId id : string) : string := runId +:+ ":wf:" +:+ id.

Fixpoint probe_fresh (dst : string) (order : list string) : prog unit :=
  match order with
  | [] => mret tt
  | id :: order' =>
      v ← wget (flat_key dst id);
      if is_undefined v then probe_fresh dst order' else Throw (EForkTaken dst)
  end.

(** Does [s] contain [x]? *)
Fixpoint contains (x s : string) : bool :=
  starts_with x s || match s with String _ s' => contains x s' | EmptyString => false end.

Fixpoint copy_nested (src dst : string) (keys : list string) : prog unit :=
  match keys with
  | [] => mret tt
  | k :: keys' =>
      let tail := default "" (strip_prefix (src +:+ ":wf:") k) in
      _ ← (if contains ":_" tail || ends_with ":attempts" tail then mret tt
           else v ← wget k; if is_undefined v then mret tt else jput (dst +:+ ":wf:" +:+ tail) v);
      copy_nested src dst keys'
  end.

Fixpoint copy_steps (src dst : string) (ids : list string) : prog (list string) :=
  match ids with
  | [] => mret []
  | id :: ids' =>
      flat ← wget (flat_key src id);
      _ ← (if is_undefined flat then mret tt
           else
             _ ← jput (flat_key dst id) flat;
             marker ← wget (flat_key src id +:+ ":_fallback");
             if is_undefined marker then mret tt else jput (flat_key dst id +:+ ":_fallback") marker);
      _ ← (if has_listKeys caps then
             keys ← request (RListKeys (flat_key src id +:+ ":") None);
             copy_nested src dst keys
           else mret tt);
      copied ← copy_steps src dst ids';
      mret (if is_undefined flat then copied else id :: copied)
  end.

Fixpoint index_of (x : string) (l : list string) : option nat :=
  match l with [] => None | y :: l' => if String.eqb x y then Some 0 else S <$> index_of x l' end.

Definition forkWorkflowRun (w : workflow) (src fromStepId dst : string) : prog (list string) :=
  let order := map st_id w in
  match index_of fromStepId order with
  | None => Throw (EForkUnknownStep fromStepId)
  | Some at_ =>
      st ← wget (statusKey dst);
      if negb (is_undefined st) then Throw (EForkTaken dst)
      else
        _ ← probe_fresh dst order;
        copied ← copy_steps src dst (take at_ order);
        now ← dateNow;
        _ ← jput (statusKey dst) (JObj [("runId", JStr dst); ("status", JStr "forked");
              ("forkedFrom", JObj [("runId", JStr src); ("fromStepId", JStr fromStepId)]); ("at", JNum now)]);
        mret copied
  end.

Definition when_truthy (name : string) (v : js) : list (string * js) := if js_truthy v then [(name, v)] else [].
Definition when_defined (name : string) (v : js) : list (string * js) := if is_undefined v then [] else [(name, v)].

Definition cancelWorkflowRun (runId : string) (reason : js) : prog bool :=
  st ← wget (statusKey runId);
  if bool_decide (prop st "status" = JStr "completed") then mret false
  else
    at_ ← dateNow;
    _ ← jput (canceledKey runId) (JObj ([("at", JNum at_)] ++ when_defined "reason" reason));
    at2 ← dateNow;
    _ ← jput (statusKey runId) (JObj ([("runId", JStr runId); ("status", JStr "canceled")] ++
          when_truthy "stepId" (prop st "stepId") ++ when_truthy "workflowName" (prop st "workflowName") ++
          when_defined "reason" reason ++ [("updatedAt", JNum at2)]));
    mret true.

Definition getWorkflowRunStatus (runId : string) : prog js := wget (statusKey runId).

(** [b.updatedAt - a.updatedAt <= 0]; a record without the time compares as equal. *)
Definition updated_before (a b : js) : bool :=
  match js_num (prop a "updatedAt"), js_num (prop b "updatedAt") with
  | Some x, Some y => (y <=? x)%Z
  | _, _ => true
  end.

Fixpoint insert_status (x : js) (l : list js) : list js :=
  match l with
  | [] => [x]
  | y :: l' => if updated_before x y then x :: l else y :: insert_status x l'
  end.

Fixpoint read_statuses (status : option string) (keys : list string) : prog (list js) :=
  match keys with
  | [] => mret []
  | k :: keys' =>
      st ← wget k;
      rest ← read_statuses status keys';
      mret (if js_truthy st && match status with Some x => bool_decide (prop st "status" = JStr x) | None => true end
            then st :: rest else rest)
  end.

Definition listWorkflowRuns (status : option string) : prog (list js) :=
  if has_listKeys caps then
    keys ← request (RListKeys "wfrun:" None);
    out ← read_statuses (status ≫= λ s, truthy (Some s)) keys;
    mret (foldr insert_status [] out)
  else Throw ENoListKeys.
End Workflow.
