(* ===== verification/WorkflowFrame.v ===== *)
(** * WorkflowFrame: what the workflow engine leaves alone

    [keeping mine hush p]: the program [p] writes no key in [mine] and makes no host request in [hush],
    whatever the journal and the host answer.  The operations of module [Workflow] keep every key but their own, and a
    step keeps what its body and its recovery keep. *)

From S2P Require Import Prelude JsMap Keys Journal Work Prog Json Hash Format RunIdentity ToolTypes Workflow.

(** How many colons a key has: a status key has one less than any key of a step. *)
Fixpoint colons (s : string) : nat := match s with EmptyString => 0 | String c s' => (if Ascii.eqb c colon then 1 else 0) + colons s' end.

Lemma colons_app a b : colons (a +:+ b) = colons a + colons b.
Proof. induction a as [|c a IH]; [done|]. cbn. rewrite IH. lia. Qed.

Section Frame.
Context {Q R : Type}.
Variable mine : string → Prop.
Variable hush : Q → bool.
Abbreviation prog := (prog js Q R wf_error).
Abbreviation req := (req js Q).
Abbreviation wf_step := (@step Q R).

Definition keeps (r : req) : Prop :=
  match r with
  | RPut k _ | RPutIfMatch k _ _ | RPutIfAbsent k _ => ¬ mine k
  | RExt q => hush q = false
  | _ => True
  end.

Fixpoint keeping {A} (p : prog A) : Prop :=
  match p with
  | Ret _ | Throw _ => True
  | Do r k => keeps r ∧ ∀ o, keeping (k o)
  end.

Lemma keeping_bind {A B} (p : prog A) (f : A → prog B) : keeping p → (∀ a, keeping (f a)) → keeping (pbind f p).
Proof. intros Hp Hf. induction p as [a|e|r k IH]; [apply Hf|done|]. destruct Hp as [Hr Hk]. split; [done|]. intros o. apply IH, Hk. Qed.

Lemma keeping_try {A} (p : prog A) (c : wf_error → prog A) : keeping p → (∀ e, keeping (c e)) → keeping (ptry c p).
Proof. intros Hp Hc. induction p as [a|e|r k IH]; [done|apply Hc|]. destruct Hp as [Hr Hk]. split; [done|]. intros o. apply IH, Hk. Qed.

Lemma keeping_catch {A} (p : prog A) : keeping p → keeping (pcatch p).
Proof. intros Hp. apply keeping_try; [|done]. by apply keeping_bind. Qed.

Lemma keeping_request r : keeps r → keeping (request (R := R) (E := wf_error) r).
Proof. intros Hr. split; [done|]. by intros [a|e]. Qed.

Lemma keeping_get k : keeping (jget k : prog (option js)).
Proof. by apply (keeping_request (RGet k)). Qed.

Lemma keeping_wget k : keeping (wget k : prog js).
Proof. by apply keeping_bind; [apply keeping_get|]. Qed.

Lemma keeping_put k v : ¬ mine k → keeping (jput k v : prog unit).
Proof. apply (keeping_request (RPut k v)). Qed.

Lemma keeping_date : keeping (dateNow : prog Z).
Proof. by apply (keeping_request RDateNow). Qed.

Lemma keeping_absent k v : ¬ mine k → keeping (jputIfAbsent k v : prog bool).
Proof. apply (keeping_request (RPutIfAbsent k v)). Qed.

Lemma keeping_match k e v : ¬ mine k → keeping (jputIfMatch k e v : prog bool).
Proof. apply (keeping_request (RPutIfMatch k e v)). Qed.

(** ** The engine *)

Section Engine.
Variable caps : journal_caps.

Lemma keeping_clock : keeping (clockOf caps : prog Z).
Proof. unfold clockOf, jnow. destruct (has_now caps); [by apply (keeping_request RNow)|apply keeping_date]. Qed.

Lemma keeping_lift {A} (o : outcome wf_error A) : keeping (lift o : prog A).
Proof. by destruct o. Qed.

Ltac keep := unfold mret, prog_ret, mbind, prog_bind; repeat first
  [ exact I | assumption | apply keeping_bind; [|intros ?] | apply keeping_catch | apply keeping_get | apply keeping_clock
  | apply keeping_lift | apply keeping_date | by apply keeping_put | by apply keeping_absent | by apply keeping_match | case_match ].

Lemma keeping_claim k v : ¬ mine k → keeping (wf_claim caps k v : prog bool).
Proof. intros Hk. unfold wf_claim. keep. Qed.

Lemma keeping_settle k out : ¬ mine k → keeping (settle caps k out : prog js).
Proof. intros Hk. unfold settle. apply keeping_bind; [by apply keeping_claim|]. intros won. keep. Qed.

Lemma keeping_adopt k cur nxt e : ¬ mine k → keeping (adoptClaim caps k cur nxt e : prog unit).
Proof. intros Hk. unfold adoptClaim. keep. Qed.

Lemma keeping_stamp k at_ e : ¬ mine k → keeping (stamp_claim caps k at_ e : prog unit).
Proof. intros Hk. unfold stamp_claim. keep. Qed.

Lemma keeping_take_claim s d input k :
  ¬ mine k → ¬ mine (claim_key k) → (∀ f, du_recover d = Some f → keeping (f input k)) →
  keeping (take_claim caps s d input k : prog (js + Z)).
Proof.
  intros Hk Hc Hr. unfold take_claim.
  destruct (du_recover d) as [f|]; [pose proof (Hr f eq_refl)|];
    repeat first [apply keeping_claim; assumption | apply keeping_settle; assumption | apply keeping_adopt; assumption | progress keep].
Qed.

(** A step whose records are not in [mine], and whose body and recovery keep. *)
Record bystander (s : wf_step) (ctx : step_ctx) : Prop := Bystander {
  by_key : ¬ mine (step_key ctx (st_id s));
  by_claim : ¬ mine (claim_key (step_key ctx (st_id s)));
  by_body : ∀ input c, keeping (st_run s input c);
  by_recover : ∀ d f input k, st_durability s = Some d → du_recover d = Some f → keeping (f input k);
}.

Lemma keeping_runStep s ctx input : bystander s ctx → keeping (runStep caps s input ctx).
Proof.
  intros [Hk Hc Hb Hr]. unfold runStep, is_side_effect. apply keeping_bind; [apply keeping_wget|]. intros cached.
  destruct (negb (is_undefined cached)); [done|].
  assert (Hrun : ∀ c, keeping (out ← st_run s input c; settle caps (step_key ctx (st_id s)) out)).
  { intros c. apply keeping_bind; [apply Hb|]. intros. by apply keeping_settle. }
  destruct (st_durability s) as [d|] eqn:Hd; [destruct (du_sideEffect d)|]; [|apply Hrun..].
  unfold runSideEffectStep. destruct (_ && _); [done|]. apply keeping_bind; [apply keeping_take_claim; eauto|].
  intros [out|t]; [done|]. apply keeping_bind; [apply keeping_catch, Hrun|]. intros [out|e]; [done|].
  apply keeping_bind; [|done]. by apply keeping_catch, keeping_stamp.
Qed.
End Engine.

(** ** The records of a run beside its steps *)

Section RunRecords.
Variable rid : string.
Hypothesis Hstatus : ¬ mine (statusKey rid).
Hypothesis Hreserved : ∀ x, ¬ mine (rid +:+ ":wf:_" +:+ x).

Lemma keeping_putStatus fields name : keeping (putStatus rid fields name : prog unit).
Proof using Hstatus.
  unfold putStatus. apply keeping_bind; [|done]. apply keeping_catch, keeping_bind; [apply keeping_date|]. intros. by apply keeping_put.
Qed.

Definition keeping_options (opts : @resume_options Q R) : Prop := ∀ p, ro_signal opts = Some p → keeping p.

Lemma keeping_check_cancel ctx stepId opts : sc_runId ctx = rid → keeping_options opts → keeping (check_cancel ctx stepId opts).
Proof using Hstatus Hreserved.
  intros Hr Hq. unfold check_cancel. rewrite Hr. apply keeping_bind; [apply keeping_wget|]. intros flag.
  apply keeping_bind; [destruct (is_undefined flag); [|done]; destruct (ro_signal opts) eqn:Hp; [by apply Hq|done]|].
  intros []; [|done]. apply keeping_bind.
  - destruct (is_undefined flag); [|done]. apply keeping_bind; [apply keeping_date|]. intros. apply keeping_put, (Hreserved "canceled").
  - intros _. apply keeping_bind; [apply keeping_putStatus|done].
Qed.

Lemma keeping_deliver payloads : keeping (deliver rid payloads : prog unit).
Proof using Hreserved.
  induction payloads as [|[waitId v] ps IH]; [done|]. apply keeping_bind; [apply keeping_put, (Hreserved ("resume:" +:+ waitId))|done].
Qed.

Lemma keeping_suspend_run ctx stepId waitId reason opts : sc_runId ctx = rid → keeping (suspend_run (Q := Q) (R := R) ctx stepId waitId reason opts).
Proof using Hstatus Hreserved.
  intros Hr. unfold suspend_run. rewrite Hr. apply keeping_bind; [apply keeping_put, (Hreserved "suspend")|]. intros _.
  apply keeping_bind; [apply keeping_putStatus|done].
Qed.
End RunRecords.
End Frame.
