(* ===== verification/WorkflowEffects.v ===== *)
(** * WorkflowEffects: a side effect fires at most once

    For a step declared [sideEffect] without [recover] (module [Workflow]): whatever workflows, runs and resumes of
    the run execute it, on any number of workers, with storage failures and crashes at any
    request, its effect is requested at most once. *)

From S2P Require Import Prelude JsMap Keys Journal Work Prog Faults Json Hash Format RunIdentity ToolTypes Workflow WorkflowFrame.

Section Effects.
Context {Q R : Type}.
Variable is_effect : Q → bool.
Variable rid : string.                        (** the run *)
Variable sid : string.                        (** the step *)
Hypothesis Hsid : starts_with "_" sid = false.

Abbreviation prog := (prog js Q R wf_error).
Abbreviation req := (req js Q).
Abbreviation answer r := (outcome wf_error (ans (R := R) r)).
Abbreviation K := (rid +:+ ":wf:" +:+ sid).
Abbreviation C := (claim_key (rid +:+ ":wf:" +:+ sid)).

(** No request fails with a suspension: neither the storage nor the effect. *)
Definition no_suspension (r : req) (o : answer r) : Prop := match o with Err e => is_suspension e = false | Ok _ => True end.

(** What a worker knows: whether it holds a claim it has not spent, and the claim records it read. *)
Abbreviation knowledge := (bool * list js)%type.

Definition unreleased (v : js) : Prop := js_truthy (prop v "released") = false.

Definition effect_allowed (g : knowledge) (r : req) : Prop :=
  Forall unreleased (snd g) →
  match r with
  | RPut k _ => k ≠ C
  | RPutIfMatch k _ v | RPutIfAbsent k v => k = C → unreleased v
  | RExt q => is_effect q = true → fst g = true
  | _ => True
  end.

Definition effect_next (g : knowledge) (r : req) : answer r → knowledge :=
  match r return answer r → knowledge with
  | RGet k => λ o, match o with Ok v => if String.eqb k C then (fst g, default JUndef v :: snd g) else g | Err _ => g end
  | RPutIfAbsent k _ => λ o, match o with Ok true => (fst g || String.eqb k C, snd g) | _ => g end
  | RExt q => λ _, (fst g && negb (is_effect q), snd g)
  | _ => λ _, g
  end.

Definition effects (w : world js Q) : nat := count_if is_effect (trace w).
Definition claims (w : world js Q) : nat := match mj_get C (jr w) with Some _ => 1 | None => 0 end.

Definition effect_inv (w : world js Q) (gs : list knowledge) : Prop :=
  (∀ v, mj_get C (jr w) = Some v → unreleased v) ∧ Forall (λ g, Forall unreleased (snd g)) gs ∧
  effects w + count_if fst gs ≤ claims w.

Lemma insert_same_won gs i (g g' : knowledge) : gs !! i = Some g → fst g' = fst g → count_if fst (<[i := g']> gs) = count_if fst gs.
Proof. intros Hi Hf. pose proof (count_if_insert fst gs i g g' Hi) as Hc. rewrite Hf in Hc. destruct (fst g); lia. Qed.

(** The readings and the record, after an allowed request. *)
Lemma effect_kept (h : oracle Q R wf_error) w g r :
  effect_allowed g r → Forall unreleased (snd g) → (∀ v, mj_get C (jr w) = Some v → unreleased v) →
  (∀ v, mj_get C (jr (snd (perform h r w))) = Some v → unreleased v) ∧ claims w ≤ claims (snd (perform h r w)).
Proof.
  intros Hal Hg Hc. specialize (Hal Hg). unfold claims. destruct r; cbn [perform snd jr set_jr set_work]; try (split; [exact Hc|lia]).
  - rewrite mj_get_put_ne by congruence. split; [exact Hc|lia].
  - rewrite mj_putIfAbsent_spec. destruct (mj_get k (jr w)) eqn:Hk; cbn [snd]; [split; [exact Hc|lia]|].
    unfold mj_get at 1 3. cbn [store]. destruct (decide (k = C)) as [->|Hne].
    + rewrite mget_mset. unfold mj_get in Hk |- *. rewrite Hk. split; [|lia]. intros v' [= <-]. by apply Hal.
    + rewrite mget_mset_ne by congruence. split; [exact Hc|unfold mj_get; lia].
  - rewrite mj_putIfMatch_spec. destruct (bool_decide _) eqn:Hb; cbn [snd]; [|split; [exact Hc|lia]].
    apply bool_decide_eq_true in Hb. unfold mj_get at 1 3. cbn [store]. destruct (decide (k = C)) as [->|Hne].
    + rewrite mget_mset, Hb. split; [|lia]. intros v' [= <-]. by apply Hal.
    + rewrite mget_mset_ne by congruence. split; [exact Hc|unfold mj_get; lia].
  - rewrite mj_get_incrBy. split; [exact Hc|lia].
Qed.

Lemma next_unreleased (h : oracle Q R wf_error) w g r :
  Forall unreleased (snd g) → (∀ v, mj_get C (jr w) = Some v → unreleased v) →
  Forall unreleased (snd (effect_next g r (fst (perform h r w)))).
Proof.
  intros Hg Hc. destruct r; try exact Hg.
  - cbn [perform fst effect_next]. destruct (String.eqb_spec k C) as [->|]; [|done]. constructor; [|done].
    destruct (mj_get C (jr w)) as [v|] eqn:Hv; [by apply Hc|done].
  - cbn [perform fst effect_next]. by destruct (fst (mj_putIfAbsent _ _ _ _)).
Qed.

Lemma next_err g r (e : wf_error) : snd (effect_next g r (Err e)) = snd g ∧ (fst (effect_next g r (Err e)) = true → fst g = true).
Proof. destruct r; try done. cbn. split; [done|]. by intros [? _]%andb_true_iff. Qed.

Lemma count_if_trace_cons (q : Q) (l : list Q) : count_if is_effect (q :: l) = (if is_effect q then 1 else 0) + count_if is_effect l.
Proof. apply count_if_cons. Qed.

Lemma effect_inv_perform (h : oracle Q R wf_error) w gs i g r :
  gs !! i = Some g → effect_allowed g r → no_suspension r (fst (perform h r w)) → effect_inv w gs →
  effect_inv (snd (perform h r w)) (<[i := effect_next g r (fst (perform h r w))]> gs).
Proof.
  intros Hi Hal _ (Hc & Hgs & Hn). assert (Hg : Forall unreleased (snd g)) by (by eapply (Forall_lookup_1 (λ g, Forall unreleased (snd g))) in Hgs).
  destruct (effect_kept h w g r Hal Hg Hc) as [Hc' Hcl]. pose proof (next_unreleased h w g r Hg Hc) as Hu. specialize (Hal Hg).
  split_and!; [exact Hc'|by apply Forall_insert|].
  assert (Hcase : fst (effect_next g r (fst (perform h r w))) = fst g ∧ effects (snd (perform h r w)) = effects w ∨
    (∃ q, r = RExt q ∧ is_effect q = true) ∨ (∃ v, r = RPutIfAbsent C v ∧ mj_get C (jr w) = None)).
  { destruct r; try (by left).
    - left. cbn [perform fst snd effect_next]. by destruct (String.eqb k C).
    - destruct (String.eqb_spec k C) as [->|Hne].
      + destruct (mj_get C (jr w)) eqn:Hk; [|right; right; by eexists]. left. cbn [perform fst snd effect_next]. by rewrite mj_putIfAbsent_spec, Hk.
      + left. cbn [perform fst snd effect_next]. rewrite (proj2 (String.eqb_neq k C) Hne), orb_false_r. by destruct (fst (mj_putIfAbsent _ _ _ _)).
    - destruct (is_effect q) eqn:Hq; [right; left; by exists q|]. left. cbn [perform fst snd effect_next effects trace].
      rewrite Hq, andb_true_r. split; [done|]. unfold effects. cbn [trace]. by rewrite count_if_trace_cons, Hq. }
  destruct Hcase as [[Hw He]|[(q & -> & Hq)|(v & -> & Hk)]].
  - rewrite (insert_same_won gs i g) by done. rewrite He. lia.
  - specialize (Hal Hq). pose proof (count_if_insert fst gs i g (effect_next g (RExt q) (fst (perform h (RExt q) w))) Hi) as Hcnt.
    cbn [effect_next fst] in Hcnt. rewrite Hal, Hq in Hcnt. cbn [andb negb effect_next perform fst snd] in *. rewrite Hal, Hq. cbn [andb negb].
    unfold effects in *. cbn [trace]. rewrite count_if_trace_cons, Hq. unfold claims in *. cbn [jr]. lia.
  - pose proof (count_if_insert fst gs i g (effect_next g (RPutIfAbsent C v) (fst (perform h (RPutIfAbsent C v) w))) Hi) as Hcnt.
    unfold claims in *. cbn [perform fst snd effect_next jr set_jr trace] in *. rewrite mj_putIfAbsent_spec, Hk in *. cbn [fst snd] in *.
    unfold effects in *. cbn [trace set_jr]. unfold mj_get. cbn [store]. rewrite mget_mset, String.eqb_refl, orb_true_r in *. cbn [fst] in *.
    destruct (fst g); lia.
Qed.

Lemma effect_inv_fail (h : oracle Q R wf_error) w gs i g r (e : wf_error) :
  gs !! i = Some g → effect_allowed g r → no_suspension r (Err e) → effect_inv w gs →
  effect_inv w (<[i := effect_next g r (Err e)]> gs) ∧ effect_inv (snd (perform h r w)) (<[i := effect_next g r (Err e)]> gs).
Proof.
  intros Hi Hal Hns (Hc & Hgs & Hn). assert (Hg : Forall unreleased (snd g)) by (by eapply (Forall_lookup_1 (λ g, Forall unreleased (snd g))) in Hgs).
  destruct (effect_kept h w g r Hal Hg Hc) as [Hc' Hcl]. destruct (next_err g r e) as [Hs Hf]. specialize (Hal Hg).
  pose proof (count_if_insert fst gs i g (effect_next g r (Err e)) Hi) as Hcnt.
  assert (Hgs' : Forall (λ g, Forall unreleased (snd g)) (<[i := effect_next g r (Err e)]> gs)) by (apply Forall_insert; [done|by rewrite Hs]).
  assert (Hle : count_if fst (<[i := effect_next g r (Err e)]> gs) ≤ count_if fst gs).
  { destruct (fst (effect_next g r (Err e))); [rewrite Hf in Hcnt by done; lia|lia]. }
  split; (split_and!; [done|done|]); [lia|].
  assert (Hcase : effects (snd (perform h r w)) = effects w ∨ ∃ q, r = RExt q ∧ is_effect q = true).
  { destruct r; try (by left). destruct (is_effect q) eqn:Hq; [right; by exists q|]. left. unfold effects. cbn [perform snd trace].
    by rewrite count_if_trace_cons, Hq. }
  destruct Hcase as [->|(q & -> & Hq)]; [lia|]. specialize (Hal Hq). cbn [effect_next fst] in *. rewrite Hal, Hq in *. cbn [andb negb] in *.
  unfold effects in *. cbn [perform snd trace]. rewrite count_if_trace_cons, Hq. unfold claims in *. cbn [perform snd jr] in *. lia.
Qed.

Lemma effect_inv_time w gs c x : (clock w ≤ c)%Z → effect_inv w gs → effect_inv (World (jr w) c x (trace w) (work w)) gs.
Proof. by intros _. Qed.

(** ** Programs that stay away from the claim and the effect *)

Abbreviation is_claim := (λ k, k = claim_key (rid +:+ ":wf:" +:+ sid)).
Abbreviation quiet := (keeps is_claim is_effect).
Abbreviation quiet_prog := (keeping is_claim is_effect).

Definition knows (g g' : knowledge) : Prop := snd g ⊆ snd g'.

Lemma knowledge_refl g : knows g g.
Proof. by intros x. Qed.
#[local] Hint Resolve knowledge_refl : core.

Lemma knowledge_next g r (o : answer r) : knows g (effect_next g r o).
Proof.
  destruct r; try apply knowledge_refl; cbn [effect_next].
  - destruct o; [|apply knowledge_refl]. destruct (String.eqb k C); [by apply list_subseteq_cons|apply knowledge_refl].
  - by destruct o as [[]|]; intros x.
  - by intros x.
Qed.

Lemma quiet_allowed g r : quiet r → effect_allowed g r.
Proof. intros Hr _. destruct r; try done; cbn in Hr. by rewrite Hr. Qed.

Lemma quiet_won g r (o : answer r) : quiet r → fst (effect_next g r o) = fst g.
Proof.
  destruct r; try done; cbn [quiet effect_next].
  - intros _. destruct o; [|done]. by destruct (String.eqb k C).
  - intros Hk. destruct o as [[]|]; [|done..]. cbn [fst]. by rewrite (proj2 (String.eqb_neq k C) Hk), orb_false_r.
  - intros ->. cbn [fst]. by rewrite andb_true_r.
Qed.

(** The judgement: readings accumulate; [NS] adds that no suspension is thrown. *)
Abbreviation judged := (safe_in no_suspension effect_allowed effect_next).
Definition Safe {A} (g : knowledge) (p : prog A) : Prop := judged (λ g' _, knows g g') g p.
Definition calm {A} (o : outcome wf_error A) : Prop := match o with Err e => is_suspension e = false | Ok _ => True end.
Definition NS {A} (g : knowledge) (p : prog A) : Prop := judged (λ g' o, knows g g' ∧ calm o) g p.

(** The claim is held, as far as the readings are true. *)
Definition held (g : knowledge) : Prop := Forall unreleased (snd g) → fst g = true.

Lemma knows_trans g1 g2 g3 : knows g1 g2 → knows g2 g3 → knows g1 g3.
Proof. intros H1 H2 x Hx. by apply H2, H1. Qed.

Lemma held_knows g g' : held g → knows g g' → fst g' = fst g → held g'.
Proof. intros Hh Hk Hf Hu. rewrite Hf. apply Hh. rewrite Forall_forall in *. intros v Hv. by apply Hu, Hk. Qed.

Lemma quietly_safe {A} g (p : prog A) : quiet_prog p → judged (λ g' _, knows g g' ∧ fst g' = fst g) g p.
Proof.
  revert g. induction p as [a|e|r k IH]; intros g; [done..|]. intros [Hr Hk]. split; [by apply quiet_allowed|]. intros o Ho.
  eapply safe_in_mono; [|by apply IH]. intros g' _ [H1 H2]. split; [eapply knows_trans; [apply knowledge_next|exact H1]|].
  rewrite H2. by apply quiet_won.
Qed.

Lemma quiet_Safe {A} g (p : prog A) : quiet_prog p → Safe g p.
Proof. intros Hp. eapply safe_in_mono; [|by apply quietly_safe]. by intros g' _ []. Qed.

Lemma NS_Safe {A} g (p : prog A) : NS g p → Safe g p.
Proof. apply safe_in_mono. by intros g' o []. Qed.

Lemma Safe_seq {A B} g (p : prog A) (f : A → prog B) : Safe g p → (∀ g' a, knows g g' → Safe g' (f a)) → Safe g (pbind f p).
Proof.
  intros Hp Hf. eapply safe_in_bind; [exact Hp| |by intros]. intros g' a Hk. eapply safe_in_mono; [|by apply Hf].
  intros g2 o2 H2. exact (knows_trans _ _ _ Hk H2).
Qed.

Lemma NS_bind {A B} g (p : prog A) (f : A → prog B) : NS g p → (∀ g' a, knows g g' → NS g' (f a)) → NS g (pbind f p).
Proof.
  intros Hp Hf. eapply safe_in_bind; [exact Hp| |by intros]. intros g' a [Hk _]. eapply safe_in_mono; [|by apply Hf].
  intros g2 o [H2 Ho]. split; [exact (knows_trans _ _ _ Hk H2)|done].
Qed.

Lemma Safe_caught {A} g (p : prog A) : Safe g p → Safe g (pcatch p).
Proof. intros Hp. eapply safe_in_catch; [exact Hp|by intros]. Qed.

Lemma NS_request g r : effect_allowed g r → NS g (request r).
Proof. intros Ha. split; [done|]. intros [a|e] Ho; (split; [apply knowledge_next|done]). Qed.

Lemma NS_ret {A} g (a : A) : NS g (Ret a).
Proof. done. Qed.

Lemma NS_throw {A} g e : is_suspension e = false → NS g (Throw (A := A) e).
Proof. done. Qed.

Lemma wget_calm g k : NS g (wget k : prog js).
Proof. apply NS_bind; [apply (NS_request g (RGet k)); by intros|]. intros; apply NS_ret. Qed.

(** ** The claim protocol *)

Section Protocol.
Variable caps : journal_caps.
Hypothesis Habsent : has_putIfAbsent caps = true.
Hypothesis Hcas : has_putIfMatch caps = true.
Abbreviation wf_step := (@step Q R).

Lemma own_key_not_claim : K ≠ C.
Proof.
  unfold claim_key. intros H. apply (f_equal String.length) in H. rewrite !str_length_app in H. cbn in H. lia.
Qed.

Lemma claim_calm g k v : k ≠ C ∨ unreleased v → NS g (wf_claim caps k v : prog bool).
Proof using Habsent.
  intros Hk. unfold wf_claim. rewrite Habsent. apply (NS_request g (RPutIfAbsent k v)). intros _ ->. by destruct Hk.
Qed.

Lemma settle_calm g k out : k ≠ C → NS g (settle caps k out : prog js).
Proof using Habsent.
  intros Hk. unfold settle. apply NS_bind; [apply claim_calm; by left|]. intros g1 [] _; [apply NS_ret|].
  apply NS_bind; [apply wget_calm|]. intros; apply NS_ret.
Qed.

Lemma claim_unreleased t : unreleased (claim_record t).
Proof. done. Qed.

(** A claim that is won is held. *)
Lemma claim_won g t :
  judged (λ g' o, knows g g' ∧ match o with Ok true => held g' | Ok false => True | Err e => is_suspension e = false end) g
    (wf_claim caps C (claim_record t) : prog bool).
Proof using Habsent.
  unfold wf_claim. rewrite Habsent. split; [intros _ _; apply claim_unreleased|]. intros [b|e] Ho; cbn -[claim_key].
  - destruct b; (split; [by intros x|]); [|done]. intros _. cbn [fst]. by rewrite String.eqb_refl, orb_true_r.
  - by split.
Qed.

(** A record read at the claim's key: released only against what is known. *)
Lemma claim_read {A} (post : knowledge → outcome wf_error A → Prop) g (f : js → prog A) :
  (∀ g' cur, knows g g' → cur ∈ snd g' → judged post g' (f cur)) →
  (∀ g' e, knows g g' → is_suspension e = false → post g' (Err e)) →
  judged post g (pbind f (wget C)).
Proof.
  intros Hf He. split; [by intros|]. intros [v|e] Ho; cbn -[claim_key].
  - rewrite String.eqb_refl. apply Hf; [by apply list_subseteq_cons|left].
  - by apply He.
Qed.

Definition took {A} (g g' : knowledge) (o : outcome wf_error (A + Z)) : Prop :=
  knows g g' ∧ match o with Ok (inr _) => held g' | Ok (inl _) => True | Err e => is_suspension e = false end.

Lemma took_mono {A} g g1 g' (o : outcome wf_error (A + Z)) : knows g g1 → took g1 g' o → took g g' o.
Proof. intros Hk [H1 H2]. split; [by eapply knows_trans|done]. Qed.

(** A known reading that is released contradicts what is known to be true. *)
Lemma released_absurd (g : knowledge) cur : cur ∈ snd g → js_truthy (prop cur "released") = true → ¬ Forall unreleased (snd g).
Proof. intros Hin Hr Hu. rewrite Forall_forall in Hu. specialize (Hu cur Hin). unfold unreleased in Hu. congruence. Qed.

Lemma adopt_took {A} (g : knowledge) cur t (e : wf_error) (f : unit → prog (A + Z)) :
  cur ∈ snd g → js_truthy (prop cur "released") = true → is_suspension e = false →
  (∀ g', knows g g' → judged (λ g2 o, knows g' g2 ∧ calm o) g' (f tt)) →
  judged (took g) g (pbind f (adoptClaim caps C cur (claim_record t) e)).
Proof using Hcas.
  intros Hin Hr He Hf. unfold adoptClaim. rewrite Hcas.
  assert (Habs : ∀ g' o, knows g g' → knows g g' ∧ calm (A := A + Z) o → took g g' o).
  { intros g' o Hk [_ Hc]. split; [done|]. destruct o as [[a|z]|e']; [done| |done]. intros Hu. exfalso.
    apply (released_absurd g' cur); [by apply Hk|done|done]. }
  apply (safe_in_mono _ _ _ (λ g' o, knows g g' ∧ calm o)); [intros g' o [Hk Hc]; by apply (Habs g' o Hk)|].
  eapply (safe_in_bind _ _ _ _ (λ g' o, knows g g' ∧ calm o)).
  - apply NS_bind; [apply (NS_request g (RPutIfMatch C cur (claim_record t))); by intros _ _|]. intros g1 [] _; [apply NS_ret|by apply NS_throw].
  - intros g' [] [Hk _]. eapply safe_in_mono; [|by apply Hf]. intros g2 o [H2 Ho]. split; [by eapply knows_trans|done].
  - by intros g' e' [Hk Hc].
Qed.

Variable s : wf_step.
Variable d : @durability Q R.
Hypothesis Hs : is_side_effect s = Some d.
Hypothesis Hrec : du_recover d = None.
(** The body requests the effect only while the claim is held, and throws no suspension. *)
Hypothesis Hbody : ∀ input ctx g, held g → NS g (st_run s input ctx).

Lemma take_claim_took g input : judged (took g) g (take_claim caps s d input K).
Proof using Habsent Hcas Hrec.
  unfold take_claim. rewrite Hrec.
  assert (Hclock : ∀ g, NS g (clockOf caps : prog Z)).
  { intros g0. unfold clockOf, jnow. destruct (has_now caps); [apply (NS_request g0 RNow)|apply (NS_request g0 RDateNow)]; by intros. }
  eapply safe_in_bind; [apply Hclock| |by intros g' e [Hk He]]. intros g1 at0 [H1 _].
  eapply safe_in_bind; [apply claim_won| |intros g' e [Hk He]; split; [by eapply knows_trans|done]].
  intros g2 won [H2 Hwon]. destruct won; [split; [by eapply knows_trans|done]|].
  eapply safe_in_bind; [apply wget_calm| |intros g' e [Hk He]; split; [by do 2 (eapply knows_trans; [eassumption|])|done]].
  intros g3 done_ [H3 _]. assert (Hk3 : knows g g3) by (by do 2 (eapply knows_trans; [eassumption|])).
  destruct (is_undefined done_); cbn [negb]; [|by split]. apply claim_read; [|intros g' e Hk He; split; [by eapply knows_trans|done]].
  intros g4 cur H4 Hin. eapply safe_in_bind; [apply Hclock| |intros g' e [Hk He]; split; [by do 2 (eapply knows_trans; [eassumption|])|done]].
  intros g5 at_ [H5 _]. assert (Hk5 : knows g g5) by (by do 2 (eapply knows_trans; [eassumption|])).
  destruct (js_truthy cur) eqn:Hcur; cbn [negb].
  - destruct (js_truthy (prop cur "released")) eqn:Hrel.
    + eapply safe_in_mono; [intros g' o Ht; by eapply took_mono|]. apply adopt_took; [by apply H5|done|done|]. intros g' Hk'.
      apply NS_bind; [apply wget_calm|]. intros g6 v _. by destruct (is_undefined v).
    + destruct (_ && _); by split.
  - eapply safe_in_bind; [apply claim_won| |intros g' e [Hk He]; split; [by eapply knows_trans|done]].
    intros g6 again [H6 Hag]. destruct again; (split; [by eapply knows_trans|done]).
Qed.

Lemma stamp_safe g mine e : is_suspension e = false → NS g (stamp_claim caps C mine e : prog unit).
Proof using Hcas.
  intros He. unfold stamp_claim. rewrite Hcas, He. apply NS_bind; [|intros; apply NS_ret].
  apply (NS_request g (RPutIfMatch C _ _)). by intros _ _.
Qed.

Lemma effect_step_safe g input ctx : step_key ctx (st_id s) = K → Safe g (runStep caps s input ctx).
Proof using Habsent Hcas Hs Hrec Hbody.
  intros HK. unfold runStep. rewrite HK, Hs. apply Safe_seq; [apply NS_Safe, wget_calm|]. intros g1 cached _.
  destruct (is_undefined cached); cbn [negb]; [|apply knowledge_refl]. unfold runSideEffectStep. case_match; [apply knowledge_refl|].
  eapply safe_in_bind; [apply take_claim_took| |by intros g' e []]. intros g2 t [H2 Ht]. destruct t as [out|mine]; [done|].
  assert (Hb : NS g2 (out ← st_run s input (with_key ctx K); settle caps K out)).
  { apply NS_bind; [by apply Hbody|]. intros. apply settle_calm, own_key_not_claim. }
  eapply safe_in_bind; [eapply (safe_in_catch _ _ _ (λ g' o, match o with Ok x => knows g2 g' ∧ calm x | Err _ => False end)); [exact Hb|done]| |].
  - intros g3 [out|e] [H3 Hc]; [by eapply knows_trans|]. eapply safe_in_bind.
    + eapply (safe_in_catch _ _ _ (λ g' o, match o with Ok x => knows g3 g' ∧ calm x | Err _ => False end)); [by apply stamp_safe|done].
    + intros g4 o [H4 _]. cbn. do 2 (eapply knows_trans; [eassumption|]). done.
    + by intros.
  - by intros.
Qed.

(** ** Whole runs *)

(** Where the step under study stands: at the top of a workflow or inside nested ones, among bystanders. *)
Definition inner (ctx : step_ctx) (id : string) : step_ctx :=
  withIdentity (nested (with_key ctx (step_key ctx id)) id).

Inductive placed : step_ctx → wf_step → Prop :=
| pl_effect ctx : step_key ctx (st_id s) = K → placed ctx s
| pl_bystander ctx s' : bystander is_claim is_effect s' ctx → placed ctx s'
| pl_nested ctx id w : step_key ctx id ≠ C → all_placed (inner ctx id) w → placed ctx (asStep caps id w)
with all_placed : step_ctx → list wf_step → Prop :=
| all_nil ctx : all_placed ctx []
| all_cons ctx s' w : placed ctx s' → all_placed ctx w → all_placed ctx (s' :: w).

Scheme placed_mut := Minimality for placed Sort Prop
  with all_placed_mut := Minimality for all_placed Sort Prop.
Combined Scheme placed_both from placed_mut, all_placed_mut.

Lemma nested_safe ctx id w g input :
  step_key ctx id ≠ C → (∀ g input, Safe g (run_steps caps w input (inner ctx id))) →
  Safe g (runStep caps (asStep caps id w) input ctx).
Proof using Habsent.
  intros Hk Hw. unfold runStep. cbn [st_id asStep is_side_effect st_durability st_run].
  apply Safe_seq; [apply NS_Safe, wget_calm|]. intros g1 cached _. destruct (negb (is_undefined cached)); [apply knowledge_refl|].
  apply Safe_seq; [apply Hw|]. intros. by apply quiet_Safe, keeping_settle.
Qed.

Lemma placed_safe_both :
  (∀ ctx s', placed ctx s' → ∀ g input, Safe g (runStep caps s' input ctx)) ∧
  (∀ ctx w, all_placed ctx w → ∀ g input, Safe g (run_steps caps w input ctx)).
Proof using Habsent Hcas Hs Hrec Hbody.
  apply placed_both.
  - intros ctx HK g input. by apply effect_step_safe.
  - intros ctx s' Hb g input. by apply quiet_Safe, keeping_runStep.
  - intros ctx id w Hk _ IH g input. by apply nested_safe.
  - intros ctx g input. apply knowledge_refl.
  - intros ctx s' w _ IHs _ IHw g input. apply Safe_seq; [apply IHs|]. intros; apply IHw.
Qed.

(** ** [runResumable] *)

Lemma status_not_claim : statusKey rid ≠ C.
Proof.
  unfold statusKey, claim_key. intros H. apply (f_equal String.length) in H. rewrite !str_length_app in H. cbn in H. lia.
Qed.

(** The reserved records of the run. *)
Lemma reserved_not_claim x : rid +:+ ":wf:_" +:+ x ≠ C.
Proof using Hsid.
  unfold claim_key. rewrite !str_app_assoc. intros H%str_app_inj_l. revert H Hsid. destruct sid as [|c t]; [done|].
  cbn. intros [= <-]. by destruct t.
Qed.

Lemma resume_from_safe opts i w cur ctx g :
  sc_runId ctx = rid → keeping_options is_claim is_effect opts → all_placed ctx w → Safe g (resume_from caps opts i w cur ctx).
Proof using Habsent Hcas Hs Hrec Hbody Hsid.
  intros Hr Hq Hw. revert i cur g. induction w as [|s' w IH]; intros i cur g.
  - apply quiet_Safe, keeping_bind; [rewrite Hr; apply keeping_putStatus, status_not_claim|done].
  - inversion Hw; subst. apply Safe_seq; [by apply quiet_Safe, (keeping_check_cancel _ _ rid status_not_claim reserved_not_claim)|]. intros g1 [reason|] _; [apply knowledge_refl|].
    destruct (match ro_maxSteps opts with Some n => n <=? i | None => false end); [apply knowledge_refl|].
    apply Safe_seq; [by apply Safe_caught, placed_safe_both|]. intros g2 [v|e] _; [by apply IH|].
    destruct e; try apply knowledge_refl. by apply quiet_Safe, (keeping_suspend_run _ _ rid status_not_claim reserved_not_claim).
Qed.
End Protocol.

(** ** Bodies *)

(** After the effect: no other, and no suspension. *)
Fixpoint spent {A} (p : prog A) : Prop :=
  match p with
  | Ret _ => True
  | Throw e => is_suspension e = false
  | Do r k => quiet r ∧ ∀ o, no_suspension r o → spent (k o)
  end.

(** The effect is requested at most once, and nothing suspends. *)
Fixpoint once {A} (p : prog A) : Prop :=
  match p with
  | Ret _ => True
  | Throw e => is_suspension e = false
  | Do r k => (quiet r ∧ ∀ o, no_suspension r o → once (k o)) ∨ ((∃ q, r = RExt q) ∧ ∀ o, no_suspension r o → spent (k o))
  end.

Lemma spent_kept {A} g (p : prog A) : spent p → judged (λ g' o, (knows g g' ∧ fst g' = fst g) ∧ calm o) g p.
Proof.
  revert g. induction p as [a|e|r k IH]; intros g; [done..|]. intros [Hr Hk]. split; [by apply quiet_allowed|]. intros o Ho.
  eapply safe_in_mono; [|by apply IH, Hk]. intros g' o' [[H1 H3] H2]. split_and!; [|by rewrite H3; apply quiet_won|done].
  eapply knows_trans; [apply knowledge_next|exact H1].
Qed.

Lemma spent_calm {A} g (p : prog A) : spent p → NS g p.
Proof. intros Hp. eapply safe_in_mono; [|by apply spent_kept]. by intros g' o [[]]. Qed.

Lemma spent_bind {A B} (p : prog A) (f : A → prog B) : spent p → (∀ a, spent (f a)) → spent (pbind f p).
Proof. intros Hp Hf. induction p as [a|e|r k IH]; [apply Hf|done|]. destruct Hp as [Hr Hk]. split; [done|]. intros o Ho. by apply IH, Hk. Qed.

Lemma spent_request r : quiet r → spent (request (R := R) r).
Proof. intros Hr. split; [done|]. by intros [a|e]. Qed.

(** The claim survives what does not touch it. *)
Lemma held_bind {A B} g (p : prog A) (f : A → prog B) :
  held g → spent p → (∀ g' a, held g' → NS g' (f a)) → NS g (pbind f p).
Proof.
  intros Hh Hp Hf. eapply safe_in_bind; [by apply spent_kept| |by intros g' e [[Hk _] He]]. intros g' a [[Hk Hw] _].
  eapply safe_in_mono; [|apply Hf; by eapply held_knows]. intros g2 o [H2 Ho]. split; [by eapply knows_trans|done].
Qed.

Lemma once_calm {A} g (p : prog A) : once p → held g → NS g p.
Proof.
  revert g. induction p as [a|e|r k IH]; intros g Hp Hh; [done..|].
  assert (Hkn : ∀ o, NS (effect_next g r o) (k o) → judged (λ g' o, knows g g' ∧ calm o) (effect_next g r o) (k o)).
  { intros o Hk. eapply safe_in_mono; [|exact Hk]. intros g' o' [H1 H2]. split; [eapply knows_trans; [apply knowledge_next|exact H1]|done]. }
  destruct Hp as [[Hr Hk]|[[q ->] Hk]].
  - split; [by apply quiet_allowed|]. intros o Ho. apply Hkn, IH; [by apply Hk|].
    eapply held_knows; [exact Hh|apply knowledge_next|by apply quiet_won].
  - split; [intros Hu _; by apply Hh|]. intros o Ho. by apply Hkn, spent_calm, Hk.
Qed.

Lemma attempts_not_claim ctx id : attempts_key ctx id ≠ C.
Proof.
  unfold attempts_key, claim_key. generalize (step_key ctx id). generalize K. intros a b H.
  by apply (cut_at_last_char_inj colon b a "attempts" "_claim") in H as [_ ?].
Qed.

Lemma readAttempts_spent has_counters k : spent (readAttempts has_counters k : prog (option Z)).
Proof.
  unfold readAttempts. apply spent_bind; [apply spent_bind; [by apply (spent_request (RGet k))|done]|]. intros v.
  destruct has_counters; [|done]. apply spent_bind; [by apply (spent_request (RGetCounters k))|done].
Qed.

Lemma bumpAttempts_spent has_counters k used : k ≠ C → spent (bumpAttempts has_counters k used : prog unit).
Proof.
  intros Hk. unfold bumpAttempts. destruct has_counters; [|by apply (spent_request (RPut k (JNum used)))].
  apply spent_bind; [by apply (spent_request (RGetCounters k))|]. intros c. by apply (spent_request (RIncrBy _ _)).
Qed.

Section Retry.
Variable caps : journal_caps.
Variable has_counters : bool.
Variable s : @step Q R.
Variable d : @durability Q R.
Hypothesis Hs : is_side_effect s = Some d.
Hypothesis Hrec : du_recover d = None.
Hypothesis Hbody : ∀ input ctx, once (st_run s input ctx).

Lemma retry_from_calm p input ctx left used last g : held g → NS g (retry_from has_counters s p input ctx left used last).
Proof using Hs Hrec Hbody.
  intros Hh. destruct left as [|left]; [done|]. cbn [retry_from].
  eapply safe_in_bind; [eapply (safe_in_catch _ _ _ (λ g' o, match o with Ok x => knows g g' ∧ calm x | Err _ => False end)); [by apply once_calm|done]| |by intros].
  intros g1 [v|e] [H1 Hc]; [done|]. cbn [calm] in Hc. rewrite Hc.
  eapply safe_in_mono; [|apply NS_bind; [apply spent_calm, bumpAttempts_spent, attempts_not_claim|]].
  - intros g' o [Hk Ho]. split; [by eapply knows_trans|exact Ho].
  - intros g2 _ _. unfold recover_between. by rewrite Hs, Hrec.
Qed.

Lemma retry_run_calm p input ctx g : rp_fallback p = None → held g → NS g (retry_run caps has_counters s p input ctx).
Proof using Hs Hrec Hbody.
  intros Hf Hh. unfold retry_run. apply held_bind; [done|apply readAttempts_spent|]. intros g1 [n|] H1.
  - apply NS_bind; [by apply retry_from_calm|]. intros g2 [v|[n' last]] _; [done|]. unfold after_attempts. rewrite Hf. by destruct last.
  - unfold after_attempts. by rewrite Hf.
Qed.
End Retry.

(** A step whose body requests the effect at most once, or such a step under [retry] without a fallback. *)
Inductive effect_step (s : @step Q R) : Prop :=
| es_body : (∀ input ctx, once (st_run s input ctx)) → effect_step s
| es_retry caps has_counters s0 d0 p :
    (∀ input ctx, once (st_run s0 input ctx)) → is_side_effect s0 = Some d0 → du_recover d0 = None → rp_fallback p = None →
    retry caps has_counters s0 p = Ok s → effect_step s.

Lemma effect_step_calm s input ctx g : effect_step s → held g → NS g (st_run s input ctx).
Proof.
  intros [Hb|caps hc s0 d0 p Hb Hs Hrec Hf Hr] Hh; [by apply once_calm|].
  unfold retry in Hr. destruct (rp_attempts p <? 1)%Z; [done|]. injection Hr as <-. by eapply retry_run_calm.
Qed.

(** ** The calls of the run *)

Inductive wf_call :=
| CRun (w : list (@step Q R)) (input : js) (entry : entry_ctx)
| CResume (w : list (@step Q R)) (input : js) (entry : entry_ctx) (opts : @resume_options Q R)
| COther (p : prog unit).

Definition call_prog (caps : journal_caps) (c : wf_call) : prog unit :=
  match c with
  | CRun w input entry => _ ← run_workflow caps w input entry; mret tt
  | CResume w input entry opts => _ ← runResumable caps w input entry opts; mret tt
  | COther p => p
  end.

Definition call_placed (caps : journal_caps) (s : @step Q R) (c : wf_call) : Prop :=
  match c with
  | CRun w _ entry => all_placed caps s (withIdentity entry) w
  | CResume w _ entry opts => en_runId entry = rid ∧ keeping_options is_claim is_effect opts ∧ all_placed caps s (resuming (withIdentity entry)) w
  | COther p => quiet_prog p
  end.

Lemma wf_call_safe caps s d c g :
  has_putIfAbsent caps = true → has_putIfMatch caps = true → is_side_effect s = Some d → du_recover d = None → effect_step s →
  call_placed caps s c → Safe g (call_prog caps c).
Proof using Hsid.
  intros Hpa Hcas Hs Hrec Hb Hc. assert (Hbody : ∀ input ctx g, held g → NS g (st_run s input ctx)) by (intros; by apply effect_step_calm).
  destruct c as [w input entry|w input entry opts|p]; cbn [call_prog call_placed] in *.
  - apply Safe_seq; [by eapply (placed_safe_both caps Hpa Hcas s d)|]. intros; apply knowledge_refl.
  - destruct Hc as (Hr & Hq & Hw). apply Safe_seq; [|intros; apply knowledge_refl]. unfold runResumable.
    apply Safe_seq; [cbn [withIdentity sc_runId]; rewrite Hr; by apply quiet_Safe, (keeping_deliver _ _ rid (reserved_not_claim))|]. intros g1 _ _. by eapply resume_from_safe.
  - by apply quiet_Safe.
Qed.
End Effects.

(** C7: a step declared [sideEffect] without [recover] requests its effect at most once, in every interleaving of any number
    of runs and resumes of its run (from a fresh start, after crashes, in nested workflows, under [retry]), with storage
    and callback failures before or after they take effect and clocks that jump. *)
Theorem side_effect_fires_once {Q R} (is_effect : Q → bool) rid sid caps (s : @step Q R) d calls w c' :
  starts_with "_" sid = false → has_putIfAbsent caps = true → has_putIfMatch caps = true →
  is_side_effect s = Some d → du_recover d = None → effect_step is_effect rid sid s →
  Forall (call_placed is_effect rid sid caps s) calls →
  effects is_effect w = 0 → (∀ v, mj_get (claim_key (rid +:+ ":wf:" +:+ sid)) (jr w) = Some v → unreleased v) →
  reachable_in no_suspension (map (call_prog caps) calls, w) c' →
  effects is_effect (snd c') ≤ 1.
Proof.
  intros Hsid Hpa Hcas Hs Hrec Hb Hcalls Hw Hun Hr.
  destruct (pool_safe_in no_suspension (effect_allowed is_effect rid sid) (effect_next is_effect rid sid) (effect_inv is_effect rid sid)
    (effect_inv_perform is_effect rid sid) (effect_inv_fail is_effect rid sid) (effect_inv_time is_effect rid sid)
    (λ _ _, True) _ c' (replicate (length calls) (false, [])) Hr) as (gs' & (_ & _ & Hn) & _).
  - split_and!; [exact Hun|apply Forall_replicate; by constructor|]. cbn [snd]. rewrite Hw.
    assert (Hz : ∀ n, count_if fst (replicate n (false, [] : list js)) = 0) by (induction n as [|n IH]; [done|]; by rewrite replicate_S, count_if_cons, IH).
    rewrite Hz. lia.
  - cbn [fst]. clear -Hsid Hpa Hcas Hs Hrec Hb Hcalls. induction Hcalls as [|c calls Hc _ IH]; [constructor|]. constructor; [|exact IH].
    eapply safe_in_mono; [|by eapply (wf_call_safe is_effect rid sid Hsid caps s d)]. done.
  - unfold claims in Hn. case_match; lia.
Qed.

(** Two runs and a resume of a workflow that plans, then mails. *)
Definition mails (q : string) : bool := String.eqb q "mail".
Definition mail_step : @step string js := Step "mail" (λ _ _, request (RExt "mail")) (Some (Durability true None None)).
Definition plan_step : @step string js := Step "plan" (λ _ _, request (RExt "plan")) None.
Definition mail_calls : list (@wf_call string js) :=
  [CRun [plan_step; mail_step] JNull (plain_entry "r"); CRun [plan_step; mail_step] JNull (plain_entry "r");
   CResume [plan_step; mail_step] JNull (plain_entry "r") (ResumeOptions None [("approval", JBool true)] None None)].
Definition yes : oracle string js wf_error := λ _ _, Ok (JBool true).
Definition empty_world : world js string := World empty_journal 0 0 [] empty_work.
Definition turns (n : nat) : list nat := concat (replicate n [0; 1; 2]).

Lemma mail_calls_placed : Forall (call_placed mails "r" "mail" full_caps mail_step) mail_calls.
Proof.
  assert (Hw : ∀ ctx, sc_runId ctx = "r" → sc_keyPrefix ctx = None → all_placed mails "r" "mail" full_caps mail_step ctx [plan_step; mail_step]).
  { intros [r i p rd ik st] Hr Hp. cbn in Hr, Hp. subst r p. constructor; [|constructor; [by apply pl_effect|constructor]].
    apply pl_bystander. split; [done|done| |done]. intros input c. by apply (keeping_request _ mails (RExt "plan")). }
  unfold mail_calls. rewrite !Forall_cons. split_and!; [by apply Hw|by apply Hw| |constructor]. split; [done|split; [by intros p|by apply Hw]].
Qed.

Lemma side_effect_fires_once_witness :
  effects mails (snd (schedule yes (turns 20) (map (call_prog full_caps) mail_calls, empty_world))) = 1 ∧
  effects mails (snd (schedule yes (turns 20) (map (call_prog full_caps) mail_calls, empty_world))) ≤ 1.
Proof.
  split; [vm_compute; reflexivity|].
  apply (side_effect_fires_once mails "r" "mail" full_caps mail_step (Durability true None None) mail_calls empty_world); try done.
  - apply es_body. intros input ctx. right. split; [by eexists|]. by intros [a|e].
  - apply mail_calls_placed.
  - apply schedule_reachable_in. intros r w. by destruct r.
Defined.
