(* ===== verification/WorkflowRuns.v ===== *)
(** * WorkflowRuns: what a workflow run does alone

    Theorems about module [Workflow] for one caller at a time: a run over any partial set of records replays what
    is recorded and executes the rest, exactly and in order; a limit pauses it and a later call goes on; a suspended run
    waits for its payload and completes with it; a side-effecting step that answers [undefined] is never
    released. *)

From S2P Require Import Prelude JsMap Keys Journal Work Prog Json Hash Format RunIdentity ToolTypes Workflow WorkflowFrame.

Section Runs.
Context {Q R : Type}.
Variable caps : journal_caps.
Variable h : oracle Q R wf_error.
Abbreviation world := (world js Q).
Abbreviation wf_step := (@step Q R).

(** ** Reading and claiming a key *)

Definition record_at (k : string) (w : world) : js := default JUndef (mj_get k (jr w)).

(** A claim that is won. *)
Definition write (k : string) (v : js) (w : world) : world :=
  set_jr (if has_putIfAbsent caps then snd (mj_putIfAbsent (wall w) k v (jr w)) else mj_put (wall w) k v (jr w)) w.

(** Host requests, in order. *)
Definition logged (l : list Q) (w : world) : world := World (jr w) (clock w) (wall w) (rev l ++ trace w) (work w).

Lemma run_wf_get k w : run h (wget k) w = (Ok (record_at k w), w).
Proof. done. Qed.

Lemma record_some k v w : mj_get k (jr w) = Some v → record_at k w = v.
Proof. unfold record_at. by intros ->. Qed.

Lemma record_none k w : mj_get k (jr w) = None → record_at k w = JUndef.
Proof. unfold record_at. by intros ->. Qed.

Lemma mj_get_write k k' v w : mj_get k (jr w) = None → mj_get k' (jr (write k v w)) = if String.eqb k' k then Some v else mj_get k' (jr w).
Proof.
  intros Hk. unfold write. cbn [jr set_jr]. destruct (has_putIfAbsent caps).
  - rewrite mj_putIfAbsent_spec, Hk. cbn [snd]. unfold mj_get at 1. cbn [store]. apply mget_mset_cases.
  - unfold mj_get at 1, mj_put. cbn [store]. apply mget_mset_cases.
Qed.

Lemma trace_write k v w : trace (write k v w) = trace w.
Proof. done. Qed.

Lemma run_claim_won k v w : mj_get k (jr w) = None → run h (wf_claim caps k v) w = (Ok true, write k v w).
Proof.
  intros Hk. unfold wf_claim, write. destruct (has_putIfAbsent caps).
  - unfold jputIfAbsent. rewrite (run_request h (RPutIfAbsent k v)). cbn [perform]. by rewrite mj_putIfAbsent_spec, Hk.
  - run_step. rewrite run_wf_get. unfold record_at. by rewrite Hk.
Qed.

Lemma run_settle k v w : mj_get k (jr w) = None → run h (settle caps k v) w = (Ok v, write k v w).
Proof. intros Hk. unfold settle. run_step. by rewrite run_claim_won. Qed.

Lemma run_clock w : ∃ t, run h (clockOf caps) w = (Ok t, w).
Proof. unfold clockOf, jnow. destruct (has_now caps); by eexists. Qed.

(** ** Steps whose bodies compute *)

Variable out : wf_step → js → js.             (** the output of a step for an input *)
Variable asks : wf_step → js → list Q.        (** the host requests of its body *)

(** The body answers [out], which is defined, after the requests [asks]. *)
Definition computes (s : wf_step) : Prop :=
  ∀ input c w, run h (st_run s input c) w = (Ok (out s input), logged (asks s input) w) ∧ out s input ≠ JUndef.

Definition key_of (ctx : step_ctx) (s : wf_step) : string := step_key ctx (st_id s).

Definition strict_ok (ctx : step_ctx) (d : @durability Q R) : Prop := sc_strict ctx = true → is_Some (du_recover d).

(** What the journal may hold about a step: its output, or nothing and no claim. *)
Definition fits (j : mem_journal js) (ctx : step_ctx) (s : wf_step) (cur : js) : Prop :=
  match mj_get (key_of ctx s) j with
  | Some v => v = out s cur
  | None => ∀ d, is_side_effect s = Some d → mj_get (claim_key (key_of ctx s)) j = None ∧ strict_ok ctx d
  end.

Fixpoint consistent (j : mem_journal js) (ctx : step_ctx) (ss : list wf_step) (cur : js) : Prop :=
  match ss with
  | [] => True
  | s :: ss' => fits j ctx s cur ∧ consistent j ctx ss' (out s cur)
  end.

Definition pending (j : mem_journal js) (ctx : step_ctx) (s : wf_step) : bool :=
  match mj_get (key_of ctx s) j with Some _ => false | None => true end.

(** What is asked of the host: the bodies of the steps that are not recorded, in order. *)
Fixpoint fired (j : mem_journal js) (ctx : step_ctx) (ss : list wf_step) (cur : js) : list Q :=
  match ss with
  | [] => []
  | s :: ss' => (if pending j ctx s then asks s cur else []) ++ fired j ctx ss' (out s cur)
  end.

Definition final (ss : list wf_step) (cur : js) : js := fold_left (λ v s, out s v) ss cur.

(** Every step is recorded with its output. *)
Fixpoint recorded (j : mem_journal js) (ctx : step_ctx) (ss : list wf_step) (cur : js) : Prop :=
  match ss with
  | [] => True
  | s :: ss' => mj_get (key_of ctx s) j = Some (out s cur) ∧ recorded j ctx ss' (out s cur)
  end.

(** No two of the keys that the steps use are equal. *)
Definition step_keys (ss : list wf_step) : list string := concat (map (λ s, [st_id s; claim_key (st_id s)]) ss).

Lemma step_key_inj ctx a b : step_key ctx a = step_key ctx b → a = b.
Proof. unfold step_key. by intros H%str_app_inj_l%(str_app_inj_l ":wf:")%str_app_inj_l. Qed.

Lemma claim_of_step ctx id : claim_key (step_key ctx id) = step_key ctx (claim_key id).
Proof. unfold claim_key, step_key. by rewrite !str_app_assoc. Qed.

(** What executing [ss] from [cur] does to the world. *)
Record advanced (ctx : step_ctx) (ss : list wf_step) (cur : js) (w w' : world) : Prop := Advanced {
  adv_trace : trace w' = rev (fired (jr w) ctx ss cur) ++ trace w;
  adv_recorded : recorded (jr w') ctx ss cur;
  adv_frame : ∀ k, k ∉ map (step_key ctx) (step_keys ss) → mj_get k (jr w') = mj_get k (jr w);
}.

Lemma defined_test v : v ≠ JUndef → is_undefined v = false.
Proof. by destruct v. Qed.

(** ** One step *)

Lemma run_take_claim s d input key w :
  mj_get (claim_key key) (jr w) = None →
  ∃ t, run h (take_claim caps s d input key) w = (Ok (inr t), write (claim_key key) (claim_record t) w).
Proof.
  intros Hc. destruct (run_clock w) as [t Ht]. exists t. unfold take_claim. run_step. rewrite Ht. run_step. by rewrite run_claim_won.
Qed.

Lemma own_not_claim k : k ≠ claim_key k.
Proof. unfold claim_key. intros H. apply (f_equal String.length) in H. rewrite str_length_app in H. cbn in H. lia. Qed.

Lemma run_body s input c key w :
  computes s → mj_get key (jr w) = None →
  run h (pbind (λ o, settle caps key o) (st_run s input c)) w = (Ok (out s input), write key (out s input) (logged (asks s input) w)).
Proof. intros Hb Hk. rewrite run_bind, (proj1 (Hb input c w)). by rewrite run_settle. Qed.

Lemma run_one ctx s cur w :
  computes s → fits (jr w) ctx s cur →
  ∃ w', run h (runStep caps s cur ctx) w = (Ok (out s cur), w') ∧ advanced ctx [s] cur w w'.
Proof.
  intros Hb Hf. unfold runStep. run_step. rewrite run_wf_get. fold (key_of ctx s). unfold fits in Hf. unfold record_at.
  destruct (mj_get (key_of ctx s) (jr w)) as [v|] eqn:Hk; cbn [default].
  - subst v. exists w. rewrite defined_test by apply (proj2 (Hb cur ctx w)).
    split; [done|]. split; [|by split|done]. cbn. unfold pending. by rewrite Hk.
  - cbn [is_undefined negb]. assert (Htr : trace w = trace w) by done.
    assert (Hadv : ∀ w1, mj_get (key_of ctx s) (jr w1) = None → trace w1 = trace w →
      (∀ k, k ∉ map (step_key ctx) (step_keys [s]) → mj_get k (jr w1) = mj_get k (jr w)) →
      advanced ctx [s] cur w (write (key_of ctx s) (out s cur) (logged (asks s cur) w1))).
    { intros w1 H1 Ht Hfr. split.
      - rewrite trace_write. cbn [logged trace fired]. unfold pending. by rewrite Hk, app_nil_r, Ht.
      - split; [|done]. rewrite mj_get_write by exact H1. by rewrite String.eqb_refl.
      - intros k Hk'. rewrite mj_get_write by exact H1. destruct (String.eqb_spec k (key_of ctx s)) as [->|]; [|by apply Hfr].
        destruct Hk'. left. }
    destruct (is_side_effect s) as [d|].
    + destruct (Hf d eq_refl) as [Hc Hst]. unfold runSideEffectStep. cbn [sc_strict with_key].
      assert (Hg : sc_strict ctx && negb (bool_decide (is_Some (du_recover d))) = false).
      { unfold strict_ok in Hst. destruct (sc_strict ctx); [|done]. rewrite bool_decide_eq_true_2 by (by apply Hst). done. }
      rewrite Hg. destruct (run_take_claim s d cur (key_of ctx s) w Hc) as [t Ht]. run_step. rewrite Ht. cbn -[claim_key].
      set (w1 := write _ _ w).
      assert (H1 : mj_get (key_of ctx s) (jr w1) = None).
      { unfold w1. rewrite mj_get_write by exact Hc. rewrite (proj2 (String.eqb_neq _ _) (own_not_claim _)). exact Hk. }
      unfold mbind, prog_bind. rewrite run_bind, run_catch, run_body by done. cbn [fst snd]. eexists. split; [done|].
      apply Hadv; [done|done|]. intros k Hk'. unfold w1. rewrite mj_get_write by exact Hc.
      destruct (String.eqb_spec k (claim_key (key_of ctx s))) as [->|]; [|done]. destruct Hk'. cbn [map step_keys concat app].
      rewrite <- claim_of_step. right; left.
    + rewrite run_body by done. eexists. split; [done|]. by apply Hadv.
Qed.

(** ** Sequences *)

Lemma frame_fits j j' ctx s cur :
  mj_get (key_of ctx s) j' = mj_get (key_of ctx s) j → mj_get (claim_key (key_of ctx s)) j' = mj_get (claim_key (key_of ctx s)) j →
  fits j ctx s cur → fits j' ctx s cur.
Proof. intros H1 H2. unfold fits. by rewrite H1, H2. Qed.

Definition same_records (ctx : step_ctx) (ss : list wf_step) (j j' : mem_journal js) : Prop :=
  ∀ k, k ∈ map (step_key ctx) (step_keys ss) → mj_get k j' = mj_get k j.

Lemma same_records_cons ctx s ss j j' :
  same_records ctx (s :: ss) j j' →
  mj_get (key_of ctx s) j' = mj_get (key_of ctx s) j ∧ mj_get (claim_key (key_of ctx s)) j' = mj_get (claim_key (key_of ctx s)) j ∧
  same_records ctx ss j j'.
Proof.
  intros H. split_and!; [apply H; left| |].
  - apply H. cbn [step_keys map concat app]. unfold key_of. rewrite claim_of_step. right; left.
  - intros k Hk. apply H. cbn [step_keys map concat app]. by right; right.
Qed.

Lemma consistent_same ctx ss j j' cur : same_records ctx ss j j' → consistent j ctx ss cur → consistent j' ctx ss cur.
Proof.
  revert cur. induction ss as [|s ss IH]; intros cur Hsr; [done|]. intros [Hf Hc].
  apply same_records_cons in Hsr as (H1 & H2 & H3). split; [by eapply frame_fits|by apply IH].
Qed.

Lemma fired_same ctx ss j j' cur : same_records ctx ss j j' → fired j' ctx ss cur = fired j ctx ss cur.
Proof.
  revert cur. induction ss as [|s ss IH]; intros cur Hsr; [done|]. apply same_records_cons in Hsr as (H1 & H2 & H3).
  cbn [fired]. unfold pending. by rewrite H1, IH.
Qed.

Lemma recorded_same ctx ss j j' cur : same_records ctx ss j j' → recorded j ctx ss cur → recorded j' ctx ss cur.
Proof.
  revert cur. induction ss as [|s ss IH]; intros cur Hsr; [done|]. intros [Hf Hc].
  apply same_records_cons in Hsr as (H1 & H2 & H3). split; [by rewrite H1|by apply IH].
Qed.

Lemma step_keys_app a b : step_keys (a ++ b) = step_keys a ++ step_keys b.
Proof. unfold step_keys. by rewrite map_app, concat_app. Qed.

(** Keys of other steps are out of the way. *)
Lemma frame_apart ctx a b w w' cur :
  NoDup (step_keys (a ++ b)) → advanced ctx a cur w w' → same_records ctx b (jr w) (jr w').
Proof.
  intros Hnd Ha k Hk. apply (adv_frame _ _ _ _ _ Ha). intros Hin. rewrite step_keys_app in Hnd. apply NoDup_app in Hnd as (_ & Hd & _).
  apply list_elem_of_fmap in Hk as (x & -> & Hx). apply list_elem_of_fmap in Hin as (y & Hy & Hin). apply step_key_inj in Hy as <-.
  by eapply Hd.
Qed.

Lemma advanced_nil ctx cur w : advanced ctx [] cur w w.
Proof. by split. Qed.

Lemma final_app a b cur : final (a ++ b) cur = final b (final a cur).
Proof. apply fold_left_app. Qed.

Lemma fired_app j ctx a b cur : fired j ctx (a ++ b) cur = fired j ctx a cur ++ fired j ctx b (final a cur).
Proof. revert cur. induction a as [|s a IH]; intros cur; [done|]. cbn [fired app]. rewrite IH, app_assoc. done. Qed.

Lemma recorded_app j ctx a b cur : recorded j ctx (a ++ b) cur ↔ recorded j ctx a cur ∧ recorded j ctx b (final a cur).
Proof using. clear asks. revert cur. induction a as [|s a IH]; intros cur; cbn; [tauto|]. rewrite IH. unfold final. cbn. tauto. Qed.

Lemma consistent_app j ctx a b cur : consistent j ctx (a ++ b) cur ↔ consistent j ctx a cur ∧ consistent j ctx b (final a cur).
Proof using. clear asks. revert cur. induction a as [|s a IH]; intros cur; cbn; [tauto|]. rewrite IH. unfold final. cbn. tauto. Qed.

Lemma advanced_trans ctx a b cur w w1 w2 :
  NoDup (step_keys (a ++ b)) → advanced ctx a cur w w1 → advanced ctx b (final a cur) w1 w2 → advanced ctx (a ++ b) cur w w2.
Proof.
  intros Hnd Ha Hb. pose proof (frame_apart ctx a b w w1 cur Hnd Ha) as Hsr. destruct Hb as [Ht2 Hr2 Hf2]. split.
  - rewrite Ht2, (adv_trace _ _ _ _ _ Ha), fired_app, rev_app_distr, app_assoc. by rewrite (fired_same _ _ _ _ _ Hsr).
  - apply recorded_app. split; [|done]. eapply recorded_same; [|exact (adv_recorded _ _ _ _ _ Ha)]. intros k Hk. apply Hf2.
    intros Hin. rewrite step_keys_app in Hnd. apply NoDup_app in Hnd as (_ & Hd & _).
    apply list_elem_of_fmap in Hk as (x & -> & Hx). apply list_elem_of_fmap in Hin as (y & Hy & Hin). apply step_key_inj in Hy as <-. by eapply Hd.
  - intros k Hk. rewrite step_keys_app, map_app, not_elem_of_app in Hk. rewrite Hf2 by tauto. apply (adv_frame _ _ _ _ _ Ha). tauto.
Qed.

(** ** Reserved records *)

(** A run started at the top, whose step ids do not look like the reserved ones. *)
Definition top (ctx : step_ctx) (ss : list wf_step) : Prop :=
  sc_keyPrefix ctx = None ∧ Forall (λ s, starts_with "_" (st_id s) = false) ss.

Lemma reserved_apart ctx ss x : top ctx ss → sc_runId ctx +:+ ":wf:_" +:+ x ∉ map (step_key ctx) (step_keys ss).
Proof.
  intros [Hp Hs] (id & Hk & Hin)%list_elem_of_fmap. unfold step_key, prefix_of in Hk. rewrite Hp in Hk. cbn [default] in Hk.
  apply str_app_inj_l in Hk. assert (Hid : starts_with "_" id = false).
  { clear Hk. induction Hs as [|s ss Hs _ IH]; [by apply elem_of_nil in Hin|]. cbn in Hin.
    apply elem_of_cons in Hin as [->|[->|Hin]%elem_of_cons]; [done| |by apply IH]. unfold claim_key. by destruct (st_id s) as [|[[] [] [] [] [] [] [] []] [|]]. }
  destruct id as [|c id]; [done|]. cbn in Hk. injection Hk as <- Hk. done.
Qed.

Lemma status_apart ctx ss : statusKey (sc_runId ctx) ∉ map (step_key ctx) ss.
Proof.
  intros (id & Hk & _)%list_elem_of_fmap. apply (f_equal colons) in Hk. unfold statusKey, step_key in Hk. rewrite !colons_app in Hk. change (colons "wfrun:") with 1 in Hk. change (colons ":wf:") with 2 in Hk. lia.
Qed.

Lemma canceled_not_status runId : canceledKey runId ≠ statusKey runId.
Proof.
  intros Heq. apply (f_equal colons) in Heq. unfold canceledKey, statusKey in Heq. rewrite !colons_app in Heq.
  change (colons "wfrun:") with 1 in Heq. change (colons ":wf:_canceled") with 2 in Heq. lia.
Qed.

Lemma put_same ctx ss now k v (w : world) : k ∉ map (step_key ctx) (step_keys ss) → same_records ctx ss (jr w) (mj_put now k v (jr w)).
Proof. intros Hk k' Hin. apply mj_get_put_ne. by intros ->. Qed.

Lemma same_trans ctx ss j1 j2 j3 : same_records ctx ss j1 j2 → same_records ctx ss j2 j3 → same_records ctx ss j1 j3.
Proof. intros H1 H2 k Hk. by rewrite H2, H1. Qed.

Lemma run_putStatus runId fields name w :
  run h (putStatus runId fields name) w =
    (Ok tt, set_jr (mj_put (wall w) (statusKey runId) (status_record runId fields name (wall w)) (jr w)) w).
Proof. done. Qed.

(** Payloads are delivered beside the records of the steps. *)
Lemma run_deliver ctx ss ps w :
  top ctx ss →
  ∃ w', run h (deliver (sc_runId ctx) ps) w = (Ok tt, w') ∧ trace w' = trace w ∧ same_records ctx ss (jr w) (jr w') ∧
    record_at (canceledKey (sc_runId ctx)) w' = record_at (canceledKey (sc_runId ctx)) w.
Proof.
  intros Ht. revert w. induction ps as [|[waitId v] ps IH]; intros w; [by eexists|].
  cbn [deliver]. run_step. unfold jput. rewrite (run_request h (RPut (resumeKey (sc_runId ctx) waitId) v)). cbn [perform].
  destruct (IH (set_jr (mj_put (wall w) (resumeKey (sc_runId ctx) waitId) v (jr w)) w)) as (w' & Hr & Htr & Hs & Hc). exists w'. split_and!.
  - exact Hr.
  - by rewrite Htr.
  - eapply same_trans; [|exact Hs]. apply put_same. by apply (reserved_apart ctx ss ("resume:" +:+ waitId)).
  - rewrite Hc. unfold record_at. cbn [jr set_jr]. rewrite mj_get_put_ne; [done|]. unfold canceledKey, resumeKey. by intros H%str_app_inj_l.
Qed.

(** ** [runResumable] *)

Definition not_canceled (runId : string) (w : world) : Prop := record_at (canceledKey runId) w = JUndef.

Lemma run_check_cancel ctx id opts w :
  not_canceled (sc_runId ctx) w → ro_signal opts = None → run h (check_cancel ctx id opts) w = (Ok None, w).
Proof. intros Hn Hs. unfold check_cancel. run_step. rewrite run_wf_get. rewrite Hn, Hs. done. Qed.

Lemma advanced_canceled ctx ss cur w w' : top ctx ss → advanced ctx ss cur w w' → not_canceled (sc_runId ctx) w → not_canceled (sc_runId ctx) w'.
Proof. intros Ht Ha Hn. unfold not_canceled, record_at. rewrite (adv_frame _ _ _ _ _ Ha); [done|]. by apply (reserved_apart ctx ss "canceled"). Qed.

Definition limit_at_least (opts : @resume_options Q R) (n : nat) : Prop := match ro_maxSteps opts with Some m => n ≤ m | None => True end.

(** The first steps of a resumable run, up to what follows them. *)
Lemma resume_prefix opts ctx a rest i cur w :
  Forall computes a → NoDup (step_keys a) → top ctx a → consistent (jr w) ctx a cur →
  not_canceled (sc_runId ctx) w → ro_signal opts = None → limit_at_least opts (i + length a) →
  ∃ w', advanced ctx a cur w w' ∧
    run h (resume_from caps opts i (a ++ rest) cur ctx) w = run h (resume_from caps opts (i + length a) rest (final a cur) ctx) w'.
Proof.
  intros Hc Hnd Ht Hf Hn Hs. revert i cur w Hf Hn. induction a as [|s a IH]; intros i cur w Hf Hn Hl.
  - exists w. split; [apply advanced_nil|]. cbn [length app final fold_left]. by rewrite Nat.add_0_r.
  - apply Forall_cons in Hc as [Hcs Hc]. destruct Hf as [Hfs Hf]. destruct Ht as [Htp Hts]. apply Forall_cons in Hts as [Hid Hts].
    destruct (run_one ctx s cur w Hcs Hfs) as (w1 & Hr & Ha).
    assert (Hnd' : NoDup (step_keys a)) by (apply (NoDup_app (step_keys [s])); by rewrite <- step_keys_app).
    assert (Hn1 : not_canceled (sc_runId ctx) w1) by (eapply advanced_canceled; [|exact Ha|done]; split; [done|by repeat constructor]).
    destruct (IH Hc Hnd' (conj Htp Hts) (S i) (out s cur) w1) as (w2 & Ha2 & Hr2); [|done|by rewrite Nat.add_succ_comm|].
    + eapply consistent_same; [|exact Hf]. by apply (frame_apart ctx [s] a w w1 cur).
    + exists w2. split; [by apply (advanced_trans ctx [s] a cur w w1 w2)|].
      cbn [resume_from app]. run_step. rewrite run_check_cancel by done.
      assert (Hlim : match ro_maxSteps opts with Some n => n <=? i | None => false end = false).
      { unfold limit_at_least in Hl. destruct (ro_maxSteps opts); [|done]. apply Nat.leb_gt. cbn [length] in Hl. lia. }
      rewrite Hlim, run_bind, run_catch, Hr. cbn [fst snd]. rewrite Hr2. cbn [length final fold_left]. by rewrite Nat.add_succ_comm.
Qed.

Definition ran (opts : @resume_options Q R) (ss : list wf_step) : nat := match ro_maxSteps opts with Some n => n `min` length ss | None => length ss end.

(** What a call answers when nothing waits and nobody canceled. *)
Definition answer (opts : @resume_options Q R) (ss : list wf_step) (input : js) : wf_result :=
  match ss !! ran opts ss with
  | Some s => Paused (st_id s) (final (take (ran opts ss) ss) input)
  | None => Completed (final ss input)
  end.

Lemma NoDup_keys_take n ss : NoDup (step_keys ss) → NoDup (step_keys (take n ss)).
Proof. intros Hn. rewrite <- (take_drop n ss), step_keys_app in Hn. by apply NoDup_app in Hn as (? & _). Qed.

Lemma consistent_take j ctx n ss cur : consistent j ctx ss cur → consistent j ctx (take n ss) cur.
Proof. intros Hn. rewrite <- (take_drop n ss) in Hn. by apply consistent_app in Hn as (? & _). Qed.

Lemma top_take ctx n ss : top ctx ss → top ctx (take n ss).
Proof. intros [? ?]. split; [done|]. by apply Forall_take. Qed.

Lemma take_keys n ss k : k ∈ step_keys (take n ss) → k ∈ step_keys ss.
Proof. intros Hk. rewrite <- (take_drop n ss), step_keys_app. apply elem_of_app. by left. Qed.

Lemma same_take ctx n ss j j' : same_records ctx ss j j' → same_records ctx (take n ss) j j'.
Proof.
  intros Hs k (x & -> & Hx)%list_elem_of_fmap. apply Hs, list_elem_of_fmap. exists x. split; [done|]. by eapply take_keys.
Qed.

Lemma recorded_consistent j ctx ss cur : recorded j ctx ss cur → consistent j ctx ss cur.
Proof. revert cur. induction ss as [|s ss IH]; intros cur; [done|]. intros [H1 H2]. split; [unfold fits; by rewrite H1|by apply IH]. Qed.

(** What follows the steps that a call may run. *)
Lemma resume_rest opts ctx ss input w :
  not_canceled (sc_runId ctx) w → ro_signal opts = None →
  ∃ w', run h (resume_from caps opts (ran opts ss) (drop (ran opts ss) ss) (final (take (ran opts ss) ss) input) ctx) w =
      (Ok (answer opts ss input), w') ∧
    trace w' = trace w ∧ same_records ctx ss (jr w) (jr w') ∧ not_canceled (sc_runId ctx) w'.
Proof.
  intros Hn Hs. unfold answer. destruct (ss !! ran opts ss) as [s|] eqn:Hl.
  - rewrite (drop_S ss s) by done. cbn [resume_from]. exists w. run_step. rewrite run_check_cancel by done.
    assert (Hm : match ro_maxSteps opts with Some n => n <=? ran opts ss | None => false end = true).
    { apply lookup_lt_Some in Hl. unfold ran in *. destruct (ro_maxSteps opts) as [m|]; [|lia]. apply Nat.leb_le. lia. }
    by rewrite Hm.
  - apply lookup_ge_None in Hl. rewrite drop_ge, take_ge by done. cbn [resume_from].
    run_step. rewrite run_putStatus.
    eexists. split; [done|]. split_and!; [done|apply put_same, status_apart|]. unfold not_canceled, record_at in *. cbn [jr set_jr].
    by rewrite mj_get_put_ne by apply canceled_not_status.
Qed.

Lemma resume_whole ss input entry opts w :
  let ctx := resuming (withIdentity entry) in
  let n := ran opts ss in
  Forall computes ss → NoDup (step_keys ss) → top ctx ss → consistent (jr w) ctx ss input →
  not_canceled (en_runId entry) w → ro_signal opts = None →
  ∃ w', run h (runResumable caps ss input entry opts) w = (Ok (answer opts ss input), w') ∧
    trace w' = rev (fired (jr w) ctx (take n ss) input) ++ trace w ∧
    recorded (jr w') ctx (take n ss) input ∧ consistent (jr w') ctx ss input ∧ not_canceled (en_runId entry) w'.
Proof.
  intros ctx n Hc Hnd Ht Hf Hn Hs. unfold runResumable. fold ctx.
  destruct (run_deliver ctx ss (ro_resume opts) w Ht) as (w1 & Hd & Ht1 & Hs1 & Hn1). run_step. change (sc_runId (withIdentity entry)) with (sc_runId ctx). rewrite Hd.
  assert (Hf1 : consistent (jr w1) ctx ss input) by (by eapply consistent_same).
  destruct (resume_prefix opts ctx (take n ss) (drop n ss) 0 input w1) as (w2 & Ha & Hr).
  { by apply Forall_take. } { by apply NoDup_keys_take. } { by apply top_take. } { by apply consistent_take. } { by unfold not_canceled; rewrite Hn1. } { done. }
  { unfold limit_at_least, n, ran. rewrite length_take. destruct (ro_maxSteps opts); [lia|done]. }
  rewrite take_drop in Hr. rewrite Hr. assert (Hlen : 0 + length (take n ss) = n) by (rewrite length_take; unfold n, ran; destruct (ro_maxSteps opts); lia).
  rewrite Hlen. destruct (resume_rest opts ctx ss input w2) as (w3 & Hr3 & Ht3 & Hs3 & Hn3); [|done|].
  { eapply advanced_canceled; [by apply (top_take ctx n ss)|exact Ha|]. by unfold not_canceled; rewrite Hn1. }
  change (ran opts ss) with n in Hr3. rewrite Hr3. exists w3. split; [done|].
  assert (Hrec : recorded (jr w3) ctx (take n ss) input) by (eapply recorded_same; [by apply same_take|]; by destruct Ha).
  split_and!; [|done| |done].
  - rewrite Ht3, (adv_trace _ _ _ _ _ Ha), Ht1. f_equal. f_equal. by apply fired_same, same_take.
  - rewrite <- (take_drop n ss). apply consistent_app. split; [by apply recorded_consistent|].
    rewrite <- (take_drop n ss) in Hf1. apply consistent_app in Hf1 as [_ Hf1]. eapply consistent_same; [|exact Hf1].
    eapply same_trans; [apply (frame_apart ctx (take n ss) (drop n ss) w1 w2 input); [by rewrite take_drop|exact Ha]|].
    intros k Hk. apply Hs3. rewrite <- (take_drop n ss), step_keys_app, map_app. apply elem_of_app. by right.
Qed.

(** C9: alone, on any journal that holds the outputs of some of the steps and no trace of the others (a fresh run, a crashed one, a
    paused one), [runResumable] asks the host exactly what the unrecorded steps within its limit ask, in order,
    answers what an uninterrupted run would, or the next step and the value so far when the limit ends it, records
    every step it passed, and leaves a journal from which a later call continues. *)
Theorem resume_exact ss input entry opts w :
  let ctx := resuming (withIdentity entry) in
  let n := ran opts ss in
  Forall computes ss → NoDup (step_keys ss) → top ctx ss → consistent (jr w) ctx ss input →
  not_canceled (en_runId entry) w → ro_signal opts = None →
  ∃ w', run h (runResumable caps ss input entry opts) w = (Ok (answer opts ss input), w') ∧
    trace w' = rev (fired (jr w) ctx (take n ss) input) ++ trace w ∧
    recorded (jr w') ctx (take n ss) input ∧ consistent (jr w') ctx ss input ∧ not_canceled (en_runId entry) w'.
Proof. exact (resume_whole ss input entry opts w). Qed.

(** ** Waiting for a payload *)

Lemma fired_recorded j ctx ss cur : recorded j ctx ss cur → fired j ctx ss cur = [].
Proof. revert cur. induction ss as [|s ss IH]; intros cur; [done|]. intros [H1 H2]. cbn [fired]. unfold pending. by rewrite H1, IH. Qed.

Definition waiting_reason (reason : js) : js := or_else reason (JObj [("kind", JStr "resume")]).

Lemma run_plain ctx s cur w :
  is_side_effect s = None → record_at (key_of ctx s) w = JUndef →
  run h (runStep caps s cur ctx) w =
    match run h (st_run s cur (with_key ctx (key_of ctx s))) w with
    | (Ok o, w1) => run h (settle caps (key_of ctx s) o) w1
    | (Err e, w1) => (Err e, w1)
    end.
Proof.
  intros Hs Hk. unfold runStep. run_step. rewrite run_wf_get. fold (key_of ctx s). rewrite Hk, Hs. cbn [is_undefined negb]. by rewrite run_bind.
Qed.

Lemma run_wait_missing ctx wid validate reason cur w :
  sc_resumeData ctx = true → record_at (step_key ctx wid) w = JUndef → record_at (resumeKey (sc_runId ctx) wid) w = JUndef →
  run h (runStep caps (waitForResume wid validate reason) cur ctx) w = (Err (ESuspended wid (waiting_reason reason)), w).
Proof.
  intros Hrd Hk Hp. rewrite run_plain by done. cbn [st_run waitForResume]. unfold resumeData. cbn [sc_resumeData with_key sc_runId].
  run_step. by rewrite Hrd, run_wf_get, Hp.
Qed.

Definition accepts (validate : option (js → outcome wf_error js)) (v v' : js) : Prop :=
  match validate with Some f => f v = Ok v' | None => v' = v end ∧ v ≠ JUndef.

Lemma run_wait_answered ctx wid validate reason cur v v' w :
  sc_resumeData ctx = true → mj_get (step_key ctx wid) (jr w) = None → record_at (resumeKey (sc_runId ctx) wid) w = v → accepts validate v v' →
  run h (runStep caps (waitForResume wid validate reason) cur ctx) w = (Ok v', write (step_key ctx wid) v' w).
Proof.
  intros Hrd Hk Hp [Hv Hu]. rewrite run_plain; [|done|unfold record_at, key_of; cbn [st_id waitForResume]; by rewrite Hk].
  cbn [st_run waitForResume]. unfold resumeData. cbn [sc_resumeData with_key sc_runId].
  run_step. rewrite Hrd, run_wf_get, Hp, defined_test by done. destruct validate; rewrite Hv; by apply run_settle.
Qed.

(** The status of a run, as [getWorkflowRunStatus] reads it. *)
Definition status_of (runId : string) (w : world) : js := prop (record_at (statusKey runId) w) "status".

Lemma run_suspend_run ctx ss id wid reason opts w :
  top ctx ss →
  ∃ w', run h (suspend_run ctx id wid reason opts) w = (Ok (Waiting id wid reason), w') ∧ trace w' = trace w ∧
    same_records ctx ss (jr w) (jr w') ∧ (not_canceled (sc_runId ctx) w → not_canceled (sc_runId ctx) w') ∧
    status_of (sc_runId ctx) w' = JStr "suspended".
Proof.
  intros Ht. unfold suspend_run. run_step. unfold jput. rewrite (run_request h (RPut _ _)). cbn [perform].
  set (w1 := set_jr _ w). rewrite run_bind, run_putStatus. eexists. split; [done|]. split_and!; [done| | |].
  - eapply same_trans; [|apply put_same, status_apart]. apply put_same. by apply (reserved_apart ctx ss "suspend").
  - unfold not_canceled, record_at. cbn [jr set_jr]. rewrite mj_get_put_ne by apply canceled_not_status. unfold w1. cbn [jr set_jr].
    rewrite mj_get_put_ne; [done|]. unfold canceledKey, suspendKey. by intros H%str_app_inj_l.
  - unfold status_of, record_at. cbn [jr set_jr]. by rewrite mj_get_put.
Qed.

Section Approval.
Variable pre post : list wf_step.
Variable wid : string.
Variable validate : option (js → outcome wf_error js).
Variable reason : js.
Abbreviation wait := (waitForResume (Q := Q) (R := R) wid validate reason).
Abbreviation ss := (pre ++ wait :: post).
Hypothesis Hpre : Forall computes pre.
Hypothesis Hpost : Forall computes post.
Hypothesis Hnd : NoDup (step_keys ss).

Lemma no_limit (opts : @resume_options Q R) i : ro_maxSteps opts = None → match ro_maxSteps opts with Some n => n <=? i | None => false end = false.
Proof. by intros ->. Qed.

(** The wait suspends the run, after the steps before it. *)
Lemma run_until_wait ctx opts input w :
  top ctx ss → sc_resumeData ctx = true → ro_maxSteps opts = None → ro_signal opts = None →
  consistent (jr w) ctx pre input → not_canceled (sc_runId ctx) w →
  record_at (step_key ctx wid) w = JUndef → record_at (resumeKey (sc_runId ctx) wid) w = JUndef →
  ∃ w', run h (resume_from caps opts 0 ss input ctx) w = (Ok (Waiting wid wid (waiting_reason reason)), w') ∧
    trace w' = rev (fired (jr w) ctx pre input) ++ trace w ∧ recorded (jr w') ctx pre input ∧
    same_records ctx (wait :: post) (jr w) (jr w') ∧ not_canceled (sc_runId ctx) w' ∧ status_of (sc_runId ctx) w' = JStr "suspended".
Proof using Hpre Hnd.
  intros Ht Hrd Hm Hs Hf Hn Hk Hp.
  assert (Htp : top ctx pre) by (destruct Ht as [? Ht]; split; [done|]; by apply Forall_app in Ht as [? _]).
  destruct (resume_prefix opts ctx pre (wait :: post) 0 input w) as (w1 & Ha & Hr); [done| |done|done|done|done|by unfold limit_at_least; rewrite Hm|].
  { rewrite step_keys_app in Hnd. by apply NoDup_app in Hnd as (? & _). }
  rewrite Hr. cbn [resume_from].
  assert (Hsr : same_records ctx (wait :: post) (jr w) (jr w1)) by (by apply (frame_apart ctx pre (wait :: post) w w1 input)).
  assert (Hn1 : not_canceled (sc_runId ctx) w1) by (by eapply advanced_canceled).
  destruct (run_suspend_run ctx ss wid wid (waiting_reason reason) opts w1 Ht) as (w2 & Hs2 & Ht2 & Hsr2 & Hn2 & Hst).
  run_step. rewrite run_check_cancel by done. rewrite (no_limit opts) by done. rewrite run_bind, run_catch, run_wait_missing; [|done| |].
  - cbn [fst snd st_id waitForResume]. rewrite Hs2. exists w2. split; [done|]. split_and!; [by rewrite Ht2, (adv_trace _ _ _ _ _ Ha)| | |by apply Hn2|done].
    + eapply recorded_same; [|exact (adv_recorded _ _ _ _ _ Ha)]. intros k Hk'. apply Hsr2. rewrite step_keys_app, map_app. apply elem_of_app. by left.
    + eapply same_trans; [exact Hsr|]. intros k Hk'. apply Hsr2. rewrite step_keys_app, map_app. apply elem_of_app. by right.
  - pose proof (proj1 (same_records_cons _ _ _ _ _ Hsr)) as Hkw. unfold key_of in Hkw. cbn [st_id waitForResume] in Hkw. unfold record_at. by rewrite Hkw.
  - unfold record_at. rewrite (adv_frame _ _ _ _ _ Ha); [done|]. by apply (reserved_apart ctx pre ("resume:" +:+ wid)).
Qed.

(** Once answered, the run completes with the steps after it. *)
Lemma run_past_wait ctx opts input v v' w :
  top ctx ss → sc_resumeData ctx = true → ro_maxSteps opts = None → ro_signal opts = None →
  recorded (jr w) ctx pre input → consistent (jr w) ctx post v' → not_canceled (sc_runId ctx) w →
  mj_get (step_key ctx wid) (jr w) = None → record_at (resumeKey (sc_runId ctx) wid) w = v → accepts validate v v' →
  ∃ w', run h (resume_from caps opts 0 ss input ctx) w = (Ok (Completed (final post v')), w') ∧
    trace w' = rev (fired (jr w) ctx post v') ++ trace w.
Proof using Hpre Hpost Hnd.
  intros Ht Hrd Hm Hs Hf Hfp Hn Hk Hp Hv.
  assert (Htp : top ctx pre) by (destruct Ht as [? Ht]; split; [done|]; by apply Forall_app in Ht as [? _]).
  assert (Htq : top ctx post) by (destruct Ht as [? Ht]; split; [done|]; by apply Forall_app in Ht as [_ [_ ?]%Forall_cons]).
  pose proof Hnd as Hnd'. rewrite step_keys_app in Hnd'. apply NoDup_app in Hnd' as (Hnp & _ & Hnq).
  destruct (resume_prefix opts ctx pre (wait :: post) 0 input w) as (w1 & Ha & Hr); [done|done|done|by apply recorded_consistent|done|done|by unfold limit_at_least; rewrite Hm|].
  rewrite Hr. cbn [resume_from]. pose proof (frame_apart ctx pre (wait :: post) w w1 input Hnd Ha) as Hsr.
  apply same_records_cons in Hsr as (Hkw & _ & Hsr). unfold key_of in Hkw. cbn [st_id waitForResume] in Hkw.
  assert (Hn1 : not_canceled (sc_runId ctx) w1) by (by apply (advanced_canceled ctx pre input w w1)).
  run_step. rewrite run_check_cancel by done. rewrite (no_limit opts) by done.
  assert (Hk1 : mj_get (step_key ctx wid) (jr w1) = None) by (by rewrite <- Hk).
  rewrite run_bind, run_catch, (run_wait_answered ctx wid validate reason _ v v') by
    (done || (unfold record_at; rewrite (adv_frame _ _ _ _ _ Ha); [done|]; by apply (reserved_apart ctx pre ("resume:" +:+ wid)))).
  cbn [fst snd]. set (w2 := write _ _ w1).
  assert (Hs2 : same_records ctx post (jr w) (jr w2)).
  { eapply same_trans; [exact Hsr|]. intros k (x & -> & Hx)%list_elem_of_fmap. unfold w2. rewrite mj_get_write by done.
    destruct (String.eqb_spec (step_key ctx x) (step_key ctx wid)) as [->%step_key_inj|]; [|done]. exfalso.
    apply (proj1 (NoDup_cons _ _) Hnq). by right. }
  assert (Hn2 : not_canceled (sc_runId ctx) w2).
  { unfold not_canceled, record_at, w2. rewrite mj_get_write by done. destruct (String.eqb_spec (canceledKey (sc_runId ctx)) (step_key ctx wid)) as [He|_].
    - destruct (reserved_apart ctx ss "canceled" Ht). change (sc_runId ctx +:+ ":wf:_" +:+ "canceled") with (canceledKey (sc_runId ctx)). rewrite He.
      rewrite step_keys_app, map_app. apply elem_of_app. right. left.
    - exact Hn1. }
  destruct (resume_prefix opts ctx post [] (S (0 + length pre)) v' w2) as (w3 & Ha3 & Hr3); [done| |done| |done|done|by unfold limit_at_least; rewrite Hm|].
  { apply NoDup_app in Hnq as (_ & _ & ?). done. }
  { by eapply consistent_same. }
  rewrite app_nil_r in Hr3. rewrite Hr3. cbn [resume_from]. run_step. rewrite run_putStatus. eexists. split; [done|].
  cbn [trace set_jr]. rewrite (adv_trace _ _ _ _ _ Ha3), (fired_same _ _ _ _ _ Hs2). unfold w2. rewrite trace_write.
  by rewrite (adv_trace _ _ _ _ _ Ha), (fired_recorded _ _ _ _ Hf).
Qed.
End Approval.

(** A call without limit or signal, with these payloads. *)
Definition call_with (payloads : list (string * js)) (opts : @resume_options Q R) : Prop :=
  ro_maxSteps opts = None ∧ ro_signal opts = None ∧ ro_resume opts = payloads.

(** A workflow with a [waitForResume] step suspends there after executing the steps before it, with the wait's reason and
    a [suspended] status; a later call with the payload, at any time and from any process, repeats none of those steps,
    hands the validated payload to the rest, executes the rest and completes. *)
Theorem approval_roundtrip pre post wid validate reason input entry opts1 opts2 v v' w :
  let ss := pre ++ waitForResume wid validate reason :: post in
  let ctx := resuming (withIdentity entry) in
  Forall computes pre → Forall computes post → NoDup (step_keys ss) → top ctx ss →
  consistent (jr w) ctx pre input → mj_get (step_key ctx wid) (jr w) = None → consistent (jr w) ctx post v' →
  record_at (resumeKey (en_runId entry) wid) w = JUndef → not_canceled (en_runId entry) w →
  call_with [] opts1 → call_with [(wid, v)] opts2 → accepts validate v v' →
  ∃ w1, run h (runResumable caps ss input entry opts1) w = (Ok (Waiting wid wid (waiting_reason reason)), w1) ∧
    trace w1 = rev (fired (jr w) ctx pre input) ++ trace w ∧ status_of (en_runId entry) w1 = JStr "suspended" ∧
    ∀ w2, jr w2 = jr w1 → ∃ w3, run h (runResumable caps ss input entry opts2) w2 = (Ok (Completed (final post v')), w3) ∧
      trace w3 = rev (fired (jr w) ctx post v') ++ trace w2.
Proof.
  intros ss ctx Hpre Hpost Hnd Ht Hf Hk Hfp Hp Hn (Hm1 & Hs1 & Hr1) (Hm2 & Hs2 & Hr2) Hv. unfold runResumable. rewrite Hr1, Hr2. fold ctx.
  destruct (run_until_wait pre post wid validate reason Hpre Hnd ctx opts1 input w) as (w1 & Hr & Htr & Hrec & Hsr & Hn1 & Hst);
    [done..|unfold record_at; by rewrite Hk|done|].
  exists w1. split_and!; [exact Hr|exact Htr|exact Hst|]. intros w2 Hj.
  apply same_records_cons in Hsr as (Hkw & _ & Hsr). unfold key_of in Hkw. cbn [st_id waitForResume] in Hkw.
  set (w2' := set_jr (mj_put (wall w2) (resumeKey (sc_runId ctx) wid) v (jr w2)) w2).
  assert (Hs2' : same_records ctx ss (jr w1) (jr w2')).
  { unfold w2'. cbn [jr set_jr]. rewrite <- Hj. apply put_same. by apply (reserved_apart ctx ss ("resume:" +:+ wid)). }
  pose proof Hs2' as Hsr'. unfold same_records, ss in Hsr'. rewrite step_keys_app, map_app in Hsr'.
  assert (Hsw : same_records ctx (waitForResume wid validate reason :: post) (jr w1) (jr w2')) by (intros k Hin; apply Hsr', elem_of_app; by right).
  apply same_records_cons in Hsw as (Hkw2 & _ & Hsw). unfold key_of in Hkw2. cbn [st_id waitForResume] in Hkw2.
  assert (Hsp : same_records ctx post (jr w) (jr w2')) by (by eapply same_trans).
  destruct (run_past_wait pre post wid validate reason Hpre Hpost Hnd ctx opts2 input v v' w2') as (w3 & Hr3 & Ht3); [done..| | | | | |done|].
  - eapply recorded_same; [|exact Hrec]. intros k Hin. apply Hsr', elem_of_app. by left.
  - by eapply consistent_same.
  - unfold not_canceled, record_at, w2'. cbn [jr set_jr]. rewrite mj_get_put_ne, Hj; [exact Hn1|]. unfold canceledKey, resumeKey. by intros H%str_app_inj_l.
  - by rewrite Hkw2, Hkw.
  - unfold record_at, w2'. cbn [jr set_jr]. by rewrite mj_get_put.
  - exists w3. split; [exact Hr3|]. by rewrite Ht3, (fired_same _ _ _ _ _ Hsp).
Qed.

(** ** A side effect that answers nothing *)

Lemma run_wf_claim_lost k v w v0 : has_putIfAbsent caps = true → mj_get k (jr w) = Some v0 → run h (wf_claim caps k v) w = (Ok false, w).
Proof.
  intros Hpa Hk. unfold wf_claim. rewrite Hpa. unfold jputIfAbsent. rewrite (run_request h (RPutIfAbsent k v)). cbn [perform].
  rewrite mj_putIfAbsent_spec, Hk. by destruct w.
Qed.

(** A side-effecting step without [recover] whose body answers [undefined] (an e-mail that is sent, a call with no result)
    succeeds once, and from then on every call that reaches it is blocked, at any time: its empty record reads as none and
    its claim is never released, so a workflow that suspends after it can not be resumed. *)
Theorem void_side_effect_blocked s d input ctx w :
  has_putIfAbsent caps = true → is_side_effect s = Some d → du_recover d = None → sc_strict ctx = false →
  (∀ c w, run h (st_run s input c) w = (Ok JUndef, logged (asks s input) w)) →
  mj_get (key_of ctx s) (jr w) = None → mj_get (claim_key (key_of ctx s)) (jr w) = None →
  ∃ w1, run h (runStep caps s input ctx) w = (Ok JUndef, w1) ∧
    ∀ w2, jr w2 = jr w1 → ∃ in_flight age, run h (runStep caps s input ctx) w2 = (Err (EBlocked (st_id s) (key_of ctx s) in_flight age), w2).
Proof.
  intros Hpa Hs Hrec Hst Hb Hk Hc.
  destruct (run_take_claim s d input (key_of ctx s) w Hc) as [t Ht].
  set (w1 := write (claim_key (key_of ctx s)) (claim_record t) w) in *.
  assert (H1 : mj_get (key_of ctx s) (jr w1) = None).
  { unfold w1. rewrite mj_get_write by done. by rewrite (proj2 (String.eqb_neq _ _) (own_not_claim _)). }
  exists (write (key_of ctx s) JUndef (logged (asks s input) w1)). split.
  - unfold runStep. run_step. rewrite run_wf_get. fold (key_of ctx s). rewrite (record_none _ _ Hk), Hs. cbn [is_undefined negb].
    unfold runSideEffectStep. cbn [sc_strict with_key]. rewrite Hst. cbn [andb]. run_step. rewrite Ht. cbn -[claim_key].
    unfold mbind, prog_bind. rewrite run_bind, run_catch, run_bind, Hb, run_settle by done. done.
  - intros w2 Hj. assert (Hk2 : mj_get (key_of ctx s) (jr w2) = Some JUndef) by (by rewrite Hj, mj_get_write, String.eqb_refl).
    assert (Hc2 : mj_get (claim_key (key_of ctx s)) (jr w2) = Some (claim_record t)).
    { rewrite Hj, mj_get_write by done. rewrite (proj2 (String.eqb_neq _ _)) by (by intros He; eapply own_not_claim).
      cbn [jr logged]. unfold w1. by rewrite mj_get_write, String.eqb_refl. }
    destruct (run_clock w2) as [t2 Ht2]. set (late := match age_of t2 (claim_record t) with Some a => (a <? default DEFAULT_CLAIM_TTL_MS (du_claimTtlMs d))%Z | None => false end).
    exists late, (age_of t2 (claim_record t)). unfold runStep. run_step. rewrite run_wf_get. fold (key_of ctx s). rewrite (record_some _ _ _ Hk2), Hs. cbn [is_undefined negb].
    unfold runSideEffectStep. cbn [sc_strict with_key]. rewrite Hst. cbn [andb]. unfold take_claim. rewrite Hrec. cbv zeta.
    run_step. rewrite run_bind, Ht2, run_bind, (run_wf_claim_lost _ _ _ (claim_record t)) by done.
    rewrite run_bind, run_wf_get, (record_some _ _ _ Hk2). cbn [is_undefined negb].
    rewrite run_bind, run_wf_get, (record_some _ _ _ Hc2). rewrite run_bind, Ht2.
    change (js_truthy (claim_record t)) with true. change (js_truthy (prop (claim_record t) "released")) with false.
    change (js_truthy (prop (claim_record t) "failed")) with false. cbn [negb andb].
    fold late. by destruct late.
Qed.
End Runs.

(** ** A host that echoes, and workflows that use it *)

Definition echo : oracle string js wf_error := λ _ q, Ok (JStr q).
Definition say (id : string) : @step string js := Step id (λ _ _, request (RExt id)) None.
Definition post_step : @step string js := Step "mail" (λ _ _, request (RExt "mail")) (Some (Durability true None None)).
Definition said (s : @step string js) (_ : js) : js := JStr (st_id s).
Definition words (s : @step string js) (_ : js) : list string := [st_id s].
Definition fresh : world js string := World empty_journal 0 0 [] empty_work.
Definition planned : world js string := World (mj_put 0 "r:wf:plan" (JStr "plan") empty_journal) 9 9 [] empty_work.
Definition calls (n : option nat) (payloads : list (string * js)) : @resume_options string js := ResumeOptions n payloads None None.
Definition mute (_ : list string) (_ : string) : outcome wf_error js := Ok JUndef.

Lemma say_computes id : computes echo said words (say id).
Proof. intros input c w. by split. Qed.

Lemma post_computes : computes echo said words post_step.
Proof. intros input c w. by split. Qed.

Lemma resume_exact_witness :
  let ss := [say "plan"; post_step; say "report"] in
  ∃ w', run echo (runResumable full_caps ss JNull (plain_entry "r") (calls (Some 2) [])) planned = (Ok (Paused "report" (JStr "mail")), w') ∧
    trace w' = ["mail"].
Proof.
  intros ss. destruct (resume_exact full_caps echo said words ss JNull (plain_entry "r") (calls (Some 2) []) planned) as (w' & Hr & Ht & _).
  - unfold ss. rewrite !Forall_cons. split_and!; [apply say_computes|apply post_computes|apply say_computes|constructor].
  - by apply (bool_decide_unpack _).
  - split; [done|by repeat constructor].
  - split; [reflexivity|split; [intros d [= <-]; split; [reflexivity|by intros [=]]|split; [by intros d [=]|done]]].
  - reflexivity.
  - reflexivity.
  - exists w'. split; [exact Hr|exact Ht].
Defined.

Lemma approval_roundtrip_witness :
  ∃ w1, run echo (runResumable full_caps [say "plan"; waitForResume "ok" None JUndef; say "publish"] JNull (plain_entry "r") (calls None [])) fresh
      = (Ok (Waiting "ok" "ok" (JObj [("kind", JStr "resume")])), w1) ∧ trace w1 = ["plan"] ∧ status_of "r" w1 = JStr "suspended" ∧
    ∀ w2, jr w2 = jr w1 → ∃ w3,
      run echo (runResumable full_caps [say "plan"; waitForResume "ok" None JUndef; say "publish"] JNull (plain_entry "r") (calls None [("ok", JBool true)])) w2
        = (Ok (Completed (JStr "publish")), w3) ∧ trace w3 = "publish" :: trace w2.
Proof.
  apply (approval_roundtrip full_caps echo said words [say "plan"] [say "publish"] "ok" None JUndef JNull (plain_entry "r") (calls None []) (calls None [("ok", JBool true)])
    (JBool true) (JBool true) fresh); try done.
  - constructor; [apply say_computes|constructor].
  - constructor; [apply say_computes|constructor].
  - by apply (bool_decide_unpack _).
  - split; [done|by repeat constructor].
Defined.

Lemma void_side_effect_blocked_witness :
  ∃ w1, run mute (runStep full_caps post_step JNull (withIdentity (plain_entry "r"))) fresh = (Ok JUndef, w1) ∧
    ∀ w2, jr w2 = jr w1 → ∃ in_flight age,
      run mute (runStep full_caps post_step JNull (withIdentity (plain_entry "r"))) w2 = (Err (EBlocked "mail" "r:wf:mail" in_flight age), w2).
Proof.
  apply (void_side_effect_blocked full_caps mute words post_step (Durability true None None) JNull (withIdentity (plain_entry "r")) fresh); done.
Defined.
