(* ===== verification/WorkflowAgree.v ===== *)
(** * WorkflowAgree: concurrent runs agree

    Whatever the steps answer (a model that never repeats itself, a clock), all the runs and resumes of one run id that
    complete, on any number of workers, with storage failures and crashes, return the same output: the
    recorded one.  A canceled run executes nothing. *)

From S2P Require Import Prelude JsMap Keys Journal Work Prog Json Hash Format RunIdentity ToolTypes Workflow WorkflowFrame.

Section Agree.
Context {Q R : Type}.
Variable ks : list string.                    (** the records of the steps *)
Abbreviation prog := (prog js Q R wf_error).
Abbreviation req := (req js Q).
Abbreviation world := (world js Q).
Abbreviation answer r := (outcome wf_error (ans (R := R) r)).
Abbreviation wf_step := (@step Q R).

(** ** What a caller knows of the records *)

Inductive fact := Has (k : string) (v : js) | Present (k : string) | Absurd.

Definition holds (j : mem_journal js) (f : fact) : Prop :=
  match f with
  | Has k v => k ∈ ks ∧ mj_get k j = Some v
  | Present k => k ∈ ks ∧ is_Some (mj_get k j)
  | Absurd => False
  end.

Abbreviation facts := (list fact).

Definition about (k : string) (f : fact) : bool := match f with Present k' => String.eqb k k' | _ => false end.

Definition agree_allowed (_ : facts) (r : req) : Prop :=
  match r with
  | RPut k _ | RPutIfMatch k _ _ => k ∉ ks
  | RPutIfAbsent k v => k ∈ ks → v ≠ JUndef
  | _ => True
  end.

Definition agree_next (g : facts) (r : req) : answer r → facts :=
  match r return answer r → facts with
  | RGet k => λ o,
      match o with
      | Ok (Some v) => if bool_decide (k ∈ ks) then (if is_undefined v then Absurd else Has k v) :: g else g
      | Ok None => if existsb (about k) g then Absurd :: g else g
      | Err _ => g
      end
  | RPutIfAbsent k v => λ o,
      match o with
      | Ok won => if bool_decide (k ∈ ks) then (if won : bool then Has k v else Present k) :: g else g
      | Err _ => g
      end
  | _ => λ _, g
  end.

Definition agree_inv (w : world) (gs : list facts) : Prop :=
  (∀ k, k ∈ ks → mj_get k (jr w) ≠ Some JUndef) ∧ Forall (Forall (holds (jr w))) gs.

(** An allowed request removes no record and changes none. *)
Lemma records_stay (h : oracle Q R wf_error) w g r k v :
  agree_allowed g r → k ∈ ks → mj_get k (jr w) = Some v → mj_get k (jr (snd (perform h r w))) = Some v.
Proof.
  intros Hal Hin Hk. destruct r; try exact Hk; cbn [perform snd jr set_jr].
  - rewrite mj_get_put_ne; [done|]. by intros ->.
  - rewrite mj_putIfAbsent_spec. destruct (mj_get k0 (jr w)) eqn:H0; [exact Hk|]. cbn [snd]. unfold mj_get at 1. cbn [store].
    rewrite mget_mset_ne; [exact Hk|]. intros ->. congruence.
  - rewrite mj_putIfMatch_spec. destruct (bool_decide _); [|exact Hk]. cbn [snd]. unfold mj_get at 1. cbn [store].
    rewrite mget_mset_ne; [exact Hk|]. by intros ->.
Qed.

(** No empty record appears. *)
Lemma records_defined (h : oracle Q R wf_error) w g r k :
  agree_allowed g r → k ∈ ks → mj_get k (jr w) ≠ Some JUndef → mj_get k (jr (snd (perform h r w))) ≠ Some JUndef.
Proof.
  intros Hal Hin Hk. destruct r; try exact Hk; cbn [perform snd jr set_jr].
  - rewrite mj_get_put_ne; [done|]. by intros ->.
  - rewrite mj_putIfAbsent_spec. destruct (mj_get k0 (jr w)) eqn:H0; [exact Hk|]. cbn [snd]. unfold mj_get at 1. cbn [store].
    rewrite mget_mset_cases. destruct (String.eqb_spec k k0) as [->|]; [|exact Hk]. intros [= ->]. by apply Hal.
  - rewrite mj_putIfMatch_spec. destruct (bool_decide _); [|exact Hk]. cbn [snd]. unfold mj_get at 1. cbn [store].
    rewrite mget_mset_ne; [exact Hk|]. by intros ->.
Qed.

Lemma holds_stay (h : oracle Q R wf_error) w g r f : agree_allowed g r → holds (jr w) f → holds (jr (snd (perform h r w))) f.
Proof.
  intros Hal. destruct f as [k v|k|]; [| |done].
  - intros [Hin Hk]. split; [done|]. by eapply records_stay.
  - intros [Hin [v Hk]]. split; [done|]. exists v. by eapply records_stay.
Qed.

Lemma next_holds (h : oracle Q R wf_error) w g r :
  agree_allowed g r → (∀ k, k ∈ ks → mj_get k (jr w) ≠ Some JUndef) → Forall (holds (jr w)) g →
  Forall (holds (jr (snd (perform h r w)))) (agree_next g r (fst (perform h r w))).
Proof.
  intros Hal Hd Hg. assert (Hg' : Forall (holds (jr (snd (perform h r w)))) g) by (eapply Forall_impl; [exact Hg|]; intros f; by eapply holds_stay).
  destruct r; try exact Hg'; cbn [perform fst snd agree_next] in *.
  - destruct (mj_get k (jr w)) as [v|] eqn:Hk.
    + case_bool_decide as Hin; [|done]. constructor; [|done]. destruct (is_undefined v) eqn:Hu; [|by split].
      destruct (Hd k Hin). by destruct v.
    + destruct (existsb (about k) g) eqn:He; [|done]. apply existsb_exists in He as (f & Hf & Ha).
      rewrite Forall_forall in Hg. apply list_elem_of_In, Hg in Hf. destruct f as [| k'|]; try done.
      apply String.eqb_eq in Ha as <-. destruct Hf as [_ [v Hv]]. congruence.
  - case_bool_decide as Hin; [|done]. constructor; [|done]. rewrite mj_putIfAbsent_spec in *.
    destruct (mj_get k (jr w)) as [v0|] eqn:Hk; cbn [fst snd jr set_jr] in *; split; try done.
    unfold mj_get. cbn [store]. apply mget_mset.
Qed.

Lemma agree_inv_perform (h : oracle Q R wf_error) w gs i g r :
  gs !! i = Some g → agree_allowed g r → agree_inv w gs →
  agree_inv (snd (perform h r w)) (<[i := agree_next g r (fst (perform h r w))]> gs).
Proof.
  intros Hi Hal [Hd Hgs]. split; [intros k Hin; by apply (records_defined h w g r); auto|].
  apply Forall_insert.
  - eapply Forall_impl; [exact Hgs|]. intros g' Hg'. eapply Forall_impl; [exact Hg'|]. intros f. by eapply holds_stay.
  - apply next_holds; [done|done|]. by eapply (Forall_lookup_1 (Forall (holds (jr w)))) in Hgs.
Qed.

Lemma agree_next_err g r e : agree_next g r (Err e) = g.
Proof. by destruct r. Qed.

Lemma agree_inv_fail (h : oracle Q R wf_error) w gs i g r e :
  gs !! i = Some g → agree_allowed g r → agree_inv w gs →
  agree_inv w (<[i := agree_next g r (Err e)]> gs) ∧ agree_inv (snd (perform h r w)) (<[i := agree_next g r (Err e)]> gs).
Proof.
  intros Hi Hal [Hd Hgs]. rewrite agree_next_err, list_insert_id by done. split; [by split|]. split.
  - intros k Hin. by apply (records_defined h w g r); auto.
  - eapply Forall_impl; [exact Hgs|]. intros g' Hg'. eapply Forall_impl; [exact Hg'|]. intros f. by eapply holds_stay.
Qed.

Lemma agree_inv_time (w : world) gs c x : (clock w ≤ c)%Z → agree_inv w gs → agree_inv (World (jr w) c x (trace w) (work w)) gs.
Proof. by intros _. Qed.

(** ** What the engine learns *)

Abbreviation judged := (safe agree_allowed agree_next).
Abbreviation keep_records := (keeping (λ k, k ∈ ks) (λ _ : Q, false)).

Definition known (g : facts) (f : fact) : Prop := f ∈ g ∨ Absurd ∈ g.

(** The record of [k] is what is returned. *)
Definition tells {A} (k : A → option (string * js)) (g g' : facts) (o : outcome wf_error A) : Prop :=
  g ⊆ g' ∧ match o with Ok a => match k a with Some (key, v) => known g' (Has key v) | None => True end | Err _ => True end.
Definition nothing {A} (_ : A) : option (string * js) := None.
Definition output_of (k : string) (v : js) : option (string * js) := Some (k, v).

Lemma facts_next g r (o : answer r) : g ⊆ agree_next g r o.
Proof.
  destruct r; try done; cbn [agree_next]; destruct o as [a|]; try done.
  - destruct a; [destruct (bool_decide _)|destruct (existsb _ _)]; try done; by apply list_subseteq_cons.
  - destruct (bool_decide _); [by apply list_subseteq_cons|done].
Qed.

Lemma tells_trans {A} (k : A → option (string * js)) g g1 g2 o : g ⊆ g1 → tells k g1 g2 o → tells k g g2 o.
Proof. intros H [H1 H2]. split; [by etrans|done]. Qed.

Lemma learn_bind {A B} (k1 : A → option (string * js)) (k2 : B → option (string * js)) g (p : prog A) (f : A → prog B) :
  judged (tells k1 g) g p →
  (∀ g' a, tells k1 g g' (Ok a) → judged (tells k2 g') g' (f a)) →
  judged (tells k2 g) g (pbind f p).
Proof.
  intros Hp Hf. eapply safe_bind; [exact Hp| |by intros g' e []]. intros g' a Ha. eapply safe_mono; [|by apply Hf].
  intros g2 o. apply tells_trans. by destruct Ha.
Qed.

Lemma learn_keeping {A} g (p : prog A) : keep_records p → judged (tells nothing g) g p.
Proof.
  revert g. induction p as [a|e|r k IH]; intros g; [done..|]. intros [Hr Hk]. split.
  - destruct r; try done; cbn in *; by intros.
  - intros o. eapply safe_mono; [|by apply IH]. intros g' o'. apply tells_trans, facts_next.
Qed.

Lemma learn_catch {A} g (p : prog A) (k : A → option (string * js)) :
  judged (tells k g) g p → judged (tells (λ o, match o with Ok a => k a | Err _ => None end) g) g (pcatch p).
Proof.
  intros Hp. unfold pcatch. eapply safe_try.
  - eapply (safe_bind _ _ (λ g' o, match o with Ok x => tells (λ o, match o with Ok a => k a | Err _ => None end) g g' (Ok x) | Err e => g ⊆ g' end)); [exact Hp| |].
    + intros g' a [H1 H2]. by split.
    + by intros g' e [H1 _].
  - by intros.
  - intros g' e H. by split.
Qed.

(** Reading a record. *)
Lemma learn_get g k : k ∈ ks → judged (tells (λ v, if is_undefined v then None else output_of k v) g) g (wget k : prog js).
Proof.
  intros Hin. split; [done|]. intros [[v|]|e]; cbn.
  - rewrite bool_decide_eq_true_2 by done. split; [by apply list_subseteq_cons|]. destruct (is_undefined v); [done|]. left; left.
  - split; [|done]. destruct (existsb _ _); [by apply list_subseteq_cons|done].
  - done.
Qed.

Variable caps : journal_caps.
Hypothesis Habsent : has_putIfAbsent caps = true.

(** What is settled is the record. *)
Lemma learn_settle g k out : k ∈ ks → out ≠ JUndef → judged (tells (output_of k) g) g (settle caps k out : prog js).
Proof using Habsent.
  intros Hin Hu. unfold settle, wf_claim. rewrite Habsent. split; [by intros _|]. intros [[]|e]; cbn.
  - rewrite bool_decide_eq_true_2 by done. split; [by apply list_subseteq_cons|]. left; left.
  - rewrite bool_decide_eq_true_2 by done. split; [done|]. intros [[v|]|e]; cbn.
    + destruct (is_undefined v); (split; [by do 2 apply list_subseteq_cons|]); [right|left]; left.
    + rewrite String.eqb_refl. cbn. split; [by do 2 apply list_subseteq_cons|]. right; left.
    + split; [by apply list_subseteq_cons|done].
  - done.
Qed.

(** ** Steps *)

(** Every value that [p] returns. *)
Fixpoint returns {A} (post : A → Prop) (p : prog A) : Prop :=
  match p with
  | Ret a => post a
  | Throw _ => True
  | Do r k => ∀ o, returns post (k o)
  end.

(** A step of the run: its record is among [ks], its claim is not, its body and its recovery leave the records alone and
    never answer [undefined]. *)
Record agreeing (ctx : step_ctx) (s : wf_step) : Prop := Agreeing {
  ag_key : step_key ctx (st_id s) ∈ ks;
  ag_claim : claim_key (step_key ctx (st_id s)) ∉ ks;
  ag_body : ∀ input c, keep_records (st_run s input c) ∧ returns (λ v, v ≠ JUndef) (st_run s input c);
  ag_recover : ∀ d f input k, st_durability s = Some d → du_recover d = Some f →
    keep_records (f input k) ∧ returns (λ r, ∀ o, recovered (st_id s) r = Ok (Some o) → o ≠ JUndef) (f input k);
}.

Lemma learn_returns {A} g (p : prog A) (post : A → Prop) :
  keep_records p → returns post p → judged (λ g' o, g ⊆ g' ∧ match o with Ok a => post a | Err _ => True end) g p.
Proof.
  revert g. induction p as [a|e|r k IH]; intros g; [done..|]. intros [Hr Hk] Hp. split.
  - destruct r; try done; cbn in *; by intros.
  - intros o. eapply safe_mono; [|by apply IH]. intros g' o' [H1 H2]. split; [|done]. etrans; [apply facts_next|exact H1].
Qed.

(** A body, and what follows a value it may return. *)
Lemma learn_after {A B} g (p : prog A) (post : A → Prop) (f : A → prog B) (k : B → option (string * js)) :
  keep_records p → returns post p → (∀ g' a, post a → judged (tells k g') g' (f a)) → judged (tells k g) g (pbind f p).
Proof.
  intros Hp Hr Hf. eapply safe_bind; [by apply (learn_returns g p post)| |by intros g' e []]. intros g' a [H1 Ha].
  eapply safe_mono; [|by apply Hf]. intros g2 o. by apply tells_trans.
Qed.

Lemma learn_ret {A} g (a : A) (k : A → option (string * js)) :
  match k a with Some (key, v) => known g (Has key v) | None => True end → judged (tells k g) g (mret a).
Proof. intros Hk. by split. Qed.

Lemma learn_throw {A} g e (k : A → option (string * js)) : judged (tells k g) g (Throw e).
Proof. by split. Qed.

Definition taken (key : string) (t : js + Z) : option (string * js) := match t with inl v => Some (key, v) | inr _ => None end.

(** After an adoption, a record that landed is read. *)
Lemma learn_adopt g key ck cur nxt e at_ :
  key ∈ ks → ck ∉ ks →
  judged (tells (taken key) g) g (_ ← adoptClaim caps ck cur nxt e; landed ← wget key; mret (if is_undefined landed then inr at_ else inl landed) : prog (js + Z)).
Proof using Habsent.
  intros Hk Hc. eapply learn_bind; [by apply learn_keeping, keeping_adopt|]. intros g1 _ _.
  eapply learn_bind; [by apply learn_get|]. intros g2 v [_ Hv]. apply learn_ret. by destruct (is_undefined v).
Qed.

Lemma learn_take_claim ctx s d input g :
  agreeing ctx s → st_durability s = Some d →
  judged (tells (taken (step_key ctx (st_id s))) g) g (take_claim caps s d input (step_key ctx (st_id s)) : prog (js + Z)).
Proof using Habsent.
  intros [Hk Hc Hb Hr] Hd. unfold take_claim.
  eapply learn_bind; [apply learn_keeping, keeping_clock|]. intros g1 at0 _.
  eapply learn_bind; [by apply learn_keeping, keeping_claim|]. intros g2 won _. destruct won; [by apply learn_ret|].
  eapply learn_bind; [by apply learn_get|]. intros g3 v [_ Hv]. destruct (is_undefined v); cbn [negb]; [|by apply learn_ret].
  eapply learn_bind; [apply learn_keeping, keeping_wget|]. intros g4 cur _.
  eapply learn_bind; [apply learn_keeping, keeping_clock|]. intros g5 at_ _.
  destruct (negb (js_truthy cur)).
  { eapply learn_bind; [by apply learn_keeping, keeping_claim|]. intros g6 again _. destruct again; [by apply learn_ret|apply learn_throw]. }
  destruct (js_truthy (prop cur "released")); [by apply learn_adopt|]. destruct (_ && _); [apply learn_throw|].
  destruct (du_recover d) as [f|] eqn:Hf; [|apply learn_throw]. destruct (Hr d f input (step_key ctx (st_id s)) Hd Hf) as [Hkr Hret].
  eapply learn_after; [exact Hkr|exact Hret|]. intros g6 r Hrec. destruct (recovered (st_id s) r) as [[o|]|e] eqn:He; cbn [lift].
  - change (judged (tells (taken (step_key ctx (st_id s))) g6) g6 (out ← settle caps (step_key ctx (st_id s)) o; mret (inl out))).
    eapply learn_bind; [apply learn_settle; [done|by apply (Hrec o)]|]. intros g7 out [_ Ho]. by apply learn_ret.
  - by apply learn_adopt.
  - apply learn_throw.
Qed.

Lemma learn_runStep ctx s input g : agreeing ctx s → judged (tells (output_of (step_key ctx (st_id s))) g) g (runStep caps s input ctx).
Proof using Habsent.
  intros Ha. pose proof Ha as [Hk Hc Hb Hr]. unfold runStep.
  eapply learn_bind; [by apply learn_get|]. intros g1 v [_ Hv]. destruct (is_undefined v); cbn [negb]; [|by apply learn_ret].
  assert (Hrun : ∀ g c, judged (tells (output_of (step_key ctx (st_id s))) g) g (out ← st_run s input c; settle caps (step_key ctx (st_id s)) out)).
  { intros g2 c. destruct (Hb input c) as [Hkb Hret]. eapply learn_after; [exact Hkb|exact Hret|]. intros g3 out Ho. by apply learn_settle. }
  unfold is_side_effect. destruct (st_durability s) as [d|] eqn:Hd; [destruct (du_sideEffect d)|]; [|apply Hrun..].
  unfold runSideEffectStep. destruct (_ && _); [apply learn_throw|].
  eapply learn_bind; [by apply learn_take_claim|]. intros g2 [out|mine] [_ Ht]; [by apply learn_ret|].
  eapply learn_bind; [apply learn_catch, Hrun|]. intros g3 [out|e] [_ Ho]; [by apply learn_ret|].
  eapply learn_bind; [by apply learn_keeping, keeping_catch, keeping_stamp|]. intros; apply learn_throw.
Qed.

(** ** Runs and resumes *)

Definition last_key (ctx : step_ctx) (ss : list wf_step) : option string := (step_key ctx ∘ st_id) <$> last ss.

Definition says_last (ctx : step_ctx) (ss : list wf_step) (v : js) : option (string * js) := (λ k, (k, v)) <$> last_key ctx ss.

Lemma last_key_cons ctx s s' ss : last_key ctx (s :: s' :: ss) = last_key ctx (s' :: ss).
Proof. done. Qed.

Lemma learn_steps ctx s ss input g :
  Forall (agreeing ctx) (s :: ss) → judged (tells (says_last ctx (s :: ss)) g) g (run_steps caps (s :: ss) input ctx).
Proof using Habsent.
  revert s input g. induction ss as [|s' ss IH]; intros s input g Hs; apply Forall_cons in Hs as [Hs Hss].
  - eapply learn_bind; [by apply learn_runStep|]. intros g1 v [_ Hv]. by apply learn_ret.
  - eapply learn_bind; [by apply learn_runStep|]. intros g1 v _. unfold says_last. rewrite last_key_cons. by apply IH.
Qed.

Definition says_result (ctx : step_ctx) (ss : list wf_step) (r : wf_result) : option (string * js) :=
  match r with Completed v => says_last ctx ss v | _ => None end.

Section Resume.
Variable rid : string.
Hypothesis Hstatus : statusKey rid ∉ ks.
Hypothesis Hreserved : ∀ x, rid +:+ ":wf:_" +:+ x ∉ ks.
Abbreviation quiet_options := (keeping_options (λ k, k ∈ ks) (λ _ : Q, false)).

Lemma returns_bind {A B} (post : B → Prop) (p : prog A) (f : A → prog B) : (∀ a, returns post (f a)) → returns post (pbind f p).
Proof. intros Hf. induction p as [a|e|r k IH]; [apply Hf|done|]. intros o. apply IH. Qed.

Definition unfinished (r : wf_result) : Prop := ∀ v, r ≠ Completed v.

Lemma suspend_unfinished ctx id wid reason opts : returns unfinished (suspend_run (Q := Q) (R := R) ctx id wid reason opts).
Proof. apply returns_bind. intros _. apply returns_bind. by intros _. Qed.

Lemma learn_unfinished ctx ss g r : unfinished r → judged (tells (says_result ctx ss) g) g (mret r).
Proof. intros Hr. apply learn_ret. destruct r; [by destruct (Hr output)|done..]. Qed.

Lemma learn_suspend ctx ss g id wid reason opts :
  sc_runId ctx = rid → judged (tells (says_result ctx ss) g) g (suspend_run ctx id wid reason opts).
Proof using Hstatus Hreserved.
  intros Hr. eapply safe_mono; [|apply (learn_returns _ _ unfinished); [by apply (keeping_suspend_run _ _ rid Hstatus Hreserved)|apply suspend_unfinished]].
  intros g' [r|e] [H1 H2]; (split; [done|]); [|done]. destruct r; [by destruct (H2 output)|done..].
Qed.

(** What is known of [cur] when [ss] are the steps left of the workflow [full]. *)
Lemma learn_resume_from opts ctx full i ss cur g :
  sc_runId ctx = rid → quiet_options opts → Forall (agreeing ctx) ss → last full = last ss ∨ (ss = [] ∧ match says_last ctx full cur with Some (k, v) => known g (Has k v) | None => True end) →
  judged (tells (says_result ctx full) g) g (resume_from caps opts i ss cur ctx).
Proof using Habsent Hstatus Hreserved.
  intros Hr Hq Hs. revert i cur g. induction Hs as [|s ss Hs Hss IH]; intros i cur g Hl.
  - cbn [resume_from]. rewrite Hr. eapply learn_bind; [by apply learn_keeping, keeping_putStatus|]. intros g1 _ [Hg _]. apply learn_ret. cbn [says_result].
    destruct Hl as [Hl|[_ Hl]]; [by unfold says_last, last_key; rewrite Hl|]. destruct (says_last ctx full cur) as [[k v]|]; [|done].
    destruct Hl as [Hl|Hl]; [left|right]; by apply Hg.
  - destruct Hl as [Hl|[? _]]; [|done]. cbn [resume_from].
    eapply learn_bind; [by apply learn_keeping, (keeping_check_cancel _ _ rid Hstatus Hreserved)|]. intros g1 [reason|] _; [by apply learn_unfinished|].
    destruct (match ro_maxSteps opts with Some n => n <=? i | None => false end); [by apply learn_unfinished|].
    eapply learn_bind; [by apply learn_catch, learn_runStep|]. intros g2 [v|e] [_ Hv].
    + apply IH. destruct ss as [|s' ss]; [|left; exact Hl]. right. split; [done|]. unfold says_last, last_key. by rewrite Hl.
    + destruct e; try apply learn_throw. by apply learn_suspend.
Qed.
End Resume.

(** ** The calls of a run *)

Inductive run_call :=
| Plain (input : js) (entry : entry_ctx)
| Resumable (input : js) (entry : entry_ctx) (opts : @resume_options Q R).

Definition run_prog (ss : list wf_step) (c : run_call) : prog wf_result :=
  match c with
  | Plain input entry => out ← run_workflow caps ss input entry; mret (Completed out)
  | Resumable input entry opts => runResumable caps ss input entry opts
  end.

Definition call_entry (c : run_call) : entry_ctx := match c with Plain _ e | Resumable _ e _ => e end.

End Agree.

Section Theorems.
Context {Q R : Type}.
Abbreviation wf_step := (@step Q R).

(** The records of a run's steps. *)
Definition run_records (rid : string) (ss : list wf_step) : list string := map (λ s, flat_key rid (st_id s)) ss.

Lemma top_key ctx rid id : sc_runId ctx = rid → sc_keyPrefix ctx = None → step_key ctx id = flat_key rid id.
Proof. intros <- Hp. unfold step_key, prefix_of. by rewrite Hp. Qed.

Lemma agreeing_ctx ks ctx rid (s : wf_step) :
  sc_runId ctx = rid → sc_keyPrefix ctx = None → agreeing ks (withIdentity (plain_entry rid)) s → agreeing ks ctx s.
Proof.
  intros Hr Hp [Hk Hc Hb Hrec]. pose proof (top_key ctx rid (st_id s) Hr Hp) as He.
  split; [by rewrite He|by rewrite He|done|done].
Qed.

Lemma status_not_record rid (ss : list wf_step) : statusKey rid ∉ run_records rid ss.
Proof.
  intros (s & Hk & _)%list_elem_of_fmap. apply (f_equal colons) in Hk. unfold statusKey, flat_key in Hk. rewrite !colons_app in Hk.
  change (colons "wfrun:") with 1 in Hk. change (colons ":wf:") with 2 in Hk. lia.
Qed.

Lemma reserved_not_record rid (ss : list wf_step) x :
  Forall (λ s, starts_with "_" (st_id s) = false) ss → rid +:+ ":wf:_" +:+ x ∉ run_records rid ss.
Proof.
  intros Hs (s & Hk & Hin)%list_elem_of_fmap. unfold flat_key in Hk. apply str_app_inj_l in Hk.
  rewrite Forall_forall in Hs. specialize (Hs s Hin). destruct (st_id s) as [|c id]; [done|]. cbn in Hk. by injection Hk as <- _.
Qed.

(** A call of this run, from the top; a cancellation signal touches no record. *)
Definition call_of (rid : string) (ss : list wf_step) (c : @run_call Q R) : Prop :=
  en_runId (call_entry c) = rid ∧ en_keyPrefix (call_entry c) = None ∧
  match c with Resumable _ _ opts => keeping_options (λ k, k ∈ run_records rid ss) (λ _, false) opts | Plain _ _ => True end.

Lemma call_learns caps rid ss c :
  has_putIfAbsent caps = true → ss ≠ [] → Forall (agreeing (run_records rid ss) (withIdentity (plain_entry rid))) ss →
  Forall (λ s, starts_with "_" (st_id s) = false) ss → call_of rid ss c →
  safe (agree_allowed (run_records rid ss)) (agree_next (run_records rid ss)) (tells (says_result (withIdentity (plain_entry rid)) ss) []) []
    (run_prog caps ss c).
Proof.
  intros Hpa Hne Hs Hid (Hr & Hp & Ho).
  assert (Hctx : ∀ ctx, sc_runId ctx = rid → sc_keyPrefix ctx = None →
    Forall (agreeing (run_records rid ss) ctx) ss ∧ ∀ v, says_last ctx ss v = says_last (withIdentity (plain_entry rid)) ss v).
  { intros ctx Hr' Hp'. split; [eapply Forall_impl; [exact Hs|]; intros s; by apply agreeing_ctx|]. intros v. unfold says_last, last_key.
    destruct (last ss) as [s|]; [|done]. cbn. by rewrite (top_key ctx rid). }
  destruct c as [input entry|input entry opts]; cbn [run_prog call_entry] in *.
  - destruct (Hctx (withIdentity entry) Hr Hp) as [Hag Heq]. destruct ss as [|s ss]; [done|].
    eapply learn_bind; [by apply learn_steps|]. intros g v [_ Hv]. apply learn_ret. cbn [says_result]. by rewrite <- Heq.
  - destruct (Hctx (resuming (withIdentity entry)) Hr Hp) as [Hag Heq].
    pose proof (λ x, reserved_not_record rid ss x Hid) as Hres. unfold runResumable.
    eapply learn_bind; [apply learn_keeping; cbn [withIdentity sc_runId]; rewrite Hr; by apply keeping_deliver|]. intros g _ _.
    eapply safe_mono; [|apply (learn_resume_from (run_records rid ss) caps Hpa rid (status_not_record rid ss) Hres opts (resuming (withIdentity entry)) ss); [done..|by left]].
    intros g' o [H1 H2]. split; [done|]. destruct o as [r|]; [|done]. destruct r; try done. cbn [says_result] in *. by rewrite <- Heq.
Qed.

(** C8: as long as no step answers [undefined], and whatever else the steps answer, all the runs and resumes of one run id that
    complete return the same output: in every interleaving, with storage and callback failures before or after they take
    effect and callers that crash, and whatever each caller passed in, the output is the one that the last step's record
    holds.  ([undefined_disagrees] is what a step that answers [undefined] does.) *)
Theorem runs_agree caps rid ss calls w ps' w' :
  has_putIfAbsent caps = true → ss ≠ [] → Forall (agreeing (run_records rid ss) (withIdentity (plain_entry rid))) ss →
  Forall (λ s, starts_with "_" (st_id s) = false) ss → Forall (call_of rid ss) calls →
  (∀ k, k ∈ run_records rid ss → mj_get k (jr w) ≠ Some JUndef) →
  reachable (map (run_prog caps ss) calls, w) (ps', w') →
  (∀ i a s, last ss = Some s → ps' !! i = Some (Ret (Completed a)) → mj_get (flat_key rid (st_id s)) (jr w') = Some a) ∧
  (∀ i j a b, ps' !! i = Some (Ret (Completed a)) → ps' !! j = Some (Ret (Completed b)) → a = b).
Proof.
  intros Hpa Hne Hs Hid Hc Hd Hr. pose (ks := run_records rid ss).
  destruct (pool_safe (agree_allowed ks) (agree_next ks) (agree_inv ks) (agree_inv_perform ks) (agree_inv_fail ks) (agree_inv_time ks)
    (tells (says_result (withIdentity (plain_entry rid)) ss) []) _ _ (replicate (length calls) []) Hr) as (gs' & [_ Hk] & Hps).
  - split; [exact Hd|]. apply Forall_replicate. constructor.
  - cbn [fst]. clear Hr. induction Hc as [|c calls Hc _ IH]; [constructor|]. constructor; [by apply call_learns|exact IH].
  - cbn [fst snd] in *.
    assert (Hrec : ∀ i a s, last ss = Some s → ps' !! i = Some (Ret (Completed a)) → mj_get (flat_key rid (st_id s)) (jr w') = Some a).
    { intros i a s Hl Hi. destruct (Forall2_lookup_r _ _ _ _ _ Hps Hi) as (g & Hg & [_ Hkn]). cbn [says_result] in Hkn. unfold says_last, last_key in Hkn.
      rewrite Hl in Hkn. cbn in Hkn. rewrite Forall_forall in Hk. specialize (Hk g (list_elem_of_lookup_2 _ _ _ Hg)). rewrite Forall_forall in Hk.
      destruct Hkn as [Hin|Hin]; [by apply Hk in Hin as [_ Hin]|by apply Hk in Hin]. }
    split; [exact Hrec|]. intros i j a b Hi Hj. destruct (last ss) as [s|] eqn:Hl; [|by apply last_None in Hl].
    pose proof (Hrec i a s eq_refl Hi) as H1. pose proof (Hrec j b s eq_refl Hj) as H2. congruence.
Qed.
End Theorems.

(** ** Cancellation *)

Section Canceled.
Context {Q R : Type}.
Variable rid : string.
Variable ks : list string.                    (** the keys that must not change *)
Variable j0 : mem_journal js.
Variable t0 : list Q.
Hypothesis Hstatus : statusKey rid ∉ ks.
Hypothesis Hreserved : ∀ x, rid +:+ ":wf:_" +:+ x ∉ ks.
Abbreviation prog := (prog js Q R wf_error).
Abbreviation answer r := (outcome wf_error (ans (R := R) r)).

(** The ghost state: has this caller read that the run is not canceled? *)
Definition idle_allowed (misled : bool) (r : req js Q) : Prop :=
  misled = true ∨ match r with
  | RPut k v => (k ∉ ks) ∧ (k = canceledKey rid → v ≠ JUndef)
  | RPutIfAbsent _ _ | RPutIfMatch _ _ _ | RExt _ => False
  | _ => True
  end.

Definition idle_next (misled : bool) (r : req js Q) : answer r → bool :=
  match r return answer r → bool with
  | RGet k => λ o, misled || match o with Ok v => String.eqb k (canceledKey rid) && is_undefined (default JUndef v) | Err _ => false end
  | _ => λ _, misled
  end.

Definition idle_inv (w : world js Q) (gs : list bool) : Prop :=
  is_undefined (default JUndef (mj_get (canceledKey rid) (jr w))) = false ∧ trace w = t0 ∧
  (∀ k, k ∈ ks → mj_get k (jr w) = mj_get k j0) ∧ Forall (λ g, g = false) gs.

Lemma idle_kept (h : oracle Q R wf_error) w r :
  idle_allowed false r → is_undefined (default JUndef (mj_get (canceledKey rid) (jr w))) = false → trace w = t0 → (∀ k, k ∈ ks → mj_get k (jr w) = mj_get k j0) →
  is_undefined (default JUndef (mj_get (canceledKey rid) (jr (snd (perform h r w))))) = false ∧ trace (snd (perform h r w)) = t0 ∧
  (∀ k, k ∈ ks → mj_get k (jr (snd (perform h r w))) = mj_get k j0).
Proof.
  intros [|Hal] Hf Ht Hk; [done|]. destruct r; try done; cbn [perform snd jr set_jr trace]. destruct Hal as [Hin Hv]. split_and!; [|done|].
  - destruct (decide (canceledKey rid = k)) as [<-|Hne]; [|by rewrite mj_get_put_ne]. rewrite mj_get_put. cbn. destruct v; try done. by destruct (Hv eq_refl).
  - intros k' Hk'. rewrite mj_get_put_ne; [by apply Hk|]. by intros ->.
Qed.

Lemma idle_inv_perform (h : oracle Q R wf_error) w gs i g r :
  gs !! i = Some g → idle_allowed g r → idle_inv w gs → idle_inv (snd (perform h r w)) (<[i := idle_next g r (fst (perform h r w))]> gs).
Proof.
  intros Hi Hal (Hf & Ht & Hk & Hg). pose proof (Forall_lookup_1 _ _ _ _ Hg Hi) as ->.
  destruct (idle_kept h w r Hal Hf Ht Hk) as (H1 & H2 & H3). split_and!; [done..|]. apply Forall_insert; [done|].
  destruct r; try done. cbn [perform fst idle_next]. cbn [orb]. destruct (String.eqb_spec k (canceledKey rid)) as [->|]; [|done]. exact Hf.
Qed.

Lemma idle_inv_fail (h : oracle Q R wf_error) w gs i g r e :
  gs !! i = Some g → idle_allowed g r → idle_inv w gs →
  idle_inv w (<[i := idle_next g r (Err e)]> gs) ∧ idle_inv (snd (perform h r w)) (<[i := idle_next g r (Err e)]> gs).
Proof.
  intros Hi Hal (Hf & Ht & Hk & Hg). pose proof (Forall_lookup_1 _ _ _ _ Hg Hi) as ->.
  assert (Hg' : Forall (λ g, g = false) (<[i := idle_next false r (Err e)]> gs)) by (apply Forall_insert; [done|by destruct r]).
  destruct (idle_kept h w r Hal Hf Ht Hk) as (H1 & H2 & H3). by split; split_and!.
Qed.

Lemma idle_inv_time (w : world js Q) gs c x : (clock w ≤ c)%Z → idle_inv w gs → idle_inv (World (jr w) c x (trace w) (work w)) gs.
Proof. by intros _. Qed.

Abbreviation judged := (safe idle_allowed idle_next).

(** A caller that is not misled answers that the run is canceled. *)
Definition stands_down (misled : bool) (o : outcome wf_error wf_result) : Prop :=
  misled = true ∨ match o with Ok r => ∃ id reason, r = Canceled id reason | Err _ => True end.

Lemma misled_safe {A} (post : bool → outcome wf_error A → Prop) (p : prog A) : (∀ o, post true o) → judged post true p.
Proof. intros Hp. induction p as [a|e|r k IH]; [apply Hp|apply Hp|]. split; [by left|]. intros o. by destruct r; apply IH. Qed.

Lemma idle_bind {A B} g (p : prog A) (f : A → prog B) (post : bool → outcome wf_error B → Prop) :
  judged (λ _ _, True) g p → (∀ g' a, judged post g' (f a)) → (∀ g' e, post g' (Err e)) → judged post g (pbind f p).
Proof. intros Hp Hf He. eapply safe_bind; [exact Hp|by intros; apply Hf|by intros]. Qed.

Lemma idle_put g k v : k ∉ ks → (k = canceledKey rid → v ≠ JUndef) → judged (λ _ _, True) g (jput k v : prog unit).
Proof. intros Hk Hv. split; [by right|]. by intros [[]|e]. Qed.

Lemma idle_status g fields name : judged (λ _ _, True) g (putStatus rid fields name : prog unit).
Proof using Hstatus.
  unfold putStatus, pcatch. apply idle_bind; [|done|done]. eapply (safe_try _ _ _ (λ _ _, True)); [|done|done].
  apply idle_bind; [|done|done]. apply idle_bind; [split; [by right|by intros [t|e]]| |done]. intros g' t.
  apply idle_put; [done|]. unfold statusKey, canceledKey. intros Heq. apply (f_equal colons) in Heq. rewrite !colons_app in Heq.
  change (colons "wfrun:") with 1 in Heq. change (colons ":wf:_canceled") with 2 in Heq. lia.
Qed.

Lemma idle_deliver g payloads : judged (λ _ _, True) g (deliver rid payloads : prog unit).
Proof using Hreserved.
  revert g. induction payloads as [|[waitId v] ps IH]; intros g; [done|]. apply idle_bind; [|by intros|done].
  apply idle_put; [apply (Hreserved ("resume:" +:+ waitId))|]. unfold resumeKey, canceledKey. by intros H%str_app_inj_l.
Qed.

(** The test of a step boundary answers a reason, unless the caller is misled. *)
Lemma idle_check g ctx id opts :
  sc_runId ctx = rid →
  judged (λ g' o, g' = true ∨ match o with Ok None => False | _ => True end) g (check_cancel ctx id opts : prog (option js)).
Proof using Hstatus Hreserved.
  intros Hr. unfold check_cancel. rewrite Hr. split; [by right|]. intros [v|e]; cbn -[canceledKey putStatus dateNow jput]; [|by right].
  destruct (is_undefined (default JUndef v)) eqn:Hu.
  - rewrite String.eqb_refl, orb_true_r. apply misled_safe. by left.
  - rewrite andb_false_r, orb_false_r. cbn -[canceledKey putStatus]. apply idle_bind; [apply idle_status|by right|by right].
Qed.

Lemma idle_resume caps g s ss input entry opts :
  en_runId entry = rid → judged stands_down g (runResumable caps (s :: ss) input entry opts).
Proof using Hstatus Hreserved.
  intros Hr. unfold runResumable. apply idle_bind; [cbn [withIdentity sc_runId]; rewrite Hr; apply idle_deliver| |by right]. intros g1 _.
  cbn [resume_from]. eapply safe_bind; [by apply idle_check| |by right]. intros g2 [reason|] Hc.
  - right. by do 2 eexists.
  - destruct Hc as [->|[]]. apply misled_safe. by left.
Qed.
End Canceled.

(** Once a run's cancellation is recorded, no [runResumable] of it executes anything more: in every interleaving of any number of
    calls, whatever payloads they deliver, no host request is made, no record of a step is written, and every call that
    returns answers [canceled]. *)
Theorem canceled_runs_nothing {Q R} caps rid (ss : list (@step Q R)) calls w ps' w' :
  ss ≠ [] → Forall (λ s, starts_with "_" (st_id s) = false) ss →
  Forall (λ c, match c with Resumable _ entry _ => en_runId entry = rid | Plain _ _ => False end) calls →
  is_undefined (default JUndef (mj_get (canceledKey rid) (jr w))) = false →
  reachable (map (run_prog caps ss) calls, w) (ps', w') →
  trace w' = trace w ∧ (∀ s, s ∈ ss → mj_get (flat_key rid (st_id s)) (jr w') = mj_get (flat_key rid (st_id s)) (jr w)) ∧
  (∀ i r, ps' !! i = Some (Ret r) → ∃ id reason, r = Canceled id reason).
Proof.
  intros Hne Hid Hc Hf Hr. destruct ss as [|s0 ss0]; [done|]. set (ss := s0 :: ss0) in *. pose (ks := run_records rid ss).
  destruct (pool_safe (idle_allowed rid ks) (idle_next rid) (idle_inv rid ks (jr w) (trace w)) (idle_inv_perform rid ks (jr w) (trace w))
    (idle_inv_fail rid ks (jr w) (trace w)) (idle_inv_time rid ks (jr w) (trace w)) stands_down _ _ (replicate (length calls) false) Hr) as (gs' & (_ & Ht & Hk & Hg) & Hps).
  - split_and!; [exact Hf|done|done|by apply Forall_replicate].
  - cbn [fst]. clear Hr. induction Hc as [|c calls Hc _ IH]; [constructor|]. constructor; [|exact IH]. destruct c as [|input entry opts]; [done|].
    apply idle_resume; [apply status_not_record|by intros x; apply reserved_not_record|done].
  - cbn [fst snd] in *. split_and!; [done| |].
    + intros s Hs. apply Hk. apply list_elem_of_fmap. by exists s.
    + intros i r Hi. destruct (Forall2_lookup_r _ _ _ _ _ Hps Hi) as (g & Hgi & [->|H]); [|exact H].
      by rewrite Forall_forall in Hg; specialize (Hg true (list_elem_of_lookup_2 _ _ _ Hgi)).
Qed.

(** ** Two workers, and a host that never repeats itself *)

Definition fickle : oracle string js wf_error := λ t q, Ok (JStr (q +:+ dec (N.of_nat (length t)))).
Definition draft (id : string) : @step string js := Step id (λ _ _, r ← request (RExt id); mret (JObj [("text", r)])) None.
Definition story : list (@step string js) := [draft "plan"; draft "write"].
Definition workers : list (@run_call string js) :=
  [Plain JNull (plain_entry "r"); Resumable JNull (plain_entry "r") (ResumeOptions None [] None None)].
Definition quiet_world : world js string := World empty_journal 0 0 [] empty_work.
Definition worked : config js string js wf_error wf_result :=
  schedule fickle (concat (replicate 20 [0; 1])) (map (run_prog full_caps story) workers, quiet_world).
Definition canceled_world : world js string := snd (run (A := bool) fickle (cancelWorkflowRun "r" (JStr "stop")) quiet_world).
Definition idled : config js string js wf_error wf_result :=
  schedule fickle (concat (replicate 20 [0])) (map (run_prog full_caps story) (drop 1 workers), canceled_world).

Lemma draft_agrees ks id :
  step_key (withIdentity (plain_entry "r")) id ∈ ks → claim_key (step_key (withIdentity (plain_entry "r")) id) ∉ ks →
  agreeing ks (withIdentity (plain_entry "r")) (draft id).
Proof.
  intros Hk Hc. split; [done|done| |done]. intros input c. split.
  - split; [done|]. by intros [a|e].
  - by intros [a|e].
Qed.

Lemma story_agrees : Forall (agreeing (run_records "r" story) (withIdentity (plain_entry "r"))) story.
Proof. constructor; [|constructor; [|constructor]]; apply draft_agrees; by apply (bool_decide_unpack _). Qed.

Lemma story_ids : Forall (λ s, starts_with "_" (st_id s) = false) story.
Proof. by repeat constructor. Qed.

Lemma workers_calls : Forall (call_of "r" story) workers.
Proof. constructor; [by split_and!|constructor; [|constructor]]. split_and!; [done|done|by intros p]. Qed.

Lemma runs_agree_witness :
  ∃ a, fst worked !! 0 = Some (Ret (Completed a)) ∧ fst worked !! 1 = Some (Ret (Completed a)) ∧
    mj_get "r:wf:write" (jr (snd worked)) = Some a.
Proof.
  assert (Hr : reachable (map (run_prog full_caps story) workers, quiet_world) (fst worked, snd worked)) by (rewrite <- surjective_pairing; apply schedule_reachable).
  assert (H0 : ∃ a, fst worked !! 0 = Some (Ret (Completed a))) by (eexists; vm_compute; reflexivity).
  assert (H1 : ∃ b, fst worked !! 1 = Some (Ret (Completed b))) by (eexists; vm_compute; reflexivity).
  destruct H0 as [a Ha], H1 as [b Hb].
  destruct (runs_agree full_caps "r" story workers quiet_world (fst worked) (snd worked) eq_refl ltac:(discriminate) story_agrees story_ids workers_calls
    ltac:(intros k _; discriminate) Hr) as [Hrec Hag].
  exists a. split_and!; [exact Ha|by rewrite (Hag 0 1 a b Ha Hb)|exact (Hrec 0 a (draft "write") eq_refl Ha)].
Defined.

(** A step that answers [undefined] the first time: its record does not count as one, and the loser of the race to record
    returns its own output. *)
Definition shy : oracle string js wf_error := λ t _, Ok (if length t =? 0 then JUndef else JStr "late").
Definition shy_run : prog js string js wf_error wf_result :=
  run_prog full_caps [Step "ask" (λ _ _, request (RExt "ask")) None] (Plain JNull (plain_entry "r")).

Example undefined_disagrees :
  let '(first, w1) := run shy shy_run quiet_world in
  (first, fst (run shy shy_run w1)) = (Ok (Completed JUndef), Ok (Completed (JStr "late"))).
Proof. vm_compute. reflexivity. Qed.

Lemma canceled_runs_nothing_witness :
  trace (snd idled) = [] ∧ fst idled !! 0 = Some (Ret (Canceled "plan" (JStr "stop"))).
Proof.
  assert (Hr : reachable (map (run_prog full_caps story) (drop 1 workers), canceled_world) (fst idled, snd idled))
    by (rewrite <- surjective_pairing; apply schedule_reachable).
  assert (Hc : Forall (λ c : @run_call string js, match c with Resumable _ entry _ => en_runId entry = "r" | Plain _ _ => False end) (drop 1 workers))
    by (constructor; [reflexivity|constructor]).
  destruct (canceled_runs_nothing full_caps "r" story (drop 1 workers) canceled_world (fst idled) (snd idled) ltac:(discriminate) story_ids Hc
    ltac:(vm_compute; reflexivity) Hr) as (Ht & _ & _).
  split; [rewrite Ht; vm_compute; reflexivity|vm_compute; reflexivity].
Defined.
