(* ===== verification/WorkflowRetry.v ===== *)
(** * WorkflowRetry: the attempts of a retried step

    [retry] (module [Workflow]) alone: which attempts start, what is counted, how it ends, over any sequence
    of calls; and what a process that dies inside an attempt leaves uncounted. *)

From S2P Require Import Prelude JsMap Keys Journal Work Prog Json Hash Format RunIdentity ToolTypes Workflow WorkflowRuns.

Section Retry.
Context {Q R : Type}.
Variable caps : journal_caps.
Variable has_counters : bool.
Variable h : oracle Q R wf_error.
Abbreviation world := (world js Q).
Abbreviation wf_step := (@step Q R).

(** The journal's counter of a retried step reads [u]; once seeded, the atomic counter is not behind the plain one. *)
Definition counted (key : string) (u : Z) (w : world) : Prop :=
  ∃ legacy, counter_of (record_at key w) = Some legacy ∧
  if has_counters then match mj_getCounters key (jr w) ≫= mget "n" with
                       | Some c => c = u ∧ (0 ≤ legacy ≤ u)%Z
                       | None => legacy = u ∧ (0 ≤ u)%Z
                       end
  else legacy = u ∧ (0 ≤ u)%Z.

Lemma run_readAttempts key u w : counted key u w → run h (readAttempts has_counters key) w = (Ok (Some u), w).
Proof.
  intros (l & Hl & Hc). unfold readAttempts. run_step. rewrite run_wf_get, Hl. destruct has_counters.
  - rewrite run_bind, (run_request h (RGetCounters key)). cbn [perform run].
    revert Hc. destruct (mj_getCounters key (jr w)) as [m|]; cbn; [destruct (mget "n" m)|]; cbn; intros Hc; repeat f_equal; lia.
  - by destruct Hc as [-> _].
Qed.

Lemma counted_counter key u w l :
  has_counters = true → counter_of (record_at key w) = Some l → counted key u w →
  counted key (u + 1) (set_jr (mj_incrBy key [("n", match mj_getCounters key (jr w) ≫= mget "n" with Some _ => 1%Z | None => (u + 1)%Z end)] (jr w)) w).
Proof.
  intros Hhc Hl (l' & Hl' & Hc). rewrite Hl in Hl'. injection Hl' as <-. exists l. split; [done|]. rewrite Hhc in *.
  unfold mj_getCounters in *. cbn [jr set_jr mj_incrBy counters]. rewrite mget_mset. cbn [mbind option_bind].
  unfold add_fields. cbn [fold_left]. rewrite mget_mset. destruct (mget key (counters (jr w))) as [m|] eqn:Hm; cbn [mbind option_bind default] in *.
  - destruct (mget "n" m) as [c|] eqn:Hn; unfold id; cbn [default] in *; rewrite ?Hn; cbn; lia.
  - cbn. lia.
Qed.

Lemma run_bump key u w :
  counted key u w →
  ∃ w', run h (bumpAttempts has_counters key (u + 1)) w = (Ok tt, w') ∧ trace w' = trace w ∧ counted key (u + 1) w'.
Proof.
  intros Hc. unfold bumpAttempts. destruct has_counters eqn:Hhc.
  - run_step. rewrite (run_request h (RGetCounters key)). cbn [perform]. rewrite (run_request h (RIncrBy key _)). cbn [perform].
    eexists. split; [done|]. split; [done|]. destruct Hc as (l & Hl & Hc). eapply counted_counter; [done|exact Hl|]. by exists l.
  - unfold jput. rewrite (run_request h (RPut key (JNum (u + 1)))). cbn [perform]. eexists. split; [done|]. split; [done|].
    destruct Hc as (l & Hl & Hc). exists (u + 1)%Z. rewrite Hhc in *. unfold record_at. cbn [jr set_jr]. rewrite mj_get_put. cbn. split; [done|lia].
Qed.

Lemma run_wait_between p used w : ∃ w', run h (wait_between p used) w = (Ok tt, w') ∧ jr w' = jr w ∧ trace w' = trace w.
Proof.
  unfold wait_between. destruct (rp_backoffMs p) as [f|]; [destruct (_ && _)|]; by eexists.
Qed.

Lemma counted_jr key u w w' : jr w' = jr w → counted key u w → counted key u w'.
Proof. unfold counted, record_at. by intros ->. Qed.

(** ** The attempts *)

Variable s : wf_step.
Variable q : Q.
Variable verdict : nat → outcome wf_error js. (** of the attempt that starts when so many host requests were made *)
Hypothesis Hplain : is_side_effect s = None.
Hypothesis Hbody : ∀ input c w, run h (st_run s input c) w = (verdict (length (trace w)), logged [q] w).

Inductive retry_end :=
| Landed (v : js)                             (** an attempt returned *)
| Waits (e : wf_error)                        (** an attempt suspended *)
| Spent (last : option wf_error).             (** the budget is used up *)

(** How many attempts start, how many failures are counted, and how it ends: [left] attempts are left. *)
Fixpoint tried (left t : nat) (last : option wf_error) : nat * nat * retry_end :=
  match left with
  | 0 => (0, 0, Spent last)
  | S left' =>
      match verdict t with
      | Ok v => (1, 0, Landed v)
      | Err e => if is_suspension e then (1, 0, Waits e)
                 else let '(b, f, r) := tried left' (S t) (Some e) in (S b, S f, r)
      end
  end.

Lemma tried_bounds left t last : let '(b, f, r) := tried left t last in b ≤ left ∧ f ≤ b.
Proof.
  revert t last. induction left as [|left IH]; intros t last; cbn [tried]; [lia|]. destruct (verdict t) as [v|e]; [lia|].
  destruct (is_suspension e); [lia|]. specialize (IH (S t) (Some e)). destruct (tried left (S t) (Some e)) as [[b f] r]. lia.
Qed.

Lemma tried_spent left t last : let '(b, f, r) := tried left t last in ∀ l, r = Spent l → f = left.
Proof.
  revert t last. induction left as [|left IH]; intros t last; cbn [tried]; [done|]. destruct (verdict t) as [v|e]; [done|].
  destruct (is_suspension e); [done|]. specialize (IH (S t) (Some e)). destruct (tried left (S t) (Some e)) as [[b f] r].
  intros l Hl. by rewrite (IH l Hl).
Qed.

(** The loop's answer, as [retry_run] reads it. *)
Definition loop_answer (u : Z) (r : retry_end) : outcome wf_error (js + (Z * option wf_error)) :=
  match r with Landed v => Ok (inl v) | Waits e => Err e | Spent last => Ok (inr (u, last)) end.

Lemma logged_one (w : world) : trace (logged [q] w) = q :: trace w.
Proof. done. Qed.

Lemma run_retry_from p input ctx left u last w :
  counted (attempts_key ctx (st_id s)) u w →
  let '(b, f, r) := tried left (length (trace w)) last in
  ∃ w', run h (retry_from has_counters s p input ctx left u last) w = (loop_answer (u + Z.of_nat f) r, w') ∧
    trace w' = replicate b q ++ trace w ∧ counted (attempts_key ctx (st_id s)) (u + Z.of_nat f) w'.
Proof using Hbody Hplain.
  revert u last w. induction left as [|left IH]; intros u last w Hc; cbn [tried retry_from].
  - exists w. by rewrite Z.add_0_r.
  - run_step. rewrite run_catch, Hbody. cbn [fst snd].
    assert (Hc1 : counted (attempts_key ctx (st_id s)) u (logged [q] w)) by (by apply (counted_jr _ _ w)).
    destruct (verdict (length (trace w))) as [v|e]; [exists (logged [q] w); by rewrite Z.add_0_r|].
    destruct (is_suspension e); [exists (logged [q] w); by rewrite Z.add_0_r|].
    destruct (run_bump _ _ _ Hc1) as (w2 & Hb & Ht2 & Hc2). rewrite run_bind, Hb. unfold recover_between. rewrite Hplain. cbn [run pbind].
    destruct (run_wait_between p (u + 1) w2) as (w3 & Hw & Hj3 & Ht3). unfold mret, prog_ret. cbn [pbind]. rewrite run_bind, Hw.
    specialize (IH (u + 1)%Z (Some e) w3 (counted_jr _ _ w2 w3 Hj3 Hc2)). rewrite Ht3, Ht2, logged_one in IH. cbn [length] in IH.
    destruct (tried left (S (length (trace w))) (Some e)) as [[b f] r]. destruct IH as (w4 & Hr & Ht4 & Hc4). exists w4.
    replace (u + Z.of_nat (S f))%Z with (u + 1 + Z.of_nat f)%Z by lia. split; [exact Hr|]. split; [|exact Hc4].
    rewrite Ht4. by rewrite (replicate_S_end b), <- app_assoc.
Qed.
End Retry.

(** What the record of a substitution says. *)
Definition substituted (f : string) (used : Z) : js :=
  JObj [("__gnlFallback", JBool true); ("attempts", JNum used); ("stepId", JStr f)].

(** C40: a retried step alone, when it has no side effects and whatever its attempts answer: with [u] failures counted so far
    it starts attempts until one returns, one suspends or [attempts - u] have failed, counts each failure in the journal and no
    suspension, so that a later call goes on with what is left.  Its output is the attempt's.  When the budget is spent it fails
    with [RetryExhaustedError] and the last failure as its cause, and changes nothing more; or, when there is a fallback, it is
    the fallback's step, and its success is marked as a substitution after so many attempts. *)
Theorem retry_exact {Q R} caps has_counters (h : oracle Q R wf_error) s q verdict p s' input ctx u w :
  is_side_effect s = None →
  (∀ input c w, run h (st_run s input c) w = (verdict (length (trace w)), logged [q] w)) →
  retry caps has_counters s p = Ok s' → counted has_counters (attempts_key ctx (st_id s)) u w → (u ≤ rp_attempts p)%Z →
  let '(started, failed, r) := tried verdict (Z.to_nat (rp_attempts p - u)) (length (trace w)) None in
  (u + Z.of_nat started ≤ rp_attempts p)%Z ∧ (failed ≤ started) ∧
  ∃ w1, trace w1 = replicate started q ++ trace w ∧ counted has_counters (attempts_key ctx (st_id s)) (u + Z.of_nat failed) w1 ∧
    match r with
    | Landed v => run h (st_run s' input ctx) w = (Ok v, w1)
    | Waits e => run h (st_run s' input ctx) w = (Err e, w1)
    | Spent last =>
        (u + Z.of_nat failed = rp_attempts p)%Z ∧
        match rp_fallback p with
        | None => run h (st_run s' input ctx) w =
            (Err (match last with Some e => EExhaustedBy (st_id s) (rp_attempts p) e | None => EExhausted (st_id s) (rp_attempts p) end), w1)
        | Some f =>
            match run h (runStep caps f input ctx) w1 with
            | (Err e, w2) => run h (st_run s' input ctx) w = (Err e, w2)
            | (Ok v, w2) => ∃ w3, run h (st_run s' input ctx) w = (Ok v, w3) ∧
                record_at (fallbackMarkerKey ctx (st_id s)) w3 = substituted (st_id f) (rp_attempts p) ∧
                (∀ k, k ≠ fallbackMarkerKey ctx (st_id s) → mj_get k (jr w3) = mj_get k (jr w2)) ∧ trace w3 = trace w2
            end
        end
    end.
Proof.
  intros Hs Hb Hr Hc Hu. unfold retry in Hr. destruct (rp_attempts p <? 1)%Z eqn:Ha; [done|]. injection Hr as <-. cbn [st_run].
  pose proof (tried_bounds verdict (Z.to_nat (rp_attempts p - u)) (length (trace w)) None) as Hbd.
  pose proof (tried_spent verdict (Z.to_nat (rp_attempts p - u)) (length (trace w)) None) as Hsp.
  pose proof (run_retry_from has_counters h s q verdict Hs Hb p input ctx (Z.to_nat (rp_attempts p - u)) u None w Hc) as Hl.
  destruct (tried _ _ _ _) as [[b f] r]. destruct Hl as (w1 & Hrun & Ht & Hc1). split; [lia|]. split; [lia|]. exists w1. split; [done|]. split; [done|].
  assert (Hgo : run h (retry_run caps has_counters s p input ctx) w =
    match r with Landed v => (Ok v, w1) | Waits e => (Err e, w1)
    | Spent last => run h (after_attempts caps s p input ctx (Some (u + Z.of_nat f)%Z) last) w1 end).
  { unfold retry_run. run_step. rewrite (run_readAttempts has_counters h _ u) by done. rewrite run_bind, Hrun. by destruct r. }
  rewrite Hgo. destruct r as [v|e|last]; [done..|]. specialize (Hsp last eq_refl).
  assert (Hfull : (u + Z.of_nat f = rp_attempts p)%Z) by lia. split; [exact Hfull|]. rewrite Hfull.
  unfold after_attempts. destruct (rp_fallback p) as [f'|]; [|done]. run_step.
  destruct (run h (runStep caps f' input ctx) w1) as [[v|e] w2]; [|done]. run_step.
  eexists. split; [reflexivity|]. split; [|split; [|done]].
  - unfold record_at. cbn -[mj_put mj_get]. by rewrite mj_get_put.
  - intros k Hk. cbn -[mj_put mj_get]. by rewrite mj_get_put_ne.
Qed.

(** ** Attempts that a crash leaves uncounted *)

Lemma rev_same {A} n (x : A) : rev (replicate n x) = replicate n x.
Proof. rewrite rev_alt. apply reverse_replicate. Qed.

Section Crash.
Context {Q : Type}.
Variable caps : journal_caps.
Variable has_counters : bool.
Variable h : oracle Q js wf_error.
Abbreviation prog := (prog js Q js wf_error).

(** One process of a pool executes the first part of its program. *)
Lemma reachable_prefix {A B} (ps : list (prog B)) i (p : prog A) (f : A → prog B) a w w1 :
  ps !! i = Some (pbind f p) → run h p w = (Ok a, w1) → reachable (ps, w) (<[i := f a]> ps, w1).
Proof.
  revert ps w. induction p as [b|e|r k IH]; intros ps w Hi Hr; cbn in Hr; [|done|].
  - injection Hr as -> ->. rewrite list_insert_id by exact Hi. apply rtc_refl.
  - destruct (perform h r w) as [o w2] eqn:Hp. eapply rtc_l; [apply (step_ok h); exact Hi|]. rewrite Hp. cbn [fst snd].
    rewrite <- (list_insert_insert_eq ps i (f a) (pbind f (k o))). apply (IH o _ w2); [|exact Hr].
    apply list_lookup_insert_eq. by eapply lookup_lt_Some.
Qed.

Variable s : @step Q js.
Variable q : Q.
Variable p : retry_policy (Q := Q) (R := js).
Variable input : js.
Variable ctx : step_ctx.
Hypothesis Hbody : st_run s input ctx = request (RExt q).
Hypothesis Hattempts : (1 ≤ rp_attempts p)%Z.
Abbreviation retried := (retry_run caps has_counters s p input ctx).

(** A process reads the counter, starts its attempt, and is not heard of again. *)
Lemma attempt_starts (ps : list (prog js)) i w :
  counted has_counters (attempts_key ctx (st_id s)) 0 w → ps !! i = Some retried →
  ∃ p', reachable (ps, w) (<[i := p']> ps, logged [q] w).
Proof using Hbody Hattempts h.
  intros Hc Hi. pose proof (lookup_lt_Some _ _ _ Hi) as Hlt. unfold retry_run in Hi.
  pose proof (reachable_prefix ps i (readAttempts has_counters (attempts_key ctx (st_id s))) _ (Some 0%Z) w w Hi (run_readAttempts has_counters h _ 0 w Hc)) as Hr.
  cbn beta iota in Hr. replace (Z.to_nat (rp_attempts p - 0)) with (S (Z.to_nat (rp_attempts p - 1))) in Hr by lia. cbn [retry_from] in Hr. rewrite Hbody in Hr.
  eexists. etrans; [exact Hr|]. eapply rtc_l; [apply (step_ok h _ _ i (RExt q)); apply list_lookup_insert_eq; exact Hlt|].
  rewrite list_insert_insert_eq. cbn [perform fst snd]. apply rtc_refl.
Qed.

(** Processes that each die inside their attempt: [m] of [n] have started. *)
Lemma crashes_reach n m w :
  counted has_counters (attempts_key ctx (st_id s)) 0 w → m ≤ n →
  ∃ ps, reachable (replicate n retried, w) (ps, logged (replicate m q) w) ∧ ∀ i, m ≤ i → i < n → ps !! i = Some retried.
Proof using Hbody Hattempts h.
  intros Hc. induction m as [|m IH]; intros Hm.
  - exists (replicate n retried). split; [destruct w; apply rtc_refl|]. intros i _ Hi. by apply lookup_replicate_2.
  - destruct IH as (ps & Hr & Hps); [lia|].
    destruct (attempt_starts ps m (logged (replicate m q) w)) as [p' Hr']; [by apply (counted_jr _ _ _ w)|apply Hps; lia|].
    exists (<[m := p']> ps). split.
    + etrans; [exact Hr|]. replace (logged (replicate (S m) q) w) with (logged [q] (logged (replicate m q) w)); [exact Hr'|].
      unfold logged. cbn [jr clock wall trace work rev app]. f_equal. by rewrite !rev_same.
    + intros i H1 H2. rewrite list_lookup_insert_ne by lia. apply Hps; lia.
Qed.
End Crash.

(** An attempt is counted when it has failed, not when it starts: any number of processes that die inside the body start any
    number of attempts of a step that may be tried once, and the journal's counter stays at zero. *)
Theorem crashed_attempts_uncounted {Q} caps has_counters (h : oracle Q js wf_error) (s : @step Q js) q p s' input ctx n w :
  st_run s input ctx = request (RExt q) → retry caps has_counters s p = Ok s' → counted has_counters (attempts_key ctx (st_id s)) 0 w →
  ∃ ps w', reachable (replicate n (st_run s' input ctx), w) (ps, w') ∧
    trace w' = replicate n q ++ trace w ∧ counted has_counters (attempts_key ctx (st_id s)) 0 w'.
Proof.
  intros Hb Hr Hc. unfold retry in Hr. destruct (rp_attempts p <? 1)%Z eqn:Ha; [done|]. injection Hr as <-. cbn [st_run].
  destruct (crashes_reach caps has_counters h s q p input ctx Hb ltac:(lia) n n w Hc ltac:(lia)) as (ps & Hr & _).
  exists ps, (logged (replicate n q) w). split; [exact Hr|]. split; [|by apply (counted_jr _ _ _ w)].
  cbn [logged trace]. by rewrite rev_same.
Qed.

(** A host that fails twice, then answers. *)
Definition moody : oracle string js wf_error := λ t _, if length t <? 2 then Err (EHost (JStr "busy")) else Ok (JStr "paid").
Definition charge : @step string js := Step "charge" (λ _ _, request (RExt "charge")) None.
Definition thrice : @retry_policy string js := RetryPolicy 3 (Some (λ n, n * 100)%Z) None.
Definition till : world js string := World empty_journal 0 0 [] empty_work.
Definition charge_ctx : step_ctx := withIdentity (plain_entry "r").
Definition mood (n : nat) : outcome wf_error js := if n <? 2 then Err (EHost (JStr "busy")) else Ok (JStr "paid").

Lemma till_counted : counted true (attempts_key charge_ctx (st_id charge)) 0 till.
Proof. by exists 0%Z. Qed.

Lemma charge_moods input c w : run moody (st_run charge input c) w = (mood (length (trace w)), logged ["charge"] w).
Proof. cbn [st_run charge]. apply (run_request moody (RExt "charge")). Qed.

Lemma retry_exact_witness :
  ∃ w1, trace w1 = ["charge"; "charge"; "charge"] ∧ counted true "r:wf:charge:attempts" 2 w1 ∧
    run moody (retry_run full_caps true charge thrice JNull charge_ctx) till = (Ok (JStr "paid"), w1).
Proof.
  pose proof (retry_exact full_caps true moody charge "charge" mood thrice (Step "charge" (retry_run full_caps true charge thrice) None) JNull charge_ctx 0 till
    eq_refl charge_moods eq_refl till_counted ltac:(cbn; lia)) as (_ & _ & w1 & Ht & Hc & Hr).
  exists w1. split; [exact Ht|]. split; [exact Hc|exact Hr].
Defined.

(** Two attempts, both failed: the budget is spent. *)
Example twice_exhausted :
  fst (run moody (retry_run full_caps true charge (RetryPolicy 2 None None) JNull charge_ctx) till) = Err (EExhaustedBy "charge" 2 (EHost (JStr "busy"))).
Proof. vm_compute. reflexivity. Qed.

Lemma crashed_attempts_uncounted_witness :
  ∃ ps w', reachable (replicate 5 (retry_run full_caps true charge (RetryPolicy 1 None None) JNull charge_ctx), till) (ps, w') ∧
    trace w' = ["charge"; "charge"; "charge"; "charge"; "charge"] ∧ counted true "r:wf:charge:attempts" 0 w'.
Proof.
  exact (crashed_attempts_uncounted full_caps true moody charge "charge" (RetryPolicy 1 None None)
    (Step "charge" (retry_run full_caps true charge (RetryPolicy 1 None None)) None) JNull charge_ctx 5 till eq_refl eq_refl till_counted).
Defined.
