(* ===== verification/WorkflowFork.v ===== *)
(** * WorkflowFork: a fork replays the prefix and runs the rest

    [forkWorkflowRun] (module [Workflow]) followed by a run of the fork: what is copied, what is not, and what the
    fork's run executes. *)

From S2P Require Import Prelude JsMap Keys Journal Work Prog Json Hash Format RunIdentity ToolTypes Workflow WorkflowFrame WorkflowRuns.

Section Fork.
Context {Q R : Type}.
Variable caps : journal_caps.
Variable h : oracle Q R wf_error.
Abbreviation world := (world js Q).
Variable src dst : string.
Hypothesis Hsrc : has_char colon src = false.
Hypothesis Hdst : has_char colon dst = false.
Hypothesis Hne : src ≠ dst.

Lemma flat_apart a b : flat_key src a ≠ flat_key dst b.
Proof using Hsrc Hdst Hne. unfold flat_key. intros H. by apply (cut_at_char_inj colon) in H as [? _]. Qed.

Lemma flat_inj r a b : flat_key r a = flat_key r b → a = b.
Proof. unfold flat_key. by intros H%str_app_inj_l%(str_app_inj_l ":wf:"). Qed.

(** The keys of [dst] that copying may write, by what follows the run's prefix: below one step, and for the records of [ids]. *)
Definition nested_in (id t : string) : Prop := starts_with (id +:+ ":") t = true ∧ contains ":_" t = false.
Definition copied (ids : list string) (t : string) : Prop := ∃ id, id ∈ ids ∧ (t = id ∨ t = id +:+ ":_fallback" ∨ nested_in id t).

(** Nothing but keys of the fork is written. *)
Definition only (allowed : string → Prop) (w w' : world) : Prop :=
  trace w' = trace w ∧ ∀ k, (∀ t, k = flat_key dst t → ¬ allowed t) → mj_get k (jr w') = mj_get k (jr w).

Lemma only_refl allowed w : only allowed w w.
Proof. by split. Qed.

Lemma only_trans allowed w1 w2 w3 : only allowed w1 w2 → only allowed w2 w3 → only allowed w1 w3.
Proof. intros [T1 H1] [T2 H2]. split; [by rewrite T2|]. intros k Hk. by rewrite H2, H1. Qed.

Lemma only_mono (a a' : string → Prop) w w' : (∀ t, a t → a' t) → only a w w' → only a' w w'.
Proof. intros Ha [T H]. split; [done|]. intros k Hk. apply H. intros t Ht Hat. by apply (Hk t Ht), Ha. Qed.

Lemma only_put (a : string → Prop) t v w : a t → only a w (set_jr (mj_put (wall w) (flat_key dst t) v (jr w)) w).
Proof. intros Ht. split; [done|]. intros k Hk. apply mj_get_put_ne. intros ->. by apply (Hk t). Qed.

Lemma only_src a w w' x : only a w w' → record_at (flat_key src x) w' = record_at (flat_key src x) w.
Proof using Hsrc Hdst Hne. intros [_ H]. unfold record_at. rewrite H; [done|]. intros t Ht. by apply flat_apart in Ht. Qed.

Lemma run_put k v w : run h (jput k v) w = (Ok tt, set_jr (mj_put (wall w) k v (jr w)) w).
Proof. done. Qed.

Lemma run_copy_nested id keys w :
  Forall (λ k, ∃ x, k = flat_key src (id +:+ ":" +:+ x)) keys →
  ∃ w', run h (copy_nested src dst keys) w = (Ok tt, w') ∧ only (nested_in id) w w'.
Proof.
  revert w. induction keys as [|k keys IH]; intros w Hk; [exists w; split; [done|apply only_refl]|].
  apply Forall_cons in Hk as [[x ->] Hks]. cbn [copy_nested].
  assert (Htail : default "" (strip_prefix (src +:+ ":wf:") (flat_key src (id +:+ ":" +:+ x))) = id +:+ ":" +:+ x).
  { unfold flat_key. rewrite <- (str_app_assoc src), strip_prefix_app. done. }
  rewrite Htail. set (t := id +:+ ":" +:+ x).
  assert (Hstep : ∃ w1, run h (if contains ":_" t || ends_with ":attempts" t then mret tt
      else v ← wget (flat_key src t); if is_undefined v then mret tt else jput (dst +:+ ":wf:" +:+ t) v : prog js Q R wf_error unit) w = (Ok tt, w1) ∧ only (nested_in id) w w1).
  { destruct (contains ":_" t || ends_with ":attempts" t) eqn:Hc; [exists w; split; [done|apply only_refl]|].
    apply orb_false_iff in Hc as [Hc _]. run_step. rewrite run_wf_get. destruct (is_undefined (record_at (flat_key src t) w)); [exists w; split; [done|apply only_refl]|].
    rewrite run_put. eexists. split; [done|]. apply (only_put (nested_in id) t). split; [|done]. unfold t. rewrite <- str_app_assoc. apply starts_with_app. }
  destruct Hstep as (w1 & Hr1 & Ho1). destruct (IH w1 Hks) as (w2 & Hr2 & Ho2). exists w2. split; [|by eapply only_trans].
  unfold mbind, prog_bind in *. rewrite run_bind, Hr1. exact Hr2.
Qed.

Lemma listKeys_starts p (j : mem_journal js) : Forall (λ k, ∃ x, k = p +:+ x) (mj_listKeys p j).
Proof. apply Forall_forall. intros k [Hk _]%list_elem_of_filter. by apply starts_with_spec. Qed.

(** What [copy_steps] answers: the ids whose records the source has. *)
Definition had (w : world) (ids : list string) : list string := List.filter (λ id, negb (is_undefined (record_at (flat_key src id) w))) ids.

Lemma copied_free ids t : (∀ id, id ∈ ids → t ≠ id ∧ starts_with (id +:+ ":") t = false) → ¬ copied ids t.
Proof.
  intros Hf (id & Hid & [->|[->|[Hs _]]]); destruct (Hf _ Hid) as [H1 H2]; [done| |congruence].
  change (id +:+ ":_fallback") with (id +:+ (":" +:+ "_fallback")) in H2. by rewrite <- str_app_assoc, starts_with_app in H2.
Qed.

Lemma only_get a w w' t : only a w w' → ¬ a t → mj_get (flat_key dst t) (jr w') = mj_get (flat_key dst t) (jr w).
Proof. intros [_ H] Ht. apply H. by intros t' ->%flat_inj. Qed.

(** One step's record, and the marker that it came from a fallback. *)
Lemma run_copy_record id w :
  let flat := record_at (flat_key src id) w in
  ∃ w', run h (if is_undefined flat then mret tt
      else _ ← jput (flat_key dst id) flat; marker ← wget (flat_key src id +:+ ":_fallback");
           if is_undefined marker then mret tt else jput (flat_key dst id +:+ ":_fallback") marker : prog js Q R wf_error unit) w = (Ok tt, w') ∧
    only (copied [id]) w w' ∧
    mj_get (flat_key dst id) (jr w') = if is_undefined flat then mj_get (flat_key dst id) (jr w) else Some flat.
Proof.
  intros flat. destruct (is_undefined flat) eqn:Hu; [exists w; split; [done|split; [apply only_refl|done]]|].
  unfold mbind, prog_bind. rewrite run_bind, run_put. set (w1 := set_jr _ w).
  assert (Ho : only (copied [id]) w w1) by (apply only_put; exists id; split; [left|by left]).
  assert (Hg : mj_get (flat_key dst id) (jr w1) = Some flat) by (apply mj_get_put).
  rewrite run_bind, run_wf_get. destruct (is_undefined (record_at (flat_key src id +:+ ":_fallback") w1)); [by exists w1|]. rewrite run_put.
  assert (Hf : flat_key dst id +:+ ":_fallback" = flat_key dst (id +:+ ":_fallback")) by (unfold flat_key; by rewrite !str_app_assoc).
  eexists. split; [done|]. split.
  - eapply only_trans; [exact Ho|]. rewrite Hf. apply only_put. exists id. split; [left|]. by right; left.
  - cbn [jr set_jr]. rewrite mj_get_put_ne; [exact Hg|]. rewrite Hf. intros H%flat_inj. apply (f_equal String.length) in H. rewrite str_length_app in H. cbn in H. lia.
Qed.

(** The records below one step. *)
Lemma run_copy_below id w :
  ∃ w', run h (if has_listKeys caps then keys ← request (RListKeys (flat_key src id +:+ ":") None); copy_nested src dst keys else mret tt
      : prog js Q R wf_error unit) w = (Ok tt, w') ∧ only (nested_in id) w w'.
Proof.
  destruct (has_listKeys caps); [|exists w; split; [done|apply only_refl]].
  run_step. rewrite (run_request h (RListKeys (flat_key src id +:+ ":") None)). cbn [perform]. apply run_copy_nested.
  eapply Forall_impl; [apply listKeys_starts|]. intros k [x ->]. exists x. unfold flat_key. by rewrite !str_app_assoc.
Qed.

Lemma run_copy_steps ids w :
  NoDup ids → (∀ x y, x ∈ ids → y ∈ ids → starts_with (x +:+ ":") y = false) →
  ∃ w', run h (copy_steps caps src dst ids) w = (Ok (had w ids), w') ∧ only (copied ids) w w' ∧
    ∀ id, id ∈ ids → mj_get (flat_key dst id) (jr w') =
      if is_undefined (record_at (flat_key src id) w) then mj_get (flat_key dst id) (jr w) else Some (record_at (flat_key src id) w).
Proof using Hsrc Hdst Hne.
  intros Hnd Hun. revert w. induction ids as [|id ids IH]; intros w; [exists w; split; [done|split; [apply only_refl|by intros id []%elem_of_nil]]|].
  apply NoDup_cons in Hnd as [Hnin Hnd].
  destruct (run_copy_record id w) as (w1 & Hr1 & Ho1 & Hg1). destruct (run_copy_below id w1) as (w2 & Hr2 & Ho2).
  assert (Hun' : ∀ x y, x ∈ ids → y ∈ ids → starts_with (x +:+ ":") y = false) by (intros x y Hx Hy; apply Hun; by right).
  destruct (IH Hnd Hun' w2) as (w3 & Hr3 & Ho3 & Hg3). exists w3.
  assert (Ho12 : only (copied [id]) w w2).
  { eapply only_trans; [exact Ho1|]. eapply only_mono; [|exact Ho2]. intros t Ht. exists id. split; [left|by right; right]. }
  assert (Hhad : had w2 ids = had w ids).
  { unfold had. clear -Ho12 Hsrc Hdst Hne. induction ids as [|x ids IH]; [done|]. cbn. by rewrite (only_src _ _ _ x Ho12), IH. }
  split_and!.
  - cbn [copy_steps]. run_step. rewrite run_wf_get. unfold mbind, prog_bind in *. rewrite run_bind, Hr1, run_bind, Hr2, run_bind, Hr3, Hhad.
    cbn [had List.filter]. by destruct (is_undefined (record_at (flat_key src id) w)).
  - eapply only_trans; [eapply only_mono; [|exact Ho12]|eapply only_mono; [|exact Ho3]]; intros t (x & Hx & Ht); exists x; (split; [|done]).
    + apply list_elem_of_singleton in Hx as ->. left.
    + by right.
  - intros x [->|Hx]%elem_of_cons.
    + rewrite (only_get _ _ _ _ Ho3), (only_get _ _ _ _ Ho2); [exact Hg1| |].
      * intros [Hs _]. rewrite Hun in Hs by left. done.
      * apply copied_free. intros y Hy. split; [by intros ->|]. apply Hun; [by right|left].
    + rewrite (Hg3 x Hx), (only_src _ _ _ x Ho12). destruct (is_undefined (record_at (flat_key src x) w)); [|done].
      apply (only_get _ _ _ _ Ho12), copied_free. intros y ->%list_elem_of_singleton. split; [by intros ->|]. apply Hun; [left|by right].
Qed.

Lemma contains_mid x a b : contains x (a +:+ x +:+ b) = true.
Proof.
  induction a as [|c a IH]; [|change (String c a +:+ x +:+ b) with (String c (a +:+ x +:+ b)); cbn [contains]; by rewrite IH, orb_true_r].
  change ("" +:+ x +:+ b) with (x +:+ b).
  assert (Hs : starts_with x (x +:+ b) = true) by apply starts_with_app. destruct (x +:+ b); cbn [contains]; by rewrite Hs.
Qed.

Lemma claim_not_copied ids y : claim_key y ∉ ids → ¬ copied ids (claim_key y).
Proof.
  intros Hn (id & Hid & [He|[He|[_ Hc]]]).
  - by rewrite He in Hn.
  - unfold claim_key in He. by apply (cut_at_last_char_inj colon y id "_claim" "_fallback") in He as [_ ?].
  - unfold claim_key in Hc. pose proof (contains_mid ":_" y "claim") as Hm. change (":_" +:+ "claim") with ":_claim" in Hm. congruence.
Qed.

Lemma starts_colon id t : has_char colon t = false → starts_with (id +:+ ":") t = false.
Proof.
  intros Ht. apply not_true_iff_false. intros [r ->]%starts_with_spec. rewrite !has_char_app in Ht. by rewrite orb_true_r in Ht.
Qed.

Lemma colons_none s : has_char colon s = false → colons s = 0.
Proof.
  unfold has_char. induction s as [|c s IH]; [done|]. cbn [str_exists colons]. intros [Hc Hs]%orb_false_iff. rewrite Ascii.eqb_sym, Hc. by apply IH.
Qed.

Lemma status_not_flat r t : statusKey dst ≠ flat_key r t.
Proof using Hdst.
  intros H. apply (f_equal colons) in H. unfold statusKey, flat_key in H. rewrite !colons_app, (colons_none dst Hdst) in H.
  change (colons "wfrun:") with 1 in H. change (colons ":wf:") with 2 in H. lia.
Qed.

Lemma run_probe_fresh order w : (∀ id, id ∈ order → record_at (flat_key dst id) w = JUndef) → run h (probe_fresh dst order) w = (Ok tt, w).
Proof.
  intros Hf. induction order as [|id order IH]; [done|]. cbn [probe_fresh]. run_step. rewrite run_wf_get, (Hf id) by left. cbn [is_undefined].
  apply IH. intros x Hx. apply Hf. by right.
Qed.

Lemma index_of_app x a b : x ∉ a → index_of x (a ++ x :: b) = Some (length a).
Proof.
  induction a as [|y a IH]; cbn [app index_of length].
  - by rewrite String.eqb_refl.
  - intros [Hy Ha]%not_elem_of_cons. by rewrite (proj2 (String.eqb_neq x y)), IH.
Qed.

(** The whole operation: what it answers and what it writes. *)
Lemma run_fork (ss pre rest : list (@step Q R)) s w :
  ss = pre ++ s :: rest → NoDup (map st_id ss) →
  (∀ x y, x ∈ map st_id pre → y ∈ map st_id pre → starts_with (x +:+ ":") y = false) →
  (∀ t, mj_get (flat_key dst t) (jr w) = None) → record_at (statusKey dst) w = JUndef →
  ∃ w1, run h (forkWorkflowRun caps ss src (st_id s) dst) w = (Ok (had w (map st_id pre)), w1) ∧ trace w1 = trace w ∧
    (∀ t, mj_get (flat_key src t) (jr w1) = mj_get (flat_key src t) (jr w)) ∧
    (∀ t, ¬ copied (map st_id pre) t → mj_get (flat_key dst t) (jr w1) = None) ∧
    (∀ id, id ∈ map st_id pre → mj_get (flat_key dst id) (jr w1) =
      if is_undefined (record_at (flat_key src id) w) then None else Some (record_at (flat_key src id) w)).
Proof using Hsrc Hdst Hne.
  intros -> Hnd Hun Hfresh Hst. unfold forkWorkflowRun. rewrite map_app in *. cbn [map] in *.
  apply NoDup_app in Hnd as (Hndp & Hdis & _). rewrite index_of_app by (intros Hin; apply (Hdis _ Hin); left).
  run_step. rewrite run_wf_get, Hst. cbn [is_undefined negb].
  rewrite run_bind, run_probe_fresh by (intros id _; unfold record_at; by rewrite Hfresh).
  rewrite take_app_length. destruct (run_copy_steps (map st_id pre) w Hndp Hun) as (w1 & Hr & Ho & Hg). rewrite run_bind, Hr. run_step.
  rewrite run_bind, run_put. eexists. split; [done|]. destruct Ho as [Ht Hk].
  assert (Hput : ∀ r t, mj_get (flat_key r t) (mj_put (wall w1) (statusKey dst) (JObj [("runId", JStr dst); ("status", JStr "forked");
      ("forkedFrom", JObj [("runId", JStr src); ("fromStepId", JStr (st_id s))]); ("at", JNum (wall w1))]) (jr w1)) = mj_get (flat_key r t) (jr w1)).
  { intros r t. apply mj_get_put_ne. intros He. by apply (status_not_flat r t). }
  split_and!; [exact Ht| | |]; cbn [jr set_jr]; setoid_rewrite Hput.
  - intros t. apply Hk. intros t' He. by apply flat_apart in He.
  - intros t Hnc. rewrite Hk; [apply Hfresh|]. by intros t' ->%flat_inj.
  - intros id Hid. rewrite Hg by exact Hid. by rewrite Hfresh.
Qed.
End Fork.

Section ForkRun.
Context {Q R : Type}.
Variable caps : journal_caps.
Variable h : oracle Q R wf_error.
Variable out : @step Q R → js → js.
Variable asks : @step Q R → js → list Q.
Abbreviation wf_step := (@step Q R).

(** All that the bodies of [ss] ask. *)
Fixpoint asked (ss : list wf_step) (cur : js) : list Q :=
  match ss with [] => [] | s :: ss' => asks s cur ++ asked ss' (out s cur) end.

Definition at_top (r : string) (ctx : step_ctx) : Prop := sc_runId ctx = r ∧ sc_keyPrefix ctx = None.

Lemma top_flat r ctx (s : wf_step) : at_top r ctx → key_of ctx s = flat_key r (st_id s).
Proof. intros [<- Hp]. unfold key_of, step_key, prefix_of. by rewrite Hp. Qed.

Lemma claim_flat r id : claim_key (flat_key r id) = flat_key r (claim_key id).
Proof. unfold claim_key, flat_key. by rewrite !str_app_assoc. Qed.

(** Steps of which the journal knows nothing: all of them execute. *)
Lemma unknown_steps r ctx j ss cur :
  at_top r ctx → (∀ s d, s ∈ ss → is_side_effect s = Some d → strict_ok ctx d) →
  (∀ s, s ∈ ss → mj_get (flat_key r (st_id s)) j = None ∧ mj_get (flat_key r (claim_key (st_id s))) j = None) →
  consistent out j ctx ss cur ∧ fired out asks j ctx ss cur = asked ss cur.
Proof.
  intros Ht Hst. revert cur. induction ss as [|s ss IH]; intros cur Hn; [done|]. destruct (Hn s) as [H1 H2]; [left|].
  destruct (IH ltac:(intros s' d Hin; apply Hst; by right) (out s cur)) as [IHc IHf]; [intros s' Hin; apply Hn; by right|].
  cbn [consistent fired asked]. unfold fits, pending. rewrite (top_flat r) by done. rewrite H1, claim_flat, H2, IHf. split; [|done].
  split; [|done]. intros d Hd. split; [done|]. apply (Hst s); [left|done].
Qed.

(** Copied records are as good as the originals. *)
Lemma copied_steps src dst cs cd j j' ss cur :
  at_top src cs → at_top dst cd → (∀ s d, s ∈ ss → is_side_effect s = Some d → strict_ok cd d) →
  Forall (computes h out asks) ss → consistent out j cs ss cur →
  (∀ s, s ∈ ss → mj_get (flat_key dst (st_id s)) j' =
     let v := default JUndef (mj_get (flat_key src (st_id s)) j) in if is_undefined v then None else Some v) →
  (∀ s, s ∈ ss → mj_get (flat_key dst (claim_key (st_id s))) j' = None) →
  consistent out j' cd ss cur ∧ fired out asks j' cd ss cur = fired out asks j cs ss cur.
Proof.
  intros Hs Hd Hst Hc. revert cur. induction Hc as [|s ss Hcs Hc IH]; intros cur Hf Hr Hcl; [done|]. destruct Hf as [Hf1 Hf].
  destruct (IH ltac:(intros s' d Hin; apply Hst; by right) (out s cur) Hf) as [IHc IHf]; [intros s' Hin; apply Hr; by right|intros s' Hin; apply Hcl; by right|].
  cbn [consistent fired]. rewrite IHf. unfold fits, pending in *. rewrite (top_flat dst cd), (top_flat src cs) in * by done.
  rewrite (Hr s) by left. destruct (mj_get (flat_key src (st_id s)) j) as [v|]; cbn [default].
  - subst v. rewrite defined_test by (by destruct (Hcs cur cs (World j 0 0 [] empty_work))). by split.
  - cbn [is_undefined id]. split; [|done]. split; [|done]. intros d Hd'. rewrite claim_flat, Hcl by left. split; [done|]. apply (Hst s); [left|done].
Qed.

Lemma step_keys_ids (ss : list wf_step) :
  NoDup (step_keys ss) → NoDup (map st_id ss) ∧ ∀ s1 s2, s1 ∈ ss → s2 ∈ ss → claim_key (st_id s1) ≠ st_id s2.
Proof.
  induction ss as [|s ss IH]; [intros _; split; [constructor|by intros s1 s2 []%elem_of_nil]|].
  cbn [step_keys map concat app]. fold (step_keys ss). rewrite !NoDup_cons. intros (H1 & H2 & Hn). destruct (IH Hn) as [IHn IHc].
  assert (Hin : ∀ x, x ∈ ss → st_id x ∈ step_keys ss ∧ claim_key (st_id x) ∈ step_keys ss).
  { intros x Hx. apply list_elem_of_split in Hx as (a & b & ->). rewrite step_keys_app. split; apply elem_of_app; right; [left|right; left]. }
  split.
  - constructor; [|done]. intros (x & He & Hx)%list_elem_of_fmap. apply H1. right. rewrite He. by apply Hin.
  - intros s1 s2 [->|Hs1]%elem_of_cons [->|Hs2]%elem_of_cons He.
    + by apply (own_not_claim (st_id s)).
    + apply H2. rewrite He. by apply Hin.
    + apply H1. right. rewrite <- He. by apply Hin.
    + by apply (IHc s1 s2).
Qed.

(** C10: forking a run at a step and running the fork: the records of the steps before it are copied, the source run is left as it
    was and nothing executes; then the fork's run replays what was copied, executes what was not, executes every step from the fork
    point on, side effects included (no claim is copied), and completes with the output of an uninterrupted run. *)
Theorem fork_then_run src dst pre s rest input entry opts w :
  let ss := pre ++ s :: rest in
  let cs := withIdentity (plain_entry src) in
  let cd := resuming (withIdentity entry) in
  has_char colon src = false → has_char colon dst = false → src ≠ dst → en_runId entry = dst →
  Forall (computes h out asks) ss → NoDup (step_keys ss) → top cd ss →
  (∀ s1 s2, s1 ∈ pre → s2 ∈ ss → starts_with (st_id s1 +:+ ":") (st_id s2) = false) →
  (∀ s1 d, s1 ∈ ss → is_side_effect s1 = Some d → strict_ok cd d) →
  consistent out (jr w) cs pre input →
  (∀ t, mj_get (flat_key dst t) (jr w) = None) → record_at (statusKey dst) w = JUndef →
  call_with [] opts →
  ∃ w1 w2,
    run h (forkWorkflowRun caps ss src (st_id s) dst) w = (Ok (had src w (map st_id pre)), w1) ∧ trace w1 = trace w ∧
    (∀ t, mj_get (flat_key src t) (jr w1) = mj_get (flat_key src t) (jr w)) ∧
    run h (runResumable caps ss input entry opts) w1 = (Ok (Completed (final out ss input)), w2) ∧
    trace w2 = rev (fired out asks (jr w) cs pre input ++ asked (s :: rest) (final out pre input)) ++ trace w.
Proof.
  intros ss cs cd Hsc Hdc Hne Hrun Hc Hnd Ht Hun Hst Hf Hfresh Hstat (Hm & Hsig & Hres).
  destruct (step_keys_ids ss Hnd) as [Hids Hcl]. pose proof Ht as [Hp Hplain].
  assert (Hcd : at_top dst cd) by (split; [exact Hrun|exact Hp]).
  assert (Hpre : ∀ x, x ∈ map st_id pre → ∃ s1, s1 ∈ pre ∧ x = st_id s1) by (intros x (s1 & -> & Hx)%list_elem_of_fmap; by exists s1).
  destruct (run_fork caps h src dst Hsc Hdc Hne ss pre rest s w eq_refl Hids) as (w1 & Hr1 & Ht1 & Hs1 & Hn1 & Hg1); [|done|done|].
  { intros x y (s1 & Hx & ->)%Hpre (s2 & Hy & ->)%Hpre. apply Hun; [done|]. apply elem_of_app. by left. }
  assert (Hnone : ∀ s1, s1 ∈ ss → mj_get (flat_key dst (claim_key (st_id s1))) (jr w1) = None).
  { intros s1 Hin. apply Hn1, claim_not_copied. intros (s2 & Hs2 & He)%Hpre. apply (Hcl s1 s2); [done| |done]. apply elem_of_app. by left. }
  assert (Hrest : ∀ s1, s1 ∈ s :: rest → mj_get (flat_key dst (st_id s1)) (jr w1) = None).
  { intros s1 Hin. apply Hn1, copied_free. intros x (s2 & Hs2 & ->)%Hpre. split; [|apply Hun; [done|]; apply elem_of_app; by right].
    intros He. unfold ss in Hids. rewrite map_app in Hids. apply NoDup_app in Hids as (_ & Hd & _).
    apply (Hd (st_id s2)); [apply list_elem_of_fmap; by exists s2|]. rewrite <- He. apply list_elem_of_fmap. by exists s1. }
  unfold ss in Hc. apply Forall_app in Hc as [Hcp Hcr].
  destruct (copied_steps src dst cs cd (jr w) (jr w1) pre input) as [Hcon1 Hfi1]; [done|done| |done|done| | |].
  { intros s1 d Hin. apply Hst, elem_of_app. by left. }
  { intros s1 Hin. apply Hg1, list_elem_of_fmap. by exists s1. }
  { intros s1 Hin. apply Hnone, elem_of_app. by left. }
  destruct (unknown_steps dst cd (jr w1) (s :: rest) (final out pre input) Hcd) as [Hcon2 Hfi2].
  { intros s1 d Hin. apply Hst, elem_of_app. by right. }
  { intros s1 Hin. split; [by apply Hrest|]. apply Hnone, elem_of_app. by right. }
  destruct (resume_whole caps h out asks ss input entry opts w1) as (w2 & Hr2 & Ht2 & _); [by apply Forall_app|done|exact Ht| | |exact Hsig|].
  { apply (proj2 (consistent_app out (jr w1) cd pre (s :: rest) input)). by split. }
  { rewrite Hrun. unfold not_canceled, record_at. change (canceledKey dst) with (flat_key dst "_canceled"). rewrite Hn1; [done|].
    apply copied_free. intros x (s2 & Hs2 & ->)%Hpre. split; [|by apply starts_colon]. unfold ss in Hplain. apply Forall_app in Hplain as [Hplain _].
    rewrite Forall_forall in Hplain. intros He. specialize (Hplain s2 Hs2). by rewrite <- He in Hplain. }
  exists w1, w2. split_and!; [exact Hr1|exact Ht1|exact Hs1| |].
  - rewrite Hr2. unfold answer, ran. rewrite Hm. by rewrite lookup_ge_None_2.
  - rewrite Ht2, Ht1. unfold ran. rewrite Hm, firstn_all. f_equal. f_equal. fold cd. unfold ss. by rewrite fired_app, Hfi1, Hfi2.
Qed.
End ForkRun.

(** The run ["a"] has planned; the fork ["b"] mails and reports. *)
Definition source_run : world js string := World (mj_put 0 "a:wf:plan" (JStr "plan") empty_journal) 5 5 [] empty_work.

Lemma source_fresh t : mj_get (flat_key "b" t) (jr source_run) = None.
Proof. reflexivity. Qed.

Lemma fork_then_run_witness :
  ∃ w1 w2,
    run echo (forkWorkflowRun full_caps [say "plan"; post_step; say "report"] "a" "mail" "b") source_run = (Ok ["plan"], w1) ∧
    run echo (runResumable full_caps [say "plan"; post_step; say "report"] JNull (plain_entry "b") (calls None [])) w1
      = (Ok (Completed (JStr "report")), w2) ∧ trace w2 = ["report"; "mail"].
Proof.
  destruct (fork_then_run full_caps echo said words "a" "b" [say "plan"] post_step [say "report"] JNull (plain_entry "b") (calls None []) source_run)
    as (w1 & w2 & H1 & _ & _ & H2 & H3).
  - reflexivity.
  - reflexivity.
  - discriminate.
  - reflexivity.
  - cbn [app]. rewrite !Forall_cons. split_and!; [apply say_computes|apply post_computes|apply say_computes|constructor].
  - by apply (bool_decide_unpack _).
  - split; [reflexivity|by repeat constructor].
  - intros s1 s2 ->%list_elem_of_singleton Hin. cbn [app] in Hin. rewrite !elem_of_cons in Hin. destruct Hin as [->|[->|[->|[]%elem_of_nil]]]; reflexivity.
  - intros s1 d _ _. discriminate.
  - split; [reflexivity|done].
  - apply source_fresh.
  - reflexivity.
  - by split_and!.
  - exists w1, w2. split; [exact H1|]. split; [exact H2|exact H3].
Defined.
