(* ===== verification/Access.v ===== *)
(** * Access: principals, what a caller is, and the ceiling on what it may grant

    Models [packages/auth/src/scope.ts] on the types of [packages/auth/src/types.ts]: the kind of
    a principal, the ids an end user may carry, the actor name compared across kinds, the scope of
    an identity, the ceiling on privileges handed out to users, and the translation of a principal
    into a caller of the engine ([RunIdentity]). *)

From S2P Require Import Prelude Journal RunIdentity.

(** ** Principals *)

Inductive PrincipalKind := Operator | Application | Subject.

#[global] Instance PrincipalKind_eq_dec : EqDecision PrincipalKind.
Proof. solve_decision. Defined.

(** [p_kind] is [None] for a principal nobody stamped (or with another value), [p_id] for an
    absent id or one that is not a string. *)
Record principal := Principal {
  p_kind : option PrincipalKind;
  p_id : option string;
  p_credentialId : option string;
  p_roles : list string;
  p_orgId : option string;
  p_permissions : option (list string);
  p_email : option string;
}.

Inductive action := Read | Write.

#[global] Instance action_eq_dec : EqDecision action.
Proof. solve_decision. Defined.

Record auth_context := AuthContext {
  ax_path : string;
  ax_method : string;
  ax_action : action;
  ax_resource : option string;
  ax_permission : option string;
}.

(** [Denied status reason]; the status is 401 or 403. *)
Inductive decision := Allowed | Denied (status : option Z) (reason : option string).

Definition principal_kind_name (k : PrincipalKind) : string :=
  match k with Operator => "operator" | Application => "application" | Subject => "subject" end.

Definition includes (x : string) (l : list string) : bool := existsb (String.eqb x) l.

(** ** Ids of end users *)

Definition MAX_SUBJECT_ID : nat := 200.
Definition RESERVED_SUBJECT_PREFIXES : list string := ["operator:"; "application:"; "role:"; "token:"].

Definition isReservedSubjectId (id : string) : bool :=
  existsb (λ p, starts_with p id) RESERVED_SUBJECT_PREFIXES.

(** [[\u0000-\u001f\u007f-\u009f\u2028\u2029]], on 8-bit units. *)
Definition control_char (c : Ascii.ascii) : bool :=
  let n := Ascii.nat_of_ascii c in (n <? 32) || ((127 <=? n) && (n <=? 159)).

Inductive subject_problem := BadLength | ControlCharacters | ReservedPrefix.

Definition subjectIdProblem (id : string) : option subject_problem :=
  if (String.length id =? 0) || (MAX_SUBJECT_ID <? String.length id) then Some BadLength
  else if str_exists control_char id then Some ControlCharacters
  else if isReservedSubjectId id then Some ReservedPrefix
  else None.

Definition good_subject (id : string) : bool :=
  match subjectIdProblem id with None => true | Some _ => false end.

(** ** What a caller is *)

(** [None] is ['unnamed']. *)
Definition callerKind (p : option principal) : option PrincipalKind :=
  match p with
  | None => None
  | Some p =>
      match p_kind p with
      | Some Operator => Some Operator
      | Some Application => Some Application
      | _ => match p_id p with
             | Some id => if good_subject id then Some Subject else None
             | None => None
             end
      end
  end.

Definition PLATFORM_ADMIN_ROLE : string := "platform-admin".

Definition isPlatformAdmin (p : option principal) : bool :=
  match p with
  | Some q => includes PLATFORM_ADMIN_ROLE (p_roles q) && bool_decide (callerKind p = Some Operator)
  | None => false
  end.

Inductive principal_scope := ScopePlatform | ScopeOrganization (orgId : string) | ScopeNone.

Definition principalScope (p : option principal) : principal_scope :=
  if isPlatformAdmin p then ScopePlatform
  else match truthy (p ≫= p_orgId) with
       | Some o => ScopeOrganization o
       | None => ScopeNone
       end.

Definition actorIdOf (p : option principal) : option string :=
  q ← p; id ← truthy (p_id q); kind ← callerKind p;
  Some (match kind with Subject => id | k => principal_kind_name k +:+ ":" +:+ id end).

Definition isPrincipalKind (s : string) : bool :=
  includes s (map principal_kind_name [Operator; Application; Subject]).

(** ** The privilege ceiling *)

Record grant := Grant {
  g_roles : option (list string);
  g_permissions : option (list string);
  g_kind : option PrincipalKind;
}.

Inductive ceiling_reason := OnlyOperatorCreates (k : PrincipalKind) | OnlyPlatformAdminRole | OnlyPlatformAdminStar.

(** [None] is [{ ok: true }]. *)
Definition assertAssignablePrivileges (assigner : option principal) (requested : grant) : option ceiling_reason :=
  let beyond_subject :=
    match g_kind requested with
    | Some Operator | Some Application => negb (bool_decide (callerKind assigner = Some Operator))
    | _ => false
    end in
  if beyond_subject then Some (OnlyOperatorCreates (default Subject (g_kind requested)))
  else if isPlatformAdmin assigner then None
  else if includes PLATFORM_ADMIN_ROLE (default [] (g_roles requested)) then Some OnlyPlatformAdminRole
  else if includes "*" (default [] (g_permissions requested)) then Some OnlyPlatformAdminStar
  else None.

(** ** The engine's caller *)

(** Speaking for a named user: that user, or unknown for an id no user can have. *)
Definition speak_for (orgId : option string) (named : string) : caller :=
  if good_subject named then User named orgId else Unknown.

Definition engineCallerOf (p : option principal) (named : option string) : caller :=
  let orgId := truthy (p ≫= p_orgId) in
  match callerKind p with
  | Some Subject => User (default "" (p ≫= p_id)) orgId
  | Some Operator =>
      match truthy named with
      | None => Staff orgId
      | Some n => speak_for orgId n
      end
  | Some Application => match named with Some n => speak_for orgId n | None => Unknown end
  | None => Unknown
  end.

(** ** Lemmas *)

Lemma includes_elem x l : includes x l = true ↔ x ∈ l.
Proof.
  unfold includes. rewrite existsb_exists. setoid_rewrite String.eqb_eq.
  setoid_rewrite list_elem_of_In. naive_solver.
Qed.

Lemma good_subject_spec id :
  good_subject id = true ↔
  0 < String.length id ≤ MAX_SUBJECT_ID ∧ str_exists control_char id = false ∧ isReservedSubjectId id = false.
Proof.
  unfold good_subject, subjectIdProblem.
  destruct (Nat.eqb_spec (String.length id) 0), (Nat.ltb_spec MAX_SUBJECT_ID (String.length id)); cbn [orb];
    try (split; [done|intros (? & _); exfalso; lia]).
  destruct (str_exists control_char id), (isReservedSubjectId id); (split; [intros ?; repeat split; (done || lia)|by intros (_ & ? & ?)]).
Qed.

Lemma good_subject_nonempty id : good_subject id = true → id ≠ "".
Proof. intros (Hl & _ & _)%good_subject_spec ->. cbn in Hl. lia. Qed.

Lemma good_subject_unprefixed id q :
  good_subject id = true → q ∈ RESERVED_SUBJECT_PREFIXES → starts_with q id = false.
Proof.
  intros (_ & _ & Hr)%good_subject_spec Hq. apply not_true_iff_false. intros Hs.
  unfold isReservedSubjectId in Hr. apply not_true_iff_false in Hr. apply Hr.
  apply existsb_exists. exists q. by rewrite <-list_elem_of_In.
Qed.

Lemma callerKind_subject p :
  callerKind p = Some Subject → ∃ q id, p = Some q ∧ p_id q = Some id ∧ good_subject id = true.
Proof.
  destruct p as [q|]; cbn; [|done]. intros H.
  destruct (p_kind q) as [[]|]; try done; destruct (p_id q) as [id|] eqn:Hid; try done;
    destruct (good_subject id) eqn:Hg; try done; eauto.
Qed.

Lemma isPlatformAdmin_spec p :
  isPlatformAdmin p = true ↔ callerKind p = Some Operator ∧ ∃ q, p = Some q ∧ PLATFORM_ADMIN_ROLE ∈ p_roles q.
Proof.
  unfold isPlatformAdmin. destruct p as [q|]; [|naive_solver].
  rewrite andb_true_iff, includes_elem, bool_decide_eq_true.
  split; [intros [? ?]; split; eauto|intros [? (? & [= <-] & ?)]; auto].
Qed.

(** The name of a caller that is staff or an application. *)
Lemma kind_prefix k id : k ≠ Subject →
  principal_kind_name k +:+ ":" +:+ id = (principal_kind_name k +:+ ":") +:+ id ∧ principal_kind_name k +:+ ":" ∈ RESERVED_SUBJECT_PREFIXES.
Proof.
  intros Hk. split; [by rewrite str_app_assoc|].
  by destruct k; apply includes_elem.
Qed.

Lemma actorIdOf_Some p n :
  actorIdOf p = Some n →
  ∃ q id k, p = Some q ∧ p_id q = Some id ∧ callerKind p = Some k ∧
    n = match k with Subject => id | k => principal_kind_name k +:+ ":" +:+ id end.
Proof.
  unfold actorIdOf. destruct p as [q|]; cbn -[callerKind]; [|done].
  destruct (truthy (p_id q)) as [id|] eqn:Hid; cbn -[callerKind]; [|done].
  apply truthy_Some in Hid as [Hid _]. destruct (callerKind (Some q)) as [k|] eqn:Hk; cbn; [|done].
  intros [= <-]. exists q, id, k. done.
Qed.

(** Two callers with the same actor name are the same kind of caller with the same id: no end user can be
    given a name that a comparison of identities would take for a member of the staff or for an
    application, whichever provider minted it. *)
Theorem actor_names_apart (a b : option principal) (n : string) :
  actorIdOf a = Some n → actorIdOf b = Some n →
  callerKind a = callerKind b ∧ (a ≫= p_id) = (b ≫= p_id).
Proof.
  intros (qa & ia & ka & -> & Ha & Hka & ->)%actorIdOf_Some (qb & ib & kb & -> & Hb & Hkb & Hn)%actorIdOf_Some.
  cbn -[callerKind]. rewrite Hka, Hkb, Ha, Hb.
  assert (Hclash : ∀ q id i k, callerKind (Some q) = Some Subject → p_id q = Some id → k ≠ Subject →
            id = principal_kind_name k +:+ ":" +:+ i → False).
  { intros q id i k Hq Hid Hk Hne. apply callerKind_subject in Hq as (q' & id' & [= <-] & Hid' & Hg).
    simplify_eq. destruct (kind_prefix k i Hk) as [He Hin].
    apply (good_subject_unprefixed _ _ Hg) in Hin. rewrite He, starts_with_app in Hin. done. }
  destruct ka, kb; cbn in Hn; try (injection Hn as ->; done); try discriminate Hn;
    try (by subst; split); exfalso.
  - by eapply (Hclash qb _ ia Operator).
  - by eapply (Hclash qb _ ia Application).
  - by eapply (Hclash qa _ ib Operator).
  - by eapply (Hclash qa _ ib Application).
Qed.

Definition ops_login (k : PrincipalKind) (id : string) : option principal :=
  Some (Principal (Some k) (Some id) None [] None None None).

Lemma actor_names_apart_witness :
  actorIdOf (ops_login Operator "ops") = Some "operator:ops" ∧
  actorIdOf (ops_login Subject "ops") = Some "ops" ∧
  actorIdOf (ops_login Subject "operator:ops") = None ∧
  callerKind (ops_login Operator "ops") = callerKind (Some (Principal (Some Operator) (Some "ops") None ["admin"] None None None)).
Proof.
  split_and!; [reflexivity..|].
  apply (actor_names_apart _ _ "operator:ops"); reflexivity.
Defined.

(** Who reaches a user's run through any door: staff that names nobody, that user itself,
    and staff or an application that names exactly that user, when the name is one a user can
    carry.  A principal nobody stamped is at most a user; a caller without an identity
    reaches no user's run. *)
Lemma user_run_reached {E} (p : option principal) (named : option string) (u : string) (org : option string)
    (k : run_kind) (rec : bool) :
  decideRunAccess (@Owned E (User u org) k rec) (engineCallerOf p named) = RunIdentity.Allow ↔
  (callerKind p = Some Operator ∧ truthy named = None) ∨
  (callerKind p = Some Subject ∧ (p ≫= p_id) = Some u) ∨
  ((callerKind p = Some Operator ∨ callerKind p = Some Application) ∧ named = Some u ∧ good_subject u = true).
Proof.
  assert (Hspeak : ∀ o n, decideRunAccess (@Owned E (User u org) k rec) (speak_for o n) = RunIdentity.Allow ↔
            n = u ∧ good_subject u = true).
  { intros o n. unfold speak_for. destruct (good_subject n) eqn:Hg; cbn; [|split; [done|intros [-> ?]; congruence]].
    destruct (String.eqb_spec u n) as [->|Hne]; (split; [try done|intros [? ?]]); congruence. }
  unfold engineCallerOf. destruct (callerKind p) as [[]|] eqn:Hk.
  - destruct (truthy named) as [n|] eqn:Hn.
    + apply truthy_Some in Hn as [-> Hne]. rewrite Hspeak.
      split; [intros [-> ?]; auto|intros [[_ ?]|[[? _]|(_ & [= ->] & ?)]]; [congruence..|auto]].
    + cbn. split; [auto|done].
  - destruct named as [n|].
    + rewrite Hspeak. split; [intros [-> ?]; auto|intros [[? _]|[[? _]|(_ & [= ->] & ?)]]; [congruence..|auto]].
    + cbn. split; [done|]. intros [[? _]|[[? _]|(_ & ? & _)]]; congruence.
  - apply callerKind_subject in Hk as (q & id & -> & Hid & _). cbn. rewrite Hid. cbn.
    destruct (String.eqb_spec u id) as [->|Hne]; (split; [try done; auto|]).
    + done.
    + intros [[? _]|[[_ ?]|[[?|?] _]]]; congruence.
  - cbn. split; [done|]. intros [[? _]|[[? _]|[[?|?] _]]]; congruence.
Qed.

Lemma engineCallerOf_application p named :
  callerKind p = Some Application →
  (∃ n, named = Some n ∧ good_subject n = true ∧ engineCallerOf p named = User n (truthy (p ≫= p_orgId))) ∨
  (engineCallerOf p named = Unknown ∧ ∀ n, named = Some n → good_subject n = false).
Proof.
  intros Hk. unfold engineCallerOf. rewrite Hk. destruct named as [n|]; [|right; naive_solver].
  unfold speak_for. destruct (good_subject n) eqn:Hg; [left; eauto|right; split; [done|naive_solver]].
Qed.

Lemma truthy_truthy o : truthy (truthy o) = truthy o.
Proof. destruct o as [s|]; [|done]. unfold truthy. by destruct (String.eqb s "") eqn:E; rewrite ?E. Qed.

(** A user speaks for itself, whoever it names. *)
Lemma engineCallerOf_subject q id named :
  callerKind (Some q) = Some Subject → p_id q = Some id → engineCallerOf (Some q) named = User id (truthy (p_orgId q)).
Proof. intros Hk Hid. unfold engineCallerOf. rewrite Hk. cbn [mbind option_bind]. by rewrite Hid. Qed.
