(* ===== verification/Http.v ===== *)
(** * Http: requests, as the packages that answer them read them

    Infrastructure (no source file of its own): the parts of a web [Request] that the code under
    [packages/auth] reads, and the string operations it uses on them.  Case mapping is that of the
    ASCII letters: the code compares its results with ASCII words only. *)

From S2P Require Import Prelude JsMap.

Definition between (lo hi : nat) (c : Ascii.ascii) : bool :=
  let n := Ascii.nat_of_ascii c in (lo <=? n) && (n <=? hi).

Fixpoint str_map (f : Ascii.ascii → Ascii.ascii) (s : string) : string :=
  match s with
  | EmptyString => EmptyString
  | String c s' => String (f c) (str_map f s')
  end.

Definition lower_char (c : Ascii.ascii) : Ascii.ascii :=
  if between 65 90 c then Ascii.ascii_of_nat (Ascii.nat_of_ascii c + 32) else c.

Definition upper_char (c : Ascii.ascii) : Ascii.ascii :=
  if between 97 122 c then Ascii.ascii_of_nat (Ascii.nat_of_ascii c - 32) else c.

Definition to_lower : string → string := str_map lower_char.
Definition to_upper : string → string := str_map upper_char.

(** White space of [String.prototype.trim], on 8-bit units. *)
Definition js_space (c : Ascii.ascii) : bool :=
  let n := Ascii.nat_of_ascii c in between 9 13 c || (n =? 32) || (n =? 160).

Fixpoint trim_start (s : string) : string :=
  match s with
  | String c s' => if js_space c then trim_start s' else s
  | EmptyString => EmptyString
  end.

Fixpoint trim_end (s : string) : string :=
  match s with
  | EmptyString => EmptyString
  | String c s' =>
      match trim_end s' with
      | EmptyString => if js_space c then EmptyString else String c EmptyString
      | t => String c t
      end
  end.

Definition js_trim (s : string) : string := trim_end (trim_start s).

(** [s.split(c)] *)
Fixpoint split_at (c : Ascii.ascii) (s : string) : list string :=
  match s with
  | EmptyString => [EmptyString]
  | String d s' =>
      if Ascii.eqb d c then EmptyString :: split_at c s'
      else match split_at c s' with
           | w :: ws => String d w :: ws
           | [] => [String d EmptyString]
           end
  end.

(** A request: header names in lower case; the URL is given by its parts. *)
Record request := Request {
  rq_method : string;
  rq_headers : list (string * string);
  rq_hostname : string;
  rq_pathname : string;
  rq_query : list (string * string);
}.

Definition header (name : string) (rq : request) : option string := mget name (rq_headers rq).
Definition query (name : string) (rq : request) : option string := mget name (rq_query rq).
Definition method (rq : request) : string := to_upper (rq_method rq).

(** [h?.startsWith('Bearer ') ? h.slice(7) : undefined], of the authorization header. *)
Definition bearer (rq : request) : option string := header "authorization" rq ≫= strip_prefix "Bearer ".

(** ** Lemmas *)

Lemma split_at_nonempty c s : split_at c s ≠ [].
Proof. destruct s as [|d s]; cbn; [done|]. destruct (Ascii.eqb d c), (split_at c s); done. Qed.

Lemma split_at_no c w : has_char c w = false → split_at c w = [w].
Proof.
  unfold has_char. induction w as [|d w IH]; cbn; [done|]. intros [Hd Hw]%orb_false_iff.
  rewrite Ascii.eqb_sym, Hd, (IH Hw). done.
Qed.

Lemma split_at_app c w s : has_char c w = false → split_at c (w +:+ String c s) = w :: split_at c s.
Proof.
  unfold has_char. induction w as [|d w IH]; cbn.
  - by rewrite Ascii.eqb_refl.
  - intros [Hd Hw]%orb_false_iff. rewrite Ascii.eqb_sym, Hd, (IH Hw). done.
Qed.

(** The parts of a string that splits at [c] are joined by [c]. *)
Fixpoint join_at (c : Ascii.ascii) (ws : list string) : string :=
  match ws with
  | [] => EmptyString
  | [w] => w
  | w :: ws => w +:+ String c (join_at c ws)
  end.

Lemma join_split c s : join_at c (split_at c s) = s.
Proof.
  induction s as [|d s IH]; [done|]. cbn [split_at].
  pose proof (split_at_nonempty c s) as Hne.
  destruct (Ascii.eqb_spec d c) as [->|Hd].
  - cbn [join_at]. destruct (split_at c s); [done|]. by rewrite <-IH.
  - destruct (split_at c s) as [|w [|w' ws]]; [done|..]; cbn in *; by rewrite <-IH.
Qed.

Lemma split_parts c s : Forall (λ w, has_char c w = false) (split_at c s).
Proof.
  induction s as [|d s IH]; cbn [split_at]; [by constructor|].
  destruct (Ascii.eqb_spec d c) as [->|Hd]; [by constructor|].
  destruct (split_at c s) as [|w ws]; constructor.
  - unfold has_char. cbn. rewrite (proj2 (Ascii.eqb_neq c d)) by congruence. done.
  - constructor.
  - apply Forall_cons in IH as [Hw _]. unfold has_char in *. cbn. rewrite (proj2 (Ascii.eqb_neq c d)) by congruence. done.
  - by apply Forall_cons in IH as [_ IH].
Qed.
