(* ===== verification/Gate.v ===== *)
(** * Gate: one decision per request, and the record of it

    Models [packages/auth/src/decision.ts] (the notes taken on a request and the outcome reported
    from them), [same-site.ts] (state changes that another site caused), [adapter.ts] (the
    {read,write} pair as a provider), [gate.ts] (the gate of the hosts) and [door.ts] (the caller
    that a standalone door reads from a request).

    The weak maps keyed by the request are the fields of [notes] (decision.ts) and of [gate_notes]
    (gate.ts), one value per request.  A provider is a parameter: what it answers depends on the
    request and on the world [W] it is asked in (clocks, stores); it may throw, and its
    [authenticate] may note that a credential was rejected ([markCredentialRejected]). *)

From S2P Require Import Prelude JsMap Journal RunIdentity Access Http.

(** ** Notes on a request (decision.ts) *)

Inductive RefusalReason := Unauthenticated | Rbac | Ownership | Organization | Resource | Policy.

Record refusal := Refusal { rf_reason : RefusalReason; rf_detail : option string }.

(** [n_principal] is [None] before anybody noted one, [Some None] when nobody was authenticated. *)
Record notes := Notes {
  n_principal : option (option principal);
  n_verdict : option (auth_context * decision);
  n_refusal : option refusal;
  n_settled : bool;
  n_rejected : bool;
}.

Definition no_notes : notes := Notes None None None false false.

Definition CREDENTIAL_REJECTED : string := "credential_rejected".

Definition markCredentialRejected (n : notes) : notes :=
  Notes (n_principal n) (n_verdict n) (n_refusal n) (n_settled n) true.

Definition credentialRejected (n : notes) : bool := n_rejected n.

Definition notePrincipal (p : option principal) (n : notes) : notes :=
  match n_principal n with
  | Some (Some _) => n
  | _ => Notes (Some p) (n_verdict n) (n_refusal n) (n_settled n) (n_rejected n)
  end.

Definition noteVerdict (ctx : auth_context) (verdict : decision) (n : notes) : notes :=
  match n_verdict n with
  | Some (_, Denied _ _) => n
  | _ => Notes (n_principal n) (Some (ctx, verdict)) (n_refusal n) (n_settled n) (n_rejected n)
  end.

(** [principal]: [None] when the option is absent. *)
Definition markRefusal (reason : RefusalReason) (detail : option string) (principal : option (option principal))
    (n : notes) : notes :=
  let n := match principal with Some p => notePrincipal p n | None => n end in
  match n_refusal n with
  | Some _ => n
  | None => Notes (n_principal n) (n_verdict n) (Some (Refusal reason detail)) (n_settled n) (n_rejected n)
  end.

Record access_decision := AccessDecision {
  ad_principal : option principal;
  ad_kind : option PrincipalKind;
  ad_orgId : option string;
  ad_path : string;
  ad_method : string;
  ad_action : action;
  ad_permission : option string;
  ad_resource : option string;
  ad_allowed : bool;
  ad_reason : option RefusalReason;
  ad_detail : option string;
  ad_status : Z;
}.

(** The reason and the detail of a refused request; [None] for an allowed one. *)
Definition refused_for (n : notes) (status : Z) : option (RefusalReason * option string) :=
  match n_refusal n with
  | Some r => Some (rf_reason r, rf_detail r)
  | None =>
      match n_verdict n with
      | Some (_, Denied st reason) =>
          let principal := default None (n_principal n) in
          Some (if bool_decide (st = Some 401%Z) || bool_decide (principal = None)
                then Unauthenticated else Rbac, reason)
      | _ =>
          if (status =? 401)%Z then Some (Unauthenticated, None)
          else if (status =? 403)%Z then Some (Policy, None)
          else None
      end
  end.

Definition outcomeOf (rq : request) (n : notes) (status : Z) : option access_decision :=
  match n_refusal n, n_verdict n, n_principal n with
  | None, None, None => None
  | _, _, _ =>
      let principal := default None (n_principal n) in
      let refused := refused_for n status in
      let detail := refused ≫= snd in
      let detail :=
        if bool_decide (principal = None) && n_rejected n && bool_decide (n_refusal n ≫= rf_detail = None)
        then Some CREDENTIAL_REJECTED else detail in
      Some (AccessDecision principal (callerKind principal) (principal ≫= p_orgId)
        (rq_pathname rq) (method rq)
        match n_verdict n with
        | Some (ctx, _) => ax_action ctx
        | None => if includes (method rq) ["GET"; "HEAD"] then Read else Write
        end
        (n_verdict n ≫= λ v, ax_permission (fst v)) (n_verdict n ≫= λ v, ax_resource (fst v))
        (bool_decide (refused = None)) (fst <$> refused) detail status)
  end.

(** ** Cross-site state changes (same-site.ts) *)

Definition SAFE : list string := ["GET"; "HEAD"; "OPTIONS"].

(** [urlHostname o] is the hostname of the URL [o], [None] when it does not parse. *)
Definition isCrossSiteStateChange (urlHostname : string → option string) (rq : request) : bool :=
  if includes (method rq) SAFE then false
  else match truthy (header "sec-fetch-site" rq) with
       | Some site => String.eqb (to_lower (js_trim site)) "cross-site"
       | None =>
           match truthy (header "origin" rq) with
           | None => false
           | Some origin =>
               if String.eqb origin "null" then true
               else match urlHostname origin with
                    | Some h => negb (String.eqb h (rq_hostname rq))
                    | None => true
                    end
           end
       end.

(** ** Providers *)

Record auth_provider (W E : Type) := AuthProvider {
  ap_authenticate : W → request → outcome E (option principal * bool);
  ap_authorize : W → option principal → request → auth_context → outcome E decision;
  ap_bindsIdentity : option bool;
  ap_onDecision : option (access_decision → outcome E unit);
}.
Arguments AuthProvider {W E}.
Arguments ap_authenticate {W E}.
Arguments ap_authorize {W E}.
Arguments ap_bindsIdentity {W E}.
Arguments ap_onDecision {W E}.

Record gate_notes := GateNotes {
  gn_notes : notes;
  gn_principal : option principal;        (** [principals] of gate.ts *)
  gn_decision : option decision;          (** [decisions] of gate.ts *)
}.

Definition fresh_request : gate_notes := GateNotes no_notes None None.

Inductive gate_error := AuthRequiredInProduction.

(** A side of a {read,write} pair that is no function carries its [typeof]. *)
Inductive side (W E : Type) := Predicate (f : W → request → outcome E bool) | NotAFunction (type : string).
Arguments Predicate {W E}.
Arguments NotAFunction {W E}.

(** What a host was configured with: an object with an [authorize] function, or not. *)
Record auth_input (W E : Type) := AuthInput {
  ai_provider : option (auth_provider W E);
  ai_read : option (side W E);
  ai_write : option (side W E);
}.
Arguments AuthInput {W E}.
Arguments ai_provider {W E}.
Arguments ai_read {W E}.
Arguments ai_write {W E}.

Inductive config_error := SidesNotFunctions (sides : list string) | NeitherProviderNorPair.

Inductive request_caller :=
| RequestCaller (principal : option principal) (c : caller)
| RequestRefused (refused : string) (status : option Z).

Section Gate.
Context {W E : Type}.
Variable urlHostname : string → option string.
Abbreviation provider := (auth_provider W E).

(** *** adapter.ts *)

Definition bindsIdentity (auth : option provider) : bool :=
  match auth with
  | None => false
  | Some p => negb (bool_decide (ap_bindsIdentity p = Some false))
  end.

Definition fromReadWrite (read write : option (W → request → outcome E bool)) : provider :=
  AuthProvider (λ _ _, Ok (None, false))
    (λ w _ rq ctx,
       match (match ax_action ctx with Read => read | Write => write end) with
       | None => Ok Allowed
       | Some fn =>
           match fn w rq with
           | Err e => Err e
           | Ok true => Ok Allowed
           | Ok false => Ok (Denied (Some (match ax_action ctx with Write => 403 | Read => 401 end)%Z) None)
           end
       end)
    (Some false) None.

Definition side_fn (s : option (side W E)) : option (W → request → outcome E bool) :=
  match s with Some (Predicate f) => Some f | _ => None end.

Definition bad_side (name : string) (s : option (side W E)) : list string :=
  match s with Some (NotAFunction _) => [name] | _ => [] end.

Definition normalizeAuth (auth : option (auth_input W E)) : outcome config_error (option provider) :=
  match auth with
  | None => Ok None
  | Some a =>
      match ai_provider a with
      | Some p => Ok (Some p)
      | None =>
          match ai_read a, ai_write a with
          | None, None => Err NeitherProviderNorPair
          | r, w =>
              match bad_side "read" r ++ bad_side "write" w with
              | [] => Ok (Some (fromReadWrite (side_fn r) (side_fn w)))
              | bad => Err (SidesNotFunctions bad)
              end
          end
      end
  end.

(** *** gate.ts *)

(** A gate is determined by its provider. *)
Definition makeGate (production allowOpenAccess : bool) (auth : option provider) : outcome gate_error (option provider) :=
  match auth with
  | None => if production && negb allowOpenAccess then Err AuthRequiredInProduction else Ok None
  | Some p => Ok (Some p)
  end.

Definition crossSiteWithoutIdentity (auth : option provider) (rq : request) : bool :=
  negb (bindsIdentity auth) && isCrossSiteStateChange urlHostname rq.

Definition permissionContext (rq : request) (permission : string) : auth_context :=
  AuthContext (rq_pathname rq) (rq_method rq) (if ends_with ":read" permission then Read else Write) None (Some permission).

Definition set_notes (s : gate_notes) (n : notes) : gate_notes := GateNotes n (gn_principal s) (gn_decision s).

(** Authenticate, authorize, note both. *)
Definition ask (p : provider) (w : W) (rq : request) (ctx : auth_context) (s : gate_notes)
    : outcome E bool * gate_notes :=
  match ap_authenticate p w rq with
  | Err e => (Err e, s)
  | Ok (principal, rejected) =>
      let n := if rejected then markCredentialRejected (gn_notes s) else gn_notes s in
      let gp := match principal with Some q => Some q | None => gn_principal s end in
      match ap_authorize p w principal rq ctx with
      | Err e => (Err e, GateNotes n gp (gn_decision s))
      | Ok d =>
          let n := noteVerdict ctx d (notePrincipal principal n) in
          match d with
          | Allowed => (Ok true, GateNotes n gp (gn_decision s))
          | Denied _ _ => (Ok false, GateNotes n gp (Some d))
          end
      end
  end.

Definition allow (auth : option provider) (w : W) (rq : request) (act : action) (resource : option string)
    (s : gate_notes) : outcome E bool * gate_notes :=
  if crossSiteWithoutIdentity auth rq then (Ok false, s)
  else match auth with
       | None => (Ok true, s)
       | Some p => ask p w rq (AuthContext (rq_pathname rq) (rq_method rq) act resource None) s
       end.

Definition allowP (auth : option provider) (w : W) (rq : request) (permission : string)
    (s : gate_notes) : outcome E bool * gate_notes :=
  if crossSiteWithoutIdentity auth rq then (Ok false, s)
  else match auth with
       | None => (Ok true, s)
       | Some p => ask p w rq (permissionContext rq permission) s
       end.

(** The status and the error of the response. *)
Definition deny (act : action) (s : gate_notes) : Z * string :=
  let denied := match gn_decision s with Some (Denied st r) => (st, r) | _ => (None, None) end in
  (default (match act with Write => 403 | Read => 401 end)%Z (fst denied),
   default (match act with Write => "unauthorized (admin required)" | Read => "unauthorized" end) (snd denied)).

Definition principalOf (s : gate_notes) : option principal := gn_principal s.

(** The decisions handed to [onDecision] are the second component. *)
Definition settleDecision (onDecision : option (access_decision → outcome E unit)) (rq : request) (status : Z)
    (n : notes) : outcome E unit * list access_decision * notes :=
  match onDecision with
  | None => (Ok tt, [], n)
  | Some hook =>
      if n_settled n then (Ok tt, [], n)
      else match outcomeOf rq n status with
           | None => (Ok tt, [], n)
           | Some d => (hook d, [d], Notes (n_principal n) (n_verdict n) (n_refusal n) true (n_rejected n))
           end
  end.

Definition settle (auth : option provider) (rq : request) (status : Z) (s : gate_notes)
    : outcome E unit * list access_decision * gate_notes :=
  match auth ≫= ap_onDecision with
  | None => (Ok tt, [], s)
  | Some hook =>
      let '(o, told, n) := settleDecision (Some hook) rq status (gn_notes s) in (o, told, set_notes s n)
  end.

(** *** door.ts *)

Definition APPLICATION_NAMES_NO_USER : string :=
  "resourceId is required: this request used an application credential and named no end user.".
Definition CREDENTIAL_NOT_ACCEPTED : string :=
  "the credential this request carried was not accepted (revoked, expired, deleted or never issued). Send a valid one — or none, to call as an anonymous caller.".

(** [named] is [None] when the request names nobody, or not with a string. *)
Definition callerOfRequest (identify : option (W → request → outcome E (option principal * bool)))
    (w : W) (rq : request) (named : option string) (n : notes) : outcome E request_caller * notes :=
  match (match identify with Some f => f w rq | None => Ok (None, false) end) with
  | Err e => (Err e, n)
  | Ok (principal, rejected) =>
      let n := if rejected then markCredentialRejected n else n in
      let n := notePrincipal principal n in
      if bool_decide (principal = None) && credentialRejected n then
        (Ok (RequestRefused CREDENTIAL_NOT_ACCEPTED (Some 401%Z)),
         markRefusal Unauthenticated (Some CREDENTIAL_REJECTED) None n)
      else if bool_decide (callerKind principal = Some Application) then
        match engineCallerOf principal named with
        | User id org => (Ok (RequestCaller principal (User id org)), n)
        | _ => (Ok (RequestRefused APPLICATION_NAMES_NO_USER None),
                markRefusal Unauthenticated (Some APPLICATION_NAMES_NO_USER) None n)
        end
      else (Ok (RequestCaller principal (engineCallerOf principal None)), n)
  end.

Definition AGENTS_RUN : string := "agents:run".

(** [None] is allowed. *)
Definition authorizeDoorRequest (authorize : option (option principal → request → auth_context → outcome E decision))
    (principal : option principal) (rq : request) (permission : string) (n : notes)
    : outcome E (option (string * Z)) * notes :=
  match authorize with
  | None => (Ok None, n)
  | Some f =>
      let ctx := permissionContext rq permission in
      match f principal rq ctx with
      | Err e => (Err e, n)
      | Ok d =>
          let n := noteVerdict ctx d n in
          match d with
          | Allowed => (Ok None, n)
          | Denied status reason =>
              (Ok (Some (default ("permission denied: " +:+ permission) reason,
                         default (if bool_decide (principal = None) then 401 else 403)%Z status)), n)
          end
      end
  end.
End Gate.
