(* ===== verification/GateRecord.v ===== *)
(** * GateRecord: what is recorded of a request is what happened to it

    Theorems on [Gate]: the outcome of any sequence of notes, the record of a request that went
    through the gate any number of times, and the callers that a standalone door lets through. *)

From S2P Require Import Prelude JsMap Journal RunIdentity Access Http Gate.

(** ** Sequences of notes *)

Inductive note_op :=
| TookPrincipal (p : option principal)
| TookVerdict (ctx : auth_context) (d : decision)
| TookRefusal (reason : RefusalReason) (detail : option string) (p : option (option principal))
| TookRejected.

Definition take_note (n : notes) (o : note_op) : notes :=
  match o with
  | TookPrincipal p => notePrincipal p n
  | TookVerdict ctx d => noteVerdict ctx d n
  | TookRefusal reason detail p => markRefusal reason detail p n
  | TookRejected => markCredentialRejected n
  end.

Definition taken (l : list note_op) : notes := foldl take_note no_notes l.

(** What a sequence holds, in order. *)
Definition principals_noted (l : list note_op) : list (option principal) :=
  omap (λ o, match o with TookPrincipal p => Some p | TookRefusal _ _ p => p | _ => None end) l.

Definition verdicts_noted (l : list note_op) : list (auth_context * decision) :=
  omap (λ o, match o with TookVerdict ctx d => Some (ctx, d) | _ => None end) l.

Definition refusals_noted (l : list note_op) : list refusal :=
  omap (λ o, match o with TookRefusal r d _ => Some (Refusal r d) | _ => None end) l.

Definition denial_of (v : auth_context * decision) : option (auth_context * decision) :=
  match snd v with Denied _ _ => Some v | Allowed => None end.

Definition denials_noted (l : list note_op) : list (auth_context * decision) := omap denial_of (verdicts_noted l).

(** The first principal that is one. *)
Definition first_principal (l : list note_op) : option principal := head (omap id (principals_noted l)).

Definition kept_principal (ps : list (option principal)) : option (option principal) :=
  match ps with [] => None | _ => Some (head (omap id ps)) end.

Definition kept_verdict (vs : list (auth_context * decision)) : option (auth_context * decision) :=
  match head (omap denial_of vs) with Some v => Some v | None => last vs end.

Lemma kept_principal_snoc ps p :
  kept_principal (ps ++ [p]) = match kept_principal ps with Some (Some q) => Some (Some q) | _ => Some p end.
Proof.
  unfold kept_principal. rewrite omap_app, head_app.
  destruct ps as [|q ps]; [by destruct p|]. cbn [app].
  destruct (head (omap id (q :: ps))); [done|]. by destruct p.
Qed.

Lemma denial_of_Some v v' : denial_of v = Some v' → v' = v ∧ ∃ c st r, v = (c, Denied st r).
Proof. unfold denial_of. destruct v as [c [|st r]]; cbn; [done|]. intros [= <-]. eauto. Qed.

Lemma no_denial_last vs c d : omap denial_of vs = [] → last vs = Some (c, d) → d = Allowed.
Proof.
  intros Hd [ws ->]%last_Some. rewrite omap_app in Hd. apply app_eq_nil in Hd as [_ Hd].
  by destruct d.
Qed.

Lemma head_denial vs v : head (omap denial_of vs) = Some v → ∃ c st r, v = (c, Denied st r).
Proof.
  intros H. apply head_Some_elem_of, list_elem_of_omap in H as (x & _ & [-> (c & st & r & ->)]%denial_of_Some). eauto.
Qed.

Lemma kept_verdict_snoc vs v :
  kept_verdict (vs ++ [v]) = match kept_verdict vs with Some (_, Denied _ _) => kept_verdict vs | _ => Some v end.
Proof.
  unfold kept_verdict. rewrite omap_app, last_snoc, head_app.
  destruct (head (omap denial_of vs)) as [x|] eqn:Hh.
  - by destruct (head_denial _ _ Hh) as (c & st & r & ->).
  - apply head_None in Hh. destruct (last vs) as [[c d]|] eqn:Hl.
    + rewrite (no_denial_last _ _ _ Hh Hl). by destruct v as [? []].
    + by destruct v as [? []].
Qed.

Lemma taken_fields l :
  n_principal (taken l) = kept_principal (principals_noted l) ∧
  n_verdict (taken l) = kept_verdict (verdicts_noted l) ∧
  n_refusal (taken l) = head (refusals_noted l) ∧
  n_rejected (taken l) = existsb (λ o, match o with TookRejected => true | _ => false end) l.
Proof.
  induction l as [|o l (Hp & Hv & Hr & Hj)] using rev_ind; [done|].
  unfold taken in *. rewrite foldl_app. cbn [foldl].
  set (n := foldl take_note no_notes l) in *.
  unfold principals_noted, verdicts_noted, refusals_noted in *.
  rewrite !omap_app, existsb_app, <-Hj.
  destruct o as [p|ctx d|r d [p|]|]; cbn [take_note omap list_omap];
    rewrite ?app_nil_r, ?kept_principal_snoc, ?kept_verdict_snoc, ?head_app, <-?Hp, <-?Hv, <-?Hr; cbn [existsb];
    rewrite ?orb_false_r.
  - unfold notePrincipal. destruct (n_principal n) as [[q|]|] eqn:E; rewrite ?E; done.
  - unfold noteVerdict. destruct (n_verdict n) as [[c [|st r]]|] eqn:E; rewrite ?E; done.
  - unfold markRefusal, notePrincipal. destruct (n_principal n) as [[q|]|] eqn:E, (n_refusal n) eqn:E'; cbn; rewrite ?E, ?E'; done.
  - unfold markRefusal. destruct (n_refusal n) eqn:E'; cbn; rewrite ?E'; done.
  - cbn. by rewrite orb_true_r.
Qed.

(** The reason a sequence of notes gives, from its first refusal, else its first denial, else the status. *)
Definition reason_noted (l : list note_op) (status : Z) : option RefusalReason :=
  match refusals_noted l, denials_noted l with
  | r :: _, _ => Some (rf_reason r)
  | [], (_, Denied st _) :: _ =>
      Some (if bool_decide (st = Some 401%Z) || bool_decide (first_principal l = None) then Unauthenticated else Rbac)
  | [], _ => if (status =? 401)%Z then Some Unauthenticated else if (status =? 403)%Z then Some Policy else None
  end.

Lemma default_kept_principal l : default None (kept_principal (principals_noted l)) = first_principal l.
Proof. unfold kept_principal, first_principal. by destruct (principals_noted l). Qed.

Lemma refused_for_taken l status : fst <$> refused_for (taken l) status = reason_noted l status.
Proof.
  destruct (taken_fields l) as (Hp & Hv & Hr & _).
  unfold refused_for, reason_noted. rewrite Hp, Hv, Hr, default_kept_principal.
  destruct (refusals_noted l) as [|r rs]; [cbn|done].
  unfold kept_verdict, denials_noted. destruct (omap denial_of (verdicts_noted l)) as [|v vs] eqn:Hd; cbn.
  - destruct (last (verdicts_noted l)) as [[c d]|] eqn:Hl; [rewrite (no_denial_last _ _ _ Hd Hl)|];
      by destruct (status =? 401)%Z, (status =? 403)%Z.
  - destruct (head_denial (verdicts_noted l) v) as (c & st & rr & ->); [by rewrite Hd|]. done.
Qed.

Lemma reason_noted_None l status :
  reason_noted l status = None ↔
  refusals_noted l = [] ∧ denials_noted l = [] ∧ status ≠ 401%Z ∧ status ≠ 403%Z.
Proof.
  unfold reason_noted. destruct (refusals_noted l) as [|r rs]; [|split; [done|by intros [? _]]].
  destruct (denials_noted l) as [|v vs] eqn:Hd.
  - destruct (Z.eqb_spec status 401), (Z.eqb_spec status 403); (split; [try done; auto|intros (_ & _ & ? & ?); done]).
  - destruct (head_denial (verdicts_noted l) v) as (c & st & rr & ->); [unfold denials_noted in Hd; by rewrite Hd|].
    split; [done|by intros (_ & ? & _)].
Qed.

Lemma noted_nothing l :
  principals_noted l = [] ∧ verdicts_noted l = [] ∧ refusals_noted l = [] ↔ ∀ o, o ∈ l → o = TookRejected.
Proof.
  induction l as [|o l IH]; [split; [intros _ o Ho; by apply elem_of_nil in Ho|done]|].
  transitivity (o = TookRejected ∧ ∀ o', o' ∈ l → o' = TookRejected).
  - rewrite <-IH. unfold principals_noted, verdicts_noted, refusals_noted.
    destruct o as [p|ctx d|r d [p|]|]; cbn; naive_solver.
  - split.
    + intros [-> H] o' [->|?]%elem_of_cons; auto.
    + intros H. split; [apply H; by left|intros o' ?; apply H; by right].
Qed.

Lemma outcome_fields rq l status d :
  outcomeOf rq (taken l) status = Some d →
  ad_principal d = first_principal l ∧ ad_kind d = callerKind (first_principal l) ∧ ad_status d = status ∧
  ad_reason d = reason_noted l status ∧
  (ad_allowed d = true ↔ reason_noted l status = None).
Proof.
  intros Hd. destruct (taken_fields l) as (Hp & _).
  assert (ad_principal d = first_principal l ∧ ad_kind d = callerKind (first_principal l) ∧ ad_status d = status ∧
          ad_reason d = fst <$> refused_for (taken l) status ∧
          ad_allowed d = bool_decide (refused_for (taken l) status = None)) as (-> & -> & -> & -> & ->).
  { unfold outcomeOf in Hd. rewrite <-default_kept_principal, <-Hp.
    by destruct (n_refusal (taken l)), (n_verdict (taken l)), (n_principal (taken l)); simplify_eq. }
  split_and!; [done..|by rewrite refused_for_taken|].
  by rewrite <-refused_for_taken, bool_decide_eq_true, fmap_None.
Qed.

Lemma outcome_reported rq l status : verdicts_noted l ≠ [] → is_Some (outcomeOf rq (taken l) status).
Proof.
  intros Hv. destruct (taken_fields l) as (Hp & Hv' & Hr & _). unfold outcomeOf. rewrite Hv'.
  destruct (kept_verdict (verdicts_noted l)) eqn:Hk; [by destruct (n_refusal (taken l)); eexists|].
  exfalso. revert Hv Hk. destruct (verdicts_noted l) as [|v vs] using rev_ind; [done|].
  rewrite kept_verdict_snoc. by destruct (kept_verdict vs) as [[? []]|].
Qed.

Lemma settled_taken l : n_settled (taken l) = false.
Proof.
  induction l as [|o l IH] using rev_ind; [done|]. unfold taken in *. rewrite foldl_app. cbn.
  set (n := foldl take_note no_notes l) in *.
  destruct o as [p|ctx d|r d [p|]|]; cbn; unfold notePrincipal, noteVerdict, markRefusal, notePrincipal;
    repeat case_match; done.
Qed.

(** The record of a request is exactly what was noted on it, in any order and number of notes:
    nothing is reported when neither a verdict, a principal nor a refusal was noted; the
    principal is the first one authenticated; the request counts as allowed if and only if no
    refusal and no denial was noted and it was not answered with 401 or 403; and the reason is
    the first refusal's, else the first denial's, whatever was allowed later, else the
    status'. *)
Theorem record_exact (rq : request) (l : list note_op) (status : Z) :
  (outcomeOf rq (taken l) status = None ↔ ∀ o, o ∈ l → o = TookRejected) ∧
  (∀ d, outcomeOf rq (taken l) status = Some d →
     ad_principal d = first_principal l ∧ ad_kind d = callerKind (first_principal l) ∧ ad_status d = status ∧
     ad_reason d = reason_noted l status ∧
     (ad_allowed d = true ↔
        refusals_noted l = [] ∧ denials_noted l = [] ∧ status ≠ 401%Z ∧ status ≠ 403%Z)).
Proof.
  destruct (taken_fields l) as (Hp & Hv & Hr & _). split.
  - rewrite <-noted_nothing. unfold outcomeOf. rewrite Hp, Hv, Hr.
    assert (Hk : kept_verdict (verdicts_noted l) = None ↔ verdicts_noted l = []).
    { destruct (verdicts_noted l) as [|v vs] using rev_ind; [done|].
      rewrite kept_verdict_snoc. split; [|by intros []%app_nil]. destruct (kept_verdict vs) as [[? []]|]; done. }
    destruct (principals_noted l), (kept_verdict (verdicts_noted l)), (refusals_noted l); cbn; naive_solver.
  - intros d (? & ? & ? & ? & ->)%outcome_fields. by rewrite <-reason_noted_None.
Qed.

(** ** Requests that went through the gate *)

Inductive check := CheckAction (act : action) (resource : option string) | CheckPermission (permission : string).

Section Checked.
Context {W E : Type}.
Variable urlHostname : string → option string.
Abbreviation provider := (auth_provider W E).

Definition check_one (auth : option provider) (rq : request) (s : gate_notes) (c : W * check) : outcome E bool * gate_notes :=
  match snd c with
  | CheckAction act resource => allow urlHostname auth (fst c) rq act resource s
  | CheckPermission permission => allowP urlHostname auth (fst c) rq permission s
  end.

(** The checks a host makes for one request, each in the world of its moment, with their answers. *)
Fixpoint checks (auth : option provider) (rq : request) (s : gate_notes) (cs : list (W * check))
    : list (outcome E bool) * gate_notes :=
  match cs with
  | [] => ([], s)
  | c :: cs =>
      let '(o, s) := check_one auth rq s c in
      let '(os, s) := checks auth rq s cs in (o :: os, s)
  end.

Definition refused_by (o : outcome E bool) : bool := match o with Ok false => true | _ => false end.
Definition allowed_by (o : outcome E bool) : bool := match o with Ok true => true | _ => false end.

(** What one check adds to the notes. *)
Definition adds (o : outcome E bool) (l : list note_op) : Prop :=
  refusals_noted l = [] ∧ (denials_noted l = [] ↔ refused_by o = false) ∧
  (allowed_by o = true → verdicts_noted l ≠ []).

Lemma ask_adds (p : provider) w rq ctx s l o s' :
  gn_notes s = taken l → ask p w rq ctx s = (o, s') → ∃ l', gn_notes s' = taken (l ++ l') ∧ adds o l'.
Proof.
  intros Hs. unfold ask. destruct (ap_authenticate p w rq) as [[q rejected]|e].
  2: { intros [= <- <-]. exists []. by rewrite app_nil_r. }
  set (l0 := if rejected then [TookRejected] else []).
  assert (Hn : (if rejected then markCredentialRejected (gn_notes s) else gn_notes s) = taken (l ++ l0)).
  { unfold taken. rewrite Hs, foldl_app. by destruct rejected. }
  rewrite Hn. destruct (ap_authorize p w q rq ctx) as [d|e].
  2: { intros [= <- <-]. exists l0. split; [done|]. by destruct rejected. }
  assert (Hv : noteVerdict ctx d (notePrincipal q (taken (l ++ l0))) = taken (l ++ (l0 ++ [TookPrincipal q; TookVerdict ctx d]))).
  { rewrite app_assoc. unfold taken at 2. by rewrite foldl_app. }
  rewrite Hv. destruct d as [|st r]; intros [= <- <-]; eexists; (split; [done|]); by destruct rejected.
Qed.

Lemma check_adds (p : provider) rq s l c o s' :
  crossSiteWithoutIdentity urlHostname (Some p) rq = false →
  gn_notes s = taken l → check_one (Some p) rq s c = (o, s') → ∃ l', gn_notes s' = taken (l ++ l') ∧ adds o l'.
Proof.
  intros Hc Hs. unfold check_one, allow, allowP. rewrite Hc. destruct (snd c); by apply ask_adds.
Qed.

Lemma checks_adds (p : provider) rq s l cs os s' :
  crossSiteWithoutIdentity urlHostname (Some p) rq = false →
  gn_notes s = taken l → checks (Some p) rq s cs = (os, s') →
  ∃ l', gn_notes s' = taken (l ++ l') ∧ refusals_noted l' = [] ∧
    (denials_noted l' = [] ↔ existsb refused_by os = false) ∧
    (existsb allowed_by os = true → verdicts_noted l' ≠ []).
Proof.
  intros Hc. revert s l os. induction cs as [|c cs IH]; intros s l os Hs; cbn [checks].
  { intros [= <- <-]. exists []. by rewrite app_nil_r. }
  destruct (check_one (Some p) rq s c) as [o s1] eqn:Ho.
  destruct (checks (Some p) rq s1 cs) as [os' s2] eqn:Hos. intros [= <- <-].
  destruct (check_adds _ _ _ _ _ _ _ Hc Hs Ho) as (l1 & Hs1 & Hr1 & Hd1 & Hv1).
  destruct (IH _ _ _ Hs1 Hos) as (l2 & Hs2 & Hr2 & Hd2 & Hv2).
  exists (l1 ++ l2). rewrite app_assoc. split; [done|].
  unfold refusals_noted, denials_noted, verdicts_noted in *. rewrite !omap_app, Hr1, Hr2, !app_nil.
  cbn [existsb]. rewrite orb_false_iff, orb_true_iff. naive_solver.
Qed.

(** What a host does with one request: it asks its gate, or it refuses on its own account (a 404 that hides why). *)
Inductive host_move :=
| Asks (w : W) (c : check)
| Refuses (reason : RefusalReason) (detail : option string) (p : option (option principal)).

Fixpoint handled (auth : option provider) (rq : request) (s : gate_notes) (ms : list host_move)
    : list (outcome E bool) * gate_notes :=
  match ms with
  | [] => ([], s)
  | Asks w c :: ms =>
      let '(o, s) := check_one auth rq s (w, c) in
      let '(os, s) := handled auth rq s ms in (o :: os, s)
  | Refuses reason detail p :: ms =>
      handled auth rq (GateNotes (markRefusal reason detail p (gn_notes s)) (gn_principal s) (gn_decision s)) ms
  end.

Definition refusals_of (ms : list host_move) : list refusal :=
  omap (λ m, match m with Refuses reason detail _ => Some (Refusal reason detail) | Asks _ _ => None end) ms.

Lemma handled_adds (p : provider) rq s l ms os s' :
  crossSiteWithoutIdentity urlHostname (Some p) rq = false →
  gn_notes s = taken l → handled (Some p) rq s ms = (os, s') →
  ∃ l', gn_notes s' = taken (l ++ l') ∧ refusals_noted l' = refusals_of ms ∧
    (denials_noted l' = [] ↔ existsb refused_by os = false) ∧
    (existsb allowed_by os = true → verdicts_noted l' ≠ []).
Proof.
  intros Hc. revert s l os. induction ms as [|[w c|reason detail pr] ms IH]; intros s l os Hs; cbn [handled].
  - intros [= <- <-]. exists []. by rewrite app_nil_r.
  - destruct (check_one (Some p) rq s (w, c)) as [o s1] eqn:Ho.
    destruct (handled (Some p) rq s1 ms) as [os' s2] eqn:Hos. intros [= <- <-].
    destruct (check_adds _ _ _ _ _ _ _ Hc Hs Ho) as (l1 & Hs1 & Hr1 & Hd1 & Hv1).
    destruct (IH _ _ _ Hs1 Hos) as (l2 & Hs2 & Hr2 & Hd2 & Hv2).
    exists (l1 ++ l2). rewrite app_assoc. split; [done|].
    unfold refusals_noted, denials_noted, verdicts_noted in *. rewrite !omap_app, Hr1, Hr2, !app_nil.
    cbn [existsb]. rewrite orb_false_iff, orb_true_iff. naive_solver.
  - intros Hm.
    assert (Hn : markRefusal reason detail pr (gn_notes s) = taken (l ++ [TookRefusal reason detail pr])) by (rewrite Hs; unfold taken; by rewrite foldl_app).
    destruct (IH (GateNotes (markRefusal reason detail pr (gn_notes s)) (gn_principal s) (gn_decision s)) (l ++ [TookRefusal reason detail pr]) os Hn Hm)
      as (l2 & Hs2 & Hr2 & Hd2 & Hv2).
    exists (TookRefusal reason detail pr :: l2). split; [by rewrite Hs2, <- app_assoc|]. split; [|done].
    cbn. unfold refusals_noted, refusals_of in *. by rewrite Hr2.
Qed.

(** C36: a request is reported as it was answered.  A host asks its gate about a request any number of times, at
    any moments and with any provider that binds identities, and may in between refuse it on its own account, for reasons
    that its response hides.  When anything was decided there is a record; it says allowed if and only if no check
    refused the request, the host did not refuse it, and the response is neither 401 nor 403.  The reason is that of the host's
    first refusal, else a refused check is one of identity or of permission even when a later check allowed; and the
    provider is told exactly once. *)
Theorem gate_recorded (p : provider) (hook : access_decision → outcome E unit) (rq : request) (ms : list host_move)
    (os : list (outcome E bool)) (s : gate_notes) (status : Z) :
  ap_onDecision p = Some hook →
  bindsIdentity (Some p) = true →
  handled (Some p) rq fresh_request ms = (os, s) →
  existsb refused_by os = true ∨ existsb allowed_by os = true ∨ refusals_of ms ≠ [] →
  ∃ d s', settle (Some p) rq status s = (hook d, [d], s') ∧
    (ad_allowed d = true ↔ existsb refused_by os = false ∧ refusals_of ms = [] ∧ status ≠ 401%Z ∧ status ≠ 403%Z) ∧
    (∀ r, head (refusals_of ms) = Some r → ad_reason d = Some (rf_reason r)) ∧
    (existsb refused_by os = true → refusals_of ms = [] → ad_reason d = Some Unauthenticated ∨ ad_reason d = Some Rbac) ∧
    (∀ status', settle (Some p) rq status' s' = (Ok tt, [], s')).
Proof.
  intros Hh Hb Hcs Hans.
  assert (Hc : crossSiteWithoutIdentity urlHostname (Some p) rq = false) by (unfold crossSiteWithoutIdentity; by rewrite Hb).
  destruct (handled_adds p rq fresh_request [] ms os s Hc eq_refl Hcs) as (l & Hs & Hr & Hd & Hv). cbn [app] in Hs.
  assert (Hout : ∃ d, outcomeOf rq (taken l) status = Some d).
  { destruct Hans as [Href|[Hal|Hm]]; [apply outcome_reported|apply outcome_reported; auto|].
    - intros Hnil. apply not_false_iff_true in Href. apply Href, Hd. unfold denials_noted. by rewrite Hnil.
    - destruct (outcomeOf rq (taken l) status) as [d|] eqn:Hn; [by exists d|]. exfalso. apply Hm. rewrite <- Hr.
      by apply (noted_nothing l), (proj1 (record_exact rq l status)). }
  destruct Hout as [d Hout]. destruct (outcome_fields _ _ _ _ Hout) as (_ & _ & _ & Hreason & Hal).
  exists d. eexists. unfold settle, settleDecision. cbn [mbind option_bind]. rewrite Hh, Hs, settled_taken, Hout.
  split_and!; [done| | | |by intros status'; destruct (existsb refused_by os)].
  - rewrite Hal, reason_noted_None, Hr, Hd. naive_solver.
  - intros r Hhead. rewrite Hreason. unfold reason_noted. rewrite Hr. by destruct (refusals_of ms); simplify_eq/=.
  - intros Href Hnone. rewrite Hreason. unfold reason_noted. rewrite Hr, Hnone.
    destruct (denials_noted l) as [|v vs] eqn:Hdl; [destruct Hd as [Hd _]; rewrite Hd in Href; done|].
    destruct (head_denial (verdicts_noted l) v) as (c & st & r & ->); [unfold denials_noted in Hdl; by rewrite Hdl|].
    destruct (_ || _); auto.
Qed.

(** A surface without identities is closed to other sites: a state change that a page of another
    site caused (as every current browser says of itself) is refused by every check, coarse or fine, without
    asking the predicates or the provider, and answered with 403.  No record of the refusal exists: the
    provider is told nothing of it, whatever the response. *)
Theorem cross_site_refused_unrecorded (auth : option provider) (rq : request) (cs : list (W * check)) :
  bindsIdentity auth = false →
  includes (method rq) SAFE = false → header "sec-fetch-site" rq = Some "cross-site" →
  checks auth rq fresh_request cs = (replicate (length cs) (Ok false), fresh_request) ∧
  deny Write fresh_request = (403%Z, "unauthorized (admin required)") ∧
  (∀ status, settle auth rq status fresh_request = (Ok tt, [], fresh_request)).
Proof.
  intros Hb Hm Hh.
  assert (Hc : crossSiteWithoutIdentity urlHostname auth rq = true).
  { unfold crossSiteWithoutIdentity, isCrossSiteStateChange. by rewrite Hb, Hm, Hh. }
  split_and!; [|done|].
  - induction cs as [|[w c] cs IH]; [done|]. cbn [checks length replicate].
    destruct c; unfold check_one at 1, allow, allowP; cbn [snd fst]; by rewrite Hc, IH.
  - intros status. unfold settle. by destruct (auth ≫= ap_onDecision).
Qed.
End Checked.

(** A provider that asks the world whether to allow; the world is the answer. *)
Definition asking_provider (binds : option bool) : auth_provider bool string :=
  AuthProvider (λ _ _, Ok (ops_login Operator "ops", false))
    (λ (w : bool) _ _ _, if w then Ok Allowed else Ok (Denied (Some 403%Z) (Some "no")))
    binds (Some (λ _, Err "the audit store is down")).

Definition browser_post : request :=
  Request "post" [("sec-fetch-site", "cross-site")] "localhost" "/runs/r1/cancel" [].

(** Allowed at the gate, and answered with a 404 that hides whose run it is. *)
Lemma gate_recorded_witness :
  ∃ d s', settle (Some (asking_provider None)) browser_post 404%Z
            (snd (handled (λ _, None) (Some (asking_provider None)) browser_post fresh_request
                    [Asks true (CheckAction Write None); Refuses Ownership None None])) =
          (Err "the audit store is down", [d], s') ∧
    ad_allowed d = false ∧ ad_reason d = Some Ownership.
Proof.
  destruct (gate_recorded (λ _, None) (asking_provider None) (λ _, Err "the audit store is down") browser_post
              [Asks true (CheckAction Write None); Refuses Ownership None None]
              [Ok true] _ 404%Z eq_refl eq_refl eq_refl (or_intror (or_introl eq_refl))) as (d & s' & H & Hal & Hre & _).
  exists d, s'. split; [exact H|]. split; [|by apply (Hre (Refusal Ownership None))].
  destruct (ad_allowed d); [|done]. by destruct (proj1 Hal eq_refl) as (_ & ? & _).
Defined.

Lemma cross_site_refused_unrecorded_witness :
  checks (λ _, None) (Some (asking_provider (Some false))) browser_post fresh_request [(true, CheckPermission "run:cancel")] =
    ([Ok false], fresh_request).
Proof.
  exact (proj1 (cross_site_refused_unrecorded (λ _, None) (Some (asking_provider (Some false))) browser_post
                  [(true, CheckPermission "run:cancel")] eq_refl eq_refl eq_refl)).
Defined.

(** ** Doors *)

(** A standalone door, whatever its [identify] answers: a request is refused exactly when its
    credential was rejected and it is nobody's (401), or when it comes from an application that
    names nobody a user can be (400), and the record then says unauthenticated; otherwise its
    caller reaches a user's run only as staff, as that user itself, or as an application that named
    that user.  A name in the request never moves a user or staff, and no application ever
    becomes staff. *)
Theorem door_callers {W E R : Type} (identify : W → request → outcome E (option principal * bool)) (w : W) (rq : request)
    (named : option string) (p : option principal) (rejected : bool) (o : outcome E request_caller) (n : notes) :
  identify w rq = Ok (p, rejected) →
  callerOfRequest (Some identify) w rq named no_notes = (o, n) →
  let refusal := (p = None ∧ rejected = true) ∨
                 (callerKind p = Some Application ∧ ∀ u, named = Some u → good_subject u = false) in
  (refusal ↔ ∃ text st, o = Ok (RequestRefused text st)) ∧
  (refusal → ∀ status, ∃ d, outcomeOf rq n status = Some d ∧ ad_allowed d = false ∧ ad_reason d = Some Unauthenticated) ∧
  (∀ q c, o = Ok (RequestCaller q c) → q = p ∧
     ∀ (u : string) org k rec,
       decideRunAccess (@Owned R (User u org) k rec) c = RunIdentity.Allow ↔
       callerKind p = Some Operator ∨ (callerKind p = Some Subject ∧ (p ≫= p_id) = Some u) ∨
       (callerKind p = Some Application ∧ named = Some u ∧ good_subject u = true)).
Proof.
  intros Hid. unfold callerOfRequest. rewrite Hid.
  set (n0 := notePrincipal p (if rejected then markCredentialRejected no_notes else no_notes)).
  assert (Hn0 : n0 = Notes (Some p) None None false rejected) by (subst n0; by destruct rejected).
  rewrite Hn0. unfold credentialRejected. cbn [n_rejected].
  destruct (bool_decide (p = None) && rejected) eqn:Hrej.
  { apply andb_true_iff in Hrej as [->%bool_decide_eq_true ->]. intros [= <- <-]. split_and!.
    - split; [eauto|auto].
    - intros _ status. eexists. split; [reflexivity|done].
    - done. }
  destruct (decide (callerKind p = Some Application)) as [Hk|Hk].
  - rewrite bool_decide_eq_true_2 by done.
    destruct (engineCallerOf_application p named Hk) as [(u & -> & Hg & ->)|[-> Hnone]]; intros [= <- <-].
    + split_and!.
      * split; [|by intros (? & ? & ?)]. intros [[-> ->]|[_ Hbad]]; [done|]. by rewrite (Hbad u) in Hg.
      * intros [[-> ->]|[_ Hbad]]; [done|]. by rewrite (Hbad u) in Hg.
      * intros q c [= <- <-]. split; [done|]. intros v org k rec. cbn.
        destruct (String.eqb_spec v u) as [->|Hne]; rewrite Hk; (split; [|]); [by auto|done|done|].
        intros [?|[[? _]|(_ & [= ->] & _)]]; done.
    + split_and!.
      * split; [eauto|auto].
      * intros _ status. eexists. split; [reflexivity|done].
      * done.
  - rewrite bool_decide_eq_false_2 by done. intros [= <- <-].
    assert (Hno : ¬ ((p = None ∧ rejected = true) ∨ (callerKind p = Some Application ∧ ∀ u, named = Some u → good_subject u = false))).
    { intros [[-> ->]|[? _]]; done. }
    split_and!; [split; [done|by intros (? & ? & ?)]|done|].
    intros q c [= <- <-]. split; [done|]. intros u org k rec. rewrite user_run_reached. cbn [truthy].
    naive_solver.
Qed.


Lemma door_callers_witness :
  fst (callerOfRequest (Some (λ (_ : unit) _, Ok (E := string) (ops_login Application "backend", false))) tt browser_post
         (Some "ayse") no_notes) = Ok (RequestCaller (ops_login Application "backend") (User "ayse" None)) ∧
  decideRunAccess (@Owned string (User "ayse" None) KAgent true) (User "ayse" None) = RunIdentity.Allow.
Proof.
  split; [reflexivity|].
  destruct (door_callers (R := string) (λ (_ : unit) _, Ok (E := string) (ops_login Application "backend", false)) tt browser_post
              (Some "ayse") (ops_login Application "backend") false _ _ eq_refl eq_refl) as (_ & _ & H).
  apply (H _ _ eq_refl). right. right. split_and!; reflexivity.
Defined.
