(* ===== verification/Jwt.v ===== *)
(** * Jwt: the tokens that are accepted, and those an application signs

    Models [packages/auth/src/jwt.ts], [safe-equal.ts] and [token-endpoint.ts]: base64url, the verifier
    of every token, the tokens signed for end users, and the endpoint that turns a session into one.
    HMAC-SHA-256, SHA-256, the public key operations of node:crypto and [JSON.parse] are parameters
    ([JSON.stringify] is [Json.print]); texts are their bytes.  Numbers in claims are integers or not
    finite; a number of 1e21 or more as a role is not modelled. *)

From S2P Require Import Prelude JsMap Json Hash Format Journal Access Http Gate.

(** ** Base 64 *)

Definition b64_char (url : bool) (n : nat) : Ascii.ascii :=
  if n <? 26 then Ascii.ascii_of_nat (65 + n)
  else if n <? 52 then Ascii.ascii_of_nat (71 + n)
  else if n <? 62 then Ascii.ascii_of_nat (n - 4)
  else if n =? 62 then if url then "-" else "+"
  else if url then "_" else "/".

(** The value of a character of the url alphabet. *)
Definition b64u_val (c : Ascii.ascii) : option nat :=
  let n := Ascii.nat_of_ascii c in
  if between 65 90 c then Some (n - 65)
  else if between 97 122 c then Some (n - 71)
  else if between 48 57 c then Some (n + 4)
  else if Ascii.eqb c "-" then Some 62
  else if Ascii.eqb c "_" then Some 63
  else None.

(** [Buffer.toString('base64url')], and ['base64'] with its padding. *)
Fixpoint b64_encode (url : bool) (s : string) : string :=
  let code c := Ascii.nat_of_ascii c in
  let pad p := if url then "" else p in
  match s with
  | EmptyString => ""
  | String a EmptyString =>
      String (b64_char url (code a / 4)) (String (b64_char url ((code a mod 4) * 16)) (pad "=="))
  | String a (String b EmptyString) =>
      String (b64_char url (code a / 4)) (String (b64_char url ((code a mod 4) * 16 + code b / 16))
        (String (b64_char url ((code b mod 16) * 4)) (pad "=")))
  | String a (String b (String c s')) =>
      String (b64_char url (code a / 4)) (String (b64_char url ((code a mod 4) * 16 + code b / 16))
        (String (b64_char url ((code b mod 16) * 4 + code c / 64)) (String (b64_char url (code c mod 64))
          (b64_encode url s'))))
  end.

(** [Buffer.from(s, 'base64url')] on a text of the alphabet; the code decodes nothing else. *)
Fixpoint b64uDecode (s : string) : string :=
  let val c := default 0 (b64u_val c) in
  let byte n := Ascii.ascii_of_nat (n mod 256) in
  match s with
  | String a (String b EmptyString) => String (byte (val a * 4 + val b / 16)) ""
  | String a (String b (String c EmptyString)) =>
      String (byte (val a * 4 + val b / 16)) (String (byte (val b * 16 + val c / 4)) "")
  | String a (String b (String c (String d s'))) =>
      String (byte (val a * 4 + val b / 16)) (String (byte (val b * 16 + val c / 4))
        (String (byte (val c * 64 + val d)) (b64uDecode s')))
  | _ => ""
  end.

(** [/^[A-Za-z0-9_-]+$/] *)
Definition b64u_text (s : string) : bool :=
  negb (String.eqb s "") && negb (str_exists (λ c, negb (bool_decide (is_Some (b64u_val c)))) s).

(** ** Values of claims *)

Fixpoint json_js (j : json) : js :=
  match j with
  | JsNull => JNull
  | JsBool b => JBool b
  | JsNum z => JNum z
  | JsStr s => JStr s
  | JsArr l => JArr (map json_js l)
  | JsObj l => JObj (map (λ '(k, v), (k, json_js v)) l)
  end.

(** [String(x)] of a parsed value; an array is joined by commas, without its nulls. *)
Fixpoint js_text (v : js) : string :=
  match v with
  | JStr s => s
  | JNum z => print_Z z
  | JNonFinite t => t
  | JBool b => if b then "true" else "false"
  | JNull => "null"
  | JArr l => join_at "," (map (λ x, match x with JNull => "" | _ => js_text x end) l)
  | _ => "[object Object]"
  end.

Definition as_text (v : js) : option string := match v with JStr s => Some s | _ => None end.

(** ** The verifier *)

Definition MIN_SUBJECT_SECRET_BYTES : nat := 32.
Definition MAX_SUBJECT_TTL_SEC : Z := 3600.
Definition MAX_REVOCABLE_SUBJECT_TTL_SEC : Z := 30 * 24 * 3600.
Definition CEILING_LEEWAY_SEC : Z := 60.

(** [jo_kindOf] answers [None] when it throws, [Some None] for a value that is no kind. *)
Record jwt_options := JwtOptions {
  jo_secret : option string;
  jo_publicKey : option string;
  jo_issuer : option string;
  jo_audience : option string;
  jo_idClaim : option string;
  jo_rolesClaim : option string;
  jo_orgClaim : option string;
  jo_kindOf : option (js → option (option PrincipalKind));
  jo_maxTtlSec : option Z;
}.

(** [opts.kindOf] applied fail-closed. *)
Definition declaredKind {X} (kindOf : option (X → option (option PrincipalKind))) (x : X) : PrincipalKind :=
  match kindOf with
  | None => Subject
  | Some f => match f x with Some (Some k) => k | _ => Subject end
  end.

Definition jwtFromRequest (rq : request) (headerName : option string) : option string :=
  match truthy headerName with
  | Some name =>
      v ← truthy (header name rq);
      Some (default v (strip_prefix "Bearer " v))
  | None => bearer rq
  end.

Inductive key_source := Pem (text : string) | Der (bytes : string).

(** What node:crypto provides. [ck_create] is [createPublicKey], [None] when it throws. *)
Record node_crypto (Key : Type) := NodeCrypto {
  nc_hmac : string → string → string;
  nc_sha256 : string → string;
  nc_create : key_source → option Key;
  nc_type : Key → string;
  nc_verify : option string → string → Key → string → option bool;
}.
Arguments nc_hmac {Key}. Arguments nc_sha256 {Key}. Arguments nc_create {Key}.
Arguments nc_type {Key}. Arguments nc_verify {Key}. Arguments NodeCrypto {Key}.

(** [pub.includes(x)] *)
Fixpoint str_includes (x s : string) : bool :=
  starts_with x s || match s with EmptyString => false | String _ s' => str_includes x s' end.

Inductive jwt_error := ShortSecret (minimum : nat) | BadTtl (maximum : Z).

Section Jwt.
Context {Key : Type}.
Variable crypto : node_crypto Key.
Variable json_parse : string → option js.

(** *** safe-equal.ts *)

Definition safeEqual (a b : string) : bool := String.eqb (nc_sha256 crypto a) (nc_sha256 crypto b).

(** *** jwt.ts *)

Definition loadPublicKey (pub : string) : option Key :=
  if str_includes "BEGIN" pub then nc_create crypto (Pem pub) else nc_create crypto (Der (b64uDecode pub)).

(** The signature is checked against the algorithm that the configured key expects. *)
Definition signature_ok (opts : jwt_options) (alg : js) (signingInput sig : string) : option bool :=
  match jo_secret opts, jo_publicKey opts with
  | Some secret, _ =>
      if bool_decide (as_text alg = Some "HS256") then Some (String.eqb (nc_hmac crypto secret signingInput) sig) else None
  | None, Some pub =>
      key ← loadPublicKey pub;
      if String.eqb (nc_type crypto key) "ed25519" then
        if bool_decide (as_text alg = Some "EdDSA") then nc_verify crypto None signingInput key sig else None
      else if String.eqb (nc_type crypto key) "rsa" then
        if bool_decide (as_text alg = Some "RS256") then nc_verify crypto (Some "sha256") signingInput key sig else None
      else None
  | None, None => None
  end.

(** [exp] in range, and its ceiling. *)
Definition exp_ok (opts : jwt_options) (claims : js) (now : Z) : bool :=
  match prop claims "exp" with
  | JNum e =>
      negb (e * 1000 <? now)%Z &&
      match jo_maxTtlSec opts with
      | Some m => negb ((m + CEILING_LEEWAY_SEC) * 1000 <? e * 1000 - now)%Z
      | None => true
      end
  | _ => false
  end.

Definition nbf_ok (claims : js) (now : Z) : bool :=
  match prop claims "nbf" with
  | JUndef => true
  | JNum n => negb (now <? n * 1000)%Z
  | _ => false
  end.

Definition iss_ok (opts : jwt_options) (claims : js) : bool :=
  match jo_issuer opts with Some i => bool_decide (as_text (prop claims "iss") = Some i) | None => true end.

Definition aud_ok (opts : jwt_options) (claims : js) : bool :=
  match jo_audience opts with
  | Some a =>
      match prop claims "aud" with
      | JArr l => existsb (λ x, bool_decide (as_text x = Some a)) l
      | v => bool_decide (as_text v = Some a)
      end
  | None => true
  end.

Definition principal_of_claims (opts : jwt_options) (claims : js) : principal :=
  let at_claim name dflt := prop claims (default dflt name) in
  Principal (Some (declaredKind (jo_kindOf opts) claims))
    (as_text (at_claim (jo_idClaim opts) "sub")) None
    match at_claim (jo_rolesClaim opts) "roles" with
    | JArr l => map js_text l
    | JStr s => [s]
    | _ => []
    end
    (as_text (at_claim (jo_orgClaim opts) "orgId")) None None.

(** The claims are those handed to [onClaims]. *)
Definition verifyJwt (token : string) (opts : jwt_options) (now : Z) : option (principal * js) :=
  match split_at "." token with
  | [headerB64; payloadB64; sigB64] =>
      if forallb b64u_text [headerB64; payloadB64; sigB64] then
        header ← json_parse (b64uDecode headerB64);
        claims ← json_parse (b64uDecode payloadB64);
        verified ← signature_ok opts (prop header "alg") (headerB64 +:+ "." +:+ payloadB64) (b64uDecode sigB64);
        if verified && exp_ok opts claims now && nbf_ok claims now && iss_ok opts claims && aud_ok opts claims
        then Some (principal_of_claims opts claims, claims)
        else None
      else None
  | _ => None
  end.

(** [{ iat: now, ...claims, exp }] in the order its text lists it. *)
Definition subject_claims (claims : list (string * json)) (now ttlSec : Z) : list (string * json) :=
  own_order (mset "exp" (JsNum (now + ttlSec)) (foldl (λ m '(k, v), mset k v m) [("iat", JsNum now)] claims)).

Definition token_part (j : json) : string := b64_encode true (print j).

Definition subject_header : json := JsObj [("alg", JsStr "HS256"); ("typ", JsStr "JWT")].

Definition signing_input (claims : list (string * json)) (now ttlSec : Z) : string :=
  token_part subject_header +:+ "." +:+ token_part (JsObj (subject_claims claims now ttlSec)).

(** [now] in milliseconds; the claims include the [sub]. *)
Definition signSubjectToken (claims : list (string * json)) (secret : string) (ttlSec : option Z) (now : Z)
    : outcome jwt_error string :=
  if String.length secret <? MIN_SUBJECT_SECRET_BYTES then Err (ShortSecret MIN_SUBJECT_SECRET_BYTES)
  else
    let input := signing_input claims (now / 1000) (default 900%Z ttlSec) in
    Ok (input +:+ "." +:+ b64_encode true (nc_hmac crypto secret input)).

(** *** token-endpoint.ts *)

Record subject_session := SubjectSession { ss_sub : option string; ss_sid : option string }.

Definition sessionTokenId (sid : string) : string :=
  String.substring 0 32 (b64_encode true (nc_sha256 crypto ("gnl-session-token:" +:+ sid))).

Inductive token_response :=
| TokenRefused (status : Z) (error : string)
| TokenIssued (token : string) (expiresAt : Z).

(** The checks made when the endpoint is built; what it returns is [token_endpoint]. *)
Definition subjectTokenEndpoint (secret : string) (ttlSec : option Z) : outcome jwt_error Z :=
  let ttl := default 300%Z ttlSec in
  if String.length secret <? MIN_SUBJECT_SECRET_BYTES then Err (ShortSecret MIN_SUBJECT_SECRET_BYTES)
  else if negb (0 <? ttl)%Z || (MAX_SUBJECT_TTL_SEC <? ttl)%Z then Err (BadTtl MAX_SUBJECT_TTL_SEC)
  else Ok ttl.

(** [sessionOf] answers [None] when it throws; [uuid] is the fresh [randomUUID()]. *)
Definition token_endpoint (urlHostname : string → option string) (sessionOf : request → option (option subject_session))
    (secret : string) (ttlSec now : Z) (uuid : string) (rq : request) : outcome jwt_error token_response :=
  if negb (String.eqb (method rq) "POST") then Ok (TokenRefused 405 "method_not_allowed")
  else if isCrossSiteStateChange urlHostname rq then Ok (TokenRefused 403 "cross_site")
  else
    let session := default None (sessionOf rq) in
    match session ≫= λ s, sub ← truthy (ss_sub s); Some (sub, ss_sid s) with
    | None => Ok (TokenRefused 401 "no_session")
    | Some (sub, sid) =>
        let jti := match truthy sid with Some x => sessionTokenId x | None => uuid end in
        match signSubjectToken [("sub", JsStr sub); ("jti", JsStr jti)] secret (Some ttlSec) now with
        | Err e => Err e
        | Ok token => Ok (TokenIssued token (now / 1000 + ttlSec))
        end
    end.
End Jwt.
