(* ===== verification/JwtFacts.v ===== *)
(** * JwtFacts: which tokens are accepted

    Theorems on [Jwt]: base64url reads back, the verifier exactly, and a token signed for an end user is
    accepted for as long as it lives, with exactly the claims it was signed with. *)

From Stdlib Require Import ZifyNat.
From stdpp Require Import sorting.
From S2P Require Import Prelude JsMap Json Hash Format Journal Access Http Gate Jwt.

Ltac div_lia := zify; Z.to_euclidean_division_equations; lia.

(** ** Base 64 *)

Lemma b64_digit_table :
  forallb (λ n, bool_decide (b64u_val (b64_char true n) = Some n)) (seq 0 64) = true.
Proof. vm_compute. reflexivity. Qed.

Lemma b64u_val_char n : n < 64 → b64u_val (b64_char true n) = Some n.
Proof.
  intros Hn. pose proof b64_digit_table as H. rewrite forallb_forall in H.
  eapply bool_decide_eq_true, H. apply in_seq. lia.
Qed.

Lemma nat_code_lt c : Ascii.nat_of_ascii c < 256.
Proof. destruct c as [[] [] [] [] [] [] [] []]; cbv; lia. Qed.

Lemma ascii_code c n : n mod 256 = Ascii.nat_of_ascii c → Ascii.ascii_of_nat (n mod 256) = c.
Proof. intros ->. apply Ascii.ascii_nat_embedding. Qed.

(** Induction by groups of three. *)
Lemma string_ind3 (P : string → Prop) :
  P "" → (∀ a, P (String a "")) → (∀ a b, P (String a (String b ""))) →
  (∀ a b c s, P s → P (String a (String b (String c s)))) → ∀ s, P s.
Proof.
  intros H0 H1 H2 H3. fix IH 1. intros [|a [|b [|c s]]]; [done|done|done|]. apply H3, IH.
Qed.

Lemma b64_decode_encode s : b64uDecode (b64_encode true s) = s.
Proof.
  induction s as [|a|a b|a b c s IH] using string_ind3; [done|..];
    pose proof (nat_code_lt a) as Ha; try pose proof (nat_code_lt b) as Hb; try pose proof (nat_code_lt c) as Hc;
    cbn [b64_encode].
  - cbn [b64uDecode]. rewrite !b64u_val_char by div_lia. cbn [from_option id].
    by rewrite (ascii_code a) by div_lia.
  - cbn [b64uDecode]. rewrite !b64u_val_char by div_lia. cbn [from_option id].
    by rewrite (ascii_code a), (ascii_code b) by div_lia.
  - assert (Hd : ∀ x y z w t, b64uDecode (String x (String y (String z (String w t)))) =
      let val c := default 0 (b64u_val c) in
      let byte n := Ascii.ascii_of_nat (n mod 256) in
      String (byte (val x * 4 + val y / 16)) (String (byte (val y * 16 + val z / 4))
        (String (byte (val z * 64 + val w)) (b64uDecode t)))) by done.
    rewrite Hd. cbv beta zeta. rewrite !b64u_val_char, IH by div_lia. cbn [from_option id].
    by rewrite (ascii_code a), (ascii_code b), (ascii_code c) by div_lia.
Qed.

Definition not_b64u (c : Ascii.ascii) : bool := negb (bool_decide (is_Some (b64u_val c))).

Lemma not_b64u_char n : n < 64 → not_b64u (b64_char true n) = false.
Proof. intros Hn. unfold not_b64u. rewrite b64u_val_char by done. done. Qed.

Lemma b64_encode_chars s : str_exists not_b64u (b64_encode true s) = false.
Proof.
  induction s as [|a|a b|a b c s IH] using string_ind3; [done|..];
    pose proof (nat_code_lt a) as Ha; try pose proof (nat_code_lt b) as Hb; try pose proof (nat_code_lt c) as Hc;
    cbn [b64_encode str_exists]; rewrite !not_b64u_char by div_lia; [done..|by rewrite IH].
Qed.

Lemma b64u_text_encode s : s ≠ "" → b64u_text (b64_encode true s) = true.
Proof.
  intros Hs. unfold b64u_text. fold not_b64u. apply andb_true_iff. split; [|by rewrite b64_encode_chars].
  destruct s as [|a [|b [|c s]]]; done.
Qed.

Lemma str_exists_weaken f g s : (∀ c, g c = true → f c = true) → str_exists f s = false → str_exists g s = false.
Proof.
  intros Hfg. induction s as [|c s IH]; cbn; [done|]. intros [Hc Hs]%orb_false_iff.
  rewrite (IH Hs), orb_false_r. apply not_true_iff_false. intros Hg%Hfg. by rewrite Hc in Hg.
Qed.

Lemma b64u_text_no_dot s : b64u_text s = true → has_char "." s = false.
Proof.
  intros [_ H%negb_true_iff]%andb_true_iff. eapply str_exists_weaken; [|exact H].
  intros c Hc. by apply Ascii.eqb_eq in Hc as <-.
Qed.

Lemma split_token h p s :
  has_char "." h = false → has_char "." p = false → has_char "." s = false →
  split_at "." (h +:+ "." +:+ p +:+ "." +:+ s) = [h; p; s].
Proof.
  intros Hh Hp Hs. cbn [String.append]. rewrite split_at_app, split_at_app, split_at_no by done. done.
Qed.

Section Verifier.
Context {Key : Type}.
Variable crypto : node_crypto Key.
Variable json_parse : string → option js.
Abbreviation verify := (verifyJwt crypto json_parse).

Lemma verifyJwt_Some token opts now p claims :
  verify token opts now = Some (p, claims) ↔
  ∃ h pl sg header, token = h +:+ "." +:+ pl +:+ "." +:+ sg ∧
    b64u_text h = true ∧ b64u_text pl = true ∧ b64u_text sg = true ∧
    json_parse (b64uDecode h) = Some header ∧ json_parse (b64uDecode pl) = Some claims ∧
    signature_ok crypto opts (prop header "alg") (h +:+ "." +:+ pl) (b64uDecode sg) = Some true ∧
    exp_ok opts claims now = true ∧ nbf_ok claims now = true ∧
    iss_ok opts claims = true ∧ aud_ok opts claims = true ∧ p = principal_of_claims opts claims.
Proof.
  split.
  - intros H. unfold verifyJwt in H. pose proof (join_split "." token) as Hjoin.
    destruct (split_at "." token) as [|h [|pl [|sg [|]]]]; try discriminate H.
    cbn [join_at] in Hjoin. exists h, pl, sg.
    destruct (forallb b64u_text [h; pl; sg]) eqn:Htext; [|discriminate H].
    cbn [forallb] in Htext. repeat (apply andb_true_iff in Htext as [? Htext]).
    destruct (json_parse (b64uDecode h)) as [header|]; [|discriminate H]. exists header.
    cbn [mbind option_bind] in H.
    destruct (json_parse (b64uDecode pl)) as [claims'|]; [|discriminate H]. cbn [mbind option_bind] in H.
    destruct (signature_ok _ _ _ _ _) as [v|] eqn:Hsig; [|discriminate H]. cbn [mbind option_bind] in H.
    destruct v; [|discriminate H]. cbn [andb] in H.
    destruct (exp_ok opts claims' now) eqn:?; [|discriminate H].
    destruct (nbf_ok claims' now) eqn:?; [|discriminate H].
    destruct (iss_ok opts claims') eqn:?; [|discriminate H].
    destruct (aud_ok opts claims') eqn:?; [|discriminate H].
    injection H as <- <-. by split_and!.
  - intros (h & pl & sg & header & -> & Hh & Hp & Hs & Hjh & Hjp & Hsig & He & Hn & Hi & Ha & ->).
    unfold verifyJwt. rewrite split_token by by apply b64u_text_no_dot. cbn [forallb].
    rewrite Hh, Hp, Hs, Hjh, Hjp. cbn [andb mbind option_bind]. rewrite Hsig. cbn [mbind option_bind andb].
    by rewrite He, Hn, Hi, Ha.
Qed.

Lemma exp_ok_spec opts claims now :
  exp_ok opts claims now = true ↔
  ∃ e, prop claims "exp" = JNum e ∧ (now ≤ e * 1000)%Z ∧
    (∀ m, jo_maxTtlSec opts = Some m → e * 1000 - now ≤ (m + CEILING_LEEWAY_SEC) * 1000)%Z.
Proof.
  unfold exp_ok. destruct (prop claims "exp"); try (split; [done|by intros (? & ? & _)]).
  rewrite andb_true_iff, negb_true_iff, Z.ltb_ge. destruct (jo_maxTtlSec opts) as [m|].
  - rewrite negb_true_iff, Z.ltb_ge. split.
    + intros [? ?]. eexists. split_and!; [done|done|by intros m' [= <-]].
    + intros (e & [= <-] & ? & H). auto.
  - split; [intros [? _]; by eexists|by intros (e & [= <-] & ? & _)].
Qed.

Lemma nbf_ok_spec claims now :
  nbf_ok claims now = true ↔
  prop claims "nbf" = JUndef ∨ ∃ n, prop claims "nbf" = JNum n ∧ (n * 1000 ≤ now)%Z.
Proof.
  unfold nbf_ok. destruct (prop claims "nbf"); try (split; [done|by intros [?|(? & ? & _)]]).
  - split; [by left|done].
  - rewrite negb_true_iff, Z.ltb_ge. split; [right; by eexists|by intros [?|(? & [= <-] & ?)]].
Qed.

Lemma as_text_Some v x : as_text v = Some x ↔ v = JStr x.
Proof. destruct v; cbn; naive_solver. Qed.

Lemma iss_ok_spec opts claims :
  iss_ok opts claims = true ↔ ∀ i, jo_issuer opts = Some i → prop claims "iss" = JStr i.
Proof.
  unfold iss_ok. destruct (jo_issuer opts) as [i|]; [|naive_solver].
  rewrite bool_decide_eq_true, as_text_Some. naive_solver.
Qed.

Lemma aud_ok_spec opts claims :
  aud_ok opts claims = true ↔
  ∀ a, jo_audience opts = Some a → prop claims "aud" = JStr a ∨ ∃ l, prop claims "aud" = JArr l ∧ JStr a ∈ l.
Proof.
  unfold aud_ok. destruct (jo_audience opts) as [a|]; [|naive_solver].
  transitivity (prop claims "aud" = JStr a ∨ ∃ l, prop claims "aud" = JArr l ∧ JStr a ∈ l).
  2: { split; [by intros ? a' [= <-]|intros H; by apply H]. }
  assert (Ho : ∀ v, (∀ l, v ≠ JArr l) → bool_decide (as_text v = Some a) = true ↔ v = JStr a ∨ ∃ l, v = JArr l ∧ JStr a ∈ l).
  { intros v Hv. rewrite bool_decide_eq_true, as_text_Some. split; [by left|]. intros [?|(l & -> & _)]; [done|by destruct (Hv l)]. }
  destruct (prop claims "aud") as [| | | | | | | | | | | | | | |l|]; try match goal with |- bool_decide (as_text ?v = _) = true ↔ _ => apply (Ho v); intros ?; discriminate end.
  rewrite existsb_exists. setoid_rewrite bool_decide_eq_true. setoid_rewrite as_text_Some. setoid_rewrite <-list_elem_of_In.
  split; [intros (x & ? & ->); right; by eexists|intros [?|(l' & [= <-] & ?)]; [done|by eexists]].
Qed.

Lemma signature_ok_secret opts secret alg input sig :
  jo_secret opts = Some secret →
  (signature_ok crypto opts alg input sig = Some true ↔ alg = JStr "HS256" ∧ sig = nc_hmac crypto secret input).
Proof.
  intros Hs. unfold signature_ok. rewrite Hs. case_bool_decide as Ha; rewrite as_text_Some in Ha.
  - split; [intros [= He%String.eqb_eq]; auto|intros [_ ->]; by rewrite String.eqb_refl].
  - split; [done|by intros [? _]].
Qed.

(** The signature that the configured key expects: a shared secret, else a public key of either kind. *)
Definition signed_for (opts : jwt_options) (alg : js) (input sig : string) : Prop :=
  match jo_secret opts, jo_publicKey opts with
  | Some secret, _ => alg = JStr "HS256" ∧ sig = nc_hmac crypto secret input
  | None, Some pub =>
      ∃ key, loadPublicKey crypto pub = Some key ∧
        ((nc_type crypto key = "ed25519" ∧ alg = JStr "EdDSA" ∧ nc_verify crypto None input key sig = Some true) ∨
         (nc_type crypto key = "rsa" ∧ alg = JStr "RS256" ∧ nc_verify crypto (Some "sha256") input key sig = Some true))
  | None, None => False
  end.

Lemma signature_ok_spec opts alg input sig : signature_ok crypto opts alg input sig = Some true ↔ signed_for opts alg input sig.
Proof.
  unfold signed_for. destruct (jo_secret opts) as [secret|] eqn:Hs; [by apply signature_ok_secret|].
  unfold signature_ok. rewrite Hs. destruct (jo_publicKey opts) as [pub|]; [|done].
  destruct (loadPublicKey crypto pub) as [key|]; cbn [mbind option_bind]; [|by split; [|intros (? & ? & _)]].
  destruct (String.eqb_spec (nc_type crypto key) "ed25519") as [He|He];
    [|destruct (String.eqb_spec (nc_type crypto key) "rsa") as [Hr|Hr]]; try case_bool_decide as Ha; rewrite ?as_text_Some in *.
  - split; [intros Hv; exists key; split; [done|by left]|]. intros (k & [= <-] & [(_ & _ & Hv)|(Hr & _)]); [done|congruence].
  - split; [done|]. intros (k & [= <-] & [(_ & Hv & _)|(Hr & _)]); congruence.
  - split; [intros Hv; exists key; split; [done|by right]|]. intros (k & [= <-] & [(Hr' & _)|(_ & _ & Hv)]); [congruence|done].
  - split; [done|]. intros (k & [= <-] & [(Hr' & _)|(_ & Hv & _)]); congruence.
  - split; [done|]. intros (k & [= <-] & [(Hr' & _)|(Hr' & _)]); congruence.
Qed.

(** C37: A token is accepted exactly when it is three non-empty base64url segments, its signature verifies under the
    algorithm that the configured key expects, whatever the token says of itself (a shared secret accepts
    HS256 alone, an Ed25519 key EdDSA alone, an RSA key RS256 alone, and no other key anything), it has an expiry that is not past and not beyond the configured
    ceiling, its optional start is not in the future, and the configured issuer and audience
    match; its holder is then what the claims and the deployment's [kindOf] say, a user by default. *)
Theorem verify_exact (token : string) (opts : jwt_options) (now : Z) (p : principal) (claims : js) :
  verify token opts now = Some (p, claims) ↔
   ∃ h pl sg header, token = h +:+ "." +:+ pl +:+ "." +:+ sg ∧
     Forall (λ x, b64u_text x = true) [h; pl; sg] ∧
     json_parse (b64uDecode h) = Some header ∧ json_parse (b64uDecode pl) = Some claims ∧
     signed_for opts (prop header "alg") (h +:+ "." +:+ pl) (b64uDecode sg) ∧
     (∃ e, prop claims "exp" = JNum e ∧ (now ≤ e * 1000)%Z ∧
        (∀ m, jo_maxTtlSec opts = Some m → e * 1000 - now ≤ (m + CEILING_LEEWAY_SEC) * 1000)%Z) ∧
     (prop claims "nbf" = JUndef ∨ ∃ n, prop claims "nbf" = JNum n ∧ (n * 1000 ≤ now)%Z) ∧
     (∀ i, jo_issuer opts = Some i → prop claims "iss" = JStr i) ∧
     (∀ a, jo_audience opts = Some a → prop claims "aud" = JStr a ∨ ∃ l, prop claims "aud" = JArr l ∧ JStr a ∈ l) ∧
     p = principal_of_claims opts claims ∧ (jo_kindOf opts = None → p_kind p = Some Subject).
Proof.
  rewrite verifyJwt_Some. split.
  - intros (h & pl & sg & header & -> & Hh & Hp & Hs & Hjh & Hjp & Hsig & He & Hn & Hi & Ha & ->).
    rewrite signature_ok_spec in Hsig. rewrite exp_ok_spec in He. rewrite nbf_ok_spec in Hn. rewrite iss_ok_spec in Hi. rewrite aud_ok_spec in Ha.
    exists h, pl, sg, header. split_and!; try done; [by repeat constructor|].
    unfold principal_of_claims. cbn. by intros ->.
  - intros (h & pl & sg & header & -> & Ht & Hjh & Hjp & Hsig & He & Hn & Hi & Ha & -> & _).
    rewrite !Forall_cons in Ht. destruct Ht as (Hh & Hp & Hs & _).
    exists h, pl, sg, header. rewrite signature_ok_spec, exp_ok_spec, nbf_ok_spec, iss_ok_spec, aud_ok_spec. by split_and!.
Qed.

(** ** Signing *)

Lemma json_js_obj l : json_js (JsObj l) = JObj (map (λ '(k, v), (k, json_js v)) l).
Proof. done. Qed.

Lemma mget_map_js k l : mget k (map (λ '(k, v), (k, json_js v)) l) = json_js <$> mget k l.
Proof. induction l as [|[k' v] l IH]; cbn; [done|]. by destruct (String.eqb _ _). Qed.

Lemma mget_app {A} k (l1 l2 : list (string * A)) :
  mget k (l1 ++ l2) = match mget k l1 with Some v => Some v | None => mget k l2 end.
Proof. induction l1 as [|[k' v] l1 IH]; cbn; [done|]. by destruct (String.eqb _ _). Qed.

Lemma mget_filter_ordinary {A} k (l : list (string * A)) :
  is_index k = false → mget k (filter (λ kv, is_index (fst kv) = false) l) = mget k l.
Proof.
  intros Hk. induction l as [|[k' v] l IH]; [done|]. rewrite filter_cons. cbn [fst].
  destruct (decide (is_index k' = false)) as [Hk'|Hk']; cbn [mget]; [by rewrite IH|].
  destruct (String.eqb_spec k k') as [->|]; [done|exact IH].
Qed.

Lemma mget_own_order {A} k (l : list (string * A)) : is_index k = false → mget k (own_order l) = mget k l.
Proof.
  intros Hk. unfold own_order. rewrite mget_app, mget_filter_ordinary by done.
  destruct (mget k (merge_sort index_le _)) as [v|] eqn:Hm; [|done]. exfalso.
  apply In_mget in Hm. rewrite (merge_sort_Permutation index_le _) in Hm.
  apply list_elem_of_filter in Hm as [Hi _]. cbn in Hi. congruence.
Qed.

Lemma mget_foldl_mset {A} k (l m : list (string * A)) :
  NoDup (mkeys l) →
  mget k (foldl (λ m '(k, v), mset k v m) m l) = match mget k l with Some v => Some v | None => mget k m end.
Proof.
  revert m. induction l as [|[k' v] l IH]; intros m Hnd; [done|]. cbn [foldl mkeys map] in *.
  apply NoDup_cons in Hnd as [Hk' Hnd]. rewrite (IH _ Hnd). cbn [mget]. rewrite mget_mset_cases.
  destruct (String.eqb_spec k k') as [->|]; [|by destruct (mget k l)].
  destruct (mget k' l) eqn:Hl; [|done]. exfalso. apply Hk', elem_of_mkeys. by eexists.
Qed.

Lemma subject_claims_get claims now ttl k :
  map_wf claims → is_index k = false →
  mget k (subject_claims claims now ttl) =
  if String.eqb k "exp" then Some (JsNum (now + ttl))
  else match mget k claims with Some v => Some v | None => if String.eqb k "iat" then Some (JsNum now) else None end.
Proof.
  intros Hwf Hk. unfold subject_claims. rewrite mget_own_order, mget_mset_cases by done.
  destruct (String.eqb k "exp"); [done|]. rewrite mget_foldl_mset by done. cbn [mget].
  by destruct (mget k claims), (String.eqb k "iat").
Qed.

Lemma token_part_text l : b64u_text (token_part (JsObj l)) = true.
Proof. apply b64u_text_encode. by destruct l as [|[]]. Qed.

Lemma b64uDecode_token_part j : b64uDecode (token_part j) = print j.
Proof. apply b64_decode_encode. Qed.

(** Every claim the token was signed with, with its issue and its expiry. *)
Definition signed_claims (claims : list (string * json)) (now ttlSec : Z) : js :=
  json_js (JsObj (subject_claims claims now ttlSec)).

Lemma prop_signed claims now ttl k :
  map_wf claims → is_index k = false →
  prop (signed_claims claims now ttl) k =
  if String.eqb k "exp" then JNum (now + ttl)
  else match mget k claims with
       | Some v => json_js v
       | None => if String.eqb k "iat" then JNum now else JUndef
       end.
Proof.
  intros Hwf Hk. unfold signed_claims. rewrite json_js_obj. cbn [prop]. rewrite mget_map_js, subject_claims_get by done.
  destruct (String.eqb k "exp"); [done|]. by destruct (mget k claims), (String.eqb k "iat").
Qed.

Lemma verify_signed claims secret ttl now0 token opts now p c :
  (∀ k m, String.length (nc_hmac crypto k m) = 32) →
  json_parse (print subject_header) = Some (json_js subject_header) →
  json_parse (print (JsObj (subject_claims claims (now0 / 1000) (default 900%Z ttl)))) =
    Some (signed_claims claims (now0 / 1000) (default 900%Z ttl)) →
  signSubjectToken crypto claims secret ttl now0 = Ok token →
  jo_secret opts = Some secret →
  verify token opts now = Some (p, c) ↔
  c = signed_claims claims (now0 / 1000) (default 900%Z ttl) ∧ p = principal_of_claims opts c ∧
  exp_ok opts c now = true ∧ nbf_ok c now = true ∧ iss_ok opts c = true ∧ aud_ok opts c = true.
Proof.
  intros Hlen Hph Hpp Hsign Hsec. unfold signSubjectToken in Hsign. case_match; [done|].
  assert (Hok : ∀ a b : string, Ok (E:=jwt_error) a = Ok b → b = a) by congruence.
  apply Hok in Hsign as ->.
  set (payload := JsObj (subject_claims claims (now0 / 1000) (default 900%Z ttl))) in *.
  set (mac := nc_hmac crypto secret (token_part subject_header +:+ "." +:+ token_part payload)).
  assert (Hmac : mac ≠ "") by (intros Hm; pose proof (Hlen secret (token_part subject_header +:+ "." +:+ token_part payload)) as Hl; fold mac in Hl; by rewrite Hm in Hl).
  unfold signing_input. fold payload. fold mac.
  assert (Hshape : ∀ a b c, (a +:+ "." +:+ b) +:+ "." +:+ c = a +:+ "." +:+ b +:+ "." +:+ c) by (intros; by rewrite str_app_assoc).
  rewrite Hshape.
  rewrite verifyJwt_Some. split.
  - intros (h & pl & sg & header & Htok & Hh & Hp & Hs & Hjh & Hjp & Hsig & He & Hn & Hi & Ha & ->).
    assert (Heq : [token_part subject_header; token_part payload; b64_encode true mac] = [h; pl; sg]).
    { rewrite <-(split_token h pl sg), <-Htok by by apply b64u_text_no_dot.
      symmetry.
      apply (split_token (token_part subject_header) (token_part payload)); apply b64u_text_no_dot;
        [apply token_part_text|apply token_part_text|by apply b64u_text_encode]. }
    injection Heq as <- <- <-. rewrite b64uDecode_token_part in Hjp.
    rewrite Hpp in Hjp. injection Hjp as <-. done.
  - intros (-> & -> & He & Hn & Hi & Ha).
    exists (token_part subject_header), (token_part payload), (b64_encode true mac), (json_js subject_header).
    rewrite !b64uDecode_token_part, b64_decode_encode.
    split_and!; try done; [apply token_part_text|by apply b64u_text_encode|].
    by apply (signature_ok_secret _ secret).
Qed.

Section Signed.
Variables (claims : list (string * json)) (sub secret token : string) (ttl : option Z) (now0 : Z) (opts : jwt_options).
Hypothesis hmac_length : ∀ k m, String.length (nc_hmac crypto k m) = 32.
Hypothesis parse_header : json_parse (print subject_header) = Some (json_js subject_header).
Hypothesis parse_payload :
  json_parse (print (JsObj (subject_claims claims (now0 / 1000) (default 900%Z ttl)))) =
    Some (signed_claims claims (now0 / 1000) (default 900%Z ttl)).
Hypothesis signed : signSubjectToken crypto claims secret ttl now0 = Ok token.
Hypothesis claims_wf : map_wf claims.
Hypothesis claims_sub : mget "sub" claims = Some (JsStr sub).
Hypothesis claims_nbf : mget "nbf" claims = None.
Hypothesis opts_secret : jo_secret opts = Some secret.
Definition signed_exp : Z := (now0 / 1000 + default 900 ttl)%Z.

Lemma prop_signed_claim k v :
  mget k claims = Some v → is_index k = false → k ≠ "exp" →
  prop (signed_claims claims (now0 / 1000) (default 900%Z ttl)) k = json_js v.
Proof. intros Hk Hi Hne. rewrite prop_signed by done. by rewrite (proj2 (String.eqb_neq k "exp") Hne), Hk. Qed.

(** A verifier that holds the secret accepts the token exactly while it lives, if its claims satisfy the
    configured issuer and audience. *)
Lemma signed_token_accepted now p c :
  verify token opts now = Some (p, c) ↔
  c = signed_claims claims (now0 / 1000) (default 900%Z ttl) ∧ p = principal_of_claims opts c ∧
  ((now ≤ signed_exp * 1000)%Z ∧
   (∀ m, jo_maxTtlSec opts = Some m → signed_exp * 1000 - now ≤ (m + CEILING_LEEWAY_SEC) * 1000)%Z) ∧
  iss_ok opts c = true ∧ aud_ok opts c = true.
Proof.
  rewrite (verify_signed claims secret ttl now0) by done.
  assert (He : exp_ok opts (signed_claims claims (now0 / 1000) (default 900%Z ttl)) now = true ↔ (now ≤ signed_exp * 1000)%Z ∧
     (∀ m, jo_maxTtlSec opts = Some m → signed_exp * 1000 - now ≤ (m + CEILING_LEEWAY_SEC) * 1000)%Z).
  { rewrite exp_ok_spec, prop_signed by done. cbn [String.eqb].
    split; [by intros (e & [= <-] & ?)|]. intros [? ?]. by exists signed_exp. }
  assert (Hn : nbf_ok (signed_claims claims (now0 / 1000) (default 900%Z ttl)) now = true).
  { apply nbf_ok_spec. left. rewrite prop_signed by done. cbn. by rewrite claims_nbf. }
  rewrite <-He. split.
  - intros (-> & -> & ? & _ & ? & ?). by split_and!.
  - intros (-> & -> & ? & ? & ?). by split_and!.
Qed.

Hypothesis opts_id : jo_idClaim opts = None.

Lemma signed_token_holder : p_id (principal_of_claims opts (signed_claims claims (now0 / 1000) (default 900%Z ttl))) = Some sub.
Proof.
  unfold principal_of_claims. rewrite opts_id. cbn [p_id default from_option id].
  by rewrite (prop_signed_claim "sub" (JsStr sub)).
Qed.

Hypothesis opts_issuer : jo_issuer opts = None.
Hypothesis opts_audience : jo_audience opts = None.

Lemma signed_token_alive now p c :
  verify token opts now = Some (p, c) ↔
  c = signed_claims claims (now0 / 1000) (default 900%Z ttl) ∧ p = principal_of_claims opts c ∧
  (now ≤ signed_exp * 1000)%Z ∧
  (∀ m, jo_maxTtlSec opts = Some m → signed_exp * 1000 - now ≤ (m + CEILING_LEEWAY_SEC) * 1000)%Z.
Proof.
  rewrite signed_token_accepted.
  assert (iss_ok opts c = true) by (apply iss_ok_spec; by rewrite opts_issuer).
  assert (aud_ok opts c = true) by (apply aud_ok_spec; by rewrite opts_audience).
  naive_solver.
Qed.

(** A token an application signs for its user is accepted by the verifier that holds the same
    secret for exactly as long as it lives: from any moment at which its expiry is within the
    configured ceiling up to its expiry, and never after; its holder is the user it was signed for, and
    every claim it was signed with, except an expiry of its own, is read back as it was. *)
Theorem signed_token_roundtrip (now : Z) :
  ((∃ p c, verify token opts now = Some (p, c)) ↔
     (now ≤ signed_exp * 1000)%Z ∧
     (∀ m, jo_maxTtlSec opts = Some m → signed_exp * 1000 - now ≤ (m + CEILING_LEEWAY_SEC) * 1000)%Z) ∧
  (∀ p c, verify token opts now = Some (p, c) →
     p_id p = Some sub ∧
     ∀ k v, mget k claims = Some v → is_index k = false → k ≠ "exp" → prop c k = json_js v).
Proof.
  split.
  - split; [by intros (p & c & (_ & _ & ?)%signed_token_alive)|].
    intros H. eexists _, _. by apply signed_token_alive.
  - intros p c (-> & -> & _)%signed_token_alive. split; [apply signed_token_holder|apply prop_signed_claim].
Qed.
End Signed.
End Verifier.

(** A toy of node:crypto, for concrete tokens. *)
Definition toy_crypto : node_crypto unit :=
  NodeCrypto (λ _ _, "0123456789abcdef0123456789abcdef") (λ s, s) (λ _, None) (λ _, "") (λ _ _ _ _, None).

Definition toy_secret : string := "a secret of at least 32 characters".
Definition toy_claims : list (string * json) := [("sub", JsStr "ayse"); ("jti", JsStr "s1")].

(** [JSON.parse], on the two texts of one token. *)
Definition toy_parse (s : string) : option js :=
  if String.eqb s (print subject_header) then Some (json_js subject_header)
  else if String.eqb s (print (JsObj (subject_claims toy_claims 5 900))) then Some (signed_claims toy_claims 5 900)
  else None.

Definition toy_options : jwt_options := JwtOptions (Some toy_secret) None None None None None None None (Some MAX_SUBJECT_TTL_SEC).

Definition toy_token : string := match signSubjectToken toy_crypto toy_claims toy_secret None 5000 with Ok t => t | Err _ => "" end.

Lemma signed_token_roundtrip_witness :
  ∃ p c, verifyJwt toy_crypto toy_parse toy_token toy_options 905000 = Some (p, c).
Proof.
  apply (signed_token_roundtrip toy_crypto toy_parse toy_claims "ayse" toy_secret toy_token None 5000 toy_options);
    try reflexivity.
  - apply (bool_decide_unpack _). vm_compute. exact I.
  - split; [vm_compute; discriminate|]. intros m [= <-]. vm_compute. discriminate.
Defined.

Lemma verify_exact_witness :
  let p := principal_of_claims toy_options (signed_claims toy_claims 5 900) in
  verifyJwt toy_crypto toy_parse toy_token toy_options 905000 = Some (p, signed_claims toy_claims 5 900) ∧
  p_kind p = Some Subject.
Proof.
  cbv zeta.
  assert (H : verifyJwt toy_crypto toy_parse toy_token toy_options 905000 =
              Some (principal_of_claims toy_options (signed_claims toy_claims 5 900), signed_claims toy_claims 5 900))
    by (vm_compute; reflexivity).
  split; [exact H|].
  destruct (proj1 (verify_exact toy_crypto toy_parse toy_token toy_options 905000 _ _) H)
    as (h & pl & sg & header & _ & _ & _ & _ & _ & _ & _ & _ & _ & _ & Hk).
  apply Hk. reflexivity.
Defined.
