(* ===== verification/RoleAuth.v ===== *)
(** * RoleAuth: the default provider

    Models [packages/auth/src/role-auth.ts]: four classes of configured credentials (bearer tokens and
    basic logins) and the end users of an application, who hold a token it signed ([Jwt]).  The
    provider reads the clock of the world it is asked in. *)

From S2P Require Import Prelude JsMap Json Hash Format Journal Access Http Gate Jwt.

Record cred := Cred {
  c_token : option string;
  c_user : option string;
  c_pass : option string;
  c_orgId : option string;
  c_platformAdmin : bool;
}.

(** [eu_isRevoked] is asked with the sub, the [iat] and the [jti]; [None] when it throws. *)
Record end_user_tokens (W : Type) := EndUserTokens {
  eu_secret : option string;
  eu_publicKey : option string;
  eu_issuer : option string;
  eu_audience : option string;
  eu_orgId : option string;
  eu_maxTtlSec : option Z;
  eu_isRevoked : option (W → string → option js → option string → option bool);
}.
Arguments EndUserTokens {W}. Arguments eu_secret {W}. Arguments eu_publicKey {W}. Arguments eu_issuer {W}.
Arguments eu_audience {W}. Arguments eu_orgId {W}. Arguments eu_maxTtlSec {W}. Arguments eu_isRevoked {W}.

Record role_config (W : Type) := RoleConfig {
  rc_superAdmin : option cred;
  rc_admin : option cred;
  rc_client : option cred;
  rc_viewer : option cred;
  rc_endUsers : option (end_user_tokens W);
}.
Arguments RoleConfig {W}. Arguments rc_superAdmin {W}. Arguments rc_admin {W}. Arguments rc_client {W}.
Arguments rc_viewer {W}. Arguments rc_endUsers {W}.

Inductive role_auth_error := NoVerificationKey | ShortEndUserSecret (minimum : nat) | EndUserTtl (ceiling : Z).

Definition CLIENT_ROLE : string := "client".
Definition END_USER_ROLE : string := "end-user".
Definition CLIENT_WRITES : list string := ["agents:run"; "workflow:run"; "run:cancel"].

Inductive role := RoleAdmin | RoleClient | RoleViewer.

Definition role_name (r : role) : string :=
  match r with RoleAdmin => "admin" | RoleClient => CLIENT_ROLE | RoleViewer => "viewer" end.

(** Accepted authorization headers, and bearer tokens. *)
Record cred_values := CredValues { cv_headers : list string; cv_tokens : list string }.

Definition basicValue (user pass : string) : string := "Basic " +:+ b64_encode false (user +:+ ":" +:+ pass).

Definition hex_byte (c : Ascii.ascii) : string :=
  let n := Ascii.nat_of_ascii c in String (hex_digit (n / 16)) (String (hex_digit (n mod 16)) "").

(** [digest('hex')] *)
Fixpoint hex (s : string) : string :=
  match s with EmptyString => "" | String c s' => hex_byte c +:+ hex s' end.

Definition credValues (cred : option cred) : cred_values :=
  match cred with
  | None => CredValues [] []
  | Some c =>
      let token := truthy (c_token c) in
      let tokens := match token with Some t => [t] | None => [] end in
      CredValues
        (map (λ t, "Bearer " +:+ t) tokens ++
         match truthy (c_user c), truthy (c_pass c) with Some u, Some p => [basicValue u p] | _, _ => [] end)
        tokens
  end.

Section RoleAuth.
Context {Key W E : Type}.
Variable crypto : node_crypto Key.
Variable json_parse : string → option js.
Variable now : W → Z.                     (** [Date.now()] *)

Definition tokenId (token : string) : string := "token:" +:+ hex (nc_sha256 crypto token).

Definition matchRole (rq : request) (role : cred_values) : bool :=
  match truthy (header "authorization" rq) with
  | Some h => existsb (λ v, safeEqual crypto h v) (cv_headers role)
  | None => false
  end ||
  (String.eqb (method rq) "GET" &&
   match truthy (query "token" rq) with
   | Some q => existsb (λ v, safeEqual crypto q v) (cv_tokens role)
   | None => false
   end).

Definition principalOfRole (r : role) (c : option cred) (platform : bool) : principal :=
  let roles := match r with
               | RoleAdmin => if platform then ["admin"; PLATFORM_ADMIN_ROLE] else ["admin"]
               | r => [role_name r]
               end in
  let flagged := match c with Some c => c_platformAdmin c | None => false end in
  Principal (Some match r with RoleClient => Application | _ => Operator end)
    (truthy (c ≫= c_user))
    (tokenId <$> truthy (c ≫= c_token))
    (if flagged && negb (includes PLATFORM_ADMIN_ROLE roles) then roles ++ [PLATFORM_ADMIN_ROLE] else roles)
    (truthy (c ≫= c_orgId)) None None.

Definition end_user_options (eu : end_user_tokens W) : jwt_options :=
  JwtOptions (eu_secret eu) (eu_publicKey eu) (eu_issuer eu) (eu_audience eu) None None None None
    (Some (default MAX_SUBJECT_TTL_SEC (eu_maxTtlSec eu))).

Definition as_number (v : js) : option js :=
  match v with JNum _ | JNonFinite _ => Some v | _ => None end.

Definition revoked (eu : end_user_tokens W) (w : W) (sub : string) (claims : js) : bool :=
  match eu_isRevoked eu with
  | None => false
  | Some f => default true (f w sub (as_number (prop claims "iat")) (as_text (prop claims "jti")))
  end.

Definition endUserOf (endUsers : option (end_user_tokens W)) (w : W) (rq : request) : option principal :=
  eu ← endUsers;
  token ← truthy (bearer rq);
  if negb (length (split_at "." token) =? 3) then None
  else
    vc ← verifyJwt crypto json_parse token (end_user_options eu) (now w);
    id ← truthy (p_id (fst vc));
    if good_subject id && negb (revoked eu w id (snd vc))
    then Some (Principal (Some Subject) (Some id) None [END_USER_ROLE] (truthy (eu_orgId eu)) None None)
    else None.

(** The class of the request: the strongest one that it holds a credential of. *)
Definition role_authenticate (cfg : role_config W) (w : W) (rq : request) : option principal :=
  if matchRole rq (credValues (rc_superAdmin cfg)) then Some (principalOfRole RoleAdmin (rc_superAdmin cfg) true)
  else if matchRole rq (credValues (rc_admin cfg)) then Some (principalOfRole RoleAdmin (rc_admin cfg) false)
  else if matchRole rq (credValues (rc_client cfg)) then Some (principalOfRole RoleClient (rc_client cfg) false)
  else if matchRole rq (credValues (rc_viewer cfg)) then Some (principalOfRole RoleViewer (rc_viewer cfg) false)
  else endUserOf (rc_endUsers cfg) w rq.

Definition role_authorize (principal : option principal) (ctx : auth_context) : decision :=
  match principal with
  | None => Denied (Some 401%Z) (Some "unauthorized")
  | Some p =>
      let has x := includes x (p_roles p) in
      match ax_action ctx with
      | Write =>
          if has "admin" then Allowed
          else if has CLIENT_ROLE || has END_USER_ROLE then
            if match truthy (ax_permission ctx) with Some x => includes x CLIENT_WRITES | None => false end then Allowed
            else Denied (Some 403%Z)
                   (Some ("unauthorized (" +:+ (if has END_USER_ROLE then "an end user" else "client credentials") +:+
                          " cannot " +:+ default "perform this write" (ax_permission ctx) +:+ ")"))
          else Denied (Some 403%Z) (Some "unauthorized (admin required)")
      | Read =>
          if has "admin" || has CLIENT_ROLE || has "viewer" || has END_USER_ROLE then Allowed
          else Denied (Some 401%Z) (Some "unauthorized")
      end
  end.

(** The checks of the configuration of end users. *)
Definition end_users_error (eu : end_user_tokens W) : option role_auth_error :=
  let maxTtlSec := default MAX_SUBJECT_TTL_SEC (eu_maxTtlSec eu) in
  let ceiling := match eu_isRevoked eu with Some _ => MAX_REVOCABLE_SUBJECT_TTL_SEC | None => MAX_SUBJECT_TTL_SEC end in
  if bool_decide (eu_secret eu = None) && bool_decide (eu_publicKey eu = None) then Some NoVerificationKey
  else if match eu_secret eu with Some s => String.length s <? MIN_SUBJECT_SECRET_BYTES | None => false end
  then Some (ShortEndUserSecret MIN_SUBJECT_SECRET_BYTES)
  else if negb (0 <? maxTtlSec)%Z || (ceiling <? maxTtlSec)%Z then Some (EndUserTtl ceiling)
  else None.

Definition no_headers (c : option cred) : bool := match cv_headers (credValues c) with [] => true | _ => false end.

(** [Ok None]: no class is configured, and the gate is not set up. *)
Definition roleAuth (cfg : role_config W) : outcome role_auth_error (option (auth_provider W E)) :=
  match rc_endUsers cfg ≫= end_users_error with
  | Some e => Err e
  | None =>
      if no_headers (rc_superAdmin cfg) && no_headers (rc_admin cfg) && no_headers (rc_client cfg) &&
         no_headers (rc_viewer cfg) && bool_decide (rc_endUsers cfg = None)
      then Ok None
      else Ok (Some (AuthProvider (λ w rq, Ok (role_authenticate cfg w rq, false))
                       (λ _ principal _ ctx, Ok (role_authorize principal ctx)) None None))
  end.
End RoleAuth.
