(* ===== verification/RoleAuthFacts.v ===== *)
(** * RoleAuthFacts: what each credential opens

    Theorems on [RoleAuth], composed with the gate ([Gate]), the tokens ([Jwt]) and the engine's callers
    ([Access]). *)

From S2P Require Import Prelude JsMap Json Hash Format Journal RunIdentity Access Http Gate Jwt JwtFacts RoleAuth.

Section Roles.
Context {Key W E : Type}.
Variable crypto : node_crypto Key.
Variable json_parse : string → option js.
Variable now : W → Z.
Variable urlHostname : string → option string.
Variable cfg : role_config W.
Abbreviation authenticate := (role_authenticate crypto json_parse now cfg).
Abbreviation matches rq c := (matchRole crypto rq (credValues c)).

(** ** Classes *)

Inductive cred_class := ClassSuperAdmin | ClassAdmin | ClassClient | ClassViewer | ClassEndUser (id : string).

Definition class_of (w : W) (rq : request) : option cred_class :=
  if matches rq (rc_superAdmin cfg) then Some ClassSuperAdmin
  else if matches rq (rc_admin cfg) then Some ClassAdmin
  else if matches rq (rc_client cfg) then Some ClassClient
  else if matches rq (rc_viewer cfg) then Some ClassViewer
  else p ← endUserOf crypto json_parse now (rc_endUsers cfg) w rq; ClassEndUser <$> p_id p.

Definition class_kind (c : cred_class) : PrincipalKind :=
  match c with ClassClient => Application | ClassEndUser _ => Subject | _ => Operator end.

(** The credential of a class. *)
Definition class_cred (c : cred_class) : option cred :=
  match c with
  | ClassSuperAdmin => rc_superAdmin cfg
  | ClassAdmin => rc_admin cfg
  | ClassClient => rc_client cfg
  | ClassViewer => rc_viewer cfg
  | ClassEndUser _ => None
  end.

Definition flagged (c : cred_class) : bool :=
  match class_cred c with Some k => c_platformAdmin k | None => false end.

(** The flag of a credential adds the platform role. *)
Definition class_roles (c : cred_class) : list string :=
  let plus r := r :: (if flagged c then [PLATFORM_ADMIN_ROLE] else []) in
  match c with
  | ClassSuperAdmin => ["admin"; PLATFORM_ADMIN_ROLE]
  | ClassAdmin => plus "admin"
  | ClassClient => plus CLIENT_ROLE
  | ClassViewer => plus "viewer"
  | ClassEndUser _ => [END_USER_ROLE]
  end.

Lemma endUserOf_Some w rq p :
  endUserOf crypto json_parse now (rc_endUsers cfg) w rq = Some p →
  ∃ eu token id q claims, rc_endUsers cfg = Some eu ∧ bearer rq = Some token ∧
    verifyJwt crypto json_parse token (end_user_options eu) (now w) = Some (q, claims) ∧ p_id q = Some id ∧
    good_subject id = true ∧ revoked eu w id claims = false ∧
    p = Principal (Some Subject) (Some id) None [END_USER_ROLE] (truthy (eu_orgId eu)) None None.
Proof.
  unfold endUserOf. destruct (rc_endUsers cfg) as [eu|]; cbn [mbind option_bind]; [|done].
  destruct (truthy (bearer rq)) as [token|] eqn:Ht; cbn [mbind option_bind]; [|done]. case_match; [done|].
  destruct (verifyJwt _ _ _ _ _) as [[q claims]|] eqn:Hv; cbn [mbind option_bind fst snd]; [|done].
  destruct (truthy (p_id q)) as [id|] eqn:Hid; cbn [mbind option_bind]; [|done].
  destruct (good_subject id) eqn:Hg; cbn [andb]; [|done].
  destruct (revoked eu w id claims) eqn:Hr; cbn [negb]; [done|]. intros [= <-].
  apply truthy_Some in Ht as [Ht _]. apply truthy_Some in Hid as [Hid _].
  exists eu, token, id, q, claims. done.
Qed.

Definition is_class (p : option principal) (c : cred_class) : Prop :=
  ∃ q, p = Some q ∧ callerKind p = Some (class_kind c) ∧ p_roles q = class_roles c ∧
    (∀ id, c = ClassEndUser id → p_id q = Some id ∧ p_orgId q = (rc_endUsers cfg ≫= λ eu, truthy (eu_orgId eu))).

Lemma authenticate_class w rq :
  match class_of w rq with
  | None => authenticate w rq = None
  | Some c => is_class (authenticate w rq) c
  end.
Proof.
  assert (Hrole : ∀ r c b, r ≠ RoleAdmin ∨ b = false →
            p_roles (principalOfRole crypto r c b) =
            role_name r :: (if match c with Some k => c_platformAdmin k | None => false end then [PLATFORM_ADMIN_ROLE] else [])).
  { intros r c b Hb. by destruct c as [[t u pw o []]|], r, b; destruct Hb. }
  unfold class_of, role_authenticate, is_class.
  destruct (matches rq (rc_superAdmin cfg)).
  { eexists. split_and!; [done..| |done]. by destruct (rc_superAdmin cfg) as [[t u pw o []]|]. }
  destruct (matches rq (rc_admin cfg)).
  { eexists. split_and!; [done..| |done]. rewrite Hrole by auto. done. }
  destruct (matches rq (rc_client cfg)).
  { eexists. split_and!; [done..| |done]. rewrite Hrole by auto. done. }
  destruct (matches rq (rc_viewer cfg)).
  { eexists. split_and!; [done..| |done]. rewrite Hrole by auto. done. }
  destruct (endUserOf _ _ _ _ _ _) as [p|] eqn:Hp; cbn [mbind option_bind]; [|done].
  apply endUserOf_Some in Hp as (eu & token & id & q & claims & Heu & _ & _ & _ & Hg & _ & ->). cbn [p_id fmap option_fmap option_map].
  eexists. split_and!; [done| |done|]. { cbn. by rewrite Hg. } intros id' [= <-]. rewrite Heu. done.
Qed.

(** ** What a class may do *)

Definition may_manage (c : cred_class) : bool := match c with ClassSuperAdmin | ClassAdmin => true | _ => false end.

Definition may_write (c : cred_class) (permission : option string) : bool :=
  match c with
  | ClassSuperAdmin | ClassAdmin => true
  | ClassClient | ClassEndUser _ => match permission with Some x => includes x CLIENT_WRITES | None => false end
  | ClassViewer => false
  end.

Lemma class_roles_include c :
  includes "admin" (class_roles c) = may_manage c ∧
  includes CLIENT_ROLE (class_roles c) || includes END_USER_ROLE (class_roles c) =
    match c with ClassClient | ClassEndUser _ => true | _ => false end ∧
  includes "admin" (class_roles c) || includes CLIENT_ROLE (class_roles c) || includes "viewer" (class_roles c) ||
    includes END_USER_ROLE (class_roles c) = true.
Proof. destruct c; unfold class_roles; try destruct (flagged _); vm_compute; done. Qed.

Lemma authorize_class p c ctx :
  is_class p c →
  (role_authorize p ctx = Allowed ↔
   match ax_action ctx with Read => True | Write => may_write c (ax_permission ctx) = true end).
Proof.
  intros (q & -> & _ & Hr & _). unfold role_authorize. rewrite Hr.
  assert (Hperm : ∀ o, match truthy o with Some x => includes x CLIENT_WRITES | None => false end =
                       match o with Some x => includes x CLIENT_WRITES | None => false end).
  { intros [x|]; [|done]. unfold truthy. by destruct (String.eqb_spec x "") as [->|]. }
  rewrite Hperm.
  destruct (class_roles_include c) as (Ha & Hce & Hread). rewrite Hread, Ha, Hce. clear.
  destruct (ax_action ctx); [done|].
  destruct c; cbn [may_manage may_write]; try done;
    by destruct (match ax_permission ctx with Some x => includes x CLIENT_WRITES | None => false end).
Qed.

(** ** Through the gate *)

Lemma role_provider p :
  roleAuth crypto json_parse now cfg = Ok (Some p) →
  p = AuthProvider (λ w rq, Ok (authenticate w rq, false)) (λ _ q _ ctx, Ok (role_authorize q ctx)) None None :> auth_provider W E.
Proof.
  unfold roleAuth. destruct (rc_endUsers cfg ≫= end_users_error); [done|]. case_match; [done|]. by intros [= <-].
Qed.

Lemma ask_role p w rq ctx s :
  roleAuth crypto json_parse now cfg = Ok (Some p) →
  fst (ask p w rq ctx s) = Ok (match role_authorize (authenticate w rq) ctx with Allowed => true | _ => false end) :> outcome E bool.
Proof. intros ->%role_provider. unfold ask. cbn. by destruct (role_authorize _ _). Qed.

Lemma ask_role_class p w rq ctx s :
  roleAuth crypto json_parse now cfg = Ok (Some p) →
  fst (ask p w rq ctx s) =
  Ok (match class_of w rq with
      | None => false
      | Some c => match ax_action ctx with Read => true | Write => may_write c (ax_permission ctx) end
      end) :> outcome E bool.
Proof.
  intros Hp. rewrite (ask_role _ _ _ _ _ Hp). f_equal. pose proof (authenticate_class w rq) as Hc.
  destruct (class_of w rq) as [c|].
  - pose proof (authorize_class _ _ ctx Hc) as Ha. destruct (ax_action ctx), (role_authorize _ ctx); try done.
    + discriminate (proj2 Ha I).
    + symmetry. by apply Ha.
    + symmetry. apply not_true_iff_false. intros Ht%Ha. done.
  - rewrite Hc. done.
Qed.

Lemma role_not_blocked p rq :
  roleAuth crypto json_parse now cfg = Ok (Some p) →
  crossSiteWithoutIdentity urlHostname (Some (p : auth_provider W E)) rq = false.
Proof. by intros ->%role_provider. Qed.

(** C35: What each credential opens, through the gate of every host: a request without a credential
    is refused everything, with 401; any credential may read; a write is for the administrators,
    the coarse ones and the ones named by a permission, and for applications and end users exactly when the
    permission is one of the three that run or stop work; viewers write nothing; and
    the first class that the request holds a credential of, from the strongest, decides. *)
Theorem access_matrix (p : auth_provider W E) (w : W) (rq : request) (s : gate_notes) :
  roleAuth crypto json_parse now cfg = Ok (Some p) →
  let asked := class_of w rq in
  (∀ permission, fst (allowP urlHostname (Some p) w rq permission s) =
     Ok (if ends_with ":read" permission then bool_decide (is_Some asked)
         else match asked with
              | Some (ClassSuperAdmin | ClassAdmin) => true
              | Some (ClassClient | ClassEndUser _) => includes permission CLIENT_WRITES
              | _ => false
              end)) ∧
  (∀ resource, fst (allow urlHostname (Some p) w rq Write resource s) =
     Ok (match asked with Some (ClassSuperAdmin | ClassAdmin) => true | _ => false end)) ∧
  (∀ resource, fst (allow urlHostname (Some p) w rq Read resource s) = Ok (bool_decide (is_Some asked))) ∧
  (asked = None → ∀ permission act, fst (deny act (snd (allowP urlHostname (Some p) w rq permission s))) = 401%Z).
Proof.
  intros Hp asked. unfold allow, allowP. rewrite (role_not_blocked p rq Hp).
  split_and!.
  - intros permission. rewrite (ask_role_class _ _ _ _ _ Hp). fold asked. unfold permissionContext. cbn [ax_action ax_permission].
    destruct (ends_with ":read" permission); destruct asked as [[]|]; done.
  - intros resource. rewrite (ask_role_class _ _ _ _ _ Hp). fold asked. by destruct asked as [[]|].
  - intros resource. rewrite (ask_role_class _ _ _ _ _ Hp). fold asked. by destruct asked as [[]|].
  - intros Hnone permission act. pose proof (authenticate_class w rq) as Hc. fold asked in Hc. rewrite Hnone in Hc.
    apply role_provider in Hp as ->. unfold ask. cbn. rewrite Hc. done.
Qed.

(** What a caller is, and where it may act, comes from the deployment's configuration, never from
    the request: the platform scope belongs to the superAdmin class and to staff credentials that carry
    the explicit flag, never to an application or an end user; an end user is the one user its
    verified token names, in the organization of the configuration, whoever the request names; and an
    application is never staff for the engine. *)
Theorem privileges_configured (w : W) (rq : request) (q : principal) :
  authenticate w rq = Some q →
  ∃ c, class_of w rq = Some c ∧ callerKind (Some q) = Some (class_kind c) ∧
    (isPlatformAdmin (Some q) = true ↔
       c = ClassSuperAdmin ∨ ((c = ClassAdmin ∨ c = ClassViewer) ∧ flagged c = true)) ∧
    (∀ id, c = ClassEndUser id → good_subject id = true ∧
       ∀ named, engineCallerOf (Some q) named = User id (rc_endUsers cfg ≫= λ eu, truthy (eu_orgId eu))) ∧
    (c = ClassClient → ∀ named org, engineCallerOf (Some q) named ≠ Staff org).
Proof.
  intros Hq. pose proof (authenticate_class w rq) as Hc. destruct (class_of w rq) as [c|]; [|congruence].
  destruct Hc as (q' & Hq' & Hkind & Hroles & Hid). rewrite Hq in Hq', Hkind. injection Hq' as <-.
  exists c. split_and!; [done|done| | |].
  - unfold isPlatformAdmin. rewrite Hkind, Hroles, andb_true_iff, bool_decide_eq_true.
    assert (Hinc : includes PLATFORM_ADMIN_ROLE (class_roles c) =
                   match c with ClassSuperAdmin => true | ClassEndUser _ => false | c => flagged c end).
    { destruct c; unfold class_roles; try destruct (flagged _); reflexivity. }
    rewrite Hinc. destruct c; cbn [class_kind]; (split; [intros [? ?]; try done; auto|intros [?|[[?|?] ?]]; done]).
  - intros id ->. destruct (Hid id eq_refl) as [Hpid Horg]. cbn [class_kind] in Hkind. split.
    + apply callerKind_subject in Hkind as (q' & id' & [= <-] & ? & ?). congruence.
    + intros named. rewrite (engineCallerOf_subject q id named Hkind Hpid), Horg. f_equal.
      destruct (rc_endUsers cfg) as [eu|]; [|done]. apply truthy_truthy.
  - intros -> named org. destruct (engineCallerOf_application (Some q) named Hkind) as [(n & _ & _ & ->)|[-> _]]; done.
Qed.

(** ** From a session to a user of the engine *)

Lemma bearer_header rq token : header "authorization" rq = Some ("Bearer " +:+ token) → bearer rq = Some token.
Proof. unfold bearer. intros ->. apply strip_prefix_app. Qed.

(** The deployment accepts a token that its endpoint signed for [sub]: no issuer and no audience are configured
    (such a token names none), the subject is a legal id, the token has not expired, its expiry is
    within the configured ceiling, and the deployment has not revoked it. *)
Definition accepts (eu : end_user_tokens W) (w : W) (sub : string) (claims : js) (exp : Z) : Prop :=
  eu_issuer eu = None ∧ eu_audience eu = None ∧ good_subject sub = true ∧ (now w ≤ exp * 1000)%Z ∧
  (exp * 1000 - now w ≤ (default MAX_SUBJECT_TTL_SEC (eu_maxTtlSec eu) + CEILING_LEEWAY_SEC) * 1000)%Z ∧
  revoked eu w sub claims = false.

Lemma session_claims_issuer (eu : end_user_tokens W) sub jti iat ttl :
  let c := signed_claims [("sub", JsStr sub); ("jti", JsStr jti)] iat ttl in
  iss_ok (end_user_options eu) c = true ∧ aud_ok (end_user_options eu) c = true ↔ eu_issuer eu = None ∧ eu_audience eu = None.
Proof.
  intros c. assert (Hwf : map_wf [("sub", JsStr sub); ("jti", JsStr jti)]) by (apply (bool_decide_unpack _); vm_compute; exact I).
  assert (Hi : prop c "iss" = JUndef) by (unfold c; by rewrite prop_signed by done).
  assert (Ha : prop c "aud" = JUndef) by (unfold c; by rewrite prop_signed by done).
  rewrite (iss_ok_spec json_parse), (aud_ok_spec json_parse), Hi, Ha. cbn [end_user_options jo_issuer jo_audience]. split.
  - intros [H1 H2]. split; [destruct (eu_issuer eu) as [i|]; [by specialize (H1 i eq_refl)|done]|].
    destruct (eu_audience eu) as [a|]; [|done]. destruct (H2 a eq_refl) as [?|(? & ? & _)]; done.
  - by intros [-> ->].
Qed.

Lemma endUserOf_signed (eu : end_user_tokens W) w rq sub jti secret token ttl now0 :
  (∀ k m, String.length (nc_hmac crypto k m) = 32) →
  json_parse (print subject_header) = Some (json_js subject_header) →
  let claims := [("sub", JsStr sub); ("jti", JsStr jti)] in
  json_parse (print (JsObj (subject_claims claims (now0 / 1000) ttl))) = Some (signed_claims claims (now0 / 1000) ttl) →
  signSubjectToken crypto claims secret (Some ttl) now0 = Ok token →
  rc_endUsers cfg = Some eu → eu_secret eu = Some secret →
  header "authorization" rq = Some ("Bearer " +:+ token) → sub ≠ "" →
  let accepted := accepts eu w sub (signed_claims claims (now0 / 1000) ttl) (now0 / 1000 + ttl) in
  (accepted → endUserOf crypto json_parse now (rc_endUsers cfg) w rq =
     Some (Principal (Some Subject) (Some sub) None [END_USER_ROLE] (truthy (eu_orgId eu)) None None)) ∧
  (¬ accepted → endUserOf crypto json_parse now (rc_endUsers cfg) w rq = None).
Proof.
  intros Hlen Hph claims Hpp Hsign Heu Hsec Hh Hne accepted.
  pose proof (bearer_header _ _ Hh) as Hb.
  assert (Hwf : map_wf claims) by (apply (bool_decide_unpack _); vm_compute; exact I).
  pose proof (λ q c, signed_token_accepted crypto json_parse claims secret token (Some ttl) now0 (end_user_options eu)
                       Hlen Hph Hpp Hsign Hwf eq_refl Hsec (now w) q c) as Hverify.
  pose proof (signed_token_holder claims sub (Some ttl) now0 (end_user_options eu) Hwf eq_refl eq_refl) as Hholder.
  pose proof (session_claims_issuer eu sub jti (now0 / 1000) ttl) as Hissued.
  unfold signed_exp in Hverify. cbn [from_option id] in Hverify, Hholder. split.
  - intros (Hiss & Haud & Hsub & Hexp & Hceil & Hrev).
    assert (Hv : verifyJwt crypto json_parse token (end_user_options eu) (now w) =
                 Some (principal_of_claims (end_user_options eu) (signed_claims claims (now0 / 1000) ttl),
                       signed_claims claims (now0 / 1000) ttl)).
    { apply Hverify. destruct (proj2 Hissued (conj Hiss Haud)). split_and!; [done|done|done| |done|done]. by intros m [= <-]. }
    pose proof Hv as (h & pl & sg & header & Htok & Hth & Htp & Hts & _)%verifyJwt_Some.
    assert (Hsplit : split_at "." token = [h; pl; sg]) by (rewrite Htok; apply split_token; by apply b64u_text_no_dot).
    unfold endUserOf. rewrite Heu, Hb. cbn [mbind option_bind truthy].
    destruct (String.eqb_spec token "") as [->|_]; [by destruct h|]. cbn [mbind option_bind]. rewrite Hsplit. cbn [length Nat.eqb negb].
    rewrite Hv. cbn [mbind option_bind fst snd]. rewrite Hholder.
    assert (Hts' : truthy (Some sub) = Some sub) by by apply truthy_Some.
    rewrite Hts'. cbn [mbind option_bind]. by rewrite Hsub, Hrev.
  - intros Hdead. destruct (endUserOf _ _ _ _ _ _) as [p|] eqn:Hp; [|done]. exfalso. apply Hdead.
    apply endUserOf_Some in Hp as (eu' & token' & id & q & claims' & Heu' & Hb' & Hv & Hid & Hgood & Hrev & _).
    rewrite Heu in Heu'. injection Heu' as <-. rewrite Hb in Hb'. injection Hb' as <-.
    apply Hverify in Hv as (-> & -> & [Hexp Hceil] & Hi & Ha). rewrite Hholder in Hid. injection Hid as <-.
    destruct (proj1 Hissued (conj Hi Ha)). unfold accepted, accepts. split_and!; try done. by apply Hceil.
Qed.

(** C33: From a session of the application to a user of the engine: the token endpoint issues a token
    only to a POST that no other site caused and that carries a live session, and what a request that presents
    the token is then decided exactly, if the deployment verifies with the secret of the endpoint and
    the request matches no configured credential: it is the user of that session, in the organization of the
    configuration, when the configuration names no issuer and no audience, the session's subject is
    a legal id, the token has not expired, its expiry lies within the configured ceiling (and a minute for clocks
    that disagree) and the deployment has not revoked it; it is nobody in every other case.  A token of a lifetime
    within the ceiling is within it from a minute before it was issued on. *)
Theorem session_to_user (eu : end_user_tokens W) (sessionOf : request → option (option subject_session))
    (rq0 rq : request) (w : W) (secret token uuid : string) (ttl now0 expiresAt : Z) :
  (∀ k m, String.length (nc_hmac crypto k m) = 32) →
  json_parse (print subject_header) = Some (json_js subject_header) →
  (∀ sub sid, sessionOf rq0 = Some (Some (SubjectSession (Some sub) sid)) →
     let jti := match truthy sid with Some x => sessionTokenId crypto x | None => uuid end in
     let claims := [("sub", JsStr sub); ("jti", JsStr jti)] in
     json_parse (print (JsObj (subject_claims claims (now0 / 1000) ttl))) = Some (signed_claims claims (now0 / 1000) ttl)) →
  token_endpoint crypto urlHostname sessionOf secret ttl now0 uuid rq0 = Ok (TokenIssued token expiresAt) →
  rc_endUsers cfg = Some eu → eu_secret eu = Some secret →
  header "authorization" rq = Some ("Bearer " +:+ token) →
  Forall (λ c, matches rq c = false) [rc_superAdmin cfg; rc_admin cfg; rc_client cfg; rc_viewer cfg] →
  ∃ sub sid, sessionOf rq0 = Some (Some (SubjectSession (Some sub) sid)) ∧ method rq0 = "POST" ∧
    isCrossSiteStateChange urlHostname rq0 = false ∧ expiresAt = (now0 / 1000 + ttl)%Z ∧
    let jti := match truthy sid with Some x => sessionTokenId crypto x | None => uuid end in
    let claims := signed_claims [("sub", JsStr sub); ("jti", JsStr jti)] (now0 / 1000) ttl in
    (accepts eu w sub claims expiresAt →
       ∃ p, authenticate w rq = Some p ∧ ∀ named, engineCallerOf (Some p) named = User sub (truthy (eu_orgId eu))) ∧
    (¬ accepts eu w sub claims expiresAt → authenticate w rq = None) ∧
    ((ttl ≤ default MAX_SUBJECT_TTL_SEC (eu_maxTtlSec eu))%Z → (now0 - 60000 ≤ now w)%Z →
       (expiresAt * 1000 - now w ≤ (default MAX_SUBJECT_TTL_SEC (eu_maxTtlSec eu) + CEILING_LEEWAY_SEC) * 1000)%Z).
Proof.
  intros Hlen Hph Hpp Hend Heu Hsec Hh Hno.
  unfold token_endpoint in Hend.
  destruct (String.eqb_spec (method rq0) "POST") as [Hm|]; [|done]. cbn [negb] in Hend.
  destruct (isCrossSiteStateChange urlHostname rq0) eqn:Hc; [done|].
  destruct (sessionOf rq0) as [[[[sub|] sid]|]|]; try done. pose proof (eq_refl (Some (Some (SubjectSession (Some sub) sid)))) as Hs. cbn [from_option id mbind option_bind ss_sub ss_sid] in Hend.
  destruct (truthy (Some sub)) as [sub'|] eqn:Ht; [|done]. apply truthy_Some in Ht as [[= <-] Hne]. cbn [mbind option_bind] in Hend.
  set (jti := match truthy sid with Some x => sessionTokenId crypto x | None => uuid end) in *.
  destruct (signSubjectToken _ _ _ _ _) as [t|e] eqn:Hsign; [|done]. injection Hend as -> <-.
  exists sub, sid. split_and!; [done..|]. cbv zeta. fold jti.
  destruct (endUserOf_signed eu w rq sub jti secret token ttl now0 Hlen Hph (Hpp sub sid Hs) Hsign Heu Hsec Hh Hne)
    as [Halive Hdead].
  assert (Hauth : authenticate w rq = endUserOf crypto json_parse now (rc_endUsers cfg) w rq).
  { unfold role_authenticate. rewrite !Forall_cons in Hno. destruct Hno as (-> & -> & -> & -> & _). done. }
  rewrite Hauth. split_and!.
  - intros Hok. eexists. split; [by apply Halive|]. destruct Hok as (_ & _ & Hgood & _).
    intros named. rewrite (engineCallerOf_subject _ sub) by (cbn; by rewrite ?Hgood). f_equal. apply truthy_truthy.
  - apply Hdead.
  - intros Httl Hnow. unfold CEILING_LEEWAY_SEC. div_lia.
Qed.
End Roles.

(** ** Examples *)

Definition toy_config : role_config Z :=
  RoleConfig (Some (Cred (Some "root-token") None None None false)) (Some (Cred (Some "admin-token") (Some "ayla") (Some "pw") (Some "acme") false))
    (Some (Cred (Some "app-token") None None (Some "acme") true)) None
    (Some (EndUserTokens (Some toy_secret) None None None (Some "acme") None
             (Some (λ _ _ _ jti, Some (bool_decide (jti = Some "revoked")))))).

Definition toy_request (method path : string) (headers : list (string * string)) : request :=
  Request method headers "localhost" path [].

Definition toy_session (rq : request) : option (option subject_session) :=
  Some (Some (SubjectSession (Some "ayse") (Some "cookie"))).

Definition toy_jti : string := sessionTokenId toy_crypto "cookie".
Definition session_claims : list (string * json) := [("sub", JsStr "ayse"); ("jti", JsStr toy_jti)].

Definition session_parse (s : string) : option js :=
  if String.eqb s (print subject_header) then Some (json_js subject_header)
  else if String.eqb s (print (JsObj (subject_claims session_claims 5 300))) then Some (signed_claims session_claims 5 300)
  else None.

Definition session_token : string :=
  match token_endpoint toy_crypto (λ _, None) toy_session toy_secret 300 5000 "u" (toy_request "post" "/gnl-token" []) with
  | Ok (TokenIssued t _) => t
  | _ => ""
  end.

Definition toy_provider : option (auth_provider Z string) :=
  match roleAuth toy_crypto session_parse (λ w, w) toy_config with Ok p => p | Err _ => None end.

Definition bearer_request (method path token : string) : request :=
  toy_request method path [("authorization", "Bearer " +:+ token)].

Lemma access_matrix_witness :
  ∃ p, toy_provider = Some p ∧
    fst (allowP (λ _, None) (Some p) 9000%Z (bearer_request "POST" "/agents/a/run" session_token) "agents:run" fresh_request) = Ok true ∧
    fst (allow (λ _, None) (Some p) 9000%Z (bearer_request "POST" "/retention/sweep" session_token) Write None fresh_request) = Ok false.
Proof.
  eexists. split; [reflexivity|].
  destruct (access_matrix toy_crypto session_parse (λ w, w) (λ _, None) toy_config (E := string) _ 9000%Z
              (bearer_request "POST" "/agents/a/run" session_token) fresh_request eq_refl) as (HP & HW & _).
  split; [rewrite HP; vm_compute; reflexivity|exact (HW None)].
Defined.

Lemma privileges_configured_witness :
  isPlatformAdmin (role_authenticate toy_crypto session_parse (λ w, w) toy_config 9000%Z (bearer_request "POST" "/runs" "root-token")) = true ∧
  isPlatformAdmin (role_authenticate toy_crypto session_parse (λ w, w) toy_config 9000%Z (bearer_request "POST" "/runs" "app-token")) = false.
Proof.
  split; [vm_compute; reflexivity|].
  destruct (role_authenticate toy_crypto session_parse (λ w, w) toy_config 9000%Z (bearer_request "POST" "/runs" "app-token")) as [q|] eqn:Hq;
    [|reflexivity].
  destruct (privileges_configured toy_crypto session_parse (λ w, w) toy_config 9000%Z _ q Hq) as (c & Hc & _ & Hadmin & _).
  vm_compute in Hc. injection Hc as <-.
  apply not_true_is_false. intros H. apply Hadmin in H as [H|[[H|H] _]]; discriminate H.
Defined.

Lemma session_to_user_witness :
  ∃ p, role_authenticate toy_crypto session_parse (λ w, w) toy_config 9000%Z (bearer_request "GET" "/runs" session_token) = Some p ∧
    engineCallerOf (Some p) (Some "mehmet") = User "ayse" (Some "acme").
Proof.
  destruct (session_to_user toy_crypto session_parse (λ w, w) (λ _, None) toy_config
              (EndUserTokens (Some toy_secret) None None None (Some "acme") None
                 (Some (λ _ _ _ jti, Some (bool_decide (jti = Some "revoked")))))
              toy_session (toy_request "post" "/gnl-token" []) (bearer_request "GET" "/runs" session_token) 9000%Z
              toy_secret session_token "u" 300 5000 305)
    as (sub & sid & Hs & _ & _ & _ & H & _); try reflexivity.
  - intros sub sid [= <- <-]. vm_compute. reflexivity.
  - repeat (constructor; [vm_compute; reflexivity|]). constructor.
  - injection Hs as <- <-.
    destruct H as (p & Hp & Hcaller); [repeat split; vm_compute; discriminate|].
    exists p. split; [exact Hp|exact (Hcaller (Some "mehmet"))].
Defined.
