(* ===== verification/Exposure.v ===== *)
(** * Exposure: who may reach a surface that listens on a socket

    Models [packages/auth/src/exposure.ts]: which hosts are this machine alone, which credentials
    protect nothing because the project published them, and the decision to serve or to refuse.
    The messages are values; their texts are not modelled. *)

From S2P Require Import Prelude Access Http Gate.

Definition PUBLISHED_DEV_TOKENS : list string := ["admin-dev"; "viewer-dev"].

(** [tokens.filter(t => typeof t === 'string' && t.length > 0)] *)
Definition present_tokens (tokens : list (option string)) : list string :=
  omap (λ t, match t with Some s => if String.eqb s "" then None else Some s | None => None end) tokens.

Definition isPublishedDevCredential (tokens : list (option string)) : bool :=
  let present := present_tokens tokens in
  negb (length present =? 0) && forallb (λ t, includes t PUBLISHED_DEV_TOKENS) present.

(** [host.trim().toLowerCase().replace(/^\[/, '').replace(/\]$/, '')] *)
Definition bare_host (host : string) : string :=
  let h := to_lower (js_trim host) in
  let h := default h (strip_prefix "[" h) in
  default h (strip_suffix "]" h).

(** [Number] of a group [\d{1,3}]. *)
Definition octet (s : string) : option N :=
  if negb (str_exists (λ c, negb (is_digit c)) s) && (0 <? String.length s) && (String.length s <=? 3)
  then undec s else None.

Definition isLoopbackHost (host : string) : bool :=
  let h := bare_host host in
  if String.eqb h "localhost" || String.eqb h "::1" then true
  else match split_at "." h with
       | [a; b; c; d] =>
           match octet a, octet b, octet c, octet d with
           | Some a, Some b, Some c, Some d =>
               if existsb (λ n, (255 <? n)%N) [a; b; c; d] then false else (a =? 127)%N
           | _, _, _, _ => false
           end
       | _ => false
       end.

Definition isWildcardHost (host : string) : bool :=
  let h := bare_host host in String.eqb h "0.0.0.0" || String.eqb h "::".

Record exposure_input := ExposureInput {
  ei_host : option string;
  ei_authed : bool;
  ei_credentialTokens : option (list (option string));
  ei_allowOpenNetwork : bool;
}.

Inductive auth_mode := ModeOpen | ModeShippedToken | ModeProtected.
Inductive exposure_warning := WarnLoopbackOpen | WarnReachable (host : string) (protected : bool).

Record exposure_decision := ExposureDecision {
  ed_loopback : bool;
  ed_exposed : bool;
  ed_hostname : string;
  ed_displayHost : string;
  ed_authed : bool;
  ed_shippedCredential : bool;
  ed_authModeLabel : auth_mode;
  ed_allowOpenAccess : bool;
  ed_refusal : option bool;                (** refused; because of a published token alone? *)
  ed_warnings : list exposure_warning;
  ed_notice : option (string * bool);      (** the address served, and whether auth protects it *)
}.

Definition decideExposure (i : exposure_input) : exposure_decision :=
  let raw := js_trim (default "127.0.0.1" (ei_host i)) in
  let loopback := isLoopbackHost raw in
  let shipped := match ei_credentialTokens i with Some l => isPublishedDevCredential l | None => false end in
  let authed := ei_authed i && negb shipped in
  let hostname := if loopback && String.eqb (to_lower raw) "localhost" then "127.0.0.1" else raw in
  let displayHost := if loopback then "localhost" else if isWildcardHost raw then "localhost" else raw in
  let label := if negb (ei_authed i) then ModeOpen else if shipped then ModeShippedToken else ModeProtected in
  if negb loopback && negb authed && negb (ei_allowOpenNetwork i) then
    ExposureDecision loopback true hostname displayHost authed shipped label false (Some shipped) [] None
  else
    ExposureDecision loopback (negb loopback) hostname displayHost authed shipped label
      (negb authed && (loopback || ei_allowOpenNetwork i)) None
      ((if negb authed && loopback then [WarnLoopbackOpen] else []) ++
       (if negb loopback then [WarnReachable raw authed] else []))
      (if loopback then None else Some (hostname, authed)).

(** ** Theorems *)

(** The dotted address [a.b.c.d] of four decimal octets. *)
Definition dotted (a b c d : string) : string := a +:+ "." +:+ b +:+ "." +:+ c +:+ "." +:+ d.

Definition octet_of (s : string) (n : N) : Prop := octet s = Some n ∧ (n ≤ 255)%N.

(** Names and addresses of this machine alone. *)
Definition loopback_address (h : string) : Prop :=
  h = "localhost" ∨ h = "::1" ∨
  ∃ a b c d nb nc nd, h = dotted a b c d ∧ octet_of a 127 ∧ octet_of b nb ∧ octet_of c nc ∧ octet_of d nd.

Lemma octet_no_dot s n : octet s = Some n → has_char "." s = false.
Proof.
  unfold octet. destruct (str_exists _ s) eqn:Hs; [done|]. intros _. unfold has_char.
  induction s as [|c s IH]; [done|]. cbn in *. apply orb_false_iff in Hs as [Hc Hs]. rewrite (IH Hs), orb_false_r.
  destruct (Ascii.eqb_spec "." c) as [<-|]; done.
Qed.

Lemma split_dotted a b c d :
  has_char "." a = false → has_char "." b = false → has_char "." c = false → has_char "." d = false →
  split_at "." (dotted a b c d) = [a; b; c; d].
Proof.
  intros Ha Hb Hc Hd. unfold dotted. cbn [String.append].
  by rewrite !split_at_app, split_at_no.
Qed.

Lemma isLoopbackHost_spec host : isLoopbackHost host = true ↔ loopback_address (bare_host host).
Proof.
  unfold isLoopbackHost, loopback_address. set (h := bare_host host).
  destruct (String.eqb_spec h "localhost") as [->|Hl]; [split; [by left|done]|].
  destruct (String.eqb_spec h "::1") as [->|H1]; [split; [by right; left|done]|]. cbn [orb].
  split.
  - intros H. right. right. pose proof (join_split "." h) as Hj.
    destruct (split_at "." h) as [|a [|b [|c [|d []]]]]; try discriminate H. cbn [join_at] in Hj.
    destruct (octet a) as [na|] eqn:Ha; [|discriminate H]. destruct (octet b) as [nb|] eqn:Hb; [|discriminate H].
    destruct (octet c) as [nc|] eqn:Hc; [|discriminate H]. destruct (octet d) as [nd|] eqn:Hd; [|discriminate H].
    destruct (existsb _ _) eqn:He; [discriminate H|]. apply N.eqb_eq in H as ->. cbn [existsb] in He.
    apply orb_false_iff in He as [_ He]. apply orb_false_iff in He as [He1 He].
    apply orb_false_iff in He as [He2 He]. apply orb_false_iff in He as [He3 _].
    apply N.ltb_ge in He1, He2, He3.
    exists a, b, c, d, nb, nc, nd. by split_and!.
  - intros [?|[?|(a & b & c & d & nb & nc & nd & Hh & [Ha _] & [Hb Lb] & [Hc Lc] & [Hd Ld])]]; [done..|].
    rewrite Hh, split_dotted by (by eapply octet_no_dot). rewrite Ha, Hb, Hc, Hd. cbn [existsb].
    rewrite !(proj2 (N.ltb_ge _ _)) by done. done.
Qed.

(** A surface is refused exactly when it would be reachable from the network without a
    credential that protects it, unless the operator allowed that explicitly: a host is local only if
    it is localhost, ::1 or an address in 127.0.0.0/8 written out as four octets (no name of somebody's domain),
    and a provider whose every token was published by this project counts as none.  A surface that
    starts is handed open access exactly when nothing protects it, so its gate can always be set up,
    and it is announced as exposed exactly when it is. *)
Theorem exposure_exact (i : exposure_input) :
  let host := bare_host (js_trim (default "127.0.0.1" (ei_host i))) in
  let published := ∃ l, ei_credentialTokens i = Some l ∧ present_tokens l ≠ [] ∧
                     ∀ t, t ∈ present_tokens l → t ∈ PUBLISHED_DEV_TOKENS in
  let protected := ei_authed i = true ∧ ¬ published in
  let d := decideExposure i in
  (is_Some (ed_refusal d) ↔ ¬ loopback_address host ∧ ¬ protected ∧ ei_allowOpenNetwork i = false) ∧
  (ed_exposed d = true ↔ ¬ loopback_address host) ∧
  (ed_authed d = true ↔ protected) ∧
  (ed_refusal d = None →
     (ed_allowOpenAccess d = true ↔ ¬ protected) ∧
     (is_Some (ed_notice d) ↔ ¬ loopback_address host) ∧
     ∀ (W E : Type) (p : auth_provider W E) production,
       is_ok (makeGate production (ed_allowOpenAccess d) (if ed_authed d then Some p else None)) = true).
Proof.
  intros host published protected d.
  set (raw := js_trim (default "127.0.0.1" (ei_host i))) in *.
  set (shipped := match ei_credentialTokens i with Some l => isPublishedDevCredential l | None => false end).
  assert (Hship : shipped = true ↔ published).
  { unfold shipped, published. destruct (ei_credentialTokens i) as [l|]; [|split; [done|by intros (? & ? & _)]].
    unfold isPublishedDevCredential. rewrite andb_true_iff, negb_true_iff, Nat.eqb_neq, forallb_forall.
    setoid_rewrite includes_elem. setoid_rewrite <-list_elem_of_In. split.
    - intros [Hn Hall]. exists l. split_and!; [done| |exact Hall]. by intros Hnil; rewrite Hnil in Hn.
    - intros (l' & [= <-] & Hn & Hall). split; [|exact Hall]. by destruct (present_tokens l). }
  assert (Hauthed : ei_authed i && negb shipped = true ↔ protected).
  { unfold protected. rewrite andb_true_iff, negb_true_iff, <-not_true_iff_false, Hship. done. }
  pose proof (isLoopbackHost_spec raw) as Hloop. fold host in Hloop.
  unfold d, decideExposure. fold raw shipped.
  rewrite <-Hauthed, <-Hloop. clear Hauthed Hloop Hship.
  rewrite !is_Some_alt.
  destruct (isLoopbackHost raw), (ei_authed i && negb shipped), (ei_allowOpenNetwork i); cbn;
    (split_and!; [intuition congruence..|]); intros; split_and!; try (intuition congruence);
    by intros W E p [].
Qed.

Lemma isLoopbackHost_examples :
  map isLoopbackHost ["LOCALHOST"; "127.5.5.5"; "127.0.0.1.evil.com"; "[::1]"; "0.0.0.0"; "127.0.0.256"] =
  [true; true; false; true; false; false].
Proof. vm_compute. reflexivity. Qed.
