(* ===== verification/Users.v ===== *)
(** * Users: the user routes of Studio

    Models the routes [GET /users], [POST /users], [PATCH /users/:id] and [POST /users/:id/revoke] of
    [packages/studio/src/server.ts], behind the gate ([Gate]) and the privilege ceiling ([Access]);
    [DELETE /users/:id] is not modelled.  The user store is the host's ([StudioUserStore]): an interface
    here, of which nothing is assumed, since its documentation promises nothing of what [list] shows.  A handler
    therefore reports the calls it makes to the store, and the properties speak of these calls.
    A body is given by its fields; a falsy value of a wrong type reads as an absent field, and
    the text of the audit log is reduced to its action and target. *)

From S2P Require Import Prelude JsMap Journal Access Http Gate.

Record studio_user := StudioUser {
  su_id : string;
  su_roles : list string;
  su_kind : option PrincipalKind;
  su_permissions : option (list string);
  su_orgId : option string;
}.

(** The input of [create] and of [update]. *)
Record new_user := NewUser {
  nu_email : option string;
  nu_name : option string;
  nu_roles : option (list string);
  nu_permissions : option (list string);
  nu_orgId : option string;
  nu_kind : option PrincipalKind;
  nu_ttlMs : option Z;
  nu_expiresAt : option Z;
}.

Record user_patch := UserPatch {
  up_roles : option (list string);
  up_permissions : option (list string);
  up_kind : option PrincipalKind;
}.

(** [StudioUserStore]; [update] and [revoke] are optional, and a call that throws may have written. *)
Class UserStore (S : Type) := {
  us_list : S → list studio_user;
  us_create : new_user → S → outcome string (studio_user * string) * S;
  us_update : option (string → user_patch → S → outcome string studio_user * S);
  us_revoke : option (string → S → outcome string unit * S);
}.

(** The calls that change the store. *)
Inductive store_call :=
| CallCreate (input : new_user)
| CallUpdate (id : string) (patch : user_patch)
| CallRevoke (id : string).

(** What a call leaves of the store. *)
Definition after_call {S} `{!UserStore S} (c : store_call) (s : S) : S :=
  match c with
  | CallCreate i => snd (us_create i s)
  | CallUpdate id p => match us_update with Some update => snd (update id p s) | None => s end
  | CallRevoke id => match us_revoke with Some revoke => snd (revoke id s) | None => s end
  end.

Inductive field (A : Type) := Absent | Given (a : A) | Malformed.
Arguments Absent {A}. Arguments Given {A}. Arguments Malformed {A}.

Definition given {A} (f : field A) : option A := match f with Given a => Some a | _ => None end.
Definition malformed {A} (f : field A) : bool := match f with Malformed => true | _ => false end.
Definition absent {A} (f : field A) : bool := match f with Absent => true | _ => false end.

Record user_body := UserBody {
  ub_email : option string;
  ub_name : option string;
  ub_roles : field (list string);
  ub_permissions : field (list string);
  ub_orgId : option string;
  ub_kind : field PrincipalKind;
  ub_ttlMs : field Z;
  ub_expiresAt : field Z;
}.

Inductive user_error :=
| NotEnabled
| BadField (name : string)
| OverCeiling (r : ceiling_reason)
| OrgScope (own : string)
| InvalidOrg
| NoSuchOrg (id : string)
| NothingToUpdate
| StoreError (message : string).

Inductive user_response :=
| GateRefused (status : Z) (error : string)
| Failed (status : Z) (e : user_error)
| Listed (l : list studio_user)
| Created (u : studio_user) (token : string)
| Updated (u : studio_user)
| Revoked (id : string)
| Crashed.

Definition ORG_RECORD_PRE : string := "__org__:".
Definition ORG_KEY_PRE : string := "org:".

Section Users.
Context {W E V S : Type} `{!JsValue V, !UserStore S}.
Variable urlHostname : string → option string.
Variable auth : option (auth_provider W E).
Variable root : mem_journal V.             (** the root journal *)
Variable enabled : bool.                   (** [opts.users] is given *)

(** A handler calls the user store, and logs audit entries. *)
Record handled := Handled {
  h_response : user_response;
  h_notes : gate_notes;
  h_store : S;
  h_calls : list store_call;
  h_audit : list (string * string);
}.

(** An answer without a call to the store. *)
Definition answered (a : user_response) (g : gate_notes) (s : S) : handled := Handled a g s [] [].

Definition orgExists (id : string) : bool :=
  bool_decide (is_Some (mj_get (ORG_RECORD_PRE +:+ id) root)) ||
  negb (length (mj_listKeys (ORG_KEY_PRE +:+ id +:+ ":") root) =? 0).

Definition own_of (g : gate_notes) : option string := principalOf g ≫= p_orgId.

Definition org_refused (g : gate_notes) (own : string) (s : S) : handled :=
  answered (Failed 403 (OrgScope own))
    (set_notes g (markRefusal Organization (Some "org_scope_refused") None (gn_notes g))) s.

(** [if (!(await allowP(req, permission))) return deny(req, act)], then the rest. *)
Definition gated (w : W) (rq : request) (permission : string) (act : action) (s : S)
    (rest : gate_notes → handled) : handled :=
  match allowP urlHostname auth w rq permission fresh_request with
  | (Ok true, g) => rest g
  | (Ok false, g) => let '(status, error) := deny act g in answered (GateRefused status error) g s
  | (Err _, g) => answered Crashed g s
  end.

Definition getUsers (w : W) (rq : request) (s : S) : handled :=
  gated w rq "users:read" Read s (λ g,
    if negb enabled then answered (Listed []) g s
    else answered (Listed (match truthy (own_of g) with
                  | Some own => filter (λ u, su_orgId u = Some own) (us_list s)
                  | None => us_list s
                  end)) g s).

Definition body_error (body : user_body) : option string :=
  if malformed (ub_kind body) then Some "kind"
  else if malformed (ub_roles body) then Some "roles"
  else if malformed (ub_permissions body) then Some "permissions"
  else if malformed (ub_ttlMs body) || match ub_ttlMs body with Given t => (t <=? 0)%Z | _ => false end then Some "ttlMs"
  else if malformed (ub_expiresAt body) then Some "expiresAt"
  else None.

Definition requested (body : user_body) : grant :=
  Grant (given (ub_roles body)) (given (ub_permissions body)) (given (ub_kind body)).

(** The organization of the new user, or the refusal. *)
Inductive target_org := TargetOrg (orgId : option string) | TargetRefused (own : string) | TargetInvalid | TargetMissing (id : string).

Definition target_of (own : option string) (body : user_body) : target_org :=
  let target := truthy (js_trim <$> ub_orgId body) in
  match truthy own with
  | Some own =>
      match target with
      | Some t => if String.eqb t own then TargetOrg (Some own) else TargetRefused own
      | None => TargetOrg (Some own)
      end
  | None =>
      match target with
      | Some t => if has_char ":" t then TargetInvalid else if orgExists t then TargetOrg (Some t) else TargetMissing t
      | None => TargetOrg None
      end
  end.

Definition postUsers (w : W) (rq : request) (body : user_body) (s : S) : handled :=
  gated w rq "users:write" Write s (λ g,
    if negb enabled then answered (Failed 501 NotEnabled) g s
    else match body_error body with
    | Some name => answered (Failed 400 (BadField name)) g s
    | None =>
        match assertAssignablePrivileges (principalOf g) (requested body) with
        | Some r => answered (Failed 403 (OverCeiling r)) g s
        | None =>
            match target_of (own_of g) body with
            | TargetRefused own => org_refused g own s
            | TargetInvalid => answered (Failed 400 InvalidOrg) g s
            | TargetMissing id => answered (Failed 400 (NoSuchOrg id)) g s
            | TargetOrg orgId =>
                let permissions := match given (ub_permissions body) with Some [] => None | p => p end in
                let input := NewUser (ub_email body) (ub_name body) (given (ub_roles body)) permissions orgId
                               (given (ub_kind body)) (given (ub_ttlMs body)) (given (ub_expiresAt body)) in
                match us_create input s with
                | (Err e, s') => Handled (Failed 400 (StoreError e)) g s' [CallCreate input] []
                | (Ok (u, token), s') => Handled (Created u token) g s' [CallCreate input] [("user.create", su_id u)]
                end
            end
        end
    end).

(** An identity bound to an organization acts on the members it can see of it. *)
Definition outside (own : option string) (id : string) (l : list studio_user) : option string :=
  match truthy own with
  | None => None
  | Some own =>
      match find (λ u, String.eqb (su_id u) id) l with
      | Some u => if bool_decide (su_orgId u = Some own) then None else Some own
      | None => Some own
      end
  end.

Definition patchUser (w : W) (rq : request) (id : string) (body : user_body) (s : S) : handled :=
  gated w rq "users:write" Write s (λ g,
    match us_update with
    | None => answered (Failed 501 NotEnabled) g s
    | Some update =>
        if negb enabled then answered (Failed 501 NotEnabled) g s
        else match outside (own_of g) id (us_list s) with
        | Some own => org_refused g own s
        | None =>
            if malformed (ub_kind body) then answered (Failed 400 (BadField "kind")) g s
            else if malformed (ub_roles body) then answered (Failed 400 (BadField "roles")) g s
            else if malformed (ub_permissions body) then answered (Failed 400 (BadField "permissions")) g s
            else if absent (ub_roles body) && absent (ub_permissions body) && absent (ub_kind body)
            then answered (Failed 400 NothingToUpdate) g s
            else match assertAssignablePrivileges (principalOf g) (requested body) with
            | Some r => answered (Failed 403 (OverCeiling r)) g s
            | None =>
                let patch := UserPatch (given (ub_roles body)) (given (ub_permissions body)) (given (ub_kind body)) in
                match update id patch s with
                | (Err e, s') => Handled (Failed 400 (StoreError e)) g s' [CallUpdate id patch] []
                | (Ok u, s') => Handled (Updated u) g s' [CallUpdate id patch] [("user.update", id)]
                end
            end
        end
    end).

Definition revokeUser (w : W) (rq : request) (id : string) (s : S) : handled :=
  gated w rq "users:write" Write s (λ g,
    match us_revoke with
    | None => answered (Failed 501 NotEnabled) g s
    | Some revoke =>
        if negb enabled then answered (Failed 501 NotEnabled) g s
        else match outside (own_of g) id (us_list s) with
        | Some own => org_refused g own s
        | None =>
            match revoke id s with
            | (Err _, s') => Handled Crashed g s' [CallRevoke id] []
            | (Ok _, s') => Handled (Revoked id) g s' [CallRevoke id] [("user.revoke", id)]
            end
        end
    end).

(** A request for one of the routes, in the world it arrives in. *)
Inductive user_request :=
| GetUsers
| PostUsers (body : user_body)
| PatchUser (id : string) (body : user_body)
| RevokeUser (id : string).

Definition serve (w : W) (rq : request) (r : user_request) (s : S) : handled :=
  match r with
  | GetUsers => getUsers w rq s
  | PostUsers body => postUsers w rq body s
  | PatchUser id body => patchUser w rq id body s
  | RevokeUser id => revokeUser w rq id s
  end.

(** Who acts, on a request that writes, once the gate lets it through. *)
Definition acting (w : W) (rq : request) : option principal :=
  principalOf (snd (allowP urlHostname auth w rq "users:write" fresh_request)).

(** A sequence of requests: the answers, every call to the store with who made it, and what they
    leave of the store. *)
Fixpoint serve_all (l : list (W * request * user_request)) (s : S) :
    list user_response * list (option principal * store_call) * S :=
  match l with
  | [] => ([], [], s)
  | (w, rq, r) :: l =>
      let h := serve w rq r s in
      let '(answers, calls, s') := serve_all l (h_store h) in
      (h_response h :: answers, map (pair (acting w rq)) (h_calls h) ++ calls, s')
  end.

(** ** What the routes ask of the store *)

Definition call_roles (c : store_call) : list string :=
  match c with CallCreate i => default [] (nu_roles i) | CallUpdate _ p => default [] (up_roles p) | CallRevoke _ => [] end.

Definition call_permissions (c : store_call) : list string :=
  match c with CallCreate i => default [] (nu_permissions i) | CallUpdate _ p => default [] (up_permissions p) | CallRevoke _ => [] end.

Definition call_kind (c : store_call) : option PrincipalKind :=
  match c with CallCreate i => nu_kind i | CallUpdate _ p => up_kind p | CallRevoke _ => None end.

(** What [p] may ask of a store that lists [l]: grants that reach beyond one organization are for
    platform admins, kinds other than the end user's are for staff, and an identity bound to an
    organization adds members to it and acts on the members of it that it can see. *)
Definition within (p : option principal) (l : list studio_user) (c : store_call) : Prop :=
  (isPlatformAdmin p = false → (PLATFORM_ADMIN_ROLE ∉ call_roles c) ∧ ("*" ∉ call_permissions c)) ∧
  (callerKind p ≠ Some Operator → call_kind c = None ∨ call_kind c = Some Subject) ∧
  (∀ o, truthy (p ≫= p_orgId) = Some o →
     match c with
     | CallCreate i => nu_orgId i = Some o
     | CallUpdate id _ | CallRevoke id => ∃ u, find (λ u, String.eqb (su_id u) id) l = Some u ∧ su_orgId u = Some o
     end).

Lemma ceiling_none p body :
  assertAssignablePrivileges p (requested body) = None →
  (isPlatformAdmin p = false →
     (PLATFORM_ADMIN_ROLE ∉ default [] (given (ub_roles body))) ∧ ("*" ∉ default [] (given (ub_permissions body)))) ∧
  (callerKind p ≠ Some Operator → ∀ k, given (ub_kind body) = Some k → k = Subject).
Proof.
  unfold assertAssignablePrivileges, requested. cbn [g_kind g_roles g_permissions]. intros H. split.
  - intros Hp. rewrite Hp in H. revert H. rewrite <-!includes_elem.
    destruct (given (ub_kind body)) as [[]|]; destruct (includes PLATFORM_ADMIN_ROLE _), (includes "*" _);
      try destruct (bool_decide _); done.
  - intros Hk k Hg. rewrite Hg, (bool_decide_eq_false_2 _ Hk) in H. by destruct k.
Qed.

Lemma target_bound own body o org : truthy own = Some o → target_of own body = TargetOrg org → org = Some o.
Proof. unfold target_of. intros ->. destruct (truthy _); [destruct (String.eqb _ _)|]; congruence. Qed.

Lemma outside_bound own id l o :
  truthy own = Some o → outside own id l = None →
  ∃ u, find (λ u, String.eqb (su_id u) id) l = Some u ∧ su_orgId u = Some o.
Proof. unfold outside. intros ->. destruct (find _ l) as [u|]; [|done]. case_bool_decide; [eauto|done]. Qed.

(** What a handler did: nothing, or one call, by an identity the gate let through, and within its limits. *)
Definition did (w : W) (rq : request) (s : S) (h : handled) : Prop :=
  (h_calls h = [] ∧ h_store h = s) ∨
  ∃ c, h_calls h = [c] ∧ h_store h = after_call c s ∧
    fst (allowP urlHostname auth w rq "users:write" fresh_request) = Ok true ∧
    within (acting w rq) (us_list s) c.

Lemma did_nothing w rq s a g : did w rq s (answered a g s).
Proof. by left. Qed.

Lemma did_gated w rq act s rest :
  (∀ g, principalOf g = acting w rq → fst (allowP urlHostname auth w rq "users:write" fresh_request) = Ok true →
        did w rq s (rest g)) →
  did w rq s (gated w rq "users:write" act s rest).
Proof.
  intros H. unfold gated. unfold acting in H. destruct (allowP _ _ _ _ _ _) as [[[]|e] g]; [by apply H|..|by left].
  destruct (deny act g). by left.
Qed.

Lemma did_call w rq s c a g s' au :
  s' = after_call c s → fst (allowP urlHostname auth w rq "users:write" fresh_request) = Ok true →
  within (acting w rq) (us_list s) c → did w rq s (Handled a g s' [c] au).
Proof. intros -> Hok Hin. right. by exists c. Qed.

Lemma serve_did w rq r s : did w rq s (serve w rq r s).
Proof.
  destruct r as [|body|id body|id]; cbn [serve].
  - unfold getUsers, gated. destruct (allowP _ _ _ _ _ _) as [[[]|e] g]; [destruct (negb enabled)|destruct (deny Read g)|]; by left.
  - apply did_gated. intros g Hp Hok. unfold own_of. rewrite Hp.
    destruct (negb enabled); [by left|]. destruct (body_error body); [by left|].
    destruct (assertAssignablePrivileges _ _) eqn:Hceil; [by left|]. apply ceiling_none in Hceil as [Hg Hk].
    destruct (target_of _ body) as [org|own| |id] eqn:Ht; [|by left..]. cbv zeta.
    destruct (us_create _ s) as [[[u token]|e] s'] eqn:Hc; (apply did_call; [by cbn; rewrite Hc|done|]).
    all: split_and!; [intros Hpa; destruct (Hg Hpa) as [Hr Hs]; split; [done|]; cbn; by destruct (given (ub_permissions body)) as [[]|]
                     |intros Hop; cbn; destruct (given (ub_kind body)) as [k|]; [right; by rewrite (Hk Hop k)|by left]
                     |intros o Ho; exact (target_bound _ _ _ _ Ho Ht)].
  - apply did_gated. intros g Hp Hok. unfold own_of. rewrite Hp.
    destruct us_update as [update|] eqn:Hu; [|by left]. destruct (negb enabled); [by left|].
    destruct (outside _ id _) eqn:Hout; [by left|]. do 4 (case_match; [by left|]).
    destruct (assertAssignablePrivileges _ _) eqn:Hceil; [by left|]. apply ceiling_none in Hceil as [Hg Hk]. cbv zeta.
    destruct (update _ _ s) as [[u|e] s'] eqn:Hup; (apply did_call; [by cbn; rewrite Hu, Hup|done|]).
    all: split_and!; [done
                     |intros Hop; cbn; destruct (given (ub_kind body)) as [k|]; [right; by rewrite (Hk Hop k)|by left]
                     |intros o Ho; by apply (outside_bound _ _ _ _ Ho)].
  - apply did_gated. intros g Hp Hok. unfold own_of. rewrite Hp.
    destruct us_revoke as [revoke|] eqn:Hu; [|by left]. destruct (negb enabled); [by left|].
    destruct (outside _ id _) eqn:Hout; [by left|].
    destruct (revoke id s) as [[[]|e] s'] eqn:Hr; (apply did_call; [by cbn; rewrite Hu, Hr|done|]).
    all: split_and!; [intros _; split; apply not_elem_of_nil|by left|intros o Ho; by apply (outside_bound _ _ _ _ Ho)].
Qed.

(** ** Properties *)

Definition after_calls (calls : list (option principal * store_call)) (s : S) : S :=
  foldl (λ s pc, after_call (snd pc) s) s calls.

End Users.

(** ** A store in memory, and examples *)

Fixpoint letters (n : nat) : string := match n with 0 => "" | S n => String "u" (letters n) end.

(** The fields of a user that a patch sets; an empty list of permissions clears them. *)
Definition patched (p : user_patch) (u : studio_user) : studio_user :=
  StudioUser (su_id u) (default (su_roles u) (up_roles p))
    (match up_kind p with Some k => Some k | None => su_kind u end)
    (match up_permissions p with Some [] => None | Some l => Some l | None => su_permissions u end)
    (su_orgId u).

#[export] Instance memory_store : UserStore (list studio_user) := {|
  us_list := λ l, l;
  us_create := λ i l,
    let u := StudioUser (letters (S (length l))) (default [] (nu_roles i)) (nu_kind i) (nu_permissions i) (nu_orgId i) in
    (Ok (u, "token"), u :: l);
  us_update := Some (λ id p l,
    (Ok (patched p (default (StudioUser id [] None None None) (find (λ v, String.eqb (su_id v) id) l))),
     map (λ v, if String.eqb (su_id v) id then patched p v else v) l));
  us_revoke := Some (λ _ l, (Ok tt, l));
|}.

(** The world is who asks. *)
Definition studio_provider : auth_provider (option principal) string :=
  AuthProvider (λ w _, Ok (w, false)) (λ _ p _ _, Ok (match p with Some _ => Allowed | None => Denied (Some 401%Z) None end)) None None.

Definition org_admin : option principal := Some (Principal (Some Operator) None None ["admin"] (Some "acme") None None).

Definition users_request : request := Request "PATCH" [] "localhost" "/users/u1" [].

Definition hire (roles : list string) : user_body := UserBody (Some "b@acme") None (Given roles) Absent None Absent Absent Absent.

(** What the owner of a stored user authenticates as: a user that reports no kind is an end user. *)
Definition stored_principal (u : studio_user) : principal :=
  Principal (Some (default Subject (su_kind u))) (Some (su_id u)) None (su_roles u) (su_orgId u) (su_permissions u) None.

Definition promote : user_body := UserBody None None Absent Absent None (Given Operator) Absent Absent.

Definition sleeper : studio_user := StudioUser "u1" [PLATFORM_ADMIN_ROLE] (Some Subject) None (Some "acme").

(** A grant that lies dormant escapes the ceiling: the platform role is inert on a user that
    is not staff, and the ceiling judges only the values of one request, so an operator that is no
    platform admin makes such a user staff by changing its kind alone, and creates a platform admin. *)
Example dormant_grant_promoted :
  isPlatformAdmin org_admin = false ∧ isPlatformAdmin (Some (stored_principal sleeper)) = false ∧
  map (λ u, isPlatformAdmin (Some (stored_principal u)))
    (h_store (patchUser (λ _, None) (Some studio_provider) true org_admin users_request "u1" promote [sleeper])) = [true].
Proof. vm_compute. done. Qed.

Definition user_requests : list (option principal * request * user_request) :=
  [(org_admin, users_request, PostUsers (hire [PLATFORM_ADMIN_ROLE]));
   (org_admin, users_request, PostUsers (hire ["viewer"]));
   (org_admin, users_request, PatchUser "u" (hire ["admin"; PLATFORM_ADMIN_ROLE]));
   (org_admin, users_request, RevokeUser "u");
   (org_admin, users_request, RevokeUser "elsewhere")].

Example user_requests_served :
  fst (serve_all (V := string) (λ _, None) (Some studio_provider) empty_journal true user_requests []) =
    ([Failed 403 (OverCeiling OnlyPlatformAdminRole);
      Created (StudioUser "u" ["viewer"] None None (Some "acme")) "token";
      Failed 403 (OverCeiling OnlyPlatformAdminRole); Revoked "u"; Failed 403 (OrgScope "acme")],
     [(org_admin, CallCreate (NewUser (Some "b@acme") None (Some ["viewer"]) None (Some "acme") None None None));
      (org_admin, CallRevoke "u")]).
Proof. vm_compute. reflexivity. Qed.

